(* ===== verification/_CoqProject ===== *)
-Q . S2P
Prelude.v
Bytes.v
Text.v
DeliveryId.v
DeliveryTracker.v
Memory.v
RowCount.v
Schema.v
Arrow.v
Delivery.v
Changelog.v
Collapse.v
ChangelogRuns.v
ChangelogProjection.v
Failure.v
Reader.v
Admission.v
Parser.v
Retry.v
OpenSearchBulk.v
Pipeline.v
OpenSearchLanes.v
OpenSearchDocument.v
OpenSearchSink.v
OpenSearchDurable.v
OpenSearchPipeline.v
MySqlPosition.v
SnapshotQueue.v
SnapshotCover.v
SnapshotDurable.v
SnapshotPlan.v
Durable.v
DurableStorage.v
DurableCrash.v
DurableRecord.v
MySqlTables.v
MySqlOffset.v
MySqlPhase.v
MySqlIdentity.v
MySqlTableMap.v
TableSelection.v
MySqlDecoder.v
Semantics.v
PgTables.v
PgNumeric.v
PgOutput.v
PgLsn.v
PgSlot.v
PgPhase.v
S3Objects.v
S3Partition.v
S3Journal.v
S3Epochs.v
S3Cut.v
S3Sink.v
S3Replay.v
S3Durable.v
S3Example.v
S3Upload.v
JsonWriter.v
JsonText.v
Debezium.v
DebeziumText.v
Wire.v
QueueParsers.v
