(* ===== verification/Prelude.v ===== *)
(** * Verification of the transferia data plane

    transferia copies data from sources to sinks in partition pipelines.  A source yields
    batches with an offset marker; the reader numbers them as deliveries and commits an
    offset only when the sink reports its delivery durable; the parser turns raw messages
    into tables; an admission task announces new datasets to the sink; the sink encodes,
    buffers and writes, and reports progress through a delivery tracker; a shared memory
    budget bounds the bytes in flight.  All paths below are under src/crates/.

    ** Files

    - [Prelude]: results, machine integers, ordered maps, sums, tactics and hints; [Bytes]:
      byte encodings and length-framed fields; [Text]: the operations on ASCII and UTF-8 text
      of the standard library.
    - [DeliveryId], [DeliveryTracker]: transferia-core/src/sink.rs (identifiers) and
      transferia-delivery-contracts/src/delivery_tracker.rs.  [DeliveryTracker.Spec] is the
      queue the tracker implements; [represents] is the refinement relation.
    - [Memory]: transferia-core/src/memory.rs.  Every operation is a sequence of atomic
      accesses to the shared counters, one step each; [reachable] is any interleaving of
      any number of calls.
    - [RowCount]: transferia-pipeline/src/row_count.rs, committed and pending row counts.
    - [Schema]: transferia-core/src/data/schema.rs, change.rs, system_columns.rs; [Arrow]:
      the interface to arrow-rs (types, arrays, batches, kernels with their laws) and an
      instance of it.
    - [Delivery]: transferia-core/src/delivery.rs, discovery, topology and validation.
    - [Changelog]: transferia-core/src/data/changelog.rs, projection of a batch and
      collapsing of its changes; [Collapse], [ChangelogRuns] and [ChangelogProjection] hold
      the proofs.
    - [Failure]: transferia-core/src/failure.rs and the outcome functions of
      transferia-pipeline/src/lib.rs.
    - [Reader]: [reader_loop] and [commit_through] of transferia-pipeline/src/lib.rs as a
      state machine, one state per await point.
    - [Admission]: transferia-pipeline/src/admission.rs as a state machine.
    - [Parser]: [parser_loop] of transferia-pipeline/src/lib.rs, one call of [handle] per
      envelope.
    - [Pipeline]: reader, parser and tracker connected.
    - [Retry]: transferia-delivery-contracts/src/retry.rs.
    - [OpenSearchBulk], [OpenSearchLanes], [OpenSearchSink]: sink/bulk.rs, sink/config.rs
      and sink/actor.rs of transferia-connector-opensearch; [OpenSearchDurable] proves the
      sink's invariant, [OpenSearchPipeline] connects it to the reader; [OpenSearchDocument]:
      sink/document.rs, the actions of a batch and their document ids.
    - [SnapshotQueue]: src_batch/queue.rs of transferia-connector-postgres, the tasks, lanes
      and markers of a parallel table snapshot; [SnapshotCover] proves that the tasks
      partition the rows, [SnapshotDurable] the invariant of a snapshot; [SnapshotPlan]: the
      chunks of a decision of src_batch/planner.rs.
    - [Durable]: transferia-registry/src/durable.rs, records in local files, over a disk with
      synced and unsynced directories, names and bytes; [DurableStorage]: the trait as a
      class; [DurableCrash] proves that the files implement it through failures and crashes
      that leave synced directories as they are, and that a new directory may be lost.
      [DurableRecord]: the protocol of a connector that keeps its state in one record, with
      the invariant its clients instantiate.
    - transferia-connector-mysql: [MySqlPosition]: src_stream/position.rs, binlog positions
      and GTID sets; [MySqlTables]: the table identities of src_batch_and_stream/mod.rs, the
      replication configuration and the validation of column metadata; [MySqlOffset]:
      src_stream/offset.rs and [MySqlPhase]: src_batch_and_stream/phase.rs, clients of
      [DurableRecord]; [MySqlIdentity]: src_stream/identity.rs; [MySqlTableMap] and
      [MySqlDecoder]: src_stream/decoder.rs, checksum.rs and ddl.rs.
    - [TableSelection]: transferia-registry/src/table_selection/mod.rs and the qualified
      names of traits.rs.
    - [Semantics]: transferia-delivery-contracts/src/semantics.rs, which source and sink pairs
      are accepted and with which guarantee.
    - transferia-connector-postgres: [PgOutput]: src_stream/pgoutput.rs and event.rs, the
      decoder of the replication protocol; [PgTables]: src_stream/identity.rs and
      relation_identity.rs, the identities of the replicated tables; [PgNumeric]: numeric.rs,
      NUMERIC text and binary fields; [PgLsn]: the log sequence numbers of
      src_stream/reader.rs; [PgSlot]: src_stream/slot_recovery.rs and [commit_offsets] of
      reader.rs, and [PgPhase]: src_batch_and_stream/phase.rs, clients of [DurableRecord].
    - transferia-connector-s3, the exactly-once JSON sink: [S3Objects]: object keys and file
      names; [S3Partition]: the routes of rows to partitions and their caches; [S3Journal]:
      the record of completed epochs, a client of [DurableStorage]; [S3Epochs]: the buffers
      of an epoch and the rules that close it; [S3Cut]: a reference for these rules, which
      finds the ends of epochs from the messages of the open one alone; [S3Sink]: the sink's
      task as a state machine; [S3Upload]: uploads, multipart uploads and retries, and what
      their requests may do to the bucket, answered or not.  [S3Replay], [S3Durable] and
      [S3Example] hold the proofs across sessions and the examples.
    - transferia-connector-support: [JsonWriter]: serializer/json_serializer.rs, the JSON
      object of a row; [JsonText]: a JSON lexer as its reference; [Debezium]:
      serializer/debezium.rs, keys and envelopes of changes; [DebeziumText]: the objects they
      read as, and their effect on a log-compacted topic; [Wire]: the Protobuf wire format of
      parsers/protoscope.rs and the protoseq frames of parsers/protobuf.rs; [QueueParsers]:
      parsers/tskv.rs and parsers/raw_to_table.rs.

    ** Modelling

    Fallible code returns [result], with an error constructor or a numbered cause per
    failure.  Integers are [Z] with the wrapping,
    saturating or checked operation the source uses written out.  A [BTreeMap] is a [gmap]
    iterated in key order, a [HashMap] a [gmap] whose iteration order is a parameter.
    Asynchronous code is a state machine or a function of the answers of its environment:
    channels, clocks, services and blocking tasks answer arbitrarily, so a theorem over all
    inputs covers every schedule of them.  Fields called traces record what happened and
    influence no step.  Loops that are not structural carry fuel: the tracker's loop the
    number of entries, a bulk write [retry_max_attempts], a lane the number of its actions;
    the theorems show that it is enough.

    ** What the theorems show

    - End to end ([Pipeline], [OpenSearchPipeline]): a source offset is committed only for
      a delivery that is durable in the sink, in read order; with a fixed catalog the
      numbers always agree; with an evolving catalog the delivery after an announced
      dataset is refused by the sinks' trackers.
    - Components keep their invariants under any interleaving: the tracker implements its
      queue, the memory budget accounts exactly and loses no wake-up, row counts are exact,
      the reader commits each offset once, the admission task implements its contract,
      the parser loses no row, the OpenSearch sink never loses or duplicates an action.
    - Data: collapsing a changelog preserves its effect on every table, schemas survive the
      trip through Arrow metadata, batches are accepted exactly when they conform, an
      accepted projection satisfies what collapsing relies on, rows share a document id
      only when they share their key, GTID sets are exact sets of transactions, a table map
      is read without an index out of bounds, qualified names and ENUM members are read back.
    - Snapshots ([SnapshotDurable]): a PostgreSQL snapshot reported complete has read every
      row once, and published work is never read again.
    - Durable state: an applied value survives failures and crashes of synced directories
      ([DurableCrash]); against the interface [DurableStorage] alone, a committed MySQL offset
      is never undone ([MySqlOffset]) and the stream starts exactly at the boundary of the one
      snapshot ([MySqlPhase]).  The clients of the interface rely on its crash law, which the
      local files meet once the directory of the delivery is on the disk:
      [DurableCrash.fresh_directory_not_synced] is a crash before that.
    - Streams ([PgSlot], [PgPhase]): a PostgreSQL stream starts at its snapshot's position and
      resumes at or after every acknowledged one, with the replication slot at exactly that
      position; the slot moves only to durably recorded positions.  [PgOutput]: bytes are
      accepted exactly when they encode a message, except that bytes after a COMMIT are
      ignored, and exactly the changes of committed transactions are emitted, in order.
    - Values and contracts: NUMERIC text is parsed, printed and encoded exactly
      ([PgNumeric]), replicated tables are accepted exactly when unchanged ([PgTables]), a
      pipeline is accepted exactly when its sink preserves its source's records ([Semantics]).
    - S3: an offset is committed only when the objects of its rows are stored and the journal
      says so, through failing sessions and crashes ([S3Durable]); the objects of a session are
      those of the reference of [S3Cut], with further ends of epochs where the wall clock, if
      it is configured to rotate, forced them, and without it a session that reads the same
      messages again cuts the same objects under the same keys; keys are unique when messages
      come in offset order ([S3Replay]); whatever becomes of its requests an upload leaves
      the object as it was or makes it exactly the payload, the latter on success ([S3Upload]).
    - JSON: a written row is one line that reads as exactly the row's names and cells, rows
      with NaN or an infinity are refused or have them as strings, and rows that compare equal
      are written alike ([JsonText]).  Debezium messages read as the
      events of their rows and keep a compacted topic equal to the table ([DebeziumText]).
    - Queue messages: Protobuf fields and TSKV records are read back, decoded fields are in
      range, no byte of a damaged protoseq is lost ([Wire]), every raw message is a row or a
      dead letter ([QueueParsers]).
    - The MySQL binlog decoder commits exactly the events of one transaction, within the
      configured limits, and decodes nothing whose checksum was not verified.
    - Deviations from what the code means to do are theorems too:
      [Pipeline.evolving_delivery_refused], [Memory.grow_overflow_leaks],
      [DurableCrash.dotted_keys_share_a_file], [DurableCrash.fresh_directory_not_synced],
      [S3Example.SinkExample.s3_straddling_delivery_repeats],
      [QueueParsers.raw_json_fails_batch].  [PgOutput.pgoutput_message_exact] shows the
      COMMIT that is accepted with bytes after it, and [JsonText.json_rows_exact] that NaN and
      the infinities are not written as null, as docs/json-serializer.md says they are.
    - Termination and liveness: the reader answers cancellation and drains, parked
      reservations complete, a closed sink ends, a bulk write ends.

    ** Not modelled

    Metrics and log messages; the spawning of tasks (their outcomes are modelled); dropping
    a future that waits for memory, which holds nothing at its await point; operations of
    the row counter between the validation and the commit of one [commit_through] of the
    reader; parsing JSON, base64 and decimals, printing floats (serde_json, base64,
    bigdecimal and ryu are interfaces); CRC32, murmur3, regular expressions, the SQL parser,
    the event parser of mysql_async, the object store and the PostgreSQL server, which are
    interfaces; the JSON parser (simd-json); the choice of JSON column writers for the Arrow arrays of a batch; the Parquet writer of
    the S3 sink; an S3 session that continues the sink of another (each starts a new one);
    the cost estimates of the snapshot planner (floating point); protocol clients, the
    control plane, the command line and the runner's process handling. *)

From stdpp Require Import base tactics numbers option list sorting strings gmap fin_maps relations.

(** ** Results

    [anyhow::Result] and [DataPlaneResult]: fallible code returns a value or an
    error.  Every component has its own error type, one constructor per
    [ensure!], [bail!] or [ok_or_else] of the source. *)
Inductive result (E A : Type) : Type :=
| Ok (a : A)
| Err (e : E).
Arguments Ok {E A} _.
Arguments Err {E A} _.

#[export] Instance result_ret {E} : MRet (result E) := λ A a, Ok a.
#[export] Instance result_bind {E} : MBind (result E) := λ A B f m,
  match m with Ok a => f a | Err e => Err e end.
#[export] Instance result_fmap {E} : FMap (result E) := λ A B f m,
  match m with Ok a => Ok (f a) | Err e => Err e end.
#[export] Instance result_eq_dec `{EqDecision E, EqDecision A} :
  EqDecision (result E A).
Proof. solve_decision. Defined.

(** [anyhow::ensure!] *)
Definition ensure {E} (b : bool) (e : E) : result E unit :=
  if b then Ok tt else Err e.

(** [Option::ok_or_else] *)
Definition ok_or {E A} (o : option A) (e : E) : result E A :=
  match o with Some a => Ok a | None => Err e end.

Definition is_ok {E A} (r : result E A) : bool :=
  match r with Ok _ => true | Err _ => false end.

(** A [for] loop whose body may return early with an error. *)
Fixpoint for_each {E A S} (f : S → A → result E S) (l : list A) (s : S) : result E S :=
  match l with
  | [] => Ok s
  | x :: l => s' ← f s x; for_each f l s'
  end.

(** ** Machine integers

    A [u64] or [usize] is a [Z] kept in [0 .. max]; the target is 64-bit. *)
Definition u64_max : Z := 18446744073709551615.
Definition usize_max : Z := u64_max.
Definition u32_max : Z := 4294967295.
Definition i64_max : Z := 9223372036854775807.

Definition checked_add (max a b : Z) : option Z :=
  if bool_decide (a + b ≤ max)%Z then Some (a + b)%Z else None.
Definition checked_sub (a b : Z) : option Z :=
  if bool_decide (b ≤ a)%Z then Some (a - b)%Z else None.
Definition saturating_add (max a b : Z) : Z := Z.min (a + b) max.
Definition saturating_sub (a b : Z) : Z := Z.max (a - b) 0.
Definition saturating_mul (max a b : Z) : Z := Z.min (a * b) max.
(** [fetch_add] and [fetch_sub] on atomics wrap around. *)
Definition wrapping_add (max a b : Z) : Z := (a + b) `mod` (max + 1).
Definition wrapping_sub (max a b : Z) : Z := (a - b) `mod` (max + 1).
Definition wrapping_mul (max a b : Z) : Z := (a * b) `mod` (max + 1).

(** [str::as_bytes] *)
Definition string_bytes (s : string) : list Z :=
  (λ a, Z.of_N (Ascii.N_of_ascii a)) <$> String.list_ascii_of_string s.
(** [str::len] *)
Definition string_len (s : string) : Z := Z.of_nat (length (string_bytes s)).

(** ** Ordered iteration

    [BTreeMap] is a [gmap] whose iteration order is the key order. *)
Section btree.
Context `{Countable K} (R : relation K) `{!RelDecision R}.

Definition bt_le {A} (x y : K * A) : Prop := R x.1 y.1.

#[export] Instance bt_le_dec {A} : RelDecision (@bt_le A).
Proof. intros x y. unfold bt_le. apply _. Defined.

Definition bt_iter {A} (m : gmap K A) : list (K * A) :=
  merge_sort bt_le (map_to_list m).
End btree.

(** The sum of [f] over the values of a map. *)
Definition msum `{Countable K} {A} (f : A → Z) (m : gmap K A) : Z :=
  map_fold (λ _ x acc, (f x + acc)%Z) 0%Z m.

(** The sum of [f] over a list. *)
Definition lsum {A} (f : A → Z) (l : list A) : Z := foldr (λ x acc, (f x + acc)%Z) 0%Z l.

(** ** Automation *)
Create HintDb transferia.
Create Rewrite HintDb transferia_rw.

(** Split a successful monadic computation into its steps. *)
Ltac res_inv :=
  repeat match goal with
  | H : Ok _ = Ok _ |- _ => injection H as H; subst
  | H : Err _ = Err _ |- _ => injection H as H; subst
  | H : Ok _ = Err _ |- _ => discriminate H
  | H : Err _ = Ok _ |- _ => discriminate H
  | H : mret _ = Ok _ |- _ => unfold mret, result_ret in H
  | H : ensure ?b _ = Ok _ |- _ =>
      let E := fresh "E" in destruct b eqn:E; [clear H|discriminate H]
  | H : ok_or ?o _ = Ok _ |- _ =>
      let E := fresh "E" in destruct o eqn:E; [|discriminate H]; cbn [ok_or] in H
  | H : (?m ≫= ?f) = Ok _ |- _ =>
      let E := fresh "E" in let e := fresh "e" in
      destruct m as [|e] eqn:E; [|discriminate H];
      cbn [mbind result_bind] in H
  end.

(** Turn boolean facts of the code's guards into propositions. *)
Ltac bool_inv :=
  repeat match goal with
  | H : _ && _ = true |- _ => apply andb_true_iff in H as [? ?]
  | H : _ || _ = false |- _ => apply orb_false_iff in H as [? ?]
  | H : negb _ = true |- _ => apply negb_true_iff in H
  | H : negb _ = false |- _ => apply negb_false_iff in H
  | H : bool_decide _ = true |- _ => apply bool_decide_eq_true in H
  | H : bool_decide _ = false |- _ => apply bool_decide_eq_false in H
  end.

(** ** Invariants of step relations *)
Lemma rtc_invariant {S} (R : relation S) (P : S → Prop) s s' :
  P s → (∀ a b, P a → R a b → P b) → rtc R s s' → P s'.
Proof. intros H0 Hstep Hrtc. induction Hrtc; eauto. Qed.

(** ** Lemmas on results *)
Section results.
Context {E A B : Type}.

Lemma bind_Ok (m : result E A) (f : A → result E B) b :
  (m ≫= f) = Ok b ↔ ∃ a, m = Ok a ∧ f a = Ok b.
Proof.
  destruct m as [a|e]; cbn; split.
  - eauto.
  - intros (a' & [= <-] & ?); done.
  - done.
  - intros (? & ? & ?); done.
Qed.

Lemma ensure_Ok (b : bool) (e : E) : ensure b e = Ok tt ↔ b = true.
Proof. destruct b; cbn; split; done. Qed.

Lemma mapM_Ok (f : A → result E B) l k :
  mapM f l = Ok k ↔ Forall2 (λ x y, f x = Ok y) l k.
Proof.
  revert k. induction l as [|x l IH]; intros k; cbn.
  - split; [intros [= <-]; constructor | by inversion 1].
  - split.
    + intros Hk. res_inv. constructor; [done|]. by apply IH.
    + inversion 1; subst. match goal with Hx : f x = _ |- _ => rewrite Hx end.
      cbn. match goal with Hl : Forall2 _ l _ |- _ => apply IH in Hl; rewrite Hl end.
      done.
Qed.

Lemma for_each_app (f : B → A → result E B) l1 l2 s :
  for_each f (l1 ++ l2) s = (s' ← for_each f l1 s; for_each f l2 s').
Proof.
  revert s. induction l1 as [|x l1 IH]; intros s; cbn; [done|].
  destruct (f s x); cbn; [apply IH | done].
Qed.

(** Loop invariant rule. *)
Lemma for_each_ind (P : list A → B → Prop) (f : B → A → result E B) l s s' :
  P [] s →
  (∀ l1 x l2 s1 s2, l = l1 ++ x :: l2 → P l1 s1 → f s1 x = Ok s2 → P (l1 ++ [x]) s2) →
  for_each f l s = Ok s' → P l s'.
Proof.
  intros H0 Hstep Hrun.
  cut (∀ l1 l2 s1, l = l1 ++ l2 → P l1 s1 → for_each f l2 s1 = Ok s' → P l s').
  { intros Hc. by eapply (Hc [] l s). }
  intros l1 l2. revert l1. induction l2 as [|x l2 IH]; intros l1 s1 -> HP Hr; cbn in Hr.
  - rewrite app_nil_r. by res_inv.
  - res_inv. eapply (IH (l1 ++ [x])); [by rewrite <-app_assoc | by eauto | done].
Qed.
End results.

(** A loop of checks. *)
Lemma for_each_unit {E A} (f : unit → A → result E unit) l :
  for_each f l tt = Ok tt ↔ Forall (λ x, f tt x = Ok tt) l.
Proof.
  induction l as [|x l IH]; cbn [for_each]; [by split|]. rewrite Forall_cons, <-IH. destruct (f tt x) as [[]|]; cbn; naive_solver.
Qed.

(** ** Lemmas on machine integers *)
Lemma checked_add_Some max a b c :
  checked_add max a b = Some c ↔ c = (a + b)%Z ∧ (a + b ≤ max)%Z.
Proof. unfold checked_add. case_bool_decide; split; intuition congruence. Qed.

Lemma checked_add_None max a b :
  checked_add max a b = None ↔ (max < a + b)%Z.
Proof. unfold checked_add. case_bool_decide; split; (done || lia). Qed.

Lemma checked_sub_Some a b c :
  checked_sub a b = Some c ↔ c = (a - b)%Z ∧ (b ≤ a)%Z.
Proof. unfold checked_sub. case_bool_decide; split; intuition congruence. Qed.

Lemma wrapping_add_small max a b :
  (0 ≤ a + b ≤ max)%Z → wrapping_add max a b = (a + b)%Z.
Proof. intros. unfold wrapping_add. apply Z.mod_small. lia. Qed.

Lemma wrapping_sub_small max a b :
  (0 ≤ a - b ≤ max)%Z → wrapping_sub max a b = (a - b)%Z.
Proof. intros. unfold wrapping_sub. apply Z.mod_small. lia. Qed.

(** ** Lemmas on sums over maps *)
Section msum.
Context `{Countable K} {A : Type}.
Implicit Types (f g : A → Z) (m : gmap K A).
Local Open Scope Z_scope.

Lemma msum_empty f : msum f (∅ : gmap K A) = 0.
Proof. apply map_fold_empty. Qed.

Lemma msum_insert f m k x : m !! k = None → msum f (<[k:=x]> m) = f x + msum f m.
Proof.
  intros Hk. unfold msum. rewrite map_fold_insert_L; [done| |done].
  intros. lia.
Qed.

Lemma msum_delete f m k x : m !! k = Some x → msum f m = f x + msum f (delete k m).
Proof.
  intros Hk. rewrite <-(insert_delete_id m k x Hk) at 1.
  apply msum_insert, lookup_delete_eq.
Qed.

Lemma msum_update f m k x y :
  m !! k = Some x → msum f (<[k:=y]> m) = msum f m - f x + f y.
Proof.
  intros Hk. rewrite (msum_delete f m k x Hk), <-insert_delete_eq.
  rewrite msum_insert by apply lookup_delete_eq. lia.
Qed.

Lemma msum_nonneg f m : (∀ k x, m !! k = Some x → 0 ≤ f x) → 0 ≤ msum f m.
Proof.
  induction m as [|k x m Hk IH] using map_ind; intros Hf; [by rewrite msum_empty|].
  rewrite msum_insert by done.
  assert (0 ≤ f x) by (apply (Hf k); apply lookup_insert_eq).
  assert (0 ≤ msum f m); [|lia]. apply IH. intros k' x' Hx.
  apply (Hf k'). rewrite lookup_insert_ne; [done|]. congruence.
Qed.

Lemma msum_ge f m k x :
  (∀ k x, m !! k = Some x → 0 ≤ f x) → m !! k = Some x → f x ≤ msum f m.
Proof.
  intros Hf Hk. rewrite (msum_delete f m k x Hk).
  assert (0 ≤ msum f (delete k m)); [|lia].
  apply msum_nonneg. intros k' x' [_ Hx]%lookup_delete_Some. eauto.
Qed.

Lemma msum_ext f g m : (∀ k x, m !! k = Some x → f x = g x) → msum f m = msum g m.
Proof.
  induction m as [|k x m Hk IH] using map_ind; intros Hf; [done|].
  rewrite !msum_insert by done. f_equal.
  - apply (Hf k), lookup_insert_eq.
  - apply IH. intros k' x' Hx. apply (Hf k').
    rewrite lookup_insert_ne; [done|]. congruence.
Qed.

Lemma msum_zero f m : (∀ k x, m !! k = Some x → f x = 0) → msum f m = 0.
Proof.
  induction m as [|k x m Hk IH] using map_ind; intros Hf; [apply msum_empty|].
  rewrite msum_insert by done. rewrite (Hf k x) by apply lookup_insert_eq.
  rewrite IH; [done|]. intros k' x' Hx. apply (Hf k').
  rewrite lookup_insert_ne; [done|]. congruence.
Qed.

(** At most one key can weigh one or more in a sum of at most one. *)
Lemma msum_unique f m k1 k2 x1 x2 :
  (∀ k x, m !! k = Some x → 0 ≤ f x) → msum f m ≤ 1 →
  m !! k1 = Some x1 → m !! k2 = Some x2 → 1 ≤ f x1 → 1 ≤ f x2 → k1 = k2.
Proof.
  intros Hf Hs H1 H2 ? ?. destruct (decide (k1 = k2)) as [|Hne]; [done|exfalso].
  rewrite (msum_delete f m k1 x1 H1) in Hs.
  assert (f x2 ≤ msum f (delete k1 m)); [|lia].
  apply (msum_ge f _ k2); [|by rewrite lookup_delete_ne].
  intros k x [_ Hx]%lookup_delete_Some. eauto.
Qed.

Lemma msum_add f g m : msum (λ x, f x + g x) m = msum f m + msum g m.
Proof.
  induction m as [|k x m Hk IH] using map_ind; [by rewrite !msum_empty|].
  rewrite !msum_insert by done. lia.
Qed.
End msum.

(** ** Lemmas on sums over lists *)
Section lsum.
Context {A : Type}.
Implicit Types (f g : A → Z) (l : list A).
Local Open Scope Z_scope.

Lemma lsum_cons f x l : lsum f (x :: l) = f x + lsum f l.
Proof. done. Qed.

Lemma lsum_app f l1 l2 : lsum f (l1 ++ l2) = lsum f l1 + lsum f l2.
Proof. induction l1 as [|x l1 IH]; cbn; [done|]. unfold lsum in *. rewrite IH. lia. Qed.

Lemma lsum_perm f l1 l2 : l1 ≡ₚ l2 → lsum f l1 = lsum f l2.
Proof. unfold lsum. induction 1; cbn; lia. Qed.

Lemma lsum_nonneg f l : (∀ x, x ∈ l → 0 ≤ f x) → 0 ≤ lsum f l.
Proof.
  induction l as [|x l IH]; intros Hf; [done|]. rewrite lsum_cons.
  assert (0 ≤ f x) by (apply Hf; left).
  assert (0 ≤ lsum f l); [|lia]. apply IH. intros y Hy. apply Hf. by right.
Qed.

Lemma lsum_ext f g l : (∀ x, x ∈ l → f x = g x) → lsum f l = lsum g l.
Proof.
  induction l as [|x l IH]; intros Hf; [done|]. rewrite !lsum_cons. f_equal.
  - apply Hf. left.
  - apply IH. intros y Hy. apply Hf. by right.
Qed.

Lemma lsum_bind {B} (f : A → Z) (g : B → list A) (l : list B) :
  lsum f (l ≫= g) = lsum (λ b, lsum f (g b)) l.
Proof.
  induction l as [|b l IH]; [done|].
  change ((b :: l) ≫= g) with (g b ++ (l ≫= g)). by rewrite lsum_app, IH.
Qed.

Lemma lsum_fmap {B} (f : A → Z) (g : B → A) (l : list B) : lsum f (g <$> l) = lsum (λ b, f (g b)) l.
Proof. induction l as [|b l IH]; [done|]. rewrite fmap_cons, !lsum_cons. by rewrite IH. Qed.

Lemma lsum_insert f l i x y : l !! i = Some x → lsum f (<[i:=y]> l) = lsum f l - f x + f y.
Proof.
  intros Hi. rewrite (insert_take_drop l i y) by (by eapply lookup_lt_Some).
  assert (lsum f l = lsum f (take i l) + (f x + lsum f (drop (S i) l))) as ->.
  { rewrite <-(take_drop_middle l i x Hi) at 1. by rewrite lsum_app, lsum_cons. }
  rewrite lsum_app, lsum_cons. lia.
Qed.

Lemma msum_lsum `{Countable K} f (m : gmap K A) :
  msum f m = lsum (λ kx, f kx.2) (map_to_list m).
Proof.
  unfold msum, lsum. rewrite map_fold_foldr.
  induction (map_to_list m) as [|[k x] l IH]; cbn; [done|]. by rewrite IH.
Qed.
End lsum.

Lemma size_delete_S `{Countable K} {A} (m : gmap K A) k x :
  m !! k = Some x → size m = S (size (delete k m)).
Proof.
  intros Hk. rewrite <-(insert_delete_id m k x Hk) at 1.
  apply map_size_insert_None, lookup_delete_eq.
Qed.

(** ** Lemmas on ordered iteration *)
Section btree_lemmas.
Context `{Countable K} (R : relation K) `{!RelDecision R, !PartialOrder R, !Total R}.
Context {A : Type}.
Implicit Types m : gmap K A.

Lemma bt_iter_perm m : bt_iter R m ≡ₚ map_to_list m.
Proof. apply merge_sort_Permutation. Qed.

Lemma elem_of_bt_iter m k x : (k, x) ∈ bt_iter R m ↔ m !! k = Some x.
Proof. by rewrite bt_iter_perm, elem_of_map_to_list. Qed.

Lemma bt_iter_sorted m : StronglySorted (bt_le R) (bt_iter R m).
Proof.
  apply StronglySorted_merge_sort.
  - intros x y z. unfold bt_le. by etrans.
  - intros x y. unfold bt_le. apply total, _.
Qed.

Lemma NoDup_bt_iter m : NoDup ((bt_iter R m).*1).
Proof. rewrite bt_iter_perm. apply NoDup_fst_map_to_list. Qed.

Lemma lsum_bt_iter (f : A → Z) m : lsum (λ kx, f kx.2) (bt_iter R m) = msum f m.
Proof. rewrite msum_lsum. apply lsum_perm, bt_iter_perm. Qed.

(** A [range] over the ordered map sums to the sum of the filtered map. *)
Lemma lsum_bt_range (f : A → Z) (P : K * A → Prop) `{!∀ x, Decision (P x)} m :
  lsum (λ kx, f kx.2) (filter P (bt_iter R m)) = msum f (filter P m).
Proof.
  rewrite msum_lsum. apply lsum_perm. rewrite (bt_iter_perm m), map_filter_alt.
  rewrite map_to_list_to_map; [done|].
  eapply (sublist_NoDup _ (map_to_list m).*1); [apply NoDup_fst_map_to_list|].
  apply fmap_sublist, sublist_filter.
Qed.

Lemma length_bt_iter m : length (bt_iter R m) = size m.
Proof. rewrite bt_iter_perm. apply length_map_to_list. Qed.
End btree_lemmas.

#[export] Hint Resolve bt_iter_perm NoDup_bt_iter : transferia.
#[export] Hint Rewrite @msum_empty : transferia_rw.
