(* ===== verification/Bytes.v ===== *)
(** * Bytes

    Integers as bytes ([to_le_bytes], [to_be_bytes], [from_le_bytes]), the bytes of a
    string, [str::split] and length-prefixed frames, with the lemmas that make encodings
    injective. *)

From Stdlib Require Import Ascii.
From stdpp Require Import base tactics numbers option strings list.
From S2P Require Import Prelude.
Local Open Scope Z_scope.

(** [to_le_bytes] and [to_be_bytes], two's complement. *)
Fixpoint le_bytes (n : nat) (z : Z) : list Z :=
  match n with O => [] | S n => z `mod` 256 :: le_bytes n (z / 256) end.
Definition be_bytes (n : nat) (z : Z) : list Z := reverse (le_bytes n z).
(** [from_le_bytes] of an unsigned integer. *)
Definition from_le_bytes (l : list Z) : Z := foldr (λ b acc, b + 256 * acc) 0 l.
Definition byte (b : Z) : Prop := 0 ≤ b < 256.

Arguments be_bytes : simpl never.
Arguments string_bytes : simpl never.

Lemma length_le_bytes n z : length (le_bytes n z) = n.
Proof. revert z. induction n as [|n IH]; intros z; cbn; [done|]. by rewrite IH. Qed.

Lemma le_bytes_inj n a b : le_bytes n a = le_bytes n b → a `mod` 256 ^ Z.of_nat n = b `mod` 256 ^ Z.of_nat n.
Proof.
  revert a b. induction n as [|n IH]; intros a b; [by rewrite !Z.mod_1_r|].
  cbn [le_bytes]. intros [= Hm Hr]. apply IH in Hr.
  rewrite Nat2Z.inj_succ, Z.pow_succ_r by lia.
  rewrite !Z.rem_mul_r by lia. by rewrite Hm, Hr.
Qed.

Lemma be_bytes_inj n a b : be_bytes n a = be_bytes n b → a `mod` 256 ^ Z.of_nat n = b `mod` 256 ^ Z.of_nat n.
Proof. intros E%(inj reverse). by apply le_bytes_inj. Qed.

Lemma length_be_bytes n z : length (be_bytes n z) = n.
Proof. unfold be_bytes. by rewrite length_reverse, length_le_bytes. Qed.

Lemma string_bytes_inj s1 s2 : string_bytes s1 = string_bytes s2 → s1 = s2.
Proof.
  intros E. rewrite <-(String.string_of_list_ascii_of_string s1), <-(String.string_of_list_ascii_of_string s2).
  f_equal. unfold string_bytes in E. eapply list_fmap_eq_inj; [|exact E].
  intros a b Hab%N2Z.inj. rewrite <-(Ascii.ascii_N_embedding a), <-(Ascii.ascii_N_embedding b). by f_equal.
Qed.

(** ** Framing *)
Definition frame (v : list Z) : list Z := be_bytes 8 (Z.of_nat (length v)) ++ v.
(** The length fits the frame's 64 bits. *)
Definition short (v : list Z) : Prop := Z.of_nat (length v) < 2 ^ 64.


Lemma frame_inj v1 v2 r1 r2 : short v1 → short v2 → frame v1 ++ r1 = frame v2 ++ r2 → v1 = v2 ∧ r1 = r2.
Proof.
  unfold frame, short. intros H1 H2 E. rewrite <-!app_assoc in E.
  apply app_inj_1 in E as [Hl E]; [|by rewrite !length_be_bytes].
  apply be_bytes_inj in Hl. change (256 ^ Z.of_nat 8) with (2 ^ 64) in Hl. rewrite !Z.mod_small in Hl by lia.
  apply app_inj_1 in E as [-> ->]; [done|lia].
Qed.

(** ** Integers of a width *)
Definition signed (n : nat) (z : Z) : Prop := - 2 ^ (8 * Z.of_nat n - 1) ≤ z < 2 ^ (8 * Z.of_nat n - 1).
Definition unsigned (n : nat) (z : Z) : Prop := 0 ≤ z < 2 ^ (8 * Z.of_nat n).

Lemma be_bytes_signed n a b : (0 < n)%nat → signed n a → signed n b → be_bytes n a = be_bytes n b → a = b.
Proof.
  unfold signed. intros Hn Ha Hb E%be_bytes_inj. replace 256 with (2 ^ 8) in E by done.
  rewrite <-Z.pow_mul_r in E by lia. set (m := 8 * Z.of_nat n) in *.
  assert (2 ^ m = 2 * 2 ^ (m - 1)) as Hm by (rewrite <-Z.pow_succ_r by lia; f_equal; lia).
  rewrite Hm in E. set (h := 2 ^ (m - 1)) in *.
  assert (0 < h) by (apply Z.pow_pos_nonneg; lia).
  rewrite (Z.mod_eq a), (Z.mod_eq b) in E by lia.
  assert (a - b = (2 * h) * (a / (2 * h) - b / (2 * h))) as Hab by lia.
  destruct (Z.lt_trichotomy (a / (2 * h) - b / (2 * h)) 0) as [?|[?|?]]; nia.
Qed.

Lemma be_bytes_unsigned n a b : unsigned n a → unsigned n b → be_bytes n a = be_bytes n b → a = b.
Proof.
  unfold unsigned. intros Ha Hb E%be_bytes_inj. replace 256 with (2 ^ 8) in E by done.
  rewrite <-Z.pow_mul_r in E by lia. by rewrite !Z.mod_small in E by lia.
Qed.

(** ** Decoding *)
Lemma le_bytes_range n z : Forall byte (le_bytes n z).
Proof.
  revert z. induction n as [|n IH]; intros z; constructor; [|apply IH]. apply Z.mod_pos_bound. lia.
Qed.

Lemma from_le_le n z : from_le_bytes (le_bytes n z) = z `mod` 256 ^ Z.of_nat n.
Proof.
  revert z. induction n as [|n IH]; intros z; [by rewrite Z.mod_1_r|]. cbn [le_bytes]. change (from_le_bytes (?a :: ?l)) with (a + 256 * from_le_bytes l).
  rewrite IH, Nat2Z.inj_succ, Z.pow_succ_r by lia. by rewrite Z.rem_mul_r by lia.
Qed.

Lemma le_from_le l : Forall byte l → le_bytes (length l) (from_le_bytes l) = l.
Proof.
  induction 1 as [|b l Hb _ IH]; [done|]. change (from_le_bytes (b :: l)) with (b + 256 * from_le_bytes l). cbn [length le_bytes].
  unfold byte in Hb. rewrite (Z.mul_comm 256), Z.mod_add, Z.div_add, Z.mod_small, Z.div_small by lia. by rewrite Z.add_0_l, IH.
Qed.

Lemma from_le_range l : Forall byte l → 0 ≤ from_le_bytes l < 256 ^ Z.of_nat (length l).
Proof.
  induction 1 as [|b l Hb _ IH]; [done|]. change (from_le_bytes (b :: l)) with (b + 256 * from_le_bytes l). cbn [length].
  rewrite Nat2Z.inj_succ, Z.pow_succ_r by lia. unfold byte in Hb. lia.
Qed.

(** ** Splitting *)

(** [str::split] on a character. *)
Fixpoint split_on (c : ascii) (s : string) : list string :=
  match s with
  | "" => [""]
  | String a s =>
      if bool_decide (a = c) then "" :: split_on c s
      else match split_on c s with
           | [] => [String a ""]
           | part :: parts => String a part :: parts
           end
  end.

(** [split] and [join] on one character. *)
Lemma split_on_nonempty c s : split_on c s ≠ [].
Proof. destruct s as [|a s]; cbn; [done|]. case_bool_decide; [done|]. by destruct (split_on c s). Qed.
Lemma concat_split_on c s : String.concat (String c "") (split_on c s) = s.
Proof.
  induction s as [|a s IH]; [done|]. cbn [split_on]. case_bool_decide as Hc.
  - pose proof (split_on_nonempty c s). destruct (split_on c s); [done|]. cbn in IH |- *. by rewrite IH, Hc.
  - destruct (split_on c s) as [|p parts] eqn:E; [by destruct (split_on_nonempty c s)|].
    rewrite <-IH. by destruct parts.
Qed.

(** A bit tested with a mask. *)
Lemma bit_unset b n : 0 ≤ n → bool_decide (Z.land b (Z.shiftl 1 n) = 0) = negb (Z.testbit b n).
Proof.
  intros Hn. rewrite Z.shiftl_1_l. destruct (Z.testbit b n) eqn:E; cbn [negb]; case_bool_decide as Hz; try done; exfalso.
  - apply (f_equal (λ z, Z.testbit z n)) in Hz. by rewrite Z.land_spec, E, Z.pow2_bits_true, Z.testbit_0_l in Hz.
  - apply Hz, Z.bits_inj'. intros k Hk. rewrite Z.land_spec, Z.testbit_0_l. destruct (decide (n = k)) as [->|Hne]; [by rewrite E|].
    by rewrite Z.pow2_bits_false, andb_false_r.
Qed.
