(* ===== verification/Text.v ===== *)
(** * Text

    The operations on UTF-8 text that metadata parsing uses: ASCII case folding, ASCII
    whitespace, [String::from_utf8] and [str::chars]. *)

From Stdlib Require Import Ascii.
From stdpp Require Import base tactics numbers option strings list.
From S2P Require Import Prelude Bytes.
Local Open Scope Z_scope.

Definition ascii_lower (b : Z) : Z := if bool_decide (65 ≤ b ≤ 90) then b + 32 else b.
Definition eq_ignore_ascii_case (a b : list Z) : bool := bool_decide (ascii_lower <$> a = ascii_lower <$> b).
Definition is_ascii_whitespace (c : Z) : bool := bool_decide (c ∈ [9; 10; 12; 13; 32]).

(** [str::split_ascii_whitespace]. *)
Fixpoint tokens_from (current : list Z) (l : list Z) : list (list Z) :=
  let flush := if bool_decide (current = []) then [] else [current] in
  match l with
  | [] => flush
  | c :: l => if is_ascii_whitespace c then flush ++ tokens_from [] l else tokens_from (current ++ [c]) l
  end.
Definition split_ascii_whitespace (s : string) : list (list Z) := tokens_from [] (string_bytes s).

(** The bytes [String::from_utf8] accepts. *)
Definition continuation (b : Z) : bool := bool_decide (128 ≤ b ≤ 191).
Fixpoint utf8 (l : list Z) : bool :=
  match l with
  | [] => true
  | a :: l =>
      if bool_decide (0 ≤ a ≤ 127) then utf8 l
      else match l with
      | [] => false
      | b :: l =>
          if bool_decide (194 ≤ a ≤ 223) then continuation b && utf8 l
          else match l with
          | [] => false
          | c :: l =>
              let three := (bool_decide (a = 224) && bool_decide (160 ≤ b ≤ 191)) ||
                           (bool_decide (a = 237) && bool_decide (128 ≤ b ≤ 159)) ||
                           ((bool_decide (225 ≤ a ≤ 236) || bool_decide (238 ≤ a ≤ 239)) && continuation b) in
              if bool_decide (224 ≤ a ≤ 239) then three && continuation c && utf8 l
              else match l with
              | [] => false
              | d :: l =>
                  let four := (bool_decide (a = 240) && bool_decide (144 ≤ b ≤ 191)) ||
                              (bool_decide (a = 244) && bool_decide (128 ≤ b ≤ 143)) ||
                              (bool_decide (241 ≤ a ≤ 243) && continuation b) in
                  four && continuation c && continuation d && utf8 l
              end
          end
      end
  end.

(** [str::chars().count()]. *)
Definition char_count (s : string) : nat := length (filter (λ b, continuation b = false) (string_bytes s)).

Definition string_of_bytes (l : list Z) : string :=
  String.string_of_list_ascii ((λ b, Ascii.ascii_of_N (Z.to_N b)) <$> l).
Definition from_utf8 (l : list Z) : option string := if utf8 l then Some (string_of_bytes l) else None.

Lemma string_of_string_bytes s : string_of_bytes (string_bytes s) = s.
Proof.
  unfold string_of_bytes, string_bytes. rewrite <-list_fmap_compose.
  rewrite <-(String.string_of_list_ascii_of_string s) at 2. f_equal.
  rewrite <-(list_fmap_id (String.list_ascii_of_string s)) at 2. apply list_fmap_ext. intros _ a _. cbn.
  by rewrite N2Z.id, Ascii.ascii_N_embedding.
Qed.

Lemma string_bytes_of_bytes l : Forall byte l → string_bytes (string_of_bytes l) = l.
Proof.
  intros Hl. unfold string_of_bytes, string_bytes. rewrite String.list_ascii_of_string_of_list_ascii, <-list_fmap_compose.
  rewrite <-(list_fmap_id l) at 2. apply list_fmap_ext. intros i b Hi. cbn. rewrite Forall_lookup in Hl. specialize (Hl i b Hi).
  unfold byte in Hl. rewrite Ascii.N_ascii_embedding by lia. by rewrite Z2N.id by lia.
Qed.

(** A string of Rust holds UTF-8. *)
Definition well_formed (s : string) : Prop := utf8 (string_bytes s) = true.

Lemma from_utf8_string s : well_formed s → from_utf8 (string_bytes s) = Some s.
Proof. unfold well_formed, from_utf8. intros ->. by rewrite string_of_string_bytes. Qed.
