(* ===== verification/DeliveryId.v ===== *)
(** * Delivery identifiers and sink events

    [transferia-core/src/sink.rs]: the [u64] newtype that numbers deliveries of
    one partition pipeline and the event a sink reports durability with. *)

From stdpp Require Import base tactics numbers.
From S2P Require Import Prelude.
Local Open Scope Z_scope.

(** [pub struct DeliveryId(u64)]; [new] and [get] are the identity. *)
Abbreviation DeliveryId := Z (only parsing).

Module DeliveryId.
Definition new (value : Z) : DeliveryId := value.
Definition get (id : DeliveryId) : Z := id.
(** [Self(self.0.saturating_add(1))] *)
Definition next (id : DeliveryId) : DeliveryId := saturating_add u64_max id 1.
End DeliveryId.

Record DeliveryMeta := { meta_source_messages : Z }.

Inductive SinkEvent :=
| CommittedThrough (id : DeliveryId).

Lemma next_small (id : DeliveryId) : id < u64_max → DeliveryId.next id = id + 1.
Proof. unfold DeliveryId.next, saturating_add. lia. Qed.

Lemma next_bound (id : DeliveryId) :
  0 ≤ id ≤ u64_max → 0 ≤ DeliveryId.next id ≤ u64_max.
Proof. unfold DeliveryId.next, saturating_add, u64_max. lia. Qed.

#[export] Hint Rewrite next_small using lia : transferia_rw.
