(* ===== verification/DeliveryTracker.v ===== *)
(** * The delivery tracker

    [transferia-delivery-contracts/src/delivery_tracker.rs]: ordered completion
    accounting shared by the durable sink actors.  Deliveries are accepted in
    identifier order, completed unit by unit in any order, and committed as the
    longest contiguous prefix of finished deliveries. *)

From stdpp Require Import base tactics numbers option list sorting gmap fin_maps relations.
From S2P Require Import Prelude DeliveryId.
Local Open Scope Z_scope.

Record DeliveryState := {
  remaining : Z;          (* usize *)
  source_messages : Z     (* u64 *)
}.

Record Committed := {
  through : DeliveryId;
  committed_messages : Z
}.

Record DeliveryTracker := {
  entries : gmap Z DeliveryState;
  next_received : DeliveryId;
  next_commit : DeliveryId
}.

Inductive TrackerError :=
| OrderViolation (expected got : DeliveryId)
| MissingProgress (id : DeliveryId)
| ProgressUnderflow.

Definition new : DeliveryTracker := {|
  entries := ∅;
  next_received := DeliveryId.new 1;
  next_commit := DeliveryId.new 1
|}.

Definition accept (self : DeliveryTracker) (id : DeliveryId) (rem msgs : Z)
    : DeliveryTracker * result TrackerError unit :=
  if bool_decide (id = next_received self) then
    ({| entries := <[id := {| remaining := rem; source_messages := msgs |}]> (entries self);
        next_received := DeliveryId.next (next_received self);
        next_commit := next_commit self |}, Ok tt)
  else (self, Err (OrderViolation (next_received self) id)).

Definition complete (self : DeliveryTracker) (id : DeliveryId) (units : Z)
    : DeliveryTracker * result TrackerError unit :=
  match entries self !! id with
  | None => (self, Err (MissingProgress id))
  | Some state =>
      match checked_sub (remaining state) units with
      | None => (self, Err ProgressUnderflow)
      | Some r =>
          ({| entries := <[id := {| remaining := r;
                                    source_messages := source_messages state |}]> (entries self);
              next_received := next_received self;
              next_commit := next_commit self |}, Ok tt)
      end
  end.

(** The [while] loop of [take_committed]; its state is the map, the cursor,
    [through] and [source_messages].  One turn removes one entry, so the number
    of entries bounds the number of turns. *)
Fixpoint take_loop (fuel : nat) (self : DeliveryTracker) (thr : option DeliveryId) (msgs : Z)
    : DeliveryTracker * (option DeliveryId * Z) :=
  match fuel with
  | O => (self, (thr, msgs))
  | S fuel =>
      match entries self !! next_commit self with
      | Some state =>
          if bool_decide (remaining state = 0) then
            take_loop fuel
              {| entries := delete (next_commit self) (entries self);
                 next_received := next_received self;
                 next_commit := DeliveryId.next (next_commit self) |}
              (Some (next_commit self))
              (saturating_add u64_max msgs (source_messages state))
          else (self, (thr, msgs))
      | None => (self, (thr, msgs))
      end
  end.

Definition take_committed (self : DeliveryTracker) : DeliveryTracker * option Committed :=
  let '(self', (thr, msgs)) := take_loop (S (size (entries self))) self None 0 in
  (self', (λ t, {| through := t; committed_messages := msgs |}) <$> thr).

Definition is_empty (self : DeliveryTracker) : bool := bool_decide (entries self = ∅).

(** ** Specification: a queue of deliveries

    The promise made to the sink actors: a queue whose head is the next delivery
    to commit; [take] pops the longest finished prefix. *)
Module Spec.
Record queue := { base : Z; items : list DeliveryState }.

(** The longest finished prefix. *)
Fixpoint ready (l : list DeliveryState) : list DeliveryState :=
  match l with
  | d :: l => if bool_decide (remaining d = 0) then d :: ready l else []
  | [] => []
  end.

Definition total (l : list DeliveryState) : Z :=
  foldl (λ acc d, saturating_add u64_max acc (source_messages d)) 0 l.

Definition take (q : queue) : queue * option Committed :=
  let r := ready (items q) in
  match r with
  | [] => (q, None)
  | _ => ({| base := base q + Z.of_nat (length r);
             items := drop (length r) (items q) |},
          Some {| through := base q + Z.of_nat (length r) - 1;
                  committed_messages := total r |})
  end.
End Spec.

(** The tracker [t] implements the queue [q]: the entries are the items of the
    queue, numbered from [next_commit] without a gap. *)
Definition represents (t : DeliveryTracker) (q : Spec.queue) : Prop :=
  next_commit t = Spec.base q ∧
  next_received t = Spec.base q + Z.of_nat (length (Spec.items q)) ∧
  1 ≤ Spec.base q ∧
  next_received t ≤ u64_max ∧
  ∀ id, entries t !! id =
    if bool_decide (Spec.base q ≤ id) then Spec.items q !! Z.to_nat (id - Spec.base q) else None.

(** ** Traces

    What a sink actor does with its tracker, one call per step. *)
Inductive Call :=
| CAccept (id : DeliveryId) (rem msgs : Z)
| CComplete (id : DeliveryId) (units : Z)
| CTake.

Definition call_step (t : DeliveryTracker) (c : Call) : DeliveryTracker * option Committed :=
  match c with
  | CAccept id rem msgs => ((accept t id rem msgs).1, None)
  | CComplete id units => ((complete t id units).1, None)
  | CTake => take_committed t
  end.

(** The units accepted and completed for [id] by the calls that succeeded. *)
Definition call_units (t : DeliveryTracker) (c : Call) (id : DeliveryId) : Z :=
  match c with
  | CAccept i rem _ => if bool_decide (i = id) && is_ok (accept t i rem 0).2 then rem else 0
  | CComplete i units => if bool_decide (i = id) && is_ok (complete t i units).2 then - units else 0
  | CTake => 0
  end.

(** The balance of [id] after a run: units accepted and not yet completed. *)
Fixpoint run (cs : list Call) (t : DeliveryTracker) (bal : Z → Z) (out : list Committed)
    : DeliveryTracker * (Z → Z) * list Committed :=
  match cs with
  | [] => (t, bal, out)
  | c :: cs =>
      let '(t', o) := call_step t c in
      run cs t' (λ id, bal id + call_units t c id)
        (match o with Some x => out ++ [x] | None => out end)
  end.

(** ** Refinement proofs *)
Lemma take_loop_fuel n t thr msgs :
  (size (entries t) < n)%nat →
  take_loop n t thr msgs = take_loop (S (size (entries t))) t thr msgs.
Proof.
  revert t thr msgs. induction n as [|n IH]; intros t thr msgs Hn; [lia|].
  cbn [take_loop]. destruct (entries t !! next_commit t) as [d|] eqn:Ed; [|done].
  case_bool_decide; [|done].
  pose proof (size_delete_S _ _ _ Ed) as Hs.
  rewrite IH by (cbn [entries]; lia). cbn [entries]. by rewrite Hs.
Qed.

Lemma represents_lookup t q : represents t q →
  entries t !! next_commit t = Spec.items q !! 0%nat.
Proof.
  intros (Hb & _ & _ & _ & He). rewrite He, Hb, bool_decide_eq_true_2 by lia.
  by rewrite Z.sub_diag.
Qed.

(** One turn of the loop pops the head of the queue. *)
Lemma represents_pop t b d l :
  represents t {| Spec.base := b; Spec.items := d :: l |} →
  represents {| entries := delete (next_commit t) (entries t);
                next_received := next_received t;
                next_commit := DeliveryId.next (next_commit t) |}
             {| Spec.base := b + 1; Spec.items := l |}.
Proof.
  intros (Hc & Hr & Hb & Hm & He); cbn in *.
  unfold represents; cbn. rewrite Hc, next_small by lia.
  split_and!; [lia..|]. intros id. rewrite lookup_delete, He.
  repeat case_bool_decide || case_decide; try lia; try done.
  replace (Z.to_nat (id - b)) with (S (Z.to_nat (id - (b + 1)))) by lia. done.
Qed.

Lemma take_loop_spec n t q thr msgs :
  represents t q → (length (Spec.items q) < n)%nat →
  let r := Spec.ready (Spec.items q) in
  ∃ t', take_loop n t thr msgs =
    (t', (if decide (r = []) then thr else Some (Spec.base q + Z.of_nat (length r) - 1),
          foldl (λ acc d, saturating_add u64_max acc (source_messages d)) msgs r)) ∧
  represents t' {| Spec.base := Spec.base q + Z.of_nat (length r);
                   Spec.items := drop (length r) (Spec.items q) |}.
Proof.
  destruct q as [b l]; cbn. revert t b l thr msgs.
  induction n as [|n IH]; intros t b l thr msgs Hrep Hn; [lia|].
  cbn [take_loop]. rewrite (represents_lookup _ _ Hrep); cbn.
  destruct l as [|d l]; cbn in *.
  { exists t. by rewrite Z.add_0_r. }
  case_bool_decide; cbn; [|exists t; by rewrite Z.add_0_r].
  assert (next_commit t = b) as Hc by apply Hrep.
  destruct (IH _ (b + 1) l (Some (next_commit t))
    (saturating_add u64_max msgs (source_messages d)) (represents_pop _ _ _ _ Hrep) ltac:(lia))
    as (t' & -> & Hrep'). exists t'. split.
  - f_equal. f_equal. destruct (Spec.ready l); cbn; [f_equal; lia|].
    f_equal. lia.
  - replace (b + Z.of_nat (S (length (Spec.ready l))))
      with (b + 1 + Z.of_nat (length (Spec.ready l))) by lia. done.
Qed.

Lemma represents_size t q :
  represents t q → size (entries t) = length (Spec.items q).
Proof.
  destruct q as [b l]. revert t b. induction l as [|d l IH]; intros t b Hrep.
  - destruct Hrep as (_ & _ & _ & _ & He); cbn in He.
    assert (entries t = ∅) as ->; [|done].
    apply map_empty. intros i. rewrite He. by case_bool_decide.
  - pose proof (represents_lookup _ _ Hrep) as Hd; cbn in Hd.
    rewrite (size_delete_S _ _ _ Hd); cbn.
    f_equal. exact (IH _ _ (represents_pop _ _ _ _ Hrep)).
Qed.

Lemma new_represents : represents new {| Spec.base := 1; Spec.items := [] |}.
Proof.
  unfold represents, new, u64_max, DeliveryId.new; cbn. split_and!; try lia.
  intros id. rewrite lookup_empty. by case_bool_decide.
Qed.

Lemma take_refines t q :
  represents t q →
  (take_committed t).2 = (Spec.take q).2 ∧ represents (take_committed t).1 (Spec.take q).1.
Proof.
  intros Hrep. unfold take_committed, Spec.take.
  pose proof (represents_size _ _ Hrep) as Hs.
  destruct (take_loop_spec (S (size (entries t))) t q None 0 Hrep ltac:(lia))
    as (t' & -> & Hrep'). cbn zeta.
  destruct (Spec.ready (Spec.items q)) as [|d r] eqn:Er; cbn in *.
  - split; [done|]. rewrite Z.add_0_r in Hrep'. by destruct q.
  - by split.
Qed.

Lemma accept_refines t q id rem msgs :
  represents t q → next_received t < u64_max →
  let d := {| remaining := rem; source_messages := msgs |} in
  if bool_decide (id = Spec.base q + Z.of_nat (length (Spec.items q))) then
    (accept t id rem msgs).2 = Ok tt ∧
    represents (accept t id rem msgs).1
      {| Spec.base := Spec.base q; Spec.items := Spec.items q ++ [d] |}
  else accept t id rem msgs =
    (t, Err (OrderViolation (Spec.base q + Z.of_nat (length (Spec.items q))) id)).
Proof.
  intros (Hc & Hr & Hb & Hm & He) Hlt d. unfold accept. rewrite Hr.
  case_bool_decide as Hid; [|done]. split; [done|].
  unfold represents; cbn. rewrite length_app; cbn. rewrite next_small by lia.
  split_and!; [done|lia..|]. intros i. rewrite lookup_insert, He. subst id.
  repeat case_bool_decide || case_decide; subst; try lia; try done.
  - rewrite lookup_app_r by lia.
    by replace (_ - _)%nat with 0%nat by lia.
  - destruct (decide (i < Spec.base q + Z.of_nat (length (Spec.items q)))).
    + by rewrite lookup_app_l by lia.
    + rewrite (lookup_ge_None_2 (Spec.items q)) by lia.
      by rewrite lookup_ge_None_2 by (rewrite length_app; cbn; lia).
Qed.

Lemma complete_refines t q id units :
  represents t q →
  match entries t !! id with
  | None => complete t id units = (t, Err (MissingProgress id))
  | Some d =>
      if bool_decide (units ≤ remaining d) then
        (complete t id units).2 = Ok tt ∧
        represents (complete t id units).1
          {| Spec.base := Spec.base q;
             Spec.items := <[Z.to_nat (id - Spec.base q) :=
               {| remaining := remaining d - units; source_messages := source_messages d |}]>
               (Spec.items q) |}
      else complete t id units = (t, Err ProgressUnderflow)
  end.
Proof.
  intros (Hc & Hr & Hb & Hm & He). unfold complete, checked_sub.
  destruct (entries t !! id) as [d|] eqn:Ed; [|done].
  case_bool_decide; [|done]. split; [done|].
  rewrite He in Ed. case_bool_decide; [|done].
  unfold represents; cbn. rewrite length_insert. split_and!; [done..|].
  intros i. rewrite lookup_insert, He.
  apply lookup_lt_Some in Ed as Hlt.
  case_decide; subst.
  - rewrite bool_decide_eq_true_2 by lia.
    by rewrite list_lookup_insert_eq.
  - case_bool_decide; [|done]. by rewrite list_lookup_insert_ne by lia.
Qed.

(** The outstanding units of a delivery, read off the tracker. *)
Definition outstanding (t : DeliveryTracker) (id : DeliveryId) : Z :=
  from_option remaining 0 (entries t !! id).

Lemma outstanding_accept t q id rem msgs i :
  represents t q →
  outstanding (accept t id rem msgs).1 i
  = outstanding t i + call_units t (CAccept id rem msgs) i.
Proof.
  intros (_ & Hr & Hb & _ & He). unfold outstanding, call_units, accept.
  case_bool_decide as Hid; cbn; [|by rewrite andb_false_r, Z.add_0_r].
  rewrite andb_true_r, lookup_insert. case_decide; subst; cbn.
  - rewrite bool_decide_eq_true_2 by done.
    rewrite He, bool_decide_eq_true_2 by lia.
    rewrite lookup_ge_None_2 by lia. done.
  - rewrite bool_decide_eq_false_2 by done. lia.
Qed.

Lemma outstanding_complete t id units i :
  outstanding (complete t id units).1 i
  = outstanding t i + call_units t (CComplete id units) i.
Proof.
  unfold outstanding, call_units, complete.
  destruct (entries t !! id) as [d|] eqn:Ed; cbn;
    [|by rewrite andb_false_r, Z.add_0_r].
  unfold checked_sub. case_bool_decide; cbn; [|by rewrite andb_false_r, Z.add_0_r].
  rewrite andb_true_r, lookup_insert. case_decide; subst; cbn.
  - rewrite bool_decide_eq_true_2 by done. rewrite Ed; cbn. lia.
  - rewrite bool_decide_eq_false_2 by done. lia.
Qed.

Lemma outstanding_take_loop n t thr msgs i :
  outstanding (take_loop n t thr msgs).1 i = outstanding t i.
Proof.
  revert t thr msgs. induction n as [|n IH]; intros t thr msgs; [done|].
  cbn [take_loop]. destruct (entries t !! next_commit t) as [d|] eqn:Ed; [|done].
  case_bool_decide as Hz; [|done]. rewrite IH. unfold outstanding; cbn.
  rewrite lookup_delete. case_decide; subst; [|done]. rewrite Ed; cbn. lia.
Qed.

Lemma outstanding_step t q c i :
  represents t q →
  outstanding (call_step t c).1 i = outstanding t i + call_units t c i.
Proof.
  intros Hrep. destruct c as [id rem msgs|id units|]; cbn [call_step call_units].
  - by eapply outstanding_accept.
  - apply outstanding_complete.
  - unfold take_committed.
    pose proof (outstanding_take_loop (S (size (entries t))) t None 0 i) as Ht.
    destruct (take_loop _ _ _ _) as [t' [thr msgs]]. cbn in *. lia.
Qed.

(** What a step does to the queue: its base only moves on a commit, which
    reports the identifier just before the new base. *)
Lemma call_step_represents t q c :
  represents t q → next_received t < u64_max →
  ∃ q', represents (call_step t c).1 q' ∧
    Spec.base q ≤ Spec.base q' ∧
    next_received (call_step t c).1 ≤ next_received t + 1 ∧
    match (call_step t c).2 with
    | Some x => through x = Spec.base q' - 1 ∧ Spec.base q < Spec.base q'
    | None => Spec.base q' = Spec.base q
    end.
Proof.
  intros Hrep Hlt. destruct c as [id rem msgs|id units|]; cbn [call_step].
  - pose proof (accept_refines t q id rem msgs Hrep Hlt) as Ha. cbn zeta in Ha.
    case_bool_decide; [destruct Ha as [_ Ha]|rewrite Ha; exists q; split_and!; (done || cbn; lia)].
    eexists; split_and!; [exact Ha|cbn; lia| |done].
    unfold accept. case_bool_decide; cbn; [rewrite next_small; lia|lia].
  - pose proof (complete_refines t q id units Hrep) as Hc.
    destruct (entries t !! id) as [d|] eqn:Ed;
      [|rewrite Hc; exists q; split_and!; (done || cbn; lia)].
    case_bool_decide; [destruct Hc as [_ Hc]|rewrite Hc; exists q; split_and!; (done || cbn; lia)].
    eexists; split_and!; [exact Hc|cbn; lia| |done].
    unfold complete. rewrite Ed. destruct (checked_sub _ _); cbn; lia.
  - destruct (take_refines t q Hrep) as [Ho Hr']. exists (Spec.take q).1.
    assert (next_received (take_committed t).1 = next_received t) as Hnr.
    { destruct Hr' as (_ & -> & _). destruct Hrep as (_ & -> & _).
      unfold Spec.take.
      assert (length (Spec.ready (Spec.items q)) ≤ length (Spec.items q))%nat.
      { induction (Spec.items q) as [|d l IH]; cbn; [lia|]. case_bool_decide; cbn; lia. }
      destruct (Spec.ready (Spec.items q)) as [|d r] eqn:E; [done|].
      cbn [fst Spec.base Spec.items]. rewrite length_drop. lia. }
    split_and!; [done| |lia|].
    + unfold Spec.take. destruct (Spec.ready _); cbn; lia.
    + rewrite Ho. unfold Spec.take. destruct (Spec.ready _); cbn; [done|lia].
Qed.

Definition commits_sorted (out : list Committed) : Prop :=
  StronglySorted (λ a b, through a < through b) out.

Lemma run_safe cs t bal out t' bal' out' q :
  represents t q →
  next_received t + Z.of_nat (length cs) ≤ u64_max →
  (∀ id, bal id = outstanding t id) →
  commits_sorted out → (∀ x, x ∈ out → through x < next_commit t) →
  run cs t bal out = (t', bal', out') →
  commits_sorted out' ∧ (∃ q', represents t' q') ∧
  (∀ x, x ∈ out' → through x < next_commit t') ∧ (∀ id, bal' id = outstanding t' id).
Proof.
  revert t bal out q. induction cs as [|c cs IH]; intros t bal out q Hrep Hn Hbal Hs Hlt Hrun;
    cbn [run length] in *.
  { simplify_eq. eauto. }
  destruct (call_step_represents t q c Hrep ltac:(lia)) as (q' & Hrep' & Hmono & Hnr & Ho).
  pose proof (λ i, outstanding_step t q c i Hrep) as Hout.
  assert (next_commit t = Spec.base q) as Hc by apply Hrep.
  assert (next_commit (call_step t c).1 = Spec.base q') as Hc' by apply Hrep'.
  destruct (call_step t c) as [t1 o]; cbn in *.
  eapply IH; [exact Hrep'|lia| | | |exact Hrun].
  - intros id. by rewrite Hout, Hbal.
  - destruct o as [x|]; [|done]. destruct Ho as [Hx1 Hx2].
    apply StronglySorted_app_2; [|done|repeat constructor].
    intros a b Ha ->%list_elem_of_singleton. specialize (Hlt _ Ha). lia.
  - intros x Hx. destruct o as [y|]; [|specialize (Hlt _ Hx); lia].
    apply elem_of_app in Hx as [Hx| ->%list_elem_of_singleton]; [|lia].
    specialize (Hlt _ Hx). lia.
Qed.

Lemma run_durable (cs : list Call) t bal out :
  Z.of_nat (length cs) < u64_max →
  run cs new (λ _, 0) [] = (t, bal, out) →
  commits_sorted out ∧
  (∀ x, x ∈ out → through x < next_received t ∧ ∀ id, id ≤ through x → bal id = 0).
Proof.
  intros Hn Hrun.
  destruct (run_safe cs new (λ _, 0) [] t bal out _ new_represents) as (Hs & (q & Hq) & Hlt & Hbal);
    [cbn; unfold DeliveryId.new; lia|done|constructor|by intros x ?%not_elem_of_nil|done|].
  split; [done|]. intros x Hx. specialize (Hlt _ Hx).
  destruct Hq as (Hc & Hr & Hb & _ & He). split; [lia|].
  intros id Hid. rewrite Hbal. unfold outstanding. rewrite He.
  by rewrite bool_decide_eq_false_2 by lia.
Qed.

(** The identifiers offered to [accept], and whether it took all of them. *)
Definition accept_ids (cs : list Call) : list DeliveryId :=
  omap (λ c, match c with CAccept id _ _ => Some id | _ => None end) cs.
Fixpoint accepts_all (t : DeliveryTracker) (cs : list Call) : bool :=
  match cs with
  | [] => true
  | c :: cs =>
      (match c with CAccept id rem msgs => is_ok (accept t id rem msgs).2 | _ => true end)
      && accepts_all (call_step t c).1 cs
  end.
Definition calls (t : DeliveryTracker) (cs : list Call) : DeliveryTracker :=
  foldl (λ t c, (call_step t c).1) t cs.

Lemma take_loop_received n t thr msgs : next_received (take_loop n t thr msgs).1 = next_received t.
Proof.
  revert t thr msgs. induction n as [|n IH]; intros t thr msgs; [done|]. cbn [take_loop].
  destruct (entries t !! next_commit t); [|done]. case_bool_decide; [|done]. by rewrite IH.
Qed.

Lemma call_step_received t c :
  next_received (call_step t c).1 =
    match c with
    | CAccept id rem msgs => if is_ok (accept t id rem msgs).2 then DeliveryId.next (next_received t) else next_received t
    | _ => next_received t
    end.
Proof.
  destruct c as [id rem msgs|id units|]; cbn [call_step].
  - unfold accept. by case_bool_decide.
  - unfold complete. destruct (entries t !! id); [|done]. by destruct (checked_sub _ _).
  - unfold take_committed. pose proof (take_loop_received (S (size (entries t))) t None 0) as Ht.
    by destruct (take_loop _ _ _ _) as [t' [thr msgs]].
Qed.

(** ** Properties *)

(** the tracker implements the queue specification: [take_committed] returns
    exactly the longest finished prefix of the accepted deliveries (with its
    source-message total saturating at [u64::MAX]) and leaves the rest; the
    loop stops by itself, since the number of entries bounds its turns. *)
Theorem take_committed_refines (t : DeliveryTracker) (q : Spec.queue) :
  represents t q →
  (take_committed t).2 = (Spec.take q).2 ∧
  represents (take_committed t).1 (Spec.take q).1 ∧
  (∀ n, (size (entries t) < n)%nat →
     take_loop n t None 0 = take_loop (S (size (entries t))) t None 0).
Proof.
  intros Hrep. destruct (take_refines t q Hrep).
  split_and!; [done..|]. intros n Hn. by apply take_loop_fuel.
Qed.

Definition sample_queue : Spec.queue := {|
  Spec.base := 1;
  Spec.items := [ {| remaining := 0; source_messages := 5 |};
                  {| remaining := 0; source_messages := 7 |};
                  {| remaining := 2; source_messages := 1 |};
                  {| remaining := 0; source_messages := 9 |} ] |}.

Definition sample_tracker : DeliveryTracker :=
  ((complete (accept (accept (accept (accept new 1 0 5).1 2 3 7).1 3 2 1).1 4 0 9).1 2 3).1).

Lemma sample_represents : represents sample_tracker sample_queue.
Proof.
  unfold sample_tracker, sample_queue.
  pose proof (accept_refines new _ 1 0 5 new_represents ltac:(vm_compute; reflexivity)) as [_ H1].
  pose proof (accept_refines _ _ 2 3 7 H1 ltac:(vm_compute; reflexivity)) as [_ H2].
  pose proof (accept_refines _ _ 3 2 1 H2 ltac:(vm_compute; reflexivity)) as [_ H3].
  pose proof (accept_refines _ _ 4 0 9 H3 ltac:(vm_compute; reflexivity)) as [_ H4].
  exact (proj2 (complete_refines _ _ 2 3 H4)).
Qed.

Lemma take_committed_refines_witness :
  represents sample_tracker sample_queue ∧
  (take_committed sample_tracker).2 = Some {| through := 2; committed_messages := 12 |}.
Proof.
  split; [apply sample_represents|].
  destruct (take_committed_refines sample_tracker sample_queue sample_represents) as [-> _].
  reflexivity.
Defined.

(** C9. In every run of the tracker, whatever the order in which units complete
    and however calls are interleaved, commits are reported in strictly
    increasing identifier order, and every delivery at or below a reported
    identifier had been accepted and has no unit outstanding: all the units it
    was accepted with were completed. *)
Theorem tracker_commits_durable (cs : list Call) t bal out :
  Z.of_nat (length cs) < u64_max →
  run cs new (λ _, 0) [] = (t, bal, out) →
  commits_sorted out ∧
  (∀ x, x ∈ out → through x < next_received t ∧ ∀ id, id ≤ through x → bal id = 0).
Proof.
  apply run_durable.
Qed.

Definition sample_calls : list Call :=
  [CAccept 1 2 4; CAccept 2 1 6; CComplete 2 1; CTake; CComplete 1 1; CAccept 5 1 1;
   CComplete 1 1; CTake; CAccept 3 0 1; CTake].

Lemma tracker_commits_durable_witness :
  ∃ t bal out, run sample_calls new (λ _, 0) [] = (t, bal, out) ∧
    through <$> out = [2; 3] ∧ commits_sorted out.
Proof.
  destruct (run sample_calls new (λ _, 0) []) as [[t bal] out] eqn:E.
  exists t, bal, out. split; [done|]. split.
  - change out with ((t, bal, out).2). rewrite <-E. reflexivity.
  - apply (tracker_commits_durable sample_calls t bal out); [reflexivity|exact E].
Defined.
