(* ===== verification/Memory.v ===== *)
(** * The pipeline memory budget

    [transferia-core/src/memory.rs].  One [PipelineMemory] per partition is shared
    by the reader, the parser worker and the sink.  Its counters are atomics and
    every operation is a short sequence of atomic accesses, so the model is a
    small-step machine: a thread inside an operation has a program counter (one
    constructor per point between two atomic accesses), and a step performs one
    access of one thread.  [run] is executable; [step] is the transition relation.

    Leases are named by handles; a handle's [strong] count is the [Arc] count of
    [MemoryReservation] clones.  [Notify] is an epoch counter: a waiter is woken
    by any [notify_waiters] after its [notified()] call, as tokio documents. *)

From stdpp Require Import base tactics numbers option list gmap fin_maps relations.
From S2P Require Import Prelude.
Local Open Scope Z_scope.

Inductive ReservationKind := Source | ProgressSource | Transform.
#[export] Instance ReservationKind_eq_dec : EqDecision ReservationKind.
Proof. solve_decision. Defined.

Record MemoryInner := {
  limit : Z;
  used : Z;
  source_used : Z;
  transform_used : Z;
  progress_source_active : Z;
  active_transform : Z;
  changed : nat   (* notifications sent so far *)
}.

Record MemoryLease := {
  bytes : Z;
  kind : ReservationKind;
  strong : nat
}.

(** ** Program counters, one type per operation *)
Inductive ReservePc :=
| RRegister                     (* loop head: [changed.notified()] *)
| RLoad (e : nat)               (* load [used], decide [fits] *)
| RCas (u : Z)                  (* [compare_exchange_weak(used, next)] *)
| RAccount                      (* [source_used.fetch_add] *)
| RWait (e : nat).              (* [changed.await] *)

Inductive ProgressPc :=
| GRegister
| GCas (e : nat)                (* [progress_source_active] 0 -> 1 *)
| GWait (e : nat)
| GUsed                         (* [used.fetch_update(checked_add)] *)
| GAccount.

Inductive TransformPc := TUsed | TAccount.

Inductive AdmitPc :=
| ARegister
| ALoad (e : nat)               (* load [transform_used] *)
| ACas (e : nat)                (* [active_transform] 0 -> bytes *)
| AWait (e : nat)
| AUsed.

Inductive WaitPc := WRegister | WLoad (e : nat) | WWait (e : nat).

Inductive FinishPc := FUsed | FTransform | FActive | FNotify.
Inductive DropActivePc := DUsed | DActive | DNotify.

Inductive GrowPc :=
| OLock | OLoad | OUsed (prev : Z) | OSource (prev : Z) | OStore (prev : Z) | OUnlock.

Inductive CompanionPc := CUsed | CSource | CRollback.

Inductive ShrinkPc :=
| SLock | SLoad | SStore (prev : Z)
| SUsed (k : ReservationKind) (released : Z)
| SAccount (k : ReservationKind) (released : Z)
| SNotify | SUnlock.

Inductive DropPc := LUsed | LAccount | LProgress | LNotify.

Inductive Pc :=
| PReserve (b : Z) (p : ReservePc)
| PProgress (b : Z) (p : ProgressPc)
| PTransform (b : Z) (p : TransformPc)
| PAdmit (b : Z) (p : AdmitPc)
| PWait (p : WaitPc)
| PFinish (own b : Z) (p : FinishPc)
| PDropActive (own : Z) (p : DropActivePc)
| PGrow (l : nat) (b : Z) (p : GrowPc)
| PCompanion (l : nat) (b : Z) (p : CompanionPc)
| PShrink (l : nat) (b : Z) (p : ShrinkPc)
| PDrop (b : Z) (k : ReservationKind) (p : DropPc)
| PPanicProgress                (* [expect] failed holding the progress slot *)
| PPanicActive (b : Z)          (* [expect] failed holding the active slot *)
| PPanic.

Record St := {
  mem : MemoryInner;
  leases : gmap nat MemoryLease;
  actives : gmap nat Z;         (* live [ActiveTransformReservation]s *)
  threads : gmap nat Pc;
  leaked : Z;                   (* ghost: bytes added to [used] and never owned *)
  overflow : bool               (* ghost: some 64-bit accounting overflowed *)
}.

(** ** State updates *)
Definition with_used (m : MemoryInner) (x : Z) : MemoryInner :=
  {| limit := limit m; used := x; source_used := source_used m;
     transform_used := transform_used m;
     progress_source_active := progress_source_active m;
     active_transform := active_transform m; changed := changed m |}.
Definition with_source (m : MemoryInner) (x : Z) : MemoryInner :=
  {| limit := limit m; used := used m; source_used := x;
     transform_used := transform_used m;
     progress_source_active := progress_source_active m;
     active_transform := active_transform m; changed := changed m |}.
Definition with_transform (m : MemoryInner) (x : Z) : MemoryInner :=
  {| limit := limit m; used := used m; source_used := source_used m;
     transform_used := x;
     progress_source_active := progress_source_active m;
     active_transform := active_transform m; changed := changed m |}.
Definition with_progress (m : MemoryInner) (x : Z) : MemoryInner :=
  {| limit := limit m; used := used m; source_used := source_used m;
     transform_used := transform_used m;
     progress_source_active := x;
     active_transform := active_transform m; changed := changed m |}.
Definition with_active (m : MemoryInner) (x : Z) : MemoryInner :=
  {| limit := limit m; used := used m; source_used := source_used m;
     transform_used := transform_used m;
     progress_source_active := progress_source_active m;
     active_transform := x; changed := changed m |}.
Definition notify_waiters (m : MemoryInner) : MemoryInner :=
  {| limit := limit m; used := used m; source_used := source_used m;
     transform_used := transform_used m;
     progress_source_active := progress_source_active m;
     active_transform := active_transform m; changed := S (changed m) |}.

Definition set_mem (s : St) (m : MemoryInner) : St :=
  {| mem := m; leases := leases s; actives := actives s; threads := threads s;
     leaked := leaked s; overflow := overflow s |}.
Definition set_lease (s : St) (l : nat) (x : MemoryLease) : St :=
  {| mem := mem s; leases := <[l:=x]> (leases s); actives := actives s;
     threads := threads s; leaked := leaked s; overflow := overflow s |}.
Definition flag (s : St) (o : bool) : St :=
  {| mem := mem s; leases := leases s; actives := actives s; threads := threads s;
     leaked := leaked s; overflow := overflow s || o |}.
Definition leak (s : St) (b : Z) : St :=
  {| mem := mem s; leases := leases s; actives := actives s; threads := threads s;
     leaked := leaked s + b; overflow := true |}.

Definition goto (s : St) (tid : nat) (p : Pc) : option St :=
  Some {| mem := mem s; leases := leases s; actives := actives s;
          threads := <[tid:=p]> (threads s); leaked := leaked s; overflow := overflow s |}.
Definition return_ (s : St) (tid : nat) : option St :=
  Some {| mem := mem s; leases := leases s; actives := actives s;
          threads := delete tid (threads s); leaked := leaked s; overflow := overflow s |}.
(** [MemoryReservation { lease: Arc::new(MemoryLease { .. }) }] under the fresh handle [h]. *)
Definition return_lease (s : St) (tid h : nat) (k : ReservationKind) (b : Z) : option St :=
  match leases s !! h with
  | Some _ => None
  | None => return_ (set_lease s h {| bytes := b; kind := k; strong := 1 |}) tid
  end.
Definition return_active (s : St) (tid h : nat) (b : Z) : option St :=
  match actives s !! h with
  | Some _ => None
  | None => return_ {| mem := mem s; leases := leases s; actives := <[h:=b]> (actives s);
                       threads := threads s; leaked := leaked s; overflow := overflow s |} tid
  end.

(** [fetch_add] / [fetch_sub] on [source_used] or [transform_used]. *)
Definition account_add (m : MemoryInner) (k : ReservationKind) (b : Z) : MemoryInner :=
  match k with
  | Transform => with_transform m (wrapping_add usize_max (transform_used m) b)
  | _ => with_source m (wrapping_add usize_max (source_used m) b)
  end.
Definition account_sub (m : MemoryInner) (k : ReservationKind) (b : Z) : MemoryInner :=
  match k with
  | Transform => with_transform m (wrapping_sub usize_max (transform_used m) b)
  | _ => with_source m (wrapping_sub usize_max (source_used m) b)
  end.
(** Did that [fetch_add] wrap? *)
Definition account_wraps (m : MemoryInner) (k : ReservationKind) (b : Z) : bool :=
  match k with
  | Transform => bool_decide (usize_max < transform_used m + b)
  | _ => bool_decide (usize_max < source_used m + b)
  end.

(** ** Operations *)

(** [PipelineMemory::new]; [assert!(limit > 0)] *)
Definition pipeline_memory_new (lim : Z) : option MemoryInner :=
  if bool_decide (0 < lim) then
    Some {| limit := lim; used := 0; source_used := 0; transform_used := 0;
            progress_source_active := 0; active_transform := 0; changed := 0 |}
  else None.

Definition is_transform_pressured (m : MemoryInner) : bool :=
  bool_decide (limit m ≤ transform_used m).

(** [fits] in [reserve]; an oversized request needs the empty budget. *)
Definition fits (lim b u : Z) : bool :=
  if bool_decide (lim < b) then bool_decide (u = 0)
  else match checked_add usize_max u b with
       | Some next => bool_decide (next ≤ lim)
       | None => false
       end.

Definition reserve (s : St) (tid : nat) (b : Z) (p : ReservePc) (h : nat) (spurious : bool)
    : option St :=
  match p with
  | RRegister => goto s tid (PReserve b (RLoad (changed (mem s))))
  | RLoad e =>
      if fits (limit (mem s)) b (used (mem s))
      then goto s tid (PReserve b (RCas (used (mem s))))
      else goto s tid (PReserve b (RWait e))
  | RCas u =>
      if bool_decide (used (mem s) = u) && negb spurious
      then goto (set_mem s (with_used (mem s) (saturating_add usize_max u b))) tid
             (PReserve b RAccount)
      else goto s tid (PReserve b RRegister)
  | RAccount =>
      return_lease (flag (set_mem s (account_add (mem s) Source b))
                      (account_wraps (mem s) Source b)) tid h Source b
  | RWait e =>
      if bool_decide (e = changed (mem s)) then None else goto s tid (PReserve b RRegister)
  end.

Definition reserve_progress_source (s : St) (tid : nat) (b : Z) (p : ProgressPc) (h : nat)
    : option St :=
  match p with
  | GRegister => goto s tid (PProgress b (GCas (changed (mem s))))
  | GCas e =>
      if bool_decide (progress_source_active (mem s) = 0)
      then goto (set_mem s (with_progress (mem s) 1)) tid (PProgress b GUsed)
      else goto s tid (PProgress b (GWait e))
  | GWait e =>
      if bool_decide (e = changed (mem s)) then None else goto s tid (PProgress b GRegister)
  | GUsed =>
      match checked_add usize_max (used (mem s)) b with
      | Some next => goto (set_mem s (with_used (mem s) next)) tid (PProgress b GAccount)
      | None => goto (flag s true) tid PPanicProgress
      end
  | GAccount =>
      return_lease (flag (set_mem s (account_add (mem s) ProgressSource b))
                      (account_wraps (mem s) ProgressSource b)) tid h ProgressSource b
  end.

Definition reserve_transform (s : St) (tid : nat) (b : Z) (p : TransformPc) (h : nat)
    : option St :=
  match p with
  | TUsed =>
      match checked_add usize_max (used (mem s)) b with
      | Some next => goto (set_mem s (with_used (mem s) next)) tid (PTransform b TAccount)
      | None => goto (flag s true) tid PPanic
      end
  | TAccount =>
      return_lease (flag (set_mem s (account_add (mem s) Transform b))
                      (account_wraps (mem s) Transform b)) tid h Transform b
  end.

Definition admit_active_transform (s : St) (tid : nat) (b : Z) (p : AdmitPc) (h : nat)
    : option St :=
  match p with
  | ARegister => goto s tid (PAdmit b (ALoad (changed (mem s))))
  | ALoad e =>
      if bool_decide (transform_used (mem s) < limit (mem s))
      then goto s tid (PAdmit b (ACas e))
      else goto s tid (PAdmit b (AWait e))
  | ACas e =>
      if bool_decide (active_transform (mem s) = 0)
      then goto (set_mem s (with_active (mem s) b)) tid (PAdmit b AUsed)
      else goto s tid (PAdmit b (AWait e))
  | AWait e =>
      if bool_decide (e = changed (mem s)) then None else goto s tid (PAdmit b ARegister)
  | AUsed =>
      match checked_add usize_max (used (mem s)) b with
      | Some next => return_active (set_mem s (with_used (mem s) next)) tid h b
      | None => goto (flag s true) tid (PPanicActive b)
      end
  end.

Definition wait_transform_below_limit (s : St) (tid : nat) (p : WaitPc) : option St :=
  match p with
  | WRegister => goto s tid (PWait (WLoad (changed (mem s))))
  | WLoad e =>
      if is_transform_pressured (mem s) then goto s tid (PWait (WWait e)) else return_ s tid
  | WWait e =>
      if bool_decide (e = changed (mem s)) then None else goto s tid (PWait WRegister)
  end.

(** [ActiveTransformReservation::finish]; when [expect] fails the unwinding
    drops [self], whose [Drop] releases the estimate. *)
Definition finish (s : St) (tid : nat) (own b : Z) (p : FinishPc) (h : nat) : option St :=
  match p with
  | FUsed =>
      if bool_decide (own ≤ b) then
        match checked_add usize_max (used (mem s)) (b - own) with
        | Some next => goto (set_mem s (with_used (mem s) next)) tid (PFinish own b FTransform)
        | None => goto (flag s true) tid (PDropActive own DUsed)
        end
      else goto (set_mem s (with_used (mem s) (wrapping_sub usize_max (used (mem s)) (own - b))))
             tid (PFinish own b FTransform)
  | FTransform =>
      goto (flag (set_mem s (account_add (mem s) Transform b)) (account_wraps (mem s) Transform b))
        tid (PFinish own b FActive)
  | FActive => goto (set_mem s (with_active (mem s) 0)) tid (PFinish own b FNotify)
  | FNotify => return_lease (set_mem s (notify_waiters (mem s))) tid h Transform b
  end.

(** [impl Drop for ActiveTransformReservation] *)
Definition drop_active (s : St) (tid : nat) (own : Z) (p : DropActivePc) : option St :=
  match p with
  | DUsed => goto (set_mem s (with_used (mem s) (wrapping_sub usize_max (used (mem s)) own)))
               tid (PDropActive own DActive)
  | DActive => goto (set_mem s (with_active (mem s) 0)) tid (PDropActive own DNotify)
  | DNotify => return_ (set_mem s (notify_waiters (mem s))) tid
  end.

(** The lease a thread borrows, and the lease whose [resize] mutex it holds. *)
Definition pc_lease (p : Pc) : option nat :=
  match p with
  | PGrow l _ _ | PCompanion l _ _ | PShrink l _ _ => Some l
  | _ => None
  end.
Definition pc_locks (p : Pc) : option nat :=
  match p with
  | PGrow _ _ OLock | PShrink _ _ SLock => None
  | PGrow l _ _ | PShrink l _ _ => Some l
  | _ => None
  end.
Definition borrowers (s : St) (l : nat) : Z :=
  msum (λ p, if bool_decide (pc_lease p = Some l) then 1 else 0) (threads s).
Definition lockers (s : St) (l : nat) : Z :=
  msum (λ p, if bool_decide (pc_locks p = Some l) then 1 else 0) (threads s).

Definition grow_progress_source_to (s : St) (tid l : nat) (b : Z) (p : GrowPc) : option St :=
  match leases s !! l with
  | None => None
  | Some lease =>
      match p with
      | OLock => if bool_decide (lockers s l = 0) then goto s tid (PGrow l b OLoad) else None
      | OLoad => if bool_decide (b ≤ bytes lease) then goto s tid (PGrow l b OUnlock)
                 else goto s tid (PGrow l b (OUsed (bytes lease)))
      | OUsed prev =>
          match checked_add usize_max (used (mem s)) (b - prev) with
          | Some next => goto (set_mem s (with_used (mem s) next)) tid (PGrow l b (OSource prev))
          | None => goto (flag s true) tid (PGrow l b OUnlock)
          end
      | OSource prev =>
          match checked_add usize_max (source_used (mem s)) (b - prev) with
          | Some next => goto (set_mem s (with_source (mem s) next)) tid (PGrow l b (OStore prev))
          | None => goto (leak s (b - prev)) tid (PGrow l b OUnlock)
          end
      | OStore prev =>
          goto (set_lease s l {| bytes := b; kind := kind lease; strong := strong lease |})
            tid (PGrow l b OUnlock)
      | OUnlock => return_ s tid
      end
  end.

Definition reserve_source_companion (s : St) (tid l : nat) (b : Z) (p : CompanionPc) (h : nat)
    : option St :=
  match p with
  | CUsed =>
      match checked_add usize_max (used (mem s)) b with
      | Some next => goto (set_mem s (with_used (mem s) next)) tid (PCompanion l b CSource)
      | None => return_ (flag s true) tid
      end
  | CSource =>
      match checked_add usize_max (source_used (mem s)) b with
      | Some next => return_lease (set_mem s (with_source (mem s) next)) tid h Source b
      | None => goto (flag s true) tid (PCompanion l b CRollback)
      end
  | CRollback =>
      return_ (set_mem s (with_used (mem s) (wrapping_sub usize_max (used (mem s)) b))) tid
  end.

Definition shrink_to (s : St) (tid l : nat) (b : Z) (p : ShrinkPc) : option St :=
  match leases s !! l with
  | None => None
  | Some lease =>
      match p with
      | SLock => if bool_decide (lockers s l = 0) then goto s tid (PShrink l b SLoad) else None
      | SLoad => if bool_decide (bytes lease ≤ b) then goto s tid (PShrink l b SUnlock)
                 else goto s tid (PShrink l b (SStore (bytes lease)))
      | SStore prev =>
          goto (set_lease s l {| bytes := b; kind := kind lease; strong := strong lease |})
            tid (PShrink l b (SUsed (kind lease) (prev - b)))
      | SUsed k released =>
          goto (set_mem s (with_used (mem s) (wrapping_sub usize_max (used (mem s)) released)))
            tid (PShrink l b (SAccount k released))
      | SAccount k released =>
          goto (set_mem s (account_sub (mem s) k released)) tid (PShrink l b SNotify)
      | SNotify => goto (set_mem s (notify_waiters (mem s))) tid (PShrink l b SUnlock)
      | SUnlock => return_ s tid
      end
  end.

(** [impl Drop for MemoryLease], run by the thread that drops the last clone. *)
Definition drop_lease (s : St) (tid : nat) (b : Z) (k : ReservationKind) (p : DropPc) : option St :=
  match p with
  | LUsed =>
      goto (set_mem s (with_used (mem s) (wrapping_sub usize_max (used (mem s)) b)))
        tid (PDrop b k LAccount)
  | LAccount =>
      goto (set_mem s (account_sub (mem s) k b)) tid
        (PDrop b k (if bool_decide (k = ProgressSource) then LProgress else LNotify))
  | LProgress => goto (set_mem s (with_progress (mem s) 0)) tid (PDrop b k LNotify)
  | LNotify => return_ (set_mem s (notify_waiters (mem s))) tid
  end.

(** ** Calls

    What a pipeline component may start.  [bytes.max(1)] is taken on entry. *)
Inductive Op :=
| OpReserve (b : Z) | OpReserveProgress (b : Z) | OpReserveTransform (b : Z)
| OpAdmit (b : Z) | OpWaitTransform
| OpFinish (a : nat) (b : Z) | OpDropActive (a : nat)
| OpGrow (l : nat) (b : Z) | OpCompanion (l : nat) (b : Z) | OpShrink (l : nat) (b : Z)
| OpClone (l : nat) | OpDrop (l : nat).

Definition delete_active (s : St) (a : nat) : St :=
  {| mem := mem s; leases := leases s; actives := delete a (actives s);
     threads := threads s; leaked := leaked s; overflow := overflow s |}.
Definition delete_lease (s : St) (l : nat) : St :=
  {| mem := mem s; leases := delete l (leases s); actives := actives s;
     threads := threads s; leaked := leaked s; overflow := overflow s |}.

(** Byte arguments are [usize]. *)
Definition op_in_range (o : Op) : bool :=
  match o with
  | OpReserve b | OpReserveProgress b | OpReserveTransform b | OpAdmit b
  | OpFinish _ b | OpGrow _ b | OpCompanion _ b | OpShrink _ b =>
      bool_decide (0 ≤ b ≤ usize_max)
  | _ => true
  end.

(** A [MemoryReservation] clone not lent to a running call. *)
Definition free_clone (s : St) (l : nat) : option MemoryLease :=
  match leases s !! l with
  | Some lease => if bool_decide (borrowers s l < Z.of_nat (strong lease)) then Some lease else None
  | None => None
  end.

Definition start (s : St) (tid : nat) (o : Op) : option St :=
  match threads s !! tid with
  | Some _ => None
  | None =>
      if negb (op_in_range o) then None else
      match o with
      | OpReserve b => goto s tid (PReserve (Z.max b 1) RRegister)
      | OpReserveProgress b => goto s tid (PProgress (Z.max b 1) GRegister)
      | OpReserveTransform b => goto s tid (PTransform (Z.max b 1) TUsed)
      | OpAdmit b => goto s tid (PAdmit (Z.max b 1) ARegister)
      | OpWaitTransform => goto s tid (PWait WRegister)
      | OpFinish a b =>
          own ← actives s !! a; goto (delete_active s a) tid (PFinish own (Z.max b 1) FUsed)
      | OpDropActive a =>
          own ← actives s !! a; goto (delete_active s a) tid (PDropActive own DUsed)
      | OpGrow l b =>
          lease ← free_clone s l;
          if bool_decide (kind lease = ProgressSource)
          then goto s tid (PGrow l (Z.max b 1) OLock) else Some s
      | OpCompanion l b =>
          lease ← free_clone s l;
          if bool_decide (kind lease = ProgressSource)
          then goto s tid (PCompanion l (Z.max b 1) CUsed) else Some s
      | OpShrink l b => lease ← free_clone s l; goto s tid (PShrink l (Z.max b 1) SLock)
      | OpClone l =>
          lease ← free_clone s l;
          Some (set_lease s l {| bytes := bytes lease; kind := kind lease;
                                 strong := S (strong lease) |})
      | OpDrop l =>
          lease ← free_clone s l;
          match strong lease with
          | S (S n) => Some (set_lease s l {| bytes := bytes lease; kind := kind lease;
                                              strong := S n |})
          | _ => goto (delete_lease s l) tid (PDrop (bytes lease) (kind lease) LUsed)
          end
      end
  end.

(** One atomic access of thread [tid]; [h] names a new handle, [spurious] lets a
    weak compare-exchange fail. *)
Definition advance (s : St) (tid h : nat) (spurious : bool) : option St :=
  match threads s !! tid with
  | None => None
  | Some (PReserve b p) => reserve s tid b p h spurious
  | Some (PProgress b p) => reserve_progress_source s tid b p h
  | Some (PTransform b p) => reserve_transform s tid b p h
  | Some (PAdmit b p) => admit_active_transform s tid b p h
  | Some (PWait p) => wait_transform_below_limit s tid p
  | Some (PFinish own b p) => finish s tid own b p h
  | Some (PDropActive own p) => drop_active s tid own p
  | Some (PGrow l b p) => grow_progress_source_to s tid l b p
  | Some (PCompanion l b p) => reserve_source_companion s tid l b p h
  | Some (PShrink l b p) => shrink_to s tid l b p
  | Some (PDrop b k p) => drop_lease s tid b k p
  | Some PPanicProgress | Some (PPanicActive _) | Some PPanic => None
  end.

Inductive Move :=
| Start (tid : nat) (o : Op)
| Advance (tid h : nat) (spurious : bool).

Definition move (s : St) (m : Move) : option St :=
  match m with
  | Start tid o => start s tid o
  | Advance tid h sp => advance s tid h sp
  end.

Definition step (s s' : St) : Prop := ∃ m, move s m = Some s'.

Definition initial (m : MemoryInner) : St :=
  {| mem := m; leases := ∅; actives := ∅; threads := ∅; leaked := 0; overflow := false |}.

Definition reachable (lim : Z) (s : St) : Prop :=
  ∃ m, pipeline_memory_new lim = Some m ∧ rtc step (initial m) s.

Fixpoint moves (ms : list Move) (s : St) : option St :=
  match ms with
  | [] => Some s
  | m :: ms => s' ← move s m; moves ms s'
  end.

(** ** Invariant

    Each counter is the sum of what live objects and running calls account for. *)
Definition transform_kind (k : ReservationKind) : bool :=
  match k with Transform => true | _ => false end.

(** Contribution of a running call to [used], [source_used], [transform_used]. *)
Definition pc_used (p : Pc) : Z :=
  match p with
  | PReserve b RAccount | PProgress b GAccount | PTransform b TAccount => b
  | PFinish own _ FUsed => own
  | PFinish _ b _ => b
  | PDropActive own DUsed => own
  | PGrow _ b (OSource prev) | PGrow _ b (OStore prev) => b - prev
  | PCompanion _ b CSource | PCompanion _ b CRollback => b
  | PShrink _ _ (SUsed _ r) => r
  | PDrop b _ LUsed => b
  | _ => 0
  end.
Definition pc_source (p : Pc) : Z :=
  match p with
  | PGrow _ b (OStore prev) => b - prev
  | PShrink _ _ (SUsed k r) | PShrink _ _ (SAccount k r) => if transform_kind k then 0 else r
  | PDrop b k LUsed | PDrop b k LAccount => if transform_kind k then 0 else b
  | _ => 0
  end.
Definition pc_transform (p : Pc) : Z :=
  match p with
  | PFinish _ b FActive | PFinish _ b FNotify => b
  | PShrink _ _ (SUsed k r) | PShrink _ _ (SAccount k r) => if transform_kind k then r else 0
  | PDrop b k LUsed | PDrop b k LAccount => if transform_kind k then b else 0
  | _ => 0
  end.
(** The active-transform slot and the progress-source slot. *)
Definition pc_active (p : Pc) : Z :=
  match p with
  | PAdmit b AUsed => b
  | PFinish own _ FUsed | PFinish own _ FTransform | PFinish own _ FActive => own
  | PDropActive own DUsed | PDropActive own DActive => own
  | PPanicActive b => b
  | _ => 0
  end.
Definition pc_progress (p : Pc) : Z :=
  match p with
  | PProgress _ GUsed | PProgress _ GAccount => 1
  | PDrop _ ProgressSource LUsed | PDrop _ ProgressSource LAccount
  | PDrop _ ProgressSource LProgress => 1
  | PPanicProgress => 1
  | _ => 0
  end.

Definition lease_source (x : MemoryLease) : Z := if transform_kind (kind x) then 0 else bytes x.
Definition lease_transform (x : MemoryLease) : Z := if transform_kind (kind x) then bytes x else 0.
Definition lease_progress (x : MemoryLease) : Z :=
  if bool_decide (kind x = ProgressSource) then 1 else 0.

(** What a program counter assumes of the shared state. *)
Definition pc_ok (lim : Z) (ls : gmap nat MemoryLease) (p : Pc) : Prop :=
  match p with
  | PReserve b q => 1 ≤ b ≤ usize_max ∧ match q with RCas u => fits lim b u = true | _ => True end
  | PProgress b _ | PTransform b _ | PAdmit b _ | PPanicActive b => 1 ≤ b
  | PFinish own b _ => 1 ≤ own ∧ 1 ≤ b
  | PDropActive own _ => 1 ≤ own
  | PGrow l b q => 1 ≤ b ∧ ∃ x, ls !! l = Some x ∧ kind x = ProgressSource ∧
      match q with
      | OUsed prev | OSource prev | OStore prev => bytes x = prev ∧ prev < b
      | _ => True
      end
  | PCompanion l b _ => 1 ≤ b
  | PShrink l b q => 1 ≤ b ∧ ∃ x, ls !! l = Some x ∧
      match q with
      | SStore prev => bytes x = prev ∧ b < prev
      | SUsed _ r | SAccount _ r => 0 < r
      | _ => True
      end
  | PDrop b k q => 1 ≤ b ∧ match q with LProgress => k = ProgressSource | _ => True end
  | _ => True
  end.

Record Wf (s : St) : Prop := {
  wf_lease : ∀ l x, leases s !! l = Some x → 1 ≤ bytes x;
  wf_active : ∀ a b, actives s !! a = Some b → 1 ≤ b;
  wf_pc : ∀ tid p, threads s !! tid = Some p → pc_ok (limit (mem s)) (leases s) p;
  wf_lock : ∀ l, lockers s l ≤ 1
}.

Definition M : Z := usize_max + 1.

Record Accounted (s : St) : Prop := {
  acc_used : used (mem s) =
    msum bytes (leases s) + msum id (actives s) + msum pc_used (threads s) + leaked s;
  acc_source : source_used (mem s) =
    (msum lease_source (leases s) + msum pc_source (threads s)) `mod` M;
  acc_transform : transform_used (mem s) =
    (msum lease_transform (leases s) + msum pc_transform (threads s)) `mod` M;
  acc_leaked : 0 ≤ leaked s;
  acc_overflow : overflow s = false → leaked s = 0;
  acc_range : used (mem s) ≤ usize_max
}.

Record Slots (s : St) : Prop := {
  slot_active : active_transform (mem s) = msum id (actives s) + msum pc_active (threads s);
  slot_active_one :
    msum (λ _, 1) (actives s) +
    msum (λ p, if bool_decide (pc_active p = 0) then 0 else 1) (threads s) ≤ 1;
  slot_progress : progress_source_active (mem s) =
    msum lease_progress (leases s) + msum pc_progress (threads s);
  slot_progress_one : progress_source_active (mem s) ≤ 1
}.

(** *** Lemmas on the thread map *)
Section threads.
Implicit Types (thr : gmap nat Pc) (f : Pc → Z).

Lemma msum_goto f thr tid p p' :
  thr !! tid = Some p → msum f (<[tid:=p']> thr) = msum f thr - f p + f p'.
Proof. apply msum_update. Qed.

Lemma msum_return f thr tid p :
  thr !! tid = Some p → msum f (delete tid thr) = msum f thr - f p.
Proof. intros Hp. pose proof (msum_delete f thr tid p Hp). lia. Qed.

Lemma msum_indicator_0 (P : Pc → Prop) `{!∀ p, Decision (P p)} thr :
  msum (λ p, if bool_decide (P p) then 1 else 0) thr ≤ 0 →
  ∀ tid p, thr !! tid = Some p → ¬ P p.
Proof.
  intros Hs tid p Hp HP.
  pose proof (msum_ge (λ p, if bool_decide (P p) then 1 else 0) thr tid p) as Hge.
  cbn in Hge. rewrite bool_decide_eq_true_2 in Hge by done.
  assert (1 ≤ 0); [|lia]. etrans; [|exact Hs]. apply Hge; [|done].
  intros. case_bool_decide; lia.
Qed.

Lemma msum_indicator_unique (P : Pc → Prop) `{!∀ p, Decision (P p)} thr tid1 tid2 p1 p2 :
  msum (λ p, if bool_decide (P p) then 1 else 0) thr ≤ 1 →
  thr !! tid1 = Some p1 → thr !! tid2 = Some p2 → P p1 → P p2 → tid1 = tid2.
Proof.
  intros Hs H1 H2 HP1 HP2. destruct (decide (tid1 = tid2)) as [|Hne]; [done|exfalso].
  rewrite (msum_delete _ thr tid1 p1 H1), bool_decide_eq_true_2 in Hs by done.
  apply (msum_indicator_0 P (delete tid1 thr)) with (tid := tid2) (p := p2); [|by rewrite lookup_delete_ne|done].
  lia.
Qed.
End threads.

Lemma pc_ok_mono lim ls ls' p :
  pc_ok lim ls p →
  (∀ l x, pc_lease p = Some l → ls !! l = Some x →
     ∃ x', ls' !! l = Some x' ∧ kind x' = kind x ∧
       (pc_locks p = Some l → bytes x' = bytes x)) →
  pc_ok lim ls' p.
Proof.
  intros Hok Hls.
  destruct p as [| | | | | | |l b q| |l b q| | | |]; try done; cbn in *.
  - destruct Hok as (Hb & x & Hx & Hk & Hq). split; [done|].
    destruct (Hls l x eq_refl Hx) as (x' & Hx' & Hk' & Hb').
    exists x'. split_and!; [done|congruence|]. destruct q; cbn in *; try done;
      rewrite Hb' by done; done.
  - destruct Hok as (Hb & x & Hx & Hq). split; [done|].
    destruct (Hls l x eq_refl Hx) as (x' & Hx' & Hk' & Hb').
    exists x'. split_and!; [done|]. destruct q; cbn in *; try done;
      rewrite Hb' by done; done.
Qed.

(** What a step does to the leases that another thread's program counter sees. *)
Definition lease_frame (ls ls' : gmap nat MemoryLease) (p : Pc) : Prop :=
  ∀ l x, pc_lease p = Some l → ls !! l = Some x →
    ∃ x', ls' !! l = Some x' ∧ kind x' = kind x ∧ (pc_locks p = Some l → bytes x' = bytes x).

Lemma frame_refl ls p : lease_frame ls ls p.
Proof. intros l x _ Hx. eauto. Qed.

Lemma frame_fresh ls h y p : ls !! h = None → lease_frame ls (<[h:=y]> ls) p.
Proof.
  intros Hh l x _ Hx. exists x. split_and!; try done.
  rewrite lookup_insert_ne; [done|]. congruence.
Qed.

Lemma frame_store ls l y x p :
  ls !! l = Some x → kind y = kind x → (bytes y = bytes x ∨ pc_locks p ≠ Some l) →
  lease_frame ls (<[l:=y]> ls) p.
Proof.
  intros Hl Hk Hor l' x' _ Hx'. destruct (decide (l = l')) as [<-|Hne].
  - rewrite Hl in Hx'; injection Hx' as <-. exists y. rewrite lookup_insert_eq.
    split_and!; [done..|]. intros Hp. by destruct Hor.
  - exists x'. rewrite lookup_insert_ne by done. eauto.
Qed.

Lemma frame_delete ls l p : pc_lease p ≠ Some l → lease_frame ls (delete l ls) p.
Proof.
  intros Hp l' x' Hl' Hx'. exists x'. rewrite lookup_delete_ne; [by eauto|congruence].
Qed.

(** A locked lease is locked by one thread. *)
Lemma other_unlocked s tid p tid' p' l :
  Wf s → threads s !! tid = Some p → pc_locks p = Some l →
  threads s !! tid' = Some p' → tid ≠ tid' → pc_locks p' ≠ Some l.
Proof.
  intros Hwf Ht Hl Ht' Hne Hl'. apply Hne.
  eapply (msum_indicator_unique (λ p, pc_locks p = Some l)); eauto. apply (wf_lock _ Hwf).
Qed.

Create HintDb frame.
#[export] Hint Resolve frame_refl frame_fresh frame_delete other_unlocked : frame.

(** Split a [move] into its successful branches. *)
Ltac split_branches H :=
  repeat match type of H with
  | context [match ?x with _ => _ end] => destruct x eqn:?
  end; try discriminate H; simplify_eq.

Ltac unfold_ops H :=
  unfold advance, start, reserve, reserve_progress_source, reserve_transform,
    admit_active_transform, wait_transform_below_limit, finish, drop_active,
    grow_progress_source_to, reserve_source_companion, shrink_to, drop_lease,
    account_add, account_sub, account_wraps, return_lease, return_active, goto, return_, mbind, option_bind in H.

Ltac advance_cases H tid s :=
  unfold_ops H;
  let Hp := fresh "Hpc" in
  destruct (threads s !! tid) as [[b p|b p|b p|b p|p|own b p|own p|l b p|l b p|l b p|b k p| |b| ]|]
    eqn:Hp; try discriminate H; try destruct p; split_branches H; bool_inv.

Lemma free_clone_Some s l x :
  free_clone s l = Some x →
  leases s !! l = Some x ∧ borrowers s l < Z.of_nat (strong x).
Proof.
  unfold free_clone. destruct (leases s !! l); [|done].
  case_bool_decide; [|done]. intros [= ->]. done.
Qed.

Ltac start_cases H tid s :=
  unfold_ops H;
  let Hp := fresh "Hpc" in
  destruct (threads s !! tid) eqn:Hp; [discriminate H|];
  match type of H with context [op_in_range ?o] =>
    let Hr := fresh "Hrange" in
    destruct (op_in_range o) eqn:Hr; [cbn [negb] in H|discriminate H]; destruct o; cbn in Hr
  end;
  split_branches H; bool_inv;
  repeat match goal with
  | Hf : free_clone _ _ = Some _ |- _ => apply free_clone_Some in Hf as [? ?]
  end.

Ltac other_threads :=
  intros ?tid' ?p' Hlk;
  first [apply lookup_insert_Some in Hlk as [[<- <-]|[? Hlk]]
        |apply lookup_delete_Some in Hlk as [? Hlk]| idtac].

Ltac destruct_conj :=
  repeat match goal with
  | H : _ ∧ _ |- _ => destruct H
  | H : ∃ _, _ |- _ => destruct H
  end.

Lemma Wf_pc_other s ls' tid p :
  Wf s → threads s !! tid = Some p → lease_frame (leases s) ls' p →
  pc_ok (limit (mem s)) ls' p.
Proof. intros Hwf Hp Hf. eapply pc_ok_mono; [by eapply wf_pc|]. exact Hf. Qed.

Ltac lookup_cases :=
  repeat match goal with
  | H : <[_:=_]> _ !! _ = Some _ |- _ => apply lookup_insert_Some in H as [[? ?]|[? H]]; subst
  | H : delete _ _ !! _ = Some _ |- _ => apply lookup_delete_Some in H as [? H]
  end.

Lemma Wf_objects_advance s tid h sp s' :
  Wf s → advance s tid h sp = Some s' →
  (∀ l x, leases s' !! l = Some x → 1 ≤ bytes x) ∧
  (∀ a b, actives s' !! a = Some b → 1 ≤ b).
Proof.
  intros Hwf H. pose proof (wf_pc _ Hwf tid) as Hok.
  pose proof (wf_lease _ Hwf) as Hle. pose proof (wf_active _ Hwf) as Hac.
  advance_cases H tid s; specialize (Hok _ eq_refl); cbn in Hok; destruct_conj.
  all: split; cbn; intros; lookup_cases; subst; cbn; eauto; lia.
Qed.

Lemma Wf_lock_advance s tid h sp s' :
  Wf s → advance s tid h sp = Some s' → ∀ l, lockers s' l ≤ 1.
Proof.
  intros Hwf H. pose proof (wf_lock _ Hwf) as Hlk. unfold lockers in *.
  advance_cases H tid s; intros lk; specialize (Hlk lk); cbn.
  all: first [erewrite msum_goto by eassumption | erewrite msum_return by eassumption]; cbn.
  all: repeat case_bool_decide; simplify_eq; unfold lockers in *; try lia.
Qed.

Lemma Wf_pc_advance s tid h sp s' :
  Wf s → advance s tid h sp = Some s' →
  ∀ t p, threads s' !! t = Some p → pc_ok (limit (mem s')) (leases s') p.
Proof.
  intros Hwf H. pose proof (wf_pc _ Hwf tid) as Hok.
  advance_cases H tid s; specialize (Hok _ eq_refl); cbn in Hok; destruct_conj.
  all: cbn; intros t' p' Hlk; lookup_cases; simplify_eq; cbn.
  all: try (eapply Wf_pc_other; [done|eassumption|]).
  all: eauto with frame.
  all: try (split; [done|]; eexists; rewrite ?lookup_insert_eq; split_and!; (done || cbn; lia)).
  all: eapply frame_store; [eassumption|done|right].
  all: by eapply (other_unlocked s tid _ t' p').
Qed.

Lemma Wf_advance s tid h sp s' : Wf s → advance s tid h sp = Some s' → Wf s'.
Proof.
  intros Hwf H. destruct (Wf_objects_advance _ _ _ _ _ Hwf H).
  split; [done..|by eapply Wf_pc_advance|by eapply Wf_lock_advance].
Qed.

Lemma Wf_start s tid o s' : Wf s → start s tid o = Some s' → Wf s'.
Proof.
  intros Hwf H. pose proof (wf_lease _ Hwf) as Hle. pose proof (wf_active _ Hwf) as Hac.
  pose proof (wf_lock _ Hwf) as Hlk. unfold lockers in Hlk.
  start_cases H tid s; split; cbn; try (intros; lookup_cases; simplify_eq; cbn; eauto; lia).
  all: try (intros l'; specialize (Hlk l'); unfold lockers; cbn;
            rewrite ?msum_insert by done; cbn; done).
  all: intros t' p' Hp'; lookup_cases; simplify_eq; cbn.
  all: try (eapply Wf_pc_other; [done|eassumption|]).
  all: eauto with frame.
  all: try (unfold usize_max, u64_max in *; split_and?; try lia; try (by eapply Hle); try (by eapply Hac); by eauto).
  all: try (eapply frame_store; [eassumption|done|by left]).
  all: apply frame_delete; eapply (msum_indicator_0 (λ p, pc_lease p = Some l)); [|done].
  all: unfold borrowers in *; lia.
Qed.

Lemma Wf_step s s' : Wf s → step s s' → Wf s'.
Proof.
  intros Hwf [[tid o|tid h sp] H]; [by eapply Wf_start|by eapply Wf_advance].
Qed.

Lemma Wf_initial m : Wf (initial m).
Proof.
  split; cbn; try (intros ? ? ?%lookup_empty_Some; done).
  intros l. unfold lockers; cbn. rewrite msum_empty. lia.
Qed.

(** *** Accounting *)
Lemma mod_add x S T b :
  x = S `mod` M → T = S + b → wrapping_add usize_max x b = T `mod` M.
Proof.
  intros -> ->. unfold wrapping_add. change (usize_max + 1) with M.
  apply Zplus_mod_idemp_l.
Qed.

Lemma mod_sub x S T b :
  x = S `mod` M → T = S - b → wrapping_sub usize_max x b = T `mod` M.
Proof.
  intros -> ->. unfold wrapping_sub. change (usize_max + 1) with M.
  apply Zminus_mod_idemp_l.
Qed.

Lemma mod_checked x S T b c :
  x = S `mod` M → T = S + b → 0 ≤ b → checked_add usize_max x b = Some c → c = T `mod` M.
Proof.
  intros -> -> Hb [-> Hc]%checked_add_Some.
  rewrite <-Zplus_mod_idemp_l. symmetry. apply Z.mod_small.
  pose proof (Z.mod_pos_bound S M ltac:(done)). unfold M in *. lia.
Qed.

Lemma mod_same x S T : x = S `mod` M → T = S → x = T `mod` M.
Proof. by intros -> ->. Qed.

Lemma fits_Some lim b u :
  1 ≤ b ≤ usize_max → fits lim b u = true →
  saturating_add usize_max u b = u + b ∧ u + b ≤ usize_max ∧
  ((b ≤ lim ∧ u + b ≤ lim) ∨ (lim < b ∧ u = 0)).
Proof.
  intros Hb. unfold fits, saturating_add. case_bool_decide; intros; bool_inv; [lia|].
  destruct (checked_add usize_max u b) as [n|] eqn:E; [|done].
  apply checked_add_Some in E as [-> ?]. bool_inv. lia.
Qed.

Section nonneg.
Context (s : St) (Hwf : Wf s).

Lemma pc_nonneg tid p : threads s !! tid = Some p →
  0 ≤ pc_used p ∧ 0 ≤ pc_source p ∧ 0 ≤ pc_transform p ∧ 0 ≤ pc_active p ∧ 0 ≤ pc_progress p.
Proof.
  intros Hp. pose proof (wf_pc _ Hwf _ _ Hp) as Hok.
  destruct p as [b q|b q|b q|b q|q|own b q|own q|l b q|l b q|l b q|b k q| |b| ];
    try destruct q; cbn in *; destruct_conj; try destruct (transform_kind k); try destruct k; lia.
Qed.

Lemma leases_nonneg : 0 ≤ msum bytes (leases s).
Proof. apply msum_nonneg. intros l x Hx. pose proof (wf_lease _ Hwf _ _ Hx). lia. Qed.

Lemma actives_nonneg : 0 ≤ msum id (actives s).
Proof. apply msum_nonneg. intros l x Hx. pose proof (wf_active _ Hwf _ _ Hx). cbn. lia. Qed.

Lemma used_ge_pc tid p :
  Accounted s → threads s !! tid = Some p → 0 ≤ pc_used p ≤ used (mem s).
Proof.
  intros Ha Hp. pose proof leases_nonneg. pose proof actives_nonneg.
  pose proof (acc_leaked _ Ha). rewrite (acc_used _ Ha).
  destruct (pc_nonneg _ _ Hp) as (? & _).
  pose proof (msum_ge pc_used (threads s) tid p (λ _ _ H, proj1 (pc_nonneg _ _ H)) Hp). lia.
Qed.
End nonneg.

Ltac msums :=
  repeat first
  [ erewrite msum_goto by eassumption
  | erewrite msum_return by eassumption
  | erewrite msum_insert by eassumption
  | erewrite msum_update by eassumption ]; cbn.

Lemma Accounted_used_advance s tid h sp s' :
  Wf s → Accounted s → advance s tid h sp = Some s' →
  used (mem s') =
    msum bytes (leases s') + msum id (actives s') + msum pc_used (threads s') + leaked s' ∧
  used (mem s') ≤ usize_max ∧ 0 ≤ leaked s' ∧ (overflow s' = false → leaked s' = 0).
Proof.
  intros Hwf Ha H. pose proof (wf_pc _ Hwf tid) as Hok.
  pose proof (acc_used _ Ha) as Hu. pose proof (acc_range _ Ha) as Hr.
  pose proof (acc_leaked _ Ha) as Hl. pose proof (acc_overflow _ Ha) as Ho.
  pose proof (used_ge_pc s Hwf tid) as Hge.
  advance_cases H tid s; specialize (Hok _ eq_refl); cbn in Hok;
    specialize (Hge _ Ha eq_refl); cbn in Hge; destruct_conj; cbn.
  all: msums.
  all: repeat match goal with
    | H : checked_add _ _ _ = Some _ |- _ => apply checked_add_Some in H as [-> ?]
    | H : fits _ _ _ = true |- _ => apply fits_Some in H as (?&?&?); [|done]
    end.
  all: rewrite ?wrapping_sub_small by lia.
  all: split_and!; try done; try lia.
  all: try (intros [? ?]%orb_false_iff; auto).
Qed.

Ltac mod_solve Hx :=
  first
  [ eapply mod_same; [exact Hx|lia]
  | eapply mod_add; [exact Hx|lia]
  | eapply mod_sub; [exact Hx|lia]
  | eapply mod_checked; [exact Hx| |eassumption|]; lia
  | match goal with H : checked_add _ _ _ = Some _ |- _ =>
      eapply (mod_checked _ _ _ _ _ Hx); [| |exact H]; lia
    end ].

Lemma lease_source_eq x : lease_source x = if transform_kind (kind x) then 0 else bytes x.
Proof. done. Qed.
Lemma lease_transform_eq x : lease_transform x = if transform_kind (kind x) then bytes x else 0.
Proof. done. Qed.

Lemma Accounted_kinds_advance s tid h sp s' :
  Wf s → Accounted s → advance s tid h sp = Some s' →
  source_used (mem s') =
    (msum lease_source (leases s') + msum pc_source (threads s')) `mod` M ∧
  transform_used (mem s') =
    (msum lease_transform (leases s') + msum pc_transform (threads s')) `mod` M.
Proof.
  intros Hwf Ha H. pose proof (wf_pc _ Hwf tid) as Hok.
  pose proof (acc_source _ Ha) as Hs. pose proof (acc_transform _ Ha) as Ht.
  advance_cases H tid s; specialize (Hok _ eq_refl); cbn in Hok; destruct_conj; cbn.
  all: msums; rewrite ?lease_source_eq, ?lease_transform_eq; cbn.
  all: simplify_eq; repeat match goal with
    | H : kind ?x = ProgressSource |- _ => rewrite !H; clear H; cbn
    end.
  all: try (destruct (kind _); cbn).
  all: split; [mod_solve Hs|mod_solve Ht].
Qed.

Lemma msum_delete_sub `{Countable K} {A} (f : A → Z) (m : gmap K A) k x :
  m !! k = Some x → msum f (delete k m) = msum f m - f x.
Proof. intros Hk. rewrite (msum_delete f m k x Hk). lia. Qed.

Lemma Accounted_start s tid o s' :
  Accounted s → start s tid o = Some s' → Accounted s'.
Proof.
  intros Ha H. pose proof (acc_used _ Ha) as Hu. pose proof (acc_range _ Ha) as Hr.
  pose proof (acc_source _ Ha) as Hs. pose proof (acc_transform _ Ha) as Ht.
  pose proof (acc_leaked _ Ha) as Hl. pose proof (acc_overflow _ Ha) as Ho.
  start_cases H tid s; try done; split; cbn; try done.
  all: msums; repeat (erewrite msum_delete_sub by eassumption); cbn; try lia.
  all: rewrite ?lease_source_eq, ?lease_transform_eq; cbn; try (destruct (kind _); cbn).
  all: first [mod_solve Hs|mod_solve Ht].
Qed.

Lemma Accounted_step s s' : Wf s → Accounted s → step s s' → Accounted s'.
Proof.
  intros Hwf Ha [[tid o|tid h sp] H]; [by eapply Accounted_start|].
  destruct (Accounted_used_advance _ _ _ _ _ Hwf Ha H) as (? & ? & ? & ?).
  destruct (Accounted_kinds_advance _ _ _ _ _ Hwf Ha H). by split.
Qed.

(** *** The two exclusive slots *)
Lemma indicator_active_pos s tid p :
  Wf s → threads s !! tid = Some p → 0 ≤ pc_active p.
Proof. intros Hwf Hp. by destruct (pc_nonneg s Hwf tid p Hp) as (_&_&_&?&_). Qed.

(** When the active slot's counter is zero, nobody holds it. *)
Lemma active_free s :
  Wf s → Slots s → active_transform (mem s) = 0 →
  msum (λ _, 1) (actives s) +
  msum (λ p, if bool_decide (pc_active p = 0) then 0 else 1) (threads s) = 0.
Proof.
  intros Hwf Hs Hz. rewrite (slot_active _ Hs) in Hz.
  pose proof (actives_nonneg s Hwf).
  assert (0 ≤ msum pc_active (threads s)).
  { apply msum_nonneg. intros. by eapply indicator_active_pos. }
  rewrite !msum_zero; [done| |].
  - intros tid p Hp. case_bool_decide as Hne; [done|]. exfalso. apply Hne.
    pose proof (indicator_active_pos _ _ _ Hwf Hp).
    pose proof (msum_ge pc_active (threads s) tid p
      (λ _ _ H, indicator_active_pos _ _ _ Hwf H) Hp). lia.
  - intros a b Hb. exfalso. pose proof (wf_active _ Hwf _ _ Hb).
    pose proof (msum_ge id (actives s) a b
      (λ a x H, Z.le_trans 0 1 x ltac:(lia) (wf_active _ Hwf a x H)) Hb). cbn in *. lia.
Qed.

(** A thread that holds the active slot holds all of it. *)
Lemma active_sole s tid p :
  Wf s → Slots s → threads s !! tid = Some p → pc_active p ≠ 0 →
  active_transform (mem s) = pc_active p.
Proof.
  intros Hwf Hs Hp Hne. pose proof (slot_active_one _ Hs) as H1.
  rewrite (slot_active _ Hs).
  rewrite (msum_delete _ (threads s) tid p Hp), bool_decide_eq_false_2 in H1 by done.
  rewrite (msum_delete pc_active (threads s) tid p Hp).
  set (f := λ p, if bool_decide (pc_active p = 0) then 0 else 1) in *.
  assert (0 ≤ msum (λ _, 1) (actives s)) by (apply msum_nonneg; lia).
  assert (0 ≤ msum f (delete tid (threads s))).
  { apply msum_nonneg. intros. unfold f. case_bool_decide; lia. }
  rewrite (msum_zero id (actives s)), (msum_zero pc_active (delete tid (threads s))); [lia| |].
  - intros t q Hq. destruct (decide (pc_active q = 0)); [done|exfalso].
    pose proof (msum_ge f (delete tid (threads s)) t q ltac:(intros; unfold f; case_bool_decide; lia) Hq).
    unfold f in *. rewrite bool_decide_eq_false_2 in * by done. lia.
  - intros a b Hb. exfalso.
    pose proof (msum_ge (λ _ : Z, 1) (actives s) a b ltac:(intros; lia) Hb). cbn in *. lia.
Qed.

Lemma Slots_active_advance s tid h sp s' :
  Wf s → Slots s → advance s tid h sp = Some s' →
  active_transform (mem s') = msum id (actives s') + msum pc_active (threads s') ∧
  msum (λ _, 1) (actives s') +
  msum (λ p, if bool_decide (pc_active p = 0) then 0 else 1) (threads s') ≤ 1.
Proof.
  intros Hwf Hsl H. pose proof (wf_pc _ Hwf tid) as Hok.
  pose proof (slot_active _ Hsl) as Ha. pose proof (slot_active_one _ Hsl) as H1.
  pose proof (active_sole s tid) as Hsole. pose proof (active_free s Hwf Hsl) as Hfree.
  advance_cases H tid s; specialize (Hok _ eq_refl); cbn in Hok;
    specialize (Hsole _ Hwf Hsl eq_refl); cbn in Hsole; destruct_conj; cbn.
  all: msums; repeat case_bool_decide; try lia.
  all: split; lia.
Qed.

Lemma lease_progress_eq x :
  lease_progress x = if bool_decide (kind x = ProgressSource) then 1 else 0.
Proof. done. Qed.

Lemma progress_ge_pc s tid p :
  Wf s → Slots s → threads s !! tid = Some p →
  pc_progress p ≤ progress_source_active (mem s).
Proof.
  intros Hwf Hsl Hp. rewrite (slot_progress _ Hsl).
  assert (0 ≤ msum lease_progress (leases s)).
  { apply msum_nonneg. intros l x _. unfold lease_progress. case_bool_decide; lia. }
  pose proof (msum_ge pc_progress (threads s) tid p) as Hge.
  assert (pc_progress p ≤ msum pc_progress (threads s)); [|lia].
  apply Hge; [|done]. intros t q Hq.
  by destruct (pc_nonneg s Hwf t q Hq) as (_&_&_&_&?).
Qed.

Lemma Slots_progress_advance s tid h sp s' :
  Wf s → Slots s → advance s tid h sp = Some s' →
  progress_source_active (mem s') =
    msum lease_progress (leases s') + msum pc_progress (threads s') ∧
  progress_source_active (mem s') ≤ 1.
Proof.
  intros Hwf Hsl H. pose proof (wf_pc _ Hwf tid) as Hok.
  pose proof (slot_progress _ Hsl) as Hp. pose proof (slot_progress_one _ Hsl) as H1.
  pose proof (progress_ge_pc s tid) as Hge.
  advance_cases H tid s; specialize (Hok _ eq_refl); cbn in Hok;
    specialize (Hge _ Hwf Hsl eq_refl); cbn in Hge; destruct_conj; cbn.
  all: msums; rewrite ?lease_progress_eq; cbn; try (destruct k); cbn in *;
    repeat case_bool_decide; simplify_eq; try (by cbn in *; congruence); lia.
Qed.

Lemma Slots_start s tid o s' : Slots s → start s tid o = Some s' → Slots s'.
Proof.
  intros Hsl H. pose proof (slot_active _ Hsl). pose proof (slot_active_one _ Hsl).
  pose proof (slot_progress _ Hsl). pose proof (slot_progress_one _ Hsl).
  start_cases H tid s; try done; split; cbn; try done.
  all: msums; repeat (erewrite msum_delete_sub by eassumption);
    rewrite ?lease_progress_eq; cbn; try (destruct (kind _)); cbn;
    repeat case_bool_decide; simplify_eq; lia.
Qed.

Lemma Slots_step s s' : Wf s → Slots s → step s s' → Slots s'.
Proof.
  intros Hwf Hs [[tid o|tid h sp] H]; [by eapply Slots_start|].
  destruct (Slots_active_advance _ _ _ _ _ Hwf Hs H).
  destruct (Slots_progress_advance _ _ _ _ _ Hwf Hs H). by split.
Qed.

Lemma reachable_inv lim s :
  reachable lim s → 0 < lim ∧ limit (mem s) = lim ∧ Wf s ∧ Accounted s ∧ Slots s.
Proof.
  intros (m & Hm & Hrtc). unfold pipeline_memory_new in Hm.
  case_bool_decide; [|done]. simplify_eq.
  split; [done|]. revert Hrtc.
  apply (rtc_invariant step (λ s, limit (mem s) = lim ∧ Wf s ∧ Accounted s ∧ Slots s)).
  - split; [done|]. split_and!; [apply Wf_initial| |]; split; cbn; rewrite ?msum_empty; done.
  - intros s1 s2 (<-&?&?&?) Hst. split_and!; eauto using Wf_step, Accounted_step, Slots_step.
    destruct Hst as [[tid o|tid h sp] Hmv]; cbn in Hmv;
      [start_cases Hmv tid s1|advance_cases Hmv tid s1]; done.
Qed.

(** *** Wake-ups

    A call that released capacity and has not notified yet. *)
Definition releasing (p : Pc) : bool :=
  match p with
  | PFinish _ _ FTransform | PFinish _ _ FActive | PFinish _ _ FNotify
  | PDropActive _ DActive | PDropActive _ DNotify
  | PShrink _ _ (SAccount _ _) | PShrink _ _ SNotify
  | PDrop _ _ LAccount | PDrop _ _ LProgress | PDrop _ _ LNotify => true
  | _ => false
  end.

Definition some_releasing (s : St) : Prop :=
  ∃ tid p, threads s !! tid = Some p ∧ releasing p = true.

(** The notification epoch a call registered, and the condition it is parked on. *)
Definition pc_epoch (p : Pc) : option nat :=
  match p with
  | PReserve _ (RLoad e) | PReserve _ (RWait e)
  | PProgress _ (GCas e) | PProgress _ (GWait e)
  | PAdmit _ (ALoad e) | PAdmit _ (ACas e) | PAdmit _ (AWait e)
  | PWait (WLoad e) | PWait (WWait e) => Some e
  | _ => None
  end.
Definition parked (p : Pc) : bool :=
  match p with
  | PReserve _ (RWait _) | PProgress _ (GWait _) | PAdmit _ (AWait _) | PWait (WWait _) => true
  | _ => false
  end.
(** The operation could proceed in [m]. *)
Definition can_proceed (m : MemoryInner) (p : Pc) : bool :=
  match p with
  | PReserve b _ => fits (limit m) b (used m)
  | PProgress _ _ => bool_decide (progress_source_active m = 0)
  | PAdmit _ _ => bool_decide (transform_used m < limit m) && bool_decide (active_transform m = 0)
  | PWait _ => negb (is_transform_pressured m)
  | _ => true
  end.

Record Wakeups (s : St) : Prop := {
  wk_epoch : ∀ tid p e, threads s !! tid = Some p → pc_epoch p = Some e → (e ≤ changed (mem s))%nat;
  wk_parked : ∀ tid p, threads s !! tid = Some p → parked p = true →
    pc_epoch p = Some (changed (mem s)) →
    can_proceed (mem s) p = false ∨ some_releasing s;
  wk_rollback : ∀ tid l b, threads s !! tid = Some (PCompanion l b CRollback) → overflow s = true
}.

(** No capacity became available. *)
Definition tighter (m m' : MemoryInner) : Prop :=
  limit m' = limit m ∧ changed m' = changed m ∧
  used m ≤ used m' ∧ transform_used m ≤ transform_used m' ∧
  (progress_source_active m ≠ 0 → progress_source_active m' ≠ 0) ∧
  (active_transform m ≠ 0 → active_transform m' ≠ 0).

Lemma fits_mono lim b u u' : 0 ≤ u ≤ u' → fits lim b u = false → fits lim b u' = false.
Proof.
  unfold fits, checked_add. intros. repeat case_bool_decide; try done; lia.
Qed.

Lemma can_proceed_mono m m' p :
  0 ≤ used m → tighter m m' → can_proceed m p = false → can_proceed m' p = false.
Proof.
  intros H0 (Hl & _ & Hu & Ht & Hp & Ha).
  destruct p; cbn; rewrite ?Hl; try done.
  - apply fits_mono. lia.
  - intros ?%bool_decide_eq_false. apply bool_decide_eq_false. auto.
  - intros [?%bool_decide_eq_false|?%bool_decide_eq_false]%andb_false_iff;
      apply andb_false_iff; [left|right]; apply bool_decide_eq_false; auto; lia.
  - unfold is_transform_pressured. rewrite Hl.
    intros ?%negb_false_iff%bool_decide_eq_true. apply negb_false_iff, bool_decide_eq_true. lia.
Qed.

Lemma account_add_transform_le s b :
  Accounted s → 0 ≤ b → account_wraps (mem s) Transform b = false →
  transform_used (mem s) ≤ wrapping_add usize_max (transform_used (mem s)) b.
Proof.
  intros Ha Hb Hw. unfold account_wraps in Hw. bool_inv.
  rewrite (acc_transform _ Ha) in *.
  match goal with |- ?x `mod` M ≤ _ => pose proof (Z.mod_pos_bound x M ltac:(done)) end.
  rewrite wrapping_add_small; lia.
Qed.

Lemma used_nonneg s : Wf s → Accounted s → 0 ≤ used (mem s).
Proof.
  intros Hwf Ha. rewrite (acc_used _ Ha). pose proof (leases_nonneg s Hwf).
  pose proof (actives_nonneg s Hwf). pose proof (acc_leaked _ Ha).
  assert (0 ≤ msum pc_used (threads s)); [|lia].
  apply msum_nonneg. intros t p Hp. by destruct (pc_nonneg s Hwf t p Hp).
Qed.

(** A step notifies, or releases and will notify, or frees nothing. *)
Lemma advance_tighter s tid h sp s' pc :
  Wf s → Accounted s → Wakeups s → overflow s' = false →
  threads s !! tid = Some pc → advance s tid h sp = Some s' →
  changed (mem s') = S (changed (mem s)) ∨
  (changed (mem s') = changed (mem s) ∧ ∃ p', threads s' !! tid = Some p' ∧ releasing p' = true) ∨
  (tighter (mem s) (mem s') ∧ releasing pc = false).
Proof.
  intros Hwf Ha Hw Ho Hp H. pose proof (wf_pc _ Hwf _ _ Hp) as Hok.
  pose proof (wk_rollback _ Hw tid) as Hrb.
  pose proof (account_add_transform_le s) as Htr. pose proof (used_nonneg s Hwf Ha) as Hnn.
  unfold tighter.
  advance_cases H tid s; simplify_eq; cbn in *; destruct_conj.
  all: try (by left).
  all: try (right; left; split; [done|]; eexists; rewrite lookup_insert_eq; by split).
  all: right; right; (split; [|done]).
  all: repeat match goal with
    | H : checked_add _ _ _ = Some _ |- _ => apply checked_add_Some in H as [-> ?]
    | H : fits _ _ _ = true |- _ => apply fits_Some in H as (?&?&?); [|done]
    | H : _ || _ = false |- _ => apply orb_false_iff in H as [? ?]
    end.
  all: try (split_and!; (done || lia)).
  - split_and!; try done. apply Htr; [done|lia|done].
  - rewrite (Hrb _ _ eq_refl) in *. done.
Qed.

Lemma start_tighter s tid o s' :
  start s tid o = Some s' →
  mem s' = mem s ∧ overflow s' = overflow s ∧
  (∀ t p, threads s !! t = Some p → threads s' !! t = Some p) ∧
  (∀ t p, threads s' !! t = Some p → threads s !! t = Some p ∨
     pc_epoch p = None ∧ parked p = false ∧ ∀ l b, p ≠ PCompanion l b CRollback).
Proof.
  intros H. start_cases H tid s; split_and!; try done; cbn.
  all: intros t q Hq; try (by left).
  all: try (rewrite lookup_insert_ne; [done|congruence]).
  all: lookup_cases; simplify_eq; cbn; [right|left]; done.
Qed.

Lemma Wakeups_start s tid o s' : Wakeups s → start s tid o = Some s' → Wakeups s'.
Proof.
  intros Hw H. apply start_tighter in H as (Hm & Ho & Hf & Hb). split; rewrite ?Hm, ?Ho.
  - intros t q e Hq He. destruct (Hb _ _ Hq) as [Hq'|(?&_)]; [|congruence].
    by eapply wk_epoch.
  - intros t q Hq Hp He. destruct (Hb _ _ Hq) as [Hq'|(_&?&_)]; [|congruence].
    destruct (wk_parked _ Hw _ _ Hq' Hp He) as [|(t' & q' & Ht' & Hr)]; [by left|right].
    exists t', q'. auto.
  - intros t l b Hq. destruct (Hb _ _ Hq) as [Hq'|(_&_&Hne)]; [|by destruct (Hne l b)].
    by eapply wk_rollback.
Qed.

(** The thread that moved: it parks only on what it has just observed. *)
Lemma advance_parks s tid h sp s' :
  Wakeups s → advance s tid h sp = Some s' → overflow s' = false →
  overflow s = false ∧ (changed (mem s) ≤ changed (mem s'))%nat ∧
  ∀ q, threads s' !! tid = Some q →
    (∀ l b, q ≠ PCompanion l b CRollback) ∧
    (∀ e, pc_epoch q = Some e → (e ≤ changed (mem s'))%nat) ∧
    (parked q = true → can_proceed (mem s') q = false).
Proof.
  intros Hw H Ho. pose proof (wk_epoch _ Hw tid) as He.
  advance_cases H tid s; cbn in *; unfold is_transform_pressured in *; bool_inv.
  all: try discriminate Ho; repeat match goal with
    | H : _ || _ = false |- _ => apply orb_false_iff in H as [? ?] end.
  all: split_and!; try done; try lia.
  all: intros q Hq; lookup_cases; simplify_eq; cbn.
  all: split_and!; try done; try (intros; simplify_eq; by eauto).
  all: intros _; unfold is_transform_pressured.
  all: rewrite ?andb_false_iff, ?negb_false_iff, ?bool_decide_eq_false, ?bool_decide_eq_true;
    try done; first [by left|by right|lia].
Qed.

Lemma advance_others s tid h sp s' t :
  advance s tid h sp = Some s' → t ≠ tid → threads s' !! t = threads s !! t.
Proof.
  intros H Hne. advance_cases H tid s; cbn;
    first [by rewrite lookup_insert_ne|by rewrite lookup_delete_ne].
Qed.

Lemma Wakeups_advance s tid h sp s' :
  Wf s → Accounted s → Wakeups s → overflow s' = false →
  advance s tid h sp = Some s' → Wakeups s'.
Proof.
  intros Hwf Ha Hw Ho H. destruct (advance_parks _ _ _ _ _ Hw H Ho) as (Ho' & Hch & Hme).
  pose proof (λ t, advance_others _ _ _ _ _ t H) as Hoth.
  assert (∃ p, threads s !! tid = Some p) as [p Hp].
  { unfold advance in H. destruct (threads s !! tid); [eauto|done]. }
  split.
  - intros t q e Hq He. destruct (decide (t = tid)) as [->|Hne]; [by apply (Hme q)|].
    rewrite Hoth in Hq by done. pose proof (wk_epoch _ Hw _ _ _ Hq He). lia.
  - intros t q Hq Hpk He. destruct (decide (t = tid)) as [->|Hne].
    { left. by apply Hme. }
    rewrite Hoth in Hq by done. pose proof (wk_epoch _ Hw _ _ _ Hq He) as Hle.
    destruct (advance_tighter _ _ _ _ _ _ Hwf Ha Hw Ho Hp H)
      as [Hn|[(Hn & p' & Hp' & Hr)|[Ht Hnr]]]; [lia|right; by exists tid, p'|].
    assert (changed (mem s') = changed (mem s)) as Hn by apply Ht. rewrite Hn in He.
    destruct (wk_parked _ Hw _ _ Hq Hpk He) as [Hc|(t' & q' & Ht' & Hr)].
    + left. eapply can_proceed_mono; [by apply used_nonneg|done..].
    + right. exists t', q'. split; [|done]. rewrite Hoth; [done|]. intros ->. congruence.
  - intros t l b Hq. destruct (decide (t = tid)) as [->|Hne].
    { by destruct (proj1 (Hme _ Hq) l b). }
    rewrite Hoth in Hq by done. pose proof (wk_rollback _ Hw _ _ _ Hq). congruence.
Qed.

Lemma overflow_step s s' : step s s' → overflow s' = false → overflow s = false.
Proof.
  intros [[tid o|tid h sp] H]; cbn in H.
  - apply start_tighter in H as (_ & -> & _). done.
  - advance_cases H tid s; cbn; try done; by intros [? _]%orb_false_iff.
Qed.

Lemma reachable_wakeups lim s : reachable lim s → overflow s = false → Wakeups s.
Proof.
  intros (m & Hm & Hrtc).
  assert (∀ s, rtc step (initial m) s → Wf s ∧ Accounted s) as Hinv.
  { intros s' Hs'. destruct (reachable_inv lim s') as (_&_&?&?&_); [by exists m|done]. }
  revert s Hrtc. refine (rtc_ind_r _ (initial m) _ _).
  - intros _. split; cbn; intros *; by rewrite lookup_empty.
  - intros s1 s2 Hr Hst IH Ho. destruct (Hinv _ Hr). pose proof (overflow_step _ _ Hst Ho).
    destruct Hst as [[tid o|tid h sp] H']; cbn in H'.
    + eapply Wakeups_start; eauto.
    + eapply Wakeups_advance; eauto.
Qed.

(** ** Properties *)

(** C10. In every reachable interleaving, [used] is exactly the bytes owned by live
    leases, by active transforms and by calls in progress (plus what an overflow
    of the accounting leaked, nothing when none happened), it never exceeds
    [usize::MAX], and [source_used] and [transform_used] are the bytes of their
    kind modulo the word size: no [fetch_sub] on [used] ever wraps and no release
    is lost or counted twice. *)
Theorem memory_accounting lim s :
  reachable lim s →
  used (mem s) =
    msum bytes (leases s) + msum id (actives s) + msum pc_used (threads s) + leaked s ∧
  0 ≤ used (mem s) ≤ usize_max ∧
  source_used (mem s) = (msum lease_source (leases s) + msum pc_source (threads s)) `mod` M ∧
  transform_used (mem s) =
    (msum lease_transform (leases s) + msum pc_transform (threads s)) `mod` M ∧
  (overflow s = false → leaked s = 0).
Proof.
  intros Hr. destruct (reachable_inv _ _ Hr) as (_ & _ & Hwf & Ha & _).
  pose proof (used_nonneg s Hwf Ha). destruct Ha. by split_and!.
Qed.

(** Between calls the counters are exact: the source and transform counters are
    the bytes of the live leases of their kind, [used] is their sum plus the active
    estimate, and once every reservation is gone every counter is back to zero. *)
Theorem memory_quiescent lim s :
  reachable lim s → threads s = ∅ → overflow s = false →
  source_used (mem s) = msum lease_source (leases s) ∧
  transform_used (mem s) = msum lease_transform (leases s) ∧
  active_transform (mem s) = msum id (actives s) ∧
  used (mem s) = source_used (mem s) + transform_used (mem s) + active_transform (mem s) ∧
  (leases s = ∅ → actives s = ∅ →
   used (mem s) = 0 ∧ source_used (mem s) = 0 ∧ transform_used (mem s) = 0 ∧
   active_transform (mem s) = 0 ∧ progress_source_active (mem s) = 0).
Proof.
  intros Hr Ht Ho. destruct (reachable_inv _ _ Hr) as (_ & _ & Hwf & Ha & Hs).
  pose proof (acc_overflow _ Ha Ho) as Hlk. pose proof (acc_range _ Ha) as Hrg.
  pose proof (acc_used _ Ha) as Hu. pose proof (acc_source _ Ha) as Hsrc.
  pose proof (acc_transform _ Ha) as Htr.
  pose proof (slot_active _ Hs) as Hac. pose proof (slot_progress _ Hs) as Hpr.
  rewrite Ht, msum_empty in *. rewrite Z.add_0_r in *.
  pose proof (actives_nonneg s Hwf).
  assert (msum bytes (leases s) = msum lease_source (leases s) + msum lease_transform (leases s)) as Hsum.
  { rewrite <-msum_add. apply msum_ext. intros l x _.
    unfold lease_source, lease_transform. destruct (transform_kind _); lia. }
  assert (0 ≤ msum lease_source (leases s) ∧ 0 ≤ msum lease_transform (leases s)) as [? ?].
  { split; apply msum_nonneg; intros l x Hx; pose proof (wf_lease _ Hwf _ _ Hx);
      unfold lease_source, lease_transform; destruct (transform_kind _); lia. }
  rewrite Z.mod_small in Hsrc, Htr by (unfold M; lia).
  split_and!; [lia..|]. intros Hl Hc. rewrite Hl, Hc, !msum_empty in *. lia.
Qed.

Lemma moves_rtc ms s s' : moves ms s = Some s' → rtc step s s'.
Proof.
  revert s. induction ms as [|m ms IH]; intros s; cbn; [intros [= ->]; reflexivity|].
  destruct (move s m) as [s1|] eqn:Em; cbn; [|done].
  intros H. eapply rtc_l; [by exists m|]. by apply IH.
Qed.

Definition sample_inner : MemoryInner :=
  {| limit := 100; used := 0; source_used := 0; transform_used := 0;
     progress_source_active := 0; active_transform := 0; changed := 0 |}.
Definition call (tid : nat) (o : Op) (h n : nat) : list Move :=
  Start tid o :: replicate n (Advance tid h false).
Definition state_after (ms : list Move) : St :=
  default (initial sample_inner) (moves ms (initial sample_inner)).

Lemma state_after_reachable ms :
  is_Some (moves ms (initial sample_inner)) → reachable 100 (state_after ms).
Proof.
  intros [s Hs]. exists sample_inner. split; [done|].
  unfold state_after. rewrite Hs. by apply (moves_rtc ms).
Qed.

(** A source lease of 60, a progress lease of 70 (over the limit), an ordinary
    request of 50 parked behind them, and a transform output of 20. *)
Definition busy_moves : list Move :=
  call 1 (OpReserve 60) 0 4 ++ call 2 (OpReserveProgress 70) 1 4 ++
  call 3 (OpReserve 50) 2 2 ++ call 4 (OpAdmit 30) 0 4 ++ call 4 (OpFinish 0 20) 3 4.
(** The two leases are dropped again; the parked request is still there. *)
Definition drained_moves : list Move :=
  busy_moves ++ call 1 (OpDrop 0) 0 3 ++ call 2 (OpDrop 1) 0 4 ++ call 4 (OpDrop 3) 0 3.
(** The same without the parked request. *)
Definition idle_moves : list Move :=
  call 1 (OpReserve 60) 0 4 ++ call 2 (OpReserveProgress 70) 1 4 ++
  call 4 (OpAdmit 30) 0 4 ++ call 4 (OpFinish 0 20) 3 4.

Lemma busy_reachable : reachable 100 (state_after busy_moves).
Proof. apply state_after_reachable. vm_compute. by eexists. Qed.
Lemma idle_reachable : reachable 100 (state_after idle_moves).
Proof. apply state_after_reachable. vm_compute. by eexists. Qed.

Lemma memory_accounting_witness :
  reachable 100 (state_after busy_moves) ∧
  used (mem (state_after busy_moves)) = 150 ∧
  used (mem (state_after busy_moves)) =
    msum bytes (leases (state_after busy_moves)) + msum id (actives (state_after busy_moves)) +
    msum pc_used (threads (state_after busy_moves)) + leaked (state_after busy_moves).
Proof.
  split; [apply busy_reachable|]. split; [vm_compute; reflexivity|].
  apply (memory_accounting 100 (state_after busy_moves) busy_reachable).
Defined.

Lemma memory_quiescent_witness :
  source_used (mem (state_after idle_moves)) = 130 ∧
  used (mem (state_after idle_moves)) = 150 ∧
  source_used (mem (state_after idle_moves)) = msum lease_source (leases (state_after idle_moves)).
Proof.
  split; [vm_compute; reflexivity|]. split; [vm_compute; reflexivity|].
  apply (memory_quiescent 100 (state_after idle_moves) idle_reachable); vm_compute; reflexivity.
Defined.

(** An active estimate that exists holds the whole slot. *)
Lemma active_sole_object s a b :
  Wf s → Slots s → actives s !! a = Some b → active_transform (mem s) = b.
Proof.
  intros Hwf Hs Hb. pose proof (slot_active_one _ Hs) as H1. rewrite (slot_active _ Hs).
  set (f := λ p, if bool_decide (pc_active p = 0) then 0 else 1) in *.
  assert (∀ k p, threads s !! k = Some p → 0 ≤ f p) as Hf.
  { intros. unfold f. case_bool_decide; lia. }
  rewrite (msum_delete _ _ _ _ Hb) in H1. rewrite (msum_delete id _ _ _ Hb).
  pose proof (msum_nonneg f _ Hf).
  assert (0 ≤ msum (λ _ : Z, 1) (delete a (actives s))) by (apply msum_nonneg; lia).
  rewrite (msum_zero id (delete a (actives s))), (msum_zero pc_active (threads s)); cbn; [lia| |].
  - intros t p Hp. destruct (decide (pc_active p = 0)); [done|exfalso].
    pose proof (msum_ge f _ _ _ Hf Hp). unfold f in *.
    rewrite bool_decide_eq_false_2 in * by done. lia.
  - intros a' b' Hb'. exfalso.
    pose proof (msum_ge (λ _ : Z, 1) _ _ _ ltac:(intros; lia) Hb'). cbn in *. lia.
Qed.

(** mutual exclusion.  At any point of any interleaving at most one
    progress-source lease exists and at most one active transform estimate, and
    while an estimate exists the slot records exactly its size. *)
Theorem memory_slots_exclusive lim s :
  reachable lim s →
  (∀ l1 l2 x1 x2, leases s !! l1 = Some x1 → leases s !! l2 = Some x2 →
     kind x1 = ProgressSource → kind x2 = ProgressSource → l1 = l2) ∧
  (∀ a1 a2 b1 b2, actives s !! a1 = Some b1 → actives s !! a2 = Some b2 →
     a1 = a2 ∧ active_transform (mem s) = b1).
Proof.
  intros Hr. destruct (reachable_inv _ _ Hr) as (_ & _ & Hwf & _ & Hs). split.
  - intros l1 l2 x1 x2 H1 H2 K1 K2.
    assert (0 ≤ msum pc_progress (threads s)).
    { apply msum_nonneg. intros t p Hp. by destruct (pc_nonneg s Hwf t p Hp) as (_&_&_&_&?). }
    pose proof (slot_progress _ Hs). pose proof (slot_progress_one _ Hs).
    eapply (msum_unique lease_progress (leases s)); try eassumption.
    + intros. unfold lease_progress. case_bool_decide; lia.
    + lia.
    + unfold lease_progress. by rewrite K1.
    + unfold lease_progress. by rewrite K2.
  - intros a1 a2 b1 b2 H1 H2. split; [|by eapply active_sole_object].
    pose proof (slot_active_one _ Hs).
    assert (0 ≤ msum (λ p, if bool_decide (pc_active p = 0) then 0 else 1) (threads s)).
    { apply msum_nonneg. intros. case_bool_decide; lia. }
    eapply (msum_unique (λ _ : Z, 1) (actives s)); try eassumption; lia || (intros; lia).
Qed.

Lemma memory_slots_exclusive_witness :
  reachable 100 (state_after busy_moves) ∧
  (leases (state_after busy_moves) !! 1%nat = Some {| bytes := 70; kind := ProgressSource; strong := 1 |}) ∧
  ∀ l x, leases (state_after busy_moves) !! l = Some x → kind x = ProgressSource → l = 1%nat.
Proof.
  assert (leases (state_after busy_moves) !! 1%nat
    = Some {| bytes := 70; kind := ProgressSource; strong := 1 |}) as H1 by (vm_compute; reflexivity).
  split; [apply busy_reachable|]. split; [exact H1|]. intros l x Hx Hk.
  exact (proj1 (memory_slots_exclusive 100 _ busy_reachable) l 1%nat x _ Hx H1 Hk eq_refl).
Defined.

(** admission control.  When an ordinary [reserve] wins its compare-exchange the
    budget after it is within the limit, or the request alone exceeds the limit and
    it was admitted into an empty budget: no lease, no estimate, no call in
    progress owned a byte. *)
Theorem reserve_within_limit lim s tid b u h s' :
  reachable lim s → overflow s = false →
  threads s !! tid = Some (PReserve b (RCas u)) →
  advance s tid h false = Some s' → threads s' !! tid = Some (PReserve b RAccount) →
  used (mem s') = used (mem s) + b ∧
  (used (mem s') ≤ lim ∨
   lim < b ∧ used (mem s') = b ∧ leases s = ∅ ∧ actives s = ∅ ∧
   ∀ t p, threads s !! t = Some p → pc_used p = 0).
Proof.
  intros Hr Ho Ht H Ht'. destruct (reachable_inv _ _ Hr) as (_ & Hlim & Hwf & Ha & _).
  destruct (wf_pc _ Hwf _ _ Ht) as [Hb Hf]. unfold advance in H. rewrite Ht in H. cbn in H.
  case_bool_decide as Hu; cbn in H; unfold goto in H; simplify_eq; cbn in *;
    [|rewrite lookup_insert_eq in Ht'; by simplify_eq].
  destruct (fits_Some _ _ _ Hb Hf) as (-> & ? & Hcase). split; [done|].
  destruct Hcase as [[_ ?]|[? Hz]]; [by left|right]. split_and!; [done|lia|..].
  all: pose proof (acc_used _ Ha) as Hacc; pose proof (leases_nonneg s Hwf);
    pose proof (actives_nonneg s Hwf); pose proof (acc_leaked _ Ha).
  all: assert (∀ t p, threads s !! t = Some p → 0 ≤ pc_used p) as Hp
    by (intros t p Hp; by destruct (pc_nonneg s Hwf t p Hp)); pose proof (msum_nonneg _ _ Hp).
  - apply map_empty. intros l. destruct (leases s !! l) as [x|] eqn:El; [exfalso|done].
    pose proof (wf_lease _ Hwf _ _ El).
    pose proof (msum_ge bytes (leases s) l x ltac:(intros k y Hy; pose proof (wf_lease _ Hwf _ _ Hy); lia) El).
    lia.
  - apply map_empty. intros a. destruct (actives s !! a) as [x|] eqn:El; [exfalso|done].
    pose proof (wf_active _ Hwf _ _ El).
    pose proof (msum_ge id (actives s) a x ltac:(intros k y Hy; pose proof (wf_active _ Hwf _ _ Hy); cbn; lia) El).
    cbn in *. lia.
  - intros t p Htp. pose proof (msum_ge pc_used _ _ _ Hp Htp). pose proof (Hp _ _ Htp). lia.
Qed.

Definition cas_moves : list Move := call 1 (OpReserve 60) 0 4 ++ call 2 (OpReserve 30) 1 2.

Lemma cas_reachable : reachable 100 (state_after cas_moves).
Proof. apply state_after_reachable. vm_compute. by eexists. Qed.

Lemma reserve_within_limit_witness :
  used (mem (state_after (cas_moves ++ [Advance 2 1 false]))) ≤ 100.
Proof.
  destruct (reserve_within_limit 100 (state_after cas_moves) 2 30 60 1
    (state_after (cas_moves ++ [Advance 2 1 false])) cas_reachable) as [_ [H|[H _]]].
  1-4: vm_compute; reflexivity.
  - exact H.
  - exfalso. revert H. by vm_compute.
Defined.

(** C35. No lost wake-up.  Whatever the interleaving, a call that is parked and whose
    registered notification has not been signalled is really blocked: the budget,
    the slot or the pressure it waits for is unavailable in the current state, as
    soon as no other call sits between a release and its [notify_waiters]. *)
Theorem no_lost_wakeup lim s tid p :
  reachable lim s → overflow s = false →
  (∀ t q, threads s !! t = Some q → releasing q = false) →
  threads s !! tid = Some p → parked p = true → pc_epoch p = Some (changed (mem s)) →
  can_proceed (mem s) p = false.
Proof.
  intros Hr Ho Hnr Hp Hpk He.
  destruct (wk_parked _ (reachable_wakeups _ _ Hr Ho) _ _ Hp Hpk He) as [|(t & q & Hq & Hrel)];
    [done|]. specialize (Hnr _ _ Hq). congruence.
Qed.

Lemma busy_not_releasing t q :
  threads (state_after busy_moves) !! t = Some q → releasing q = false.
Proof.
  assert (threads (state_after busy_moves) = {[ 3%nat := PReserve 50 (RWait 0) ]})
    as -> by (vm_compute; reflexivity).
  intros [<- <-]%lookup_singleton_Some. done.
Qed.

(** The parked request of 50 in the witness is signalled by the transform's
    [finish]; one parked after it is not, and cannot proceed. *)
Lemma no_lost_wakeup_witness :
  can_proceed (mem (state_after (busy_moves ++ call 5 (OpReserve 40) 9 2))) (PReserve 40 (RWait 1))
  = false.
Proof.
  refine (no_lost_wakeup 100 (state_after (busy_moves ++ call 5 (OpReserve 40) 9 2)) 5%nat _ _ _ _ _ _ _).
  - apply state_after_reachable. vm_compute. by eexists.
  - vm_compute; reflexivity.
  - assert (threads (state_after (busy_moves ++ call 5 (OpReserve 40) 9 2))
      = {[ 3%nat := PReserve 50 (RWait 0); 5%nat := PReserve 40 (RWait 1) ]})
      as -> by (vm_compute; reflexivity).
    intros t q [[<- <-]|[_ [<- <-]%lookup_singleton_Some]]%lookup_insert_Some; done.
  - vm_compute; reflexivity.
  - reflexivity.
  - vm_compute; reflexivity.
Defined.

(** a parked [reserve] always gets through.  Once every lease and estimate is
    released and the releases have notified, the waiting call has been signalled
    and its next five accesses complete the reservation, however large it is. *)
Theorem parked_reserve_completes lim s tid b e h :
  reachable lim s → overflow s = false →
  (∀ t q, threads s !! t = Some q → releasing q = false) →
  leases s = ∅ → used (mem s) = 0 →
  threads s !! tid = Some (PReserve b (RWait e)) →
  ∃ s', moves (replicate 5 (Advance tid h false)) s = Some s' ∧
    leases s' !! h = Some {| bytes := b; kind := Source; strong := 1 |} ∧
    threads s' !! tid = None.
Proof.
  intros Hr Ho Hnr Hl Hu Ht. destruct (reachable_inv _ _ Hr) as (Hpos & Hlim & Hwf & _ & _).
  destruct (wf_pc _ Hwf _ _ Ht) as [Hb _].
  assert (fits (limit (mem s)) b 0 = true) as Hfit.
  { unfold fits, checked_add. repeat case_bool_decide; (done || lia). }
  assert (e ≠ changed (mem s)) as Hne.
  { intros ->. pose proof (wk_parked _ (reachable_wakeups _ _ Hr Ho) _ _ Ht eq_refl eq_refl) as [Hc|Hc].
    - cbn in Hc. rewrite Hu in Hc. congruence.
    - destruct Hc as (t & q & Hq & Hrel). specialize (Hnr _ _ Hq). congruence. }
  cbn [replicate moves move]. unfold advance. rewrite Ht. cbn [reserve].
  rewrite bool_decide_eq_false_2 by done. cbn. unfold advance; cbn.
  rewrite !lookup_insert_eq; cbn. unfold advance; cbn. rewrite !lookup_insert_eq; cbn.
  rewrite Hu, Hfit; cbn. unfold advance; cbn. rewrite !lookup_insert_eq; cbn.
  rewrite bool_decide_eq_true_2 by done; cbn. unfold advance; cbn.
  rewrite !lookup_insert_eq; cbn. unfold return_lease; cbn. rewrite Hl, lookup_empty; cbn.
  eexists. split; [done|]. cbn. by rewrite lookup_insert_eq, lookup_delete_eq.
Qed.

Lemma parked_reserve_completes_witness :
  ∃ s', moves (replicate 5 (Advance 3 7 false)) (state_after drained_moves) = Some s' ∧
    leases s' !! 7%nat = Some {| bytes := 50; kind := Source; strong := 1 |}.
Proof.
  destruct (parked_reserve_completes 100 (state_after drained_moves) 3%nat 50 0 7%nat)
    as (s' & H1 & H2 & _).
  - apply state_after_reachable. vm_compute. by eexists.
  - vm_compute; reflexivity.
  - assert (threads (state_after drained_moves) = {[ 3%nat := PReserve 50 (RWait 0) ]})
      as -> by (vm_compute; reflexivity).
    intros t q [<- <-]%lookup_singleton_Some. done.
  - vm_compute; reflexivity.
  - vm_compute; reflexivity.
  - vm_compute; reflexivity.
  - exists s'. by split.
Defined.

(** The interleaving behind the next property: a huge source lease is being dropped
    (already out of [used], still in [source_used]) while the progress lease grows. *)
Definition leak_moves : list Move :=
  call 1 (OpReserve (usize_max - 10)) 0 4 ++ call 2 (OpReserveProgress 5) 1 4 ++
  call 1 (OpDrop 0) 0 1 ++ call 2 (OpGrow 1 25) 0 5 ++
  [Advance 1 0 false; Advance 1 0 false] ++ call 2 (OpDrop 1) 0 4.

(** [grow_progress_source_to] does not undo its addition to [used] when the
    second addition, to [source_used], overflows: there is a run after which no
    lease, no estimate and no call is left and 20 bytes stay accounted for ever
    ([reserve_source_companion] rolls back in the same situation). *)
Theorem grow_overflow_leaks :
  ∃ s, moves leak_moves (initial sample_inner) = Some s ∧
    leases s = ∅ ∧ actives s = ∅ ∧ threads s = ∅ ∧ used (mem s) = 20.
Proof.
  exists (state_after leak_moves). split_and!; vm_compute; reflexivity.
Qed.
