(* ===== verification/RowCount.v ===== *)
(** * Exact output row totals

    [transferia-pipeline/src/row_count.rs]: the per-dataset row totals of one finite
    pipeline attempt.  Parsed deliveries stay pending until the sink acknowledged
    them and the source commit succeeded.

    The state sits behind a mutex; every method locks it for its whole body, so a
    method is one state transition.  The poisoned-lock error is not modelled: a
    method panics nowhere while it holds the lock. *)

From stdpp Require Import base tactics numbers option list sorting strings gmap fin_maps relations.
From S2P Require Import Prelude DeliveryId.
Local Open Scope Z_scope.

(** [(bool, Arc<str>)]: the dead-letter flag and the table. *)
Abbreviation Key := (bool * string)%type (only parsing).

(** The derived lexicographic order of the tuple. *)
Definition key_le (a b : Key) : Prop :=
  if decide (a.1 = b.1) then String.le a.2 b.2 else a.1 = false.
#[export] Instance key_le_dec : RelDecision key_le.
Proof. intros a b. unfold key_le. destruct (decide (a.1 = b.1)); apply _. Defined.
#[export] Instance key_le_po : PartialOrder key_le.
Proof.
  split; [split|].
  - intros [a s]. unfold key_le; cbn. by destruct (decide (a = a)).
  - intros [a s] [b t] [c u]. unfold key_le; cbn.
    destruct a, b, c; cbn; try done; apply transitivity.
  - intros [a s] [b t]. unfold key_le; cbn. destruct a, b; cbn; try done;
      intros ? ?; f_equal; by apply (anti_symm String.le).
Qed.
#[export] Instance key_le_total : Total key_le.
Proof.
  intros [a s] [b t]. unfold key_le; cbn.
  destruct a, b; cbn; [apply (total String.le)|by right|by left|apply (total String.le)].
Qed.

(** The parts of a [SinkBatch] the counter reads. *)
Record OutputBatch := { out_table : string; out_is_dlq : bool; out_rows : Z }.

Record OutputDatasetRowCount := { table : string; is_dlq : bool; rows : Z }.

Record OutputRowCountState := {
  committed : gmap Key Z;
  pending : gmap Z (gmap Key Z)
}.

Inductive RowError :=
| RepeatedDataset (k : Key)
| ObservedTwice (id : DeliveryId)
| UndiscoveredDataset (k : Key)
| RowOverflow (k : Key)
| UnknownMergeDataset (k : Key)
| UnknownDelivery (id : DeliveryId)
| LostDataset (k : Key).

Definition new (datasets : list (string * bool)) : result RowError OutputRowCountState :=
  rows ← for_each (λ (acc : gmap Key Z) '(t, dlq),
            match acc !! (dlq, t) with
            | Some _ => Err (RepeatedDataset (dlq, t))
            | None => Ok (<[(dlq, t) := 0]> acc)
            end) datasets ∅;
  Ok {| committed := rows; pending := ∅ |}.

(** [entry(..).or_insert(0)] for each dataset *)
Definition admit_datasets (st : OutputRowCountState) (datasets : list (string * bool))
    : OutputRowCountState :=
  {| committed := foldl (λ (acc : gmap Key Z) '(t, dlq),
        match acc !! (dlq, t) with Some _ => acc | None => <[(dlq, t) := 0]> acc end)
        (committed st) datasets;
     pending := pending st |}.

Definition observe_output (st : OutputRowCountState) (delivery : gmap Key Z) (o : OutputBatch)
    : result RowError (gmap Key Z) :=
  let key := (out_is_dlq o, out_table o) in
  _ ← ensure (bool_decide (is_Some (committed st !! key))) (UndiscoveredDataset key);
  let current := default 0 (delivery !! key) in
  n ← ok_or (checked_add u64_max current (out_rows o)) (RowOverflow key);
  Ok (<[key := n]> delivery).

Definition observe_delivery (st : OutputRowCountState) (id : DeliveryId) (outputs : list OutputBatch)
    : OutputRowCountState * result RowError unit :=
  match (_ ← ensure (bool_decide (pending st !! id = None)) (ObservedTwice id);
         for_each (observe_output st) outputs ∅) with
  | Err e => (st, Err e)
  | Ok delivery => ({| committed := committed st; pending := <[id := delivery]> (pending st) |}, Ok tt)
  end.

(** The body of the inner loop of [validated_committed_counts]. *)
Definition add_rows (next : gmap Key Z) (kr : Key * Z) : result RowError (gmap Key Z) :=
  match next !! kr.1 with
  | None => Err (LostDataset kr.1)
  | Some current =>
      n ← ok_or (checked_add u64_max current kr.2) (RowOverflow kr.1);
      Ok (<[kr.1 := n]> next)
  end.

Definition validated_committed_counts (st : OutputRowCountState) (c : DeliveryId)
    : result RowError (gmap Key Z) :=
  _ ← ensure (bool_decide (is_Some (pending st !! c))) (UnknownDelivery c);
  for_each (λ next d, for_each add_rows (bt_iter key_le d.2) next)
    (filter (λ d, d.1 ≤ c) (bt_iter Z.le (pending st))) (committed st).

Definition commit_through (st : OutputRowCountState) (c : DeliveryId)
    : OutputRowCountState * result RowError unit :=
  match validated_committed_counts st c with
  | Err e => (st, Err e)
  | Ok next =>
      ({| committed := next; pending := filter (λ d, c < d.1) (pending st) |}, Ok tt)
  end.

Definition validate_commit_through (st : OutputRowCountState) (c : DeliveryId)
    : result RowError unit :=
  (λ _, tt) <$> validated_committed_counts st c.

Definition snapshot (st : OutputRowCountState) : list OutputDatasetRowCount :=
  (λ kr, {| table := kr.1.2; is_dlq := kr.1.1; rows := kr.2 |}) <$> bt_iter key_le (committed st).

Definition merge_count (next : gmap Key Z) (count : OutputDatasetRowCount)
    : result RowError (gmap Key Z) :=
  let key := (is_dlq count, table count) in
  current ← ok_or (next !! key) (UnknownMergeDataset key);
  n ← ok_or (checked_add u64_max current (rows count)) (RowOverflow key);
  Ok (<[key := n]> next).

Definition merge (st other : OutputRowCountState) : OutputRowCountState * result RowError unit :=
  match for_each merge_count (snapshot other) (committed st) with
  | Err e => (st, Err e)
  | Ok next => ({| committed := next; pending := pending st |}, Ok tt)
  end.

(** ** Totals *)

(** The rows of [k] in a list of counted rows, in a delivery and in the deliveries
    up to [c]. *)
Definition rows_of (k : Key) (l : list (Key * Z)) : Z :=
  lsum (λ kr, if bool_decide (kr.1 = k) then kr.2 else 0) l.
Definition delivered (k : Key) (d : gmap Key Z) : Z := default 0 (d !! k).
Definition due (st : OutputRowCountState) (c : DeliveryId) (k : Key) : Z :=
  msum (delivered k) (filter (λ d, d.1 ≤ c) (pending st)).
Definition total (st : OutputRowCountState) (k : Key) : Z :=
  default 0 (committed st !! k) + msum (delivered k) (pending st).

(** Every count is a [u64]; every pending dataset is registered. *)
Definition counts_ok (m : gmap Key Z) : Prop := ∀ k n, m !! k = Some n → 0 ≤ n ≤ u64_max.
Record Wf (st : OutputRowCountState) : Prop := {
  wf_committed : counts_ok (committed st);
  wf_pending : ∀ id d, pending st !! id = Some d → counts_ok d ∧ dom d ⊆ dom (committed st)
}.

(** ** Lemmas on the counting loop *)
Lemma for_each_flat {E A B S} (f : S → B → result E S) (g : A → list B) l s :
  for_each (λ s a, for_each f (g a) s) l s = for_each f (l ≫= g) s.
Proof.
  revert s. induction l as [|a l IH]; intros s; [done|]. cbn [for_each].
  change (mbind g (a :: l)) with (g a ++ (l ≫= g)). rewrite for_each_app.
  destruct (for_each f (g a) s); cbn; [apply IH|done].
Qed.

Lemma rows_of_nonneg k l : Forall (λ kr, 0 ≤ kr.2) l → 0 ≤ rows_of k l.
Proof.
  intros Hl. apply lsum_nonneg. intros x Hx. rewrite Forall_forall in Hl.
  specialize (Hl _ Hx). case_bool_decide; lia.
Qed.

Lemma rows_of_map_to_list (k : Key) (d : gmap Key Z) : rows_of k (map_to_list d) = delivered k d.
Proof.
  unfold delivered. induction d as [|i x m Hi IH] using map_ind.
  - by rewrite map_to_list_empty, lookup_empty.
  - unfold rows_of in *. rewrite (lsum_perm _ _ _ (map_to_list_insert m i x Hi)), lsum_cons, IH. cbn.
    case_bool_decide; subst; [by rewrite lookup_insert_eq, Hi; cbn; lia|].
    by rewrite lookup_insert_ne.
Qed.

Lemma rows_of_iter (k : Key) (d : gmap Key Z) : rows_of k (bt_iter key_le d) = delivered k d.
Proof.
  unfold rows_of. rewrite (lsum_perm _ _ _ (bt_iter_perm key_le d)). apply rows_of_map_to_list.
Qed.

(** The loop succeeds exactly when every dataset is registered and every final total
    fits a [u64]; then it adds the rows. *)
Definition loop_spec (l : list (Key * Z)) (next : gmap Key Z) (r : result RowError (gmap Key Z)) : Prop :=
  match r with
  | Ok next' => counts_ok next' ∧ (∀ k, next' !! k = (λ n, n + rows_of k l) <$> next !! k) ∧
      (∀ kr, kr ∈ l → is_Some (next !! kr.1))
  | Err e =>
      (∃ kr, kr ∈ l ∧ next !! kr.1 = None ∧ e = LostDataset kr.1) ∨
      (∃ k n, next !! k = Some n ∧ u64_max < n + rows_of k l ∧ e = RowOverflow k)
  end.

Lemma rows_of_cons k k' r l :
  rows_of k ((k', r) :: l) = (if bool_decide (k' = k) then r else 0) + rows_of k l.
Proof. done. Qed.

(** One turn: the specification of the tail gives that of the whole list. *)
Lemma loop_spec_cons k r l next n res :
  next !! k = Some n → n + r ≤ u64_max →
  loop_spec l (<[k := n + r]> next) res → loop_spec ((k, r) :: l) next res.
Proof.
  intros Ek Hle. destruct res as [next'|e]; cbn [loop_spec].
  - intros (H1 & H2 & H3). split_and!; [done|..].
    + intros k'. rewrite H2, lookup_insert, rows_of_cons. case_decide as Hk; [destruct Hk|].
      * rewrite Ek, bool_decide_eq_true_2 by done. cbn. f_equal. lia.
      * rewrite bool_decide_eq_false_2 by done. destruct (next !! k'); cbn; [f_equal; lia|done].
    + intros kr [->|Hkr]%elem_of_cons; [cbn; by rewrite Ek|].
      specialize (H3 _ Hkr). rewrite lookup_insert in H3. case_decide as Hk; [|done].
      rewrite <-Hk. by rewrite Ek.
  - intros [(kr & Hkr & Hn & ->)|(k' & n' & Hn & Hov & ->)]; [left|right].
    + exists kr. apply lookup_insert_None in Hn as [Hn ?]. by split_and!; [right|..].
    + exists k'. rewrite rows_of_cons. apply lookup_insert_Some in Hn as [[<- <-]|[Hne Hn]].
      * exists n. rewrite bool_decide_eq_true_2 by done. split_and!; [done|lia|done].
      * exists n'. rewrite bool_decide_eq_false_2 by done. by split_and!.
Qed.

Lemma add_rows_loop l next :
  counts_ok next → Forall (λ kr, 0 ≤ kr.2) l → loop_spec l next (for_each add_rows l next).
Proof.
  revert next. induction l as [|[k r] l IH]; intros next Hok Hnn; cbn [for_each].
  { unfold loop_spec. split_and!; [done| |by intros ? ?%not_elem_of_nil].
    intros k. cbn. destruct (next !! k); cbn; [f_equal; lia|done]. }
  apply Forall_cons in Hnn as [Hr Hnn]. cbn in Hr.
  pose proof (rows_of_nonneg k l Hnn).
  destruct (add_rows next (k, r)) as [next'|e] eqn:Ea; unfold add_rows in Ea; cbn in Ea;
    (destruct (next !! k) as [n|] eqn:Ek; simplify_eq; cbn [mbind result_bind loop_spec]).
  3: { left. exists (k, r). by split_and!; [left|..]. }
  all: pose proof (Hok _ _ Ek);
    destruct (checked_add u64_max n r) as [m|] eqn:Em; cbn in Ea; simplify_eq.
  - apply checked_add_Some in Em as [-> Hle]. eapply loop_spec_cons; [done..|].
    apply IH; [|done]. intros k' n' [[<- <-]|[_ ?]]%lookup_insert_Some; [lia|by eauto].
  - apply checked_add_None in Em. right. exists k, n. rewrite rows_of_cons.
    rewrite bool_decide_eq_true_2 by done. split_and!; [done|lia|done].
Qed.

Lemma rows_of_pending (m : gmap Z (gmap Key Z)) (c : Z) (k : Key) :
  rows_of k (filter (λ d, d.1 ≤ c) (bt_iter Z.le m) ≫= λ d, bt_iter key_le d.2)
  = msum (delivered k) (filter (λ d, d.1 ≤ c) m).
Proof.
  unfold rows_of. rewrite lsum_bind.
  rewrite (lsum_ext _ (λ d, delivered k d.2)) by (intros d _; apply rows_of_iter).
  apply (lsum_bt_range Z.le (delivered k)).
Qed.

Lemma pending_split (m : gmap Z (gmap Key Z)) (c : Z) (k : Key) :
  msum (delivered k) m =
  msum (delivered k) (filter (λ d, d.1 ≤ c) m) + msum (delivered k) (filter (λ d, c < d.1) m).
Proof.
  induction m as [|i x m Hi IH] using map_ind; [by rewrite !map_filter_empty, !msum_empty|].
  rewrite msum_insert by done. destruct (decide (i ≤ c)).
  - rewrite map_filter_insert_True, (map_filter_insert_not _ m) by (cbn; (lia || done)).
    rewrite msum_insert by (apply map_lookup_filter_None; auto). lia.
  - rewrite (map_filter_insert_not _ m), map_filter_insert_True by (cbn; (lia || done)).
    rewrite msum_insert by (apply map_lookup_filter_None; auto). lia.
Qed.

(** ** Committing *)
Lemma pending_rows_nonneg st c : Wf st →
  Forall (λ kr : Key * Z, 0 ≤ kr.2)
    (filter (λ d, d.1 ≤ c) (bt_iter Z.le (pending st)) ≫= λ d, bt_iter key_le d.2).
Proof.
  intros Hwf. apply Forall_forall. intros [k r] ([id d] & Hk & Hd)%list_elem_of_bind.
  apply list_elem_of_filter in Hd as [_ Hd]. apply elem_of_bt_iter in Hd; [|apply _..].
  apply elem_of_bt_iter in Hk; [|apply _..]. cbn in *.
  destruct (wf_pending _ Hwf _ _ Hd) as [Hok _]. destruct (Hok _ _ Hk). done.
Qed.

Lemma due_nonneg st c k : Wf st → 0 ≤ due st c k.
Proof.
  intros Hwf. apply msum_nonneg. intros id d [Hd _]%map_lookup_filter_Some.
  destruct (wf_pending _ Hwf _ _ Hd) as [Hok _]. unfold delivered.
  destruct (d !! k) eqn:E; cbn; [|done]. destruct (Hok _ _ E). done.
Qed.

(** The outcome of [commit_through], error or not. *)
Definition commit_outcome (st : OutputRowCountState) (c : DeliveryId)
    (o : OutputRowCountState * result RowError unit) : Prop :=
  match o with
  | (st', Ok _) =>
      is_Some (pending st !! c) ∧
      (∀ k, committed st' !! k = (λ n, n + due st c k) <$> committed st !! k) ∧
      pending st' = filter (λ d, c < d.1) (pending st) ∧ Wf st'
  | (st', Err e) =>
      st' = st ∧
      ((pending st !! c = None ∧ e = UnknownDelivery c) ∨
       ∃ k n, committed st !! k = Some n ∧ u64_max < n + due st c k ∧ e = RowOverflow k)
  end.

Lemma commit_through_outcome st c : Wf st → commit_outcome st c (commit_through st c).
Proof.
  intros Hwf. unfold commit_through, validated_committed_counts.
  case_bool_decide as Hc; cbn [ensure mbind result_bind].
  2:{ cbn. split; [done|]. left. split; [|done]. by apply eq_None_not_Some. }
  rewrite for_each_flat.
  pose proof (add_rows_loop _ _ (wf_committed _ Hwf) (pending_rows_nonneg st c Hwf)) as Hl.
  destruct (for_each add_rows _ _) as [next|e]; cbn [loop_spec] in Hl; cbn [commit_outcome].
  - destruct Hl as (Hok & Hnext & _).
    assert (∀ k, next !! k = (λ n, n + due st c k) <$> committed st !! k) as Hn.
    { intros k. by rewrite Hnext, rows_of_pending. }
    split_and!; try done. split; cbn; [done|].
    intros id d [Hd _]%map_lookup_filter_Some. destruct (wf_pending _ Hwf _ _ Hd) as [? Hs].
    split; [done|]. intros k Hk. apply Hs in Hk. rewrite elem_of_dom in *. rewrite Hn.
    by apply fmap_is_Some.
  - split; [done|]. right. destruct Hl as [(kr & Hkr & Hnone & ->)|(k & n & Hk & Hov & ->)].
    + exfalso. apply list_elem_of_bind in Hkr as ([id d] & Hk & Hd).
      apply list_elem_of_filter in Hd as [_ Hd]. apply elem_of_bt_iter in Hd; [|apply _..].
      destruct kr as [k r]. apply elem_of_bt_iter in Hk; [|apply _..]. cbn in *.
      destruct (wf_pending _ Hwf _ _ Hd) as [_ Hs].
      assert (k ∈ dom (committed st)) as [? ?]%elem_of_dom; [|congruence].
      apply Hs. rewrite elem_of_dom. eauto.
    + rewrite rows_of_pending in Hov. by exists k, n.
Qed.

Lemma validate_agrees st c : validate_commit_through st c = (commit_through st c).2.
Proof.
  unfold validate_commit_through, commit_through. by destruct (validated_committed_counts st c).
Qed.

Lemma total_commit st c st' k :
  Wf st → commit_through st c = (st', Ok tt) →
  is_Some (committed st !! k) → total st' k = total st k.
Proof.
  intros Hwf Hc [n Hn]. pose proof (commit_through_outcome st c Hwf) as Ho.
  rewrite Hc in Ho. destruct Ho as (_ & Hk & Hp & _). unfold total.
  rewrite Hk, Hn, Hp, (pending_split (pending st) c k). cbn. unfold due. lia.
Qed.

(** ** Observing *)
Definition observed_rows (k : Key) (outputs : list OutputBatch) : Z :=
  lsum (λ o, if bool_decide ((out_is_dlq o, out_table o) = k) then out_rows o else 0) outputs.

Lemma observe_loop st outputs d d' :
  Forall (λ o, 0 ≤ out_rows o) outputs → counts_ok d → dom d ⊆ dom (committed st) →
  for_each (observe_output st) outputs d = Ok d' →
  counts_ok d' ∧ dom d' ⊆ dom (committed st) ∧
  ∀ k, delivered k d' = delivered k d + observed_rows k outputs.
Proof.
  revert d. induction outputs as [|o l IH]; intros d Hnn Hok Hd Hrun; cbn [for_each] in Hrun.
  { res_inv. split_and!; [done..|]. intros k. cbn. lia. }
  apply Forall_cons in Hnn as [Ho Hnn]. res_inv. unfold observe_output in E. res_inv.
  bool_inv. match goal with Hx : checked_add _ _ _ = Some _ |- _ =>
    apply checked_add_Some in Hx as [-> Hle] end.
  set (key := (out_is_dlq o, out_table o)) in *.
  assert (0 ≤ default 0 (d !! key)).
  { destruct (d !! key) eqn:Ek; cbn; [|done]. by destruct (Hok _ _ Ek). }
  edestruct IH as (H1 & H2 & H3); [exact Hnn| | |exact Hrun|].
  - intros k n [[<- <-]|[_ ?]]%lookup_insert_Some; [lia|by eauto].
  - rewrite dom_insert_L. apply union_subseteq. split; [|done].
    apply singleton_subseteq_l, elem_of_dom. done.
  - split_and!; [done..|]. intros k. rewrite H3. unfold delivered, observed_rows.
    rewrite lsum_cons, lookup_insert. fold key. case_decide as Hk.
    + subst k. rewrite bool_decide_eq_true_2 by done. cbn. lia.
    + rewrite bool_decide_eq_false_2 by done. lia.
Qed.

Lemma observe_outcome st id outputs st' :
  Wf st → Forall (λ o, 0 ≤ out_rows o) outputs →
  observe_delivery st id outputs = (st', Ok tt) →
  Wf st' ∧ committed st' = committed st ∧ pending st !! id = None ∧
  ∀ k, total st' k = total st k + observed_rows k outputs.
Proof.
  intros Hwf Hnn Hob. unfold observe_delivery in Hob.
  destruct (ensure _ _ ≫= _) as [d|e] eqn:E; [|done]. simplify_eq. res_inv. bool_inv.
  edestruct observe_loop as (H1 & H2 & H3);
    [exact Hnn|by intros k n ?%lookup_empty_Some| |exact E|]; [by rewrite dom_empty_L|].
  split_and!; [|done..|].
  - split; cbn; [apply Hwf|]. intros i x [[<- <-]|[_ ?]]%lookup_insert_Some; [done|].
    by apply (wf_pending _ Hwf i).
  - intros k. unfold total; cbn. rewrite msum_insert by done. rewrite H3.
    unfold delivered at 1. rewrite lookup_empty. cbn. lia.
Qed.

Lemma observe_error st id outputs st' e :
  observe_delivery st id outputs = (st', Err e) → st' = st.
Proof. unfold observe_delivery. destruct (_ ≫= _); intros; by simplify_eq. Qed.

(** ** Runs of the counter *)
Inductive RowOp :=
| Admit (datasets : list (string * bool))
| Observe (id : DeliveryId) (outputs : list OutputBatch)
| Commit (c : DeliveryId).

Definition run_op (st : OutputRowCountState) (op : RowOp)
    : OutputRowCountState * result RowError unit :=
  match op with
  | Admit ds => (admit_datasets st ds, Ok tt)
  | Observe id outs => observe_delivery st id outs
  | Commit c => commit_through st c
  end.

(** The state after the operations, and the rows of [k] that the accepted
    observations among them reported. *)
Fixpoint run (st : OutputRowCountState) (ops : list RowOp) : OutputRowCountState :=
  match ops with [] => st | op :: ops => run (run_op st op).1 ops end.
Fixpoint accepted (k : Key) (st : OutputRowCountState) (ops : list RowOp) : Z :=
  match ops with
  | [] => 0
  | op :: ops =>
      (match op with
       | Observe id outs =>
           if is_ok (observe_delivery st id outs).2 then observed_rows k outs else 0
       | _ => 0
       end) + accepted k (run_op st op).1 ops
  end.

(** Row counts of batches are [usize] values. *)
Definition op_ok (op : RowOp) : Prop :=
  match op with Observe _ outs => Forall (λ o, 0 ≤ out_rows o) outs | _ => True end.

Lemma admit_lookup (ds : list (string * bool)) (acc : gmap Key Z) (k : Key) :
  let acc' := foldl (λ (acc : gmap Key Z) '(t, dlq),
        match acc !! (dlq, t) with Some _ => acc | None => <[(dlq, t) := 0]> acc end) acc ds in
  acc' !! k = acc !! k ∨ acc !! k = None ∧ acc' !! k = Some 0.
Proof.
  revert acc. induction ds as [|[t dlq] ds IH]; intros acc; cbn; [by left|].
  destruct (acc !! (dlq, t)) eqn:E; [apply IH|].
  destruct (IH (<[(dlq, t):=0]> acc)) as [Hk|[Hk1 Hk2]].
  - rewrite lookup_insert in Hk. case_decide as Hd; [|by left]. right. by rewrite <-Hd at 1.
  - apply lookup_insert_None in Hk1 as [? _]. by right.
Qed.

Lemma admit_wf st (ds : list (string * bool)) : Wf st → Wf (admit_datasets st ds).
Proof.
  intros Hwf. split; cbn.
  - intros k n Hn. destruct (admit_lookup ds (committed st) k) as [Hk|[_ Hk]]; rewrite Hk in Hn.
    + by eapply (wf_committed _ Hwf).
    + simplify_eq. unfold u64_max. lia.
  - intros id d Hd. destruct (wf_pending _ Hwf _ _ Hd) as [? Hs]. split; [done|].
    intros k [n Hn]%Hs%elem_of_dom. apply elem_of_dom.
    destruct (admit_lookup ds (committed st) k) as [->|[? _]]; [eauto|congruence].
Qed.

Lemma new_wf ds st : new ds = Ok st → Wf st ∧ ∀ k, total st k = 0.
Proof.
  intros Hn. unfold new in Hn. res_inv.
  assert (∀ k n, a !! k = Some n → n = 0) as Ha.
  { eapply (for_each_ind (λ _ (m : gmap Key Z), ∀ k n, m !! k = Some n → n = 0)); [..|exact E].
    - intros k n Hk. by rewrite lookup_empty in Hk.
    - intros l1 [t dlq] l2 s1 s2 _ IH Hs. cbn in Hs.
      destruct (s1 !! (dlq, t)); simplify_eq.
      intros k n [[_ <-]|[_ ?]]%lookup_insert_Some; [done|by eauto]. }
  split; [split; cbn|].
  - intros k n Hk. rewrite (Ha _ _ Hk). unfold u64_max. lia.
  - intros id d Hd. by rewrite lookup_empty in Hd.
  - intros k. unfold total; cbn. rewrite msum_empty. destruct (a !! k) eqn:Ek; cbn; [|done].
    rewrite (Ha _ _ Ek). lia.
Qed.

Lemma pending_unregistered st k :
  Wf st → committed st !! k = None → msum (delivered k) (pending st) = 0.
Proof.
  intros Hwf Hk. apply msum_zero. intros id d Hd. destruct (wf_pending _ Hwf _ _ Hd) as [_ Hs].
  unfold delivered. destruct (d !! k) eqn:E; [|done]. exfalso.
  assert (k ∈ dom (committed st)) as [? ?]%elem_of_dom; [|congruence].
  apply Hs, elem_of_dom. eauto.
Qed.

Lemma run_op_spec st op k : Wf st → op_ok op →
  Wf (run_op st op).1 ∧
  total (run_op st op).1 k = total st k +
    match op with
    | Observe id outs =>
        if is_ok (observe_delivery st id outs).2 then observed_rows k outs else 0
    | _ => 0 end.
Proof.
  intros Hwf Hop. destruct op as [ds|id outs|c]; cbn in *.
  - split; [by apply admit_wf|]. unfold total; cbn.
    destruct (admit_lookup ds (committed st) k) as [Hk|[Hk1 Hk2]]; [by rewrite Hk; lia|].
    rewrite Hk2, Hk1. cbn. lia.
  - destruct (observe_delivery st id outs) as [st' [[]|e]] eqn:E; cbn.
    + by destruct (observe_outcome _ _ _ _ Hwf Hop E) as (? & _ & _ & ?).
    + apply observe_error in E as ->. split; [done|lia].
  - pose proof (commit_through_outcome st c Hwf) as Ho.
    destruct (commit_through st c) as [st' [[]|e]] eqn:E; cbn in Ho |- *.
    + destruct Ho as (_ & Hk & Hp & ?). split; [done|].
      destruct (committed st !! k) as [n|] eqn:Ek.
      * rewrite (total_commit st c) by eauto. lia.
      * unfold total. rewrite Hk, Ek, (pending_unregistered st), (pending_unregistered st');
          rewrite ?Hk, ?Ek; cbn; (done || lia).
    + destruct Ho as [-> _]. split; [done|lia].
Qed.

Lemma run_spec ops st k : Wf st → Forall op_ok ops →
  Wf (run st ops) ∧ total (run st ops) k = total st k + accepted k st ops.
Proof.
  revert st. induction ops as [|op ops IH]; intros st Hwf Hops; cbn; [split; [done|lia]|].
  apply Forall_cons in Hops as [Hop Hops].
  destruct (run_op_spec st op k Hwf Hop) as [Hwf' Ht].
  destruct (IH _ Hwf' Hops) as [? ->]. split; [done|]. rewrite Ht. lia.
Qed.

(** no row is lost or counted twice.  Whatever sequence of registrations,
    observations and commits (failed ones included) a counter goes through, the
    committed total of a dataset plus the rows of its still pending deliveries is
    exactly the number of rows that the accepted observations reported, and every
    total still fits a [u64]. *)
Theorem row_counts_exact ds st ops k :
  new ds = Ok st → Forall op_ok ops →
  let st' := run st ops in
  default 0 (committed st' !! k) + msum (delivered k) (pending st') = accepted k st ops ∧
  0 ≤ default 0 (committed st' !! k) ≤ u64_max.
Proof.
  intros [Hwf H0]%new_wf Hops. cbn. destruct (run_spec ops st k Hwf Hops) as [Hwf' Ht].
  split; [rewrite H0 in Ht; exact Ht|].
  destruct (committed (run st ops) !! k) eqn:E; cbn; [by eapply wf_committed|unfold u64_max; lia].
Qed.

(** [commit_through] either refuses an unknown delivery, or reports the dataset
    whose total would leave [u64], and changes nothing; or it adds to every dataset
    exactly the rows of the pending deliveries up to [c] and drops those.  The dry run
    [validate_commit_through], which the pipeline calls before the source commit,
    predicts its result. *)
Theorem commit_through_correct st c : Wf st →
  commit_outcome st c (commit_through st c) ∧
  validate_commit_through st c = (commit_through st c).2.
Proof.
  split; [by apply commit_through_outcome|apply validate_agrees].
Qed.

(** ** Committing a prefix first *)
Lemma due_le st a b k : Wf st → a ≤ b → due st a k ≤ due st b k.
Proof.
  intros Hwf Hab. unfold due.
  rewrite (pending_split (filter (λ d, d.1 ≤ b) (pending st)) a k).
  assert (filter (λ d, d.1 ≤ a) (filter (λ d, d.1 ≤ b) (pending st))
    = filter (λ d, d.1 ≤ a) (pending st)) as ->.
  { rewrite map_filter_filter. apply map_filter_ext. cbn. lia. }
  assert (0 ≤ msum (delivered k) (filter (λ d, a < d.1) (filter (λ d, d.1 ≤ b) (pending st)))); [|lia].
  apply msum_nonneg. intros id d [[Hd _]%map_lookup_filter_Some _]%map_lookup_filter_Some.
  destruct (wf_pending _ Hwf _ _ Hd) as [Hok _]. unfold delivered.
  destruct (d !! k) eqn:E; cbn; [|done]. by destruct (Hok _ _ E).
Qed.

Lemma due_split st st1 a b k : a ≤ b → pending st1 = filter (λ d, a < d.1) (pending st) →
  due st b k = due st a k + due st1 b k.
Proof.
  intros Hab Hp. unfold due. rewrite Hp.
  rewrite (pending_split (filter (λ d, d.1 ≤ b) (pending st)) a k), !map_filter_filter.
  f_equal; f_equal; apply map_filter_ext; cbn; intros; lia.
Qed.

(** Acknowledging in several steps or at once is the same: when committing through
    [b] succeeds, committing through an earlier pending delivery [a] first succeeds
    too and the later commit reaches the same totals and the same pending set. *)
Theorem commit_through_prefix st a b st2 :
  Wf st → a < b → is_Some (pending st !! a) →
  commit_through st b = (st2, Ok tt) →
  ∃ st1, commit_through st a = (st1, Ok tt) ∧ commit_through st1 b = (st2, Ok tt).
Proof.
  intros Hwf Hab Ha Hb.
  pose proof (commit_through_outcome st b Hwf) as Ob. rewrite Hb in Ob.
  destruct Ob as (Hpb & Hkb & Hpend & Hwf2).
  assert (∀ k n, committed st !! k = Some n → n + due st b k ≤ u64_max) as Hfit.
  { intros k n Hk. destruct (wf_committed _ Hwf2 k (n + due st b k)); [|lia].
    by rewrite Hkb, Hk. }
  pose proof (commit_through_outcome st a Hwf) as Oa.
  destruct (commit_through st a) as [st1 [[]|e]]; cbn in Oa.
  2:{ destruct Oa as [_ [[? _]|(k & n & Hk & Hov & _)]]; [by destruct Ha; congruence|].
      pose proof (Hfit _ _ Hk). pose proof (due_le st a b k Hwf). lia. }
  destruct Oa as (_ & Hk1 & Hp1 & Hwf1). exists st1. split; [done|].
  assert (∀ k, due st b k = due st a k + due st1 b k) as Hsplit.
  { intros k. apply due_split; [lia|done]. }
  pose proof (commit_through_outcome st1 b Hwf1) as O1.
  destruct (commit_through st1 b) as [st3 [[]|e]]; cbn in O1.
  - destruct O1 as (_ & Hk3 & Hp3 & _). f_equal. destruct st2 as [c2 p2], st3 as [c3 p3]; cbn in *.
    f_equal.
    + apply map_eq. intros k. rewrite Hk3, Hkb, Hk1. destruct (committed st !! k); cbn; [|done].
      f_equal. rewrite Hsplit. lia.
    + rewrite Hp3, Hp1, Hpend, map_filter_filter. apply map_filter_ext. cbn. intros; lia.
  - exfalso. destruct O1 as [_ [[Hn _]|(k & n & Hk & Hov & _)]].
    + destruct Hpb as [d Hd]. rewrite Hp1 in Hn. apply map_lookup_filter_None in Hn as [?|Hn]; [congruence|].
      specialize (Hn _ Hd). cbn in Hn. lia.
    + rewrite Hk1 in Hk. destruct (committed st !! k) as [m|] eqn:Em; [|done]. cbn in Hk. simplify_eq.
      pose proof (Hfit _ _ Em). rewrite Hsplit in *. lia.
Qed.

(** ** Merging attempts *)
Definition merge_error (e : RowError) : RowError :=
  match e with LostDataset k => UnknownMergeDataset k | e => e end.

Lemma merge_loop (l : list (Key * Z)) (next : gmap Key Z) :
  for_each merge_count ((λ kr : Key * Z, {| table := kr.1.2; is_dlq := kr.1.1; rows := kr.2 |}) <$> l)
    next
  = match for_each add_rows l next with Ok m => Ok m | Err e => Err (merge_error e) end.
Proof.
  revert next. induction l as [|[[dlq t] r] l IH]; intros next; [done|]. cbn.
  unfold merge_count, add_rows; cbn. destruct (next !! (dlq, t)); cbn; [|done].
  destruct (checked_add _ _ _); cbn; [apply IH|done].
Qed.

(** Merging a failed attempt into the run's totals adds exactly its committed
    rows and nothing of its pending deliveries; it fails, changing nothing, exactly
    when a dataset is unknown or a total leaves [u64]. *)
Theorem merge_exact st other : Wf st → Wf other →
  match merge st other with
  | (st', Ok _) =>
      pending st' = pending st ∧ Wf st' ∧
      dom (committed other) ⊆ dom (committed st) ∧
      ∀ k, committed st' !! k =
        ((λ n, n + default 0 (committed other !! k)) <$> committed st !! k)
  | (st', Err e) =>
      st' = st ∧
      ∃ k, (k ∈ dom (committed other) ∧ (k ∉ dom (committed st)) ∧ e = UnknownMergeDataset k) ∨
        (∃ n, committed st !! k = Some n ∧
          u64_max < n + default 0 (committed other !! k) ∧ e = RowOverflow k)
  end.
Proof.
  intros Hwf Hwo. unfold merge, snapshot. rewrite merge_loop.
  assert (Forall (λ kr : Key * Z, 0 ≤ kr.2) (bt_iter key_le (committed other))) as Hnn.
  { apply Forall_forall. intros [k r] Hk%elem_of_bt_iter; [|apply _..].
    by destruct (wf_committed _ Hwo _ _ Hk). }
  pose proof (add_rows_loop _ _ (wf_committed _ Hwf) Hnn) as Hl.
  destruct (for_each add_rows _ _) as [next|e]; cbn [loop_spec] in Hl.
  - destruct Hl as (Hok & Hk & Hreg). split_and!; [done| | |].
    + split; cbn; [done|]. intros id d Hd. destruct (wf_pending _ Hwf _ _ Hd) as [? Hs].
      split; [done|]. intros k Hin%Hs. rewrite elem_of_dom in *. rewrite Hk. by apply fmap_is_Some.
    + intros k [n Hn]%elem_of_dom. apply elem_of_dom, (Hreg (k, n)).
      by apply elem_of_bt_iter; [apply _..|].
    + intros k. cbn. by rewrite Hk, rows_of_iter.
  - split; [done|]. destruct Hl as [([k r] & Hin & Hn & ->)|(k & n & Hn & Hov & ->)]; exists k.
    + left. apply elem_of_bt_iter in Hin; [|apply _..]. split_and!; [apply elem_of_dom; eauto| |done].
      by apply not_elem_of_dom.
    + right. rewrite rows_of_iter in Hov. eauto.
Qed.

(** ** Witnesses *)
Definition example_outputs : list OutputBatch :=
  [{| out_table := "users"; out_is_dlq := false; out_rows := 3 |};
   {| out_table := "users"; out_is_dlq := true; out_rows := 1 |};
   {| out_table := "users"; out_is_dlq := false; out_rows := 4 |}].
Definition example_ops : list RowOp :=
  [Observe 1 example_outputs; Observe 1 example_outputs; Observe 2 example_outputs; Commit 1].
Definition example_start : OutputRowCountState :=
  {| committed := <[(true, "users") := 0]> (<[(false, "users") := 0]> ∅); pending := ∅ |}.

Lemma new_example :
  new [("users", false); ("users", true)] = Ok example_start.
Proof. vm_compute. reflexivity. Qed.

Lemma example_ops_ok : Forall op_ok example_ops.
Proof. repeat constructor; cbn; lia. Qed.

Lemma example_wf ops : Forall op_ok ops → Wf (run example_start ops).
Proof.
  intros Hops. destruct (new_wf _ _ new_example) as [Hwf _].
  by destruct (run_spec ops example_start (false, "users") Hwf Hops).
Qed.

Lemma row_counts_exact_witness :
  let st := run example_start example_ops in
  default 0 (committed st !! (false, "users")) + msum (delivered (false, "users")) (pending st) = 14 ∧
  default 0 (committed st !! (false, "users")) = 7.
Proof.
  split; [|vm_compute; reflexivity].
  destruct (row_counts_exact _ _ example_ops (false, "users") new_example example_ops_ok) as [H _].
  rewrite H. vm_compute. reflexivity.
Defined.

Lemma commit_through_correct_witness :
  let st := run example_start [Observe 1 example_outputs] in
  commit_outcome st 1 (commit_through st 1) ∧ validate_commit_through st 1 = Ok tt.
Proof.
  destruct (commit_through_correct (run example_start [Observe 1 example_outputs]) 1) as [H1 H2].
  - apply example_wf. repeat constructor; cbn; lia.
  - split; [exact H1|]. vm_compute. reflexivity.
Defined.

Lemma commit_through_prefix_witness :
  let st := run example_start (take 3 example_ops) in
  ∃ st1, commit_through st 1 = (st1, Ok tt) ∧ commit_through st1 2 = ((commit_through st 2).1, Ok tt).
Proof.
  apply commit_through_prefix.
  - apply example_wf. repeat constructor; cbn; lia.
  - lia.
  - vm_compute. eauto.
  - vm_compute. reflexivity.
Defined.

Lemma merge_exact_witness :
  let st := run example_start [Observe 1 example_outputs; Commit 1] in
  (committed (merge st st).1) !! (false, "users") = Some 14.
Proof.
  pose proof (merge_exact (run example_start [Observe 1 example_outputs; Commit 1])
    (run example_start [Observe 1 example_outputs; Commit 1])) as H.
  destruct (merge _ _) as [st' [u|e]] eqn:E.
  - destruct H as (_ & _ & _ & Hk);
      [apply example_wf; repeat constructor; cbn; lia..|].
    intros st. subst st. rewrite E. cbn [fst]. rewrite Hk. vm_compute. reflexivity.
  - exfalso. revert E. vm_compute. discriminate.
Defined.
