(* ===== verification/Schema.v ===== *)
(** * Logical schemas and their Arrow encoding

    [transferia-core/src/data/schema.rs], [change.rs] and [system_columns.rs]: the
    columns of a dataset, the operations of a changelog row, the system columns a
    parser adds, and the encoding of a column's properties in the metadata of an
    Arrow field, which [DatasetSchema::from_arrow] reads back.

    Arrow is a third-party crate: its [DataType] is the class [ArrowTypes], of which
    the code uses equality and four constants.  A [HashMap] of strings is a [gmap]. *)

From Stdlib Require Import Ascii.
From stdpp Require Import base tactics numbers option list strings gmap fin_maps fin_sets pretty.
From S2P Require Import Prelude.
Local Open Scope Z_scope.

(** ** [change.rs] *)
Inductive ChangeOperation := Create | SnapshotRead | Update | Delete.
#[export] Instance ChangeOperation_eq_dec : EqDecision ChangeOperation.
Proof. solve_decision. Defined.

Module ChangeOperation.
Definition code (o : ChangeOperation) : string :=
  match o with Create => "c" | SnapshotRead => "r" | Update => "u" | Delete => "d" end.

Definition from_code (s : string) : option ChangeOperation :=
  if bool_decide (s = "c") then Some Create
  else if bool_decide (s = "r") then Some SnapshotRead
  else if bool_decide (s = "u") then Some Update
  else if bool_decide (s = "d") then Some Delete
  else None.

Definition writes_current_value (o : ChangeOperation) : bool :=
  match o with Create | SnapshotRead | Update => true | Delete => false end.
End ChangeOperation.

(** ** Arrow data types *)
Class ArrowTypes := {
  DataType : Type;
  DataType_eq_dec :: EqDecision DataType;
  Utf8 : DataType;
  Int64 : DataType;
  UInt64 : DataType;
  Binary : DataType;
  arrow_types_distinct : NoDup [Utf8; Int64; UInt64; Binary]
}.

(** ** [system_columns.rs] *)
Inductive SystemColumnKind :=
| Topic | Partition | Offset | MessageIndex | WriteTimestampMs
| OperationColumn  (** [SystemColumnKind::ChangeOperation] *)
| ChangedColumns.
#[export] Instance SystemColumnKind_eq_dec : EqDecision SystemColumnKind.
Proof. solve_decision. Defined.

Definition default_name (k : SystemColumnKind) : string :=
  match k with
  | Topic => "_system_topic"
  | Partition => "_system_partition"
  | Offset => "_system_offset"
  | MessageIndex => "_system_message_index"
  | WriteTimestampMs => "_system_write_timestamp_ms"
  | OperationColumn => "_system_change_operation"
  | ChangedColumns => "_system_changed_columns"
  end.

Definition system_data_type `{ArrowTypes} (k : SystemColumnKind) : DataType :=
  match k with
  | Topic | OperationColumn => Utf8
  | Partition | Offset | WriteTimestampMs => Int64
  | MessageIndex => UInt64
  | ChangedColumns => Binary
  end.

Record SystemColumn := { sys_kind : SystemColumnKind; sys_index : nat; sys_name : string }.
#[export] Instance SystemColumn_eq_dec : EqDecision SystemColumn.
Proof. solve_decision. Defined.

Definition SystemColumns := list SystemColumn.

(** [Iterator::find] *)
Fixpoint find {A} (p : A → bool) (l : list A) : option A :=
  match l with [] => None | x :: l => if p x then Some x else find p l end.

Module SystemColumns.
Definition get (l : SystemColumns) (kind : SystemColumnKind) : option SystemColumn :=
  find (λ c, bool_decide (sys_kind c = kind)) l.
Definition contains (l : SystemColumns) (kind : SystemColumnKind) : bool :=
  bool_decide (is_Some (get l kind)).
Definition is_empty (l : SystemColumns) : bool :=
  match l with [] => true | _ => false end.
End SystemColumns.

(** ** [schema.rs] *)
Definition META_PRIMARY_KEY := "transferia.primary_key".
Definition META_LOW_CARDINALITY := "transferia.low_cardinality".
Definition META_MAX_LENGTH := "transferia.max_length".
Definition META_ALWAYS_PRESENT_ON_UPDATE := "transferia.always_present_on_update".
Definition META_UPDATE_VALUE_PRESENCE := "transferia.update_value_presence".
Definition META_DELETE_VALUE_PRESENCE := "transferia.delete_value_presence".
Definition META_ARROW_EXTENSION_NAME := "ARROW:extension:name".
Definition META_ARROW_EXTENSION_METADATA := "ARROW:extension:metadata".
Definition META_SYSTEM_ROLE := "transferia.system_role".
Definition SYSTEM_ROLE_SOURCE_VERSION := "source.version".
Definition META_OLD_VALUE_OF := "transferia.old_value_of".
Definition META_OLD_KEY_OF := "transferia.old_key_of".

Inductive ValuePresence := MayBeAbsent | Guaranteed.
#[export] Instance ValuePresence_eq_dec : EqDecision ValuePresence.
Proof. solve_decision. Defined.

Definition metadata_value (p : ValuePresence) : option string :=
  match p with MayBeAbsent => None | Guaranteed => Some "guaranteed" end.

(** [usize::to_string] and [str::parse::<usize>]: decimal digits, an optional leading
    plus sign, and an error on overflow. *)
Definition usize_to_string (n : Z) : string := pretty (Z.to_N n).

Definition digit (c : Ascii.ascii) : option Z :=
  let d := Z.of_N (Ascii.N_of_ascii c) - 48 in
  if bool_decide (0 ≤ d ≤ 9) then Some d else None.

Fixpoint parse_digits (acc : Z) (s : string) : option Z :=
  match s with
  | EmptyString => Some acc
  | String c s =>
      match digit c with
      | None => None
      | Some d =>
          if bool_decide (acc * 10 + d ≤ usize_max) then parse_digits (acc * 10 + d) s else None
      end
  end.

Definition parse_usize (s : string) : option Z :=
  match s with
  | EmptyString => None
  | String "+"%char EmptyString => None
  | String "+"%char s => parse_digits 0 s
  | _ => parse_digits 0 s
  end.

Section schema.
Context `{ArrowTypes}.

Record SchemaColumn := {
  name : string;
  source_type : option string;
  data_type : DataType;
  nullable : bool;
  always_present_on_update : bool;
  update_value_presence : ValuePresence;
  delete_value_presence : ValuePresence;
  primary_key : bool;
  low_cardinality : bool;
  max_length : option Z;
  arrow_extension_name : option string;
  arrow_extension_metadata : option string;
  system_role : option string;
  old_value_of : option string;
  old_key_of : option string
}.

(** [DatasetSchema]: the struct has the one field [columns]. *)
Definition DatasetSchema := list SchemaColumn.

(** [impl PartialEq for SchemaColumn]: everything but the native declaration. *)
Definition column_eqb (a b : SchemaColumn) : bool :=
  bool_decide (name a = name b)
  && bool_decide (data_type a = data_type b)
  && bool_decide (nullable a = nullable b)
  && bool_decide (always_present_on_update a = always_present_on_update b)
  && bool_decide (update_value_presence a = update_value_presence b)
  && bool_decide (delete_value_presence a = delete_value_presence b)
  && bool_decide (primary_key a = primary_key b)
  && bool_decide (low_cardinality a = low_cardinality b)
  && bool_decide (max_length a = max_length b)
  && bool_decide (arrow_extension_name a = arrow_extension_name b)
  && bool_decide (arrow_extension_metadata a = arrow_extension_metadata b)
  && bool_decide (system_role a = system_role b)
  && bool_decide (old_value_of a = old_value_of b)
  && bool_decide (old_key_of a = old_key_of b).

#[export] Instance SchemaColumn_equiv : Equiv SchemaColumn := λ a b, column_eqb a b = true.
#[export] Instance SchemaColumn_equiv_dec : RelDecision (≡@{SchemaColumn}).
Proof. intros a b. unfold equiv, SchemaColumn_equiv. apply _. Defined.

(** The derived [PartialEq] of [Vec]: same length, equal elements. *)
Fixpoint schema_eqb (a b : DatasetSchema) : bool :=
  match a, b with
  | [], [] => true
  | x :: a, y :: b => column_eqb x y && schema_eqb a b
  | _, _ => false
  end.

Definition SchemaColumn_new (n : string) (t : DataType) (nl : bool) : SchemaColumn :=
  {| name := n; source_type := None; data_type := t; nullable := nl;
     always_present_on_update := false; update_value_presence := MayBeAbsent;
     delete_value_presence := MayBeAbsent; primary_key := false; low_cardinality := false;
     max_length := None; arrow_extension_name := None; arrow_extension_metadata := None;
     system_role := None; old_value_of := None; old_key_of := None |}.

(** ** The builders *)
Definition rebuild (c : SchemaColumn) (st : option string) (pk low : bool) (len : option Z)
    (ext ext_meta sysrole old_value old_key : option string) : SchemaColumn :=
  {| name := name c; source_type := st; data_type := data_type c; nullable := nullable c;
     always_present_on_update := always_present_on_update c;
     update_value_presence := update_value_presence c;
     delete_value_presence := delete_value_presence c; primary_key := pk; low_cardinality := low;
     max_length := len; arrow_extension_name := ext; arrow_extension_metadata := ext_meta;
     system_role := sysrole; old_value_of := old_value; old_key_of := old_key |}.

Definition with_source_type (c : SchemaColumn) (declaration : string) : SchemaColumn :=
  rebuild c (Some declaration) (primary_key c) (low_cardinality c) (max_length c)
    (arrow_extension_name c) (arrow_extension_metadata c) (system_role c) (old_value_of c) (old_key_of c).
Definition with_arrow_extension (c : SchemaColumn) (n : string) : SchemaColumn :=
  rebuild c (source_type c) (primary_key c) (low_cardinality c) (max_length c)
    (Some n) (arrow_extension_metadata c) (system_role c) (old_value_of c) (old_key_of c).
Definition with_arrow_extension_metadata (c : SchemaColumn) (n metadata : string) : SchemaColumn :=
  rebuild c (source_type c) (primary_key c) (low_cardinality c) (max_length c)
    (Some n) (Some metadata) (system_role c) (old_value_of c) (old_key_of c).
Definition with_old_value_of (c : SchemaColumn) (current_column : string) : SchemaColumn :=
  rebuild c (source_type c) (primary_key c) (low_cardinality c) (max_length c)
    (arrow_extension_name c) (arrow_extension_metadata c) (system_role c) (Some current_column) (old_key_of c).
Definition with_old_key_of (c : SchemaColumn) (current_column : string) : SchemaColumn :=
  rebuild c (source_type c) (primary_key c) (low_cardinality c) (max_length c)
    (arrow_extension_name c) (arrow_extension_metadata c) (system_role c) (old_value_of c) (Some current_column).
Definition with_system_role (c : SchemaColumn) (r : string) : SchemaColumn :=
  rebuild c (source_type c) (primary_key c) (low_cardinality c) (max_length c)
    (arrow_extension_name c) (arrow_extension_metadata c) (Some r) (old_value_of c) (old_key_of c).
Definition with_constraints (c : SchemaColumn) (pk low : bool) (len : option Z) : SchemaColumn :=
  rebuild c (source_type c) pk low len
    (arrow_extension_name c) (arrow_extension_metadata c) (system_role c) (old_value_of c) (old_key_of c).

(** An Arrow [Field] and the fields of an Arrow [Schema]. *)
Record Field := {
  f_name : string;
  f_type : DataType;
  f_nullable : bool;
  f_metadata : gmap string string
}.
Definition ArrowSchema := list Field.

(** [if let Some(value) = .. { metadata.insert(key, value); }] *)
Definition insert_if (k : string) (v : option string) (m : gmap string string) : gmap string string :=
  match v with Some v => <[k := v]> m | None => m end.
Definition true_if (b : bool) : option string := if b then Some "true" else None.

Definition arrow_metadata (c : SchemaColumn) : gmap string string :=
  let m := insert_if META_UPDATE_VALUE_PRESENCE (metadata_value (update_value_presence c)) ∅ in
  let m := insert_if META_DELETE_VALUE_PRESENCE (metadata_value (delete_value_presence c)) m in
  let m := insert_if META_ALWAYS_PRESENT_ON_UPDATE (true_if (always_present_on_update c)) m in
  let m := insert_if META_PRIMARY_KEY (true_if (primary_key c)) m in
  let m := insert_if META_LOW_CARDINALITY (true_if (low_cardinality c)) m in
  let m := insert_if META_MAX_LENGTH (usize_to_string <$> max_length c) m in
  let m := insert_if META_ARROW_EXTENSION_NAME (arrow_extension_name c) m in
  let m := insert_if META_ARROW_EXTENSION_METADATA (arrow_extension_metadata c) m in
  let m := insert_if META_SYSTEM_ROLE (system_role c) m in
  let m := insert_if META_OLD_VALUE_OF (old_value_of c) m in
  let m := insert_if META_OLD_KEY_OF (old_key_of c) m in
  m.

Inductive SchemaError :=
| InvalidMetadata (column key : string)
| InvalidMaxLength (column : string)
| ExtensionWithoutName (column : string).

(** The closures [flag] and [presence] of [from_arrow]. *)
Definition flag (f : Field) (key : string) : result SchemaError bool :=
  match f_metadata f !! key with
  | None => Ok false
  | Some v => if bool_decide (v = "true") then Ok true else Err (InvalidMetadata (f_name f) key)
  end.
Definition presence (f : Field) (key : string) : result SchemaError ValuePresence :=
  match f_metadata f !! key with
  | None => Ok MayBeAbsent
  | Some v =>
      if bool_decide (v = "guaranteed") then Ok Guaranteed else Err (InvalidMetadata (f_name f) key)
  end.

(** The closure of [from_arrow] for one field. *)
Definition column_from_arrow (f : Field) : result SchemaError SchemaColumn :=
  let get k := f_metadata f !! k in
  pk ← flag f META_PRIMARY_KEY;
  lc ← flag f META_LOW_CARDINALITY;
  apu ← flag f META_ALWAYS_PRESENT_ON_UPDATE;
  uvp ← presence f META_UPDATE_VALUE_PRESENCE;
  dvp ← presence f META_DELETE_VALUE_PRESENCE;
  ml ← match get META_MAX_LENGTH with
       | None => Ok None
       | Some v => n ← ok_or (parse_usize v) (InvalidMaxLength (f_name f)); Ok (Some n)
       end;
  _ ← ensure (bool_decide (get META_ARROW_EXTENSION_METADATA = None)
              || bool_decide (is_Some (get META_ARROW_EXTENSION_NAME)))
             (ExtensionWithoutName (f_name f));
  Ok {| name := f_name f; source_type := None; data_type := f_type f; nullable := f_nullable f;
        always_present_on_update := apu; update_value_presence := uvp; delete_value_presence := dvp;
        primary_key := pk; low_cardinality := lc; max_length := ml;
        arrow_extension_name := get META_ARROW_EXTENSION_NAME;
        arrow_extension_metadata := get META_ARROW_EXTENSION_METADATA;
        system_role := get META_SYSTEM_ROLE;
        old_value_of := get META_OLD_VALUE_OF;
        old_key_of := get META_OLD_KEY_OF |}.

Definition from_arrow (s : ArrowSchema) : result SchemaError DatasetSchema :=
  mapM column_from_arrow s.

(** [Field::new(&name, data_type, nullable).with_metadata(column.arrow_metadata())], how
    the connectors encode a column. *)
Definition arrow_field (c : SchemaColumn) : Field :=
  {| f_name := name c; f_type := data_type c; f_nullable := nullable c;
     f_metadata := arrow_metadata c |}.
End schema.

(** ** Decimal numbers *)
Lemma digit_pretty (d : N) : (d < 10)%N → digit (pretty_N_char d) = Some (Z.of_N d).
Proof.
  intros Hd.
  assert (d = 0 ∨ d = 1 ∨ d = 2 ∨ d = 3 ∨ d = 4 ∨ d = 5 ∨ d = 6 ∨ d = 7 ∨ d = 8 ∨ d = 9)%N as Hc by lia.
  repeat (destruct Hc as [->|Hc]; [done|]). by subst.
Qed.

Lemma parse_digits_go (x : N) s :
  Z.of_N x ≤ usize_max → parse_digits 0 (pretty_N_go x s) = parse_digits (Z.of_N x) s.
Proof.
  revert s. induction (N.lt_wf_0 x) as [x _ IH]. intros s Hx.
  destruct (decide (x = 0%N)) as [->|Hne]; [by rewrite pretty_N_go_0|].
  rewrite pretty_N_go_step by lia. 
  assert (x = 10 * (x `div` 10) + x `mod` 10)%N as Hdiv by (apply N.div_mod; done).
  assert (x `mod` 10 < 10)%N as Hmod by (apply N.mod_lt; done).
  revert Hdiv Hmod. generalize (x `div` 10)%N (x `mod` 10)%N. intros q r Hdiv Hmod.
  rewrite IH by lia. cbn [parse_digits]. rewrite digit_pretty by lia.
  replace (Z.of_N q * 10 + Z.of_N r) with (Z.of_N x) by lia.
  by rewrite bool_decide_eq_true_2.
Qed.

Lemma pretty_N_go_nonempty (x : N) s : s ≠ "" → pretty_N_go x s ≠ "".
Proof.
  revert s. induction (N.lt_wf_0 x) as [x _ IH]. intros s Hs.
  destruct (decide (x = 0%N)) as [->|Hne]; [by rewrite pretty_N_go_0|].
  rewrite pretty_N_go_step by lia. apply IH; [apply N.div_lt; lia|done].
Qed.

Lemma parse_usize_digits s n : s ≠ "" → parse_digits 0 s = Some n → parse_usize s = Some n.
Proof.
  destruct s as [|c s]; [done|]. intros _ Hp.
  destruct (decide (c = "+"%char)) as [->|Hc]; [done|].
  destruct c as [[] [] [] [] [] [] [] []]; try exact Hp; by destruct Hc.
Qed.

(** Printing and parsing a [usize] is the identity. *)
Lemma parse_usize_to_string n : 0 ≤ n ≤ usize_max → parse_usize (usize_to_string n) = Some n.
Proof.
  intros Hn. unfold usize_to_string, pretty, pretty_N.
  destruct (decide (Z.to_N n = 0%N)) as [H0|H0].
  - assert (n = 0) as -> by lia. done.
  - apply parse_usize_digits.
    + rewrite pretty_N_go_step by lia. by apply pretty_N_go_nonempty.
    + rewrite parse_digits_go by lia. cbn. f_equal. lia.
Qed.

Lemma digit_range c d : digit c = Some d → 0 ≤ d ≤ 9.
Proof. unfold digit. case_bool_decide; intros; by simplify_eq. Qed.

Lemma parse_digits_range s acc n : 0 ≤ acc ≤ usize_max → parse_digits acc s = Some n → 0 ≤ n ≤ usize_max.
Proof.
  revert acc. induction s as [|c s IH]; intros acc Hacc; cbn; [intros; by simplify_eq|].
  destruct (digit c) as [d|] eqn:Ed; [|done]. apply digit_range in Ed.
  case_bool_decide; [|done]. apply IH. lia.
Qed.

Lemma parse_usize_range s n : parse_usize s = Some n → 0 ≤ n ≤ usize_max.
Proof.
  assert (0 ≤ 0 ≤ usize_max) as H0 by (unfold usize_max, u64_max; lia).
  destruct s as [|[[] [] [] [] [] [] [] []] s]; cbn -[digit parse_digits]; try done;
    try (apply parse_digits_range; exact H0).
  destruct s; [done|]. by apply parse_digits_range.
Qed.

(** ** Operations *)
Lemma from_code_code o : ChangeOperation.from_code (ChangeOperation.code o) = Some o.
Proof. by destruct o. Qed.

Lemma code_from_code s o : ChangeOperation.from_code s = Some o → s = ChangeOperation.code o.
Proof.
  unfold ChangeOperation.from_code. intros Hs.
  repeat (case_bool_decide; [by simplify_eq|]). done.
Qed.

(** ** Equality of columns *)
Section equality.
Context `{ArrowTypes}.
Implicit Types a b c : SchemaColumn.

(** A column without the native declaration, which equality ignores. *)
Definition erase_native c : SchemaColumn :=
  {| name := name c; source_type := None; data_type := data_type c; nullable := nullable c;
     always_present_on_update := always_present_on_update c;
     update_value_presence := update_value_presence c;
     delete_value_presence := delete_value_presence c;
     primary_key := primary_key c; low_cardinality := low_cardinality c;
     max_length := max_length c; arrow_extension_name := arrow_extension_name c;
     arrow_extension_metadata := arrow_extension_metadata c; system_role := system_role c;
     old_value_of := old_value_of c; old_key_of := old_key_of c |}.

Lemma column_eqb_erase a b : column_eqb a b = true ↔ erase_native a = erase_native b.
Proof.
  unfold column_eqb, erase_native. split.
  - intros He. bool_inv. destruct a, b; cbn in *. by subst.
  - destruct a, b. intros He. injection He as. subst. cbn.
    rewrite !andb_true_iff, !bool_decide_eq_true. by repeat split.
Qed.

#[export] Instance SchemaColumn_equivalence : Equivalence (≡@{SchemaColumn}).
Proof.
  unfold equiv, SchemaColumn_equiv. split.
  - intros a. by apply column_eqb_erase.
  - intros a b. rewrite !column_eqb_erase. done.
  - intros a b c. rewrite !column_eqb_erase. congruence.
Qed.

Lemma schema_eqb_erase (s t : DatasetSchema) :
  schema_eqb s t = true ↔ erase_native <$> s = erase_native <$> t.
Proof.
  revert t. induction s as [|a s IH]; intros [|b t]; cbn; [done..|].
  rewrite andb_true_iff, IH, column_eqb_erase. split; [by intros [-> ->]|].
  intros He. by apply (inj2 cons) in He.
Qed.
End equality.

(** ** The metadata of a column *)
Lemma insert_if_eq k v (m : gmap string string) :
  insert_if k v m !! k = match v with Some v => Some v | None => m !! k end.
Proof. destruct v; cbn; [apply lookup_insert_eq|done]. Qed.

Lemma insert_if_ne k k' v (m : gmap string string) : k ≠ k' → insert_if k v m !! k' = m !! k'.
Proof. intros Hne. destruct v; cbn; [by apply lookup_insert_ne|done]. Qed.

(** Look a key up through the chain of insertions. *)
Ltac meta_lookup :=
  unfold arrow_metadata; rewrite ?insert_if_ne by done;
  rewrite insert_if_eq, ?insert_if_ne, lookup_empty by done;
  repeat match goal with |- context [match ?o with Some _ => _ | None => None end] => destruct o end;
  done.

Section roundtrip.
Context `{ArrowTypes}.
Implicit Types c : SchemaColumn.

Lemma meta_update_presence c : arrow_metadata c !! META_UPDATE_VALUE_PRESENCE = metadata_value (update_value_presence c).
Proof. meta_lookup. Qed.
Lemma meta_delete_presence c : arrow_metadata c !! META_DELETE_VALUE_PRESENCE = metadata_value (delete_value_presence c).
Proof. meta_lookup. Qed.
Lemma meta_always_present c : arrow_metadata c !! META_ALWAYS_PRESENT_ON_UPDATE = true_if (always_present_on_update c).
Proof. meta_lookup. Qed.
Lemma meta_primary_key c : arrow_metadata c !! META_PRIMARY_KEY = true_if (primary_key c).
Proof. meta_lookup. Qed.
Lemma meta_low_cardinality c : arrow_metadata c !! META_LOW_CARDINALITY = true_if (low_cardinality c).
Proof. meta_lookup. Qed.
Lemma meta_max_length c : arrow_metadata c !! META_MAX_LENGTH = usize_to_string <$> max_length c.
Proof. meta_lookup. Qed.
Lemma meta_extension_name c : arrow_metadata c !! META_ARROW_EXTENSION_NAME = arrow_extension_name c.
Proof. meta_lookup. Qed.
Lemma meta_extension_metadata c :
  arrow_metadata c !! META_ARROW_EXTENSION_METADATA = arrow_extension_metadata c.
Proof. meta_lookup. Qed.
Lemma meta_system_role c : arrow_metadata c !! META_SYSTEM_ROLE = system_role c.
Proof. meta_lookup. Qed.
Lemma meta_old_value_of c : arrow_metadata c !! META_OLD_VALUE_OF = old_value_of c.
Proof. meta_lookup. Qed.
Lemma meta_old_key_of c : arrow_metadata c !! META_OLD_KEY_OF = old_key_of c.
Proof. meta_lookup. Qed.
End roundtrip.

#[export] Hint Rewrite @meta_update_presence @meta_delete_presence @meta_always_present
  @meta_primary_key @meta_low_cardinality @meta_max_length @meta_extension_name
  @meta_extension_metadata @meta_system_role @meta_old_value_of @meta_old_key_of : transferia_rw.

Section schema_properties.
Context `{ArrowTypes}.
Implicit Types c : SchemaColumn.

(** The columns an Arrow schema can carry: a [usize] length, and an extension payload
    only beside an extension name. *)
Definition column_ok c : Prop :=
  (∀ n, max_length c = Some n → 0 ≤ n ≤ usize_max) ∧
  (arrow_extension_metadata c = None ∨ is_Some (arrow_extension_name c)).

(** What the constructor and the builders make satisfies this. *)
Inductive built : SchemaColumn → Prop :=
| built_new n t nl : built (SchemaColumn_new n t nl)
| built_source_type c d : built c → built (with_source_type c d)
| built_extension c n : built c → built (with_arrow_extension c n)
| built_extension_metadata c n m : built c → built (with_arrow_extension_metadata c n m)
| built_old_value c n : built c → built (with_old_value_of c n)
| built_old_key c n : built c → built (with_old_key_of c n)
| built_role c r : built c → built (with_system_role c r)
| built_constraints c pk low len :
    built c → (∀ n, len = Some n → 0 ≤ n ≤ usize_max) → built (with_constraints c pk low len).

Lemma built_ok c : built c → column_ok c.
Proof. induction 1 as [n t nl|c d _ []|c n _ []|c n m _ []|c n _ []|c n _ []|c r _ []|c pk low len _ [] ?]; split; cbn; eauto; done. Qed.

Lemma flag_arrow c key b :
  arrow_metadata c !! key = true_if b → flag (arrow_field c) key = Ok b.
Proof. unfold flag; cbn. intros ->. by destruct b. Qed.

Lemma presence_arrow c key p :
  arrow_metadata c !! key = metadata_value p → presence (arrow_field c) key = Ok p.
Proof. unfold presence; cbn. intros ->. by destruct p. Qed.

Lemma column_roundtrip c : column_ok c → column_from_arrow (arrow_field c) = Ok (erase_native c).
Proof.
  intros [Hlen Hext]. unfold column_from_arrow.
  rewrite (flag_arrow _ _ _ (meta_primary_key c)), (flag_arrow _ _ _ (meta_low_cardinality c)),
    (flag_arrow _ _ _ (meta_always_present c)), (presence_arrow _ _ _ (meta_update_presence c)),
    (presence_arrow _ _ _ (meta_delete_presence c)).
  cbn [mbind result_bind arrow_field f_metadata f_name f_type f_nullable].
  autorewrite with transferia_rw.
  replace (bool_decide _ || bool_decide _) with true
    by (symmetry; rewrite orb_true_iff, !bool_decide_eq_true; done).
  destruct (max_length c) as [n|] eqn:En; cbn.
  - rewrite parse_usize_to_string by auto. cbn. unfold erase_native. by rewrite En.
  - unfold erase_native. by rewrite En.
Qed.

Lemma from_arrow_roundtrip (s : DatasetSchema) :
  Forall column_ok s → from_arrow (arrow_field <$> s) = Ok (erase_native <$> s).
Proof.
  intros Hs. apply mapM_Ok. induction Hs as [|c s Hc _ IH]; cbn; constructor; [|done].
  by apply column_roundtrip.
Qed.

Lemma column_from_arrow_ok f c :
  column_from_arrow f = Ok c → column_ok c ∧ erase_native c = c.
Proof.
  unfold column_from_arrow. intros Hc. res_inv. split; [|done]. split; cbn.
  - intros n ->. destruct (f_metadata f !! META_MAX_LENGTH); [|by res_inv]. res_inv.
    by eapply parse_usize_range.
  - match goal with Hx : _ || _ = true |- _ => apply orb_true_iff in Hx as [?|?] end; bool_inv; auto.
Qed.

(** The Arrow encoding of a schema is faithful.  Encoding the columns of a schema
    as Arrow fields and decoding them gives back an equal schema (only the native
    declaration, which equality ignores, is erased), in particular for every schema made
    with the constructor and the builders; and what [from_arrow] accepts
    from any Arrow schema survives being encoded and decoded again unchanged. *)
Theorem schema_arrow_roundtrip :
  (∀ s : DatasetSchema, Forall column_ok s →
    ∃ s', from_arrow (arrow_field <$> s) = Ok s' ∧ schema_eqb s' s = true) ∧
  (∀ s : DatasetSchema, Forall built s → Forall column_ok s) ∧
  (∀ (a : ArrowSchema) (s : DatasetSchema), from_arrow a = Ok s →
    from_arrow (arrow_field <$> s) = Ok s).
Proof.
  split_and!.
  - intros s Hs. exists (erase_native <$> s). split; [by apply from_arrow_roundtrip|].
    apply schema_eqb_erase. rewrite <-list_fmap_compose. done.
  - intros s Hs. eapply Forall_impl; [exact Hs|apply built_ok].
  - intros a s Ha. apply mapM_Ok in Ha.
    assert (Forall column_ok s ∧ erase_native <$> s = s) as [Hok He].
    { induction Ha as [|f c a s Hc _ [IH1 IH2]]; [done|].
      apply column_from_arrow_ok in Hc as [? Hc]. split; [by constructor|]. cbn. by rewrite Hc, IH2. }
    rewrite <-He at 2. by apply from_arrow_roundtrip.
Qed.
End schema_properties.

(** ** Example types, for the witnesses *)
Inductive ExampleType := ExUtf8 | ExInt64 | ExUInt64 | ExBinary | ExBoolean.
#[export] Instance ExampleType_eq_dec : EqDecision ExampleType.
Proof. solve_decision. Defined.
Definition example_arrow : ArrowTypes.
Proof.
  refine {| DataType := ExampleType; DataType_eq_dec := ExampleType_eq_dec;
    Utf8 := ExUtf8; Int64 := ExInt64; UInt64 := ExUInt64; Binary := ExBinary |}.
  apply (bool_decide_unpack _). vm_compute. exact I.
Defined.

Definition example_column : @SchemaColumn example_arrow :=
  {| name := "id"; source_type := Some "varchar(40)"; data_type := Utf8; nullable := false;
     always_present_on_update := true; update_value_presence := Guaranteed;
     delete_value_presence := MayBeAbsent; primary_key := true; low_cardinality := false;
     max_length := Some 40; arrow_extension_name := Some "arrow.json";
     arrow_extension_metadata := Some "{}"; system_role := None; old_value_of := None;
     old_key_of := None |}.

Lemma schema_arrow_roundtrip_witness :
  ∃ s', from_arrow (arrow_field <$> [example_column]) = Ok s' ∧ schema_eqb s' [example_column] = true.
Proof.
  apply (proj1 (@schema_arrow_roundtrip example_arrow)).
  apply Forall_singleton. split; cbn; [|eauto]. intros n [= <-]. unfold usize_max, u64_max. lia.
Defined.
