(* ===== verification/Arrow.v ===== *)
(** * The interface to the Arrow crate

    Arrow is third-party code.  Its arrays and record batches are described by what
    their accessors show (data type, length, null flags and values; schema, columns
    and row count).  The functions the core calls ([take], [concat],
    [RecordBatch::try_new], [RecordBatch::project], [Schema::index_of] and the row
    format) are the operations of the class [ArrowCompute], whose laws are their
    documented behaviour on arguments that satisfy their preconditions. *)

From stdpp Require Import base tactics numbers option list strings gmap countable.
From S2P Require Import Prelude Schema.
Local Open Scope Z_scope.

(** Values of the types the core does not look into. *)
Class ArrowValues := {
  OtherValue : Type;
  OtherValue_eq_dec :: EqDecision OtherValue
}.

Section values.
Context `{ArrowValues}.

Inductive Value :=
| VStr (s : string)
| VInt (z : Z)
| VUInt (z : Z)
| VBytes (b : list Z)
| VOther (v : OtherValue).
#[export] Instance Value_eq_dec : EqDecision Value.
Proof. solve_decision. Defined.

End values.

(** A null or a value. *)
Abbreviation Cell := (option Value) (only parsing).

Section data.
Context `{ArrowTypes, ArrowValues}.

Inductive Array :=
| StringArray (l : list (option string))
| Int64Array (l : list (option Z))
| UInt64Array (l : list (option Z))
| BinaryArray (l : list (option (list Z)))
| OtherArray (t : DataType) (l : list (option OtherValue)).

Definition array_type (a : Array) : DataType :=
  match a with
  | StringArray _ => Utf8
  | Int64Array _ => Int64
  | UInt64Array _ => UInt64
  | BinaryArray _ => Binary
  | OtherArray t _ => t
  end.

Definition cells (a : Array) : list Cell :=
  match a with
  | StringArray l => fmap (M:=option) VStr <$> l
  | Int64Array l => fmap (M:=option) VInt <$> l
  | UInt64Array l => fmap (M:=option) VUInt <$> l
  | BinaryArray l => fmap (M:=option) VBytes <$> l
  | OtherArray _ l => fmap (M:=option) VOther <$> l
  end.

Definition array_len (a : Array) : nat := length (cells a).

(** [Array::null_count]. *)
Definition null_count (a : Array) : nat := length (filter (λ c, c = None) (cells a)).

Record RecordBatch := {
  rb_schema : list Field;
  rb_columns : list Array;
  rb_rows : nat
}.

(** The four inspected types have their own arrays. *)
Definition array_ok (a : Array) : Prop :=
  match a with OtherArray t _ => t ∉ [Utf8; Int64; UInt64; Binary] | _ => True end.

(** A non-nullable field has no nulls. *)
Definition nulls_ok (f : Field) (a : Array) : Prop :=
  f_nullable f = true ∨ Forall (λ c, c ≠ None) (cells a).

(** What every [RecordBatch] satisfies: one array per field, of the field's type and
    of the batch's length. *)
Record batch_wf (b : RecordBatch) : Prop := {
  bw_arrays : Forall array_ok (rb_columns b);
  bw_types : array_type <$> rb_columns b = f_type <$> rb_schema b;
  bw_rows : Forall (λ a, array_len a = rb_rows b) (rb_columns b);
  bw_nulls : Forall2 nulls_ok (rb_schema b) (rb_columns b)
}.

(** The cells of one row. *)
Definition row_of (columns : list Array) (row : nat) : list Cell :=
  (λ a, default None (cells a !! row)) <$> columns.

(** The cell at an index that is in range. *)
Definition cell_at (a : Array) (i : Z) : Cell := default None (cells a !! Z.to_nat i).

Class ArrowCompute := {
  ArrowError : Type;
  Converter : Type;
  take : Array → list Z → result ArrowError Array;
  concat : Array → Array → result ArrowError Array;
  try_new : list Field → list Array → result ArrowError RecordBatch;
  project : RecordBatch → list nat → result ArrowError RecordBatch;
  index_of : list Field → string → option nat;
  row_converter : list DataType → result ArrowError Converter;
  convert_columns : Converter → list Array → result ArrowError (list (list Z));

  (** [take] picks the indexed values. *)
  take_ok a ix : array_ok a → Forall (λ i, 0 ≤ i < Z.of_nat (array_len a)) ix →
    ∃ a', take a ix = Ok a' ∧ array_ok a' ∧ array_type a' = array_type a ∧
      cells a' = cell_at a <$> ix;
  (** [concat] appends arrays of one type. *)
  concat_ok a b : array_ok a → array_ok b → array_type a = array_type b →
    ∃ c, concat a b = Ok c ∧ array_ok c ∧ array_type c = array_type a ∧
      cells c = cells a ++ cells b;
  (** [try_new] accepts at least one column, of the fields' types and one length,
      without nulls in a non-nullable field. *)
  try_new_ok fields columns n :
    columns ≠ [] → array_type <$> columns = f_type <$> fields →
    Forall (λ a, array_len a = n) columns → Forall2 nulls_ok fields columns →
    try_new fields columns = Ok {| rb_schema := fields; rb_columns := columns; rb_rows := n |};
  try_new_inv fields columns b : try_new fields columns = Ok b →
    rb_schema b = fields ∧ rb_columns b = columns ∧ array_type <$> columns = f_type <$> fields;
  (** [project] picks columns. *)
  project_ok b ix : batch_wf b → Forall (λ i, (i < length (rb_schema b))%nat) ix →
    ∃ b', project b ix = Ok b' ∧
    Forall2 (λ i f, rb_schema b !! i = Some f) ix (rb_schema b') ∧
    Forall2 (λ i a, rb_columns b !! i = Some a) ix (rb_columns b') ∧ rb_rows b' = rb_rows b;
  (** [index_of] finds the first field of that name. *)
  index_of_ok fields n : index_of fields n = fst <$> list_find (λ f, f_name f = n) fields;
  (** The row format: one byte string per row, equal exactly for equal rows. *)
  convert_ok types conv columns n :
    row_converter types = Ok conv → columns ≠ [] → array_type <$> columns = types →
    Forall (λ a, array_len a = n) columns →
    ∃ keys, convert_columns conv columns = Ok keys ∧ length keys = n;
  convert_equal types conv columns1 columns2 keys1 keys2 i j k1 k2 :
    row_converter types = Ok conv →
    array_type <$> columns1 = types → array_type <$> columns2 = types →
    convert_columns conv columns1 = Ok keys1 → convert_columns conv columns2 = Ok keys2 →
    keys1 !! i = Some k1 → keys2 !! j = Some k2 →
    (k1 = k2 ↔ row_of columns1 i = row_of columns2 j)
}.
End data.

(** ** An instance of the interface, for the witnesses *)
Definition example_values : ArrowValues := {| OtherValue := Z |}.

Section example.
#[local] Existing Instance example_arrow.
#[local] Existing Instance example_values.

#[local] Instance value_countable : Countable Value.
Proof.
  refine (inj_countable'
    (λ v, match v with
      | VStr s => inl (inl s) | VInt z => inl (inr (inl z)) | VUInt z => inl (inr (inr z))
      | VBytes b => inr (inl b) | VOther v => inr (inr (v : Z)) end)
    (λ x : (string + (Z + Z)) + (list Z + Z), match x with
      | inl (inl s) => VStr s | inl (inr (inl z)) => VInt z | inl (inr (inr z)) => VUInt z
      | inr (inl b) => VBytes b | inr (inr v) => VOther (v : OtherValue) end) _).
  by intros [].
Defined.

Definition pick {A} (l : list (option A)) (ix : list Z) : list (option A) :=
  (λ i, default None (l !! Z.to_nat i)) <$> ix.

Definition example_take (a : Array) (ix : list Z) : result unit Array :=
  if bool_decide (Forall (λ i, 0 ≤ i < Z.of_nat (array_len a)) ix) then
    Ok (match a with
        | StringArray l => StringArray (pick l ix)
        | Int64Array l => Int64Array (pick l ix)
        | UInt64Array l => UInt64Array (pick l ix)
        | BinaryArray l => BinaryArray (pick l ix)
        | OtherArray t l => OtherArray t (pick l ix)
        end)
  else Err tt.

Definition example_concat (a b : Array) : result unit Array :=
  match a, b with
  | StringArray l, StringArray l' => Ok (StringArray (l ++ l'))
  | Int64Array l, Int64Array l' => Ok (Int64Array (l ++ l'))
  | UInt64Array l, UInt64Array l' => Ok (UInt64Array (l ++ l'))
  | BinaryArray l, BinaryArray l' => Ok (BinaryArray (l ++ l'))
  | OtherArray t l, OtherArray t' l' =>
      if bool_decide (t = t') then Ok (OtherArray t (l ++ l')) else Err tt
  | _, _ => Err tt
  end.

#[local] Instance nulls_ok_dec f a : Decision (nulls_ok f a).
Proof. unfold nulls_ok. apply _. Defined.

Definition example_try_new (fields : list Field) (columns : list Array) : result unit RecordBatch :=
  match columns with
  | [] => Err tt
  | a :: _ =>
      if bool_decide (array_type <$> columns = f_type <$> fields)
         && bool_decide (Forall (λ c, array_len c = array_len a) columns)
         && bool_decide (Forall2 nulls_ok fields columns)
      then Ok {| rb_schema := fields; rb_columns := columns; rb_rows := array_len a |} else Err tt
  end.

Definition example_project (b : RecordBatch) (ix : list nat) : result unit RecordBatch :=
  match mapM (M:=option) (λ i, rb_schema b !! i) ix, mapM (M:=option) (λ i, rb_columns b !! i) ix with
  | Some fs, Some cs => Ok {| rb_schema := fs; rb_columns := cs; rb_rows := rb_rows b |}
  | _, _ => Err tt
  end.

Definition example_convert (types : list DataType) (columns : list Array) : result unit (list (list Z)) :=
  match columns with
  | [] => Err tt
  | a :: _ => Ok ((λ i, [Z.pos (encode (row_of columns i))]) <$> seq 0 (array_len a))
  end.

Lemma cells_pick {A} (f : A → Value) (l : list (option A)) ix :
  fmap (M:=option) f <$> pick l ix = (λ i, default None ((fmap (M:=option) f <$> l) !! Z.to_nat i)) <$> ix.
Proof.
  unfold pick. rewrite <-list_fmap_compose. apply list_fmap_ext. intros _ i _. cbn.
  rewrite list_lookup_fmap. by destruct (l !! Z.to_nat i) as [[]|].
Qed.

Lemma example_lookup types columns keys i k :
  example_convert types columns = Ok keys → keys !! i = Some k →
  k = [Z.pos (encode (row_of columns i))].
Proof.
  destruct columns as [|a l]; [done|]. intros [= <-]. rewrite list_lookup_fmap.
  destruct (seq 0 (array_len a) !! i) eqn:E; [|done]. apply lookup_seq in E as [-> _]. by intros [= <-].
Qed.

Lemma example_take_ok a ix : array_ok a → Forall (λ i, 0 ≤ i < Z.of_nat (array_len a)) ix →
  ∃ a', example_take a ix = Ok a' ∧ array_ok a' ∧ array_type a' = array_type a ∧
    cells a' = cell_at a <$> ix.
Proof.
  intros Ha Hix. unfold example_take. rewrite bool_decide_eq_true_2 by done.
  eexists; split_and!; [done|by destruct a..|]. destruct a; cbn; apply cells_pick.
Qed.

Lemma example_concat_ok a b : array_ok a → array_ok b → array_type a = array_type b →
  ∃ c, example_concat a b = Ok c ∧ array_ok c ∧ array_type c = array_type a ∧
    cells c = cells a ++ cells b.
Proof.
  revert a b. intros [] [] Ha Hb Ht; cbn in *; try done;
    try (destruct Ha; rewrite Ht; set_solver); try (destruct Hb; rewrite <-Ht; set_solver);
    rewrite ?bool_decide_eq_true_2 by done; (eexists; split_and!; [done..|apply fmap_app]).
Qed.

Lemma example_try_new_ok fields columns n :
  columns ≠ [] → array_type <$> columns = f_type <$> fields →
  Forall (λ a, array_len a = n) columns → Forall2 nulls_ok fields columns →
  example_try_new fields columns = Ok {| rb_schema := fields; rb_columns := columns; rb_rows := n |}.
Proof.
  destruct columns as [|a l]; intros Hne Ht Hn Hnull; [done|]. cbn.
  assert (array_len a = n) as Ha by (by inversion Hn).
  rewrite !bool_decide_eq_true_2; [cbn; by rewrite Ha|..]; try done. by rewrite Ha.
Qed.

Lemma example_try_new_inv fields columns b : example_try_new fields columns = Ok b →
  rb_schema b = fields ∧ rb_columns b = columns ∧ array_type <$> columns = f_type <$> fields.
Proof.
  destruct columns as [|a l]; [done|]. unfold example_try_new. intros Hb.
  destruct (_ && _) eqn:E; [|done]. injection Hb as <-. bool_inv. done.
Qed.

Lemma example_project_ok b ix : batch_wf b → Forall (λ i, (i < length (rb_schema b))%nat) ix →
  ∃ b', example_project b ix = Ok b' ∧
  Forall2 (λ i f, rb_schema b !! i = Some f) ix (rb_schema b') ∧
  Forall2 (λ i a, rb_columns b !! i = Some a) ix (rb_columns b') ∧ rb_rows b' = rb_rows b.
Proof.
  intros Hwf Hix. unfold example_project.
  assert (length (rb_columns b) = length (rb_schema b)) as Hlen.
  { pose proof (f_equal length (bw_types _ Hwf)) as Hl. by rewrite !length_fmap in Hl. }
  destruct (mapM_is_Some_2 (λ i, rb_schema b !! i) ix) as [fs Hfs].
  { eapply Forall_impl; [|exact Hix]. intros i Hi. by apply lookup_lt_is_Some. }
  destruct (mapM_is_Some_2 (λ i, rb_columns b !! i) ix) as [cs Hcs].
  { eapply Forall_impl; [|exact Hix]. intros i Hi. apply lookup_lt_is_Some. by rewrite Hlen. }
  rewrite Hfs, Hcs. eexists; split_and!; [done|by apply mapM_Some..|done].
Qed.

Lemma example_convert_ok (types conv : list DataType) columns n :
  @Ok unit _ types = Ok conv → columns ≠ [] → array_type <$> columns = types →
  Forall (λ a, array_len a = n) columns →
  ∃ keys, example_convert conv columns = Ok keys ∧ length keys = n.
Proof.
  destruct columns as [|a l]; intros [= <-] Hne Ht Hn; [done|]. eexists; split; [done|].
  rewrite length_fmap, length_seq. by inversion Hn.
Qed.

Lemma example_convert_equal (types conv : list DataType) columns1 columns2 keys1 keys2 i j k1 k2 :
  @Ok unit _ types = Ok conv → array_type <$> columns1 = types → array_type <$> columns2 = types →
  example_convert conv columns1 = Ok keys1 → example_convert conv columns2 = Ok keys2 →
  keys1 !! i = Some k1 → keys2 !! j = Some k2 →
  (k1 = k2 ↔ row_of columns1 i = row_of columns2 j).
Proof.
  intros _ _ _ H1 H2 Hx1 Hx2.
  rewrite (example_lookup _ _ _ _ _ H1 Hx1), (example_lookup _ _ _ _ _ H2 Hx2). split.
  - intros [= He]. by apply (inj encode).
  - by intros ->.
Qed.

Definition example_compute : ArrowCompute :=
  {| ArrowError := unit; Converter := list DataType; take := example_take;
     concat := example_concat; try_new := example_try_new; project := example_project;
     index_of := λ fields n, fst <$> list_find (λ f, f_name f = n) fields;
     row_converter := λ types, Ok types; convert_columns := example_convert;
     take_ok := example_take_ok; concat_ok := example_concat_ok; try_new_ok := example_try_new_ok;
     try_new_inv := example_try_new_inv; project_ok := example_project_ok;
     index_of_ok := λ fields n, eq_refl; convert_ok := example_convert_ok;
     convert_equal := example_convert_equal |}.
End example.
