(* ===== verification/Delivery.v ===== *)
(** * Delivery discovery and the batch contract

    [transferia-core/src/delivery.rs] and [SinkBatch::dataset] of [sink.rs]: how the
    partitions of a source are assigned to workers, what a discovered dataset
    promises, and the checks a batch and its stored projection must pass before a
    sink may write.

    Names are compared as strings; a [HashSet] is a [gset], a [HashMap] a [gmap].  Every
    [ensure!] has its own error constructor.  [SinkBatch::memory] is a handle on a
    lease of the memory budget (file Memory). *)

From stdpp Require Import base tactics numbers option strings gmap fin_maps fin_sets countable list.
From S2P Require Import Prelude Schema Arrow.
Local Open Scope Z_scope.

#[export] Instance SystemColumnKind_countable : Countable SystemColumnKind.
Proof.
  refine (inj_countable'
    (λ k, match k with Topic => 0 | Partition => 1 | Offset => 2 | MessageIndex => 3
      | WriteTimestampMs => 4 | OperationColumn => 5 | ChangedColumns => 6 end)
    (λ n : Z, match n with 0 => Topic | 1 => Partition | 2 => Offset | 3 => MessageIndex
      | 4 => WriteTimestampMs | 5 => OperationColumn | _ => ChangedColumns end) _).
  by intros [].
Defined.

Inductive DatasetRole := Main | DeadLetterQueue.
#[export] Instance DatasetRole_eq_dec : EqDecision DatasetRole.
Proof. solve_decision. Defined.

Definition from_is_dlq (is_dlq : bool) : DatasetRole := if is_dlq then DeadLetterQueue else Main.

Inductive SchemaOrigin := SourceNative | ParserProjection | ParserRuntime.
#[export] Instance SchemaOrigin_eq_dec : EqDecision SchemaOrigin.
Proof. solve_decision. Defined.

Inductive UpdatePolicy := Strict | FullImageUpsert.
#[export] Instance UpdatePolicy_eq_dec : EqDecision UpdatePolicy.
Proof. solve_decision. Defined.

Record DiscoveredSystemColumn := { dsc_kind : SystemColumnKind; dsc_name : string }.

(** [impl From<SystemColumnKind>] *)
Definition discovered_system_column (k : SystemColumnKind) : DiscoveredSystemColumn :=
  {| dsc_kind := k; dsc_name := default_name k |}.

(** ** Source topology *)
Inductive SourceTopology :=
| StaticPartitions (partitions : list Z)
| CoLocatedStaticPartitions (partitions : list Z)
| DynamicWorkerLanes.

Inductive TopologyError :=
| NoPartitions
| NegativePartition (p : Z)
| RepeatedPartition (p : Z)
| NoWorkers
| WorkerOutOfRange.

Module SourceTopology.
Definition static_partitions (t : SourceTopology) : option (list Z) :=
  match t with
  | StaticPartitions ps | CoLocatedStaticPartitions ps => Some ps
  | DynamicWorkerLanes => None
  end.

Definition check_partition (unique : gset Z) (p : Z) : result TopologyError (gset Z) :=
  _ ← ensure (bool_decide (0 ≤ p)) (NegativePartition p);
  _ ← ensure (bool_decide (p ∉ unique)) (RepeatedPartition p);
  Ok ({[ p ]} ∪ unique).

Definition validate (t : SourceTopology) : result TopologyError unit :=
  match static_partitions t with
  | None => Ok tt
  | Some ps =>
      _ ← ensure (negb (bool_decide (ps = []))) NoPartitions;
      _ ← for_each check_partition ps ∅;
      Ok tt
  end.

Definition assigned_to (total_workers worker_index p : Z) : bool :=
  bool_decide (0 ≤ p) && bool_decide (p `mod` total_workers = worker_index).

Definition partitions_for_worker (t : SourceTopology) (total_workers worker_index : Z)
    : result TopologyError (list Z) :=
  _ ← ensure (bool_decide (0 < total_workers)) NoWorkers;
  _ ← ensure (bool_decide (worker_index < total_workers)) WorkerOutOfRange;
  _ ← validate t;
  Ok (match t with
      | StaticPartitions ps => filter (λ p, assigned_to total_workers worker_index p = true) ps
      | CoLocatedStaticPartitions ps => if bool_decide (worker_index = 0) then ps else []
      | DynamicWorkerLanes => [worker_index]
      end).
End SourceTopology.

(** ** Discovered datasets *)
Record PerformanceAdvice := {
  pa_code : string; pa_severity_is_warning : bool; pa_summary : string;
  pa_explanation : string; pa_remediation : string; pa_config_paths : list string
}.

Section delivery.
Context `{ArrowTypes, ArrowValues}.

Record DiscoveredDataset := {
  namespace : option string;
  update_policy : UpdatePolicy;
  role : DatasetRole;
  ds_name : string;
  incoming_schema : DatasetSchema;
  stored_schema : DatasetSchema;
  system_columns : list DiscoveredSystemColumn
}.

Record DeliveryDiscovery := {
  source_name : string;
  source_topology : SourceTopology;
  schema_origin : SchemaOrigin;
  keep_system_columns : bool;
  datasets : list DiscoveredDataset;
  performance_advice : list PerformanceAdvice
}.

Record SinkBatch := {
  sb_schema : DatasetSchema;
  sb_namespace : option string;
  sb_table : string;
  sb_is_dlq : bool;
  sb_batch : RecordBatch;
  sb_byte_size : Z;
  sb_system_columns : SystemColumns
}.

Inductive DeliveryError :=
| NoDataset (r : DatasetRole)
| MultipleDatasets (r : DatasetRole)
| NoDatasetNamed (r : DatasetRole) (n : string)
| ArrowSchema_ (e : SchemaError)
| CarriedSchemaMismatch (table : string)
| RuntimeSchemaMismatch (table : string)
| RuntimeNameMismatch (table : string)
| ColumnCountMismatch (table : string)
| ColumnMismatch (table : string) (position : nat)
| ColumnMetadataMismatch (table column : string)
| RepeatedSystemKind (kind : SystemColumnKind)
| RepeatedSystemIndex (index : nat)
| SystemIndexOutside (kind : SystemColumnKind)
| SystemFieldMismatch (kind : SystemColumnKind)
| SystemKindsMismatch (table : string)
| RepeatedIncomingName
| RepeatedStoredName
| RepeatedSystemName
| RepeatedDiscoveredKind (kind : SystemColumnKind)
| SystemColumnInvalid (name : string)
| FullImageNeedsKeys
| FullImageNeedsOldKey (key : string)
| VersionInvalid
| MultipleVersions
| StoredProjectionMismatch
| OldWithoutChangelog
| OldCountMismatch
| OldUnknownCurrent (column : string)
| OldRepeated (current : string)
| OldIncomplete
| OldKeysMixed
| OldKeyCountMismatch
| OldKeyUnknownCurrent (column : string)
| OldKeyInvalid (current : string)
| OldKeysIncomplete
| ControlColumnInvalid (column : string).

Definition lift_schema {A} (r : result SchemaError A) : result DeliveryError A :=
  match r with Ok a => Ok a | Err e => Err (ArrowSchema_ e) end.

Definition dataset (d : DeliveryDiscovery) (r : DatasetRole) : result DeliveryError DiscoveredDataset :=
  match filter (λ ds, role ds = r) (datasets d) with
  | [] => Err (NoDataset r)
  | [ds] => Ok ds
  | _ => Err (MultipleDatasets r)
  end.

Definition dataset_named (d : DeliveryDiscovery) (r : DatasetRole) (n : string)
    : result DeliveryError DiscoveredDataset :=
  ok_or (find (λ ds, bool_decide (role ds = r) && bool_decide (ds_name ds = n)) (datasets d))
        (NoDatasetNamed r n).

(** The operation and the change mask, which are never stored. *)
Definition control_kind (k : SystemColumnKind) : bool :=
  match k with OperationColumn | ChangedColumns => true | _ => false end.

Definition is_none {A} (o : option A) : bool := match o with None => true | Some _ => false end.
Definition is_some {A} (o : option A) : bool := negb (is_none o).

(** The filter of [SinkBatch::dataset]. *)
Definition stored_at_sink (keep : bool) (sys : SystemColumns) (c : SchemaColumn) : bool :=
  if is_some (system_role c) || is_some (old_value_of c) || is_some (old_key_of c) then false
  else match find (λ s, bool_decide (sys_name s = name c)) sys with
       | Some s => keep && negb (control_kind (sys_kind s))
       | None => true
       end.

Definition sink_batch_dataset (b : SinkBatch) (keep : bool) : result DeliveryError DiscoveredDataset :=
  actual ← lift_schema (from_arrow (rb_schema (sb_batch b)));
  _ ← ensure (schema_eqb actual (sb_schema b)) (CarriedSchemaMismatch (sb_table b));
  let stored := filter (λ c, stored_at_sink keep (sb_system_columns b) c = true) (sb_schema b) in
  Ok {| namespace := sb_namespace b;
        ds_name := sb_table b;
        role := from_is_dlq (sb_is_dlq b);
        update_policy := Strict;
        incoming_schema := sb_schema b;
        stored_schema := stored;
        system_columns :=
          (λ c, {| dsc_kind := sys_kind c; dsc_name := sys_name c |}) <$> sb_system_columns b |}.

(** ** [validate_batch_against_discovery] *)

(** The metadata comparison of one field with one column. *)
Definition metadata_matches (m : gmap string string) (c : SchemaColumn) : bool :=
  eqb (bool_decide (m !! META_PRIMARY_KEY = Some "true")) (primary_key c)
  && bool_decide (m !! META_ALWAYS_PRESENT_ON_UPDATE = true_if (always_present_on_update c))
  && bool_decide (m !! META_UPDATE_VALUE_PRESENCE = metadata_value (update_value_presence c))
  && bool_decide (m !! META_DELETE_VALUE_PRESENCE = metadata_value (delete_value_presence c))
  && eqb (bool_decide (m !! META_LOW_CARDINALITY = Some "true")) (low_cardinality c)
  && bool_decide (m !! META_MAX_LENGTH = usize_to_string <$> max_length c)
  && bool_decide (m !! META_OLD_VALUE_OF = old_value_of c)
  && bool_decide (m !! META_OLD_KEY_OF = old_key_of c)
  && bool_decide (m !! META_SYSTEM_ROLE = system_role c)
  && bool_decide (m !! META_ARROW_EXTENSION_NAME = arrow_extension_name c)
  && bool_decide (m !! META_ARROW_EXTENSION_METADATA = arrow_extension_metadata c).

(** One turn of the loop over fields and columns. *)
Definition check_field (table : string) (position : nat) (fc : Field * SchemaColumn)
    : result DeliveryError nat :=
  let '(actual, expected) := fc in
  _ ← ensure (bool_decide (f_name actual = name expected)
              && bool_decide (f_type actual = data_type expected)
              && eqb (f_nullable actual) (nullable expected)) (ColumnMismatch table position);
  _ ← ensure (metadata_matches (f_metadata actual) expected)
             (ColumnMetadataMismatch table (f_name actual));
  Ok (S position).

(** One turn of the loop over the runtime system columns. *)
Definition check_system_column (schema : list Field)
    (seen : gset SystemColumnKind * gset nat) (c : SystemColumn)
    : result DeliveryError (gset SystemColumnKind * gset nat) :=
  let '(kinds, indexes) := seen in
  _ ← ensure (bool_decide (sys_kind c ∉ kinds)) (RepeatedSystemKind (sys_kind c));
  _ ← ensure (bool_decide (sys_index c ∉ indexes)) (RepeatedSystemIndex (sys_index c));
  field ← ok_or (schema !! sys_index c) (SystemIndexOutside (sys_kind c));
  _ ← ensure (bool_decide (f_name field = sys_name c)
              && bool_decide (f_type field = system_data_type (sys_kind c)))
             (SystemFieldMismatch (sys_kind c));
  Ok ({[ sys_kind c ]} ∪ kinds, {[ sys_index c ]} ∪ indexes).

(** The dataset a batch is checked against. *)
Definition expected_dataset (d : DeliveryDiscovery) (b : SinkBatch)
    : result DeliveryError DiscoveredDataset :=
  let known := dataset_named d (from_is_dlq (sb_is_dlq b)) (sb_table b) in
  if bool_decide (schema_origin d = ParserRuntime) then
    match known with
    | Ok ds => if schema_eqb (incoming_schema ds) (sb_schema b) then Ok ds
               else sink_batch_dataset b (keep_system_columns d)
    | Err _ => sink_batch_dataset b (keep_system_columns d)
    end
  else known.

Definition validate_batch_against_discovery (d : DeliveryDiscovery) (b : SinkBatch)
    : result DeliveryError DiscoveredDataset :=
  expected ← expected_dataset d b;
  _ ← ensure (schema_eqb (incoming_schema expected) (sb_schema b)) (RuntimeSchemaMismatch (sb_table b));
  _ ← ensure (bool_decide (sb_table b = ds_name expected)) (RuntimeNameMismatch (sb_table b));
  let actual_schema := rb_schema (sb_batch b) in
  _ ← ensure (bool_decide (length actual_schema = length (incoming_schema expected)))
             (ColumnCountMismatch (sb_table b));
  _ ← for_each (check_field (sb_table b)) (zip actual_schema (incoming_schema expected)) 0%nat;
  seen ← for_each (check_system_column actual_schema) (sb_system_columns b) (∅, ∅);
  let expected_kinds : gset SystemColumnKind := list_to_set (dsc_kind <$> system_columns expected) in
  _ ← ensure (bool_decide (seen.1 = expected_kinds)) (SystemKindsMismatch (sb_table b));
  Ok expected.

(** ** [validate_stored_projection] *)

(** The size of the set of names equals the number of columns. *)
Definition names_distinct (l : list string) : bool :=
  bool_decide (size (list_to_set l : gset string) = length l).

(** One turn of the loop over the discovered system columns. *)
Definition check_discovered_system (incoming : DatasetSchema) (kinds : gset SystemColumnKind)
    (s : DiscoveredSystemColumn) : result DeliveryError (gset SystemColumnKind) :=
  _ ← ensure (bool_decide (dsc_kind s ∉ kinds)) (RepeatedDiscoveredKind (dsc_kind s));
  _ ← ensure (match filter (λ c, name c = dsc_name s) incoming with
              | [c] => bool_decide (data_type c = system_data_type (dsc_kind s)) && negb (nullable c)
              | _ => false
              end) (SystemColumnInvalid (dsc_name s));
  Ok ({[ dsc_kind s ]} ∪ kinds).

Definition validate_projection_names_and_system_columns (ds : DiscoveredDataset)
    : result DeliveryError (gset string) :=
  _ ← ensure (names_distinct (name <$> incoming_schema ds)) RepeatedIncomingName;
  _ ← ensure (names_distinct (name <$> stored_schema ds)) RepeatedStoredName;
  _ ← ensure (names_distinct (dsc_name <$> system_columns ds)) RepeatedSystemName;
  _ ← for_each (check_discovered_system (incoming_schema ds)) (system_columns ds) ∅;
  Ok (list_to_set (dsc_name <$> system_columns ds)).

Definition stored_column_matches (stored incoming : SchemaColumn) : bool :=
  bool_decide (name stored = name incoming)
  && bool_decide (data_type stored = data_type incoming)
  && (eqb (nullable stored) (nullable incoming) || (negb (nullable stored) && nullable incoming))
  && eqb (primary_key stored) (primary_key incoming)
  && eqb (always_present_on_update stored) (always_present_on_update incoming)
  && bool_decide (update_value_presence stored = update_value_presence incoming)
  && bool_decide (delete_value_presence stored = delete_value_presence incoming)
  && eqb (low_cardinality stored) (low_cardinality incoming)
  && bool_decide (max_length stored = max_length incoming)
  && bool_decide (arrow_extension_name stored = arrow_extension_name incoming)
  && bool_decide (arrow_extension_metadata stored = arrow_extension_metadata incoming)
  && is_none (old_value_of stored)
  && is_none (old_key_of stored)
  && is_none (system_role stored).

Definition validate_cdc_control_column (control : SchemaColumn) (current_name : string)
    (current : SchemaColumn) : result DeliveryError unit :=
  ensure (xorb (is_some (old_value_of control)) (is_some (old_key_of control))
          && negb (bool_decide (name control = current_name))
          && bool_decide (data_type control = data_type current)
          && bool_decide (arrow_extension_name control = arrow_extension_name current)
          && bool_decide (arrow_extension_metadata control = arrow_extension_metadata current)
          && nullable control
          && negb (primary_key control)
          && negb (low_cardinality control)
          && is_none (max_length control)
          && is_none (system_role control)) (ControlColumnInvalid (name control)).

(** A column that carries a current user value. *)
Definition user_column (system_names : gset string) (c : SchemaColumn) : bool :=
  is_none (old_value_of c) && is_none (old_key_of c) && is_none (system_role c)
  && negb (bool_decide (name c ∈ system_names)).

(** [.map(|column| (name, column)).collect::<HashMap>()] *)
Definition collect_columns (l : list (string * SchemaColumn)) : gmap string SchemaColumn :=
  foldl (λ m nc, <[nc.1 := nc.2]> m) ∅ l.

(** [filter_map(|column| column.<f>.map(|name| (name, column)))] *)
Definition paired_columns (f : SchemaColumn → option string) (l : DatasetSchema)
    : list (string * SchemaColumn) :=
  omap (λ c, (λ n, (n, c)) <$> f c) l.

Definition check_old_value (current : gmap string SchemaColumn) (paired : gset string)
    (nc : string * SchemaColumn) : result DeliveryError (gset string) :=
  let '(current_name, old_column) := nc in
  current_column ← ok_or (current !! current_name) (OldUnknownCurrent (name old_column));
  _ ← ensure (bool_decide (current_name ∉ paired)) (OldRepeated current_name);
  _ ← validate_cdc_control_column old_column current_name current_column;
  Ok ({[ current_name ]} ∪ paired).

Definition check_old_key (current : gmap string SchemaColumn) (paired : gset string)
    (nc : string * SchemaColumn) : result DeliveryError (gset string) :=
  let '(current_name, old_column) := nc in
  current_column ← ok_or (current !! current_name) (OldKeyUnknownCurrent (name old_column));
  _ ← ensure (primary_key current_column && bool_decide (current_name ∉ paired))
             (OldKeyInvalid current_name);
  _ ← validate_cdc_control_column old_column current_name current_column;
  Ok ({[ current_name ]} ∪ paired).

Definition validate_cdc_control_columns (ds : DiscoveredDataset) (changelog_input : bool)
    (system_names : gset string) : result DeliveryError unit :=
  let current := collect_columns ((λ c, (name c, c)) <$>
    filter (λ c, user_column system_names c = true) (incoming_schema ds)) in
  let old := paired_columns old_value_of (incoming_schema ds) in
  let has_old_values := negb (bool_decide (length old = 0%nat)) in
  _ ← (if has_old_values then
         _ ← ensure changelog_input OldWithoutChangelog;
         _ ← ensure (bool_decide (length old = size current)) OldCountMismatch;
         paired ← for_each (check_old_value current) old ∅;
         ensure (bool_decide (size paired = size current)) OldIncomplete
       else Ok tt);
  let old_keys := paired_columns old_key_of (incoming_schema ds) in
  if negb (bool_decide (length old_keys = 0%nat)) then
    _ ← ensure (changelog_input && negb has_old_values) OldKeysMixed;
    let primary_keys : gset string :=
      list_to_set (name ∘ snd <$> filter (λ nc, primary_key nc.2 = true) (map_to_list current)) in
    _ ← ensure (bool_decide (length old_keys = size primary_keys)) OldKeyCountMismatch;
    paired ← for_each (check_old_key current) old_keys ∅;
    ensure (bool_decide (paired = primary_keys)) OldKeysIncomplete
  else Ok tt.

Definition changelog_input (ds : DiscoveredDataset) : bool :=
  existsb (λ c, bool_decide (dsc_kind c = OperationColumn)) (system_columns ds).

(** The filter of the expected projection. *)
Definition stored_at_discovery (keep : bool) (ds : DiscoveredDataset) (system_names : gset string)
    (c : SchemaColumn) : bool :=
  let system := find (λ s, bool_decide (dsc_name s = name c)) (system_columns ds) in
  is_none (old_value_of c) && is_none (old_key_of c) && is_none (system_role c)
  && negb (match system with Some s => control_kind (dsc_kind s) | None => false end)
  && (keep || negb (bool_decide (name c ∈ system_names))).

(** The final check: the stored schema is the incoming one after the projection. *)
Definition stored_projection_exact (keep : bool) (ds : DiscoveredDataset) (system_names : gset string)
    : bool :=
  let expected := filter (λ c, stored_at_discovery keep ds system_names c = true) (incoming_schema ds) in
  bool_decide (length (stored_schema ds) = length expected)
  && forallb (λ sc, stored_column_matches sc.1 sc.2) (zip (stored_schema ds) expected).

Definition has_version_role (c : SchemaColumn) : bool :=
  bool_decide (system_role c = Some SYSTEM_ROLE_SOURCE_VERSION).

(** One turn of the loop over the stored keys under [FullImageUpsert]. *)
Definition check_full_image_key (ds : DiscoveredDataset) (_ : unit) (key : SchemaColumn)
    : result DeliveryError unit :=
  ensure (existsb (λ c, bool_decide (old_value_of c = Some (name key))
                       || bool_decide (old_key_of c = Some (name key))) (incoming_schema ds))
         (FullImageNeedsOldKey (name key)).

Definition validate_stored_projection (d : DeliveryDiscovery) (ds : DiscoveredDataset)
    : result DeliveryError unit :=
  system_names ← validate_projection_names_and_system_columns ds;
  _ ← validate_cdc_control_columns ds (changelog_input ds) system_names;
  _ ← (if bool_decide (update_policy ds = FullImageUpsert) then
         _ ← ensure (changelog_input ds && existsb primary_key (stored_schema ds)) FullImageNeedsKeys;
         for_each (check_full_image_key ds) (filter (λ c, primary_key c = true) (stored_schema ds)) tt
       else Ok tt);
  let versions := filter (λ c, has_version_role c = true) (incoming_schema ds) in
  _ ← match versions with
      | [] => Ok tt
      | c :: _ =>
          ensure (changelog_input ds && bool_decide (data_type c = UInt64) && negb (nullable c))
                 VersionInvalid
      end;
  _ ← ensure (bool_decide (length versions ≤ 1)%nat) MultipleVersions;
  ensure (stored_projection_exact (keep_system_columns d) ds system_names) StoredProjectionMismatch.
End delivery.

(** ** Topology *)
Section topology.
Import SourceTopology.

Lemma check_partitions_spec ps u :
  (∃ u', for_each check_partition ps u = Ok u') ↔
  Forall (λ p, 0 ≤ p) ps ∧ NoDup ps ∧ Forall (λ p, p ∉ u) ps.
Proof.
  revert u. induction ps as [|p ps IH]; intros u; cbn [for_each].
  { split; [by repeat constructor|eauto]. }
  rewrite !Forall_cons, NoDup_cons.
  destruct (check_partition u p) as [u'|e] eqn:E; unfold check_partition in E; cbn [mbind result_bind].
  - res_inv. bool_inv. split.
    + intros Hr%IH. clear IH. rewrite !Forall_forall in *. set_solver.
    + intros Hr. apply IH. clear IH. rewrite !Forall_forall in *. set_solver.
  - split; [by intros [? ?]|]. intros ((? & _) & _ & ? & _).
    by rewrite !bool_decide_eq_true_2 in E.
Qed.

Lemma validate_spec t :
  validate t = Ok tt ↔
  match static_partitions t with
  | None => True
  | Some ps => ps ≠ [] ∧ Forall (λ p, 0 ≤ p) ps ∧ NoDup ps
  end.
Proof.
  unfold validate. destruct (static_partitions t) as [ps|]; [|done].
  destruct (decide (ps = [])) as [->|Hne]; [split; [done|by intros [? _]]|].
  rewrite bool_decide_eq_false_2 by done. cbn.
  pose proof (check_partitions_spec ps ∅) as Hs.
  destruct (for_each check_partition ps ∅) as [u|e]; cbn.
  - split; [|done]. intros _. split; [done|]. destruct Hs as [Hs _].
    destruct Hs as (? & ? & _); [eauto|done].
  - split; [done|]. intros (_ & ? & ?). destruct Hs as [_ Hs]. destruct Hs as [? ?]; [|done].
    split_and!; [done..|]. apply Forall_forall. set_solver.
Qed.

(** The partitions worker [w] of [total] reads, [] when the call fails. *)
Definition assignment (t : SourceTopology) (total w : Z) : list Z :=
  match partitions_for_worker t total w with Ok l => l | Err _ => [] end.

(** What the workers must read together. *)
Definition all_partitions (t : SourceTopology) (total : Z) : list Z :=
  default (seqZ 0 total) (static_partitions t).

Lemma partitions_ok t total w :
  validate t = Ok tt → 0 ≤ w < total → partitions_for_worker t total w = Ok (assignment t total w).
Proof.
  intros Hv Hw. unfold assignment, partitions_for_worker.
  rewrite (bool_decide_eq_true_2 (0 < total)), (bool_decide_eq_true_2 (w < total)) by lia.
  cbn. by rewrite Hv.
Qed.

Lemma assignment_eq t total w :
  validate t = Ok tt → 0 ≤ w < total →
  assignment t total w =
  match t with
  | StaticPartitions ps => filter (λ p, assigned_to total w p = true) ps
  | CoLocatedStaticPartitions ps => if bool_decide (w = 0) then ps else []
  | DynamicWorkerLanes => [w]
  end.
Proof.
  intros Hv Hw. unfold assignment, partitions_for_worker.
  rewrite (bool_decide_eq_true_2 (0 < total)), (bool_decide_eq_true_2 (w < total)) by lia.
  cbn. by rewrite Hv.
Qed.

Lemma elem_of_assignment t total w p :
  validate t = Ok tt → 0 ≤ w < total →
  p ∈ assignment t total w ↔ p ∈ all_partitions t total ∧
    match t with
    | StaticPartitions _ => p `mod` total = w
    | CoLocatedStaticPartitions _ => w = 0
    | DynamicWorkerLanes => p = w
    end.
Proof.
  intros Hv Hw. rewrite assignment_eq by done. unfold all_partitions.
  destruct t as [ps|ps|]; cbn.
  - apply validate_spec in Hv as (_ & Hp & _). cbn in Hp. rewrite Forall_forall in Hp.
    rewrite list_elem_of_filter. unfold assigned_to. rewrite andb_true_iff, !bool_decide_eq_true.
    naive_solver.
  - case_bool_decide; set_solver.
  - rewrite list_elem_of_singleton, elem_of_seqZ. naive_solver lia.
Qed.

Lemma NoDup_all_partitions t total : validate t = Ok tt → NoDup (all_partitions t total).
Proof.
  unfold all_partitions. intros Hv%validate_spec.
  destruct (static_partitions t); cbn; [tauto|apply NoDup_seqZ].
Qed.

Lemma NoDup_assignment t total w : validate t = Ok tt → 0 ≤ w < total → NoDup (assignment t total w).
Proof.
  intros Hv Hw. rewrite assignment_eq by done. apply validate_spec in Hv.
  destruct t; cbn in *; [apply NoDup_filter; tauto|case_bool_decide; [tauto|constructor]|apply NoDup_singleton].
Qed.

(** every partition is read by exactly one worker.  A topology validates exactly
    when its partitions are a non-empty duplicate-free list of non-negative numbers;
    then every worker index below the worker count gets an assignment, and the
    assignments of all workers together are the partitions of the source, each once. *)
Theorem partition_assignment_exact t total :
  (validate t = Ok tt ↔
   match static_partitions t with
   | None => True | Some ps => ps ≠ [] ∧ Forall (λ p, 0 ≤ p) ps ∧ NoDup ps end) ∧
  (validate t = Ok tt → 0 < total →
   (∀ w, 0 ≤ w < total → is_ok (partitions_for_worker t total w) = true) ∧
   seqZ 0 total ≫= assignment t total ≡ₚ all_partitions t total ∧
   NoDup (seqZ 0 total ≫= assignment t total)).
Proof.
  split; [apply validate_spec|]. intros Hv Ht. split.
  { intros w Hw. by rewrite partitions_ok. }
  assert (NoDup (seqZ 0 total ≫= assignment t total)) as Hnd.
  { apply NoDup_bind; [| |apply NoDup_seqZ].
    - intros w1 w2 p ?%elem_of_seqZ ?%elem_of_seqZ.
      rewrite !elem_of_assignment by (done || lia). destruct t; naive_solver lia.
    - intros w ?%elem_of_seqZ. apply NoDup_assignment; [done|lia]. }
  split; [|done]. apply NoDup_Permutation; [done|by apply NoDup_all_partitions|].
  intros p. rewrite list_elem_of_bind. split.
  - intros (w & Hp & ?%elem_of_seqZ). by apply elem_of_assignment in Hp as [? _]; [|done|lia].
  - intros Hp. destruct t as [ps|ps|].
    + exists (p `mod` total). rewrite elem_of_seqZ. pose proof (Z.mod_pos_bound p total).
      rewrite elem_of_assignment by (done || lia). naive_solver lia.
    + exists 0. rewrite elem_of_seqZ, elem_of_assignment by (done || lia). naive_solver lia.
    + exists p. unfold all_partitions in Hp. cbn in Hp. rewrite elem_of_seqZ in Hp |- *.
      rewrite elem_of_assignment by (done || lia). unfold all_partitions. cbn.
      rewrite elem_of_seqZ. naive_solver lia.
Qed.
End topology.

(** ** Finding and pairing *)
Lemma find_Some {A} (p : A → bool) l x : find p l = Some x → x ∈ l ∧ p x = true.
Proof.
  induction l as [|y l IH]; cbn; [done|]. destruct (p y) eqn:E.
  - intros [= <-]. by split; [left|].
  - intros [? ?]%IH. by split; [right|].
Qed.

Lemma find_None {A} (p : A → bool) l x : find p l = None → x ∈ l → p x = false.
Proof.
  induction l as [|y l IH]; cbn; [by intros _ ?%not_elem_of_nil|]. destruct (p y) eqn:E; [done|].
  intros Hf [->|?]%elem_of_cons; [done|by apply IH].
Qed.

Lemma find_fmap {A B} (f : A → B) (p : B → bool) l : find p (f <$> l) = f <$> find (λ x, p (f x)) l.
Proof. induction l as [|x l IH]; cbn; [done|]. by destruct (p (f x)). Qed.

Lemma size_list_to_set_le (l : list string) : (size (list_to_set l : gset string) ≤ length l)%nat.
Proof.
  induction l as [|x l IH]; [done|]. rewrite list_to_set_cons, size_union_alt, size_singleton. cbn.
  assert (size (list_to_set l ∖ {[x]} : gset string) ≤ size (list_to_set l : gset string))%nat; [|lia].
  apply subseteq_size. set_solver.
Qed.

Lemma forallb_zip_Forall2 {A B} (f : A * B → bool) (l : list A) (k : list B) :
  length l = length k → forallb f (zip l k) = true → Forall2 (λ a b, f (a, b) = true) l k.
Proof.
  revert k. induction l as [|a l IH]; intros [|b k] Hlen Hf; try done.
  cbn in Hf. apply andb_true_iff in Hf as [? ?]. constructor; [done|]. apply IH; [by injection Hlen|done].
Qed.

Lemma names_distinct_spec l : names_distinct l = true ↔ NoDup l.
Proof.
  unfold names_distinct. rewrite bool_decide_eq_true. induction l as [|x l IH]; [split; [constructor|done]|].
  rewrite NoDup_cons, list_to_set_cons. cbn [length]. destruct (decide (x ∈ l)) as [Hx|Hx].
  - split; [|tauto]. intros Hs. exfalso.
    rewrite subseteq_union_1_L in Hs by set_solver.
    pose proof (size_list_to_set_le l). lia.
  - rewrite size_union, size_singleton by set_solver. rewrite <-IH. split; [intros; split; [done|lia]|lia].
Qed.

Section contract.
Context `{ArrowTypes, ArrowValues}.
Implicit Types (c o : SchemaColumn) (ds : DiscoveredDataset).

(** A stored column is a current user value or a kept, non-control system column. *)
Record storable (keep : bool) ds c : Prop := {
  st_value : old_value_of c = None;
  st_key : old_key_of c = None;
  st_role : system_role c = None;
  st_system : ∀ s, s ∈ system_columns ds → dsc_name s = name c →
    keep = true ∧ (NoDup (dsc_name <$> system_columns ds) → control_kind (dsc_kind s) = false)
}.

Lemma is_none_true {A} (x : option A) : is_none x = true ↔ x = None.
Proof. by destruct x. Qed.

Lemma stored_at_discovery_storable keep ds c :
  stored_at_discovery keep ds (list_to_set (dsc_name <$> system_columns ds)) c = true → storable keep ds c.
Proof.
  unfold stored_at_discovery. intros Hs. bool_inv.
  repeat match goal with Hx : is_none _ = true |- _ => apply is_none_true in Hx end.
  split; [done..|]. intros s Hin Hn.
  match goal with Hx : keep || _ = true |- _ => rewrite orb_true_iff, negb_true_iff, bool_decide_eq_false in Hx;
    rename Hx into Hkeep end.
  assert (keep = true) as ->.
  { destruct Hkeep as [|Hni]; [done|]. destruct Hni. rewrite <-Hn. apply elem_of_list_to_set.
    by apply list_elem_of_fmap_2. }
  split; [done|]. intros Hnd.
  destruct (find _ (system_columns ds)) as [s'|] eqn:E.
  - apply find_Some in E as [Hs' He]. bool_inv.
    assert (s' = s) as ->; [|done].
    apply list_elem_of_lookup in Hs' as [i Hi]. apply list_elem_of_lookup in Hin as [j Hj].
    assert (i = j) as ->; [|congruence]. apply (NoDup_lookup _ i j (name c) Hnd);
      rewrite list_lookup_fmap, ?Hi, ?Hj; cbn; congruence.
  - apply (find_None _ _ s) in E; [|done]. cbn in E. by bool_inv.
Qed.

Lemma stored_column_matches_refl c :
  old_value_of c = None → old_key_of c = None → system_role c = None → stored_column_matches c c = true.
Proof.
  intros Hv Hk Hr. unfold stored_column_matches. rewrite Hv, Hk, Hr, !eqb_reflx. cbn.
  by rewrite !bool_decide_eq_true_2.
Qed.

(** Both filters select the same columns. *)
Lemma stored_filters_agree keep (b : SinkBatch) ds c :
  system_columns ds = (λ x, {| dsc_kind := sys_kind x; dsc_name := sys_name x |}) <$> sb_system_columns b →
  stored_at_sink keep (sb_system_columns b) c =
  stored_at_discovery keep ds (list_to_set (dsc_name <$> system_columns ds)) c.
Proof.
  intros Hsys. unfold stored_at_sink, stored_at_discovery. rewrite Hsys, find_fmap, <-list_fmap_compose. cbn.
  unfold is_some. destruct (system_role c), (old_value_of c), (old_key_of c); cbn; try done.
  destruct (find _ (sb_system_columns b)) as [s|] eqn:E; cbn.
  - apply find_Some in E as [Hin He]. cbn in He. bool_inv.
    rewrite bool_decide_eq_true_2; [by rewrite orb_false_r, andb_comm|].
    apply elem_of_list_to_set, list_elem_of_fmap. by exists s.
  - rewrite bool_decide_eq_false_2; [by rewrite orb_true_r|].
    intros (s & Hn & Hs)%elem_of_list_to_set%list_elem_of_fmap.
    apply (find_None _ _ s) in E; [|done]. cbn in E, Hn. bool_inv. by rewrite Hn in E.
Qed.

(** The dataset a sink derives from a batch stores the right columns.  When
    [SinkBatch::dataset] accepts a batch, its incoming schema is the decoded Arrow
    schema of the batch, its stored schema passes the final projection check of
    [validate_stored_projection], and no stored column is an old value, an old key, a
    system-role column, an operation or a change mask. *)
Theorem sink_batch_dataset_projection (b : SinkBatch) keep ds :
  sink_batch_dataset b keep = Ok ds →
  (∃ s, from_arrow (rb_schema (sb_batch b)) = Ok s ∧ schema_eqb s (incoming_schema ds) = true) ∧
  stored_projection_exact keep ds (list_to_set (dsc_name <$> system_columns ds)) = true ∧
  Forall (storable keep ds) (stored_schema ds).
Proof.
  intros Hds. unfold sink_batch_dataset in Hds. res_inv.
  split. { destruct (from_arrow _) as [s'|]; [|done]. cbn in E. res_inv. by exists a. }
  set (d := Build_DiscoveredDataset _ _ _ _ _ _ _).
  assert (∀ c, stored_at_sink keep (sb_system_columns b) c =
    stored_at_discovery keep d (list_to_set (dsc_name <$> system_columns d)) c) as Hf
    by (intros c; by apply stored_filters_agree).
  assert (Forall (storable keep d) (stored_schema d)) as Hst.
  { apply Forall_forall. intros c [Hc _]%list_elem_of_filter. rewrite Hf in Hc.
    by apply stored_at_discovery_storable. }
  split; [|done]. unfold stored_projection_exact.
  assert (filter (λ c, stored_at_discovery keep d (list_to_set (dsc_name <$> system_columns d)) c = true)
    (incoming_schema d) = stored_schema d) as ->.
  { apply list_filter_iff. intros c. by rewrite Hf. }
  rewrite bool_decide_eq_true_2 by done. cbn [andb].
  induction Hst as [|c l [] _ IH]; [done|]. cbn. by rewrite stored_column_matches_refl.
Qed.

(** ** The pairing of control columns *)

(** A loop that inserts each name once and checks each pair. *)
Lemma paired_loop (f : gset string → string * SchemaColumn → result DeliveryError (gset string))
    (Q : string → SchemaColumn → Prop) l p p' :
  (∀ p n o p', f p (n, o) = Ok p' → (n ∉ p) ∧ p' = {[ n ]} ∪ p ∧ Q n o) →
  for_each f l p = Ok p' →
  NoDup l.*1 ∧ (∀ n, n ∈ l.*1 → n ∉ p) ∧ p' = list_to_set l.*1 ∪ p ∧ Forall (λ no, Q no.1 no.2) l.
Proof.
  intros Hf. revert p. induction l as [|[n o] l IH]; intros p Hr; cbn [for_each] in Hr.
  - res_inv. split_and!; [constructor|by intros n ?%not_elem_of_nil|set_solver|constructor].
  - res_inv. apply Hf in E as (Hn & -> & HQ). destruct (IH _ Hr) as (Hnd & Hdis & -> & HF).
    clear IH Hr. cbn [fmap list_fmap]. split_and!.
    + apply NoDup_cons. split; [|done]. intros Hin. apply Hdis in Hin. set_solver.
    + intros m [->|Hm]%elem_of_cons; [done|]. apply Hdis in Hm. set_solver.
    + set_solver.
    + by constructor.
Qed.

(** What [validate_cdc_control_column] guarantees of a pair. *)
Definition control_pair (current : gmap string SchemaColumn) (n : string) o : Prop :=
  ∃ c, current !! n = Some c ∧ data_type o = data_type c ∧
    arrow_extension_name o = arrow_extension_name c ∧
    arrow_extension_metadata o = arrow_extension_metadata c ∧
    nullable o = true ∧ primary_key o = false ∧ max_length o = None ∧ name o ≠ n.

Lemma control_column_ok o n c (u : unit) current :
  current !! n = Some c → validate_cdc_control_column o n c = Ok u → control_pair current n o.
Proof.
  intros Hc Hv. unfold validate_cdc_control_column in Hv. res_inv. bool_inv.
  exists c. split_and!; try done. by apply is_none_true.
Qed.

Lemma check_old_value_ok current p n o p' :
  check_old_value current p (n, o) = Ok p' →
  (n ∉ p) ∧ p' = {[ n ]} ∪ p ∧ control_pair current n o.
Proof.
  intros Hr. cbn in Hr. res_inv. bool_inv. split_and!; [done..|]. by eapply control_column_ok.
Qed.

Lemma check_old_key_ok current p n o p' :
  check_old_key current p (n, o) = Ok p' →
  (n ∉ p) ∧ p' = {[ n ]} ∪ p ∧ control_pair current n o.
Proof.
  intros Hr. cbn in Hr. res_inv. bool_inv. split_and!; [done..|]. by eapply control_column_ok.
Qed.

(** The map of current columns. *)
Definition current_columns (system_names : gset string) (l : DatasetSchema) : gmap string SchemaColumn :=
  collect_columns ((λ c, (name c, c)) <$> filter (λ c, user_column system_names c = true) l).

Lemma collect_columns_spec l n c :
  NoDup l.*1 → collect_columns l !! n = Some c ↔ (n, c) ∈ l.
Proof.
  unfold collect_columns. intros Hnd.
  cut (∀ m : gmap string SchemaColumn, (∀ k, k ∈ l.*1 → m !! k = None) →
    foldl (λ m nc, <[nc.1 := nc.2]> m) m l !! n = Some c ↔ (n, c) ∈ l ∨ m !! n = Some c).
  { intros Hc. rewrite Hc by (intros; apply lookup_empty). rewrite lookup_empty. naive_solver. }
  induction l as [|[k x] l IH]; intros m Hm; cbn; [set_solver|].
  apply NoDup_cons in Hnd as [Hk Hnd]. cbn in Hk, Hm. rewrite IH; [|done|].
  - rewrite elem_of_cons. destruct (decide (k = n)) as [->|Hne].
    + rewrite lookup_insert_eq. assert (m !! n = None) by (apply Hm; left). naive_solver.
    + rewrite lookup_insert_ne by done. naive_solver.
  - intros k' Hk'. rewrite lookup_insert_ne by (by intros ->). apply Hm. by right.
Qed.

Lemma current_columns_spec names l n c :
  NoDup (name <$> l) →
  current_columns names l !! n = Some c ↔ c ∈ l ∧ user_column names c = true ∧ name c = n.
Proof.
  intros Hnd. unfold current_columns. rewrite collect_columns_spec.
  - rewrite list_elem_of_fmap. setoid_rewrite list_elem_of_filter. naive_solver.
  - rewrite <-list_fmap_compose. change (fst ∘ _) with name.
    eapply sublist_NoDup; [exact Hnd|]. apply fmap_sublist, sublist_filter.
Qed.

Lemma paired_columns_fst f l : (paired_columns f l).*1 = omap f l.
Proof.
  unfold paired_columns. induction l as [|c l IH]; cbn; [done|].
  destruct (f c); cbn; [by rewrite IH|done].
Qed.

Lemma elem_of_paired_columns f l n o : (n, o) ∈ paired_columns f l ↔ o ∈ l ∧ f o = Some n.
Proof.
  unfold paired_columns. rewrite list_elem_of_omap. split.
  - intros (c & Hc & He). destruct (f c) eqn:E; [|done]. cbn in He. by simplify_eq.
  - intros [Ho He]. exists o. by rewrite He.
Qed.

(** A duplicate-free list of keys of a map, as long as the map, lists all of them. *)
Lemma keys_complete {A} (m : gmap string A) (l : list string) :
  NoDup l → (∀ n, n ∈ l → is_Some (m !! n)) → length l = size m → ∀ n, is_Some (m !! n) → n ∈ l.
Proof.
  intros Hnd Hin Hlen n Hn.
  assert (list_to_set l = dom m) as He.
  { apply set_subseteq_size_eq.
    - intros k Hk%elem_of_list_to_set. by apply elem_of_dom, Hin.
    - rewrite size_dom, size_list_to_set by done. lia. }
  apply (elem_of_list_to_set (C:=gset string)). rewrite He. by apply elem_of_dom.
Qed.

(** The old-value or old-key columns are in bijection with the columns [wanted] of the
    incoming schema: each names one, each wanted column is named exactly once, by a
    nullable control column of its exact type. *)
Record paired_exactly (f : SchemaColumn → option string) (wanted : SchemaColumn → Prop)
    (l : DatasetSchema) : Prop := {
  pe_unique : NoDup (omap f l);
  pe_sound : ∀ o n, o ∈ l → f o = Some n → ∃ c, c ∈ l ∧ wanted c ∧ name c = n ∧
    data_type o = data_type c ∧ nullable o = true ∧ primary_key o = false;
  pe_complete : ∀ c, c ∈ l → wanted c → ∃ o, o ∈ l ∧ f o = Some (name c)
}.

(** The columns that carry current values. *)
Definition system_names_of ds : gset string := list_to_set (dsc_name <$> system_columns ds).
Definition current_column ds c : Prop := user_column (system_names_of ds) c = true.

Record projection_contract (keep : bool) ds : Prop := {
  pc_incoming : NoDup (name <$> incoming_schema ds);
  pc_stored_names : NoDup (name <$> stored_schema ds);
  pc_system : NoDup (dsc_name <$> system_columns ds) ∧ NoDup (dsc_kind <$> system_columns ds) ∧
    ∀ s, s ∈ system_columns ds → ∃ c, c ∈ incoming_schema ds ∧ name c = dsc_name s ∧
      data_type c = system_data_type (dsc_kind s) ∧ nullable c = false;
  pc_old_values : (∃ o, o ∈ incoming_schema ds ∧ is_Some (old_value_of o)) →
    changelog_input ds = true ∧
    paired_exactly old_value_of (current_column ds) (incoming_schema ds);
  pc_old_keys : (∃ o, o ∈ incoming_schema ds ∧ is_Some (old_key_of o)) →
    changelog_input ds = true ∧ (∀ o, o ∈ incoming_schema ds → old_value_of o = None) ∧
    paired_exactly old_key_of (λ c, current_column ds c ∧ primary_key c = true) (incoming_schema ds);
  pc_version : ∀ c, c ∈ incoming_schema ds → system_role c = Some SYSTEM_ROLE_SOURCE_VERSION →
    data_type c = UInt64 ∧ nullable c = false;
  pc_stored : ∃ l, sublist l (incoming_schema ds) ∧ Forall (storable keep ds) l ∧
    Forall2 (λ s c, stored_column_matches s c = true) (stored_schema ds) l
}.

Lemma system_loop incoming l kinds kinds' :
  for_each (check_discovered_system incoming) l kinds = Ok kinds' →
  NoDup (dsc_kind <$> l) ∧ (∀ s, s ∈ l → dsc_kind s ∉ kinds) ∧
  ∀ s, s ∈ l → ∃ c, c ∈ incoming ∧ name c = dsc_name s ∧
    data_type c = system_data_type (dsc_kind s) ∧ nullable c = false.
Proof.
  revert kinds. induction l as [|s l IH]; intros kinds Hr; cbn [for_each] in Hr.
  { split_and!; [constructor|by intros ? ?%not_elem_of_nil..]. }
  res_inv. unfold check_discovered_system in E. res_inv. bool_inv.
  destruct (IH _ Hr) as (Hnd & Hdis & Hc). clear IH Hr. split_and!.
  - apply NoDup_cons. split; [|done]. intros (s' & Hk & Hs')%list_elem_of_fmap.
    apply Hdis in Hs'. set_solver.
  - intros s' [->|Hs']%elem_of_cons; [done|]. apply Hdis in Hs'. set_solver.
  - intros s' [->|Hs']%elem_of_cons; [|by apply Hc].
    destruct (filter _ incoming) as [|c [|]] eqn:Ef; try done. bool_inv.
    assert (c ∈ filter (λ c, name c = dsc_name s) incoming) as [Hn Hin]%list_elem_of_filter
      by (rewrite Ef; left).
    by exists c.
Qed.

Lemma filter_nonempty f l : (∃ o, o ∈ l ∧ is_Some (f o)) ↔ length (paired_columns f l) ≠ 0%nat.
Proof.
  split.
  - intros (o & Ho & n & Hn) Hlen. apply nil_length_inv in Hlen.
    assert ((n, o) ∈ paired_columns f l) as Hin by (by apply elem_of_paired_columns).
    rewrite Hlen in Hin. by apply not_elem_of_nil in Hin.
  - intros Hlen. destruct (paired_columns f l) as [|[n o] r] eqn:E; [done|].
    assert ((n, o) ∈ paired_columns f l) as [? ?]%elem_of_paired_columns by (rewrite E; left). eauto.
Qed.

(** From a finished loop to the bijection. *)
Lemma paired_exactly_intro f (P : SchemaColumn → bool) names l :
  NoDup (name <$> l) → NoDup (paired_columns f l).*1 →
  Forall (λ no, control_pair (current_columns names l) no.1 no.2) (paired_columns f l) →
  (∀ n c, n ∈ omap f l → current_columns names l !! n = Some c → P c = true) →
  (∀ n c, current_columns names l !! n = Some c → P c = true → n ∈ omap f l) →
  paired_exactly f (λ c, user_column names c = true ∧ P c = true) l.
Proof.
  intros Hnd Hp HF HP Hall. rewrite paired_columns_fst in Hp. split; [done|..].
  - intros o n Ho Hn. rewrite Forall_forall in HF.
    destruct (HF (n, o)) as (c & Hc & Ht & _ & _ & Hnull & Hpk & _);
      [by apply elem_of_paired_columns|]. cbn in *.
    assert (P c = true).
    { apply (HP n); [|done]. apply list_elem_of_omap. eauto. }
    apply current_columns_spec in Hc as (Hin & Hu & Hname); [|done]. by exists c.
  - intros c Hc [Hu HPc]. assert (current_columns names l !! name c = Some c) as Hl
      by (by apply current_columns_spec).
    apply Hall in Hl as (o & Ho & Hn)%list_elem_of_omap; [|done]. by exists o.
Qed.

Lemma paired_exactly_ext f (W W' : SchemaColumn → Prop) l :
  (∀ c, W c ↔ W' c) → paired_exactly f W l → paired_exactly f W' l.
Proof.
  intros HW [H1 H2 H3]. split; [done| |].
  - intros o n Ho Hn. destruct (H2 o n Ho Hn) as (c & ? & ?%HW & ?). by exists c.
  - intros c Hc Hw%HW. by apply H3.
Qed.

(** The names of the primary keys among the current columns. *)
Lemma primary_key_names names l n :
  NoDup (name <$> l) →
  n ∈ (list_to_set (name ∘ snd <$>
    filter (λ nc : string * SchemaColumn, primary_key nc.2 = true)
      (map_to_list (current_columns names l))) : gset string) ↔
  ∃ c, current_columns names l !! n = Some c ∧ primary_key c = true.
Proof.
  intros Hnd. rewrite elem_of_list_to_set, list_elem_of_fmap. split.
  - intros ([k c] & -> & [Hpk Hin%elem_of_map_to_list]%list_elem_of_filter). cbn in *.
    assert (name c = k) as -> by (by apply current_columns_spec in Hin as (_ & _ & ?)). eauto.
  - intros (c & Hc & Hpk). exists (n, c). cbn.
    split; [by apply current_columns_spec in Hc as (_ & _ & ?)|].
    apply list_elem_of_filter. split; [done|]. by apply elem_of_map_to_list.
Qed.

Lemma cdc_old_values ds (u : unit) :
  NoDup (name <$> incoming_schema ds) →
  validate_cdc_control_columns ds (changelog_input ds) (system_names_of ds) = Ok u →
  (∃ o, o ∈ incoming_schema ds ∧ is_Some (old_value_of o)) →
  changelog_input ds = true ∧ paired_exactly old_value_of (current_column ds) (incoming_schema ds).
Proof.
  intros Hnd Hv Hex%filter_nonempty. unfold validate_cdc_control_columns in Hv.
  fold (current_columns (system_names_of ds) (incoming_schema ds)) in Hv.
  rewrite (bool_decide_eq_false_2 _ Hex) in Hv. cbn [negb] in Hv. apply bind_Ok in Hv as (? & Hv & _).
  res_inv. bool_inv. split; [done|].
  match goal with Hl : for_each _ _ _ = Ok _ |- _ =>
    destruct (paired_loop _ _ _ _ _ (check_old_value_ok _) Hl) as (Hu & _ & _ & Hpair) end.
  apply (paired_exactly_ext _ (λ c, user_column (system_names_of ds) c = true ∧ (λ _, true) c = true));
    [by intros; unfold current_column; tauto|].
  apply paired_exactly_intro; [done..|]. intros n c Hc _. rewrite <-paired_columns_fst.
  eapply keys_complete; [exact Hu| | |by rewrite Hc].
  - intros k ([k' o] & -> & Hin)%list_elem_of_fmap. rewrite Forall_forall in Hpair.
    destruct (Hpair _ Hin) as (c' & Hc' & _). by rewrite Hc'.
  - rewrite length_fmap. done.
Qed.

Lemma cdc_old_keys ds (u : unit) :
  NoDup (name <$> incoming_schema ds) →
  validate_cdc_control_columns ds (changelog_input ds) (system_names_of ds) = Ok u →
  (∃ o, o ∈ incoming_schema ds ∧ is_Some (old_key_of o)) →
  changelog_input ds = true ∧ (∀ o, o ∈ incoming_schema ds → old_value_of o = None) ∧
  paired_exactly old_key_of (λ c, current_column ds c ∧ primary_key c = true) (incoming_schema ds).
Proof.
  intros Hnd Hv Hex%filter_nonempty. unfold validate_cdc_control_columns in Hv.
  fold (current_columns (system_names_of ds) (incoming_schema ds)) in Hv.
  apply bind_Ok in Hv as (? & _ & Hv).
  rewrite (bool_decide_eq_false_2 _ Hex) in Hv. cbn [negb] in Hv. res_inv. bool_inv.
  match goal with Hl : for_each _ _ _ = Ok _ |- _ =>
    destruct (paired_loop _ _ _ _ _ (check_old_key_ok _) Hl) as (Hu & _ & Hp & Hpair) end.
  match goal with Hx : _ = list_to_set _ |- _ => rewrite Hx in Hp; clear Hx end.
  rewrite paired_columns_fst in Hp.
  assert (∀ n, n ∈ omap old_key_of (incoming_schema ds) ↔
    ∃ c, current_columns (system_names_of ds) (incoming_schema ds) !! n = Some c ∧ primary_key c = true)
    as Hkeys.
  { intros n. rewrite <-primary_key_names by done. rewrite Hp, union_empty_r_L.
    by rewrite elem_of_list_to_set. }
  split_and!; [done| |].
  - intros o Ho. destruct (old_value_of o) as [n|] eqn:Eo; [|done]. exfalso.
    match goal with Hx : length (paired_columns old_value_of _) = 0%nat |- _ =>
      revert Hx; apply filter_nonempty end. exists o. by rewrite Eo.
  - apply paired_exactly_intro; [done..| |].
    + intros n c (c' & Hc' & ?)%Hkeys Hc. congruence.
    + intros n c Hc Hpk. apply Hkeys. eauto.
Qed.

Lemma stored_projection_contract keep ds :
  stored_projection_exact keep ds (system_names_of ds) = true →
  ∃ l, sublist l (incoming_schema ds) ∧ Forall (storable keep ds) l ∧
    Forall2 (λ s c, stored_column_matches s c = true) (stored_schema ds) l.
Proof.
  unfold stored_projection_exact. set (l := filter _ _). intros Hs. bool_inv.
  exists l. split_and!; [apply sublist_filter| |].
  - apply Forall_forall. intros c [Hc _]%list_elem_of_filter. by apply stored_at_discovery_storable.
  - by apply (forallb_zip_Forall2 (λ sc, stored_column_matches sc.1 sc.2)).
Qed.

Lemma stored_projection_holds d ds :
  validate_stored_projection d ds = Ok tt → projection_contract (keep_system_columns d) ds.
Proof.
  intros Hv. unfold validate_stored_projection in Hv. res_inv.
  match goal with Hx : validate_projection_names_and_system_columns ds = Ok _ |- _ =>
    unfold validate_projection_names_and_system_columns in Hx; res_inv end.
  fold (system_names_of ds) in *.
  repeat match goal with Hx : names_distinct _ = true |- _ => apply names_distinct_spec in Hx end.
  match goal with Hx : for_each (check_discovered_system _) _ _ = _ |- _ =>
    apply system_loop in Hx as (? & _ & ?) end.
  split; try done.
  - by eapply cdc_old_values.
  - by eapply cdc_old_keys.
  - intros c Hc Hrole. bool_inv.
    assert (c ∈ filter (λ c, has_version_role c = true) (incoming_schema ds)) as Hin.
    { apply list_elem_of_filter. split; [by apply bool_decide_eq_true|done]. }
    destruct (filter _ (incoming_schema ds)) as [|c1 [|]]; cbn in *; [by apply not_elem_of_nil in Hin| |lia].
    apply list_elem_of_singleton in Hin as ->. res_inv. bool_inv. done.
  - by apply stored_projection_contract.
Qed.

(** [validate_stored_projection] establishes the destination contract.  When it
    accepts a dataset, column names are unique, every system column exists once with
    its type and is not nullable, old-value columns pair off exactly with the current
    columns (old-key columns with the primary keys, never mixed), a version column is
    a non-null [UInt64], and the stored columns are, in order, incoming columns none of
    which is control metadata. *)
Theorem stored_projection_sound d ds :
  validate_stored_projection d ds = Ok tt → projection_contract (keep_system_columns d) ds.
Proof. apply stored_projection_holds. Qed.

(** ** The batch contract *)
Record field_conforms (f : Field) c : Prop := {
  fc_name : f_name f = name c;
  fc_type : f_type f = data_type c;
  fc_nullable : f_nullable f = nullable c;
  fc_metadata : metadata_matches (f_metadata f) c = true
}.

(** A runtime system column points at a field of its name and type. *)
Definition system_conforms (schema : list Field) (s : SystemColumn) : Prop :=
  ∃ f, schema !! sys_index s = Some f ∧ f_name f = sys_name s ∧
    f_type f = system_data_type (sys_kind s).

Record batch_conforms ds (b : SinkBatch) : Prop := {
  bc_schema : schema_eqb (incoming_schema ds) (sb_schema b) = true;
  bc_name : sb_table b = ds_name ds;
  bc_fields : Forall2 field_conforms (rb_schema (sb_batch b)) (incoming_schema ds);
  bc_kinds : NoDup (sys_kind <$> sb_system_columns b);
  bc_indexes : NoDup (sys_index <$> sb_system_columns b);
  bc_system : Forall (system_conforms (rb_schema (sb_batch b))) (sb_system_columns b);
  bc_same_kinds : ∀ k, k ∈ sys_kind <$> sb_system_columns b ↔ k ∈ dsc_kind <$> system_columns ds
}.

Lemma check_field_spec table pos f c :
  (∃ r, check_field table pos (f, c) = Ok r) ↔ field_conforms f c.
Proof.
  unfold check_field. split.
  - intros [r Hr]. res_inv. bool_inv. split; try done. by apply eqb_prop.
  - intros [-> -> -> Hm]. rewrite Hm, !bool_decide_eq_true_2, eqb_reflx by done. cbn. eauto.
Qed.

Lemma check_fields_spec table (fs : list Field) (cs : DatasetSchema) pos :
  length fs = length cs →
  (∃ r, for_each (check_field table) (zip fs cs) pos = Ok r) ↔ Forall2 field_conforms fs cs.
Proof.
  revert cs pos. induction fs as [|f fs IH]; intros [|c cs] pos Hlen; try done.
  { split; [constructor|eauto]. }
  cbn [zip zip_with for_each]. injection Hlen as Hlen. split.
  - intros [r Hr]. res_inv. constructor; [apply (check_field_spec table pos); eauto|].
    apply (IH cs a Hlen). by exists r.
  - intros HF. inversion HF; subst. destruct (proj2 (check_field_spec table pos f c)) as [p Hp]; [done|].
    rewrite Hp. cbn. by apply IH.
Qed.

Lemma check_system_spec schema l ks ix :
  (∃ seen, for_each (check_system_column schema) l (ks, ix) = Ok seen ∧
    seen.1 = list_to_set (sys_kind <$> l) ∪ ks) ↔
  (∃ seen, for_each (check_system_column schema) l (ks, ix) = Ok seen).
Proof.
  split; [by intros (seen & ? & _); eauto|]. intros [seen Hr]. exists seen. split; [done|].
  revert ks ix Hr. induction l as [|s l IH]; intros ks ix Hr; cbn [for_each] in Hr.
  { res_inv. cbn. set_solver. }
  res_inv. unfold check_system_column in E. res_inv. rewrite (IH _ _ Hr). cbn. set_solver.
Qed.

Lemma check_systems_spec schema l ks ix :
  (∃ seen, for_each (check_system_column schema) l (ks, ix) = Ok seen) ↔
  NoDup (sys_kind <$> l) ∧ NoDup (sys_index <$> l) ∧ Forall (system_conforms schema) l ∧
  (∀ s, s ∈ l → (sys_kind s ∉ ks) ∧ (sys_index s ∉ ix)).
Proof.
  revert ks ix. induction l as [|s l IH]; intros ks ix; cbn [for_each].
  { split; [|eauto]. intros _. split_and!; try constructor; by apply not_elem_of_nil in H1. }
  cbn [fmap list_fmap]. rewrite !NoDup_cons, Forall_cons. split.
  - intros [seen Hr]. res_inv. unfold check_system_column in E. res_inv. bool_inv.
    destruct (proj1 (IH ({[sys_kind s]} ∪ ks) ({[sys_index s]} ∪ ix))) as (H5 & H6 & H7 & H8); [eauto|].
    clear IH Hr. split_and!; try done.
    + intros (s' & Hk & Hs')%list_elem_of_fmap. apply H8 in Hs'. set_solver.
    + intros (s' & Hk & Hs')%list_elem_of_fmap. apply H8 in Hs'. set_solver.
    + eexists. split_and!; done.
    + intros s' [->|Hs']%elem_of_cons; [done|]. apply H8 in Hs'. set_solver.
  - intros ([Hk1 Hk2] & [Hi1 Hi2] & [(f & Hf & Hn & Ht) HF] & Hdis).
    destruct (Hdis s) as [Hsk Hsi]; [left|].
    assert (check_system_column schema (ks, ix) s
      = Ok ({[ sys_kind s ]} ∪ ks, {[ sys_index s ]} ∪ ix)) as ->.
    { unfold check_system_column.
      rewrite (bool_decide_eq_true_2 _ Hsk), (bool_decide_eq_true_2 _ Hsi), Hf.
      cbn. by rewrite Hn, Ht, !bool_decide_eq_true_2. }
    apply IH. split_and!; [done..|].
    intros s' Hs'. destruct (Hdis s') as [? ?]; [by right|].
    assert (sys_kind s' ≠ sys_kind s).
    { intros He. apply Hk1. rewrite <-He. by apply list_elem_of_fmap_2. }
    assert (sys_index s' ≠ sys_index s).
    { intros He. apply Hi1. rewrite <-He. by apply list_elem_of_fmap_2. }
    set_solver.
Qed.

Lemma arrow_field_conforms c : field_conforms (arrow_field c) c.
Proof.
  split; try done. unfold metadata_matches. cbn [arrow_field f_metadata].
  autorewrite with transferia_rw.
  assert (∀ b : bool, eqb (bool_decide (true_if b = Some "true")) b = true) as Hflag by (by intros []).
  rewrite !Hflag. by rewrite !bool_decide_eq_true_2.
Qed.

Lemma batch_accepted d (b : SinkBatch) ds :
  validate_batch_against_discovery d b = Ok ds ↔ expected_dataset d b = Ok ds ∧ batch_conforms ds b.
Proof.
  unfold validate_batch_against_discovery. split.
  - intros Hv. res_inv. bool_inv. split; [done|].
    match goal with Hs : for_each (check_system_column ?sch) ?l (∅, ∅) = Ok ?seen |- _ =>
      destruct (proj1 (check_systems_spec sch l ∅ ∅)) as (? & ? & ? & _); [eauto|];
      destruct (proj2 (check_system_spec sch l ∅ ∅)) as (seen' & Hs' & Hk); [eauto|];
      rewrite Hs in Hs'; injection Hs' as <- end.
    split; try done; [by eapply check_fields_spec; eauto|].
    intros k. match goal with Hx : _.1 = list_to_set _ |- _ => rewrite Hx in Hk end.
    rewrite union_empty_r_L in Hk. rewrite <-!(elem_of_list_to_set (C:=gset SystemColumnKind)), Hk. done.
  - intros [-> []]. cbn [mbind result_bind]. rewrite bc_schema0. cbn.
    rewrite (bool_decide_eq_true_2 _ bc_name0). cbn.
    pose proof (Forall2_length _ _ _ bc_fields0) as Hlen. rewrite (bool_decide_eq_true_2 _ Hlen). cbn.
    destruct (proj2 (check_fields_spec (sb_table b) _ _ 0%nat Hlen) bc_fields0) as [r ->]. cbn.
    destruct (proj2 (check_system_spec (rb_schema (sb_batch b)) (sb_system_columns b) ∅ ∅)) as (seen & -> & Hk).
    { apply check_systems_spec. by split_and!. }
    cbn. rewrite bool_decide_eq_true_2; [done|]. rewrite Hk, union_empty_r_L.
    apply set_eq. intros k. by rewrite !elem_of_list_to_set.
Qed.

(** A batch is accepted exactly when it conforms.  [validate_batch_against_discovery]
    returns the dataset it looked up or derived exactly when the batch's Arrow fields
    match the dataset's columns one by one (name, type, nullability, metadata), its
    system columns have distinct kinds and positions and point at fields of their name
    and type, and it has exactly the discovered kinds; and the Arrow field the
    connectors build from a column always matches that column. *)
Theorem batch_accepted_iff_conforms d (b : SinkBatch) ds :
  (validate_batch_against_discovery d b = Ok ds ↔ expected_dataset d b = Ok ds ∧ batch_conforms ds b) ∧
  (∀ c, field_conforms (arrow_field c) c).
Proof. split; [apply batch_accepted|apply arrow_field_conforms]. Qed.
End contract.

(** ** Witnesses *)
Section witnesses.
#[local] Existing Instance example_arrow.
#[local] Existing Instance example_values.

Lemma partition_assignment_exact_witness :
  seqZ 0 2 ≫= assignment (StaticPartitions [5; 0; 3; 8]) 2 ≡ₚ [5; 0; 3; 8].
Proof.
  destruct (partition_assignment_exact (StaticPartitions [5; 0; 3; 8]) 2) as [_ H].
  destruct H as (_ & H & _); [vm_compute; reflexivity|lia|exact H].
Defined.

Definition example_key : SchemaColumn :=
  {| name := "id"; source_type := None; data_type := UInt64; nullable := false;
     always_present_on_update := true; update_value_presence := Guaranteed;
     delete_value_presence := Guaranteed; primary_key := true; low_cardinality := false;
     max_length := None; arrow_extension_name := None; arrow_extension_metadata := None;
     system_role := None; old_value_of := None; old_key_of := None |}.
Definition example_old_key : SchemaColumn :=
  {| name := "old_id"; source_type := None; data_type := UInt64; nullable := true;
     always_present_on_update := false; update_value_presence := MayBeAbsent;
     delete_value_presence := MayBeAbsent; primary_key := false; low_cardinality := false;
     max_length := None; arrow_extension_name := None; arrow_extension_metadata := None;
     system_role := None; old_value_of := None; old_key_of := Some "id" |}.
Definition example_operation : SchemaColumn := SchemaColumn_new "_op" Utf8 false.
Definition example_offset : SchemaColumn := SchemaColumn_new "_offset" Int64 false.
Definition example_schema : DatasetSchema :=
  [example_key; SchemaColumn_new "value" Utf8 true; example_old_key; example_operation; example_offset].

(** Two changes of one row: a creation and a deletion. *)
Definition example_batch : SinkBatch :=
  {| sb_schema := example_schema; sb_namespace := None; sb_table := "users"; sb_is_dlq := false;
     sb_batch := {| rb_schema := arrow_field <$> example_schema;
       rb_columns := [UInt64Array [Some 7; Some 7]; StringArray [Some "a"; None];
         UInt64Array [None; Some 7]; StringArray [Some "c"; Some "d"]; Int64Array [Some 1; Some 2]];
       rb_rows := 2 |};
     sb_byte_size := 64;
     sb_system_columns := [{| sys_kind := OperationColumn; sys_index := 3; sys_name := "_op" |};
       {| sys_kind := Offset; sys_index := 4; sys_name := "_offset" |}] |}.
Definition example_dataset : DiscoveredDataset :=
  {| namespace := None; update_policy := Strict; role := Main; ds_name := "users";
     incoming_schema := example_schema;
     stored_schema := [example_key; SchemaColumn_new "value" Utf8 true];
     system_columns := [{| dsc_kind := OperationColumn; dsc_name := "_op" |};
       {| dsc_kind := Offset; dsc_name := "_offset" |}] |}.
Definition example_discovery : DeliveryDiscovery :=
  {| source_name := "pg"; source_topology := DynamicWorkerLanes; schema_origin := SourceNative;
     keep_system_columns := false; datasets := [example_dataset]; performance_advice := [] |}.

Lemma sink_batch_dataset_projection_witness :
  Forall (storable false example_dataset) [example_key; SchemaColumn_new "value" Utf8 true].
Proof.
  destruct (sink_batch_dataset_projection example_batch false example_dataset) as (_ & _ & H);
    [vm_compute; reflexivity|exact H].
Defined.

Lemma stored_projection_sound_witness : projection_contract false example_dataset.
Proof. apply (stored_projection_sound example_discovery). vm_compute. reflexivity. Defined.

Lemma batch_accepted_iff_conforms_witness : batch_conforms example_dataset example_batch.
Proof.
  destruct (proj1 (batch_accepted_iff_conforms example_discovery example_batch example_dataset)) as [H _].
  apply H. vm_compute. reflexivity.
Defined.
End witnesses.
