(* ===== verification/Changelog.v ===== *)
(** * Changelog batches

    [transferia-core/src/data/changelog.rs]: a batch of row-level changes is projected
    to the stored columns and collapsed to one state per primary key, then returned
    as operation-homogeneous runs that a state sink applies in order.

    A [HashMap] is a [gmap]; its values come out in no particular order and are sorted
    by position, so the order of [map_to_list] stands for any order (positions are
    distinct: [selected_unique]).  Slice and array indexing that would panic in Rust
    is the error [Panicked], which no theorem below allows. *)

From stdpp Require Import base tactics numbers option strings gmap fin_maps fin_sets sorting list.
From S2P Require Import Prelude Schema Arrow Delivery.
Local Open Scope Z_scope.

Inductive ChangelogAction := Upsert | DeleteRows.

Inductive ValueSource :=
| Current (row : nat)
| OldPrimaryKey (row : nat).

Record CollapsedRow := {
  final_position : nat;
  operation : ChangeOperation;
  value_rows : list (option ValueSource);
  source_version : Z
}.

Definition operation_action (o : ChangeOperation) : ChangelogAction :=
  if ChangeOperation.writes_current_value o then Upsert else DeleteRows.

Definition same_sink_operation (left right : ChangeOperation) : bool :=
  match left, right with
  | (Create | SnapshotRead), (Create | SnapshotRead) => true
  | Update, Update => true
  | Delete, Delete => true
  | _, _ => false
  end.

Section changelog.
Context {AT : ArrowTypes} {AV : ArrowValues} {AC : ArrowCompute}.

Record ChangelogBatch := {
  rows : RecordBatch;
  operations : list ChangeOperation;
  primary_key_indexes : list nat;
  primary_keys : list string;
  primary_key_columns : list SchemaColumn;
  stored_columns : list SchemaColumn;
  source_versions : list Z;
  changed_columns : list (list bool);
  old_primary_keys : option RecordBatch
}.

Record ChangelogRun := {
  run_action : ChangelogAction;
  run_operation : ChangeOperation;
  run_batch : RecordBatch;
  run_source_versions : list Z
}.

Inductive ProjectedSinkBatch :=
| AppendOnly (b : RecordBatch)
| Changelog (b : ChangelogBatch).

Inductive ChangelogError :=
| Panicked
| ArrowFailure
| MaskRowCountMismatch
| UpdateAfterDelete
| IncompleteKeyChange
| MissingSource
| IndexOverflow
| KeyProjectionInconsistent
| Delivery (e : DeliveryError)
| StoredColumnAbsent (column : string)
| AppendOnlyNull (column : string)
| OperationStored
| OperationType
| MultipleSourceVersions
| VersionStored
| VersionType
| NoOffsetColumn
| OffsetType
| ChangedColumnsType
| NoPrimaryKey
| NullOperation (row : nat)
| UnsupportedOperation (row : nat) (code : string)
| NullSourceVersion (row : nat)
| InvalidSourceVersion (row : nat)
| NullChangedMask (row : nat)
| MaskLength (row : nat)
| MaskUnusedBits (row : nat)
| OmitsColumn (row : nat)
| NullPrimaryKey (column : string)
| OmitsPrimaryKey (row : nat) (column : string)
| MixedOldColumns
| NoOldPair (column : string)
| OldColumnAbsent (column : string)
| NoOperationColumn
| OldKeyPresence (row : nat) (column : string)
| FullImageIncomplete (row : nat)
| FullImageNeedsOld
| FullImageKeyChange (row : nat).

Definition lift_arrow {A} (r : result ArrowError A) : result ChangelogError A :=
  match r with Ok a => Ok a | Err _ => Err ArrowFailure end.
Definition lift_delivery {A} (r : result DeliveryError A) : result ChangelogError A :=
  match r with Ok a => Ok a | Err e => Err (Delivery e) end.

(** Indexing of a slice: [v[i]]. *)
Definition at_ {A} (l : list A) (i : nat) : result ChangelogError A := ok_or (l !! i) Panicked.

(** ** [apply_collapsed_event] *)

(** [(0..n).map(|index| primary_key_indexes.contains(&index).then_some(source))] *)
Definition key_sources (primary_key_indexes : list nat) (source : ValueSource) (n : nat)
    : list (option ValueSource) :=
  (λ i, if bool_decide (i ∈ primary_key_indexes) then Some source else None) <$> seq 0 n.

(** [changed.iter().map(|changed| changed.then_some(source))] *)
Definition changed_sources (changed : list bool) (source : ValueSource) : list (option ValueSource) :=
  (λ c : bool, if c then Some source else None) <$> changed.

(** [for (source, changed) in value_rows.iter_mut().zip(changed)] *)
Fixpoint overwrite_changed (value_rows : list (option ValueSource)) (changed : list bool)
    (source : ValueSource) : list (option ValueSource) :=
  match value_rows, changed with
  | v :: vs, c :: cs => (if c then Some source else v) :: overwrite_changed vs cs source
  | vs, _ => vs
  end.

(** The vacant entry; [n] is the number of columns of a deletion's sources. *)
Definition vacant_row (n : nat) (position : nat) (op : ChangeOperation) (source : ValueSource)
    (changed : list bool) (pki : list nat) (version : Z) : CollapsedRow :=
  {| final_position := position;
     operation := op;
     value_rows := if bool_decide (op = Delete) then key_sources pki source n
                   else changed_sources changed source;
     source_version := version |}.

(** The occupied entry. *)
Definition occupied_row (collapsed : CollapsedRow) (position : nat) (op : ChangeOperation)
    (source : ValueSource) (changed : list bool) (pki : list nat) (version : Z)
    : result ChangelogError CollapsedRow :=
  '(o, vs) ← match op with
    | Create | SnapshotRead =>
        Ok (op, (λ _, Some source) <$> value_rows collapsed)
    | Update =>
        _ ← ensure (negb (bool_decide (operation collapsed = Delete))) UpdateAfterDelete;
        Ok (match operation collapsed with
            | Create => Create | SnapshotRead => SnapshotRead | _ => Update end,
            overwrite_changed (value_rows collapsed) changed source)
    | Delete => Ok (Delete, key_sources pki source (length (value_rows collapsed)))
    end;
  Ok {| final_position := position; operation := o; value_rows := vs; source_version := version |}.

Definition apply_collapsed_event (latest : gmap (list Z) CollapsedRow) (key : list Z)
    (position : nat) (op : ChangeOperation) (source : ValueSource) (changed : list bool)
    (pki : list nat) (version : Z) : result ChangelogError (gmap (list Z) CollapsedRow) :=
  match latest !! key with
  | None => Ok (<[key := vacant_row (length changed) position op source changed pki version]> latest)
  | Some collapsed =>
      r ← occupied_row collapsed position op source changed pki version;
      Ok (<[key := r]> latest)
  end.

(** ** Collapsing *)

(** One turn of the loop of [collapsed_rows_with_old_values]. *)
Definition collapse_with_old (cb : ChangelogBatch) (keys old_keys : list (list Z))
    (latest : gmap (list Z) CollapsedRow) (row_changed : nat * list bool)
    : result ChangelogError (gmap (list Z) CollapsedRow) :=
  let '(row, changed) := row_changed in
  op ← at_ (operations cb) row;
  match op with
  | Create | SnapshotRead =>
      key ← at_ keys row;
      version ← at_ (source_versions cb) row;
      apply_collapsed_event latest key (row * 2 + 1) op (Current row) changed
        (primary_key_indexes cb) version
  | Update =>
      old_key ← at_ old_keys row;
      current_key ← at_ keys row;
      if bool_decide (old_key = current_key) then
        version ← at_ (source_versions cb) row;
        apply_collapsed_event latest current_key (row * 2 + 1) op (Current row) changed
          (primary_key_indexes cb) version
      else
        _ ← ensure (forallb id changed) IncompleteKeyChange;
        version ← at_ (source_versions cb) row;
        latest ← apply_collapsed_event latest old_key (row * 2) Delete (OldPrimaryKey row) changed
          (primary_key_indexes cb) version;
        apply_collapsed_event latest current_key (row * 2 + 1) Create (Current row) changed
          (primary_key_indexes cb) version
  | Delete =>
      old_key ← at_ old_keys row;
      version ← at_ (source_versions cb) row;
      apply_collapsed_event latest old_key (row * 2) op (OldPrimaryKey row) changed
        (primary_key_indexes cb) version
  end.

(** [changed_columns.iter().enumerate()] *)
Definition enumerate {A} (l : list A) : list (nat * A) := zip (seq 0 (length l)) l.

Definition collapsed_rows_with_old_values (cb : ChangelogBatch) (keys old_keys : list (list Z))
    (changed : list (list bool)) : result ChangelogError (gmap (list Z) CollapsedRow) :=
  for_each (collapse_with_old cb keys old_keys) (enumerate changed) ∅.

(** One turn of the loop of [collapsed_runs_without_old_values]. *)
Definition collapse_without_old (cb : ChangelogBatch) (keys : list (list Z))
    (latest : gmap (list Z) CollapsedRow) (row_changed : nat * list bool)
    : result ChangelogError (gmap (list Z) CollapsedRow) :=
  let '(row, changed) := row_changed in
  op ← at_ (operations cb) row;
  key ← at_ keys row;
  version ← at_ (source_versions cb) row;
  match latest !! key with
  | None =>
      Ok (<[key := vacant_row (length (rb_columns (rows cb))) row op (Current row) changed
                     (primary_key_indexes cb) version]> latest)
  | Some collapsed =>
      r ← occupied_row collapsed row op (Current row) changed (primary_key_indexes cb) version;
      Ok (<[key := r]> latest)
  end.

(** [sort_unstable_by_key(|row| row.final_position)] *)
Definition position_le (a b : CollapsedRow) : Prop := (final_position a ≤ final_position b)%nat.
#[export] Instance position_le_dec : RelDecision position_le.
Proof. intros a b. unfold position_le. apply _. Defined.

Definition select_rows (latest : gmap (list Z) CollapsedRow) : list CollapsedRow :=
  merge_sort position_le (map_to_list latest).*2.

(** ** [materialize_runs] *)

(** The columns a collapsed row has values for. *)
Definition included (r : CollapsedRow) : list bool := is_some <$> value_rows r.

(** The inner loop: how many rows after the first belong to the run. *)
Fixpoint run_length (op : ChangeOperation) (inc : list bool) (l : list CollapsedRow) : nat :=
  match l with
  | r :: l =>
      if same_sink_operation (operation r) op && bool_decide (included r = inc)
      then S (run_length op inc l) else 0
  | [] => 0
  end.

Definition column_indexes (inc : list bool) : list nat :=
  omap (λ ib : nat * bool, if ib.2 then Some ib.1 else None) (enumerate inc).

(** [u32::try_from] *)
Definition to_u32 (i : Z) : result ChangelogError Z :=
  _ ← ensure (bool_decide (i ≤ u32_max)) IndexOverflow; Ok i.

(** The position of a value in the column, old values following the current ones. *)
Definition source_index (cb : ChangelogBatch) (column : nat) (r : CollapsedRow)
    : result ChangelogError Z :=
  v ← at_ (value_rows r) column;
  source ← ok_or v MissingSource;
  match source with
  | Current row => to_u32 (Z.of_nat row)
  | OldPrimaryKey row =>
      i ← ok_or (checked_add usize_max (Z.of_nat (rb_rows (rows cb))) (Z.of_nat row)) IndexOverflow;
      to_u32 i
  end.

(** The array the values of a column are taken from. *)
Definition source_array (cb : ChangelogBatch) (column : nat) : result ChangelogError Array :=
  current ← at_ (rb_columns (rows cb)) column;
  if bool_decide (column ∈ primary_key_indexes cb) then
    old_index ← ok_or (fst <$> list_find (λ i, i = column) (primary_key_indexes cb))
                      KeyProjectionInconsistent;
    match old_primary_keys cb with
    | Some old =>
        old_column ← at_ (rb_columns old) old_index;
        lift_arrow (concat current old_column)
    | None => Ok current
    end
  else Ok current.

Definition run_column (cb : ChangelogBatch) (selected : list CollapsedRow) (column : nat)
    : result ChangelogError Array :=
  indexes ← mapM (source_index cb column) selected;
  source ← source_array cb column;
  lift_arrow (take source indexes).

(** One run: [selected] are the rows [start..end]. *)
Definition materialize_run (cb : ChangelogBatch) (first : CollapsedRow) (selected : list CollapsedRow)
    : result ChangelogError ChangelogRun :=
  let ix := column_indexes (included first) in
  arrays ← mapM (run_column cb selected) ix;
  fields ← mapM (at_ (rb_schema (rows cb))) ix;
  batch ← lift_arrow (try_new fields arrays);
  Ok {| run_action := operation_action (operation first);
        run_operation := operation first;
        run_batch := batch;
        run_source_versions := source_version <$> selected |}.

(** The outer loop; every turn consumes at least one row. *)
Fixpoint materialize_from (fuel : nat) (cb : ChangelogBatch) (selected : list CollapsedRow)
    : result ChangelogError (list ChangelogRun) :=
  match fuel, selected with
  | _, [] => Ok []
  | O, _ :: _ => Ok []
  | S fuel, first :: tail =>
      let n := S (run_length (operation first) (included first) tail) in
      run ← materialize_run cb first (firstn n selected);
      runs ← materialize_from fuel cb (drop n selected);
      Ok (run :: runs)
  end.

Definition materialize_runs (cb : ChangelogBatch) (selected : list CollapsedRow)
    : result ChangelogError (list ChangelogRun) :=
  materialize_from (length selected) cb selected.

(** ** [collapsed_runs] *)
Definition collapsed_runs_without_old_values (cb : ChangelogBatch) (keys : list (list Z))
    (changed : list (list bool)) : result ChangelogError (list ChangelogRun) :=
  latest ← for_each (collapse_without_old cb keys) (enumerate changed) ∅;
  materialize_runs cb (select_rows latest).

Definition collapsed_runs_with_changed_columns (cb : ChangelogBatch) (changed : list (list bool))
    : result ChangelogError (list ChangelogRun) :=
  _ ← ensure (bool_decide (length changed = rb_rows (rows cb))) MaskRowCountMismatch;
  key_columns ← mapM (at_ (rb_columns (rows cb))) (primary_key_indexes cb);
  converter ← lift_arrow (row_converter (array_type <$> key_columns));
  keys ← lift_arrow (convert_columns converter key_columns);
  match old_primary_keys cb with
  | None => collapsed_runs_without_old_values cb keys changed
  | Some old =>
      old_keys ← lift_arrow (convert_columns converter (rb_columns old));
      latest ← collapsed_rows_with_old_values cb keys old_keys changed;
      materialize_runs cb (select_rows latest)
  end.

Definition collapsed_runs (cb : ChangelogBatch) : result ChangelogError (list ChangelogRun) :=
  collapsed_runs_with_changed_columns cb (changed_columns cb).

Definition collapsed_full_image_runs (cb : ChangelogBatch) : result ChangelogError (list ChangelogRun) :=
  collapsed_runs_with_changed_columns cb
    (replicate (rb_rows (rows cb)) (replicate (length (rb_columns (rows cb))) true)).

(** ** [decode_changed_columns] *)
Definition bit (mask_byte : Z) (n : nat) : bool :=
  negb (bool_decide (Z.land mask_byte (Z.shiftl 1 (Z.of_nat n)) = 0)).

Definition decode_changed_columns (mask : list Z) (columns row : nat)
    : result ChangelogError (list bool) :=
  let expected_bytes := ((columns + 7) `div` 8)%nat in
  _ ← ensure (bool_decide (length mask = expected_bytes)) (MaskLength row);
  _ ← (if negb (bool_decide (columns `mod` 8 = 0)%nat) then
         let used := (columns `mod` 8)%nat in
         let unused := Z.land (default 0 (last mask)) (255 - (Z.shiftl 1 (Z.of_nat used) - 1)) in
         ensure (bool_decide (unused = 0)) (MaskUnusedBits row)
       else Ok tt);
  mapM (λ column, byte ← at_ mask (column `div` 8)%nat; Ok (bit byte (column `mod` 8)%nat))
       (seq 0 columns).

(** ** [project_columns] *)
Definition project_columns (b : RecordBatch) (stored : DatasetSchema)
    : result ChangelogError RecordBatch :=
  indexes ← mapM (λ c, ok_or (index_of (rb_schema b) (name c)) (StoredColumnAbsent (name c))) stored;
  lift_arrow (project b indexes).

(** ** Downcasts *)
Definition as_string (a : Array) : option (list (option string)) :=
  match a with StringArray l => Some l | _ => None end.
Definition as_int64 (a : Array) : option (list (option Z)) :=
  match a with Int64Array l => Some l | _ => None end.
Definition as_uint64 (a : Array) : option (list (option Z)) :=
  match a with UInt64Array l => Some l | _ => None end.
Definition as_binary (a : Array) : option (list (option (list Z))) :=
  match a with BinaryArray l => Some l | _ => None end.

(** ** [old_primary_key_batch] *)

(** One row: old keys are present exactly for updates and deletions. *)
Definition check_old_key_row (b : SinkBatch) (old : RecordBatch) (pk : list SchemaColumn)
    (_ : unit) (row : nat) : result ChangelogError unit :=
  operation ← ok_or (SystemColumns.get (sb_system_columns b) OperationColumn) NoOperationColumn;
  column ← at_ (rb_columns (sb_batch b)) (sys_index operation);
  codes ← ok_or (as_string column) OperationType;
  code ← at_ codes row;
  let requires_old := bool_decide (code = Some "u") || bool_decide (code = Some "d") in
  for_each (λ (_ : unit) (ck : Array * SchemaColumn), cell ← at_ (cells ck.1) row;
                    ensure (xorb requires_old (bool_decide (cell = None)))
                           (OldKeyPresence row (name ck.2)))
           (zip (rb_columns old) pk) tt.

Definition old_primary_key_batch (ds : DiscoveredDataset) (b : SinkBatch) (pk : list SchemaColumn)
    : result ChangelogError (option RecordBatch) :=
  let old_value_columns := collect_columns (paired_columns old_value_of (incoming_schema ds)) in
  let old_key_columns := collect_columns (paired_columns old_key_of (incoming_schema ds)) in
  if bool_decide (old_value_columns = ∅) && bool_decide (old_key_columns = ∅) then Ok None else
  _ ← ensure (bool_decide (old_value_columns = ∅) || bool_decide (old_key_columns = ∅)) MixedOldColumns;
  let old_columns :=
    if bool_decide (old_value_columns = ∅) then old_key_columns else old_value_columns in
  indexes ← mapM (λ key : SchemaColumn,
      old ← ok_or (old_columns !! name key) (NoOldPair (name key));
      ok_or (index_of (rb_schema (sb_batch b)) (name old)) (OldColumnAbsent (name old))) pk;
  arrays ← mapM (at_ (rb_columns (sb_batch b))) indexes;
  let fields := (λ key : SchemaColumn,
    {| f_name := name key; f_type := data_type key; f_nullable := true; f_metadata := ∅ |}) <$> pk in
  old ← lift_arrow (try_new fields arrays);
  _ ← for_each (check_old_key_row b old pk) (seq 0 (rb_rows (sb_batch b))) tt;
  Ok (Some old).

(** ** [project_sink_batch] *)

(** The columns of the batch that the loop over rows reads. *)
Record RowInputs := {
  in_operations : list (option string);
  in_explicit_versions : option (list (option Z));
  in_offsets : list (option Z);
  in_changed : option (list (option (list Z)));
  in_user_columns : list string;
  in_stored : DatasetSchema
}.

(** The change mask of one row over the stored columns. *)
Definition row_changed (ins : RowInputs) (row : nat) : result ChangelogError (list bool) :=
  match in_changed ins with
  | None => Ok (replicate (length (in_stored ins)) true)
  | Some masks =>
      mask ← at_ masks row;
      mask ← ok_or mask (NullChangedMask row);
      user_changed ← decode_changed_columns mask (length (in_user_columns ins)) row;
      mapM (λ c : SchemaColumn,
        match fst <$> list_find (λ n, n = name c) (in_user_columns ins) with
        | None => Ok true
        | Some index => at_ user_changed index
        end) (in_stored ins)
  end.

Definition row_version (ins : RowInputs) (row : nat) : result ChangelogError Z :=
  match in_explicit_versions ins with
  | Some versions => v ← at_ versions row; ok_or v (NullSourceVersion row)
  | None =>
      v ← at_ (in_offsets ins) row;
      match v with
      | Some v => _ ← ensure (bool_decide (0 ≤ v)) (InvalidSourceVersion row); Ok v
      | None => Err (InvalidSourceVersion row)
      end
  end.

(** One turn of the loop over rows: the parsed operations, versions and masks grow. *)
Definition parse_row (ins : RowInputs) (acc : list ChangeOperation * list Z * list (list bool))
    (row : nat) : result ChangelogError (list ChangeOperation * list Z * list (list bool)) :=
  let '(ops, versions, masks) := acc in
  code ← at_ (in_operations ins) row;
  code ← ok_or code (NullOperation row);
  op ← ok_or (ChangeOperation.from_code code) (UnsupportedOperation row code);
  version ← row_version ins row;
  changed ← row_changed ins row;
  _ ← match op with
      | Create | SnapshotRead => ensure (forallb id changed) (OmitsColumn row)
      | Update | Delete => Ok tt
      end;
  Ok (ops ++ [op], versions ++ [version], masks ++ [changed]).

(** The check of one primary-key column. *)
Definition check_key_column (stored : RecordBatch) (masks : list (list bool)) (_ : unit) (index : nat)
    : result ChangelogError unit :=
  column ← at_ (rb_columns stored) index;
  field ← at_ (rb_schema stored) index;
  _ ← ensure (bool_decide (null_count column = 0%nat)) (NullPrimaryKey (f_name field));
  for_each (λ (_ : unit) (rm : nat * list bool),
      c ← at_ rm.2 index; ensure c (OmitsPrimaryKey rm.1 (f_name field))) (enumerate masks) tt.

(** [FullImageUpsert] turns one complete same-key update into an upsert. *)
Definition full_image_row (stored : RecordBatch) (masks : list (list bool)) (pki : list nat)
    (old_keys : option RecordBatch) (ro : nat * ChangeOperation)
    : result ChangelogError ChangeOperation :=
  let '(row, op) := ro in
  if negb (bool_decide (op = Update)) then Ok op else
  mask ← at_ masks row;
  _ ← ensure (forallb id mask) (FullImageIncomplete row);
  old ← ok_or old_keys FullImageNeedsOld;
  _ ← for_each (λ (_ : unit) (ci : Array * nat),
        column ← at_ (rb_columns stored) ci.2;
        a ← at_ (cells ci.1) row;
        b ← at_ (cells column) row;
        ensure (bool_decide (array_type ci.1 = array_type column) && bool_decide (a = b))
               (FullImageKeyChange row))
      (zip (rb_columns old) pki) tt;
  Ok Create.

(** [enumerate().filter_map(|(index, column)| column.primary_key.then_some(index))] *)
Definition key_indexes (stored : DatasetSchema) : list nat :=
  omap (λ ic : nat * SchemaColumn, if primary_key ic.2 then Some ic.1 else None) (enumerate stored).

(** The append-only check: no null in a non-nullable stored column. *)
Definition check_append_column (stored : RecordBatch) (_ : unit) (ic : nat * SchemaColumn)
    : result ChangelogError unit :=
  column ← at_ (rb_columns stored) ic.1;
  ensure (nullable ic.2 || bool_decide (null_count column = 0%nat)) (AppendOnlyNull (name ic.2)).

(** The columns the changelog projection reads, with their checks, in order. *)
Definition changelog_inputs (ds : DiscoveredDataset) (b : SinkBatch) (operation : SystemColumn)
    : result ChangelogError RowInputs :=
  let columns := rb_columns (sb_batch b) in
  _ ← ensure (negb (existsb (λ c : SchemaColumn, bool_decide (name c = sys_name operation))
                            (stored_schema ds))) OperationStored;
  op_column ← at_ columns (sys_index operation);
  operations ← ok_or (as_string op_column) OperationType;
  let versions := filter (λ ic : nat * SchemaColumn, has_version_role ic.2 = true)
                         (enumerate (incoming_schema ds)) in
  _ ← ensure (bool_decide (length versions ≤ 1)%nat) MultipleSourceVersions;
  explicit ← match versions with
             | [] => Ok None
             | (index, column) :: _ =>
                 _ ← ensure (negb (existsb (λ c : SchemaColumn, bool_decide (name c = name column))
                                           (stored_schema ds))) VersionStored;
                 a ← at_ columns index;
                 l ← ok_or (as_uint64 a) VersionType;
                 Ok (Some l)
             end;
  offset ← ok_or (SystemColumns.get (sb_system_columns b) Offset) NoOffsetColumn;
  offset_column ← at_ columns (sys_index offset);
  offsets ← ok_or (as_int64 offset_column) OffsetType;
  changed ← match SystemColumns.get (sb_system_columns b) ChangedColumns with
            | None => Ok None
            | Some c =>
                a ← at_ columns (sys_index c);
                l ← ok_or (as_binary a) ChangedColumnsType;
                Ok (Some l)
            end;
  let system_names : gset string := list_to_set (dsc_name <$> system_columns ds) in
  Ok {| in_operations := operations; in_explicit_versions := explicit; in_offsets := offsets;
        in_changed := changed;
        in_user_columns :=
          name <$> filter (λ c, user_column system_names c = true) (incoming_schema ds);
        in_stored := stored_schema ds |}.

Definition project_sink_batch (d : DeliveryDiscovery) (b : SinkBatch)
    : result ChangelogError ProjectedSinkBatch :=
  ds ← lift_delivery (validate_batch_against_discovery d b);
  stored ← project_columns (sb_batch b) (stored_schema ds);
  match SystemColumns.get (sb_system_columns b) OperationColumn with
  | None =>
      _ ← for_each (check_append_column stored) (enumerate (stored_schema ds)) tt;
      Ok (AppendOnly stored)
  | Some operation =>
      ins ← changelog_inputs ds b operation;
      let pki := key_indexes (stored_schema ds) in
      _ ← ensure (negb (bool_decide (pki = []))) NoPrimaryKey;
      '(ops, versions, masks) ← for_each (parse_row ins) (seq 0 (rb_rows (sb_batch b))) ([], [], []);
      _ ← for_each (check_key_column stored masks) pki tt;
      key_fields ← mapM (at_ (rb_schema stored)) pki;
      key_columns ← mapM (at_ (stored_schema ds)) pki;
      old_keys ← old_primary_key_batch ds b key_columns;
      ops ← (if bool_decide (update_policy ds = FullImageUpsert) then
               mapM (full_image_row stored masks pki old_keys) (enumerate ops)
             else Ok ops);
      Ok (Changelog
        {| rows := stored; operations := ops; primary_key_indexes := pki;
           primary_keys := f_name <$> key_fields; primary_key_columns := key_columns;
           stored_columns := stored_schema ds; source_versions := versions;
           changed_columns := masks; old_primary_keys := old_keys |})
  end.
End changelog.
