(* ===== verification/Collapse.v ===== *)
(** * The meaning of collapsing

    A changelog batch is a sequence of elementary events on a keyed table: create a
    row, overwrite some of its columns, delete it.  This file gives events and
    collapsed rows their effect on a table and shows that [apply_collapsed_event]
    ([transferia-core/src/data/changelog.rs]) summarises any sequence of events: per
    key, the collapsed row has the effect of all its events in order.

    The section is parametric in where a column's value comes from ([src_cell]) and in
    which sources are in range ([src_ok]); file ChangelogRuns instantiates it. *)

From stdpp Require Import base tactics numbers option strings gmap fin_maps fin_sets sorting list.
From S2P Require Import Prelude Schema Arrow Delivery Changelog.
Local Open Scope Z_scope.

Section collapse.
Context {AT : ArrowTypes} {AV : ArrowValues} {AC : ArrowCompute}.
Context (ncols : nat) (pki : list nat).
Context (src_cell : nat → ValueSource → Cell) (src_ok : nat → ValueSource → Prop).

(** A keyed table: the row stored under the cells of a key. *)
Definition Table := list Cell → option (list Cell).
Definition set_row (T : Table) (k : list Cell) (v : option (list Cell)) : Table :=
  λ k', if decide (k' = k) then v else T k'.

Record Event := {
  ev_key : list Z;
  ev_cells : list Cell;
  ev_pos : nat;
  ev_op : ChangeOperation;
  ev_source : ValueSource;
  ev_changed : list bool;
  ev_version : Z
}.

(** ** Effects *)
Definition source_row (s : ValueSource) : list Cell := (λ j, src_cell j s) <$> seq 0 ncols.

Definition update_row (changed : list bool) (s : ValueSource) (row : list Cell) : list Cell :=
  imap (λ j c, if default false (changed !! j) then src_cell j s else c) row.

Definition event_effect (e : Event) (row : option (list Cell)) : option (list Cell) :=
  match ev_op e with
  | Delete => None
  | Create | SnapshotRead => Some (source_row (ev_source e))
  | Update => update_row (ev_changed e) (ev_source e) <$> row
  end.
Definition apply_event (T : Table) (e : Event) : Table :=
  set_row T (ev_cells e) (event_effect e (T (ev_cells e))).

Definition value_cell (j : nat) (v : option ValueSource) : Cell :=
  match v with Some s => src_cell j s | None => None end.

Definition collapsed_effect (r : CollapsedRow) (row : option (list Cell)) : option (list Cell) :=
  match operation r with
  | Delete => None
  | Create | SnapshotRead => Some (imap value_cell (value_rows r))
  | Update =>
      imap (λ j c, match value_rows r !! j with Some (Some s) => src_cell j s | _ => c end) <$> row
  end.

(** The key cells of a collapsed row. *)
Definition key_cells (r : CollapsedRow) : list Cell :=
  (λ j, value_cell j (default None (value_rows r !! j))) <$> pki.

(** ** Well-formed events and rows *)
Record event_ok (e : Event) : Prop := {
  eo_length : length (ev_changed e) = ncols;
  eo_complete : ev_op e = Create ∨ ev_op e = SnapshotRead → Forall (λ c, c = true) (ev_changed e);
  eo_keys : ∀ j, j ∈ pki → ev_changed e !! j = Some true;
  eo_cells : (λ j, src_cell j (ev_source e)) <$> pki = ev_cells e;
  eo_source : ∀ j, (j < ncols)%nat → (ev_op e = Delete → j ∈ pki) → src_ok j (ev_source e)
}.

Record row_ok (r : CollapsedRow) : Prop := {
  ro_length : length (value_rows r) = ncols;
  ro_complete : operation r = Create ∨ operation r = SnapshotRead →
    ∀ j, (j < ncols)%nat → ∃ s, value_rows r !! j = Some (Some s);
  ro_keys : ∀ j, j ∈ pki → ∃ s, value_rows r !! j = Some (Some s);
  ro_delete : operation r = Delete →
    ∀ j s, value_rows r !! j = Some (Some s) → j ∈ pki;
  ro_source : ∀ j s, value_rows r !! j = Some (Some s) → src_ok j s
}.

(** ** Lookups *)
Lemma lookup_key_sources s n j :
  key_sources pki s n !! j =
  if decide (j < n)%nat then Some (if bool_decide (j ∈ pki) then Some s else None) else None.
Proof.
  unfold key_sources. rewrite list_lookup_fmap. case_decide as Hj.
  - by rewrite lookup_seq_lt.
  - by rewrite lookup_seq_ge by lia.
Qed.

Lemma lookup_changed_sources changed s j :
  changed_sources changed s !! j = (λ c : bool, if c then Some s else None) <$> changed !! j.
Proof. unfold changed_sources. apply list_lookup_fmap. Qed.

Lemma lookup_overwrite vs changed s j :
  overwrite_changed vs changed s !! j =
  (λ v, if default false (changed !! j) then Some s else v) <$> vs !! j.
Proof.
  revert changed j. induction vs as [|v vs IH]; intros [|c cs] [|j]; cbn; try done;
    (apply IH || by destruct (vs !! j)).
Qed.

Lemma length_overwrite vs changed s : length (overwrite_changed vs changed s) = length vs.
Proof. revert changed. induction vs as [|v vs IH]; intros [|c cs]; cbn; [done..|]. by rewrite IH. Qed.

Lemma changed_key e j : event_ok e → j ∈ pki → ev_changed e !! j = Some true ∧ (j < ncols)%nat.
Proof.
  intros He Hj. pose proof (eo_keys _ He _ Hj) as Hc. split; [done|].
  apply lookup_lt_Some in Hc. by rewrite (eo_length _ He) in Hc.
Qed.

(** ** One event *)

(** The collapsed row after an event, [prev] being the row before it. *)
Definition next_row (prev : option CollapsedRow) (e : Event) : result ChangelogError CollapsedRow :=
  match prev with
  | None => Ok (vacant_row (length (ev_changed e)) (ev_pos e) (ev_op e) (ev_source e)
                  (ev_changed e) pki (ev_version e))
  | Some r => occupied_row r (ev_pos e) (ev_op e) (ev_source e) (ev_changed e) pki (ev_version e)
  end.

Definition collapse_event (latest : gmap (list Z) CollapsedRow) (e : Event)
    : result ChangelogError (gmap (list Z) CollapsedRow) :=
  apply_collapsed_event latest (ev_key e) (ev_pos e) (ev_op e) (ev_source e) (ev_changed e)
    pki (ev_version e).

Lemma collapse_event_next latest e :
  collapse_event latest e =
  (r ← next_row (latest !! ev_key e) e; Ok (<[ev_key e := r]> latest)).
Proof. unfold collapse_event, apply_collapsed_event, next_row. by destruct (latest !! ev_key e). Qed.

(** The effect a row, possibly absent, has. *)
Definition opt_effect (prev : option CollapsedRow) (row : option (list Cell)) : option (list Cell) :=
  match prev with None => row | Some r => collapsed_effect r row end.

Lemma source_row_imap s (vs : list (option ValueSource)) :
  length vs = ncols → (∀ j, (j < ncols)%nat → vs !! j = Some (Some s)) →
  imap value_cell vs = source_row s.
Proof.
  intros Hlen Hvs. apply list_eq. intros j. unfold source_row. rewrite list_lookup_imap, list_lookup_fmap.
  destruct (decide (j < ncols)%nat).
  - rewrite Hvs, lookup_seq_lt by done. done.
  - rewrite lookup_seq_ge, lookup_ge_None_2 by lia. done.
Qed.

Lemma next_row_vacant e r :
  event_ok e → next_row None e = Ok r →
  row_ok r ∧ key_cells r = ev_cells e ∧ ∀ row, collapsed_effect r row = event_effect e row.
Proof.
  intros He [= <-]. pose proof (eo_length _ He) as Hlen.
  unfold collapsed_effect, event_effect, key_cells, vacant_row; cbn. rewrite <-(eo_cells _ He).
  case_bool_decide as Hd.
  - rewrite Hd. split_and!; [|apply list_fmap_ext; intros i j Hi%list_elem_of_lookup_2|done].
    + split; cbn; rewrite ?Hd.
      * unfold key_sources. by rewrite length_fmap, length_seq.
      * by intros [|].
      * intros j Hj. destruct (changed_key e j He Hj) as [_ ?]. rewrite lookup_key_sources.
        rewrite decide_True, bool_decide_eq_true_2 by (done || lia). eauto.
      * intros _ j s. rewrite lookup_key_sources. case_decide; [|done]. by case_bool_decide.
      * intros j s. rewrite lookup_key_sources. case_decide; [|done]. case_bool_decide; [|done].
        intros [= <-]. by apply (eo_source _ He); [lia|].
    + destruct (changed_key e j He Hi) as [_ ?]. rewrite lookup_key_sources.
      by rewrite decide_True, bool_decide_eq_true_2 by (done || lia).
  - assert (∀ j s, changed_sources (ev_changed e) (ev_source e) !! j = Some (Some s) →
      s = ev_source e ∧ (j < ncols)%nat) as Hsrc.
    { intros j s. rewrite lookup_changed_sources. destruct (ev_changed e !! j) as [[]|] eqn:Ec; cbn; try done.
      intros [= <-]. apply lookup_lt_Some in Ec. split; [done|lia]. }
    assert (∀ j, j ∈ pki →
      changed_sources (ev_changed e) (ev_source e) !! j = Some (Some (ev_source e))) as Hkey.
    { intros j Hj. rewrite lookup_changed_sources. by rewrite (eo_keys _ He). }
    assert (ev_op e = Create ∨ ev_op e = SnapshotRead → ∀ j, (j < ncols)%nat →
      changed_sources (ev_changed e) (ev_source e) !! j = Some (Some (ev_source e))) as Hall.
    { intros Hop j Hj. rewrite lookup_changed_sources.
      destruct (lookup_lt_is_Some_2 (ev_changed e) j) as [c Hc]; [lia|].
      pose proof (Forall_lookup_1 _ _ _ _ (eo_complete _ He Hop) Hc) as ->. by rewrite Hc. }
    split_and!.
    + split; cbn.
      * unfold changed_sources. by rewrite length_fmap.
      * eauto.
      * eauto.
      * done.
      * intros j s Hj. apply Hsrc in Hj as [-> ?]. by apply (eo_source _ He).
    + apply list_fmap_ext. intros i j Hi%list_elem_of_lookup_2. by rewrite Hkey.
    + intros row. assert (length (changed_sources (ev_changed e) (ev_source e)) = ncols)
        by (unfold changed_sources; by rewrite length_fmap).
      destruct (ev_op e) eqn:Eo; try done.
      * f_equal. apply source_row_imap; auto.
      * f_equal. apply source_row_imap; auto.
      * destruct row as [row|]; [|done]. cbn. f_equal. apply imap_ext. intros j c _.
        rewrite lookup_changed_sources. by destruct (ev_changed e !! j) as [[]|].
Qed.

(** Sources after an update of an existing row. *)
Lemma overwrite_sources e vs j s :
  event_ok e → overwrite_changed vs (ev_changed e) (ev_source e) !! j = Some (Some s) →
  (s = ev_source e ∧ (j < ncols)%nat) ∨ vs !! j = Some (Some s).
Proof.
  intros He. rewrite lookup_overwrite. destruct (vs !! j) as [v|] eqn:Ev; cbn; [|done].
  destruct (ev_changed e !! j) as [[]|] eqn:Ec; cbn; intros [= ->]; auto.
  left. apply lookup_lt_Some in Ec. split; [done|]. by rewrite (eo_length _ He) in Ec.
Qed.

Lemma overwrite_key e vs j :
  event_ok e → length vs = ncols → j ∈ pki →
  overwrite_changed vs (ev_changed e) (ev_source e) !! j = Some (Some (ev_source e)).
Proof.
  intros He Hlen Hj. destruct (changed_key e j He Hj) as [Hc Hlt].
  rewrite lookup_overwrite, Hc. destruct (lookup_lt_is_Some_2 vs j) as [v ->]; [lia|]. done.
Qed.

Lemma overwrite_effect_complete e vs :
  length vs = ncols →
  imap value_cell (overwrite_changed vs (ev_changed e) (ev_source e)) =
  update_row (ev_changed e) (ev_source e) (imap value_cell vs).
Proof.
  intros Hlen. apply list_eq. intros j. unfold update_row.
  rewrite !list_lookup_imap, lookup_overwrite, <-!option_fmap_compose.
  destruct (vs !! j) as [v|]; [|done]. cbn. by destruct (default false (ev_changed e !! j)).
Qed.

Lemma overwrite_effect_partial e vs (row : list Cell) :
  length vs = ncols → length (ev_changed e) = ncols →
  imap (λ j c, match overwrite_changed vs (ev_changed e) (ev_source e) !! j with
               | Some (Some s) => src_cell j s | _ => c end) row =
  update_row (ev_changed e) (ev_source e)
    (imap (λ j c, match vs !! j with Some (Some s) => src_cell j s | _ => c end) row).
Proof.
  intros Hvs Hch. apply list_eq. intros j. unfold update_row.
  rewrite !list_lookup_imap. destruct (row !! j) as [c|]; [|done]. cbn. f_equal.
  rewrite lookup_overwrite. destruct (decide (j < ncols)%nat).
  - destruct (lookup_lt_is_Some_2 vs j) as [v ->]; [lia|]. cbn.
    by destruct (default false (ev_changed e !! j)).
  - by rewrite !lookup_ge_None_2 by lia.
Qed.

Lemma next_row_occupied prev e r :
  event_ok e → row_ok prev → next_row (Some prev) e = Ok r →
  row_ok r ∧ key_cells r = ev_cells e ∧
  ∀ row, collapsed_effect r row = event_effect e (collapsed_effect prev row).
Proof.
  intros He Hp Hr. cbn in Hr. unfold occupied_row in Hr. pose proof (ro_length _ Hp) as Hlen.
  pose proof (eo_length _ He) as Hch. apply bind_Ok in Hr as ([o vs] & Hm & [= <-]).
  unfold collapsed_effect, event_effect, key_cells; cbn. rewrite <-(eo_cells _ He).
  destruct (ev_op e) eqn:Eo.
  1,2: injection Hm as <- <-;
    assert (∀ j, (j < ncols)%nat → ((λ _, Some (ev_source e)) <$> value_rows prev) !! j
      = Some (Some (ev_source e))) as Hall
      by (intros j Hj; rewrite list_lookup_fmap;
          destruct (lookup_lt_is_Some_2 (value_rows prev) j) as [v ->]; [lia|done]);
    (split_and!;
     [ split; cbn; try done; [by rewrite length_fmap|by eauto| |]
     | apply list_fmap_ext; intros i j Hi%list_elem_of_lookup_2;
       destruct (changed_key e j He Hi); by rewrite Hall
     | intros row; f_equal; apply source_row_imap; [by rewrite length_fmap|done] ]);
    [ intros j Hj; destruct (changed_key e j He Hj); eauto
    | intros j s; rewrite list_lookup_fmap; destruct (value_rows prev !! j) eqn:Ej; [|done];
      intros [= <-]; apply lookup_lt_Some in Ej; apply (eo_source _ He); [lia|by rewrite Eo] ].
  - (* update *)
    apply bind_Ok in Hm as ([] & Hd & [= <- <-]). apply ensure_Ok in Hd. bool_inv.
    split_and!.
    + split; cbn.
      * by rewrite length_overwrite.
      * intros Hop j Hj. rewrite lookup_overwrite.
        destruct (ro_complete _ Hp) with (j := j) as [s ->]; [by destruct (operation prev); tauto|done|].
        cbn. destruct (default false _); eauto.
      * intros j Hj. rewrite overwrite_key by done. eauto.
      * by destruct (operation prev).
      * intros j s [[-> ?]|Hs]%overwrite_sources; [|by eapply (ro_source _ Hp)|done].
        apply (eo_source _ He); [done|by rewrite Eo].
    + apply list_fmap_ext. intros i j Hi%list_elem_of_lookup_2. by rewrite overwrite_key.
    + intros row. destruct (operation prev) eqn:Ep; try done; cbn;
        [by rewrite overwrite_effect_complete..|].
      destruct row as [row|]; [|done]. cbn. by rewrite overwrite_effect_partial.
  - (* delete *)
    injection Hm as <- <-. split_and!; [|apply list_fmap_ext; intros i j Hi%list_elem_of_lookup_2|done].
    + split; cbn; [by unfold key_sources; rewrite length_fmap, length_seq|by intros [|]|..].
      * intros j Hj. destruct (changed_key e j He Hj) as [_ ?]. rewrite lookup_key_sources.
        rewrite decide_True, bool_decide_eq_true_2 by (done || lia). eauto.
      * intros _ j s. rewrite lookup_key_sources. case_decide; [|done]. by case_bool_decide.
      * intros j s. rewrite lookup_key_sources. case_decide; [|done]. case_bool_decide; [|done].
        intros [= <-]. by apply (eo_source _ He); [lia|].
    + destruct (changed_key e j He Hi) as [_ ?]. rewrite lookup_key_sources.
      by rewrite decide_True, bool_decide_eq_true_2 by (done || lia).
Qed.

Lemma next_row_spec prev e r :
  event_ok e → (∀ p, prev = Some p → row_ok p) → next_row prev e = Ok r →
  row_ok r ∧ key_cells r = ev_cells e ∧ final_position r = ev_pos e ∧ source_version r = ev_version e ∧
  ∀ row, collapsed_effect r row = event_effect e (opt_effect prev row).
Proof.
  intros He Hp Hr.
  assert (final_position r = ev_pos e ∧ source_version r = ev_version e) as [? ?].
  { destruct prev; cbn in Hr; [|by injection Hr as <-].
    apply bind_Ok in Hr as ([o vs] & _ & [= <-]). done. }
  destruct prev as [p|].
  - destruct (next_row_occupied p e r) as (? & ? & ?); auto.
  - destruct (next_row_vacant e r) as (? & ? & ?); auto.
Qed.

(** ** A sequence of events *)

(** [e] is the last event of [es] on its key. *)
Definition last_event (es : list Event) (e : Event) : Prop :=
  ∃ l1 l2, es = l1 ++ e :: l2 ∧ ∀ x, x ∈ l2 → ev_key x ≠ ev_key e.

Record collapsed_inv (all es : list Event) (latest : gmap (list Z) CollapsedRow) : Prop := {
  ci_effect : ∀ T e, e ∈ all →
    foldl apply_event T es (ev_cells e) = opt_effect (latest !! ev_key e) (T (ev_cells e));
  ci_other : ∀ T k, (∀ e, e ∈ es → ev_cells e ≠ k) → foldl apply_event T es k = T k;
  ci_rows : ∀ b r, latest !! b = Some r → row_ok r ∧ ∃ e, last_event es e ∧ ev_key e = b ∧
    key_cells r = ev_cells e ∧ final_position r = ev_pos e ∧ source_version r = ev_version e ∧
    (operation r = Delete ↔ ev_op e = Delete);
  ci_dom : ∀ e, e ∈ es → is_Some (latest !! ev_key e)
}.

Lemma last_event_in es e : last_event es e → e ∈ es.
Proof. intros (l1 & l2 & -> & _). rewrite elem_of_app. right. left. Qed.

Lemma last_event_snoc es e x : last_event es e → ev_key x ≠ ev_key e → last_event (es ++ [x]) e.
Proof.
  intros (l1 & l2 & -> & Hl) Hx. exists l1, (l2 ++ [x]). split; [by rewrite <-app_assoc|].
  intros y [?|Hy%list_elem_of_singleton]%elem_of_app; [auto|by subst].
Qed.

Lemma last_event_self es e : last_event (es ++ [e]) e.
Proof. exists es, []. split; [done|]. by intros x ?%not_elem_of_nil. Qed.

Lemma next_row_operation prev e r :
  next_row prev e = Ok r → (operation r = Delete ↔ ev_op e = Delete).
Proof.
  destruct prev as [p|]; cbn; [|by intros [= <-]].
  unfold occupied_row. intros Hr. apply bind_Ok in Hr as ([o vs] & Hm & [= <-]). cbn.
  destruct (ev_op e); res_inv; try done. destruct (operation p); res_inv; done.
Qed.

Section events.
Context (all : list Event).
Hypothesis all_ok : Forall event_ok all.
Hypothesis keys_agree : ∀ e1 e2, e1 ∈ all → e2 ∈ all →
  ev_key e1 = ev_key e2 ↔ ev_cells e1 = ev_cells e2.

Lemma collapsed_inv_empty : collapsed_inv all [] ∅.
Proof.
  split.
  - intros T e _. by rewrite lookup_empty.
  - done.
  - intros b r Hb. by rewrite lookup_empty in Hb.
  - by intros e ?%not_elem_of_nil.
Qed.

Lemma collapsed_inv_step es e latest latest' :
  e ∈ all → (∀ x, x ∈ es → x ∈ all) → collapsed_inv all es latest →
  collapse_event latest e = Ok latest' → collapsed_inv all (es ++ [e]) latest'.
Proof.
  intros He Hes Hinv Hstep. rewrite collapse_event_next in Hstep. apply bind_Ok in Hstep as (r & Hr & [= <-]).
  pose proof (next_row_operation _ _ _ Hr) as Hop.
  destruct (next_row_spec (latest !! ev_key e) e r) as (Hok & Hk & Hpos & Hver & Heff);
    [by rewrite Forall_forall in all_ok; apply all_ok|
     by intros p Hp; apply (ci_rows _ _ _ Hinv) in Hp as [? _]|done|].
  split.
  - intros T x Hx. rewrite foldl_app. cbn. unfold apply_event at 1, set_row. case_decide as Hc.
    + assert (ev_key e = ev_key x) as Hke by (by apply keys_agree).
      rewrite <-Hke, lookup_insert_eq, (ci_effect _ _ _ Hinv) by done. cbn. by rewrite Heff, Hc.
    + rewrite lookup_insert_ne; [by apply (ci_effect _ _ _ Hinv)|].
      intros Hke. apply Hc. symmetry. by apply keys_agree.
  - intros T k Hk'. rewrite foldl_app. cbn. unfold apply_event at 1, set_row. case_decide as Hc.
    + subst k. exfalso. apply (Hk' e); [|done]. rewrite elem_of_app. right. left.
    + apply (ci_other _ _ _ Hinv). intros x Hx. apply Hk'. rewrite elem_of_app. by left.
  - intros b r' [[<- <-]|[Hne Hb]]%lookup_insert_Some.
    + split; [done|]. exists e. by split_and!; [apply last_event_self|..].
    + destruct (ci_rows _ _ _ Hinv _ _ Hb) as (? & x & Hl & <- & ? & ? & ? & ?). split; [done|].
      exists x. by split_and!; [apply last_event_snoc|..].
  - intros x [Hx|Hx%list_elem_of_singleton]%elem_of_app; rewrite lookup_insert; case_decide; subst; try done.
    by apply (ci_dom _ _ _ Hinv).
Qed.

Lemma collapse_events es latest :
  (∀ x, x ∈ es → x ∈ all) → for_each collapse_event es ∅ = Ok latest → collapsed_inv all es latest.
Proof.
  intros Hes Hr.
  eapply (for_each_ind (λ es latest, collapsed_inv all es latest)); [..|exact Hr].
  - apply collapsed_inv_empty.
  - intros l1 x l2 s1 s2 -> IH Hs. eapply collapsed_inv_step; [| |exact IH|exact Hs].
    + apply Hes. rewrite elem_of_app. right. left.
    + intros y Hy. apply Hes. rewrite elem_of_app. by left.
Qed.

(** ** When collapsing fails *)

(** An update of a key whose last change in the batch is a deletion. *)
Definition updates_deleted (es : list Event) : Prop :=
  ∃ es1 e es2, es = es1 ++ e :: es2 ∧ ev_op e = Update ∧
    ∃ d, last_event es1 d ∧ ev_key d = ev_key e ∧ ev_op d = Delete.

Lemma next_row_fails prev e err :
  next_row prev e = Err err →
  err = UpdateAfterDelete ∧ ev_op e = Update ∧ ∃ r, prev = Some r ∧ operation r = Delete.
Proof.
  destruct prev as [r|]; [|done]. cbn. unfold occupied_row.
  destruct (ev_op e); cbn; try done. destruct (operation r) eqn:Eo; cbn; try done.
  intros [= <-]. eauto.
Qed.

Lemma collapse_error l latest err :
  for_each collapse_event l latest = Err err → err = UpdateAfterDelete.
Proof.
  revert latest. induction l as [|x l IH]; intros s Hl; [done|]. cbn in Hl.
  rewrite collapse_event_next in Hl.
  destruct (next_row _ x) as [r|e'] eqn:En; cbn in Hl; [by eapply IH|].
  simplify_eq. by apply next_row_fails in En as [? _].
Qed.

Lemma last_event_unique es a b :
  last_event es a → last_event es b → ev_key a = ev_key b → a = b.
Proof.
  intros (l1 & l2 & -> & Ha) (k1 & k2 & He & Hb) Hk.
  apply app_eq_inv in He as [(k & -> & He)|(k & -> & He)]; destruct k as [|y k]; cbn in He; simplify_eq;
    try done.
  - exfalso. eapply Hb; [|exact Hk]. rewrite elem_of_app. right. left.
  - exfalso. eapply Ha; [|symmetry; exact Hk]. rewrite elem_of_app. right. left.
Qed.

Lemma collapse_fails_iff es :
  (∀ x, x ∈ es → x ∈ all) →
  (updates_deleted es → for_each collapse_event es ∅ = Err UpdateAfterDelete) ∧
  (∀ err, for_each collapse_event es ∅ = Err err → err = UpdateAfterDelete ∧ updates_deleted es).
Proof.
  intros Hes. split.
  - revert Hes. intros Hes (es1 & e & es2 & -> & Hop & d & Hd & Hk & Hdel).
    rewrite for_each_app. cbn [for_each].
    destruct (for_each collapse_event es1 ∅) as [latest|err] eqn:E1; cbn.
    + assert (collapsed_inv all es1 latest) as Hinv.
      { apply collapse_events; [|done]. intros x Hx. apply Hes. rewrite elem_of_app. by left. }
      destruct (ci_dom _ _ _ Hinv d) as [r Hr]; [by apply last_event_in|].
      destruct (ci_rows _ _ _ Hinv _ _ Hr) as (_ & d' & Hd' & Hk' & _ & _ & _ & Hiff).
      assert (d' = d) as -> by (by eapply last_event_unique).
      rewrite collapse_event_next, <-Hk, Hr. cbn. unfold occupied_row. rewrite Hop. cbn.
      by rewrite (proj2 Hiff Hdel).
    + f_equal. by eapply collapse_error.
  - induction es as [|e es IH] using rev_ind; intros err Herr; [done|].
    rewrite for_each_app in Herr. cbn [for_each] in Herr.
    assert (∀ x, x ∈ es → x ∈ all) as Hes' by (intros x Hx; apply Hes; rewrite elem_of_app; by left).
    destruct (for_each collapse_event es ∅) as [latest|err'] eqn:E; cbn in Herr.
    + pose proof (collapse_events _ _ Hes' E) as Hinv. rewrite collapse_event_next in Herr.
      destruct (next_row _ e) as [r|e'] eqn:En; cbn in Herr; [done|]. simplify_eq.
      apply next_row_fails in En as (-> & Hop & r & Hr & Hd). split; [done|].
      destruct (ci_rows _ _ _ Hinv _ _ Hr) as (_ & d & Hl & Hk & _ & _ & _ & Hiff).
      exists es, e, []. split_and!; [done..|]. exists d. by rewrite <-Hiff.
    + simplify_eq. destruct (IH Hes' err eq_refl) as (-> & es1 & x & es2 & -> & Hrest). split; [done|].
      exists es1, x, (es2 ++ [e]). by rewrite <-app_assoc.
Qed.

(** ** The selected rows *)
Definition apply_row (T : Table) (r : CollapsedRow) : Table :=
  set_row T (key_cells r) (collapsed_effect r (T (key_cells r))).

Lemma apply_rows_other T rs k :
  (∀ r, r ∈ rs → key_cells r ≠ k) → foldl apply_row T rs k = T k.
Proof.
  revert T. induction rs as [|r rs IH]; intros T Hk; [done|]. cbn. rewrite IH.
  - unfold apply_row, set_row. case_decide; [|done]. exfalso. by apply (Hk r); [left|].
  - intros x Hx. apply Hk. by right.
Qed.

Lemma apply_rows_hit T rs r :
  NoDup (key_cells <$> rs) → r ∈ rs →
  foldl apply_row T rs (key_cells r) = collapsed_effect r (T (key_cells r)).
Proof.
  revert T. induction rs as [|x rs IH]; intros T Hnd Hr; [by apply not_elem_of_nil in Hr|].
  cbn in Hnd |- *. apply NoDup_cons in Hnd as [Hx Hnd]. apply elem_of_cons in Hr as [->|Hr].
  - rewrite apply_rows_other.
    + unfold apply_row, set_row. by rewrite decide_True.
    + intros y Hy He. apply Hx. rewrite <-He. by apply list_elem_of_fmap_2.
  - rewrite IH by done. f_equal. unfold apply_row, set_row. rewrite decide_False; [done|].
    intros He. apply Hx. rewrite <-He. by apply list_elem_of_fmap_2.
Qed.

Section selected.
Context (latest : gmap (list Z) CollapsedRow) (es : list Event).
Hypothesis es_all : ∀ x, x ∈ es → x ∈ all.
Hypothesis inv : collapsed_inv all es latest.
Hypothesis positions : NoDup (ev_pos <$> es).

Lemma select_perm : select_rows latest ≡ₚ (map_to_list latest).*2.
Proof. apply merge_sort_Permutation. Qed.

Lemma elem_of_select r : r ∈ select_rows latest ↔ ∃ b, latest !! b = Some r.
Proof.
  rewrite select_perm, list_elem_of_fmap. split.
  - intros ([b r'] & -> & Hb%elem_of_map_to_list). eauto.
  - intros [b Hb]. exists (b, r). split; [done|]. by apply elem_of_map_to_list.
Qed.

Lemma same_key_cells b1 b2 r1 r2 :
  latest !! b1 = Some r1 → latest !! b2 = Some r2 → key_cells r1 = key_cells r2 → b1 = b2.
Proof.
  intros H1 H2 Hk.
  destruct (ci_rows _ _ _ inv _ _ H1) as (_ & e1 & Hl1 & <- & Hk1 & _).
  destruct (ci_rows _ _ _ inv _ _ H2) as (_ & e2 & Hl2 & <- & Hk2 & _).
  apply keys_agree; [by apply es_all, last_event_in..|congruence].
Qed.

Lemma NoDup_map_values {B} (f : CollapsedRow → B) :
  (∀ b1 b2 r1 r2, latest !! b1 = Some r1 → latest !! b2 = Some r2 → f r1 = f r2 → b1 = b2) →
  NoDup (f <$> (map_to_list latest).*2).
Proof.
  intros Hf. rewrite <-list_fmap_compose. apply NoDup_fmap_2_strong; [|apply NoDup_map_to_list].
  intros [b1 r1] [b2 r2] H1%elem_of_map_to_list H2%elem_of_map_to_list He. cbn in He.
  assert (b1 = b2) as -> by eauto. congruence.
Qed.

Lemma select_keys_NoDup : NoDup (key_cells <$> select_rows latest).
Proof. rewrite select_perm. apply NoDup_map_values. apply same_key_cells. Qed.

Lemma same_position b1 b2 r1 r2 :
  latest !! b1 = Some r1 → latest !! b2 = Some r2 → final_position r1 = final_position r2 → b1 = b2.
Proof.
  intros H1 H2 Hp.
  destruct (ci_rows _ _ _ inv _ _ H1) as (_ & e1 & Hl1 & <- & _ & Hp1 & _).
  destruct (ci_rows _ _ _ inv _ _ H2) as (_ & e2 & Hl2 & <- & _ & Hp2 & _).
  apply last_event_in, list_elem_of_lookup in Hl1 as [i Hi].
  apply last_event_in, list_elem_of_lookup in Hl2 as [j Hj].
  assert (i = j) as ->; [|congruence].
  apply (NoDup_lookup _ i j (ev_pos e1) positions); rewrite list_lookup_fmap, ?Hi, ?Hj; cbn; congruence.
Qed.

Lemma select_positions : NoDup (final_position <$> select_rows latest).
Proof. rewrite select_perm. apply NoDup_map_values. apply same_position. Qed.

#[local] Instance position_le_trans : Transitive position_le.
Proof. intros x y z. unfold position_le. lia. Qed.
#[local] Instance position_le_total : Total position_le.
Proof. intros x y. unfold position_le. lia. Qed.

Lemma select_sorted : StronglySorted position_le (select_rows latest).
Proof. apply StronglySorted_merge_sort; apply _. Qed.

(** Neither the order of the hash map nor the instability of the sort shows. *)
Lemma selected_unique l :
  l ≡ₚ (map_to_list latest).*2 → StronglySorted position_le l → l = select_rows latest.
Proof.
  intros Hl Hs. apply (StronglySorted_unique_strong position_le);
    [|done|apply select_sorted|by rewrite Hl, select_perm].
  intros x y Hx Hy Hxy Hyx. rewrite Hl, <-select_perm in Hx.
  apply list_elem_of_lookup in Hx as [i Hi]. apply list_elem_of_lookup in Hy as [j Hj].
  assert (i = j) as ->; [|congruence].
  apply (NoDup_lookup _ i j (final_position x) select_positions);
    rewrite list_lookup_fmap, ?Hi, ?Hj; cbn; [done|]. f_equal. unfold position_le in *. lia.
Qed.

(** Applying the selected rows is applying the events. *)
Lemma apply_selected T k : foldl apply_row T (select_rows latest) k = foldl apply_event T es k.
Proof.
  destruct (decide (Exists (λ e, ev_cells e = k) es)) as [He|He].
  - apply Exists_exists in He as (e & Hin & <-).
    rewrite (ci_effect _ _ _ inv) by auto.
    destruct (ci_dom _ _ _ inv e Hin) as [r Hr]. rewrite Hr. cbn.
    destruct (ci_rows _ _ _ inv _ _ Hr) as (_ & x & Hx & Hk & Hc & _).
    assert (ev_cells e = key_cells r) as ->.
    { rewrite Hc. symmetry. apply keys_agree; [by apply es_all, last_event_in|by apply es_all|done]. }
    apply apply_rows_hit; [apply select_keys_NoDup|]. apply elem_of_select. eauto.
  - rewrite (ci_other _ _ _ inv); [apply apply_rows_other|].
    + intros r [b Hb]%elem_of_select Hk. apply He, Exists_exists.
      destruct (ci_rows _ _ _ inv _ _ Hb) as (_ & x & Hx & _ & Hc & _). exists x.
      split; [by apply last_event_in|congruence].
    + intros e Hin Hk. apply He, Exists_exists. by exists e.
Qed.
End selected.
End events.
End collapse.
