(* ===== verification/ChangelogRuns.v ===== *)
(** * Collapsed runs preserve the changes

    The end-to-end theorem on [ChangelogBatch::collapsed_runs] and
    [collapsed_full_image_runs] ([transferia-core/src/data/changelog.rs]): a state sink
    that applies the returned runs reaches the table it would reach by applying the
    changes of the batch one by one.

    [apply_change] is the meaning of one row of the batch, [apply_run] what a state sink
    does with a run: it finds values by column name, inserts complete rows, overwrites
    the columns present in an update and deletes by key. *)

From stdpp Require Import base tactics numbers option strings gmap fin_maps fin_sets sorting list.
From S2P Require Import Prelude Schema Arrow Delivery Changelog Collapse.
Local Open Scope Z_scope.

Section runs.
Context {AT : ArrowTypes} {AV : ArrowValues} {AC : ArrowCompute}.

(** ** Values of a batch *)
Definition ncols (cb : ChangelogBatch) : nat := length (rb_columns (rows cb)).
Definition nrows (cb : ChangelogBatch) : nat := rb_rows (rows cb).

Definition column_cell (columns : list Array) (j row : nat) : Cell :=
  default None (columns !! j ≫= λ a, cells a !! row).

(** The value of column [j] at a source. *)
Definition src_cell (cb : ChangelogBatch) (j : nat) (s : ValueSource) : Cell :=
  match s with
  | Current row => column_cell (rb_columns (rows cb)) j row
  | OldPrimaryKey row =>
      match old_primary_keys cb, fst <$> list_find (λ i, i = j) (primary_key_indexes cb) with
      | Some old, Some p => column_cell (rb_columns old) p row
      | _, _ => None
      end
  end.

Definition src_ok (cb : ChangelogBatch) (j : nat) (s : ValueSource) : Prop :=
  match s with
  | Current row => (row < nrows cb)%nat
  | OldPrimaryKey row =>
      (row < nrows cb)%nat ∧ j ∈ primary_key_indexes cb ∧ is_Some (old_primary_keys cb) ∧
      src_cell cb j (OldPrimaryKey row) ≠ None
  end.

(** ** The meaning of a changelog batch *)
Definition key_at (cb : ChangelogBatch) (row : nat) : list Cell :=
  (λ j, column_cell (rb_columns (rows cb)) j row) <$> primary_key_indexes cb.
Definition old_key_at (old : RecordBatch) (row : nat) : list Cell := row_of (rb_columns old) row.
Definition full_row (cb : ChangelogBatch) (row : nat) : list Cell :=
  (λ j, column_cell (rb_columns (rows cb)) j row) <$> seq 0 (ncols cb).

(** Overwrite the changed columns of an existing row. *)
Definition overwrite_row (cb : ChangelogBatch) (mask : list bool) (row : nat) (existing : list Cell)
    : list Cell :=
  imap (λ j c, if default false (mask !! j) then column_cell (rb_columns (rows cb)) j row else c) existing.

Definition apply_change (cb : ChangelogBatch) (T : Table) (row_mask : nat * list bool) : Table :=
  let '(row, mask) := row_mask in
  let key := key_at cb row in
  match operations cb !! row, old_primary_keys cb with
  | Some (Create | SnapshotRead), _ => set_row T key (Some (full_row cb row))
  | Some Update, None => set_row T key (overwrite_row cb mask row <$> T key)
  | Some Update, Some old =>
      if decide (old_key_at old row = key)
      then set_row T key (overwrite_row cb mask row <$> T key)
      else set_row (set_row T (old_key_at old row) None) key (Some (full_row cb row))
  | Some Delete, None => set_row T key None
  | Some Delete, Some old => set_row T (old_key_at old row) None
  | None, _ => T
  end.

Definition apply_changes (cb : ChangelogBatch) (masks : list (list bool)) (T : Table) : Table :=
  foldl (apply_change cb) T (enumerate masks).

(** ** What a state sink does with a run *)
Definition run_value (b : RecordBatch) (n : string) (i : nat) : option Cell :=
  match list_find (λ f, f_name f = n) (rb_schema b) with
  | Some (p, _) => (λ a, default None (cells a !! i)) <$> rb_columns b !! p
  | None => None
  end.

(** [names] are the columns of the destination table, [keys] its key columns. *)
Definition apply_run_row (names keys : list string) (run : ChangelogRun) (T : Table) (i : nat) : Table :=
  let value n := default None (run_value (run_batch run) n i) in
  let key := value <$> keys in
  match run_operation run with
  | Delete => set_row T key None
  | Create | SnapshotRead => set_row T key (Some (value <$> names))
  | Update =>
      set_row T key
        (imap (λ j c, default c (n ← names !! j; run_value (run_batch run) n i)) <$> T key)
  end.

Definition apply_run (names keys : list string) (T : Table) (run : ChangelogRun) : Table :=
  foldl (apply_run_row names keys run) T (seq 0 (rb_rows (run_batch run))).

Definition apply_runs (names keys : list string) (T : Table) (rs : list ChangelogRun) : Table :=
  foldl (apply_run names keys) T rs.

(** ** Well-formed changelog batches

    What [project_sink_batch] guarantees (file ChangelogProjection). *)
Record changelog_wf (cb : ChangelogBatch) (masks : list (list bool)) : Prop := {
  cw_rows : batch_wf (rows cb);
  cw_names : NoDup (f_name <$> rb_schema (rows cb));
  cw_operations : length (operations cb) = nrows cb;
  cw_versions : length (source_versions cb) = nrows cb;
  cw_masks : length masks = nrows cb;
  cw_mask_length : Forall (λ m, length m = ncols cb) masks;
  cw_nonempty : primary_key_indexes cb ≠ [];
  cw_nodup : NoDup (primary_key_indexes cb);
  cw_key_range : Forall (λ j, (j < ncols cb)%nat) (primary_key_indexes cb);
  cw_key_names : Forall2 (λ j n, f_name <$> rb_schema (rows cb) !! j = Some n)
    (primary_key_indexes cb) (primary_keys cb);
  cw_key_masks : ∀ row m j, masks !! row = Some m → j ∈ primary_key_indexes cb → m !! j = Some true;
  cw_complete : ∀ row m op, masks !! row = Some m → operations cb !! row = Some op →
    op = Create ∨ op = SnapshotRead → Forall (λ c, c = true) m;
  cw_old : ∀ old, old_primary_keys cb = Some old →
    Forall array_ok (rb_columns old) ∧
    Forall2 (λ j a, array_type <$> rb_columns (rows cb) !! j = Some (array_type a))
      (primary_key_indexes cb) (rb_columns old) ∧
    Forall (λ a, array_len a = nrows cb) (rb_columns old) ∧
    ∀ row op, operations cb !! row = Some op → op = Update ∨ op = Delete →
      Forall (λ c, c ≠ None) (old_key_at old row)
}.

(** ** Lemmas on values *)
Section wf.
Context (cb : ChangelogBatch) (masks : list (list bool)).
Hypothesis wf : changelog_wf cb masks.

Lemma schema_length : length (rb_schema (rows cb)) = ncols cb.
Proof. pose proof (f_equal length (bw_types _ (cw_rows _ _ wf))) as Hl. by rewrite !length_fmap in Hl. Qed.

Lemma column_at j : (j < ncols cb)%nat →
  ∃ a f, rb_columns (rows cb) !! j = Some a ∧ rb_schema (rows cb) !! j = Some f ∧
    array_ok a ∧ array_type a = f_type f ∧ array_len a = nrows cb ∧ nulls_ok f a.
Proof.
  intros Hj. destruct (lookup_lt_is_Some_2 (rb_columns (rows cb)) j Hj) as [a Ha].
  destruct (lookup_lt_is_Some_2 (rb_schema (rows cb)) j) as [f Hf]; [by rewrite schema_length|].
  destruct (cw_rows _ _ wf) as [H1 H2 H3 H4]. exists a, f. split_and!; try done.
  - by eapply Forall_lookup_1 in H1.
  - assert ((array_type <$> rb_columns (rows cb)) !! j = (f_type <$> rb_schema (rows cb)) !! j) as He
      by (by rewrite H2). rewrite !list_lookup_fmap, Ha, Hf in He. by injection He.
  - by eapply Forall_lookup_1 in H3.
  - by eapply Forall2_lookup_lr.
Qed.

(** An index source of a column: old values follow the current ones. *)
Definition source_pos (s : ValueSource) : Z :=
  match s with
  | Current row => Z.of_nat row
  | OldPrimaryKey row => Z.of_nat (nrows cb + row)
  end.

Lemma source_index_ok j r s :
  2 * Z.of_nat (nrows cb) ≤ u32_max + 1 →
  value_rows r !! j = Some (Some s) → src_ok cb j s → source_index cb j r = Ok (source_pos s).
Proof.
  intros Hn Hr Hs. unfold source_index, at_. rewrite Hr. cbn. unfold to_u32.
  destruct s as [row|row]; cbn in Hs |- *.
  - rewrite bool_decide_eq_true_2 by lia. done.
  - unfold nrows in *. unfold checked_add. unfold usize_max, u64_max, u32_max in *.
    rewrite bool_decide_eq_true_2 by lia. cbn. rewrite bool_decide_eq_true_2 by lia.
    cbn. f_equal. lia.
Qed.

Lemma old_column_at old j p :
  old_primary_keys cb = Some old → list_find (λ i, i = j) (primary_key_indexes cb) = Some (p, j) →
  ∃ b, rb_columns old !! p = Some b ∧ array_ok b ∧ array_len b = nrows cb ∧
    array_type <$> rb_columns (rows cb) !! j = Some (array_type b).
Proof.
  intros Ho Hp. destruct (cw_old _ _ wf _ Ho) as (H1 & H2 & H3 & _).
  apply list_find_Some in Hp as (Hp & _ & _).
  destruct (Forall2_lookup_l _ _ _ _ _ H2 Hp) as (b & Hb & Ht).
  exists b. split_and!; try done; [by eapply Forall_lookup_1 in H1|by eapply Forall_lookup_1 in H3].
Qed.

(** The array a column's values are taken from holds every value at its source. *)
Lemma source_array_ok j : (j < ncols cb)%nat →
  ∃ a f, source_array cb j = Ok a ∧ rb_schema (rows cb) !! j = Some f ∧ array_ok a ∧
    array_type a = f_type f ∧
    ∀ s, src_ok cb j s → 0 ≤ source_pos s < Z.of_nat (array_len a) ∧
      cell_at a (source_pos s) = src_cell cb j s ∧
      (f_nullable f = true ∨ src_cell cb j s ≠ None).
Proof.
  intros Hj. destruct (column_at j Hj) as (a & f & Ha & Hf & Hok & Ht & Hlen & Hnull).
  assert (∀ row, (row < nrows cb)%nat → src_cell cb j (Current row) = default None (cells a !! row)) as Hcur.
  { intros row _. cbn. unfold column_cell. by rewrite Ha. }
  assert (∀ row, (row < nrows cb)%nat → f_nullable f = true ∨ src_cell cb j (Current row) ≠ None) as Hn.
  { intros row Hrow. destruct Hnull as [|HF]; [by left|right]. rewrite Hcur by done.
    destruct (cells a !! row) as [c|] eqn:Hc.
    - cbn. by eapply Forall_lookup_1 in HF.
    - apply lookup_ge_None in Hc. unfold array_len in Hlen. lia. }
  unfold source_array, at_. rewrite Ha. cbn.
  case_bool_decide as Hpk.
  2:{ exists a, f. split_and!; try done. intros [row|row] Hs; cbn in Hs; [|tauto].
      rewrite Hcur by done. unfold cell_at, source_pos. rewrite Nat2Z.id.
      split_and!; [lia|lia|done|]. rewrite <-Hcur by done. by apply Hn. }
  destruct (list_find (λ i, i = j) (primary_key_indexes cb)) as [[p j']|] eqn:Ep.
  2:{ exfalso. apply list_find_None in Ep. rewrite Forall_forall in Ep. by apply (Ep j). }
  assert (j' = j) as -> by (by apply list_find_Some in Ep as (_ & ? & _)). cbn.
  destruct (old_primary_keys cb) as [old|] eqn:Eo.
  - destruct (old_column_at old j p Eo Ep) as (b & Hb & Hbok & Hblen & Hbt). rewrite Hb. cbn.
    rewrite Ha in Hbt. injection Hbt as Hbt.
    destruct (concat_ok a b Hok Hbok Hbt) as (c & -> & Hcok & Hct & Hcells). cbn.
    exists c, f. split_and!; try done; [congruence|].
    assert (array_len c = nrows cb + nrows cb)%nat as Hclen.
    { unfold array_len in *. rewrite Hcells, length_app. lia. }
    intros [row|row] Hs; cbn [src_ok source_pos] in *; unfold cell_at; rewrite Nat2Z.id, Hcells.
    + rewrite lookup_app_l by (unfold array_len in Hlen; lia). rewrite <-Hcur by done.
      split_and!; [lia|lia|done|by apply Hn].
    + destruct Hs as (Hrow & _ & _ & Hnn). split_and!; [lia|lia| |by right].
      rewrite lookup_app_r by (unfold array_len in Hlen; lia).
      cbn. rewrite Eo, Ep. cbn. unfold column_cell. rewrite Hb. cbn. f_equal. f_equal.
      unfold array_len in Hlen. lia.
  - exists a, f. split_and!; try done. intros [row|row] Hs; cbn in Hs.
    + rewrite Hcur by done. unfold cell_at, source_pos. rewrite Nat2Z.id.
      split_and!; [lia|lia|done|]. rewrite <-Hcur by done. by apply Hn.
    + destruct Hs as (_ & _ & [? ?] & _). congruence.
Qed.

(** ** Materializing one run *)
Hypothesis small : 2 * Z.of_nat (nrows cb) ≤ u32_max + 1.

Abbreviation row_ok' := (row_ok (ncols cb) (primary_key_indexes cb) (src_ok cb)).

(** The cell of column [j] in a collapsed row. *)
Definition row_cell (j : nat) (r : CollapsedRow) : Cell :=
  value_cell (src_cell cb) j (default None (value_rows r !! j)).

Lemma mapM_all_Ok {E A B} (f : A → result E B) (g : A → B) (l : list A) :
  (∀ x, x ∈ l → f x = Ok (g x)) → mapM f l = Ok (g <$> l).
Proof.
  intros Hf. apply mapM_Ok. induction l as [|x l IH]; constructor.
  - apply Hf. left.
  - apply IH. intros y Hy. apply Hf. by right.
Qed.

Lemma run_column_ok sel j :
  (j < ncols cb)%nat → (∀ r, r ∈ sel → row_ok' r ∧ ∃ s, value_rows r !! j = Some (Some s)) →
  ∃ a f, run_column cb sel j = Ok a ∧ rb_schema (rows cb) !! j = Some f ∧
    array_type a = f_type f ∧ cells a = row_cell j <$> sel ∧ nulls_ok f a.
Proof.
  intros Hj Hsel. destruct (source_array_ok j Hj) as (src & f & Hsrc & Hf & Hok & Ht & Hs).
  set (pos := λ r : CollapsedRow,
    match value_rows r !! j with Some (Some s) => source_pos s | _ => 0 end).
  assert (∀ r, r ∈ sel → ∃ s, value_rows r !! j = Some (Some s) ∧ src_ok cb j s ∧ pos r = source_pos s) as Hr.
  { intros r [Hro [s Hv]]%Hsel. exists s. split_and!; [done|by eapply ro_source|]. unfold pos. by rewrite Hv. }
  unfold run_column. rewrite (mapM_all_Ok _ pos).
  2:{ intros r (s & Hv & Hso & Hp)%Hr. rewrite Hp. by apply source_index_ok. }
  rewrite Hsrc. cbn [mbind result_bind].
  destruct (take_ok src (pos <$> sel) Hok) as (a & -> & _ & Hat & Hcells).
  { apply Forall_fmap, Forall_forall. intros r (s & _ & Hso & Hp)%Hr. cbn. rewrite Hp. by apply Hs. }
  assert (cells a = row_cell j <$> sel) as Hc.
  { rewrite Hcells, <-list_fmap_compose. apply list_fmap_ext. intros i r Hi%list_elem_of_lookup_2.
    destruct (Hr r Hi) as (s & Hv & Hso & Hp). cbn. rewrite Hp. unfold row_cell. rewrite Hv. cbn.
    by destruct (Hs s Hso) as (_ & ? & _). }
  exists a, f. split_and!; try done; [congruence|].
  unfold nulls_ok. destruct (f_nullable f) eqn:En; [by left|right]. rewrite Hc.
  apply Forall_fmap, Forall_forall. intros r (s & Hv & Hso & _)%Hr. cbn. unfold row_cell. rewrite Hv. cbn.
  destruct (Hs s Hso) as (_ & _ & [|]); [congruence|done].
Qed.

Lemma elem_of_column_indexes inc j : j ∈ column_indexes inc ↔ inc !! j = Some true.
Proof.
  unfold column_indexes, enumerate. rewrite list_elem_of_omap. split.
  - intros ([i b] & Hin & He). cbn in He. destruct b; [|done]. injection He as ->.
    apply list_elem_of_lookup in Hin as [k Hk]. apply lookup_zip_Some in Hk as [Hk ?].
    apply lookup_seq in Hk as [-> _]. done.
  - intros Hj. exists (j, true). split; [|done]. apply list_elem_of_lookup. exists j.
    apply lookup_zip_Some. split; [|done]. apply lookup_lt_Some in Hj. by apply lookup_seq_lt.
Qed.

(** What one run holds: for every included column, the field and the values. *)
Record run_holds (first : CollapsedRow) (sel : list CollapsedRow) (run : ChangelogRun) : Prop := {
  rh_action : run_action run = operation_action (operation first);
  rh_operation : run_operation run = operation first;
  rh_versions : run_source_versions run = source_version <$> sel;
  rh_rows : rb_rows (run_batch run) = length sel;
  rh_schema : Forall2 (λ j f, rb_schema (rows cb) !! j = Some f)
    (column_indexes (included first)) (rb_schema (run_batch run));
  rh_columns : Forall2 (λ j a, cells a = row_cell j <$> sel)
    (column_indexes (included first)) (rb_columns (run_batch run))
}.

Lemma included_lookup r j : included r !! j = Some true ↔ ∃ s, value_rows r !! j = Some (Some s).
Proof.
  unfold included. rewrite list_lookup_fmap. destruct (value_rows r !! j) as [[s|]|]; cbn; naive_solver.
Qed.

Lemma materialize_run_ok first sel :
  row_ok' first → sel ≠ [] → (∀ r, r ∈ sel → row_ok' r ∧ included r = included first) →
  ∃ run, materialize_run cb first sel = Ok run ∧ run_holds first sel run.
Proof.
  intros Hfirst Hne Hsel. unfold materialize_run. set (ix := column_indexes (included first)).
  assert (∀ j, j ∈ ix → (j < ncols cb)%nat ∧
    ∀ r, r ∈ sel → row_ok' r ∧ ∃ s, value_rows r !! j = Some (Some s)) as Hix.
  { intros j Hj%elem_of_column_indexes. split.
    - apply included_lookup in Hj as [s Hs]. apply lookup_lt_Some in Hs. by rewrite (ro_length _ _ _ _ Hfirst) in Hs.
    - intros r [Hr Hinc]%Hsel. split; [done|]. apply included_lookup. by rewrite Hinc. }
  assert (∃ arrays fields, mapM (run_column cb sel) ix = Ok arrays ∧
    mapM (at_ (rb_schema (rows cb))) ix = Ok fields ∧
    Forall2 (λ j f, rb_schema (rows cb) !! j = Some f) ix fields ∧
    Forall2 (λ j a, cells a = row_cell j <$> sel) ix arrays ∧
    array_type <$> arrays = f_type <$> fields ∧ Forall2 nulls_ok fields arrays)
    as (arrays & fields & -> & -> & HF & HA & Ht & Hn).
  { clearbody ix. induction ix as [|j ix IH].
    - exists [], []. by split_and!; try constructor.
    - destruct IH as (arrays & fields & E1 & E2 & HF & HA & Ht & Hn); [intros; apply Hix; by right|].
      destruct (Hix j) as [Hj Hr]; [left|].
      destruct (run_column_ok sel j Hj Hr) as (a & f & Ha & Hf & Hat & Hc & Hnn).
      exists (a :: arrays), (f :: fields). cbn. rewrite Ha, E1, E2.
      assert (at_ (rb_schema (rows cb)) j = Ok f) as -> by (unfold at_; by rewrite Hf). cbn.
      split_and!; try done; [by constructor|by constructor|by rewrite Hat, Ht|by constructor]. }
  cbn [mbind result_bind].
  assert (ix ≠ []) as Hix0.
  { destruct (primary_key_indexes cb) as [|j l] eqn:Epk; [by destruct (cw_nonempty _ _ wf)|].
    destruct (ro_keys _ _ _ _ Hfirst j) as [s Hs]; [rewrite ?Epk; left|].
    intros He. assert (j ∈ ix) as Hin by (apply elem_of_column_indexes, included_lookup; eauto).
    rewrite He in Hin. by apply not_elem_of_nil in Hin. }
  rewrite (try_new_ok fields arrays (length sel)); try done; cbn.
  - eexists. split; [done|]. by split.
  - intros ->. inversion HA. congruence.
  - apply Forall_forall. intros a Ha. apply list_elem_of_lookup in Ha as [i Hi].
    destruct (Forall2_lookup_r _ _ _ _ _ HA Hi) as (j & _ & Hc).
    unfold array_len. by rewrite Hc, length_fmap.
Qed.

(** ** Applying one run *)
Definition names_of : list string := f_name <$> rb_schema (rows cb).
Abbreviation apply_row' := (apply_row (primary_key_indexes cb) (src_cell cb)).

Lemma name_unique j1 j2 f1 f2 :
  rb_schema (rows cb) !! j1 = Some f1 → rb_schema (rows cb) !! j2 = Some f2 →
  f_name f1 = f_name f2 → j1 = j2.
Proof.
  intros H1 H2 Hn. apply (NoDup_lookup _ _ _ (f_name f1) (cw_names _ _ wf));
    rewrite list_lookup_fmap, ?H1, ?H2; cbn; congruence.
Qed.

Lemma run_value_ok first sel run j f i r :
  run_holds first sel run → rb_schema (rows cb) !! j = Some f → sel !! i = Some r →
  run_value (run_batch run) (f_name f) i =
  if decide (included first !! j = Some true) then Some (row_cell j r) else None.
Proof.
  intros Hrun Hf Hr. unfold run_value.
  destruct (list_find _ _) as [[p f']|] eqn:Ep.
  - apply list_find_Some in Ep as (Hp & Hn & _).
    destruct (Forall2_lookup_r _ _ _ _ _ (rh_schema _ _ _ Hrun) Hp) as (j' & Hj' & Hf').
    assert (j' = j) as -> by (by eapply name_unique).
    rewrite decide_True by (by apply elem_of_column_indexes, list_elem_of_lookup; eauto).
    destruct (Forall2_lookup_l _ _ _ _ _ (rh_columns _ _ _ Hrun) Hj') as (a & -> & Hc). cbn.
    by rewrite Hc, list_lookup_fmap, Hr.
  - rewrite decide_False; [done|]. intros Hin%elem_of_column_indexes%list_elem_of_lookup.
    destruct Hin as [p Hp]. destruct (Forall2_lookup_l _ _ _ _ _ (rh_schema _ _ _ Hrun) Hp) as (f' & Hf' & Hs).
    apply list_find_None in Ep. rewrite Forall_forall in Ep. apply (Ep f'); [by eapply list_elem_of_lookup_2|].
    congruence.
Qed.

(** The value a sink reads for column [j]. *)
Lemma run_cell_ok first sel run j f i r :
  run_holds first sel run → included r = included first → rb_schema (rows cb) !! j = Some f →
  sel !! i = Some r → default None (run_value (run_batch run) (f_name f) i) = row_cell j r.
Proof.
  intros Hrun Hinc Hf Hr. rewrite (run_value_ok first sel run j f i r) by done. case_decide as Hd; [done|].
  cbn. unfold row_cell. rewrite <-Hinc, included_lookup in Hd.
  destruct (value_rows r !! j) as [[s|]|]; cbn; [|done..]. by destruct Hd; eauto.
Qed.

Lemma apply_run_row_ok first sel run i r T :
  run_holds first sel run → sel !! i = Some r → row_ok' r → included r = included first →
  same_sink_operation (operation r) (operation first) = true →
  apply_run_row names_of (primary_keys cb) run T i = apply_row' T r.
Proof.
  intros Hrun Hr Hok Hinc Hsame. unfold apply_run_row, apply_row.
  assert ((λ n, default None (run_value (run_batch run) n i)) <$> primary_keys cb
    = key_cells (primary_key_indexes cb) (src_cell cb) r) as ->.
  { unfold key_cells. symmetry. apply list_eq_Forall2, Forall2_fmap.
    eapply Forall2_impl; [apply (cw_key_names _ _ wf)|]. intros j n Hn. cbn in Hn.
    destruct (rb_schema (rows cb) !! j) as [f|] eqn:Ef; [|done]. injection Hn as <-.
    symmetry. by eapply run_cell_ok. }
  rewrite (rh_operation _ _ _ Hrun).
  assert ((λ n, default None (run_value (run_batch run) n i)) <$> names_of =
    imap (value_cell (src_cell cb)) (value_rows r)) as Hrow.
  { apply list_eq. intros j. unfold names_of. rewrite <-list_fmap_compose, list_lookup_fmap, list_lookup_imap.
    destruct (rb_schema (rows cb) !! j) as [f|] eqn:Ef.
    - cbn. rewrite (run_cell_ok first sel run j f i r) by done. unfold row_cell.
      destruct (value_rows r !! j) as [v|] eqn:Ev; [done|].
      apply lookup_ge_None in Ev. rewrite (ro_length _ _ _ _ Hok) in Ev.
      apply lookup_lt_Some in Ef. rewrite schema_length in Ef. lia.
    - apply lookup_ge_None in Ef. rewrite schema_length in Ef.
      rewrite lookup_ge_None_2; [done|]. by rewrite (ro_length _ _ _ _ Hok). }
  unfold collapsed_effect.
  destruct (operation first), (operation r); try done; try by rewrite Hrow.
  f_equal. destruct (T _) as [row|]; [|done]. cbn. f_equal. apply imap_ext. intros j c _.
  unfold names_of. rewrite list_lookup_fmap.
  destruct (rb_schema (rows cb) !! j) as [f|] eqn:Ef; cbn.
  - rewrite (run_value_ok first sel run j f i r) by done. rewrite <-Hinc. case_decide as Hd.
    + apply included_lookup in Hd as [s Hs]. unfold row_cell. by rewrite Hs.
    + destruct (value_rows r !! j) as [[s|]|] eqn:Ev; [|done..].
      destruct Hd. apply included_lookup. eauto.
  - apply lookup_ge_None in Ef. rewrite schema_length in Ef.
    rewrite lookup_ge_None_2; [done|]. by rewrite (ro_length _ _ _ _ Hok).
Qed.

Lemma foldl_seq {A B} (f : B → nat → B) (g : B → A → B) (l : list A) s :
  (∀ s i x, l !! i = Some x → f s i = g s x) → foldl f s (seq 0 (length l)) = foldl g s l.
Proof.
  revert s f. induction l as [|x l IH]; intros s f Hf; [done|]. cbn.
  rewrite (Hf s 0%nat x) by done. rewrite <-(IH (g s x) (λ s i, f s (S i))).
  - by rewrite <-fmap_S_seq, foldl_fmap.
  - intros s' i y Hy. by apply Hf.
Qed.

Lemma apply_run_ok first sel run T :
  run_holds first sel run →
  (∀ r, r ∈ sel → row_ok' r ∧ included r = included first ∧
    same_sink_operation (operation r) (operation first) = true) →
  apply_run names_of (primary_keys cb) T run = foldl apply_row' T sel.
Proof.
  intros Hrun Hsel. unfold apply_run. rewrite (rh_rows _ _ _ Hrun).
  apply foldl_seq. intros s i r Hi. destruct (Hsel r) as (? & ? & ?); [by eapply list_elem_of_lookup_2|].
  by eapply apply_run_row_ok.
Qed.

(** ** All runs *)

(** A run realises a segment of the selected rows: a non-empty group with one sink
    operation and one set of columns. *)
Definition run_segment (seg : list CollapsedRow) (run : ChangelogRun) : Prop :=
  ∃ first rest, seg = first :: rest ∧ run_holds first seg run ∧
    ∀ r, r ∈ seg → included r = included first ∧
      same_sink_operation (operation r) (operation first) = true.

Lemma run_length_spec op inc l r :
  r ∈ firstn (run_length op inc l) l →
  included r = inc ∧ same_sink_operation (operation r) op = true.
Proof.
  induction l as [|x l IH]; cbn; [by intros ?%not_elem_of_nil|].
  destruct (same_sink_operation (operation x) op && bool_decide (included x = inc)) eqn:E;
    [|by intros ?%not_elem_of_nil].
  cbn. intros [->|Hr]%elem_of_cons; [|by apply IH]. by bool_inv.
Qed.

Lemma same_sink_operation_refl o : same_sink_operation o o = true.
Proof. by destruct o. Qed.

Lemma materialize_from_ok fuel sel :
  (length sel ≤ fuel)%nat → (∀ r, r ∈ sel → row_ok' r) →
  ∃ rs segs, materialize_from fuel cb sel = Ok rs ∧ sel = mjoin segs ∧ Forall2 run_segment segs rs.
Proof.
  revert sel. induction fuel as [|fuel IH]; intros [|first rest] Hlen Hok; cbn in Hlen; try lia.
  1,2: exists [], []; by split_and!; try constructor.
  cbn [materialize_from]. set (n := run_length _ _ rest).
  assert (∀ r, r ∈ first :: firstn n rest → included r = included first ∧
    same_sink_operation (operation r) (operation first) = true) as Hgrp.
  { intros r [->|Hr]%elem_of_cons; [split; [done|apply same_sink_operation_refl]|].
    by apply run_length_spec in Hr. }
  destruct (materialize_run_ok first (firstn (S n) (first :: rest))) as (run & Hrun & Hh).
  { apply Hok. left. }
  { done. }
  { intros r Hr. cbn [firstn] in Hr. split; [|by apply Hgrp]. apply Hok.
    apply elem_of_cons in Hr as [->|Hr]; [left|]. right.
    apply elem_of_take in Hr as (i & Hi & _). by eapply list_elem_of_lookup_2. }
  rewrite Hrun. cbn [mbind result_bind].
  destruct (IH (drop (S n) (first :: rest))) as (rs & segs & -> & Hd & HF).
  { cbn. rewrite length_drop. lia. }
  { intros r Hr. apply Hok. cbn in Hr. right.
    apply list_elem_of_lookup in Hr as [i Hi]. rewrite lookup_drop in Hi. by eapply list_elem_of_lookup_2. }
  exists (run :: rs), ((first :: firstn n rest) :: segs). split_and!; [done| |].
  - change (first :: rest = (first :: firstn n rest) ++ mjoin segs). rewrite <-Hd.
    cbn. by rewrite take_drop.
  - constructor; [|done]. exists first, (firstn n rest). by split_and!.
Qed.

Lemma apply_runs_ok segs rs T :
  (∀ r, r ∈ mjoin segs → row_ok' r) → Forall2 run_segment segs rs →
  apply_runs names_of (primary_keys cb) T rs = foldl apply_row' T (mjoin segs).
Proof.
  intros Hok HF. revert T Hok. induction HF as [|seg run segs rs Hseg HF IH]; intros T Hok; [done|].
  change (mjoin (seg :: segs)) with (seg ++ mjoin segs) in *. cbn. rewrite foldl_app.
  destruct Hseg as (first & rest & -> & Hh & Hgrp).
  rewrite (apply_run_ok first (first :: rest) run T Hh).
  - apply IH. intros r Hr. apply Hok. rewrite elem_of_app. by right.
  - intros r Hr. destruct (Hgrp r Hr). split_and!; try done. apply Hok.
    rewrite elem_of_app. by left.
Qed.

Lemma for_each_one {E A B} (f : B → A → result E B) x s : for_each f [x] s = f s x.
Proof. cbn. by destruct (f s x). Qed.

Lemma forallb_id l : forallb id l = true ↔ Forall (λ c : bool, c = true) l.
Proof.
  induction l as [|c l IH]; cbn; [split; [constructor|done]|].
  rewrite andb_true_iff, Forall_cons, IH. done.
Qed.

Lemma elem_of_enumerate {A} (l : list A) i x : (i, x) ∈ enumerate l ↔ l !! i = Some x.
Proof.
  unfold enumerate. rewrite list_elem_of_lookup. split.
  - intros [k Hk]. apply lookup_zip_Some in Hk as [Hk ?]. by apply lookup_seq in Hk as [-> _].
  - intros Hi. exists i. apply lookup_zip_Some. split; [|done].
    apply lookup_lt_Some in Hi. by apply lookup_seq_lt.
Qed.

(** The data of a row that is in range. *)
Lemma row_data row mask : masks !! row = Some mask →
  (row < nrows cb)%nat ∧ length mask = ncols cb ∧
  (∃ op, operations cb !! row = Some op) ∧ (∃ v, source_versions cb !! row = Some v).
Proof.
  intros Hm. assert (row < nrows cb)%nat as Hlt.
  { apply lookup_lt_Some in Hm. by rewrite (cw_masks _ _ wf) in Hm. }
  split_and!; [done| | |].
  - pose proof (cw_mask_length _ _ wf) as HF. by eapply Forall_lookup_1 in HF.
  - apply lookup_lt_is_Some_2. by rewrite (cw_operations _ _ wf).
  - apply lookup_lt_is_Some_2. by rewrite (cw_versions _ _ wf).
Qed.

Lemma old_source_cells old row :
  old_primary_keys cb = Some old →
  (λ j, src_cell cb j (OldPrimaryKey row)) <$> primary_key_indexes cb = old_key_at old row.
Proof.
  intros Ho. destruct (cw_old _ _ wf _ Ho) as (_ & H2 & _ & _).
  unfold old_key_at, row_of. apply list_eq_Forall2, Forall2_fmap, Forall2_same_length_lookup.
  split; [by eapply Forall2_length|]. intros p j a Hj Ha. cbn. rewrite Ho.
  assert (list_find (λ i, i = j) (primary_key_indexes cb) = Some (p, j)) as ->.
  { apply list_find_Some. split_and!; [done..|]. intros q y Hy Hq ->.
    pose proof (NoDup_lookup _ _ _ _ (cw_nodup _ _ wf) Hj Hy). lia. }
  cbn. unfold column_cell. by rewrite Ha.
Qed.

(** ** The events of a batch *)
Section events.
Context (keys old_keys : list (list Z)).

(** The cells a byte key stands for. *)
Definition key_cell_at (old : bool) (row : nat) : list Cell :=
  if old then match old_primary_keys cb with Some o => old_key_at o row | None => [] end
  else key_at cb row.
Definition key_bytes (old : bool) (row : nat) : list Z :=
  default [] ((if old then old_keys else keys) !! row).

(** The row format tells keys apart exactly. *)
Hypothesis keys_length : length keys = nrows cb.
Hypothesis old_length : is_Some (old_primary_keys cb) → length old_keys = nrows cb.
Hypothesis keys_agree : ∀ o1 o2 r1 r2,
  (r1 < nrows cb)%nat → (r2 < nrows cb)%nat →
  (o1 = true ∨ o2 = true → is_Some (old_primary_keys cb)) →
  key_bytes o1 r1 = key_bytes o2 r2 ↔ key_cell_at o1 r1 = key_cell_at o2 r2.

Definition mk_event (old : bool) (pos row : nat) (op : ChangeOperation) (mask : list bool) (v : Z) : Event :=
  {| ev_key := key_bytes old row; ev_cells := key_cell_at old row; ev_pos := pos; ev_op := op;
     ev_source := (if old then OldPrimaryKey row else Current row);
     ev_changed := mask; ev_version := v |}.

Definition key_changes (row : nat) : bool :=
  negb (bool_decide (key_bytes true row = key_bytes false row)).

Definition row_events (rm : nat * list bool) : list Event :=
  let '(row, mask) := rm in
  match operations cb !! row, source_versions cb !! row with
  | Some op, Some v =>
      match old_primary_keys cb with
      | None => [mk_event false row row op mask v]
      | Some _ =>
          match op with
          | Create | SnapshotRead => [mk_event false (row * 2 + 1) row op mask v]
          | Update =>
              if key_changes row
              then [mk_event true (row * 2) row Delete mask v;
                    mk_event false (row * 2 + 1) row Create mask v]
              else [mk_event false (row * 2 + 1) row op mask v]
          | Delete => [mk_event true (row * 2) row op mask v]
          end
      end
  | _, _ => []
  end.

(** A key-changing update must be complete. *)
Definition complete_change (rm : nat * list bool) : bool :=
  match operations cb !! rm.1, old_primary_keys cb with
  | Some Update, Some _ => if key_changes rm.1 then forallb id rm.2 else true
  | _, _ => true
  end.

Abbreviation collapse_event' := (collapse_event (primary_key_indexes cb)).

Lemma without_old_events latest rm :
  rm ∈ enumerate masks → old_primary_keys cb = None →
  collapse_without_old cb keys latest rm = for_each collapse_event' (row_events rm) latest.
Proof.
  destruct rm as [row mask]. intros Hm%elem_of_enumerate Ho.
  destruct (row_data row mask Hm) as (Hlt & Hlen & [op Hop] & [v Hv]).
  unfold collapse_without_old, row_events, at_. rewrite Hop, Hv, Ho.
  destruct (lookup_lt_is_Some_2 keys row) as [k Hk]; [lia|]. rewrite Hk.
  cbn [ok_or mbind result_bind].
  assert (key_bytes false row = k) as Hkb by (unfold key_bytes; by rewrite Hk).
  rewrite for_each_one. unfold collapse_event, apply_collapsed_event. cbn [mk_event ev_key ev_changed].
  by rewrite Hkb, Hlen.
Qed.

Lemma with_old_events latest rm :
  rm ∈ enumerate masks → is_Some (old_primary_keys cb) →
  collapse_with_old cb keys old_keys latest rm =
  if complete_change rm then for_each collapse_event' (row_events rm) latest
  else Err IncompleteKeyChange.
Proof.
  destruct rm as [row mask]. intros Hm%elem_of_enumerate Ho.
  destruct (row_data row mask Hm) as (Hlt & Hlen & [op Hop] & [v Hv]).
  assert (∃ k, keys !! row = Some k) as [k Hk] by (apply lookup_lt_is_Some_2; lia).
  assert (∃ k, old_keys !! row = Some k) as [ok Hok].
  { apply lookup_lt_is_Some_2. rewrite old_length by done. lia. }
  unfold collapse_with_old, row_events, complete_change, key_changes, at_. cbn [fst snd].
  rewrite Hop, Hv. destruct Ho as [old Ho]. rewrite Ho. cbn [ok_or mbind result_bind].
  assert (key_bytes false row = k) as Hkb by (unfold key_bytes; by rewrite Hk).
  assert (key_bytes true row = ok) as Hokb by (unfold key_bytes; by rewrite Hok).
  destruct op; rewrite ?Hk, ?Hok, ?Hkb, ?Hokb; cbn [ok_or mbind result_bind];
    rewrite ?for_each_one; unfold collapse_event; cbn [mk_event ev_key ev_pos ev_op ev_source ev_changed ev_version];
    rewrite ?Hkb, ?Hokb; try done.
  case_bool_decide; cbn [negb].
  - rewrite for_each_one. unfold collapse_event. cbn [mk_event ev_key ev_pos ev_op ev_source ev_changed ev_version].
    by rewrite Hkb.
  - destruct (forallb id mask); [|done]. cbn [ensure mbind result_bind for_each].
    unfold collapse_event. cbn [mk_event ev_key ev_pos ev_op ev_source ev_changed ev_version].
    rewrite Hkb, Hokb. destruct (apply_collapsed_event latest _ _ _ _ _ _ _) as [l|]; cbn; [|done].
    by destruct (apply_collapsed_event l _ _ _ _ _ _ _).
Qed.

Lemma key_changes_cells row :
  (row < nrows cb)%nat → is_Some (old_primary_keys cb) →
  key_changes row = false ↔ key_cell_at true row = key_cell_at false row.
Proof.
  intros Hr Ho. unfold key_changes. rewrite negb_false_iff, bool_decide_eq_true. by apply keys_agree.
Qed.

Abbreviation apply_event' := (apply_event (ncols cb) (src_cell cb)).

(** A row of the batch means its events. *)
Lemma apply_change_events T rm :
  rm ∈ enumerate masks → apply_change cb T rm = foldl apply_event' T (row_events rm).
Proof.
  destruct rm as [row mask]. intros Hm%elem_of_enumerate.
  destruct (row_data row mask Hm) as (Hlt & Hlen & [op Hop] & [v Hv]).
  unfold apply_change, row_events. rewrite Hop, Hv.
  pose proof (key_changes_cells row Hlt) as Hkc. unfold key_cell_at in Hkc.
  destruct (old_primary_keys cb) as [old|] eqn:Ho.
  2:{ by destruct op. }
  destruct op; cbn [foldl]; unfold apply_event; cbn [ev_cells mk_event key_cell_at event_effect ev_op];
    rewrite ?Ho; try done.
  destruct (key_changes row) eqn:Ek; case_decide as Hd; cbn [foldl]; unfold apply_event;
    cbn [ev_cells mk_event key_cell_at event_effect ev_op]; rewrite ?Ho; try done.
  - by apply Hkc in Hd.
  - destruct Hd. by apply Hkc.
Qed.

Abbreviation event_ok' := (event_ok (ncols cb) (primary_key_indexes cb) (src_cell cb) (src_ok cb)).

Lemma current_event_ok row mask pos op v :
  masks !! row = Some mask →
  (op = Create ∨ op = SnapshotRead → Forall (λ c, c = true) mask) →
  event_ok' (mk_event false pos row op mask v).
Proof using wf.
  intros Hm Hc. destruct (row_data row mask Hm) as (Hlt & Hlen & _ & _). split; cbn; try done.
  intros j Hj. by eapply (cw_key_masks _ _ wf).
Qed.

Lemma old_event_ok old row mask pos op v :
  masks !! row = Some mask → old_primary_keys cb = Some old →
  operations cb !! row = Some op → op = Update ∨ op = Delete →
  event_ok' (mk_event true pos row Delete mask v).
Proof using wf.
  intros Hm Ho Hop Hud. destruct (row_data row mask Hm) as (Hlt & Hlen & _ & _).
  destruct (cw_old _ _ wf _ Ho) as (_ & _ & _ & Hnn). specialize (Hnn _ _ Hop Hud).
  pose proof (old_source_cells old row Ho) as Hcells.
  split; cbn [ev_changed ev_op ev_source ev_cells mk_event key_cell_at]; try done.
  - by intros [|].
  - intros j Hj. by eapply (cw_key_masks _ _ wf).
  - rewrite Hcells. by rewrite Ho.
  - intros j Hj Hpk. specialize (Hpk eq_refl). split_and!; [done..|by rewrite Ho|].
    rewrite <-Hcells, Forall_fmap, Forall_forall in Hnn. by apply Hnn.
Qed.

Lemma row_events_ok rm e :
  rm ∈ enumerate masks → complete_change rm = true → e ∈ row_events rm → event_ok' e.
Proof.
  destruct rm as [row mask]. intros Hm%elem_of_enumerate Hc. unfold row_events, complete_change in *.
  destruct (row_data row mask Hm) as (Hlt & Hlen & [op Hop] & [v Hv]). cbn [fst snd] in Hc.
  rewrite Hop in *. rewrite Hv.
  assert (∀ pos, event_ok' (mk_event false pos row op mask v)) as Hcur.
  { intros pos. apply current_event_ok; [done|]. by apply (cw_complete _ _ wf row). }
  destruct (old_primary_keys cb) as [old|] eqn:Ho.
  2:{ by intros ?%list_elem_of_singleton; subst. }
  destruct op; try by intros ?%list_elem_of_singleton; subst.
  - destruct (key_changes row); [|by intros ?%list_elem_of_singleton; subst].
    intros [->|He%list_elem_of_singleton]%elem_of_cons; [|subst e].
    + eapply old_event_ok; eauto.
    + apply current_event_ok; [done|]. intros _. by apply forallb_id.
  - intros ?%list_elem_of_singleton; subst e. eapply old_event_ok; eauto.
Qed.

(** Every event of the batch: its row and its side. *)
Lemma row_events_shape rm e :
  rm ∈ enumerate masks → e ∈ row_events rm →
  ∃ old : bool, (old = true → is_Some (old_primary_keys cb)) ∧ ev_key e = key_bytes old rm.1 ∧
    ev_cells e = key_cell_at old rm.1 ∧
    ev_pos e = (if is_some (old_primary_keys cb) then rm.1 * 2 + (if old then 0 else 1) else rm.1)%nat.
Proof.
  destruct rm as [row mask]. intros Hm%elem_of_enumerate. unfold row_events.
  destruct (row_data row mask Hm) as (Hlt & Hlen & [op Hop] & [v Hv]). rewrite Hop, Hv.
  destruct (old_primary_keys cb) as [o|] eqn:Ho; cbn [is_some is_none negb].
  - destruct op; [..|destruct (key_changes row)|];
      repeat match goal with
      | |- _ ∈ [] → _ => by intros ?%not_elem_of_nil
      | |- _ ∈ _ :: _ → _ => intros [->|Hin]%elem_of_cons; [|revert Hin]
      end;
      first [exists false; cbn; rewrite ?Ho; split_and!; (done || lia)
            |exists true; cbn; rewrite ?Ho; split_and!; (done || lia)].
  - intros ?%list_elem_of_singleton; subst e. exists false. cbn. by split_and!.
Qed.

Lemma events_positions :
  NoDup (ev_pos <$> (enumerate masks ≫= row_events)).
Proof.
  assert (∀ l, ev_pos <$> (l ≫= row_events) = l ≫= (λ rm, ev_pos <$> row_events rm)) as ->.
  { intros l. induction l as [|x l IH]; [done|]. cbn. rewrite fmap_app. f_equal. apply IH. }
  apply NoDup_bind.
  - intros [r1 m1] [r2 m2] p H1 H2 (e1 & -> & He1)%list_elem_of_fmap (e2 & Hp & He2)%list_elem_of_fmap.
    destruct (row_events_shape _ _ H1 He1) as (o1 & _ & _ & _ & P1).
    destruct (row_events_shape _ _ H2 He2) as (o2 & _ & _ & _ & P2). cbn in P1, P2.
    assert (r1 = r2) as ->. { destruct (is_some _), o1, o2; lia. }
    apply elem_of_enumerate in H1, H2. congruence.
  - intros [row mask] Hm%elem_of_enumerate. unfold row_events.
    destruct (row_data row mask Hm) as (Hlt & Hlen & [op Hop] & [v Hv]). rewrite Hop, Hv.
    destruct (old_primary_keys cb); [destruct op; [..|destruct (key_changes row)|]|];
      cbn; repeat constructor; set_solver by lia.
  - apply (NoDup_fmap_1 fst). unfold enumerate. rewrite fst_zip by (by rewrite length_seq).
    apply NoDup_seq.
Qed.

Lemma events_keys_agree e1 e2 :
  e1 ∈ enumerate masks ≫= row_events → e2 ∈ enumerate masks ≫= row_events →
  ev_key e1 = ev_key e2 ↔ ev_cells e1 = ev_cells e2.
Proof.
  intros ([r1 m1] & He1 & H1)%list_elem_of_bind ([r2 m2] & He2 & H2)%list_elem_of_bind.
  destruct (row_events_shape _ _ H1 He1) as (o1 & Ho1 & -> & -> & _).
  destruct (row_events_shape _ _ H2 He2) as (o2 & Ho2 & -> & -> & _). cbn.
  apply elem_of_enumerate in H1, H2.
  destruct (row_data _ _ H1) as (? & _), (row_data _ _ H2) as (? & _).
  apply keys_agree; [done..|]. intros [|]; auto.
Qed.

(** ** Collapsing the whole batch *)
Definition batch_events : list Event := enumerate masks ≫= row_events.

Abbreviation collapsed_inv' :=
  (collapsed_inv (ncols cb) (primary_key_indexes cb) (src_cell cb) (src_ok cb)).

Definition complete_changes : Prop := Forall (λ rm, complete_change rm = true) (enumerate masks).

Lemma batch_events_ok : complete_changes → Forall event_ok' batch_events.
Proof.
  intros Hc. apply Forall_forall. intros e (rm & He & Hrm)%list_elem_of_bind.
  eapply row_events_ok; [done| |done]. unfold complete_changes in Hc. rewrite Forall_forall in Hc. by apply Hc.
Qed.

Lemma apply_changes_events T :
  apply_changes cb masks T = foldl apply_event' T batch_events.
Proof.
  unfold apply_changes, batch_events.
  assert (∀ l, (∀ rm, rm ∈ l → rm ∈ enumerate masks) →
    foldl (apply_change cb) T l = foldl apply_event' T (l ≫= row_events)) as Hgen; [|by apply Hgen].
  intros l. revert T. induction l as [|rm l IH]; intros T Hl; [done|].
  change ((rm :: l) ≫= row_events) with (row_events rm ++ (l ≫= row_events)). rewrite foldl_app. cbn.
  rewrite <-apply_change_events by (apply Hl; left). apply IH. intros x Hx. apply Hl. by right.
Qed.

(** What the runs made of a collapsed map do. *)
Lemma collapsed_map_runs latest :
  complete_changes → for_each collapse_event' batch_events ∅ = Ok latest →
  ∃ rs segs, materialize_runs cb (select_rows latest) = Ok rs ∧ select_rows latest = mjoin segs ∧
    Forall2 run_segment segs rs ∧
    NoDup (key_cells (primary_key_indexes cb) (src_cell cb) <$> mjoin segs) ∧
    StronglySorted position_le (mjoin segs) ∧
    ∀ T k, apply_runs names_of (primary_keys cb) T rs k = apply_changes cb masks T k.
Proof.
  intros Hc Hl.
  assert (collapsed_inv' batch_events batch_events latest) as Hinv.
  { eapply collapse_events; [by apply batch_events_ok|apply events_keys_agree|done|done]. }
  assert (∀ r, r ∈ select_rows latest → row_ok' r) as Hok.
  { intros r [b Hb]%elem_of_select. by destruct (ci_rows _ _ _ _ _ _ _ Hinv _ _ Hb). }
  destruct (materialize_from_ok (length (select_rows latest)) (select_rows latest)) as (rs & segs & Hm & Hs & HF);
    [done..|].
  exists rs, segs. split_and!; [done|done|done| | |].
  - rewrite <-Hs. eapply select_keys_NoDup; [apply events_keys_agree|done|exact Hinv].
  - rewrite <-Hs. apply select_sorted.
  - intros T k. rewrite (apply_runs_ok segs rs T); [|by rewrite <-Hs|done].
    rewrite <-Hs, apply_changes_events.
    eapply apply_selected; [apply events_keys_agree|done|exact Hinv].
Qed.
End events.

(** ** The loops are the events *)
Lemma guarded_loop {E A B C} (f : B → A → result E B) (h : B → C → result E B) (ev : A → list C)
    (g : A → bool) (err : E) l s :
  (∀ s x, x ∈ l → f s x = if g x then for_each h (ev x) s else Err err) →
  (Forall (λ x, g x = true) l → for_each f l s = for_each h (l ≫= ev) s) ∧
  (∀ s', for_each f l s = Ok s' → Forall (λ x, g x = true) l) ∧
  (∀ e, for_each f l s = Err e → e = err ∨ ∃ k s', for_each h k s' = Err e).
Proof.
  revert s. induction l as [|x l IH]; intros s Hf; [by split_and!|].
  change ((x :: l) ≫= ev) with (ev x ++ (l ≫= ev)). cbn [for_each].
  assert (∀ s y, y ∈ l → f s y = if g y then for_each h (ev y) s else Err err) as Hf'
    by (intros; apply Hf; by right).
  rewrite Hf by left. split_and!.
  - intros [Hg Hl]%Forall_cons. rewrite Hg, for_each_app. destruct (for_each h (ev x) s) as [s1|e]; [|done].
    cbn. by apply IH.
  - intros s' Hr. destruct (g x) eqn:Eg; [|done]. apply bind_Ok in Hr as (s1 & _ & Hr).
    constructor; [done|]. by destruct (IH s1 Hf') as (_ & Hok & _); eauto.
  - intros e. destruct (g x) eqn:Eg; [|by intros [= <-]; left].
    destruct (for_each h (ev x) s) as [s1|e1] eqn:E1; cbn.
    + by apply IH.
    + intros [= <-]. right. eauto.
Qed.

(** The row format applied to the keys of the batch. *)
Definition key_columns : list Array := omap (λ j, rb_columns (rows cb) !! j) (primary_key_indexes cb).

Lemma key_columns_spec :
  Forall2 (λ j a, rb_columns (rows cb) !! j = Some a) (primary_key_indexes cb) key_columns.
Proof.
  unfold key_columns. pose proof (cw_key_range _ _ wf) as Hr. clear -Hr.
  induction Hr as [|j l Hj _ IH]; cbn; [constructor|].
  destruct (lookup_lt_is_Some_2 (rb_columns (rows cb)) j Hj) as [a Ha]. rewrite Ha. by constructor.
Qed.

Lemma row_of_key_columns row : row_of key_columns row = key_at cb row.
Proof.
  unfold row_of, key_at. symmetry. apply list_eq_Forall2, Forall2_fmap.
  eapply Forall2_impl; [apply key_columns_spec|]. intros j a Ha. cbn. unfold column_cell. by rewrite Ha.
Qed.

Lemma key_columns_mapM : mapM (at_ (rb_columns (rows cb))) (primary_key_indexes cb) = Ok key_columns.
Proof.
  apply mapM_Ok. eapply Forall2_impl; [apply key_columns_spec|]. intros j a Ha. unfold at_. by rewrite Ha.
Qed.

Lemma key_columns_rows : Forall (λ a, array_len a = nrows cb) key_columns.
Proof.
  apply Forall_forall. intros a [i Hi]%list_elem_of_lookup.
  destruct (Forall2_lookup_r _ _ _ _ _ key_columns_spec Hi) as (j & _ & Ha).
  pose proof (bw_rows _ (cw_rows _ _ wf)) as HF. by eapply Forall_lookup_1 in HF.
Qed.

Lemma key_columns_nonempty : key_columns ≠ [].
Proof.
  intros He. pose proof (Forall2_length _ _ _ key_columns_spec) as Hl. rewrite He in Hl.
  apply nil_length_inv in Hl. by apply (cw_nonempty _ _ wf).
Qed.

Lemma old_columns_types old : old_primary_keys cb = Some old →
  array_type <$> rb_columns old = array_type <$> key_columns ∧ rb_columns old ≠ [] ∧
  Forall (λ a, array_len a = nrows cb) (rb_columns old).
Proof.
  intros Ho. destruct (cw_old _ _ wf _ Ho) as (_ & H2 & H3 & _).
  assert (length (rb_columns old) = length key_columns) as Hl.
  { rewrite <-(Forall2_length _ _ _ H2). apply (Forall2_length _ _ _ key_columns_spec). }
  split_and!; [| |done].
  - apply list_eq_Forall2, Forall2_fmap, Forall2_same_length_lookup. split; [done|].
    intros p a b Ha Hb. destruct (Forall2_lookup_r _ _ _ _ _ H2 Ha) as (j & Hj & Ht).
    destruct (Forall2_lookup_r _ _ _ _ _ key_columns_spec Hb) as (j' & Hj' & Hb').
    assert (j' = j) as -> by congruence. rewrite Hb' in Ht. by injection Ht.
  - intros He. rewrite He in Hl. symmetry in Hl. apply nil_length_inv in Hl. by apply key_columns_nonempty.
Qed.

Section keys.
Context (conv : Converter).
Hypothesis Hconv : row_converter (array_type <$> key_columns) = Ok conv.

Lemma converted_keys :
  ∃ keys, convert_columns conv key_columns = Ok keys ∧ length keys = nrows cb.
Proof.
  eapply convert_ok; [exact Hconv|apply key_columns_nonempty|done|apply key_columns_rows].
Qed.

Lemma converted_old old : old_primary_keys cb = Some old →
  ∃ keys, convert_columns conv (rb_columns old) = Ok keys ∧ length keys = nrows cb.
Proof.
  intros Ho. destruct (old_columns_types old Ho) as (Ht & Hne & Hlen). by eapply convert_ok.
Qed.

Lemma converted_agree keys old_keys :
  convert_columns conv key_columns = Ok keys → length keys = nrows cb →
  (∀ old, old_primary_keys cb = Some old →
    convert_columns conv (rb_columns old) = Ok old_keys ∧ length old_keys = nrows cb) →
  ∀ o1 o2 r1 r2, (r1 < nrows cb)%nat → (r2 < nrows cb)%nat →
  (o1 = true ∨ o2 = true → is_Some (old_primary_keys cb)) →
  key_bytes keys old_keys o1 r1 = key_bytes keys old_keys o2 r2 ↔
  key_cell_at o1 r1 = key_cell_at o2 r2.
Proof.
  intros Hk Hkl Hold o1 o2 r1 r2 Hr1 Hr2 Ho.
  assert (∀ (o : bool) r, (r < nrows cb)%nat → (o = true → is_Some (old_primary_keys cb)) →
    ∃ columns ks b, array_type <$> columns = array_type <$> key_columns ∧
      convert_columns conv columns = Ok ks ∧ ks !! r = Some b ∧ key_bytes keys old_keys o r = b ∧
      row_of columns r = key_cell_at o r) as Hget.
  { intros [] r Hr His.
    - destruct His as [old Hold']; [done|]. destruct (Hold _ Hold') as [Hc Hl].
      destruct (lookup_lt_is_Some_2 old_keys r) as [b Hb]; [lia|].
      exists (rb_columns old), old_keys, b. split_and!; try done.
      + by destruct (old_columns_types old Hold').
      + unfold key_bytes. by rewrite Hb.
      + cbn. by rewrite Hold'.
    - destruct (lookup_lt_is_Some_2 keys r) as [b Hb]; [lia|].
      exists key_columns, keys, b. split_and!; try done; [unfold key_bytes; by rewrite Hb|].
      apply row_of_key_columns. }
  destruct (Hget o1 r1 Hr1) as (c1 & k1 & b1 & T1 & C1 & L1 & -> & <-); [auto|].
  destruct (Hget o2 r2 Hr2) as (c2 & k2 & b2 & T2 & C2 & L2 & -> & <-); [auto|].
  by eapply (convert_equal _ conv c1 c2 k1 k2).
Qed.
End keys.

(** ** The whole function *)

(** The byte keys the function computes; [[]] when the row format refuses. *)
Definition keys_of : list (list Z) :=
  match row_converter (array_type <$> key_columns) with
  | Ok conv => match convert_columns conv key_columns with Ok ks => ks | Err _ => [] end
  | Err _ => []
  end.
Definition old_keys_of : list (list Z) :=
  match row_converter (array_type <$> key_columns), old_primary_keys cb with
  | Ok conv, Some old => match convert_columns conv (rb_columns old) with Ok ks => ks | Err _ => [] end
  | _, _ => []
  end.

(** The loop of the function over the masks. *)
Definition collapse_loop : result ChangelogError (gmap (list Z) CollapsedRow) :=
  match old_primary_keys cb with
  | None => for_each (collapse_without_old cb keys_of) (enumerate masks) ∅
  | Some _ => for_each (collapse_with_old cb keys_of old_keys_of) (enumerate masks) ∅
  end.

Section keyed.
Context (conv : Converter).
Hypothesis Hconv : row_converter (array_type <$> key_columns) = Ok conv.

Lemma keys_of_ok : convert_columns conv key_columns = Ok keys_of ∧ length keys_of = nrows cb.
Proof.
  destruct (converted_keys conv Hconv) as (ks & Hk & Hl). unfold keys_of. by rewrite Hconv, Hk.
Qed.

Lemma old_keys_of_ok old : old_primary_keys cb = Some old →
  convert_columns conv (rb_columns old) = Ok old_keys_of ∧ length old_keys_of = nrows cb.
Proof.
  intros Ho. destruct (converted_old conv Hconv old Ho) as (ks & Hk & Hl).
  unfold old_keys_of. by rewrite Hconv, Ho, Hk.
Qed.

Lemma keys_of_length : length keys_of = nrows cb.
Proof. apply keys_of_ok. Qed.

Lemma old_keys_of_length : is_Some (old_primary_keys cb) → length old_keys_of = nrows cb.
Proof. intros [old Ho]. by apply (old_keys_of_ok old). Qed.

Lemma keys_of_agree o1 o2 r1 r2 :
  (r1 < nrows cb)%nat → (r2 < nrows cb)%nat →
  (o1 = true ∨ o2 = true → is_Some (old_primary_keys cb)) →
  key_bytes keys_of old_keys_of o1 r1 = key_bytes keys_of old_keys_of o2 r2 ↔
  key_cell_at o1 r1 = key_cell_at o2 r2.
Proof. eapply converted_agree; [exact Hconv|apply keys_of_ok|apply keys_of_length|apply old_keys_of_ok]. Qed.

Lemma collapsed_runs_unfold :
  collapsed_runs_with_changed_columns cb masks =
  (latest ← collapse_loop; materialize_runs cb (select_rows latest)).
Proof.
  unfold collapsed_runs_with_changed_columns, collapse_loop.
  rewrite (bool_decide_eq_true_2 _ (cw_masks _ _ wf)), key_columns_mapM. cbn. rewrite Hconv. cbn.
  rewrite (proj1 keys_of_ok). cbn.
  pose proof old_keys_of_ok as Hold.
  destruct (old_primary_keys cb) as [old|]; [|done]. by rewrite (proj1 (Hold old eq_refl)).
Qed.

Abbreviation events' := (batch_events keys_of old_keys_of).
Abbreviation complete' := (complete_changes keys_of old_keys_of).

Lemma collapse_loop_spec :
  (complete' → collapse_loop = for_each (collapse_event (primary_key_indexes cb)) events' ∅) ∧
  (∀ latest, collapse_loop = Ok latest → complete') ∧
  (∀ err, collapse_loop = Err err → err = IncompleteKeyChange ∨ err = UpdateAfterDelete).
Proof.
  assert (∀ f, (∀ s x, x ∈ enumerate masks → f s x = if complete_change keys_of old_keys_of x
      then for_each (collapse_event (primary_key_indexes cb)) (row_events keys_of old_keys_of x) s
      else Err IncompleteKeyChange) →
    (complete' → for_each f (enumerate masks) ∅ =
      for_each (collapse_event (primary_key_indexes cb)) events' ∅) ∧
    (∀ latest, for_each f (enumerate masks) ∅ = Ok latest → complete') ∧
    (∀ err, for_each f (enumerate masks) ∅ = Err err → err = IncompleteKeyChange ∨ err = UpdateAfterDelete))
    as Hgen.
  { intros f Hf. destruct (guarded_loop f _ _ _ _ _ ∅ Hf) as (H1 & H2 & H3). split_and!; [done|done|].
    intros err [->|(k & s' & Hk)]%H3; [by left|]. right. by eapply collapse_error. }
  unfold collapse_loop. destruct (old_primary_keys cb) as [old|] eqn:Ho.
  - apply Hgen. intros s x Hx. apply with_old_events; [apply keys_of_length|apply old_keys_of_length|done|by rewrite Ho].
  - apply Hgen. intros s x Hx. rewrite (without_old_events keys_of old_keys_of)
      by (apply keys_of_length || apply old_keys_of_length || done).
    unfold complete_change. rewrite Ho. by destruct (operations cb !! x.1) as [[]|].
Qed.

Lemma events_fail_iff : complete' →
  (updates_deleted events' →
    for_each (collapse_event (primary_key_indexes cb)) events' ∅ = Err UpdateAfterDelete) ∧
  (∀ err, for_each (collapse_event (primary_key_indexes cb)) events' ∅ = Err err →
    err = UpdateAfterDelete ∧ updates_deleted events').
Proof.
  intros Hc. eapply (collapse_fails_iff (ncols cb) _ (src_cell cb) (src_ok cb) events'); [| |done].
  - by apply batch_events_ok; try (apply keys_of_length || apply old_keys_of_length || apply keys_of_agree).
  - apply events_keys_agree; try (apply keys_of_length || apply old_keys_of_length || apply keys_of_agree).
Qed.

Lemma collapsed_runs_ok rs :
  collapsed_runs_with_changed_columns cb masks = Ok rs →
  complete' ∧ ¬ updates_deleted events' ∧
  ∃ segs, Forall2 run_segment segs rs ∧
    NoDup (key_cells (primary_key_indexes cb) (src_cell cb) <$> mjoin segs) ∧
    StronglySorted position_le (mjoin segs) ∧
    ∀ T k, apply_runs names_of (primary_keys cb) T rs k = apply_changes cb masks T k.
Proof.
  rewrite collapsed_runs_unfold. intros (latest & Hl & Hm)%bind_Ok.
  destruct collapse_loop_spec as (Hev & Hcomp & _). specialize (Hcomp _ Hl). rewrite (Hev Hcomp) in Hl.
  destruct (collapsed_map_runs keys_of old_keys_of) with (latest := latest)
    as (rs' & segs & Hm' & _ & HF & Hnd & Hs & Heq);
    try (apply keys_of_length || apply old_keys_of_length || apply keys_of_agree || done).
  assert (rs' = rs) as -> by congruence. split_and!; [done| |by exists segs].
  intros Hd%(proj1 (events_fail_iff Hcomp)). congruence.
Qed.

Lemma collapsed_runs_complete :
  complete' → ¬ updates_deleted events' →
  ∃ rs, collapsed_runs_with_changed_columns cb masks = Ok rs.
Proof.
  intros Hcomp Hd. rewrite collapsed_runs_unfold. destruct collapse_loop_spec as (Hev & _ & _).
  rewrite (Hev Hcomp).
  destruct (for_each _ events' ∅) as [latest|err] eqn:E.
  - destruct (collapsed_map_runs keys_of old_keys_of) with (latest := latest) as (rs & _ & Hm & _);
      try (apply keys_of_length || apply old_keys_of_length || apply keys_of_agree || done). eauto.
  - by apply (events_fail_iff Hcomp) in E as [_ ?].
Qed.

Lemma collapsed_runs_errors err :
  collapsed_runs_with_changed_columns cb masks = Err err →
  err = IncompleteKeyChange ∨ err = UpdateAfterDelete.
Proof.
  rewrite collapsed_runs_unfold. intros He. destruct collapse_loop_spec as (Hev & Hcomp & Herr).
  destruct collapse_loop as [latest|e] eqn:El; cbn in He; [|simplify_eq; by apply Herr]. exfalso.
  specialize (Hcomp _ eq_refl). specialize (Hev Hcomp).
  destruct (collapsed_map_runs keys_of old_keys_of) with (latest := latest) as (rs & _ & Hm & _);
    try (apply keys_of_length || apply old_keys_of_length || apply keys_of_agree || done). congruence.
Qed.
End keyed.
End wf.
End runs.

Section theorems.
Context {AT : ArrowTypes} {AV : ArrowValues} {AC : ArrowCompute}.

Lemma converter_ok cb masks rs :
  changelog_wf cb masks → collapsed_runs_with_changed_columns cb masks = Ok rs →
  ∃ conv, row_converter (array_type <$> key_columns cb) = Ok conv.
Proof.
  intros Hwf Hr. unfold collapsed_runs_with_changed_columns in Hr.
  apply bind_Ok in Hr as (_ & _ & Hr). rewrite (key_columns_mapM cb masks Hwf) in Hr. cbn in Hr.
  destruct (row_converter _) as [conv|]; [by exists conv|done].
Qed.

(** C8. Collapsing preserves the changes.  Whenever [collapsed_runs] (or the full-image
    variant, with its own masks) returns runs, a state sink that applies them in order
    to any table reaches, key by key, the table obtained by applying the changes of
    the batch one at a time in event order: creations, partial updates, deletions and
    updates that move a row to another primary key. *)
Theorem collapsed_runs_preserve_changes cb masks rs :
  changelog_wf cb masks → 2 * Z.of_nat (nrows cb) ≤ u32_max + 1 →
  collapsed_runs_with_changed_columns cb masks = Ok rs →
  ∀ T k, apply_runs (names_of cb) (primary_keys cb) T rs k = apply_changes cb masks T k.
Proof.
  intros Hwf Hs Hr. destruct (converter_ok cb masks rs Hwf Hr) as [conv Hc].
  by destruct (collapsed_runs_ok cb masks Hwf Hs conv Hc rs Hr) as (_ & _ & segs & _ & _ & _ & ?).
Qed.

(** collapsing fails only for the two documented reasons.  On a well-formed batch
    whose key types the row format supports, [collapsed_runs] returns runs exactly
    when every key-changing update carries a complete row and no update follows the
    deletion of its key within the batch; it never panics, overflows an index or
    fails in an Arrow kernel. *)
Theorem collapsed_runs_total cb masks :
  changelog_wf cb masks → 2 * Z.of_nat (nrows cb) ≤ u32_max + 1 →
  is_ok (row_converter (array_type <$> key_columns cb)) = true →
  ((∃ rs, collapsed_runs_with_changed_columns cb masks = Ok rs) ↔
   complete_changes cb masks (keys_of cb) (old_keys_of cb) ∧
   ¬ updates_deleted (batch_events cb masks (keys_of cb) (old_keys_of cb))) ∧
  (∀ err, collapsed_runs_with_changed_columns cb masks = Err err →
   err = IncompleteKeyChange ∨ err = UpdateAfterDelete).
Proof.
  intros Hwf Hs Hc. destruct (row_converter _) as [conv|] eqn:E; [|done]. split; [split|].
  - intros [rs Hr]. by destruct (collapsed_runs_ok cb masks Hwf Hs conv E rs Hr) as (? & ? & _).
  - intros [? ?]. by eapply collapsed_runs_complete.
  - intros err. by eapply collapsed_runs_errors.
Qed.

(** the shape of the runs.  The runs partition the collapsed rows in event order
    into non-empty groups with one sink operation and one set of columns; no primary
    key appears twice in all runs; each run holds, for each of its columns, the
    collapsed values of its rows, and one source version per row. *)
Theorem collapsed_runs_structure cb masks rs :
  changelog_wf cb masks → 2 * Z.of_nat (nrows cb) ≤ u32_max + 1 →
  collapsed_runs_with_changed_columns cb masks = Ok rs →
  ∃ segs, Forall2 (run_segment cb) segs rs ∧
    NoDup (key_cells (primary_key_indexes cb) (src_cell cb) <$> mjoin segs) ∧
    StronglySorted position_le (mjoin segs).
Proof.
  intros Hwf Hs Hr. destruct (converter_ok cb masks rs Hwf Hr) as [conv Hc].
  destruct (collapsed_runs_ok cb masks Hwf Hs conv Hc rs Hr) as (_ & _ & segs & ? & ? & ? & _). eauto.
Qed.
End theorems.
