(* ===== verification/ChangelogProjection.v ===== *)
(** * From a sink batch to a changelog

    [project_sink_batch], [old_primary_key_batch] and [decode_changed_columns] of
    [transferia-core/src/data/changelog.rs]: the batch a sink accepts becomes either
    an append-only batch or a changelog batch that satisfies [changelog_wf], the
    precondition of the theorems of file ChangelogRuns. *)

From stdpp Require Import base tactics numbers option strings gmap fin_maps fin_sets sorting list.
From S2P Require Import Prelude Schema Arrow Delivery Changelog Collapse ChangelogRuns.
Local Open Scope Z_scope.

(** ** Change masks *)
Lemma bit_testbit b n : bit b n = Z.testbit b (Z.of_nat n).
Proof.
  unfold bit. rewrite Z.shiftl_1_l.
  destruct (Z.testbit b (Z.of_nat n)) eqn:E.
  - rewrite bool_decide_eq_false_2; [done|]. intros Hz.
    assert (Z.testbit (Z.land b (2 ^ Z.of_nat n)) (Z.of_nat n) = false) as Hf by (rewrite Hz; apply Z.bits_0).
    rewrite Z.land_spec, E, Z.pow2_bits_true in Hf by lia. done.
  - rewrite bool_decide_eq_true_2; [done|]. apply Z.bits_inj'. intros m Hm.
    rewrite Z.land_spec, Z.bits_0, Z.pow2_bits_eqb by lia.
    destruct (Z.eqb_spec (Z.of_nat n) m) as [<-|]; [by rewrite E|by rewrite andb_false_r].
Qed.

(** Bit [i] of a mask, least significant bit of the first byte first. *)
Definition mask_bit (mask : list Z) (i : nat) : bool :=
  match mask !! (i `div` 8)%nat with
  | Some b => Z.testbit b (Z.of_nat (i `mod` 8))
  | None => false
  end.

Lemma high_bits_zero b u :
  0 ≤ b < 256 → (0 < u < 8)%nat →
  Z.land b (255 - (Z.shiftl 1 (Z.of_nat u) - 1)) = 0 ↔
  ∀ n, (u ≤ n < 8)%nat → Z.testbit b (Z.of_nat n) = false.
Proof.
  intros Hb Hu.
  assert (∀ n, 0 ≤ n → Z.testbit (255 - (Z.shiftl 1 (Z.of_nat u) - 1)) n
    = bool_decide (Z.of_nat u ≤ n < 8)) as HK.
  { intros n Hn. destruct (decide (n < 8)) as [Hlt|Hge].
    - assert (n = 0 ∨ n = 1 ∨ n = 2 ∨ n = 3 ∨ n = 4 ∨ n = 5 ∨ n = 6 ∨ n = 7) as Hc by lia.
      assert (u = 1 ∨ u = 2 ∨ u = 3 ∨ u = 4 ∨ u = 5 ∨ u = 6 ∨ u = 7)%nat as Hcu by lia.
      repeat destruct Hcu as [->|Hcu]; subst; repeat destruct Hc as [->|Hc]; subst; reflexivity.
    - rewrite bool_decide_eq_false_2 by lia.
      assert (u = 1 ∨ u = 2 ∨ u = 3 ∨ u = 4 ∨ u = 5 ∨ u = 6 ∨ u = 7)%nat as Hcu by lia.
      apply Z.bits_above_log2; [|eapply Z.lt_le_trans with 8; [|lia]];
        repeat destruct Hcu as [->|Hcu]; subst; vm_compute; congruence. }
  split.
  - intros Hz n Hn. assert (Z.testbit (Z.land b (255 - (Z.shiftl 1 (Z.of_nat u) - 1))) (Z.of_nat n) = false) as Hf
      by (rewrite Hz; apply Z.bits_0).
    rewrite Z.land_spec, HK, bool_decide_eq_true_2, andb_true_r in Hf by lia. done.
  - intros Hn. apply Z.bits_inj'. intros m Hm. rewrite Z.land_spec, Z.bits_0, HK by done.
    case_bool_decide; [|apply andb_false_r]. rewrite andb_true_r.
    replace m with (Z.of_nat (Z.to_nat m)) by lia. apply Hn. lia.
Qed.

Lemma div_ceil_8 n :
  ((n + 7) `div` 8 = if decide (n `mod` 8 = 0) then n `div` 8 else S (n `div` 8))%nat.
Proof.
  pose proof (Nat.div_mod n 8 ltac:(lia)) as Hn. pose proof (Nat.mod_upper_bound n 8 ltac:(lia)) as Hr.
  revert Hn Hr. generalize (n `div` 8)%nat (n `mod` 8)%nat. intros q r -> Hr. case_decide as Hd.
  - symmetry. apply (Nat.div_unique _ 8 q 7); lia.
  - symmetry. apply (Nat.div_unique _ 8 (S q) (r - 1)); lia.
Qed.

(** The unused bits of the last byte are the bits past the last column. *)
Lemma unused_bits_spec mask columns :
  Forall (λ b, 0 ≤ b < 256) mask → (length mask = (columns + 7) `div` 8)%nat →
  (∀ i, (columns ≤ i)%nat → mask_bit mask i = false) ↔
  ((columns `mod` 8 ≠ 0)%nat →
    Z.land (default 0 (last mask)) (255 - (Z.shiftl 1 (Z.of_nat (columns `mod` 8)) - 1)) = 0).
Proof.
  intros Hb Hlen. rewrite div_ceil_8 in Hlen.
  pose proof (Nat.div_mod columns 8 ltac:(lia)) as Hc. pose proof (Nat.mod_upper_bound columns 8 ltac:(lia)) as Hr.
  revert Hlen Hc Hr. generalize (columns `div` 8)%nat (columns `mod` 8)%nat. intros q r Hlen -> Hr.
  assert (∀ i, i = 8 * (i `div` 8) + i `mod` 8 ∧ i `mod` 8 < 8)%nat as Hdm.
  { intros i. split; [apply Nat.div_mod; lia|apply Nat.mod_upper_bound; lia]. }
  case_decide as Hd.
  - split; [done|]. intros _ i Hi. unfold mask_bit. destruct (Hdm i).
    by rewrite lookup_ge_None_2 by lia.
  - assert (∃ b, mask !! q = Some b) as [b Hq] by (apply lookup_lt_is_Some_2; lia).
    assert (last mask = Some b) as -> by (rewrite last_lookup, Hlen; done). cbn.
    assert (0 ≤ b < 256) by (by eapply Forall_lookup_1 in Hb).
    rewrite high_bits_zero by lia. split.
    + intros Hbits _ n Hn. specialize (Hbits (8 * q + n)%nat ltac:(lia)). unfold mask_bit in Hbits.
      assert ((8 * q + n) `div` 8 = q)%nat as Hdiv by (symmetry; apply (Nat.div_unique _ 8 q n); lia).
      assert ((8 * q + n) `mod` 8 = n)%nat as Hmod by (symmetry; apply (Nat.mod_unique _ 8 q n); lia).
      by rewrite Hdiv, Hmod, Hq in Hbits.
    + intros Hz i Hi. specialize (Hz Hd). destruct (Hdm i) as [He Hlt]. unfold mask_bit.
      destruct (mask !! (i `div` 8)%nat) as [b'|] eqn:Ei; [|done].
      pose proof (lookup_lt_Some _ _ _ Ei).
      assert (i `div` 8 = q)%nat as Hiq by lia. rewrite Hiq, Hq in Ei. injection Ei as <-.
      apply Hz. lia.
Qed.

Section projection.
Context {AT : ArrowTypes} {AV : ArrowValues} {AC : ArrowCompute}.

Lemma mask_bits_ok mask columns :
  (length mask = (columns + 7) `div` 8)%nat →
  mapM (λ column, byte ← at_ mask (column `div` 8)%nat; Ok (bit byte (column `mod` 8)%nat)) (seq 0 columns)
  = Ok (mask_bit mask <$> seq 0 columns).
Proof.
  intros Hlen. apply mapM_all_Ok. intros c [_ Hc]%elem_of_seq.
  assert (c `div` 8 < length mask)%nat as Hlt.
  { rewrite Hlen. apply Nat.Div0.div_lt_upper_bound.
    pose proof (Nat.div_mod (columns + 7) 8 ltac:(lia)) as Hdm.
    pose proof (Nat.mod_upper_bound (columns + 7) 8 ltac:(lia)) as Hmod.
    revert Hdm Hmod. generalize ((columns + 7) `div` 8)%nat ((columns + 7) `mod` 8)%nat. lia. }
  destruct (lookup_lt_is_Some_2 mask (c `div` 8)%nat Hlt) as [b Hb].
  unfold at_, mask_bit. rewrite Hb. cbn. by rewrite bit_testbit.
Qed.

(** the changed-columns mask is decoded exactly.  [decode_changed_columns] accepts
    a byte string exactly when it has one bit per column, rounded up to bytes, and no
    bit set past the last column; the result lists, for each column, its bit. *)
Theorem decode_changed_columns_spec mask columns row l :
  Forall (λ b, 0 ≤ b < 256) mask →
  decode_changed_columns mask columns row = Ok l ↔
  (length mask = (columns + 7) `div` 8)%nat ∧
  (∀ i, (columns ≤ i)%nat → mask_bit mask i = false) ∧
  l = mask_bit mask <$> seq 0 columns.
Proof.
  intros Hb. unfold decode_changed_columns.
  destruct (decide (length mask = (columns + 7) `div` 8)%nat) as [Hlen|Hlen].
  2:{ rewrite (bool_decide_eq_false_2 (length mask = _) Hlen). split; [done|tauto]. }
  rewrite (bool_decide_eq_true_2 (length mask = _) Hlen). cbn [ensure mbind result_bind].
  rewrite mask_bits_ok by done. rewrite (unused_bits_spec mask columns Hb Hlen).
  destruct (decide (columns `mod` 8 = 0)%nat) as [Hm|Hm].
  - rewrite (bool_decide_eq_true_2 (columns `mod` 8 = 0)%nat Hm). cbn.
    split; [intros [= <-]|intros (_ & _ & ->)]; done.
  - rewrite (bool_decide_eq_false_2 (columns `mod` 8 = 0)%nat Hm). cbn [negb].
    set (unused := Z.land _ _). destruct (decide (unused = 0)) as [Hu|Hu].
    + rewrite bool_decide_eq_true_2 by done. cbn. split; [intros [= <-]; split_and!; done|].
      by intros (_ & _ & ->).
    + rewrite bool_decide_eq_false_2 by done. cbn. split; [done|]. intros (_ & Hz & _). destruct Hu. by apply Hz.
Qed.

Lemma at_Ok {A} (l : list A) i x : at_ l i = Ok x ↔ l !! i = Some x.
Proof. unfold at_. destruct (l !! i); cbn; naive_solver. Qed.

(** ** Projected columns *)

(** The position of each stored column in the incoming batch. *)
Definition picks (b r : RecordBatch) (ix : list nat) : Prop :=
  Forall2 (λ i f, rb_schema b !! i = Some f) ix (rb_schema r) ∧
  Forall2 (λ i a, rb_columns b !! i = Some a) ix (rb_columns r) ∧ rb_rows r = rb_rows b.

Lemma index_of_lookup fields n i :
  index_of fields n = Some i → ∃ f, fields !! i = Some f ∧ f_name f = n.
Proof.
  rewrite index_of_ok. destruct (list_find _ _) as [[j f]|] eqn:E; [|done]. intros [= <-].
  apply list_find_Some in E as (? & ? & _). by exists f.
Qed.

Lemma picks_wf b r ix : batch_wf b → picks b r ix → batch_wf r.
Proof.
  intros [H1 H2 H3 H4] (Hs & Hc & Hn).
  assert (∀ i a, rb_columns r !! i = Some a → ∃ p, ix !! i = Some p ∧ rb_columns b !! p = Some a) as Hcol
    by (intros i a Ha; by destruct (Forall2_lookup_r _ _ _ _ _ Hc Ha) as (p & ? & ?); eauto).
  assert (length (rb_columns r) = length (rb_schema r)) as Hl
    by (by rewrite <-(Forall2_length _ _ _ Hc), <-(Forall2_length _ _ _ Hs)).
  assert (∀ i a f, rb_columns r !! i = Some a → rb_schema r !! i = Some f →
    ∃ p, rb_columns b !! p = Some a ∧ rb_schema b !! p = Some f) as Hboth.
  { intros i a f Ha Hf. destruct (Hcol _ _ Ha) as (p & Hp & Hpa). exists p. split; [done|].
    destruct (Forall2_lookup_r _ _ _ _ _ Hs Hf) as (p' & Hp' & ?). congruence. }
  split.
  - apply Forall_lookup_2. intros i a (p & _ & Hp)%Hcol. by eapply Forall_lookup_1 in H1.
  - apply list_eq_Forall2, Forall2_fmap, Forall2_same_length_lookup. split; [done|].
    intros i a f Ha Hf. destruct (Hboth _ _ _ Ha Hf) as (p & Hpa & Hpf).
    assert ((array_type <$> rb_columns b) !! p = (f_type <$> rb_schema b) !! p) as He by (by rewrite H2).
    rewrite !list_lookup_fmap, Hpa, Hpf in He. by injection He.
  - apply Forall_lookup_2. intros i a (p & _ & Hp)%Hcol. eapply Forall_lookup_1 in H3; [|done]. congruence.
  - apply Forall2_same_length_lookup. split; [done|]. intros i f a Hf Ha.
    destruct (Hboth _ _ _ Ha Hf) as (p & Hpa & Hpf). by eapply Forall2_lookup_lr.
Qed.

Lemma project_columns_ok b stored r :
  batch_wf b → project_columns b stored = Ok r →
  ∃ ix, picks b r ix ∧ Forall2 (λ (c : SchemaColumn) f, f_name f = name c) stored (rb_schema r).
Proof.
  intros Hwf Hp. unfold project_columns in Hp. res_inv.
  match goal with Hm : mapM _ stored = Ok ?l |- _ => rename l into ix; apply mapM_Ok in Hm as HF end.
  assert (Forall2 (λ (c : SchemaColumn) i, index_of (rb_schema b) (name c) = Some i) stored ix) as Hix.
  { eapply Forall2_impl; [exact HF|]. intros c i Hi. cbn in Hi. by destruct (index_of _ _); res_inv. }
  destruct (project_ok b ix Hwf) as (b' & Hb' & Hpick).
  { apply Forall_lookup_2. intros k i Hi. destruct (Forall2_lookup_r _ _ _ _ _ Hix Hi) as (c & _ & Hc).
    apply index_of_lookup in Hc as (f & Hf & _). by apply lookup_lt_Some in Hf. }
  rewrite Hb' in Hp. cbn in Hp. res_inv. exists ix. split; [done|].
  destruct Hpick as (Hs & _ & _). apply Forall2_same_length_lookup.
  split; [by rewrite (Forall2_length _ _ _ Hix), (Forall2_length _ _ _ Hs)|].
  intros k c f Hc Hf. destruct (Forall2_lookup_r _ _ _ _ _ Hs Hf) as (i & Hi & Hfi).
  destruct (Forall2_lookup_r _ _ _ _ _ Hix Hi) as (c' & Hc' & Hin).
  apply index_of_lookup in Hin as (f' & Hf' & Hn). congruence.
Qed.

(** The projected fields have the types of the stored columns. *)
Lemma projected_types keep ds b r ix :
  batch_conforms ds b → projection_contract keep ds → picks (sb_batch b) r ix →
  Forall2 (λ (c : SchemaColumn) f, f_name f = name c) (stored_schema ds) (rb_schema r) →
  Forall2 (λ (c : SchemaColumn) f, f_type f = data_type c) (stored_schema ds) (rb_schema r).
Proof.
  intros Hconf Hcon (Hs & _ & _) Hn. apply Forall2_same_length_lookup.
  split; [by eapply Forall2_length|]. intros k c f Hc Hf.
  pose proof (Forall2_lookup_lr _ _ _ _ _ _ Hn Hc Hf) as Hname. cbn in Hname.
  destruct (Forall2_lookup_r _ _ _ _ _ Hs Hf) as (i & _ & Hi).
  destruct (Forall2_lookup_l _ _ _ _ _ (bc_fields _ _ Hconf) Hi) as (ic & Hic & Hfc).
  destruct (pc_stored _ _ Hcon) as (l & Hsub & _ & Hmatch).
  destruct (Forall2_lookup_l _ _ _ _ _ Hmatch Hc) as (c' & Hc' & Hm).
  unfold stored_column_matches in Hm. bool_inv.
  assert (c' ∈ incoming_schema ds) as [i' Hi']%list_elem_of_lookup.
  { eapply elem_of_sublist; [by eapply list_elem_of_lookup_2|exact Hsub]. }
  assert (i' = i) as ->.
  { apply (NoDup_lookup _ _ _ (name c) (pc_incoming _ _ Hcon)); rewrite list_lookup_fmap.
    - rewrite Hi'. cbn. congruence.
    - rewrite Hic. cbn. rewrite <-(fc_name _ _ Hfc). congruence. }
  rewrite (fc_type _ _ Hfc). congruence.
Qed.

(** ** Parsed rows *)

(** What the loop over the first [n] rows has produced. *)
Record parsed (ins : RowInputs) (n : nat) (acc : list ChangeOperation * list Z * list (list bool))
    : Prop := {
  pa_ops : length acc.1.1 = n;
  pa_versions : length acc.1.2 = n;
  pa_masks : length acc.2 = n;
  pa_mask_length : Forall (λ m, length m = length (in_stored ins)) acc.2;
  pa_codes : ∀ row op, acc.1.1 !! row = Some op →
    in_operations ins !! row = Some (Some (ChangeOperation.code op));
  pa_complete : ∀ row op m, acc.1.1 !! row = Some op → acc.2 !! row = Some m →
    op = Create ∨ op = SnapshotRead → Forall (λ c, c = true) m
}.

Lemma row_changed_length ins row m :
  row_changed ins row = Ok m → length m = length (in_stored ins).
Proof.
  unfold row_changed. destruct (in_changed ins); intros Hr; res_inv; [|by rewrite length_replicate].
  apply mapM_Ok in Hr. by symmetry; eapply Forall2_length.
Qed.

Lemma lookup_snoc_inv {A} (l : list A) x i y :
  (l ++ [x]) !! i = Some y → l !! i = Some y ∨ (i = length l ∧ y = x).
Proof.
  intros [?|[Hle Hi]]%lookup_app_Some; [by left|right].
  apply list_lookup_singleton_Some in Hi as [? <-]. split; [lia|done].
Qed.

Lemma parse_row_ok ins n acc acc' :
  parsed ins n acc → parse_row ins acc n = Ok acc' → parsed ins (S n) acc'.
Proof.
  intros [H1 H2 H3 H4 H5 H6] Hr. destruct acc as [[ops vs] ms]. cbn in *. res_inv.
  match goal with Hm : row_changed _ _ = Ok ?m |- _ => rename m into mask; apply row_changed_length in Hm as Hml end.
  match goal with Hc : ChangeOperation.from_code _ = Some ?o |- _ => rename o into op;
    apply code_from_code in Hc as -> end.
  split; cbn; rewrite ?length_app; cbn; try lia.
  - apply Forall_app. split; [done|]. by apply Forall_singleton.
  - intros row o [?|[-> ->]]%lookup_snoc_inv; [by apply H5|].
    match goal with Hx : at_ _ _ = Ok _ |- _ => unfold at_ in Hx; res_inv end. done.
  - intros row o m [Ho|[-> ->]]%lookup_snoc_inv [Hm|[Hr ->]]%lookup_snoc_inv Hop.
    + by eapply H6.
    + apply lookup_lt_Some in Ho. lia.
    + apply lookup_lt_Some in Hm. lia.
    + apply forallb_id. destruct Hop as [-> | ->]; res_inv; done.
Qed.

Lemma parse_rows_ok ins n acc :
  for_each (parse_row ins) (seq 0 n) ([], [], []) = Ok acc → parsed ins n acc.
Proof.
  intros Hr. pose proof (for_each_ind (λ l acc, parsed ins (length l) acc) (parse_row ins) (seq 0 n)) as Hi.
  rewrite <-(length_seq n 0). eapply Hi; [..|exact Hr].
  - split; cbn; try done.
  - intros l1 x l2 s1 s2 Hl IH Hs. rewrite length_app, Nat.add_1_r. cbn.
    assert (x = length l1) as ->; [|by eapply parse_row_ok].
    assert (seq 0 n !! length l1 = Some x) as Hx by (rewrite Hl, lookup_app_r, Nat.sub_diag by lia; done).
    by apply lookup_seq in Hx as [-> _].
Qed.

(** ** Key checks *)
Lemma unit_loop {A} (f : unit → A → result ChangelogError unit) l (u : unit) :
  for_each f l u = Ok tt → ∀ x, x ∈ l → f tt x = Ok tt.
Proof.
  revert u. induction l as [|y l IH]; intros [] Hr x; cbn in Hr; [by intros ?%not_elem_of_nil|].
  apply bind_Ok in Hr as ([] & Hy & Hr). intros [->|Hx]%elem_of_cons; [done|by eapply IH].
Qed.

Lemma key_masks_ok stored masks pki :
  for_each (check_key_column stored masks) pki tt = Ok tt →
  ∀ row m j, masks !! row = Some m → j ∈ pki → m !! j = Some true.
Proof.
  intros Hr row m j Hm Hj. pose proof (unit_loop _ _ _ Hr j Hj) as Hc. unfold check_key_column in Hc.
  res_inv. pose proof (unit_loop _ _ _ Hc (row, m)) as Hx. cbn in Hx. unfold at_ in Hx.
  destruct (m !! j) as [c|] eqn:Ej; cbn in Hx.
  - destruct c; [done|]. by discriminate Hx; apply elem_of_enumerate.
  - by discriminate Hx; apply elem_of_enumerate.
Qed.

Lemma elem_of_key_indexes stored j :
  j ∈ key_indexes stored ↔ ∃ c, stored !! j = Some c ∧ primary_key c = true.
Proof.
  unfold key_indexes. rewrite list_elem_of_omap. split.
  - intros ([i c] & Hi%elem_of_enumerate & Hk). cbn in Hk. destruct (primary_key c) eqn:E; simplify_eq. eauto.
  - intros (c & Hc & Hk). exists (j, c). split; [by apply elem_of_enumerate|]. cbn. by rewrite Hk.
Qed.

Lemma NoDup_key_indexes stored : NoDup (key_indexes stored).
Proof.
  unfold key_indexes. assert (NoDup (enumerate stored).*1) as Hnd.
  { unfold enumerate. rewrite fst_zip by (by rewrite length_seq). apply NoDup_seq. }
  induction (enumerate stored) as [|[i c] l IH]; cbn; [constructor|].
  cbn in Hnd. apply NoDup_cons in Hnd as [Hi Hnd]. destruct (primary_key c); [|by apply IH].
  cbn. constructor; [|by apply IH]. intros ([i' c'] & Hin & He)%list_elem_of_omap. cbn in He.
  destruct (primary_key c'); [|done]. injection He as ->. apply Hi.
  apply list_elem_of_fmap. by exists (i, c').
Qed.

(** ** Old keys *)

(** The cells of the old keys of a row are the cells at the row of their columns. *)
Lemma row_of_Forall columns row n :
  Forall (λ a, array_len a = n) columns → (row < n)%nat →
  (∀ a c, a ∈ columns → cells a !! row = Some c → c ≠ None) → Forall (λ c, c ≠ None) (row_of columns row).
Proof.
  intros Hlen Hrow Hc. unfold row_of. apply Forall_fmap, Forall_forall. intros a Ha. cbn.
  rewrite Forall_forall in Hlen. specialize (Hlen _ Ha). unfold array_len in Hlen.
  destruct (cells a !! row) as [c|] eqn:E; [by apply (Hc a)|]. apply lookup_ge_None in E. lia.
Qed.

Lemma old_batch_ok ds b pk old :
  batch_wf (sb_batch b) → old_primary_key_batch ds b pk = Ok (Some old) →
  Forall array_ok (rb_columns old) ∧ array_type <$> rb_columns old = data_type <$> pk ∧
  Forall (λ a, array_len a = rb_rows (sb_batch b)) (rb_columns old) ∧
  for_each (check_old_key_row b old pk) (seq 0 (rb_rows (sb_batch b))) tt = Ok tt.
Proof.
  intros [W1 W2 W3 W4] Ho. unfold old_primary_key_batch in Ho.
  destruct (bool_decide _ && bool_decide _); [done|]. apply bind_Ok in Ho as (_ & _ & Ho). res_inv.
  match goal with Hc : for_each (check_old_key_row _ _ _) _ _ = Ok ?x |- _ => destruct x; rename Hc into Hchk end.
  match goal with Ht : lift_arrow (try_new _ _) = Ok _ |- _ =>
    destruct (try_new _ _) eqn:Etn; [|done]; cbn in Ht; res_inv end.
  apply try_new_inv in Etn as (_ & -> & Ht).
  match goal with Hm : mapM (at_ (rb_columns _)) _ = Ok _ |- _ => apply mapM_Ok in Hm as Hcols end.
  match goal with Hcols : Forall2 _ ?ix ?arr |- _ => rename arr into arrays end.
  assert (∀ a, a ∈ arrays → ∃ p, rb_columns (sb_batch b) !! p = Some a) as Hin.
  { intros x [i Hi]%list_elem_of_lookup. destruct (Forall2_lookup_r _ _ _ _ _ Hcols Hi) as (p & _ & Hp).
    cbn in Hp. unfold at_ in Hp. res_inv. eauto. }
  split_and!; [..|done].
  - apply Forall_forall. intros x [p Hp]%Hin. by eapply Forall_lookup_1 in W1.
  - rewrite Ht, <-list_fmap_compose. done.
  - apply Forall_forall. intros x [p Hp]%Hin. by eapply Forall_lookup_1 in W3.
Qed.

(** Updates and deletions carry their whole old key. *)
Lemma old_keys_present b old pk operation codes row op :
  SystemColumns.get (sb_system_columns b) OperationColumn = Some operation →
  (a ← rb_columns (sb_batch b) !! sys_index operation; as_string a) = Some codes →
  codes !! row = Some (Some (ChangeOperation.code op)) → op = Update ∨ op = Delete →
  length (rb_columns old) = length pk →
  Forall (λ a, array_len a = rb_rows (sb_batch b)) (rb_columns old) →
  for_each (check_old_key_row b old pk) (seq 0 (rb_rows (sb_batch b))) tt = Ok tt →
  (row < rb_rows (sb_batch b))%nat → Forall (λ c, c ≠ None) (old_key_at old row).
Proof.
  intros Hget Hcodes Hcode Hop Hlen Harr Hchk Hrow. unfold old_key_at.
  eapply row_of_Forall; [exact Harr|done|]. intros a c Ha Hc.
  destruct (rb_columns (sb_batch b) !! sys_index operation) as [oc|] eqn:Eoc; [|done].
  cbn [mbind option_bind] in Hcodes.
  pose proof (unit_loop _ _ _ Hchk row) as Hr. unfold check_old_key_row in Hr. rewrite Hget in Hr.
  assert (at_ (rb_columns (sb_batch b)) (sys_index operation) = Ok oc) as Hoc
    by (unfold at_; by rewrite Eoc).
  assert (at_ codes row = Ok (Some (ChangeOperation.code op))) as Hcd by (unfold at_; by rewrite Hcode).
  cbn [ok_or mbind result_bind] in Hr. rewrite Hoc in Hr. cbn [mbind result_bind] in Hr.
  rewrite Hcodes in Hr. cbn [ok_or mbind result_bind] in Hr. rewrite Hcd in Hr. cbn [mbind result_bind] in Hr.
  replace (bool_decide _ || bool_decide _) with true in Hr by (destruct Hop as [-> | ->]; reflexivity).
  assert (row ∈ seq 0 (rb_rows (sb_batch b))) as Hin by (apply elem_of_seq; lia).
  apply Hr in Hin. clear Hr. apply list_elem_of_lookup in Ha as [i Hi].
  destruct (lookup_lt_is_Some_2 pk i) as [k Hk]; [apply lookup_lt_Some in Hi; lia|].
  pose proof (unit_loop _ _ _ Hin (a, k)) as Hx. cbn in Hx. unfold at_ in Hx. rewrite Hc in Hx. cbn in Hx.
  intros ->. discriminate Hx. apply list_elem_of_lookup. exists i. by apply lookup_zip_Some.
Qed.

(** ** Full-image upserts *)
Lemma full_image_ok stored masks pki old ops ops' :
  mapM (full_image_row stored masks pki old) (enumerate ops) = Ok ops' →
  length ops' = length ops ∧
  ∀ row op', ops' !! row = Some op' → ∃ op, ops !! row = Some op ∧
    (op' = op ∨ op = Update ∧ op' = Create ∧
      ∀ m, masks !! row = Some m → Forall (λ c, c = true) m).
Proof.
  intros Hm%mapM_Ok.
  assert (length (enumerate ops) = length ops) as Hle.
  { unfold enumerate. rewrite length_zip, length_seq. lia. }
  split; [by rewrite <-Hle, (Forall2_length _ _ _ Hm)|].
  intros row op' Hop'. destruct (Forall2_lookup_r _ _ _ _ _ Hm Hop') as ([i op] & Hi & Hf).
  assert (i = row ∧ ops !! row = Some op) as [-> Hop].
  { unfold enumerate in Hi. apply lookup_zip_Some in Hi as [Hs Ho]. by apply lookup_seq in Hs as [-> _]. }
  exists op. split; [done|]. unfold full_image_row in Hf.
  destruct (negb _) eqn:E; [by res_inv; left|]. bool_inv. subst op. right.
  res_inv. split_and!; [done..|]. intros m Hmask.
  match goal with Hx : at_ masks row = Ok _ |- _ => unfold at_ in Hx; rewrite Hmask in Hx; cbn in Hx; res_inv end.
  by apply forallb_id.
Qed.

(** ** The projection *)

(** The inputs read by the loop over rows. *)
Lemma changelog_inputs_ok ds b operation ins :
  changelog_inputs ds b operation = Ok ins →
  (a ← rb_columns (sb_batch b) !! sys_index operation; as_string a) = Some (in_operations ins) ∧
  in_stored ins = stored_schema ds.
Proof.
  intros Hi. unfold changelog_inputs in Hi. cbv zeta in Hi. res_inv. split; [|done].
  repeat match goal with Hx : at_ _ _ = Ok _ |- _ => apply at_Ok in Hx end.
  match goal with Hx : as_string ?a = Some _, Hy : _ !! _ = Some ?a |- _ => rewrite Hy; cbn; by rewrite Hx end.
Qed.

(** The operations the batch ends up with, and the parsed ones. *)
Definition final_ops (parsed_ops ops : list ChangeOperation) (masks : list (list bool)) : Prop :=
  length ops = length parsed_ops ∧
  ∀ row op', ops !! row = Some op' → ∃ op, parsed_ops !! row = Some op ∧
    (op' = op ∨ op = Update ∧ op' = Create ∧ ∀ m, masks !! row = Some m → Forall (λ c, c = true) m).

Lemma key_columns_types (stored : DatasetSchema) (r : RecordBatch) (pki : list nat)
    (key_columns : list SchemaColumn) (old : list Array) :
  batch_wf r → Forall2 (λ (c : SchemaColumn) f, f_type f = data_type c) stored (rb_schema r) →
  mapM (at_ stored) pki = Ok key_columns → array_type <$> old = data_type <$> key_columns →
  Forall2 (λ j a, array_type <$> rb_columns r !! j = Some (array_type a)) pki old.
Proof.
  intros Hwf Ht Hk Ho. apply mapM_Ok in Hk. apply Forall2_same_length_lookup. split.
  { rewrite (Forall2_length _ _ _ Hk). apply (f_equal length) in Ho. by rewrite !length_fmap in Ho. }
  intros i j a Hj Ha. destruct (Forall2_lookup_l _ _ _ _ _ Hk Hj) as (c & Hc & Hs).
  cbn in Hs. unfold at_ in Hs. res_inv.
  match goal with Hs' : stored !! j = Some _ |- _ =>
    destruct (Forall2_lookup_l _ _ _ _ _ Ht Hs') as (f & Hf & Hft) end.
  assert ((array_type <$> rb_columns r) !! j = (f_type <$> rb_schema r) !! j) as He
    by (by rewrite (bw_types _ Hwf)).
  rewrite !list_lookup_fmap, Hf in He. rewrite He. cbn. rewrite Hft.
  assert ((array_type <$> old) !! i = (data_type <$> key_columns) !! i) as He2 by (by rewrite Ho).
  rewrite !list_lookup_fmap, Ha, Hc in He2. cbn in He2. congruence.
Qed.

Lemma key_names_ok (r : RecordBatch) pki fields :
  mapM (at_ (rb_schema r)) pki = Ok fields →
  Forall2 (λ j n, f_name <$> rb_schema r !! j = Some n) pki (f_name <$> fields).
Proof.
  intros Hm%mapM_Ok. apply Forall2_fmap_r. eapply Forall2_impl; [exact Hm|].
  intros j f Hj. cbn in Hj |- *. apply at_Ok in Hj. by rewrite Hj.
Qed.

Lemma changelog_wf_intro b ds r pki operation ins acc ops key_fields key_columns old_keys :
  batch_wf (sb_batch b) → batch_wf r → rb_rows r = rb_rows (sb_batch b) →
  SystemColumns.get (sb_system_columns b) OperationColumn = Some operation →
  changelog_inputs ds b operation = Ok ins →
  NoDup (name <$> stored_schema ds) →
  Forall2 (λ (c : SchemaColumn) f, f_name f = name c) (stored_schema ds) (rb_schema r) →
  Forall2 (λ (c : SchemaColumn) f, f_type f = data_type c) (stored_schema ds) (rb_schema r) →
  pki = key_indexes (stored_schema ds) → pki ≠ [] →
  parsed ins (rb_rows (sb_batch b)) acc →
  for_each (check_key_column r acc.2) pki tt = Ok tt →
  mapM (at_ (rb_schema r)) pki = Ok key_fields →
  mapM (at_ (stored_schema ds)) pki = Ok key_columns →
  old_primary_key_batch ds b key_columns = Ok old_keys →
  final_ops acc.1.1 ops acc.2 →
  changelog_wf
    {| rows := r; operations := ops; primary_key_indexes := pki;
       primary_keys := f_name <$> key_fields; primary_key_columns := key_columns;
       stored_columns := stored_schema ds; source_versions := acc.1.2;
       changed_columns := acc.2; old_primary_keys := old_keys |} acc.2.
Proof.
  intros Hb Hr Hn Hget Hins Hnd Hnames Htypes -> Hne [P1 P2 P3 P4 P5 P6] Hkeys Hkf Hkc Hold [Hol Hops].
  destruct (changelog_inputs_ok _ _ _ _ Hins) as [Hcodes Hstored]. rewrite Hstored in P4.
  assert (length (rb_columns r) = length (stored_schema ds)) as Hlen.
  { pose proof (f_equal length (bw_types _ Hr)) as Hl. rewrite !length_fmap in Hl.
    rewrite Hl. symmetry. by eapply Forall2_length. }
  assert (f_name <$> rb_schema r = name <$> stored_schema ds) as Hfn.
  { symmetry. apply list_eq_Forall2, Forall2_fmap. eapply Forall2_impl; [exact Hnames|]. intros c f Hf. by cbn in *. }
  split; unfold nrows, ncols; cbn; try done; try lia.
  - by rewrite Hfn.
  - eapply Forall_impl; [exact P4|]. intros m Hm. by rewrite Hm.
  - apply NoDup_key_indexes.
  - apply Forall_forall. intros j (c & Hc & _)%elem_of_key_indexes. apply lookup_lt_Some in Hc. lia.
  - by apply key_names_ok.
  - by eapply key_masks_ok.
  - intros row m op' Hm Hop' Hcr. destruct (Hops _ _ Hop') as (op & Hop & [->|(_ & _ & Hall)]); [|by apply Hall].
    by eapply P6.
  - intros old ->. destruct (old_batch_ok _ _ _ _ Hb Hold) as (O1 & O2 & O3 & O4). split_and!; [done| | |].
    + by eapply key_columns_types.
    + by rewrite Hn.
    + intros row op' Hop' Hud. destruct (Hops _ _ Hop') as (op & Hop & Hcase).
      assert (op' = op) as -> by (destruct Hcase as [|(_ & -> & _)]; [done|by destruct Hud]).
      eapply old_keys_present; [exact Hget|exact Hcodes|by apply P5|done| |done|done|].
      * apply (f_equal length) in O2. by rewrite !length_fmap in O2.
      * rewrite <-P1. by apply lookup_lt_Some in Hop.
Qed.

Lemma project_changelog d b ds cb :
  batch_wf (sb_batch b) → validate_batch_against_discovery d b = Ok ds →
  validate_stored_projection d ds = Ok tt → project_sink_batch d b = Ok (Changelog cb) →
  changelog_wf cb (changed_columns cb) ∧ nrows cb = rb_rows (sb_batch b) ∧
  stored_columns cb = stored_schema ds ∧
  Forall2 (λ (c : SchemaColumn) f, f_name f = name c ∧ f_type f = data_type c)
    (stored_schema ds) (rb_schema (rows cb)).
Proof.
  intros Hwf Hv Hst Hp. unfold project_sink_batch in Hp. rewrite Hv in Hp.
  cbn [lift_delivery mbind result_bind] in Hp. cbv zeta in Hp.
  pose proof (stored_projection_holds d ds Hst) as Hcon. apply batch_accepted in Hv as [_ Hconf].
  apply bind_Ok in Hp as (r & Hpc & Hp). destruct (project_columns_ok _ _ _ Hwf Hpc) as (ix & Hpick & Hnames).
  pose proof (projected_types _ _ _ _ _ Hconf Hcon Hpick Hnames) as Htypes.
  destruct (SystemColumns.get _ _) as [operation|] eqn:Hget; [|by res_inv].
  apply bind_Ok in Hp as (ins & Hins & Hp). apply bind_Ok in Hp as (u & Hne & Hp).
  destruct u. apply ensure_Ok in Hne. bool_inv.
  apply bind_Ok in Hp as ([[ops vs] ms] & Hloop & Hp). apply parse_rows_ok in Hloop.
  apply bind_Ok in Hp as (u & Hkeys & Hp). destruct u.
  apply bind_Ok in Hp as (kf & Hkf & Hp). apply bind_Ok in Hp as (kc & Hkc & Hp).
  apply bind_Ok in Hp as (old & Hold & Hp). apply bind_Ok in Hp as (ops' & Hops & Hp). injection Hp as <-.
  assert (final_ops ops ops' ms) as Hfinal.
  { destruct (bool_decide _); [by apply full_image_ok in Hops|]. injection Hops as <-. split; eauto. }
  split_and!; [|apply Hpick|done|].
  - eapply (changelog_wf_intro b ds r _ operation ins (ops, vs, ms)); try done.
    + by eapply picks_wf.
    + apply Hpick.
    + apply (pc_stored_names _ _ Hcon).
  - apply Forall2_same_length_lookup. split; [by eapply Forall2_length|]. intros i c f Hc Hf.
    split; [apply (Forall2_lookup_lr _ _ _ _ _ _ Hnames Hc Hf)|apply (Forall2_lookup_lr _ _ _ _ _ _ Htypes Hc Hf)].
Qed.

Lemma full_image_wf cb masks :
  changelog_wf cb masks →
  changelog_wf cb (replicate (nrows cb) (replicate (ncols cb) true)).
Proof.
  intros [W1 W2 W3 W4 W5 W6 W7 W8 W9 W10 W11 W12 W13]. split; try done.
  - by rewrite length_replicate.
  - apply Forall_replicate. by rewrite length_replicate.
  - intros row m j Hm Hj. apply lookup_replicate in Hm as [-> _]. rewrite Forall_forall in W9.
    rewrite lookup_replicate_2; [done|by apply W9].
  - intros row m op Hm _ _. apply lookup_replicate in Hm as [-> _]. by apply Forall_replicate.
Qed.

(** projection establishes what collapsing needs.  When [project_sink_batch] turns
    a batch whose dataset passed [validate_stored_projection] into a changelog batch,
    that batch is well formed: one operation, version and mask per row, masks as wide
    as the table and true on every key column, creations complete, non-null keys, and
    old keys of the key's types present for every update and deletion; its columns are
    the stored columns in order; and collapsing it, with the batch's masks or with
    full images, preserves the changes. *)
Theorem project_sink_batch_well_formed d b ds cb :
  batch_wf (sb_batch b) → validate_batch_against_discovery d b = Ok ds →
  validate_stored_projection d ds = Ok tt → project_sink_batch d b = Ok (Changelog cb) →
  changelog_wf cb (changed_columns cb) ∧
  changelog_wf cb (replicate (nrows cb) (replicate (ncols cb) true)) ∧
  nrows cb = rb_rows (sb_batch b) ∧
  Forall2 (λ (c : SchemaColumn) f, f_name f = name c ∧ f_type f = data_type c)
    (stored_schema ds) (rb_schema (rows cb)).
Proof.
  intros Hwf Hv Hst Hp. destruct (project_changelog d b ds cb Hwf Hv Hst Hp) as (H1 & H2 & _ & H4).
  split_and!; try done. by eapply full_image_wf.
Qed.
End projection.

(** ** Witnesses *)
Section witnesses.
#[local] Existing Instance example_arrow.
#[local] Existing Instance example_values.
#[local] Existing Instance example_compute.

Lemma decode_changed_columns_spec_witness :
  decode_changed_columns [5; 1] 9 0 = Ok (mask_bit [5; 1] <$> seq 0 9).
Proof.
  assert (Forall (λ b, 0 ≤ b < 256) [5; 1]) as Hb by (repeat constructor; lia).
  apply decode_changed_columns_spec; [exact Hb|].
  split_and!; [reflexivity| |reflexivity].
  apply unused_bits_spec; [exact Hb|reflexivity|]. intros _. reflexivity.
Defined.

(** The changelog of the example batch. *)
Definition example_changelog : ChangelogBatch :=
  {| rows := {| rb_schema := arrow_field <$> [example_key; SchemaColumn_new "value" Utf8 true];
       rb_columns := [UInt64Array [Some 7; Some 7]; StringArray [Some "a"; None]]; rb_rows := 2 |};
     operations := [Create; Delete]; primary_key_indexes := [0%nat]; primary_keys := ["id"];
     primary_key_columns := [example_key];
     stored_columns := [example_key; SchemaColumn_new "value" Utf8 true];
     source_versions := [1; 2]; changed_columns := [[true; true]; [true; true]];
     old_primary_keys := Some {| rb_schema :=
         [{| f_name := "id"; f_type := UInt64; f_nullable := true; f_metadata := ∅ |}];
       rb_columns := [UInt64Array [None; Some 7]]; rb_rows := 2 |} |}.

Lemma example_batch_wf : batch_wf (sb_batch example_batch).
Proof.
  split.
  - repeat constructor.
  - reflexivity.
  - repeat constructor.
  - repeat (constructor; [first [by left|right; repeat constructor; discriminate]|]). constructor.
Qed.

Lemma project_sink_batch_well_formed_witness :
  changelog_wf example_changelog (changed_columns example_changelog).
Proof.
  destruct (project_sink_batch_well_formed example_discovery example_batch example_dataset example_changelog)
    as (H & _); [apply example_batch_wf|vm_compute; reflexivity..|exact H].
Defined.

Lemma example_changelog_wf : changelog_wf example_changelog (changed_columns example_changelog).
Proof.
  destruct (project_changelog example_discovery example_batch example_dataset example_changelog)
    as (H & _); [apply example_batch_wf|vm_compute; reflexivity..|exact H].
Qed.

Definition example_runs : list ChangelogRun :=
  match collapsed_runs example_changelog with Ok rs => rs | Err _ => [] end.

Lemma example_runs_ok :
  collapsed_runs_with_changed_columns example_changelog (changed_columns example_changelog) = Ok example_runs.
Proof. vm_compute. reflexivity. Qed.

(** The creation and deletion of row 7 collapse to its deletion. *)
Lemma collapsed_runs_preserve_changes_witness :
  apply_runs (names_of example_changelog) ["id"] (λ _, Some []) example_runs [Some (VUInt 7)] = None ∧
  apply_changes example_changelog [[true; true]; [true; true]] (λ _, Some []) [Some (VUInt 7)] = None.
Proof.
  split; [|vm_compute; reflexivity].
  etrans; [apply (collapsed_runs_preserve_changes example_changelog [[true; true]; [true; true]]);
    [apply example_changelog_wf|vm_compute; discriminate|apply example_runs_ok]|].
  vm_compute. reflexivity.
Defined.

Lemma collapsed_runs_total_witness :
  complete_changes example_changelog [[true; true]; [true; true]]
    (keys_of example_changelog) (old_keys_of example_changelog).
Proof.
  destruct (collapsed_runs_total example_changelog [[true; true]; [true; true]]) as [H _];
    [apply example_changelog_wf|vm_compute; discriminate|vm_compute; reflexivity|].
  apply H. exists example_runs. apply example_runs_ok.
Defined.

Lemma collapsed_runs_structure_witness :
  ∃ segs, Forall2 (run_segment example_changelog) segs example_runs.
Proof.
  destruct (collapsed_runs_structure example_changelog [[true; true]; [true; true]] example_runs)
    as (segs & H & _); [apply example_changelog_wf|vm_compute; discriminate|apply example_runs_ok|].
  exists segs. exact H.
Defined.
End witnesses.
