(* ===== verification/Failure.v ===== *)
(** * Failures and component outcomes

    [transferia-core/src/failure.rs] and the outcome functions of
    [transferia-pipeline/src/lib.rs]: how the failures of the reader, the parser and
    the sink become the result of one pipeline attempt.

    An [anyhow::Error] is kept by what the code asks of it: whether it downcasts to a
    [DataPlaneFailure] (through added context) or to a [ParserInfrastructureFailure];
    messages are not modelled. *)

From stdpp Require Import base tactics numbers option strings sets list.
From S2P Require Import Prelude.

Inductive FailureDisposition := Retryable | Fatal.
#[export] Instance FailureDisposition_eq_dec : EqDecision FailureDisposition.
Proof. solve_decision. Defined.

(** [DataPlaneFailure]; [cause] identifies the error. *)
Record DataPlaneFailure := { disposition : FailureDisposition; cause : nat }.
#[export] Instance DataPlaneFailure_eq_dec : EqDecision DataPlaneFailure.
Proof. solve_decision. Defined.

(** [anyhow::Error] *)
Inductive AnyhowError :=
| WrapsFailure (f : DataPlaneFailure)
| ParserInfrastructureFailure (cause : nat)
| OtherError (cause : nat).

Definition error_cause (e : AnyhowError) : nat :=
  match e with WrapsFailure f => cause f | ParserInfrastructureFailure c | OtherError c => c end.

Module Failure.
Definition retryable (c : nat) : DataPlaneFailure := {| disposition := Retryable; cause := c |}.
Definition fatal (c : nat) : DataPlaneFailure := {| disposition := Fatal; cause := c |}.
Definition is_retryable (f : DataPlaneFailure) : bool :=
  match disposition f with Retryable => true | Fatal => false end.
(** [context] only adds a message. *)
Definition context (f : DataPlaneFailure) : DataPlaneFailure :=
  {| disposition := disposition f; cause := cause f |}.
Definition with_fallback (e : AnyhowError) (fallback : FailureDisposition) : DataPlaneFailure :=
  match e with
  | WrapsFailure f => f
  | e => {| disposition := fallback; cause := error_cause e |}
  end.
Definition retryable_or_passthrough (e : AnyhowError) : DataPlaneFailure := with_fallback e Retryable.
Definition fatal_or_passthrough (e : AnyhowError) : DataPlaneFailure := with_fallback e Fatal.
End Failure.

(** [DataPlaneResult<()>] *)
Abbreviation Outcome := (result DataPlaneFailure unit) (only parsing).

(** [Result<T, JoinError>]: a task returned or panicked. *)
Inductive Joined (A : Type) := Returned (a : A) | TaskPanicked (cause : nat).
Arguments Returned {A} _.
Arguments TaskPanicked {A} _.

Record ComponentOutcome := { outcome : Outcome; infrastructure_failure : bool }.

Inductive FirstComponent := Reader | Sink | Parser.
#[export] Instance FirstComponent_eq_dec : EqDecision FirstComponent.
Proof. solve_decision. Defined.

Definition data_plane_component_outcome (r : Joined Outcome) : ComponentOutcome :=
  match r with
  | Returned o =>
      {| outcome := match o with Ok u => Ok u | Err f => Err (Failure.context f) end;
         infrastructure_failure := false |}
  | TaskPanicked c =>
      {| outcome := Err (Failure.retryable c); infrastructure_failure := true |}
  end.

Definition anyhow_component_outcome (r : Joined (result AnyhowError unit)) : ComponentOutcome :=
  data_plane_component_outcome
    (match r with
     | Returned o => Returned (match o with
         | Ok u => Ok u
         | Err e => Err (Failure.context (Failure.retryable_or_passthrough e)) end)
     | TaskPanicked c => TaskPanicked c
     end).

Definition parser_component_outcome (r : Joined (result AnyhowError unit)) : ComponentOutcome :=
  match r with
  | Returned (Ok u) => {| outcome := Ok u; infrastructure_failure := false |}
  | Returned (Err (ParserInfrastructureFailure c)) =>
      {| outcome := Err (Failure.retryable c); infrastructure_failure := true |}
  | Returned (Err e) =>
      {| outcome := Err (Failure.fatal (error_cause e)); infrastructure_failure := false |}
  | TaskPanicked c =>
      {| outcome := Err (Failure.retryable c); infrastructure_failure := true |}
  end.

(** The loop of [prefer_component_failure]; [first] is [first_retryable]. *)
Fixpoint prefer_loop (first : option DataPlaneFailure) (l : list Outcome) : Outcome :=
  match l with
  | [] => match first with None => Ok tt | Some f => Err f end
  | Ok _ :: l => prefer_loop first l
  | Err f :: l =>
      if negb (Failure.is_retryable f) then Err f
      else prefer_loop (match first with None => Some f | Some g => Some g end) l
  end.
Definition prefer_component_failure (l : list Outcome) : Outcome := prefer_loop None l.

(** The end of [run_partition_pipeline_with_progress_and_row_counts]: the outcome of
    the component that ended the attempt comes first. *)
Definition ordered_outcomes (first : option FirstComponent) (reader sink parser : ComponentOutcome)
    : list ComponentOutcome :=
  match first with
  | Some Reader => [reader; sink; parser]
  | Some Sink => [sink; reader; parser]
  | Some Parser => [parser; reader; sink]
  | None => [reader; sink; parser]
  end.

Fixpoint first_infrastructure (l : list ComponentOutcome) : Outcome :=
  match l with
  | [] => Ok tt
  | o :: l => if infrastructure_failure o then outcome o else first_infrastructure l
  end.

Definition pipeline_result (external_cancelled : bool) (first : option FirstComponent)
    (reader sink parser : ComponentOutcome) : Outcome :=
  let outcomes := ordered_outcomes first reader sink parser in
  if external_cancelled then first_infrastructure outcomes
  else prefer_component_failure (outcome <$> outcomes).

(** ** The attempt's first component

    The [select!] loop of the same function, over the order in which tasks finish: it
    stops at external cancellation, when the reader finishes, or when the sink or the
    parser fails; a sink or parser that finishes without error is only recorded. *)
Inductive Finish := Cancelled | ReaderFinished (o : ComponentOutcome)
  | SinkFinished (o : ComponentOutcome) | ParserFinished (o : ComponentOutcome).

Fixpoint await_first (l : list Finish) : option (option FirstComponent) :=
  match l with
  | [] => None
  | Cancelled :: _ => Some None
  | ReaderFinished _ :: _ => Some (Some Reader)
  | SinkFinished o :: l => if is_ok (outcome o) then await_first l else Some (Some Sink)
  | ParserFinished o :: l => if is_ok (outcome o) then await_first l else Some (Some Parser)
  end.

(** The attempt: wait for the first component, cancel and join the others, and report. *)
Definition attempt_result (l : list Finish) (reader sink parser : ComponentOutcome) : option Outcome :=
  match await_first l with
  | None => None
  | Some None => Some (pipeline_result true None reader sink parser)
  | Some (Some first) => Some (pipeline_result false (Some first) reader sink parser)
  end.

(** ** Lemmas *)
Lemma prefer_loop_spec first l :
  match first with Some f => Failure.is_retryable f = true | None => True end →
  match prefer_loop first l with
  | Ok _ => first = None ∧ Forall (λ o, is_ok o = true) l
  | Err f =>
      if Failure.is_retryable f
      then Forall (λ o, match o with Ok _ => True | Err g => Failure.is_retryable g = true end) l ∧
        (first = Some f ∨ first = None ∧ ∃ l1 l2, l = l1 ++ Err f :: l2 ∧ Forall (λ o, is_ok o = true) l1)
      else ∃ l1 l2, l = l1 ++ Err f :: l2 ∧
        Forall (λ o, match o with Ok _ => True | Err g => Failure.is_retryable g = true end) l1
  end.
Proof.
  revert first. induction l as [|[u|g] l IH]; intros first Hf; cbn [prefer_loop].
  - destruct first as [f|]; [rewrite Hf; auto|by split].
  - specialize (IH first Hf). destruct (prefer_loop first l) as [|f].
    + destruct IH. by split; [|constructor].
    + destruct (Failure.is_retryable f).
      * destruct IH as [HF [?|(? & l1 & l2 & -> & HO)]]; (split; [by constructor|]); [by left|right].
        split; [done|]. exists (Ok u :: l1), l2. by split; [|constructor].
      * destruct IH as (l1 & l2 & -> & HF). exists (Ok u :: l1), l2. by split; [|constructor].
  - destruct (Failure.is_retryable g) eqn:Eg; cbn [negb].
    + set (first' := match first with None => Some g | Some x => Some x end).
      assert (match first' with Some f => Failure.is_retryable f = true | None => True end) as Hf'.
      { destruct first; done. }
      specialize (IH first' Hf'). destruct (prefer_loop first' l) as [|f].
      * destruct IH as [? _]. by destruct first.
      * destruct (Failure.is_retryable f).
        -- destruct IH as [HF [Hfirst|(Hn & _)]]; [|by destruct first].
           split; [by constructor|]. destruct first as [x|]; cbn in Hfirst; simplify_eq; [by left|right].
           split; [done|]. exists [], l. by split.
        -- destruct IH as (l1 & l2 & -> & HF). exists (Err g :: l1), l2. by split; [|constructor].
    + rewrite Eg. exists [], l. by split.
Qed.

Definition fatal_outcome (o : ComponentOutcome) : Prop :=
  ∃ f, outcome o = Err f ∧ disposition f = Fatal.

Lemma ordered_outcomes_perm first r s p : ordered_outcomes first r s p ≡ₚ [r; s; p].
Proof. destruct first as [[]|]; cbn; [done|apply perm_swap| |done]. solve_Permutation. Qed.

Lemma fatal_disposition f : Failure.is_retryable f = false ↔ disposition f = Fatal.
Proof. unfold Failure.is_retryable. by destruct (disposition f). Qed.

Lemma prefer_ok l : prefer_component_failure l = Ok tt ↔ Forall (λ o, is_ok o = true) l.
Proof.
  unfold prefer_component_failure. pose proof (prefer_loop_spec None l I) as Hs.
  destruct (prefer_loop None l) as [[]|f]; [tauto|]. split; [done|]. intros HF. exfalso.
  rewrite Forall_forall in HF.
  destruct (Failure.is_retryable f);
    [destruct Hs as [_ [?|(_ & l1 & l2 & -> & _)]]; [done|]|destruct Hs as (l1 & l2 & -> & _)];
    (assert (is_ok (@Err DataPlaneFailure unit f) = true); [|done]); apply HF; set_solver.
Qed.

Lemma prefer_fatal l :
  (∃ f, prefer_component_failure l = Err f ∧ disposition f = Fatal) ↔
  ∃ f, Err f ∈ l ∧ disposition f = Fatal.
Proof.
  unfold prefer_component_failure. pose proof (prefer_loop_spec None l I) as Hs. split.
  - intros (f & Hf & Hd). rewrite Hf in Hs. apply fatal_disposition in Hd as Hd'. rewrite Hd' in Hs.
    destruct Hs as (l1 & l2 & -> & _). exists f. split; [set_solver|done].
  - intros (f & Hin & Hd). apply fatal_disposition in Hd. destruct (prefer_loop None l) as [|g] eqn:E.
    + destruct Hs as [_ HF]. rewrite Forall_forall in HF. by apply HF in Hin.
    + exists g. split; [done|]. apply fatal_disposition. destruct (Failure.is_retryable g); [|done].
      destruct Hs as [HF _]. rewrite Forall_forall in HF. apply HF in Hin. congruence.
Qed.

Lemma infrastructure_retryable l :
  Forall (λ o, infrastructure_failure o = true → ∃ f, outcome o = Err f ∧ disposition f = Retryable) l →
  match first_infrastructure l with
  | Ok _ => Forall (λ o, infrastructure_failure o = false) l
  | Err f => disposition f = Retryable ∧ Exists (λ o, infrastructure_failure o = true) l
  end.
Proof.
  induction 1 as [|o l Ho _ IH]; cbn; [constructor|].
  destruct (infrastructure_failure o) eqn:E.
  - destruct Ho as (f & -> & ?); [done|]. split; [done|]. by left.
  - destruct (first_infrastructure l); [by constructor|]. destruct IH. split; [done|]. by right.
Qed.

Lemma pipeline_result_spec first r s p :
  let R := anyhow_component_outcome r in
  let S := data_plane_component_outcome s in
  let P := parser_component_outcome p in
  (pipeline_result false first R S P = Ok tt ↔
     is_ok (outcome R) = true ∧ is_ok (outcome S) = true ∧ is_ok (outcome P) = true) ∧
  ((∃ f, pipeline_result false first R S P = Err f ∧ disposition f = Fatal) ↔
     fatal_outcome R ∨ fatal_outcome S ∨ fatal_outcome P) ∧
  match pipeline_result true first R S P with
  | Ok _ => infrastructure_failure R = false ∧ infrastructure_failure S = false ∧
      infrastructure_failure P = false
  | Err f => disposition f = Retryable ∧
      (infrastructure_failure R = true ∨ infrastructure_failure S = true ∨
       infrastructure_failure P = true)
  end.
Proof.
  cbv zeta. set (R := anyhow_component_outcome r). set (S := data_plane_component_outcome s).
  set (P := parser_component_outcome p). pose proof (ordered_outcomes_perm first R S P) as Hp.
  unfold pipeline_result. split_and!.
  - rewrite prefer_ok, Hp. cbn. rewrite !Forall_cons. naive_solver.
  - rewrite prefer_fatal. setoid_rewrite Hp. cbn. unfold fatal_outcome. set_solver.
  - assert (Forall (λ o, infrastructure_failure o = true →
      ∃ f, outcome o = Err f ∧ disposition f = Retryable) (ordered_outcomes first R S P)) as Hinfra.
    { rewrite Hp, !Forall_cons. subst R S P.
      split_and!; [by destruct r; cbn; eauto|by destruct s; cbn; eauto| |constructor].
      by destruct p as [[|[]]|]; cbn; eauto. }
    apply infrastructure_retryable in Hinfra. destruct (first_infrastructure _) as [|f].
    + rewrite Hp, !Forall_cons in Hinfra. tauto.
    + destruct Hinfra as [? HE]. split; [done|]. rewrite Hp, !Exists_cons, Exists_nil in HE. tauto.
Qed.

(** the outcome of an attempt.  Without external cancellation the attempt succeeds
    exactly when reader, sink and parser all succeeded, and it fails fatally exactly
    when some component failed fatally, in whatever order the components finished and
    whatever retryable failures came first.  After external cancellation only an
    infrastructure failure (a panicked task or a lost parser worker) is reported, and
    it is retryable. *)
Theorem attempt_outcome l r s p o :
  let R := anyhow_component_outcome r in
  let S := data_plane_component_outcome s in
  let P := parser_component_outcome p in
  attempt_result l R S P = Some o →
  if decide (await_first l = Some None) then
    match o with
    | Ok _ => infrastructure_failure R = false ∧ infrastructure_failure S = false ∧
        infrastructure_failure P = false
    | Err f => disposition f = Retryable ∧
        (infrastructure_failure R = true ∨ infrastructure_failure S = true ∨
         infrastructure_failure P = true)
    end
  else
    (o = Ok tt ↔ is_ok (outcome R) = true ∧ is_ok (outcome S) = true ∧ is_ok (outcome P) = true) ∧
    ((∃ f, o = Err f ∧ disposition f = Fatal) ↔
      fatal_outcome R ∨ fatal_outcome S ∨ fatal_outcome P).
Proof.
  cbv zeta. unfold attempt_result. destruct (await_first l) as [[first|]|]; [..|done]; intros [= <-].
  - rewrite decide_False by done.
    by destruct (pipeline_result_spec (Some first) r s p) as (? & ? & _).
  - rewrite decide_True by done. by destruct (pipeline_result_spec None r s p) as (_ & _ & ?).
Qed.

(** The sink fails with a retryable error first; the parser then fails fatally. *)
Lemma attempt_outcome_witness :
  ∃ f, attempt_result
    [SinkFinished (data_plane_component_outcome (Returned (Err (Failure.retryable 1))))]
    (anyhow_component_outcome (Returned (Ok tt)))
    (data_plane_component_outcome (Returned (Err (Failure.retryable 1))))
    (parser_component_outcome (Returned (Err (OtherError 2)))) = Some (Err f) ∧ disposition f = Fatal.
Proof.
  pose proof (attempt_outcome
    [SinkFinished (data_plane_component_outcome (Returned (Err (Failure.retryable 1))))]
    (Returned (Ok tt)) (Returned (Err (Failure.retryable 1))) (Returned (Err (OtherError 2)))) as H.
  specialize (H _ eq_refl). rewrite decide_False in H by discriminate.
  destruct H as [_ H]. destruct (proj2 H) as (f & Hf & Hd).
  - right. right. exists (Failure.fatal 2). split; reflexivity.
  - exists f. split; [by rewrite <-Hf|exact Hd].
Defined.
