(* ===== verification/Reader.v ===== *)
(** * The reader of a partition pipeline

    [commit_through], [reserve_source_memory_with_events], [reader_loop_inner] and
    [reader_loop] of [transferia-pipeline/src/lib.rs], with the messages and tables of
    [transferia-core/src/data]: the loop that reads a source, numbers its batches,
    hands them to the parser, and commits their markers to the source once the sink
    has acknowledged them.

    The loop is a state machine: the program counter [Pc] has one constructor per
    await point, an [Input] is what the awaited future yielded (a read, a sink event, a
    permit, cancellation, ...) and [step] runs the code up to the next await point.  A
    [select!] accepts any of its branches; a biased [select!] accepts fewer orders than
    this.  The source is the environment: an event input carries what
    [Source::commit_offsets] would return if the handler calls it.  The fields after
    [output_open] record what has happened and influence nothing.

    The row counter is shared with the parser task; its steps are the inputs
    [IAdmitRows] and [IObserveRows], enabled at any await point. *)

From stdpp Require Import base tactics numbers option strings gmap fin_maps sets relations list.
From S2P Require Import Prelude DeliveryId RowCount Schema Arrow Delivery Failure.
Local Open Scope Z_scope.

(** ** Messages and tables *)
Record MessageMeta := {
  topic : option string; partition : option Z; offset : option Z; write_timestamp_ms : option Z
}.
Record Message := {
  msg_value : list Z;
  tombstone : bool;
  msg_key : option (list Z);
  headers : list (string * option (list Z));
  meta : MessageMeta
}.
Definition Message_new (value : list Z) : Message :=
  {| msg_value := value; tombstone := false; msg_key := None; headers := [];
     meta := {| topic := None; partition := None; offset := None; write_timestamp_ms := None |} |}.

Section data.
Context `{ArrowTypes, ArrowValues}.

Record TableData := {
  td_namespace : option string;
  td_table : string;
  td_is_dlq : bool;
  td_schema : DatasetSchema;
  td_batch : RecordBatch;
  td_system_columns : SystemColumns
}.

Definition TableData_new (t : string) (dlq : bool) (b : RecordBatch) (sys : SystemColumns)
    : result SchemaError TableData :=
  schema ← from_arrow (rb_schema b);
  Ok {| td_namespace := None; td_table := t; td_is_dlq := dlq; td_schema := schema;
        td_batch := b; td_system_columns := sys |}.

Definition dlq_name (t : string) : string := t +:+ "_dlq".

Inductive ReadPayload :=
| PDataset (d : DiscoveredDataset)
| PRaw (messages : list Message)
| PTyped (tables : list TableData).
End data.

Definition CHANNEL_CAPACITY : Z := 8.
Definition INITIAL_BACKOFF_MS : Z := 10.
Definition MAX_BACKOFF_MS : Z := 30000.

(** ** [PipelineProgress] *)
Record PipelineProgress := { committed_groups : Z; finite_source_drained : bool }.
Module PipelineProgress.
Definition new : PipelineProgress := {| committed_groups := 0; finite_source_drained := false |}.
Definition checkpoint (p : PipelineProgress) : Z := committed_groups p.
Definition advanced_since (p : PipelineProgress) (c : Z) : bool := bool_decide (c < checkpoint p).
Definition record_source_commit (p : PipelineProgress) : PipelineProgress :=
  {| committed_groups := wrapping_add u64_max (committed_groups p) 1;
     finite_source_drained := finite_source_drained p |}.
Definition record_finite_source_drained (p : PipelineProgress) : PipelineProgress :=
  {| committed_groups := committed_groups p; finite_source_drained := true |}.
End PipelineProgress.

Section reader.
Context `{ArrowTypes, ArrowValues}.
(** The marker a source attaches to a batch, and Arrow's buffer accounting. *)
Context {Marker : Type} (array_memory_size : Array → Z).

(** [MemoryReservation] is a handle. *)
Inductive SourceBatch :=
| Dataset (d : DiscoveredDataset) (commit_marker : Marker) (memory : list Z)
| Raw (messages : list Message) (commit_marker : option Marker) (memory : list Z)
| Typed (tables : list TableData) (source_rows : Z) (commit_marker : option Marker) (memory : list Z)
| Finished.

Record CommitEntry := { ce_id : DeliveryId; ce_marker : option Marker }.

Record ReadEnvelope := {
  re_id : DeliveryId; re_payload : ReadPayload; re_memory : list Z; re_meta : DeliveryMeta
}.

Inductive ReaderCompletion := RCancelled | FiniteSourceDrained.

(** A batch taken apart: payload, reservations, marker, bytes and messages. *)
Record Prepared := {
  pr_payload : ReadPayload; pr_memory : list Z; pr_marker : option Marker;
  pr_bytes : Z; pr_messages : Z
}.

Inductive Pc :=
| AtRead
| AtTryRecv (b : SourceBatch)
| AtIdle
| AtReserve (p : Prepared)
| AtSend (e : ReadEnvelope) (barrier : bool)
| AtBarrier
| AtFinish
| Done (r : result AnyhowError ReaderCompletion).

Record State := {
  pc : Pc;
  ledger : list CommitEntry;
  next_id : DeliveryId;
  backoff_ms : Z;
  progress : PipelineProgress;
  row_counts : option OutputRowCountState;
  output_open : bool;
  (** what has happened *)
  reads : list SourceBatch;
  history : list CommitEntry;
  retired : nat;
  sent : list ReadEnvelope;
  commits : list (list Marker);
  acked : list DeliveryId
}.

Definition init (p : PipelineProgress) (rows : option OutputRowCountState) : State :=
  {| pc := AtRead; ledger := []; next_id := DeliveryId.new 1; backoff_ms := INITIAL_BACKOFF_MS;
     progress := p; row_counts := rows; output_open := true;
     reads := []; history := []; retired := 0; sent := []; commits := []; acked := [] |}.

Definition set_pc (s : State) (c : Pc) : State :=
  {| pc := c; ledger := ledger s; next_id := next_id s; backoff_ms := backoff_ms s;
     progress := progress s; row_counts := row_counts s; output_open := output_open s;
     reads := reads s; history := history s; retired := retired s; sent := sent s;
     commits := commits s; acked := acked s |}.
Definition set_backoff (s : State) (b : Z) : State :=
  {| pc := pc s; ledger := ledger s; next_id := next_id s; backoff_ms := b;
     progress := progress s; row_counts := row_counts s; output_open := output_open s;
     reads := reads s; history := history s; retired := retired s; sent := sent s;
     commits := commits s; acked := acked s |}.
Definition set_rows (s : State) (r : option OutputRowCountState) : State :=
  {| pc := pc s; ledger := ledger s; next_id := next_id s; backoff_ms := backoff_ms s;
     progress := progress s; row_counts := r; output_open := output_open s;
     reads := reads s; history := history s; retired := retired s; sent := sent s;
     commits := commits s; acked := acked s |}.

(** The errors the reader raises itself, by their position in the source. *)
Definition E_UNKNOWN_DELIVERY : nat := 1.
Definition E_ROW_COUNTS : nat := 2.
Definition E_EVENTS_CLOSED : nat := 3.
Definition E_PARSER_CLOSED : nat := 4.

(** ** [commit_through] *)

(** [ledger.iter().take_while(|entry| entry.id <= committed).count()] *)
Fixpoint entries_through (l : list CommitEntry) (c : DeliveryId) : nat :=
  match l with
  | e :: l => if bool_decide (ce_id e ≤ c) then S (entries_through l c) else 0%nat
  | [] => 0%nat
  end.

Definition valid_range (l : list CommitEntry) (c : DeliveryId) : bool :=
  match head l, last l with
  | Some first, Some last => bool_decide (ce_id first ≤ c) && bool_decide (c ≤ ce_id last)
  | _, _ => false
  end.

(** [offsets] is the answer of [Source::commit_offsets], used if it is called. *)
Definition commit_through (s : State) (c : DeliveryId) (offsets : result DataPlaneFailure unit)
    : State * result AnyhowError unit :=
  if negb (valid_range (ledger s) c) then
    (s, Err (WrapsFailure (Failure.fatal E_UNKNOWN_DELIVERY)))
  else
  let n := entries_through (ledger s) c in
  let markers := omap ce_marker (firstn n (ledger s)) in
  let validated := match row_counts s with
    | Some rows => is_ok (validate_commit_through rows c) | None => true end in
  if negb validated then (s, Err (OtherError E_ROW_COUNTS)) else
  let '(called, failed) :=
    if bool_decide (length markers = 0%nat) then (false, None)
    else match offsets with Ok _ => (true, None) | Err f => (true, Some f) end in
  match failed with
  | Some f => (s, Err (WrapsFailure f))
  | None =>
      let p := if called : bool then PipelineProgress.record_source_commit (progress s) else progress s in
      let commits' := if called then commits s ++ [markers] else commits s in
      let '(rows', rows_ok) := match row_counts s with
        | Some rows => let '(r, o) := RowCount.commit_through rows c in (Some r, is_ok o)
        | None => (None, true) end in
      if negb rows_ok then
        ({| pc := pc s; ledger := ledger s; next_id := next_id s; backoff_ms := backoff_ms s;
            progress := p; row_counts := rows'; output_open := output_open s;
            reads := reads s; history := history s; retired := retired s; sent := sent s;
            commits := commits'; acked := acked s |}, Err (OtherError E_ROW_COUNTS))
      else
        ({| pc := pc s; ledger := drop n (ledger s); next_id := next_id s; backoff_ms := backoff_ms s;
            progress := p; row_counts := rows'; output_open := output_open s;
            reads := reads s; history := history s; retired := retired s + n; sent := sent s;
            commits := commits'; acked := acked s |}, Ok tt)
  end.

(** ** The reader loop *)
Inductive Input :=
| ICancel
| IRead (r : result DataPlaneFailure SourceBatch)
| IEvent (id : DeliveryId) (offsets : result DataPlaneFailure unit)
| INoEvent
| IClosed
| ISleep
| IReserved (reservation : Z)
| IPermit (ok : bool)
| IAdmitRows (datasets : list (string * bool))
| IObserveRows (id : DeliveryId) (outputs : list OutputBatch).

Definition arrow_batch_bytes (b : RecordBatch) : Z := lsum array_memory_size (rb_columns b).

(** The match that takes a batch apart; [Finished] is handled before. *)
Definition prepare (b : SourceBatch) : option Prepared :=
  match b with
  | Dataset d m mem =>
      Some {| pr_payload := PDataset d; pr_memory := mem; pr_marker := Some m;
              pr_bytes := 0; pr_messages := 0 |}
  | Raw msgs m mem =>
      Some {| pr_payload := PRaw msgs; pr_memory := mem; pr_marker := m;
              pr_bytes := lsum (λ msg, Z.of_nat (length (msg_value msg))) msgs;
              pr_messages := Z.of_nat (length msgs) |}
  | Typed tables source_rows m mem =>
      Some {| pr_payload := PTyped tables; pr_memory := mem; pr_marker := m;
              pr_bytes := lsum (λ t, arrow_batch_bytes (td_batch t)) tables;
              pr_messages := source_rows |}
  | Finished => None
  end.

Definition payload_is_empty (p : ReadPayload) : bool :=
  match p with
  | PDataset _ => false
  | PRaw msgs => bool_decide (length msgs = 0%nat)
  | PTyped tables => forallb (λ t, bool_decide (rb_rows (td_batch t) = 0%nat)) tables
  end.

Definition is_dataset (p : ReadPayload) : bool := match p with PDataset _ => true | _ => false end.

(** [backoff_ms.saturating_mul(2).min(MAX_BACKOFF_MS)] *)
Definition next_backoff (b : Z) : Z := Z.min (saturating_mul u64_max b 2) MAX_BACKOFF_MS.

(** The ledger push and the envelope. *)
Definition enqueue (s : State) (p : Prepared) : State :=
  let entry := {| ce_id := next_id s; ce_marker := pr_marker p |} in
  let envelope := {| re_id := next_id s; re_payload := pr_payload p; re_memory := pr_memory p;
                     re_meta := {| meta_source_messages := pr_messages p |} |} in
  {| pc := AtSend envelope (is_dataset (pr_payload p)); ledger := ledger s ++ [entry];
     next_id := DeliveryId.next (next_id s); backoff_ms := backoff_ms s;
     progress := progress s; row_counts := row_counts s; output_open := output_open s;
     reads := reads s; history := history s ++ [entry]; retired := retired s; sent := sent s;
     commits := commits s; acked := acked s |}.

(** [while !ledger.is_empty()]: leave the two waiting loops when the ledger is empty. *)
Definition settle (s : State) : State :=
  match pc s, ledger s with
  | AtBarrier, [] => set_pc s AtRead
  | AtFinish, [] =>
      {| pc := Done (Ok FiniteSourceDrained); ledger := ledger s; next_id := next_id s;
         backoff_ms := backoff_ms s;
         progress := PipelineProgress.record_finite_source_drained (progress s);
         row_counts := row_counts s; output_open := output_open s; reads := reads s;
         history := history s; retired := retired s; sent := sent s; commits := commits s;
         acked := acked s |}
  | _, _ => s
  end.

(** After the pending events: the batch is examined. *)
Definition after_read (s : State) (b : SourceBatch) : State :=
  match prepare b with
  | None =>
      settle {| pc := AtFinish; ledger := ledger s; next_id := next_id s; backoff_ms := backoff_ms s;
                progress := progress s; row_counts := row_counts s; output_open := false;
                reads := reads s; history := history s; retired := retired s; sent := sent s;
                commits := commits s; acked := acked s |}
  | Some p =>
      if payload_is_empty (pr_payload p) && is_none (pr_marker p) then set_pc s AtIdle
      else
        let s := set_backoff s INITIAL_BACKOFF_MS in
        if bool_decide (length (pr_memory p) = 0%nat) && bool_decide (0 < pr_bytes p)
        then set_pc s (AtReserve p) else enqueue s p
  end.

(** A sink event: record it, run [commit_through], stop on an error. *)
Definition on_event (s : State) (id : DeliveryId) (offsets : result DataPlaneFailure unit)
    (continue : State → State) : State :=
  let s := {| pc := pc s; ledger := ledger s; next_id := next_id s; backoff_ms := backoff_ms s;
              progress := progress s; row_counts := row_counts s; output_open := output_open s;
              reads := reads s; history := history s; retired := retired s; sent := sent s;
              commits := commits s; acked := acked s ++ [id] |} in
  match commit_through s id offsets with
  | (s, Err e) => set_pc s (Done (Err e))
  | (s, Ok _) => continue s
  end.

Definition idle_over (s : State) : State := set_pc (set_backoff s (next_backoff (backoff_ms s))) AtRead.

(** The parser's operations on the shared row counter. *)
Definition rows_step (s : State) (i : Input) : option State :=
  match row_counts s, i with
  | Some rows, IAdmitRows ds => Some (set_rows s (Some (admit_datasets rows ds)))
  | Some rows, IObserveRows id outs => Some (set_rows s (Some (observe_delivery rows id outs).1))
  | _, _ => None
  end.

(** The await points, in source order: each runs the code up to the next one. *)
Definition at_read (s : State) (i : Input) : option State :=
  match i with
  | ICancel => Some (set_pc s (Done (Ok RCancelled)))
  | IRead (Err f) => Some (set_pc s (Done (Err (WrapsFailure f))))
  | IRead (Ok b) =>
      Some {| pc := AtTryRecv b; ledger := ledger s; next_id := next_id s; backoff_ms := backoff_ms s;
              progress := progress s; row_counts := row_counts s; output_open := output_open s;
              reads := reads s ++ [b]; history := history s; retired := retired s; sent := sent s;
              commits := commits s; acked := acked s |}
  | _ => None
  end.

(** [while let Ok(..) = events.try_recv()] *)
Definition at_try_recv (s : State) (b : SourceBatch) (i : Input) : option State :=
  match i with
  | IEvent c o => Some (on_event s c o id)
  | INoEvent => Some (after_read s b)
  | _ => None
  end.

Definition at_idle (s : State) (i : Input) : option State :=
  match i with
  | ICancel => Some (set_pc s (Done (Ok RCancelled)))
  | IEvent c o => Some (on_event s c o idle_over)
  | IClosed | ISleep => Some (idle_over s)
  | _ => None
  end.

Definition reserve_source_memory_with_events (s : State) (p : Prepared) (i : Input) : option State :=
  match i with
  | ICancel => Some (set_pc s (Done (Ok RCancelled)))
  | IEvent c o => Some (on_event s c o id)
  | IClosed => Some (set_pc s (Done (Err (OtherError E_EVENTS_CLOSED))))
  | IReserved r =>
      Some (enqueue s {| pr_payload := pr_payload p; pr_memory := pr_memory p ++ [r];
                         pr_marker := pr_marker p; pr_bytes := pr_bytes p;
                         pr_messages := pr_messages p |})
  | _ => None
  end.

(** [while pending.is_some()] *)
Definition at_send (s : State) (e : ReadEnvelope) (barrier : bool) (i : Input) : option State :=
  match i with
  | ICancel => Some (set_pc s (Done (Ok RCancelled)))
  | IEvent c o => Some (on_event s c o id)
  | IClosed => Some (set_pc s (Done (Err (OtherError E_EVENTS_CLOSED))))
  | IPermit false => Some (set_pc s (Done (Err (OtherError E_PARSER_CLOSED))))
  | IPermit true =>
      Some (settle {| pc := (if barrier then AtBarrier else AtRead); ledger := ledger s;
              next_id := next_id s; backoff_ms := backoff_ms s; progress := progress s;
              row_counts := row_counts s; output_open := output_open s; reads := reads s;
              history := history s; retired := retired s; sent := sent s ++ [e];
              commits := commits s; acked := acked s |})
  | _ => None
  end.

(** The body of the two [while !ledger.is_empty()] loops. *)
Definition at_drain (s : State) (i : Input) : option State :=
  match i with
  | ICancel => Some (set_pc s (Done (Ok RCancelled)))
  | IEvent c o => Some (on_event s c o settle)
  | IClosed => Some (set_pc s (Done (Err (OtherError E_EVENTS_CLOSED))))
  | _ => None
  end.

Definition step (s : State) (i : Input) : option State :=
  match i with
  | IAdmitRows _ | IObserveRows _ _ => match pc s with Done _ => None | _ => rows_step s i end
  | _ =>
      match pc s with
      | AtRead => at_read s i
      | AtTryRecv b => at_try_recv s b i
      | AtIdle => at_idle s i
      | AtReserve p => reserve_source_memory_with_events s p i
      | AtSend e barrier => at_send s e barrier i
      | AtBarrier | AtFinish => at_drain s i
      | Done _ => None
      end
  end.

(** [reader_loop]: shut the source down, keep the pipeline's outcome. *)
Definition reader_loop (r : result AnyhowError ReaderCompletion) (shutdown : result DataPlaneFailure unit)
    : result AnyhowError unit :=
  match r, shutdown with
  | Ok _, Ok _ => Ok tt
  | Ok _, Err _ => Ok tt
  | Err e, Ok _ => Err e
  | Err e, Err _ => Err e
  end.

(** Steps and runs. *)
Definition steps (s s' : State) : Prop := ∃ i, step s i = Some s'.
Definition reachable (s : State) : Prop := ∃ p rows, rtc steps (init p rows) s.

Fixpoint run_inputs (s : State) (l : list Input) : option State :=
  match l with [] => Some s | i :: l => s' ← step s i; run_inputs s' l end.

(** ** Invariant *)

(** The number of the [i]-th delivery. *)
Definition id_at (i : nat) : DeliveryId := Z.min (Z.of_nat i + 1) u64_max.

(** Batches that become deliveries. *)
Definition kept (b : SourceBatch) : bool :=
  match prepare b with
  | Some p => negb (payload_is_empty (pr_payload p) && is_none (pr_marker p))
  | None => false
  end.
Definition marker_of (b : SourceBatch) : option Marker := prepare b ≫= pr_marker.

(** The batch under examination. *)
Definition tail_ok (c : Pc) (tail : list SourceBatch) : Prop :=
  match c with
  | AtTryRecv b => tail = [b]
  | AtReserve p => ∃ b, tail = [b] ∧ prepare b = Some p ∧ kept b = true
  | Done (Ok FiniteSourceDrained) => tail = []
  | Done _ => (length tail ≤ 1)%nat
  | _ => tail = []
  end.

(** The envelope being sent. *)
Definition in_hand (c : Pc) : list ReadEnvelope := match c with AtSend e _ => [e] | _ => [] end.

(** Entries not yet sent. *)
Definition flight_ok (c : Pc) (nsent nhistory : nat) : Prop :=
  match c with
  | AtSend _ _ => nhistory = S nsent
  | Done (Ok FiniteSourceDrained) => nhistory = nsent
  | Done _ => (nsent ≤ nhistory ≤ S nsent)%nat
  | _ => nhistory = nsent
  end.

(** A sent dataset is committed, unless the reader waits for just that. *)
Definition barrier_ok (c : Pc) (i nsent nretired : nat) : Prop :=
  (i < nretired)%nat ∨ (S i = nsent ∧ match c with AtBarrier | Done _ => True | _ => False end).

Record Inv_at (s : State) (pre : list SourceBatch) : Prop := {
  inv_ledger : ledger s = drop (retired s) (history s);
  inv_retired : (retired s ≤ length (history s))%nat;
  inv_commits : mjoin (commits s) = omap ce_marker (firstn (retired s) (history s));
  inv_ids : ∀ i e, history s !! i = Some e → ce_id e = id_at i;
  inv_next : next_id s = id_at (length (history s));
  inv_acked : ∀ i e, (i < retired s)%nat → history s !! i = Some e → ∃ a, a ∈ acked s ∧ ce_id e ≤ a;
  inv_history : Forall2 (λ b e, ce_marker e = marker_of b) (filter (λ b, kept b = true) pre) (history s);
  inv_envelopes : ∀ i env, (sent s ++ in_hand (pc s)) !! i = Some env →
    ∃ b p, filter (λ b, kept b = true) pre !! i = Some b ∧ prepare b = Some p ∧
      re_payload env = pr_payload p ∧ re_id env = id_at i;
  inv_flight : flight_ok (pc s) (length (sent s)) (length (history s));
  inv_flag : ∀ e f, pc s = AtSend e f → f = is_dataset (re_payload e);
  inv_barrier : ∀ i env, sent s !! i = Some env → is_dataset (re_payload env) = true →
    barrier_ok (pc s) i (length (sent s)) (retired s);
  inv_backoff : INITIAL_BACKOFF_MS ≤ backoff_ms s ≤ MAX_BACKOFF_MS;
  inv_drained : pc s = Done (Ok FiniteSourceDrained) → ledger s = []
}.
Definition Inv (s : State) : Prop := ∃ pre tail, reads s = pre ++ tail ∧ tail_ok (pc s) tail ∧ Inv_at s pre.

Lemma Inv_init p rows : Inv (init p rows).
Proof.
  exists [], []. split_and!; [done..|]. split; cbn; done.
Qed.

(** ** [commit_through] *)
Lemma entries_through_le l c : (entries_through l c ≤ length l)%nat.
Proof. induction l as [|e l IH]; cbn; [lia|]. case_bool_decide; lia. Qed.

Lemma entries_through_ids l c e : e ∈ firstn (entries_through l c) l → ce_id e ≤ c.
Proof.
  induction l as [|x l IH]; cbn; [by intros ?%not_elem_of_nil|]. case_bool_decide as Hx; cbn.
  - intros [->|?]%elem_of_cons; [done|by apply IH].
  - by intros ?%not_elem_of_nil.
Qed.

(** The state after a commit of [n] entries. *)
Definition committed_state (s : State) (n : nat) (p : PipelineProgress)
    (rows : option OutputRowCountState) (cs : list (list Marker)) : State :=
  {| pc := pc s; ledger := drop n (ledger s); next_id := next_id s; backoff_ms := backoff_ms s;
     progress := p; row_counts := rows; output_open := output_open s; reads := reads s;
     history := history s; retired := retired s + n; sent := sent s; commits := cs; acked := acked s |}.

(** Exactly the markers, if any, reach the source, in one call that is counted. *)
Definition commit_effect (s : State) (markers : list Marker) (p : PipelineProgress)
    (cs : list (list Marker)) : Prop :=
  (markers = [] ∧ p = progress s ∧ cs = commits s) ∨
  (markers ≠ [] ∧ p = PipelineProgress.record_source_commit (progress s) ∧ cs = commits s ++ [markers]).

Lemma commit_effect_join s markers p cs :
  commit_effect s markers p cs → mjoin cs = mjoin (commits s) ++ markers.
Proof.
  intros [(-> & _ & ->)|(_ & _ & ->)]; [by rewrite app_nil_r|]. rewrite join_app. cbn. by rewrite app_nil_r.
Qed.

(** [commit_through] leaves everything on failure; on success it retires the entries
    up to [c] after handing their markers to the source. *)
Lemma commit_through_cases s c o s' r :
  commit_through s c o = (s', r) →
  let n := entries_through (ledger s) c in
  match r with
  | Err _ => s' = s
  | Ok _ => valid_range (ledger s) c = true ∧
      ∃ p rows cs, s' = committed_state s n p rows cs ∧
        commit_effect s (omap ce_marker (firstn n (ledger s))) p cs
  end.
Proof.
  unfold commit_through. destruct (valid_range (ledger s) c); cbn [negb]; [|by intros [= <- <-]].
  set (n := entries_through (ledger s) c). set (markers := omap ce_marker (firstn n (ledger s))).
  destruct (match row_counts s with Some _ => _ | None => _ end) eqn:Ev; cbn [negb]; [|by intros [= <- <-]].
  assert (∃ rows', (match row_counts s with
        | Some rows => let '(r, o) := RowCount.commit_through rows c in (Some r, is_ok o)
        | None => (None, true) end) = (rows', true)) as (rows' & ->).
  { destruct (row_counts s) as [rows|]; [|by eexists]. rewrite validate_agrees in Ev.
    destruct (RowCount.commit_through rows c) as [rows' out]; cbn in *. exists (Some rows'). by rewrite Ev. }
  case_bool_decide as Em; [|destruct o as [u|f]; [|by intros [= <- <-]]]; intros [= <- <-];
    split; [done| |done|]; eexists _, rows', _; (split; [reflexivity|]).
  - left. apply nil_length_inv in Em. done.
  - right. split_and!; [|done..]. intros He. by rewrite He in Em.
Qed.

(** ** The invariant is preserved *)
Definition with_ack (s : State) (id : DeliveryId) : State :=
  {| pc := pc s; ledger := ledger s; next_id := next_id s; backoff_ms := backoff_ms s;
     progress := progress s; row_counts := row_counts s; output_open := output_open s;
     reads := reads s; history := history s; retired := retired s; sent := sent s;
     commits := commits s; acked := acked s ++ [id] |}.

Lemma tail_ok_length c tail : tail_ok c tail → (length tail ≤ 1)%nat.
Proof.
  destruct c as [|b| |p|e f| | |[[]|]]; cbn; try (by intros ->; cbn; lia); try done.
  intros (b & -> & _). cbn. lia.
Qed.

Lemma flight_ok_bounds c n m : flight_ok c n m → (n ≤ m ≤ S n)%nat.
Proof. destruct c as [| | | | | | |[[]|]]; cbn; lia. Qed.

Lemma inv_ack s pre id : Inv_at s pre → Inv_at (with_ack s id) pre.
Proof.
  intros []; split; cbn; try done. intros i e Hi He.
  destruct (inv_acked0 i e Hi He) as (a & Ha & ?). exists a. split; [|done]. apply elem_of_app. by left.
Qed.

Lemma inv_commit s pre c p rows cs :
  Inv_at s pre → c ∈ acked s →
  commit_effect s (omap ce_marker (firstn (entries_through (ledger s) c) (ledger s))) p cs →
  Inv_at (committed_state s (entries_through (ledger s) c) p rows cs) pre.
Proof.
  intros [] Hc Hcs%commit_effect_join. pose proof (entries_through_le (ledger s) c) as Hle.
  pose proof (entries_through_ids (ledger s) c) as Hids.
  set (n := entries_through (ledger s) c) in *. rewrite inv_ledger0, length_drop in Hle.
  split; cbn; try done.
  - by rewrite inv_ledger0, drop_drop.
  - lia.
  - rewrite Hcs, inv_commits0, inv_ledger0, <-omap_app. f_equal.
    rewrite <-(take_drop (retired s) (history s)) at 3. rewrite firstn_app, length_take.
    rewrite take_take. f_equal; f_equal; lia.
  - intros i e Hi He. destruct (decide (i < retired s)%nat) as [|Hr]; [by apply inv_acked0 with i|].
    exists c. split; [done|]. apply Hids. apply list_elem_of_lookup. exists (i - retired s)%nat.
    rewrite inv_ledger0. rewrite lookup_take_lt by lia. rewrite lookup_drop. rewrite <-He. f_equal. lia.
  - intros i env Henv Hd. destruct (inv_barrier0 i env Henv Hd) as [?|?]; [left; lia|by right].
  - intros Hd. rewrite (inv_drained0 Hd). apply drop_nil.
Qed.

Lemma inv_stop s pre r :
  r ≠ Ok FiniteSourceDrained → Inv_at s pre → Inv_at (set_pc s (Done r)) pre.
Proof.
  intros Hr []. split; cbn; try done.
  - intros i env. rewrite app_nil_r. intros Henv. apply inv_envelopes0. by apply lookup_app_l_Some.
  - apply flight_ok_bounds in inv_flight0. by destruct r as [[]|].
  - intros i env Henv Hd. destruct (inv_barrier0 i env Henv Hd) as [?|[? _]]; [by left|by right].
  - by intros [= ->].
Qed.

Lemma Inv_stop s r : r ≠ Ok FiniteSourceDrained → Inv s → Inv (set_pc s (Done r)).
Proof.
  intros Hr (pre & tail & Hreads & Htail & HI). exists pre, tail. split_and!; [done| |by apply inv_stop].
  apply tail_ok_length in Htail. cbn. by destruct r as [[]|].
Qed.

(** An event handler keeps the invariant when its continuation does. *)
Lemma Inv_on_event s id o k :
  (∀ s', pc s' = pc s → Inv s' → Inv (k s')) → Inv s → Inv (on_event s id o k).
Proof.
  intros Hk (pre & tail & Hreads & Htail & HI). unfold on_event. fold (with_ack s id).
  assert (Inv (with_ack s id)) as HA by (exists pre, tail; split_and!; [done..|by apply inv_ack]).
  destruct (commit_through (with_ack s id) id o) as [s' [u|e]] eqn:E; apply commit_through_cases in E; cbn in E.
  - destruct E as (_ & p & rows & cs & -> & Hcs). apply Hk; [done|].
    exists pre, tail. split_and!; [done..|].
    apply (inv_commit (with_ack s id)); [by apply inv_ack| |done]. cbn. apply elem_of_app. right. left.
  - subst s'. by apply Inv_stop.
Qed.

(** Points at which nothing is being sent and no dataset is awaited. *)
Definition quiet (c : Pc) : bool :=
  match c with AtRead | AtTryRecv _ | AtIdle | AtReserve _ | AtFinish => true | _ => false end.

Lemma quiet_flight c n m : quiet c = true → flight_ok c n m ↔ m = n.
Proof. by destruct c. Qed.
Lemma quiet_barrier c i n m : quiet c = true → barrier_ok c i n m ↔ (i < m)%nat.
Proof. unfold barrier_ok. destruct c; cbn; try done; intros _; intuition. Qed.
Lemma quiet_hand c : quiet c = true → in_hand c = [].
Proof. by destruct c. Qed.

Lemma inv_move s pre c :
  quiet (pc s) = true → quiet c = true → Inv_at s pre → Inv_at (set_pc s c) pre.
Proof.
  intros Hq Hc []. split; cbn; try done.
  - rewrite quiet_hand in * by done. done.
  - rewrite quiet_flight in * by done. done.
  - by destruct c.
  - intros i env Henv Hd. specialize (inv_barrier0 i env Henv Hd). rewrite quiet_barrier in * by done. done.
  - by destruct c.
Qed.

Lemma inv_set_backoff s pre b :
  INITIAL_BACKOFF_MS ≤ b ≤ MAX_BACKOFF_MS → Inv_at s pre → Inv_at (set_backoff s b) pre.
Proof. intros Hb []. by split. Qed.

Lemma inv_skip s pre b : kept b = false → Inv_at s pre → Inv_at s (pre ++ [b]).
Proof.
  intros Hb []. assert (filter (λ b, kept b = true) (pre ++ [b]) = filter (λ b, kept b = true) pre) as Hf.
  { rewrite filter_app, filter_cons_False by congruence. cbn. apply app_nil_r. }
  split; try done; rewrite Hf; done.
Qed.

Lemma id_at_S i : DeliveryId.next (id_at i) = id_at (S i).
Proof. unfold DeliveryId.next, id_at, saturating_add, DeliveryId.new, u64_max. lia. Qed.

Lemma inv_enqueue s pre b p p' :
  quiet (pc s) = true → Inv_at s pre → prepare b = Some p → kept b = true →
  pr_payload p' = pr_payload p → pr_marker p' = pr_marker p →
  Inv_at (enqueue s p') (pre ++ [b]).
Proof.
  intros Hq [] Hp Hb Hpay Hmark.
  assert (filter (λ b, kept b = true) (pre ++ [b]) = filter (λ b, kept b = true) pre ++ [b]) as Hf.
  { by rewrite filter_app, filter_cons_True. }
  pose proof (Forall2_length _ _ _ inv_history0) as Hlen.
  rewrite quiet_flight in inv_flight0 by done.
  split; cbn; try done.
  - rewrite inv_ledger0, drop_app_le by lia. done.
  - rewrite length_app. lia.
  - rewrite inv_commits0, take_app_le by lia. done.
  - intros i e [He|[? [? He]%list_lookup_singleton_Some]]%lookup_app_Some; [by apply inv_ids0|].
    subst e. cbn. rewrite inv_next0. f_equal. lia.
  - by rewrite inv_next0, id_at_S, length_app, Nat.add_1_r.
  - intros i e Hi He. apply inv_acked0 with i; [done|]. rewrite lookup_app_l in He by lia. done.
  - rewrite Hf. apply Forall2_app; [done|]. constructor; [|done]. cbn. unfold marker_of. by rewrite Hp, Hmark.
  - intros i env. rewrite quiet_hand, app_nil_r in inv_envelopes0 by done. rewrite Hf.
    intros [He|[? [? He]%list_lookup_singleton_Some]]%lookup_app_Some.
    + destruct (inv_envelopes0 i env He) as (b' & p'' & Hb' & ?). exists b', p''. split; [|done].
      by apply lookup_app_l_Some.
    + subst env. exists b, p. cbn. assert (i = length (history s)) as -> by lia.
      split_and!; [|done..]. apply lookup_app_Some. right. split; [lia|]. by rewrite Hlen, Nat.sub_diag.
  - rewrite length_app. cbn. lia.
  - by intros ? ? [= <- <-].
  - intros i env Henv Hd. specialize (inv_barrier0 i env Henv Hd). rewrite quiet_barrier in inv_barrier0 by done.
    by left.
Qed.

Lemma Inv_settle s : (pc s = AtBarrier ∨ pc s = AtFinish ∨ pc s = AtRead) → Inv s → Inv (settle s).
Proof.
  intros Hpc HI. unfold settle. destruct (ledger s) eqn:El; [|by destruct (pc s)].
  destruct HI as (pre & tail & Hreads & Htail & HI).
  destruct HI. rewrite El in inv_ledger0. symmetry in inv_ledger0. apply (f_equal length) in inv_ledger0.
  rewrite length_drop in inv_ledger0. cbn in inv_ledger0.
  destruct Hpc as [Hpc|[Hpc|Hpc]]; rewrite Hpc in *; cbn in *.
  - exists pre, tail. split_and!; [done..|]. split; cbn; try done.
    + rewrite ?El. apply symmetry, nil_length_inv. rewrite length_drop. lia.
    + intros i env Henv Hd. left. apply lookup_lt_Some in Henv. lia.
  - exists pre, tail. split_and!; [done..|]. split; cbn; try done.
    + rewrite ?El. apply symmetry, nil_length_inv. rewrite length_drop. lia.
    + intros i env Henv Hd. destruct (inv_barrier0 i env Henv Hd) as [?|[? []]]. by left.
  - exists pre, tail. rewrite Hpc. split_and!; [done..|]. split; try done; rewrite ?Hpc; try done.
    rewrite ?El. apply symmetry, nil_length_inv. rewrite length_drop. lia.
Qed.

Lemma next_backoff_bounds b :
  INITIAL_BACKOFF_MS ≤ b ≤ MAX_BACKOFF_MS → INITIAL_BACKOFF_MS ≤ next_backoff b ≤ MAX_BACKOFF_MS.
Proof. unfold next_backoff, saturating_mul, INITIAL_BACKOFF_MS, MAX_BACKOFF_MS, u64_max. lia. Qed.

Lemma Inv_idle_over s : pc s = AtIdle → Inv s → Inv (idle_over s).
Proof.
  intros Hpc (pre & tail & Hreads & Htail & HI). rewrite Hpc in Htail. exists pre, tail.
  split_and!; [done..|]. apply inv_move; [by cbn; rewrite Hpc|done|].
  apply inv_set_backoff; [by apply next_backoff_bounds, inv_backoff with pre|done].
Qed.

Lemma Inv_rows_step s i s' : rows_step s i = Some s' → Inv s → Inv s'.
Proof.
  unfold rows_step. intros Hs (pre & tail & Hreads & Htail & []).
  destruct (row_counts s), i; simplify_eq; exists pre, tail; split_and!; try done; by split.
Qed.

Lemma kept_spec b p : prepare b = Some p →
  kept b = negb (payload_is_empty (pr_payload p) && is_none (pr_marker p)).
Proof. intros Hp. unfold kept. by rewrite Hp. Qed.

Lemma Inv_after_read s b : pc s = AtTryRecv b → Inv s → Inv (after_read s b).
Proof.
  intros Hpc (pre & tail & Hreads & Htail & HI). rewrite Hpc in Htail. cbn in Htail. subst tail.
  assert (quiet (pc s) = true) as Hq by by rewrite Hpc.
  unfold after_read. destruct (prepare b) as [p|] eqn:Hp.
  - rewrite <-(negb_involutive (_ && _)), <-(kept_spec b p Hp). destruct (kept b) eqn:Hb; cbn [negb].
    + assert (Inv_at (set_backoff s INITIAL_BACKOFF_MS) pre) as HB by by apply inv_set_backoff.
      destruct (_ && _).
      * exists pre, [b]. split_and!; [done|by exists b|by apply inv_move].
      * exists (pre ++ [b]), []. split_and!; [by rewrite app_nil_r|done|by apply inv_enqueue with p].
    + exists (pre ++ [b]), []. split_and!; [by rewrite app_nil_r|done|]. apply inv_move; [done..|].
      by apply inv_skip.
  - apply Inv_settle; [by right; left|]. exists (pre ++ [b]), []. cbn. split_and!; [by rewrite app_nil_r|done|].
    assert (Inv_at (set_pc s AtFinish) (pre ++ [b])) as [].
    { apply inv_move; [done..|]. apply inv_skip; [|done]. unfold kept. by rewrite Hp. }
    by split.
Qed.

Lemma Inv_permit s e f : pc s = AtSend e f → Inv s →
  Inv {| pc := (if f then AtBarrier else AtRead); ledger := ledger s;
         next_id := next_id s; backoff_ms := backoff_ms s; progress := progress s;
         row_counts := row_counts s; output_open := output_open s; reads := reads s;
         history := history s; retired := retired s; sent := sent s ++ [e];
         commits := commits s; acked := acked s |}.
Proof.
  intros Hpc (pre & tail & Hreads & Htail & []). rewrite Hpc in *. cbn in Htail. subst tail.
  specialize (inv_flag0 e f eq_refl). exists pre, [].
  split_and!; [done|by cbn; destruct f|]. split; cbn; try done.
  - replace (in_hand (if f then AtBarrier else AtRead)) with (@nil ReadEnvelope) by by destruct f.
    by rewrite app_nil_r.
  - cbn in inv_flight0. rewrite length_app, inv_flight0. destruct f; cbn; lia.
  - by destruct f.
  - intros i env [He|[? [? He]%list_lookup_singleton_Some]]%lookup_app_Some Hd.
    + destruct (inv_barrier0 i env He Hd) as [?|[? []]]. by left.
    + subst env. rewrite Hd in inv_flag0. subst f. right. split; [|done]. rewrite length_app. cbn. lia.
  - by destruct f.
Qed.

Lemma Inv_step s i s' : step s i = Some s' → Inv s → Inv s'.
Proof.
  intros Hs HI. unfold step in Hs.
  destruct i as [|[b|f]|c o| | | |r|ok|ds|id outs], (pc s) as [|b'| |p|e fl| | |r'] eqn:Hpc;
    simplify_eq/=;
    try (by apply Inv_stop); try (by eapply Inv_rows_step);
    try (by apply Inv_on_event);
    try (by apply Inv_idle_over); try (by apply Inv_after_read);
    try (apply Inv_on_event; [|done]; rewrite Hpc;
         intros s' Hpc' HI'; (apply Inv_idle_over || apply Inv_settle); auto).
  - destruct HI as (pre & tail & Hreads & Htail & HI). rewrite Hpc in Htail. cbn in Htail. subst tail.
    exists pre, [b]. cbn. rewrite Hreads, app_nil_r. split_and!; [done..|].
    apply (inv_move s pre (AtTryRecv b)) in HI as []; [|by rewrite Hpc|done]. by split.
  - destruct HI as (pre & tail & Hreads & Htail & HI). rewrite Hpc in Htail.
    destruct Htail as (b & -> & Hp & Hb). exists (pre ++ [b]), []. split_and!; [by rewrite app_nil_r|done|].
    apply (inv_enqueue s pre b p); try done. by rewrite Hpc.
  - destruct ok; simplify_eq; [|by apply Inv_stop]. apply Inv_settle; [destruct fl; cbn; auto|].
    by apply Inv_permit.
Qed.

Lemma reachable_Inv s : reachable s → Inv s.
Proof.
  intros (p & rows & Hr). revert Hr. apply rtc_invariant; [apply Inv_init|].
  intros a b Ha (i & Hi). by eapply Inv_step.
Qed.

(** ** Progress and end of input *)
Definition ending (c : Pc) : bool := match c with AtFinish | Done (Ok FiniteSourceDrained) => true | _ => false end.
Definition drained (c : Pc) : bool := match c with Done (Ok FiniteSourceDrained) => true | _ => false end.

Record Aux (p0 : PipelineProgress) (s : State) : Prop := {
  aux_groups : committed_groups (progress s)
    = (committed_groups p0 + Z.of_nat (length (commits s))) `mod` (u64_max + 1);
  aux_calls : Forall (λ m, m ≠ []) (commits s);
  aux_flag : finite_source_drained (progress s) = finite_source_drained p0 || drained (pc s);
  aux_eof : ending (pc s) = true → last (reads s) = Some Finished
}.

Lemma Aux_move p0 s c :
  drained c = drained (pc s) → (ending c = true → ending (pc s) = true) → Aux p0 s → Aux p0 (set_pc s c).
Proof. intros Hd He []. split; cbn; try done; [by rewrite Hd|auto]. Qed.

Lemma Aux_on_event p0 s id o k :
  drained (pc s) = false →
  (∀ s', pc s' = pc s → Aux p0 s' → Aux p0 (k s')) → Aux p0 s → Aux p0 (on_event s id o k).
Proof.
  intros Hpc Hk HA. unfold on_event. fold (with_ack s id).
  assert (Aux p0 (with_ack s id)) as HA' by (destruct HA; by split).
  destruct (commit_through (with_ack s id) id o) as [s' [u|e]] eqn:E; apply commit_through_cases in E; cbn in E.
  - destruct E as (_ & p & rows & cs & -> & Hcs). apply Hk; [done|]. destruct HA'.
    destruct Hcs as [(_ & -> & ->)|(Hne & -> & ->)]; split; cbn in *; try done.
    + rewrite length_app, aux_groups0. unfold wrapping_add. rewrite Zplus_mod_idemp_l. f_equal. cbn. lia.
    + by apply Forall_app_2; [|constructor].
  - subst s'. by apply Aux_move.
Qed.

Lemma Aux_settle p0 s : drained (pc s) = false → Aux p0 s → Aux p0 (settle s).
Proof.
  intros Hpc HA. unfold settle. destruct (pc s) eqn:Ep; try done; destruct (ledger s); try done.
  - apply Aux_move; rewrite ?Ep; done.
  - destruct HA; split; cbn; try done; [by rewrite orb_true_r|]. intros _. apply aux_eof0. by rewrite Ep.
Qed.

Lemma Aux_after_read p0 s b :
  pc s = AtTryRecv b → last (reads s) = Some b → Aux p0 s → Aux p0 (after_read s b).
Proof.
  intros Hpc Hlast HA. unfold after_read. destruct (prepare b) as [p|] eqn:Hp.
  - destruct (_ && _); [apply Aux_move; rewrite ?Hpc; done|].
    destruct HA as [? ? Hf ?]. rewrite Hpc in Hf. destruct (_ && _); by split.
  - apply Aux_settle; [done|]. destruct HA as [? ? Hf ?]. rewrite Hpc in Hf. split; cbn; try done.
    by destruct b.
Qed.

Lemma Aux_step p0 s i s' : step s i = Some s' → Inv s → Aux p0 s → Aux p0 s'.
Proof.
  intros Hs HI HA. unfold step in Hs.
  destruct i as [|[b|f]|c o| | | |r|ok|ds|id outs], (pc s) as [|b'| |p|e fl| | |r'] eqn:Hpc;
    simplify_eq/=;
    try (by apply Aux_move; rewrite ?Hpc);
    try (apply Aux_on_event; [by rewrite Hpc| |done]; intros s'' Hpc' HA'; rewrite Hpc in Hpc';
      first [done | by apply Aux_settle; [rewrite Hpc'|] | by destruct HA' as [? ? Hf ?]; rewrite Hpc' in Hf]);
    try (by destruct HA as [? ? Hf ?]; rewrite Hpc in Hf; split);
    try (unfold rows_step in Hs; destruct (row_counts s); simplify_eq;
         destruct HA as [? ? Hf He]; rewrite Hpc in Hf, He; split; cbn; rewrite ?Hpc; done).
  - destruct HI as (pre & tail & Hreads & Htail & HI). rewrite Hpc in Htail. cbn in Htail. subst tail.
    apply Aux_after_read; [done| |done]. rewrite Hreads. apply last_snoc.
  - destruct ok; simplify_eq; [|by apply Aux_move; rewrite ?Hpc]. apply Aux_settle; [by destruct fl|].
    destruct HA as [? ? Hf He]; rewrite Hpc in Hf, He; destruct fl; by split.
Qed.

Lemma rtc_Aux p rows s :
  0 ≤ committed_groups p ≤ u64_max → rtc steps (init p rows) s → Inv s ∧ Aux p s.
Proof.
  intros Hp. apply (rtc_invariant _ (λ s, Inv s ∧ Aux p s)).
  - split; [apply Inv_init|]. split; cbn; try done; [|by rewrite orb_false_r].
    rewrite Z.add_0_r, Z.mod_small; [done|lia].
  - intros a b [HI HA] (i & Hi). split; [by eapply Inv_step|by eapply Aux_step].
Qed.

(** ** Consecutive numbers *)
Definition numbered (z : Z) (l : list CommitEntry) : Prop :=
  ∀ k e, l !! k = Some e → ce_id e = z + Z.of_nat k.

Lemma numbered_cons z e l : numbered z (e :: l) → ce_id e = z ∧ numbered (z + 1) l.
Proof.
  intros Hn. split; [rewrite (Hn 0%nat e eq_refl); lia|]. intros k x Hx. rewrite (Hn (S k) x Hx). lia.
Qed.

Lemma numbered_ge z l e : numbered z l → e ∈ l → z ≤ ce_id e.
Proof. intros Hn (k & Hk)%list_elem_of_lookup. rewrite (Hn k e Hk). lia. Qed.

Lemma numbered_range z l c :
  numbered z l → valid_range l c = true ↔ ∃ e, e ∈ l ∧ ce_id e = c.
Proof.
  intros Hn. unfold valid_range. rewrite head_lookup, last_lookup.
  destruct l as [|x l]; [cbn; split; [done|intros (e & []%not_elem_of_nil & _)]|].
  destruct (lookup_lt_is_Some_2 (x :: l) (pred (length (x :: l)))) as [y Hy]; [cbn; lia|].
  rewrite Hy. cbn [lookup list_lookup]. pose proof (Hn 0%nat x eq_refl) as Hx. rewrite (Hn _ y Hy), Hx.
  rewrite andb_true_iff, !bool_decide_eq_true. split.
  - intros [Hlo Hhi]. destruct (lookup_lt_is_Some_2 (x :: l) (Z.to_nat (c - z))) as [e He]; [cbn in *; lia|].
    exists e. split; [by eapply list_elem_of_lookup_2|]. rewrite (Hn _ e He). lia.
  - intros (e & (k & Hk)%list_elem_of_lookup & <-). rewrite (Hn k e Hk). apply lookup_lt_Some in Hk.
    cbn in *. lia.
Qed.

Lemma numbered_drop z l c e :
  numbered z l → e ∈ drop (entries_through l c) l ↔ e ∈ l ∧ c < ce_id e.
Proof.
  revert z. induction l as [|x l IH]; intros z Hn; cbn; [rewrite elem_of_nil; naive_solver|].
  pose proof (numbered_cons z x l Hn) as [Hx Hn']. case_bool_decide as Hc; cbn.
  - rewrite (IH _ Hn'), elem_of_cons. split; [naive_solver|]. intros [[->|?] ?]; [lia|done].
  - split; [|by intros [? _]]. intros He. split; [done|]. pose proof (numbered_ge z _ e Hn He). lia.
Qed.

Lemma inv_numbered s pre :
  Inv_at s pre → Z.of_nat (length (history s)) ≤ u64_max → numbered (Z.of_nat (retired s) + 1) (ledger s).
Proof.
  intros [] Hlen k e. rewrite inv_ledger0, lookup_drop. intros He. rewrite (inv_ids0 _ _ He).
  apply lookup_lt_Some in He. unfold id_at. lia.
Qed.

(** Batches that are skipped carry no marker. *)
Lemma skipped_marker b : kept b = false → marker_of b = None.
Proof.
  unfold kept, marker_of. destruct (prepare b) as [p|]; [|done]. intros ?; bool_inv. cbn.
  by destruct (pr_marker p).
Qed.

Lemma omap_marker_kept (l : list SourceBatch) : omap marker_of (filter (λ b, kept b = true) l) = omap marker_of l.
Proof.
  induction l as [|b l IH]; [done|]. destruct (kept b) eqn:Hb.
  - rewrite filter_cons_True by done. cbn. by rewrite IH.
  - rewrite filter_cons_False by congruence. cbn. by rewrite IH, skipped_marker.
Qed.

Lemma omap_Forall2 {A B C} (f : A → option C) (g : B → option C) (l : list A) (k : list B) :
  Forall2 (λ a b, g b = f a) l k → omap f l = omap g k.
Proof. induction 1 as [|a b l k Hab _ IH]; [done|]. cbn. by rewrite Hab, IH. Qed.

Lemma inv_markers s pre : Inv_at s pre → omap ce_marker (history s) = omap marker_of pre.
Proof. intros []. symmetry. rewrite <-omap_marker_kept. by apply omap_Forall2. Qed.

Lemma inv_sent_acked s pre i env :
  Inv_at s pre → (i < retired s)%nat → sent s !! i = Some env → ∃ a, a ∈ acked s ∧ re_id env ≤ a.
Proof.
  intros [] Hi Henv. destruct (inv_envelopes0 i env) as (_ & _ & _ & _ & _ & ->); [by apply lookup_app_l_Some|].
  destruct (lookup_lt_is_Some_2 (history s) i) as [e He]; [lia|].
  destruct (inv_acked0 i e Hi He) as (a & ? & ?). exists a. split; [done|]. by rewrite <-(inv_ids0 i e He).
Qed.

(** What the parser must receive. *)
Definition deliveries (l : list SourceBatch) : list ReadPayload :=
  omap (λ b, if kept b then pr_payload <$> prepare b else None) l.

Lemma deliveries_kept (l : list SourceBatch) : deliveries (filter (λ b, kept b = true) l) = deliveries l.
Proof.
  induction l as [|b l IH]; [done|]. unfold deliveries in *. destruct (kept b) eqn:Hb.
  - rewrite filter_cons_True by done. cbn. by rewrite IH.
  - rewrite filter_cons_False by congruence. cbn. by rewrite IH, Hb.
Qed.

Lemma inv_sent s pre :
  Inv_at s pre → flight_ok AtRead (length (sent s)) (length (history s)) →
  re_payload <$> sent s = deliveries pre.
Proof.
  intros [] Hfl. cbn in Hfl. rewrite <-deliveries_kept. pose proof (Forall2_length _ _ _ inv_history0) as Hlen.
  assert (Forall2 (λ b env, Some (re_payload env) = if kept b then pr_payload <$> prepare b else None)
    (filter (λ b, kept b = true) pre) (sent s)) as HF.
  { apply Forall2_same_length_lookup_2; [congruence|]. intros i b env Hb Henv.
    destruct (inv_envelopes0 i env) as (b' & p & Hb' & Hp & Hpay & _); [by apply lookup_app_l_Some|].
    simplify_eq. apply list_elem_of_lookup_2, list_elem_of_filter in Hb as [Hk _]. by rewrite Hk, Hp, Hpay. }
  unfold deliveries. rewrite (omap_Forall2 _ (Some ∘ re_payload) _ _ HF). symmetry.
  generalize (sent s). intros k. induction k as [|x k IH]; [done|]. cbn. by f_equal.
Qed.

(** ** Waiting *)
Definition waits (c : Pc) : bool := match c with Done _ | AtTryRecv _ => false | _ => true end.

Lemma step_cancel s : waits (pc s) = true → step s ICancel = Some (set_pc s (Done (Ok RCancelled))).
Proof. intros Hw. cbn. by destruct (pc s). Qed.

Lemma after_read_pc s b :
  waits (pc (after_read s b)) = true ∨ pc (after_read s b) = Done (Ok FiniteSourceDrained).
Proof.
  unfold after_read, settle. destruct (prepare b) as [p|]; cbn; [|destruct (ledger s); auto].
  repeat destruct (_ && _); auto.
Qed.

Lemma numbered_last_drop z l e :
  numbered z l → last l = Some e → drop (entries_through l (ce_id e)) l = [].
Proof.
  intros Hn He. rewrite last_lookup in He. apply elem_of_nil_inv. intros x [Hx Hlt]%(numbered_drop z); [|done].
  apply list_elem_of_lookup in Hx as [k Hk]. rewrite (Hn _ _ He), (Hn _ _ Hk) in Hlt.
  apply lookup_lt_Some in Hk. lia.
Qed.

Lemma finish_step s e z :
  numbered z (ledger s) → pc s = AtFinish → row_counts s = None → last (ledger s) = Some e →
  ∃ s', step s (IEvent (ce_id e) (Ok tt)) = Some s' ∧ pc s' = Done (Ok FiniteSourceDrained).
Proof.
  intros Hn Hpc Hrows He. exists (on_event s (ce_id e) (Ok tt) settle). split; [cbn; by rewrite Hpc|].
  unfold on_event. fold (with_ack s (ce_id e)).
  destruct (commit_through (with_ack s (ce_id e)) (ce_id e) (Ok tt)) as [s' [u|x]] eqn:E.
  - apply commit_through_cases in E. cbn in E. destruct E as (_ & p & rows & cs & -> & _).
    unfold settle. cbn. by rewrite Hpc, (numbered_last_drop z).
  - exfalso. assert (valid_range (ledger s) (ce_id e) = true) as Hv.
    { apply (numbered_range z); [done|]. exists e. split; [|done]. rewrite last_lookup in He.
      by eapply list_elem_of_lookup_2. }
    unfold commit_through in E. cbn in E. rewrite Hv, Hrows in E. cbn in E.
    by destruct (bool_decide _) in E.
Qed.

(** ** Claims *)

(** C4. Source offsets are committed in read order, each marker at most once, and
    only for acknowledged deliveries: in every reachable state the markers handed to
    [Source::commit_offsets], call after call, are a prefix of the markers of the
    batches read; they are exactly the markers of the deliveries the ledger has
    retired, each of which lies at or below an id the sink has acknowledged; and no
    call to the source carries an empty list. *)
Theorem reader_commits_exact p rows s :
  0 ≤ committed_groups p ≤ u64_max → rtc steps (init p rows) s →
  mjoin (commits s) `prefix_of` omap marker_of (reads s) ∧
  mjoin (commits s) = omap ce_marker (firstn (retired s) (history s)) ∧
  (∀ i e, (i < retired s)%nat → history s !! i = Some e → ∃ a, a ∈ acked s ∧ ce_id e ≤ a) ∧
  Forall (λ m, m ≠ []) (commits s).
Proof.
  intros Hp Hr. destruct (rtc_Aux p rows s Hp Hr) as [(pre & tail & Hreads & _ & HI) HA].
  split_and!; [|by apply inv_commits with pre|by apply inv_acked with pre|by apply aux_calls with p].
  rewrite (inv_commits s pre HI), Hreads, omap_app, <-(inv_markers s pre HI).
  apply prefix_app_r. rewrite <-(take_drop (retired s) (history s)) at 2. rewrite omap_app. by eexists.
Qed.

(** A finite source is reported drained only when everything it emitted is
    durable: if the reader ends with [FiniteSourceDrained], the last batch read was
    [Finished], the parser received exactly the non-empty batches in order, the sink
    acknowledged every one of them, every marker was committed to the source, in
    order, and the ledger is empty.  The flag shared across retries is raised in no
    other state. *)
Theorem reader_drained_complete p rows s :
  0 ≤ committed_groups p ≤ u64_max → rtc steps (init p rows) s →
  (pc s = Done (Ok FiniteSourceDrained) →
    last (reads s) = Some Finished ∧
    re_payload <$> sent s = deliveries (reads s) ∧
    (∀ env, env ∈ sent s → ∃ a, a ∈ acked s ∧ re_id env ≤ a) ∧
    mjoin (commits s) = omap marker_of (reads s) ∧ ledger s = []) ∧
  (finite_source_drained p = false → finite_source_drained (progress s) = drained (pc s)).
Proof.
  intros Hp Hr. destruct (rtc_Aux p rows s Hp Hr) as [(pre & tail & Hreads & Htail & HI) HA].
  split; [|intros Hf; by rewrite (aux_flag p s HA), Hf].
  intros Hpc. rewrite Hpc in Htail. cbn in Htail. subst tail. rewrite app_nil_r in Hreads.
  pose proof (inv_drained s pre HI Hpc) as Hl. pose proof (inv_flight s pre HI) as Hfl. rewrite Hpc in Hfl.
  assert (retired s = length (history s)) as Hret.
  { rewrite (inv_ledger s pre HI) in Hl. apply (f_equal length) in Hl. rewrite length_drop in Hl.
    pose proof (inv_retired s pre HI). cbn in Hl. lia. }
  split_and!; [|rewrite Hreads; by apply inv_sent| | |done].
  - apply (aux_eof p s HA). by rewrite Hpc.
  - intros env (i & Hi)%list_elem_of_lookup. apply (inv_sent_acked s pre i env HI); [|done].
    apply lookup_lt_Some in Hi. cbn in Hfl. lia.
  - rewrite (inv_commits s pre HI), Hret, firstn_all, Hreads. by apply inv_markers.
Qed.

(** A dataset announcement is a barrier: once the reader goes on after sending a
    dataset (it reads again, or has sent something later), that dataset's delivery has
    been acknowledged by the sink and retired from the ledger. *)
Theorem reader_dataset_barrier s i env :
  reachable s → sent s !! i = Some env → is_dataset (re_payload env) = true →
  (S i < length (sent s))%nat ∨ (pc s ≠ AtBarrier ∧ ∀ r, pc s ≠ Done r) →
  (i < retired s)%nat ∧ ∃ a, a ∈ acked s ∧ re_id env ≤ a.
Proof.
  intros (pre & tail & _ & _ & HI)%reachable_Inv Henv Hd Hgo.
  assert (i < retired s)%nat as Hi.
  { destruct (inv_barrier s pre HI i env Henv Hd) as [?|[Hlast Hpc]]; [done|].
    destruct Hgo as [?|[Hb Hdone]]; [lia|]. by destruct (pc s) eqn:E; try done; destruct (Hdone r). }
  split; [done|]. by apply (inv_sent_acked s pre i).
Qed.

(** The ledger's range check is exact: while fewer than [u64::MAX] deliveries
    have been numbered, an acknowledgement is accepted exactly when it names an
    outstanding delivery; an accepted one leaves exactly the outstanding deliveries
    above it; and it is refused for no other reason when the row counter is off and
    the source accepts the offsets. *)
Theorem commit_range_exact s c :
  reachable s → Z.of_nat (length (history s)) ≤ u64_max →
  (valid_range (ledger s) c = true ↔ ∃ e, e ∈ ledger s ∧ ce_id e = c) ∧
  (∀ o s', commit_through s c o = (s', Ok tt) →
    ∀ e, e ∈ ledger s' ↔ e ∈ ledger s ∧ c < ce_id e) ∧
  (row_counts s = None → valid_range (ledger s) c = true → is_ok (commit_through s c (Ok tt)).2 = true).
Proof.
  intros (pre & tail & _ & _ & HI)%reachable_Inv Hlen. pose proof (inv_numbered s pre HI Hlen) as Hn.
  split_and!.
  - by eapply numbered_range.
  - intros o s' (_ & p & rows & cs & -> & _)%commit_through_cases e. cbn. by eapply numbered_drop.
  - intros Hrows Hv. unfold commit_through. rewrite Hv, Hrows. cbn. by case_bool_decide.
Qed.

(** The reader never hangs on its own account: from every state that has not
    ended it reaches a normal end within two steps of a cancellation request, and a
    reader that waits at the end of input ends drained as soon as the sink
    acknowledges the last outstanding delivery and the source accepts its markers. *)
Theorem reader_responsive s :
  (∀ r, pc s ≠ Done r) →
  (∃ l s' r, (length l ≤ 2)%nat ∧ run_inputs s l = Some s' ∧ pc s' = Done (Ok r) ∧
     ∀ i, i ∈ l → i = ICancel ∨ i = INoEvent) ∧
  (∀ e, reachable s → Z.of_nat (length (history s)) ≤ u64_max → pc s = AtFinish → row_counts s = None →
     last (ledger s) = Some e →
     ∃ s', step s (IEvent (ce_id e) (Ok tt)) = Some s' ∧ pc s' = Done (Ok FiniteSourceDrained)).
Proof.
  intros Hrun. split.
  - destruct (waits (pc s)) eqn:Hw.
    { exists [ICancel]. eexists _, RCancelled. cbn [run_inputs]. rewrite (step_cancel s Hw).
      split_and!; [cbn; lia|done..|]. intros i ->%list_elem_of_singleton. by left. }
    destruct (pc s) as [|b| |p|e f| | |r] eqn:Hpc; try done; [|by destruct (Hrun r)].
    assert (step s INoEvent = Some (after_read s b)) as Hs by by cbn; rewrite Hpc.
    destruct (after_read_pc s b) as [Hw'|Hd].
    + exists [INoEvent; ICancel]. eexists _, RCancelled. cbn [run_inputs]. rewrite Hs. cbn [mbind option_bind].
      rewrite step_cancel by done. split_and!; [cbn; lia|done..|].
      intros i [->| ->%list_elem_of_singleton]%elem_of_cons; auto.
    + exists [INoEvent]. eexists _, FiniteSourceDrained. cbn [run_inputs]. rewrite Hs.
      split_and!; [cbn; lia|done|done|]. intros i ->%list_elem_of_singleton. by right.
  - intros e (pre & tail & _ & _ & HI)%reachable_Inv Hlen. by eapply finish_step, inv_numbered.
Qed.

(** The progress shared across retries counts source commits: after any run
    [committed_groups] has grown, modulo 2{^64}, by the number of successful
    [commit_offsets] calls, so [advanced_since] with the checkpoint taken at the start
    answers exactly whether the run committed anything, as long as the counter has
    room; and the empty-poll backoff stays between its two constants. *)
Theorem progress_counts_commits p rows s :
  0 ≤ committed_groups p ≤ u64_max → rtc steps (init p rows) s →
  committed_groups (progress s) = wrapping_add u64_max (committed_groups p) (Z.of_nat (length (commits s))) ∧
  (committed_groups p + Z.of_nat (length (commits s)) ≤ u64_max →
    PipelineProgress.advanced_since (progress s) (PipelineProgress.checkpoint p) = true ↔ commits s ≠ []) ∧
  INITIAL_BACKOFF_MS ≤ backoff_ms s ≤ MAX_BACKOFF_MS.
Proof.
  intros Hp Hr. destruct (rtc_Aux p rows s Hp Hr) as [(pre & tail & _ & _ & HI) HA].
  split_and!; [apply (aux_groups p s HA)| |apply (inv_backoff s pre HI)|apply (inv_backoff s pre HI)].
  intros Hroom. unfold PipelineProgress.advanced_since, PipelineProgress.checkpoint.
  rewrite (aux_groups p s HA), Z.mod_small by lia. rewrite bool_decide_eq_true.
  destruct (commits s); cbn [length]; split; try done; lia.
Qed.
End reader.

(** ** A run *)
Section example.
#[local] Existing Instance example_arrow.
#[local] Existing Instance example_values.

Definition example_start : PipelineProgress := PipelineProgress.new.

(** A dataset, a message, an empty poll, and the end of the input. *)
Definition example_inputs : list (@Input _ _ nat) :=
  [ IRead (Ok (Dataset example_dataset 7%nat [])); INoEvent; IPermit true; IEvent 1 (Ok tt);
    IRead (Ok (Raw [Message_new [104; 105]] (Some 8%nat) [])); INoEvent; IReserved 5; IPermit true;
    IRead (Ok (Raw [] None [])); INoEvent; ISleep;
    IRead (Ok Finished); INoEvent; IEvent 2 (Ok tt) ].

Definition example_state (n : nat) : @State _ _ nat :=
  default (init example_start None) (run_inputs (λ _, 0) (init example_start None) (firstn n example_inputs)).

(** Equality by evaluation, without reading the value back. *)
Ltac by_evaluation := match goal with |- ?a = ?b => vm_cast_no_check (eq_refl b) end.

Lemma run_inputs_rtc {Marker} size (s s' : @State _ _ Marker) l :
  run_inputs size s l = Some s' → rtc (steps size) s s'.
Proof.
  revert s. induction l as [|i l IH]; intros s Hr; [by injection Hr as ->|]. cbn in Hr.
  destruct (step size s i) as [s1|] eqn:E; [|done]. eapply rtc_l; [by exists i|by apply IH].
Qed.

Lemma example_state_rtc n :
  is_none (run_inputs (λ _, 0) (init example_start None) (firstn n example_inputs)) = false →
  rtc (steps (λ _, 0)) (init example_start None) (example_state n).
Proof.
  intros Hs. apply (run_inputs_rtc _ _ _ (firstn n example_inputs)). unfold example_state.
  by destruct (run_inputs _ _ _).
Qed.

Lemma reader_commits_exact_witness :
  let s := example_state 14 in
  commits s = [[7%nat]; [8%nat]] ∧ mjoin (commits s) `prefix_of` omap (marker_of (λ _, 0)) (reads s).
Proof.
  split; [by_evaluation|].
  refine (proj1 (reader_commits_exact (λ _, 0) example_start None (example_state 14) _ _)).
  - vm_compute. split; discriminate.
  - apply example_state_rtc. by_evaluation.
Defined.

Lemma reader_drained_complete_witness :
  let s := example_state 14 in
  pc s = Done (Ok FiniteSourceDrained) ∧ mjoin (commits s) = omap (marker_of (λ _, 0)) (reads s) ∧
  length (sent s) = 2%nat.
Proof.
  assert (pc (example_state 14) = Done (Ok FiniteSourceDrained)) as Hd by by_evaluation.
  split; [done|]. split; [|by_evaluation].
  refine (proj1 (proj2 (proj2 (proj2 (proj1 (reader_drained_complete (λ _, 0) example_start None
    (example_state 14) _ _) Hd))))).
  - vm_compute. split; discriminate.
  - apply example_state_rtc. by_evaluation.
Defined.

Lemma reader_dataset_barrier_witness :
  ∃ env, sent (example_state 4) !! 0%nat = Some env ∧ pc (example_state 4) = AtRead ∧
    ∃ a, a ∈ acked (example_state 4) ∧ re_id env ≤ a.
Proof.
  assert (is_dataset ∘ re_payload <$> sent (example_state 4) = [true]) as Hds by by_evaluation.
  destruct (sent (example_state 4) !! 0%nat) as [env|] eqn:Henv;
    [|by apply lookup_ge_None in Henv; apply (f_equal length) in Hds; rewrite length_fmap in Hds; cbn in *; lia].
  assert (pc (example_state 4) = AtRead) as Hpc by by_evaluation.
  exists env. split; [done|]. split; [done|].
  refine (proj2 (reader_dataset_barrier (λ _, 0) (example_state 4) 0 env _ Henv _ _)).
  - exists example_start, None. apply example_state_rtc. by_evaluation.
  - apply (f_equal (lookup 0%nat)) in Hds. rewrite list_lookup_fmap, Henv in Hds. by injection Hds.
  - right. rewrite Hpc. done.
Defined.

Lemma commit_range_exact_witness :
  length (ledger (example_state 8)) = 1%nat ∧
  valid_range (ledger (example_state 8)) 2 = true ∧
  is_ok (commit_through (example_state 8) 2 (Ok tt)).2 = true.
Proof.
  assert (valid_range (ledger (example_state 8)) 2 = true) as Hv by by_evaluation.
  split; [by_evaluation|]. split; [done|].
  refine (proj2 (proj2 (commit_range_exact (λ _, 0) (example_state 8) 2 _ _)) _ Hv).
  - exists example_start, None. apply example_state_rtc. by_evaluation.
  - vm_compute. discriminate.
  - by_evaluation.
Defined.

Lemma reader_responsive_witness :
  ∃ e s', last (ledger (example_state 13)) = Some e ∧
    step (λ _, 0) (example_state 13) (IEvent (ce_id e) (Ok tt)) = Some s' ∧
    pc s' = Done (Ok FiniteSourceDrained).
Proof.
  assert (is_none (last (ledger (example_state 13))) = false) as Hl by by_evaluation.
  destruct (last (ledger (example_state 13))) as [e|] eqn:He; [|done].
  assert (pc (example_state 13) = AtFinish) as Hpc by by_evaluation.
  destruct (proj2 (reader_responsive (λ _, 0) (example_state 13) ltac:(rewrite Hpc; done)) e) as (s' & Hs & Hd).
  - exists example_start, None. apply example_state_rtc. by_evaluation.
  - vm_compute. discriminate.
  - done.
  - by_evaluation.
  - done.
  - exact (ex_intro _ e (ex_intro _ s' (conj eq_refl (conj Hs Hd)))).
Defined.

Lemma progress_counts_commits_witness :
  committed_groups (progress (example_state 14)) = 2 ∧
  PipelineProgress.advanced_since (progress (example_state 14)) (PipelineProgress.checkpoint example_start) = true.
Proof.
  split; [by_evaluation|].
  refine (proj2 (proj1 (proj2 (progress_counts_commits (λ _, 0) example_start None (example_state 14) _ _)) _) _).
  - vm_compute. split; discriminate.
  - apply example_state_rtc. by_evaluation.
  - vm_compute. discriminate.
  - vm_compute. discriminate.
Defined.
End example.
