(* ===== verification/Admission.v ===== *)
(** * Dataset admission

    [transferia-pipeline/src/admission.rs]: the task between the parser and a sink whose
    destination schema evolves.  It forwards deliveries to a sink session; a dataset that
    is new, announced by the source or found in a delivery, ends the session, is prepared
    and installed while no session runs, and a new session goes on.

    [run] is a state machine: [Pc] has one constructor per await point, an [Input] is what
    the awaited future yielded together with the answers of the calls made before the next
    await, and [step] runs the code in between.  The sink, the coordinator and the two
    channels are the environment.  [log] records the effects in order; [received] records
    what came out of the input channel.  They and [interrupted] influence no step. *)

From stdpp Require Import base tactics numbers option strings gmap relations list.
From S2P Require Import Prelude DeliveryId Schema Arrow Delivery Failure Reader.
Local Open Scope Z_scope.

Inductive DatasetStage := SourceStage | SinkStage.
#[export] Instance DatasetStage_eq_dec : EqDecision DatasetStage.
Proof. solve_decision. Defined.

Section admission.
Context `{ArrowTypes, ArrowValues}.

(** [Delivery] *)
Record Delivery := { del_id : DeliveryId; del_outputs : list SinkBatch; del_meta : DeliveryMeta }.

Inductive SinkInput :=
| Data (d : Delivery)
| DatasetInput (id : DeliveryId) (ds : DiscoveredDataset).

Inductive Barrier :=
| Rejected (f : DataPlaneFailure)
| SourceBarrier (id : DeliveryId) (ds : DiscoveredDataset)
| DataBarrier (d : Delivery) (datasets : list DiscoveredDataset).

(** [DeliveryOutput]: what [send] and [admit] put on the channel. *)
Inductive DeliveryOutput := Fixed | Evolving.
Definition output_send (o : DeliveryOutput) (d : Delivery) : Delivery + SinkInput :=
  match o with Fixed => inl d | Evolving => inr (Data d) end.
Definition output_admit (o : DeliveryOutput) (id : DeliveryId) (ds : DiscoveredDataset)
    : result AnyhowError SinkInput :=
  match o with
  | Fixed => Err (OtherError 5)
  | Evolving => Ok (DatasetInput id ds)
  end.

Inductive Action :=
| StartSession
| Forward (d : Delivery)
| EndSession
| Prepared (ds : DiscoveredDataset) (stage : DatasetStage) (d : DeliveryDiscovery)
| Installed (d : DeliveryDiscovery)
| Acknowledge (id : DeliveryId).

Inductive Pc :=
| AtFirstSend (d : Delivery)                                   (* [sender.send(pending)] *)
| AtInput                                                      (* the outer [select!] *)
| AtForward (d : Delivery)                                     (* the inner [select!] *)
| AtDrain (b : option Barrier)                                 (* [session.await?] *)
| AtPrepareSource (id : DeliveryId) (ds : DiscoveredDataset)
| AtAck (id : DeliveryId)                                      (* [events.send] *)
| AtPrepareData (d : Delivery) (ds : DiscoveredDataset) (rest : list DiscoveredDataset)
| Done (r : Outcome).

(** What came out of the input channel, with the coordinator's answer for a delivery. *)
Inductive Received :=
| GotData (d : Delivery) (pending : result DataPlaneFailure (list DiscoveredDataset))
| GotDataset (id : DeliveryId) (ds : DiscoveredDataset).

(** [interrupted]: cancellation was observed, or the session closed its input. *)
Record State := { pc : Pc; log : list Action; received : list Received; interrupted : bool }.

Inductive Input :=
| ICancel                                                      (* [cancelled()] is ready *)
| ISession (r : Outcome) (cancelled : bool)                    (* and [is_cancelled()] after it *)
| IRecv (m : option SinkInput) (pending : result DataPlaneFailure (list DiscoveredDataset))
| ISend (ok : bool)
| IPrepare (r : result DataPlaneFailure DeliveryDiscovery) (update : Outcome) (cancelled : bool).

Definition E_SESSION_INPUT : nat := 11.
Definition E_SINK_STOPPED : nat := 12.
Definition E_SOURCE_CLOSED : nat := 13.

Definition goto (s : State) (c : Pc) (acts : list Action) : State :=
  {| pc := c; log := log s ++ acts; received := received s; interrupted := interrupted s |}.
Definition note (s : State) (r : Received) : State :=
  {| pc := pc s; log := log s; received := received s ++ [r]; interrupted := interrupted s |}.
Definition interrupt (s : State) : State :=
  {| pc := pc s; log := log s; received := received s; interrupted := true |}.

(** [result.and_then(|()| Err(..))]: a session that ends while its input is open has failed. *)
Definition stopped_early (r : Outcome) : Outcome :=
  match r with Ok _ => Err (Failure.retryable E_SINK_STOPPED) | Err f => Err f end.

(** The head of [loop]: open a channel, start the session, send what waits for it. *)
Definition new_session (s : State) (acts : list Action) (pending : option Delivery) : State :=
  match pending with
  | Some d => goto s (AtFirstSend d) (acts ++ [StartSession])
  | None => goto s AtInput (acts ++ [StartSession])
  end.

Definition init : State := new_session {| pc := AtInput; log := []; received := []; interrupted := false |} [] None.

(** [match next] *)
Definition on_input (s : State) (m : option SinkInput)
    (pending : result DataPlaneFailure (list DiscoveredDataset)) : State :=
  match m with
  | Some (Data d) =>
      let s := note s (GotData d pending) in
      match pending with
      | Err f => goto s (AtDrain (Some (Rejected f))) []
      | Ok [] => goto s (AtForward d) []
      | Ok ds => goto s (AtDrain (Some (DataBarrier d ds))) []
      end
  | Some (DatasetInput id ds) =>
      goto (note s (GotDataset id ds)) (AtDrain (Some (SourceBarrier id ds))) []
  | None => goto s (AtDrain None) []
  end.

(** [match barrier], after [session.await?] *)
Definition on_barrier (s : State) (b : option Barrier) : State :=
  match b with
  | None => goto s (Done (Ok tt)) []
  | Some (Rejected f) => goto s (Done (Err f)) []
  | Some (SourceBarrier id ds) => goto s (AtPrepareSource id ds) []
  | Some (DataBarrier d []) => new_session s [] (Some d)
  | Some (DataBarrier d (ds :: rest)) => goto s (AtPrepareData d ds rest) []
  end.

Definition prepared_source (s : State) (id : DeliveryId) (ds : DiscoveredDataset)
    (r : result DataPlaneFailure DeliveryDiscovery) (update : Outcome) (cancelled : bool) : State :=
  match r with
  | Err f => goto s (Done (Err f)) []
  | Ok d =>
      match update with
      | Err f => goto s (Done (Err f)) [Prepared ds SourceStage d]
      | Ok _ =>
          let acts := [Prepared ds SourceStage d; Installed d] in
          if cancelled then goto (interrupt s) (Done (Ok tt)) acts else goto s (AtAck id) acts
      end
  end.

Definition prepared_data (s : State) (del : Delivery) (ds : DiscoveredDataset) (rest : list DiscoveredDataset)
    (r : result DataPlaneFailure DeliveryDiscovery) (update : Outcome) (cancelled : bool) : State :=
  match r with
  | Err f => goto s (Done (Err f)) []
  | Ok d =>
      if cancelled then goto (interrupt s) (Done (Ok tt)) [Prepared ds SinkStage d] else
      match update with
      | Err f => goto s (Done (Err f)) [Prepared ds SinkStage d]
      | Ok _ =>
          let acts := [Prepared ds SinkStage d; Installed d] in
          match rest with
          | [] => new_session s acts (Some del)
          | ds' :: rest => goto s (AtPrepareData del ds' rest) acts
          end
      end
  end.

Definition step (s : State) (i : Input) : option State :=
  match pc s, i with
  | AtFirstSend d, ISend true => Some (goto s AtInput [Forward d])
  | AtFirstSend d, ISend false => Some (goto s (Done (Err (Failure.retryable E_SESSION_INPUT))) [])
  | AtInput, ICancel => Some (goto (interrupt s) (AtDrain None) [])
  | AtInput, ISession r _ => Some (goto s (Done (stopped_early r)) [EndSession])
  | AtInput, IRecv m pending => Some (on_input s m pending)
  | AtForward d, ICancel => Some (goto (interrupt s) (AtDrain None) [])
  | AtForward d, ISession r _ => Some (goto s (Done (stopped_early r)) [EndSession])
  | AtForward d, ISend true => Some (goto s AtInput [Forward d])
  | AtForward d, ISend false => Some (goto (interrupt s) (AtDrain None) [])
  | AtDrain b, ISession (Err f) _ => Some (goto s (Done (Err f)) [EndSession])
  | AtDrain b, ISession (Ok _) cancelled =>
      let s := goto s (AtDrain b) [EndSession] in
      Some (if cancelled then goto (interrupt s) (Done (Ok tt)) [] else on_barrier s b)
  | AtPrepareSource id ds, IPrepare r update cancelled => Some (prepared_source s id ds r update cancelled)
  | AtAck id, ISend true => Some (new_session s [Acknowledge id] None)
  | AtAck id, ISend false => Some (goto s (Done (Err (Failure.retryable E_SOURCE_CLOSED))) [])
  | AtPrepareData d ds rest, IPrepare r update cancelled => Some (prepared_data s d ds rest r update cancelled)
  | _, _ => None
  end.

Definition steps (s s' : State) : Prop := ∃ i, step s i = Some s'.

Fixpoint run (s : State) (l : list Input) : option State :=
  match l with [] => Some s | i :: l => s' ← step s i; run s' l end.

(** ** What the effects should be

    The contract, as a function of what was received: a known delivery is forwarded; a
    new dataset ends the session, is prepared and installed, and starts a new one; a
    source's dataset is acknowledged after that, a delivery's is followed by the
    delivery. *)
Inductive Effect :=
| EStart | EForward (d : Delivery) | EEnd
| EPrepare (ds : DiscoveredDataset) (stage : DatasetStage) | EInstall
| EAck (id : DeliveryId).

Definition effect (a : Action) : Effect :=
  match a with
  | StartSession => EStart | Forward d => EForward d | EndSession => EEnd
  | Prepared ds stage _ => EPrepare ds stage | Installed _ => EInstall | Acknowledge id => EAck id
  end.

Definition prepares (stage : DatasetStage) (l : list DiscoveredDataset) : list Effect :=
  l ≫= λ ds, [EPrepare ds stage; EInstall].

Definition expected_one (r : Received) : list Effect :=
  match r with
  | GotData d (Ok []) => [EForward d]
  | GotData d (Ok l) => EEnd :: prepares SinkStage l ++ [EStart; EForward d]
  | GotData d (Err _) => [EEnd]
  | GotDataset id ds => EEnd :: prepares SourceStage [ds] ++ [EAck id; EStart]
  end.
Definition expected (l : list Received) : list Effect := EStart :: (l ≫= expected_one).

Definition effects (s : State) : list Effect := effect <$> log s.
Definition accepted (r : Received) : bool :=
  match r with GotData _ (Err _) => false | _ => true end.

(** ** Invariant *)
Definition at_pc (s : State) (r : list Received) : Prop :=
  match pc s with
  | AtInput => received s = r ∧ effects s = expected r
  | AtForward d => received s = r ++ [GotData d (Ok [])] ∧ effects s = expected r
  | AtFirstSend d => ∃ l, received s = r ++ [GotData d (Ok l)] ∧ l ≠ [] ∧
      effects s = expected r ++ EEnd :: prepares SinkStage l ++ [EStart]
  | AtDrain None => effects s = expected r ∧
      (received s = r ∨ (interrupted s = true ∧ ∃ d, received s = r ++ [GotData d (Ok [])]))
  | AtDrain (Some (Rejected f)) => effects s = expected r ∧ ∃ d, received s = r ++ [GotData d (Err f)]
  | AtDrain (Some (SourceBarrier id ds)) => effects s = expected r ∧ received s = r ++ [GotDataset id ds]
  | AtDrain (Some (DataBarrier d l)) =>
      effects s = expected r ∧ l ≠ [] ∧ received s = r ++ [GotData d (Ok l)]
  | AtPrepareSource id ds => effects s = expected r ++ [EEnd] ∧ received s = r ++ [GotDataset id ds]
  | AtAck id => ∃ ds, effects s = expected r ++ EEnd :: prepares SourceStage [ds] ∧
      received s = r ++ [GotDataset id ds]
  | AtPrepareData d ds rest => ∃ l, effects s = expected r ++ EEnd :: prepares SinkStage l ∧
      received s = r ++ [GotData d (Ok (l ++ ds :: rest))]
  | Done o =>
      (∃ t, effects s = expected r ++ t ∧
        ((received s = r ∧ t `prefix_of` [EEnd]) ∨
         ∃ x, received s = r ++ [x] ∧ (t `prefix_of` expected_one x ∨ t = [EEnd]))) ∧
      (o = Ok tt → interrupted s = false → received s = r ∧ effects s = expected r ++ [EEnd])
  end.

Definition installs_prepared (l : list Action) : Prop :=
  ∀ i d, l !! i = Some (Installed d) → ∃ j ds st, i = S j ∧ l !! j = Some (Prepared ds st d).

Definition Inv (s : State) : Prop :=
  installs_prepared (log s) ∧ ∃ r, Forall (λ x, accepted x = true) r ∧ at_pc s r.

Lemma installs_app l acts :
  installs_prepared l → installs_prepared acts → installs_prepared (l ++ acts).
Proof.
  intros Hl Ha i d [Hi|[Hlen Hi]]%lookup_app_Some.
  - destruct (Hl i d Hi) as (j & ds & st & -> & Hj). exists j, ds, st. split; [done|].
    by apply lookup_app_l_Some.
  - destruct (Ha _ d Hi) as (j & ds & st & Hij & Hj). exists (length l + j)%nat, ds, st. split; [lia|].
    rewrite lookup_app_r by lia. by replace (length l + j - length l)%nat with j by lia.
Qed.

(** The lists a step appends. *)
Lemma installs_short acts :
  (∀ d, Installed d ∉ acts) ∨ (∃ ds st d tail, acts = [Prepared ds st d; Installed d] ++ tail ∧ ∀ d, Installed d ∉ tail) →
  installs_prepared acts.
Proof.
  intros [Hn|(ds & st & d & tail & -> & Hn)] i d' Hi.
  - destruct (Hn d'). by eapply list_elem_of_lookup_2.
  - destruct i as [|[|i]]; [done| |].
    + injection Hi as <-. by exists 0%nat, ds, st.
    + destruct (Hn d'). cbn in Hi. by eapply list_elem_of_lookup_2.
Qed.

Lemma expected_snoc r x : expected (r ++ [x]) = expected r ++ expected_one x.
Proof. unfold expected. rewrite bind_app. cbn. by rewrite app_nil_r. Qed.

Lemma effects_goto s c acts : effects (goto s c acts) = effects s ++ (effect <$> acts).
Proof. unfold effects. cbn. by rewrite fmap_app. Qed.

Lemma admission_init : Inv init.
Proof. split; [|by exists []]. apply installs_short. left. intros d. cbn. set_solver. Qed.

Ltac installs := apply installs_short;
  first [ by left; intros ?; set_solver
        | by right; eexists _, _, _, _; split; [reflexivity|intros ?; set_solver] ].

Lemma step_log s i s' : step s i = Some s' → ∃ acts, log s' = log s ++ acts ∧ installs_prepared acts.
Proof.
  intros Hs. unfold step, on_input, on_barrier, prepared_source, prepared_data, new_session in Hs.
  repeat case_match; simplify_eq; cbn; rewrite <-?app_assoc;
    (eexists; split; [reflexivity|installs]).
Qed.

(** From a point where [r] is done and [t] of the next element. *)
Lemma done_at s r o t :
  pc s = Done o → effects s = expected r ++ t →
  (received s = r ∧ t `prefix_of` [EEnd]) ∨
    (∃ x, received s = r ++ [x] ∧ (t `prefix_of` expected_one x ∨ t = [EEnd])) →
  (o = Ok tt → interrupted s = false → received s = r ∧ effects s = expected r ++ [EEnd]) →
  at_pc s r.
Proof. intros Hpc He Hr Ho. unfold at_pc. rewrite Hpc. split; [by exists t|done]. Qed.

Lemma prepares_snoc st l ds : prepares st (l ++ [ds]) = prepares st l ++ [EPrepare ds st; EInstall].
Proof. unfold prepares. by rewrite bind_app. Qed.

Lemma expected_data d l :
  l ≠ [] → expected_one (GotData d (Ok l)) = EEnd :: prepares SinkStage l ++ [EStart; EForward d].
Proof. by destruct l. Qed.

Lemma effects_interrupt s : effects (interrupt s) = effects s.
Proof. done. Qed.
Lemma effects_note s x : effects (note s x) = effects s.
Proof. done. Qed.

(** Show the fields of the new state, its effects in terms of the old ones. *)
Ltac show := unfold at_pc; cbn [goto note interrupt new_session pc received interrupted];
  rewrite ?effects_goto, ?effects_interrupt, ?effects_note, ?effects_goto; cbn [effect fmap list_fmap];
  rewrite ?app_nil_r.

Lemma at_pc_first_send s r d ok s' :
  pc s = AtFirstSend d → step s (ISend ok) = Some s' → Forall (λ x, accepted x = true) r → at_pc s r →
  ∃ r', Forall (λ x, accepted x = true) r' ∧ at_pc s' r'.
Proof.
  intros Hpc Hs Hacc Hat. unfold step in Hs. unfold at_pc in Hat. rewrite Hpc in Hs, Hat.
  destruct Hat as (l & Hr & Hl & He). destruct ok; simplify_eq.
  - exists (r ++ [GotData d (Ok l)]). split; [by apply Forall_app_2; [|constructor]|]. show.
    split; [done|]. rewrite He, expected_snoc, expected_data by done. cbn. rewrite <-!app_assoc. cbn. by rewrite <-?app_assoc.
  - exists r. split; [done|]. eapply (done_at _ _ _ (EEnd :: prepares SinkStage l ++ [EStart])); [done|show; exact He| |done].
    right. eexists. split; [done|left]. rewrite expected_data by done.
    exists [EForward d]. cbn. by rewrite <-app_assoc.
Qed.

Lemma at_pc_input s r i s' :
  pc s = AtInput → step s i = Some s' → at_pc s r → at_pc s' r.
Proof.
  intros Hpc Hs Hat. unfold step in Hs. unfold at_pc in Hat. rewrite Hpc in Hs, Hat. destruct Hat as [Hr He].
  destruct i as [|res c|m pend|ok|pr upd c]; simplify_eq.
  - show. auto.
  - eapply (done_at _ _ _ [EEnd]); [done|show; by rewrite He|by left|]. intros _ _. show. by rewrite He.
  - unfold on_input. destruct m as [[d|id ds]|].
    + destruct pend as [[|ds l]|f]; show; eauto.
    + show. done.
    + show. auto.
Qed.

Lemma at_pc_forward s r d i s' :
  pc s = AtForward d → step s i = Some s' → Forall (λ x, accepted x = true) r → at_pc s r →
  ∃ r', Forall (λ x, accepted x = true) r' ∧ at_pc s' r'.
Proof.
  intros Hpc Hs Hacc Hat. unfold step in Hs. unfold at_pc in Hat. rewrite Hpc in Hs, Hat. destruct Hat as [Hr He].
  destruct i as [|res c|m pend|[]|pr upd c]; simplify_eq.
  - exists r. split; [done|]. show. split; [done|]. right. eauto.
  - exists r. split; [done|]. eapply (done_at _ _ _ [EEnd]); [done|show; by rewrite He| |by destruct res].
    right. eexists. split; [done|by right].
  - exists (r ++ [GotData d (Ok [])]). split; [by apply Forall_app_2; [|constructor]|]. show.
    by rewrite He, expected_snoc.
  - exists r. split; [done|]. show. split; [done|]. right. eauto.
Qed.

Lemma at_pc_drain s r b i s' :
  pc s = AtDrain b → step s i = Some s' → at_pc s r → at_pc s' r.
Proof.
  intros Hpc Hs Hat. unfold step in Hs. unfold at_pc in Hat. rewrite Hpc in Hs, Hat.
  destruct i as [|[[]|f] c|m pend|ok|pr upd c]; simplify_eq.
  - assert ((received s = r ∧ b = None) ∨ ∃ x, received s = r ++ [x]) as Hx.
    { destruct b as [[f|id ds|d l]|]; naive_solver. }
    assert (effects s = expected r) as He by (destruct b as [[f|id ds|d l]|]; naive_solver).
    destruct c.
    { eapply (done_at _ _ _ [EEnd]); [done|show; by rewrite He| |done].
      destruct Hx as [[Hx _]|(x & Hx)]; [by left|]. right. exists x. split; [done|by right]. }
    destruct b as [[f|id ds|d l]|]; cbn [on_barrier].
    + destruct Hat as (_ & d & Hr). eapply (done_at _ _ _ [EEnd]); [done|show; by rewrite He| |done].
      right. eexists. split; [done|by left].
    + destruct Hat as (_ & Hr). show. by rewrite He.
    + destruct Hat as (_ & Hl & Hr). destruct l as [|ds l]; [done|]. show. exists []. by rewrite He.
    + eapply (done_at _ _ _ [EEnd]); [done|show; by rewrite He| |].
      * destruct Hx as [[Hx _]|(x & Hx)]; [by left|]. right. exists x. split; [done|by right].
      * intros _ Hi. cbn in Hi. show. rewrite He. destruct Hat as [_ [?|[? _]]]; [done|congruence].
  - assert (effects s = expected r) as He by (destruct b as [[?|id ds|d l]|]; naive_solver).
    eapply (done_at _ _ _ [EEnd]); [done|show; by rewrite He| |done].
    assert (received s = r ∨ ∃ x, received s = r ++ [x]) as [Hx|(x & Hx)]
      by (destruct b as [[?|id ds|d l]|]; naive_solver); [by left|].
    right. exists x. split; [done|by right].
Qed.

Lemma at_pc_prepare_source s r id ds i s' :
  pc s = AtPrepareSource id ds → step s i = Some s' → at_pc s r → at_pc s' r.
Proof.
  intros Hpc Hs Hat. unfold step in Hs. unfold at_pc in Hat. rewrite Hpc in Hs, Hat. destruct Hat as [He Hr].
  destruct i as [|res c|m pend|ok|pr upd c]; simplify_eq. unfold prepared_source.
  assert (∀ t, t `prefix_of` expected_one (GotDataset id ds) →
    ∃ x, received s = r ++ [x] ∧ (t `prefix_of` expected_one x ∨ t = [EEnd])) as Hx by eauto.
  destruct pr as [d|f]; [destruct upd as [[]|f]; [destruct c|]|].
  - eapply (done_at _ _ _ [EEnd; EPrepare ds SourceStage; EInstall]); [done|show; by rewrite He, <-app_assoc| |done]. right. apply Hx. by exists [EAck id; EStart].
  - show. exists ds. rewrite He, <-app_assoc. done.
  - eapply (done_at _ _ _ [EEnd; EPrepare ds SourceStage]); [done|show; by rewrite He, <-app_assoc| |done]. right. apply Hx.
    by exists [EInstall; EAck id; EStart].
  - eapply (done_at _ _ _ [EEnd]); [done|show; by rewrite He| |done]. right. apply Hx.
    by exists [EPrepare ds SourceStage; EInstall; EAck id; EStart].
Qed.

Lemma at_pc_ack s r id ok s' :
  pc s = AtAck id → step s (ISend ok) = Some s' → Forall (λ x, accepted x = true) r → at_pc s r →
  ∃ r', Forall (λ x, accepted x = true) r' ∧ at_pc s' r'.
Proof.
  intros Hpc Hs Hacc Hat. unfold step in Hs. unfold at_pc in Hat. rewrite Hpc in Hs, Hat.
  destruct Hat as (ds & He & Hr). destruct ok; simplify_eq.
  - exists (r ++ [GotDataset id ds]). split; [by apply Forall_app_2; [|constructor]|]. show.
    split; [done|]. rewrite He, expected_snoc, <-app_assoc. done.
  - exists r. split; [done|]. eapply (done_at _ _ _ (EEnd :: prepares SourceStage [ds]));
      [done|show; exact He| |done].
    right. exists (GotDataset id ds). split; [done|left]. by exists [EAck id; EStart].
Qed.

Lemma at_pc_prepare_data s r d ds rest i s' :
  pc s = AtPrepareData d ds rest → step s i = Some s' → at_pc s r → at_pc s' r.
Proof.
  intros Hpc Hs Hat. unfold step in Hs. unfold at_pc in Hat. rewrite Hpc in Hs, Hat.
  destruct Hat as (l & He & Hr). destruct i as [|res c|m pend|ok|pr upd c]; simplify_eq.
  assert (∀ o acts k s', s' = goto s (Done o) acts ∨ s' = goto (interrupt s) (Done o) acts →
    (o = Ok tt → s' = goto (interrupt s) (Done o) acts) →
    effect <$> acts = firstn k [EPrepare ds SinkStage; EInstall] → at_pc s' r) as Hdone.
  { intros o acts k s' Hs' Ho Hacts.
    assert (pc s' = Done o ∧ received s' = received s ∧
      effects s' = effects s ++ firstn k [EPrepare ds SinkStage; EInstall]) as (Hp & Hrec & Heff).
    { destruct Hs' as [-> | ->]; rewrite <-Hacts; by show. }
    eapply (done_at _ _ _ (EEnd :: prepares SinkStage l ++ firstn k _)); [done|rewrite Heff, He; by rewrite <-app_assoc| |].
    - right. exists (GotData d (Ok (l ++ ds :: rest))). split; [congruence|left].
      rewrite expected_data by by destruct l.
      replace (l ++ ds :: rest) with ((l ++ [ds]) ++ rest) by by rewrite <-app_assoc.
      unfold prepares. rewrite !bind_app. cbn [app mbind list_bind].
      apply prefix_cons. rewrite <-!app_assoc. apply prefix_app, prefix_app_r.
      destruct k as [|[|[|k]]]; by eexists.
    - intros -> Hi. rewrite Ho in Hi by done. done. }
  unfold prepared_data. destruct pr as [disc|f]; [|apply (Hdone (Err f) [] 0%nat); [auto|done|done]].
  destruct c; [apply (Hdone (Ok tt) [Prepared ds SinkStage disc] 1%nat); [auto|done|done]|].
  destruct upd as [[]|f]; [|apply (Hdone (Err f) [Prepared ds SinkStage disc] 1%nat); [auto|done|done]].
  destruct rest as [|ds' rest]; show.
  - exists (l ++ [ds]). split_and!; [done|by destruct l|]. rewrite He, prepares_snoc. cbn. by rewrite <-!app_assoc.
  - exists (l ++ [ds]). rewrite He, prepares_snoc, <-!app_assoc. done.
Qed.

Lemma admission_step s i s' : step s i = Some s' → Inv s → Inv s'.
Proof.
  intros Hs [Hlog (r & Hacc & Hat)]. destruct (step_log s i s' Hs) as (acts & Hl & Ha).
  split; [rewrite Hl; by apply installs_app|].
  destruct (pc s) eqn:Hpc.
  - destruct i; unfold step in Hs; rewrite Hpc in Hs; try done. eapply at_pc_first_send; eauto.
    unfold step. by rewrite Hpc.
  - exists r. split; [done|]. by eapply at_pc_input.
  - by eapply at_pc_forward.
  - exists r. split; [done|]. by eapply at_pc_drain.
  - exists r. split; [done|]. by eapply at_pc_prepare_source.
  - destruct i; unfold step in Hs; rewrite Hpc in Hs; try done. eapply at_pc_ack; eauto.
    unfold step. by rewrite Hpc.
  - exists r. split; [done|]. by eapply at_pc_prepare_data.
  - unfold step in Hs. rewrite Hpc in Hs. done.
Qed.

Lemma steps_Inv s : rtc steps init s → Inv s.
Proof. apply rtc_invariant; [apply admission_init|]. intros a b Ha [i Hi]. by eapply admission_step. Qed.

(** ** Reading the effects *)

(** Where a run stands: [r] is fully processed, [t] of the next element is done. *)
Definition stands (s : State) (r : list Received) (t : list Effect) : Prop :=
  effects s = expected r ++ t ∧
  ((received s = r ∧ t `prefix_of` [EEnd]) ∨
   ∃ x, received s = r ++ [x] ∧ (t `prefix_of` expected_one x ∨ t = [EEnd])).

Lemma at_pc_stands s r : at_pc s r → ∃ t, stands s r t.
Proof.
  unfold at_pc, stands. destruct (pc s) as [d| |d|[[f|id ds|d l]|]|id ds|id|d ds rest|o].
  - intros (l & Hr & Hl & He). eexists. split; [exact He|]. right. eexists. split; [exact Hr|left].
    rewrite expected_data by done. exists [EForward d]. cbn. by rewrite <-app_assoc.
  - intros [Hr He]. exists []. rewrite app_nil_r. split; [done|left]. split; [done|apply prefix_nil].
  - intros [Hr He]. exists []. rewrite app_nil_r. split; [done|right]. eexists. split; [done|left; apply prefix_nil].
  - intros (He & d & Hr). exists []. rewrite app_nil_r. split; [done|right]. eexists. split; [done|left; apply prefix_nil].
  - intros (He & Hr). exists []. rewrite app_nil_r. split; [done|right]. eexists. split; [done|left; apply prefix_nil].
  - intros (He & _ & Hr). exists []. rewrite app_nil_r. split; [done|right]. eexists. split; [done|left; apply prefix_nil].
  - intros (He & Hr). exists []. rewrite app_nil_r. split; [done|]. destruct Hr as [Hr|(_ & d & Hr)].
    + left. split; [done|apply prefix_nil].
    + right. eexists. split; [done|left; apply prefix_nil].
  - intros (He & Hr). eexists. split; [exact He|]. right. eexists. split; [done|by right].
  - intros (ds & He & Hr). eexists. split; [exact He|]. right. eexists. split; [done|left]. by exists [EAck id; EStart].
  - intros (l & He & Hr). eexists. split; [exact He|]. right. eexists. split; [done|left].
    rewrite expected_data by by destruct l. unfold prepares. rewrite bind_app.
    apply prefix_cons. rewrite <-app_assoc. by apply prefix_app_r.
  - intros [(t & He & Hr) _]. exists t. auto.
Qed.

(** Sessions: [true] inside one.  Deliveries are forwarded inside a session; datasets are
    prepared, installed and acknowledged between sessions. *)
Definition session_step (open : bool) (e : Effect) : option bool :=
  match e, open with
  | EStart, false => Some true
  | EForward _, true => Some true
  | EEnd, true => Some false
  | (EPrepare _ _ | EInstall | EAck _), false => Some false
  | _, _ => None
  end.
Fixpoint sessions (open : bool) (l : list Effect) : option bool :=
  match l with [] => Some open | e :: l => session_step open e ≫= λ o, sessions o l end.

Lemma sessions_app b l1 l2 : sessions b (l1 ++ l2) = sessions b l1 ≫= λ o, sessions o l2.
Proof.
  revert b. induction l1 as [|e l1 IH]; intros b; [done|]. cbn. destruct (session_step b e); [|done].
  cbn. apply IH.
Qed.

Lemma sessions_prepares st l : sessions false (prepares st l) = Some false.
Proof. induction l as [|ds l IH]; [done|]. done. Qed.

Lemma sessions_one x : is_Some (sessions true (expected_one x)) ∧ (accepted x = true → sessions true (expected_one x) = Some true).
Proof.
  destruct x as [d [[|ds l]|f]|id ds]; cbn [expected_one]; [done| | |done].
  - change (EEnd :: prepares SinkStage (ds :: l) ++ [EStart; EForward d])
      with ([EEnd] ++ prepares SinkStage (ds :: l) ++ [EStart; EForward d]).
    rewrite !sessions_app. cbn [sessions session_step mbind option_bind].
    by rewrite sessions_app, sessions_prepares.
  - done.
Qed.

Lemma sessions_expected r : Forall (λ x, accepted x = true) r → sessions false (expected r) = Some true.
Proof.
  induction r as [|x r IH] using rev_ind; [done|]. intros [Hr Hx]%Forall_app.
  rewrite expected_snoc, sessions_app, IH by done. cbn. apply sessions_one. by inversion Hx.
Qed.

Definition forwarded (l : list Effect) : list Delivery :=
  omap (λ e, match e with EForward d => Some d | _ => None end) l.
Definition acknowledged (l : list Effect) : list DeliveryId :=
  omap (λ e, match e with EAck id => Some id | _ => None end) l.
Definition data_received (l : list Received) : list Delivery :=
  omap (λ r, match r with GotData d (Ok _) => Some d | _ => None end) l.
Definition datasets_received (l : list Received) : list DeliveryId :=
  omap (λ r, match r with GotDataset id _ => Some id | _ => None end) l.

Lemma forwarded_prepares st l : forwarded (prepares st l) = [].
Proof. induction l as [|ds l IH]; [done|]. done. Qed.
Lemma acknowledged_prepares st l : acknowledged (prepares st l) = [].
Proof. induction l as [|ds l IH]; [done|]. done. Qed.

Lemma read_one x :
  forwarded (expected_one x) = data_received [x] ∧ acknowledged (expected_one x) = datasets_received [x].
Proof.
  destruct x as [d [[|ds l]|f]|id ds]; try done. unfold forwarded, acknowledged. cbn [expected_one].
  cbn [omap list_omap]. rewrite !omap_app.
  change (omap _ (prepares SinkStage (ds :: l))) with (forwarded (prepares SinkStage (ds :: l))) at 1.
  change (omap _ (prepares SinkStage (ds :: l))) with (acknowledged (prepares SinkStage (ds :: l))) at 1.
  rewrite forwarded_prepares, acknowledged_prepares. done.
Qed.

Lemma read_expected r :
  forwarded (expected r) = data_received r ∧ acknowledged (expected r) = datasets_received r.
Proof.
  induction r as [|x r [IH1 IH2]] using rev_ind; [done|]. destruct (read_one x) as [H1 H2].
  unfold forwarded, acknowledged, data_received, datasets_received in *.
  by rewrite expected_snoc, !omap_app, IH1, IH2, H1, H2.
Qed.

Lemma stands_sessions s r t :
  stands s r t → Forall (λ x, accepted x = true) r → is_Some (sessions false (effects s)).
Proof.
  intros [He Ht] Hacc. rewrite He, sessions_app, sessions_expected by done. cbn.
  assert (∀ u v b, is_Some (sessions b (u ++ v)) → is_Some (sessions b u)) as Hpre.
  { intros u v b. rewrite sessions_app. destruct (sessions b u); [by eexists|by intros []]. }
  destruct Ht as [[_ [v Hv]]|(x & _ & [[v Hv]| ->])]; [| |by eexists].
  - apply (Hpre _ v). rewrite <-Hv. by eexists.
  - apply (Hpre _ v). rewrite <-Hv. apply sessions_one.
Qed.

Lemma stands_reads s r t :
  stands s r t → forwarded (effects s) `prefix_of` data_received (received s) ∧
    acknowledged (effects s) `prefix_of` datasets_received (received s).
Proof.
  intros [He Ht]. rewrite He. destruct (read_expected r) as [Hf Ha].
  assert (∀ x, t `prefix_of` expected_one x → forwarded t `prefix_of` data_received [x] ∧
    acknowledged t `prefix_of` datasets_received [x]) as Hone.
  { intros x [v Hv]. destruct (read_one x) as [<- <-]. rewrite Hv. unfold forwarded, acknowledged.
    rewrite !omap_app. split; by eexists. }
  assert (∀ x, forwarded t `prefix_of` data_received x → acknowledged t `prefix_of` datasets_received x →
    forwarded (expected r ++ t) `prefix_of` data_received (r ++ x) ∧
    acknowledged (expected r ++ t) `prefix_of` datasets_received (r ++ x)) as Hgo.
  { intros x Hx1 Hx2. unfold forwarded, acknowledged, data_received, datasets_received in *.
    rewrite !omap_app, Hf, Ha. split; by apply prefix_app. }
  destruct Ht as [[-> [v Hv]]|(x & -> & [Hx| ->])].
  - rewrite <-(app_nil_r r) at 2 4. destruct t as [|e t]; [|destruct t; [|done]; injection Hv as <-];
      apply Hgo; done.
  - destruct (Hone x Hx). by apply Hgo.
  - apply Hgo; apply prefix_nil.
Qed.

(** ** Claims *)

(** C34. Admission implements its contract: in every reachable state the effects on the
    sink, the destination catalog and the reader are those the contract prescribes for
    the elements processed so far, followed by an initial part of what it prescribes for
    the one in hand (or by the end of the session); whenever the task waits for input
    the two agree exactly; and a run that ends well, neither cancelled nor refused by
    the session, has processed everything it received and then ended the session. *)
Theorem admission_refines s :
  rtc steps init s →
  (∃ r t, stands s r t) ∧
  (pc s = AtInput → effects s = expected (received s)) ∧
  (pc s = Done (Ok tt) → interrupted s = false → effects s = expected (received s) ++ [EEnd]).
Proof.
  intros [_ (r & _ & Hat)]%steps_Inv. split; [destruct (at_pc_stands s r Hat) as [t ?]; eauto|].
  unfold at_pc in Hat. split; intros Hpc; rewrite Hpc in Hat.
  - by destruct Hat as [-> ->].
  - intros Hi. by destruct (proj2 Hat eq_refl Hi) as [-> ->].
Qed.

(** The sink's catalog changes only between sessions, and nothing is lost,
    duplicated or reordered: the effects are a sequence of closed sessions, in which
    deliveries are forwarded, and of preparations, installations and acknowledgements
    outside them; the forwarded deliveries are a prefix of the received ones, and the
    acknowledged datasets a prefix of the announced ones; each installed catalog is the
    one the preceding preparation returned. *)
Theorem admission_discipline s :
  rtc steps init s →
  is_Some (sessions false (effects s)) ∧
  forwarded (effects s) `prefix_of` data_received (received s) ∧
  acknowledged (effects s) `prefix_of` datasets_received (received s) ∧
  installs_prepared (log s).
Proof.
  intros [Hlog (r & Hacc & Hat)]%steps_Inv. destruct (at_pc_stands s r Hat) as [t Ht].
  destruct (stands_reads s r t Ht). split_and!; try done. by eapply stands_sessions.
Qed.
End admission.

(** ** A run: an announced dataset, a known delivery, a delivery with a new dataset *)
Section example.
#[local] Existing Instance example_arrow.
#[local] Existing Instance example_values.

Definition example_delivery (n : Z) : Delivery :=
  {| del_id := DeliveryId.new n; del_outputs := [example_batch]; del_meta := {| meta_source_messages := 2 |} |}.

Definition example_inputs : list Input :=
  [ IRecv (Some (DatasetInput 1 example_dataset)) (Ok []); ISession (Ok tt) false;
    IPrepare (Ok example_discovery) (Ok tt) false; ISend true;
    IRecv (Some (Data (example_delivery 2))) (Ok []); ISend true;
    IRecv (Some (Data (example_delivery 3))) (Ok [example_dataset]); ISession (Ok tt) false;
    IPrepare (Ok example_discovery) (Ok tt) false; ISend true;
    IRecv None (Ok []); ISession (Ok tt) false ].

Definition example_state : State := default init (run init example_inputs).

Lemma run_rtc (s s' : State) l : run s l = Some s' → rtc steps s s'.
Proof.
  revert s. induction l as [|i l IH]; intros s Hr; [by injection Hr as ->|]. cbn in Hr.
  destruct (step s i) as [s1|] eqn:E; [|done]. eapply rtc_l; [by exists i|by apply IH].
Qed.

Lemma example_admission_rtc : rtc steps init example_state.
Proof. apply (run_rtc _ _ example_inputs). reflexivity. Qed.

Lemma admission_refines_witness :
  pc example_state = Done (Ok tt) ∧ effects example_state = expected (received example_state) ++ [EEnd].
Proof.
  assert (pc example_state = Done (Ok tt)) as Hpc by reflexivity. split; [done|].
  exact (proj2 (proj2 (admission_refines example_state example_admission_rtc)) Hpc eq_refl).
Defined.

Lemma admission_discipline_witness :
  length (forwarded (effects example_state)) = 2%nat ∧
  forwarded (effects example_state) `prefix_of` data_received (received example_state).
Proof.
  split; [reflexivity|].
  exact (proj1 (proj2 (admission_discipline example_state example_admission_rtc))).
Defined.
End example.
