(* ===== verification/Parser.v ===== *)
(** * The parser task of a partition pipeline

    [apply_middlewares], [make_sink_batch], [parser_worker_result] and [parser_loop] of
    [transferia-pipeline/src/lib.rs]: envelopes from the reader become deliveries for the
    sink.  Tables the source typed itself, and tables parsed from raw messages, pass
    through the middlewares; the dead-letter table does not; empty tables are dropped.

    One envelope is one call of [handle]: the await points inside it are answered by an
    [Answers] record (was the transform admitted before cancellation, did the blocking
    tasks join, is the output channel open).  The parser session and the middlewares are
    interfaces implemented by connectors.  [memory] is the trace of the calls made on the
    memory budget; a reservation that goes out of scope is a release in the trace. *)

From stdpp Require Import base tactics numbers option strings gmap fin_maps list.
From S2P Require Import Prelude DeliveryId RowCount Schema Arrow Delivery Failure Reader Admission.
Local Open Scope Z_scope.

(** [ParserFactory] and [ParserSession]; a failed parse is an error with a cause. *)
Class ParserSessions `{ArrowTypes, ArrowValues} := {
  Session : Type;
  create_session : Z → Session;
  output_memory_bound : Session → list Message → Z;
  parse_into : Session → list Message → Session * result nat (list TableData * option TableData)
}.

(** Calls on the memory budget. *)
Inductive MemoryCall :=
| AdmitActive (bytes : Z)       (* [admit_active_transform] *)
| FinishActive (bytes : Z)      (* [finish]: the retained output *)
| DropActive                    (* the estimate is dropped *)
| ReserveTransform (bytes : Z)
| ReleaseSource.                (* the envelope's reservations are dropped *)
#[export] Instance MemoryCall_eq_dec : EqDecision MemoryCall.
Proof. solve_decision. Defined.

Section parser.
Context `{PS : ParserSessions}.
Context (array_memory_size : Array → Z) (memory_limit : Z).
Context (middlewares : list (TableData → result AnyhowError TableData)).
Context (output : DeliveryOutput).

(** [for middleware in middlewares { data = middleware.process(data)?; }], skipped for
    the dead-letter table. *)
Definition apply_middlewares (data : TableData) : result AnyhowError TableData :=
  if td_is_dlq data then Ok data else for_each (λ d m, m d) middlewares data.

Definition make_sink_batch (data : TableData) (byte_size : Z) : option SinkBatch :=
  if bool_decide (rb_rows (td_batch data) = 0%nat) then None
  else Some {| sb_schema := td_schema data; sb_namespace := td_namespace data; sb_table := td_table data;
               sb_is_dlq := td_is_dlq data; sb_batch := td_batch data; sb_byte_size := byte_size;
               sb_system_columns := td_system_columns data |}.

Record Transformed := { tables : list (TableData * Z); table_bytes : Z; table_rows : Z }.

(** The loop over the tables; [wrap] is what the raw path does to a middleware's error. *)
Definition transform_one (wrap : AnyhowError → AnyhowError) (acc : Transformed) (t : TableData)
    : result AnyhowError Transformed :=
  match apply_middlewares t with
  | Err e => Err (wrap e)
  | Ok t =>
      let bytes := arrow_batch_bytes array_memory_size (td_batch t) in
      Ok {| tables := tables acc ++ [(t, bytes)];
            table_bytes := saturating_add usize_max (table_bytes acc) bytes;
            table_rows := saturating_add usize_max (table_rows acc) (Z.of_nat (rb_rows (td_batch t))) |}
  end.
Definition transform (wrap : AnyhowError → AnyhowError) (l : list TableData) : result AnyhowError Transformed :=
  for_each (transform_one wrap) l {| tables := []; table_bytes := 0; table_rows := 0 |}.

Inductive Sent := SentDelivery (d : Delivery) | SentDataset (id : DeliveryId) (ds : DiscoveredDataset).
Definition sent_id (x : Sent) : DeliveryId := match x with SentDelivery d => del_id d | SentDataset id _ => id end.

Record Answers := { admitted : bool; estimated : bool; parsed : bool; channel_open : bool }.

Record PState := {
  session : option Session;
  rows : option OutputRowCountState;
  sent : list Sent;
  memory : list MemoryCall;
  outcome : option (result AnyhowError unit)     (* [Some] when the task has ended *)
}.

Definition parser_init (r : option OutputRowCountState) : PState :=
  {| session := None; rows := r; sent := []; memory := []; outcome := None |}.

Definition E_ROWS : nat := 21.
Definition E_NO_COORDINATOR : nat := 22.
Definition E_ADMISSION_CLOSED : nat := 23.
Definition E_TASK : nat := 24.
Definition E_PARSE : nat := 25.
Definition E_MIDDLEWARE : nat := 26.

(** The task ends; what it held is released. *)
Definition finish_with (st : PState) (calls : list MemoryCall) (r : result AnyhowError unit) : PState :=
  {| session := session st; rows := rows st; sent := sent st; memory := memory st ++ calls; outcome := Some r |}.

Definition output_batch (b : SinkBatch) : OutputBatch :=
  {| out_table := sb_table b; out_is_dlq := sb_is_dlq b; out_rows := Z.of_nat (rb_rows (sb_batch b)) |}.

(** [admit_datasets] on an evolving output, then [observe_delivery]. *)
Definition observe (r : option OutputRowCountState) (id : DeliveryId) (outputs : list SinkBatch)
    : option OutputRowCountState * bool :=
  match r with
  | None => (None, true)
  | Some st =>
      let st := match output with
        | Evolving => admit_datasets st ((λ b, (sb_table b, sb_is_dlq b)) <$> outputs)
        | Fixed => st end in
      let '(st, o) := observe_delivery st id (output_batch <$> outputs) in (Some st, is_ok o)
  end.

(** Count the rows, then send; a closed channel ends the task quietly. *)
Definition send_delivery (st : PState) (s : option Session) (calls : list MemoryCall) (d : Delivery) (ans : Answers)
    : PState :=
  let '(r, ok) := observe (rows st) (del_id d) (del_outputs d) in
  let st := {| session := s; rows := r; sent := sent st; memory := memory st ++ calls; outcome := None |} in
  if negb ok then finish_with st [] (Err (OtherError E_ROWS))
  else if channel_open ans then
    {| session := s; rows := r; sent := sent st ++ [SentDelivery d]; memory := memory st; outcome := None |}
  else finish_with st [] (Ok tt).

Definition handle_dataset (st : PState) (id : DeliveryId) (ds : DiscoveredDataset) (ans : Answers) : PState :=
  let '(r, ok) := match rows st with
    | None => (None, true)
    | Some x => let '(x, o) := observe_delivery x id [] in (Some x, is_ok o) end in
  let st := {| session := session st; rows := r; sent := sent st;
               memory := memory st ++ [ReleaseSource]; outcome := None |} in
  if negb ok then finish_with st [] (Err (OtherError E_ROWS)) else
  match output_admit output id ds with
  | Err _ => finish_with st [] (Err (OtherError E_NO_COORDINATOR))
  | Ok _ =>
      if channel_open ans then
        {| session := session st; rows := rows st; sent := sent st ++ [SentDataset id ds];
           memory := memory st; outcome := None |}
      else finish_with st [] (Err (OtherError E_ADMISSION_CLOSED))
  end.

Definition handle_typed (st : PState) (id : DeliveryId) (l : list TableData) (meta : DeliveryMeta) (ans : Answers)
    : PState :=
  match transform (λ e, e) l with
  | Err e => finish_with st [ReleaseSource] (Err e)
  | Ok tr =>
      if bool_decide (tables tr = []) then
        send_delivery st (session st) [ReleaseSource]
          {| del_id := id; del_outputs := []; del_meta := meta |} ans
      else if negb (admitted ans) then finish_with st [ReleaseSource] (Ok tt)
      else
        send_delivery st (session st) [AdmitActive (table_bytes tr); ReleaseSource; FinishActive (table_bytes tr)]
          {| del_id := id; del_outputs := omap (λ p, make_sink_batch p.1 p.2) (tables tr); del_meta := meta |} ans
  end.

Definition handle_raw (st : PState) (id : DeliveryId) (msgs : list Message) (meta : DeliveryMeta) (ans : Answers)
    : PState :=
  if negb (estimated ans) then finish_with st [ReleaseSource] (Err (ParserInfrastructureFailure E_TASK)) else
  let s := match session st with Some s => s | None => create_session memory_limit end in
  let output_bound := output_memory_bound s msgs in
  let empty := bool_decide (msgs = []) in
  if negb empty && negb (admitted ans) then finish_with st [ReleaseSource] (Ok tt) else
  let admission := if empty then [] else [AdmitActive output_bound] in
  let drop_active := if empty then [] else [DropActive] in
  if negb (parsed ans) then
    finish_with st (admission ++ drop_active ++ [ReleaseSource]) (Err (ParserInfrastructureFailure E_TASK))
  else
  let '(s, p) := parse_into s msgs in
  let st := {| session := Some s; rows := rows st; sent := sent st; memory := memory st; outcome := None |} in
  match p with
  | Err _ => finish_with st (admission ++ drop_active ++ [ReleaseSource]) (Err (OtherError E_PARSE))
  | Ok (valid, dlq) =>
      match transform (λ _, OtherError E_MIDDLEWARE) valid with
      | Err e => finish_with st (admission ++ [ReleaseSource] ++ drop_active) (Err e)
      | Ok tr =>
          let dlq_bytes := match dlq with
            | Some t => arrow_batch_bytes array_memory_size (td_batch t) | None => 0 end in
          let dlq_rows := match dlq with Some t => rb_rows (td_batch t) | None => 0%nat end in
          let output_bytes := saturating_add usize_max (table_bytes tr) dlq_bytes in
          let has_output := bool_decide (0 < table_rows tr) || bool_decide (0 < dlq_rows)%nat in
          let retain := match has_output, empty with
            | true, false => [FinishActive output_bytes]
            | false, false => [DropActive]
            | false, true => []
            | true, true => [ReserveTransform output_bytes]
            end in
          let keep {A} (o : option A) := if has_output then o else None in
          let outputs :=
            omap (λ p, keep (make_sink_batch p.1 p.2)) (tables tr) ++
            option_list (t ← dlq; keep (make_sink_batch t dlq_bytes)) in
          send_delivery st (Some s) (admission ++ [ReleaseSource] ++ retain)
            {| del_id := id; del_outputs := outputs; del_meta := meta |} ans
      end
  end.

Definition handle (st : PState) (e : ReadEnvelope) (ans : Answers) : PState :=
  match re_payload e with
  | PDataset ds => handle_dataset st (re_id e) ds ans
  | PTyped l => handle_typed st (re_id e) l (re_meta e) ans
  | PRaw msgs => handle_raw st (re_id e) msgs (re_meta e) ans
  end.

(** [while !cancellation.is_cancelled()]: the envelopes of the channel, in order, until
    the task ends.  Cancellation is the end of the list. *)
Fixpoint parser_loop (st : PState) (l : list (ReadEnvelope * Answers)) : PState :=
  match outcome st, l with
  | None, (e, ans) :: l => parser_loop (handle st e ans) l
  | _, _ => st
  end.

(** ** Transforming tables *)
Definition bytes_of (t : TableData) : Z := arrow_batch_bytes array_memory_size (td_batch t).
Definition rows_of (t : TableData) : Z := Z.of_nat (rb_rows (td_batch t)).
Definition batch_rows (b : SinkBatch) : Z := Z.of_nat (rb_rows (sb_batch b)).
(** The sink batches of a list of tables: the non-empty ones, in order. *)
Definition sink_batches (l : list TableData) : list SinkBatch := omap (λ t, make_sink_batch t (bytes_of t)) l.

Definition transformed (results : list TableData) : Transformed :=
  {| tables := (λ t, (t, bytes_of t)) <$> results;
     table_bytes := foldl (λ acc t, saturating_add usize_max acc (bytes_of t)) 0 results;
     table_rows := foldl (λ acc t, saturating_add usize_max acc (rows_of t)) 0 results |}.

Lemma transform_Ok wrap l tr :
  transform wrap l = Ok tr →
  ∃ results, Forall2 (λ t t', apply_middlewares t = Ok t') l results ∧ tr = transformed results.
Proof.
  unfold transform. intros Ht. revert Ht.
  apply (for_each_ind (λ l acc, ∃ results,
    Forall2 (λ t t', apply_middlewares t = Ok t') l results ∧ acc = transformed results)).
  - exists []. done.
  - intros l1 x l2 s1 s2 _ (results & Hl1 & ->) Hone. unfold transform_one in Hone.
    destruct (apply_middlewares x) as [t|e] eqn:E; [|done]. simplify_eq. exists (results ++ [t]).
    split; [by apply Forall2_app; [|constructor]|]. unfold transformed. cbn.
    by rewrite fmap_app, !foldl_app.
Qed.

Lemma saturating_foldl (f : TableData → Z) l acc :
  (∀ t, 0 ≤ f t) → 0 ≤ acc ≤ usize_max →
  foldl (λ acc t, saturating_add usize_max acc (f t)) acc l = Z.min (acc + lsum f l) usize_max.
Proof.
  intros Hf. revert acc. induction l as [|t l IH]; intros acc Hacc; cbn [foldl]; [unfold lsum; cbn; lia|].
  pose proof (Hf t). pose proof (lsum_nonneg f l (λ x _, Hf x)). unfold saturating_add in *.
  rewrite IH by lia. rewrite lsum_cons. lia.
Qed.

Lemma table_rows_spec results : table_rows (transformed results) = Z.min (lsum rows_of results) usize_max.
Proof.
  unfold transformed; cbn. rewrite saturating_foldl; [f_equal; lia| |unfold usize_max, u64_max; lia].
  intros t. unfold rows_of. lia.
Qed.

Lemma no_rows results t : lsum rows_of results = 0 → t ∈ results → rb_rows (td_batch t) = 0%nat.
Proof.
  intros Hs (l1 & l2 & ->)%list_elem_of_split. rewrite lsum_app, lsum_cons in Hs.
  assert (∀ l, 0 ≤ lsum rows_of l) as Hn by (intros l; apply lsum_nonneg; unfold rows_of; lia).
  pose proof (Hn l1). pose proof (Hn l2). unfold rows_of at 2 in Hs. lia.
Qed.

Lemma sink_batches_rows l :
  lsum batch_rows (sink_batches l) = lsum rows_of l ∧ Forall (λ b, 0 < batch_rows b) (sink_batches l).
Proof.
  induction l as [|t l [IH1 IH2]]; [done|].
  change (sink_batches (t :: l)) with (match make_sink_batch t (bytes_of t) with
    | Some b => b :: sink_batches l | None => sink_batches l end).
  rewrite lsum_cons. unfold rows_of at 1, make_sink_batch.
  case_bool_decide as Ht; [rewrite Ht, IH1; split; [lia|done]|].
  rewrite lsum_cons, IH1. split; [done|]. constructor; [unfold batch_rows; cbn; lia|done].
Qed.

Lemma sink_batches_app l1 l2 : sink_batches (l1 ++ l2) = sink_batches l1 ++ sink_batches l2.
Proof. apply omap_app. Qed.

Lemma sink_batches_empty l : lsum rows_of l = 0 → sink_batches l = [].
Proof.
  intros Hs. destruct (sink_batches_rows l) as [Hr Hp]. rewrite Hs in Hr.
  destruct (sink_batches l) as [|b k]; [done|]. apply Forall_cons in Hp as [Hb Hp].
  rewrite lsum_cons in Hr. assert (0 ≤ lsum batch_rows k); [|lia].
  apply lsum_nonneg. unfold batch_rows. lia.
Qed.

Lemma omap_tables (results : list TableData) :
  omap (λ p : TableData * Z, make_sink_batch p.1 p.2) ((λ t, (t, bytes_of t)) <$> results) = sink_batches results.
Proof. unfold sink_batches. induction results as [|t l IH]; [done|]. cbn. by rewrite IH. Qed.

(** The batches of the raw path: with nothing to output none is built, and none is lost. *)
Lemma raw_outputs results (dlq : option TableData) (has : bool) :
  has = bool_decide (0 < table_rows (transformed results))
        || bool_decide (0 < match dlq with Some t => rb_rows (td_batch t) | None => 0 end)%nat →
  omap (λ p : TableData * Z, if has then make_sink_batch p.1 p.2 else None) (tables (transformed results)) ++
  option_list (t ← dlq; if has then make_sink_batch t (bytes_of t) else None)
  = sink_batches (results ++ option_list dlq).
Proof.
  intros Hhas. rewrite sink_batches_app. destruct has.
  - cbn [transformed tables]. rewrite omap_tables. f_equal. destruct dlq as [t|]; [|done].
    unfold sink_batches. cbn. by destruct (make_sink_batch t (bytes_of t)).
  - symmetry in Hhas. apply orb_false_iff in Hhas as [H1 H2]. bool_inv. rewrite table_rows_spec in H1.
    assert (0 ≤ lsum rows_of results) by (apply lsum_nonneg; unfold rows_of; lia).
    rewrite sink_batches_empty by (unfold usize_max, u64_max in H1; lia).
    replace (sink_batches (option_list dlq)) with (@nil SinkBatch).
    + rewrite app_nil_r. transitivity (@nil SinkBatch ++ []); [|done]. f_equal; [|by destruct dlq].
      generalize (tables (transformed results)). intros l. by induction l.
    + symmetry. apply sink_batches_empty. destruct dlq as [t|]; [|done]. cbn.
      unfold lsum, rows_of; cbn. lia.
Qed.

(** ** One envelope *)

(** At most one estimate is live, and it is finished or dropped. *)
Fixpoint estimate (active : bool) (l : list MemoryCall) : option bool :=
  match l with
  | [] => Some active
  | AdmitActive _ :: l => if active then None else estimate true l
  | (FinishActive _ | DropActive) :: l => if active then estimate false l else None
  | (ReserveTransform _ | ReleaseSource) :: l => estimate active l
  end.
Definition releases (l : list MemoryCall) : nat :=
  length (filter (λ c, c = ReleaseSource) l).

Lemma estimate_app b l1 l2 : estimate b (l1 ++ l2) = estimate b l1 ≫= λ b, estimate b l2.
Proof. revert b. induction l1 as [|[] l1 IH]; intros []; cbn; try done; apply IH. Qed.

Definition pending_of (r : option OutputRowCountState) : gmap Z (gmap Key Z) :=
  match r with Some st => pending st | None => ∅ end.

Record envelope_effect (id : DeliveryId) (st st' : PState) (calls : list MemoryCall) : Prop := {
  eff_memory : memory st' = memory st ++ calls;
  eff_estimate : estimate false calls = Some false;
  eff_release : releases calls = 1%nat;
  eff_pending : pending_of (rows st) ⊆ pending_of (rows st');
  eff_rows : is_Some (rows st') ↔ is_Some (rows st);
  eff_sent :
    (outcome st' = None ∧ (∃ x, sent st' = sent st ++ [x] ∧ sent_id x = id) ∧
      (is_Some (rows st') → is_Some (pending_of (rows st') !! id))) ∨
    (is_Some (outcome st') ∧ sent st' = sent st)
}.

Lemma observe_delivery_pending st id outs :
  pending st ⊆ pending (observe_delivery st id outs).1 ∧
  (is_ok (observe_delivery st id outs).2 = true → is_Some (pending (observe_delivery st id outs).1 !! id)).
Proof.
  unfold observe_delivery. destruct (_ ≫= _) as [d|e] eqn:E; cbn; [|done]. res_inv. bool_inv.
  split; [by apply insert_subseteq|]. intros _. rewrite lookup_insert_eq. by eexists.
Qed.

Lemma observe_pending r id outs :
  pending_of r ⊆ pending_of (observe r id outs).1 ∧ (is_Some (observe r id outs).1 ↔ is_Some r) ∧
  ((observe r id outs).2 = true → is_Some r → is_Some (pending_of (observe r id outs).1 !! id)).
Proof.
  destruct r as [st|]; cbn; [|split_and!; [done..|by intros _ []]].
  set (st' := match output with Fixed => st | Evolving => _ end).
  assert (pending st' = pending st) as Hp by by unfold st'; destruct output.
  pose proof (observe_delivery_pending st' id (output_batch <$> outs)) as [H1 H2].
  destruct (observe_delivery st' id (output_batch <$> outs)) as [st'' o]. cbn in *.
  rewrite <-Hp. split_and!; [done|by split; intros _; eexists|auto].
Qed.

Lemma send_delivery_effect st s calls d ans :
  estimate false calls = Some false → releases calls = 1%nat →
  envelope_effect (del_id d) st (send_delivery st s calls d ans) calls.
Proof.
  intros He Hr. unfold send_delivery.
  destruct (observe_pending (rows st) (del_id d) (del_outputs d)) as (H1 & H2 & H3).
  destruct (observe (rows st) (del_id d) (del_outputs d)) as [r ok]. cbn in *.
  destruct ok; cbn; [destruct (channel_open ans); cbn|]; split; cbn; rewrite ?app_nil_r; try done;
    try (right; split; [by eexists|done]).
  left. split_and!; [done|by eexists|]. intros Hs. apply H3; [done|by apply H2].
Qed.

Lemma finish_with_effect id st calls r :
  estimate false calls = Some false → releases calls = 1%nat →
  envelope_effect id st (finish_with st calls r) calls.
Proof. intros He Hr. split; cbn; try done. right. split; [by eexists|done]. Qed.

(** The session plays no part. *)
Lemma effect_session id st s st' calls :
  envelope_effect id {| session := s; rows := rows st; sent := sent st; memory := memory st; outcome := None |}
    st' calls → envelope_effect id st st' calls.
Proof. intros []. by split. Qed.

Lemma handle_dataset_effect st id ds ans :
  envelope_effect id st (handle_dataset st id ds ans) [ReleaseSource].
Proof.
  unfold handle_dataset.
  assert (∃ r ok, (match rows st with
    | None => (None, true)
    | Some x => let '(x, o) := observe_delivery x id [] in (Some x, is_ok o) end) = (r, ok) ∧
    pending_of (rows st) ⊆ pending_of r ∧ (is_Some r ↔ is_Some (rows st)) ∧
    (ok = true → is_Some (rows st) → is_Some (pending_of r !! id))) as (r & ok & -> & H1 & H2 & H3).
  { destruct (rows st) as [x|]; [|exists None, true; split_and!; [done..|by intros _ []]].
    pose proof (observe_delivery_pending x id []) as [H1 H2].
    destruct (observe_delivery x id []) as [x' o]. exists (Some x'), (is_ok o). cbn in *.
    split_and!; [done|done|by split; intros _; eexists|auto]. }
  destruct ok; cbn; [destruct (output_admit output id ds) as [?|?]; [destruct (channel_open ans)|]|];
    split; cbn; rewrite ?app_nil_r; try done; try (right; split; [by eexists|done]).
  left. split_and!; [done|by eexists|]. intros Hs. apply H3; [done|by apply H2].
Qed.

Lemma handle_effect st e ans : ∃ calls, envelope_effect (re_id e) st (handle st e ans) calls.
Proof.
  unfold handle. destruct (re_payload e) as [ds|msgs|l].
  - eexists. apply handle_dataset_effect.
  - unfold handle_raw. set (empty := bool_decide (msgs = [])).
    destruct (estimated ans); cbn [negb]; [|eexists; by apply finish_with_effect].
    destruct (negb empty && negb (admitted ans)); [eexists; by apply finish_with_effect|].
    destruct (parsed ans); cbn [negb]; [|eexists; apply finish_with_effect; by destruct empty].
    destruct (parse_into _ msgs) as [s [[valid dlq]|err]];
      [|eexists; apply (effect_session _ _ (Some s)), finish_with_effect; by destruct empty].
    destruct (transform _ valid) as [tr|err];
      [|eexists; apply (effect_session _ _ (Some s)), finish_with_effect; by destruct empty].
    eexists. apply (effect_session _ _ (Some s)), (send_delivery_effect _ _ _ {| del_id := re_id e |});
      by destruct empty, (_ || _).
  - unfold handle_typed. destruct (transform _ l) as [tr|err]; [|eexists; by apply finish_with_effect].
    case_bool_decide; [eexists; by apply (send_delivery_effect _ _ _ {| del_id := re_id e |})|].
    destruct (admitted ans); cbn [negb]; [|eexists; by apply finish_with_effect].
    eexists. by apply (send_delivery_effect _ _ _ {| del_id := re_id e |}).
Qed.

(** The tables an envelope becomes, before empty ones are dropped. *)
Definition produced (st : PState) (p : ReadPayload) (results : list TableData) : Prop :=
  match p with
  | PDataset _ => False
  | PTyped l => Forall2 (λ t t', apply_middlewares t = Ok t') l results
  | PRaw msgs => ∃ s' valid dlq vs,
      parse_into (match session st with Some s => s | None => create_session memory_limit end) msgs
        = (s', Ok (valid, dlq)) ∧
      Forall2 (λ t t', apply_middlewares t = Ok t') valid vs ∧ results = vs ++ option_list dlq
  end.

(** A delivery is sent only after its rows were counted. *)
Lemma send_delivery_sent st s calls d ans x :
  sent (send_delivery st s calls d ans) = sent st ++ [x] →
  x = SentDelivery d ∧ observe (rows st) (del_id d) (del_outputs d) = (rows (send_delivery st s calls d ans), true).
Proof.
  unfold send_delivery. destruct (observe _ _ _) as [r ok].
  destruct ok; cbn; [destruct (channel_open ans); cbn|]; intros Hs.
  - by apply app_inv_head in Hs; injection Hs as [= <-].
  - rewrite <-(app_nil_r (sent st)) in Hs at 1. by apply app_inv_head in Hs.
  - rewrite <-(app_nil_r (sent st)) in Hs at 1. by apply app_inv_head in Hs.
Qed.

Lemma finish_with_sent st calls r x : sent (finish_with st calls r) ≠ sent st ++ [x].
Proof. cbn. intros Hs. rewrite <-(app_nil_r (sent st)) in Hs at 1. by apply app_inv_head in Hs. Qed.

Lemma handle_raw_sent st id msgs meta ans x :
  sent (handle_raw st id msgs meta ans) = sent st ++ [x] →
  ∃ d results, x = SentDelivery d ∧ del_id d = id ∧ del_meta d = meta ∧
    produced st (PRaw msgs) results ∧ del_outputs d = sink_batches results ∧
    observe (rows st) id (del_outputs d) = (rows (handle_raw st id msgs meta ans), true).
Proof.
  unfold handle_raw. set (empty := bool_decide (msgs = [])). cbn [produced].
  destruct (estimated ans); cbn [negb]; [|by intros ?%finish_with_sent].
  destruct (negb empty && negb (admitted ans)); [by intros ?%finish_with_sent|].
  destruct (parsed ans); cbn [negb]; [|by intros ?%finish_with_sent].
  destruct (parse_into _ msgs) as [s [[valid dlq]|err]]; [|by intros ?%(finish_with_sent {| session := _ |})].
  destruct (transform _ valid) as [tr|err] eqn:Et; [|by intros ?%(finish_with_sent {| session := _ |})].
  apply transform_Ok in Et as (vs & Hvs & ->).
  intros [-> Hob]%(send_delivery_sent {| session := _; rows := rows st; sent := sent st |}).
  eexists _, (vs ++ option_list dlq). split; [done|]. cbn [del_id del_meta del_outputs].
  split_and!; [done..|by exists s, valid, dlq, vs| |exact Hob].
  destruct dlq as [t|]; [exact (raw_outputs vs (Some t) _ eq_refl)|exact (raw_outputs vs None _ eq_refl)].
Qed.

Lemma handle_typed_sent st id l meta ans x :
  sent (handle_typed st id l meta ans) = sent st ++ [x] →
  ∃ d results, x = SentDelivery d ∧ del_id d = id ∧ del_meta d = meta ∧
    produced st (PTyped l) results ∧ del_outputs d = sink_batches results ∧
    observe (rows st) id (del_outputs d) = (rows (handle_typed st id l meta ans), true).
Proof.
  unfold handle_typed. destruct (transform _ l) as [tr|err] eqn:Et; [|by intros ?%finish_with_sent].
  apply transform_Ok in Et as (results & Hr & ->). cbn [produced]. case_bool_decide as Hnil.
  - intros [-> Hob]%send_delivery_sent. eexists _, results. split; [done|].
    split_and!; [done..|by destruct results|exact Hob].
  - destruct (admitted ans); cbn [negb]; [|by intros ?%finish_with_sent].
    intros [-> Hob]%send_delivery_sent. eexists _, results. split; [done|]. split_and!; [done..|apply omap_tables|exact Hob].
Qed.

(** ** Claims *)

(** The batch of a table: its content, and the memory of its columns. *)
Record batch_of (t : TableData) (b : SinkBatch) : Prop := {
  bo_table : sb_table b = td_table t;
  bo_namespace : sb_namespace b = td_namespace t;
  bo_is_dlq : sb_is_dlq b = td_is_dlq t;
  bo_schema : sb_schema b = td_schema t;
  bo_batch : sb_batch b = td_batch t;
  bo_system : sb_system_columns b = td_system_columns t;
  bo_bytes : sb_byte_size b = lsum array_memory_size (rb_columns (td_batch t))
}.

Lemma sink_batches_of l : Forall2 batch_of (filter (λ t, rb_rows (td_batch t) ≠ 0%nat) l) (sink_batches l).
Proof.
  induction l as [|t l IH]; [constructor|]. unfold sink_batches in *. cbn [omap list_omap]. unfold make_sink_batch at 1.
  rewrite filter_cons. case_bool_decide; case_decide; try done. by constructor.
Qed.

(** The rows of dataset [k] among tables. *)
Definition dataset_rows (k : Key) (l : list TableData) : Z :=
  lsum (λ t, if bool_decide ((td_is_dlq t, td_table t) = k) then rows_of t else 0) l.

Lemma sink_batches_dataset k l : observed_rows k (output_batch <$> sink_batches l) = dataset_rows k l.
Proof.
  unfold observed_rows, dataset_rows. induction l as [|t l IH]; [done|]. rewrite lsum_cons, <-IH. unfold sink_batches.
  cbn [omap list_omap]. unfold make_sink_batch at 1. unfold rows_of. case_bool_decide as Ht; [rewrite Ht; case_bool_decide; lia|].
  cbn [fmap list_fmap]. by rewrite lsum_cons.
Qed.

(** What the counter records for a delivery that it accepts. *)
Lemma observe_counted r id l r' :
  observe r id (sink_batches l) = (r', true) → ∀ before, r = Some before →
  ∃ after counts, r' = Some after ∧ pending before !! id = None ∧ pending after = <[id := counts]> (pending before) ∧
    ∀ k, default 0 (counts !! k) = dataset_rows k l.
Proof.
  intros Hob before ->. unfold observe in Hob. set (st := match output with Fixed => before | Evolving => _ end) in Hob.
  assert (pending st = pending before) as Hp by by unfold st; destruct output.
  unfold observe_delivery in Hob. destruct (ensure _ _ ≫= _) as [d|err] eqn:E; cbn in Hob; [|done]. injection Hob as <-.
  res_inv. bool_inv. rewrite Hp in *. exists {| committed := committed st; pending := <[id := d]> (pending before) |}, d.
  split_and!; [done..|]. intros k.
  edestruct (observe_loop st (output_batch <$> sink_batches l) ∅ d) as (_ & _ & Hd);
    [apply Forall_fmap, Forall_forall; intros b _; cbn; lia|by intros ? ? ?%lookup_empty_Some|by rewrite dom_empty_L|exact E|].
  specialize (Hd k). unfold delivered in Hd. rewrite lookup_empty in Hd. cbn in Hd. by rewrite Hd, sink_batches_dataset.
Qed.

(** C23. A delivery carries exactly what its envelope became: when the parser sends a
    delivery for an envelope, it has the envelope's id and meta; its outputs are, in
    order, the tables with rows that came out of the middlewares (for raw messages, the
    parsed tables, followed by the dead-letter table, which no middleware touched), each
    with its content and the memory of its columns; no output is empty and no row is lost.
    When rows are counted, the counter has recorded for this delivery, which it did not
    know before, the rows of every dataset, and nothing else changed in what is pending. *)
Theorem parser_delivery_exact st e ans d :
  sent (handle st e ans) = sent st ++ [SentDelivery d] →
  del_id d = re_id e ∧ del_meta d = re_meta e ∧
  ∃ results, produced st (re_payload e) results ∧
    Forall2 batch_of (filter (λ t, rb_rows (td_batch t) ≠ 0%nat) results) (del_outputs d) ∧
    lsum batch_rows (del_outputs d) = lsum rows_of results ∧
    Forall (λ b, 0 < batch_rows b) (del_outputs d) ∧
    ∀ before, rows st = Some before →
      ∃ after counts, rows (handle st e ans) = Some after ∧ pending before !! re_id e = None ∧
        pending after = <[re_id e := counts]> (pending before) ∧ ∀ k, default 0 (counts !! k) = dataset_rows k results.
Proof.
  unfold handle. destruct (re_payload e) as [ds|msgs|l].
  - unfold handle_dataset. destruct (match rows st with Some _ => _ | None => _ end) as [r ok].
    destruct ok; cbn; [destruct (output_admit _ _ _); [destruct (channel_open ans)|]|]; cbn; intros Hs;
      try (by rewrite <-(app_nil_r (sent st)) in Hs at 1; apply app_inv_head in Hs).
    by apply app_inv_head in Hs.
  - intros (d' & results & [= <-] & ? & ? & Hp & Ho & Hob)%handle_raw_sent. split_and!; [done..|].
    exists results. rewrite Ho in *. pose proof (sink_batches_rows results) as [? ?].
    split_and!; [done|apply sink_batches_of|done|done|by apply observe_counted].
  - intros (d' & results & [= <-] & ? & ? & Hp & Ho & Hob)%handle_typed_sent. split_and!; [done..|].
    exists results. rewrite Ho in *. pose proof (sink_batches_rows results) as [? ?].
    split_and!; [done|apply sink_batches_of|done|done|by apply observe_counted].
Qed.

Definition ended (st : PState) : nat := match outcome st with Some _ => 1 | None => 0 end.

(** What a run of the task has done after [n] envelopes. *)
Record loop_effect (st0 st : PState) (l : list (ReadEnvelope * Answers)) (n : nat) : Prop := {
  le_sent : sent_id <$> sent st = (sent_id <$> sent st0) ++ (re_id ∘ fst <$> firstn n l);
  le_memory : estimate false (memory st) = Some false;
  le_release : releases (memory st) = (releases (memory st0) + n + ended st)%nat;
  le_count : (n + ended st ≤ length l)%nat ∧ (outcome st = None → n = length l);
  le_rows : (is_Some (rows st) ↔ is_Some (rows st0)) ∧ pending_of (rows st0) ⊆ pending_of (rows st) ∧
    (is_Some (rows st) → ∀ id, id ∈ (re_id ∘ fst <$> firstn n l) → is_Some (pending_of (rows st) !! id))
}.

Lemma releases_app l1 l2 : releases (l1 ++ l2) = (releases l1 + releases l2)%nat.
Proof. unfold releases. by rewrite filter_app, length_app. Qed.

Lemma parser_loop_effect st l :
  outcome st = None → estimate false (memory st) = Some false →
  ∃ n, loop_effect st (parser_loop st l) l n.
Proof.
  revert st. induction l as [|[e ans] l IH]; intros st Ho Hm; cbn [parser_loop].
  { exists 0%nat. rewrite Ho. split; unfold ended; rewrite ?Ho; cbn; [by rewrite app_nil_r|done|lia|done|].
    split_and!; [done..|]. intros _ id ?%not_elem_of_nil. done. }
  rewrite Ho. destruct (handle_effect st e ans) as (calls & []).
  assert (estimate false (memory (handle st e ans)) = Some false) as Hm'.
  { rewrite eff_memory0, estimate_app, Hm. done. }
  destruct eff_sent0 as [(Ho' & (x & Hx & Hid) & Hp)|[[o Ho'] Hx]].
  - destruct (IH _ Ho' Hm') as [n []]. exists (S n).
    rewrite eff_memory0, releases_app, eff_release0 in le_release0. split.
    + rewrite le_sent0, Hx, fmap_app, <-app_assoc. cbn. by rewrite Hid.
    + done.
    + lia.
    + cbn. destruct le_count0 as [? Hn]. split; [lia|]. intros ?. by rewrite Hn.
    + destruct le_rows0 as (H1 & H2 & H3). split_and!; [by rewrite H1|by etrans|].
      intros Hs id. cbn. intros [-> |?]%elem_of_cons; [|by apply H3].
      destruct Hp as [v Hv]; [by apply H1|]. exists v. by eapply lookup_weaken.
  - exists 0%nat. replace (parser_loop (handle st e ans) l) with (handle st e ans)
      by (destruct l as [|[]]; cbn; by rewrite Ho').
    split; unfold ended; rewrite ?Ho'; cbn.
    + by rewrite Hx, app_nil_r.
    + done.
    + rewrite eff_memory0, releases_app, eff_release0. lia.
    + split; [lia|done].
    + split_and!; [done..|]. intros _ id ?%not_elem_of_nil. done.
Qed.

(** The parser keeps order, counts and memory: from the start, and for any answers
    of its environment, the ids it has sent are exactly those of the first envelopes in
    channel order, one element each; the task ends by itself only on an envelope it then
    did not send; every envelope's source memory is released once, and the single
    transform estimate is always finished or dropped before the next; and every id sent
    has been recorded by the row counter before. *)
Theorem parser_loop_ordered r l :
  let st := parser_loop (parser_init r) l in
  ∃ n, (n ≤ length l)%nat ∧ (outcome st = None → n = length l) ∧ (is_Some (outcome st) → (n < length l)%nat) ∧
    sent_id <$> sent st = re_id ∘ fst <$> firstn n l ∧
    estimate false (memory st) = Some false ∧
    releases (memory st) = (n + ended st)%nat ∧
    (is_Some r → ∀ x, x ∈ sent st → is_Some (pending_of (rows st) !! sent_id x)).
Proof.
  cbn. destruct (parser_loop_effect (parser_init r) l eq_refl eq_refl) as (n & []).
  destruct le_count0 as [Hn Hall], le_rows0 as (H1 & _ & H3). exists n.
  split_and!; try done; [lia| |].
  - intros [o Ho]. unfold ended in Hn. rewrite Ho in Hn. lia.
  - intros Hr x Hx. apply H3; [by apply H1|]. cbn in le_sent0. rewrite <-le_sent0.
    by apply list_elem_of_fmap_2.
Qed.
End parser.

(** ** A run: one raw envelope with a table and a dead-letter table, one announced dataset *)
Section example.
#[local] Existing Instance example_arrow.
#[local] Existing Instance example_values.

Definition example_table (dlq : bool) : TableData :=
  {| td_namespace := None; td_table := "users"; td_is_dlq := dlq; td_schema := example_schema;
     td_batch := sb_batch example_batch; td_system_columns := sb_system_columns example_batch |}.

#[local] Instance example_sessions : ParserSessions :=
  {| Session := nat; create_session := λ _, 0%nat; output_memory_bound := λ _ msgs, Z.of_nat (length msgs);
     parse_into := λ n msgs, (S n, Ok ([example_table false], Some (example_table true))) |}.

(** A middleware that renames the table. *)
Definition example_middleware (t : TableData) : result AnyhowError TableData :=
  Ok {| td_namespace := td_namespace t; td_table := "renamed"; td_is_dlq := td_is_dlq t;
        td_schema := td_schema t; td_batch := td_batch t; td_system_columns := td_system_columns t |}.

Definition example_envelope (n : Z) (p : ReadPayload) : ReadEnvelope :=
  {| re_id := DeliveryId.new n; re_payload := p; re_memory := []; re_meta := {| meta_source_messages := 1 |} |}.
Definition example_answers : Answers :=
  {| admitted := true; estimated := true; parsed := true; channel_open := true |}.

Definition example_counter : OutputRowCountState :=
  {| committed := {[ (false, "users") := 0; (true, "users") := 0 ]}; pending := ∅ |}.
Definition example_handled : PState :=
  handle (λ _, 8) 1000 [example_middleware] Evolving (parser_init (Some example_counter))
    (example_envelope 1 (PRaw [Message_new [104; 105]])) example_answers.
Definition example_outputs : list SinkBatch := sink_batches (λ _, 8)
  [default (example_table false) (match example_middleware (example_table false) with Ok t => Some t | Err _ => None end);
   example_table true].

(** The table is renamed, the dead-letter table is not, and both are counted. *)
Lemma parser_delivery_exact_witness :
  ∃ d, sent example_handled = [SentDelivery d] ∧ del_id d = 1 ∧ sb_table <$> del_outputs d = ["renamed"; "users"] ∧
    Forall (λ b, 0 < batch_rows b) (del_outputs d) ∧ ∃ after, rows example_handled = Some after ∧ is_Some (pending after !! 1).
Proof.
  exists {| del_id := 1; del_outputs := example_outputs; del_meta := {| meta_source_messages := 1 |} |}.
  assert (sent example_handled = sent (parser_init None) ++
    [SentDelivery {| del_id := 1; del_outputs := example_outputs; del_meta := {| meta_source_messages := 1 |} |}])
    as Hs by reflexivity.
  split; [exact Hs|]. split; [reflexivity|]. split; [reflexivity|].
  destruct (parser_delivery_exact (λ _, 8) 1000 [example_middleware] Evolving (parser_init (Some example_counter))
    (example_envelope 1 (PRaw [Message_new [104; 105]])) example_answers _ Hs) as (_ & _ & results & _ & _ & _ & H & Hc).
  split; [exact H|]. destruct (Hc example_counter eq_refl) as (after & counts & Ha & _ & Hp & _).
  exists after. split; [exact Ha|]. rewrite Hp, lookup_insert_eq. by eexists.
Defined.

Lemma parser_loop_ordered_witness :
  let l := [(example_envelope 1 (PRaw [Message_new [104; 105]]), example_answers);
            (example_envelope 2 (PDataset example_dataset), example_answers)] in
  let st := parser_loop (λ _, 8) 1000 [example_middleware] Evolving (parser_init None) l in
  sent_id <$> sent st = [1; 2] ∧ estimate false (memory st) = Some false.
Proof.
  split; [reflexivity|].
  destruct (parser_loop_ordered (λ _, 8) 1000 [example_middleware] Evolving None
    [(example_envelope 1 (PRaw [Message_new [104; 105]]), example_answers);
     (example_envelope 2 (PDataset example_dataset), example_answers)]) as (n & _ & _ & _ & _ & H & _).
  exact H.
Defined.
End example.
