(* ===== verification/Retry.v ===== *)
(** * Retry delays

    [transferia-delivery-contracts/src/retry.rs]: the process-independent seed and the
    deterministic jitter the sinks apply to their retry delays.

    A [Duration] is its number of nanoseconds, between 0 and [duration_max]; the 64-bit
    arithmetic wraps as in the source. *)

From stdpp Require Import base tactics numbers option list.
From S2P Require Import Prelude.
Local Open Scope Z_scope.

Definition FNV_OFFSET_BASIS : Z := 14695981039346656037.
Definition FNV_PRIME : Z := 1099511628211.
Definition RETRY_MIX : Z := 0x9e3779b97f4a7c15.
Definition MIN_JITTER_PERCENT : Z := 80.
Definition JITTER_PERCENT_COUNT : Z := 21.

(** [Duration]: seconds in a [u64] and fewer than 10^9 nanoseconds. *)
Definition nanos_per_sec : Z := 1000000000.
Definition u128_max : Z := 2 ^ 128 - 1.
Definition duration_max : Z := u64_max * nanos_per_sec + 999999999.
Definition from_millis (ms : Z) : Z := ms * 1000000.
(** [Duration::saturating_mul] *)
Definition duration_mul (d k : Z) : Z := saturating_mul duration_max d k.

(** [u64::wrapping_mul], [u64::wrapping_add] and [u64::rotate_left]. *)
Definition mul64 (a b : Z) : Z := wrapping_mul u64_max a b.
Definition add64 (a b : Z) : Z := wrapping_add u64_max a b.
Definition rotate_left (a n : Z) : Z :=
  Z.lor (Z.land (Z.shiftl a n) u64_max) (Z.shiftr a (64 - n)).

Definition stable_retry_seed (value : list Z) : Z :=
  foldl (λ state byte, mul64 (Z.lxor state byte) FNV_PRIME) FNV_OFFSET_BASIS value.

(** The mixing steps of [jittered_retry_delay]. *)
Definition retry_mix (attempt seed : Z) : Z :=
  let mixed := add64 (add64 seed (mul64 attempt RETRY_MIX)) RETRY_MIX in
  let mixed := mul64 (Z.lxor mixed (Z.shiftr mixed 30)) 0xbf58476d1ce4e5b9 in
  let mixed := mul64 (Z.lxor mixed (Z.shiftr mixed 27)) 0x94d049bb133111eb in
  Z.lxor mixed (Z.shiftr mixed 31).

Definition jittered_retry_delay (delay attempt seed : Z) : Z :=
  let jitter_percent := MIN_JITTER_PERCENT + retry_mix attempt seed `mod` JITTER_PERCENT_COUNT in
  let nanos := saturating_mul u128_max delay jitter_percent / 100 in
  if bool_decide (duration_max ≤ nanos) then duration_max
  else
    let secs := nanos / nanos_per_sec in
    let sub := nanos `mod` nanos_per_sec in
    (if bool_decide (secs ≤ u64_max) then secs else u64_max) * nanos_per_sec
      + (if bool_decide (sub ≤ u32_max) then sub else 999999999).

Lemma mul64_range a b : 0 ≤ mul64 a b ≤ u64_max.
Proof.
  unfold mul64, wrapping_mul. pose proof (Z.mod_pos_bound (a * b) (u64_max + 1) eq_refl). lia.
Qed.

(** Seeds are 64-bit words. *)
Lemma stable_retry_seed_range value : 0 ≤ stable_retry_seed value ≤ u64_max.
Proof.
  unfold stable_retry_seed. induction value as [|b value IH] using rev_ind; [vm_compute; split; discriminate|].
  rewrite foldl_app. cbn. apply mul64_range.
Qed.

(** The jitter takes the delay down by at most a fifth and never up. *)
Lemma jittered_bounds delay attempt seed :
  0 ≤ delay ≤ duration_max →
  delay * 80 / 100 ≤ jittered_retry_delay delay attempt seed ≤ delay.
Proof.
  intros Hd. unfold jittered_retry_delay, MIN_JITTER_PERCENT, JITTER_PERCENT_COUNT, saturating_mul.
  generalize (retry_mix attempt seed) as m. intros m.
  assert (0 ≤ m `mod` 21 < 21) as Hm by (apply Z.mod_pos_bound; lia).
  generalize dependent (m `mod` 21). intros j Hj.
  assert (delay * (80 + j) ≤ u128_max) as Hu by (unfold duration_max, u64_max, nanos_per_sec, u128_max in *; nia).
  rewrite Z.min_l by done.
  assert (delay * 80 / 100 ≤ delay * (80 + j) / 100) as Hlo by (apply Z.div_le_mono; nia).
  assert (delay * (80 + j) / 100 ≤ delay) as Hhi by (apply Z.div_le_upper_bound; nia).
  assert (0 ≤ delay * (80 + j) / 100) as H0 by (apply Z.div_pos; nia).
  generalize dependent (delay * (80 + j) / 100). intros n Hlo Hhi H0.
  case_bool_decide; [lia|].
  assert (n / nanos_per_sec ≤ u64_max) by (apply Z.lt_succ_r, Z.div_lt_upper_bound; unfold duration_max, nanos_per_sec in *; lia).
  assert (0 ≤ n `mod` nanos_per_sec < nanos_per_sec) by (apply Z.mod_pos_bound; unfold nanos_per_sec; lia).
  rewrite !bool_decide_eq_true_2 by (unfold u32_max, nanos_per_sec in *; lia).
  pose proof (Z.div_mod n nanos_per_sec ltac:(done)). lia.
Qed.
