(* ===== verification/OpenSearchBulk.v ===== *)
(** * Bulk requests of the OpenSearch sink

    [sink/bulk.rs] and [sink/config.rs] of [transferia-connector-opensearch]: one bulk
    request is sent again for the operations the service asks to retry, with a growing
    jittered delay, at most [retry_max_attempts] times.

    The service and the clock are the environment: [Attempt] is what happens to one
    attempt.  [write_bulk_with_retry] records the requests it made. *)

From stdpp Require Import base tactics numbers option strings sorting list.
From S2P Require Import Prelude Bytes Failure Retry.
Local Open Scope Z_scope.

Inductive RoutedIdentity := FailOnRouting | EncodeIdentity.

Record OpenSearchSinkConfig := {
  create_indices : bool;
  routed_identity : RoutedIdentity;
  bulk_target_rows : Z;      (* usize *)
  bulk_target_bytes : Z;     (* usize *)
  bulk_concurrency : Z;      (* usize *)
  flush_interval_ms : Z;     (* u64 *)
  retry_initial_ms : Z;      (* u64 *)
  retry_max_ms : Z;          (* u64 *)
  retry_max_attempts : Z     (* u32 *)
}.

Inductive ConfigError :=
| ConnectionInvalid
| TargetRowsZero | TargetBytesZero | ConcurrencyRange | FlushIntervalZero
| RetryInitialZero | RetryMaxBelowInitial | RetryAttemptsZero.

(** [OpenSearchSinkConfig::validate]; [connection] is the outcome of validating the
    connection part. *)
Definition validate (connection : result ConfigError unit) (c : OpenSearchSinkConfig) : result ConfigError unit :=
  connection ≫= λ _,
  ensure (bool_decide (0 < bulk_target_rows c)) TargetRowsZero ≫= λ _,
  ensure (bool_decide (0 < bulk_target_bytes c)) TargetBytesZero ≫= λ _,
  ensure (bool_decide (1 ≤ bulk_concurrency c ≤ 32)) ConcurrencyRange ≫= λ _,
  ensure (bool_decide (0 < flush_interval_ms c)) FlushIntervalZero ≫= λ _,
  ensure (bool_decide (0 < retry_initial_ms c)) RetryInitialZero ≫= λ _,
  ensure (bool_decide (retry_initial_ms c ≤ retry_max_ms c)) RetryMaxBelowInitial ≫= λ _,
  ensure (bool_decide (0 < retry_max_attempts c)) RetryAttemptsZero.

Record BulkAction := { ba_id : string; ndjson : list Z; ba_bytes : Z }.
#[export] Instance BulkAction_eq_dec : EqDecision BulkAction.
Proof. solve_decision. Defined.

Inductive BulkFailure := BulkRetryable (cause : nat) | BulkFatal (cause : nat).

(** [parse_bulk_response], on the items of the answer: an item with exactly one
    [index] operation and a status that fits a [u16], or not. *)
Inductive ResponseItem := NotAnObject | NotOneIndex | IndexItem (status : option Z).
Definition E_ITEM : nat := 31.
Definition E_STATUS : nat := 32.
Definition E_RESPONSE : nat := 33.
Definition item_status (i : ResponseItem) : result BulkFailure Z :=
  match i with
  | NotAnObject | NotOneIndex => Err (BulkFatal E_ITEM)
  | IndexItem o =>
      ok_or (o ≫= λ s, if bool_decide (0 ≤ s ≤ 65535) then Some s else None) (BulkFatal E_STATUS)
  end.
Definition parse_bulk_response (items : option (list ResponseItem)) : result BulkFailure (list Z) :=
  ok_or items (BulkFatal E_RESPONSE) ≫= λ items, mapM item_status items.

Definition is_retryable_status (s : Z) : bool :=
  bool_decide (s ∈ [408; 425; 429; 500; 502; 503; 504]).
Definition is_success_status (s : Z) : bool := bool_decide (200 ≤ s < 300).

Definition payload (actions : list BulkAction) : list Z := mjoin (ndjson <$> actions).

Definition retry_seed (partition_id : Z) (index : list Z) (ordinal : Z) : Z :=
  Z.lxor (Z.lxor (stable_retry_seed (le_bytes 8 partition_id))
                 (rotate_left (stable_retry_seed index) 17))
         (rotate_left (stable_retry_seed (le_bytes 8 ordinal)) 33).

Definition E_CANCELLED : nat := 34.
Definition E_COUNT : nat := 35.
Definition E_REJECTED : nat := 36.
Definition E_EXHAUSTED : nat := 37.

(** What happens to one attempt: cancelled while sending ([None]) or answered; and
    whether the sleep before the next attempt ends before cancellation. *)
Record Attempt := { reply : option (result BulkFailure (list Z)); slept : bool }.

(** A request and its answer, and the delay before the next one when there was one. *)
Record Request := { rq_actions : list BulkAction; rq_reply : option (result BulkFailure (list Z));
                    rq_delay : option Z }.

(** The loop over the zipped answer: the actions to retry, or the first rejection. *)
Fixpoint to_retry (l : list (BulkAction * Z)) : result DataPlaneFailure (list BulkAction) :=
  match l with
  | [] => Ok []
  | (action, status) :: l =>
      if is_success_status status then to_retry l
      else if is_retryable_status status then to_retry l ≫= λ r, Ok (action :: r)
      else Err (Failure.fatal E_REJECTED)
  end.

(** The answer to one request: finished, failed, or actions left to send. *)
Definition handle_reply (c : OpenSearchSinkConfig) (attempts : Z) (pending : list BulkAction)
    (r : result BulkFailure (list Z)) : result DataPlaneFailure (list BulkAction) :=
  match r with
  | Ok statuses =>
      if negb (bool_decide (length statuses = length pending)) then Err (Failure.fatal E_COUNT)
      else to_retry (zip pending statuses)
  | Err (BulkFatal e) => Err (Failure.fatal e)
  | Err (BulkRetryable e) =>
      if bool_decide (retry_max_attempts c ≤ attempts) then Err (Failure.retryable e) else Ok pending
  end.

(** The loop; [None] only when [fuel] ends first. *)
Fixpoint write_loop (c : OpenSearchSinkConfig) (seed : Z) (env : Z → Attempt) (fuel : nat)
    (attempts backoff : Z) (pending : list BulkAction) (log : list Request)
    : option (list Request * result DataPlaneFailure unit) :=
  match fuel with
  | O => None
  | S fuel =>
      let attempts := saturating_add u32_max attempts 1 in
      let note delay := log ++ [{| rq_actions := pending; rq_reply := reply (env attempts); rq_delay := delay |}] in
      match reply (env attempts) with
      | None => Some (note None, Err (Failure.retryable E_CANCELLED))
      | Some r =>
          match handle_reply c attempts pending r with
          | Err f => Some (note None, Err f)
          | Ok retry =>
              if is_ok r && bool_decide (retry = []) then Some (note None, Ok tt)
              else if bool_decide (retry_max_attempts c ≤ attempts) then
                Some (note None, Err (Failure.retryable E_EXHAUSTED))
              else
                let delay := jittered_retry_delay backoff (saturating_sub attempts 1) seed in
                if slept (env attempts) then
                  write_loop c seed env fuel attempts
                    (Z.min (duration_mul backoff 2) (from_millis (retry_max_ms c)))
                    retry (note (Some delay))
                else Some (note (Some delay), Err (Failure.retryable E_CANCELLED))
          end
      end
  end.

(** [retry_max_attempts] turns are enough. *)
Definition write_bulk_with_retry (c : OpenSearchSinkConfig) (env : Z → Attempt) (actions : list BulkAction) (seed : Z)
    : option (list Request * result DataPlaneFailure (Z * Z)) :=
  let total_rows := Z.of_nat (length actions) in
  let total_bytes := foldl (wrapping_add usize_max) 0 (ba_bytes <$> actions) in
  match write_loop c seed env (Z.to_nat (retry_max_attempts c)) 0 (from_millis (retry_initial_ms c)) actions [] with
  | None => None
  | Some (log, r) => Some (log, match r with Ok _ => Ok (total_rows, total_bytes) | Err f => Err f end)
  end.

Lemma validate_ok c : validate (Ok tt) c = Ok tt →
  0 < bulk_target_rows c ∧ 0 < bulk_target_bytes c ∧ 1 ≤ bulk_concurrency c ≤ 32 ∧ 0 < flush_interval_ms c ∧
  0 < retry_initial_ms c ∧ retry_initial_ms c ≤ retry_max_ms c ∧ 0 < retry_max_attempts c.
Proof. unfold validate, ensure. cbn. repeat (case_bool_decide; cbn; try done). Qed.

(** ** What a run of requests did *)

(** The actions a request got acknowledged. *)
Definition acknowledged (q : Request) : list BulkAction :=
  match rq_reply q with
  | Some (Ok statuses) => (filter (λ p, is_success_status p.2 = true) (zip (rq_actions q) statuses)).*1
  | _ => []
  end.

(** The service refused a request for good. *)
Definition refused (q : Request) : Prop :=
  match rq_reply q with
  | Some (Ok statuses) =>
      length statuses ≠ length (rq_actions q) ∨
      Exists (λ s, is_success_status s = false ∧ is_retryable_status s = false) statuses
  | Some (Err (BulkFatal _)) => True
  | _ => False
  end.

Lemma to_retry_spec l :
  match to_retry l with
  | Ok r => (filter (λ p, is_success_status p.2 = true) l).*1 ++ r ≡ₚ l.*1 ∧
      Forall (λ p, is_success_status p.2 = true ∨ is_retryable_status p.2 = true) l
  | Err f => f = Failure.fatal E_REJECTED ∧
      Exists (λ p, is_success_status p.2 = false ∧ is_retryable_status p.2 = false) l
  end.
Proof.
  induction l as [|[a s] l IH]; [by split; [|constructor]|]. cbn [to_retry].
  destruct (is_success_status s) eqn:Es.
  - rewrite filter_cons_True by done. cbn [fmap list_fmap fst].
    destruct (to_retry l) as [r|f]; destruct IH as [IH1 IH2];
      (split; [cbn; try rewrite IH1; done|by constructor; auto]).
  - rewrite filter_cons_False by (cbn; congruence).
    destruct (is_retryable_status s) eqn:Er; [|split; [done|by left]].
    destruct (to_retry l) as [r|f]; destruct IH as [IH1 IH2]; cbn.
    + split; [|by constructor; auto]. by rewrite <-Permutation_middle, IH1.
    + split; [done|by right].
Qed.

(** What the code concludes from one answer. *)
Lemma handle_reply_spec c attempts pending r delay :
  let q := {| rq_actions := pending; rq_reply := Some r; rq_delay := delay |} in
  match handle_reply c attempts pending r with
  | Ok retry => acknowledged q ++ retry ≡ₚ pending ∧ ¬ refused q
  | Err f => disposition f = Fatal ↔ refused q
  end.
Proof.
  cbn zeta. unfold handle_reply, refused, acknowledged; cbn. destruct r as [sts|[e|e]]; [|case_bool_decide; cbn..|done].
  - case_bool_decide as Hl; cbn; [|split; [by left|done]].
    pose proof (to_retry_spec (zip pending sts)) as Hs.
    assert ((zip pending sts).*1 = pending ∧ (zip pending sts).*2 = sts) as [E1 E2].
    { by rewrite fst_zip, snd_zip by lia. }
    destruct (to_retry _) as [r|f]; destruct Hs as [H1 H2].
    + split; [by rewrite H1, E1|]. intros [?|Hex]; [done|]. apply Exists_exists in Hex as (s & Hin & Hs1 & Hs2).
      rewrite <-E2 in Hin. apply list_elem_of_fmap in Hin as (p & -> & Hp).
      rewrite Forall_forall in H2. destruct (H2 p Hp); congruence.
    + subst f. split; [|done]. intros _. right. rewrite <-E2. by apply Exists_fmap.
  - by split.
  - by split; [|intros []].
Qed.

(** The run so far: what was acknowledged and what is pending make up the request;
    every request sent exactly what was not acknowledged before it. *)
Definition sound (actions : list BulkAction) (log : list Request) (pending : list BulkAction) : Prop :=
  mjoin (acknowledged <$> log) ++ pending ≡ₚ actions ∧
  ∀ i q, log !! i = Some q → mjoin (acknowledged <$> firstn i log) ++ rq_actions q ≡ₚ actions.

Lemma sound_snoc actions log q rest :
  sound actions log (rq_actions q) → acknowledged q ++ rest ≡ₚ rq_actions q → sound actions (log ++ [q]) rest.
Proof.
  intros [Hp Hh] Hq. split.
  - rewrite fmap_app, join_app. cbn. rewrite app_nil_r, <-app_assoc, Hq. done.
  - intros i q' [Hi|[Hi Hq']]%lookup_app_Some.
    + rewrite take_app_le by (apply lookup_lt_Some in Hi; lia). by apply Hh.
    + apply list_lookup_singleton_Some in Hq' as [Hi' <-].
      assert (i = length log) as -> by lia. by rewrite take_app_length.
Qed.

Lemma sound_last actions log q :
  sound actions log (rq_actions q) →
  ∀ i q', (log ++ [q]) !! i = Some q' → mjoin (acknowledged <$> firstn i (log ++ [q])) ++ rq_actions q' ≡ₚ actions.
Proof.
  intros [Hp Hh] i q' [Hi|[Hi Hq']]%lookup_app_Some.
  - rewrite take_app_le by (apply lookup_lt_Some in Hi; lia). by apply Hh.
  - apply list_lookup_singleton_Some in Hq' as [Hi' <-].
    assert (i = length log) as -> by lia. by rewrite take_app_length.
Qed.

(** The delays of a run. *)
Definition delays_ok (c : OpenSearchSinkConfig) (log : list Request) : Prop :=
  Forall (λ q, ∀ d, rq_delay q = Some d →
    from_millis (retry_initial_ms c) * 80 / 100 ≤ d ≤ from_millis (retry_max_ms c)) log.

Record written (c : OpenSearchSinkConfig) (actions : list BulkAction) (log : list Request)
    (r : result DataPlaneFailure unit) : Prop := {
  w_requests : 1 ≤ Z.of_nat (length log) ≤ retry_max_attempts c;
  w_sent : ∀ i q, log !! i = Some q → mjoin (acknowledged <$> firstn i log) ++ rq_actions q ≡ₚ actions;
  w_complete : r = Ok tt → mjoin (acknowledged <$> log) ≡ₚ actions;
  w_delays : delays_ok c log;
  w_fatal : (∃ f, r = Err f ∧ disposition f = Fatal) ↔ ∃ q, last log = Some q ∧ refused q
}.

Section write.
Context (c : OpenSearchSinkConfig) (seed : Z) (env : Z → Attempt) (actions : list BulkAction).
Hypothesis Hattempts : 0 < retry_max_attempts c ≤ u32_max.
Hypothesis Hbackoff : 0 ≤ retry_initial_ms c ≤ retry_max_ms c ∧ retry_max_ms c ≤ u64_max.

Lemma next_backoff_ok b :
  from_millis (retry_initial_ms c) ≤ b ≤ from_millis (retry_max_ms c) →
  from_millis (retry_initial_ms c) ≤ Z.min (duration_mul b 2) (from_millis (retry_max_ms c))
    ≤ from_millis (retry_max_ms c).
Proof.
  unfold duration_mul, saturating_mul, from_millis, duration_max, nanos_per_sec, u64_max in *. lia.
Qed.

(** An attempt that ends the run. *)
Lemma written_end log pending rep r delay :
  let q := {| rq_actions := pending; rq_reply := rep; rq_delay := delay |} in
  Z.of_nat (length log) < retry_max_attempts c →
  sound actions log pending → delays_ok c log →
  (∀ d, delay = Some d → from_millis (retry_initial_ms c) * 80 / 100 ≤ d ≤ from_millis (retry_max_ms c)) →
  (r = Ok tt → acknowledged q ++ [] ≡ₚ pending) →
  ((∃ f, r = Err f ∧ disposition f = Fatal) ↔ refused q) →
  written c actions (log ++ [q]) r.
Proof.
  intros q Hn Hs Hd Hdelay Hok Hf. split.
  - rewrite length_app. cbn. lia.
  - by apply sound_last.
  - intros Hr. destruct (sound_snoc actions log q [] Hs (Hok Hr)) as [Hp _]. by rewrite app_nil_r in Hp.
  - by apply Forall_app; split; [|constructor; [|constructor]].
  - rewrite Hf, last_snoc. split; [by eexists|by intros (? & [= <-] & ?)].
Qed.

Lemma write_loop_spec fuel attempts backoff pending log :
  attempts = Z.of_nat (length log) → attempts + Z.of_nat fuel = retry_max_attempts c → (0 < fuel)%nat →
  from_millis (retry_initial_ms c) ≤ backoff ≤ from_millis (retry_max_ms c) →
  sound actions log pending → delays_ok c log →
  ∃ log' r, write_loop c seed env fuel attempts backoff pending log = Some (log', r) ∧ written c actions log' r.
Proof.
  revert attempts backoff pending log.
  induction fuel as [|fuel IH]; intros attempts backoff pending log Hn Hfuel Hpos Hb Hs Hd; [lia|].
  cbn [write_loop]. unfold saturating_add. rewrite Z.min_l by lia. set (a := attempts + 1).
  destruct (reply (env a)) as [rep|] eqn:Erep.
  2:{ eexists _, _. split; [done|]. apply written_end; [lia|done..|]. by split; [intros (? & [= <-] & ?)|]. }
  assert (∀ s, from_millis (retry_initial_ms c) * 80 / 100 ≤ jittered_retry_delay backoff s seed
    ≤ from_millis (retry_max_ms c)) as Hdelay.
  { intros s. destruct (jittered_bounds backoff s seed) as [H1 H2].
    { unfold from_millis, duration_max, nanos_per_sec, u64_max in *. lia. }
    pose proof (Z.div_le_mono (from_millis (retry_initial_ms c) * 80) (backoff * 80) 100). lia. }
  pose proof (λ delay, handle_reply_spec c a pending rep delay) as Hrep. cbn zeta in Hrep.
  destruct (handle_reply c a pending rep) as [retry|f] eqn:Er.
  2:{ eexists _, _. split; [done|]. apply written_end; [lia|done..|].
      rewrite <-Hrep. split; [by intros (? & [= <-] & ?)|intros ?; by exists f]. }
  destruct (is_ok rep && bool_decide (retry = [])) eqn:Eok.
  { apply andb_true_iff in Eok as [_ ->%bool_decide_eq_true].
    eexists _, _. split; [done|]. destruct (Hrep None). apply written_end; [lia|done..|].
    by split; [intros (? & ? & ?)|]. }
  clear Eok. case_bool_decide as Hmax.
  { eexists _, _. split; [done|]. destruct (Hrep None). apply written_end; [lia|done..|].
    by split; [intros (? & [= <-] & ?)|]. }
  destruct (slept (env a)).
  2:{ eexists _, _. split; [done|]. destruct (Hrep (Some (jittered_retry_delay backoff (saturating_sub a 1) seed))).
      apply written_end; [lia|done|done|by intros ? [= <-]|done|]. by split; [intros (? & [= <-] & ?)|]. }
  destruct (Hrep (Some (jittered_retry_delay backoff (saturating_sub a 1) seed))).
  apply IH; [rewrite length_app; cbn; lia|lia|lia|by apply next_backoff_ok|by apply sound_snoc|].
  apply Forall_app; split; [done|]. constructor; [by intros ? [= <-]|constructor].
Qed.

Lemma bulk_written :
  ∃ log r, write_bulk_with_retry c env actions seed = Some (log, r) ∧
    written c actions log (match r with Ok _ => Ok tt | Err f => Err f end) ∧
    ∀ p, r = Ok p → p.1 = Z.of_nat (length actions).
Proof.
  unfold write_bulk_with_retry.
  destruct (write_loop_spec (Z.to_nat (retry_max_attempts c)) 0 (from_millis (retry_initial_ms c)) actions [])
    as (log & r & -> & Hw); [done|lia|lia|unfold from_millis; lia|by split|constructor|].
  eexists log, _. split; [done|]. destruct r as [[]|f]; split; [done|by intros ? [= <-]|done|done].
Qed.
End write.

(** A bulk write always ends, within [retry_max_attempts] requests.  Every request
    carries exactly the actions that no earlier answer acknowledged.  It reports success
    only when each action has been acknowledged exactly once; it fails for good exactly
    when the last answer refuses the request (a count that differs, a status that is
    neither success nor retryable, a fatal transport failure); and every delay lies
    between four fifths of the initial and the maximal backoff. *)
Theorem bulk_write_acknowledged c seed env actions :
  0 < retry_max_attempts c ≤ u32_max →
  0 ≤ retry_initial_ms c ≤ retry_max_ms c ∧ retry_max_ms c ≤ u64_max →
  ∃ log r, write_bulk_with_retry c env actions seed = Some (log, r) ∧
    1 ≤ Z.of_nat (length log) ≤ retry_max_attempts c ∧
    (∀ i q, log !! i = Some q → mjoin (acknowledged <$> firstn i log) ++ rq_actions q ≡ₚ actions) ∧
    (∀ p, r = Ok p → mjoin (acknowledged <$> log) ≡ₚ actions ∧ p.1 = Z.of_nat (length actions)) ∧
    ((∃ f, r = Err f ∧ disposition f = Fatal) ↔ ∃ q, last log = Some q ∧ refused q) ∧
    (∀ q d, q ∈ log → rq_delay q = Some d →
       from_millis (retry_initial_ms c) * 80 / 100 ≤ d ≤ from_millis (retry_max_ms c)).
Proof.
  intros Ha Hb. destruct (bulk_written c seed env actions Ha Hb) as (log & r & Hr & Hw & Hok).
  exists log, r. destruct Hw as [Hn Hs Hc Hd Hf].
  split; [exact Hr|]. split; [exact Hn|]. split; [exact Hs|]. split_and!.
  - intros p ->. split; [by apply Hc|by apply Hok].
  - rewrite <-Hf. destruct r as [?|e]; [by split; intros (? & ? & ?)|].
    by split; intros (? & [= <-] & ?); exists e.
  - intros q d Hq. unfold delays_ok in Hd. rewrite Forall_forall in Hd. by apply Hd.
Qed.

Definition example_config : OpenSearchSinkConfig := {|
  create_indices := true; routed_identity := FailOnRouting; bulk_target_rows := 4; bulk_target_bytes := 64;
  bulk_concurrency := 2; flush_interval_ms := 250; retry_initial_ms := 100; retry_max_ms := 10000;
  retry_max_attempts := 3 |}.
Definition example_action (id : string) : BulkAction := {| ba_id := id; ndjson := [123; 125; 10]; ba_bytes := 3 |}.
(** The second action is refused for now, then taken. *)
Definition example_env (n : Z) : Attempt :=
  {| reply := Some (Ok (if bool_decide (n = 1) then [200; 429] else [201])); slept := true |}.

Lemma bulk_write_acknowledged_witness :
  ∃ log, write_bulk_with_retry example_config example_env [example_action "a"; example_action "b"] 7
      = Some (log, Ok (2, 6)) ∧
    length log = 2%nat ∧ mjoin (acknowledged <$> log) ≡ₚ [example_action "a"; example_action "b"].
Proof.
  destruct (bulk_write_acknowledged example_config 7 example_env [example_action "a"; example_action "b"])
    as (log & r & Hr & _ & _ & Hok & _).
  - vm_compute. by split.
  - vm_compute. by repeat split.
  - assert (write_bulk_with_retry example_config example_env [example_action "a"; example_action "b"] 7
      = Some (log, Ok (2, 6)) ∧ r = Ok (2, 6) ∧ length log = 2%nat) as (E & -> & El).
    { revert Hr. vm_compute. by intros [= <- <-]. }
    exists log. destruct (Hok _ eq_refl). by split_and!.
Defined.
