(* ===== verification/Pipeline.v ===== *)
(** * The components together

    What the reader, the parser, the admission task and a sink's delivery tracker
    guarantee when [run_partition_pipeline_with_progress_and_row_counts] of
    [transferia-pipeline/src/lib.rs] connects them: the reader numbers deliveries, the
    parser keeps the numbers, the tracker expects them without a gap, its reports are the
    events that let the reader commit offsets.

    The links between the tasks are hypotheses of the theorems: the parser reads the
    reader's envelopes, and an event the reader receives is a report of the tracker. *)

From stdpp Require Import base tactics numbers option strings gmap relations list.
From S2P Require Import Prelude DeliveryId DeliveryTracker RowCount Schema Arrow Delivery Failure Reader Admission Parser.
Local Open Scope Z_scope.

(** The numbers the reader gives are those the tracker expects. *)
Lemma accepts_consecutive cs t n :
  next_received t = id_at n →
  (∃ k, accept_ids cs = id_at <$> seq n k) →
  accepts_all t cs = true ∧ next_received (calls t cs) = id_at (n + length (accept_ids cs)).
Proof.
  revert t n. induction cs as [|c cs IH]; intros t n Ht [k Hk].
  { cbn. split; [done|]. by rewrite Nat.add_0_r. }
  change (calls t (c :: cs)) with (calls (call_step t c).1 cs). cbn [accepts_all].
  pose proof (call_step_received t c) as Hr.
  destruct c as [id rem msgs|id units|]; cbn [accept_ids omap list_omap] in *.
  - destruct k as [|k]; [done|]. cbn [seq fmap list_fmap] in Hk. injection Hk as Hid Hk.
    assert (is_ok (accept t id rem msgs).2 = true) as Hok.
    { unfold accept. rewrite bool_decide_eq_true_2 by congruence. done. }
    rewrite Hok in *. rewrite Ht, id_at_S in Hr.
    destruct (IH _ (S n) Hr) as [-> Hnext]; [by exists k|]. split; [done|].
    rewrite Hnext. change (omap _ cs) with (accept_ids cs). f_equal. cbn [length]. lia.
  - rewrite Ht in Hr. by destruct (IH _ n Hr) as [-> Hnext]; [by exists k|].
  - rewrite Ht in Hr. by destruct (IH _ n Hr) as [-> Hnext]; [by exists k|].
Qed.

Section pipeline.
Context `{PS : ParserSessions}.
Context {Marker : Type} (array_memory_size : Array → Z) (memory_limit : Z).
Context (middlewares : list (TableData → result AnyhowError TableData)).

Implicit Types s : @Reader.State _ _ Marker.

(** The parser's run on what the reader sent. *)
Definition parse_sent (output : DeliveryOutput) (r : option OutputRowCountState) s (answers : list Answers) : PState :=
  parser_loop array_memory_size memory_limit middlewares output (parser_init r) (zip (Reader.sent s) answers).

Lemma reader_ids s i env :
  Reader.reachable array_memory_size s → Reader.sent s !! i = Some env → re_id env = id_at i.
Proof.
  intros (pre & tail & _ & _ & HI)%reachable_Inv Henv.
  destruct (inv_envelopes _ s pre HI i env) as (_ & _ & _ & _ & _ & ->); [by apply lookup_app_l_Some|done].
Qed.

Lemma parse_sent_ids output r s answers :
  Reader.reachable array_memory_size s →
  sent_id <$> sent (parse_sent output r s answers) = id_at <$> seq 0 (length (sent (parse_sent output r s answers))).
Proof.
  intros Hs. unfold parse_sent.
  destruct (parser_loop_effect array_memory_size memory_limit middlewares output (parser_init r)
    (zip (Reader.sent s) answers) eq_refl eq_refl) as (n & [le_sent0 _ _ _ _]).
  cbn in le_sent0.
  pose proof (f_equal length le_sent0) as Hlen. rewrite !length_fmap in Hlen.
  rewrite le_sent0. apply list_eq. intros i. rewrite !list_lookup_fmap.
  destruct (firstn n (zip (Reader.sent s) answers) !! i) as [[env ans]|] eqn:Ei.
  - pose proof (lookup_lt_Some _ _ _ Ei) as Hi. rewrite lookup_seq_lt by lia. cbn.
    apply lookup_take_Some in Ei as [Ei _]. apply lookup_zip_with_Some in Ei as (? & ? & [= -> ->] & Henv & _).
    f_equal. by apply (reader_ids s).
  - apply lookup_ge_None in Ei. rewrite lookup_seq_ge by lia. done.
Qed.

(** A fixed output takes deliveries only. *)
Definition is_delivery (x : Sent) : bool := match x with SentDelivery _ => true | _ => false end.

Lemma handle_fixed st e ans :
  Forall (λ x, is_delivery x = true) (sent st) →
  Forall (λ x, is_delivery x = true) (sent (handle array_memory_size memory_limit middlewares Fixed st e ans)).
Proof.
  intros Hst.
  destruct (handle_effect array_memory_size memory_limit middlewares Fixed st e ans) as (calls & HE).
  destruct (eff_sent _ _ _ _ HE) as [(_ & (x & Hx & _) & _)|[_ ->]]; [|done].
  rewrite Hx. apply Forall_app_2; [done|]. constructor; [|done]. revert Hx. unfold handle.
  destruct (re_payload e) as [ds|msgs|l].
  - unfold handle_dataset. destruct (match rows st with Some _ => _ | None => _ end) as [r ok].
    destruct ok; cbn; intros Hx; rewrite <-(app_nil_r (sent st)) in Hx at 1; by apply app_inv_head in Hx.
  - intros Hx. by apply handle_raw_sent in Hx as (d & ? & -> & _).
  - intros Hx. by apply (handle_typed_sent array_memory_size memory_limit) in Hx as (d & ? & -> & _).
Qed.

Lemma parser_loop_fixed st l :
  Forall (λ x, is_delivery x = true) (sent st) →
  Forall (λ x, is_delivery x = true) (sent (parser_loop array_memory_size memory_limit middlewares Fixed st l)).
Proof.
  revert st. induction l as [|[e ans] l IH]; intros st Hst; cbn; [by destruct (outcome st)|].
  destruct (outcome st); [done|]. by apply IH, handle_fixed.
Qed.

(** ** Claims *)

(** A committed marker belongs to an acknowledged delivery. *)
Lemma reader_committed p rows s :
  0 ≤ committed_groups p ≤ u64_max → rtc (Reader.steps array_memory_size) (Reader.init p rows) s →
  mjoin (commits s) `prefix_of` omap (marker_of array_memory_size) (reads s) ∧
  ∀ m, m ∈ mjoin (commits s) →
    ∃ i e a, history s !! i = Some e ∧ ce_marker e = Some m ∧ ce_id e = id_at i ∧ a ∈ acked s ∧ ce_id e ≤ a.
Proof.
  intros Hp Hr. destruct (rtc_Aux array_memory_size p rows s Hp Hr) as [(pre & tail & Hreads & _ & HI) _].
  rewrite (inv_commits _ s pre HI). split.
  - rewrite Hreads, omap_app, <-(inv_markers _ s pre HI). apply prefix_app_r.
    rewrite <-(take_drop (retired s) (history s)) at 2. rewrite omap_app. by eexists.
  - intros m (e & He & Hm)%list_elem_of_omap. apply list_elem_of_lookup in He as [i Hi].
    apply lookup_take_Some in Hi as [Hi Hlt].
    destruct (inv_acked _ s pre HI i e Hlt Hi) as (a & Ha & Hle).
    exists i, e, a. split_and!; [done..| |done|done]. by apply (inv_ids _ s pre HI).
Qed.

(** C1. End to end, offsets are committed only for durable data.  Take any run of the
    reader and any run of the tracker of a sink, and let every event the reader received
    be a report of that tracker.  Then every marker the reader has committed to the
    source belongs to a delivery which the tracker accepted and which has no unit
    outstanding, and the markers are committed in read order. *)
Theorem pipeline_durable p rows s cs t bal out :
  0 ≤ committed_groups p ≤ u64_max → rtc (Reader.steps array_memory_size) (Reader.init p rows) s →
  Z.of_nat (length cs) < u64_max → DeliveryTracker.run cs DeliveryTracker.new (λ _, 0) [] = (t, bal, out) →
  (∀ a, a ∈ acked s → ∃ x, x ∈ out ∧ through x = a) →
  mjoin (commits s) `prefix_of` omap (marker_of array_memory_size) (reads s) ∧
  ∀ m, m ∈ mjoin (commits s) →
    ∃ e, e ∈ history s ∧ ce_marker e = Some m ∧ ce_id e < next_received t ∧ bal (ce_id e) = 0.
Proof.
  intros Hp Hr Hn Hrun Hlink. destruct (run_durable cs t bal out Hn Hrun) as [_ Hdur].
  destruct (reader_committed p rows s Hp Hr) as [Hprefix Hm]. split; [done|]. intros m Hin.
  destruct (Hm m Hin) as (i & e & a & He & Hem & _ & Ha & Hle). destruct (Hlink a Ha) as (x & Hx & Hthrough).
  destruct (Hdur x Hx) as [Hrec Hbal]. exists e. split_and!; [by eapply list_elem_of_lookup_2|done|lia|].
  apply Hbal. lia.
Qed.

(** With a fixed catalog the sink's tracker never sees an order violation: for any
    run of the reader and of the parser on its envelopes, whatever the environment
    answers, and for any interleaving of the tracker's calls in which deliveries are
    accepted in the order the parser sent them, every [accept] succeeds. *)
Theorem fixed_pipeline_accepted r s answers cs :
  Reader.reachable array_memory_size s →
  accept_ids cs `prefix_of` (sent_id <$> sent (parse_sent Fixed r s answers)) →
  Forall (λ x, is_delivery x = true) (sent (parse_sent Fixed r s answers)) ∧ accepts_all DeliveryTracker.new cs = true.
Proof.
  intros Hs [k Hk]. split; [by apply parser_loop_fixed|].
  rewrite parse_sent_ids in Hk by done.
  apply (accepts_consecutive cs DeliveryTracker.new 0); [done|].
  apply (f_equal (firstn (length (accept_ids cs)))) in Hk. rewrite take_app_length in Hk.
  rewrite <-Hk, <-fmap_take, take_seq. by eexists.
Qed.

(** C24. With an evolving catalog it does: the admission task acknowledges a dataset
    announcement itself, so its id never reaches the sink, while the tracker, which
    lives as long as the sink, still expects it.  Once the deliveries before the
    announcement have been accepted, the first delivery after it is refused as an order
    violation. *)
Theorem evolving_delivery_refused r s answers pre id ds mid d post cs rem msgs :
  Reader.reachable array_memory_size s →
  sent (parse_sent Evolving r s answers) = pre ++ SentDataset id ds :: mid ++ SentDelivery d :: post →
  Z.of_nat (length pre + length mid) + 2 ≤ u64_max →
  accept_ids cs = sent_id <$> pre →
  accepts_all DeliveryTracker.new cs = true ∧
  (accept (calls DeliveryTracker.new cs) (del_id d) rem msgs).2 = Err (OrderViolation id (del_id d)).
Proof.
  intros Hs Hsent Hlen Hids. pose proof (parse_sent_ids Evolving r s answers Hs) as Hall. rewrite Hsent in Hall.
  assert (∀ i x, (pre ++ SentDataset id ds :: mid ++ SentDelivery d :: post) !! i = Some x → sent_id x = id_at i)
    as Hat.
  { intros i x Hx. apply (f_equal (lookup i)) in Hall. rewrite !list_lookup_fmap, Hx in Hall.
    rewrite lookup_seq_lt in Hall by (by apply lookup_lt_Some in Hx). by injection Hall. }
  destruct (accepts_consecutive cs DeliveryTracker.new 0) as [Hok Hnext]; [done| |].
  { exists (length pre). rewrite Hids. apply list_eq. intros i. rewrite !list_lookup_fmap.
    destruct (pre !! i) as [x|] eqn:Hi.
    - pose proof (lookup_lt_Some _ _ _ Hi). rewrite lookup_seq_lt by done. cbn. f_equal.
      apply Hat. by apply lookup_app_l_Some.
    - apply lookup_ge_None in Hi. by rewrite lookup_seq_ge. }
  split; [done|]. rewrite Hids, length_fmap in Hnext. cbn in Hnext.
  assert (id = id_at (length pre)) as Hid.
  { apply (Hat (length pre) (SentDataset id ds)). by rewrite list_lookup_middle. }
  assert (del_id d = id_at (length pre + S (length mid))) as Hd.
  { apply (Hat _ (SentDelivery d)). rewrite lookup_app_r by lia.
    replace (length pre + S (length mid) - length pre)%nat with (S (length mid)) by lia.
    change ((mid ++ SentDelivery d :: post) !! length mid = Some (SentDelivery d)).
    by apply list_lookup_middle. }
  unfold accept. rewrite Hnext, <-Hid, bool_decide_eq_false_2; [done|].
  rewrite Hd, Hid. unfold id_at. lia.
Qed.
End pipeline.

(** ** Runs *)
Section example.
#[local] Existing Instance example_arrow.
#[local] Existing Instance example_values.
#[local] Existing Instance example_sessions.

Ltac by_evaluation := match goal with |- ?a = ?b => vm_cast_no_check (eq_refl b) end.

Definition example_calls : list Call := [CAccept 1 0 0; CTake; CAccept 2 2 1; CComplete 2 2; CTake].

Definition example_tracker : DeliveryTracker * (Z → Z) * list Committed :=
  DeliveryTracker.run example_calls DeliveryTracker.new (λ _, 0) [].

Lemma example_tracker_eq : example_tracker = (example_tracker.1.1, example_tracker.1.2, example_tracker.2).
Proof. by destruct example_tracker as [[]]. Qed.
Lemma example_tracker_out : through <$> example_tracker.2 = [1; 2].
Proof. by_evaluation. Qed.

Lemma pipeline_durable_witness :
  mjoin (commits (Reader.example_state 14)) = [7%nat; 8%nat] ∧
  ∃ e, e ∈ history (Reader.example_state 14) ∧ ce_marker e = Some 8%nat.
Proof.
  assert (mjoin (commits (Reader.example_state 14)) = [7%nat; 8%nat]) as Hc by by_evaluation.
  split; [exact Hc|].
  destruct (pipeline_durable (λ _, 0) Reader.example_start None (Reader.example_state 14) example_calls
    example_tracker.1.1 example_tracker.1.2 example_tracker.2)
    as [_ H].
  - vm_compute. split; discriminate.
  - apply Reader.example_state_rtc. by_evaluation.
  - vm_compute. reflexivity.
  - exact example_tracker_eq.
  - assert (acked (Reader.example_state 14) = [1; 2]) as -> by by_evaluation.
    intros a Ha. rewrite <-example_tracker_out in Ha. apply list_elem_of_fmap in Ha as (x & -> & Hx). exact (ex_intro _ x (conj Hx eq_refl)).
  - destruct (H 8%nat) as (e & He & Hm & _ & _); [|exact (ex_intro _ e (conj He Hm))].
    rewrite Hc. right. left.
Defined.

(** A reader that reads two messages. *)
Definition raw_inputs : list (@Reader.Input _ _ nat) :=
  [ Reader.IRead (Ok (Raw [Message_new [104; 105]] (Some 1%nat) [])); INoEvent; IReserved 5; IPermit true;
    Reader.IRead (Ok (Raw [Message_new [106]] (Some 2%nat) [])); INoEvent; IReserved 6; IPermit true ].
Definition raw_state : @Reader.State _ _ nat :=
  default (Reader.init Reader.example_start None) (run_inputs (λ _, 0) (Reader.init Reader.example_start None) raw_inputs).
Definition raw_calls : list Call := [CAccept 1 2 1; CTake; CComplete 1 2; CAccept 2 2 1; CTake].

Lemma raw_state_reachable : Reader.reachable (λ _, 0) raw_state.
Proof.
  exists Reader.example_start, None. apply (run_inputs_rtc _ _ _ raw_inputs). unfold raw_state.
  assert (is_none (run_inputs (λ _, 0) (Reader.init Reader.example_start None) raw_inputs) = false) as Hs
    by by_evaluation.
  by destruct (run_inputs _ _ _).
Qed.

Lemma fixed_pipeline_accepted_witness :
  accept_ids raw_calls = [1; 2] ∧ accepts_all DeliveryTracker.new raw_calls = true.
Proof.
  split; [reflexivity|].
  refine (proj2 (fixed_pipeline_accepted (λ _, 0) 1000 [example_middleware] None raw_state
    [example_answers; example_answers] raw_calls raw_state_reachable _)).
  exists []. by_evaluation.
Defined.

#[local] Abbreviation evolving_state :=
  (parse_sent (λ _, 0) 1000 [example_middleware] Evolving None (Reader.example_state 14)
    [example_answers; example_answers]).

(** An announcement and a delivery. *)
Definition announced (l : list Sent) : option (DeliveryId * DeliveryId) :=
  match l with [SentDataset id _; SentDelivery d] => Some (id, del_id d) | _ => None end.

Lemma announced_Some l id id' : announced l = Some (id, id') →
  ∃ ds d, l = [SentDataset id ds; SentDelivery d] ∧ del_id d = id'.
Proof. destruct l as [|[|] [|[|] []]]; intros [= <- <-]; eauto. Qed.

Lemma evolving_sent : announced (sent evolving_state) = Some (1, 2).
Proof. by_evaluation. Qed.
Lemma example_14_reachable : Reader.reachable (λ _, 0) (Reader.example_state 14).
Proof. exists Reader.example_start, None. apply Reader.example_state_rtc. by_evaluation. Qed.

Lemma evolving_delivery_refused_witness :
  ∃ d, SentDelivery d ∈ sent evolving_state ∧ del_id d = 2 ∧
    (accept (calls DeliveryTracker.new []) (del_id d) 5 1).2 = Err (OrderViolation 1 (del_id d)).
Proof.
  destruct (announced_Some _ _ _ evolving_sent) as (ds & d & Hs & Hd). exists d. rewrite Hs.
  split; [right; left|]. split; [exact Hd|].
  refine (proj2 (evolving_delivery_refused (λ _, 0) 1000 [example_middleware] None (Reader.example_state 14)
    [example_answers; example_answers] [] 1 ds [] d [] [] 5 1 example_14_reachable Hs _ _)).
  - vm_compute. discriminate.
  - reflexivity.
Defined.
End example.
