(* ===== verification/OpenSearchLanes.v ===== *)
(** * Parallel bulk writing of the OpenSearch sink

    [write_parallel] of [sink/actor.rs] of [transferia-connector-opensearch]: the actions
    of one flush are grouped by document, the groups are spread over lanes, and every
    lane writes its groups in bulk requests, at most one action per document in each.

    The lanes run concurrently; their bulk requests meet independent answers ([env]), and
    they end in some order ([order]), in which their results are collected.  A lane
    records its chunks with the requests each of them took. *)

From stdpp Require Import base tactics numbers option strings gmap fin_maps sorting list.
From S2P Require Import Prelude DeliveryId Failure Retry OpenSearchBulk.
Local Open Scope Z_scope.

Record PendingAction := { pa_delivery : DeliveryId; pa_action : BulkAction }.
Definition pa_id (a : PendingAction) : string := ba_id (pa_action a).
Definition pa_bytes (a : PendingAction) : Z := ba_bytes (pa_action a).

Abbreviation Group := (list PendingAction) (only parsing).
Abbreviation Lane := (Z * list (list PendingAction))%type (only parsing).

Definition E_NO_LANE : nat := 41.
Definition E_NO_GROUP : nat := 42.
Definition E_EMPTY_GROUP : nat := 43.

(** [by_id]: the actions of a document, in order. *)
Definition group_by_id (pending : list PendingAction) : gmap string Group :=
  foldl (λ m a, <[pa_id a := default [] (m !! pa_id a) ++ [a]]> m) ∅ pending.

Definition lane_count (c : OpenSearchSinkConfig) (by_id : gmap string Group) : nat :=
  Z.to_nat (Z.min (bulk_concurrency c) (Z.max (Z.of_nat (size by_id)) 1)).

(** The first position of a least element, as [min_by_key] returns it. *)
Fixpoint min_position (l : list Z) : option nat :=
  match l with
  | [] => None
  | x :: l =>
      match min_position l with
      | None => Some 0%nat
      | Some i => if bool_decide (x ≤ l !!! i) then Some 0%nat else Some (S i)
      end
  end.

(** One turn of the loop that spreads the groups. *)
Definition add_group (lanes : list Lane) (g : Group) : result DataPlaneFailure (list Lane) :=
  match min_position lanes.*1 with
  | None => Err (Failure.fatal E_NO_LANE)
  | Some i =>
      Ok (alter (λ lane, (saturating_add usize_max lane.1 (foldl (wrapping_add usize_max) 0 (pa_bytes <$> g)),
                          lane.2 ++ [g])) i lanes)
  end.

Definition spread (c : OpenSearchSinkConfig) (pending : list PendingAction) : result DataPlaneFailure (list Lane) :=
  let by_id := group_by_id pending in
  for_each add_group (bt_iter String.le by_id).*2 (replicate (lane_count c by_id) (0, [])).

(** The [for] loop that fills a chunk from the first [n] groups. *)
Fixpoint build_chunk (c : OpenSearchSinkConfig) (n : nat) (groups : list Group) (chunk : list PendingAction) (bytes : Z)
    : result DataPlaneFailure (list PendingAction * list Group) :=
  match n with
  | O => Ok (chunk, groups)
  | S n =>
      match groups with
      | [] => Err (Failure.fatal E_NO_GROUP)
      | [] :: _ => Err (Failure.fatal E_EMPTY_GROUP)
      | (a :: rest) :: groups =>
          if negb (bool_decide (chunk = []))
             && (bool_decide (bulk_target_rows c ≤ Z.of_nat (length chunk))
                 || bool_decide (bulk_target_bytes c < saturating_add usize_max bytes (pa_bytes a)))
          then Ok (chunk, (a :: rest) :: groups)
          else build_chunk c n (match rest with [] => groups | _ => groups ++ [rest] end)
                 (chunk ++ [a]) (saturating_add usize_max bytes (pa_bytes a))
      end
  end.

(** A chunk and the requests it took. *)
Record ChunkLog := { ch_actions : list PendingAction; ch_requests : list Request }.

Section lanes.
Context (c : OpenSearchSinkConfig) (partition_id : Z) (index : string).
Context (env : nat → Z → Z → Attempt).

(** The loop of one lane; every turn writes at least one action. *)
Fixpoint lane_loop (lane : nat) (fuel : nat) (ordinal : Z) (groups : list Group) (completed : list PendingAction)
    (log : list ChunkLog) : option (list ChunkLog * result DataPlaneFailure (list PendingAction)) :=
  if bool_decide (groups = []) then Some (log, Ok completed) else
  match fuel with
  | O => None
  | S fuel =>
      match build_chunk c (length groups) groups [] 0 with
      | Err f => Some (log, Err f)
      | Ok (chunk, groups) =>
          match write_bulk_with_retry c (env lane ordinal) (pa_action <$> chunk)
                  (retry_seed partition_id (string_bytes index) (Z.lxor (Z.of_nat lane) ordinal)) with
          | None => None
          | Some (requests, r) =>
              let log := log ++ [{| ch_actions := chunk; ch_requests := requests |}] in
              match r with
              | Err f => Some (log, Err f)
              | Ok _ => lane_loop lane fuel (saturating_add usize_max ordinal 1) groups (completed ++ chunk) log
              end
          end
      end
  end.

Definition run_lane (lane : nat) (groups : list Group) : option (list ChunkLog * result DataPlaneFailure (list PendingAction)) :=
  lane_loop lane (length (mjoin groups)) 0 groups [] [].

(** [while let Some(result) = tasks.next().await]: the results in the order the lanes
    end; the first failure ends the collection. *)
Fixpoint collect (lanes : list Lane) (order : list nat) (log : list ChunkLog) (completed : list PendingAction)
    : option (list ChunkLog * result DataPlaneFailure (list PendingAction)) :=
  match order with
  | [] => Some (log, Ok completed)
  | i :: order =>
      match lanes !! i with
      | None => collect lanes order log completed
      | Some lane =>
          match run_lane i lane.2 with
          | None => None
          | Some (l, Err f) => Some (log ++ l, Err f)
          | Some (l, Ok done) => collect lanes order (log ++ l) (completed ++ done)
          end
      end
  end.

Definition write_parallel (order : list nat) (pending : list PendingAction)
    : option (list ChunkLog * result DataPlaneFailure (list PendingAction)) :=
  match spread c pending with
  | Err f => Some ([], Err f)
  | Ok lanes => collect lanes order [] []
  end.
End lanes.

(** ** Groups *)
Definition of_id (k : string) (l : list PendingAction) : list PendingAction := filter (λ a, pa_id a = k) l.
Arguments of_id : simpl never.
Definition head_id (g : Group) : string := match g with [] => "" | a :: _ => pa_id a end.

(** Non-empty groups of one document each, of distinct documents. *)
Definition groups_ok (gs : list Group) : Prop :=
  Forall (λ g, g ≠ [] ∧ Forall (λ a, pa_id a = head_id g) g) gs ∧ NoDup (head_id <$> gs).

Lemma groups_ok_perm gs gs' : gs ≡ₚ gs' → groups_ok gs → groups_ok gs'.
Proof. intros Hp [H1 H2]. by split; [rewrite <-Hp|rewrite <-Hp]. Qed.

Lemma groups_ok_app gs1 gs2 : groups_ok (gs1 ++ gs2) → groups_ok gs1 ∧ groups_ok gs2.
Proof.
  intros [[H1 H2]%Forall_app H3]. rewrite fmap_app in H3. apply NoDup_app in H3 as (? & _ & ?). by repeat split.
Qed.

Lemma of_id_app k l1 l2 : of_id k (l1 ++ l2) = of_id k l1 ++ of_id k l2.
Proof. apply filter_app. Qed.

Lemma of_id_uniform j k g : Forall (λ a, pa_id a = j) g → of_id k g = if decide (j = k) then g else [].
Proof.
  induction 1 as [|a g Ha _ IH]; [by case_decide|]. unfold of_id in *. rewrite filter_cons, IH, Ha.
  by case_decide.
Qed.

Lemma of_id_group k g : Forall (λ a, pa_id a = head_id g) g → of_id k g = if decide (head_id g = k) then g else [].
Proof. apply of_id_uniform. Qed.

Lemma of_id_absent k gs : groups_ok gs → k ∉ (head_id <$> gs) → of_id k (mjoin gs) = [].
Proof.
  intros [Hf _] Hk. induction gs as [|g gs IH]; [done|]. apply Forall_cons in Hf as [[_ Hg] Hf].
  cbn in *. apply not_elem_of_cons in Hk as [Hk Hks]. rewrite of_id_app, (of_id_group k g Hg), decide_False by done.
  by apply IH.
Qed.

Lemma of_id_present gs g : groups_ok gs → g ∈ gs → of_id (head_id g) (mjoin gs) = g.
Proof.
  intros Hok [gs1 [gs2 ->]]%list_elem_of_split. apply (groups_ok_perm _ (g :: gs1 ++ gs2)) in Hok as Hok';
    [|by rewrite Permutation_middle].
  destruct Hok' as [[[_ Hg] Hf]%Forall_cons Hnd]. rewrite fmap_cons, fmap_app in Hnd.
  apply NoDup_cons in Hnd as [Hnin Hnd].
  rewrite join_app. cbn. rewrite !of_id_app, (of_id_group _ g Hg), decide_True by done.
  apply NoDup_app in Hnd as (? & _ & ?). apply Forall_app in Hf as [? ?].
  rewrite !of_id_absent; [by rewrite app_nil_r|by split|set_solver|by split|set_solver].
Qed.

(** Groups keep the order of a document wherever they stand. *)
Lemma of_id_perm k gs gs' : groups_ok gs → gs ≡ₚ gs' → of_id k (mjoin gs) = of_id k (mjoin gs').
Proof.
  intros Hok Hp. pose proof (groups_ok_perm _ _ Hp Hok) as Hok'.
  destruct (decide (k ∈ (head_id <$> gs))) as [Hk|Hk].
  - apply list_elem_of_fmap in Hk as (g & -> & Hg).
    rewrite of_id_present by done. rewrite of_id_present; [done..|by rewrite <-Hp].
  - rewrite of_id_absent by done. rewrite of_id_absent; [done..|by rewrite <-Hp].
Qed.

Lemma group_by_id_lookup l k :
  group_by_id l !! k = if decide (of_id k l = []) then None else Some (of_id k l).
Proof.
  induction l as [|a l IH] using rev_ind; [done|].
  unfold group_by_id in *. rewrite foldl_app. cbn. rewrite of_id_app.
  destruct (decide (pa_id a = k)) as [Hk|Hk].
  - rewrite Hk, lookup_insert_eq, IH.
    assert (of_id k [a] = [a]) as -> by (by unfold of_id; rewrite filter_cons_True).
    rewrite (decide_False (P := _ ++ [a] = [])) by (by destruct (of_id k l)).
    by case_decide as Hl; [rewrite Hl|].
  - rewrite lookup_insert_ne, IH by done.
    assert (of_id k [a] = []) as -> by (by unfold of_id; rewrite filter_cons_False). by rewrite app_nil_r.
Qed.

Definition groups_of (l : list PendingAction) : list Group := (bt_iter String.le (group_by_id l)).*2.

Lemma groups_of_member l g : g ∈ groups_of l ↔ ∃ k, g = of_id k l ∧ of_id k l ≠ [].
Proof.
  unfold groups_of. rewrite list_elem_of_fmap. split.
  - intros ([k g'] & -> & Hin). apply elem_of_bt_iter in Hin; [|apply _..].
    rewrite group_by_id_lookup in Hin. case_decide; simplify_eq. by exists k.
  - intros (k & -> & Hne). exists (k, of_id k l). split; [done|]. apply elem_of_bt_iter; [apply _..|].
    by rewrite group_by_id_lookup, decide_False.
Qed.

Lemma of_id_member k l a : a ∈ of_id k l ↔ pa_id a = k ∧ a ∈ l.
Proof. unfold of_id. apply (list_elem_of_filter (λ a, pa_id a = k)). Qed.

Lemma head_of_id k l : of_id k l ≠ [] → head_id (of_id k l) = k ∧ Forall (λ a, pa_id a = k) (of_id k l).
Proof.
  intros Hne. assert (Forall (λ a, pa_id a = k) (of_id k l)) as Hf.
  { apply Forall_forall. by intros a [? _]%of_id_member. }
  split; [|done]. destruct (of_id k l); [done|]. by apply Forall_cons in Hf as [? _].
Qed.

Lemma groups_of_ok l : groups_ok (groups_of l).
Proof.
  split.
  - apply Forall_forall. intros g (k & -> & Hne)%groups_of_member. by destruct (head_of_id k l Hne) as [-> ?].
  - assert (head_id <$> groups_of l = (bt_iter String.le (group_by_id l)).*1) as ->; [|apply NoDup_bt_iter].
    unfold groups_of. rewrite <-list_fmap_compose. apply list_fmap_ext. intros i [k g] Hi. cbn.
    apply list_elem_of_lookup_2, elem_of_bt_iter in Hi; [|apply _..].
    rewrite group_by_id_lookup in Hi. case_decide; simplify_eq. by apply head_of_id.
Qed.

Lemma of_id_groups_of k l : of_id k (mjoin (groups_of l)) = of_id k l.
Proof.
  destruct (decide (of_id k l = [])) as [Hk|Hk].
  - rewrite Hk. apply of_id_absent; [apply groups_of_ok|]. intros (g & -> & Hg)%list_elem_of_fmap.
    apply groups_of_member in Hg as (k' & -> & Hne). destruct (head_of_id k' l Hne) as [E _]. by rewrite E in Hk.
  - destruct (head_of_id k l Hk) as [E _]. rewrite <-E at 1. apply of_id_present; [apply groups_of_ok|].
    apply groups_of_member. by exists k.
Qed.


(** Lists that agree document by document are permutations of each other. *)
Lemma of_id_ext_perm l l' : (∀ k, of_id k l = of_id k l') → l ≡ₚ l'.
Proof.
  revert l'. induction l as [|a l IH]; intros l' H.
  - destruct l' as [|b l']; [done|]. specialize (H (pa_id b)). unfold of_id in H.
    by rewrite filter_cons_True in H.
  - pose proof (H (pa_id a)) as Ha. unfold of_id in Ha. rewrite filter_cons_True in Ha by done.
    assert (head (filter (λ b, pa_id b = pa_id a) l') = Some a) as (l1 & l2 & -> & Hl1)%head_filter_Some
      by (by rewrite <-Ha).
    rewrite <-Permutation_middle. constructor. apply IH. intros k. specialize (H k).
    rewrite of_id_app in H |- *. unfold of_id in H. rewrite !filter_cons in H. fold (of_id k) in H.
    case_decide as Hk; [|exact H].
    assert (filter (λ b, pa_id b = k) l1 = []) as E.
    { destruct (filter _ l1) as [|b r] eqn:E; [done|].
      assert (b ∈ filter (λ b, pa_id b = k) l1) as [Hb Hin]%list_elem_of_filter by (rewrite E; left).
      rewrite Forall_forall in Hl1. by destruct (Hl1 b Hin); rewrite Hb. }
    unfold of_id in *. rewrite E in *. by injection H.
Qed.

Lemma groups_of_perm l : mjoin (groups_of l) ≡ₚ l.
Proof. apply of_id_ext_perm. intros k. apply of_id_groups_of. Qed.

(** ** Lanes *)
Lemma min_position_lt l : l ≠ [] → ∃ i, min_position l = Some i ∧ (i < length l)%nat.
Proof.
  induction l as [|x l IH]; [done|]. intros _. cbn. destruct l as [|y l]; [exists 0%nat; by split; [|cbn; lia]|].
  destruct IH as (i & -> & Hi); [done|]. case_bool_decide; eexists; (split; [done|]); cbn in *; lia.
Qed.

Lemma add_group_ok lanes g : lanes ≠ [] →
  ∃ lanes', add_group lanes g = Ok lanes' ∧ length lanes' = length lanes ∧
    mjoin lanes'.*2 ≡ₚ mjoin lanes.*2 ++ [g].
Proof.
  intros Hne. unfold add_group. destruct (min_position_lt lanes.*1) as (i & -> & Hi); [by destruct lanes|].
  rewrite length_fmap in Hi. eexists. split; [done|]. split; [by rewrite length_alter|].
  destruct (lookup_lt_is_Some_2 lanes i Hi) as [[b gs] Hl].
  apply list_elem_of_split_length in Hl as (l1 & l2 & -> & ->).
  rewrite alter_app_r_alt, Nat.sub_diag by lia. cbn.
  rewrite !fmap_app, !join_app. cbn. rewrite <-!app_assoc. f_equiv. f_equiv.
  rewrite (Permutation_app_comm [g]). done.
Qed.

Lemma spread_groups gs lanes : lanes ≠ [] →
  ∃ lanes', for_each add_group gs lanes = Ok lanes' ∧ length lanes' = length lanes ∧
    mjoin lanes'.*2 ≡ₚ mjoin lanes.*2 ++ gs.
Proof.
  revert lanes. induction gs as [|g gs IH]; intros lanes Hne.
  { exists lanes. by rewrite app_nil_r. }
  destruct (add_group_ok lanes g Hne) as (lanes1 & E & Hl & Hp). cbn [for_each]. rewrite E.
  destruct (IH lanes1) as (lanes' & E' & Hl' & Hp'); [by destruct lanes1, lanes|].
  exists lanes'. split; [exact E'|]. split; [congruence|]. by rewrite Hp', Hp, <-app_assoc.
Qed.

Lemma spread_ok c pending : 1 ≤ bulk_concurrency c →
  ∃ lanes, spread c pending = Ok lanes ∧ length lanes = lane_count c (group_by_id pending) ∧
    mjoin lanes.*2 ≡ₚ groups_of pending.
Proof.
  intros Hc. unfold spread. fold (groups_of pending).
  assert (0 < lane_count c (group_by_id pending))%nat as Hn by (unfold lane_count; lia).
  destruct (spread_groups (groups_of pending) (replicate (lane_count c (group_by_id pending)) (0, [])))
    as (lanes & -> & Hl & Hp); [by destruct (lane_count c _); [lia|]|].
  exists lanes. split; [done|]. split; [by rewrite Hl, length_replicate|].
  assert (∀ n, mjoin (replicate n (0, [] : list Group)).*2 = []) as E
    by (intros n; induction n; [done|cbn in *; done]).
  by rewrite E in Hp.
Qed.

(** ** Chunks *)
Section chunks.
Context (c : OpenSearchSinkConfig).
Hypothesis Hrows : 0 < bulk_target_rows c.
Hypothesis Hbytes : bulk_target_bytes c < usize_max.

(** The limits of a bulk request: one action per document, at most the target number of
    rows, and at most the target size unless it is a single action. *)
Definition within_limits (l : list PendingAction) : Prop :=
  NoDup (pa_id <$> l) ∧ Z.of_nat (length l) ≤ bulk_target_rows c ∧
  ((length l ≤ 1)%nat ∨ lsum pa_bytes l ≤ bulk_target_bytes c).

Lemma within_limits_snoc l a :
  within_limits l → 0 ≤ pa_bytes a → 0 ≤ lsum pa_bytes l → pa_id a ∉ pa_id <$> l →
  negb (bool_decide (l = [])) && (bool_decide (bulk_target_rows c ≤ Z.of_nat (length l))
    || bool_decide (bulk_target_bytes c < saturating_add usize_max (Z.min (lsum pa_bytes l) usize_max) (pa_bytes a)))
    = false →
  within_limits (l ++ [a]).
Proof.
  intros (Hn & Hl & Hb) Ha Hs Hnin Hc. unfold within_limits. rewrite fmap_app, length_app, lsum_app. cbn.
  split_and!.
  - apply NoDup_app. split_and!; [done|set_solver|apply NoDup_singleton].
  - destruct l as [|b l]; [cbn in *; lia|]. rewrite bool_decide_eq_false_2 in Hc by done.
    apply orb_false_iff in Hc as [H1%bool_decide_eq_false _]. lia.
  - destruct l as [|b l]; [left; cbn; lia|]. rewrite bool_decide_eq_false_2 in Hc by done.
    apply orb_false_iff in Hc as [_ H1%bool_decide_eq_false]. right. unfold saturating_add in H1. lia.
Qed.

Lemma groups_ok_requeue a rest gs :
  groups_ok ((a :: rest) :: gs) → groups_ok (match rest with [] => gs | _ => gs ++ [rest] end).
Proof.
  intros [[[_ Hg] Hf]%Forall_cons Hnd]. apply NoDup_cons in Hnd as [Hnin Hnd].
  destruct rest as [|b rest]; [by split|]. apply Forall_cons in Hg as [_ Hg].
  assert (head_id (b :: rest) = head_id (a :: b :: rest)) as E by (by apply Forall_cons in Hg as [? _]).
  apply (groups_ok_perm ((b :: rest) :: gs)); [by rewrite Permutation_app_comm|]. split.
  - constructor; [|done]. split; [done|]. by rewrite E.
  - rewrite fmap_cons, E. by constructor.
Qed.

(** Requeueing a group moves no action past another of its document. *)
Lemma of_id_requeue k a rest gs :
  groups_ok ((a :: rest) :: gs) →
  of_id k [a] ++ of_id k (mjoin (match rest with [] => gs | _ => gs ++ [rest] end))
  = of_id k (mjoin ((a :: rest) :: gs)).
Proof.
  intros Hok. assert (mjoin (match rest with [] => gs | _ => gs ++ [rest] end) = mjoin gs ++ rest) as ->.
  { destruct rest; [by rewrite app_nil_r|]. rewrite join_app. cbn. by rewrite app_nil_r. }
  change (mjoin ((a :: rest) :: gs)) with ((a :: rest) ++ mjoin gs). rewrite !of_id_app.
  destruct Hok as [[[_ Hg] Hf]%Forall_cons [Hnin Hnd]%NoDup_cons].
  change (a :: rest) with ([a] ++ rest) at 1. rewrite of_id_app, <-app_assoc. f_equal.
  destruct (decide (pa_id a = k)) as [<-|Hk].
  - rewrite of_id_absent; [by rewrite app_nil_r|by split|done].
  - apply Forall_cons in Hg as [_ Hg]. rewrite (of_id_uniform (pa_id a) k rest Hg), decide_False by done.
    by rewrite app_nil_r.
Qed.

Definition sizes_ok (gs : list Group) : Prop := Forall (Forall (λ a, 0 ≤ pa_bytes a)) gs.

Lemma sizes_ok_requeue a rest gs :
  sizes_ok ((a :: rest) :: gs) → sizes_ok (match rest with [] => gs | _ => gs ++ [rest] end).
Proof.
  intros [[_ Hr]%Forall_cons Hf]%Forall_cons. destruct rest; [done|]. apply Forall_app. split; [done|by constructor].
Qed.

Lemma build_chunk_ok us qs chunk :
  groups_ok (us ++ qs) → sizes_ok (us ++ qs) → within_limits chunk → 0 ≤ lsum pa_bytes chunk →
  (∀ a, a ∈ chunk → pa_id a ∉ (head_id <$> us)) →
  ∃ chunk' gs, build_chunk c (length us) (us ++ qs) chunk (Z.min (lsum pa_bytes chunk) usize_max) = Ok (chunk', gs) ∧
    groups_ok gs ∧ sizes_ok gs ∧ within_limits chunk' ∧ (us ≠ [] ∨ chunk ≠ [] → chunk' ≠ []) ∧
    ∀ k, of_id k chunk' ++ of_id k (mjoin gs) = of_id k chunk ++ of_id k (mjoin (us ++ qs)).
Proof.
  revert qs chunk. induction us as [|[|a rest] us IH]; intros qs chunk Hok Hsz Hlim Hsum Hnin.
  - exists chunk, qs. split_and!; try done. by intros [?|?].
  - destruct Hok as [[[? _] _]%Forall_cons _]. done.
  - cbn [build_chunk length app].
    destruct (negb _ && _) eqn:Econd.
    + exists chunk, ((a :: rest) :: us ++ qs). split_and!; try done.
      intros _ ->. by rewrite bool_decide_eq_true_2 in Econd.
    + pose proof (groups_ok_requeue a rest (us ++ qs) Hok) as Hok'.
      pose proof (sizes_ok_requeue a rest (us ++ qs) Hsz) as Hsz'.
      pose proof Hsz as [[Ha _]%Forall_cons _]%Forall_cons.
      set (qs' := match rest with [] => qs | _ => qs ++ [rest] end).
      assert (match rest with [] => us ++ qs | _ => (us ++ qs) ++ [rest] end = us ++ qs') as E.
      { unfold qs'. destruct rest; [done|by rewrite <-app_assoc]. }
      assert (pa_id a ∉ pa_id <$> chunk) as Hfresh.
      { intros (b & Hb & Hin)%list_elem_of_fmap. apply (Hnin b Hin). rewrite <-Hb. left. }
      destruct (IH qs' (chunk ++ [a])) as (chunk' & gs & Hb & ? & ? & ? & Hne & Hk).
      * by rewrite <-E.
      * by rewrite <-E.
      * by apply within_limits_snoc.
      * rewrite lsum_app. cbn. lia.
      * destruct Hok as [_ Hnd]. cbn [app] in Hnd. rewrite fmap_cons, fmap_app in Hnd.
        apply NoDup_cons in Hnd as [Hnd _].
        intros b [Hb| ->%list_elem_of_singleton]%elem_of_app; [|set_solver].
        pose proof (Hnin b Hb). set_solver.
      * exists chunk', gs. rewrite E. rewrite lsum_app in Hb. cbn in Hb.
        unfold saturating_add. replace (Z.min (Z.min (lsum pa_bytes chunk) usize_max + pa_bytes a) usize_max)
          with (Z.min (lsum pa_bytes chunk + (pa_bytes a + 0)) usize_max) by lia.
        split_and!; [done..| |].
        -- intros _. apply Hne. right. by destruct chunk.
        -- intros k. rewrite Hk, of_id_app, <-app_assoc. f_equal. rewrite <-E. by apply of_id_requeue.
Qed.

Lemma full_chunk groups :
  groups ≠ [] → groups_ok groups → sizes_ok groups →
  ∃ chunk gs, build_chunk c (length groups) groups [] 0 = Ok (chunk, gs) ∧
    groups_ok gs ∧ sizes_ok gs ∧ within_limits chunk ∧ chunk ≠ [] ∧
    (∀ k, of_id k (chunk ++ mjoin gs) = of_id k (mjoin groups)) ∧ chunk ++ mjoin gs ≡ₚ mjoin groups.
Proof.
  intros Hne Hok Hsz. destruct (build_chunk_ok groups [] []) as (chunk & gs & Hb & ? & ? & ? & Hc & Hk).
  - by rewrite app_nil_r.
  - by rewrite app_nil_r.
  - split_and!; [constructor|cbn; lia|left; cbn; lia].
  - cbn. lia.
  - by intros a ?%not_elem_of_nil.
  - rewrite app_nil_r in Hb, Hk. exists chunk, gs.
    assert (∀ k, of_id k (chunk ++ mjoin gs) = of_id k (mjoin groups)) as Hk' by (intros k; by rewrite of_id_app, Hk).
    split_and!; [done..|auto|done|by apply of_id_ext_perm].
Qed.
End chunks.

(** ** Writing the lanes *)
Section write.
Context (c : OpenSearchSinkConfig) (partition_id : Z) (index : string) (env : nat → Z → Z → Attempt).
Hypothesis Hattempts : 0 < retry_max_attempts c ≤ u32_max.
Hypothesis Hbackoff : 0 ≤ retry_initial_ms c ≤ retry_max_ms c ∧ retry_max_ms c ≤ u64_max.
Hypothesis Hrows : 0 < bulk_target_rows c.
Hypothesis Hbytes : bulk_target_bytes c < usize_max.

(** The service acknowledged every action of the chunk, once. *)
Definition chunk_written (ch : ChunkLog) : Prop :=
  mjoin (acknowledged <$> ch_requests ch) ≡ₚ pa_action <$> ch_actions ch.
(** The requests of the chunk ended with [f]. *)
Definition chunk_failed (f : DataPlaneFailure) (ch : ChunkLog) : Prop :=
  ∃ e s, write_bulk_with_retry c e (pa_action <$> ch_actions ch) s = Some (ch_requests ch, Err f).

(** What writing [groups] amounts to: the chunks written, and the result. *)
Definition lane_outcome (groups : list Group) (chunks : list ChunkLog)
    (r : result DataPlaneFailure (list PendingAction)) : Prop :=
  Forall (within_limits c) (ch_actions <$> chunks) ∧
  match r with
  | Ok written => written = mjoin (ch_actions <$> chunks) ∧ Forall chunk_written chunks ∧
      ∀ k, of_id k written = of_id k (mjoin groups)
  | Err f => ∃ ch, last chunks = Some ch ∧ chunk_failed f ch
  end.

Lemma lane_loop_ok lane fuel ordinal groups completed log :
  groups_ok groups → sizes_ok groups → (length (mjoin groups) ≤ fuel)%nat →
  ∃ chunks r, lane_loop c partition_id index env lane fuel ordinal groups completed log
      = Some (log ++ chunks, match r with Ok written => Ok (completed ++ written) | Err f => Err f end) ∧
    lane_outcome groups chunks r.
Proof.
  revert ordinal groups completed log.
  induction fuel as [|fuel IH]; intros ordinal groups completed log Hok Hsz Hfuel; cbn [lane_loop];
    case_bool_decide as Hne.
  1,3: subst groups; exists [], (Ok []); rewrite !app_nil_r; split; [done|]; by repeat split; try constructor.
  { destruct Hok as [Hg _]. destruct groups as [|g groups]; [done|]. apply Forall_cons in Hg as [[? _] _].
    destruct g; [done|]. cbn in Hfuel. lia. }
  destruct (full_chunk c Hrows Hbytes groups Hne Hok Hsz) as (chunk & gs & -> & Hok' & Hsz' & Hlim & Hc & Hk & Hp).
  set (seed := retry_seed _ _ _).
  destruct (bulk_written c seed (env lane ordinal) (pa_action <$> chunk) Hattempts Hbackoff)
    as (requests & r & Hw & Hwr & _). rewrite Hw.
  destruct r as [n|f].
  - destruct (IH (saturating_add usize_max ordinal 1) gs (completed ++ chunk)
      (log ++ [{| ch_actions := chunk; ch_requests := requests |}])) as (chunks & r & -> & Hl & Ho); [done..| |].
    { apply Permutation_length in Hp. rewrite length_app in Hp. destruct chunk; [done|]. cbn in Hp. lia. }
    eexists ({| ch_actions := chunk; ch_requests := requests |} :: chunks),
      (match r with Ok written => Ok (chunk ++ written) | Err f => Err f end).
    split.
    + rewrite <-app_assoc. by destruct r; rewrite <-?app_assoc.
    + split; [by constructor|]. destruct r as [written|f].
      * destruct Ho as (-> & Hf & Hk'). split_and!; [done| |].
        -- constructor; [by apply (w_complete _ _ _ _ Hwr)|done].
        -- intros k. rewrite <-Hk, !of_id_app, Hk'. done.
      * destruct Ho as (ch & Hch & Hf). exists ch. split; [|done]. by destruct chunks.
  - eexists [_], (Err f). split; [done|]. split; [constructor; [exact Hlim|constructor]|].
    eexists. split; [done|]. by exists (env lane ordinal), seed.
Qed.

Lemma run_lane_ok lane groups :
  groups_ok groups → sizes_ok groups →
  ∃ chunks r, run_lane c partition_id index env lane groups = Some (chunks, r) ∧ lane_outcome groups chunks r.
Proof.
  intros Hok Hsz. destruct (lane_loop_ok lane (length (mjoin groups)) 0 groups [] [] Hok Hsz) as (chunks & r & E & Ho);
    [done|]. exists chunks, r. split; [|done]. unfold run_lane. rewrite E. by destruct r.
Qed.

Definition lane_groups (lanes : list Lane) (order : list nat) : list Group :=
  order ≫= λ i, from_option snd [] (lanes !! i).

Lemma lane_outcome_app gs1 gs2 chunks1 chunks2 written1 r2 :
  lane_outcome gs1 chunks1 (Ok written1) → lane_outcome gs2 chunks2 r2 →
  lane_outcome (gs1 ++ gs2) (chunks1 ++ chunks2)
    (match r2 with Ok written2 => Ok (written1 ++ written2) | Err f => Err f end).
Proof.
  intros [Hl1 (E1 & Hf1 & Hk1)] [Hl2 Ho2]. split; [rewrite fmap_app; by apply Forall_app|].
  destruct r2 as [written2|f].
  - destruct Ho2 as (E2 & Hf2 & Hk2). split_and!.
    + by rewrite E1, E2, fmap_app, join_app.
    + by apply Forall_app.
    + intros k. by rewrite join_app, !of_id_app, Hk1, Hk2.
  - destruct Ho2 as (ch & Hlast & Hf). exists ch. by rewrite last_app, Hlast.
Qed.

Lemma collect_ok lanes order log completed :
  groups_ok (lane_groups lanes order) → sizes_ok (lane_groups lanes order) →
  ∃ chunks r, collect c partition_id index env lanes order log completed
      = Some (log ++ chunks, match r with Ok written => Ok (completed ++ written) | Err f => Err f end) ∧
    lane_outcome (lane_groups lanes order) chunks r.
Proof.
  revert log completed. induction order as [|i order IH]; intros log completed Hok Hsz; cbn [collect].
  { exists [], (Ok []). rewrite !app_nil_r. split; [done|]. by repeat split; try constructor. }
  unfold lane_groups in *. cbn in Hok, Hsz. cbn. destruct (lanes !! i) as [lane|]; cbn in *; [|by apply IH].
  apply groups_ok_app in Hok as [Hok1 Hok2]. apply Forall_app in Hsz as [Hsz1 Hsz2].
  destruct (run_lane_ok i lane.2 Hok1 Hsz1) as (chunks1 & r1 & -> & Ho1).
  destruct r1 as [written1|f].
  - destruct (IH (log ++ chunks1) (completed ++ written1) Hok2 Hsz2) as (chunks2 & r2 & -> & Ho2).
    eexists (chunks1 ++ chunks2), _. split; [|exact (lane_outcome_app _ _ _ _ _ _ Ho1 Ho2)].
    by destruct r2; rewrite <-!app_assoc.
  - exists chunks1, (Err f). split; [done|]. destruct Ho1 as [Hl (ch & Hch & Hf)]. split; [done|by exists ch].
Qed.

Lemma lane_groups_all lanes : lane_groups lanes (seq 0 (length lanes)) = mjoin lanes.*2.
Proof.
  unfold lane_groups. induction lanes as [|lane lanes IH] using rev_ind; [done|].
  rewrite length_app, Nat.add_1_r, seq_S, bind_app. cbn.
  rewrite list_lookup_middle by done. cbn. rewrite app_nil_r, fmap_app, join_app. cbn. rewrite app_nil_r. f_equal.
  rewrite <-IH. clear IH. generalize (Nat.le_refl (length lanes)). generalize (length lanes) at 1 3 4.
  intros n Hn. induction n as [|n IH]; [done|]. rewrite seq_S, !bind_app, IH by lia. cbn.
  by rewrite lookup_app_l by lia.
Qed.

Lemma write_parallel_ok order pending :
  1 ≤ bulk_concurrency c → Forall (λ a, 0 ≤ pa_bytes a) pending →
  order ≡ₚ seq 0 (lane_count c (group_by_id pending)) →
  ∃ chunks r, write_parallel c partition_id index env order pending = Some (chunks, r) ∧
    Forall (within_limits c) (ch_actions <$> chunks) ∧
    match r with
    | Ok written => written = mjoin (ch_actions <$> chunks) ∧ Forall chunk_written chunks ∧
        ∀ k, of_id k written = of_id k pending
    | Err f => ∃ ch, last chunks = Some ch ∧ chunk_failed f ch
    end.
Proof.
  intros Hc Hsz Horder. unfold write_parallel.
  destruct (spread_ok c pending Hc) as (lanes & -> & Hl & Hp).
  assert (lane_groups lanes order ≡ₚ groups_of pending) as Hg.
  { rewrite <-Hp, <-lane_groups_all, Hl. unfold lane_groups. by rewrite Horder. }
  pose proof (groups_ok_perm _ _ (symmetry Hg) (groups_of_ok pending)) as Hok.
  destruct (collect_ok lanes order [] []) as (chunks & r & -> & Hlim & Ho); [done| |].
  { unfold sizes_ok. rewrite Hg. apply Forall_forall. intros g (k & -> & _)%groups_of_member.
    apply Forall_forall. intros a [_ Ha]%of_id_member. by apply (proj1 (Forall_forall _ _) Hsz). }
  exists chunks, r. split; [by destruct r|]. split; [done|]. destruct r as [written|f]; [|done].
  destruct Ho as (E & Hf & Hk). split_and!; [done..|]. intros k.
  rewrite Hk, (of_id_perm k _ _ Hok Hg). apply of_id_groups_of.
Qed.
End write.

(** ** Claims *)

(** C27. A flush writes every action exactly once and keeps each document's order.
    For any answers of the service and any order in which the lanes end, the write
    ends; no request carries two actions of one document or exceeds the limits (a single
    action may be larger than the size target); on success every chunk was acknowledged
    in full, the written actions are those of the flush, and the actions of any one
    document were written in their order; a failure is the failure of a bulk request. *)
Theorem write_parallel_exact c partition_id index env order pending :
  validate (Ok tt) c = Ok tt → retry_max_attempts c ≤ u32_max → retry_max_ms c ≤ u64_max →
  bulk_target_bytes c < usize_max →
  Forall (λ a, 0 ≤ pa_bytes a) pending →
  order ≡ₚ seq 0 (lane_count c (group_by_id pending)) →
  ∃ chunks r, write_parallel c partition_id index env order pending = Some (chunks, r) ∧
    Forall (within_limits c) (ch_actions <$> chunks) ∧
    match r with
    | Ok written => written ≡ₚ pending ∧ written = mjoin (ch_actions <$> chunks) ∧
        Forall chunk_written chunks ∧ ∀ k, of_id k written = of_id k pending
    | Err f => ∃ ch, last chunks = Some ch ∧ chunk_failed c f ch
    end.
Proof.
  intros Hv Ha Hb Hbytes Hsz Ho. apply validate_ok in Hv as (? & ? & ? & ? & ? & ? & ?).
  destruct (write_parallel_ok c partition_id index env ltac:(lia) ltac:(lia) ltac:(lia) ltac:(done) order pending)
    as (chunks & r & E & Hlim & Hr); [lia|done..|].
  exists chunks, r. split_and!; [done..|]. destruct r as [written|f]; [|done].
  destruct Hr as (? & ? & ?). split; [by apply of_id_ext_perm|done].
Qed.

Definition example_pending : list PendingAction :=
  [ {| pa_delivery := 1; pa_action := example_action "a" |}; {| pa_delivery := 1; pa_action := example_action "b" |};
    {| pa_delivery := 2; pa_action := example_action "a" |} ].
Definition accepting : nat → Z → Z → Attempt := λ lane ordinal _,
  {| reply := Some (Ok (if bool_decide (lane = 1%nat) then [200] else [200])); slept := true |}.

Lemma write_parallel_exact_witness :
  ∃ chunks written,
    write_parallel example_config 7 "index" accepting [1%nat; 0%nat] example_pending = Some (chunks, Ok written) ∧
    length chunks = 3%nat ∧ of_id "a" written = of_id "a" example_pending.
Proof.
  destruct (write_parallel_exact example_config 7 "index" accepting [1%nat; 0%nat] example_pending)
    as (chunks & r & Hr & _ & Hok); [reflexivity|done|done|done|by repeat constructor| |].
  { assert (lane_count example_config (group_by_id example_pending) = 2%nat) as -> by reflexivity.
    exact (Permutation_swap 0%nat 1%nat []). }
  assert (is_ok r = true ∧ length chunks = 3%nat) as [Hi Hl].
  { revert Hr. vm_compute. by intros [= <- <-]. }
  destruct r as [written|f]; [|done]. exists chunks, written. destruct Hok as (_ & _ & _ & Hk). split_and!; [done..|].
  apply Hk.
Defined.
