(* ===== verification/OpenSearchDocument.v ===== *)
(** * Documents of the OpenSearch sink

    [sink/document.rs] of [transferia-connector-opensearch]: how a row of a batch becomes
    a bulk action, in particular its document identity.  A row without an [_id] column is
    identified by its primary key, framed and encoded; a routed document is identified by
    its id and its effective routing key.

    The Arrow types and values are those this file inspects, each with its own
    constructor; a float is its bits.  [serde_json] and [base64] are interfaces. *)

From Stdlib Require Import Ascii.
From stdpp Require Import base tactics numbers option strings pretty countable list.
From S2P Require Import Prelude Bytes Text Failure Retry OpenSearchBulk OpenSearchLanes.
Local Open Scope Z_scope.

Inductive TimeUnit := Second | Millisecond | Microsecond | Nanosecond.
#[export] Instance TimeUnit_eq_dec : EqDecision TimeUnit.
Proof. solve_decision. Defined.

Inductive ArrowType :=
| Boolean | Int8 | Int16 | Int32 | Int64 | UInt8 | UInt16 | UInt32 | UInt64 | Float32 | Float64
| Utf8 | LargeUtf8 | Binary | LargeBinary | FixedSizeBinary (width : Z)
| Decimal128 (precision scale : Z) | Decimal256 (precision scale : Z)
| Date32 | Date64 | Timestamp (unit : TimeUnit) (timezone : option string) | Duration (unit : TimeUnit)
| OtherType.
#[export] Instance ArrowType_eq_dec : EqDecision ArrowType.
Proof. solve_decision. Defined.

(** A non-null value of an array. *)
Inductive Scalar := SBool (b : bool) | SInt (z : Z) | SFloat (bits : Z) | SStr (s : string) | SBytes (b : list Z).
#[export] Instance Scalar_eq_dec : EqDecision Scalar.
Proof. solve_decision. Defined.

(** The fields of [SchemaColumn] this file reads. *)
Record Column := {
  c_name : string; c_type : ArrowType; c_nullable : bool; c_primary_key : bool;
  c_max_length : option Z; c_extension : option string
}.
#[export] Instance Column_eq_dec : EqDecision Column.
Proof. solve_decision. Defined.
(** A column of a batch: its type and its values. *)
Record ColumnData := { cd_type : ArrowType; cd_values : list (option Scalar) }.
Record Batch := { b_columns : list ColumnData; b_rows : nat }.

Definition MAX_DOCUMENT_ID_BYTES : Z := 512.
Definition ARROW_JSON_EXTENSION_NAME : string := "arrow.json".

Inductive DocumentError :=
| NullId | NullSource | NullRoutingKey | EmptyId | LongId | RoutingKeyMismatch | CustomRouting | InvalidJson | NotAnObjectSource
| NullPrimaryKey | KeyExtension | NonFinite | UnsupportedKeyType | UnsupportedType | UnsupportedExtension | Downcast | JsonText.

Class SerdeJson := {
  Json : Type;
  JNull : Json;
  JBool : bool → Json;
  JInt : Z → Json;
  JFloat : Z → option Json;                          (* [Number::from_f64] *)
  JString : string → Json;
  JObject : list (string * Json) → Json;
  from_str : string → option Json;
  valid_raw : string → bool;                         (* parses as a [RawValue] *)
  to_vec : Json → list Z
}.
(** [URL_SAFE_NO_PAD] and [STANDARD]; an encoding can be decoded. *)
Class Base64 := {
  url_safe_no_pad : list Z → string;
  standard : list Z → string;
  url_safe_inj : ∀ a b, url_safe_no_pad a = url_safe_no_pad b → a = b
}.


Definition append_bytes (output value : list Z) : list Z :=
  output ++ be_bytes 8 (Z.of_nat (length value)) ++ value.

Definition validate_document_id (id : string) : result DocumentError unit :=
  ensure (negb (bool_decide (id = ""))) EmptyId ≫= λ _,
  ensure (bool_decide (string_len id ≤ MAX_DOCUMENT_ID_BYTES)) LongId.

(** [f32::is_finite] and [f64::is_finite] on the bits. *)
Definition finite32 (bits : Z) : bool := negb (bool_decide ((bits / 2 ^ 23) `mod` 256 = 255)).
Definition finite64 (bits : Z) : bool := negb (bool_decide ((bits / 2 ^ 52) `mod` 2048 = 2047)).

Definition int_bytes (n : nat) (v : Scalar) : result DocumentError (list Z) :=
  match v with SInt z => Ok (be_bytes n z) | _ => Err Downcast end.
Definition bytes_value (v : Scalar) : result DocumentError (list Z) :=
  match v with SBytes b => Ok b | _ => Err Downcast end.
Definition str_value (v : Scalar) : result DocumentError string :=
  match v with SStr s => Ok s | _ => Err Downcast end.

Definition stable_scalar_bytes (t : ArrowType) (v : Scalar) (extension : option string) : result DocumentError (list Z) :=
  ensure (bool_decide (extension = None)) KeyExtension ≫= λ _,
  match t with
  | Boolean => match v with SBool b => Ok [if b then 1 else 0] | _ => Err Downcast end
  | Int8 | UInt8 => int_bytes 1 v
  | Int16 | UInt16 => int_bytes 2 v
  | Int32 | UInt32 | Date32 => int_bytes 4 v
  | Int64 | UInt64 | Date64 | Timestamp _ _ | Duration _ => int_bytes 8 v
  | Float32 => match v with
      | SFloat bits => ensure (finite32 bits) NonFinite ≫= λ _, Ok (be_bytes 4 bits) | _ => Err Downcast end
  | Float64 => match v with
      | SFloat bits => ensure (finite64 bits) NonFinite ≫= λ _, Ok (be_bytes 8 bits) | _ => Err Downcast end
  | Utf8 | LargeUtf8 => str_value v ≫= λ s, Ok (string_bytes s)
  | Binary | LargeBinary | FixedSizeBinary _ => bytes_value v
  | Decimal128 _ _ => int_bytes 16 v
  | Decimal256 _ _ => int_bytes 32 v
  | OtherType => Err UnsupportedKeyType
  end.

Definition stable_time_unit (u : TimeUnit) : string :=
  match u with Second => "s" | Millisecond => "ms" | Microsecond => "us" | Nanosecond => "ns" end.

Definition stable_type_tag (t : ArrowType) (extension : option string) : result DocumentError string :=
  (match t with
   | Boolean => Ok "bool" | Int8 => Ok "i8" | Int16 => Ok "i16" | Int32 => Ok "i32" | Int64 => Ok "i64"
   | UInt8 => Ok "u8" | UInt16 => Ok "u16" | UInt32 => Ok "u32" | UInt64 => Ok "u64"
   | Float32 => Ok "f32" | Float64 => Ok "f64" | Utf8 => Ok "utf8" | LargeUtf8 => Ok "large_utf8"
   | Binary => Ok "binary" | LargeBinary => Ok "large_binary"
   | FixedSizeBinary w => Ok ("fixed_binary:" +:+ pretty w)
   | Decimal128 p s => Ok ("decimal128:" +:+ pretty p +:+ ":" +:+ pretty s)
   | Decimal256 p s => Ok ("decimal256:" +:+ pretty p +:+ ":" +:+ pretty s)
   | Date32 => Ok "date32" | Date64 => Ok "date64"
   | Timestamp u tz => Ok ("timestamp:" +:+ stable_time_unit u +:+ ":" +:+ default "" tz)
   | Duration u => Ok ("duration:" +:+ stable_time_unit u)
   | OtherType => Err UnsupportedKeyType
   end) ≫= λ base,
  Ok (match extension with Some e => base +:+ ":extension:" +:+ e | None => base end).

(** The value of column [position] at [row]. *)
Definition cell (b : Batch) (position row : nat) : option Scalar :=
  default None (b_columns b !! position ≫= λ c, cd_values c !! row).
Definition column_type (b : Batch) (position : nat) : ArrowType :=
  from_option cd_type OtherType (b_columns b !! position).

Section encode.
Context `{SerdeJson, Base64}.

(** One turn of the loop of [composite_document_id]. *)
Definition append_key (b : Batch) (schema : list Column) (row : nat) (encoded : list Z) (position : nat)
    : result DocumentError (list Z) :=
  ok_or (cell b position row) NullPrimaryKey ≫= λ v,
  ok_or (schema !! position) NullPrimaryKey ≫= λ column,
  stable_type_tag (c_type column) (c_extension column) ≫= λ tag,
  stable_scalar_bytes (column_type b position) v (c_extension column) ≫= λ value,
  Ok (append_bytes (append_bytes encoded (string_bytes tag)) value).

Definition composite_document_id (b : Batch) (schema : list Column) (primary_keys : list nat) (row : nat)
    : result DocumentError string :=
  for_each (append_key b schema row) primary_keys [] ≫= λ encoded, Ok (url_safe_no_pad encoded).

Definition routed_document_id (id routing_key : string) : result DocumentError string :=
  let encoded := append_bytes (append_bytes (append_bytes []
    (string_bytes "transferia:opensearch:routed-identity:v1")) (string_bytes id)) (string_bytes routing_key) in
  let destination_id := url_safe_no_pad encoded in
  validate_document_id destination_id ≫= λ _, Ok destination_id.

Definition build_action (index id : string) (routing : option string) (source : list Z) : BulkAction :=
  let metadata := [("_index", JString index); ("_id", JString id)] ++
    match routing with Some r => [("routing", JString r)] | None => [] end in
  let metadata := to_vec (JObject [("index", JObject metadata)]) in
  let ndjson := metadata ++ [10] ++ source ++ [10] in
  {| ba_id := id; ndjson := ndjson; ba_bytes := Z.of_nat (length ndjson) |}.

Definition destination_id (r : RoutedIdentity) (source_id : string) (route : option string) (routing_key : string)
    : result DocumentError string :=
  match r with
  | FailOnRouting => ensure (bool_decide (route = None)) CustomRouting ≫= λ _, Ok source_id
  | EncodeIdentity => routed_document_id source_id routing_key
  end.

(** [decimal_text]; the scale is an [i8]. *)
Fixpoint zeros (n : nat) : string := match n with O => "" | S n => String "0"%char (zeros n) end.
Definition strip_minus (s : string) : bool * string :=
  match s with String "-"%char s => (true, s) | _ => (false, s) end.
Definition decimal_text (unscaled : string) (scale : Z) : string :=
  if bool_decide (scale = 0) then unscaled
  else if bool_decide (scale < 0) then unscaled +:+ zeros (Z.to_nat (- scale))
  else
    let '(negative, digits) := strip_minus unscaled in
    let scale := Z.to_nat scale in
    let sign := if negative : bool then "-" else "" in
    if bool_decide (String.length digits ≤ scale)%nat then
      sign +:+ "0." +:+ zeros (scale - String.length digits) +:+ digits
    else
      let split := (String.length digits - scale)%nat in
      sign +:+ String.substring 0 split digits +:+ "." +:+ String.substring split scale digits.

Definition int_value (v : Scalar) : result DocumentError Z := match v with SInt z => Ok z | _ => Err Downcast end.
Definition finite_number (finite : bool) (bits : Z) : result DocumentError Json :=
  ensure finite NonFinite ≫= λ _, ok_or (JFloat bits) NonFinite.

(** [arrow_json_value]; [widen] is [f64::from(f32)] on the bits. *)
Definition arrow_json_value (widen : Z → Z) (t : ArrowType) (v : option Scalar) (extension : option string)
    : result DocumentError Json :=
  match v with
  | None => Ok JNull
  | Some v =>
      if bool_decide (extension = Some ARROW_JSON_EXTENSION_NAME) then
        match t with
        | Utf8 | LargeUtf8 => str_value v ≫= λ text, ok_or (from_str text) JsonText
        | _ => Err UnsupportedType
        end
      else
        ensure (bool_decide (extension = None)) UnsupportedExtension ≫= λ _,
        match t with
        | Boolean => match v with SBool b => Ok (JBool b) | _ => Err Downcast end
        | Int8 | Int16 | Int32 | Int64 | UInt8 | UInt16 | UInt32 | UInt64 | Date32 | Date64
        | Timestamp _ _ | Duration _ => int_value v ≫= λ z, Ok (JInt z)
        | Float32 => match v with SFloat bits => finite_number (finite64 (widen bits)) (widen bits) | _ => Err Downcast end
        | Float64 => match v with SFloat bits => finite_number (finite64 bits) bits | _ => Err Downcast end
        | Utf8 | LargeUtf8 => str_value v ≫= λ s, Ok (JString s)
        | Binary | LargeBinary | FixedSizeBinary _ => bytes_value v ≫= λ b, Ok (JString (standard b))
        | Decimal128 _ scale | Decimal256 _ scale => int_value v ≫= λ z, Ok (JString (decimal_text (pretty z) scale))
        | OtherType => Err UnsupportedType
        end
  end.

(** The fields of the document, in column order, without [_id] and [_routing]. *)
Definition document_fields (widen : Z → Z) (schema : list Column) (b : Batch) (row : nat)
    : result DocumentError (list (string * Json)) :=
  for_each (λ object ic,
    if bool_decide (c_name ic.2 = "_id") || bool_decide (c_name ic.2 = "_routing") then Ok object
    else arrow_json_value widen (column_type b ic.1) (cell b ic.1 row) (c_extension ic.2) ≫= λ v,
         Ok (object ++ [(c_name ic.2, v)])) (imap pair schema) [].

Definition primary_keys (schema : list Column) : list nat :=
  (filter (λ ic, c_primary_key ic.2 = true) (imap pair schema)).*1.
Definition position (n : string) (schema : list Column) : option nat := fst <$> list_find (λ c, c_name c = n) schema.

(** A [StringArray] is downcast from a column of type [Utf8]. *)
Definition string_cell (b : Batch) (position row : nat) : result DocumentError (option string) :=
  ensure (bool_decide (column_type b position = Utf8)) Downcast ≫= λ _,
  match cell b position row with
  | None => Ok None
  | Some v => str_value v ≫= λ s, Ok (Some s)
  end.

(** The id and the route of a row of a flat batch. *)
Definition flat_identity (schema : list Column) (b : Batch) (row : nat) : result DocumentError (string * option string) :=
  (match position "_id" schema with
   | Some p => string_cell b p row ≫= λ id, ok_or id NullId
   | None => composite_document_id b schema (primary_keys schema) row
   end) ≫= λ source_id,
  validate_document_id source_id ≫= λ _,
  (match position "_routing" schema with
   | Some p => string_cell b p row
   | None => Ok None
   end) ≫= λ route,
  Ok (source_id, route).

(** The body of the loop of [encode_flat]. *)
Definition encode_flat_row (widen : Z → Z) (index : string) (schema : list Column) (b : Batch) (routed : RoutedIdentity)
    (row : nat) : result DocumentError BulkAction :=
  flat_identity schema b row ≫= λ '(source_id, route),
  destination_id routed source_id route (default source_id route) ≫= λ id,
  document_fields widen schema b row ≫= λ object,
  Ok (build_action index id route (to_vec (JObject object))).

Definition encode_flat (widen : Z → Z) (index : string) (schema : list Column) (b : Batch) (routed : RoutedIdentity)
    : result DocumentError (list BulkAction) :=
  mapM (encode_flat_row widen index schema b routed) (seq 0 (b_rows b)).


(** The body of the loop of [encode_envelope]. *)
Definition encode_envelope_row (index : string) (b : Batch) (routed : RoutedIdentity) (row : nat)
    : result DocumentError BulkAction :=
  string_cell b 0 row ≫= λ id, ok_or id NullId ≫= λ id,
  string_cell b 2 row ≫= λ source, ok_or source NullSource ≫= λ source,
  string_cell b 3 row ≫= λ key, ok_or key NullRoutingKey ≫= λ routing_key,
  validate_document_id id ≫= λ _,
  string_cell b 1 row ≫= λ route,
  ensure (bool_decide (default id route = routing_key)) RoutingKeyMismatch ≫= λ _,
  destination_id routed id route routing_key ≫= λ destination,
  ensure (valid_raw source) InvalidJson ≫= λ _,
  ensure (bool_decide (head (filter (λ c, is_ascii_whitespace c = false) (string_bytes source)) = Some 123))
    NotAnObjectSource ≫= λ _,
  Ok (build_action index destination route (string_bytes source)).

Definition encode_envelope (index : string) (b : Batch) (routed : RoutedIdentity) : result DocumentError (list BulkAction) :=
  for_each (λ _ p, ensure (bool_decide (column_type b p = Utf8)) Downcast) [0; 1; 2; 3]%nat tt ≫= λ _,
  mapM (encode_envelope_row index b routed) (seq 0 (b_rows b)).

Inductive DocumentShape := Envelope | Flat.

Definition envelope_schema : list Column :=
  [ {| c_name := "_id"; c_type := Utf8; c_nullable := false; c_primary_key := true;
       c_max_length := Some MAX_DOCUMENT_ID_BYTES; c_extension := None |};
    {| c_name := "_routing"; c_type := Utf8; c_nullable := true; c_primary_key := false;
       c_max_length := None; c_extension := None |};
    {| c_name := "_source"; c_type := Utf8; c_nullable := false; c_primary_key := false;
       c_max_length := None; c_extension := Some ARROW_JSON_EXTENSION_NAME |};
    {| c_name := "_routing_key"; c_type := Utf8; c_nullable := false; c_primary_key := true;
       c_max_length := None; c_extension := None |} ].

Definition document_shape (schema : list Column) : DocumentShape :=
  if decide (schema = envelope_schema) then Envelope else Flat.

Definition encode_document_batch (widen : Z → Z) (index : string) (schema : list Column) (b : Batch) (routed : RoutedIdentity)
    : result DocumentError (list BulkAction) :=
  match document_shape schema with
  | Envelope => encode_envelope index b routed
  | Flat => encode_flat widen index schema b routed
  end.
End encode.

(** ** Framing *)
Lemma Ok_inj {E A} (a b : A) : Ok (E := E) a = Ok b → a = b.
Proof. by intros [= ->]. Qed.

Lemma append_frame output v : append_bytes output v = output ++ frame v.
Proof. done. Qed.

(** ** Key values *)

(** The values a type has. *)
Definition scalar_ok (t : ArrowType) (v : Scalar) : Prop :=
  match t, v with
  | Int8, SInt z => signed 1 z | UInt8, SInt z => unsigned 1 z
  | Int16, SInt z => signed 2 z | UInt16, SInt z => unsigned 2 z
  | (Int32 | Date32), SInt z => signed 4 z | UInt32, SInt z => unsigned 4 z
  | (Int64 | Date64 | Timestamp _ _ | Duration _), SInt z => signed 8 z | UInt64, SInt z => unsigned 8 z
  | Decimal128 _ _, SInt z => signed 16 z | Decimal256 _ _, SInt z => signed 32 z
  | Float32, SFloat bits => unsigned 4 bits | Float64, SFloat bits => unsigned 8 bits
  | (Utf8 | LargeUtf8), SStr s => short (string_bytes s)
  | (Binary | LargeBinary | FixedSizeBinary _), SBytes b => short b
  | Boolean, SBool _ => True
  | _, _ => False
  end.



(** Within one type, equal key bytes are equal values. *)
Lemma scalar_bytes_inj t v1 v2 e bytes :
  scalar_ok t v1 → scalar_ok t v2 →
  stable_scalar_bytes t v1 e = Ok bytes → stable_scalar_bytes t v2 e = Ok bytes → v1 = v2.
Proof.
  unfold stable_scalar_bytes. destruct (ensure (bool_decide (e = None)) KeyExtension); [|done]. cbn.
  intros H1 H2 E1 E2.
  destruct t, v1; try done; destruct v2; try done; cbn in E1, E2, H1, H2;
    repeat match goal with E : (ensure _ _ ≫= _) = Ok _ |- _ => apply bind_Ok in E as (? & _ & E) end;
    rewrite <-E2 in E1; apply Ok_inj in E1; clear E2; f_equal;
    first [ by apply string_bytes_inj | by eapply be_bytes_signed; [|exact H1|exact H2|]; [lia|]
          | by eapply be_bytes_unsigned; [exact H1|exact H2|] | by destruct b, b0 | done ].
Qed.

Lemma scalar_bytes_short t v e bytes : scalar_ok t v → stable_scalar_bytes t v e = Ok bytes → short bytes.
Proof.
  unfold stable_scalar_bytes. destruct (ensure (bool_decide (e = None)) KeyExtension); [|done]. cbn. intros Hv E.
  destruct t, v; try done; cbn in E, Hv;
    repeat match goal with E : (ensure _ _ ≫= _) = Ok _ |- _ => apply bind_Ok in E as (? & _ & E) end;
    injection E as <-; first [ exact Hv | unfold short; rewrite ?length_be_bytes; cbn; lia ].
Qed.

(** Every value is one of its column's type. *)
Definition batch_ok (b : Batch) : Prop :=
  ∀ p c row v, b_columns b !! p = Some c → cd_values c !! row = Some (Some v) → scalar_ok (cd_type c) v.

Lemma cell_ok b p row v : batch_ok b → cell b p row = Some v → scalar_ok (column_type b p) v.
Proof.
  intros Hb Hc. unfold cell, column_type in *. destruct (b_columns b !! p) as [c|] eqn:Hp; [|done]. cbn in *.
  destruct (cd_values c !! row) as [o|] eqn:Hr; [|done]. cbn in Hc. subst o. by apply (Hb p c row v).
Qed.

Lemma string_cell_ok b p row s : batch_ok b → string_cell b p row = Ok (Some s) → cell b p row = Some (SStr s) ∧ short (string_bytes s).
Proof.
  intros Hb Hs. unfold string_cell in Hs. apply bind_Ok in Hs as ([] & Ht%ensure_Ok%bool_decide_eq_true & Hs).
  destruct (cell b p row) as [v|] eqn:Hc; [|done]. apply bind_Ok in Hs as (s' & Hv & [= ->]).
  destruct v; try done. injection Hv as ->. split; [done|]. pose proof (cell_ok b p row _ Hb Hc) as Hok.
  by rewrite Ht in Hok.
Qed.

Section identity.
Context `{SerdeJson, Base64}.

(** The keys of two rows are framed alike. *)
Lemma append_keys_inj b schema ks i j a1 a2 x1 x2 :
  batch_ok b → for_each (append_key b schema i) ks a1 = Ok x1 → for_each (append_key b schema j) ks a2 = Ok x2 →
  ∃ s1 s2, x1 = a1 ++ s1 ∧ x2 = a2 ++ s2 ∧ (s1 = s2 → Forall (λ p, cell b p i = cell b p j) ks).
Proof.
  intros Hb. revert a1 a2. induction ks as [|p ks IH]; intros a1 a2 E1 E2; cbn in E1, E2.
  { injection E1 as <-. injection E2 as <-. exists [], []. by rewrite !app_nil_r. }
  apply bind_Ok in E1 as (y1 & K1 & E1). apply bind_Ok in E2 as (y2 & K2 & E2).
  unfold append_key in K1, K2.
  destruct (cell b p i) as [v1|] eqn:C1; [|done]. destruct (cell b p j) as [v2|] eqn:C2; [|done]. cbn in K1, K2.
  destruct (schema !! p) as [col|]; [|done]. cbn in K1, K2.
  destruct (stable_type_tag (c_type col) (c_extension col)) as [tag|]; [|done]. cbn in K1, K2.
  apply bind_Ok in K1 as (b1 & B1 & [= <-]). apply bind_Ok in K2 as (b2 & B2 & [= <-]).
  destruct (IH _ _ E1 E2) as (s1 & s2 & -> & -> & Hs). rewrite !append_frame, <-!app_assoc.
  eexists _, _. split; [done|]. split; [done|]. intros Heq. apply app_inv_head in Heq.
  pose proof (cell_ok b p i v1 Hb C1) as O1. pose proof (cell_ok b p j v2 Hb C2) as O2.
  apply frame_inj in Heq as [-> Heq];
    [|exact (scalar_bytes_short _ _ _ _ O1 B1)|exact (scalar_bytes_short _ _ _ _ O2 B2)].
  constructor; [|by apply Hs]. rewrite C1, C2. f_equal. exact (scalar_bytes_inj _ _ _ _ _ O1 O2 B1 B2).
Qed.

Lemma composite_inj b schema ks i j id :
  batch_ok b → composite_document_id b schema ks i = Ok id → composite_document_id b schema ks j = Ok id →
  Forall (λ p, cell b p i = cell b p j) ks.
Proof.
  intros Hb E1 E2. apply bind_Ok in E1 as (x1 & E1 & [= U1]). apply bind_Ok in E2 as (x2 & E2 & [= U2]).
  destruct (append_keys_inj b schema ks i j [] [] x1 x2 Hb E1 E2) as (s1 & s2 & -> & -> & Hs).
  apply Hs. rewrite <-U2 in U1. by apply url_safe_inj in U1.
Qed.

Lemma routed_inj id1 key1 id2 key2 x :
  short (string_bytes id1) → short (string_bytes key1) → short (string_bytes id2) → short (string_bytes key2) →
  routed_document_id id1 key1 = Ok x → routed_document_id id2 key2 = Ok x → id1 = id2 ∧ key1 = key2.
Proof.
  intros S1 S2 S3 S4 E1 E2. apply bind_Ok in E1 as (_ & _ & [= U1]). apply bind_Ok in E2 as (_ & _ & [= U2]).
  rewrite <-U2 in U1. apply url_safe_inj in U1. rewrite !append_frame, <-!app_assoc in U1. cbn [app] in U1.
  apply app_inv_head in U1. apply frame_inj in U1 as [E%string_bytes_inj U1]; [|done..].
  rewrite <-(app_nil_r (frame (string_bytes key1))), <-(app_nil_r (frame (string_bytes key2))) in U1.
  by apply frame_inj in U1 as [E'%string_bytes_inj _].
Qed.

Lemma validate_id_ok id : validate_document_id id = Ok tt → id ≠ "" ∧ string_len id ≤ 512.
Proof.
  intros E. apply bind_Ok in E as ([] & H1%ensure_Ok%negb_true_iff%bool_decide_eq_false & H2%ensure_Ok%bool_decide_eq_true).
  done.
Qed.

Lemma short_id id : validate_document_id id = Ok tt → short (string_bytes id).
Proof. intros [_ Hl]%validate_id_ok. unfold string_len, short in *. lia. Qed.

(** The destination id determines the source identity and keeps to the limits. *)
Lemma destination_inj r id1 route1 key1 id2 route2 key2 x :
  validate_document_id id1 = Ok tt → validate_document_id id2 = Ok tt →
  short (string_bytes key1) → short (string_bytes key2) → key1 = default id1 route1 → key2 = default id2 route2 →
  destination_id r id1 route1 key1 = Ok x → destination_id r id2 route2 key2 = Ok x → id1 = id2 ∧ key1 = key2.
Proof.
  intros V1 V2 S1 S2 K1 K2 E1 E2. destruct r; cbn in E1, E2.
  - apply bind_Ok in E1 as ([] & R1%ensure_Ok%bool_decide_eq_true & [= <-]).
    apply bind_Ok in E2 as ([] & R2%ensure_Ok%bool_decide_eq_true & [= <-]). subst route1 route2. by subst.
  - exact (routed_inj _ _ _ _ _ (short_id _ V1) S1 (short_id _ V2) S2 E1 E2).
Qed.

Lemma destination_valid r id route key x :
  validate_document_id id = Ok tt → destination_id r id route key = Ok x → x ≠ "" ∧ string_len x ≤ 512.
Proof.
  intros V E. destruct r; cbn in E.
  - apply bind_Ok in E as (_ & _ & [= <-]). by apply validate_id_ok.
  - apply bind_Ok in E as ([] & E & [= <-]). by apply validate_id_ok.
Qed.

(** What a row of a flat batch is identified by. *)
Lemma flat_identity_ok b schema row id route :
  batch_ok b → flat_identity schema b row = Ok (id, route) →
  validate_document_id id = Ok tt ∧ short (string_bytes (default id route)) ∧
  match position "_id" schema with
  | Some p => cell b p row = Some (SStr id)
  | None => composite_document_id b schema (primary_keys schema) row = Ok id
  end.
Proof.
  intros Hb E. unfold flat_identity in E. apply bind_Ok in E as (id' & Hid & E).
  apply bind_Ok in E as ([] & Hv & E). apply bind_Ok in E as (route' & Hr & [= -> ->]). split; [done|]. split.
  - destruct route as [r|]; [|by apply short_id]. destruct (position "_routing" schema) as [p|]; [|done].
    by apply string_cell_ok in Hr as [_ ?].
  - destruct (position "_id" schema) as [p|]; [|done]. apply bind_Ok in Hid as ([s|] & Hs & Hid); [|done].
    injection Hid as ->. by apply string_cell_ok in Hs as [? _].
Qed.

(** What every action satisfies: an id within the limits, and one line of metadata and
    one of source, each ended by a newline. *)
Definition action_ok (a : BulkAction) : Prop :=
  ba_id a ≠ "" ∧ string_len (ba_id a) ≤ 512 ∧ ba_bytes a = Z.of_nat (length (ndjson a)) ∧ last (ndjson a) = Some 10.

Lemma build_action_ok index id route source : id ≠ "" → string_len id ≤ 512 → action_ok (build_action index id route source).
Proof.
  intros H1 H2. unfold build_action, action_ok. cbn [ba_id ba_bytes ndjson]. split_and!; try done.
  by rewrite !app_assoc, last_snoc.
Qed.

(** Two rows of a flat batch with one document id have one identity. *)
Lemma flat_rows_inj widen index schema b r i j a1 a2 :
  batch_ok b → encode_flat_row widen index schema b r i = Ok a1 → encode_flat_row widen index schema b r j = Ok a2 →
  action_ok a1 ∧
  (ba_id a1 = ba_id a2 → ∃ id route1 route2,
     flat_identity schema b i = Ok (id, route1) ∧ flat_identity schema b j = Ok (id, route2) ∧
     default id route1 = default id route2 ∧
     Forall (λ p, cell b p i = cell b p j) (match position "_id" schema with Some p => [p] | None => primary_keys schema end)).
Proof.
  intros Hb E1 E2. apply bind_Ok in E1 as ([id1 route1] & F1 & E1). apply bind_Ok in E2 as ([id2 route2] & F2 & E2).
  destruct (flat_identity_ok b schema i id1 route1 Hb F1) as (V1 & S1 & C1).
  destruct (flat_identity_ok b schema j id2 route2 Hb F2) as (V2 & S2 & C2).
  apply bind_Ok in E1 as (x1 & D1 & E1). apply bind_Ok in E2 as (x2 & D2 & E2).
  apply bind_Ok in E1 as (o1 & _ & [= <-]). apply bind_Ok in E2 as (o2 & _ & [= <-]).
  split; [destruct (destination_valid _ _ _ _ _ V1 D1); by apply build_action_ok|]. cbn [ba_id build_action]. intros ->.
  destruct (destination_inj _ _ _ _ _ _ _ _ V1 V2 S1 S2 eq_refl eq_refl D1 D2) as [-> Hkey].
  exists id2, route1, route2. split_and!; try done. destruct (position "_id" schema) as [p|].
  - constructor; [by rewrite C1, C2|constructor].
  - by eapply composite_inj.
Qed.

(** Two rows of an envelope batch with one document id have one id and one routing key. *)
Lemma envelope_rows_inj index b r i j a1 a2 :
  batch_ok b → encode_envelope_row index b r i = Ok a1 → encode_envelope_row index b r j = Ok a2 →
  action_ok a1 ∧ (ba_id a1 = ba_id a2 → cell b 0 i = cell b 0 j ∧ cell b 3 i = cell b 3 j).
Proof.
  intros Hb. assert (∀ row a, encode_envelope_row index b r row = Ok a → ∃ id key route x source,
    cell b 0 row = Some (SStr id) ∧ cell b 3 row = Some (SStr key) ∧ short (string_bytes key) ∧
    validate_document_id id = Ok tt ∧ default id route = key ∧ destination_id r id route key = Ok x ∧
    a = build_action index x route source) as Hrow.
  { intros row a E. unfold encode_envelope_row in E.
    apply bind_Ok in E as ([id|] & I & E); [|done]. apply bind_Ok in E as (id' & [= <-] & E).
    apply bind_Ok in E as ([source|] & _ & E); [|done]. apply bind_Ok in E as (source' & [= <-] & E).
    apply bind_Ok in E as ([key|] & K & E); [|done]. apply bind_Ok in E as (key' & [= <-] & E).
    apply bind_Ok in E as ([] & V & E). apply bind_Ok in E as (route & _ & E).
    apply bind_Ok in E as ([] & M%ensure_Ok%bool_decide_eq_true & E). apply bind_Ok in E as (x & D & E).
    apply bind_Ok in E as (_ & _ & E). apply bind_Ok in E as (_ & _ & [= <-]).
    apply string_cell_ok in I as [I _]; [|done]. apply string_cell_ok in K as [K S]; [|done].
    by exists id, key, route, x, (string_bytes source). }
  intros (id1 & key1 & route1 & x1 & s1 & I1 & K1 & S1 & V1 & M1 & D1 & ->)%Hrow
         (id2 & key2 & route2 & x2 & s2 & I2 & K2 & S2 & V2 & M2 & D2 & ->)%Hrow.
  split; [destruct (destination_valid _ _ _ _ _ V1 D1); by apply build_action_ok|]. cbn [ba_id build_action]. intros ->.
  destruct (destination_inj _ _ _ _ _ _ _ _ V1 V2 S1 S2 (eq_sym M1) (eq_sym M2) D1 D2) as [-> ->].
  by rewrite I1, I2, K1, K2.
Qed.

Lemma mapM_rows {A} (f : nat → result DocumentError A) n l :
  mapM f (seq 0 n) = Ok l → length l = n ∧ ∀ i a, l !! i = Some a → f i = Ok a.
Proof.
  intros Hf%mapM_Ok. pose proof (Forall2_length _ _ _ Hf) as Hl. rewrite length_seq in Hl. split; [done|].
  intros i a Ha. destruct (Forall2_lookup_r _ _ _ _ _ Hf Ha) as (k & Hk & E). apply lookup_seq in Hk as [-> _]. done.
Qed.

(** The id of a document is its identity.  Encoding a batch gives one action per
    row, with an id of 1 to 512 bytes, its exact size and a final newline.  Two rows get
    the same document id only if they have the same id (the [_id] column, or every
    primary-key value when there is none) and the same effective routing key; under
    [FailOnRouting] no row is routed. *)
Theorem document_identity widen index schema b routed actions :
  batch_ok b → encode_document_batch widen index schema b routed = Ok actions →
  length actions = b_rows b ∧ Forall action_ok actions ∧
  ∀ i j a1 a2, actions !! i = Some a1 → actions !! j = Some a2 → ba_id a1 = ba_id a2 →
    match document_shape schema with
    | Envelope => cell b 0 i = cell b 0 j ∧ cell b 3 i = cell b 3 j
    | Flat => ∃ id route1 route2,
        flat_identity schema b i = Ok (id, route1) ∧ flat_identity schema b j = Ok (id, route2) ∧
        default id route1 = default id route2 ∧
        Forall (λ p, cell b p i = cell b p j)
          (match position "_id" schema with Some p => [p] | None => primary_keys schema end)
    end.
Proof.
  intros Hb E. unfold encode_document_batch in E. destruct (document_shape schema).
  - apply bind_Ok in E as (_ & _ & E). destruct (mapM_rows _ _ _ E) as [Hl Hrow]. split; [done|]. split.
    + apply Forall_forall. intros a [i Ha]%list_elem_of_lookup. apply Hrow in Ha.
      by destruct (envelope_rows_inj index b routed i i a a Hb Ha Ha).
    + intros i j a1 a2 H1%Hrow H2%Hrow. by apply (envelope_rows_inj index b routed).
  - destruct (mapM_rows _ _ _ E) as [Hl Hrow]. split; [done|]. split.
    + apply Forall_forall. intros a [i Ha]%list_elem_of_lookup. apply Hrow in Ha.
      by destruct (flat_rows_inj widen index schema b routed i i a a Hb Ha Ha).
    + intros i j a1 a2 H1%Hrow H2%Hrow. by apply (flat_rows_inj widen index schema b routed).
Qed.
End identity.

(** ** An instance *)
#[local] Instance example_json : SerdeJson :=
  {| Json := nat; JNull := 0%nat; JBool := λ _, 1%nat; JInt := λ _, 2%nat; JFloat := λ _, Some 3%nat; JString := λ _, 4%nat;
     JObject := λ l, (5 + length l)%nat; from_str := λ _, Some 0%nat; valid_raw := λ _, true; to_vec := λ j, [Z.of_nat j] |}.

(** Any injective text encoding. *)
Definition example_text (l : list Z) : string := pretty (N.pos (encode l)).
Lemma example_text_inj a b : example_text a = example_text b → a = b.
Proof.
  intros E. unfold example_text in E. apply (inj (pretty (A := N))) in E. apply (inj encode). congruence.
Qed.
#[local] Instance example_base64 : Base64 :=
  {| url_safe_no_pad := example_text; standard := example_text; url_safe_inj := example_text_inj |}.

Definition key_schema : list Column :=
  [ {| c_name := "k"; c_type := Int64; c_nullable := false; c_primary_key := true; c_max_length := None; c_extension := None |} ].
Definition key_batch : Batch :=
  {| b_columns := [ {| cd_type := Int64; cd_values := [Some (SInt 5); Some (SInt 6); Some (SInt 5)] |} ]; b_rows := 3 |}.

Lemma key_batch_ok : batch_ok key_batch.
Proof.
  intros [|p] c row v; [|done]. intros [= <-]. cbn. destruct row as [|[|[|row]]]; try done; intros [= <-]; cbn; unfold signed; cbn; lia.
Qed.

Lemma document_identity_witness :
  ∃ actions a1 a2, encode_document_batch (λ z, z) "users" key_schema key_batch FailOnRouting = Ok actions ∧
    actions !! 0%nat = Some a1 ∧ actions !! 2%nat = Some a2 ∧ ba_id a1 = ba_id a2 ∧ action_ok a1 ∧
    ∃ id route1 route2, flat_identity key_schema key_batch 0 = Ok (id, route1) ∧
      flat_identity key_schema key_batch 2 = Ok (id, route2) ∧ default id route1 = default id route2 ∧
      Forall (λ p, cell key_batch p 0 = cell key_batch p 2) [0%nat].
Proof.
  destruct (encode_document_batch (λ z, z) "users" key_schema key_batch FailOnRouting) as [actions|] eqn:E;
    [|exfalso; vm_compute in E; discriminate E].
  destruct (document_identity (λ z, z) "users" key_schema key_batch FailOnRouting actions key_batch_ok E)
    as (Hl & Hok & Hid).
  assert (∃ a1 a2 a3, actions = [a1; a2; a3] ∧ ba_id a1 = ba_id a3) as (a1 & a2 & a3 & -> & Heq).
  { vm_compute in E. injection E as <-. do 3 eexists. split; reflexivity. }
  exists [a1; a2; a3], a1, a3. split; [reflexivity|]. split; [reflexivity|]. split; [reflexivity|]. split; [exact Heq|].
  split; [exact (Forall_inv Hok)|]. exact (Hid 0%nat 2%nat a1 a3 eq_refl eq_refl Heq).
Defined.
