(* ===== verification/OpenSearchSink.v ===== *)
(** * The OpenSearch sink

    [OpenSearchSink] of [sink/actor.rs] of [transferia-connector-opensearch]: deliveries
    are encoded into actions, buffered per index, flushed by size, age or memory
    pressure, and acknowledged to the source through the delivery tracker.

    One turn of the loop of [run_actor] is [turn]; a [Turn] has what the environment
    answers during it: readings of the clock, the memory pressure, the answers of the
    service, and what the final [select!] received.  A [Move] is a turn, the start of a
    new session on the same sink, or [update_discovery].  The order in which a [HashMap]
    iterates is a parameter; the encoding of a batch ([sink/document.rs]) is an interface.
    Pending actions own their memory reservations, which are dropped with them; [reserved]
    lists the reservations made.  [accepted] and [writes] are traces: what was accepted,
    and the chunks of the flushes that succeeded; they influence no step. *)

From stdpp Require Import base tactics numbers option strings gmap fin_maps fin_sets sorting relations list.
From S2P Require Import Prelude DeliveryId DeliveryTracker RowCount Schema Arrow Delivery Changelog Failure Reader Admission Retry OpenSearchBulk OpenSearchLanes.
Local Open Scope Z_scope.

Record IndexBuffer := { first_seen : Z; ib_rows : Z; ib_bytes : Z; ib_actions : list PendingAction }.

Definition E_VALIDATE : nat := 51.
Definition E_PROJECT : nat := 52.
Definition E_APPEND_ONLY : nat := 53.
Definition E_REPEATED_ID : nat := 54.
Definition E_PENDING_ID : nat := 55.
Definition E_SIZE : nat := 56.
Definition E_TRACKER : nat := 57.
Definition E_MISSING_BUFFER : nat := 58.
Definition E_EVENTS_CLOSED : nat := 59.
Definition E_INCOMPLETE : nat := 60.

(** Why the actor failed, and the failure it returns. *)
Inductive ActorError :=
| AcceptFailed (e : AnyhowError)
| MissingBuffer
| WriteFailed (f : DataPlaneFailure)
| CompleteFailed
| EventsClosed
| Incomplete.
Definition actor_failure (e : ActorError) : DataPlaneFailure :=
  match e with
  | AcceptFailed e => Failure.fatal_or_passthrough e
  | MissingBuffer => Failure.fatal_or_passthrough (OtherError E_MISSING_BUFFER)
  | WriteFailed f => f
  | CompleteFailed => Failure.fatal E_TRACKER
  | EventsClosed => Failure.fatal E_EVENTS_CLOSED
  | Incomplete => Failure.fatal E_INCOMPLETE
  end.

Section sink.
Context {AT : ArrowTypes} {AV : ArrowValues} {AC : ArrowCompute}.
Context (config : OpenSearchSinkConfig) (partition_id : Z).
Context (encode_batch : string → DatasetSchema → RecordBatch → RoutedIdentity → result AnyhowError (list BulkAction)).
Context (hash_iter : gmap string IndexBuffer → list (string * IndexBuffer)).

Record OpenSearchSink := {
  discovery : DeliveryDiscovery;
  buffers : gmap string IndexBuffer;
  pending_identities : gset (string * string);
  progress : DeliveryTracker;
  reserved : list Z
}.

Definition sink_new (d : DeliveryDiscovery) : OpenSearchSink :=
  {| discovery := d; buffers := ∅; pending_identities := ∅; progress := DeliveryTracker.new; reserved := [] |}.

(** ** [accept] *)
Definition anyhow {E A} (cause : nat) (r : result E A) : result AnyhowError A :=
  match r with Ok a => Ok a | Err _ => Err (OtherError cause) end.

Abbreviation Prepared := (list (string * BulkAction) * gset (string * string))%type (only parsing).

(** The inner loop over the encoded actions of one output. *)
Definition prepare_action (self : OpenSearchSink) (index : string) (acc : Prepared) (action : BulkAction)
    : result AnyhowError Prepared :=
  let key := (index, ba_id action) in
  ensure (bool_decide (key ∉ acc.2)) (OtherError E_REPEATED_ID) ≫= λ _,
  ensure (bool_decide (key ∉ pending_identities self)) (OtherError E_PENDING_ID) ≫= λ _,
  Ok (acc.1 ++ [(index, action)], {[key]} ∪ acc.2).

Definition prepare_output (self : OpenSearchSink) (acc : Prepared) (output : SinkBatch) : result AnyhowError Prepared :=
  anyhow E_VALIDATE (dataset_named (discovery self) (from_is_dlq (sb_is_dlq output)) (sb_table output)) ≫= λ ds,
  anyhow E_PROJECT (project_sink_batch (discovery self) output) ≫= λ projected,
  match projected with
  | Changelog _ => Err (OtherError E_APPEND_ONLY)
  | AppendOnly batch =>
      encode_batch (sb_table output) (stored_schema ds) batch (routed_identity config) ≫= λ actions,
      for_each (prepare_action self (sb_table output)) actions acc
  end.

(** What [accept] checks and encodes before it changes anything. *)
Definition prepare (self : OpenSearchSink) (d : Delivery) : result AnyhowError (Prepared * Z) :=
  for_each (λ _ output, anyhow E_VALIDATE (validate_batch_against_discovery (discovery self) output) ≫= λ _, Ok tt)
    (del_outputs d) tt ≫= λ _,
  for_each (prepare_output self) (del_outputs d) ([], ∅) ≫= λ prepared,
  for_each (λ total p, ok_or (checked_add usize_max total (ba_bytes p.2)) (OtherError E_SIZE)) prepared.1 0 ≫= λ bytes,
  Ok (prepared, bytes).

Definition buffer_action (now : Z) (id : DeliveryId) (m : gmap string IndexBuffer) (p : string * BulkAction)
    : gmap string IndexBuffer :=
  let b := default {| first_seen := now; ib_rows := 0; ib_bytes := 0; ib_actions := [] |} (m !! p.1) in
  <[p.1 := {| first_seen := first_seen b; ib_rows := saturating_add usize_max (ib_rows b) 1;
              ib_bytes := saturating_add usize_max (ib_bytes b) (ba_bytes p.2);
              ib_actions := ib_actions b ++ [{| pa_delivery := id; pa_action := p.2 |}] |}]> m.

Definition accept (now : Z) (self : OpenSearchSink) (d : Delivery)
    : OpenSearchSink * result AnyhowError (list (string * BulkAction)) :=
  match prepare self d with
  | Err e => (self, Err e)
  | Ok (prepared, ids, bytes) =>
      match DeliveryTracker.accept (progress self) (del_id d) (Z.of_nat (length prepared))
              (meta_source_messages (del_meta d)) with
      | (progress, Err _) =>
          ({| discovery := discovery self; buffers := buffers self; pending_identities := pending_identities self;
              progress := progress; reserved := reserved self |}, Err (OtherError E_TRACKER))
      | (progress, Ok _) =>
          if bool_decide (prepared = []) then
            ({| discovery := discovery self; buffers := buffers self; pending_identities := pending_identities self;
                progress := progress; reserved := reserved self |}, Ok prepared)
          else
            ({| discovery := discovery self;
                buffers := foldl (buffer_action now (del_id d)) (buffers self) prepared;
                pending_identities := pending_identities self ∪ ids;
                progress := progress; reserved := reserved self ++ [bytes] |}, Ok prepared)
      end
  end.

(** ** Flushing *)
Definition flush_interval : Z := from_millis (flush_interval_ms config).

(** The deadline of a buffer; [now] is the reading of the clock for it. *)
Definition deadline (input_closed memory_pressure : bool) (now : Z) (b : IndexBuffer) : Z :=
  let full := memory_pressure || bool_decide (bulk_target_rows config ≤ ib_rows b)
              || bool_decide (bulk_target_bytes config ≤ ib_bytes b) in
  if input_closed || full then now else first_seen b + flush_interval.

Definition next_flush (self : OpenSearchSink) (clock : nat → Z) (input_closed memory_pressure : bool)
    : option (string * Z) :=
  let l := imap (λ i p, (p.1, deadline input_closed memory_pressure (clock i) p.2)) (hash_iter (buffers self)) in
  min_position l.*2 ≫= λ i, l !! i.

(** The loop of [take_flush]. *)
Fixpoint take_actions (max_rows max_bytes rows bytes : Z) (taken l : list PendingAction)
    : list PendingAction * list PendingAction * Z * Z :=
  match l with
  | [] => (taken, [], rows, bytes)
  | front :: l' =>
      if negb (bool_decide (taken = []))
         && (bool_decide (max_rows ≤ rows) || bool_decide (max_bytes < saturating_add usize_max bytes (pa_bytes front)))
      then (taken, l, rows, bytes)
      else take_actions max_rows max_bytes (rows + 1) (saturating_add usize_max bytes (pa_bytes front)) (taken ++ [front]) l'
  end.

Definition with_buffers (self : OpenSearchSink) (m : gmap string IndexBuffer) : OpenSearchSink :=
  {| discovery := discovery self; buffers := m; pending_identities := pending_identities self;
     progress := progress self; reserved := reserved self |}.

Definition take_flush (now : Z) (self : OpenSearchSink) (index : string) : option (OpenSearchSink * list PendingAction) :=
  buffers self !! index ≫= λ b,
  let max_rows := saturating_mul usize_max (bulk_target_rows config) (bulk_concurrency config) in
  let max_bytes := saturating_mul usize_max (bulk_target_bytes config) (bulk_concurrency config) in
  let '(taken, rest, rows, bytes) := take_actions max_rows max_bytes 0 0 [] (ib_actions b) in
  Some (with_buffers self
          (if bool_decide (rest = []) then delete index (buffers self)
           else <[index := {| first_seen := now; ib_rows := saturating_sub (ib_rows b) rows;
                              ib_bytes := saturating_sub (ib_bytes b) bytes; ib_actions := rest |}]> (buffers self)),
        taken).

(** The count of completed actions per delivery, and their completion in order. *)
Definition per_delivery (l : list PendingAction) : gmap Z Z :=
  foldl (λ m a, <[pa_delivery a := default 0 (m !! pa_delivery a) + 1]> m) ∅ l.

Definition complete_one (t : DeliveryTracker) (p : Z * Z) : result ActorError DeliveryTracker :=
  match complete t p.1 p.2 with (t, Ok _) => Ok t | (_, Err _) => Err CompleteFailed end.

Definition complete_all (t : DeliveryTracker) (l : list PendingAction) : result ActorError DeliveryTracker :=
  for_each complete_one (bt_iter Z.le (per_delivery l)) t.

(** [flush]: the new state with the chunks that were written, or the failure. *)
Definition flush (now : Z) (order : nat → list nat) (env : nat → Z → Z → Attempt) (self : OpenSearchSink) (index : string)
    : option (result ActorError OpenSearchSink * list ChunkLog) :=
  match take_flush now self index with
  | None => Some (Err MissingBuffer, [])
  | Some (self, pending) =>
      match write_parallel config partition_id index env (order (lane_count config (group_by_id pending))) pending with
      | None => None
      | Some (chunks, Err f) => Some (Err (WriteFailed f), chunks)
      | Some (chunks, Ok completed) =>
          match complete_all (progress self) completed with
          | Err e => Some (Err e, chunks)
          | Ok progress =>
              Some (Ok {| discovery := discovery self; buffers := buffers self;
                          pending_identities := pending_identities self
                            ∖ list_to_set ((λ a, (index, pa_id a)) <$> completed);
                          progress := progress; reserved := reserved self |}, chunks)
          end
      end
  end.

(** ** The actor *)
Record Actor := {
  sink : OpenSearchSink;
  input_closed : bool;
  events : list DeliveryId;                                   (* [CommittedThrough], in order *)
  outcome : option (result ActorError unit);
  accepted : list (DeliveryId * list (string * BulkAction));  (* trace *)
  writes : list (string * ChunkLog)                           (* trace *)
}.

Definition actor_init (d : DeliveryDiscovery) : Actor :=
  {| sink := sink_new d; input_closed := false; events := []; outcome := None; accepted := []; writes := [] |}.

Definition set_sink (a : Actor) (s : OpenSearchSink) : Actor :=
  {| sink := s; input_closed := input_closed a; events := events a; outcome := outcome a;
     accepted := accepted a; writes := writes a |}.
Definition finish (a : Actor) (r : result ActorError unit) : Actor :=
  {| sink := sink a; input_closed := input_closed a; events := events a; outcome := Some r;
     accepted := accepted a; writes := writes a |}.

(** [emit_committed]; [opened]: the event receiver is alive. *)
Definition emit_committed (opened : bool) (a : Actor) : Actor * bool :=
  let '(progress, committed) := take_committed (progress (sink a)) in
  let s := {| discovery := discovery (sink a); buffers := buffers (sink a);
              pending_identities := pending_identities (sink a); progress := progress; reserved := reserved (sink a) |} in
  match committed with
  | None => (set_sink a s, true)
  | Some c =>
      if opened then
        ({| sink := s; input_closed := input_closed a; events := events a ++ [through c]; outcome := outcome a;
            accepted := accepted a; writes := writes a |}, true)
      else (set_sink a s, false)
  end.

Inductive Select := Cancelled | Received (d : option Delivery) | Elapsed.
Record Turn := {
  t_open : bool; t_pressure : bool;
  t_clock : nat → Z;                 (* readings in [next_flush] *)
  t_now : Z;                         (* the reading after it *)
  t_order : nat → list nat;          (* the order in which that many lanes end *)
  t_env : nat → Z → Z → Attempt;
  t_select : Select
}.

Definition accept_delivery (now : Z) (a : Actor) (d : Delivery) : Actor :=
  match accept now (sink a) d with
  | (s, Err e) => finish (set_sink a s) (Err (AcceptFailed e))
  | (s, Ok prepared) =>
      {| sink := s; input_closed := input_closed a; events := events a; outcome := outcome a;
         accepted := accepted a ++ [(del_id d, prepared)]; writes := writes a |}
  end.

Definition close_input (a : Actor) : Actor :=
  {| sink := sink a; input_closed := true; events := events a; outcome := outcome a;
     accepted := accepted a; writes := writes a |}.

Definition flush_turn (t : Turn) (a : Actor) (index : string) : option Actor :=
  match flush (t_now t) (t_order t) (t_env t) (sink a) index with
  | None => None
  | Some (Ok s, chunks) =>
      Some {| sink := s; input_closed := input_closed a; events := events a; outcome := outcome a;
              accepted := accepted a; writes := writes a ++ ((index,.) <$> chunks) |}
  | Some (Err e, _) => Some (finish a (Err e))
  end.

(** The end of the input: nothing is buffered any more. *)
Definition end_turn (t : Turn) (a : Actor) : Actor :=
  let '(a, sent) := emit_committed (t_open t) a in
  if negb sent then finish a (Err EventsClosed)
  else if negb (is_empty (progress (sink a))) then finish a (Err Incomplete)
  else finish a (Ok tt).

(** The [select!]: [None] when the branch taken is disabled. *)
Definition select_turn (t : Turn) (a : Actor) : option Actor :=
  match t_select t with
  | Cancelled => Some (finish a (Ok tt))
  | Received None => if input_closed a then None else Some (close_input a)
  | Received (Some d) => if input_closed a then None else Some (accept_delivery (t_now t) a d)
  | Elapsed => if bool_decide (buffers (sink a) = ∅) then None else Some a
  end.

(** One turn of the loop of [run_actor]. *)
Definition turn (t : Turn) (a : Actor) : option Actor :=
  let '(a, sent) := emit_committed (t_open t) a in
  if negb sent then Some (finish a (Err EventsClosed)) else
  match next_flush (sink a) (t_clock t) (input_closed a) (t_pressure t) with
  | Some (index, d) =>
      if bool_decide (d ≤ t_now t) then flush_turn t a index
      else if input_closed a && bool_decide (buffers (sink a) = ∅) then Some (end_turn t a)
      else select_turn t a
  | None => if input_closed a && bool_decide (buffers (sink a) = ∅) then Some (end_turn t a) else select_turn t a
  end.

(** The life of a sink: turns, new sessions after a session that ended well, and
    [update_discovery] between them. *)
Inductive Move := MTurn (t : Turn) | MSession | MUpdate (d : DeliveryDiscovery).

Definition move (a : Actor) (m : Move) : option Actor :=
  match m, outcome a with
  | MTurn t, None => turn t a
  | MSession, Some (Ok _) =>
      Some {| sink := sink a; input_closed := false; events := events a; outcome := None;
              accepted := accepted a; writes := writes a |}
  | MUpdate d, Some (Ok _) =>
      Some (set_sink a {| discovery := d; buffers := buffers (sink a);
                          pending_identities := pending_identities (sink a);
                          progress := progress (sink a); reserved := reserved (sink a) |})
  | _, _ => None
  end.

Fixpoint run_moves (a : Actor) (l : list Move) : option Actor :=
  match l with [] => Some a | m :: l => move a m ≫= λ a, run_moves a l end.
End sink.

(** ** What is buffered *)
Definition tag (id : DeliveryId) (p : string * BulkAction) : string * PendingAction :=
  (p.1, {| pa_delivery := id; pa_action := p.2 |}).
Definition in_buffer (p : string * IndexBuffer) : list (string * PendingAction) := (p.1,.) <$> ib_actions p.2.
Definition buffered (m : gmap string IndexBuffer) : list (string * PendingAction) := map_to_list m ≫= in_buffer.

Lemma buffered_delete m k b : m !! k = Some b → buffered m ≡ₚ in_buffer (k, b) ++ buffered (delete k m).
Proof.
  intros Hk. unfold buffered. rewrite <-(map_to_list_delete m k b Hk). cbn. done.
Qed.

Lemma buffered_insert m k b : buffered (<[k := b]> m) ≡ₚ in_buffer (k, b) ++ buffered (delete k m).
Proof.
  rewrite (buffered_delete (<[k := b]> m) k b) by apply lookup_insert_eq. by rewrite delete_insert_eq.
Qed.

Lemma buffered_action now id m p : buffered (buffer_action now id m p) ≡ₚ buffered m ++ [tag id p].
Proof.
  unfold buffer_action. rewrite buffered_insert. unfold in_buffer at 1. cbn. rewrite fmap_app.
  destruct (m !! p.1) as [b|] eqn:Hm; cbn.
  - rewrite (buffered_delete m p.1 b Hm). unfold in_buffer. cbn.
    rewrite <-!app_assoc. f_equiv. apply Permutation_app_comm.
  - rewrite delete_id by done. by rewrite <-Permutation_cons_append.
Qed.

Lemma buffered_actions now id m l : buffered (foldl (buffer_action now id) m l) ≡ₚ buffered m ++ (tag id <$> l).
Proof.
  revert m. induction l as [|p l IH]; intros m; cbn; [by rewrite app_nil_r|].
  rewrite IH, buffered_action, <-app_assoc. done.
Qed.

Lemma take_actions_app max_rows max_bytes rows bytes taken l :
  let '(taken', rest, _, _) := take_actions max_rows max_bytes rows bytes taken l in
  taken' ++ rest = taken ++ l ∧ (l ≠ [] ∨ taken ≠ [] → taken' ≠ []).
Proof.
  revert rows bytes taken. induction l as [|a l IH]; intros rows bytes taken; cbn.
  { split; [done|]. by intros [?|?]. }
  destruct (negb _ && _) eqn:E.
  - split; [done|]. intros _ ->. by rewrite bool_decide_eq_true_2 in E.
  - specialize (IH (rows + 1) (saturating_add usize_max bytes (pa_bytes a)) (taken ++ [a])).
    destruct (take_actions _ _ _ _ _ _) as [[[taken' rest] ?] ?]. destruct IH as [-> Hne].
    rewrite <-app_assoc. split; [done|]. intros _. apply Hne. right. by destruct taken.
Qed.

Definition no_empty_buffer (m : gmap string IndexBuffer) : Prop := map_Forall (λ _ b, ib_actions b ≠ []) m.

Lemma no_empty_action now id m p : no_empty_buffer m → no_empty_buffer (buffer_action now id m p).
Proof. intros H. apply map_Forall_insert_2; [|done]. cbn. by destruct (ib_actions _). Qed.

Lemma no_empty_actions now id m l : no_empty_buffer m → no_empty_buffer (foldl (buffer_action now id) m l).
Proof. revert m. induction l as [|p l IH]; intros m H; [done|]. cbn. by apply IH, no_empty_action. Qed.

Lemma buffered_empty m : no_empty_buffer m → buffered m = [] → m = ∅.
Proof.
  intros Hne Hb. apply map_empty. intros k. destruct (m !! k) as [b|] eqn:Hk; [|done]. exfalso.
  pose proof (buffered_delete m k b Hk) as Hp. rewrite Hb in Hp. apply Permutation_nil_l in Hp.
  pose proof (Hne k b Hk) as Hb'. unfold in_buffer in Hp. cbn in Hp, Hb'.
  destruct (ib_actions b); [done|]. discriminate Hp.
Qed.

Section flushing.
Context {AT : ArrowTypes} {AV : ArrowValues} {AC : ArrowCompute} (config : OpenSearchSinkConfig).

Lemma take_flush_spec now self index b :
  buffers self !! index = Some b → ib_actions b ≠ [] → no_empty_buffer (buffers self) →
  ∃ m taken, take_flush config now self index = Some (with_buffers self m, taken) ∧ taken ≠ [] ∧
    buffered (buffers self) ≡ₚ ((index,.) <$> taken) ++ buffered m ∧ no_empty_buffer m.
Proof.
  intros Hb Hne Hall. unfold take_flush. rewrite Hb. cbn.
  set (mr := saturating_mul _ _ _). set (mb := saturating_mul _ (bulk_target_bytes config) _).
  pose proof (take_actions_app mr mb 0 0 [] (ib_actions b)) as Ht.
  destruct (take_actions mr mb 0 0 [] (ib_actions b)) as [[[taken rest] rows] bytes]. destruct Ht as [Happ Htaken].
  cbn in Happ. eexists _, taken. split; [done|]. split; [auto|].
  rewrite (buffered_delete _ index b Hb). unfold in_buffer. cbn. rewrite <-Happ, fmap_app, <-app_assoc.
  case_bool_decide as Hrest.
  - subst rest. cbn. split; [done|]. by apply map_Forall_delete.
  - split; [by rewrite buffered_insert|]. apply map_Forall_insert_2; [by cbn|done].
Qed.
End flushing.
