(* ===== verification/OpenSearchDurable.v ===== *)
(** * What the OpenSearch sink guarantees

    The invariant of the actor of [OpenSearchSink.v]: the tracker's outstanding units are
    the buffered actions, what was accepted is written or buffered, and the set of pending
    identities is that of the buffered actions.  From it: commits are reported only for
    durable deliveries, the internal failures never happen, and a closed input drains. *)

From stdpp Require Import base tactics numbers option strings gmap fin_maps fin_sets sorting relations list.
From S2P Require Import Prelude DeliveryId DeliveryTracker RowCount Schema Arrow Delivery Changelog Failure Reader Admission Retry OpenSearchBulk OpenSearchLanes OpenSearchSink.
Local Open Scope Z_scope.

(** ** Completing a flush *)

(** The actions of delivery [id]. *)
Definition count (id : DeliveryId) (l : list PendingAction) : Z :=
  lsum (λ a, if bool_decide (pa_delivery a = id) then 1 else 0) l.

Lemma count_nonneg id l : 0 ≤ count id l.
Proof. apply lsum_nonneg. intros a _. case_bool_decide; lia. Qed.

Lemma count_app id l1 l2 : count id (l1 ++ l2) = count id l1 + count id l2.
Proof. apply lsum_app. Qed.

Lemma count_perm id l l' : l ≡ₚ l' → count id l = count id l'.
Proof. apply lsum_perm. Qed.

Lemma count_zero id l a : count id l = 0 → a ∈ l → pa_delivery a ≠ id.
Proof.
  induction l as [|b l IH]; intros Hc Ha; [by apply not_elem_of_nil in Ha|].
  unfold count in Hc. rewrite lsum_cons in Hc. fold (count id l) in Hc. pose proof (count_nonneg id l).
  case_bool_decide; [lia|]. apply elem_of_cons in Ha as [->|Ha]; [done|]. apply IH; [lia|done].
Qed.

Lemma per_delivery_lookup l id :
  per_delivery l !! id = if bool_decide (count id l = 0) then None else Some (count id l).
Proof.
  induction l as [|a l IH] using rev_ind; [done|]. unfold per_delivery in *. rewrite foldl_app. cbn.
  rewrite count_app. unfold count at 2. cbn. pose proof (count_nonneg id l).
  destruct (decide (pa_delivery a = id)) as [->|Hne].
  - rewrite lookup_insert_eq, IH, (bool_decide_eq_true_2 (id = id)) by done.
    rewrite (bool_decide_eq_false_2 (_ + _ = 0)) by lia. case_bool_decide as Hz; cbn; f_equal; lia.
  - rewrite lookup_insert_ne, IH, (bool_decide_eq_false_2 (pa_delivery a = id)) by done.
    by replace (count id l + (0 + 0)) with (count id l) by lia.
Qed.

Lemma complete_spec t q id n :
  represents t q → 0 < n ≤ outstanding t id →
  ∃ t' q', complete_one t (id, n) = Ok t' ∧ represents t' q' ∧ Spec.base q' = Spec.base q ∧
    next_received t' = next_received t ∧
    ∀ i, outstanding t' i = outstanding t i - if bool_decide (i = id) then n else 0.
Proof.
  intros Hrep Hn. pose proof (complete_refines t q id n Hrep) as Hc. pose proof (call_step_received t (CComplete id n)) as Hr.
  pose proof (λ i, outstanding_step t q (CComplete id n) i Hrep) as Ho. cbn in Hr, Ho.
  unfold outstanding in Hn. destruct (entries t !! id) as [d|]; cbn in Hn; [|lia].
  rewrite bool_decide_eq_true_2 in Hc by lia. destruct Hc as [Hok Hrep'].
  unfold complete_one. cbn. rewrite Hok in Ho. destruct (complete t id n) as [t' r]. cbn in *. subst r.
  eexists t', _. split; [done|]. split; [exact Hrep'|]. split; [done|]. split; [done|].
  intros i. rewrite Ho, andb_true_r. destruct (decide (i = id)) as [->|Hi].
  - rewrite !bool_decide_eq_true_2 by done. lia.
  - rewrite !bool_decide_eq_false_2 by done. lia.
Qed.

Lemma complete_list t q l :
  represents t q → NoDup l.*1 → (∀ id n, (id, n) ∈ l → 0 < n ≤ outstanding t id) →
  ∃ t' q', for_each complete_one l t = Ok t' ∧ represents t' q' ∧ Spec.base q' = Spec.base q ∧
    next_received t' = next_received t ∧
    ∀ i, outstanding t' i = outstanding t i - default 0 ((list_to_map l : gmap Z Z) !! i).
Proof.
  revert t q. induction l as [|[id n] l IH]; intros t q Hrep Hnd Hin.
  { exists t, q. split_and!; try done. intros i. cbn. rewrite lookup_empty. cbn. lia. }
  apply NoDup_cons in Hnd as [Hid Hnd]. cbn in Hid, Hnd.
  destruct (complete_spec t q id n Hrep) as (t1 & q1 & E1 & Hrep1 & Hb1 & Hr1 & Ho1); [apply Hin; left|].
  destruct (IH t1 q1 Hrep1 Hnd) as (t' & q' & E & Hrep' & Hb & Hr & Ho).
  { intros id' n' Hl. rewrite Ho1. rewrite bool_decide_eq_false_2.
    - rewrite Z.sub_0_r. apply Hin. by right.
    - intros ->. apply Hid. apply list_elem_of_fmap. by exists (id, n'). }
  exists t', q'. cbn [for_each]. rewrite E1. split_and!; [exact E|done|congruence|congruence|].
  intros i. rewrite Ho, Ho1. cbn. destruct (decide (i = id)) as [->|Hne].
  - rewrite lookup_insert_eq, bool_decide_eq_true_2 by done.
    rewrite (not_elem_of_list_to_map_1 (M := gmap Z)) by done. cbn. lia.
  - rewrite lookup_insert_ne, bool_decide_eq_false_2 by done. lia.
Qed.

Lemma complete_all_spec t q l :
  represents t q → (∀ id, count id l ≤ outstanding t id) →
  ∃ t' q', complete_all t l = Ok t' ∧ represents t' q' ∧ Spec.base q' = Spec.base q ∧
    next_received t' = next_received t ∧ ∀ i, outstanding t' i = outstanding t i - count i l.
Proof.
  intros Hrep Hle. unfold complete_all.
  destruct (complete_list t q (bt_iter Z.le (per_delivery l)) Hrep) as (t' & q' & E & Hrep' & Hb & Hr & Ho).
  - apply NoDup_bt_iter.
  - intros id n Hin. apply elem_of_bt_iter in Hin; [|apply _..]. rewrite per_delivery_lookup in Hin.
    pose proof (count_nonneg id l). case_bool_decide; simplify_eq. specialize (Hle id). lia.
  - exists t', q'. split_and!; try done. intros i. rewrite Ho. f_equal.
    rewrite (list_to_map_proper (M := gmap Z) _ (map_to_list (per_delivery l)));
      [|apply NoDup_bt_iter|apply bt_iter_perm; apply _].
    rewrite list_to_map_to_list, per_delivery_lookup. by case_bool_decide.
Qed.

(** ** Taking commits when nothing is outstanding *)
Lemma ready_all l : Forall (λ d, remaining d = 0) l → Spec.ready l = l.
Proof. induction 1 as [|d l Hd _ IH]; [done|]. cbn. by rewrite bool_decide_eq_true_2, IH. Qed.

Lemma take_empties t q : represents t q → (∀ id, outstanding t id = 0) → is_empty (take_committed t).1 = true.
Proof.
  intros Hrep Ho. destruct (take_refines t q Hrep) as [_ Hrep'].
  assert (Spec.ready (Spec.items q) = Spec.items q) as Hready.
  { apply ready_all, Forall_forall. intros d [i Hi]%list_elem_of_lookup.
    destruct Hrep as (_ & _ & _ & _ & He). specialize (Ho (Spec.base q + Z.of_nat i)). unfold outstanding in Ho.
    rewrite He, bool_decide_eq_true_2 in Ho by lia.
    replace (Z.to_nat (Spec.base q + Z.of_nat i - Spec.base q)) with i in Ho by lia. by rewrite Hi in Ho. }
  apply bool_decide_eq_true_2. apply map_size_empty_iff. rewrite (represents_size _ _ Hrep').
  unfold Spec.take. rewrite Hready. destruct (Spec.items q) as [|d l] eqn:E; cbn [fst Spec.items]; [by rewrite E|].
  by rewrite drop_all.
Qed.

(** ** The invariant *)
Section durable.
Context {AT : ArrowTypes} {AV : ArrowValues} {AC : ArrowCompute}.
Context (config : OpenSearchSinkConfig) (partition_id : Z).
Context (encode_batch : string → DatasetSchema → RecordBatch → RoutedIdentity → result AnyhowError (list BulkAction)).
Context (hash_iter : gmap string IndexBuffer → list (string * IndexBuffer)).
(** The configuration was validated and is of machine integers. *)
Hypothesis Hvalid : validate (Ok tt) config = Ok tt.
Hypothesis Hattempts : retry_max_attempts config ≤ u32_max.
Hypothesis Hdelay : retry_max_ms config ≤ u64_max.
Hypothesis Hbytes : bulk_target_bytes config < usize_max.
(** Sizes are unsigned; iteration visits every buffer once. *)
Hypothesis Hencode : ∀ i s b r l, encode_batch i s b r = Ok l → Forall (λ a, 0 ≤ ba_bytes a) l.
Hypothesis Hhash : ∀ m, hash_iter m ≡ₚ map_to_list m.

Definition key_of (p : string * BulkAction) : string * string := (p.1, ba_id p.2).
Definition ident (x : string * PendingAction) : string * string := (x.1, pa_id x.2).

Definition written (a : Actor) : list (string * PendingAction) := writes a ≫= λ w, (w.1,.) <$> ch_actions w.2.
Definition promised (a : Actor) : list (string * PendingAction) := accepted a ≫= λ x, tag x.1 <$> x.2.

Record Inv (a : Actor) : Prop := {
  inv_rep : ∃ q, represents (progress (sink a)) q;
  inv_next : next_received (progress (sink a)) = 1 + Z.of_nat (length (accepted a));
  inv_out : ∀ id, outstanding (progress (sink a)) id = count id (buffered (buffers (sink a))).*2;
  inv_all : promised a ≡ₚ written a ++ buffered (buffers (sink a));
  inv_full : no_empty_buffer (buffers (sink a));
  inv_idents : pending_identities (sink a) = list_to_set (ident <$> buffered (buffers (sink a)));
  inv_nodup : NoDup (ident <$> buffered (buffers (sink a)));
  inv_sizes : Forall (λ x, 0 ≤ pa_bytes x.2) (buffered (buffers (sink a)));
  inv_events : ∀ e, e ∈ events a → e < next_commit (progress (sink a));
  inv_last : next_commit (progress (sink a)) = 1 + default 0 (last (events a))
}.

(** The failures the environment can cause. *)
Definition expected_error (e : ActorError) : Prop :=
  match e with
  | AcceptFailed _ | EventsClosed => True
  | WriteFailed f => ∃ ch, chunk_failed config f ch
  | _ => False
  end.

Record Durable (a : Actor) : Prop := {
  dur_ids : ∀ i x, accepted a !! i = Some x → x.1 = 1 + Z.of_nat i;
  dur_sorted : StronglySorted Z.lt (events a);
  dur_written : Forall (λ w, chunk_written w.2 ∧ within_limits config (ch_actions w.2)) (writes a);
  dur_events : ∀ e, e ∈ events a → 1 ≤ e ≤ Z.of_nat (length (accepted a)) ∧
    ∀ x p, x ∈ accepted a → x.1 ≤ e → p ∈ x.2 → tag x.1 p ∈ written a;
  dur_error : ∀ e, outcome a = Some (Err e) → expected_error e
}.

Definition Good (a : Actor) : Prop := Durable a ∧ ((∀ e, outcome a ≠ Some (Err e)) → Inv a).

Lemma init_good d : Good (actor_init d).
Proof.
  split.
  - split; cbn; [done|constructor|constructor|by intros e ?%not_elem_of_nil|done].
  - intros _. assert (buffered ∅ = []) as E by (unfold buffered; by rewrite map_to_list_empty).
    split; cbn; rewrite ?E; try done; try constructor.
    + eexists. apply new_represents.
    + by intros e ?%not_elem_of_nil.
Qed.

(** Deliveries at or below the commit cursor are written. *)
Lemma committed_written a x p :
  Inv a → x ∈ accepted a → x.1 < next_commit (progress (sink a)) → p ∈ x.2 → tag x.1 p ∈ written a.
Proof.
  intros HI Hx Hlt Hp. destruct (inv_rep a HI) as [q Hq].
  assert (tag x.1 p ∈ promised a) as Hin.
  { apply list_elem_of_bind. exists x. split; [|done]. by apply list_elem_of_fmap_2. }
  rewrite (inv_all a HI) in Hin. apply elem_of_app in Hin as [?|Hin]; [done|]. exfalso.
  assert (outstanding (progress (sink a)) x.1 = 0) as Hz.
  { destruct Hq as (Hc & _ & _ & _ & He). unfold outstanding. rewrite He, bool_decide_eq_false_2 by lia. done. }
  rewrite (inv_out a HI) in Hz. by apply (count_zero _ _ (tag x.1 p).2 Hz); [apply list_elem_of_fmap_2|].
Qed.

(** Changing only the tracker, the events and the outcome. *)
Lemma inv_tracker a a' q' :
  Inv a → represents (progress (sink a')) q' →
  next_received (progress (sink a')) = next_received (progress (sink a)) →
  (∀ id, outstanding (progress (sink a')) id = outstanding (progress (sink a)) id) →
  (∀ e, e ∈ events a' → e < next_commit (progress (sink a'))) →
  next_commit (progress (sink a')) = 1 + default 0 (last (events a')) →
  accepted a' = accepted a → writes a' = writes a →
  buffers (sink a') = buffers (sink a) → pending_identities (sink a') = pending_identities (sink a) → Inv a'.
Proof.
  intros [] Hrep Hn Ho He Hl Ha Hw Hb Hp. split; unfold promised, written in *; rewrite ?Ha, ?Hw, ?Hb, ?Hp; try done.
  - by exists q'.
  - by rewrite Hn.
  - intros id. by rewrite Ho.
Qed.

(** A commit moves only the tracker and the events. *)
Lemma emit_good o a a' sent :
  emit_committed o a = (a', sent) → next_received (progress (sink a)) < u64_max →
  Durable a → Inv a → outcome a = None →
  Durable a' ∧ (sent = true → Inv a') ∧ outcome a' = None ∧ accepted a' = accepted a ∧ writes a' = writes a ∧
  buffers (sink a') = buffers (sink a) ∧ input_closed a' = input_closed a ∧
  progress (sink a') = (take_committed (progress (sink a))).1.
Proof.
  intros He Hlt HD HI Hout. destruct (inv_rep a HI) as [q Hq].
  destruct (call_step_represents _ q CTake Hq Hlt) as (q' & Hrep' & Hmono & _ & Hthrough).
  pose proof (call_step_received (progress (sink a)) CTake) as Hn.
  pose proof (λ i, outstanding_step (progress (sink a)) q CTake i Hq) as Ho.
  assert (next_commit (progress (sink a)) = Spec.base q) as Hc by apply Hq.
  unfold emit_committed in He. cbn [call_step call_units] in *.
  destruct (take_committed (progress (sink a))) as [t [c|]]; cbn in *.
  - assert (next_commit t = Spec.base q') as Hc' by apply Hrep'.
    assert (∀ e, e ∈ events a → e < through c) as Hev by (intros e Hin; apply (inv_events a HI) in Hin; lia).
    destruct o; injection He as <- <-.
    + assert (Inv {| sink := {| discovery := discovery (sink a); buffers := buffers (sink a);
        pending_identities := pending_identities (sink a); progress := t; reserved := reserved (sink a) |};
        input_closed := input_closed a; events := events a ++ [through c]; outcome := outcome a;
        accepted := accepted a; writes := writes a |}) as HI'.
      { apply (inv_tracker a _ q'); try done; cbn.
        - intros id. rewrite Ho. lia.
        - intros e [Hin| ->%list_elem_of_singleton]%elem_of_app; [|lia]. specialize (Hev e Hin). lia.
        - rewrite last_snoc. cbn. lia. }
      split; [|by split_and!]. destruct HD as [Hids Hs Hw Hd Herr]. split; cbn; try done.
      * apply StronglySorted_app_2; [|done|repeat constructor].
        intros x y Hx ->%list_elem_of_singleton. by apply Hev.
      * intros e [Hin| ->%list_elem_of_singleton]%elem_of_app; [by apply Hd|]. split.
        -- pose proof (inv_next a HI). destruct Hrep' as (_ & Hr & Hb & _). destruct Hq as (_ & _ & ? & _). lia.
        -- intros x p Hx Hle Hp. apply (committed_written _ x p HI'); [done| |done]. cbn. lia.
    + split; [by destruct HD|]. by split_and!.
  - injection He as <- <-. split; [by destruct HD|]. split; [|by split_and!]. intros _.
    assert (next_commit t = Spec.base q') as Hc' by apply Hrep'.
    apply (inv_tracker a _ q'); try done; cbn.
    + intros id. rewrite Ho. lia.
    + intros e Hin. apply (inv_events a HI) in Hin. lia.
    + rewrite <-(inv_last a HI). lia.
Qed.

(** ** Accepting a delivery *)
Definition fresh (self : OpenSearchSink) (acc : list (string * BulkAction) * gset (string * string)) : Prop :=
  NoDup (key_of <$> acc.1) ∧ acc.2 = list_to_set (key_of <$> acc.1) ∧
  (∀ k, k ∈ acc.2 → k ∉ pending_identities self) ∧ Forall (λ p, 0 ≤ ba_bytes p.2) acc.1.

Lemma prepare_action_fresh self index acc action acc' :
  0 ≤ ba_bytes action → fresh self acc → prepare_action self index acc action = Ok acc' → fresh self acc'.
Proof.
  intros Hb (Hn & Hs & Hp & Hf) Ha. unfold prepare_action in Ha.
  apply bind_Ok in Ha as ([] & H1%ensure_Ok%bool_decide_eq_true & Ha).
  apply bind_Ok in Ha as ([] & H2%ensure_Ok%bool_decide_eq_true & [= <-]).
  split_and!; cbn [fst snd].
  - rewrite fmap_app. apply NoDup_app. split_and!; [done| |apply NoDup_singleton].
    intros k Hk ->%list_elem_of_singleton. apply H1. rewrite Hs. by apply elem_of_list_to_set.
  - rewrite fmap_app, list_to_set_app_L, Hs. cbn. by rewrite union_empty_r_L, union_comm_L.
  - intros k [->%elem_of_singleton|Hk]%elem_of_union; [done|by apply Hp].
  - by apply Forall_app; split; [|constructor].
Qed.

Lemma prepare_output_fresh self acc output acc' :
  fresh self acc → prepare_output config encode_batch self acc output = Ok acc' → fresh self acc'.
Proof.
  intros Hf Ho. unfold prepare_output in Ho. apply bind_Ok in Ho as (ds & _ & Ho).
  apply bind_Ok in Ho as (projected & _ & Ho). destruct projected as [batch|]; [|done].
  apply bind_Ok in Ho as (actions & Henc & Ho). apply Hencode in Henc. rewrite Forall_forall in Henc.
  refine (for_each_ind (λ _ acc, fresh self acc) _ _ _ _ Hf _ Ho).
  intros l1 a l2 s1 s2 -> Hs1. apply prepare_action_fresh; [|done]. apply Henc.
  apply elem_of_app. right. left.
Qed.

Lemma prepare_fresh self d prepared ids bytes :
  prepare config encode_batch self d = Ok (prepared, ids, bytes) → fresh self (prepared, ids).
Proof.
  intros Hp. unfold prepare in Hp. apply bind_Ok in Hp as (_ & _ & Hp).
  apply bind_Ok in Hp as (acc & Hacc & Hp). apply bind_Ok in Hp as (b & _ & [= -> <-]).
  refine (for_each_ind (λ _ acc, fresh self acc) _ _ _ _ _ _ Hacc).
  - split_and!; cbn; [constructor|done|by intros k ?%not_elem_of_empty|constructor].
  - intros l1 a l2 s1 s2 _ Hs1. by apply prepare_output_fresh.
Qed.

Lemma count_tag id i l : count id (tag i <$> l).*2 = if bool_decide (i = id) then Z.of_nat (length l) else 0.
Proof.
  unfold count. induction l as [|p l IH]; [by case_bool_decide|]. rewrite !fmap_cons, lsum_cons, IH.
  cbn [tag snd pa_delivery length]. case_bool_decide; lia.
Qed.

Lemma ident_tag i (l : list (string * BulkAction)) : ident <$> (tag i <$> l) = key_of <$> l.
Proof. rewrite <-list_fmap_compose. done. Qed.

Lemma durable_accepted a a' x :
  Durable a → Inv a → accepted a' = accepted a ++ [x] → x.1 = next_received (progress (sink a)) →
  events a' = events a → writes a' = writes a → outcome a' = None → Durable a'.
Proof.
  intros [Hids Hs Hw Hd Herr] HI Ha Hx He Hwr Ho. split; [|by rewrite He|by rewrite Hwr| |by rewrite Ho].
  { rewrite Ha. intros i y [Hy|[Hge Hy]]%lookup_app_Some; [by apply Hids|].
    apply list_lookup_singleton_Some in Hy as [Hi' <-]. rewrite Hx, (inv_next a HI). lia. }
  rewrite He. intros e Hin. destruct (Hd e Hin) as [Hle Hall]. rewrite Ha, length_app. split; [cbn; lia|].
  unfold written in *. rewrite Hwr. intros y p [Hy| ->%list_elem_of_singleton]%elem_of_app Hle' Hp; [by apply Hall|].
  pose proof (inv_next a HI). lia.
Qed.

(** The sink after a delivery entered the tracker. *)
Lemma accepted_good a d n msgs prepared s :
  Durable a → Inv a → outcome a = None → next_received (progress (sink a)) < u64_max →
  (DeliveryTracker.accept (progress (sink a)) (del_id d) n msgs).2 = Ok tt →
  progress s = (DeliveryTracker.accept (progress (sink a)) (del_id d) n msgs).1 → n = Z.of_nat (length prepared) →
  NoDup (key_of <$> prepared) → (∀ p, p ∈ prepared → (key_of p ∉ pending_identities (sink a)) ∧ 0 ≤ ba_bytes p.2) →
  buffered (buffers s) ≡ₚ buffered (buffers (sink a)) ++ (tag (del_id d) <$> prepared) →
  no_empty_buffer (buffers s) → pending_identities s = list_to_set (ident <$> buffered (buffers s)) →
  Good {| sink := s; input_closed := input_closed a; events := events a; outcome := outcome a;
          accepted := accepted a ++ [(del_id d, prepared)]; writes := writes a |}.
Proof.
  intros HD HI Hout Hlt Hok Hs Hlen Hnd Hnew Hb Hne Hpi. destruct (inv_rep a HI) as [q Hq].
  pose proof (call_step_received (progress (sink a)) (CAccept (del_id d) n msgs)) as Hr.
  pose proof (λ i, outstanding_step (progress (sink a)) q (CAccept (del_id d) n msgs) i Hq) as Ho.
  pose proof (accept_refines (progress (sink a)) q (del_id d) n msgs Hq Hlt) as Hacc. cbn zeta in Hacc.
  cbn [call_step call_units fst] in Hr, Ho. rewrite Hok in Hr. cbn [is_ok] in Hr.
  destruct Hq as (_ & Hq2 & Hq3 & Hq4 & _). rewrite next_small in Hr by lia.
  case_bool_decide as Hid; [|by rewrite Hacc in Hok]. destruct Hacc as [_ Hrep'].
  assert (is_ok (DeliveryTracker.accept (progress (sink a)) (del_id d) n 0).2 = true ∧
    next_commit (DeliveryTracker.accept (progress (sink a)) (del_id d) n msgs).1 = next_commit (progress (sink a)))
    as [Hok0 Hcommit] by (unfold DeliveryTracker.accept in Hok |- *; by case_bool_decide).
  rewrite Hok0 in Ho. rewrite <-Hs in *. split.
  { by apply (durable_accepted a _ (del_id d, prepared)); try done; cbn; lia. }
  intros _. destruct HI as [_ Hn Hou Hall Hfull Hidents Hnodup Hsizes Hev Hlast]. split; cbn; try done.
  - by eexists.
  - rewrite Hr, Hn, length_app. cbn. lia.
  - intros id. rewrite Ho, Hou, (count_perm id _ _ (fmap_Permutation snd _ _ Hb)), fmap_app, count_app.
    by rewrite count_tag, andb_true_r, Hlen.
  - unfold promised, written in *. cbn. rewrite bind_app, Hall, Hb. cbn. by rewrite app_nil_r, app_assoc.
  - rewrite Hb, fmap_app, ident_tag. apply NoDup_app. split_and!; [done| |done].
    intros k Hk (p & -> & Hp)%list_elem_of_fmap. destruct (Hnew p Hp) as [Hni _].
    apply Hni. rewrite Hidents. by apply elem_of_list_to_set.
  - rewrite Hb. apply Forall_app. split; [done|]. apply Forall_fmap, Forall_forall. intros p Hp. by apply (Hnew p).
  - intros e He. rewrite Hcommit. by apply Hev.
  - by rewrite Hcommit.
Qed.

Lemma accept_good now a d :
  Durable a → Inv a → outcome a = None → next_received (progress (sink a)) < u64_max →
  Good (accept_delivery config encode_batch now a d).
Proof.
  intros HD HI Hout Hlt. unfold accept_delivery, accept.
  assert (∀ s e, Good (finish (set_sink a s) (Err (AcceptFailed e)))) as Hfail.
  { intros s e. split; [|by intros Hne; destruct (Hne (AcceptFailed e))].
    destruct HD. split; cbn; try done. by intros ? [= <-]. }
  destruct (prepare config encode_batch (sink a) d) as [[[prepared ids] bytes]|e] eqn:Hp; [|apply Hfail].
  destruct (prepare_fresh _ _ _ _ _ Hp) as (Hnd & Hids & Hnew & Hsz). cbn in Hnd, Hids, Hnew, Hsz.
  assert (∀ p, p ∈ prepared → (key_of p ∉ pending_identities (sink a)) ∧ 0 ≤ ba_bytes p.2) as Hp'.
  { intros p Hin. split; [|by apply (proj1 (Forall_forall _ _) Hsz)]. apply Hnew. rewrite Hids.
    by apply elem_of_list_to_set, list_elem_of_fmap_2. }
  destruct (DeliveryTracker.accept _ _ _ _) as [t [[]|e]] eqn:Et; [|apply Hfail].
  case_bool_decide as Hempty.
  - apply (accepted_good a d (Z.of_nat (length prepared)) (meta_source_messages (del_meta d))); rewrite ?Et; try done;
      try apply HI. cbn. rewrite Hempty. cbn. by rewrite app_nil_r.
  - apply (accepted_good a d (Z.of_nat (length prepared)) (meta_source_messages (del_meta d))); rewrite ?Et; try done; cbn.
    + apply buffered_actions.
    + apply no_empty_actions, HI.
    + rewrite (inv_idents a HI), Hids. apply set_eq. intros k.
      rewrite elem_of_union, !elem_of_list_to_set, buffered_actions, fmap_app, elem_of_app, ident_tag. done.
Qed.

(** ** Flushing *)
Lemma snd_index (index : string) (l : list PendingAction) : ((index,.) <$> l).*2 = l.
Proof. rewrite <-list_fmap_compose. apply list_fmap_id. Qed.

Lemma chunk_actions (index : string) (chunks : list ChunkLog) :
  ((index,.) <$> chunks) ≫= (λ w, (w.1,.) <$> ch_actions w.2) = ((index,.) <$> mjoin (ch_actions <$> chunks) : list (string * PendingAction)).
Proof. induction chunks as [|ch chunks IH]; [done|]. cbn. rewrite fmap_app. f_equal. exact IH. Qed.

(** A flush that was written and completed. *)
Lemma flushed_good a index taken m chunks t' q' q :
  Durable a → Inv a → outcome a = None →
  represents (progress (sink a)) q → represents t' q' → Spec.base q' = Spec.base q →
  next_received t' = next_received (progress (sink a)) →
  (∀ id, outstanding t' id = outstanding (progress (sink a)) id - count id taken) →
  buffered (buffers (sink a)) ≡ₚ ((index,.) <$> taken) ++ buffered m → no_empty_buffer m →
  mjoin (ch_actions <$> chunks) ≡ₚ taken →
  Forall chunk_written chunks → Forall (within_limits config) (ch_actions <$> chunks) →
  Good {| sink := {| discovery := discovery (sink a); buffers := m;
                     pending_identities := pending_identities (sink a)
                       ∖ list_to_set ((λ x, (index, pa_id x)) <$> mjoin (ch_actions <$> chunks));
                     progress := t'; reserved := reserved (sink a) |};
          input_closed := input_closed a; events := events a; outcome := outcome a;
          accepted := accepted a; writes := writes a ++ ((index,.) <$> chunks) |}.
Proof.
  intros HD HI Hout Hq Hq' Hbase Hn Ho Hb Hne Hp Hcw Hcl. split.
  - destruct HD as [Hids Hs Hw Hd Herr]. split; cbn; [done|done| |..].
    + apply Forall_app. split; [done|]. apply Forall_fmap, Forall_forall.
      intros ch Hch. split; [by apply (proj1 (Forall_forall _ _) Hcw)|].
      by apply (proj1 (Forall_forall _ _) Hcl), list_elem_of_fmap_2.
    + intros e He. destruct (Hd e He) as [Hle Hall]. split; [done|]. intros x p Hx Hxe Hpx. unfold written. cbn.
      rewrite bind_app. apply elem_of_app. left. by apply Hall.
    + done.
  - intros _. destruct HI as [_ Hnx Hou Hall Hfull Hidents Hnodup Hsizes Hev Hlast].
    rewrite Hb, fmap_app in Hnodup. apply NoDup_app in Hnodup as (Hnd1 & Hdisj & Hnd2).
    rewrite Hb in Hsizes. apply Forall_app in Hsizes as [_ Hsizes].
    split; cbn; try done.
    + by exists q'.
    + congruence.
    + intros id. rewrite Ho, Hou, (count_perm id _ _ (fmap_Permutation snd _ _ Hb)), fmap_app, count_app, snd_index.
      lia.
    + unfold promised, written in *. cbn. rewrite bind_app, chunk_actions, Hp, Hall, Hb. by rewrite app_assoc.
    + rewrite Hidents. apply set_eq. intros k.
      rewrite elem_of_difference, !elem_of_list_to_set, Hb, fmap_app, elem_of_app, <-list_fmap_compose, Hp.
      change (ident ∘ (index,.)) with (λ x, (index, pa_id x)).
      split; [by intros [[?|?] ?]|]. intros Hk. split; [by right|]. intros Hk'.
      apply (Hdisj k); [|done]. rewrite <-list_fmap_compose. done.
    + intros e He. apply Hev in He. destruct Hq as (Hc & _). destruct Hq' as (Hc' & _). lia.
    + destruct Hq as (Hc & _). destruct Hq' as (Hc' & _). lia.
Qed.

Lemma flush_good t a index b :
  Durable a → Inv a → outcome a = None → buffers (sink a) !! index = Some b → (∀ n, t_order t n ≡ₚ seq 0 n) →
  ∃ a', flush_turn config partition_id t a index = Some a' ∧ Good a' ∧ accepted a' = accepted a ∧
    input_closed a' = input_closed a ∧
    (outcome a' = None → (length (buffered (buffers (sink a'))) < length (buffered (buffers (sink a))))%nat) ∧
    outcome a' ≠ Some (Ok tt).
Proof.
  intros HD HI Hout Hb Hord. destruct (inv_rep a HI) as [q Hq].
  destruct (take_flush_spec config (t_now t) (sink a) index b Hb) as (m & taken & Ht & Htne & Hbuf & Hfull);
    [by apply (inv_full a HI index)|apply HI|].
  unfold flush_turn, flush. rewrite Ht. clear Ht. set (n := lane_count config (group_by_id taken)).
  pose proof (validate_ok _ Hvalid) as (? & ? & ? & ? & ? & ? & ?).
  destruct (write_parallel_ok config partition_id index (t_env t) ltac:(lia) ltac:(lia) ltac:(lia) Hbytes
    (t_order t n) taken) as (chunks & r & -> & Hlim & Hr); [lia| |by apply Hord|].
  { pose proof (inv_sizes a HI) as Hs. rewrite Hbuf in Hs. apply Forall_app in Hs as [Hs _].
    exact (proj1 (Forall_fmap _ _ _) Hs). }
  assert (∀ e, expected_error e → Good (finish a (Err e))) as Hfail.
  { intros e He. split; [|by intros Hne; destruct (Hne e)]. destruct HD. split; cbn; try done. by intros ? [= <-]. }
  destruct r as [completed|f].
  2:{ eexists. split; [done|]. split_and!; try done. apply Hfail. destruct Hr as (ch & _ & Hf). by exists ch. }
  destruct Hr as (Hc & Hcw & Hk). apply of_id_ext_perm in Hk.
  destruct (complete_all_spec (progress (sink a)) q completed Hq) as (t' & q' & E & Hq' & Hbase & Hn & Ho).
  { intros id. rewrite (inv_out a HI), (count_perm id _ _ Hk), (count_perm id _ _ (fmap_Permutation snd _ _ Hbuf)).
    rewrite fmap_app, count_app, snd_index. pose proof (count_nonneg id (buffered m).*2). lia. }
  cbn. rewrite E. eexists. split; [done|]. split_and!; try done.
  - rewrite Hc in *. apply (flushed_good a index taken m chunks t' q' q); try done.
    intros id. by rewrite Ho, (count_perm id _ _ Hk).
  - intros _. cbn. rewrite Hbuf, length_app, length_fmap. destruct taken; [done|]. cbn. lia.
  - cbn. by rewrite Hout.
Qed.

(** ** The loop *)
Lemma next_flush_some self clock closed pressure index d :
  next_flush config hash_iter self clock closed pressure = Some (index, d) →
  (∃ b, buffers self !! index = Some b) ∧ (closed = true → ∃ i, d = clock i).
Proof.
  unfold next_flush. intros (i & _ & Hi)%bind_Some. rewrite list_lookup_imap in Hi.
  apply fmap_Some in Hi as ([k b] & Hk & [= -> ->]). split.
  - exists b. apply list_elem_of_lookup_2 in Hk. rewrite Hhash in Hk. by apply elem_of_map_to_list in Hk.
  - intros ->. by exists i.
Qed.

Lemma next_flush_none self clock closed pressure :
  next_flush config hash_iter self clock closed pressure = None → buffers self = ∅.
Proof.
  unfold next_flush. intros Hn. destruct (hash_iter (buffers self)) as [|p l] eqn:E.
  - apply map_to_list_empty_iff, Permutation_nil_r. by rewrite <-E, Hhash.
  - exfalso. match type of Hn with (min_position ?x ≫= _) = _ =>
      destruct (min_position_lt x) as (i & Hi & Hlt); [done|] end.
    rewrite Hi, length_fmap in *. cbn in Hn. apply lookup_ge_None in Hn. cbn in *. lia.
Qed.

Lemma finish_good a r : Durable a → Inv a → (∀ e, r = Err e → expected_error e) → Good (finish a r).
Proof.
  intros HD HI Hr. split; [destruct HD; split; cbn; try done; by intros e [= ->]; apply Hr|].
  intros _. by destruct HI.
Qed.

Lemma closed_good a : Durable a → Good (finish a (Err EventsClosed)).
Proof.
  intros []. split; [split; cbn; try done; by intros e [= <-]|]. intros Hne. by destruct (Hne EventsClosed).
Qed.

(** When nothing is buffered, everything accepted is written and committed. *)
Definition complete_run (a : Actor) : Prop :=
  promised a ≡ₚ written a ∧ Z.of_nat (length (accepted a)) = default 0 (last (events a)).

Lemma end_turn_good t a :
  Durable a → Inv a → outcome a = None → next_received (progress (sink a)) < u64_max → buffers (sink a) = ∅ →
  Good (end_turn t a) ∧ accepted (end_turn t a) = accepted a ∧ outcome (end_turn t a) ≠ None ∧
  (outcome (end_turn t a) = Some (Ok tt) → complete_run (end_turn t a)).
Proof.
  intros HD HI Hout Hlt Hempty. unfold end_turn. destruct (emit_committed (t_open t) a) as [a' sent] eqn:E.
  destruct (emit_good _ _ _ _ E Hlt HD HI Hout) as (HD' & HI' & Hout' & Ha & Hw & Hb & Hc & Ht).
  destruct sent; cbn [negb]; [|by split; [apply closed_good|]]. specialize (HI' eq_refl).
  assert (∀ id, outstanding (progress (sink a)) id = 0) as Hz.
  { intros id. rewrite (inv_out a HI), Hempty. unfold buffered. by rewrite map_to_list_empty. }
  destruct (inv_rep a HI) as [q Hq]. pose proof (take_empties _ q Hq Hz) as He. rewrite <-Ht in He. rewrite He. cbn [negb].
  split; [by apply finish_good|]. split; [done|]. split; [done|]. intros _.
  unfold complete_run, promised, written. cbn. fold (promised a') (written a'). split.
  - rewrite (inv_all a' HI'), Hb, Hempty. unfold buffered. by rewrite map_to_list_empty, app_nil_r.
  - pose proof (inv_last a' HI'). pose proof (inv_next a' HI'). destruct (inv_rep a' HI') as [q' Hq'].
    assert (next_commit (progress (sink a')) = next_received (progress (sink a'))); [|lia].
    pose proof (represents_size _ _ Hq') as Hs. destruct Hq' as (-> & -> & _).
    unfold is_empty in He. apply bool_decide_eq_true in He. rewrite He, map_size_empty in Hs. lia.
Qed.

Lemma select_turn_good t a a' :
  Durable a → Inv a → outcome a = None → next_received (progress (sink a)) < u64_max →
  select_turn config encode_batch t a = Some a' → Good a'.
Proof.
  intros HD HI Hout Hlt Hs. unfold select_turn in Hs. destruct (t_select t) as [|[d|]|].
  - injection Hs as <-. by apply finish_good.
  - destruct (input_closed a); [done|]. injection Hs as <-. by apply accept_good.
  - destruct (input_closed a); [done|]. injection Hs as <-. split; [by destruct HD|]. intros _. by destruct HI.
  - case_bool_decide; [done|]. injection Hs as <-. by split.
Qed.

Lemma turn_good t a a' :
  Durable a → Inv a → outcome a = None → next_received (progress (sink a)) < u64_max →
  (∀ n, t_order t n ≡ₚ seq 0 n) →
  turn config partition_id encode_batch hash_iter t a = Some a' → Good a'.
Proof.
  intros HD HI Hout Hlt Hord Hturn. unfold turn in Hturn. destruct (emit_committed (t_open t) a) as [a1 sent] eqn:E.
  destruct (emit_good _ _ _ _ E Hlt HD HI Hout) as (HD' & HI' & Hout' & Ha & Hw & Hb & Hc & Ht).
  destruct sent; cbn [negb] in Hturn; [|injection Hturn as <-; by apply closed_good].
  specialize (HI' eq_refl).
  assert (next_received (progress (sink a1)) < u64_max) as Hlt'.
  { pose proof (inv_next a HI). pose proof (inv_next a1 HI') as Hn. rewrite Ha in Hn. lia. }
  assert (∀ a', (if input_closed a1 && bool_decide (buffers (sink a1) = ∅) then Some (end_turn t a1)
      else select_turn config encode_batch t a1) = Some a' → Good a') as Hrest.
  { intros a2. destruct (input_closed a1); cbn; [case_bool_decide as Hem|]; [|by apply select_turn_good..].
    intros [= <-]. by destruct (end_turn_good t a1 HD' HI' Hout' Hlt' Hem) as [? _]. }
  destruct (next_flush config hash_iter (sink a1) _ _ _) as [[index d]|] eqn:En; [|exact (Hrest a' Hturn)].
  destruct (bool_decide (d ≤ t_now t)); [|exact (Hrest a' Hturn)]. apply next_flush_some in En as [[b Hb'] _].
  destruct (flush_good t a1 index b HD' HI' Hout' Hb' Hord) as (a2 & E2 & HG & Hacc & _).
  by assert (a2 = a') as -> by congruence.
Qed.

Definition move_ok (m : Move) : Prop := match m with MTurn t => ∀ n, t_order t n ≡ₚ seq 0 n | _ => True end.

Lemma move_good a m a' :
  Good a → 1 + Z.of_nat (length (accepted a)) < u64_max → move_ok m →
  move config partition_id encode_batch hash_iter a m = Some a' → Good a'.
Proof.
  intros [HD HI] Hlt Hm Hmove. destruct m as [t| |d]; cbn in Hmove.
  - destruct (outcome a) eqn:Hout; [done|]. specialize (HI ltac:(done)).
    apply (turn_good t a); try done. by rewrite (inv_next a HI).
  - destruct (outcome a) as [[u|e]|] eqn:Hout; try done. injection Hmove as <-. specialize (HI ltac:(done)).
    destruct HD. split; [split; cbn; done|]. intros _. by destruct HI.
  - destruct (outcome a) as [[u|e]|] eqn:Hout; try done. injection Hmove as <-. specialize (HI ltac:(done)).
    destruct HD. split; [split; cbn; try done; by rewrite Hout|]. intros _. by destruct HI.
Qed.

Lemma accept_count now a d : (length (accepted (accept_delivery config encode_batch now a d)) ≤ S (length (accepted a)))%nat.
Proof.
  unfold accept_delivery. destruct (accept config encode_batch now (sink a) d) as [s [prepared|e]]; cbn; [|lia].
  rewrite length_app. cbn. lia.
Qed.

Lemma emit_accepted o a : accepted (emit_committed o a).1 = accepted a.
Proof. unfold emit_committed. destruct (take_committed _) as [t [c|]]; [|done]. by destruct o. Qed.

Lemma move_accepted a m a' :
  move config partition_id encode_batch hash_iter a m = Some a' → (length (accepted a') ≤ S (length (accepted a)))%nat.
Proof.
  destruct m as [t| |d]; cbn; [|destruct (outcome a) as [[]|]; intros [= <-]; cbn; lia..].
  destruct (outcome a); [done|]. unfold turn. pose proof (emit_accepted (t_open t) a) as Ha.
  destruct (emit_committed (t_open t) a) as [a1 sent]. cbn in Ha. rewrite <-Ha.
  assert (∀ a', (if input_closed a1 && bool_decide (buffers (sink a1) = ∅) then Some (end_turn t a1)
      else select_turn config encode_batch t a1) = Some a' → (length (accepted a') ≤ S (length (accepted a1)))%nat) as Hrest.
  { intros a2. destruct (input_closed a1 && _).
    - intros [= <-]. unfold end_turn. pose proof (emit_accepted (t_open t) a1) as Ha1.
      destruct (emit_committed (t_open t) a1) as [a3 []]; cbn in *; [destruct (negb _)|]; cbn; rewrite Ha1; lia.
    - unfold select_turn. destruct (t_select t) as [|[d|]|]; [intros [= <-]; cbn; lia|..].
      + destruct (input_closed a1); [done|]. intros [= <-]. apply accept_count.
      + destruct (input_closed a1); [done|]. intros [= <-]. cbn. lia.
      + case_bool_decide; [done|]. intros [= <-]. lia. }
  destruct sent; cbn [negb]; [|intros [= <-]; cbn; lia].
  destruct (next_flush _ _ _ _ _ _) as [[index d]|]; [|apply Hrest]. destruct (bool_decide (d ≤ t_now t)); [|apply Hrest].
  unfold flush_turn. destruct (flush _ _ _ _ _ _ _) as [[[s|e] chunks]|]; intros [= <-]; cbn; lia.
Qed.

Lemma run_accepted a l a' :
  run_moves config partition_id encode_batch hash_iter a l = Some a' →
  (length (accepted a') ≤ length (accepted a) + length l)%nat.
Proof.
  revert a. induction l as [|m l IH]; intros a Hrun; [injection Hrun as <-; cbn; lia|].
  cbn in Hrun. apply bind_Some in Hrun as (a1 & Hmove & Hrun). apply IH in Hrun. apply move_accepted in Hmove. cbn. lia.
Qed.

Lemma run_good a l a' :
  Good a → Z.of_nat (length (accepted a)) + Z.of_nat (length l) < u64_max → Forall move_ok l →
  run_moves config partition_id encode_batch hash_iter a l = Some a' → Good a'.
Proof.
  revert a. induction l as [|m l IH]; intros a HG Hlt Hm Hrun; [by injection Hrun as <-|].
  cbn in Hrun. apply bind_Some in Hrun as (a1 & Hmove & Hrun). apply Forall_cons in Hm as [Hm1 Hm].
  cbn [length] in Hlt. pose proof (move_accepted a m a1 Hmove).
  apply (IH a1); [by apply (move_good a m); [|lia|..]|lia|done..].
Qed.

(** ** Draining *)
Fixpoint run_turns (a : Actor) (l : list Turn) : option Actor :=
  match l with
  | [] => Some a
  | t :: l => match outcome a with
              | Some _ => Some a
              | None => turn config partition_id encode_batch hash_iter t a ≫= λ a, run_turns a l
              end
  end.

(** The clock does not go back during a turn. *)
Definition turn_ok (t : Turn) : Prop := (∀ n, t_order t n ≡ₚ seq 0 n) ∧ ∀ i, t_clock t i ≤ t_now t.

Lemma closed_turn t a :
  Durable a → Inv a → outcome a = None → input_closed a = true → next_received (progress (sink a)) < u64_max →
  turn_ok t →
  ∃ a', turn config partition_id encode_batch hash_iter t a = Some a' ∧ Good a' ∧ accepted a' = accepted a ∧
    (outcome a' = None → input_closed a' = true ∧
       (length (buffered (buffers (sink a'))) < length (buffered (buffers (sink a))))%nat) ∧
    (outcome a' = Some (Ok tt) → complete_run a').
Proof.
  intros HD HI Hout Hclosed Hlt [Hord Hclock]. unfold turn. destruct (emit_committed (t_open t) a) as [a1 sent] eqn:E.
  destruct (emit_good _ _ _ _ E Hlt HD HI Hout) as (HD' & HI' & Hout' & Ha & Hw & Hb & Hc & Ht).
  destruct sent; cbn [negb]; [|eexists; split; [done|]; split; [by apply closed_good|]; by split_and!].
  specialize (HI' eq_refl). rewrite <-Ha, <-Hb. rewrite Hclosed in Hc. rewrite Hc. cbn [andb].
  assert (next_received (progress (sink a1)) < u64_max) as Hlt'.
  { pose proof (inv_next a HI). pose proof (inv_next a1 HI') as Hn. rewrite Ha in Hn. lia. }
  destruct (next_flush config hash_iter (sink a1) _ _ _) as [[index d]|] eqn:En.
  - apply next_flush_some in En as [[b Hb'] Hd]. destruct (Hd eq_refl) as [i ->].
    rewrite bool_decide_eq_true_2 by apply Hclock.
    destruct (flush_good t a1 index b HD' HI' Hout' Hb' Hord) as (a2 & E2 & HG & Hacc & Hcl & Hlen & Hok).
    exists a2. split_and!; try done. intros Hn. split; [congruence|auto].
  - apply next_flush_none in En. rewrite bool_decide_eq_true_2 by done.
    destruct (end_turn_good t a1 HD' HI' Hout' Hlt' En) as (HG & Hacc & Hne & Hcr).
    eexists. split; [done|]. by split_and!.
Qed.

Lemma closed_run l a :
  Durable a → Inv a → outcome a = None → input_closed a = true → next_received (progress (sink a)) < u64_max →
  Forall turn_ok l → (length (buffered (buffers (sink a))) < length l)%nat →
  ∃ a', run_turns a l = Some a' ∧ Good a' ∧ accepted a' = accepted a ∧ outcome a' ≠ None ∧
    (outcome a' = Some (Ok tt) → complete_run a').
Proof.
  revert a. induction l as [|t l IH]; intros a HD HI Hout Hclosed Hlt Hl Hlen; cbn [length] in Hlen; [lia|].
  apply Forall_cons in Hl as [Ht Hl].
  destruct (closed_turn t a HD HI Hout Hclosed Hlt Ht) as (a1 & E & HG & Hacc & Hnone & Hok).
  cbn [run_turns]. rewrite Hout, E. cbn. destruct (outcome a1) as [r|] eqn:Hout1.
  - exists a1. assert (run_turns a1 l = Some a1) as -> by (destruct l; cbn; [done|by rewrite Hout1]).
    split_and!; try done; by rewrite Hout1.
  - destruct HG as [HD1 HI1]. specialize (HI1 ltac:(by rewrite Hout1)). destruct (Hnone eq_refl) as [Hc1 Hlen1].
    destruct (IH a1 HD1 HI1 Hout1 Hc1) as (a' & E' & HG' & Hacc' & Hne & Hcr); [|done|lia|].
    { rewrite (inv_next a1 HI1), Hacc, <-(inv_next a HI). done. }
    exists a'. split_and!; try done. congruence.
Qed.

(** ** Claims *)

Lemma written_acknowledged a x p :
  Durable a → tag x p ∈ written a →
  ∃ ch, (p.1, ch) ∈ writes a ∧ p.2 ∈ mjoin (acknowledged <$> ch_requests ch).
Proof.
  intros HD ([index ch] & Hp & Hw)%list_elem_of_bind. apply list_elem_of_fmap in Hp as (pa & [= -> E] & Hpa).
  exists ch. split; [done|]. destruct (proj1 (Forall_forall _ _) (dur_written a HD) _ Hw) as [Hcw _].
  rewrite Hcw. apply list_elem_of_fmap. exists pa. split; [by rewrite <-E|done].
Qed.

(** C3. In every run of the sink, over any number of sessions and whatever the service,
    the clock and the channels do: deliveries are accepted with the ids 1, 2, and so on;
    commits are reported in increasing order; when a
    delivery is reported, every action of every delivery up to it is in a chunk of its
    index whose bulk requests the service acknowledged; the buffers never hold two
    actions of one document; and the sink fails only for a refused delivery, a failed
    bulk request or a closed event channel, never for a missing buffer, a tracker
    underflow or incomplete deliveries. *)
Theorem opensearch_commits_durable d moves a :
  Z.of_nat (length moves) < u64_max → Forall move_ok moves →
  run_moves config partition_id encode_batch hash_iter (actor_init d) moves = Some a →
  StronglySorted Z.lt (events a) ∧ (∀ i x, accepted a !! i = Some x → x.1 = 1 + Z.of_nat i) ∧
  (∀ e, e ∈ events a → 1 ≤ e ≤ Z.of_nat (length (accepted a)) ∧
     ∀ x p, x ∈ accepted a → x.1 ≤ e → p ∈ x.2 →
       ∃ ch, (p.1, ch) ∈ writes a ∧ p.2 ∈ mjoin (acknowledged <$> ch_requests ch)) ∧
  ((∀ e, outcome a ≠ Some (Err e)) →
     promised a ≡ₚ written a ++ buffered (buffers (sink a)) ∧ NoDup (ident <$> buffered (buffers (sink a)))) ∧
  (∀ e, outcome a = Some (Err e) → expected_error e).
Proof.
  intros Hlen Hm Hrun. destruct (run_good _ _ _ (init_good d) Hlen Hm Hrun) as [HD HI].
  split; [apply HD|]. split; [apply HD|]. split; [|split; [|apply HD]].
  - intros e He. destruct (dur_events a HD e He) as [Hle Hall]. split; [done|]. intros x p Hx Hxe Hp.
    by apply (written_acknowledged a x.1); [|apply Hall].
  - intros Hne. by destruct (HI Hne).
Qed.

(** C26. Once its input is closed the sink ends: after at most as many turns as it has
    buffered actions, and one more, whatever happens it has an outcome; if it ends well,
    everything it ever accepted has been written and the last commit it reported is the
    last delivery it accepted. *)
Theorem opensearch_drains d moves a turns :
  Z.of_nat (length moves) + 1 < u64_max → Forall move_ok moves →
  run_moves config partition_id encode_batch hash_iter (actor_init d) moves = Some a →
  outcome a = None → input_closed a = true → Forall turn_ok turns →
  (length (buffered (buffers (sink a))) < length turns)%nat →
  ∃ a', run_turns a turns = Some a' ∧ outcome a' ≠ None ∧ accepted a' = accepted a ∧
    (outcome a' = Some (Ok tt) →
       promised a' ≡ₚ written a' ∧ Z.of_nat (length (accepted a')) = default 0 (last (events a'))).
Proof.
  intros Hlen Hm Hrun Hout Hclosed Hturns Hn.
  destruct (run_good (actor_init d) moves a (init_good d) ltac:(cbn; lia) Hm Hrun) as [HD HI]. specialize (HI ltac:(by rewrite Hout)).
  destruct (closed_run turns a HD HI Hout Hclosed) as (a' & E & _ & Hacc & Hne & Hcr); [|done..|].
  - rewrite (inv_next a HI). pose proof (run_accepted _ _ _ Hrun). cbn in *. lia.
  - by exists a'.
Qed.
End durable.

(** ** A run: one delivery of two rows, flushed under memory pressure and committed *)
Section example.
#[local] Existing Instance example_arrow.
#[local] Existing Instance example_values.
#[local] Existing Instance example_compute.

Ltac by_evaluation := match goal with |- ?a = ?b => vm_cast_no_check (eq_refl b) end.

Definition append_schema : DatasetSchema := [example_key; SchemaColumn_new "value" Utf8 true].
Definition append_batch : SinkBatch :=
  {| sb_schema := append_schema; sb_namespace := None; sb_table := "users"; sb_is_dlq := false;
     sb_batch := {| rb_schema := arrow_field <$> append_schema;
       rb_columns := [UInt64Array [Some 7; Some 8]; StringArray [Some "a"; None]]; rb_rows := 2 |};
     sb_byte_size := 64; sb_system_columns := [] |}.
Definition append_discovery : DeliveryDiscovery :=
  {| source_name := "pg"; source_topology := DynamicWorkerLanes; schema_origin := SourceNative;
     keep_system_columns := false;
     datasets := [{| namespace := None; update_policy := Strict; role := Main; ds_name := "users";
       incoming_schema := append_schema; stored_schema := append_schema; system_columns := [] |}];
     performance_advice := [] |}.
Definition append_delivery : Delivery :=
  {| del_id := DeliveryId.new 1; del_outputs := [append_batch]; del_meta := {| meta_source_messages := 2 |} |}.

Definition example_encode (_ : string) (_ : DatasetSchema) (b : RecordBatch) (_ : RoutedIdentity)
    : result AnyhowError (list BulkAction) := Ok (firstn (rb_rows b) [example_action "7"; example_action "8"]).
Lemma example_encode_sizes i s b r l : example_encode i s b r = Ok l → Forall (λ a, 0 ≤ ba_bytes a) l.
Proof. intros [= <-]. by apply Forall_take; repeat constructor. Qed.

Definition example_turn (pressure : bool) (s : Select) : Turn :=
  {| t_open := true; t_pressure := pressure; t_clock := λ _, 0; t_now := 0; t_order := seq 0; t_env := accepting;
     t_select := s |}.
Definition example_moves : list Move :=
  [MTurn (example_turn false (Received (Some append_delivery))); MTurn (example_turn true Elapsed);
   MTurn (example_turn false (Received None))].
#[local] Abbreviation example_run l :=
  (run_moves example_config 7 example_encode map_to_list (actor_init append_discovery) l).

Lemma example_moves_ok l : Forall move_ok (firstn l example_moves).
Proof. apply Forall_take. unfold example_moves.
  repeat (apply Forall_cons_2; [by intros n|]). apply Forall_nil_2. Qed.

Lemma opensearch_commits_durable_witness :
  ∃ a, example_run example_moves = Some a ∧ events a = [1] ∧ length (writes a) = 2%nat ∧
    ∃ ch, ("users", ch) ∈ writes a ∧ example_action "8" ∈ mjoin (acknowledged <$> ch_requests ch).
Proof.
  assert ((λ a, (events a, length (writes a), bool_decide (accepted a = [(1, [("users", example_action "7"); ("users", example_action "8")])])))
    <$> example_run example_moves = Some ([1], 2%nat, true)) as E by by_evaluation.
  apply fmap_Some in E as (a & Ha & [= He Hw Hacc]). symmetry in Hacc. apply bool_decide_eq_true in Hacc.
  exists a. split; [exact Ha|]. split; [exact (eq_sym He)|]. split; [exact (eq_sym Hw)|].
  destruct (opensearch_commits_durable example_config 7 example_encode map_to_list) with (d := append_discovery)
    (moves := example_moves) (a := a) as (_ & _ & Hd & _).
  - reflexivity.
  - vm_compute. discriminate.
  - vm_compute. discriminate.
  - vm_compute. reflexivity.
  - exact example_encode_sizes.
  - reflexivity.
  - vm_compute. reflexivity.
  - exact (example_moves_ok 3).
  - exact Ha.
  - destruct (Hd 1) as [_ H]; [rewrite <-He; left|].
    exact (H (1, [("users", example_action "7"); ("users", example_action "8")]) ("users", example_action "8")
      ltac:(rewrite Hacc; left) ltac:(cbn; lia) ltac:(cbn; right; left)).
Defined.

Lemma opensearch_drains_witness :
  ∃ a a', example_run [MTurn (example_turn false (Received (Some append_delivery)));
                       MTurn (example_turn false (Received None))] = Some a ∧
    run_turns example_config 7 example_encode map_to_list a (replicate 3 (example_turn false Elapsed)) = Some a' ∧
    outcome a' ≠ None.
Proof.
  set (l := [MTurn (example_turn false (Received (Some append_delivery)));
             MTurn (example_turn false (Received None))]).
  assert ((λ a, (is_none (outcome a), input_closed a, length (buffered (buffers (sink a)))))
    <$> example_run l = Some (true, true, 2%nat)) as E by by_evaluation.
  apply fmap_Some in E as (a & Ha & [= Ho Hc Hb]).
  destruct (opensearch_drains example_config 7 example_encode map_to_list) with (d := append_discovery)
    (moves := l) (a := a) (turns := replicate 3 (example_turn false Elapsed)) as (a' & Hr & Hn & _).
  - reflexivity.
  - vm_compute. discriminate.
  - vm_compute. discriminate.
  - vm_compute. reflexivity.
  - exact example_encode_sizes.
  - reflexivity.
  - vm_compute. reflexivity.
  - repeat (apply Forall_cons_2; [by intros n|]). apply Forall_nil_2.
  - exact Ha.
  - by destruct (outcome a).
  - exact (eq_sym Hc).
  - apply Forall_replicate. by split; intros.
  - rewrite <-Hb. cbn. lia.
  - exact (ex_intro _ a (ex_intro _ a' (conj Ha (conj Hr Hn)))).
Defined.
End example.
