(* ===== verification/OpenSearchPipeline.v ===== *)
(** * A partition pipeline that writes to OpenSearch

    The reader of [Reader.v] with the sink of [OpenSearchSink.v]: what committing a source
    offset says about the destination. *)

From stdpp Require Import base tactics numbers option strings gmap relations list.
From S2P Require Import Prelude DeliveryId DeliveryTracker Schema Arrow Delivery Failure Reader Admission Parser Pipeline OpenSearchBulk OpenSearchLanes OpenSearchSink OpenSearchDurable.
Local Open Scope Z_scope.

Section pipeline.
Context {AT : ArrowTypes} {AV : ArrowValues} {AC : ArrowCompute} {Marker : Type}.
Context (array_memory_size : Array → Z).
Context (config : OpenSearchSinkConfig) (partition_id : Z).
Context (encode_batch : string → DatasetSchema → RecordBatch → RoutedIdentity → result AnyhowError (list BulkAction)).
Context (hash_iter : gmap string IndexBuffer → list (string * IndexBuffer)).
Hypothesis Hvalid : validate (Ok tt) config = Ok tt.
Hypothesis Hattempts : retry_max_attempts config ≤ u32_max.
Hypothesis Hdelay : retry_max_ms config ≤ u64_max.
Hypothesis Hbytes : bulk_target_bytes config < usize_max.
Hypothesis Hencode : ∀ i s b r l, encode_batch i s b r = Ok l → Forall (λ a, 0 ≤ ba_bytes a) l.
Hypothesis Hhash : ∀ m, hash_iter m ≡ₚ map_to_list m.

(** C2. From the source to the destination: take any run of the reader and any run of
    the OpenSearch sink, and let every event the reader received be one the sink sent.
    Then every marker committed to the source belongs to a delivery the sink accepted,
    and every action that delivery was encoded into has been acknowledged by the service
    in a bulk request for its index. *)
Theorem opensearch_offsets_durable p rows (s : @Reader.State _ _ Marker) d moves a :
  0 ≤ committed_groups p ≤ u64_max → rtc (Reader.steps array_memory_size) (Reader.init p rows) s →
  Z.of_nat (length moves) < u64_max → Forall move_ok moves →
  run_moves config partition_id encode_batch hash_iter (actor_init d) moves = Some a →
  (∀ e, e ∈ acked s → e ∈ OpenSearchSink.events a) →
  ∀ m, m ∈ mjoin (commits s) →
    ∃ e x, e ∈ history s ∧ ce_marker e = Some m ∧ x ∈ accepted a ∧ x.1 = ce_id e ∧
      ∀ q, q ∈ x.2 → ∃ ch, (q.1, ch) ∈ writes a ∧ q.2 ∈ mjoin (acknowledged <$> ch_requests ch).
Proof.
  intros Hp Hr Hlen Hmoves Hrun Hlink m Hm.
  destruct (reader_committed array_memory_size p rows s Hp Hr) as [_ Hc].
  destruct (Hc m Hm) as (i & e & ack & He & Hem & Hid & Hack & Hle).
  destruct (run_good config partition_id encode_batch hash_iter Hvalid Hattempts Hdelay Hbytes Hencode Hhash
    (actor_init d) moves a (init_good config d) Hlen Hmoves Hrun) as [HD _].
  destruct (dur_events config a HD ack (Hlink ack Hack)) as [Hrange Hall].
  assert (1 ≤ ce_id e) as Hpos by (rewrite Hid; unfold id_at, u64_max; lia).
  destruct (lookup_lt_is_Some_2 (accepted a) (Z.to_nat (ce_id e - 1))) as [x Hx]; [lia|].
  pose proof (dur_ids config a HD _ _ Hx) as Hxid. apply list_elem_of_lookup_2 in Hx.
  exists e, x. split_and!; [by eapply list_elem_of_lookup_2|done|done|lia|].
  intros q Hq. apply (written_acknowledged config a x.1 q HD). apply Hall; [done|lia|done].
Qed.
End pipeline.

(** ** A run: the first delivery is committed after its two actions are acknowledged *)
Section example.
#[local] Existing Instance example_arrow.
#[local] Existing Instance example_values.
#[local] Existing Instance example_compute.

Ltac by_evaluation := match goal with |- ?a = ?b => vm_cast_no_check (eq_refl b) end.

Definition acked_inputs : list (@Reader.Input _ _ nat) :=
  [ Reader.IRead (Ok (Raw [Message_new [104; 105]] (Some 1%nat) [])); INoEvent; IReserved 5; IPermit true;
    Reader.IRead (Ok (Raw [Message_new [106]] (Some 2%nat) [])); IEvent 1 (Ok tt) ].
#[local] Abbreviation acked_run :=
  (run_inputs (λ _, 0) (Reader.init Reader.example_start None) acked_inputs).
#[local] Abbreviation sink_run :=
  (run_moves example_config 7 example_encode map_to_list (actor_init append_discovery) example_moves).

Lemma acked_summary : (λ s, (acked s, mjoin (commits s))) <$> acked_run = Some ([1], [1%nat]).
Proof. by_evaluation. Qed.
Lemma sink_summary : (λ a, (OpenSearchSink.events a, (accepted a).*1)) <$> sink_run = Some ([1], [1]).
Proof. by_evaluation. Qed.

Lemma opensearch_offsets_durable_witness :
  ∃ a x, sink_run = Some a ∧ x ∈ accepted a ∧ x.1 = 1 ∧
    ∀ q, q ∈ x.2 → ∃ ch, (q.1, ch) ∈ writes a ∧ q.2 ∈ mjoin (acknowledged <$> ch_requests ch).
Proof.
  destruct (proj1 (fmap_Some _ _ _) acked_summary) as (s & Hs & [= Hack Hcom]).
  destruct (proj1 (fmap_Some _ _ _) sink_summary) as (a & Ha & [= Hev Hids]).
  destruct (opensearch_offsets_durable (λ _, 0) example_config 7 example_encode map_to_list
    eq_refl ltac:(vm_compute; discriminate) ltac:(vm_compute; discriminate) ltac:(vm_compute; reflexivity)
    example_encode_sizes ltac:(reflexivity) Reader.example_start None s append_discovery example_moves a) with (m := 1%nat)
    as (e & x & He & Hem & Hx & Hid & Hall).
  - vm_compute. split; discriminate.
  - exact (run_inputs_rtc _ _ _ acked_inputs Hs).
  - vm_compute. reflexivity.
  - exact (example_moves_ok 3).
  - exact Ha.
  - rewrite <-Hack, <-Hev. intros e He. exact He.
  - rewrite <-Hcom. left.
  - exists a, x. split; [exact Ha|]. split; [exact Hx|]. split; [|exact Hall].
    apply (list_elem_of_fmap_2 fst) in Hx. rewrite <-Hids in Hx. exact (proj1 (list_elem_of_singleton _ _) Hx).
Defined.
End example.
