(* ===== verification/MySqlPosition.v ===== *)
(** * Resume positions of the MySQL stream source

    [src_stream/position.rs] of [transferia-connector-mysql]: binlog positions and GTID
    sets.  A GTID set records the executed transactions per server (and tag) as sorted,
    separated, half-open intervals of transaction numbers.

    [mysql_common]'s SID parser and interval constructor are an interface.  The laws say
    that an interval within the protocol's range is representable and that a SID text with
    canonical intervals parses when its tag follows MySQL's tag grammar.  A string is its
    UTF-8 bytes, and the reason of an error is left out. *)

From Stdlib Require Import Ascii.
From stdpp Require Import base tactics numbers option strings pretty sorting list.
From S2P Require Import Prelude Bytes Schema.
Local Open Scope Z_scope.

Record MySqlBinlogPosition := { filename : list Z; bp_position : Z (* u32 *) }.

Record GtidInterval := { start : Z; end_exclusive : Z (* u64 *) }.
#[export] Instance GtidInterval_eq_dec : EqDecision GtidInterval.
Proof. solve_decision. Defined.

Record GtidSid := { sid : list Z; tag : option string; intervals : list GtidInterval }.
#[export] Instance GtidSid_eq_dec : EqDecision GtidSid.
Proof. solve_decision. Defined.

Abbreviation GtidSet := (list GtidSid) (only parsing).

Inductive PositionError :=
| EmptyFilename | FilenameContainsNul | PositionDoesNotFitProtocol (p : Z) | PositionBeforeBinlogHeader (p : Z)
| ZeroServerId | GtidSetContainsWhitespace | EmptyGtidSetEntry (index : nat)
| EmptyGtidIntervals (s : list Z) (t : option string)
| DuplicateGtidSid (s : list Z) (t : option string)
| DuplicateCommittedGtid (s : list Z) (t : option string) (gno : Z)
| InvalidGtidInterval (s e : Z) | InvalidGtidIntervalRepresentation
| NonCanonicalGtidIntervals (previous_end next_start : Z)
| InvalidGtidSid (text : string) | NonCanonicalGtidSidText (received canonical : string).
#[export] Instance PositionError_eq_dec : EqDecision PositionError.
Proof. solve_decision. Defined.

(** ** Positions in a binlog file *)
Definition position_new (file : list Z) (p : Z) : result PositionError MySqlBinlogPosition :=
  ensure (negb (bool_decide (file = []))) EmptyFilename ≫= λ _,
  ensure (bool_decide (0 ∉ file)) FilenameContainsNul ≫= λ _,
  ensure (bool_decide (0 ≤ p ≤ u32_max)) (PositionDoesNotFitProtocol p) ≫= λ _,
  ensure (bool_decide (4 ≤ p)) (PositionBeforeBinlogHeader p) ≫= λ _,
  Ok {| filename := file; bp_position := p |}.
Definition position_validate (p : MySqlBinlogPosition) : result PositionError unit :=
  position_new (filename p) (bp_position p) ≫= λ _, Ok tt.

(** ** Text *)
Definition MAX_END_EXCLUSIVE : Z := i64_max + 1.

Definition hex_digit (n : Z) : ascii :=
  ascii_of_N (Z.to_N (if bool_decide (n < 10) then n + 48 else n + 87)).
Definition hex_byte (b : Z) : string := String (hex_digit (b / 16)) (String (hex_digit (b `mod` 16)) "").
Definition format_uuid (s : list Z) : string :=
  foldl (λ out ib, out +:+ (if bool_decide (ib.1 ∈ [4; 6; 8; 10]%nat) then "-" else "") +:+ hex_byte ib.2) ""
    (imap pair s).

Definition interval_text (i : GtidInterval) : string :=
  ":" +:+ pretty (start i) +:+
  (if bool_decide (checked_add u64_max (start i) 1 = Some (end_exclusive i)) then ""
   else "-" +:+ pretty (saturating_sub (end_exclusive i) 1)).
Definition to_mysql_text (s : GtidSid) : string :=
  foldl (λ out i, out +:+ interval_text i)
    (format_uuid (sid s) +:+ match tag s with Some t => ":" +:+ t | None => "" end) (intervals s).

(** ** Validation *)

(** The loop of [validate_intervals]. *)
Definition check_interval (check : GtidInterval → result PositionError unit) (previous_end : option Z) (i : GtidInterval)
    : result PositionError (option Z) :=
  check i ≫= λ _,
  match previous_end with
  | Some e => ensure (negb (bool_decide (start i ≤ e))) (NonCanonicalGtidIntervals e (start i))
  | None => Ok tt
  end ≫= λ _, Ok (Some (end_exclusive i)).

(** The intervals of a SID are valid, sorted, separated and not adjacent. *)
Definition interval_ok (i : GtidInterval) : Prop := 1 ≤ start i < end_exclusive i ∧ end_exclusive i ≤ MAX_END_EXCLUSIVE.
Definition canonical (l : list GtidInterval) : Prop :=
  StronglySorted (λ a b, end_exclusive a < start b) l ∧ Forall interval_ok l.

(** MySQL's grammar of GTID tags: up to 32 lower-case letters, digits and underscores, the
    first not a digit. *)
Definition tag_start (c : Z) : bool := bool_decide (97 ≤ c ≤ 122) || bool_decide (c = 95).
Definition tag_char (c : Z) : bool := tag_start c || bool_decide (48 ≤ c ≤ 57).
Definition tag_grammar (t : option string) : bool :=
  match string_bytes <$> t with
  | None => true
  | Some [] => false
  | Some (c :: rest) => tag_start c && forallb tag_char rest && bool_decide (length rest ≤ 31)%nat
  end.

Class MySqlCommon := {
  Sid : Type;
  uuid : Sid → list Z;
  sid_tag : Sid → option string;
  sid_intervals : Sid → list (Z * Z);
  gno_check_and_new : Z → Z → bool;
  parse_sid : string → option Sid;
  check_and_new_ok i : interval_ok i → gno_check_and_new (start i) (end_exclusive i) = true;
  parse_sid_text s : length (sid s) = 16%nat → canonical (intervals s) → intervals s ≠ [] →
    tag_grammar (tag s) = true → is_Some (parse_sid (to_mysql_text s))
}.

Section gtid.
Context `{MySqlCommon}.

Definition interval_validate (i : GtidInterval) : result PositionError unit :=
  if bool_decide (start i = 0) || bool_decide (end_exclusive i ≤ start i) || bool_decide (MAX_END_EXCLUSIVE < end_exclusive i)
  then Err (InvalidGtidInterval (start i) (end_exclusive i))
  else ensure (gno_check_and_new (start i) (end_exclusive i)) InvalidGtidIntervalRepresentation.

Definition validate_intervals (s : GtidSid) : result PositionError unit :=
  ensure (negb (bool_decide (intervals s = []))) (EmptyGtidIntervals (sid s) (tag s)) ≫= λ _,
  for_each (check_interval interval_validate) (intervals s) None ≫= λ _, Ok tt.

Definition parse_mysql_sid (s : GtidSid) : result PositionError Sid :=
  ok_or (parse_sid (to_mysql_text s)) (InvalidGtidSid (to_mysql_text s)).
Definition sid_validate (s : GtidSid) : result PositionError unit :=
  validate_intervals s ≫= λ _, parse_mysql_sid s ≫= λ _, Ok tt.
Definition to_mysql_sid (s : GtidSid) : result PositionError Sid :=
  validate_intervals s ≫= λ _, parse_mysql_sid s.

Definition identity (s : GtidSid) : list Z * option string := (sid s, tag s).

(** The loop of [GtidSet::validate]. *)
Definition check_sid (seen : list (list Z * option string)) (s : GtidSid) : result PositionError (list (list Z * option string)) :=
  sid_validate s ≫= λ _,
  ensure (bool_decide (identity s ∉ seen)) (DuplicateGtidSid (sid s) (tag s)) ≫= λ _, Ok (identity s :: seen).
Definition set_validate (set : GtidSet) : result PositionError unit := for_each check_sid set [] ≫= λ _, Ok tt.
Definition to_mysql_sids (set : GtidSet) : result PositionError (list Sid) :=
  set_validate set ≫= λ _, mapM to_mysql_sid set.

(** ** [include_transaction] *)
Definition covers (gno : Z) (i : GtidInterval) : bool := bool_decide (start i ≤ gno < end_exclusive i).

(** One turn of the merging loop. *)
Definition merge_step (merged : list GtidInterval) (i : GtidInterval) : list GtidInterval :=
  match last merged with
  | Some p => if bool_decide (end_exclusive p = start i)
              then removelast merged ++ [{| start := start p; end_exclusive := end_exclusive i |}]
              else merged ++ [i]
  | None => merged ++ [i]
  end.

Definition start_le (a b : GtidInterval) : Prop := start a ≤ start b.
#[export] Instance start_le_dec : RelDecision start_le.
Proof. intros a b. unfold start_le. apply _. Defined.

(** The new intervals of a SID, with [gno] added. *)
Definition add_gno (l : list GtidInterval) (gno e : Z) : list GtidInterval :=
  foldl merge_step [] (merge_sort start_le (l ++ [{| start := gno; end_exclusive := e |}])).

Definition with_intervals (s : GtidSid) (l : list GtidInterval) : GtidSid :=
  {| sid := sid s; tag := tag s; intervals := l |}.

Definition include_transaction (set : GtidSet) (s : list Z) (t : option string) (gno : Z)
    : GtidSet * result PositionError unit :=
  match checked_add u64_max gno 1 with
  | None => (set, Err (InvalidGtidInterval gno gno))
  | Some e =>
      match interval_validate {| start := gno; end_exclusive := e |} with
      | Err err => (set, Err err)
      | Ok _ =>
          let '(index, set) :=
            match list_find (λ x, identity x = (s, t)) set with
            | Some (index, _) => (index, set)
            | None => (length set, set ++ [{| sid := s; tag := t; intervals := [] |}])
            end in
          match set !! index with
          | None => (set, Err (InvalidGtidInterval gno e))
          | Some found =>
              if existsb (covers gno) (intervals found) then (set, Err (DuplicateCommittedGtid s t gno))
              else
                let set := <[index := with_intervals found (add_gno (intervals found) gno e)]> set in
                (set, set_validate set)
          end
      end
  end.

(** ** [is_subset_of] *)
Definition interval_within (required available : GtidInterval) : bool :=
  bool_decide (start available ≤ start required) && bool_decide (end_exclusive required ≤ end_exclusive available).
Definition is_subset_of (self current : GtidSet) : bool :=
  forallb (λ required, match list_find (λ c, identity c = identity required) current with
    | Some (_, available) => forallb (λ i, existsb (interval_within i) (intervals available)) (intervals required)
    | None => false
    end) self.

(** ** [parse_mysql] *)

(** [char::is_whitespace] on the UTF-8 bytes: the ASCII spaces, U+0085, U+00A0, U+1680,
    U+2000 to U+200A, U+2028, U+2029, U+202F, U+205F and U+3000. *)
Fixpoint has_whitespace (l : list Z) : bool :=
  match l with
  | [] => false
  | c :: rest =>
      bool_decide (9 ≤ c ≤ 13) || bool_decide (c = 32) ||
      (match c, rest with
       | 0xC2, d :: _ => bool_decide (d ∈ [0x85; 0xA0])
       | 0xE1, 0x9A :: 0x80 :: _ => true
       | 0xE2, 0x80 :: d :: _ => bool_decide (0x80 ≤ d ≤ 0x8A) || bool_decide (d ∈ [0xA8; 0xA9; 0xAF])
       | 0xE2, 0x81 :: 0x9F :: _ => true
       | 0xE3, 0x80 :: 0x80 :: _ => true
       | _, _ => false
       end) || has_whitespace rest
  end.

Definition reject_sid_parser_overflow (text : string) : result PositionError unit :=
  ensure (negb (existsb (λ component, existsb (λ endpoint, bool_decide (parse_usize endpoint = Some u64_max))
    (split_on "-" component)) (drop 1 (split_on ":" text)))) (InvalidGtidSid text).

Definition sid_of (parsed : Sid) : GtidSid :=
  {| sid := uuid parsed; tag := sid_tag parsed;
     intervals := (λ i, {| start := i.1; end_exclusive := i.2 |}) <$> sid_intervals parsed |}.

(** The loop of [parse_mysql]. *)
Definition parse_entry (result : GtidSet) (entry : nat * string) : Prelude.result PositionError GtidSet :=
  let '(index, text) := entry in
  ensure (negb (bool_decide (text = ""))) (EmptyGtidSetEntry index) ≫= λ _,
  reject_sid_parser_overflow text ≫= λ _,
  ok_or (parse_sid text) (InvalidGtidSid text) ≫= λ parsed,
  let s := sid_of parsed in
  sid_validate s ≫= λ _,
  ensure (bool_decide (to_mysql_text s = text)) (NonCanonicalGtidSidText text (to_mysql_text s)) ≫= λ _,
  Ok (result ++ [s]).

Definition parse_mysql (value : string) : Prelude.result PositionError GtidSet :=
  if bool_decide (value = "") then Ok []
  else
    ensure (negb (has_whitespace (string_bytes value))) GtidSetContainsWhitespace ≫= λ _,
    for_each parse_entry (imap pair (split_on "," value)) [] ≫= λ set,
    set_validate set ≫= λ _, Ok set.

(** ** Resume positions *)
Inductive MySqlResumePosition :=
| FilePosition (p : MySqlBinlogPosition)
| Gtid (executed : GtidSet) (fallback : MySqlBinlogPosition).

Inductive BinlogStreamRequest :=
| FileRequest (server_id : Z) (file : list Z) (pos : Z)
| GtidRequest (server_id : Z) (sids : list Sid).

Definition resume_validate (r : MySqlResumePosition) : Prelude.result PositionError unit :=
  match r with
  | FilePosition p => position_validate p
  | Gtid executed fallback => position_validate fallback ≫= λ _, set_validate executed
  end.

Definition request (r : MySqlResumePosition) (server_id : Z) : Prelude.result PositionError BinlogStreamRequest :=
  ensure (negb (bool_decide (server_id = 0))) ZeroServerId ≫= λ _,
  resume_validate r ≫= λ _,
  match r with
  | FilePosition p => Ok (FileRequest server_id (filename p) (bp_position p))
  | Gtid executed _ => to_mysql_sids executed ≫= λ sids, Ok (GtidRequest server_id sids)
  end.

Definition fallback_position (r : MySqlResumePosition) : MySqlBinlogPosition :=
  match r with FilePosition p => p | Gtid _ p => p end.
End gtid.

(** ** Intervals as sets of transaction numbers *)
Definition inside (g : Z) (l : list GtidInterval) : Prop := ∃ i, i ∈ l ∧ start i ≤ g < end_exclusive i.

Lemma existsb_covers g l : existsb (covers g) l = true ↔ inside g l.
Proof.
  rewrite existsb_exists. split; intros (i & Hi & Hc); exists i.
  - apply list_elem_of_In in Hi. by apply bool_decide_eq_true in Hc.
  - split; [by apply list_elem_of_In|]. by apply bool_decide_eq_true_2.
Qed.

Lemma inside_app g l1 l2 : inside g (l1 ++ l2) ↔ inside g l1 ∨ inside g l2.
Proof. unfold inside. setoid_rewrite elem_of_app. naive_solver. Qed.
Lemma inside_cons g i l : inside g (i :: l) ↔ start i ≤ g < end_exclusive i ∨ inside g l.
Proof. unfold inside. setoid_rewrite elem_of_cons. naive_solver. Qed.
Lemma inside_nil g : ¬ inside g [].
Proof. intros (i & Hi & _). by apply not_elem_of_nil in Hi. Qed.
Lemma inside_perm g l l' : l ≡ₚ l' → inside g l ↔ inside g l'.
Proof. intros Hp. unfold inside. by setoid_rewrite Hp. Qed.

(** Intervals that do not meet, in any order. *)
Definition disjoint (a b : GtidInterval) : Prop := end_exclusive a ≤ start b ∨ end_exclusive b ≤ start a.
Fixpoint apart (l : list GtidInterval) : Prop :=
  match l with [] => True | a :: l => Forall (disjoint a) l ∧ apart l end.

Lemma disjoint_sym a b : disjoint a b → disjoint b a.
Proof. unfold disjoint. tauto. Qed.

Lemma apart_perm l l' : l ≡ₚ l' → apart l → apart l'.
Proof.
  induction 1 as [|a l l' Hp IH|a b l|l1 l2 l3 _ IH1 _ IH2]; cbn; [done| | |auto].
  - intros [Hf Ha]. split; [by rewrite <-Hp|auto].
  - intros [[Hab Ha]%Forall_cons [Hb Hl]]. split; [|done]. constructor; [by apply disjoint_sym|done].
Qed.

Lemma canonical_cons i l :
  canonical (i :: l) ↔ interval_ok i ∧ Forall (λ b, end_exclusive i < start b) l ∧ canonical l.
Proof.
  unfold canonical. rewrite Forall_cons. split.
  - intros [[? ?]%StronglySorted_inv [? ?]]. done.
  - intros (? & ? & ? & ?). split; [by constructor|done].
Qed.

Lemma canonical_apart l : canonical l → apart l.
Proof.
  induction l as [|i l IH]; [done|]. intros (Hi & Hl & Hc)%canonical_cons. split; [|by apply IH].
  eapply Forall_impl; [exact Hl|]. intros b Hb. cbn in Hb. left. lia.
Qed.

(** Sorted disjoint intervals, possibly adjacent. *)
Definition ordered (l : list GtidInterval) : Prop :=
  StronglySorted (λ a b, end_exclusive a ≤ start b) l ∧ Forall interval_ok l.

Lemma sorted_apart l : StronglySorted start_le l → apart l → Forall interval_ok l → ordered l.
Proof.
  intros Hs Ha Hok. split; [|done]. induction Hs as [|a l Hs IH Hle]; [constructor|].
  destruct Ha as [Hd Ha]. apply Forall_cons in Hok as [Hoa Hok]. constructor; [by apply IH|].
  rewrite Forall_forall in Hd, Hle, Hok |- *. intros b Hb. specialize (Hle b Hb). specialize (Hok b Hb).
  unfold start_le, interval_ok in *. destruct (Hd b Hb) as [?|?]; [done|]. lia.
Qed.

(** The merging loop with its last interval in hand. *)
Fixpoint merge_from (p : GtidInterval) (l : list GtidInterval) : list GtidInterval :=
  match l with
  | [] => [p]
  | i :: l => if bool_decide (end_exclusive p = start i)
              then merge_from {| start := start p; end_exclusive := end_exclusive i |} l
              else p :: merge_from i l
  end.

Lemma merge_from_loop acc p l : foldl merge_step (acc ++ [p]) l = acc ++ merge_from p l.
Proof.
  revert acc p. induction l as [|i l IH]; intros acc p; [done|]. cbn [foldl merge_from].
  unfold merge_step at 2. rewrite last_snoc. case_bool_decide.
  - rewrite removelast_last. apply IH.
  - rewrite (IH (acc ++ [p])), <-app_assoc. done.
Qed.

Lemma merge_from_ok p l : ordered (p :: l) →
  canonical (merge_from p l) ∧ (∀ b, b ∈ merge_from p l → start p ≤ start b) ∧
  ∀ g, inside g (merge_from p l) ↔ inside g (p :: l).
Proof.
  revert p. induction l as [|i l IH]; intros p [Hs Hok].
  { cbn. split; [by split; [repeat constructor|]|]. split; [|done].
    by intros b ->%list_elem_of_singleton. }
  apply StronglySorted_inv in Hs as [Hs Hp]. apply Forall_cons in Hok as [Hop Hok].
  pose proof Hok as [Hoi Hol]%Forall_cons. pose proof Hp as [Hpi Hpl]%Forall_cons.
  cbn [merge_from]. case_bool_decide as Hadj.
  - destruct (IH {| start := start p; end_exclusive := end_exclusive i |}) as (Hc & Hst & Hin).
    { split; [constructor|constructor]; cbn.
      - by apply StronglySorted_inv in Hs as [? _].
      - by apply StronglySorted_inv in Hs as [_ ?].
      - unfold interval_ok in *. cbn. lia.
      - done. }
    split; [done|]. split; [done|]. intros g. rewrite Hin, !inside_cons. cbn. unfold interval_ok in *.
    split; [intros [?|?]; [|by right; right]; destruct (decide (g < end_exclusive p)); [left|right; left]; lia|].
    intros [?|[?|?]]; [left; lia..|by right].
  - destruct (IH i (conj Hs Hok)) as (Hc & Hst & Hin). split_and!.
    + apply canonical_cons. split; [done|]. split; [|done]. apply Forall_forall. intros b Hb%Hst. cbn. lia.
    + intros b [->|Hb%Hst]%elem_of_cons; [done|]. unfold interval_ok in *. lia.
    + intros g. by rewrite !inside_cons, Hin, inside_cons.
Qed.

Lemma add_gno_ok l gno :
  canonical l → ¬ inside gno l → 1 ≤ gno ≤ i64_max →
  canonical (add_gno l gno (gno + 1)) ∧ add_gno l gno (gno + 1) ≠ [] ∧
  ∀ g, inside g (add_gno l gno (gno + 1)) ↔ inside g l ∨ g = gno.
Proof.
  intros Hc Hn Hg. set (x := {| start := gno; end_exclusive := gno + 1 |}).
  assert (interval_ok x) as Hx by (unfold interval_ok, MAX_END_EXCLUSIVE; cbn; lia).
  assert (apart (x :: l)) as Ha.
  { split; [|by apply canonical_apart]. apply Forall_forall. intros i Hi.
    destruct (decide (end_exclusive i ≤ gno)); [by right|]. left. cbn.
    destruct (decide (start i ≤ gno)); [|lia]. destruct Hn. exists i. split; [done|lia]. }
  assert (merge_sort start_le (l ++ [x]) ≡ₚ x :: l) as Hp.
  { rewrite merge_sort_Permutation. apply Permutation_app_comm. }
  assert (ordered (merge_sort start_le (l ++ [x]))) as Ho.
  { apply sorted_apart.
    - apply StronglySorted_merge_sort; [intros a b c; unfold start_le; lia|intros a b; unfold start_le; lia].
    - by apply (apart_perm (x :: l)).
    - rewrite Hp. constructor; [done|apply Hc]. }
  unfold add_gno. fold x. destruct (merge_sort start_le (l ++ [x])) as [|p m]; [by apply Permutation_nil_l in Hp|].
  cbn [foldl]. change (merge_step [] p) with ([] ++ [p]). rewrite merge_from_loop. cbn [app].
  destruct (merge_from_ok p m Ho) as (Hcan & _ & Hin). split; [done|]. split.
  - intros E. assert (inside gno (merge_from p m)) as Hi.
    { apply Hin. apply (inside_perm gno _ _ Hp), inside_cons. left. cbn. lia. }
    rewrite E in Hi. by apply inside_nil in Hi.
  - intros g. rewrite Hin, (inside_perm g _ _ Hp), inside_cons. cbn. split; [intros [?|?]; [right; lia|by left]|].
    intros [?| ->]; [by right|left; lia].
Qed.

(** ** Sets *)
Section sets.
Context `{MySqlCommon}.

(** The types of the source: 16 bytes and unsigned numbers. *)
Definition typed (s : GtidSid) : Prop := length (sid s) = 16%nat ∧ Forall (λ i, 0 ≤ start i) (intervals s).
Definition sid_ok (s : GtidSid) : Prop := 
  intervals s ≠ [] ∧ canonical (intervals s) ∧ is_Some (parse_sid (to_mysql_text s)).
Definition set_ok (set : list GtidSid) : Prop := NoDup (identity <$> set) ∧ Forall sid_ok set.
(** The transactions of a set. *)
Definition executed (set : list GtidSid) (k : list Z * option string) (g : Z) : Prop :=
  ∃ s, s ∈ set ∧ identity s = k ∧ inside g (intervals s).

Lemma interval_validate_ok i : 0 ≤ start i → (interval_validate i = Ok tt ↔ interval_ok i).
Proof.
  intros Hs. unfold interval_validate. split.
  - unfold interval_ok. repeat case_bool_decide; cbn; try done. intros _. lia.
  - intros Hi. pose proof (check_and_new_ok i Hi) as Hc. unfold interval_ok in Hi.
    rewrite !bool_decide_eq_false_2 by lia. cbn. by rewrite Hc.
Qed.

Lemma check_intervals_ok l prev : Forall (λ i, 0 ≤ start i) l →
  (∃ r, for_each (check_interval interval_validate) l prev = Ok r) ↔
  canonical l ∧ ∀ e, prev = Some e → Forall (λ i, e < start i) l.
Proof.
  revert prev. induction l as [|i l IH]; intros prev Hl.
  { split; [intros _; split; [by split; constructor|constructor]|by eexists]. }
  apply Forall_cons in Hl as [Hi Hl]. cbn [for_each]. rewrite canonical_cons. split.
  - intros (r & Hr). apply bind_Ok in Hr as (o & Hc & Hr). unfold check_interval in Hc.
    apply bind_Ok in Hc as ([] & Hv & Hc). apply interval_validate_ok in Hv; [|done].
    apply bind_Ok in Hc as (u & Hp & [= <-]). destruct (proj1 (IH (Some (end_exclusive i)) Hl)) as [Hcan Hgt]; [by exists r|].
    specialize (Hgt _ eq_refl). split_and!; [done..|]. intros e ->. destruct u.
    apply ensure_Ok, negb_true_iff, bool_decide_eq_false in Hp. constructor; [lia|].
    eapply Forall_impl; [exact Hgt|]. intros b Hb. cbn in Hb. unfold interval_ok in Hv. lia.
  - intros [(Hv & Hgt & Hcan) Hprev]. destruct (proj2 (IH (Some (end_exclusive i)) Hl)) as [r Hr].
    { split; [done|]. by intros e [= <-]. }
    exists r. unfold check_interval. rewrite (proj2 (interval_validate_ok i Hi) Hv). cbn.
    destruct prev as [e|]; [|exact Hr]. specialize (Hprev e eq_refl). apply Forall_cons in Hprev as [Hlt _].
    rewrite bool_decide_eq_false_2 by lia. exact Hr.
Qed.

Lemma sid_validate_ok s : typed s → (sid_validate s = Ok tt ↔ sid_ok s).
Proof.
  intros [_ Ht]. unfold sid_validate, validate_intervals, sid_ok, parse_mysql_sid. split.
  - intros E. apply bind_Ok in E as (u & E & Hp). apply bind_Ok in E as ([] & Hne%ensure_Ok%negb_true_iff%bool_decide_eq_false & E).
    apply bind_Ok in E as (r & Hr & _). destruct (proj1 (check_intervals_ok _ None Ht)) as [Hcan _]; [by exists r|].
    split_and!; [done..|]. apply bind_Ok in Hp as (x & Hx & _).
    destruct (parse_sid (to_mysql_text s)); [by eexists|done].
  - intros (Hne & Hcan & x & Hx). rewrite bool_decide_eq_false_2 by done. cbn.
    destruct (proj2 (check_intervals_ok _ None Ht)) as [r ->]; [by split|]. cbn. by rewrite Hx.
Qed.

Lemma check_sids_ok set seen : Forall typed set →
  (∃ r, for_each check_sid set seen = Ok r) ↔
  NoDup (identity <$> set) ∧ Forall sid_ok set ∧ Forall (λ s, identity s ∉ seen) set.
Proof.
  revert seen. induction set as [|s set IH]; intros seen Ht.
  { split; [intros _; split_and!; constructor|by eexists]. }
  apply Forall_cons in Ht as [Hs Ht]. cbn [for_each]. rewrite fmap_cons, NoDup_cons, !Forall_cons. split.
  - intros (r & Hr). apply bind_Ok in Hr as (o & Hc & Hr). unfold check_sid in Hc.
    apply bind_Ok in Hc as ([] & Hv & Hc). apply bind_Ok in Hc as ([] & Hn%ensure_Ok%bool_decide_eq_true & [= <-]).
    destruct (proj1 (IH _ Ht) (ex_intro _ r Hr)) as (Hnd & Hok & Hseen). rewrite Forall_forall in Hseen.
    split_and!; [|done|by apply sid_validate_ok|done|done|].
    + intros (s' & E & Hin)%list_elem_of_fmap. apply (Hseen s' Hin). rewrite <-E. left.
    + apply Forall_forall. intros s' Hin Hs'. apply (Hseen s' Hin). by right.
  - intros ([Hnin Hnd] & [Hso Hok] & [Hsn Hseen]). destruct (proj2 (IH (identity s :: seen) Ht)) as [r Hr].
    { split_and!; [done..|]. rewrite Forall_forall in Hseen |- *. intros s' Hin [Hs'|Hs']%elem_of_cons; [|by apply (Hseen s')].
      apply Hnin. rewrite <-Hs'. by apply list_elem_of_fmap_2. }
    exists r. unfold check_sid. rewrite (proj2 (sid_validate_ok s Hs) Hso). cbn.
    rewrite bool_decide_eq_true_2 by done. exact Hr.
Qed.

Lemma set_validate_ok set : Forall typed set → (set_validate set = Ok tt ↔ set_ok set).
Proof.
  intros Ht. unfold set_validate, set_ok. pose proof (check_sids_ok set [] Ht) as Hc.
  assert (Forall (λ s, identity s ∉ []) set) as Hn by (apply Forall_forall; intros s _; apply not_elem_of_nil).
  split.
  - intros E. apply bind_Ok in E as (r & Hr & _). by destruct (proj1 Hc (ex_intro _ r Hr)) as (? & ? & _).
  - intros [? ?]. by destruct (proj2 Hc) as [r ->].
Qed.

(** A SID of a valid set is found by its identity. *)
Lemma find_identity set s : set_ok set → s ∈ set →
  ∃ i, list_find (λ c, identity c = identity s) set = Some (i, s) ∧ set !! i = Some s.
Proof.
  intros [Hnd _] Hs. destruct (list_find_elem_of (λ c, identity c = identity s) set s Hs eq_refl) as [[i s'] Hf].
  pose proof (list_find_Some (λ c, identity c = identity s) set i s') as [Hsome _].
  destruct (Hsome Hf) as (Hi & Hid & _). apply list_elem_of_lookup in Hs as [j Hj].
  assert (i = j) as ->.
  { eapply (NoDup_lookup (identity <$> set)); [done| |]; rewrite list_lookup_fmap.
    - rewrite Hi. cbn. by rewrite Hid.
    - by rewrite Hj. }
  exists j. rewrite Hf, Hi. split; congruence.
Qed.

Lemma executed_app l1 l2 k g : executed (l1 ++ l2) k g ↔ executed l1 k g ∨ executed l2 k g.
Proof. unfold executed. setoid_rewrite elem_of_app. naive_solver. Qed.
Lemma executed_cons x l k g : executed (x :: l) k g ↔ (identity x = k ∧ inside g (intervals x)) ∨ executed l k g.
Proof. unfold executed. setoid_rewrite elem_of_cons. naive_solver. Qed.

Lemma executed_identity l1 x l2 g : NoDup (identity <$> l1 ++ x :: l2) →
  executed (l1 ++ x :: l2) (identity x) g ↔ inside g (intervals x).
Proof.
  intros Hnd. rewrite fmap_app, fmap_cons in Hnd. apply NoDup_app in Hnd as (_ & Hd & [Hx _]%NoDup_cons).
  rewrite executed_app, executed_cons. split; [|by auto]. intros [(s & Hs & E & _)|[[_ ?]|(s & Hs & E & _)]]; [|done|].
  - destruct (Hd (identity x)); [rewrite <-E; by apply list_elem_of_fmap_2|left].
  - destruct Hx. rewrite <-E. by apply list_elem_of_fmap_2.
Qed.

(** Adding a transaction to one SID of a set. *)
Lemma include_at l1 x l2 gno :
  NoDup (identity <$> l1 ++ x :: l2) → Forall sid_ok l1 → Forall sid_ok l2 → Forall typed (l1 ++ x :: l2) →
  canonical (intervals x) → ¬ inside gno (intervals x) → 1 ≤ gno ≤ i64_max →
  let set' := l1 ++ with_intervals x (add_gno (intervals x) gno (gno + 1)) :: l2 in
  (tag_grammar (tag x) = true → set_ok set') ∧ Forall typed set' ∧
  ∀ k g, executed set' k g ↔ executed (l1 ++ x :: l2) k g ∨ (k = identity x ∧ g = gno).
Proof.
  intros Hnd H1 H2 Ht Hc Hn Hg. cbn zeta. destruct (add_gno_ok (intervals x) gno Hc Hn Hg) as (Hcan & Hne & Hin).
  set (x' := with_intervals x _). assert (identity x' = identity x) as Hid by done. split_and!.
  - intros Htag. apply Forall_app in Ht as [_ [[H16 _] _]%Forall_cons]. split.
    + rewrite fmap_app, fmap_cons, Hid, <-fmap_cons, <-fmap_app. done.
    + apply Forall_app. split; [done|]. constructor; [|done]. split_and!; [done..|].
      by apply (parse_sid_text x').
  - apply Forall_app in Ht as [Ht1 [[H16 _] Ht2]%Forall_cons]. apply Forall_app. split; [done|]. constructor; [|done].
    split; [done|]. destruct Hcan as [_ Hcan]. eapply Forall_impl; [exact Hcan|]. intros i. unfold interval_ok. lia.
  - intros k g. rewrite !executed_app, !executed_cons, Hid. change (intervals x') with (add_gno (intervals x) gno (gno + 1)).
    rewrite Hin. naive_solver.
Qed.

Lemma insert_middle {A} (l1 l2 : list A) x y : <[length l1 := y]> (l1 ++ x :: l2) = l1 ++ y :: l2.
Proof. rewrite insert_app_r_alt, Nat.sub_diag by lia. done. Qed.

(** The part of [include_transaction] after the SID was found or added. *)
Lemma include_found l1 x l2 gno (s : list Z) (t : option string) :
  NoDup (identity <$> l1 ++ x :: l2) → Forall sid_ok l1 → Forall sid_ok l2 → Forall typed (l1 ++ x :: l2) →
  canonical (intervals x) → identity x = (s, t) → 1 ≤ gno ≤ i64_max →
  let '(set', r) :=
    if existsb (covers gno) (intervals x) then (l1 ++ x :: l2, Err (DuplicateCommittedGtid s t gno))
    else (<[length l1 := with_intervals x (add_gno (intervals x) gno (gno + 1))]> (l1 ++ x :: l2),
          set_validate (<[length l1 := with_intervals x (add_gno (intervals x) gno (gno + 1))]> (l1 ++ x :: l2))) in
  (¬ executed (l1 ++ x :: l2) (s, t) gno → tag_grammar t = true → r = Ok tt) ∧
  (r = Ok tt → ¬ executed (l1 ++ x :: l2) (s, t) gno ∧ set_ok set' ∧ Forall typed set' ∧
     ∀ k g, executed set' k g ↔ executed (l1 ++ x :: l2) k g ∨ (k = (s, t) ∧ g = gno)) ∧
  (executed (l1 ++ x :: l2) (s, t) gno → set' = l1 ++ x :: l2 ∧ r = Err (DuplicateCommittedGtid s t gno)).
Proof.
  intros Hnd H1 H2 Ht Hc Hid Hg. pose proof (existsb_covers gno (intervals x)) as Hcov.
  pose proof (executed_identity l1 x l2 gno Hnd) as Hex. rewrite Hid in Hex.
  assert (tag x = t) as Htag by (by injection Hid).
  destruct (existsb (covers gno) (intervals x)).
  - assert (executed (l1 ++ x :: l2) (s, t) gno) as He by (by apply Hex, Hcov).
    by split_and!.
  - assert (¬ inside gno (intervals x)) as Hn by (intros Hi; by apply Hcov in Hi).
    destruct (include_at l1 x l2 gno Hnd H1 H2 Ht Hc Hn Hg) as (Hset & Hty & Hall).
    rewrite insert_middle, (set_validate_ok _ Hty). split_and!.
    + intros _ ?. apply Hset. by rewrite Htag.
    + intros ?. rewrite Hid in Hall. split_and!; [by rewrite Hex|done..].
    + intros He. by apply Hex in He.
Qed.

(** ** Claims *)

(** C33. [include_transaction] adds exactly one transaction.  On a valid set it succeeds
    only when the number is in the protocol's range and the transaction is not in the set,
    and it succeeds then for a tag of MySQL's grammar; the set is valid again (sorted, separated,
    without adjacent intervals) and its transactions are those before and the new one.  A
    transaction already in the set is refused and the set is unchanged. *)
Theorem gtid_include_exact set s t gno :
  Forall typed set → set_validate set = Ok tt → length s = 16%nat → 0 ≤ gno ≤ u64_max →
  let '(set', r) := include_transaction set s t gno in
  (1 ≤ gno ≤ i64_max → ¬ executed set (s, t) gno → tag_grammar t = true → r = Ok tt) ∧
  (r = Ok tt → 1 ≤ gno ≤ i64_max ∧ ¬ executed set (s, t) gno ∧ set_validate set' = Ok tt ∧ Forall typed set' ∧
     ∀ k g, executed set' k g ↔ executed set k g ∨ (k = (s, t) ∧ g = gno)) ∧
  (executed set (s, t) gno → set' = set ∧ r = Err (DuplicateCommittedGtid s t gno)).
Proof.
  intros Ht [Hnd Hok]%set_validate_ok H16 Hg; [|done]. unfold include_transaction, checked_add.
  assert (∀ k g, executed set k g → 1 ≤ g ≤ i64_max) as Hrange.
  { intros k g (x & Hx & _ & i & Hi & Hgi). destruct (proj1 (Forall_forall _ _) Hok x Hx) as (_ & [_ Hi2] & _).
    pose proof (proj1 (Forall_forall _ _) Hi2 i Hi). unfold interval_ok, MAX_END_EXCLUSIVE in *. lia. }
  destruct (decide (1 ≤ gno ≤ i64_max)) as [Hr|Hr].
  2:{ assert (∀ e, e = gno + 1 → interval_validate {| start := gno; end_exclusive := e |} ≠ Ok tt) as Hv.
      { intros e ->. rewrite interval_validate_ok by (cbn; lia). unfold interval_ok, MAX_END_EXCLUSIVE. cbn. lia. }
      case_bool_decide; [specialize (Hv _ eq_refl); destruct (interval_validate _) as [[]|] eqn:Ev; [done|]|];
        (split_and!; [by intros ?|by intros [=]|intros He%Hrange; by destruct Hr]). }
  rewrite bool_decide_eq_true_2 by (unfold i64_max, u64_max in *; lia).
  rewrite (proj2 (interval_validate_ok {| start := gno; end_exclusive := gno + 1 |} ltac:(cbn; lia)))
    by (unfold interval_ok, MAX_END_EXCLUSIVE; cbn; lia).
  destruct (list_find (λ x, identity x = (s, t)) set) as [[i x]|] eqn:Ef.
  - apply list_find_Some in Ef as (Hi & Hid & _). apply list_elem_of_split_length in Hi as (l1 & l2 & -> & ->).
    rewrite list_lookup_middle by done. apply Forall_app in Hok as [H1 [(_ & Hc & _) H2]%Forall_cons].
    pose proof (include_found l1 x l2 gno s t Hnd H1 H2 Ht Hc Hid Hr) as Hf.
    destruct (existsb _ _); destruct Hf as (Hf1 & Hf2 & Hf3); (split; [by auto|]; split; [|done]);
      intros Hok'; destruct (Hf2 Hok') as (? & ? & ? & ?); by rewrite set_validate_ok.
  - apply list_find_None in Ef. set (x := {| sid := s; tag := t; intervals := [] |}).
    assert (∀ k g, executed (set ++ [x]) k g ↔ executed set k g) as Hx.
    { intros k g. rewrite executed_app, executed_cons. cbn. split; [|by left].
      intros [?|[[_ []%inside_nil]|(? & []%not_elem_of_nil & _)]]. done. }
    rewrite list_lookup_middle by done.
    pose proof (include_found set x [] gno s t) as Hf. cbn [existsb intervals x] in Hf |- *.
    destruct Hf as (Hf1 & Hf2 & Hf3); try done.
    { rewrite fmap_app. apply NoDup_app. split_and!; [done| |apply NoDup_singleton].
      intros k (y & -> & Hy)%list_elem_of_fmap Hk%list_elem_of_singleton. rewrite Forall_forall in Ef.
      by apply (Ef y Hy). }
    { apply Forall_app. split; [done|]. by repeat constructor. }
    { by split; constructor. }
    rewrite Hx in Hf1, Hf3. split; [by auto|]. split.
    + intros Hok'. destruct (Hf2 Hok') as (Hn & ? & ? & Hall). rewrite Hx in Hn. rewrite set_validate_ok by done.
      do 4 (split; [done|]).
      intros k g. by rewrite Hall, Hx.
    + intros (y & Hy & Hid & _). by destruct (proj1 (Forall_forall _ _) Ef y Hy).
Qed.

Lemma canonical_gap l g1 g2 : canonical l → (∀ g, g1 ≤ g < g2 → inside g l) → g1 < g2 →
  ∃ i, i ∈ l ∧ start i ≤ g1 ∧ g2 ≤ end_exclusive i.
Proof.
  intros Hc Hin Hlt. destruct (Hin g1) as (i & Hi & Hg1); [lia|]. exists i. split; [done|]. split; [lia|].
  destruct (decide (g2 ≤ end_exclusive i)) as [?|Hgt]; [done|]. exfalso.
  (* the number after [i] is in no interval: intervals are not adjacent *)
  destruct (Hin (end_exclusive i)) as (j & Hj & Hgj); [lia|].
  apply list_elem_of_split in Hi as (l1 & l2 & ->). destruct Hc as [Hs Hok].
  apply elem_of_app in Hj as [Hj|[->|Hj]%elem_of_cons]; [|lia|].
  - pose proof (StronglySorted_app_1_elem_of _ l1 (i :: l2) j i Hs Hj ltac:(left)) as Hji. cbn in Hji.
    apply Forall_app in Hok as [_ [Hoi _]%Forall_cons]. unfold interval_ok in Hoi. lia.
  - apply StronglySorted_app_1_r in Hs. apply StronglySorted_inv in Hs as [_ Hf].
    pose proof (proj1 (Forall_forall _ _) Hf j Hj) as Hij. cbn in Hij. lia.
Qed.

(** [is_subset_of] decides inclusion: for valid sets it returns true exactly when
    every transaction of the first is a transaction of the second. *)
Theorem gtid_subset_iff set current :
  Forall typed set → Forall typed current → set_validate set = Ok tt → set_validate current = Ok tt →
  is_subset_of set current = true ↔ ∀ k g, executed set k g → executed current k g.
Proof.
  intros Ht1 Ht2 Hv1%set_validate_ok Hv2%set_validate_ok; [|done..]. unfold is_subset_of. rewrite forallb_forall. split.
  - intros Hall k g (s & Hs & <- & i & Hi & Hg). pose proof (Hall s (proj1 (list_elem_of_In _ _) Hs)) as Hf.
    destruct (list_find _ current) as [[j c]|] eqn:Ef; [|done]. apply list_find_Some in Ef as (Hj & Hid & _).
    rewrite forallb_forall in Hf. pose proof (Hf i (proj1 (list_elem_of_In _ _) Hi)) as Hex.
    apply existsb_exists in Hex as (a & Ha%list_elem_of_In & [H1%bool_decide_eq_true H2%bool_decide_eq_true]%andb_true_iff).
    exists c. split; [by eapply list_elem_of_lookup_2|]. split; [done|]. exists a. split; [done|lia].
  - intros Hall s Hs%list_elem_of_In. destruct Hv1 as [_ Hok1]. destruct (proj1 (Forall_forall _ _) Hok1 s Hs) as (Hne & Hc & _).
    assert (∀ g, inside g (intervals s) → executed current (identity s) g) as Hex by (intros g Hg; apply Hall; by exists s).
    destruct (intervals s) as [|i0 l0] eqn:Ei; [done|]. rewrite <-Ei in *.
    assert (inside (start i0) (intervals s)) as (c & Hcur & Hid & _)%Hex.
    { exists i0. rewrite Ei. split; [left|]. destruct Hc as [_ Hf]. rewrite Ei in Hf. apply Forall_cons in Hf as [Hi0 _].
      unfold interval_ok in Hi0. lia. }
    rewrite <-Hid. destruct (find_identity current c Hv2 Hcur) as (j & -> & _).
    apply forallb_forall. intros i Hi%list_elem_of_In. apply existsb_exists.
    destruct (proj1 (Forall_forall _ _) (proj2 Hv2) c Hcur) as (_ & Hcc & _).
    destruct (canonical_gap (intervals c) (start i) (end_exclusive i) Hcc) as (a & Ha & H1 & H2).
    + intros g Hg. destruct (Hex g) as (c' & Hc' & Hid' & Hin); [by exists i|].
      apply list_elem_of_split in Hcur as (l1 & l2 & ->). destruct Hv2 as [Hnd _].
      apply (executed_identity l1 c l2 g Hnd). rewrite Hid. by exists c'.
    + destruct Hc as [_ Hf]. pose proof (proj1 (Forall_forall _ _) Hf i Hi). unfold interval_ok in *. lia.
    + exists a. split; [by apply list_elem_of_In|]. unfold interval_within.
      by rewrite !bool_decide_eq_true_2.
Qed.

Lemma parse_entries es acc set : for_each parse_entry es acc = Ok set →
  ∃ parsed, set = acc ++ parsed ∧ to_mysql_text <$> parsed = es.*2.
Proof.
  revert acc. induction es as [|[n text] es IH]; intros acc E; cbn [for_each] in E.
  { injection E as <-. exists []. by rewrite app_nil_r. }
  apply bind_Ok in E as (acc' & Hp & E). cbn [parse_entry] in Hp.
  do 3 apply bind_Ok in Hp as (? & _ & Hp). apply bind_Ok in Hp as (u & _ & Hp).
  apply bind_Ok in Hp as ([] & Ht%ensure_Ok%bool_decide_eq_true & [= <-]).
  destruct (IH _ E) as (parsed & -> & Hall). eexists (_ :: parsed). rewrite <-app_assoc, fmap_cons, Ht, Hall. done.
Qed.

Lemma imap_pair_snd {A} (l : list A) : (imap pair l).*2 = l.
Proof. apply list_eq. intros i. rewrite list_lookup_fmap, list_lookup_imap. by destruct (l !! i). Qed.

(** Parsing loses nothing: a text [parse_mysql] accepts is the comma-separated text of
    the set it returns, and that set is valid, so no spelling is normalised silently; it has no
    white space. *)
Theorem gtid_parse_print value set :
  parse_mysql value = Ok set →
  String.concat "," (to_mysql_text <$> set) = value ∧ set_validate set = Ok tt ∧
  has_whitespace (string_bytes value) = false.
Proof.
  unfold parse_mysql. case_bool_decide as Hv.
  { intros [= <-]. by subst. }
  intros E. apply bind_Ok in E as ([] & Hw%ensure_Ok%negb_true_iff & E). apply bind_Ok in E as (l & Hl & E).
  apply bind_Ok in E as ([] & Hval & [= <-]). apply parse_entries in Hl as (parsed & -> & Hp).
  rewrite app_nil_l in *. by rewrite Hp, imap_pair_snd, concat_split_on.
Qed.
End sets.

(** ** Examples *)

(** A server and an interface that knows one SID text. *)
Definition example_sid : GtidSid :=
  {| sid := [0x3e; 0x11; 0xfa; 0x47; 0x71; 0xca; 0x11; 0xe1; 0x9e; 0x33; 0xc8; 0x0a; 0xa9; 0x42; 0x95; 0x62]; tag := None;
     intervals := [{| start := 1; end_exclusive := 5 |}; {| start := 7; end_exclusive := 8 |}] |}.
#[local] Instance example_common : MySqlCommon := {
  Sid := GtidSid; uuid := sid; sid_tag := tag;
  sid_intervals s := (λ i, (start i, end_exclusive i)) <$> intervals s;
  gno_check_and_new _ _ := true; parse_sid _ := Some example_sid;
  check_and_new_ok _ _ := eq_refl; parse_sid_text _ _ _ _ _ := ltac:(by eexists) }.

Lemma gtid_include_exact_witness :
  let '(set', r) := include_transaction [example_sid] (sid example_sid) None 5 in
  r = Ok tt ∧ set_validate set' = Ok tt ∧ executed set' (identity example_sid) 5.
Proof.
  pose proof (gtid_include_exact [example_sid] (sid example_sid) None 5
    ltac:(repeat constructor; cbn; lia) eq_refl eq_refl ltac:(done)) as Hx.
  destruct (include_transaction _ _ _ _) as [set' r]. destruct Hx as (H1 & H2 & _).
  assert (r = Ok tt) as Hr.
  { apply H1; [done| |reflexivity]. intros (s & ->%list_elem_of_singleton & _ & i & Hi & Hg).
    apply elem_of_cons in Hi as [-> | ->%list_elem_of_singleton]; cbn in Hg; lia. }
  destruct (H2 Hr) as (_ & _ & Hv & _ & Hall). split; [done|]. split; [done|]. apply Hall. by right.
Defined.

Lemma gtid_subset_iff_witness :
  is_subset_of [example_sid] [example_sid] = true ↔
  ∀ k g, executed [example_sid] k g → executed [example_sid] k g.
Proof. apply gtid_subset_iff; [repeat constructor; cbn; lia..|reflexivity|reflexivity]. Defined.

Lemma gtid_parse_print_witness :
  String.concat "," (to_mysql_text <$> [example_sid]) = "3e11fa47-71ca-11e1-9e33-c80aa9429562:1-4:7".
Proof.
  apply (gtid_parse_print "3e11fa47-71ca-11e1-9e33-c80aa9429562:1-4:7" [example_sid]). vm_compute. reflexivity.
Defined.
