(* ===== verification/SnapshotQueue.v ===== *)
(** * The snapshot queue of the PostgreSQL source

    [src_batch/queue.rs] of [transferia-connector-postgres] and the chunks of
    [src_batch/planner.rs].  The queue hands the chunks of one table to reader lanes, takes
    back work that published nothing, splits pending page ranges and records which chunks
    are durable.

    A call holds the mutex from its first to its last access, so a history is a sequence of
    calls ([run]).  The queue's identity is [epoch]; a marker of another type is [None].  A
    task, lane or lease is named by its index.  The comparison of two durations as [f64] in
    [adapt_pending] only schedules: it is the parameter [split_pays].  Unsigned subtraction
    wraps, as in a release build; the invariant shows that it never does. *)

From stdpp Require Import base tactics numbers option sets gmap sorting list.
From S2P Require Import Prelude.
Local Open Scope Z_scope.

(** ** Chunks *)
Inductive ChunkKind :=
| Whole
| Ctid (lower_page upper_page : option Z (* u32 *)) (estimated_end_page : Z (* u64 *))
| Indexed (lower_cut upper_cut : option Z)
| HashCtid (bucket modulus : Z).
#[export] Instance ChunkKind_eq_dec : EqDecision ChunkKind.
Proof. solve_decision. Defined.
Record Chunk := { kind : ChunkKind }.
#[export] Instance Chunk_eq_dec : EqDecision Chunk.
Proof. solve_decision. Defined.

Definition page_span (c : Chunk) : option Z :=
  match kind c with
  | Ctid lower upper estimated => Some (wrapping_sub u64_max (default estimated upper) (default 0 lower))
  | _ => None
  end.

Definition split_pending (c : Chunk) : option (Chunk * Chunk) :=
  match kind c with
  | Ctid lower_page upper_page estimated =>
      let lower := default 0 lower_page in
      let upper := default estimated upper_page in
      if bool_decide (wrapping_sub u64_max upper lower < 2) then None
      else
        let middle := wrapping_add u64_max lower (wrapping_sub u64_max upper lower / 2) in
        if bool_decide (middle ≤ u32_max) then
          Some ({| kind := Ctid lower_page (Some middle) middle |},
                {| kind := Ctid (Some middle) upper_page estimated |})
        else None
  | _ => None
  end.

(** A row as the predicate of a chunk sees it: the page of its [ctid], the number of
    catalogued cuts at or below its key, and the hash of its [ctid]. *)
Record Row := { page : Z; cuts_below : Z; hashtid : Z }.
Definition covers (c : Chunk) (r : Row) : bool :=
  match kind c with
  | Whole => true
  | Ctid lower upper _ =>
      match lower with Some p => bool_decide (p ≤ page r) | None => true end &&
      match upper with Some p => bool_decide (page r < p) | None => true end
  | Indexed lower upper =>
      match lower with Some k => bool_decide (k < cuts_below r) | None => true end &&
      match upper with Some k => bool_decide (cuts_below r ≤ k) | None => true end
  | HashCtid bucket modulus => bool_decide (Z.rem (Z.rem (hashtid r) modulus + modulus) modulus = bucket)
  end.

(** ** State *)
Inductive TaskState := Pending | Owned | ReadComplete | DurableComplete | Retired.
#[export] Instance TaskState_eq_dec : EqDecision TaskState.
Proof. solve_decision. Defined.

Record Task := {
  chunk : Chunk;
  state : TaskState;
  owner : option (nat * Z);
  published : bool;
  rows : Z
}.

Record MarkerRecord := { task : nat; sequence : Z; record_offset : Z; task_end : bool }.
#[export] Instance MarkerRecord_eq_dec : EqDecision MarkerRecord.
Proof. solve_decision. Defined.

Record LaneState := {
  attempt : Z;
  active : bool;
  offset : Z;
  next_sequence : Z;
  outstanding : list MarkerRecord;
  active_task : option nat;
  unfinished : gset nat
}.
Definition LaneState_default : LaneState :=
  {| attempt := 0; active := false; offset := 0; next_sequence := 0; outstanding := []; active_task := None; unfinished := ∅ |}.

Record QueueState := {
  tasks : list Task;
  pending : list nat;
  lanes : list LaneState;
  leaves : Z;
  max_parts : option Z;
  interrupted : bool
}.

Record SnapshotMarker := { epoch : Z; marker_lane : nat; marker_attempt : Z; record : MarkerRecord }.
Record ClaimedChunk := { id : nat; claimed_chunk : Chunk }.
Record LaneLease := { lane : nat; lease_attempt : Z; closed : bool }.

Inductive QueueError :=
| NoChunks | BadLaneCount | TooManyParts | WholeCombined | MixedStrategies | CtidGap | CtidBounds | IndexedGap
| IndexedCuts | HashBuckets | EpochInterrupted | NoSuchLane | LaneActive | AttemptOverflow | IncompleteTasks
| OutstandingMarkers | LeaseClosed | StaleAttempt | LaneOwnsTask | PendingTaskMissing | PendingTaskOwned
| EmptyRowMarker | UnexpectedOffset | OffsetOverflow | RowCountOverflow | SequenceOverflow | TaskMissing | TaskNotOwned
| ForeignMarker | AckExceeds | AckForeignAttempt | AckOutOfOrder | AckMissingTask | AckForeignTask | AckLifecycle
| EpochAborted.

(** ** Updates *)
Definition set_state (s : TaskState) (t : Task) : Task :=
  {| chunk := chunk t; state := s; owner := owner t; published := published t; rows := rows t |}.
Definition set_owner (s : TaskState) (o : option (nat * Z)) (t : Task) : Task :=
  {| chunk := chunk t; state := s; owner := o; published := published t; rows := rows t |}.
Definition set_published (s : TaskState) (n : Z) (t : Task) : Task :=
  {| chunk := chunk t; state := s; owner := owner t; published := true; rows := n |}.
Definition new_task (c : Chunk) : Task :=
  {| chunk := c; state := Pending; owner := None; published := false; rows := 0 |}.

Definition upd (q : QueueState) (ts : list Task) (ps : list nat) (ls : list LaneState) : QueueState :=
  {| tasks := ts; pending := ps; lanes := ls; leaves := leaves q; max_parts := max_parts q; interrupted := interrupted q |}.

Definition lane_opened (a : Z) (L : LaneState) : LaneState :=
  {| attempt := a; active := true; offset := offset L; next_sequence := next_sequence L; outstanding := outstanding L;
     active_task := active_task L; unfinished := unfinished L |}.
Definition lane_claimed (i : nat) (L : LaneState) : LaneState :=
  {| attempt := attempt L; active := active L; offset := offset L; next_sequence := next_sequence L;
     outstanding := outstanding L; active_task := Some i; unfinished := {[ i ]} ∪ unfinished L |}.
Definition lane_published (o : Z) (r : MarkerRecord) (at_ : option nat) (L : LaneState) : LaneState :=
  {| attempt := attempt L; active := active L; offset := o; next_sequence := sequence r;
     outstanding := outstanding L ++ [r]; active_task := at_; unfinished := unfinished L |}.
Definition lane_acked (out : list MarkerRecord) (u : gset nat) (L : LaneState) : LaneState :=
  {| attempt := attempt L; active := active L; offset := offset L; next_sequence := next_sequence L;
     outstanding := out; active_task := active_task L; unfinished := u |}.
Definition lane_closed (u : gset nat) (L : LaneState) : LaneState :=
  {| attempt := attempt L; active := false; offset := offset L; next_sequence := next_sequence L;
     outstanding := outstanding L; active_task := None; unfinished := u |}.

(** ** Construction *)
Definition is_ctid (k : ChunkKind) : bool := match k with Ctid _ _ _ => true | _ => false end.
Definition is_indexed (k : ChunkKind) : bool := match k with Indexed _ _ => true | _ => false end.
Definition is_hash (k : ChunkKind) : bool := match k with HashCtid _ _ => true | _ => false end.
Definition is_none {A} (o : option A) : bool := match o with None => true | Some _ => false end.

(** The body of the loop of [validate_initial_cover]; [first_kind] is the kind of
    [chunks[0]]. *)
Definition check_chunk (len : nat) (first_kind : ChunkKind) (previous_upper : option Z) (ic : nat * Chunk)
    : result QueueError (option Z) :=
  let '(index, c) := ic in
  let first := bool_decide (index = 0)%nat in
  let last := bool_decide (index + 1 = len)%nat in
  match kind c with
  | Whole => ensure (bool_decide (len = 1)%nat) WholeCombined ≫= λ _, Ok previous_upper
  | Ctid lower_page upper_page estimated =>
      ensure (is_ctid first_kind) MixedStrategies ≫= λ _,
      ensure (bool_decide (lower_page = previous_upper) && (negb first || is_none lower_page) &&
              bool_decide (is_none upper_page = last)) CtidGap ≫= λ _,
      let lower := default 0 lower_page in
      let upper := default estimated upper_page in
      ensure (bool_decide (lower ≤ upper) && (last || bool_decide (lower < upper))) CtidBounds ≫= λ _,
      Ok upper_page
  | Indexed lower_cut upper_cut =>
      ensure (is_indexed first_kind) MixedStrategies ≫= λ _,
      ensure (bool_decide (lower_cut = previous_upper) && (negb first || is_none lower_cut) &&
              bool_decide (is_none upper_cut = last)) IndexedGap ≫= λ _,
      ensure (match lower_cut, upper_cut with Some l, Some u => bool_decide (l < u) | _, _ => true end) IndexedCuts ≫= λ _,
      Ok upper_cut
  | HashCtid bucket modulus =>
      ensure (is_hash first_kind) MixedStrategies ≫= λ _,
      ensure (bool_decide (bucket = Z.of_nat index) && bool_decide (modulus = Z.of_nat len)) HashBuckets ≫= λ _,
      Ok previous_upper
  end.
Definition validate_initial_cover (chunks : list Chunk) : result QueueError unit :=
  match chunks with
  | [] => Ok tt
  | c0 :: _ => for_each (check_chunk (length chunks) (kind c0)) (imap pair chunks) None ≫= λ _, Ok tt
  end.

Definition queue_new (chunks : list Chunk) (lane_count : Z) (limit : option Z) : result QueueError QueueState :=
  ensure (negb (bool_decide (chunks = []))) NoChunks ≫= λ _,
  ensure (bool_decide (0 < lane_count) && bool_decide (lane_count ≤ Z.of_nat (length chunks))) BadLaneCount ≫= λ _,
  ensure (match limit with Some m => bool_decide (Z.of_nat (length chunks) ≤ m) | None => true end) TooManyParts ≫= λ _,
  validate_initial_cover chunks ≫= λ _,
  Ok {| tasks := new_task <$> chunks; pending := seq 0 (length chunks);
        lanes := replicate (Z.to_nat lane_count) LaneState_default; leaves := Z.of_nat (length chunks);
        max_parts := limit; interrupted := false |}.

(** ** Operations of the queue *)
Definition lock (q : QueueState) : result QueueError unit := ensure (negb (interrupted q)) EpochInterrupted.

Definition open_lane (q : QueueState) (l : nat) : result QueueError (QueueState * LaneLease) :=
  lock q ≫= λ _,
  ok_or (lanes q !! l) NoSuchLane ≫= λ slot,
  ensure (negb (active slot)) LaneActive ≫= λ _,
  ok_or (checked_add u64_max (attempt slot) 1) AttemptOverflow ≫= λ a,
  Ok (upd q (tasks q) (pending q) (<[l := lane_opened a slot]> (lanes q)), {| lane := l; lease_attempt := a; closed := false |}).

Definition finished (t : Task) : bool := bool_decide (state t = DurableComplete) || bool_decide (state t = Retired).
Definition ensure_complete (q : QueueState) : result QueueError unit :=
  lock q ≫= λ _,
  ensure (forallb finished (tasks q)) IncompleteTasks ≫= λ _,
  ensure (forallb (λ L, bool_decide (outstanding L = [])) (lanes q)) OutstandingMarkers.

(** [LaneLease::check], with the lane it finds. *)
Definition check (e : LaneLease) (q : QueueState) : result QueueError LaneState :=
  ensure (negb (closed e)) LeaseClosed ≫= λ _,
  ok_or (lanes q !! lane e) NoSuchLane ≫= λ L,
  ensure (active L && bool_decide (attempt L = lease_attempt e)) StaleAttempt ≫= λ _, Ok L.

Definition lease_offset (e : LaneLease) (q : QueueState) : result QueueError Z :=
  lock q ≫= λ _, check e q ≫= λ L, Ok (offset L).

(** The iteration order of a [BTreeSet]. *)
Definition bt_elements (s : gset nat) : list nat := merge_sort (≤)%nat (elements s).

Definition retry_allowed (e : LaneLease) (q : QueueState) : bool :=
  match lock q ≫= λ _, check e q with
  | Ok L => forallb (λ i, match tasks q !! i with Some t => negb (published t) | None => false end) (bt_elements (unfinished L))
  | Err _ => false
  end.

Definition claim (e : LaneLease) (q : QueueState) : result QueueError (QueueState * option ClaimedChunk) :=
  lock q ≫= λ _,
  check e q ≫= λ L,
  ensure (is_none (active_task L)) LaneOwnsTask ≫= λ _,
  match pending q with
  | [] => Ok (q, None)
  | i :: rest =>
      ok_or (tasks q !! i) PendingTaskMissing ≫= λ t,
      ensure (bool_decide (state t = Pending)) PendingTaskOwned ≫= λ _,
      Ok (upd q (<[i := set_owner Owned (Some (lane e, lease_attempt e)) t]> (tasks q)) rest
              (<[lane e := lane_claimed i L]> (lanes q)), Some {| id := i; claimed_chunk := chunk t |})
  end.

Definition validate_owned (q : QueueState) (i l : nat) (a : Z) : result QueueError Task :=
  ok_or (tasks q !! i) TaskMissing ≫= λ t,
  ensure (bool_decide (state t = Owned) && bool_decide (owner t = Some (l, a))) TaskNotOwned ≫= λ _, Ok t.

Section queue.
Context (identity : Z) (split_pays : Z → Z → Z → Z → bool).

Definition marker (e : LaneLease) (r : MarkerRecord) : SnapshotMarker :=
  {| epoch := identity; marker_lane := lane e; marker_attempt := lease_attempt e; record := r |}.

Definition emit_rows (e : LaneLease) (c : ClaimedChunk) (start_offset n : Z) (q : QueueState)
    : result QueueError (QueueState * (Z * SnapshotMarker)) :=
  ensure (bool_decide (0 < n)) EmptyRowMarker ≫= λ _,
  lock q ≫= λ _,
  check e q ≫= λ L,
  validate_owned q (id c) (lane e) (lease_attempt e) ≫= λ t,
  ensure (bool_decide (offset L = start_offset)) UnexpectedOffset ≫= λ _,
  ensure (bool_decide (n ≤ i64_max)) OffsetOverflow ≫= λ _,
  ok_or (checked_add i64_max start_offset n) OffsetOverflow ≫= λ o,
  ok_or (checked_add u64_max (rows t) n) RowCountOverflow ≫= λ total,
  ok_or (checked_add u64_max (next_sequence L) 1) SequenceOverflow ≫= λ s,
  let r := {| task := id c; sequence := s; record_offset := o; task_end := false |} in
  Ok (upd q (<[id c := set_published (state t) total t]> (tasks q)) (pending q)
          (<[lane e := lane_published o r (active_task L) L]> (lanes q)), (o, marker e r)).

(** The pending page range with the most pages, the last of equal ones. *)
Definition max_by_pages (l : list (nat * Z)) : option (nat * Z) :=
  foldl (λ best x, match best with
    | Some b => if bool_decide (b.2 ≤ x.2) then Some x else best
    | None => Some x
    end) None l.

Definition candidates (q : QueueState) : list (nat * Z) :=
  omap (λ i, tasks q !! i ≫= λ t, page_span (chunk t) ≫= λ p, Some (i, p)) (pending q).

(** [adapt_pending]; [None] when nothing is split. *)
Definition adapt_pending (q : QueueState) (completed : Chunk) (elapsed query_start : Z) : option QueueState :=
  page_span completed ≫= λ observed,
  if bool_decide (observed ≤ 0) || bool_decide (length (lanes q) ≤ length (pending q))%nat ||
     match max_parts q with Some limit => bool_decide (limit ≤ leaves q) | None => false end then None
  else
    max_by_pages (candidates q) ≫= λ '(i, pages),
    if negb (split_pays elapsed pages observed query_start) then None
    else
      tasks q !! i ≫= λ t,
      split_pending (chunk t) ≫= λ '(l, r),
      checked_add usize_max (leaves q) 1 ≫= λ n,
      let first := length (tasks q) in
      checked_add usize_max (Z.of_nat first) 1 ≫= λ _,
      Some {| tasks := <[i := set_state Retired t]> (tasks q) ++ [new_task l; new_task r];
              pending := filter (λ p, p ≠ i) (pending q) ++ [first; S first];
              lanes := lanes q; leaves := n; max_parts := max_parts q; interrupted := interrupted q |}.

Definition finish_read (e : LaneLease) (c : ClaimedChunk) (elapsed query_start : Z) (q : QueueState)
    : result QueueError (QueueState * SnapshotMarker) :=
  lock q ≫= λ _,
  check e q ≫= λ L,
  validate_owned q (id c) (lane e) (lease_attempt e) ≫= λ t,
  ok_or (checked_add u64_max (next_sequence L) 1) SequenceOverflow ≫= λ s,
  let r := {| task := id c; sequence := s; record_offset := offset L; task_end := true |} in
  let q := upd q (<[id c := set_published ReadComplete (rows t) t]> (tasks q)) (pending q)
             (<[lane e := lane_published (offset L) r None L]> (lanes q)) in
  Ok (default q (adapt_pending q (claimed_chunk c) elapsed query_start), marker e r).

(** The validation of one marker of [acknowledge]. *)
Definition check_marker (e : LaneLease) (q : QueueState) (m : SnapshotMarker) (expected : MarkerRecord) : result QueueError unit :=
  ensure (bool_decide (epoch m = identity) && bool_decide (marker_lane m = lane e) &&
          bool_decide (marker_attempt m = lease_attempt e)) AckForeignAttempt ≫= λ _,
  ensure (bool_decide (record m = expected)) AckOutOfOrder ≫= λ _,
  ok_or (tasks q !! task expected) AckMissingTask ≫= λ t,
  ensure (bool_decide (owner t = Some (lane e, lease_attempt e))) AckForeignTask ≫= λ _,
  ensure (if task_end expected then bool_decide (state t = ReadComplete)
          else bool_decide (state t = Owned) || bool_decide (state t = ReadComplete)) AckLifecycle.

(** The loop over the committed records. *)
Definition commit_record (acc : list Task * gset nat) (r : MarkerRecord) : list Task * gset nat :=
  if task_end r then (alter (set_state DurableComplete) (task r) acc.1, acc.2 ∖ {[ task r ]}) else acc.

Definition acknowledge (e : LaneLease) (markers : list (option SnapshotMarker)) (q : QueueState) : result QueueError QueueState :=
  mapM (λ m, ok_or m ForeignMarker) markers ≫= λ ms,
  lock q ≫= λ _,
  check e q ≫= λ L,
  ensure (bool_decide (length ms ≤ length (outstanding L))%nat) AckExceeds ≫= λ _,
  for_each (λ _ x, check_marker e q x.1 x.2) (zip ms (outstanding L)) tt ≫= λ _,
  let '(ts, u) := foldl commit_record (tasks q, unfinished L) (firstn (length ms) (outstanding L)) in
  Ok (upd q ts (pending q) (<[lane e := lane_acked (drop (length ms) (outstanding L)) u L]> (lanes q))).

(** The loop of [close]: the tasks, the ids to return and whether published work is
    incomplete.  An index out of range would panic; the invariant excludes it here and for
    the lane below. *)
Definition close_task (acc : list Task * list nat * bool) (i : nat) : list Task * list nat * bool :=
  let '(ts, returned, ambiguous) := acc in
  match ts !! i with
  | Some t => if published t then (ts, returned, true)
              else (<[i := set_owner Pending None t]> ts, returned ++ [i], ambiguous)
  | None => acc
  end.

Definition close (e : LaneLease) (q : QueueState) : LaneLease * QueueState * result QueueError unit :=
  if closed e then (e, q, Ok tt)
  else
    let e := {| lane := lane e; lease_attempt := lease_attempt e; closed := true |} in
    match lanes q !! lane e with
    | None => (e, q, Err NoSuchLane)
    | Some L =>
        let '(ts, returned, ambiguous) := foldl close_task (tasks q, [], false) (bt_elements (unfinished L)) in
        (e, {| tasks := ts; pending := pending q ++ returned;
               lanes := <[lane e := lane_closed (if (ambiguous : bool) then unfinished L else ∅) L]> (lanes q);
               leaves := leaves q; max_parts := max_parts q; interrupted := interrupted q || ambiguous |},
         ensure (negb ambiguous) EpochAborted)
    end.

(** ** Histories

    Any number of threads call the queue through the leases they hold.  The log of a world
    records the markers handed out, with their rows, and the markers acknowledged; no call
    reads it. *)
Inductive Event :=
| Published (l : nat) (a : Z) (r : MarkerRecord) (n : Z)
| Acknowledged (l : nat) (a : Z) (r : MarkerRecord).
#[export] Instance Event_eq_dec : EqDecision Event.
Proof. solve_decision. Defined.

Record World := { queue : QueueState; leases : list LaneLease; log : list Event }.

Inductive Call :=
| OpenLane (l : nat)
| Claim (k : nat)
| EmitRows (k : nat) (c : ClaimedChunk) (start_offset n : Z)
| FinishRead (k : nat) (c : ClaimedChunk) (elapsed query_start : Z)
| Acknowledge (k : nat) (markers : list (option SnapshotMarker))
| Close (k : nat).

Definition with_queue (w : World) (q : QueueState) (events : list Event) : World :=
  {| queue := q; leases := leases w; log := log w ++ events |}.
(** A call that fails changes nothing, [close] apart. *)
Definition on_lease (w : World) (k : nat) (f : LaneLease → result QueueError World) : World :=
  match leases w !! k with
  | Some e => match f e with Ok w' => w' | Err _ => w end
  | None => w
  end.

Definition call (w : World) (c : Call) : World :=
  match c with
  | OpenLane l =>
      match open_lane (queue w) l with
      | Ok (q, e) => {| queue := q; leases := leases w ++ [e]; log := log w |}
      | Err _ => w
      end
  | Claim k => on_lease w k (λ e, claim e (queue w) ≫= λ '(q, _), Ok (with_queue w q []))
  | EmitRows k c o n => on_lease w k (λ e, emit_rows e c o n (queue w) ≫= λ '(q, (_, m)),
      Ok (with_queue w q [Published (lane e) (lease_attempt e) (record m) n]))
  | FinishRead k c t s => on_lease w k (λ e, finish_read e c t s (queue w) ≫= λ '(q, m),
      Ok (with_queue w q [Published (lane e) (lease_attempt e) (record m) 0]))
  | Acknowledge k ms => on_lease w k (λ e, acknowledge e ms (queue w) ≫= λ q,
      Ok (with_queue w q (omap (λ m, (λ m, Acknowledged (lane e) (lease_attempt e) (record m)) <$> m) ms)))
  | Close k =>
      match leases w !! k with
      | Some e => let '(e, q, _) := close e (queue w) in
                  {| queue := q; leases := <[k := e]> (leases w); log := log w |}
      | None => w
      end
  end.
Definition start (q : QueueState) : World := {| queue := q; leases := []; log := [] |}.
Definition run (q : QueueState) (cs : list Call) : World := foldl call (start q) cs.
End queue.
