(* ===== verification/SnapshotCover.v ===== *)
(** * Coverage of a snapshot

    The chunks a queue accepts and the chunks it splits them into cover every row exactly
    once. *)

From stdpp Require Import base tactics numbers option sets gmap sorting list.
From S2P Require Import Prelude SnapshotQueue.
Local Open Scope Z_scope.

(** The types of the source. *)
Definition u32 (o : option Z) : Prop := ∀ p, o = Some p → 0 ≤ p ≤ u32_max.
Definition typed_chunk (c : Chunk) : Prop :=
  match kind c with
  | Whole => True
  | Ctid lower upper estimated => u32 lower ∧ u32 upper ∧ 0 ≤ estimated ≤ u64_max
  | Indexed lower upper => u32 lower ∧ u32 upper
  | HashCtid bucket modulus => 0 ≤ bucket ≤ u32_max ∧ 0 < modulus ≤ u32_max
  end.

(** A chunk whose page span does not wrap. *)
Definition chunk_ok (c : Chunk) : Prop :=
  match kind c with
  | Ctid lower upper estimated => 0 ≤ default 0 lower ≤ default estimated upper ∧ default estimated upper ≤ u64_max
  | _ => True
  end.

Definition indicator (b : bool) : Z := if b then 1 else 0.
Definition chunk_weight (r : Row) (c : Chunk) : Z := indicator (covers c r).
Definition live (t : Task) : bool := negb (bool_decide (state t = Retired)).
Definition task_weight (r : Row) (t : Task) : Z := indicator (live t && covers (chunk t) r).

(** ** Splitting *)
Lemma page_span_ok c lower upper estimated : kind c = Ctid lower upper estimated → chunk_ok c →
  page_span c = Some (default estimated upper - default 0 lower).
Proof.
  intros Hk Hc. unfold chunk_ok in Hc. unfold page_span. rewrite Hk in *. f_equal. apply wrapping_sub_small. lia.
Qed.

Lemma split_ok c lc rc : chunk_ok c → split_pending c = Some (lc, rc) →
  chunk_ok lc ∧ chunk_ok rc ∧ ∀ r, chunk_weight r c = chunk_weight r lc + chunk_weight r rc.
Proof.
  unfold split_pending, chunk_ok. intros Hc Hs. destruct (kind c) as [|lower upper estimated| |] eqn:Hk; try done.
  set (lo := default 0 lower) in *. set (up := default estimated upper) in *.
  rewrite wrapping_sub_small in Hs by lia. case_bool_decide as Hw; [done|].
  assert (lo < lo + (up - lo) / 2 < up) as Hm.
  { split; [apply Z.lt_add_pos_r, Z.div_str_pos; lia|]. assert ((up - lo) / 2 < up - lo); [|lia]. apply Z.div_lt; lia. }
  rewrite wrapping_add_small in Hs by lia. set (m := lo + (up - lo) / 2) in *. case_bool_decide; [|done].
  injection Hs as <- <-. cbn. fold up lo. split; [lia|]. split; [lia|]. intros r.
  unfold chunk_weight, covers. rewrite Hk. cbn.
  destruct lower as [p|], upper as [u|]; cbn in lo, up; repeat case_bool_decide; cbn; lia.
Qed.

(** ** The initial chunks *)
Definition in_range (v : Z) (b : option Z * option Z) : bool :=
  match b.1 with Some p => bool_decide (p ≤ v) | None => true end &&
  match b.2 with Some p => bool_decide (v < p) | None => true end.

(** Consecutive ranges from [prev] to infinity. *)
Fixpoint linked (prev : option Z) (l : list (option Z * option Z)) : Prop :=
  match l with
  | [] => False
  | [b] => b = (prev, None)
  | b :: l => ∃ u, b = (prev, Some u) ∧ (∀ p, prev = Some p → p < u) ∧ linked (Some u) l
  end.

Lemma linked_cover v prev l : linked prev l →
  lsum (λ b, indicator (in_range v b)) l = match prev with Some p => indicator (bool_decide (p ≤ v)) | None => 1 end.
Proof.
  revert prev. induction l as [|b l IH]; intros prev Hl; [done|]. rewrite lsum_cons.
  destruct l as [|b' l].
  - cbn in Hl. subst b. unfold in_range. cbn. destruct prev; [|done]. by case_bool_decide.
  - destruct Hl as (u & -> & Hlt & Hl). rewrite (IH (Some u) Hl). unfold in_range. cbn. destruct prev as [p|].
    + specialize (Hlt p eq_refl). repeat case_bool_decide; cbn; lia.
    + repeat case_bool_decide; cbn; lia.
Qed.

(** The range of a chunk and the coordinate of a row in it. *)
Definition bounds (c : Chunk) : option Z * option Z :=
  match kind c with Ctid l u _ => (l, u) | Indexed l u => (l, u) | _ => (None, None) end.

Lemma ctid_weight c r : is_ctid (kind c) = true → chunk_weight r c = indicator (in_range (page r) (bounds c)).
Proof. unfold chunk_weight, covers, bounds. by destruct (kind c). Qed.
Lemma indexed_weight c r : is_indexed (kind c) = true →
  chunk_weight r c = indicator (in_range (cuts_below r - 1) (bounds c)).
Proof.
  unfold chunk_weight, covers, bounds. destruct (kind c) as [| |lower upper|]; try done. intros _. unfold in_range. cbn.
  destruct lower as [p|], upper as [u|]; repeat case_bool_decide; cbn; lia.
Qed.

(** The loop of [validate_initial_cover] on ranges of one kind. *)
Lemma check_chunks_linked len k0 n cs prev e :
  Forall (λ c, is_ctid (kind c) = true ∨ is_indexed (kind c) = true) cs → cs ≠ [] → len = (n + length cs)%nat →
  Forall typed_chunk cs →
  for_each (check_chunk len k0) (imap (λ i, pair (n + i)%nat) cs) prev = Ok e →
  linked prev (bounds <$> cs) ∧ Forall chunk_ok cs.
Proof.
  intros Hk Hne Hlen Ht He. revert n prev Hlen He. induction cs as [|c cs IH]; [done|]. intros n prev Hlen He.
  apply Forall_cons in Hk as [Hkc Hk]. apply Forall_cons in Ht as [Htc Ht].
  cbn [imap for_each] in He. apply bind_Ok in He as (up & Hc & He).
  assert (bounds c = (prev, up) ∧ (is_none up = bool_decide (cs = [])) ∧ chunk_ok c ∧
          (∀ p u, prev = Some p → up = Some u → p < u)) as (Hb & Hup & Hok & Hlt).
  { unfold check_chunk in Hc. rewrite Nat.add_0_r in Hc.
    replace (bool_decide (n + 1 = len)%nat) with (bool_decide (cs = [])) in Hc.
    2:{ apply bool_decide_ext. rewrite Hlen. cbn. destruct cs; cbn; split; try done; lia. }
    unfold bounds, chunk_ok, typed_chunk in *. destruct (kind c) as [|lower upper est|lower upper|]; [by destruct Hkc| | |by destruct Hkc].
    - apply bind_Ok in Hc as ([] & _ & Hc). apply bind_Ok in Hc as ([] & Hc1%ensure_Ok & Hc).
      apply bind_Ok in Hc as ([] & Hc2%ensure_Ok & [= <-]). bool_inv. subst. destruct Htc as (Hl & Hu & He').
      split; [done|]. split; [done|]. split.
      + destruct prev as [p|], upper as [u|]; cbn in *; try specialize (Hl _ eq_refl); try specialize (Hu _ eq_refl);
          unfold u32_max, u64_max in *; lia.
      + intros p u -> ->. cbn in *. destruct (bool_decide (cs = [])); cbn in *; [done|]. by bool_inv.
    - apply bind_Ok in Hc as ([] & _ & Hc). apply bind_Ok in Hc as ([] & Hc1%ensure_Ok & Hc).
      apply bind_Ok in Hc as ([] & Hc2%ensure_Ok & [= <-]). bool_inv. subst.
      split; [done|]. split; [done|]. split; [done|]. intros p u -> ->. by bool_inv. }
  destruct cs as [|c' cs].
  - cbn. destruct up; [done|]. split; [by rewrite Hb|by repeat constructor].
  - destruct (IH Hk ltac:(done) Ht (S n) up) as [Hl Hoks]; [cbn in Hlen |- *; lia| |].
    { rewrite <-He. f_equal. apply imap_ext. intros i x _. cbn. f_equal. lia. }
    split; [|by constructor]. destruct up as [u|]; [|done]. rewrite fmap_cons in Hl |- *. rewrite fmap_cons.
    exists u. rewrite Hb. split; [done|]. split; [|done]. intros p Hp. by eapply Hlt.
Qed.

Lemma rem_mod h m : 0 < m → Z.rem (Z.rem h m + m) m = h `mod` m.
Proof.
  intros Hm. rewrite Z.rem_mod_nonneg; [|pose proof (Z.rem_bound_abs h m); lia|lia].
  rewrite (Z.quot_rem' h m) at 2. rewrite Z.add_comm, Z.mul_comm.
  replace (m + Z.rem h m) with (Z.rem h m + 1 * m) by lia. rewrite Z.mod_add by lia.
  rewrite (Z.add_comm (Z.quot h m * m)), Z.mod_add by lia. done.
Qed.

(** Hash buckets [n], [n + 1], ... up to the modulus. *)
Lemma buckets_cover m n cs k0 r e :
  for_each (check_chunk m k0) (imap (λ i, pair (n + i)%nat) cs) None = Ok e → Forall (λ c, is_hash (kind c) = true) cs →
  m = (n + length cs)%nat →
  lsum (chunk_weight r) cs = indicator (bool_decide (Z.of_nat n ≤ hashtid r `mod` Z.of_nat m < Z.of_nat m)).
Proof.
  intros He Hk Hm. revert n Hm He. induction cs as [|c cs IH]; intros n Hm He.
  { cbn in *. case_bool_decide; [lia|done]. }
  apply Forall_cons in Hk as [Hkc Hk]. cbn [imap for_each] in He. apply bind_Ok in He as (up & Hc & He).
  unfold check_chunk in Hc. rewrite Nat.add_0_r in Hc. rewrite lsum_cons. unfold chunk_weight, covers at 1.
  destruct (kind c) as [| | |bucket modulus]; try done. apply bind_Ok in Hc as ([] & _ & Hc).
  apply bind_Ok in Hc as ([] & Hc1%ensure_Ok & [= <-]). bool_inv. subst bucket modulus.
  cbn [length] in Hm. rewrite rem_mod by lia. fold (chunk_weight r). rewrite (IH Hk (S n)); [|lia|].
  2:{ rewrite <-He. f_equal. apply imap_ext. intros i x _. cbn. f_equal. lia. }
  repeat case_bool_decide; cbn; lia.
Qed.

Lemma check_kinds m k0 ics prev e : for_each (check_chunk m k0) ics prev = Ok e → m ≠ 1%nat →
  Forall (λ ic, match kind ic.2 with Whole => False | Ctid _ _ _ => is_ctid k0 = true | Indexed _ _ => is_indexed k0 = true
                | HashCtid _ _ => is_hash k0 = true end) ics.
Proof.
  intros He Hm. revert prev He. induction ics as [|[i c] ics IH]; intros prev He; [constructor|].
  cbn [for_each] in He. apply bind_Ok in He as (up & Hc & He). constructor; [|by eapply IH].
  unfold check_chunk in Hc. cbn. destruct (kind c); res_inv; bool_inv; done.
Qed.

Lemma imap_Forall {A} (P : A → Prop) (l : list A) : Forall (λ ic, P ic.2) (imap pair l) → Forall P l.
Proof.
  intros Hf. apply Forall_lookup. intros i x Hi. rewrite Forall_lookup in Hf.
  apply (Hf i (i, x)). by rewrite list_lookup_imap, Hi.
Qed.

(** An accepted list of chunks covers every row once. *)
Theorem initial_cover chunks : Forall typed_chunk chunks → chunks ≠ [] → validate_initial_cover chunks = Ok tt →
  (∀ r, lsum (chunk_weight r) chunks = 1) ∧ Forall chunk_ok chunks.
Proof.
  intros Ht Hne Hv. destruct chunks as [|c0 cs]; [done|]. unfold validate_initial_cover in Hv.
  apply bind_Ok in Hv as (e & Hv & _). set (m := length (c0 :: cs)) in *.
  assert (for_each (check_chunk m (kind c0)) (imap (λ i, pair (0 + i)%nat) (c0 :: cs)) None = Ok e) as Hv' by done.
  assert (Forall (λ c, match kind c0 with Whole => cs = [] | Ctid _ _ _ => is_ctid (kind c) = true
                       | Indexed _ _ => is_indexed (kind c) = true | HashCtid _ _ => is_hash (kind c) = true end) (c0 :: cs)) as Hk.
  { destruct cs as [|c1 cs]; [repeat constructor; by destruct (kind c0)|].
    pose proof (check_kinds m (kind c0) _ None e Hv ltac:(done)) as Hks.
    apply (imap_Forall (λ c, match kind c with Whole => False | Ctid _ _ _ => is_ctid (kind c0) = true
      | Indexed _ _ => is_indexed (kind c0) = true | HashCtid _ _ => is_hash (kind c0) = true end)) in Hks.
    pose proof Hks as [H0 _]%Forall_cons. eapply Forall_impl; [exact Hks|]. intros c Hc. cbn in Hc.
    destruct (kind c0), (kind c); done. }
  destruct (kind c0) as [|lower upper est|lower upper|] eqn:E0.
  - apply Forall_cons in Hk as [-> _]. split; [|repeat constructor; unfold chunk_ok; by rewrite E0].
    intros r. rewrite lsum_cons. unfold chunk_weight, covers. by rewrite E0.
  - destruct (check_chunks_linked m (kind c0) 0 (c0 :: cs) None e) as [Hl Hok]; try done.
    { eapply Forall_impl; [exact Hk|]. by left. }
    { by rewrite E0. }
    split; [|done]. intros r. rewrite <-(linked_cover (page r) None _ Hl). rewrite lsum_fmap.
    apply lsum_ext. intros c Hc. apply ctid_weight. by apply (proj1 (Forall_forall _ _) Hk).
  - destruct (check_chunks_linked m (kind c0) 0 (c0 :: cs) None e) as [Hl Hok]; try done.
    { eapply Forall_impl; [exact Hk|]. by right. }
    { by rewrite E0. }
    split; [|done]. intros r. rewrite <-(linked_cover (cuts_below r - 1) None _ Hl). rewrite lsum_fmap.
    apply lsum_ext. intros c Hc. apply indexed_weight. by apply (proj1 (Forall_forall _ _) Hk).
  - split.
    + intros r. rewrite (buckets_cover m 0 (c0 :: cs) _ r e Hv' Hk eq_refl).
      rewrite bool_decide_eq_true_2; [done|]. pose proof (Z.mod_pos_bound (hashtid r) (Z.of_nat m)). subst m. cbn in *. lia.
    + eapply Forall_impl; [exact Hk|]. intros c Hc. cbn in Hc. unfold chunk_ok. by destruct (kind c).
Qed.
