(* ===== verification/SnapshotDurable.v ===== *)
(** * Safety of the snapshot queue

    In every history of calls each row of the table belongs to exactly one live task, a task
    is read by at most one attempt, and a complete queue has every marker acknowledged. *)

From stdpp Require Import base tactics numbers option sets gmap sorting list.
From S2P Require Import Prelude SnapshotQueue SnapshotCover.
Local Open Scope Z_scope.

(** ** The log *)
Record Publication := { p_lane : nat; p_attempt : Z; p_record : MarkerRecord; p_rows : Z }.

(** The publications of a task. *)
Definition published_of (i : nat) (events : list Event) : list Publication :=
  omap (λ e, match e with
    | Published l a r n => if bool_decide (task r = i)
        then Some {| p_lane := l; p_attempt := a; p_record := r; p_rows := n |} else None
    | _ => None end) events.
(** The markers a lane handed out, and those it was given back. *)
Definition published_by (l : nat) (events : list Event) : list (Z * MarkerRecord) :=
  omap (λ e, match e with Published l' a r _ => if bool_decide (l' = l) then Some (a, r) else None | _ => None end) events.
Definition acked_by (l : nat) (events : list Event) : list (Z * MarkerRecord) :=
  omap (λ e, match e with Acknowledged l' a r => if bool_decide (l' = l) then Some (a, r) else None | _ => None end) events.

(** ** The invariant of tasks and lanes *)
Definition reading (l : nat) (a : Z) (ps : list Publication) : Prop :=
  Forall (λ p, p_lane p = l ∧ p_attempt p = a ∧ task_end (p_record p) = false) ps.
Definition read (l : nat) (a : Z) (ps : list Publication) : Prop :=
  ∃ before e, ps = before ++ [e] ∧ reading l a before ∧ p_lane e = l ∧ p_attempt e = a ∧ task_end (p_record e) = true.

Definition owns (ls : list LaneState) (i : nat) (o : option (nat * Z)) (L : LaneState) : Prop :=
  ∃ l, o = Some (l, attempt L) ∧ ls !! l = Some L ∧ active L = true ∧ i ∈ unfinished L.

Definition task_ok (ls : list LaneState) (events : list Event) (i : nat) (t : Task) : Prop :=
  rows t = lsum p_rows (published_of i events) ∧
  match state t with
  | Pending => owner t = None ∧ published t = false ∧ published_of i events = []
  | Retired => published_of i events = []
  | Owned => ∃ L, owns ls i (owner t) L ∧ active_task L = Some i ∧
      (∀ l a, owner t = Some (l, a) → reading l a (published_of i events)) ∧
      (published t = false → published_of i events = [])
  | ReadComplete => ∃ L, owns ls i (owner t) L ∧ published t = true ∧
      ∀ l a, owner t = Some (l, a) → read l a (published_of i events)
  | DurableComplete => ∃ l a, owner t = Some (l, a) ∧ read l a (published_of i events)
  end.

Definition held (t : Task) : Prop := state t = Owned ∨ state t = ReadComplete.
Definition lane_ok (ts : list Task) (events : list Event) (l : nat) (L : LaneState) : Prop :=
  (∀ i, i ∈ unfinished L → ∃ t, ts !! i = Some t ∧ owner t = Some (l, attempt L) ∧ held t) ∧
  (∀ i, active_task L = Some i → i ∈ unfinished L ∧ ∃ t, ts !! i = Some t ∧ state t = Owned) ∧
  published_by l events = acked_by l events ++ (pair (attempt L) <$> outstanding L) ∧
  (∀ r, r ∈ outstanding L → task r ∈ unfinished L) ∧
  NoDup (published_by l events) ∧
  Forall (λ x, sequence x.2 ≤ next_sequence L) (published_by l events) ∧
  (active L = false → unfinished L = ∅ ∧ active_task L = None).

Record Good (w : World) : Prop := {
  good_pending_nodup : NoDup (pending (queue w));
  good_pending i : i ∈ pending (queue w) ↔ ∃ t, tasks (queue w) !! i = Some t ∧ state t = Pending;
  good_tasks i t : tasks (queue w) !! i = Some t → task_ok (lanes (queue w)) (log w) i t;
  good_lanes l L : lanes (queue w) !! l = Some L → lane_ok (tasks (queue w)) (log w) l L;
  good_leases k e : leases w !! k = Some e → closed e = false →
    ∃ L, lanes (queue w) !! lane e = Some L ∧ active L = true ∧ attempt L = lease_attempt e;
  good_lease_unique k1 k2 e1 e2 : leases w !! k1 = Some e1 → leases w !! k2 = Some e2 →
    closed e1 = false → closed e2 = false → lane e1 = lane e2 → k1 = k2;
  good_log i : (length (tasks (queue w)) ≤ i)%nat → published_of i (log w) = []
}.

(** What holds after an interruption too. *)
Record Covered (q : QueueState) : Prop := {
  covered_rows r : lsum (task_weight r) (tasks q) = 1;
  covered_leaves : leaves q = lsum (λ t, indicator (live t)) (tasks q);
  covered_max m : max_parts q = Some m → leaves q ≤ m;
  covered_chunks i t : tasks q !! i = Some t → chunk_ok (chunk t);
  covered_unfinished l L i : lanes q !! l = Some L → i ∈ unfinished L → ∃ t, tasks q !! i = Some t ∧ live t = true
}.

(** ** Lemmas on the log *)
#[local] Arguments published_of _ _ : simpl never.
#[local] Arguments published_by _ _ : simpl never.
#[local] Arguments acked_by _ _ : simpl never.
Lemma published_of_app i e1 e2 : published_of i (e1 ++ e2) = published_of i e1 ++ published_of i e2.
Proof. apply omap_app. Qed.
Lemma published_by_app l e1 e2 : published_by l (e1 ++ e2) = published_by l e1 ++ published_by l e2.
Proof. apply omap_app. Qed.
Lemma acked_by_app l e1 e2 : acked_by l (e1 ++ e2) = acked_by l e1 ++ acked_by l e2.
Proof. apply omap_app. Qed.

Lemma published_of_one i l a r n : published_of i [Published l a r n] =
  if bool_decide (task r = i) then [{| p_lane := l; p_attempt := a; p_record := r; p_rows := n |}] else [].
Proof. unfold published_of, published_by. cbn. by case_bool_decide. Qed.
Lemma published_by_one l' l a r n : published_by l' [Published l a r n] = if bool_decide (l = l') then [(a, r)] else [].
Proof. unfold published_of, published_by. cbn. by case_bool_decide. Qed.

Lemma published_by_of l a r events : (a, r) ∈ published_by l events →
  ∃ n, {| p_lane := l; p_attempt := a; p_record := r; p_rows := n |} ∈ published_of (task r) events.
Proof.
  unfold published_by, published_of. rewrite list_elem_of_omap. intros (e & He & Hm). destruct e as [l' a' r' n|]; [|done].
  case_bool_decide; [|done]. injection Hm as <- <-. subst l'. exists n. apply list_elem_of_omap.
  eexists. split; [exact He|]. cbn. by rewrite bool_decide_eq_true_2.
Qed.

(** The last publication of a task is its end. *)
Lemma read_end l a ps1 ps2 p : read l a (ps1 ++ ps2) → p ∈ ps1 → task_end (p_record p) = true → ps2 = [].
Proof.
  intros (before & e & E & Hb & _) Hp Hend. destruct ps2 as [|x ps2 _] using rev_ind; [done|].
  rewrite app_assoc in E. apply app_inj_tail in E as [E _]. exfalso.
  assert (p ∈ before) as Hin by (rewrite <-E; apply elem_of_app; by left).
  destruct (proj1 (Forall_forall _ _) Hb p Hin) as (_ & _ & Hf). congruence.
Qed.

(** ** One task, one lane

    The common shape of the calls: task [i] and lane [l] change, and the log grows by
    events about them. *)
Section update.
Context (w : World) (i l : nat) (t t' : Task) (L L' : LaneState) (ps : list nat) (events : list Event).
Context (Hgood : Good w) (Ht : tasks (queue w) !! i = Some t) (HL : lanes (queue w) !! l = Some L).
Context (Hattempt : attempt L' = attempt L) (Hactive : active L' = active L).
Context (Hunf : ∀ j, j ≠ i → (j ∈ unfinished L' ↔ j ∈ unfinished L)).
Context (Hact : ∀ j, j ≠ i → active_task L = Some j → active_task L' = Some j).
Context (Hof : ∀ j, j ≠ i → published_of j events = []).
Context (Hby : ∀ m, m ≠ l → published_by m events = [] ∧ acked_by m events = []).
Context (Howner : ∀ m a, owner t = Some (m, a) → held t → m = l).

Definition updated : World :=
  with_queue w (upd (queue w) (<[i := t']> (tasks (queue w))) ps (<[l := L']> (lanes (queue w)))) events.

Lemma update_task j tj : j ≠ i → task_ok (lanes (queue w)) (log w) j tj → task_ok (lanes (queue updated)) (log updated) j tj.
Proof.
  intros Hj (Hr & Hs). unfold task_ok, updated, with_queue. cbn. rewrite published_of_app, Hof, app_nil_r by done.
  split; [done|].
  assert (∀ Lj, owns (lanes (queue w)) j (owner tj) Lj →
    ∃ Lj', owns (<[l:=L']> (lanes (queue w))) j (owner tj) Lj' ∧ (active_task Lj = Some j → active_task Lj' = Some j)) as Ho.
  { intros Lj (m & Eo & Hm & Ha & Hu). destruct (decide (m = l)) as [->|Hne].
    - assert (Lj = L) as -> by congruence. exists L'. split; [|by apply Hact]. exists l.
      rewrite Hattempt, Hactive. split_and!; [done| |done|by apply Hunf].
      apply list_lookup_insert_eq. by eapply lookup_lt_Some.
    - exists Lj. split; [|done]. exists m. by rewrite list_lookup_insert_ne. }
  destruct (state tj); [done| | |done|done].
  - destruct Hs as (Lj & Hown & Ha & Hrest). destruct (Ho Lj Hown) as (Lj' & ? & ?). exists Lj'. by split_and!; auto; apply Hrest.
  - destruct Hs as (Lj & Hown & Hrest). destruct (Ho Lj Hown) as (Lj' & ? & ?). by exists Lj'.
Qed.

Lemma update_lane m M : m ≠ l → lanes (queue w) !! m = Some M → lane_ok (tasks (queue updated)) (log updated) m M.
Proof.
  intros Hm HM. destruct (good_lanes w Hgood m M HM) as (H1 & H2 & H3 & H4 & H5 & H6 & H7).
  unfold lane_ok, updated, with_queue. cbn. rewrite published_by_app, acked_by_app. destruct (Hby m Hm) as [-> ->].
  rewrite !app_nil_r.
  assert (∀ j, j ∈ unfinished M → j ≠ i) as Hne.
  { intros j (tj & Htj & Eo & Hh)%H1 ->. rewrite Ht in Htj. injection Htj as <-. by apply Hm, (Howner _ _ Eo). }
  split_and!; try done.
  - intros j Hj. destruct (H1 j Hj) as (tj & ? & ?). exists tj. by rewrite list_lookup_insert_ne by (apply not_eq_sym; auto).
  - intros j Hj. destruct (H2 j Hj) as (Hju & tj & ? & ?). split; [done|]. exists tj.
    by rewrite list_lookup_insert_ne by (apply not_eq_sym; auto).
Qed.

Lemma good_update :
  task_ok (lanes (queue updated)) (log updated) i t' →
  lane_ok (tasks (queue updated)) (log updated) l L' →
  NoDup ps → (i ∈ ps ↔ state t' = Pending) → (∀ j, j ≠ i → j ∈ ps ↔ j ∈ pending (queue w)) →
  Good updated.
Proof.
  intros Htask Hlane Hnd Hpi Hpj. split.
  - done.
  - intros j. change (pending (queue updated)) with ps. change (tasks (queue updated)) with (<[i:=t']> (tasks (queue w))).
    destruct (decide (j = i)) as [->|Hj].
    + rewrite Hpi, list_lookup_insert_eq by (by eapply lookup_lt_Some). naive_solver.
    + rewrite Hpj by done. rewrite list_lookup_insert_ne by done. apply good_pending, Hgood.
  - intros j tj [(-> & <- & _)|[Hj Hl]]%list_lookup_insert_Some; [done|]. apply update_task; [done|]. by apply good_tasks.
  - intros m M [(-> & <- & _)|[Hm Hl]]%list_lookup_insert_Some; [done|]. by apply update_lane.
  - intros k e He Hc. destruct (good_leases w Hgood k e He Hc) as (M & HM & Ha & Ea). cbn.
    destruct (decide (lane e = l)) as [El|Hne].
    + rewrite El in *. assert (M = L) as -> by congruence. exists L'. rewrite list_lookup_insert_eq by (by eapply lookup_lt_Some).
      by rewrite Hactive, Hattempt.
    + exists M. by rewrite list_lookup_insert_ne.
  - apply (good_lease_unique w Hgood).
  - intros j. unfold updated, with_queue. cbn. rewrite length_insert. intros Hlen. rewrite published_of_app, Hof, app_nil_r.
    + by apply (good_log w Hgood).
    + intros ->. apply lookup_lt_Some in Ht. lia.
Qed.
End update.

(** ** The calls *)
Lemma check_ok e q L : check e q = Ok L ↔
  closed e = false ∧ lanes q !! lane e = Some L ∧ active L = true ∧ attempt L = lease_attempt e.
Proof.
  unfold check. split.
  - intros Hc. res_inv. bool_inv. done.
  - intros (-> & -> & Ha & He). cbn. by rewrite Ha, bool_decide_eq_true_2.
Qed.
Lemma lock_ok q u : lock q = Ok u ↔ interrupted q = false.
Proof. unfold lock. destruct (interrupted q), u; cbn; split; done. Qed.
Lemma owned_ok q i l a t : validate_owned q i l a = Ok t ↔
  tasks q !! i = Some t ∧ state t = Owned ∧ owner t = Some (l, a).
Proof.
  unfold validate_owned. split.
  - intros Hc. res_inv. bool_inv. done.
  - intros (-> & Hs & Ho). cbn. by rewrite !bool_decide_eq_true_2.
Qed.

Lemma with_queue_nil w : with_queue w (queue w) [] = w.
Proof. destruct w. unfold with_queue. cbn. by rewrite app_nil_r. Qed.

Lemma claim_good w e q o : Good w → claim e (queue w) = Ok (q, o) → Good (with_queue w q []).
Proof.
  intros Hw Hc. unfold claim in Hc. apply bind_Ok in Hc as (u & _ & Hc).
  apply bind_Ok in Hc as (L & (_ & HL & Ha & Ea)%check_ok & Hc).
  apply bind_Ok in Hc as ([] & Hn%ensure_Ok & Hc). destruct (active_task L) as [|] eqn:En; [done|].
  destruct (pending (queue w)) as [|i rest] eqn:Ep.
  { injection Hc as <- _. by rewrite with_queue_nil. }
  apply bind_Ok in Hc as (t & Ht & Hc). destruct (tasks (queue w) !! i) as [t0|] eqn:Hi; [|done]. injection Ht as ->.
  apply bind_Ok in Hc as ([] & Hs%ensure_Ok%bool_decide_eq_true & Hc). injection Hc as <- _.
  pose proof (good_pending_nodup w Hw) as Hnd. rewrite Ep in Hnd. apply NoDup_cons in Hnd as [Hnin Hnd].
  destruct (good_tasks w Hw i t Hi) as [Hrows Hst]. rewrite Hs in Hst. destruct Hst as (Ho & Hpub & Hev).
  destruct (good_lanes w Hw _ L HL) as (H1 & H2 & H3 & H4 & H5 & H6 & H7).
  assert (∀ j, j ∈ unfinished L → j ≠ i) as Hne.
  { intros j (tj & Htj & Eo & Hh)%H1 ->. rewrite Hi in Htj. injection Htj as <-. destruct Hh; congruence. }
  apply (good_update w i (lane e) t _ L); try done.
  - intros j Hj. cbn. set_solver.
  - intros j _ Hj. congruence.
  - intros m a Eo. congruence.
  - unfold task_ok. cbn. rewrite app_nil_r. split; [done|]. exists (lane_claimed i L). split_and!; [|done| |done].
    + exists (lane e). cbn. rewrite Ea. split_and!; [done| |done|set_solver].
      apply list_lookup_insert_eq. by eapply lookup_lt_Some.
    + intros l a [= <- <-]. rewrite Hev. constructor.
  - unfold lane_ok. cbn. rewrite !app_nil_r. split_and!; try done.
    + intros j [->%elem_of_singleton|Hj]%elem_of_union.
      * exists (set_owner Owned (Some (lane e, lease_attempt e)) t). rewrite Ea.
        rewrite list_lookup_insert_eq by (by eapply lookup_lt_Some). split_and!; [done..|by left].
      * destruct (H1 j Hj) as (tj & ? & ?). exists tj. rewrite list_lookup_insert_ne by (apply not_eq_sym; auto). done.
    + intros j [= <-]. split; [set_solver|]. eexists. by rewrite list_lookup_insert_eq by (by eapply lookup_lt_Some).
    + intros r Hr. apply elem_of_union. right. by apply H4.
    + by rewrite Ha.
  - intros j Hj. rewrite Ep, elem_of_cons. naive_solver.
Qed.

(** [emit_rows] and [finish_read], before a pending task is split. *)
Lemma publish_good w e i t L s r n o :
  Good w → tasks (queue w) !! i = Some t → lanes (queue w) !! lane e = Some L → active L = true →
  attempt L = lease_attempt e → state t = Owned → owner t = Some (lane e, lease_attempt e) →
  task r = i → sequence r = next_sequence L + 1 → task_end r = bool_decide (s = ReadComplete) → held (set_state s t) →
  Good (updated w i (lane e) (set_published s (rows t + n) t)
    (lane_published o r (if bool_decide (s = ReadComplete) then None else active_task L) L) (pending (queue w))
    [Published (lane e) (lease_attempt e) r n]).
Proof.
  intros Hw Ht HL Ha Ea Hs Ho Hr Hseq Hend Hheld.
  destruct (good_tasks w Hw i t Ht) as [Hrows Hst]. rewrite Hs in Hst. destruct Hst as (L1 & Hown & Hat & Hread & _).
  assert (L1 = L) as -> by (destruct Hown as (m & ? & ? & _); congruence). destruct Hown as (m & _ & _ & _ & Hi).
  destruct (good_lanes w Hw _ L HL) as (H1 & H2 & H3 & H4 & H5 & H6 & H7).
  assert (∀ j, j ≠ i → published_of j [Published (lane e) (lease_attempt e) r n] = []) as Hof.
  { intros j Hj. rewrite published_of_one, bool_decide_eq_false_2; congruence. }
  assert (s = Owned ∨ s = ReadComplete) as Hs' by done.
  apply (good_update w i (lane e) t _ L); try done.
  - intros j Hj E. rewrite Hat in E. congruence.
  - intros m' Hm. rewrite published_by_one, bool_decide_eq_false_2 by congruence. done.
  - intros m' a' Eo _. congruence.
  - unfold task_ok. cbn. rewrite published_of_app, published_of_one, bool_decide_eq_true_2 by done.
    rewrite lsum_app, <-Hrows. split; [cbn; lia|].
    assert (owns (<[lane e:=lane_published o r (if bool_decide (s = ReadComplete) then None else active_task L) L]>
              (lanes (queue w))) i (owner t) (lane_published o r (if bool_decide (s = ReadComplete) then None else active_task L) L)) as Hown.
    { exists (lane e). cbn. rewrite Ea. split_and!; try done. apply list_lookup_insert_eq. by eapply lookup_lt_Some. }
    destruct Hs' as [-> | ->]; (eexists; split; [exact Hown|]); cbn in *.
    + split; [done|]. split; [|done]. intros l a Eo. rewrite Ho in Eo. injection Eo as <- <-.
      apply Forall_app. split; [by apply Hread|]. by repeat constructor.
    + split; [done|]. intros l a Eo. rewrite Ho in Eo. injection Eo as <- <-. eexists _, _. split; [done|]. by split; [apply Hread|].
  - unfold lane_ok. cbn. rewrite published_by_app, acked_by_app, published_by_one, (bool_decide_eq_true_2 (lane e = lane e)) by done.
    change (acked_by _ [Published _ _ _ _]) with (@nil (Z * MarkerRecord)). rewrite app_nil_r. split_and!.
    + intros j Hj. destruct (decide (j = i)) as [->|Hji].
      * eexists. rewrite list_lookup_insert_eq by (by eapply lookup_lt_Some). split; [done|]. cbn. by rewrite Ea.
      * destruct (H1 j Hj) as (tj & ? & ?). exists tj. by rewrite list_lookup_insert_ne.
    + intros j Hj. case_bool_decide; [done|]. assert (j = i) as -> by congruence. split; [done|].
      eexists. rewrite list_lookup_insert_eq by (by eapply lookup_lt_Some). split; [done|]. by destruct Hs'.
    + rewrite fmap_app, app_assoc, <-H3, Ea. done.
    + intros r' [?| ->%list_elem_of_singleton]%elem_of_app; [by apply H4|by rewrite Hr].
    + apply NoDup_app. split_and!; [done| |apply NoDup_singleton]. intros x Hx ->%list_elem_of_singleton.
      pose proof (proj1 (Forall_forall _ _) H6 _ Hx) as Hle. cbn in Hle. lia.
    + apply Forall_app. split; [|repeat constructor; cbn; lia]. eapply Forall_impl; [exact H6|]. intros x Hx. cbn in Hx |- *. lia.
    + by rewrite Ha.
  - by apply good_pending_nodup.
  - rewrite (good_pending w Hw i). cbn. split; [intros (t0 & ? & ?); congruence|]. by destruct Hs' as [-> | ->].
Qed.

Section calls.
Context (identity : Z) (split_pays : Z → Z → Z → Z → bool).

Lemma max_by_pages_in l x : max_by_pages l = Some x → x ∈ l.
Proof.
  unfold max_by_pages. cut (∀ b, foldl (λ best x, match best with
    | Some b => if bool_decide (b.2 ≤ x.2) then Some x else best | None => Some x end) b l = Some x → b = Some x ∨ x ∈ l).
  { intros Hc H. by destruct (Hc None H). }
  induction l as [|y l IH]; intros b Hb; cbn in Hb; [by left|]. destruct (IH _ Hb) as [E|?]; [|by right; right].
  destruct b as [b|]; [|injection E as <-; right; left]. case_bool_decide; [|by left]. injection E as <-. right. left.
Qed.

(** A split replaces one pending task by two. *)
Lemma adapt_split q c t s q' : adapt_pending split_pays q c t s = Some q' →
  ∃ i tk lc rc, i ∈ pending q ∧ tasks q !! i = Some tk ∧ split_pending (chunk tk) = Some (lc, rc) ∧
    (∀ m, max_parts q = Some m → leaves q + 1 ≤ m) ∧
    q' = {| tasks := <[i := set_state Retired tk]> (tasks q) ++ [new_task lc; new_task rc];
            pending := filter (λ p, p ≠ i) (pending q) ++ [length (tasks q); S (length (tasks q))];
            lanes := lanes q; leaves := leaves q + 1; max_parts := max_parts q; interrupted := interrupted q |}.
Proof.
  unfold adapt_pending. intros Ha. apply bind_Some in Ha as (observed & _ & Ha).
  destruct (_ || _ || _) eqn:Eg in Ha; [done|]. apply orb_false_iff in Eg as [_ Eg].
  apply bind_Some in Ha as ([i pages] & Hm%max_by_pages_in & Ha). destruct (split_pays _ _ _ _); [|done].
  apply bind_Some in Ha as (tk & Htk & Ha). apply bind_Some in Ha as ([lc rc] & Hs & Ha).
  apply bind_Some in Ha as (n & [-> _]%checked_add_Some & Ha). apply bind_Some in Ha as (n' & _ & [= <-]).
  exists i, tk, lc, rc. split_and!; try done.
  - unfold candidates in Hm. apply list_elem_of_omap in Hm as (j & Hj & Hm).
    apply bind_Some in Hm as (? & _ & Hm). apply bind_Some in Hm as (? & _ & [= -> _]). done.
  - intros m Em. rewrite Em in Eg. apply bool_decide_eq_false in Eg. lia.
Qed.

Lemma lookup_split (ts : list Task) i x a b j tj : (i < length ts)%nat → (<[i:=x]> ts ++ [a; b]) !! j = Some tj →
  (j = i ∧ tj = x) ∨ (j ≠ i ∧ ts !! j = Some tj) ∨ (j = length ts ∧ tj = a) ∨ (j = S (length ts) ∧ tj = b).
Proof.
  intros Hi [Hj|[Hlen Hj]]%lookup_app_Some.
  - apply list_lookup_insert_Some in Hj as [(-> & <- & _)|[? ?]]; auto.
  - rewrite length_insert in *. right. right.
    destruct (j - length ts)%nat as [|[|k]] eqn:E; cbn in Hj; [| |done]; injection Hj as <-; [left|right]; split; (done || lia).
Qed.

Lemma lookup_split_ne (ts : list Task) i x k j tj : j ≠ i → ts !! j = Some tj → (<[i:=x]> ts ++ k) !! j = Some tj.
Proof.
  intros Hj Htj. rewrite lookup_app_l by (rewrite length_insert; by eapply lookup_lt_Some).
  by rewrite list_lookup_insert_ne.
Qed.

Lemma adapt_good w c t s q' : Good w → adapt_pending split_pays (queue w) c t s = Some q' →
  Good {| queue := q'; leases := leases w; log := log w |}.
Proof.
  intros Hw (i & tk & lc & rc & Hi & Htk & Hs & _ & ->)%adapt_split.
  assert (state tk = Pending) as Hst by (apply (good_pending w Hw) in Hi as (t0 & ? & ?); congruence).
  pose proof (good_tasks w Hw i tk Htk) as [_ Hev]. rewrite Hst in Hev. destruct Hev as (_ & _ & Hev).
  pose proof (lookup_lt_Some _ _ _ Htk) as Hlen. set (n := length (tasks (queue w))) in *.
  assert (∀ j, j ∈ pending (queue w) → (j < n)%nat) as Hlt.
  { intros j (t0 & Ht0 & _)%(good_pending w Hw). by eapply lookup_lt_Some. }
  split; cbn.
  - apply NoDup_app. split_and!.
    + apply NoDup_filter, good_pending_nodup, Hw.
    + intros j [_ Hj%Hlt]%list_elem_of_filter. set_solver by lia.
    + apply NoDup_cons. split; [set_solver by lia|apply NoDup_singleton].
  - intros j. rewrite elem_of_app, list_elem_of_filter, !elem_of_cons, elem_of_nil, (good_pending w Hw). split.
    + intros [[Hj (tj & ? & ?)]|[->|[->|[]]]].
      * exists tj. split; [by apply lookup_split_ne|done].
      * exists (new_task lc). rewrite lookup_app_r; rewrite length_insert; [|done]. by rewrite Nat.sub_diag.
      * exists (new_task rc). rewrite lookup_app_r; rewrite length_insert; [|lia]. fold n. by replace (S n - n)%nat with 1%nat by lia.
    + intros (tj & [[-> ->]|[[? ?]|[[-> ->]|[-> ->]]]]%lookup_split & Hp); [done| |by auto..|done]. left. eauto.
  - intros j tj [[-> ->]|[[? ?]|[[-> ->]|[-> ->]]]]%lookup_split; [| | | |done].
    + destruct (good_tasks w Hw i tk Htk) as [Hr _]. by split.
    + by apply good_tasks.
    + unfold task_ok. cbn. by rewrite (good_log w Hw) by done.
    + unfold task_ok. cbn. by rewrite (good_log w Hw) by (subst n; lia).
  - intros l L HL. destruct (good_lanes w Hw l L HL) as (H1 & H2 & Hrest). split; [|split; [|exact Hrest]].
    + intros j Hj. destruct (H1 j Hj) as (tj & Htj & Ho & Hh). exists tj. split; [|done]. apply lookup_split_ne; [|done].
      intros ->. destruct Hh; congruence.
    + intros j Hj. destruct (H2 j Hj) as (Hu & tj & Htj & Hh). split; [done|]. exists tj. split; [|done].
      apply lookup_split_ne; [|done]. intros ->. congruence.
  - apply (good_leases w Hw).
  - apply (good_lease_unique w Hw).
  - intros j. rewrite length_app, length_insert. intros Hj. apply (good_log w Hw). lia.
Qed.

(** ** Acknowledgements *)
Lemma omap_app_inv {A B} (f : A → option B) l x y : omap f l = x ++ y →
  ∃ l1 l2, l = l1 ++ l2 ∧ omap f l1 = x ∧ omap f l2 = y.
Proof.
  revert x. induction l as [|a l IH]; intros x E.
  { destruct x; [|done]. cbn in E. exists [], []. by rewrite <-E. }
  cbn in E. destruct (f a) as [b|] eqn:Ea.
  - destruct x as [|b' x]; [exists [], (a :: l); cbn; by rewrite Ea|]. injection E as -> E.
    destruct (IH x E) as (l1 & l2 & -> & <- & <-). exists (a :: l1), l2. cbn. by rewrite Ea.
  - destruct (IH x E) as (l1 & l2 & -> & <- & <-). exists (a :: l1), l2. cbn. by rewrite Ea.
Qed.

Lemma outstanding_task w l L r : Good w → lanes (queue w) !! l = Some L → r ∈ outstanding L →
  ∃ t, tasks (queue w) !! task r = Some t ∧ owner t = Some (l, attempt L) ∧ held t ∧
    (task_end r = true → state t = ReadComplete).
Proof.
  intros Hw HL Hr. destruct (good_lanes w Hw _ L HL) as (H1 & _ & H3 & H4 & _).
  destruct (H1 _ (H4 _ Hr)) as (t & Ht & Ho & Hh). exists t. split_and!; try done. intros Hend. destruct Hh as [Hs|]; [|done].
  destruct (good_tasks w Hw _ t Ht) as [_ Hst]. rewrite Hs in Hst. destruct Hst as (_ & _ & _ & Hread & _).
  destruct (published_by_of l (attempt L) r (log w)) as [n Hn].
  { rewrite H3. apply elem_of_app. right. by apply list_elem_of_fmap_2. }
  destruct (proj1 (Forall_forall _ _) (Hread _ _ Ho) _ Hn) as (_ & _ & He). cbn in He. congruence.
Qed.

(** Nothing of a task is outstanding behind its end. *)
Lemma end_is_last w l L r out r' : Good w → lanes (queue w) !! l = Some L → outstanding L = r :: out →
  task_end r = true → r' ∈ out → task r' ≠ task r.
Proof.
  intros Hw HL Hout Hend Hr' Heq. destruct (good_lanes w Hw _ L HL) as (_ & _ & H3 & _).
  destruct (outstanding_task w l L r Hw HL) as (t & Ht & Ho & _ & Hs); [rewrite Hout; left|]. specialize (Hs Hend).
  destruct (good_tasks w Hw _ t Ht) as [_ Hst]. rewrite Hs in Hst. destruct Hst as (_ & _ & _ & Hread).
  specialize (Hread _ _ Ho). rewrite Hout, fmap_cons, cons_middle, app_assoc in H3.
  apply omap_app_inv in H3 as (e1 & e2 & E & E1 & E2). rewrite E, published_of_app in Hread.
  destruct (published_by_of l (attempt L) r e1) as [n Hn]; [unfold published_by; rewrite E1; set_solver|].
  destruct (published_by_of l (attempt L) r' e2) as [n' Hn'].
  { unfold published_by. rewrite E2. by apply list_elem_of_fmap_2. }
  rewrite Heq in Hn'. by rewrite (read_end _ _ _ _ _ Hread Hn Hend), elem_of_nil in Hn'.
Qed.

Definition committed_task (r : MarkerRecord) (t : Task) : Task := if task_end r then set_state DurableComplete t else t.
Definition committed_lane (r : MarkerRecord) (out : list MarkerRecord) (L : LaneState) : LaneState :=
  lane_acked out (if task_end r then unfinished L ∖ {[ task r ]} else unfinished L) L.

Lemma ack_one_good w l L t r out : Good w → lanes (queue w) !! l = Some L → outstanding L = r :: out →
  tasks (queue w) !! task r = Some t → active L = true →
  Good (updated w (task r) l (committed_task r t) (committed_lane r out L) (pending (queue w)) [Acknowledged l (attempt L) r]).
Proof.
  intros Hw HL Hout Ht Ha. destruct (outstanding_task w l L r Hw HL) as (t0 & Ht0 & Ho & Hh & Hend); [rewrite Hout; left|].
  assert (t0 = t) as -> by congruence. pose proof (good_tasks w Hw _ t Ht) as [Hrows Hst].
  destruct (good_lanes w Hw _ L HL) as (H1 & H2 & H3 & H4 & H5 & H6 & H7).
  assert (∀ j, published_of j [Acknowledged l (attempt L) r] = []) as Hof by done.
  assert (state (committed_task r t) ≠ Pending) as Hnp by (unfold committed_task; destruct (task_end r), Hh; cbn; congruence).
  pose proof (lookup_lt_Some _ _ _ HL) as Hlen. pose proof (lookup_lt_Some _ _ _ Ht) as Hlen'.
  apply (good_update w (task r) l t _ L); try done.
  - intros j Hj. cbn. destruct (task_end r); set_solver.
  - intros m Hm. split; [done|]. unfold acked_by. cbn. by rewrite bool_decide_eq_false_2 by congruence.
  - intros m a Eo _. congruence.
  - unfold task_ok. cbn. rewrite published_of_app, Hof, app_nil_r. unfold committed_task. destruct (task_end r) eqn:Er.
    + cbn. split; [done|]. rewrite (Hend eq_refl) in Hst. destruct Hst as (L1 & _ & _ & Hread). eauto.
    + split; [done|]. destruct Hh as [Hs|Hs]; rewrite Hs in Hst |- *.
      * destruct Hst as (L1 & (m & Eo & Hm & ? & ?) & Hact & Hrest). assert (m = l) as -> by congruence. assert (L1 = L) as -> by congruence.
        exists (committed_lane r out L). split; [|done]. exists l. rewrite list_lookup_insert_eq by done. cbn. by rewrite Er.
      * destruct Hst as (L1 & (m & Eo & Hm & ? & ?) & Hrest). assert (m = l) as -> by congruence. assert (L1 = L) as -> by congruence.
        exists (committed_lane r out L). split; [|done]. exists l. rewrite list_lookup_insert_eq by done. cbn. by rewrite Er.
  - unfold lane_ok. cbn. rewrite published_by_app, acked_by_app.
    change (published_by l [Acknowledged l (attempt L) r]) with (@nil (Z * MarkerRecord)). rewrite app_nil_r.
    replace (acked_by l [Acknowledged l (attempt L) r]) with [(attempt L, r)] by (unfold acked_by; cbn; by rewrite bool_decide_eq_true_2).
    split_and!; try done.
    + intros j Hj. assert (j ∈ unfinished L) as Hu by (destruct (task_end r); set_solver).
      destruct (decide (j = task r)) as [->|Hne].
      * exists (committed_task r t). rewrite list_lookup_insert_eq by done. unfold committed_task. destruct (task_end r); [set_solver|done].
      * destruct (H1 j Hu) as (tj & ? & ?). exists tj. by rewrite list_lookup_insert_ne.
    + intros j Hj. destruct (H2 j Hj) as (Hu & tj & Htj & Hs). destruct (decide (j = task r)) as [->|Hne].
      * assert (tj = t) as -> by congruence. unfold committed_task. destruct (task_end r); [specialize (Hend eq_refl); congruence|].
        split; [done|]. exists t. by rewrite list_lookup_insert_eq.
      * split; [destruct (task_end r); set_solver|]. exists tj. by rewrite list_lookup_insert_ne.
    + rewrite H3, Hout, fmap_cons, <-app_assoc. done.
    + intros r' Hr'. assert (task r' ∈ unfinished L) as Hu by (apply H4; rewrite Hout; by right).
      destruct (task_end r) eqn:Er; [|done]. pose proof (end_is_last w l L r out r' Hw HL Hout Er Hr'). set_solver.
    + by rewrite Ha.
  - by apply good_pending_nodup.
  - rewrite (good_pending w Hw). split; [|done]. intros (t0 & ? & ?). destruct Hh; congruence.
Qed.

Lemma commit_record_insert ts u r t : ts !! task r = Some t →
  commit_record (ts, u) r = (<[task r := committed_task r t]> ts, if task_end r then u ∖ {[ task r ]} else u).
Proof.
  intros Ht. unfold commit_record, committed_task. destruct (task_end r); cbn; f_equal.
  - apply list_eq. intros j. destruct (decide (j = task r)) as [->|Hne].
    + rewrite list_lookup_alter_eq, Ht, list_lookup_insert_eq; [done|]. by eapply lookup_lt_Some.
    + by rewrite list_lookup_alter_ne, list_lookup_insert_ne.
  - by rewrite list_insert_id.
Qed.

Lemma ack_list_good rs w l L out ts u : Good w → lanes (queue w) !! l = Some L → active L = true →
  outstanding L = rs ++ out → foldl commit_record (tasks (queue w), unfinished L) rs = (ts, u) →
  Good (with_queue w (upd (queue w) ts (pending (queue w)) (<[l := lane_acked out u L]> (lanes (queue w))))
    (Acknowledged l (attempt L) <$> rs)).
Proof.
  revert w L. induction rs as [|r rs IH]; intros w L Hw HL Ha Hout Hf.
  - injection Hf as <- <-. cbn in Hout. subst out. assert (lane_acked (outstanding L) (unfinished L) L = L) as -> by (by destruct L).
    rewrite list_insert_id by done. assert (upd (queue w) (tasks (queue w)) (pending (queue w)) (lanes (queue w)) = queue w) as -> by
      (by destruct (queue w)). by rewrite with_queue_nil.
  - destruct (outstanding_task w l L r Hw HL) as (t & Ht & _); [rewrite Hout; left|].
    pose proof (ack_one_good w l L t r (rs ++ out) Hw HL Hout Ht Ha) as Hw1. cbn [foldl] in Hf.
    rewrite (commit_record_insert _ _ _ t Ht) in Hf.
    pose proof (IH _ (committed_lane r (rs ++ out) L) Hw1) as Hgo. unfold updated, with_queue, upd in *. cbn in Hgo, Hf |- *.
    rewrite list_lookup_insert_eq, list_insert_insert_eq, <-app_assoc in Hgo by (by eapply lookup_lt_Some). by apply Hgo.
Qed.

Lemma check_marker_ok e q m r : check_marker identity e q m r = Ok tt ↔
  m = marker identity e r ∧ ∃ t, tasks q !! task r = Some t ∧ owner t = Some (lane e, lease_attempt e) ∧
    (if task_end r then state t = ReadComplete else held t).
Proof.
  unfold check_marker, held. split.
  - intros Hc. apply bind_Ok in Hc as ([] & H1%ensure_Ok & Hc). apply bind_Ok in Hc as ([] & H2%ensure_Ok & Hc).
    apply bind_Ok in Hc as (t & Ht & Hc). destruct (tasks q !! task r) as [t'|]; [|done]. injection Ht as ->.
    apply bind_Ok in Hc as ([] & H3%ensure_Ok & Hc%ensure_Ok). bool_inv.
    split; [destruct m; unfold marker; cbn in *; congruence|]. exists t. split; [done|].
    split; [done|]. destruct (task_end r); [by bool_inv|]. apply orb_true_iff in Hc as [?|?]; bool_inv; auto.
  - intros (-> & t & -> & Ho & Hs). cbn.
    rewrite (bool_decide_eq_true_2 (identity = identity)), (bool_decide_eq_true_2 (lane e = lane e)),
      (bool_decide_eq_true_2 (lease_attempt e = lease_attempt e)), (bool_decide_eq_true_2 (r = r)),
      (bool_decide_eq_true_2 _ Ho) by done. cbn. apply ensure_Ok.
    destruct (task_end r); [by apply bool_decide_eq_true|]. apply orb_true_iff. rewrite !bool_decide_eq_true. tauto.
Qed.

(** The acknowledgements accepted are the prefixes of the outstanding markers. *)
Lemma acknowledge_ok w e L ms : Good w → interrupted (queue w) = false → closed e = false →
  lanes (queue w) !! lane e = Some L → active L = true → attempt L = lease_attempt e →
  (∃ q, acknowledge identity e ms (queue w) = Ok q) ↔
  ms = (λ r, Some (marker identity e r)) <$> firstn (length ms) (outstanding L).
Proof.
  intros Hw Hi Hc HL Ha Ea. unfold acknowledge. split.
  - intros (q & Hq). apply bind_Ok in Hq as (ms' & Hms & Hq). apply mapM_Ok in Hms.
    apply bind_Ok in Hq as (u & _ & Hq). apply bind_Ok in Hq as (L' & (_ & HL' & _)%check_ok & Hq). assert (L' = L) as -> by congruence.
    apply bind_Ok in Hq as ([] & Hlen%ensure_Ok%bool_decide_eq_true & Hq). apply bind_Ok in Hq as ([] & Hall & _).
    apply (for_each_unit (λ _ x, check_marker identity e (queue w) x.1 x.2)) in Hall.
    assert (ms = Some <$> ms') as ->.
    { clear -Hms. induction Hms as [|x y l l' Hxy _ IH]; [done|]. rewrite fmap_cons, <-IH. destruct x; [by injection Hxy as ->|done]. }
    rewrite length_fmap. clear -split_pays Hlen Hall. revert Hall Hlen. generalize (outstanding L) as out.
    induction ms' as [|m ms' IH]; intros [|r out] Hall Hlen; cbn in Hlen; [done|done|lia|]. cbn [zip zip_with] in Hall.
    apply Forall_cons in Hall as [Hm Hall]. cbn [fst snd] in Hm. apply check_marker_ok in Hm as [-> _]. cbn [length firstn]. rewrite !fmap_cons, <-IH; [done..|lia].
  - intros Hms. set (rs := firstn (length ms) (outstanding L)) in *.
    assert (mapM (λ m, ok_or m ForeignMarker) ms = Ok (marker identity e <$> rs)) as ->.
    { apply mapM_Ok. rewrite Hms. apply Forall2_fmap, Forall_Forall2_diag, Forall_true. done. }
    cbn. unfold lock. rewrite Hi. cbn. rewrite (proj2 (check_ok e (queue w) L)) by done. cbn. rewrite length_fmap.
    rewrite bool_decide_eq_true_2 by (subst rs; rewrite length_take; lia). cbn.
    assert (for_each (λ _ x, check_marker identity e (queue w) x.1 x.2) (zip (marker identity e <$> rs) (outstanding L)) tt = Ok tt) as ->.
    { apply for_each_unit, Forall_lookup. intros i [m r]. rewrite lookup_zip_with_Some. intros (m' & r' & [= -> ->] & Hm & Hr).
      rewrite list_lookup_fmap_Some in Hm. destruct Hm as (r1 & -> & Hr1). subst rs. apply lookup_take_Some in Hr1 as [Hr1 _].
      assert (r1 = r') as -> by congruence. apply check_marker_ok. split; [done|].
      destruct (outstanding_task w _ L r' Hw HL) as (t & ? & ? & Hh & Hend); [by eapply list_elem_of_lookup_2|].
      exists t. rewrite <-Ea. split_and!; [done..|]. cbn. destruct (task_end r'); auto. }
    cbn. destruct (foldl _ _ _) as [ts u]. by eexists.
Qed.

Lemma acknowledge_good w e ms q : Good w → interrupted (queue w) = false → acknowledge identity e ms (queue w) = Ok q →
  Good (with_queue w q (omap (λ m, (λ m, Acknowledged (lane e) (lease_attempt e) (record m)) <$> m) ms)).
Proof.
  intros Hw Hi Hq. pose proof Hq as Hq'. unfold acknowledge in Hq'. apply bind_Ok in Hq' as (ms' & Hm & Hq').
  apply bind_Ok in Hq' as (u0 & _ & Hq'). apply bind_Ok in Hq' as (L & (Hc & HL & Ha & Ea)%check_ok & Hq').
  assert (length ms' = length ms) as Hlen by (apply mapM_Ok in Hm; symmetry; by eapply Forall2_length).
  pose proof (proj1 (acknowledge_ok w e L ms Hw Hi Hc HL Ha Ea) (ex_intro _ q Hq)) as Hms.
  do 2 apply bind_Ok in Hq' as (? & _ & Hq'). destruct (foldl _ _ _) as [ts u] eqn:Ef in Hq'. injection Hq' as <-.
  rewrite Hlen in *. pose proof (ack_list_good (firstn (length ms) (outstanding L)) w (lane e) L (drop (length ms) (outstanding L)) ts u
    Hw HL Ha (eq_sym (take_drop _ _)) Ef) as Hg.
  replace (omap _ ms) with (Acknowledged (lane e) (attempt L) <$> firstn (length ms) (outstanding L)); [done|].
  rewrite Ea. clear -Hms. rewrite Hms at 2. generalize (firstn (length ms) (outstanding L)) as rs.
  induction rs as [|r rs IH]; [done|]. rewrite !fmap_cons, IH. done.
Qed.

(** ** Opening and closing a lane *)
Lemma bt_elements_elem (s : gset nat) i : i ∈ bt_elements s ↔ i ∈ s.
Proof. unfold bt_elements. by rewrite merge_sort_Permutation, elem_of_elements. Qed.
Lemma bt_elements_nodup (s : gset nat) : NoDup (bt_elements s).
Proof. unfold bt_elements. rewrite merge_sort_Permutation. apply NoDup_elements. Qed.

Definition returned (t : Task) : Task := if published t then t else set_owner Pending None t.

Lemma close_fold ids ts ret amb ts' ret' amb' : NoDup ids → foldl close_task (ts, ret, amb) ids = (ts', ret', amb') →
  length ts' = length ts ∧
  (∀ i, ts' !! i = if decide (i ∈ ids) then returned <$> ts !! i else ts !! i) ∧
  (amb' = false → amb = false ∧ ∀ i t, i ∈ ids → ts !! i = Some t → published t = false) ∧
  (amb' = false → (∀ i, i ∈ ids → is_Some (ts !! i)) → ret' = ret ++ ids).
Proof.
  revert ts ret amb. induction ids as [|i ids IH]; intros ts ret amb Hnd Hf.
  { injection Hf as <- <- <-. split_and!; [done|done| |by rewrite app_nil_r]. intros ->. split; [done|]. intros i t Hi. set_solver. }
  apply NoDup_cons in Hnd as [Hi Hnd]. cbn [foldl] in Hf. unfold close_task at 2 in Hf.
  destruct (ts !! i) as [t|] eqn:Ht; [destruct (published t) eqn:Hp|];
    (destruct (IH _ _ _ Hnd Hf) as (Hlen & Hlook & Hamb & Hret); split_and!).
  - done.
  - intros j. rewrite Hlook. destruct (decide (j = i)) as [->|Hj].
    + rewrite (decide_False (P := i ∈ ids)) by done. rewrite decide_True by left. rewrite Ht. cbn. unfold returned. by rewrite Hp.
    + destruct (decide (j ∈ ids)); [rewrite decide_True by (by right)|rewrite decide_False by set_solver]; done.
  - intros E. by destruct (Hamb E).
  - intros E. by destruct (Hamb E).
  - by rewrite Hlen, length_insert.
  - intros j. rewrite Hlook. destruct (decide (j = i)) as [->|Hj].
    + rewrite (decide_False (P := i ∈ ids)) by done. rewrite decide_True by left.
      rewrite list_lookup_insert_eq by (by eapply lookup_lt_Some). rewrite Ht. cbn. unfold returned. by rewrite Hp.
    + rewrite !list_lookup_insert_ne by done.
      destruct (decide (j ∈ ids)); [rewrite decide_True by (by right)|rewrite decide_False by set_solver]; done.
  - intros E. destruct (Hamb E) as [Ha Hall]. split; [done|]. intros j tj [->|Hj]%elem_of_cons Htj; [congruence|].
    apply (Hall j tj Hj). rewrite list_lookup_insert_ne; [done|]. by intros ->.
  - intros E Hsome. rewrite Hret; [by rewrite <-app_assoc|done|]. intros j Hj. rewrite list_lookup_insert_ne; [|by intros ->].
    apply Hsome. by right.
  - done.
  - intros j. rewrite Hlook. destruct (decide (j = i)) as [->|Hj].
    + rewrite (decide_False (P := i ∈ ids)) by done. rewrite decide_True by left. by rewrite Ht.
    + destruct (decide (j ∈ ids)); [rewrite decide_True by (by right)|rewrite decide_False by set_solver]; done.
  - intros E. destruct (Hamb E) as [Ha Hall]. split; [done|]. intros j tj [->|Hj]%elem_of_cons Htj; [congruence|]. by eapply Hall.
  - intros E Hsome. destruct (Hsome i) as [t Ht']; [left|]. congruence.
Qed.

Lemma close_good w k e L ts ret : Good w → leases w !! k = Some e → closed e = false → lanes (queue w) !! lane e = Some L →
  foldl close_task (tasks (queue w), [], false) (bt_elements (unfinished L)) = (ts, ret, false) →
  Good {| queue := upd (queue w) ts (pending (queue w) ++ ret) (<[lane e := lane_closed ∅ L]> (lanes (queue w)));
          leases := <[k := {| lane := lane e; lease_attempt := lease_attempt e; closed := true |}]> (leases w); log := log w |}.
Proof.
  intros Hw He Hc HL Hf. destruct (close_fold _ _ _ _ _ _ _ (bt_elements_nodup _) Hf) as (Hlen & Hlook & Hunp & Hret).
  destruct (Hunp eq_refl) as [_ Hall]. destruct (good_lanes w Hw _ L HL) as (H1 & H2 & H3 & H4 & H5 & H6 & H7).
  assert (ret = bt_elements (unfinished L)) as ->.
  { apply Hret; [done|]. intros i (t & Ht & _)%bt_elements_elem%H1. by exists t. }
  assert (∀ i, ts !! i = if decide (i ∈ unfinished L) then returned <$> tasks (queue w) !! i else tasks (queue w) !! i) as Hlook'.
  { intros i. rewrite Hlook. apply decide_ext, bt_elements_elem. }
  clear Hlook. rename Hlook' into Hlook. setoid_rewrite bt_elements_elem in Hall.
  assert (∀ i t, i ∈ unfinished L → tasks (queue w) !! i = Some t → state t = Owned ∧ published_of i (log w) = []) as Hquiet.
  { intros i t Hi Ht. destruct (H1 i Hi) as (t' & Ht' & _ & Hh). assert (t' = t) as -> by congruence.
    destruct (good_tasks w Hw i t Ht) as [_ Hst]. pose proof (Hall i t Hi Ht) as Hp. destruct Hh as [Hs|Hs]; rewrite Hs in Hst.
    - destruct Hst as (L1 & _ & _ & _ & Hev). auto.
    - destruct Hst as (L1 & _ & Hp' & _). congruence. }
  assert (∀ i t, i ∈ unfinished L → tasks (queue w) !! i = Some t → ts !! i = Some (set_owner Pending None t)) as Hback.
  { intros i t Hi Ht. rewrite Hlook, decide_True, Ht by done. cbn. unfold returned. by rewrite (Hall i t Hi Ht). }
  assert (outstanding L = []) as Hout.
  { destruct (outstanding L) as [|r out]; [done|]. exfalso. assert (task r ∈ unfinished L) as Hr by (apply H4; left).
    destruct (H1 _ Hr) as (t & Ht & _). destruct (Hquiet _ t Hr Ht) as [_ Hev].
    destruct (published_by_of (lane e) (attempt L) r (log w)) as [n Hn].
    { rewrite H3, fmap_cons. apply elem_of_app. right. left. }
    rewrite Hev in Hn. by apply elem_of_nil in Hn. }
  split; cbn.
  - apply NoDup_app. split_and!; [apply good_pending_nodup, Hw| |apply bt_elements_nodup].
    intros i (t & Ht & Hs)%(good_pending w Hw) (t' & Ht' & _ & [?|?])%bt_elements_elem%H1; congruence.
  - intros i. rewrite elem_of_app, bt_elements_elem, (good_pending w Hw), Hlook. destruct (decide (i ∈ unfinished L)) as [Hi|Hi].
    + destruct (H1 i Hi) as (t & Ht & _). split; [|by right]. intros _. exists (set_owner Pending None t).
      split; [|done]. rewrite <-(Hback i t Hi Ht), Hlook, decide_True; done.
    + split; [by intros [?|?]|by left].
  - intros i t Hi. rewrite Hlook in Hi. destruct (decide (i ∈ unfinished L)) as [Hu|Hu].
    + destruct (tasks (queue w) !! i) as [t0|] eqn:Ht0; [|done]. cbn in Hi. injection Hi as <-. unfold returned.
      rewrite (Hall i t0 Hu Ht0). destruct (Hquiet i t0 Hu Ht0) as [_ Hev]. destruct (good_tasks w Hw i t0 Ht0) as [Hr _].
      split; [done|]. cbn. split_and!; eauto.
    + destruct (good_tasks w Hw i t Hi) as [Hr Hst]. split; [done|].
      assert (∀ Li, owns (lanes (queue w)) i (owner t) Li → owns (<[lane e:=lane_closed ∅ L]> (lanes (queue w))) i (owner t) Li) as Ho.
      { intros Li (m & ? & Hm & ? & Hin). exists m. rewrite list_lookup_insert_ne; [done|]. intros <-. congruence. }
      destruct (state t); [done|destruct Hst as (Li & ? & ?); eauto..|done|done].
  - intros m M [(<- & <- & _)|[Hm HM]]%list_lookup_insert_Some.
    + unfold lane_ok. cbn. rewrite Hout in H3 |- *. split_and!; try done; set_solver.
    + destruct (good_lanes w Hw m M HM) as (G1 & G2 & Grest).
      assert (∀ i, i ∈ unfinished M → ts !! i = tasks (queue w) !! i) as Hsame.
      { intros i Hi. rewrite Hlook, decide_False; [done|]. intros Hi'. destruct (G1 i Hi) as (t & Ht & Ho & _).
        destruct (H1 i Hi') as (t' & Ht' & Ho' & _). congruence. }
      split; [|split; [|exact Grest]].
      * intros i Hi. rewrite Hsame by done. by apply G1.
      * intros i Hi. destruct (G2 i Hi) as [Hi' Hx]. by rewrite Hsame.
  - intros k' e' [(<- & <- & _)|[Hk He']]%list_lookup_insert_Some Hc'; [done|].
    destruct (good_leases w Hw k' e' He' Hc') as (M & HM & Ha & Ea). exists M. rewrite list_lookup_insert_ne; [done|].
    intros El. by destruct (good_lease_unique w Hw k k' e e' He He' Hc Hc' El).
  - intros k1 k2 e1 e2 [(<- & <- & _)|[Hk1 He1]]%list_lookup_insert_Some; [done|].
    intros [(<- & <- & _)|[Hk2 He2]]%list_lookup_insert_Some; [done|]. by eapply good_lease_unique.
  - intros i. rewrite Hlen. apply (good_log w Hw).
Qed.

Lemma open_good w l q e : Good w → open_lane (queue w) l = Ok (q, e) →
  Good {| queue := q; leases := leases w ++ [e]; log := log w |}.
Proof.
  intros Hw Ho. unfold open_lane in Ho. apply bind_Ok in Ho as (u & _ & Ho). apply bind_Ok in Ho as (L & HL & Ho).
  destruct (lanes (queue w) !! l) as [L0|] eqn:EL; [|done]. injection HL as ->.
  apply bind_Ok in Ho as ([] & Hin%ensure_Ok%negb_true_iff & Ho). apply bind_Ok in Ho as (a & _ & [= <- <-]).
  destruct (good_lanes w Hw _ L EL) as (H1 & H2 & H3 & H4 & H5 & H6 & H7). destruct (H7 Hin) as [Hunf Hact].
  assert (outstanding L = []) as Hout.
  { destruct (outstanding L) as [|r out]; [done|]. exfalso. assert (task r ∈ unfinished L) as Hr by (apply H4; left). set_solver. }
  assert (∀ k e', leases w !! k = Some e' → closed e' = false → lane e' ≠ l) as Hno.
  { intros k e' He' Hc' El. destruct (good_leases w Hw k e' He' Hc') as (M & HM & Ha & _). congruence. }
  split; cbn.
  - by apply good_pending_nodup.
  - apply (good_pending w Hw).
  - intros i t Ht. destruct (good_tasks w Hw i t Ht) as [Hr Hst]. split; [done|].
    assert (∀ Li, owns (lanes (queue w)) i (owner t) Li → owns (<[l:=lane_opened a L]> (lanes (queue w))) i (owner t) Li) as Ho.
    { intros Li (m & ? & Hm & ? & Hin'). exists m. rewrite list_lookup_insert_ne; [done|]. intros ->. congruence. }
    destruct (state t); [done|destruct Hst as (Li & ? & ?); eauto..|done|done].
  - intros m M [(<- & <- & _)|[Hm HM]]%list_lookup_insert_Some; [|by apply good_lanes].
    unfold lane_ok. cbn. rewrite Hout, Hunf, Hact in *. split_and!; try done; set_solver.
  - intros k e' [He'|[_ He']]%lookup_app_Some Hc'.
    + destruct (good_leases w Hw k e' He' Hc') as (M & HM & Ha & Ea). exists M. rewrite list_lookup_insert_ne; [done|].
      by apply not_eq_sym, (Hno k).
    + apply list_lookup_singleton_Some in He' as [_ <-]. exists (lane_opened a L). cbn.
      by rewrite list_lookup_insert_eq by (by eapply lookup_lt_Some).
  - intros k1 k2 e1 e2 [He1|[Hk1 He1]]%lookup_app_Some [He2|[Hk2 He2]]%lookup_app_Some Hc1 Hc2 El.
    + by eapply good_lease_unique.
    + apply list_lookup_singleton_Some in He2 as [_ <-]. by destruct (Hno k1 e1).
    + apply list_lookup_singleton_Some in He1 as [_ <-]. by destruct (Hno k2 e2).
    + apply list_lookup_singleton_Some in He1 as [? _]. apply list_lookup_singleton_Some in He2 as [? _]. lia.
  - apply (good_log w Hw).
Qed.

(** ** Coverage *)
Definition alike (t t' : Task) : Prop := chunk t' = chunk t ∧ live t' = live t.
#[local] Instance alike_refl : Reflexive alike.
Proof. by split. Qed.
#[local] Instance alike_trans : Transitive alike.
Proof. intros a b c [? ?] [? ?]. split; congruence. Qed.

Lemma covered_alike q ts ps ls b : Covered q → Forall2 alike (tasks q) ts →
  (∀ l L i, ls !! l = Some L → i ∈ unfinished L →
     (∃ m M, lanes q !! m = Some M ∧ i ∈ unfinished M) ∨ ∃ t, ts !! i = Some t ∧ live t = true) →
  Covered {| tasks := ts; pending := ps; lanes := ls; leaves := leaves q; max_parts := max_parts q; interrupted := b |}.
Proof.
  intros Hq Hts Hu.
  assert (∀ f, (∀ t t', alike t t' → f t = f t') → lsum f ts = lsum f (tasks q)) as Hsum.
  { intros f Hf. clear -Hts Hf. induction Hts as [|x y l l' Hxy _ IH]; [done|]. by rewrite !lsum_cons, IH, (Hf x y). }
  split; cbn [tasks pending lanes leaves max_parts interrupted].
  - intros r. rewrite Hsum; [apply covered_rows, Hq|]. intros t t' [Hc Hl]. unfold task_weight. by rewrite Hc, Hl.
  - rewrite Hsum; [apply covered_leaves, Hq|]. by intros t t' [_ ->].
  - apply (covered_max q Hq).
  - intros i t Ht. destruct (Forall2_lookup_r _ _ _ _ _ Hts Ht) as (t0 & Ht0 & [-> _]). by apply (covered_chunks q Hq i).
  - intros l L i HL Hi. destruct (Hu l L i HL Hi) as [(m & M & HM & Hi')|?]; [|done].
    destruct (covered_unfinished q Hq m M i HM Hi') as (t0 & Ht0 & Hl). destruct (Forall2_lookup_l _ _ _ _ _ Hts Ht0) as (t & ? & [_ ?]).
    exists t. split; [done|congruence].
Qed.

Lemma insert_alike (ts : list Task) i t t' : ts !! i = Some t → alike t t' → Forall2 alike ts (<[i:=t']> ts).
Proof.
  intros Ht Hal. apply Forall2_same_length_lookup. split; [by rewrite length_insert|]. intros j x y Hx.
  intros [(-> & <- & _)|[_ Hy]]%list_lookup_insert_Some; [congruence|]. assert (x = y) as -> by congruence. done.
Qed.

(** One task and one lane change. *)
Lemma covered_update w i l t t' L L' ps events :
  Covered (queue w) → tasks (queue w) !! i = Some t → lanes (queue w) !! l = Some L → alike t t' →
  (∀ j, j ∈ unfinished L' → j ∈ unfinished L ∨ (j = i ∧ live t' = true)) →
  Covered (queue (updated w i l t' L' ps events)).
Proof.
  intros Hq Ht HL Hal Hu. apply covered_alike; [done|by eapply insert_alike|].
  intros m M j [(<- & <- & _)|[_ HM]]%list_lookup_insert_Some Hj.
  - destruct (Hu j Hj) as [?|[-> ?]]; [left; eauto|]. right. exists t'.
    split; [|done]. apply list_lookup_insert_eq. by eapply lookup_lt_Some.
  - left. eauto.
Qed.

Lemma adapt_covered q c t s q' : Covered q → (∀ i tk, i ∈ pending q → tasks q !! i = Some tk → state tk = Pending) →
  (∀ l L i, lanes q !! l = Some L → i ∈ unfinished L → i ∉ pending q) →
  adapt_pending split_pays q c t s = Some q' → Covered q'.
Proof.
  intros Hq Hp Hu (i & tk & lc & rc & Hi & Htk & Hs & Hmax & ->)%adapt_split.
  pose proof (Hp i tk Hi Htk) as Hst. destruct (split_ok _ lc rc (covered_chunks q Hq i tk Htk) Hs) as (Hlc & Hrc & Hw).
  assert (live tk = true) as Hlive by (unfold live; by rewrite Hst).
  split; cbn [tasks pending lanes leaves max_parts interrupted].
  - intros r. rewrite lsum_app, (lsum_insert _ _ _ tk) by done. rewrite !lsum_cons, (covered_rows q Hq r).
    unfold task_weight. rewrite Hlive. specialize (Hw r). unfold chunk_weight in Hw.
    change (live (set_state Retired tk)) with false. change (live (new_task lc)) with true. change (live (new_task rc)) with true.
    cbn [andb chunk new_task lsum foldr indicator]. lia.
  - rewrite lsum_app, (lsum_insert _ _ _ tk) by done. rewrite !lsum_cons, <-(covered_leaves q Hq), Hlive.
    change (live (set_state Retired tk)) with false. change (live (new_task lc)) with true. change (live (new_task rc)) with true.
    cbn [lsum foldr indicator]. lia.
  - done.
  - intros j tj [[-> ->]|[[_ Hj]|[[-> ->]|[-> ->]]]]%lookup_split; [| | | |by eapply lookup_lt_Some].
    + exact (covered_chunks q Hq i tk Htk).
    + by apply (covered_chunks q Hq j).
    + done.
    + done.
  - intros l L j HL Hj. destruct (covered_unfinished q Hq l L j HL Hj) as (tj & Htj & Hl). exists tj. split; [|done].
    apply lookup_split_ne; [|done]. intros ->. by apply (Hu l L i).
Qed.

Lemma commit_alike rs ts u : (∀ r t, r ∈ rs → task_end r = true → ts !! task r = Some t → live t = true) →
  Forall2 alike ts (foldl commit_record (ts, u) rs).1 ∧ (foldl commit_record (ts, u) rs).2 ⊆ u.
Proof.
  revert ts u. induction rs as [|r rs IH]; intros ts u Hrs; [done|]. cbn [foldl].
  assert (Forall2 alike ts (commit_record (ts, u) r).1 ∧ (commit_record (ts, u) r).2 ⊆ u) as [H1 H2].
  { unfold commit_record. destruct (task_end r) eqn:Er; [|done]. cbn. split; [|set_solver].
    apply Forall2_same_length_lookup. split; [by rewrite length_alter|]. intros j x y Hx Hy.
    destruct (decide (j = task r)) as [->|Hj].
    - rewrite list_lookup_alter_eq, Hx in Hy. injection Hy as <-. split; [done|]. cbn. symmetry. apply (Hrs r x); [left|done..].
    - rewrite list_lookup_alter_ne in Hy by done. assert (x = y) as -> by congruence. done. }
  destruct (commit_record (ts, u) r) as [ts1 u1]. cbn in H1, H2. destruct (IH ts1 u1) as [H3 H4].
  { intros r' t Hr' He Ht. destruct (Forall2_lookup_r _ _ _ _ _ H1 Ht) as (t0 & Ht0 & [_ ->]). eapply (Hrs r'); [by right|done..]. }
  split; [|set_solver]. by etrans.
Qed.

(** ** All histories *)

(** A task is read by at most one attempt, to its end at most once. *)
Definition single_reader (events : list Event) : Prop :=
  ∀ i, ∃ l a, reading l a (published_of i events) ∨ read l a (published_of i events).

Record Inv (w : World) : Prop := {
  inv_covered : Covered (queue w);
  inv_single : single_reader (log w);
  inv_good : interrupted (queue w) = false → Good w
}.

Lemma good_single w : Good w → single_reader (log w).
Proof.
  intros Hw i. assert (reading 0 0 []) as H0 by constructor. destruct (tasks (queue w) !! i) as [t|] eqn:Ht.
  - destruct (good_tasks w Hw i t Ht) as [_ Hst]. destruct (state t).
    + destruct Hst as (_ & _ & ->). eauto.
    + destruct Hst as (L & (l & Ho & _) & _ & Hr & _). eauto.
    + destruct Hst as (L & (l & Ho & _) & _ & Hr). eauto.
    + destruct Hst as (l & a & _ & Hr). eauto.
    + rewrite Hst. eauto.
  - rewrite (good_log w Hw); [eauto|]. by apply lookup_ge_None.
Qed.

Lemma inv_intro w : Covered (queue w) → Good w → Inv w.
Proof. intros Hc Hg. split; [done|by apply good_single|done]. Qed.

Lemma unfinished_not_pending w l L i : Good w → lanes (queue w) !! l = Some L → i ∈ unfinished L → i ∉ pending (queue w).
Proof.
  intros Hw HL Hi (t & Ht & Hs)%(good_pending w Hw). destruct (good_lanes w Hw l L HL) as (H1 & _).
  destruct (H1 i Hi) as (t' & Ht' & _ & [?|?]); congruence.
Qed.

Lemma claim_inv w e q o : Inv w → interrupted (queue w) = false → claim e (queue w) = Ok (q, o) → Inv (with_queue w q []).
Proof.
  intros Hw Hi Hc. apply inv_intro; [|by apply (claim_good w e q o (inv_good w Hw Hi))]. unfold claim in Hc.
  apply bind_Ok in Hc as (u & _ & Hc). apply bind_Ok in Hc as (L & (_ & HL & _)%check_ok & Hc).
  apply bind_Ok in Hc as ([] & _ & Hc). destruct (pending (queue w)) as [|i rest]; [injection Hc as <- _; apply (inv_covered w Hw)|].
  apply bind_Ok in Hc as (t & Ht & Hc). destruct (tasks (queue w) !! i) as [t0|] eqn:Hti; [|done]. injection Ht as ->.
  apply bind_Ok in Hc as ([] & Hs%ensure_Ok%bool_decide_eq_true & [= <- _]).
  apply (covered_update w i (lane e) t _ L _ rest []); [apply (inv_covered w Hw)|done|done| |].
  - split; [done|]. unfold live. by rewrite Hs.
  - intros j. cbn. set_solver.
Qed.

Lemma publish_covered w e i t L s r n o at_ : Covered (queue w) → tasks (queue w) !! i = Some t → lanes (queue w) !! lane e = Some L →
  state t = Owned → held (set_state s t) →
  Covered (queue (updated w i (lane e) (set_published s (rows t + n) t) (lane_published o r at_ L) (pending (queue w))
    [Published (lane e) (lease_attempt e) r n])).
Proof.
  intros Hc Ht HL Hs Hh. apply (covered_update w i (lane e) t _ L); try done; [|by left].
  split; [done|]. unfold live. rewrite Hs. unfold held in Hh. cbn in Hh |- *. by destruct Hh as [-> | ->].
Qed.

Lemma emit_inv w e c o n q x m : Inv w → interrupted (queue w) = false → emit_rows identity e c o n (queue w) = Ok (q, (x, m)) →
  Inv (with_queue w q [Published (lane e) (lease_attempt e) (record m) n]).
Proof.
  intros Hw Hi Hc. unfold emit_rows in Hc. do 2 apply bind_Ok in Hc as (? & _ & Hc).
  apply bind_Ok in Hc as (L & (Hcl & HL & Ha & Ea)%check_ok & Hc). apply bind_Ok in Hc as (t & (Ht & Hs & Ho)%owned_ok & Hc).
  do 2 apply bind_Ok in Hc as (? & _ & Hc). apply bind_Ok in Hc as (x' & _ & Hc). apply bind_Ok in Hc as (total & Htot & Hc).
  destruct (checked_add u64_max (rows t) n) as [z|] eqn:Ez; [|done]. injection Htot as ->. apply checked_add_Some in Ez as [-> _].
  apply bind_Ok in Hc as (sq & Hsq & Hc). destruct (checked_add u64_max (next_sequence L) 1) as [z|] eqn:Ez; [|done].
  injection Hsq as ->. apply checked_add_Some in Ez as [-> _]. injection Hc as <- _ <-. rewrite Hs.
  set (r := {| task := id c; sequence := _; record_offset := _; task_end := _ |}). apply inv_intro.
  - apply (publish_covered w e (id c) t L Owned r n); [apply (inv_covered w Hw)|done..|by left].
  - apply (publish_good w e (id c) t L Owned r n x' (inv_good w Hw Hi)); try done. by left.
Qed.

Lemma finish_inv w e c el qs q m : Inv w → interrupted (queue w) = false →
  finish_read identity split_pays e c el qs (queue w) = Ok (q, m) →
  Inv (with_queue w q [Published (lane e) (lease_attempt e) (record m) 0]).
Proof.
  intros Hw Hi Hc. unfold finish_read in Hc. apply bind_Ok in Hc as (? & _ & Hc).
  apply bind_Ok in Hc as (L & (Hcl & HL & Ha & Ea)%check_ok & Hc). apply bind_Ok in Hc as (t & (Ht & Hs & Ho)%owned_ok & Hc).
  apply bind_Ok in Hc as (sq & Hsq & Hc). destruct (checked_add u64_max (next_sequence L) 1) as [z|] eqn:Ez; [|done].
  injection Hsq as ->. apply checked_add_Some in Ez as [-> _]. injection Hc as <- <-.
  set (r := {| task := id c; sequence := _; record_offset := _; task_end := _ |}).
  set (q1 := upd _ _ _ _).
  assert (q1 = queue (updated w (id c) (lane e) (set_published ReadComplete (rows t + 0) t) (lane_published (offset L) r None L)
    (pending (queue w)) [Published (lane e) (lease_attempt e) r 0])) as Eq1 by (unfold q1, updated; cbn; by rewrite Z.add_0_r).
  set (w1 := with_queue w q1 [Published (lane e) (lease_attempt e) r 0]).
  assert (Good w1) as Hg.
  { pose proof (publish_good w e (id c) t L ReadComplete r 0 (offset L) (inv_good w Hw Hi) Ht HL Ha Ea Hs Ho eq_refl eq_refl eq_refl
      (or_intror eq_refl)) as Hg. unfold w1. rewrite Eq1. exact Hg. }
  assert (Covered q1) as Hcov.
  { rewrite Eq1. apply (publish_covered w e (id c) t L ReadComplete r 0); [apply (inv_covered w Hw)|done..|by right]. }
  destruct (adapt_pending split_pays q1 (claimed_chunk c) el qs) as [q2|] eqn:Ead; cbn [default]; [|by apply inv_intro].
  apply inv_intro; [|exact (adapt_good w1 _ _ _ q2 Hg Ead)]. cbn. eapply (adapt_covered q1); [done| | |exact Ead].
  - intros i tk (tk' & ? & ?)%(good_pending w1 Hg) Htk. cbn in *. congruence.
  - intros l M i HM Hi'. by eapply (unfinished_not_pending w1).
Qed.

Lemma acknowledge_inv w e ms q : Inv w → interrupted (queue w) = false → acknowledge identity e ms (queue w) = Ok q →
  Inv (with_queue w q (omap (λ m, (λ m, Acknowledged (lane e) (lease_attempt e) (record m)) <$> m) ms)).
Proof.
  intros Hw Hi Hq. pose proof (inv_good w Hw Hi) as Hg. apply inv_intro; [|by apply acknowledge_good]. cbn.
  unfold acknowledge in Hq. apply bind_Ok in Hq as (ms' & _ & Hq). apply bind_Ok in Hq as (u0 & _ & Hq).
  apply bind_Ok in Hq as (L & (Hc & HL & Ha & Ea)%check_ok & Hq). do 2 apply bind_Ok in Hq as (? & _ & Hq).
  destruct (commit_alike (firstn (length ms') (outstanding L)) (tasks (queue w)) (unfinished L)) as [Hal Hsub].
  { intros r t Hr He Ht. destruct (outstanding_task w _ L r Hg HL) as (t' & Ht' & _ & [Hs|Hs] & _).
    - apply list_elem_of_lookup in Hr as [k [Hk _]%lookup_take_Some]. by eapply list_elem_of_lookup_2.
    - assert (t' = t) as -> by congruence. unfold live. by rewrite Hs.
    - assert (t' = t) as -> by congruence. unfold live. by rewrite Hs. }
  destruct (foldl _ _ _) as [ts u]. injection Hq as <-. cbn in Hal, Hsub.
  apply covered_alike; [apply (inv_covered w Hw)|done|]. intros m M j [(<- & <- & _)|[_ HM]]%list_lookup_insert_Some Hj; left; [|by eauto].
  exists (lane e), L. split; [done|]. by apply Hsub.
Qed.

Lemma close_inv w k : Inv w → Inv (call identity split_pays w (Close k)).
Proof.
  intros Hw. cbn. destruct (leases w !! k) as [e|] eqn:He; [|done]. unfold close. destruct (closed e) eqn:Hc.
  { rewrite list_insert_id by done. by destruct w. }
  cbn [lane]. destruct (lanes (queue w) !! lane e) as [L|] eqn:HL.
  2:{ split; [apply (inv_covered w Hw)|apply (inv_single w Hw)|]. cbn. intros Hi.
      destruct (good_leases w (inv_good w Hw Hi) k e He Hc) as (M & HM & _). congruence. }
  destruct (foldl close_task (tasks (queue w), [], false) (bt_elements (unfinished L))) as [[ts ret] amb] eqn:Ef.
  destruct (close_fold _ _ _ _ _ _ _ (bt_elements_nodup _) Ef) as (Hlen & Hlook & _ & _).
  split; cbn.
  - apply covered_alike; [apply (inv_covered w Hw)| |].
    + apply Forall2_same_length_lookup. split; [done|]. intros j x y Hx Hy. rewrite Hlook, Hx in Hy.
      destruct (decide (j ∈ bt_elements (unfinished L))) as [Hj%bt_elements_elem|_]; [|by injection Hy as <-]. injection Hy as <-.
      destruct (covered_unfinished _ (inv_covered w Hw) _ L j HL Hj) as (t & Ht & Hl). assert (t = x) as -> by congruence.
      unfold returned. destruct (published x); [done|]. split; [done|]. by rewrite Hl.
    + intros m M j [(<- & <- & _)|[_ HM]]%list_lookup_insert_Some Hj; left; [|by eauto]. exists (lane e), L. split; [done|].
      cbn in Hj. by destruct amb; [|set_solver].
  - apply (inv_single w Hw).
  - intros [Hi ->]%orb_false_iff. rewrite orb_false_r. exact (close_good w k e L ts ret (inv_good w Hw Hi) He Hc HL Ef).
Qed.

Lemma interrupted_lock {A} q (f : unit → result QueueError A) : interrupted q = true → (lock q ≫= f) = Err EpochInterrupted.
Proof. intros Hi. unfold lock. by rewrite Hi. Qed.

Lemma open_inv w l q e : Inv w → interrupted (queue w) = false → open_lane (queue w) l = Ok (q, e) →
  Inv {| queue := q; leases := leases w ++ [e]; log := log w |}.
Proof.
  intros Hw Hi Ho. apply inv_intro; [|by apply (open_good w l q e (inv_good w Hw Hi))]. unfold open_lane in Ho.
  apply bind_Ok in Ho as (u & _ & Ho). apply bind_Ok in Ho as (L & HL & Ho). destruct (lanes (queue w) !! l) as [L0|] eqn:EL; [|done].
  injection HL as ->. apply bind_Ok in Ho as ([] & _ & Ho). apply bind_Ok in Ho as (a & _ & [= <- _]).
  apply covered_alike; [apply (inv_covered w Hw)|reflexivity|].
  intros m M j [(<- & <- & _)|[_ HM]]%list_lookup_insert_Some Hj; left; eauto.
Qed.

Lemma call_inv w c : Inv w → Inv (call identity split_pays w c).
Proof.
  intros Hw. destruct (interrupted (queue w)) eqn:Hi.
  - (* nothing but closing happens after an interruption *)
    destruct c; [..|by apply close_inv]; cbn; unfold on_lease, open_lane, claim, emit_rows, finish_read, acknowledge.
    + by rewrite interrupted_lock.
    + destruct (leases w !! k); [|done]. rewrite (interrupted_lock (queue w)) by done. exact Hw.
    + destruct (leases w !! k); [|done]. destruct (ensure (bool_decide (0 < n)) EmptyRowMarker); [|exact Hw]. cbn [mbind result_bind].
      rewrite (interrupted_lock (queue w)) by done. exact Hw.
    + destruct (leases w !! k); [|done]. rewrite (interrupted_lock (queue w)) by done. exact Hw.
    + destruct (leases w !! k); [|done]. destruct (mapM _ _); [|exact Hw]. cbn [mbind result_bind].
      rewrite (interrupted_lock (queue w)) by done. exact Hw.
  - destruct c; [..|by apply close_inv]; cbn; unfold on_lease.
    + destruct (open_lane (queue w) l) as [[q e]|] eqn:E; [|done]. by apply (open_inv w l q e).
    + destruct (leases w !! k) as [e|]; [|done]. destruct (claim e (queue w)) as [[q o]|] eqn:E; [|done]. by apply (claim_inv w e q o).
    + destruct (leases w !! k) as [e|]; [|done]. destruct (emit_rows _ _ _ _ _ _) as [[q [x m]]|] eqn:E; [|done]. by apply (emit_inv _ _ _ _ _ _ _ _ Hw Hi E).
    + destruct (leases w !! k) as [e|]; [|done]. destruct (finish_read _ _ _ _ _ _ _) as [[q m]|] eqn:E; [|done]. by apply (finish_inv _ _ _ _ _ _ _ Hw Hi E).
    + destruct (leases w !! k) as [e|]; [|done]. destruct (acknowledge _ _ _ _) as [q|] eqn:E; [|done]. by apply acknowledge_inv.
Qed.

Lemma start_inv chunks n limit q : Forall typed_chunk chunks → queue_new chunks n limit = Ok q → Inv (start q).
Proof.
  intros Ht Hq. unfold queue_new in Hq. apply bind_Ok in Hq as ([] & Hne%ensure_Ok%negb_true_iff%bool_decide_eq_false & Hq).
  apply bind_Ok in Hq as ([] & _ & Hq). apply bind_Ok in Hq as ([] & Hlim%ensure_Ok & Hq). apply bind_Ok in Hq as ([] & Hv & [= <-]).
  destruct (initial_cover chunks Ht Hne Hv) as [Hcov Hok]. apply inv_intro; split; cbn [queue start tasks pending lanes leaves max_parts log leases].
  - intros r. rewrite lsum_fmap. rewrite <-(Hcov r). by apply lsum_ext.
  - rewrite lsum_fmap. clear. induction chunks as [|c cs IH]; [done|]. rewrite lsum_cons, <-IH. cbn [length]. change (live (new_task c)) with true.
    cbn [indicator]. lia.
  - intros m ->. by apply bool_decide_eq_true in Hlim.
  - intros i t Hi. apply list_lookup_fmap_Some in Hi as (c & -> & Hc). cbn. by apply (proj1 (Forall_lookup _ _) Hok i).
  - intros l L i HL. apply lookup_replicate in HL as [-> _]. cbn. set_solver.
  - apply NoDup_seq.
  - intros i. rewrite elem_of_seq. setoid_rewrite list_lookup_fmap. split.
    + intros [_ Hi]. destruct (lookup_lt_is_Some_2 chunks i Hi) as [c Hc]. exists (new_task c). by rewrite Hc.
    + intros (t & Ht' & _). destruct (chunks !! i) eqn:Hc; [|done]. apply lookup_lt_Some in Hc. lia.
  - intros i t Hi. apply list_lookup_fmap_Some in Hi as (c & -> & Hc). done.
  - intros l L HL. apply lookup_replicate in HL as [-> _]. unfold lane_ok. cbn. split_and!; try done; try constructor; set_solver.
  - done.
  - done.
  - done.
Qed.

Lemma run_inv chunks n limit q cs : Forall typed_chunk chunks → queue_new chunks n limit = Ok q →
  Inv (run identity split_pays q cs).
Proof.
  intros Ht Hq. unfold run. pose proof (start_inv chunks n limit q Ht Hq) as Hs. revert Hs. generalize (start q) as w.
  induction cs as [|c cs IH]; intros w Hw; [done|]. cbn. apply IH. by apply call_inv.
Qed.

(** ** Claims *)
Lemma indicator_unique {A} (f : A → bool) l : lsum (λ x, indicator (f x)) l = 1 →
  ∃ i x, l !! i = Some x ∧ f x = true ∧ ∀ j y, l !! j = Some y → f y = true → j = i.
Proof.
  assert (∀ m, 0 ≤ lsum (λ x, indicator (f x)) m) as Hpos by (intros m; apply lsum_nonneg; intros x _; by destruct (f x)).
  assert (∀ m, lsum (λ x, indicator (f x)) m = 0 → ∀ j y, m !! j = Some y → f y = false) as Hzero.
  { induction m as [|x m IH]; intros H0 j y Hj; [done|]. rewrite lsum_cons in H0. pose proof (Hpos m).
    destruct (f x) eqn:Ex; cbn in H0; [lia|]. destruct j as [|j]; cbn in Hj; [congruence|]. by apply (IH H0 j). }
  induction l as [|x l IH]; intros H1; [done|]. rewrite lsum_cons in H1. destruct (f x) eqn:Ex; cbn in H1.
  - exists 0%nat, x. split_and!; [done..|]. intros [|j] y Hj Hy; [done|]. rewrite (Hzero l ltac:(lia) j y Hj) in Hy. done.
  - destruct (IH H1) as (i & y & Hi & Hy & Hu). exists (S i), y. split_and!; [done..|]. intros [|j] z Hj Hz; cbn in Hj; [congruence|].
    f_equal. by eapply Hu.
Qed.

Definition the_task (q : QueueState) (r : Row) (i : nat) (t : Task) : Prop :=
  tasks q !! i = Some t ∧ live t && covers (chunk t) r = true ∧
  ∀ j t', tasks q !! j = Some t' → live t' && covers (chunk t') r = true → j = i.

(** C22. In every history of calls every row of the table belongs to exactly one live task,
    the number of live tasks is [leaves] and keeps to the part limit; and unless the epoch
    was interrupted no task is lost: a live task is durable, pending, or held by the
    active attempt that claimed it. *)
Theorem snapshot_cover_exact chunks n limit q cs :
  Forall typed_chunk chunks → queue_new chunks n limit = Ok q →
  let q' := queue (run identity split_pays q cs) in
  (∀ r, ∃ i t, the_task q' r i t) ∧
  leaves q' = lsum (λ t, indicator (live t)) (tasks q') ∧ (∀ m, max_parts q' = Some m → leaves q' ≤ m) ∧
  (interrupted q' = false → ∀ i t, tasks q' !! i = Some t → live t = true → state t ≠ DurableComplete →
    i ∈ pending q' ∨ ∃ l L, lanes q' !! l = Some L ∧ active L = true ∧ owner t = Some (l, attempt L) ∧ i ∈ unfinished L).
Proof.
  intros Ht Hq. pose proof (run_inv chunks n limit q cs Ht Hq) as Hw. set (w := run _ _ q cs) in *.
  pose proof (inv_covered w Hw) as Hc. split_and!.
  - intros r. apply (indicator_unique (λ t, live t && covers (chunk t) r)), (covered_rows _ Hc r).
  - apply (covered_leaves _ Hc).
  - apply (covered_max _ Hc).
  - intros Hi i t Hti Hl Hd. pose proof (inv_good w Hw Hi) as Hg. destruct (good_tasks w Hg i t Hti) as [_ Hst].
    destruct (state t) eqn:Hs; try done.
    + left. apply (good_pending w Hg). eauto.
    + right. destruct Hst as (L & (l & ? & ? & ? & ?) & _). eauto 10.
    + right. destruct Hst as (L & (l & ? & ? & ? & ?) & _). eauto 10.
    + unfold live in Hl. by rewrite Hs in Hl.
Qed.

(** C11. A complete snapshot is exactly once: when [ensure_complete] succeeds, every row
    belongs to exactly one live task, which was read by one attempt of one lane, to its
    end, with all its rows counted; nothing was published for a task that was split; and
    every lane's markers were acknowledged, each once and in the order of publication. *)
Theorem snapshot_exactly_once chunks n limit q cs :
  Forall typed_chunk chunks → queue_new chunks n limit = Ok q →
  let w := run identity split_pays q cs in
  ensure_complete (queue w) = Ok tt →
  (∀ r, ∃ i t l a, the_task (queue w) r i t ∧ state t = DurableComplete ∧
     read l a (published_of i (log w)) ∧ rows t = lsum p_rows (published_of i (log w))) ∧
  (∀ i t, tasks (queue w) !! i = Some t → live t = false → published_of i (log w) = []) ∧
  (∀ l L, lanes (queue w) !! l = Some L → acked_by l (log w) = published_by l (log w) ∧ NoDup (published_by l (log w))).
Proof.
  intros Ht Hq w He. pose proof (run_inv chunks n limit q cs Ht Hq) as Hw. fold w in Hw. unfold ensure_complete in He.
  apply bind_Ok in He as (u & Hi%lock_ok & He). apply bind_Ok in He as ([] & Hfin%ensure_Ok & Hout%ensure_Ok).
  pose proof (inv_good w Hw Hi) as Hg. rewrite forallb_forall in Hfin, Hout. split_and!.
  - intros r. destruct (indicator_unique (λ t, live t && covers (chunk t) r) _ (covered_rows _ (inv_covered w Hw) r)) as (i & t & Hti & Hc & Hu).
    pose proof Hc as [Hl _]%andb_true_iff. assert (finished t = true) as Hf.
    { apply Hfin, list_elem_of_In. by eapply list_elem_of_lookup_2. }
    assert (state t = DurableComplete) as Hs.
    { unfold finished in Hf. unfold live in Hl. apply orb_true_iff in Hf as [Hf|Hf]; bool_inv; done. }
    destruct (good_tasks w Hg i t Hti) as [Hr Hst]. rewrite Hs in Hst. destruct Hst as (l & a & _ & Hread). by exists i, t, l, a.
  - intros i t Hti Hl. unfold live in Hl. bool_inv. destruct (good_tasks w Hg i t Hti) as [_ Hst]. by rewrite Hl in Hst.
  - intros l L HL. destruct (good_lanes w Hg l L HL) as (_ & _ & H3 & _ & H5 & _). split; [|done].
    assert (outstanding L = []) as Ho by (apply (bool_decide_eq_true (outstanding L = [])), Hout, list_elem_of_In; by eapply list_elem_of_lookup_2).
    by rewrite H3, Ho, app_nil_r.
Qed.

(** [acknowledge] accepts exactly the prefixes of the markers the attempt has handed
    out and not yet had acknowledged, in order: a repeated, foreign, reordered or invented
    marker is refused. *)
Theorem snapshot_acknowledge_exact chunks n limit q cs k e ms :
  Forall typed_chunk chunks → queue_new chunks n limit = Ok q →
  let w := run identity split_pays q cs in
  leases w !! k = Some e → closed e = false → interrupted (queue w) = false →
  ∃ L, lanes (queue w) !! lane e = Some L ∧
    published_by (lane e) (log w) = acked_by (lane e) (log w) ++ (pair (lease_attempt e) <$> outstanding L) ∧
    ((∃ q', acknowledge identity e ms (queue w) = Ok q') ↔
     ms = (λ r, Some (marker identity e r)) <$> firstn (length ms) (outstanding L)).
Proof.
  intros Ht Hq w He Hc Hi. pose proof (inv_good _ (run_inv chunks n limit q cs Ht Hq) Hi) as Hg. fold w in Hg.
  destruct (good_leases w Hg k e He Hc) as (L & HL & Ha & Ea). exists L. split; [done|]. split.
  - destruct (good_lanes w Hg _ L HL) as (_ & _ & H3 & _). by rewrite H3, Ea.
  - by apply acknowledge_ok.
Qed.

Lemma interrupted_final w cs : Inv w → interrupted (queue w) = true →
  let w' := foldl (call identity split_pays) w cs in interrupted (queue w') = true ∧ log w' = log w.
Proof.
  revert w. induction cs as [|c cs IH]; intros w Hw Hi; [done|]. cbn [foldl].
  assert (interrupted (queue (call identity split_pays w c)) = true ∧ log (call identity split_pays w c) = log w) as [Hi' Hl].
  { destruct c; cbn; unfold on_lease, open_lane, claim, emit_rows, finish_read, acknowledge.
    - by rewrite interrupted_lock.
    - destruct (leases w !! k); [|done]. by rewrite (interrupted_lock (queue w)).
    - destruct (leases w !! k); [|done]. destruct (ensure (bool_decide (0 < n)) EmptyRowMarker); [|done]. cbn [mbind result_bind].
      by rewrite (interrupted_lock (queue w)).
    - destruct (leases w !! k); [|done]. by rewrite (interrupted_lock (queue w)).
    - destruct (leases w !! k); [|done]. destruct (mapM _ _); [|done]. cbn [mbind result_bind]. by rewrite (interrupted_lock (queue w)).
    - destruct (leases w !! k) as [e|]; [|done]. unfold close. destruct (closed e); [done|]. cbn [lane].
      destruct (lanes (queue w) !! lane e); [|done]. destruct (foldl close_task _ _) as [[ts ret] amb]. cbn. by rewrite Hi. }
  destruct (IH _ (call_inv w c Hw) Hi') as [? ?]. split; [done|congruence].
Qed.

(** Work that was published and not acknowledged is never read again.  A task is read
    by at most one attempt, and to its end at most once, in every history; and an attempt
    that closes with such work aborts the epoch for good: whatever is called afterwards,
    no marker is handed out or acknowledged and the snapshot is never complete. *)
Theorem snapshot_never_replays chunks n limit q cs k e later :
  Forall typed_chunk chunks → queue_new chunks n limit = Ok q →
  let w := run identity split_pays q cs in
  leases w !! k = Some e → (close e (queue w)).2 = Err EpochAborted →
  let w' := foldl (call identity split_pays) (call identity split_pays w (Close k)) later in
  single_reader (log w') ∧ log w' = log w ∧ ensure_complete (queue w') = Err EpochInterrupted.
Proof.
  intros Ht Hq w He Hcl. pose proof (call_inv w (Close k) (run_inv chunks n limit q cs Ht Hq)) as Hw.
  assert (interrupted (queue (call identity split_pays w (Close k))) = true ∧ log (call identity split_pays w (Close k)) = log w) as [Hi Hl].
  { cbn. rewrite He. unfold close in Hcl |- *. destruct (closed e); [done|]. cbn [lane] in *.
    destruct (lanes (queue w) !! lane e); [|done]. destruct (foldl close_task _ _) as [[ts ret] amb]. cbn in *.
    destruct amb; [|done]. by rewrite orb_true_r. }
  destruct (interrupted_final _ later Hw Hi) as [Hi' Hl']. cbn zeta. split_and!.
  - rewrite Hl', Hl. apply inv_single, (run_inv chunks n limit q cs Ht Hq).
  - by rewrite Hl', Hl.
  - unfold ensure_complete. by rewrite interrupted_lock.
Qed.
End calls.

(** ** Examples

    Two page ranges and two lanes; the second range is split when the first was read. *)
Definition example_chunks : list Chunk := [{| kind := Ctid None (Some 4) 4 |}; {| kind := Ctid (Some 4) None 100 |}].
Definition example_pays (elapsed pages observed query_start : Z) : bool := bool_decide (90 ≤ pages).
Definition example_claim (i : nat) : ClaimedChunk := {| id := i; claimed_chunk := {| kind := Ctid None (Some 4) 4 |} |}.
Definition example_queue : QueueState :=
  match queue_new example_chunks 2 (Some 3) with
  | Ok q => q
  | Err _ => {| tasks := []; pending := []; lanes := []; leaves := 0; max_parts := None; interrupted := true |}
  end.
Definition example_reads : list Call :=
  [OpenLane 0; Claim 0; EmitRows 0 (example_claim 0) 0 10; FinishRead 0 (example_claim 0) 5 1;
   Claim 0; FinishRead 0 (example_claim 2) 5 1; Claim 0; EmitRows 0 (example_claim 3) 10 7].
Definition example_marker (i : nat) (s o : Z) (b : bool) : option SnapshotMarker :=
  Some {| epoch := 1; marker_lane := 0; marker_attempt := 1; record := {| task := i; sequence := s; record_offset := o; task_end := b |} |}.
Definition example_history : list Call :=
  example_reads ++ [FinishRead 0 (example_claim 3) 5 1;
    Acknowledge 0 [example_marker 0 1 10 false; example_marker 0 2 10 true; example_marker 2 3 10 true];
    Acknowledge 0 [example_marker 3 4 17 false; example_marker 3 5 17 true]; Close 0].

Lemma example_typed : Forall typed_chunk example_chunks.
Proof.
  apply Forall_cons. split; [|apply Forall_singleton].
  - split; [done|]. split; [by intros p [= <-]|done].
  - split; [by intros p [= <-]|]. done.
Qed.

Lemma snapshot_cover_exact_witness :
  let q' := queue (run 1 example_pays example_queue example_reads) in
  (∀ r, ∃ i t, the_task q' r i t) ∧ leaves q' = 3.
Proof.
  destruct (snapshot_cover_exact 1 example_pays example_chunks 2 (Some 3) example_queue example_reads example_typed) as (H1 & _);
    [vm_compute; reflexivity|]. split; [exact H1|vm_compute; reflexivity].
Defined.

Lemma snapshot_exactly_once_witness :
  let w := run 1 example_pays example_queue example_history in
  ensure_complete (queue w) = Ok tt ∧ ∀ r, ∃ i t l a, the_task (queue w) r i t ∧ state t = DurableComplete ∧
     read l a (published_of i (log w)) ∧ rows t = lsum p_rows (published_of i (log w)).
Proof.
  assert (ensure_complete (queue (run 1 example_pays example_queue example_history)) = Ok tt) as He by (vm_compute; reflexivity).
  split; [exact He|].
  apply (snapshot_exactly_once 1 example_pays example_chunks 2 (Some 3) example_queue example_history example_typed); [|exact He].
  vm_compute. reflexivity.
Defined.

Lemma snapshot_acknowledge_exact_witness :
  ∃ q', acknowledge 1 {| lane := 0; lease_attempt := 1; closed := false |} [example_marker 0 1 10 false]
    (queue (run 1 example_pays example_queue example_reads)) = Ok q'.
Proof.
  destruct (snapshot_acknowledge_exact 1 example_pays example_chunks 2 (Some 3) example_queue example_reads 0
    {| lane := 0; lease_attempt := 1; closed := false |} [example_marker 0 1 10 false] example_typed) as (L & HL & _ & Hack);
    [vm_compute; reflexivity..|].
  apply Hack. vm_compute in HL. injection HL as <-. vm_compute. reflexivity.
Defined.

Lemma snapshot_never_replays_witness :
  let w := run 1 example_pays example_queue example_reads in
  ensure_complete (queue (foldl (call 1 example_pays) (call 1 example_pays w (Close 0)) [OpenLane 0; Claim 1])) = Err EpochInterrupted.
Proof.
  apply (snapshot_never_replays 1 example_pays example_chunks 2 (Some 3) example_queue example_reads 0
    {| lane := 0; lease_attempt := 1; closed := false |} [OpenLane 0; Claim 1] example_typed); vm_compute; reflexivity.
Defined.
