(* ===== verification/SnapshotPlan.v ===== *)
(** * Planned chunks

    [chunks] of [src_batch/planner.rs]: the chunks of a decision, and that the snapshot
    queue accepts them.  The decision itself, and the layout of weighted page ranges, are
    [f64] cost estimates: a decision is any that keeps to the part counts [choose] allows,
    and the page boundaries of a weighted layout are the parameter [boundary]. *)

From stdpp Require Import base tactics numbers option sets gmap sorting list.
From S2P Require Import Prelude SnapshotQueue SnapshotCover.
Local Open Scope Z_scope.

Inductive Strategy := StrategySingle | StrategyCtid | StrategyWeightedCtid | StrategyIndexed | StrategyHashCtid.

Record Decision := {
  strategy : Strategy;
  decision_lanes : Z;
  initial_parts : Z;
  decision_max_parts : option Z;
  heap_pages : Z;
  indexed_cuts : Z
}.

Inductive PlannerError := InvalidBlockAddress | ZeroHashBuckets.

Section plan.
Context (boundary : Z → Z) (d : Decision).

Definition when {A} (b : bool) (x : A) : option A := if b then Some x else None.
Definition try_u32 (n : Z) : result PlannerError Z := ensure (bool_decide (n ≤ u32_max)) InvalidBlockAddress ≫= λ _, Ok n.
Definition try_when (b : bool) (n : Z) : result PlannerError (option Z) :=
  if b then try_u32 n ≫= λ n, Ok (Some n) else Ok None.
Definition as_u32 (n : Z) : Z := n `mod` (u32_max + 1).

Definition cut_at (b : Z) : Z := as_u32 (wrapping_sub u64_max (b * (indexed_cuts d + 1) / initial_parts d) 1).

(** The body of the loop of [chunks]; a failed [expect] is an error. *)
Definition chunk_kind (part : Z) : result PlannerError ChunkKind :=
  let count := initial_parts d in
  let first := bool_decide (part ≠ 0) in
  let inner := bool_decide (part + 1 ≠ count) in
  match strategy d with
  | StrategySingle => Ok Whole
  | StrategyCtid =>
      let b := part * heap_pages d / count in
      let e := (part + 1) * heap_pages d / count in
      try_when first b ≫= λ lower, try_when inner e ≫= λ upper, Ok (Ctid lower upper e)
  | StrategyWeightedCtid =>
      Ok (Ctid (when first (as_u32 (boundary part))) (when inner (as_u32 (boundary (part + 1)))) (boundary (part + 1)))
  | StrategyIndexed => Ok (Indexed (when first (cut_at part)) (when inner (cut_at (part + 1))))
  | StrategyHashCtid => ensure (negb (bool_decide (count = 0))) ZeroHashBuckets ≫= λ _, Ok (HashCtid part count)
  end.
Definition chunks : result PlannerError (list Chunk) :=
  mapM (λ part, chunk_kind part ≫= λ k, Ok {| kind := k |}) (seqZ 0 (initial_parts d)).

(** What [TableFacts::try_from] and [choose] guarantee of the facts and the part counts. *)
Definition planned : Prop :=
  0 ≤ heap_pages d ≤ u32_max ∧ 0 ≤ indexed_cuts d < u32_max ∧
  0 < decision_lanes d ≤ initial_parts d ∧ initial_parts d ≤ u32_max ∧
  (∀ m, decision_max_parts d = Some m → initial_parts d ≤ m) ∧
  match strategy d with
  | StrategySingle => initial_parts d = 1
  | StrategyCtid => initial_parts d ≤ Z.max (heap_pages d) 1
  | StrategyWeightedCtid => boundary 0 = 0 ∧ boundary (initial_parts d) = heap_pages d ∧
      ∀ p, 0 ≤ p < initial_parts d → boundary p < boundary (p + 1)
  | StrategyIndexed => initial_parts d ≤ indexed_cuts d + 1
  | StrategyHashCtid => True
  end.

(** ** Acceptance *)

(** The loop of [validate_initial_cover] on chunks that continue each other. *)
Lemma check_all k0 (mk : nat → Chunk) (link : nat → option Z) count n :
  (∀ i, (i < count)%nat → check_chunk count k0 (link i) (i, mk i) = Ok (link (S i))) → (n ≤ count)%nat →
  for_each (check_chunk count k0) (imap (λ j, pair (n + j)%nat) (mk <$> seq n (count - n))) (link n) = Ok (link count).
Proof.
  intros Hc Hn. remember (count - n)%nat as m eqn:Em. revert n Hn Em. induction m as [|m IH]; intros n Hn Em.
  { by replace n with count by lia. }
  cbn [seq]. rewrite fmap_cons. cbn [imap for_each]. rewrite Nat.add_0_r, Hc by lia. cbn [mbind result_bind].
  rewrite <-(IH (S n)) by lia. f_equal. apply imap_ext. intros i x _. cbn. f_equal. lia.
Qed.

Lemma accepted (mk : nat → Chunk) (link : nat → option Z) count : (0 < count)%nat → link 0%nat = None →
  (∀ i, (i < count)%nat → check_chunk count (kind (mk 0%nat)) (link i) (i, mk i) = Ok (link (S i))) →
  validate_initial_cover (mk <$> seq 0 count) = Ok tt.
Proof.
  intros Hpos H0 Hc. pose proof (check_all (kind (mk 0%nat)) mk link count 0 Hc ltac:(lia)) as Hf.
  rewrite Nat.sub_0_r, H0 in Hf. destruct count as [|count]; [lia|]. cbn [seq] in *. rewrite fmap_cons in *.
  unfold validate_initial_cover. cbn [length]. rewrite length_fmap, length_seq.
  change (imap pair (mk 0%nat :: (mk <$> seq 1 count))) with (imap (λ j, pair (0 + j)%nat) (mk 0%nat :: (mk <$> seq 1 count))).
  by rewrite Hf.
Qed.

(** Cuts between [count] parts: [None] at both ends. *)
Definition ends (count : nat) (b : Z → Z) (i : nat) : option Z :=
  if bool_decide (i = 0)%nat || bool_decide (i = count)%nat then None else Some (b (Z.of_nat i)).

Lemma ends_next count b i : (i < count)%nat →
  ends count b (S i) = if decide (S i = count) then None else Some (b (Z.of_nat (S i))).
Proof.
  intros Hi. unfold ends. rewrite (bool_decide_eq_false_2 (S i = 0)%nat) by lia. cbn [orb].
  destruct (decide (S i = count)); [by rewrite bool_decide_eq_true_2|by rewrite bool_decide_eq_false_2].
Qed.

Lemma check_ctid count k0 b est i : (i < count)%nat → is_ctid k0 = true → b 0 = 0 →
  (∀ j, (j < count)%nat → b (Z.of_nat j) ≤ est (Z.of_nat j)) →
  (∀ j, (S j < count)%nat → est (Z.of_nat j) = b (Z.of_nat (S j)) ∧ b (Z.of_nat j) < b (Z.of_nat (S j))) →
  check_chunk count k0 (ends count b i) (i, {| kind := Ctid (ends count b i) (ends count b (S i)) (est (Z.of_nat i)) |}) =
    Ok (ends count b (S i)).
Proof.
  intros Hi Hk H0 Hle Hlt. unfold check_chunk. cbn [kind]. rewrite Hk. cbn [ensure mbind result_bind].
  assert (default 0 (ends count b i) = b (Z.of_nat i)) as El.
  { unfold ends. destruct i; [done|]. rewrite !bool_decide_eq_false_2 by lia. done. }
  rewrite (bool_decide_eq_true_2 (ends count b i = ends count b i)) by done. rewrite El.
  assert (negb (bool_decide (i = 0)%nat) || is_none (ends count b i) = true) as ->.
  { unfold ends. case_bool_decide; [|done]. done. }
  specialize (Hle i Hi). rewrite (ends_next count b i Hi). replace (i + 1)%nat with (S i) by lia.
  destruct (decide (S i = count)) as [E|E].
  - rewrite (bool_decide_eq_true_2 (S i = count)) by done. cbn. by rewrite bool_decide_eq_true_2.
  - destruct (Hlt i ltac:(lia)) as [Ee Hb]. rewrite (bool_decide_eq_false_2 (S i = count)) by done. cbn.
    rewrite (bool_decide_eq_true_2 (b (Z.of_nat i) ≤ b (Z.of_nat (S i)))) by lia. cbn.
    rewrite (bool_decide_eq_true_2 (b (Z.of_nat i) < b (Z.of_nat (S i)))) by lia. done.
Qed.

Lemma check_indexed count k0 b i : (i < count)%nat → is_indexed k0 = true →
  (∀ j, (0 < j)%nat → (S j < count)%nat → b (Z.of_nat j) < b (Z.of_nat (S j))) →
  check_chunk count k0 (ends count b i) (i, {| kind := Indexed (ends count b i) (ends count b (S i)) |}) = Ok (ends count b (S i)).
Proof.
  intros Hi Hk Hlt. unfold check_chunk. cbn [kind]. rewrite Hk. cbn [ensure mbind result_bind].
  rewrite (bool_decide_eq_true_2 (ends count b i = ends count b i)) by done.
  assert (negb (bool_decide (i = 0)%nat) || is_none (ends count b i) = true) as ->.
  { unfold ends. case_bool_decide; [|done]. done. }
  assert (bool_decide (is_none (ends count b (S i)) = bool_decide (i + 1 = count)%nat) = true) as ->.
  { apply bool_decide_eq_true. unfold ends. rewrite (bool_decide_eq_false_2 (S i = 0)%nat) by lia.
    replace (i + 1)%nat with (S i) by lia. cbn. by case_bool_decide. }
  cbn [andb ensure mbind result_bind].
  assert (match ends count b i, ends count b (S i) with Some l, Some u => bool_decide (l < u) | _, _ => true end = true) as ->; [|done].
  unfold ends. repeat case_bool_decide; cbn; try done. apply bool_decide_eq_true. apply Hlt; lia.
Qed.

Lemma mapM_seqZ {B} (f : Z → result PlannerError B) (g : nat → B) n :
  (∀ i, (i < Z.to_nat n)%nat → f (Z.of_nat i) = Ok (g i)) → mapM f (seqZ 0 n) = Ok (g <$> seq 0 (Z.to_nat n)).
Proof.
  intros Hf. apply mapM_Ok. unfold seqZ. apply Forall2_fmap, Forall_Forall2_diag, Forall_forall. intros i [_ Hi]%elem_of_seq.
  rewrite Z.add_0_r. by apply Hf.
Qed.

Lemma when_ends count (b : Z → Z) i : (i < count)%nat → when (bool_decide (Z.of_nat i ≠ 0)) (b (Z.of_nat i)) = ends count b i.
Proof.
  intros Hi. unfold ends, when. rewrite (bool_decide_eq_false_2 (i = count)) by lia. rewrite orb_false_r.
  repeat case_bool_decide; (done || lia).
Qed.
Lemma when_ends_next count (b : Z → Z) i : (i < count)%nat →
  when (bool_decide (Z.of_nat i + 1 ≠ Z.of_nat count)) (b (Z.of_nat i + 1)) = ends count b (S i).
Proof.
  intros Hi. rewrite ends_next by done. replace (Z.of_nat i + 1) with (Z.of_nat (S i)) by lia. unfold when.
  destruct (decide (S i = count)) as [E|E]; [rewrite bool_decide_eq_false_2; [done|lia]|rewrite bool_decide_eq_true_2; [done|lia]].
Qed.
Lemma ends_u32 count b i : (i ≤ count)%nat → (∀ j, (0 < j < count)%nat → 0 ≤ b (Z.of_nat j) ≤ u32_max) → u32 (ends count b i).
Proof. intros Hi Hb p. unfold ends. repeat case_bool_decide; cbn; try done. intros [= <-]. apply Hb. lia. Qed.

(** The accepted chunks of a decision, once its chunks are known. *)
Lemma plan_accepted (mk : nat → Chunk) (link : nat → option Z) : planned → let count := Z.to_nat (initial_parts d) in
  (∀ i, (i < count)%nat → chunk_kind (Z.of_nat i) = Ok (kind (mk i))) → link 0%nat = None →
  (∀ i, (i < count)%nat → check_chunk count (kind (mk 0%nat)) (link i) (i, mk i) = Ok (link (S i))) →
  (∀ i, (i < count)%nat → typed_chunk (mk i)) →
  ∃ cs q, chunks = Ok cs ∧ Forall typed_chunk cs ∧ queue_new cs (decision_lanes d) (decision_max_parts d) = Ok q.
Proof.
  intros (_ & _ & Hl & _ & Hm & _) count Hk H0 Hc Ht. exists (mk <$> seq 0 count). eexists.
  assert (Z.of_nat (length (mk <$> seq 0 count)) = initial_parts d) as Hlen by (rewrite length_fmap, length_seq; lia).
  split; [|split].
  - apply mapM_seqZ. intros i Hi. rewrite (Hk i Hi). cbn. by destruct (mk i).
  - apply Forall_fmap, Forall_forall. intros i [_ Hi]%elem_of_seq. by apply Ht.
  - unfold queue_new. rewrite Hlen, (bool_decide_eq_false_2 (_ = [])).
    2:{ intros E. rewrite E in Hlen. cbn in Hlen. lia. }
    rewrite !(bool_decide_eq_true_2 (_ < _)), (bool_decide_eq_true_2 (_ ≤ _)) by lia. cbn.
    assert (match decision_max_parts d with Some m => bool_decide (initial_parts d ≤ m) | None => true end = true) as ->.
    { destruct (decision_max_parts d) as [m|]; [|done]. apply bool_decide_eq_true. by apply Hm. }
    cbn. rewrite (accepted mk link count) by (done || lia). done.
Qed.

Lemma page_cut_range p : planned → 0 ≤ p ≤ initial_parts d → 0 ≤ p * heap_pages d / initial_parts d ≤ heap_pages d.
Proof.
  intros (Hp & _ & Hl & _) Hr. split; [apply Z.div_pos; nia|]. apply Z.div_le_upper_bound; nia.
Qed.

Lemma ctid_accepted : planned → strategy d = StrategyCtid →
  ∃ cs q, chunks = Ok cs ∧ Forall typed_chunk cs ∧ queue_new cs (decision_lanes d) (decision_max_parts d) = Ok q.
Proof.
  intros Hp Hs. pose proof Hp as (Hh & _ & Hl & Hu & _ & Hst). rewrite Hs in Hst. set (count := Z.to_nat (initial_parts d)).
  set (b := λ p, p * heap_pages d / initial_parts d). assert (initial_parts d = Z.of_nat count) as Hc by lia.
  assert (∀ p, 0 ≤ p ≤ initial_parts d → 0 ≤ b p ≤ u32_max) as Hb by (intros p Hr; pose proof (page_cut_range p Hp Hr); subst b; cbn; lia).
  apply (plan_accepted (λ i, {| kind := Ctid (ends count b i) (ends count b (S i)) (b (Z.of_nat i + 1)) |}) (ends count b) Hp); [| |intros i Hi|].
  - intros i Hi. fold count in Hi. unfold chunk_kind. rewrite Hs. cbn [kind].
    assert (∀ c x, 0 ≤ x ≤ initial_parts d → try_when c (b x) = Ok (when c (b x))) as Htw.
    { intros [] x Hx; [|done]. unfold try_when, try_u32. by rewrite bool_decide_eq_true_2 by (by apply Hb). }
    change (Z.of_nat i * heap_pages d / initial_parts d) with (b (Z.of_nat i)).
    change ((Z.of_nat i + 1) * heap_pages d / initial_parts d) with (b (Z.of_nat i + 1)).
    rewrite !Htw by lia. cbn [mbind result_bind]. rewrite Hc, (when_ends count), (when_ends_next count) by done. done.
  - done.
  - fold count in Hi |- *. apply (check_ctid count _ b (λ z, b (z + 1))); [done|done|subst b; cbn; apply Z.div_0_l; lia|..].
    + intros j Hj. subst b. cbn. apply Z.div_le_mono; nia.
    + intros j Hj. rewrite Nat2Z.inj_succ. unfold Z.succ. split; [done|]. subst b. cbn.
      assert (Z.of_nat j * heap_pages d / initial_parts d + 1 ≤ (Z.of_nat j + 1) * heap_pages d / initial_parts d); [|lia].
      rewrite <-(Z.div_add _ 1) by lia. apply Z.div_le_mono; nia.
  - intros i Hi. fold count in Hi. split; [|split].
    + apply ends_u32; [lia|]. intros j Hj. apply Hb. lia.
    + apply ends_u32; [lia|]. intros j Hj. apply Hb. lia.
    + pose proof (Hb (Z.of_nat i + 1)). unfold u32_max, u64_max in *. lia.
Qed.

Lemma weighted_range : planned → strategy d = StrategyWeightedCtid → ∀ n, (n ≤ Z.to_nat (initial_parts d))%nat →
  0 ≤ boundary (Z.of_nat n) ≤ heap_pages d.
Proof.
  intros (_ & _ & Hl & _ & _ & Hst) Hs. rewrite Hs in Hst. destruct Hst as (H0 & Hn & Hlt). intros n Hle. split.
  - induction n as [|n IH]; [change (Z.of_nat 0) with 0; lia|]. specialize (Hlt (Z.of_nat n)). replace (Z.of_nat (S n)) with (Z.of_nat n + 1) by lia. lia.
  - remember (Z.to_nat (initial_parts d) - n)%nat as m eqn:Em. revert n Hle Em. induction m as [|m IH]; intros n Hle Em.
    + replace (Z.of_nat n) with (initial_parts d) by lia. lia.
    + specialize (IH (S n) ltac:(lia) ltac:(lia)). specialize (Hlt (Z.of_nat n)). replace (Z.of_nat (S n)) with (Z.of_nat n + 1) in IH by lia. lia.
Qed.

Lemma weighted_accepted : planned → strategy d = StrategyWeightedCtid →
  ∃ cs q, chunks = Ok cs ∧ Forall typed_chunk cs ∧ queue_new cs (decision_lanes d) (decision_max_parts d) = Ok q.
Proof.
  intros Hp Hs. pose proof (weighted_range Hp Hs) as Hb. pose proof Hp as (Hh & _ & Hl & Hu & _ & Hst). rewrite Hs in Hst.
  destruct Hst as (H0 & Hn & Hlt). set (count := Z.to_nat (initial_parts d)) in *. assert (initial_parts d = Z.of_nat count) as Hc by lia.
  set (b := λ p, as_u32 (boundary p)).
  assert (∀ n, (n ≤ count)%nat → b (Z.of_nat n) = boundary (Z.of_nat n)) as Eb.
  { intros n Hle. subst b. cbn. unfold as_u32. rewrite Z.mod_small; [done|]. specialize (Hb n Hle). lia. }
  apply (plan_accepted (λ i, {| kind := Ctid (ends count b i) (ends count b (S i)) (boundary (Z.of_nat i + 1)) |}) (ends count b) Hp); [| |intros i Hi|].
  - intros i Hi. fold count in Hi. unfold chunk_kind. rewrite Hs. cbn [kind].
    change (as_u32 (boundary (Z.of_nat i))) with (b (Z.of_nat i)). change (as_u32 (boundary (Z.of_nat i + 1))) with (b (Z.of_nat i + 1)).
    by rewrite Hc, (when_ends count), (when_ends_next count) by done.
  - done.
  - fold count in Hi |- *. apply (check_ctid count _ b (λ z, boundary (z + 1))); [done|done|change 0 with (Z.of_nat 0); by rewrite Eb by lia|..].
    + intros j Hj. rewrite Eb by lia. specialize (Hlt (Z.of_nat j)). lia.
    + intros j Hj. rewrite !Eb by lia. replace (Z.of_nat (S j)) with (Z.of_nat j + 1) by lia. split; [done|]. apply Hlt. lia.
  - intros i Hi. fold count in Hi. split; [|split].
    + apply ends_u32; [lia|]. intros j Hj. rewrite Eb by lia. specialize (Hb j). lia.
    + apply ends_u32; [lia|]. intros j Hj. rewrite Eb by lia. specialize (Hb j). lia.
    + replace (Z.of_nat i + 1) with (Z.of_nat (S i)) by lia. specialize (Hb (S i)). unfold u32_max, u64_max in *. lia.
Qed.

Lemma cut_at_ok p : planned → strategy d = StrategyIndexed → 1 ≤ p < initial_parts d →
  cut_at p = p * (indexed_cuts d + 1) / initial_parts d - 1 ∧ 0 ≤ cut_at p ≤ u32_max.
Proof.
  intros (_ & Hcuts & Hl & _ & _ & Hst) Hs Hr. rewrite Hs in Hst.
  assert (1 ≤ p * (indexed_cuts d + 1) / initial_parts d ≤ indexed_cuts d) as Hq.
  { split; [apply Z.div_le_lower_bound; nia|]. apply Z.lt_succ_r. apply Z.div_lt_upper_bound; nia. }
  unfold cut_at, as_u32. rewrite wrapping_sub_small by (unfold u32_max, u64_max in *; lia).
  rewrite Z.mod_small by lia. lia.
Qed.

Lemma indexed_accepted : planned → strategy d = StrategyIndexed →
  ∃ cs q, chunks = Ok cs ∧ Forall typed_chunk cs ∧ queue_new cs (decision_lanes d) (decision_max_parts d) = Ok q.
Proof.
  intros Hp Hs. pose proof Hp as (_ & Hcuts & Hl & Hu & _ & Hst). rewrite Hs in Hst. set (count := Z.to_nat (initial_parts d)).
  assert (initial_parts d = Z.of_nat count) as Hc by lia.
  assert (∀ i, (i < count)%nat → typed_chunk {| kind := Indexed (ends count cut_at i) (ends count cut_at (S i)) |}) as Ht.
  { intros i Hi. split; apply ends_u32; try lia; intros j Hj; apply cut_at_ok; try done; lia. }
  apply (plan_accepted (λ i, {| kind := Indexed (ends count cut_at i) (ends count cut_at (S i)) |}) (ends count cut_at) Hp); [| |intros i Hi|done].
  - intros i Hi. fold count in Hi. unfold chunk_kind. rewrite Hs. cbn [kind].
    by rewrite Hc, (when_ends count), (when_ends_next count) by done.
  - done.
  - fold count in Hi |- *. apply check_indexed; [done|done|]. intros j Hj1 Hj2.
    destruct (cut_at_ok (Z.of_nat j) Hp Hs) as [-> _]; [lia|]. destruct (cut_at_ok (Z.of_nat (S j)) Hp Hs) as [-> _]; [lia|].
    replace (Z.of_nat (S j)) with (Z.of_nat j + 1) by lia.
    assert (Z.of_nat j * (indexed_cuts d + 1) / initial_parts d + 1 ≤ (Z.of_nat j + 1) * (indexed_cuts d + 1) / initial_parts d); [|lia].
    rewrite <-(Z.div_add _ 1) by lia. apply Z.div_le_mono; nia.
Qed.

(** The chunks of every planned decision are accepted by the snapshot queue, whatever
    the strategy: descriptors and validation agree, no conversion fails, and the queue
    that results covers every row (with the theorem on histories).  For weighted page
    ranges this needs the boundaries of the layout to increase. *)
Theorem planned_chunks_accepted : planned →
  ∃ cs q, chunks = Ok cs ∧ Forall typed_chunk cs ∧ queue_new cs (decision_lanes d) (decision_max_parts d) = Ok q.
Proof.
  intros Hp. destruct (strategy d) eqn:Hs; [|by apply ctid_accepted|by apply weighted_accepted|by apply indexed_accepted|].
  - pose proof Hp as (_ & _ & _ & _ & _ & Hst). rewrite Hs in Hst.
    apply (plan_accepted (λ _, {| kind := Whole |}) (λ _, None) Hp); try done.
    + intros i _. unfold chunk_kind. by rewrite Hs.
    + rewrite Hst. done.
  - pose proof Hp as (_ & _ & Hl & Hu & _ & _). set (count := Z.to_nat (initial_parts d)).
    apply (plan_accepted (λ i, {| kind := HashCtid (Z.of_nat i) (initial_parts d) |}) (λ _, None) Hp); try done.
    + intros i _. unfold chunk_kind. rewrite Hs, bool_decide_eq_false_2 by lia. done.
    + intros i Hi. unfold check_chunk. cbn. rewrite !bool_decide_eq_true_2 by lia. done.
    + intros i Hi. unfold typed_chunk. cbn. lia.
Qed.
End plan.

(** Ten indexed cuts, four parts, three lanes. *)
Definition example_decision : Decision :=
  {| strategy := StrategyIndexed; decision_lanes := 3; initial_parts := 4; decision_max_parts := Some 8;
     heap_pages := 1000; indexed_cuts := 10 |}.
Lemma planned_chunks_accepted_witness :
  ∃ cs q, chunks (λ _, 0) example_decision = Ok cs ∧ Forall typed_chunk cs ∧ queue_new cs 3 (Some 8) = Ok q.
Proof.
  apply (planned_chunks_accepted (λ _, 0) example_decision).
  split_and!; cbn; unfold u32_max; try lia; try done. by intros m [= <-].
Defined.
