(* ===== verification/Durable.v ===== *)
(** * Durable storage

    [transferia-registry/src/durable.rs]: revisioned key/value records in local files,
    replaced with compare-and-exchange.  A process holds a mutex and a file lock during an
    operation, so a history of any number of processes is a sequence of operations.

    The file system has names (a directory's entries), directories, and inodes with bytes.
    A crash keeps the bytes of synced inodes, and each name as it is or as it was when its
    directory was last synced; a directory whose own entry was never synced may be lost with
    all it holds.  [rename] replaces a name at once.  [Fault] says which system call of an
    operation fails; a [create_dir_all] that fails is a failure of the call after it.
    [murmur3] is an interface. *)

From Stdlib Require Import Ascii.
From stdpp Require Import base tactics numbers option strings pretty gmap list.
From S2P Require Import Prelude Bytes.
Local Open Scope Z_scope.

Record DurableValue := { revision : Z (* u64 *); payload : list Z }.
#[export] Instance DurableValue_eq_dec : EqDecision DurableValue.
Proof. solve_decision. Defined.

Inductive CompareExchangeResult := Applied (v : DurableValue) | Conflict (v : option DurableValue).

Inductive DurableError :=
| IoError | AlreadyExists | BadComponentLength | BadComponentBytes | InvalidHeader | LengthOverflow | InvalidPayloadLength
| ChecksumMismatch | RevisionOverflow | LeaseHeld | EmptyPath.

Definition MAGIC : list Z := string_bytes "TRFDUR02".
Definition CHECKSUM_BYTES : nat := 16.

(** ** Keys and paths

    A path is its list of components. *)
Abbreviation Path := (list string) (only parsing).

Definition component_byte (b : Z) : bool :=
  bool_decide (48 ≤ b ≤ 57) || bool_decide (65 ≤ b ≤ 90) || bool_decide (97 ≤ b ≤ 122) ||
  bool_decide (b ∈ [45; 95; 46]).
Definition validate_component (value : string) : result DurableError unit :=
  ensure (negb (bool_decide (value = "")) && bool_decide (length (string_bytes value) ≤ 128)%nat) BadComponentLength ≫= λ _,
  ensure (forallb component_byte (string_bytes value)) BadComponentBytes.

(** [Path::file_stem] of a file name other than [..]. *)
Definition file_stem (name : string) : string :=
  let before := String.concat "." (removelast (split_on "." name)) in
  if bool_decide (before = "") then name else before.

(** A path without its trailing [.] components, which [Path] ignores. *)
Fixpoint drop_dots (reversed : list string) : list string :=
  match reversed with
  | c :: rest => if bool_decide (c = ".") then drop_dots rest else reversed
  | [] => []
  end.
(** [Path::file_name]: none for [..]. *)
Definition file_name (p : Path) : option string :=
  match drop_dots (reverse p) with
  | c :: _ => if bool_decide (c = "..") then None else Some c
  | [] => None
  end.
(** [Path::with_extension]. *)
Definition with_extension (p : Path) (extension : string) : Path :=
  match file_name p with
  | Some name => reverse (drop 1 (drop_dots (reverse p))) ++ [file_stem name +:+ "." +:+ extension]
  | None => p
  end.

Definition key_path (root : Path) (key : string) : result DurableError Path :=
  for_each (λ p component, validate_component component ≫= λ _, Ok (p ++ [component])) (split_on "/" key) root ≫= λ p,
  Ok (with_extension p "state").

(** The temporary file of a write. *)
Definition temporary (p : Path) (process sequence : Z) : Path :=
  removelast p ++ ["." +:+ default "state" (file_name p) +:+ "." +:+ pretty process +:+ "." +:+ pretty sequence +:+ ".tmp"].

(** ** The file format *)
Class Murmur3 := { murmur3_x64_128 : list Z → Z }.

Section format.
Context `{Murmur3}.

Definition durable_checksum (bytes : list Z) : list Z := le_bytes CHECKSUM_BYTES (murmur3_x64_128 bytes).

Definition encode_value (v : DurableValue) : list Z :=
  let bytes := MAGIC ++ le_bytes 8 (revision v) ++ le_bytes 8 (Z.of_nat (length (payload v))) ++ payload v in
  bytes ++ durable_checksum bytes.

Definition decode_value (bytes : list Z) : result DurableError DurableValue :=
  ensure (bool_decide (length MAGIC + 16 + CHECKSUM_BYTES ≤ length bytes)%nat && bool_decide (firstn 8 bytes = MAGIC))
    InvalidHeader ≫= λ _,
  let rev := from_le_bytes (firstn 8 (drop 8 bytes)) in
  let payload_len := from_le_bytes (firstn 8 (drop 16 bytes)) in
  ok_or (checked_add usize_max 24 payload_len) LengthOverflow ≫= λ payload_end,
  ensure (bool_decide (wrapping_add usize_max payload_end (Z.of_nat CHECKSUM_BYTES) = Z.of_nat (length bytes)))
    InvalidPayloadLength ≫= λ _,
  let n := Z.to_nat payload_end in
  ensure (bool_decide (durable_checksum (firstn n bytes) = drop n bytes)) ChecksumMismatch ≫= λ _,
  Ok {| revision := rev; payload := drop 24 (firstn n bytes) |}.
End format.

(** ** The disk *)
Record Disk := {
  names : gmap (list string) nat;
  dnames : gmap (list string) nat;     (* as of the last sync of the directory *)
  data : gmap nat (list Z);
  stable : gset nat;                    (* synced since the last write *)
  dirs : gset (list string);
  ddirs : gset (list string)            (* with an entry their parent synced *)
}.

Inductive Fault :=
| NoFault | FailLock | FailRead | FailCreate | FailWrite (written : nat) | FailSync | FailRename | FailSyncDir | FailUnlock.
#[export] Instance Fault_eq_dec : EqDecision Fault.
Proof. solve_decision. Defined.

Definition create_new (d : Disk) (p : Path) (i : nat) : Disk :=
  {| names := <[p := i]> (names d); dnames := dnames d; data := <[i := []]> (data d); stable := stable d ∖ {[ i ]};
     dirs := dirs d; ddirs := ddirs d |}.
Definition write_all (d : Disk) (i : nat) (bytes : list Z) : Disk :=
  {| names := names d; dnames := dnames d; data := <[i := bytes]> (data d); stable := stable d ∖ {[ i ]};
     dirs := dirs d; ddirs := ddirs d |}.
Definition sync_all (d : Disk) (i : nat) : Disk :=
  {| names := names d; dnames := dnames d; data := data d; stable := {[ i ]} ∪ stable d;
     dirs := dirs d; ddirs := ddirs d |}.
Definition rename (d : Disk) (from to : Path) (i : nat) : Disk :=
  {| names := <[to := i]> (delete from (names d)); dnames := dnames d; data := data d; stable := stable d;
     dirs := dirs d; ddirs := ddirs d |}.
Definition parent (p : Path) : Path := removelast p.
(** The directories from the root to [p]. *)
Definition ancestors (p : Path) : list Path := (λ n, firstn (S n) p) <$> seq 0 (length p).
(** [std::fs::create_dir_all] *)
Definition create_dir_all (d : Disk) (p : Path) : Disk :=
  {| names := names d; dnames := dnames d; data := data d; stable := stable d;
     dirs := list_to_set (ancestors p) ∪ dirs d; ddirs := ddirs d |}.
Definition sync_dir (d : Disk) (dir : Path) : Disk :=
  {| names := names d;
     dnames := filter (λ e, parent e.1 = dir) (names d) ∪ filter (λ e, parent e.1 ≠ dir) (dnames d);
     data := data d; stable := stable d;
     dirs := dirs d; ddirs := filter (λ q, parent q = dir) (dirs d) ∪ ddirs d |}.
Definition fresh_inode (d : Disk) : nat := fresh (dom (data d) ∪ map_img (names d) ∪ map_img (dnames d)).

Section storage.
Context `{Murmur3}.

Definition read_file (d : Disk) (p : Path) (f : Fault) : result DurableError (option DurableValue) :=
  if bool_decide (f = FailRead) then Err IoError
  else match names d !! p with
       | None => Ok None
       | Some i => decode_value (default [] (data d !! i)) ≫= λ v, Ok (Some v)
       end.

(** [write_file]; [process] and [sequence] name the temporary file. *)
Definition write_file (d : Disk) (p : Path) (v : DurableValue) (process sequence : Z) (f : Fault)
    : Disk * result DurableError unit :=
  let d := create_dir_all d (parent p) in
  let tmp := temporary p process sequence in
  let i := fresh_inode d in
  let bytes := encode_value v in
  if bool_decide (f = FailCreate) then (d, Err IoError)
  else if bool_decide (is_Some (names d !! tmp)) then (d, Err AlreadyExists)
  else
    let d := create_new d tmp i in
    match f with
    | FailWrite written => (write_all d i (firstn written bytes), Err IoError)
    | _ =>
        let d := write_all d i bytes in
        if bool_decide (f = FailSync) then (d, Err IoError) else
        let d := sync_all d i in
        if bool_decide (f = FailRename) then (d, Err IoError) else
        let d := rename d tmp p i in
        if bool_decide (f = FailSyncDir) then (d, Err IoError) else
        (sync_dir d (parent p), Ok tt)
    end.

(** [with_file_lock]: an error of [unlock] replaces the result. *)
Definition with_file_lock {A} (root : Path) (d : Disk) (f : Fault) (operation : Disk → Disk * result DurableError A)
    : Disk * result DurableError A :=
  let d := create_dir_all d root in
  if bool_decide (f = FailLock) then (d, Err IoError)
  else
    let '(d, r) := operation d in
    if bool_decide (f = FailUnlock) then (d, Err IoError) else (d, r).

Definition storage_read (root : Path) (d : Disk) (key : string) (f : Fault) : result DurableError (option DurableValue) :=
  key_path root key ≫= λ p, (with_file_lock root d f (λ d, (d, read_file d p f))).2.

Definition next_revision (expected : option Z) : result DurableError Z :=
  match expected with
  | Some r => ok_or (checked_add u64_max r 1) RevisionOverflow
  | None => Ok 0
  end.

(** The operation of [compare_exchange] under the lock. *)
Definition exchange (d : Disk) (p : Path) (expected : option Z) (bytes : list Z) (process sequence : Z) (f : Fault)
    : Disk * result DurableError CompareExchangeResult :=
  match read_file d p f with
  | Err e => (d, Err e)
  | Ok current =>
      if negb (bool_decide (revision <$> current = expected)) then (d, Ok (Conflict current))
      else match next_revision expected with
      | Err e => (d, Err e)
      | Ok r =>
          let v := {| revision := r; payload := bytes |} in
          let '(d, w) := write_file d p v process sequence f in
          (d, w ≫= λ _, Ok (Applied v))
      end
  end.
Definition storage_compare_exchange (root : Path) (d : Disk) (key : string) (expected : option Z) (bytes : list Z)
    (process sequence : Z) (f : Fault) : Disk * result DurableError CompareExchangeResult :=
  match key_path root key with
  | Err e => (d, Err e)
  | Ok p => with_file_lock root d f (λ d, exchange d p expected bytes process sequence f)
  end.
End storage.

(** Every directory from the root to the file has a synced entry. *)
Definition sheltered (d : Disk) (p : Path) : Prop := Forall (λ q, q ∈ ddirs d) (ancestors (parent p)).
#[export] Instance sheltered_dec d p : Decision (sheltered d p).
Proof. unfold sheltered. apply _. Defined.

(** After a crash: every name is the current or the synced one, or gone with a directory
    that was not synced; synced bytes and directories are kept. *)
Definition crash (d d' : Disk) : Prop :=
  (∀ p, names d' !! p = names d !! p ∨ names d' !! p = dnames d !! p ∨ ¬ sheltered d p ∧ names d' !! p = None) ∧
  (∀ i, i ∈ stable d → i ∈ stable d' ∧ data d' !! i = data d !! i) ∧
  (∀ p, Forall (λ q, q ∈ ddirs d) (ancestors p) → p ∈ dirs d → p ∈ dirs d') ∧
  dnames d' = names d' ∧ ddirs d' = dirs d'.
(** Every file is in directories that are synced. *)
Definition housed (d : Disk) : Prop := ∀ p, is_Some (names d !! p) → sheltered d p.

(** ** Leases

    The lease file of a key is locked by at most one process; the kernel drops the lock
    when the process ends.  [holders] are the locked lease files. *)
Definition acquire_execution_lease (holders : gmap string Z) (key : string) (process : Z) (f : Fault)
    : gmap string Z * result DurableError unit :=
  match validate_component key with
  | Err e => (holders, Err e)
  | Ok _ =>
      if bool_decide (f = FailLock) then (holders, Err IoError)
      else if bool_decide (is_Some (holders !! key)) then (holders, Err LeaseHeld)
      else (<[key := process]> holders, Ok tt)
  end.
Definition drop_lease (holders : gmap string Z) (key : string) : gmap string Z := delete key holders.

(** ** Configuration *)
Inductive DurableStorageConfig := LocalFile (path : Path).
Record DurableContext := { delivery_id : string; storage_root : Path; resource_root : Path }.
Definition RESOURCE_NAMESPACE_DIRECTORY : string := "@resources".
Definition config_validate (c : DurableStorageConfig) : result DurableError unit :=
  match c with LocalFile path => ensure (negb (bool_decide (path = []))) EmptyPath end.
Definition config_build (c : DurableStorageConfig) (delivery : string) : result DurableError DurableContext :=
  config_validate c ≫= λ _,
  validate_component delivery ≫= λ _,
  match c with LocalFile path =>
    Ok {| delivery_id := delivery; storage_root := path ++ [delivery]; resource_root := path ++ [RESOURCE_NAMESPACE_DIRECTORY] |}
  end.

(** ** The format is read back exactly *)
Definition typed (v : DurableValue) : Prop :=
  0 ≤ revision v ≤ u64_max ∧ Forall byte (payload v) ∧ Z.of_nat (length (payload v)) + 40 ≤ usize_max.

Section format_proofs.
Context `{Murmur3}.

Lemma length_durable_checksum b : length (durable_checksum b) = 16%nat.
Proof. apply length_le_bytes. Qed.

Lemma le8_roundtrip z : 0 ≤ z ≤ u64_max → from_le_bytes (le_bytes 8 z) = z.
Proof. intros. rewrite from_le_le. change (256 ^ Z.of_nat 8) with (u64_max + 1). apply Z.mod_small. lia. Qed.

(** The four fields of a record's bytes. *)
Lemma decode_fields m r n b c :
  length m = 8%nat → length r = 8%nat → length n = 8%nat → length c = 16%nat →
  from_le_bytes n = Z.of_nat (length b) → Z.of_nat (length b) + 40 ≤ usize_max →
  decode_value ((m ++ r ++ n ++ b) ++ c) =
    (ensure (bool_decide (m = MAGIC)) InvalidHeader ≫= λ _,
     ensure (bool_decide (durable_checksum (m ++ r ++ n ++ b) = c)) ChecksumMismatch ≫= λ _,
     Ok {| revision := from_le_bytes r; payload := b |}).
Proof.
  intros Hm Hr Hn Hc En Hb. unfold decode_value.
  assert (length ((m ++ r ++ n ++ b) ++ c) = 40 + length b)%nat as Hl by (rewrite !length_app; lia).
  rewrite bool_decide_eq_true_2 by (rewrite Hl; change (length MAGIC) with 8%nat; unfold CHECKSUM_BYTES; lia).
  replace (firstn 8 ((m ++ r ++ n ++ b) ++ c)) with m by (by rewrite <-!app_assoc, take_app_length').
  cbn [andb]. case_bool_decide; [|done]. cbn [ensure mbind result_bind].
  replace (firstn 8 (drop 8 _)) with r by (by rewrite <-!app_assoc, drop_app_length', take_app_length').
  replace (firstn 8 (drop 16 _)) with n.
  2: { rewrite <-!app_assoc, (app_assoc m), drop_app_length', take_app_length'; rewrite ?length_app; (done || lia). }
  rewrite En. assert (checked_add usize_max 24 (Z.of_nat (length b)) = Some (24 + Z.of_nat (length b))) as ->
    by (apply checked_add_Some; lia). cbn [ok_or mbind result_bind].
  rewrite wrapping_add_small by (unfold CHECKSUM_BYTES; lia).
  rewrite (bool_decide_eq_true_2 (_ = Z.of_nat _)) by (rewrite Hl; unfold CHECKSUM_BYTES; lia). cbn [ensure mbind result_bind].
  assert (Z.to_nat (24 + Z.of_nat (length b)) = length (m ++ r ++ n ++ b)) as Hn' by (rewrite !length_app; lia).
  rewrite Hn', take_app_length, drop_app_length.
  replace (drop 24 (m ++ r ++ n ++ b)) with b; [done|].
  rewrite !app_assoc, drop_app_length'; rewrite ?length_app; (done || lia).
Qed.

(** A record is read back as it was written. *)
Lemma decode_encode v : typed v → decode_value (encode_value v) = Ok v.
Proof.
  intros (Hr & _ & Hl). destruct v as [r b]. unfold encode_value. cbn [revision payload] in *.
  rewrite decode_fields; rewrite ?length_le_bytes, ?length_durable_checksum; try done.
  - rewrite le8_roundtrip by done. by rewrite !bool_decide_eq_true_2.
  - apply le8_roundtrip. unfold usize_max in Hl. lia.
Qed.

(** Only the bytes of a record are accepted. *)
Lemma decode_exact bytes v :
  Forall byte bytes → Z.of_nat (length bytes) ≤ usize_max → decode_value bytes = Ok v → bytes = encode_value v ∧ typed v.
Proof.
  intros Hb Hlen D.
  assert (length MAGIC + 16 + CHECKSUM_BYTES ≤ length bytes)%nat as Hlow.
  { unfold decode_value in D. case_bool_decide as Hle; [done|discriminate D]. }
  change (40 ≤ length bytes)%nat in Hlow.
  set (m := firstn 8 bytes). set (r := firstn 8 (drop 8 bytes)). set (n := firstn 8 (drop 16 bytes)).
  assert (∃ k, (k + 40 = length bytes)%nat ∧ from_le_bytes n = Z.of_nat k) as (k & Hk & En).
  { unfold decode_value in D. fold n in D.
    assert (Forall byte n) as Hn by (by apply Forall_take, Forall_drop).
    assert (length n = 8)%nat as Hn8 by (unfold n; rewrite length_take, length_drop; lia).
    pose proof (from_le_range n Hn) as Hr. rewrite Hn8 in Hr. change (256 ^ Z.of_nat 8) with (usize_max + 1) in Hr.
    res_inv. bool_inv. match goal with C : checked_add _ _ _ = Some _ |- _ => apply checked_add_Some in C as [-> ?] end.
    match goal with W : wrapping_add _ _ _ = _ |- _ => rename W into Hw end.
    exists (length bytes - 40)%nat. split; [lia|]. revert Hw. unfold wrapping_add, CHECKSUM_BYTES.
    destruct (decide (24 + from_le_bytes n + Z.of_nat 16 ≤ usize_max)) as [Hs|Hs].
    - rewrite Z.mod_small by lia. lia.
    - intros W. exfalso.
      rewrite <-(Z.mod_unique _ (usize_max + 1) 1 (24 + from_le_bytes n + Z.of_nat 16 - (usize_max + 1))) in W
        by (unfold usize_max, u64_max in *; lia).
      lia. }
  set (b := firstn k (drop 24 bytes)). set (c := drop (24 + k) bytes).
  assert (bytes = (m ++ r ++ n ++ b) ++ c) as Hsplit.
  { unfold m, r, n, b, c. symmetry. rewrite <-!app_assoc.
    replace (drop (24 + k) bytes) with (drop k (drop 24 bytes)) by (by rewrite drop_drop). rewrite take_drop.
    replace (drop 24 bytes) with (drop 8 (drop 16 bytes)) by (by rewrite drop_drop). rewrite take_drop.
    replace (drop 16 bytes) with (drop 8 (drop 8 bytes)) by (by rewrite drop_drop). by rewrite !take_drop. }
  assert (length m = 8 ∧ length r = 8 ∧ length n = 8 ∧ length b = k ∧ length c = 16)%nat as (Lm & Lr & Ln & Lb & Lc).
  { unfold m, r, n, b, c. rewrite !length_take, !length_drop. lia. }
  assert (Forall byte r ∧ Forall byte n ∧ Forall byte b) as (Br & Bn & Bb) by (split_and!; by apply Forall_take, Forall_drop).
  pose proof (from_le_range r Br) as Hr. pose proof (le_from_le r Br) as Er. pose proof (le_from_le n Bn) as En'.
  clearbody m r n b c. subst bytes. rewrite decode_fields in D; [|done..|by rewrite Lb|lia].
  res_inv. bool_inv. rewrite Lr in Hr, Er. rewrite Ln in En'.
  change (256 ^ Z.of_nat 8) with (u64_max + 1) in Hr. split.
  - unfold encode_value. cbn [revision payload]. rewrite <-En, Er, En'. congruence.
  - split_and!; cbn [revision payload]; (done || lia).
Qed.
End format_proofs.

(** A state file is accepted exactly when it holds the bytes a write produces for a record
    of that revision and payload; any other bytes, of whatever length, are an error. *)
Theorem durable_format_exact `{Murmur3} bytes v :
  Forall byte bytes → Z.of_nat (length bytes) ≤ usize_max →
  decode_value bytes = Ok v ↔ typed v ∧ bytes = encode_value v.
Proof.
  intros Hb Hl. split.
  - intros D. by destruct (decode_exact bytes v Hb Hl D).
  - intros [T ->]. by apply decode_encode.
Qed.

Lemma durable_format_exact_witness :
  let _ := {| murmur3_x64_128 := λ _, 3 |} in
  let v := {| revision := 258; payload := [9] |} in
  typed v ∧ encode_value v = string_bytes "TRFDUR02" ++ [2; 1; 0; 0; 0; 0; 0; 0; 1; 0; 0; 0; 0; 0; 0; 0; 9; 3] ++ replicate 15 0.
Proof.
  intros M v.
  assert (decode_value (encode_value v) = Ok v) as D by (vm_compute; reflexivity).
  split; [|vm_compute; reflexivity]. apply (@durable_format_exact M (encode_value v) v); [|vm_compute; discriminate|exact D].
  change (Forall byte (encode_value v)). apply (bool_decide_unpack (Forall byte (encode_value v))). vm_compute. exact I.
Defined.
