(* ===== verification/DurableStorage.v ===== *)
(** * What durable storage promises its clients

    The trait [DurableStorage] of [transferia-registry/src/durable.rs] as a class.  A store
    has, per key, the value a read returns and the value that is certain to survive a crash;
    connectors that keep their offsets in it are proved against these laws, and
    [DurableCrash] shows that the local files satisfy them, a crash being one that keeps the
    directories in use.  The directory of a new delivery is not yet certain to be kept when
    its first value is applied ([DurableCrash.fresh_directory_not_synced]): for local files
    what is proved against these laws starts once it is. *)

From stdpp Require Import base tactics numbers option strings relations list.
From S2P Require Import Prelude Bytes Durable.
Local Open Scope Z_scope.

(** A value is the same or has a greater revision. *)
Definition later (v w : DurableValue) : Prop := v = w ∨ revision v < revision w.
Definition olater (v w : option DurableValue) : Prop :=
  match v, w with
  | None, _ => True
  | Some v, Some w => later v w
  | Some _, None => False
  end.

#[export] Instance olater_preorder : PreOrder olater.
Proof.
  split.
  - intros [v|]; cbn; [by left|done].
  - intros [u|] [v|] [w|]; cbn; try done. unfold later. intros [->|?] [->|?]; [by left|right..]; lia.
Qed.

(** The value a successful exchange writes. *)
Definition follows (current : option DurableValue) (expected : option Z) (bytes : list Z) (v : DurableValue) : Prop :=
  revision <$> current = expected ∧ next_revision expected = Ok (revision v) ∧ payload v = bytes.

Lemma follows_later current expected bytes v : follows current expected bytes v → olater current (Some v).
Proof.
  intros (<- & Hn & _). destruct current as [c|]; cbn in *; [|done]. right. res_inv.
  match goal with C : checked_add _ _ _ = _ |- _ => apply checked_add_Some in C; lia end.
Qed.

(** A payload that fits a file. *)
Definition payload_ok (bytes : list Z) : Prop := Forall byte bytes ∧ Z.of_nat (length bytes) + 40 ≤ usize_max.

Class DurableStorage := {
  Store : Type;
  Env : Type;                                   (* the failures of an operation *)
  key_ok : string → Prop;
  store_ok : Store → Prop;
  value : Store → string → option DurableValue;
  settled : Store → string → option DurableValue;
  read : Store → string → Env → result DurableError (option DurableValue);
  compare_exchange : Store → string → option Z → list Z → Env → Store * result DurableError CompareExchangeResult;
  crashed : Store → Store → Prop;

  settled_value s k : store_ok s → key_ok k → olater (settled s k) (value s k);
  read_value s k e r : store_ok s → key_ok k → read s k e = Ok r → r = value s k;
  exchange_ok s k x b e : store_ok s → key_ok k → payload_ok b → store_ok (compare_exchange s k x b e).1;
  exchange_other s k k' x b e : store_ok s → key_ok k → key_ok k' → payload_ok b → k' ≠ k →
    let s' := (compare_exchange s k x b e).1 in
    value s' k' = value s k' ∧ (settled s' k' = settled s k' ∨ settled s' k' = value s k');
  exchange_result s k x b e : store_ok s → key_ok k → payload_ok b →
    let s' := (compare_exchange s k x b e).1 in
    match (compare_exchange s k x b e).2 with
    | Ok (Applied v) => follows (value s k) x b v ∧ value s' k = Some v ∧ settled s' k = Some v
    | Ok (Conflict c) => c = value s k ∧ revision <$> c ≠ x ∧ value s' k = value s k ∧ settled s' k = settled s k
    | Err _ =>
        settled s' k = settled s k ∧
        (value s' k = value s k ∨ ∃ v, follows (value s k) x b v ∧ value s' k = Some v) ∨
        ∃ v, follows (value s k) x b v ∧ value s' k = Some v ∧ settled s' k = Some v
    end;
  crashed_ok s s' : store_ok s → crashed s s' → store_ok s';
  crashed_value s s' k : store_ok s → crashed s s' → key_ok k →
    (value s' k = value s k ∨ value s' k = settled s k) ∧ settled s' k = value s' k
}.

(** ** Histories of a store *)
Section histories.
Context `{DurableStorage}.

Inductive store_step : Store → Store → Prop :=
| step_exchange s k x b e : key_ok k → payload_ok b → store_step s (compare_exchange s k x b e).1
| step_crash s s' : crashed s s' → store_step s s'.

Lemma store_step_ok s s' : store_ok s → store_step s s' → store_ok s'.
Proof. destruct 2; eauto using exchange_ok, crashed_ok. Qed.

(** What survives a crash is never undone. *)
Lemma step_settled s s' k : store_ok s → key_ok k → store_step s s' → olater (settled s k) (settled s' k).
Proof.
  intros Hs Hk Step. pose proof (settled_value s k Hs Hk) as Hsv. destruct Step as [s k' x b e Hk' Hb|s s' Hc].
  - destruct (decide (k = k')) as [<-|Hne].
    + pose proof (exchange_result s k x b e Hs Hk Hb) as R. cbn zeta in R.
      destruct (compare_exchange s k x b e) as [s' [[v|c]|err]]; cbn [fst snd] in *.
      * destruct R as (Hf & _ & ->). etrans; [done|]. by eapply follows_later.
      * by destruct R as (_ & _ & _ & ->).
      * destruct R as [[-> _]|(v & Hf & _ & ->)]; [done|]. etrans; [done|]. by eapply follows_later.
    + destruct (exchange_other s k' k x b e) as [_ [E|E]]; [done..| |]; by rewrite E.
  - destruct (crashed_value s s' k Hs Hc Hk) as [Hv Hsv']. rewrite Hsv'. by destruct Hv as [E|E]; rewrite E.
Qed.

Lemma steps_settled s s' k : store_ok s → key_ok k → rtc store_step s s' → store_ok s' ∧ olater (settled s k) (settled s' k).
Proof.
  intros Hs Hk Steps. revert Hs. induction Steps as [s|s s1 s2 Step _ IH]; intros Hs; [done|].
  destruct (IH (store_step_ok _ _ Hs Step)) as [Hok Hl]. split; [done|]. etrans; [by apply step_settled|done].
Qed.

(** An applied value is read back until a greater revision replaces it, through any
    exchanges, failures and crashes. *)
Lemma applied_survives s k x b e v s' e' r :
  store_ok s → key_ok k → payload_ok b → (compare_exchange s k x b e).2 = Ok (Applied v) →
  rtc store_step (compare_exchange s k x b e).1 s' → read s' k e' = Ok r → olater (Some v) r.
Proof.
  intros Hs Hk Hb A Steps R. pose proof (exchange_result s k x b e Hs Hk Hb) as E. cbn zeta in E. rewrite A in E.
  destruct E as (_ & _ & Es). destruct (steps_settled _ s' k (exchange_ok s k x b e Hs Hk Hb) Hk Steps) as [Hok Hl].
  rewrite Es in Hl. rewrite (read_value _ _ _ _ Hok Hk R). etrans; [done|]. by apply settled_value.
Qed.
End histories.
