(* ===== verification/DurableCrash.v ===== *)
(** * Local durable files survive crashes

    The storage of [Durable] keeps, for every key, the old or the new value through any
    failure and crash, and implements [DurableStorage]. *)

From Stdlib Require Import Ascii.
From stdpp Require Import base tactics numbers option strings pretty gmap relations list.
From S2P Require Import Prelude Bytes Durable DurableStorage.
Local Open Scope Z_scope.

(** ** Names of files *)
Lemma list_ascii_app s t : String.list_ascii_of_string (s +:+ t) = String.list_ascii_of_string s ++ String.list_ascii_of_string t.
Proof. induction s as [|c s IH]; [done|]. change (c :: String.list_ascii_of_string (s +:+ t) = c :: String.list_ascii_of_string s ++ String.list_ascii_of_string t). by rewrite IH. Qed.
Lemma list_ascii_inj s t : String.list_ascii_of_string s = String.list_ascii_of_string t → s = t.
Proof. intros E. rewrite <-(String.string_of_list_ascii_of_string s), E. apply String.string_of_list_ascii_of_string. Qed.
Lemma append_inj_r s t u : s +:+ u = t +:+ u → s = t.
Proof. intros E%(f_equal String.list_ascii_of_string). rewrite !list_ascii_app in E. by apply app_inj_2, proj1, list_ascii_inj in E. Qed.

(** Values are kept in files called [….state]. *)
Definition state_path (p : list string) : Prop := ∃ q s, p = q ++ [s +:+ ".state"].

Lemma temporary_not_state p process sequence : ¬ state_path (temporary p process sequence).
Proof.
  intros (q & s & E). apply app_inj_tail in E as [_ E]. apply (f_equal (λ s, last (String.list_ascii_of_string s))) in E.
  rewrite !list_ascii_app, !last_app in E. discriminate E.
Qed.

(** Keys without dots, as the connectors use. *)
Definition dotless (s : string) : Prop := ("."%char : ascii) ∉ String.list_ascii_of_string s.
#[export] Instance dotless_dec s : Decision (dotless s).
Proof. unfold dotless. apply _. Defined.

Lemma split_on_absent c s : c ∉ String.list_ascii_of_string s → split_on c s = [s].
Proof.
  induction s as [|a s IH]; intros Hn; [done|]. cbn in Hn |- *. apply not_elem_of_cons in Hn as [Hc Hn].
  rewrite bool_decide_eq_false_2 by congruence. by rewrite IH.
Qed.
Lemma split_on_chars c s a : c ∉ String.list_ascii_of_string s → Forall (λ p, c ∉ String.list_ascii_of_string p) (split_on a s).
Proof.
  induction s as [|x s IH]; intros Hn; [by repeat constructor|]. cbn in Hn |- *. apply not_elem_of_cons in Hn as [Hc Hn].
  specialize (IH Hn). case_bool_decide; [by constructor; [apply not_elem_of_nil|]|].
  destruct (split_on a s) as [|p parts]; [repeat constructor; cbn; apply not_elem_of_cons; split; [done|apply not_elem_of_nil]|].
  inversion IH; subst. constructor; [|done]. cbn. by apply not_elem_of_cons.
Qed.

Lemma key_path_dotless root key p :
  dotless key → key_path root key = Ok p →
  ∃ init name, split_on "/" key = init ++ [name] ∧ p = root ++ init ++ [name +:+ ".state"].
Proof.
  intros Hd. unfold key_path. intros K. res_inv.
  match goal with E : for_each _ _ _ = Ok ?q |- _ => assert (q = root ++ split_on "/" key) as -> end.
  { revert E. generalize (split_on "/" key) as l. clear. intros l. revert root.
    induction l as [|c l IH]; intros root E; cbn in E; res_inv; [by rewrite app_nil_r|].
    apply IH in E. by rewrite E, <-app_assoc. }
  destruct (exists_last (split_on_nonempty "/" key)) as (init & name & Hs). exists init, name. split; [done|].
  pose proof (split_on_chars "." key "/" Hd) as Hp. rewrite Hs in Hp |- *. apply Forall_app in Hp as [_ Hp].
  inversion Hp as [|? ? Hn _]; subst. unfold with_extension, file_name. rewrite app_assoc, reverse_snoc. cbn [drop_dots].
  rewrite bool_decide_eq_false_2 by (intros ->; apply Hn; cbn; set_solver).
  rewrite bool_decide_eq_false_2 by (intros ->; apply Hn; cbn; set_solver).
  change (drop 1 (name :: ?l)) with l. rewrite reverse_involutive. unfold file_stem. rewrite split_on_absent by done. by rewrite <-app_assoc.
Qed.

(** Different keys without dots have different files. *)
Lemma key_path_inj root k1 k2 p : dotless k1 → dotless k2 → key_path root k1 = Ok p → key_path root k2 = Ok p → k1 = k2.
Proof.
  intros D1 D2 K1 K2. destruct (key_path_dotless _ _ _ D1 K1) as (i1 & n1 & S1 & ->).
  destruct (key_path_dotless _ _ _ D2 K2) as (i2 & n2 & S2 & E). apply app_inv_head in E.
  apply app_inj_tail in E as [-> E]. apply append_inj_r in E as ->.
  rewrite <-(concat_split_on "/" k1), <-(concat_split_on "/" k2). congruence.
Qed.
Lemma key_path_state root key p : dotless key → key_path root key = Ok p → state_path p.
Proof. intros D K. destruct (key_path_dotless _ _ _ D K) as (i & n & _ & ->). exists (root ++ i), n. by rewrite app_assoc. Qed.

(** ** The disk between operations *)
Section disk.
Context `{Murmur3}.

Definition contents (d : Disk) (i : nat) : option DurableValue :=
  data d !! i ≫= λ b, match decode_value b with Ok v => Some v | Err _ => None end.
(** What a read of a path returns, and what its synced directory entry leads to. *)
Definition value_at (d : Disk) (p : list string) : option DurableValue := names d !! p ≫= contents d.
Definition settled_at (d : Disk) (p : list string) : option DurableValue := dnames d !! p ≫= contents d.

(** Every state file a directory names, now or after a crash, is synced and holds a record. *)
Definition Valid (d : Disk) : Prop :=
  ∀ p i, state_path p → names d !! p = Some i ∨ dnames d !! p = Some i →
    i ∈ stable d ∧ ∃ v, typed v ∧ data d !! i = Some (encode_value v).
(** A crash never leads to an entry newer than the current one. *)
Definition Ordered (d : Disk) : Prop := ∀ p, state_path p → olater (settled_at d p) (value_at d p).

Lemma contents_encoded d i v : typed v → data d !! i = Some (encode_value v) → contents d i = Some v.
Proof. intros T E. unfold contents. rewrite E. cbn. by rewrite decode_encode. Qed.

Lemma contents_same d d' i : data d' !! i = data d !! i → contents d' i = contents d i.
Proof. unfold contents. by intros ->. Qed.

Lemma value_at_typed d p v : Valid d → state_path p → value_at d p = Some v → typed v.
Proof.
  intros V Hp E. unfold value_at in E. destruct (names d !! p) as [i|] eqn:En; [|done]. cbn in E.
  destruct (V p i Hp (or_introl En)) as (_ & u & T & Eu). rewrite (contents_encoded d i u T Eu) in E. by injection E as <-.
Qed.

Lemma read_file_value d p f r : Valid d → state_path p → read_file d p f = Ok r → r = value_at d p.
Proof.
  intros V Hp. unfold read_file, value_at. case_bool_decide; [done|]. destruct (names d !! p) as [i|] eqn:En; [|by intros [= <-]].
  destruct (V p i Hp (or_introl En)) as (_ & v & T & Ev). cbn. rewrite (contents_encoded d i v T Ev), Ev. cbn.
  rewrite decode_encode by done. by intros [= <-].
Qed.
Lemma read_file_total d p : Valid d → state_path p → read_file d p NoFault = Ok (value_at d p).
Proof.
  intros V Hp. unfold read_file, value_at. rewrite bool_decide_eq_false_2 by done. destruct (names d !! p) as [i|] eqn:En; [|done].
  destruct (V p i Hp (or_introl En)) as (_ & v & T & Ev). cbn. rewrite (contents_encoded d i v T Ev), Ev. cbn.
  by rewrite decode_encode.
Qed.

(** ** Steps of a write *)

(** The states differ only in an inode no state file names. *)
Record Aside (d d' : Disk) (i : nat) : Prop := {
  aside_names p : state_path p → names d' !! p = names d !! p;
  aside_dnames : dnames d' = dnames d;
  aside_data j : j ≠ i → data d' !! j = data d !! j;
  aside_stable j : j ≠ i → j ∈ stable d → j ∈ stable d'
}.
Definition unused (d : Disk) (i : nat) : Prop := ∀ p, names d !! p ≠ Some i ∧ dnames d !! p ≠ Some i.

Lemma fresh_unused d : unused d (fresh_inode d).
Proof.
  intros p. unfold fresh_inode. set (X := dom (data d) ∪ map_img (names d) ∪ map_img (dnames d)).
  pose proof (is_fresh X) as Hf. split; intros E; apply Hf; unfold X; rewrite !elem_of_union;
    [left; right|right]; by eapply elem_of_map_img_2.
Qed.

Lemma aside_view d d' i p : Aside d d' i → unused d i → state_path p → value_at d' p = value_at d p ∧ settled_at d' p = settled_at d p.
Proof.
  intros A U Hp. unfold value_at, settled_at. rewrite (aside_names _ _ _ A), (aside_dnames _ _ _ A) by done.
  destruct (U p) as [U1 U2]. split; [destruct (names d !! p) as [j|]|destruct (dnames d !! p) as [j|]]; cbn; try done;
    apply contents_same, (aside_data _ _ _ A); congruence.
Qed.
Lemma aside_valid d d' i : Aside d d' i → unused d i → Valid d → Valid d'.
Proof.
  intros A U V p j Hp. rewrite (aside_names _ _ _ A), (aside_dnames _ _ _ A) by done. intros E.
  assert (j ≠ i) by (destruct (U p), E; congruence). destruct (V p j Hp E) as (Hs & v & T & Ev).
  split; [by apply (aside_stable _ _ _ A)|]. exists v. by rewrite (aside_data _ _ _ A).
Qed.

Lemma aside_dirs d p d' i : Aside (create_dir_all d p) d' i → Aside d d' i.
Proof. intros []. by split. Qed.

(** The temporary file with any contents. *)
Lemma aside_temporary d tmp i b : ¬ state_path tmp → Aside d (write_all (create_new d tmp i) i b) i.
Proof.
  intros Ht. split; cbn; [|done| |].
  - intros p Hp. apply lookup_insert_ne. by intros ->.
  - intros j Hj. by rewrite !lookup_insert_ne.
  - set_solver.
Qed.
Lemma aside_sync d d' i : Aside d d' i → Aside d (sync_all d' i) i.
Proof. intros []. split; cbn; [done..|]. set_solver. Qed.

(** Renaming a synced record over a state file. *)
Lemma rename_valid d tmp p i v :
  ¬ state_path tmp → typed v → i ∈ stable d → data d !! i = Some (encode_value v) → Valid d → Valid (rename d tmp p i).
Proof.
  intros Ht T Hi Ei V q j Hq. cbn. destruct (decide (q = p)) as [->|Hqp].
  - rewrite lookup_insert_eq. intros [[= <-]|E]; [by eauto|by eauto].
  - rewrite lookup_insert_ne, lookup_delete_ne by (congruence || by intros ->). apply V, Hq.
Qed.
Lemma rename_view d tmp p i q :
  ¬ state_path tmp → state_path q →
  value_at (rename d tmp p i) q = (if decide (q = p) then contents d i else value_at d q) ∧
  settled_at (rename d tmp p i) q = settled_at d q.
Proof.
  intros Ht Hq. split; [|done]. unfold value_at. cbn. case_decide as Hqp; [subst; by rewrite lookup_insert_eq|].
  by rewrite lookup_insert_ne, lookup_delete_ne by (congruence || by intros ->).
Qed.

(** Syncing a directory. *)
Lemma sync_dir_dnames d dir p : dnames (sync_dir d dir) !! p = if decide (parent p = dir) then names d !! p else dnames d !! p.
Proof.
  cbn. rewrite lookup_union.
  destruct (filter (λ e, parent e.1 = dir) (names d) !! p) as [i|] eqn:E1.
  - apply map_lookup_filter_Some in E1 as [En Hp]. cbn in Hp. rewrite decide_True, En by done. by destruct (filter _ _ !! p).
  - destruct (filter (λ e, parent e.1 ≠ dir) (dnames d) !! p) as [i|] eqn:E2.
    + apply map_lookup_filter_Some in E2 as [En Hp]. cbn in Hp. by rewrite decide_False, En.
    + apply map_lookup_filter_None in E1, E2. case_decide as Hp; symmetry.
      * destruct E1 as [E1|E1]; [done|]. destruct (names d !! p) as [i|]; [by destruct (E1 i)|done].
      * destruct E2 as [E2|E2]; [done|]. destruct (dnames d !! p) as [i|]; [by destruct (E2 i)|done].
Qed.
Lemma sync_dir_valid d dir : Valid d → Valid (sync_dir d dir).
Proof.
  intros V p i Hp. rewrite sync_dir_dnames. case_decide; cbn; intros E; apply (V p i Hp); tauto.
Qed.
Lemma sync_dir_view d dir p :
  value_at (sync_dir d dir) p = value_at d p ∧
  settled_at (sync_dir d dir) p = if decide (parent p = dir) then value_at d p else settled_at d p.
Proof. split; [done|]. unfold settled_at. rewrite sync_dir_dnames. by case_decide. Qed.

(** ** A write: the old or the new value, whatever fails *)
Definition Consistent (d : Disk) : Prop := Valid d ∧ Ordered d.

(** The effect of an operation that may write [v] at [p]. *)
Inductive Written (d d' : Disk) (p : list string) (v : DurableValue) : result DurableError unit → Prop :=
| not_written e : value_at d' p = value_at d p → settled_at d' p = settled_at d p → Written d d' p v (Err e)
| not_settled e : value_at d' p = Some v → settled_at d' p = settled_at d p → Written d d' p v (Err e)
| written : value_at d' p = Some v → settled_at d' p = Some v → Written d d' p v (Ok tt).

Definition Elsewhere (d d' : Disk) (p : list string) : Prop :=
  ∀ q, state_path q → q ≠ p →
    value_at d' q = value_at d q ∧ (settled_at d' q = settled_at d q ∨ settled_at d' q = value_at d q).

Lemma aside_elsewhere d d' i p : Aside d d' i → unused d i → Elsewhere d d' p.
Proof. intros A U q Hq _. destruct (aside_view d d' i q A U Hq). auto. Qed.

Lemma write_file_spec d p v process sequence f d' r :
  Valid d → state_path p → typed v → write_file d p v process sequence f = (d', r) →
  Valid d' ∧ Elsewhere d d' p ∧ Written d d' p v r.
Proof.
  intros V Hp T. unfold write_file. set (d0 := create_dir_all d (parent p)). set (tmp := temporary p process sequence).
  set (i := fresh_inode d0).
  assert (¬ state_path tmp) as Ht by apply temporary_not_state. assert (unused d i) as U by apply fresh_unused.
  set (d1 := λ b, write_all (create_new d0 tmp i) i b). set (d2 := sync_all (d1 (encode_value v)) i).
  assert (∀ b, Aside d (d1 b) i) as A1 by (intros b; by eapply aside_dirs, aside_temporary).
  assert (Aside d d0 i) as A0 by done.
  assert (Aside d d2 i) as A2 by (by apply aside_sync).
  assert (i ∈ stable d2 ∧ data d2 !! i = Some (encode_value v)) as [Hi Ei] by (cbn; split; [set_solver|by rewrite lookup_insert_eq]).
  assert (∀ d'' e, Aside d d'' i → Valid d'' ∧ Elsewhere d d'' p ∧ Written d d'' p v (Err e)) as Stop.
  { intros d'' e A. split_and!; [by eapply aside_valid|by eapply aside_elsewhere|]. destruct (aside_view d d'' i p A U Hp). by constructor. }
  assert (Valid (rename d2 tmp p i)) as V3 by (eapply rename_valid; eauto using aside_valid).
  assert (∀ q, state_path q → value_at (rename d2 tmp p i) q = (if decide (q = p) then Some v else value_at d q) ∧
    settled_at (rename d2 tmp p i) q = settled_at d q) as View.
  { intros q Hq. destruct (rename_view d2 tmp p i q Ht Hq) as [-> ->]. destruct (aside_view d d2 i q A2 U Hq) as [-> ->].
    by rewrite (contents_encoded d2 i v T Ei). }
  case_bool_decide; [intros [= <- <-]; by apply Stop|].
  case_bool_decide; [intros [= <- <-]; by apply Stop|].
  assert (∀ e, Valid (rename d2 tmp p i) ∧ Elsewhere d (rename d2 tmp p i) p ∧ Written d (rename d2 tmp p i) p v (Err e)) as Renamed.
  { intros e. split_and!; [done|intros q Hq Hne; destruct (View q Hq) as [-> ->]; rewrite decide_False by done; auto|].
    destruct (View p Hp) as [E1 E2]. rewrite decide_True in E1 by done. by constructor 2. }
  assert (Valid (sync_dir (rename d2 tmp p i) (parent p)) ∧ Elsewhere d (sync_dir (rename d2 tmp p i) (parent p)) p ∧
    Written d (sync_dir (rename d2 tmp p i) (parent p)) p v (Ok tt)) as Synced.
  { split_and!; [by apply sync_dir_valid| |].
    - intros q Hq Hne. destruct (sync_dir_view (rename d2 tmp p i) (parent p) q) as [-> ->]. destruct (View q Hq) as [-> ->].
      rewrite (decide_False (P := q = p)) by done. case_decide; auto.
    - destruct (sync_dir_view (rename d2 tmp p i) (parent p) p) as [E1 E2], (View p Hp) as [E3 _].
      rewrite decide_True in E2 by done. rewrite decide_True in E3 by done. constructor; congruence. }
  destruct f; cbn -[encode_value rename sync_dir sync_all write_all create_new]; intros [= <- <-];
    first [apply Synced | apply Renamed | by apply Stop].
Qed.

(** ** Compare and exchange *)
Lemma exchange_spec d p expected bytes process sequence f d' r :
  Valid d → state_path p → payload_ok bytes → exchange d p expected bytes process sequence f = (d', r) →
  Valid d' ∧ Elsewhere d d' p ∧
  match r with
  | Ok (Applied v) => follows (value_at d p) expected bytes v ∧ value_at d' p = Some v ∧ settled_at d' p = Some v
  | Ok (Conflict c) => c = value_at d p ∧ revision <$> c ≠ expected ∧ d' = d
  | Err _ => settled_at d' p = settled_at d p ∧
      (value_at d' p = value_at d p ∨ ∃ v, follows (value_at d p) expected bytes v ∧ value_at d' p = Some v)
  end.
Proof.
  intros V Hp [Hb Hl] X. unfold exchange in X.
  destruct (read_file d p f) as [current|e] eqn:R; [|injection X as <- <-; split_and!; [done|intros q; auto|done|by left]].
  apply (read_file_value d p f) in R; [|done..]. subst current.
  case_bool_decide as Hrev; cbn [negb] in X; [|injection X as <- <-; split_and!; [done|intros q; auto|done..]].
  destruct (next_revision expected) as [n|e] eqn:Hn; [|injection X as <- <-; split_and!; [done|intros q; auto|done|by left]].
  destruct (write_file _ _ _ _ _ _) as [d1 w] eqn:W. injection X as <- <-.
  assert (typed {| revision := n; payload := bytes |}) as T.
  { split; cbn [revision payload]; [|done]. unfold next_revision in Hn. destruct expected as [x|]; res_inv; [|done].
    match goal with C : checked_add _ _ _ = _ |- _ => apply checked_add_Some in C as [-> ?] end.
    destruct (value_at d p) as [u|] eqn:Eu; [|discriminate Hrev]. injection Hrev as <-.
    destruct (value_at_typed _ _ _ V Hp Eu) as [? _]. lia. }
  destruct (write_file_spec _ _ _ _ _ _ _ _ V Hp T W) as (V' & El & Wr).
  assert (follows (value_at d p) expected bytes {| revision := n; payload := bytes |}) as Fo by (by split_and!).
  split_and!; [done..|]. destruct Wr; cbn; eauto 10.
Qed.

Lemma locked_exchange_spec root d p expected bytes process sequence f d' r :
  Valid d → state_path p → payload_ok bytes →
  with_file_lock root d f (λ d, exchange d p expected bytes process sequence f) = (d', r) →
  Valid d' ∧ Elsewhere d d' p ∧
  match r with
  | Ok (Applied v) => follows (value_at d p) expected bytes v ∧ value_at d' p = Some v ∧ settled_at d' p = Some v
  | Ok (Conflict c) => c = value_at d p ∧ revision <$> c ≠ expected ∧ value_at d' p = value_at d p ∧ settled_at d' p = settled_at d p
  | Err _ =>
      settled_at d' p = settled_at d p ∧
      (value_at d' p = value_at d p ∨ ∃ v, follows (value_at d p) expected bytes v ∧ value_at d' p = Some v) ∨
      ∃ v, follows (value_at d p) expected bytes v ∧ value_at d' p = Some v ∧ settled_at d' p = Some v
  end.
Proof.
  intros V Hp Hb. unfold with_file_lock. set (d0 := create_dir_all d root).
  assert (Elsewhere d d0 p) as E0 by (intros q; split; [done|by left]).
  case_bool_decide; [intros [= <- <-]; split_and!; [done..|left; split; [done|by left]]|].
  destruct (exchange _ _ _ _ _ _ _) as [d1 r1] eqn:X. destruct (exchange_spec d0 _ _ _ _ _ _ _ _ V Hp Hb X) as (V1 & El & R).
  change (Elsewhere d d1 p) in El. change (value_at d0 p) with (value_at d p) in R. change (settled_at d0 p) with (settled_at d p) in R.
  case_bool_decide; intros [= <- <-]; (split_and!; [done..|]).
  - destruct r1 as [[v|c]|e]; [by eauto| |by auto]. destruct R as (_ & _ & ->). left. split; [done|by left].
  - destruct r1 as [[v|c]|e]; [done| |by auto]. by destruct R as (-> & ? & ->).
Qed.

(** An exchange keeps the disk consistent. *)
Lemma exchange_consistent root d p expected bytes process sequence f d' r :
  Consistent d → state_path p → payload_ok bytes →
  with_file_lock root d f (λ d, exchange d p expected bytes process sequence f) = (d', r) → Consistent d'.
Proof.
  intros [V O] Hp Hb X. destruct (locked_exchange_spec _ _ _ _ _ _ _ _ _ _ V Hp Hb X) as (V' & El & R). split; [done|].
  intros q Hq. specialize (O q Hq). destruct (decide (q = p)) as [->|Hne].
  - destruct r as [[v|c]|e].
    + by destruct R as (_ & -> & ->).
    + by destruct R as (_ & _ & -> & ->).
    + destruct R as [[-> [->|(v & Fo & ->)]]|(v & _ & -> & ->)]; [done| |done]. etrans; [done|]. by eapply follows_later.
  - destruct (El q Hq Hne) as [-> Es]. destruct Es as [E|E]; by rewrite E.
Qed.

(** ** Crashes

    Of a disk all of whose directories are synced. *)
Definition housed_crash (d d' : Disk) : Prop := housed d ∧ crash d d'.

Lemma housed_names d d' p : housed_crash d d' → names d' !! p = names d !! p ∨ names d' !! p = dnames d !! p.
Proof.
  intros [Hh (Hn & _)]. destruct (Hn p) as [E|[E|[Hs E]]]; [by left|by right|]. left. rewrite E. symmetry.
  apply eq_None_not_Some. intros Hp. by apply Hs, Hh.
Qed.
Lemma crash_view d d' p :
  Valid d → housed_crash d d' → state_path p →
  (value_at d' p = value_at d p ∨ value_at d' p = settled_at d p) ∧ settled_at d' p = value_at d' p.
Proof.
  intros V Hc Hp. pose proof (housed_names d d' p Hc) as Hn. destruct Hc as [_ (_ & Hs & _ & Hd & _)]. split; [|unfold settled_at, value_at; by rewrite Hd].
  assert (∀ i, names d !! p = Some i ∨ dnames d !! p = Some i → contents d' i = contents d i) as C.
  { intros i Hi. destruct (V p i Hp Hi) as [Hst _]. by apply contents_same, Hs. }
  unfold value_at, settled_at. destruct Hn as [E|E]; rewrite E; [left|right].
  - destruct (names d !! p) as [i|]; cbn; [apply C; by left|done].
  - destruct (dnames d !! p) as [i|]; cbn; [apply C; by right|done].
Qed.
Lemma crash_consistent d d' : Consistent d → housed_crash d d' → Consistent d'.
Proof.
  intros [V O] Hc. split.
  - intros p i Hp Hi. pose proof (housed_names d d' p Hc) as Hn. destruct Hc as [_ (_ & Hs & _ & Hd & _)]. rewrite Hd in Hi. assert (names d' !! p = Some i) as E by (by destruct Hi).
    assert (names d !! p = Some i ∨ dnames d !! p = Some i) as Hi' by (destruct Hn; [left|right]; congruence).
    destruct (V p i Hp Hi') as (Hst & v & T & Ev). destruct (Hs i Hst) as [Hst' Ed]. split; [done|]. exists v. by rewrite Ed.
  - intros p Hp. by destruct (crash_view d d' p V Hc Hp) as [_ ->].
Qed.

(** ** The local files implement the storage *)
Definition key_value (root : list string) (view : Disk → list string → option DurableValue) (d : Disk) (key : string) : option DurableValue :=
  match key_path root key with Ok p => view d p | Err _ => None end.

Definition file_key (root : list string) (key : string) : Prop := dotless key ∧ is_ok (key_path root key).

Lemma file_key_path root key : file_key root key → ∃ p, key_path root key = Ok p ∧ state_path p.
Proof.
  intros [D K]. destruct (key_path root key) as [p|e] eqn:E; [|done]. exists p. split; [done|]. by eapply key_path_state.
Qed.

Section local.
Context (root : list string).

Lemma storage_read_value d k f r : Consistent d → file_key root k → storage_read root d k f = Ok r → r = key_value root value_at d k.
Proof.
  intros [V _] K. destruct (file_key_path root k K) as (p & E & Hp). unfold storage_read, key_value. rewrite E. cbn.
  unfold with_file_lock. case_bool_decide; [done|]. case_bool_decide; [done|]. cbn [snd].
  by apply (read_file_value (create_dir_all d root)).
Qed.

Lemma storage_exchange_consistent d k x b process sequence f :
  Consistent d → file_key root k → payload_ok b → Consistent (storage_compare_exchange root d k x b process sequence f).1.
Proof.
  intros C K Hb. destruct (file_key_path root k K) as (p & E & Hp). unfold storage_compare_exchange. rewrite E.
  destruct (with_file_lock _ _ _ _) as [d' r] eqn:X. by eapply exchange_consistent.
Qed.

Lemma storage_exchange_other d k k' x b process sequence f :
  Consistent d → file_key root k → file_key root k' → payload_ok b → k' ≠ k →
  let d' := (storage_compare_exchange root d k x b process sequence f).1 in
  key_value root value_at d' k' = key_value root value_at d k' ∧
  (key_value root settled_at d' k' = key_value root settled_at d k' ∨
   key_value root settled_at d' k' = key_value root value_at d k').
Proof.
  intros [V _] K K' Hb Hne. destruct (file_key_path root k K) as (p & E & Hp), (file_key_path root k' K') as (p' & E' & Hp').
  unfold storage_compare_exchange, key_value. rewrite E, E'.
  destruct (with_file_lock _ _ _ _) as [d' r] eqn:X. destruct (locked_exchange_spec _ _ _ _ _ _ _ _ _ _ V Hp Hb X) as (_ & El & _).
  cbn. apply El; [done|]. intros ->. apply Hne. destruct K, K'. by eapply key_path_inj.
Qed.

Lemma storage_exchange_result d k x b process sequence f :
  Consistent d → file_key root k → payload_ok b →
  let v := key_value root value_at in let s := key_value root settled_at in
  let d' := (storage_compare_exchange root d k x b process sequence f).1 in
  match (storage_compare_exchange root d k x b process sequence f).2 with
  | Ok (Applied w) => follows (v d k) x b w ∧ v d' k = Some w ∧ s d' k = Some w
  | Ok (Conflict c) => c = v d k ∧ revision <$> c ≠ x ∧ v d' k = v d k ∧ s d' k = s d k
  | Err _ =>
      s d' k = s d k ∧ (v d' k = v d k ∨ ∃ w, follows (v d k) x b w ∧ v d' k = Some w) ∨
      ∃ w, follows (v d k) x b w ∧ v d' k = Some w ∧ s d' k = Some w
  end.
Proof.
  intros [V _] K Hb. destruct (file_key_path root k K) as (p & E & Hp). unfold storage_compare_exchange, key_value. rewrite E.
  destruct (with_file_lock _ _ _ _) as [d' r] eqn:X. by destruct (locked_exchange_spec _ _ _ _ _ _ _ _ _ _ V Hp Hb X) as (_ & _ & R).
Qed.

Lemma storage_crash_value d d' k :
  Consistent d → housed_crash d d' → file_key root k →
  (key_value root value_at d' k = key_value root value_at d k ∨ key_value root value_at d' k = key_value root settled_at d k) ∧
  key_value root settled_at d' k = key_value root value_at d' k.
Proof.
  intros [V _] Hc K. destruct (file_key_path root k K) as (p & E & Hp). unfold key_value. rewrite E. by apply crash_view.
Qed.

Lemma storage_settled_value d k : Consistent d → file_key root k → olater (key_value root settled_at d k) (key_value root value_at d k).
Proof. intros [_ O] K. destruct (file_key_path root k K) as (p & E & Hp). unfold key_value. rewrite E. by apply O. Qed.

Definition local_files : DurableStorage := {|
  Store := Disk;
  Env := Z * Z * Fault;
  key_ok := file_key root;
  store_ok := Consistent;
  value := key_value root value_at;
  settled := key_value root settled_at;
  read d k e := storage_read root d k e.2;
  compare_exchange d k x b e := storage_compare_exchange root d k x b e.1.1 e.1.2 e.2;
  crashed := housed_crash;
  settled_value := storage_settled_value;
  read_value d k e := storage_read_value d k e.2;
  exchange_ok d k x b e := storage_exchange_consistent d k x b e.1.1 e.1.2 e.2;
  exchange_other d k k' x b e := storage_exchange_other d k k' x b e.1.1 e.1.2 e.2;
  exchange_result d k x b e := storage_exchange_result d k x b e.1.1 e.1.2 e.2;
  crashed_ok := crash_consistent;
  crashed_value := storage_crash_value
|}.
End local.
End disk.

(** ** Properties *)

(** C12. A value that [compare_exchange] reported as applied is what every later read returns,
    until a greater revision replaces it, whatever exchanges, failing system calls and
    crashes come in between, as long as a crash finds every directory in use synced. *)
Theorem durable_applied_survives `{Murmur3} root d key expected bytes process sequence fault v d' fault' r :
  Consistent d → file_key root key → payload_ok bytes →
  (storage_compare_exchange root d key expected bytes process sequence fault).2 = Ok (Applied v) →
  rtc (@store_step (local_files root)) (storage_compare_exchange root d key expected bytes process sequence fault).1 d' →
  storage_read root d' key fault' = Ok r →
  olater (Some v) r.
Proof.
  intros C K Hb A Steps R.
  by apply (@applied_survives (local_files root) d key expected bytes (process, sequence, fault) v d' (process, sequence, fault')).
Qed.

(** Without failing system calls, [compare_exchange] replaces the value exactly when the
    expected revision is the current one, with the next revision, and reads return it. *)
Theorem durable_exchange_exact `{Murmur3} root d key expected bytes process sequence p :
  Consistent d → file_key root key → payload_ok bytes → key_path root key = Ok p →
  names d !! temporary p process sequence = None → expected ≠ Some u64_max →
  let current := value_at d p in
  let next := {| revision := match expected with Some r => r + 1 | None => 0 end; payload := bytes |} in
  let '(d', r) := storage_compare_exchange root d key expected bytes process sequence NoFault in
  storage_read root d key NoFault = Ok current ∧
  (revision <$> current ≠ expected → r = Ok (Conflict current) ∧ d' = create_dir_all d root) ∧
  (revision <$> current = expected → r = Ok (Applied next) ∧ storage_read root d' key NoFault = Ok (Some next)).
Proof.
  intros C K Hb E Ht Hx current next. pose proof C as [V _]. destruct K as [D _]. pose proof (key_path_state _ _ _ D E) as Hp.
  assert (∀ d, Valid d → storage_read root d key NoFault = Ok (value_at d p)) as Read.
  { intros d0 V0. unfold storage_read. rewrite E. cbn. unfold with_file_lock. rewrite !bool_decide_eq_false_2 by done.
    by apply (read_file_total (create_dir_all d0 root)). }
  unfold storage_compare_exchange. rewrite E. unfold with_file_lock. rewrite !bool_decide_eq_false_2 by done.
  set (d0 := create_dir_all d root). change (Valid d0) in V. change (names d0 !! temporary p process sequence = None) in Ht.
  destruct (exchange d0 p expected bytes process sequence NoFault) as [d' r] eqn:X.
  destruct (exchange_spec _ _ _ _ _ _ _ _ _ V Hp Hb X) as (V' & _ & R). split; [by apply Read|].
  unfold exchange in X. rewrite read_file_total in X by done. change (value_at d0 p) with current in X, R. split; intros Hrev.
  - rewrite (bool_decide_eq_false_2 (_ = expected)) in X by done. by injection X as <- <-.
  - rewrite (bool_decide_eq_true_2 (_ = expected)) in X by done. cbn [negb] in X.
    assert (next_revision expected = Ok (revision next)) as Hn.
    { destruct expected as [x|]; [|done]. cbn. unfold checked_add. rewrite bool_decide_eq_true_2; [done|].
      destruct current as [c|] eqn:Ec; [|discriminate Hrev]. injection Hrev as <-. pose proof (value_at_typed d p c V Hp Ec). 
      destruct H0 as [? _]. assert (revision c ≠ u64_max) by congruence. lia. }
    rewrite Hn in X. unfold write_file in X. rewrite !bool_decide_eq_false_2 in X by (done || (change (names (create_dir_all d0 _)) with (names d0); rewrite Ht; by intros [])). 
    injection X as <- <-. cbn in R. destruct R as (_ & Ev & _). split; [done|]. rewrite Read by done. by rewrite Ev.
Qed.

(** ** Witnesses *)
Definition zero_murmur3 : Murmur3 := {| murmur3_x64_128 := λ _, 0 |}.
(** A disk with synced directories [roots] and no files. *)
Definition empty_disk (roots : list (list string)) : Disk :=
  {| names := ∅; dnames := ∅; data := ∅; stable := ∅; dirs := list_to_set roots; ddirs := list_to_set roots |}.
Definition blank : Disk := empty_disk [["state"]].
(** The disk after a crash that loses every entry that was not synced. *)
Definition reverted (d : Disk) : Disk := {| names := dnames d; dnames := dnames d; data := data d; stable := stable d; dirs := dirs d; ddirs := dirs d |}.

Lemma empty_disk_consistent `{Murmur3} roots : Consistent (empty_disk roots).
Proof. split; [intros p i _ [E|E]; cbn [names dnames empty_disk] in E; by rewrite lookup_empty in E|done]. Qed.
Lemma reverted_crash d : crash d (reverted d).
Proof. split_and!; [intros p; right; by left|done..]. Qed.
#[export] Instance housed_dec d : Decision (housed d).
Proof.
  refine (cast_if (decide (map_Forall (λ p _, sheltered d p) (names d)))).
  - intros p [i E]. exact (m p i E).
  - intros Hh. apply n. intros p i E. apply Hh. by exists i.
Defined.

Lemma offset_key : file_key ["state"] "offset".
Proof. split; [apply (bool_decide_unpack (dotless "offset")); vm_compute; exact I|vm_compute; exact I]. Qed.
Lemma one_byte b : byte b → payload_ok [b].
Proof. split; [by apply Forall_singleton|cbn; unfold usize_max, u64_max; lia]. Qed.

Lemma durable_applied_survives_witness :
  let _ := zero_murmur3 in
  let d1 := (storage_compare_exchange ["state"] blank "offset" None [1] 7 0 NoFault).1 in
  let d2 := (storage_compare_exchange ["state"] d1 "offset" (Some 0) [2] 7 1 FailSyncDir).1 in
  storage_read ["state"] d2 "offset" NoFault = Ok (Some {| revision := 1; payload := [2] |}) ∧
  storage_read ["state"] (reverted d2) "offset" NoFault = Ok (Some {| revision := 0; payload := [1] |}) ∧
  olater (Some {| revision := 0; payload := [1] |}) (Some {| revision := 0; payload := [1] |}).
Proof.
  intros M d1 d2. split; [vm_compute; reflexivity|]. split; [vm_compute; reflexivity|].
  apply (@durable_applied_survives M ["state"] blank "offset" None [1] 7 0 NoFault _ (reverted d2) NoFault).
  - apply empty_disk_consistent.
  - apply offset_key.
  - by apply one_byte.
  - vm_compute; reflexivity.
  - apply rtc_l with d2; [|apply rtc_once, step_crash; split; [|apply reverted_crash]; apply (bool_decide_unpack (housed d2)); vm_compute; exact I].
    apply (@step_exchange (local_files ["state"]) _ "offset" (Some 0) [2] (7, 1, FailSyncDir)).
    + apply offset_key.
    + by apply one_byte.
  - vm_compute; reflexivity.
Defined.

Lemma durable_exchange_exact_witness :
  let _ := zero_murmur3 in
  let '(d', r) := storage_compare_exchange ["state"] blank "offset" None [1] 7 0 NoFault in
  storage_read ["state"] blank "offset" NoFault = Ok None ∧
  (r = Ok (Applied {| revision := 0; payload := [1] |}) ∧ storage_read ["state"] d' "offset" NoFault = Ok (Some {| revision := 0; payload := [1] |})).
Proof.
  intros M.
  pose proof (@durable_exchange_exact M ["state"] blank "offset" None [1] 7 0 ["state"; "offset.state"] (empty_disk_consistent _)) as W.
  specialize (W offset_key (one_byte 1 ltac:(done)) ltac:(vm_compute; reflexivity) ltac:(done) ltac:(done)). cbn zeta in W.
  destruct (storage_compare_exchange _ _ _ _ _ _ _ _) as [d' r]. destruct W as (W1 & _ & W2). split; [exact W1|]. by apply W2.
Defined.

(** Two keys that differ only after their last dot are kept in one file: [with_extension]
    replaces the text after the dot, and [validate_component] allows dots. *)
Theorem dotted_keys_share_a_file root :
  key_path root "orders.old" = key_path root "orders.new" ∧ key_path root "orders.new" = Ok (root ++ ["orders.state"]).
Proof.
  assert (∀ c, split_on "/" c = [c] → validate_component c = Ok tt → file_name [c] = Some c →
    key_path root c = Ok (root ++ [file_stem c +:+ ".state"])) as K.
  { intros c Hs Hv Hf. unfold key_path. rewrite Hs. cbn [for_each]. rewrite Hv. cbn [mbind result_bind].
    revert Hf. unfold with_extension, file_name. rewrite reverse_snoc. change (reverse [c]) with [c]. cbn [drop_dots].
    case_bool_decide; [done|]. case_bool_decide; [done|]. intros _. change (drop 1 (c :: ?l)) with l. by rewrite reverse_involutive. }
  by rewrite !K by (vm_compute; reflexivity).
Qed.

(** C39. The first value of a delivery can be lost although it was reported as applied: the
    directory [write_file] creates is synced itself, its entry in the directory above is
    not.  The storage root exists here; the directory of the delivery is new. *)
Theorem fresh_directory_not_synced `{Murmur3} :
  let d := empty_disk [["state"]] in
  let '(d', r) := storage_compare_exchange ["state"; "delivery"] d "offset" None [1] 7 0 NoFault in
  r = Ok (Applied {| revision := 0; payload := [1] |}) ∧
  ∃ d'', crash d' d'' ∧ storage_read ["state"; "delivery"] d'' "offset" NoFault = Ok None.
Proof.
  cbn zeta. destruct (storage_compare_exchange _ _ _ _ _ _ _ _) as [d' r] eqn:X.
  assert (key_path ["state"; "delivery"] "offset" = Ok ["state"; "delivery"; "offset.state"]) as K by (vm_compute; reflexivity).
  assert (ddirs d' = {[ ["state"] ]} ∧ names d' = {[ ["state"; "delivery"; "offset.state"] := 0%nat ]} ∧ r = Ok (Applied {| revision := 0; payload := [1] |})) as (Hd & Hn & ->).
  { unfold storage_compare_exchange, with_file_lock in X. rewrite K in X. unfold exchange, read_file in X.
    rewrite !bool_decide_eq_false_2 in X by done. cbn [names empty_disk create_dir_all] in X. rewrite lookup_empty in X.
    cbn [fmap option_fmap option_map] in X. rewrite bool_decide_eq_true_2 in X by done. cbn [negb next_revision] in X. unfold write_file in X.
    rewrite !bool_decide_eq_false_2 in X by (done || by intros []).
    injection X as <- <-. split_and!; [vm_compute; reflexivity..|done]. }
  split; [done|].
  exists {| names := ∅; dnames := ∅; data := data d'; stable := stable d'; dirs := dirs d'; ddirs := dirs d' |}.
  split; [|unfold storage_read; rewrite K; vm_compute; reflexivity].
  split_and!; cbn [names dnames data stable dirs ddirs]; [|done..]. intros p. rewrite lookup_empty, Hn.
  destruct (decide (p = ["state"; "delivery"; "offset.state"])) as [->|Hp]; [|left; by rewrite lookup_singleton_ne].
  right; right. split; [|done]. unfold sheltered. rewrite Hd. vm_compute ancestors.
  intros [_ [HF _]%Forall_cons]%Forall_cons. set_solver.
Qed.
