(* ===== verification/DurableRecord.v ===== *)
(** * A record kept in durable storage

    The scheme the connectors share: a process reads the record of a key, keeps its
    revision and contents in a handle, and replaces it with [compare_exchange] on that
    revision.  When every replacement advances the contents, an acknowledged replacement is
    never undone, however many processes hold handles and wherever calls fail or the machine
    crashes. *)

From stdpp Require Import base tactics numbers option strings relations list.
From S2P Require Import Prelude Bytes Durable DurableStorage.
Local Open Scope Z_scope.

(** [Result::map_err] *)
Definition map_err {E F A} (f : E → F) (r : result E A) : result F A :=
  match r with Ok a => Ok a | Err e => Err (f e) end.

Lemma map_err_Ok {E F A} (f : E → F) (r : result E A) a : map_err f r = Ok a ↔ r = Ok a.
Proof. destruct r; cbn; split; congruence. Qed.

(** [serde_json] on a state type: what is written is read back. *)
Class Json (St : Type) := {
  to_vec : St → option (list Z);
  from_slice : list Z → option St;
  from_to st b : to_vec st = Some b → from_slice b = Some st;
  to_vec_fits st b : to_vec st = Some b → payload_ok b
}.

Record Handle (St : Type) := { handle_revision : Z; handle_identity : St }.
Arguments handle_revision {St}.
Arguments handle_identity {St}.
Arguments Build_Handle {St}.

Section record.
Context `{DurableStorage} {St : Type} `{!Json St} (key : string) (advance : St → St → Prop) `{!PreOrder advance}.

(** ** The protocol *)
Definition handle_of (r : result DurableError CompareExchangeResult) (st : St) : list (Handle St) :=
  match r with
  | Ok (Applied v) => [{| handle_revision := revision v; handle_identity := st |}]
  | _ => []
  end.

Inductive record_step : Store * list (Handle St) → Store * list (Handle St) → Prop :=
| record_open s hs e v st :
    read s key e = Ok (Some v) → from_slice (payload v) = Some st →
    record_step (s, hs) (s, {| handle_revision := revision v; handle_identity := st |} :: hs)
| record_create s hs e st b :
    to_vec st = Some b →
    record_step (s, hs) ((compare_exchange s key None b e).1, handle_of (compare_exchange s key None b e).2 st ++ hs)
| record_update s hs e h st b :
    h ∈ hs → advance (handle_identity h) st → to_vec st = Some b →
    record_step (s, hs) ((compare_exchange s key (Some (handle_revision h)) b e).1,
                         handle_of (compare_exchange s key (Some (handle_revision h)) b e).2 st ++ hs)
| record_elsewhere s hs k x b e :
    k ≠ key → key_ok k → payload_ok b → record_step (s, hs) ((compare_exchange s k x b e).1, hs)
| record_crash s hs s' : crashed s s' → record_step (s, hs) (s', []).

(** ** The contents *)
Definition holds (o : option DurableValue) (st : St) : Prop := ∃ v, o = Some v ∧ from_slice (payload v) = Some st.
(** Contents only advance. *)
Definition older (o o' : option DurableValue) : Prop :=
  ∀ v, o = Some v → ∃ st st', from_slice (payload v) = Some st ∧ holds o' st' ∧ advance st st'.

Lemma older_holds o o' st : older o o' → holds o st → ∃ st', holds o' st' ∧ advance st st'.
Proof. intros Ho (v & -> & E). destruct (Ho v eq_refl) as (st0 & st' & E0 & Hh & Ha). simplify_eq. eauto. Qed.
Lemma older_refl o : older o o ↔ ∀ v, o = Some v → is_Some (from_slice (payload v)).
Proof.
  split.
  - intros Ho v Ev. destruct (Ho v Ev) as (st & _ & E & _). eauto.
  - intros Hd v Ev. destruct (Hd v Ev) as [st E]. exists st, st. split_and!; [done|by exists v|done].
Qed.
Lemma older_trans o1 o2 o3 : older o1 o2 → older o2 o3 → older o1 o3.
Proof.
  intros H12 H23 v Ev. destruct (H12 v Ev) as (st1 & st2 & E1 & Hh2 & A12).
  destruct (older_holds _ _ _ H23 Hh2) as (st3 & Hh3 & A23). exists st1, st3. split_and!; [done..|by etrans].
Qed.
Lemma older_None o : older None o.
Proof. by intros v. Qed.

Record RecordInv (c : Store * list (Handle St)) : Prop := {
  record_store : store_ok c.1;
  record_value : older (value c.1 key) (value c.1 key);
  record_settled : older (settled c.1 key) (value c.1 key);
  record_handles h : h ∈ c.2 → ∃ v, value c.1 key = Some v ∧ handle_revision h ≤ revision v ∧
    (handle_revision h = revision v → from_slice (payload v) = Some (handle_identity h))
}.

Context (Hkey : key_ok key).

(** An exchange of the key whose new contents advance the current ones. *)
Definition admissible (s : Store) (x : option Z) (st : St) : Prop :=
  ∀ v, value s key = Some v → x = Some (revision v) → ∃ st0, from_slice (payload v) = Some st0 ∧ advance st0 st.

Lemma handle_admissible s hs h st : RecordInv (s, hs) → h ∈ hs → advance (handle_identity h) st → admissible s (Some (handle_revision h)) st.
Proof.
  intros I Hin Ha u Eu [= Er]. destruct (record_handles _ I h Hin) as (x & Ex & _ & Hd). cbn in Ex. simplify_eq. eauto.
Qed.

Lemma follows_older s x b v st :
  admissible s x st → to_vec st = Some b → follows (value s key) x b v → older (value s key) (Some v).
Proof.
  intros Ha Hb (Hx & _ & Hp) u Eu. rewrite Eu in Hx. destruct (Ha u Eu (eq_sym Hx)) as (st0 & E0 & A).
  exists st0, st. split_and!; [done| |done]. exists v. split; [done|]. rewrite Hp. by apply from_to.
Qed.

Lemma exchange_inv s hs x b e st :
  RecordInv (s, hs) → admissible s x st → to_vec st = Some b →
  let s' := (compare_exchange s key x b e).1 in
  let r := (compare_exchange s key x b e).2 in
  RecordInv (s', handle_of r st ++ hs) ∧ older (value s key) (value s' key) ∧ older (settled s key) (settled s' key) ∧
  (∀ v, r = Ok (Applied v) → holds (settled s' key) st).
Proof.
  intros [Hs Hv Hset Hh] Ha Hb s' r. cbn [fst snd] in *. pose proof (to_vec_fits _ _ Hb) as Hfit.
  pose proof (exchange_result s key x b e Hs Hkey Hfit) as R. cbn zeta in R. fold s' r in R.
  assert (store_ok s') as Hs' by (by apply exchange_ok).
  assert (older (settled s key) (settled s key)) as Hset'.
  { apply older_refl. intros v Ev. destruct (Hset v Ev) as (st0 & _ & E0 & _). eauto. }
  assert (∀ v, follows (value s key) x b v → older (Some v) (Some v)) as Hnew.
  { intros v (_ & _ & <-). apply older_refl. intros ? [= <-]. rewrite (from_to _ _ Hb). eauto. }
  assert (∀ v, follows (value s key) x b v → ∀ h, h ∈ hs → ∃ w, Some v = Some w ∧ handle_revision h ≤ revision w ∧
    (handle_revision h = revision w → from_slice (payload w) = Some (handle_identity h))) as Hold.
  { intros v Fo h Hin. exists v. destruct (Hh h Hin) as (w & Ew & Hle & _). apply follows_later in Fo. rewrite Ew in Fo.
    destruct Fo as [->|Hlt]; [|split_and!; [done|lia|lia]]. destruct (Hh h Hin) as (w' & Ew' & ? & ?). simplify_eq. auto. }
  assert (∀ v, follows (value s key) x b v → older (value s key) (Some v)) as Hadv by (intros v; by apply follows_older with st).
  destruct r as [[v|c]|err]; cbn [handle_of app].
  - destruct R as (Fo & Ev & Es). rewrite Ev, Es. pose proof (Hnew v Fo) as Hn.
    split_and!; [split; cbn [fst snd]; rewrite ?Ev, ?Es| | |]; try done; [|by apply Hadv|eapply older_trans; [exact Hset|by apply Hadv]|].
    + intros h [->|Hin]%elem_of_cons; [|by apply Hold]. exists v. split_and!; [done|cbn; lia|].
      intros _. destruct Fo as (_ & _ & <-). by apply from_to.
    + intros ? [= <-]. exists v. split; [done|]. destruct Fo as (_ & _ & <-). by apply from_to.
  - destruct R as (_ & _ & Ev & Es). rewrite Ev, Es. split_and!; [split; cbn [fst snd]; rewrite ?Ev, ?Es|..]; done.
  - destruct R as [[Es [Ev|(v & Fo & Ev)]]|(v & Fo & Ev & Es)]; rewrite ?Es, ?Ev;
      (split_and!; [split; cbn [fst snd]; rewrite ?Ev, ?Es| | |]); try done; eauto using older_trans.
Qed.

(** ** Replacing the record *)
Section replace.
Context {F : Type} (of_storage : DurableError → F) (json conflict : F).

Definition replace_record (s : Store) (x : option Z) (next : St) (e : Env) : Store * result F (Handle St) :=
  match to_vec next with
  | None => (s, Err json)
  | Some bytes =>
      let '(s, r) := compare_exchange s key x bytes e in
      (s, match r with
          | Err e => Err (of_storage e)
          | Ok (Applied v) => Ok {| handle_revision := revision v; handle_identity := next |}
          | Ok (Conflict _) => Err conflict
          end)
  end.
Definition replaced (r : result F (Handle St)) : list (Handle St) := match r with Ok t => [t] | Err _ => [] end.

Lemma replace_record_identity s x next e s1 t1 : replace_record s x next e = (s1, Ok t1) → handle_identity t1 = next.
Proof.
  unfold replace_record. destruct (to_vec next); [|done]. destruct (compare_exchange _ _ _ _ _) as [? [[]|]]; [|done..]. by intros [= _ <-].
Qed.
Lemma replace_created s hs next e :
  let r := replace_record s None next e in rtc record_step (s, hs) (r.1, replaced r.2 ++ hs).
Proof.
  cbn zeta. unfold replace_record. destruct (to_vec next) as [bytes|] eqn:Hb; [|done]. pose proof (record_create s hs e next bytes Hb) as Step.
  destruct (compare_exchange _ _ _ _ _) as [s' [[v|c]|err]]; cbn in *; by apply rtc_once.
Qed.
Lemma replace_updated s hs h next e :
  h ∈ hs → advance (handle_identity h) next →
  let r := replace_record s (Some (handle_revision h)) next e in rtc record_step (s, hs) (r.1, replaced r.2 ++ hs).
Proof.
  intros Hh Ha. cbn zeta. unfold replace_record. destruct (to_vec next) as [bytes|] eqn:Hb; [|done].
  pose proof (record_update s hs e h next bytes Hh Ha Hb) as Step.
  destruct (compare_exchange _ _ _ _ _) as [s' [[v|c]|err]]; cbn in *; by apply rtc_once.
Qed.
Lemma replace_record_settles s hs x next e s1 t1 :
  RecordInv (s, hs) → admissible s x next → replace_record s x next e = (s1, Ok t1) →
  handle_identity t1 = next ∧ RecordInv (s1, t1 :: hs) ∧ holds (settled s1 key) next.
Proof.
  intros I Ha. unfold replace_record. destruct (to_vec next) as [bytes|] eqn:Hb; [|done].
  destruct (exchange_inv s hs x bytes e next I Ha Hb) as (I1 & _ & _ & Hs).
  destruct (compare_exchange _ _ _ _ _) as [s' [[v|c]|err]]; cbn in *; [|done..]. intros [= <- <-]. split_and!; [done|done|by eapply Hs].
Qed.
End replace.

Lemma record_step_inv c c' : RecordInv c → record_step c c' → RecordInv c' ∧ older (settled c.1 key) (settled c'.1 key).
Proof.
  intros I Step. assert (older (settled c.1 key) (settled c.1 key)) as Hset.
  { apply older_refl. intros v Ev. destruct (record_settled c I v Ev) as (st0 & _ & E0 & _). eauto. }
  destruct Step as [s hs e v st R D|s hs e st b Hb|s hs e h st b Hin Ha Hb|s hs k x b e Hne Hk Hb|s hs s' Hc]; cbn [fst] in *.
  - split; [|done]. destruct I as [Hs Hv Hst Hh]. cbn [fst snd] in *. apply read_value in R; [|done..].
    split; cbn [fst snd]; [done..|]. intros h [->|Hin]%elem_of_cons; [|by apply Hh]. exists v. split_and!; [done|cbn; lia|done].
  - destruct (exchange_inv s hs None b e st I) as (? & _ & ? & _); [|done|done]. intros v _ [=].
  - destruct (exchange_inv s hs (Some (handle_revision h)) b e st I) as (? & _ & ? & _); [by eapply handle_admissible|done|done].
  - destruct I as [Hs Hv Hst Hh]. cbn [fst snd] in *.
    destruct (exchange_other s k key x b e) as [Ev Es]; [done..|]. cbn zeta in Ev, Es.
    assert (store_ok (compare_exchange s k x b e).1) by (by apply exchange_ok).
    split; [split; cbn [fst snd]; rewrite ?Ev; try done|]; destruct Es as [E|E]; by rewrite E.
  - destruct I as [Hs Hv Hst Hh]. cbn [fst snd] in *. destruct (crashed_value s s' key Hs Hc Hkey) as [Ev Es].
    assert (store_ok s') by (by eapply crashed_ok). rewrite Es.
    split; [split; cbn [fst snd]; [done|..]; rewrite ?Es|]; try (by destruct Ev as [E|E]; rewrite E).
    by intros h Hin%elem_of_nil.
Qed.

Lemma record_steps_inv c c' : RecordInv c → rtc record_step c c' → RecordInv c' ∧ older (settled c.1 key) (settled c'.1 key).
Proof.
  intros I Steps. revert I. induction Steps as [c|c c1 c2 Step _ IH]; intros I.
  - split; [done|]. apply older_refl. intros v Ev. destruct (record_settled c I v Ev) as (st0 & _ & E0 & _). eauto.
  - destruct (record_step_inv c c1 I Step) as [I1 O1]. destruct (IH I1) as [I2 O2]. split; [done|by eapply older_trans].
Qed.

Lemma record_weaken s hs hs' : hs ⊆ hs' → RecordInv (s, hs') → RecordInv (s, hs).
Proof. intros Hsub []. split; cbn in *; auto. Qed.

(** A client whose steps are histories of the protocol keeps the invariant. *)
Lemma record_histories (step : relation (Store * list (Handle St))) :
  (∀ c c', step c c' → ∃ hs, rtc record_step c (c'.1, hs) ∧ c'.2 ⊆ hs) →
  ∀ c c', RecordInv c → rtc step c c' → RecordInv c' ∧ older (settled c.1 key) (settled c'.1 key).
Proof.
  intros Hstep c c' I Steps. revert I. induction Steps as [c|c c1 c2 Hst _ IH]; intros I.
  - by apply record_steps_inv.
  - destruct (Hstep c c1 Hst) as (hs & Rs & Hsub). destruct (record_steps_inv c _ I Rs) as [I1 O1]. destruct c1 as [s1 ts1].
    destruct (IH (record_weaken _ _ _ Hsub I1)) as [I2 O2]. split; [done|by eapply older_trans].
Qed.

Lemma record_initial s : store_ok s → value s key = None → RecordInv (s, []).
Proof.
  intros Hs Hv. pose proof (settled_value s key Hs Hkey) as Ho. rewrite Hv in Ho.
  split; cbn [fst snd]; [done|by rewrite Hv|destruct (settled s key); [done|apply older_None]|]. by intros h Hin%elem_of_nil.
Qed.

(** What is certain to survive is what every later read finds, or less. *)
Lemma settled_read c e st r : RecordInv c → holds (settled c.1 key) st → read c.1 key e = Ok r → ∃ st', holds r st' ∧ advance st st'.
Proof.
  intros I Hh R. apply read_value in R as ->; [|apply I|done]. by eapply older_holds; [apply (record_settled c I)|].
Qed.
End record.
