(* ===== verification/MySqlTables.v ===== *)
(** * MySQL table identities

    The identity types of [src_batch_and_stream/mod.rs], the replication settings of
    [src_stream/config.rs] and the metadata functions of [src_batch/connector.rs] (all of
    transferia-connector-mysql), with the two validations of tables: the offset's
    ([src_stream/offset.rs]) and the snapshot phase's ([src_batch_and_stream/phase.rs]). *)

From Stdlib Require Import Ascii.
From stdpp Require Import base tactics numbers option strings list.
From S2P Require Import Prelude Bytes Text.
Local Open Scope Z_scope.

Inductive MySqlColumnVisibility := Visible | Invisible.
Inductive MySqlColumnGeneration := NotGenerated | Virtual | Stored.
Inductive MySqlCollationPadding := PadSpace | NoPad.
#[export] Instance MySqlColumnVisibility_eq_dec : EqDecision MySqlColumnVisibility.
Proof. solve_decision. Defined.
#[export] Instance MySqlColumnGeneration_eq_dec : EqDecision MySqlColumnGeneration.
Proof. solve_decision. Defined.
#[export] Instance MySqlCollationPadding_eq_dec : EqDecision MySqlCollationPadding.
Proof. solve_decision. Defined.

Record MySqlSourceIdentity := { server_uuid : string; source_database : string }.
#[export] Instance MySqlSourceIdentity_eq_dec : EqDecision MySqlSourceIdentity.
Proof. solve_decision. Defined.

Record MySqlBinlogBoundary := {
  boundary_filename : string; boundary_offset : Z (* u64 *); gtid_executed : string; source_timestamp_micros : Z (* i64 *)
}.
#[export] Instance MySqlBinlogBoundary_eq_dec : EqDecision MySqlBinlogBoundary.
Proof. solve_decision. Defined.

Record AuthoritativeColumnIdentity := {
  column_name : string; data_type : string; column_type : string;
  unsigned_flag : bool; zerofill : bool; auto_increment : bool; nullable : bool;
  character_maximum_length : option Z; character_octet_length : option Z;
  numeric_precision : option Z; numeric_scale : option Z; datetime_precision : option Z;
  character_set : option string; collation : option string; collation_id : option Z;
  collation_padding : option MySqlCollationPadding;
  enum_set_values : option (list string);
  srs_id : option Z;
  visibility : MySqlColumnVisibility; generation : MySqlColumnGeneration;
  extra : string; generation_expression : option string;
  primary_key_ordinal : option Z; primary_key_prefix_length : option Z; primary_key_direction : option string
}.
#[export] Instance AuthoritativeColumnIdentity_eq_dec : EqDecision AuthoritativeColumnIdentity.
Proof. solve_decision. Defined.

Record AuthoritativeTableIdentity := {
  database : string; table : string; engine : string; columns : list AuthoritativeColumnIdentity
}.
#[export] Instance AuthoritativeTableIdentity_eq_dec : EqDecision AuthoritativeTableIdentity.
Proof. solve_decision. Defined.

Inductive TableError :=
| NoTables | IncompleteTable | RepeatedTable | IncompleteColumn | BadOrdinal | NoPrimaryKey
| BadServerUuid | BadIdentifier | NotInnoDb | NoColumns | RepeatedColumn | RepeatedOrdinal | OrdinalGap
| EmptyColumnType | CollationMetadata | NumericModifiers | EnumSetMembers | VisibilityMetadata | GenerationMetadata
| StructuredMetadata (n : nat) | NullableKey | KeyPrefixLength | KeyDirection | KeyModifiers
| VirtualAndStored | GenerationDisagrees
| Framing | NotQuoted | Unterminated | EndsInEscape | NotUtf8 | NotCommaSeparated | TrailingComma | NoMembers
| SettingsError (n : nat).

(** ** Replication settings: [src_stream/config.rs] *)
Record MySqlReplicationConfig := {
  server_id : Z (* u32 *); max_events : Z; max_transaction_bytes : Z; poll_interval_ms : Z; bootstrap_timeout_ms : Z
}.
Definition MYSQL_CLIENT_PACKET_MAX_BYTES : Z := 1073741824.
(** [BinlogEventHeader::LEN] of mysql_async, as the message says. *)
Definition EVENT_HEADER_LEN : Z := 19.

Definition heartbeat_period_nanoseconds (poll : Z) : result TableError Z :=
  if bool_decide (poll * 1000000 ≤ u64_max) then Ok (poll * 1000000) else Err (SettingsError 4).
Definition config_validate (c : MySqlReplicationConfig) : result TableError unit :=
  ensure (bool_decide (0 < max_events c)) (SettingsError 0) ≫= λ _,
  ensure (bool_decide (EVENT_HEADER_LEN ≤ max_transaction_bytes c)) (SettingsError 1) ≫= λ _,
  ensure (bool_decide (max_transaction_bytes c ≤ MYSQL_CLIENT_PACKET_MAX_BYTES)) (SettingsError 2) ≫= λ _,
  ensure (bool_decide (0 < poll_interval_ms c)) (SettingsError 3) ≫= λ _,
  heartbeat_period_nanoseconds (poll_interval_ms c) ≫= λ _,
  ensure (bool_decide (0 < bootstrap_timeout_ms c)) (SettingsError 5) ≫= λ _,
  ensure (bool_decide (poll_interval_ms c < bootstrap_timeout_ms c)) (SettingsError 6).

(** 32-bit FNV-1. *)
Definition fnv1 (bytes : list Z) : Z :=
  foldl (λ hash b, Z.lxor (wrapping_mul u32_max hash 16777619) b) 2166136261 bytes.
Definition for_delivery (c : MySqlReplicationConfig) (delivery_id : string) : result TableError MySqlReplicationConfig :=
  ensure (negb (bool_decide (delivery_id = ""))) (SettingsError 7) ≫= λ _,
  let id := fnv1 (string_bytes delivery_id) in
  ensure (negb (bool_decide (id = 0))) (SettingsError 8) ≫= λ _,
  Ok {| server_id := id; max_events := max_events c; max_transaction_bytes := max_transaction_bytes c;
        poll_interval_ms := poll_interval_ms c; bootstrap_timeout_ms := bootstrap_timeout_ms c |}.
Definition default_config : MySqlReplicationConfig :=
  {| server_id := 0; max_events := 4096; max_transaction_bytes := 64 * 1024 * 1024;
     poll_interval_ms := 100; bootstrap_timeout_ms := 30000 |}.

(** ** Column metadata: [src_batch/connector.rs] *)
Definition has_modifier (text : string) (modifier : string) : bool :=
  existsb (λ token, eq_ignore_ascii_case token (string_bytes modifier)) (split_ascii_whitespace text).
Definition has_column_type_modifier (column_type modifier : string) : bool := has_modifier column_type modifier.
Definition has_extra_modifier (extra modifier : string) : bool := has_modifier extra modifier.
Definition column_visibility (extra : string) : MySqlColumnVisibility :=
  if has_extra_modifier extra "invisible" then Invisible else Visible.

(** [windows(2)] of the tokens. *)
Fixpoint has_pair (storage : string) (tokens : list (list Z)) : bool :=
  match tokens with
  | a :: (b :: _) as rest =>
      (eq_ignore_ascii_case a (string_bytes storage) && eq_ignore_ascii_case b (string_bytes "generated")) || has_pair storage rest
  | _ => false
  end.
Definition column_generation (extra : string) (generation_expression : option string) : result TableError MySqlColumnGeneration :=
  let tokens := split_ascii_whitespace extra in
  let virtual_generated := has_pair "virtual" tokens in
  let stored_generated := has_pair "stored" tokens in
  ensure (negb (virtual_generated && stored_generated)) VirtualAndStored ≫= λ _,
  let expression_present := match generation_expression with Some value => negb (bool_decide (value = "")) | None => false end in
  ensure (eqb expression_present (virtual_generated || stored_generated)) GenerationDisagrees ≫= λ _,
  Ok (if virtual_generated then Virtual else if stored_generated then Stored else NotGenerated).

Definition one_of (s : string) (l : list string) : bool := bool_decide (s ∈ l).
Definition textual : list string :=
  ["char"; "varchar"; "tinytext"; "text"; "mediumtext"; "longtext"; "enum"; "set"; "inet4"; "inet6"; "uuid"].
Definition with_capacity : list string :=
  ["char"; "varchar"; "binary"; "varbinary"; "tinytext"; "text"; "mediumtext"; "longtext"; "tinyblob"; "blob";
   "mediumblob"; "longblob"; "enum"; "set"; "inet4"; "inet6"; "uuid"].
Definition numeric : list string :=
  ["tinyint"; "smallint"; "mediumint"; "int"; "integer"; "bigint"; "decimal"; "numeric"; "float"; "double"; "real"; "bit"].
Definition spatial : list string :=
  ["geometry"; "point"; "linestring"; "polygon"; "multipoint"; "multilinestring"; "multipolygon"; "geometrycollection"].
Definition some {A} (o : option A) : bool := match o with Some _ => true | None => false end.

Definition validate_structured_column_metadata (c : AuthoritativeColumnIdentity) : result TableError unit :=
  ensure (negb (bool_decide (data_type c = ""))) (StructuredMetadata 0) ≫= λ _,
  ensure (eqb (one_of (data_type c) textual) (some (character_set c))) (StructuredMetadata 1) ≫= λ _,
  ensure (negb (one_of (data_type c) with_capacity) || (some (character_maximum_length c) && some (character_octet_length c)))
    (StructuredMetadata 2) ≫= λ _,
  ensure (match character_maximum_length c, character_octet_length c with
          | Some characters, Some octets => bool_decide (characters ≤ octets)
          | _, _ => true end) (StructuredMetadata 3) ≫= λ _,
  ensure (negb (some (numeric_scale c)) || some (numeric_precision c)) (StructuredMetadata 4) ≫= λ _,
  ensure (eqb (one_of (data_type c) numeric) (some (numeric_precision c))) (StructuredMetadata 5) ≫= λ _,
  ensure (negb (one_of (data_type c) ["decimal"; "numeric"]) || some (numeric_scale c)) (StructuredMetadata 6) ≫= λ _,
  ensure (eqb (one_of (data_type c) ["datetime"; "timestamp"; "time"]) (some (datetime_precision c))) (StructuredMetadata 7) ≫= λ _,
  ensure (match datetime_precision c with Some p => bool_decide (p ≤ 6) | None => true end) (StructuredMetadata 8) ≫= λ _,
  ensure (eqb (one_of (data_type c) ["enum"; "set"]) (some (enum_set_values c))) (StructuredMetadata 9) ≫= λ _,
  ensure (negb (some (srs_id c)) || one_of (data_type c) spatial) (StructuredMetadata 10).

(** ** ENUM and SET members *)
Definition escaped_byte (b : Z) : Z :=
  match b with 48 => 0 | 98 => 8 | 110 => 10 | 114 => 13 | 116 => 9 | 90 => 26 | b => b end.

(** The inner loop: the rest of a quoted member and what follows it. *)
Fixpoint parse_member (input value : list Z) : result TableError (list Z * list Z) :=
  match input with
  | [] => Err Unterminated
  | 39 :: rest =>
      match rest with
      | 39 :: rest => parse_member rest (value ++ [39])
      | _ => Ok (value, rest)
      end
  | 92 :: rest =>
      match rest with
      | [] => Err EndsInEscape
      | e :: rest => parse_member rest (value ++ [escaped_byte e])
      end
  | b :: rest => parse_member rest (value ++ [b])
  end.

(** The outer loop; every turn consumes input. *)
Fixpoint parse_members (fuel : nat) (input : list Z) (values : list string) : result TableError (list string) :=
  match fuel, input with
  | O, _ | _, [] => Ok values
  | S fuel, q :: input =>
      ensure (bool_decide (q = 39)) NotQuoted ≫= λ _,
      parse_member input [] ≫= λ '(value, rest),
      ok_or (from_utf8 value) NotUtf8 ≫= λ value,
      let values := values ++ [value] in
      match rest with
      | [] => Ok values
      | c :: rest =>
          ensure (bool_decide (c = 44)) NotCommaSeparated ≫= λ _,
          ensure (negb (bool_decide (rest = []))) TrailingComma ≫= λ _,
          parse_members fuel rest values
      end
  end.

Definition parse_enum_set_values (data_type column_type : string) : result TableError (option (list string)) :=
  if negb (one_of data_type ["enum"; "set"]) then Ok None
  else
    let prefix := string_bytes (data_type +:+ "(") in
    let bytes := string_bytes column_type in
    ensure (eq_ignore_ascii_case (firstn (length prefix) bytes) prefix && bool_decide (last bytes = Some 41)) Framing ≫= λ _,
    let input := drop (length prefix) (removelast bytes) in
    parse_members (length input) input [] ≫= λ values,
    ensure (negb (bool_decide (values = []))) NoMembers ≫= λ _,
    Ok (Some values).

(** ** Identifiers *)
Definition MAX_IDENTIFIER_CHARS : nat := 64.
Definition validate_identifier (value : string) : result TableError unit :=
  ensure (negb (bool_decide (value = "")) && bool_decide (char_count value ≤ MAX_IDENTIFIER_CHARS)%nat &&
          bool_decide (0 ∉ string_bytes value)) BadIdentifier.

Definition is_hexdigit (b : Z) : bool :=
  bool_decide (48 ≤ b ≤ 57) || bool_decide (97 ≤ b ≤ 102) || bool_decide (65 ≤ b ≤ 70).
Definition validate_server_uuid (uuid : string) : result TableError unit :=
  ensure (bool_decide (length (string_bytes uuid) = 36)%nat &&
          forallb (λ ib, if bool_decide (ib.1 ∈ [8; 13; 18; 23]%nat) then bool_decide (ib.2 = 45) else is_hexdigit ib.2)
            (imap pair (string_bytes uuid))) BadServerUuid.

Definition is_innodb (engine : string) : bool := eq_ignore_ascii_case (string_bytes engine) (string_bytes "InnoDB").

(** ** Validation of the offset's tables: [offset.rs] *)
Definition offset_column (seen : list string * list Z) (c : AuthoritativeColumnIdentity)
    : result TableError (list string * list Z) :=
  ensure (negb (bool_decide (column_name c = "")) && negb (bool_decide (column_type c = "")) &&
          bool_decide (column_name c ∉ seen.1)) IncompleteColumn ≫= λ _,
  match primary_key_ordinal c with
  | Some ordinal =>
      ensure (bool_decide (0 < ordinal) && bool_decide (ordinal ∉ seen.2)) BadOrdinal ≫= λ _,
      Ok (column_name c :: seen.1, ordinal :: seen.2)
  | None => Ok (column_name c :: seen.1, seen.2)
  end.
Definition offset_table (seen : list (string * string)) (t : AuthoritativeTableIdentity)
    : result TableError (list (string * string)) :=
  ensure (negb (bool_decide (database t = "")) && negb (bool_decide (table t = "")) && is_innodb (engine t) &&
          negb (bool_decide (columns t = []))) IncompleteTable ≫= λ _,
  ensure (bool_decide ((database t, table t) ∉ seen)) RepeatedTable ≫= λ _,
  for_each offset_column (columns t) ([], []) ≫= λ '(_, ordinals),
  ensure (negb (bool_decide (ordinals = []))) NoPrimaryKey ≫= λ _,
  Ok ((database t, table t) :: seen).
Definition validate_table_identities (tables : list AuthoritativeTableIdentity) : result TableError unit :=
  ensure (negb (bool_decide (tables = []))) NoTables ≫= λ _,
  for_each offset_table tables [] ≫= λ _, Ok tt.

(** ** Validation of the snapshot's tables: [phase.rs] *)
Definition validate_authoritative_column (c : AuthoritativeColumnIdentity) : result TableError unit :=
  validate_identifier (column_name c) ≫= λ _,
  ensure (negb (bool_decide (column_type c = ""))) EmptyColumnType ≫= λ _,
  ensure (eqb (some (character_set c)) (some (collation c)) && eqb (some (collation c)) (some (collation_id c)) &&
          eqb (some (collation c)) (some (collation_padding c))) CollationMetadata ≫= λ _,
  ensure (eqb (unsigned_flag c) (has_column_type_modifier (column_type c) "unsigned") &&
          eqb (zerofill c) (has_column_type_modifier (column_type c) "zerofill") &&
          eqb (auto_increment c) (has_extra_modifier (extra c) "auto_increment") &&
          (negb (zerofill c) || unsigned_flag c)) NumericModifiers ≫= λ _,
  parse_enum_set_values (data_type c) (column_type c) ≫= λ values,
  ensure (bool_decide (enum_set_values c = values)) EnumSetMembers ≫= λ _,
  ensure (bool_decide (visibility c = column_visibility (extra c))) VisibilityMetadata ≫= λ _,
  column_generation (extra c) (generation_expression c) ≫= λ generated,
  ensure (bool_decide (generation c = generated)) GenerationMetadata ≫= λ _,
  validate_structured_column_metadata c ≫= λ _,
  ensure (negb (some (primary_key_ordinal c)) || negb (nullable c)) NullableKey ≫= λ _,
  ensure (match primary_key_prefix_length c with
          | Some length => bool_decide (0 < length) && some (primary_key_ordinal c)
          | None => true end) KeyPrefixLength ≫= λ _,
  ensure (match primary_key_direction c with
          | Some direction => some (primary_key_ordinal c) && one_of direction ["A"; "D"]
          | None => true end) KeyDirection ≫= λ _,
  ensure (some (primary_key_ordinal c) ||
          (negb (some (primary_key_prefix_length c)) && negb (some (primary_key_direction c)))) KeyModifiers.

Definition phase_column (seen : list string * list Z) (c : AuthoritativeColumnIdentity)
    : result TableError (list string * list Z) :=
  validate_authoritative_column c ≫= λ _,
  ensure (bool_decide (column_name c ∉ seen.1)) RepeatedColumn ≫= λ _,
  match primary_key_ordinal c with
  | Some ordinal =>
      ensure (bool_decide (ordinal ∉ seen.2)) RepeatedOrdinal ≫= λ _,
      Ok (column_name c :: seen.1, ordinal :: seen.2)
  | None => Ok (column_name c :: seen.1, seen.2)
  end.
Definition validate_authoritative_table (t : AuthoritativeTableIdentity) : result TableError unit :=
  validate_identifier (database t) ≫= λ _,
  validate_identifier (table t) ≫= λ _,
  ensure (is_innodb (engine t)) NotInnoDb ≫= λ _,
  ensure (negb (bool_decide (columns t = []))) NoColumns ≫= λ _,
  for_each phase_column (columns t) ([], []) ≫= λ '(_, ordinals),
  ensure (negb (bool_decide (ordinals = []))) NoPrimaryKey ≫= λ _,
  ensure (forallb (λ ordinal, bool_decide (Z.of_nat ordinal ∈ ordinals)) (seq 1 (length ordinals))) OrdinalGap.

(** ** Members are read back *)

(** The text of a member: quotes doubled, backslashes escaped. *)
Definition quote_byte (b : Z) : list Z := if bool_decide (b ∈ [39; 92]) then [b; b] else [b].
Definition quote_member (v : string) : list Z := [39] ++ (string_bytes v ≫= quote_byte) ++ [39].
Fixpoint quote_members (vs : list string) : list Z :=
  match vs with
  | [] => []
  | [v] => quote_member v
  | v :: vs => quote_member v ++ [44] ++ quote_members vs
  end.
Definition member_type (data_type : string) (vs : list string) : list Z :=
  string_bytes (data_type +:+ "(") ++ quote_members vs ++ [41].

Lemma parse_member_other b rest value : b ∉ [39; 92] → parse_member (b :: rest) value = parse_member rest (value ++ [b]).
Proof.
  intros Hb. apply not_elem_of_cons in Hb as [H39 Hb]. apply not_elem_of_cons in Hb as [H92 _].
  cbn [parse_member]. destruct b as [|p|p]; try done. do 7 (try destruct p as [p|p|]); done.
Qed.

Lemma parse_member_quoted l value rest :
  head rest ≠ Some 39 → parse_member ((l ≫= quote_byte) ++ 39 :: rest) value = Ok (value ++ l, rest).
Proof.
  intros Hr. revert value. induction l as [|b l IH]; intros value.
  - cbn. rewrite app_nil_r. destruct rest as [|c rest]; [done|]. cbn in Hr. destruct c as [|p|p]; try done.
    do 6 (try destruct p as [p|p|]); done.
  - rewrite bind_cons, <-app_assoc. unfold quote_byte at 1. case_bool_decide as Hb.
    + assert (b = 39 ∨ b = 92) as [-> | ->] by (apply elem_of_cons in Hb as [->|Hb]; [auto|apply list_elem_of_singleton in Hb; auto]);
        cbn [app parse_member escaped_byte]; rewrite IH, <-app_assoc; done.
    + cbn [app]. rewrite parse_member_other by done. by rewrite IH, <-app_assoc.
Qed.

Lemma parse_members_quoted vs fuel acc :
  Forall well_formed vs → vs ≠ [] → (length (quote_members vs) ≤ fuel)%nat →
  parse_members fuel (quote_members vs) acc = Ok (acc ++ vs).
Proof.
  revert fuel acc. induction vs as [|v vs IH]; intros fuel acc Hwf Hne Hf; [done|].
  apply Forall_cons in Hwf as [Hv Hwf].
  assert (∀ rest fuel, head rest ≠ Some 39 → parse_members (S fuel) (quote_member v ++ rest) acc =
    match rest with
    | [] => Ok (acc ++ [v])
    | c :: rest => ensure (bool_decide (c = 44)) NotCommaSeparated ≫= λ _,
        ensure (negb (bool_decide (rest = []))) TrailingComma ≫= λ _, parse_members fuel rest (acc ++ [v])
    end) as One.
  { intros rest n Hr. unfold quote_member. cbn [app parse_members]. rewrite <-app_assoc. cbn [app].
    rewrite parse_member_quoted by done. cbn. by rewrite from_utf8_string. }
  assert (∃ n, fuel = S n) as [n ->].
  { destruct fuel as [|n]; [|eauto]. exfalso. destruct vs; cbn in Hf; lia. }
  destruct vs as [|w vs].
  - cbn [quote_members]. rewrite <-(app_nil_r (quote_member v)). by rewrite One.
  - change (quote_members (v :: w :: vs)) with (quote_member v ++ [44] ++ quote_members (w :: vs)) in Hf |- *.
    rewrite One by done. cbn [app]. rewrite (bool_decide_eq_true_2 (44 = 44)) by reflexivity. cbn [ensure mbind result_bind].
    rewrite bool_decide_eq_false_2 by (destruct vs; done). cbn [negb ensure mbind result_bind].
    rewrite IH; [by rewrite <-app_assoc|done|done|]. rewrite !length_app in Hf. unfold quote_member in Hf. cbn [length app] in Hf. lia.
Qed.

(** Every list of member names, quotes, commas and backslashes included, is read back
    exactly from the quoted text of an ENUM or SET column. *)
Theorem enum_members_roundtrip data_type column_type values :
  data_type ∈ ["enum"; "set"] → values ≠ [] → Forall well_formed values →
  string_bytes column_type = member_type data_type values →
  parse_enum_set_values data_type column_type = Ok (Some values).
Proof.
  intros Hd Hne Hwf Hb. unfold parse_enum_set_values, one_of. rewrite bool_decide_eq_true_2 by done. cbn [negb].
  rewrite Hb. unfold member_type. rewrite take_app_length.
  rewrite app_assoc, last_snoc, removelast_last. rewrite drop_app_length.
  unfold eq_ignore_ascii_case. rewrite !bool_decide_eq_true_2 by done. cbn [andb ensure mbind result_bind].
  rewrite parse_members_quoted by done. cbn [app mbind result_bind]. by rewrite bool_decide_eq_false_2.
Qed.

Lemma enum_members_roundtrip_witness :
  parse_enum_set_values "set" (string_of_bytes (member_type "set" ["a,b"; "it's"; "\"; ""%string])) = Ok (Some ["a,b"; "it's"; "\"; ""%string]).
Proof.
  apply (enum_members_roundtrip "set"); [apply elem_of_cons; right; by apply list_elem_of_singleton|done|by repeat constructor|vm_compute; reflexivity].
Defined.

(** ** Valid tables have an exact primary key *)
Definition ordinals (t : AuthoritativeTableIdentity) : list Z := omap primary_key_ordinal (columns t).

Lemma phase_columns_seen cs names keys names' keys' :
  for_each phase_column cs (names, keys) = Ok (names', keys') →
  Forall (λ c, validate_authoritative_column c = Ok tt) cs ∧
  names' ≡ₚ (column_name <$> cs) ++ names ∧ keys' ≡ₚ omap primary_key_ordinal cs ++ keys ∧
  (NoDup names → NoDup names') ∧ (NoDup keys → NoDup keys').
Proof.
  revert names keys. induction cs as [|c cs IH]; intros names keys E; [by simplify_eq/=; split_and!|].
  cbn [for_each] in E. apply bind_Ok in E as ([names1 keys1] & Ec & E). apply IH in E as (Hv & Hn & Hk & Dn & Dk).
  unfold phase_column in Ec. apply bind_Ok in Ec as ([] & Hc & Ec). apply bind_Ok in Ec as ([] & Hin%ensure_Ok%bool_decide_eq_true & Ec).
  cbn [fst snd] in *. cbn [omap list_omap]. destruct (primary_key_ordinal c) as [o|] eqn:Eo.
  - apply bind_Ok in Ec as ([] & Ho%ensure_Ok%bool_decide_eq_true & [= <- <-]).
    split_and!; [by constructor| | |intros; apply Dn; by constructor|intros; apply Dk; by constructor].
    + rewrite Hn. cbn. by rewrite Permutation_middle.
    + rewrite Hk. cbn. by rewrite Permutation_middle.
  - injection Ec as <- <-. split_and!; [by constructor| | |intros; apply Dn; by constructor|done].
    + rewrite Hn. cbn. by rewrite Permutation_middle.
    + by rewrite Hk.
Qed.

Lemma validated_table t :
  validate_authoritative_table t = Ok tt →
  Forall (λ c, validate_authoritative_column c = Ok tt) (columns t) ∧
  NoDup (column_name <$> columns t) ∧ ordinals t ≡ₚ Z.of_nat <$> seq 1 (length (ordinals t)) ∧ ordinals t ≠ [].
Proof.
  unfold validate_authoritative_table. intros V.
  do 4 (apply bind_Ok in V as ([] & _ & V)). apply bind_Ok in V as ([names keys] & L & V).
  apply bind_Ok in V as ([] & Hne%ensure_Ok%negb_true_iff%bool_decide_eq_false & V%ensure_Ok).
  apply phase_columns_seen in L as (Hv & Hn & Hk & Dn & Dk). rewrite app_nil_r in Hn, Hk.
  specialize (Dn NoDup_nil_2). specialize (Dk NoDup_nil_2). fold (ordinals t) in Hk.
  split_and!; [done|by rewrite <-Hn| |intros E; rewrite E in Hk; by apply Permutation_nil_r in Hk].
  rewrite Hk in Dk. rewrite <-Hk at 1. assert (length keys = length (ordinals t)) as El by (by rewrite Hk).
  symmetry. apply submseteq_length_Permutation; [|by rewrite length_fmap, length_seq, El].
  apply NoDup_submseteq; [apply NoDup_fmap_2; [apply _|apply NoDup_ListNoDup, seq_NoDup]|].
  intros x (n & -> & Hin)%list_elem_of_fmap. rewrite forallb_forall in V. eapply bool_decide_eq_true_1, V.
  rewrite El. by apply list_elem_of_In.
Qed.

Lemma validated_identifier s : validate_identifier s = Ok tt → s ≠ "".
Proof. intros V%ensure_Ok. bool_inv. done. Qed.
Lemma validated_column c : validate_authoritative_column c = Ok tt → column_name c ≠ "" ∧ column_type c ≠ "".
Proof.
  unfold validate_authoritative_column. intros V. apply bind_Ok in V as ([] & Hi & V).
  apply bind_Ok in V as ([] & Ht%ensure_Ok & _). bool_inv. split; [by apply validated_identifier|done].
Qed.

(** The loops of the two validations agree on columns with positive ordinals. *)
Lemma offset_columns_accept cs seen seen' :
  for_each phase_column cs seen = Ok seen' → Forall (λ o, 0 < o) (omap primary_key_ordinal cs) →
  for_each offset_column cs seen = Ok seen'.
Proof.
  revert seen. induction cs as [|c cs IH]; intros seen E Hpos; [done|]. cbn [for_each] in E |- *.
  apply bind_Ok in E as (seen1 & Ec & E). assert (offset_column seen c = Ok seen1) as ->.
  { unfold phase_column in Ec. apply bind_Ok in Ec as ([] & [Hn Ht]%validated_column & Ec).
    apply bind_Ok in Ec as ([] & Hin%ensure_Ok & Ec). unfold offset_column. rewrite !bool_decide_eq_false_2, Hin by done.
    cbn. destruct (primary_key_ordinal c) as [o|] eqn:Eo; [|done]. apply bind_Ok in Ec as ([] & Ho%ensure_Ok & <-). rewrite Ho.
    cbn in Hpos. rewrite Eo in Hpos. apply Forall_cons in Hpos as [Hpo _]. by rewrite bool_decide_eq_true_2. }
  cbn. apply IH; [done|]. cbn in Hpos. destruct (primary_key_ordinal c); [by apply Forall_cons in Hpos as [_ ?]|done].
Qed.

Lemma offset_table_accept t seen :
  validate_authoritative_table t = Ok tt → (database t, table t) ∉ seen →
  offset_table seen t = Ok ((database t, table t) :: seen).
Proof.
  intros V Hn. destruct (validated_table t V) as (_ & _ & Hp & _). unfold validate_authoritative_table in V.
  apply bind_Ok in V as ([] & Hd%validated_identifier & V). apply bind_Ok in V as ([] & Ht%validated_identifier & V).
  apply bind_Ok in V as ([] & Hi%ensure_Ok & V). apply bind_Ok in V as ([] & Hc%ensure_Ok & V).
  apply bind_Ok in V as ([names keys] & L & V). apply bind_Ok in V as ([] & Hk%ensure_Ok & _).
  unfold offset_table. rewrite Hi, Hc, (bool_decide_eq_false_2 (database t = "")), (bool_decide_eq_false_2 (table t = "")) by done. cbn [negb andb ensure mbind result_bind].
  rewrite bool_decide_eq_true_2 by done. cbn [ensure mbind result_bind].
  rewrite (offset_columns_accept _ _ _ L); [cbn [mbind result_bind]; by rewrite Hk|]. fold (ordinals t). rewrite Hp.
  apply Forall_forall. intros x (n & -> & [? _]%elem_of_seq)%list_elem_of_fmap. lia.
Qed.

(** A table the snapshot phase accepts has distinct column names and a primary key whose
    ordinals are exactly 1 to n, all on columns that are not nullable. *)
Theorem snapshot_table_key_exact t :
  validate_authoritative_table t = Ok tt →
  NoDup (column_name <$> columns t) ∧
  ordinals t ≡ₚ Z.of_nat <$> seq 1 (length (ordinals t)) ∧ (0 < length (ordinals t))%nat ∧
  ∀ c, c ∈ columns t → is_Some (primary_key_ordinal c) → nullable c = false.
Proof.
  intros V. destruct (validated_table t V) as (Hc & Hn & Hp & Hne). split_and!; [done..|destruct (ordinals t); [done|cbn; lia]|].
  intros c Hin [o Eo]. rewrite Forall_forall in Hc. specialize (Hc c Hin). unfold validate_authoritative_column in Hc.
  do 10 (apply bind_Ok in Hc as (? & _ & Hc)). apply bind_Ok in Hc as ([] & Hk%ensure_Ok & _).
  rewrite Eo in Hk. cbn in Hk. by apply negb_true_iff in Hk.
Qed.

(** Distinct tables that the snapshot phase accepts are accepted by the replication offset,
    so the hand-over from snapshot to stream never fails on them. *)
Theorem snapshot_tables_accepted tables :
  tables ≠ [] → NoDup ((λ t, (database t, table t)) <$> tables) →
  Forall (λ t, validate_authoritative_table t = Ok tt) tables →
  validate_table_identities tables = Ok tt.
Proof.
  intros Hne Hnd Hv. unfold validate_table_identities. rewrite bool_decide_eq_false_2 by done. cbn [negb ensure mbind result_bind].
  assert (∀ seen, (∀ t, t ∈ tables → (database t, table t) ∉ seen) → ∃ r, for_each offset_table tables seen = Ok r) as L.
  { clear Hne. induction Hv as [|t ts Ht Hv IH]; intros seen Hs; [by exists seen|]. cbn [for_each]. cbn in Hnd. apply NoDup_cons in Hnd as [Hin Hnd].
    rewrite (offset_table_accept t seen) by (try done; apply Hs; by left). cbn. apply IH; [done|].
    intros u Hu [E|Hu']%elem_of_cons; [|by eapply Hs; [right|]]. apply Hin. rewrite <-E. by apply (list_elem_of_fmap_2 (λ t, (database t, table t))). }
  destruct (L []) as [r ->]; [|done]. intros t _. apply not_elem_of_nil.
Qed.

Definition example_column (name type : string) (ordinal : option Z) : AuthoritativeColumnIdentity := {|
  column_name := name; data_type := type; column_type := type; unsigned_flag := false; zerofill := false;
  auto_increment := false; nullable := false; character_maximum_length := None; character_octet_length := None;
  numeric_precision := Some 10; numeric_scale := Some 0; datetime_precision := None; character_set := None;
  collation := None; collation_id := None; collation_padding := None; enum_set_values := None; srs_id := None;
  visibility := Visible; generation := NotGenerated; extra := ""; generation_expression := Some "";
  primary_key_ordinal := ordinal; primary_key_prefix_length := None; primary_key_direction := None |}.
Definition example_table : AuthoritativeTableIdentity :=
  {| database := "shop"; table := "orders"; engine := "innodb";
     columns := [example_column "line" "int" (Some 2); example_column "id" "bigint" (Some 1); example_column "total" "int" None] |}.

Lemma snapshot_table_key_exact_witness : ordinals example_table = [2; 1] ∧ [2; 1] ≡ₚ Z.of_nat <$> seq 1 2.
Proof.
  split; [reflexivity|]. apply (snapshot_table_key_exact example_table). vm_compute. reflexivity.
Defined.

Lemma snapshot_tables_accepted_witness : validate_table_identities [example_table] = Ok tt.
Proof.
  apply (snapshot_tables_accepted [example_table]); [done|apply NoDup_singleton|].
  constructor; [vm_compute; reflexivity|constructor].
Defined.
