(* ===== verification/MySqlOffset.v ===== *)
(** * The MySQL replication offset

    [src_stream/offset.rs] of transferia-connector-mysql: the durable record of the position
    and GTID set a delivery has committed.  The storage is [DurableStorage], JSON is [Json];
    a tracker is a [Handle] on the record.  Any number of processes open, advance and lose
    trackers. *)

From stdpp Require Import base tactics numbers option strings relations list.
From S2P Require Import Prelude Bytes Durable DurableStorage DurableCrash DurableRecord Text MySqlPosition MySqlTables.
Local Open Scope Z_scope.

Definition REPLICATION_OFFSET_STATE_KEY : string := "mysql-replication-offset".
Definition STATE_VERSION : Z := 2.

#[export] Instance MySqlBinlogPosition_eq_dec : EqDecision MySqlBinlogPosition.
Proof. solve_decision. Defined.

Record ReplicationOffsetState := {
  version : Z (* u8 *); replay_identity : string; state_server_id : Z (* u32 *); source : MySqlSourceIdentity;
  authoritative_tables : list AuthoritativeTableIdentity; initial_boundary : MySqlBinlogBoundary;
  committed_position : MySqlBinlogPosition; committed_gtids : list GtidSid
}.
#[export] Instance ReplicationOffsetState_eq_dec : EqDecision ReplicationOffsetState.
Proof. solve_decision. Defined.

Abbreviation MySqlReplicationOffsetTracker := (Handle ReplicationOffsetState) (only parsing).

Inductive Cause :=
| OfTable (e : TableError) | OfPosition (e : PositionError) | BadJson | EmptyReplayIdentity | IncompleteSource
| BoundaryBeforeEpoch | UnsupportedVersion | DifferentIdentity | DifferentBoundary | BoundaryNotCommitted
| NoExactBoundary | ClaimedByAnother | MovedBackwards | ModifiedByAnother | NotExecuted | PurgedUncommitted.
(** [replication_safety_violation] marks an error; others are retried. *)
Inductive OffsetError := Safety (c : Cause) | StorageError (e : DurableError) | JsonError | RepeatsCommitted.

Section offset.
Context `{MySqlCommon}.

Definition boundary_position (b : MySqlBinlogBoundary) : result Cause MySqlBinlogPosition :=
  map_err OfPosition (parse_mysql (gtid_executed b)) ≫= λ _,
  ensure (bool_decide (0 ≤ source_timestamp_micros b)) BoundaryBeforeEpoch ≫= λ _,
  map_err OfPosition (position_new (string_bytes (boundary_filename b)) (boundary_offset b)).

Definition validate_identity (config : MySqlReplicationConfig) (src : MySqlSourceIdentity)
    (tables : list AuthoritativeTableIdentity) (exact_start_boundary : option MySqlBinlogBoundary) (replay : string)
    : result Cause unit :=
  map_err OfTable (config_validate config) ≫= λ _,
  ensure (negb (bool_decide (replay = ""))) EmptyReplayIdentity ≫= λ _,
  ensure (negb (bool_decide (server_uuid src = ""))) IncompleteSource ≫= λ _,
  map_err OfTable (validate_table_identities tables) ≫= λ _,
  match exact_start_boundary with
  | Some b => boundary_position b ≫= λ _, Ok tt
  | None => Ok tt
  end.

Definition validate_gtid_continuity (committed current_executed current_purged : list GtidSid) : result OffsetError unit :=
  map_err (Safety ∘ OfPosition) (set_validate committed) ≫= λ _,
  map_err (Safety ∘ OfPosition) (set_validate current_executed) ≫= λ _,
  map_err (Safety ∘ OfPosition) (set_validate current_purged) ≫= λ _,
  ensure (is_subset_of committed current_executed) (Safety NotExecuted) ≫= λ _,
  ensure (is_subset_of current_purged committed) (Safety PurgedUncommitted).

Context `{DurableStorage, !Json ReplicationOffsetState}.

Definition decode_and_validate (bytes : list Z) (config : MySqlReplicationConfig) (src : MySqlSourceIdentity)
    (tables : list AuthoritativeTableIdentity) (exact_start_boundary : option MySqlBinlogBoundary) (replay : string)
    : result OffsetError ReplicationOffsetState :=
  map_err Safety (
    ok_or (from_slice bytes) BadJson ≫= λ state,
    ensure (bool_decide (version state = STATE_VERSION)) UnsupportedVersion ≫= λ _,
    ensure (bool_decide (replay_identity state = replay) && bool_decide (state_server_id state = server_id config) &&
            bool_decide (source state = src) && bool_decide (authoritative_tables state = tables)) DifferentIdentity ≫= λ _,
    ensure (match exact_start_boundary with
            | Some b => bool_decide (initial_boundary state = b)
            | None => true end) DifferentBoundary ≫= λ _,
    boundary_position (initial_boundary state) ≫= λ _,
    map_err OfPosition (position_validate (committed_position state)) ≫= λ _,
    map_err OfPosition (set_validate (committed_gtids state)) ≫= λ _,
    map_err OfPosition (parse_mysql (gtid_executed (initial_boundary state))) ≫= λ initial_gtids,
    ensure (is_subset_of initial_gtids (committed_gtids state)) BoundaryNotCommitted ≫= λ _,
    Ok state).

Definition storage_result {A} (r : result DurableError A) : result OffsetError A := map_err StorageError r.

Definition inspect_replication_membership (s : Store) (config : MySqlReplicationConfig) (src : MySqlSourceIdentity)
    (replay : string) (e : Env) : result OffsetError (option (list AuthoritativeTableIdentity)) :=
  storage_result (read s REPLICATION_OFFSET_STATE_KEY e) ≫= λ current,
  match current with
  | None => Ok None
  | Some current =>
      ok_or (from_slice (payload current)) (Safety BadJson) ≫= λ state : ReplicationOffsetState,
      map_err Safety (validate_identity config src (authoritative_tables state) None replay) ≫= λ _,
      decode_and_validate (payload current) config src (authoritative_tables state) None replay ≫= λ state,
      Ok (Some (authoritative_tables state))
  end.

Definition inspect_existing_replication_offset (s : Store) (config : MySqlReplicationConfig) (src : MySqlSourceIdentity)
    (tables : list AuthoritativeTableIdentity) (expected_initial_boundary : option MySqlBinlogBoundary)
    (current_executed current_purged : list GtidSid) (replay : string) (e : Env)
    : result OffsetError (option MySqlBinlogPosition) :=
  map_err Safety (validate_identity config src tables expected_initial_boundary replay) ≫= λ _,
  storage_result (read s REPLICATION_OFFSET_STATE_KEY e) ≫= λ current,
  match current with
  | None => Ok None
  | Some current =>
      decode_and_validate (payload current) config src tables expected_initial_boundary replay ≫= λ state,
      validate_gtid_continuity (committed_gtids state) current_executed current_purged ≫= λ _,
      Ok (Some (committed_position state))
  end.

(** The record of a delivery that starts at [boundary]. *)
Definition initial_state (config : MySqlReplicationConfig) (src : MySqlSourceIdentity)
    (tables : list AuthoritativeTableIdentity) (boundary : MySqlBinlogBoundary) (replay : string)
    (position : MySqlBinlogPosition) (gtids : list GtidSid) : ReplicationOffsetState :=
  {| version := STATE_VERSION; replay_identity := replay; state_server_id := server_id config; source := src;
     authoritative_tables := tables; initial_boundary := boundary;
     committed_position := position; committed_gtids := gtids |}.

(** [prepare]; [e1] and [e2] are the environments of its two storage calls. *)
Definition prepare (s : Store) (config : MySqlReplicationConfig) (src : MySqlSourceIdentity)
    (tables : list AuthoritativeTableIdentity) (exact_start_boundary : option MySqlBinlogBoundary)
    (current_executed current_purged : list GtidSid) (replay : string) (e1 e2 : Env)
    : Store * result OffsetError (MySqlReplicationOffsetTracker * MySqlBinlogPosition * list GtidSid) :=
  match map_err Safety (validate_identity config src tables exact_start_boundary replay) ≫= λ _,
        storage_result (read s REPLICATION_OFFSET_STATE_KEY e1) with
  | Err e => (s, Err e)
  | Ok (Some current) =>
      (s, decode_and_validate (payload current) config src tables exact_start_boundary replay ≫= λ state,
          validate_gtid_continuity (committed_gtids state) current_executed current_purged ≫= λ _,
          Ok ({| handle_revision := revision current; handle_identity := state |}, committed_position state, committed_gtids state))
  | Ok None =>
      match ok_or exact_start_boundary (Safety NoExactBoundary) ≫= λ boundary,
            map_err Safety (boundary_position boundary) ≫= λ position,
            map_err (Safety ∘ OfPosition) (parse_mysql (gtid_executed boundary)) ≫= λ gtids,
            validate_gtid_continuity gtids current_executed current_purged ≫= λ _,
            let state := initial_state config src tables boundary replay position gtids in
            ok_or (to_vec state) JsonError ≫= λ bytes, Ok (state, bytes) with
      | Err e => (s, Err e)
      | Ok (state, bytes) =>
          let '(s, r) := compare_exchange s REPLICATION_OFFSET_STATE_KEY None bytes e2 in
          (s, storage_result r ≫= λ r,
              match r with
              | Applied v => Ok ({| handle_revision := revision v; handle_identity := state |}, committed_position state, committed_gtids state)
              | Conflict _ => Err (Safety ClaimedByAnother)
              end)
      end
  end.

(** One table of the loop of [store_admission]. *)
Definition admit_table (tables : list AuthoritativeTableIdentity) (t : AuthoritativeTableIdentity)
    : result OffsetError (list AuthoritativeTableIdentity) :=
  ensure (negb (existsb (λ old, bool_decide (database old = database t) && bool_decide (table old = table t)) tables))
    RepeatsCommitted ≫= λ _,
  Ok (tables ++ [t]).

Definition with_commit (state : ReplicationOffsetState) (position : MySqlBinlogPosition) (gtids : list GtidSid)
    (tables : list AuthoritativeTableIdentity) : ReplicationOffsetState :=
  {| version := version state; replay_identity := replay_identity state; state_server_id := state_server_id state;
     source := source state; authoritative_tables := tables; initial_boundary := initial_boundary state;
     committed_position := position; committed_gtids := gtids |}.

(** What [store_admission] writes: nothing when nothing changed. *)
Definition next_state (state : ReplicationOffsetState) (position : MySqlBinlogPosition) (gtids : list GtidSid)
    (added : list AuthoritativeTableIdentity) : result OffsetError (option (ReplicationOffsetState * list Z)) :=
  map_err (Safety ∘ OfPosition) (position_validate position) ≫= λ _,
  map_err (Safety ∘ OfPosition) (set_validate gtids) ≫= λ _,
  ensure (is_subset_of (committed_gtids state) gtids) (Safety MovedBackwards) ≫= λ _,
  if bool_decide (position = committed_position state) && bool_decide (gtids = committed_gtids state) && bool_decide (added = [])
  then Ok None
  else
    for_each admit_table added (authoritative_tables state) ≫= λ tables,
    (if bool_decide (added = []) then Ok tt else map_err (Safety ∘ OfTable) (validate_table_identities tables)) ≫= λ _,
    let next := with_commit state position gtids tables in
    ok_or (to_vec next) JsonError ≫= λ bytes,
    Ok (Some (next, bytes)).

Definition store_admission (s : Store) (t : MySqlReplicationOffsetTracker) (position : MySqlBinlogPosition)
    (gtids : list GtidSid) (added : list AuthoritativeTableIdentity) (e : Env)
    : Store * MySqlReplicationOffsetTracker * result OffsetError unit :=
  match next_state (handle_identity t) position gtids added with
  | Err err => (s, t, Err err)
  | Ok None => (s, t, Ok tt)
  | Ok (Some (next, bytes)) =>
      let '(s, r) := compare_exchange s REPLICATION_OFFSET_STATE_KEY (Some (handle_revision t)) bytes e in
      match r with
      | Err err => (s, t, Err (StorageError err))
      | Ok (Applied v) => (s, {| handle_revision := revision v; handle_identity := next |}, Ok tt)
      | Ok (Conflict _) => (s, t, Err (Safety ModifiedByAnother))
      end
  end.
Definition store_offset (s : Store) (t : MySqlReplicationOffsetTracker) (position : MySqlBinlogPosition)
    (gtids : list GtidSid) (e : Env) : Store * MySqlReplicationOffsetTracker * result OffsetError unit :=
  store_admission s t position gtids [] e.

(** ** Histories of a delivery *)
Definition tracker_of (r : result OffsetError (MySqlReplicationOffsetTracker * MySqlBinlogPosition * list GtidSid))
    : list MySqlReplicationOffsetTracker :=
  match r with Ok (t, _, _) => [t] | Err _ => [] end.

Inductive offset_step : Store * list MySqlReplicationOffsetTracker → Store * list MySqlReplicationOffsetTracker → Prop :=
| offset_prepare s ts config src tables boundary current_executed current_purged replay e1 e2 :
    let r := prepare s config src tables boundary current_executed current_purged replay e1 e2 in
    offset_step (s, ts) (r.1, tracker_of r.2 ++ ts)
| offset_store s ts t position gtids added e :
    t ∈ ts → let r := store_admission s t position gtids added e in
    offset_step (s, ts) (r.1.1, r.1.2 :: ts)
| offset_elsewhere s ts k x b e :
    k ≠ REPLICATION_OFFSET_STATE_KEY → key_ok k → payload_ok b →
    offset_step (s, ts) ((compare_exchange s k x b e).1, ts)
| offset_crash s ts s' : crashed s s' → offset_step (s, ts) (s', []).

(** The delivery is the same and its commits only grow. *)
Record advance (a b : ReplicationOffsetState) : Prop := {
  advance_version : version b = version a;
  advance_replay : replay_identity b = replay_identity a;
  advance_server : state_server_id b = state_server_id a;
  advance_source : source b = source a;
  advance_boundary : initial_boundary b = initial_boundary a;
  advance_tables : authoritative_tables a `prefix_of` authoritative_tables b;
  advance_gtids k g : executed (committed_gtids a) k g → executed (committed_gtids b) k g
}.
#[export] Instance advance_preorder : PreOrder advance.
Proof.
  split.
  - intros a. split; (done || auto).
  - intros a b c [] []. split; [congruence..|by etrans|auto].
Qed.

Lemma subset_executed (a b : list GtidSid) : is_subset_of a b = true → ∀ k g, executed a k g → executed b k g.
Proof.
  unfold is_subset_of. rewrite forallb_forall. intros Hs k g (s & Hin & Hk & i & Hi & Hg).
  specialize (Hs s (proj1 (list_elem_of_In _ _) Hin)). destruct (list_find _ b) as [[n c]|] eqn:Ef; [|done].
  apply list_find_Some in Ef as (Hn & Hc & _). rewrite forallb_forall in Hs. specialize (Hs i (proj1 (list_elem_of_In _ _) Hi)).
  apply existsb_exists in Hs as (j & Hj & Hw). apply andb_true_iff in Hw as [H1%bool_decide_eq_true H2%bool_decide_eq_true].
  exists c. split_and!; [by eapply list_elem_of_lookup_2|congruence|]. exists j. split; [by apply list_elem_of_In|lia].
Qed.

Lemma admit_tables_prefix added tables tables' : for_each admit_table added tables = Ok tables' → tables `prefix_of` tables'.
Proof.
  revert tables. induction added as [|x added IH]; intros tables E; [by injection E as ->|]. cbn [for_each] in E.
  apply bind_Ok in E as (ts & Ha & E). apply IH in E. unfold admit_table in Ha. apply bind_Ok in Ha as ([] & _ & [= <-]).
  etrans; [|exact E]. by apply prefix_app_r.
Qed.

Lemma next_state_advance state position gtids added next bytes :
  next_state state position gtids added = Ok (Some (next, bytes)) →
  advance state next ∧ to_vec next = Some bytes ∧ committed_position next = position ∧ committed_gtids next = gtids.
Proof.
  unfold next_state. intros E. apply bind_Ok in E as ([] & _ & E). apply bind_Ok in E as ([] & _ & E).
  apply bind_Ok in E as ([] & Hsub%ensure_Ok & E). destruct (_ && _ && _); [done|].
  apply bind_Ok in E as (tables & Ht & E). apply bind_Ok in E as ([] & _ & E). apply bind_Ok in E as (b & Hb & [= <- <-]).
  split_and!; [|by destruct (to_vec _); [injection Hb as ->|]|done..].
  split; [done..|by eapply admit_tables_prefix|]. by apply subset_executed.
Qed.

Abbreviation offset_record_step := (record_step REPLICATION_OFFSET_STATE_KEY advance).

(** What an accepted record satisfies. *)
Lemma decode_Ok bytes config src tables boundary replay state :
  decode_and_validate bytes config src tables boundary replay = Ok state →
  from_slice bytes = Some state ∧ replay_identity state = replay ∧ state_server_id state = server_id config ∧
  source state = src ∧ authoritative_tables state = tables ∧ (∀ b, boundary = Some b → initial_boundary state = b) ∧
  position_validate (committed_position state) = Ok tt ∧ set_validate (committed_gtids state) = Ok tt ∧
  ∃ initial, parse_mysql (gtid_executed (initial_boundary state)) = Ok initial ∧ is_subset_of initial (committed_gtids state) = true.
Proof.
  unfold decode_and_validate. intros E%map_err_Ok. apply bind_Ok in E as (st & Hj & E).
  destruct (from_slice bytes) as [st'|]; [injection Hj as ->|done]. apply bind_Ok in E as ([] & _ & E).
  apply bind_Ok in E as ([] & Hid%ensure_Ok & E). apply bind_Ok in E as ([] & Hb%ensure_Ok & E). apply bind_Ok in E as (? & _ & E).
  apply bind_Ok in E as ([] & Hp%map_err_Ok & E). apply bind_Ok in E as ([] & Hg%map_err_Ok & E).
  apply bind_Ok in E as (initial & Hi%map_err_Ok & E). apply bind_Ok in E as ([] & Hs%ensure_Ok & [= <-]). bool_inv.
  split_and!; [done..| |done|done|by eauto]. intros b ->. by apply bool_decide_eq_true in Hb.
Qed.

(** Every operation is a history of the record protocol. *)
Lemma prepare_record s ts config src tables boundary current_executed current_purged replay e1 e2 :
  let r := prepare s config src tables boundary current_executed current_purged replay e1 e2 in
  rtc offset_record_step (s, ts) (r.1, tracker_of r.2 ++ ts).
Proof.
  cbn zeta. unfold prepare. destruct (map_err Safety (validate_identity _ _ _ _ _)) as [[]|e] eqn:V; cbn [mbind result_bind]; [|done].
  destruct (read s REPLICATION_OFFSET_STATE_KEY e1) as [[v|]|e] eqn:R; cbn [storage_result map_err]; [| |done].
  - destruct (decode_and_validate _ _ _ _ _ _) as [state|] eqn:D; [|done]. cbn [mbind result_bind].
    destruct (validate_gtid_continuity _ _ _) as [[]|]; [|done]. apply rtc_once. cbn. eapply record_open; [done|].
    by apply decode_Ok in D as [? _].
  - destruct (ok_or boundary _ ≫= _) as [[state bytes]|] eqn:E; [|done].
    assert (to_vec state = Some bytes) as Hb.
    { do 4 (apply bind_Ok in E as (? & _ & E)). apply bind_Ok in E as (b & Hb & [= <- <-]). by destruct (to_vec _); [injection Hb as ->|]. }
    pose proof (record_create REPLICATION_OFFSET_STATE_KEY advance s ts e2 state bytes Hb) as Step.
    destruct (compare_exchange _ _ _ _ _) as [s' [[v|c]|err]]; cbn in *; by apply rtc_once.
Qed.

Lemma store_record s ts t position gtids added e :
  t ∈ ts → let r := store_admission s t position gtids added e in
  ∃ ts', rtc offset_record_step (s, ts) (r.1.1, ts') ∧ r.1.2 ∈ ts' ∧ ∀ t', t' ∈ ts → t' ∈ ts'.
Proof.
  intros Ht. cbn zeta. unfold store_admission. destruct (next_state _ _ _ _) as [[[next bytes]|]|err] eqn:N; [|by exists ts..].
  destruct (next_state_advance _ _ _ _ _ _ N) as (Ha & Hb & _).
  pose proof (record_update REPLICATION_OFFSET_STATE_KEY advance s ts e t next bytes Ht Ha Hb) as Step.
  destruct (compare_exchange _ _ _ _ _) as [s' [[v|c]|err]]; cbn in *; eexists; (split; [by apply rtc_once|]).
  - split; [by left|by right].
  - done.
  - done.
Qed.

Abbreviation OffsetInv := (RecordInv REPLICATION_OFFSET_STATE_KEY advance).
Abbreviation offset_older := (older advance).

Context (Hkey : key_ok REPLICATION_OFFSET_STATE_KEY).

Lemma offset_steps_inv c c' :
  OffsetInv c → rtc offset_step c c' →
  OffsetInv c' ∧ offset_older (settled c.1 REPLICATION_OFFSET_STATE_KEY) (settled c'.1 REPLICATION_OFFSET_STATE_KEY).
Proof.
  apply (record_histories REPLICATION_OFFSET_STATE_KEY advance Hkey offset_step). clear c c'. intros c c' St.
  destruct St as [s ts config src tables boundary ce cp replay e1 e2 r|s ts t position gtids added e Ht r|s ts k x b e Hk Hok Hb|s ts s' Hc].
  - exists (tracker_of r.2 ++ ts). split; [apply prepare_record|done].
  - destruct (store_record s ts t position gtids added e Ht) as (ts' & Hs & Ht' & Hin). exists ts'. split; [done|].
    intros u [->|Hu]%elem_of_cons; auto.
  - exists ts. split; [apply rtc_once; by constructor|done].
  - exists []. split; [apply rtc_once; by constructor|done].
Qed.

(** A store that wrote leaves the tracker's state in the settled record. *)
Lemma store_settles s ts t position gtids added e s1 t1 :
  OffsetInv (s, ts) → t ∈ ts → store_admission s t position gtids added e = (s1, t1, Ok tt) → t1 ≠ t →
  OffsetInv (s1, t1 :: ts) ∧ holds (settled s1 REPLICATION_OFFSET_STATE_KEY) (handle_identity t1) ∧
  committed_position (handle_identity t1) = position ∧ committed_gtids (handle_identity t1) = gtids ∧
  advance (handle_identity t) (handle_identity t1).
Proof.
  intros I Ht. unfold store_admission. destruct (next_state _ _ _ _) as [[[next bytes]|]|err] eqn:N; [|by intros [= <- <-]|done].
  destruct (next_state_advance _ _ _ _ _ _ N) as (Ha & Hb & Hp & Hg).
  destruct (exchange_inv REPLICATION_OFFSET_STATE_KEY advance Hkey s ts (Some (handle_revision t)) bytes e next I) as (I1 & _ & _ & Hs);
    [by eapply handle_admissible|done|].
  destruct (compare_exchange _ _ _ _ _) as [s' [[v|c]|err]]; cbn in *; [|done..]. intros [= <- <-] _.
  split_and!; [done|by eapply Hs|done..].
Qed.

Lemma position_new_valid f p q : position_new f p = Ok q → position_validate q = Ok tt.
Proof.
  intros E. assert (q = {| filename := f; bp_position := p |}) as Hq.
  { unfold position_new in E. do 4 (apply bind_Ok in E as ([] & _ & E)). by injection E as <-. }
  unfold position_validate. subst q. cbn [filename bp_position]. by rewrite E.
Qed.

(** [prepare] returns the record it read, or a new one when there was none. *)
Lemma prepare_reads s config src tables boundary ce cp replay e1 e2 s' t position gtids :
  prepare s config src tables boundary ce cp replay e1 e2 = (s', Ok (t, position, gtids)) →
  position = committed_position (handle_identity t) ∧ gtids = committed_gtids (handle_identity t) ∧
  validate_gtid_continuity gtids ce cp = Ok tt ∧ position_validate position = Ok tt ∧
  ∃ o, read s REPLICATION_OFFSET_STATE_KEY e1 = Ok o ∧ (is_Some o → holds o (handle_identity t)).
Proof.
  unfold prepare. destruct (map_err Safety (validate_identity _ _ _ _ _)) as [[]|e] eqn:V; cbn [mbind result_bind]; [|done].
  destruct (read s REPLICATION_OFFSET_STATE_KEY e1) as [[v|]|e] eqn:R; cbn [storage_result map_err]; [| |done].
  - intros [= <- E]. apply bind_Ok in E as (state & D & E). apply bind_Ok in E as ([] & Hc & [= <- <- <-]).
    apply decode_Ok in D as (Hj & _ & _ & _ & _ & _ & Hp & _). split_and!; try done. exists (Some v). split; [done|]. intros _. by exists v.
  - destruct (ok_or boundary _ ≫= _) as [[state bytes]|] eqn:E; [|done].
    apply bind_Ok in E as (b & Hb & E). apply bind_Ok in E as (p & Hp%map_err_Ok & E). apply bind_Ok in E as (g & Hg & E).
    apply bind_Ok in E as ([] & Hc & E). apply bind_Ok in E as (bs & _ & [= <- <-]).
    destruct (compare_exchange _ _ _ _ _) as [s1 [[v|c]|err]]; cbn; [|done..]. intros [= <- <- <- <-].
    split_and!; try done; [|exists None; split; [done|by intros []]].
    unfold boundary_position in Hp. apply bind_Ok in Hp as (? & _ & Hp). apply bind_Ok in Hp as ([] & _ & Hp%map_err_Ok).
    by eapply position_new_valid.
Qed.
End offset.

(** ** Properties *)

(** C13. On a storage that meets the laws of [DurableStorage]: a commit that
    [store_admission] acknowledged after writing it is never undone: every later [prepare]
    of the delivery, after any operations of any number of processes, failing storage
    calls and crashes, resumes with a GTID set that contains the committed one, and with
    the same identity and at least the committed tables. *)
Theorem mysql_offset_never_undone `{MySqlCommon, DurableStorage, !Json ReplicationOffsetState}
    s0 s ts t position gtids added e s1 t1 s2 ts2 config src tables boundary ce cp replay e1 e2 s3 t2 position2 gtids2 :
  store_ok s0 → key_ok REPLICATION_OFFSET_STATE_KEY → value s0 REPLICATION_OFFSET_STATE_KEY = None →
  rtc offset_step (s0, []) (s, ts) → t ∈ ts →
  store_admission s t position gtids added e = (s1, t1, Ok tt) → t1 ≠ t →
  rtc offset_step (s1, t1 :: ts) (s2, ts2) →
  prepare s2 config src tables boundary ce cp replay e1 e2 = (s3, Ok (t2, position2, gtids2)) →
  (∀ k g, executed gtids k g → executed gtids2 k g) ∧ advance (handle_identity t1) (handle_identity t2).
Proof.
  intros Hs Hk Hv Pre Ht St Hne Post P. destruct (prepare_reads _ _ _ _ _ _ _ _ _ _ _ _ _ _ P) as (_ & -> & _ & _ & o & R & Ho).
  destruct (offset_steps_inv Hk _ _ (record_initial _ advance Hk s0 Hs Hv) Pre) as [I _].
  destruct (store_settles Hk _ _ _ _ _ _ _ _ _ I Ht St Hne) as (I1 & Hset & _ & <- & _).
  destruct (offset_steps_inv Hk _ _ I1 Post) as [I2 O2].
  destruct (older_holds _ _ _ _ O2 Hset) as (st1 & Hh1 & A1).
  destruct (settled_read _ _ Hk _ _ _ _ I2 Hh1 R) as (st2 & (v & Ev & Dv) & A2). subst o.
  destruct (Ho ltac:(by eexists)) as (w & [= <-] & Dw). rewrite Dv in Dw. injection Dw as Dw. subst st2.
  assert (advance (handle_identity t1) (handle_identity t2)) as A by (by etrans). split; [apply A|done].
Qed.

(** A delivery only resumes where nothing is lost: every purged transaction is committed and
    every committed transaction is one the server executed; the position is valid. *)
Theorem mysql_offset_resume_continuous `{MySqlCommon, DurableStorage, !Json ReplicationOffsetState}
    s config src tables boundary current_executed current_purged replay e1 e2 s' t position gtids :
  prepare s config src tables boundary current_executed current_purged replay e1 e2 = (s', Ok (t, position, gtids)) →
  (∀ k g, executed current_purged k g → executed gtids k g) ∧ (∀ k g, executed gtids k g → executed current_executed k g) ∧
  position_validate position = Ok tt.
Proof.
  intros P. destruct (prepare_reads _ _ _ _ _ _ _ _ _ _ _ _ _ _ P) as (_ & _ & C & Hp & _). unfold validate_gtid_continuity in C.
  do 3 (apply bind_Ok in C as ([] & _ & C)). apply bind_Ok in C as ([] & H1%ensure_Ok & H2%ensure_Ok).
  split_and!; [by apply subset_executed..|done].
Qed.

(** A tracker whose record was replaced is fenced off: it never changes the record again,
    reports success only for what it had itself committed, and keeps its state. *)
Theorem mysql_offset_fenced `{MySqlCommon, DurableStorage, !Json ReplicationOffsetState} s t v position gtids added e :
  store_ok s → key_ok REPLICATION_OFFSET_STATE_KEY →
  value s REPLICATION_OFFSET_STATE_KEY = Some v → revision v ≠ handle_revision t →
  let '(s1, t1, r) := store_admission s t position gtids added e in
  t1 = t ∧ value s1 REPLICATION_OFFSET_STATE_KEY = Some v ∧
  settled s1 REPLICATION_OFFSET_STATE_KEY = settled s REPLICATION_OFFSET_STATE_KEY ∧
  (r = Ok tt → position = committed_position (handle_identity t) ∧ gtids = committed_gtids (handle_identity t) ∧ added = []).
Proof.
  intros Hs Hk Ev Hne. unfold store_admission. destruct (next_state _ _ _ _) as [[[next bytes]|]|err] eqn:N.
  - destruct (next_state_advance _ _ _ _ _ _ N) as (_ & Hb & _).
    pose proof (exchange_result s REPLICATION_OFFSET_STATE_KEY (Some (handle_revision t)) bytes e Hs Hk (to_vec_fits _ _ Hb)) as R.
    cbn zeta in R. destruct (compare_exchange _ _ _ _ _) as [s1 [[w|c]|err]]; cbn [fst snd] in R; rewrite Ev in R.
    + destruct R as ((E & _) & _). cbn in E. congruence.
    + by destruct R as (_ & _ & -> & ->).
    + destruct R as [[-> [->|(w & (E & _) & _)]]|(w & (E & _) & _)]; [done|cbn in E; congruence..].
  - split_and!; [done..|]. intros _. unfold next_state in N. do 3 (apply bind_Ok in N as ([] & _ & N)).
    destruct (_ && _ && _) eqn:E; [by bool_inv|]. apply bind_Ok in N as (? & _ & N). apply bind_Ok in N as (? & _ & N).
    by apply bind_Ok in N as (? & _ & N).
  - by split_and!.
Qed.

(** ** Examples: a delivery in local files *)
Module OffsetExample.
#[local] Existing Instance example_common.
#[local] Instance storage : DurableStorage := @local_files zero_murmur3 ["state"].
Definition config : MySqlReplicationConfig := default_config.
Definition src : MySqlSourceIdentity := {| server_uuid := "3e11fa47-71ca-11e1-9e33-c80aa9429562"; source_database := "shop" |}.
Definition boundary : MySqlBinlogBoundary :=
  {| boundary_filename := "bin.000001"; boundary_offset := 4; gtid_executed := ""; source_timestamp_micros := 0 |}.
Definition position (p : Z) : MySqlBinlogPosition := {| filename := string_bytes "bin.000001"; bp_position := p |}.
Definition first : ReplicationOffsetState := initial_state config src [example_table] boundary "replay" (position 4) [].
Definition second : ReplicationOffsetState := with_commit first (position 100) [example_sid] [example_table].

(** A codec that knows these two records. *)
#[local] Program Instance json : Json ReplicationOffsetState := {|
  to_vec st := if bool_decide (st = first) then Some [1] else if bool_decide (st = second) then Some [2] else None;
  from_slice b := if bool_decide (b = [1]) then Some first else if bool_decide (b = [2]) then Some second else None
|}.
Next Obligation. intros st b. cbn. repeat case_bool_decide; intros [= <-]; naive_solver. Qed.
Next Obligation. intros st b. cbn. repeat case_bool_decide; intros [= <-]; by apply one_byte. Qed.

Definition env (sequence : Z) : Env := (7, sequence, NoFault).
Definition opened := prepare (blank : Store) config src [example_table] (Some boundary) [] [] "replay" (env 0) (env 0).
Definition tracker : Handle ReplicationOffsetState := {| handle_revision := 0; handle_identity := first |}.
Definition stored := store_admission opened.1 tracker (position 100) [example_sid] [] (env 1).
Definition after_crash : Store := reverted stored.1.1.
Definition reopened := prepare after_crash config src [example_table] None [example_sid] [] "replay" (env 2) (env 2).

Lemma offset_file_key : key_ok REPLICATION_OFFSET_STATE_KEY.
Proof. change (file_key ["state"] REPLICATION_OFFSET_STATE_KEY). split; [apply (bool_decide_unpack (dotless REPLICATION_OFFSET_STATE_KEY)); vm_compute; exact I|vm_compute; exact I]. Qed.

Lemma opened_step : offset_step (blank : Store, []) (opened.1, [tracker]).
Proof.
  pose proof (offset_prepare blank [] config src [example_table] (Some boundary) [] [] "replay" (env 0) (env 0)) as St.
  fold opened in St. cbn zeta in St. assert (tracker_of opened.2 = [tracker]) as E by (vm_compute; reflexivity).
  rewrite E in St. exact St.
Qed.
Lemma history_ok s ts : rtc offset_step (blank : Store, []) (s, ts) → store_ok s.
Proof.
  intros Steps. assert (RecordInv REPLICATION_OFFSET_STATE_KEY advance (blank : Store, [])) as I0
    by (apply record_initial; [apply offset_file_key|apply (@empty_disk_consistent zero_murmur3 [["state"]])|vm_compute; reflexivity]).
  destruct (offset_steps_inv offset_file_key _ _ I0 Steps) as [I _]. apply (record_store _ _ _ I).
Qed.
Lemma stored_ok : store_ok stored.1.1.
Proof.
  apply history_ok with [stored.1.2; tracker]. eapply rtc_l; [apply opened_step|].
  apply rtc_once. apply (offset_store opened.1 [tracker] tracker (position 100)). by left.
Qed.

Lemma mysql_offset_never_undone_witness :
  reopened.2 = Ok ({| handle_revision := 1; handle_identity := second |}, position 100, [example_sid]) ∧
  ∀ k g, executed [example_sid] k g → executed [example_sid] k g.
Proof.
  assert (stored.1.2 = {| handle_revision := 1; handle_identity := second |}) as Hst by (vm_compute; reflexivity).
  assert (reopened.2 = Ok ({| handle_revision := 1; handle_identity := second |}, position 100, [example_sid])) as Hr by (vm_compute; reflexivity).
  split; [exact Hr|].
  eapply (@mysql_offset_never_undone example_common storage json blank opened.1 [tracker] tracker (position 100) [example_sid] [] (env 1)
    stored.1.1 stored.1.2 after_crash [] config src [example_table] None [example_sid] [] "replay" (env 2) (env 2) reopened.1).
  - apply (@empty_disk_consistent zero_murmur3 [["state"]]).
  - apply offset_file_key.
  - vm_compute; reflexivity.
  - apply rtc_once, opened_step.
  - by left.
  - fold stored. assert (stored.2 = Ok tt) as <- by (vm_compute; reflexivity). by destruct stored as [[? ?] ?].
  - rewrite Hst. unfold tracker. intros [=].
  - apply rtc_once, offset_crash. split; [apply (bool_decide_unpack (housed stored.1.1)); vm_compute; exact I|apply reverted_crash].
  - rewrite <-Hr. apply surjective_pairing.
Defined.

Lemma mysql_offset_resume_continuous_witness :
  (∀ k g, executed [] k g → executed [example_sid] k g) ∧ position_validate (position 100) = Ok tt.
Proof.
  assert (reopened.2 = Ok ({| handle_revision := 1; handle_identity := second |}, position 100, [example_sid])) as Hr by (vm_compute; reflexivity).
  destruct (@mysql_offset_resume_continuous example_common storage json after_crash config src [example_table] None [example_sid] [] "replay" (env 2) (env 2)
    reopened.1 {| handle_revision := 1; handle_identity := second |} (position 100) [example_sid]) as (Hp & _ & Hv);
    [rewrite <-Hr; apply surjective_pairing|]. split; [exact Hp|exact Hv].
Defined.

Lemma mysql_offset_fenced_witness :
  (store_admission stored.1.1 tracker (position 100) [example_sid] [] (env 3)).2 = Err (Safety ModifiedByAnother) ∧
  value (store_admission stored.1.1 tracker (position 100) [example_sid] [] (env 3)).1.1 REPLICATION_OFFSET_STATE_KEY
    = Some {| revision := 1; payload := [2] |}.
Proof.
  split; [vm_compute; reflexivity|].
  pose proof (@mysql_offset_fenced example_common storage json stored.1.1 tracker {| revision := 1; payload := [2] |}
    (position 100) [example_sid] [] (env 3) stored_ok offset_file_key ltac:(vm_compute; reflexivity) ltac:(done)) as W.
  destruct (store_admission _ _ _ _ _ _) as [[s1 t1] r]. destruct W as (_ & W & _). exact W.
Defined.
End OffsetExample.
