(* ===== verification/MySqlPhase.v ===== *)
(** * The MySQL snapshot and stream phases

    [src_batch_and_stream/phase.rs] of transferia-connector-mysql: the durable record of a
    delivery that snapshots its tables and then streams from the snapshot's boundary. *)

From stdpp Require Import base tactics numbers option strings relations sets list.
From S2P Require Import Prelude Bytes Durable DurableStorage DurableCrash DurableRecord Text MySqlPosition MySqlTables.
Local Open Scope Z_scope.

Definition SNAPSHOT_STREAM_STATE_KEY : string := "mysql-snapshot-stream".
Definition STATE_VERSION : Z := 1.

Inductive PersistedPhase :=
| Claimed | Snapshot (boundary : MySqlBinlogBoundary) | Streaming (start_boundary : MySqlBinlogBoundary).
#[export] Instance PersistedPhase_eq_dec : EqDecision PersistedPhase.
Proof. solve_decision. Defined.

Record PersistedState := {
  version : Z (* u8 *); replay_identity : string; state_server_id : Z; source : MySqlSourceIdentity;
  configured_tables : list (string * string); authoritative_tables : option (list AuthoritativeTableIdentity);
  state : PersistedPhase
}.
#[export] Instance PersistedState_eq_dec : EqDecision PersistedState.
Proof. solve_decision. Defined.

Record TableConfig := { config_database : string; config_name : string }.

Abbreviation SnapshotStreamTracker := (Handle PersistedState) (only parsing).
Inductive SnapshotStreamPreparation :=
| Create (t : SnapshotStreamTracker)
| PrepareStreaming (t : SnapshotStreamTracker) (start_boundary : MySqlBinlogBoundary).

Inductive PhaseCause :=
| OfTable (e : TableError) | OfPosition (e : PositionError) | BadJson | ZeroServerId | EmptyReplayIdentity | IncompleteSource
| NoConfiguredTables | RepeatedConfiguredTable | BadBoundaryFilename | BadBoundaryPosition | BoundaryBeforeEpoch
| TableCount | TableMismatch | UnsupportedVersion | InconsistentPhase | DifferentSettings | SchemaMissing | SchemaChanged
| ClaimChanged | SnapshotInterrupted | ClaimedByAnother | NotClaimed | SnapshotNotReady | ModifiedByAnother.
Inductive PhaseError := Safety (c : PhaseCause) | StorageError (e : DurableError) | JsonError.

Definition persisted_state (server_id : Z) (tables : list TableConfig) (src : MySqlSourceIdentity) (replay : string) : PersistedState :=
  {| version := STATE_VERSION; replay_identity := replay; state_server_id := server_id; source := src;
     configured_tables := (λ t, (config_database t, config_name t)) <$> tables; authoritative_tables := None; state := Claimed |}.

Definition claim_table (names : list (string * string)) (t : TableConfig) : result PhaseCause (list (string * string)) :=
  map_err OfTable (validate_identifier (config_name t)) ≫= λ _,
  ensure (bool_decide ((config_database t, config_name t) ∉ names)) RepeatedConfiguredTable ≫= λ _,
  Ok ((config_database t, config_name t) :: names).
Definition validate_claim (server_id : Z) (tables : list TableConfig) (src : MySqlSourceIdentity) (replay : string)
    : result PhaseCause unit :=
  ensure (negb (bool_decide (server_id = 0))) ZeroServerId ≫= λ _,
  ensure (negb (bool_decide (replay = ""))) EmptyReplayIdentity ≫= λ _,
  ensure (negb (bool_decide (server_uuid src = ""))) IncompleteSource ≫= λ _,
  map_err OfTable (validate_server_uuid (server_uuid src)) ≫= λ _,
  ensure (negb (bool_decide (tables = []))) NoConfiguredTables ≫= λ _,
  for_each claim_table tables [] ≫= λ _, Ok tt.

(** One pair of the loop of [validate_authoritative_identity]. *)
Definition authoritative_pair (_ : unit) (pair : AuthoritativeTableIdentity * (string * string)) : result PhaseCause unit :=
  let '(actual, expected_table) := pair in
  ensure (bool_decide (database actual = expected_table.1) && bool_decide (table actual = expected_table.2)) TableMismatch ≫= λ _,
  map_err OfTable (validate_authoritative_table actual).
Definition validate_authoritative_identity (s : PersistedState) (tables : list AuthoritativeTableIdentity) : result PhaseCause unit :=
  ensure (bool_decide (length tables = length (configured_tables s))) TableCount ≫= λ _,
  for_each authoritative_pair (zip tables (configured_tables s)) tt.

Section phase.
Context `{MySqlCommon}.

Definition validate_boundary (b : MySqlBinlogBoundary) : result PhaseCause unit :=
  ensure (negb (bool_decide (boundary_filename b = "")) && bool_decide (0 ∉ string_bytes (boundary_filename b))) BadBoundaryFilename ≫= λ _,
  ensure (bool_decide (4 ≤ boundary_offset b ≤ u32_max)) BadBoundaryPosition ≫= λ _,
  ensure (bool_decide (0 ≤ source_timestamp_micros b)) BoundaryBeforeEpoch ≫= λ _,
  map_err OfPosition (parse_mysql (gtid_executed b)) ≫= λ _, Ok tt.

Context `{DurableStorage, !Json PersistedState}.

Definition decode_and_validate (bytes : list Z) (expected : PersistedState) : result PhaseCause PersistedState :=
  ok_or (from_slice bytes) BadJson ≫= λ actual : PersistedState,
  ensure (bool_decide (version actual = STATE_VERSION)) UnsupportedVersion ≫= λ _,
  ensure (eqb (bool_decide (state actual = Claimed)) (bool_decide (authoritative_tables actual = None))) InconsistentPhase ≫= λ _,
  ensure (bool_decide (replay_identity actual = replay_identity expected) &&
          bool_decide (state_server_id actual = state_server_id expected) &&
          bool_decide (source actual = source expected) &&
          bool_decide (configured_tables actual = configured_tables expected)) DifferentSettings ≫= λ _,
  match state actual with
  | Snapshot boundary | Streaming boundary =>
      validate_boundary boundary ≫= λ _,
      ok_or (authoritative_tables actual) SchemaMissing ≫= λ tables,
      validate_authoritative_identity actual tables
  | Claimed => Ok tt
  end ≫= λ _,
  Ok actual.

Definition recorded_tables (s : Store) (server_id : Z) (src : MySqlSourceIdentity) (replay : string) (e : Env)
    : result PhaseError (option (list TableConfig)) :=
  map_err StorageError (read s SNAPSHOT_STREAM_STATE_KEY e) ≫= λ current,
  match current with
  | None => Ok None
  | Some current =>
      ok_or (from_slice (payload current)) (Safety BadJson) ≫= λ recorded : PersistedState,
      let tables := (λ p, {| config_database := p.1; config_name := p.2 |}) <$> configured_tables recorded in
      map_err Safety (validate_claim server_id tables src replay) ≫= λ _,
      map_err Safety (decode_and_validate (payload current) (persisted_state server_id tables src replay)) ≫= λ _,
      Ok (Some tables)
  end.

(** The exchange [claim_or_resume] and [store] end with. *)
Definition replace (s : Store) (x : option Z) (next : PersistedState) (conflict : PhaseCause) (e : Env)
    : Store * result PhaseError SnapshotStreamTracker :=
  replace_record SNAPSHOT_STREAM_STATE_KEY StorageError JsonError (Safety conflict) s x next e.

Definition claim_or_resume (s : Store) (server_id : Z) (tables : list TableConfig) (src : MySqlSourceIdentity)
    (replay : string) (e1 e2 : Env) : Store * result PhaseError SnapshotStreamPreparation :=
  let expected := persisted_state server_id tables src replay in
  match map_err Safety (validate_claim server_id tables src replay) ≫= λ _,
        map_err StorageError (read s SNAPSHOT_STREAM_STATE_KEY e1) with
  | Err e => (s, Err e)
  | Ok (Some current) =>
      match map_err Safety (decode_and_validate (payload current) expected) with
      | Err e => (s, Err e)
      | Ok persisted =>
          match state persisted with
          | Claimed =>
              let '(s, r) := replace s (Some (revision current)) expected ClaimChanged e2 in
              (s, r ≫= λ t, Ok (Create t))
          | Snapshot _ => (s, Err (Safety SnapshotInterrupted))
          | Streaming start_boundary =>
              (s, Ok (PrepareStreaming {| handle_revision := revision current; handle_identity := persisted |} start_boundary))
          end
      end
  | Ok None =>
      let '(s, r) := replace s None expected ClaimedByAnother e2 in
      (s, r ≫= λ t, Ok (Create t))
  end.

(** [SnapshotStreamTracker::store]. *)
Definition store_phase (s : Store) (t : SnapshotStreamTracker) (phase : PersistedPhase)
    (tables : option (list AuthoritativeTableIdentity)) (e : Env) : Store * SnapshotStreamTracker * result PhaseError unit :=
  let me := handle_identity t in
  let next := {| version := version me; replay_identity := replay_identity me; state_server_id := state_server_id me;
                 source := source me; configured_tables := configured_tables me;
                 authoritative_tables := tables; state := phase |} in
  match replace s (Some (handle_revision t)) next ModifiedByAnother e with
  | (s, Ok t) => (s, t, Ok tt)
  | (s, Err err) => (s, t, Err err)
  end.

Definition mark_snapshot_ready (s : Store) (t : SnapshotStreamTracker) (boundary : MySqlBinlogBoundary)
    (tables : list AuthoritativeTableIdentity) (e : Env) : Store * SnapshotStreamTracker * result PhaseError unit :=
  if negb (bool_decide (state (handle_identity t) = Claimed)) then (s, t, Err (Safety NotClaimed))
  else match map_err Safety (validate_boundary boundary ≫= λ _, validate_authoritative_identity (handle_identity t) tables) with
  | Err err => (s, t, Err err)
  | Ok _ => store_phase s t (Snapshot boundary) (Some tables) e
  end.

Definition mark_streaming (s : Store) (t : SnapshotStreamTracker) (e : Env)
    : Store * SnapshotStreamTracker * result PhaseError MySqlBinlogBoundary :=
  match state (handle_identity t) with
  | Snapshot boundary =>
      match authoritative_tables (handle_identity t) with
      | None => (s, t, Err (Safety SchemaMissing))
      | Some tables =>
          match store_phase s t (Streaming boundary) (Some tables) e with
          | (s, t, Ok _) => (s, t, Ok boundary)
          | (s, t, Err err) => (s, t, Err err)
          end
      end
  | Claimed | Streaming _ => (s, t, Err (Safety SnapshotNotReady))
  end.

Definition streaming_boundary (t : SnapshotStreamTracker) : option MySqlBinlogBoundary :=
  match state (handle_identity t) with Streaming start_boundary => Some start_boundary | _ => None end.
Definition validate_authoritative_tables (t : SnapshotStreamTracker) (tables : list AuthoritativeTableIdentity) : result PhaseError unit :=
  ok_or (authoritative_tables (handle_identity t)) (Safety SchemaMissing) ≫= λ expected,
  ensure (bool_decide (expected = tables)) (Safety SchemaChanged).

(** ** Histories of a delivery *)
Definition prepared (r : result PhaseError SnapshotStreamPreparation) : list SnapshotStreamTracker :=
  match r with Ok (Create t) | Ok (PrepareStreaming t _) => [t] | Err _ => [] end.

Inductive phase_step : Store * list SnapshotStreamTracker → Store * list SnapshotStreamTracker → Prop :=
| phase_claim s ts server_id tables src replay e1 e2 :
    let r := claim_or_resume s server_id tables src replay e1 e2 in phase_step (s, ts) (r.1, prepared r.2 ++ ts)
| phase_ready s ts t boundary tables e :
    t ∈ ts → let r := mark_snapshot_ready s t boundary tables e in phase_step (s, ts) (r.1.1, r.1.2 :: ts)
| phase_streaming s ts t e :
    t ∈ ts → let r := mark_streaming s t e in phase_step (s, ts) (r.1.1, r.1.2 :: ts)
| phase_elsewhere s ts k x b e :
    k ≠ SNAPSHOT_STREAM_STATE_KEY → key_ok k → payload_ok b → phase_step (s, ts) ((compare_exchange s k x b e).1, ts)
| phase_crash s ts s' : crashed s s' → phase_step (s, ts) (s', []).

(** The delivery is the same; a snapshot keeps its boundary and tables. *)
Definition phase_le (a b : PersistedPhase) : Prop :=
  match a, b with
  | Claimed, _ => True
  | Snapshot x, (Snapshot y | Streaming y) => x = y
  | Streaming x, Streaming y => x = y
  | _, _ => False
  end.
Record advance (a b : PersistedState) : Prop := {
  advance_replay : replay_identity b = replay_identity a;
  advance_server : state_server_id b = state_server_id a;
  advance_source : source b = source a;
  advance_configured : configured_tables b = configured_tables a;
  advance_phase : phase_le (state a) (state b);
  advance_tables : state a ≠ Claimed → authoritative_tables b = authoritative_tables a
}.
#[export] Instance phase_le_preorder : PreOrder phase_le.
Proof. split; [by intros []|intros [] [] []; cbn; congruence || done]. Qed.
#[export] Instance advance_preorder : PreOrder advance.
Proof.
  split.
  - intros a. split; done.
  - intros a b c [] []. split; [congruence..|by etrans|].
    intros Hne. rewrite <-advance_tables0 by done. apply advance_tables1. intros E. rewrite E in advance_phase0.
    by destruct (state a).
Qed.

Abbreviation phase_record_step := (record_step SNAPSHOT_STREAM_STATE_KEY advance).

Lemma replace_update s ts h next conflict e :
  h ∈ ts → advance (handle_identity h) next →
  let r := replace s (Some (handle_revision h)) next conflict e in
  rtc phase_record_step (s, ts) (r.1, (match r.2 with Ok t => [t] | Err _ => [] end) ++ ts).
Proof. intros. by apply replace_updated. Qed.

Lemma phase_decode_Ok bytes expected actual :
  decode_and_validate bytes expected = Ok actual →
  from_slice bytes = Some actual ∧ replay_identity actual = replay_identity expected ∧
  state_server_id actual = state_server_id expected ∧ source actual = source expected ∧
  configured_tables actual = configured_tables expected.
Proof.
  unfold decode_and_validate. intros E. apply bind_Ok in E as (st & Hj & E). destruct (from_slice bytes) as [st'|]; [injection Hj as ->|done].
  do 2 (apply bind_Ok in E as ([] & _ & E)). apply bind_Ok in E as ([] & Hid%ensure_Ok & E). apply bind_Ok in E as ([] & _ & [= <-]).
  by bool_inv.
Qed.

(** Every operation is a history of the record protocol. *)
Lemma claim_record s ts server_id tables src replay e1 e2 :
  let r := claim_or_resume s server_id tables src replay e1 e2 in
  ∃ hs, rtc phase_record_step (s, ts) (r.1, hs) ∧ prepared r.2 ++ ts ⊆ hs.
Proof.
  cbn zeta. unfold claim_or_resume. set (expected := persisted_state _ _ _ _).
  destruct (map_err Safety (validate_claim _ _ _ _)) as [[]|]; cbn [mbind result_bind]; [|by exists ts].
  destruct (read s SNAPSHOT_STREAM_STATE_KEY e1) as [[v|]|e] eqn:R; cbn [map_err]; [| |by exists ts].
  - destruct (map_err Safety _) as [persisted|] eqn:D; [|by exists ts]. apply map_err_Ok, phase_decode_Ok in D as (Hj & I1 & I2 & I3 & I4).
    set (h := {| handle_revision := revision v; handle_identity := persisted |}).
    assert (phase_record_step (s, ts) (s, h :: ts)) as Open by (eapply record_open; done).
    destruct (state persisted) as [|b|b] eqn:Ep.
    + assert (advance (handle_identity h) expected) as Ha by (split; cbn [handle_identity h]; [congruence..|by rewrite Ep|by rewrite Ep]).
      pose proof (replace_update s (h :: ts) h expected ClaimChanged e2 ltac:(by left) Ha) as Steps. cbn [handle_revision h] in Steps.
      destruct (replace _ _ _ _ _) as [s' r]. eexists. split; [eapply rtc_l; [exact Open|exact Steps]|].
      cbn. destruct r as [t|]; cbn; set_solver.
    + by exists ts.
    + exists (h :: ts). split; [by apply rtc_once|done].
  - pose proof (replace_created SNAPSHOT_STREAM_STATE_KEY advance StorageError JsonError (Safety ClaimedByAnother) s ts expected e2) as Steps.
    unfold replace. destruct (replace_record _ _ _ _ _ _ _ _) as [s' [t|]]; cbn in *; eexists; (split; [exact Steps|done]).
Qed.

Lemma store_phase_record s ts t phase tables e :
  t ∈ ts → phase_le (state (handle_identity t)) phase →
  (state (handle_identity t) ≠ Claimed → authoritative_tables (handle_identity t) = tables) →
  let r := store_phase s t phase tables e in
  ∃ hs, rtc phase_record_step (s, ts) (r.1.1, hs) ∧ r.1.2 :: ts ⊆ hs.
Proof.
  intros Ht Hp Htab. cbn zeta. unfold store_phase. set (next := {| version := _ |}).
  assert (advance (handle_identity t) next) as Ha by (split; cbn; [done..|intros; symmetry; auto]).
  pose proof (replace_update s ts t next ModifiedByAnother e Ht Ha) as Steps.
  destruct (replace _ _ _ _ _) as [s' [t'|err]]; cbn in *; eexists; (split; [exact Steps|set_solver]).
Qed.

Lemma ready_record s ts t boundary tables e :
  t ∈ ts → let r := mark_snapshot_ready s t boundary tables e in
  ∃ hs, rtc phase_record_step (s, ts) (r.1.1, hs) ∧ r.1.2 :: ts ⊆ hs.
Proof.
  intros Ht. cbn zeta. unfold mark_snapshot_ready. case_bool_decide as Hc; cbn [negb]; [|exists ts; split; [done|set_solver]].
  destruct (map_err _ _); [|exists ts; split; [done|set_solver]]. apply store_phase_record; [done|by rewrite Hc|done].
Qed.

Lemma streaming_record s ts t e :
  t ∈ ts → let r := mark_streaming s t e in ∃ hs, rtc phase_record_step (s, ts) (r.1.1, hs) ∧ r.1.2 :: ts ⊆ hs.
Proof.
  intros Ht. cbn zeta. unfold mark_streaming.
  destruct (state (handle_identity t)) as [|b|b] eqn:Es; [exists ts; split; [done|set_solver]| |exists ts; split; [done|set_solver]].
  destruct (authoritative_tables (handle_identity t)) as [tables|] eqn:Et; [|exists ts; split; [done|set_solver]].
  destruct (store_phase_record s ts t (Streaming b) (Some tables) e Ht) as (hs & Steps & Hsub); [by rewrite Es|done|].
  destruct (store_phase _ _ _ _ _) as [[s' t'] [[]|err]]; cbn in *; by exists hs.
Qed.

Context (Hkey : key_ok SNAPSHOT_STREAM_STATE_KEY).
Abbreviation PhaseInv := (RecordInv SNAPSHOT_STREAM_STATE_KEY advance).

Lemma phase_steps_inv c c' :
  PhaseInv c → rtc phase_step c c' →
  PhaseInv c' ∧ older advance (settled c.1 SNAPSHOT_STREAM_STATE_KEY) (settled c'.1 SNAPSHOT_STREAM_STATE_KEY).
Proof.
  apply (record_histories SNAPSHOT_STREAM_STATE_KEY advance Hkey phase_step). clear c c'. intros c c' St.
  destruct St as [s ts server_id tables src replay e1 e2 r|s ts t boundary tables e Ht r|s ts t e Ht r|s ts k x b e Hk Hok Hb|s ts s' Hc].
  - apply claim_record.
  - by apply ready_record.
  - by apply streaming_record.
  - exists ts. split; [apply rtc_once; by constructor|done].
  - exists []. split; [apply rtc_once; by constructor|done].
Qed.

Lemma replace_settles s ts h next conflict e s1 t1 :
  PhaseInv (s, ts) → h ∈ ts → advance (handle_identity h) next →
  replace s (Some (handle_revision h)) next conflict e = (s1, Ok t1) →
  handle_identity t1 = next ∧ PhaseInv (s1, t1 :: ts) ∧ holds (settled s1 SNAPSHOT_STREAM_STATE_KEY) next.
Proof.
  intros I Hh Ha. apply (replace_record_settles _ _ Hkey); [done|]. by eapply handle_admissible.
Qed.

Lemma ready_settles s ts t boundary tables e s1 t1 :
  PhaseInv (s, ts) → t ∈ ts → mark_snapshot_ready s t boundary tables e = (s1, t1, Ok tt) →
  PhaseInv (s1, t1 :: ts) ∧ holds (settled s1 SNAPSHOT_STREAM_STATE_KEY) (handle_identity t1) ∧
  state (handle_identity t) = Claimed ∧
  state (handle_identity t1) = Snapshot boundary ∧ authoritative_tables (handle_identity t1) = Some tables.
Proof.
  intros I Ht. unfold mark_snapshot_ready. case_bool_decide as Hc; cbn [negb]; [|done]. destruct (map_err _ _); [|done].
  unfold store_phase. set (next := {| version := _ |}).
  assert (advance (handle_identity t) next) as Ha by (split; cbn; [done..|by rewrite Hc|by rewrite Hc]).
  destruct (replace _ _ _ _ _) as [s' [t'|err]] eqn:R; [|done]. intros [= <- <-].
  destruct (replace_settles _ _ _ _ _ _ _ _ I Ht Ha R) as (E & I1 & Hs). by rewrite E.
Qed.

(** What [claim_or_resume] returns from a record. *)
Lemma claim_reads s server_id tables src replay e1 e2 s' p :
  claim_or_resume s server_id tables src replay e1 e2 = (s', Ok p) →
  ∃ o, read s SNAPSHOT_STREAM_STATE_KEY e1 = Ok o ∧
  match o with
  | None => ∃ t, p = Create t
  | Some v => ∃ st, from_slice (payload v) = Some st ∧
      match state st with
      | Claimed => ∃ t, p = Create t
      | Snapshot _ => False
      | Streaming b => ∃ t, p = PrepareStreaming t b ∧ handle_identity t = st
      end
  end.
Proof.
  unfold claim_or_resume. destruct (map_err Safety (validate_claim _ _ _ _)) as [[]|]; cbn [mbind result_bind]; [|done].
  destruct (read s SNAPSHOT_STREAM_STATE_KEY e1) as [[v|]|e] eqn:R; cbn [map_err]; [| |done].
  - destruct (map_err Safety _) as [persisted|] eqn:D; [|done]. apply map_err_Ok, phase_decode_Ok in D as (Hj & _).
    intros E. exists (Some v). split; [done|]. exists persisted. split; [done|].
    destruct (state persisted) as [|b|b].
    + destruct (replace _ _ _ _ _) as [s1 [t|]]; [|done]. injection E as _ <-. by exists t.
    + done.
    + injection E as _ <-. by eexists.
  - intros E. exists None. split; [done|]. destruct (replace _ _ _ _ _) as [s1 [t|]]; [|done]. injection E as _ <-. by exists t.
Qed.
End phase.

(** ** Properties *)
Section properties.
Context `{MySqlCommon, DurableStorage, !Json PersistedState}.

(** After an acknowledged snapshot, the record a read finds is at or past it. *)
Lemma ready_history s0 s ts t boundary tables e s1 t1 s2 ts2 :
  store_ok s0 → key_ok SNAPSHOT_STREAM_STATE_KEY → value s0 SNAPSHOT_STREAM_STATE_KEY = None →
  rtc phase_step (s0, []) (s, ts) → t ∈ ts →
  mark_snapshot_ready s t boundary tables e = (s1, t1, Ok tt) →
  rtc phase_step (s1, t1 :: ts) (s2, ts2) →
  RecordInv SNAPSHOT_STREAM_STATE_KEY advance (s2, ts2) ∧
  ∃ st, holds (value s2 SNAPSHOT_STREAM_STATE_KEY) st ∧ phase_le (Snapshot boundary) (state st) ∧ authoritative_tables st = Some tables.
Proof.
  intros Hs Hk Hv Pre Ht St Post.
  destruct (phase_steps_inv Hk _ _ (record_initial _ advance Hk s0 Hs Hv) Pre) as [I _].
  destruct (ready_settles Hk _ _ _ _ _ _ _ _ I Ht St) as (I1 & Hset & _ & Es & Et).
  destruct (phase_steps_inv Hk _ _ I1 Post) as [I2 O2]. split; [done|].
  destruct (older_holds _ _ _ _ O2 Hset) as (st1 & Hh1 & A1).
  destruct (older_holds _ _ _ _ (record_settled _ _ _ I2) Hh1) as (st2 & Hh2 & A2). exists st2. split; [done|].
  assert (advance (handle_identity t1) st2) as A by (by etrans). destruct A as [_ _ _ _ Hp Htab]. rewrite Es in Hp, Htab.
  split; [done|]. by rewrite Htab.
Qed.

(** C14. On a storage that meets the laws of [DurableStorage], the stream starts exactly
    where the snapshot was taken: once a snapshot is acknowledged, whatever processes,
    failures and crashes follow, a delivery is only ever resumed streaming from that
    snapshot's boundary with its tables, and never snapshots again. *)
Theorem mysql_stream_starts_at_snapshot
    s0 s ts t boundary tables e s1 t1 s2 ts2 server_id configured src replay e1 e2 s3 p :
  store_ok s0 → key_ok SNAPSHOT_STREAM_STATE_KEY → value s0 SNAPSHOT_STREAM_STATE_KEY = None →
  rtc phase_step (s0, []) (s, ts) → t ∈ ts →
  mark_snapshot_ready s t boundary tables e = (s1, t1, Ok tt) →
  rtc phase_step (s1, t1 :: ts) (s2, ts2) →
  claim_or_resume s2 server_id configured src replay e1 e2 = (s3, Ok p) →
  ∃ t2, p = PrepareStreaming t2 boundary ∧ authoritative_tables (handle_identity t2) = Some tables.
Proof.
  intros Hs Hk Hv Pre Ht St Post C.
  destruct (ready_history _ _ _ _ _ _ _ _ _ _ _ Hs Hk Hv Pre Ht St Post) as (I2 & st & (v & Ev & Dv) & Hp & Htab).
  destruct (claim_reads _ _ _ _ _ _ _ _ _ C) as (o & R & Ho). apply read_value in R; [|apply I2|done]. cbn [fst] in R. rewrite Ev in R. subst o.
  destruct Ho as (st' & D' & Ho). rewrite Dv in D'. injection D' as <-. destruct (state st) as [|b|b]; [done|done|].
  cbn in Hp. subst b. destruct Ho as (t2 & -> & E). exists t2. by rewrite E.
Qed.

(** A delivery takes one snapshot: after an acknowledged one, [mark_snapshot_ready] fails on
    every tracker of every process. *)
Theorem mysql_single_snapshot s0 s ts t boundary tables e s1 t1 s2 ts2 t' boundary' tables' e' :
  store_ok s0 → key_ok SNAPSHOT_STREAM_STATE_KEY → value s0 SNAPSHOT_STREAM_STATE_KEY = None →
  rtc phase_step (s0, []) (s, ts) → t ∈ ts →
  mark_snapshot_ready s t boundary tables e = (s1, t1, Ok tt) →
  rtc phase_step (s1, t1 :: ts) (s2, ts2) → t' ∈ ts2 →
  ∃ err, (mark_snapshot_ready s2 t' boundary' tables' e').2 = Err err.
Proof.
  intros Hs Hk Hv Pre Ht St Post Ht'.
  destruct (ready_history _ _ _ _ _ _ _ _ _ _ _ Hs Hk Hv Pre Ht St Post) as (I2 & st & (v & Ev & Dv) & Hp & _).
  destruct (mark_snapshot_ready s2 t' boundary' tables' e') as [[s3 t3] [[]|err]] eqn:M; [exfalso|by exists err].
  destruct (ready_settles Hk _ _ _ _ _ _ _ _ I2 Ht' M) as (_ & _ & Hc & _).
  destruct (record_handles _ _ _ I2 t' Ht') as (w & Ew & _ & Hid). cbn [fst] in Ew. rewrite Ev in Ew. injection Ew as <-.
  assert (handle_revision t' = revision v) as Er.
  { revert M. unfold mark_snapshot_ready, store_phase, replace, replace_record. rewrite bool_decide_eq_true_2 by done. cbn [negb].
    destruct (map_err _ _); [|done]. set (next := {| version := _ |}). destruct (to_vec next) as [bytes|] eqn:Hb; [|done].
    pose proof (exchange_result s2 SNAPSHOT_STREAM_STATE_KEY (Some (handle_revision t')) bytes e'
      (record_store _ _ _ I2) Hk (to_vec_fits _ _ Hb)) as X. cbn zeta in X.
    destruct (compare_exchange _ _ _ _ _) as [s' [[u|c]|err]]; [|done..]. cbn [fst snd] in X. destruct X as ((E & _) & _).
    rewrite Ev in E. cbn in E. by injection E as ->. }
  specialize (Hid Er). rewrite Dv in Hid. injection Hid as ->. by rewrite Hc in Hp.
Qed.
End properties.

(** ** Examples: a delivery in local files *)
Module PhaseExample.
#[local] Existing Instance example_common.
#[local] Instance storage : DurableStorage := @local_files zero_murmur3 ["state"].
Definition src : MySqlSourceIdentity := {| server_uuid := "3e11fa47-71ca-11e1-9e33-c80aa9429562"; source_database := "shop" |}.
Definition configured : list TableConfig := [{| config_database := "shop"; config_name := "orders" |}].
Definition boundary : MySqlBinlogBoundary :=
  {| boundary_filename := "bin.000001"; boundary_offset := 4; gtid_executed := ""; source_timestamp_micros := 0 |}.
Definition claimed : PersistedState := persisted_state 7 configured src "replay".
Definition in_phase (p : PersistedPhase) : PersistedState :=
  {| version := STATE_VERSION; replay_identity := "replay"; state_server_id := 7; source := src;
     configured_tables := configured_tables claimed; authoritative_tables := Some [example_table]; state := p |}.

(** A codec that knows the three records. *)
#[local] Program Instance json : Json PersistedState := {|
  to_vec st := if bool_decide (st = claimed) then Some [1] else if bool_decide (st = in_phase (Snapshot boundary)) then Some [2]
               else if bool_decide (st = in_phase (Streaming boundary)) then Some [3] else None;
  from_slice b := if bool_decide (b = [1]) then Some claimed else if bool_decide (b = [2]) then Some (in_phase (Snapshot boundary))
                  else if bool_decide (b = [3]) then Some (in_phase (Streaming boundary)) else None
|}.
Next Obligation. intros st b. cbn. repeat case_bool_decide; intros [= <-]; naive_solver. Qed.
Next Obligation. intros st b. cbn. repeat case_bool_decide; intros [= <-]; by apply one_byte. Qed.

Definition env (sequence : Z) : Env := (7, sequence, NoFault).
Definition opened := claim_or_resume (blank : Store) 7 configured src "replay" (env 0) (env 0).
Definition tracker : Handle PersistedState := {| handle_revision := 0; handle_identity := claimed |}.
Definition ready := mark_snapshot_ready opened.1 tracker boundary [example_table] (env 1).
Definition streaming := mark_streaming ready.1.1 ready.1.2 (env 2).
Definition after_crash : Store := reverted streaming.1.1.
Definition reopened := claim_or_resume after_crash 7 configured src "replay" (env 3) (env 3).

Lemma phase_file_key : key_ok SNAPSHOT_STREAM_STATE_KEY.
Proof.
  change (file_key ["state"] SNAPSHOT_STREAM_STATE_KEY).
  split; [apply (bool_decide_unpack (dotless SNAPSHOT_STREAM_STATE_KEY)); vm_compute; exact I|vm_compute; exact I].
Qed.
Lemma claimed_step : phase_step (blank : Store, []) (opened.1, [tracker]).
Proof.
  pose proof (phase_claim blank [] 7 configured src "replay" (env 0) (env 0)) as St.
  fold opened in St. cbn zeta in St. assert (prepared opened.2 = [tracker]) as E by (vm_compute; reflexivity).
  rewrite E in St. exact St.
Qed.
Lemma ready_Ok : ready = (ready.1.1, ready.1.2, Ok tt).
Proof. assert (ready.2 = Ok tt) as <- by (vm_compute; reflexivity). by destruct ready as [[? ?] ?]. Qed.

Lemma mysql_stream_starts_at_snapshot_witness :
  streaming.2 = Ok boundary ∧
  reopened.2 = Ok (PrepareStreaming {| handle_revision := 2; handle_identity := in_phase (Streaming boundary) |} boundary) ∧
  ∃ t2, PrepareStreaming {| handle_revision := 2; handle_identity := in_phase (Streaming boundary) |} boundary = PrepareStreaming t2 boundary ∧
    authoritative_tables (handle_identity t2) = Some [example_table].
Proof.
  assert (reopened.2 = Ok (PrepareStreaming {| handle_revision := 2; handle_identity := in_phase (Streaming boundary) |} boundary)) as Hr
    by (vm_compute; reflexivity).
  split; [vm_compute; reflexivity|]. split; [exact Hr|].
  eapply (@mysql_stream_starts_at_snapshot example_common storage json blank opened.1 [tracker] tracker boundary [example_table] (env 1)
    ready.1.1 ready.1.2 after_crash [] 7 configured src "replay" (env 3) (env 3) reopened.1).
  - apply (@empty_disk_consistent zero_murmur3 [["state"]]).
  - apply phase_file_key.
  - vm_compute; reflexivity.
  - apply rtc_once, claimed_step.
  - by left.
  - apply ready_Ok.
  - eapply rtc_l; [|apply rtc_once, phase_crash; split; [apply (bool_decide_unpack (housed streaming.1.1)); vm_compute; exact I|apply reverted_crash]].
    apply (phase_streaming ready.1.1 _ ready.1.2 (env 2)). by left.
  - rewrite <-Hr. apply surjective_pairing.
Defined.

Lemma mysql_single_snapshot_witness :
  ∃ err, (mark_snapshot_ready ready.1.1 tracker boundary [example_table] (env 2)).2 = Err err.
Proof.
  apply (@mysql_single_snapshot example_common storage json blank opened.1 [tracker] tracker boundary [example_table] (env 1)
    ready.1.1 ready.1.2 ready.1.1 [ready.1.2; tracker]).
  - apply (@empty_disk_consistent zero_murmur3 [["state"]]).
  - apply phase_file_key.
  - vm_compute; reflexivity.
  - apply rtc_once, claimed_step.
  - by left.
  - apply ready_Ok.
  - apply rtc_refl.
  - right. by left.
Defined.
End PhaseExample.
