(* ===== verification/MySqlIdentity.v ===== *)
(** * MySQL source transaction identities

    [src_stream/identity.rs] of transferia-connector-mysql: the bytes that identify a
    transaction or a snapshot boundary downstream. *)

From stdpp Require Import base tactics numbers option strings list.
From S2P Require Import Prelude Bytes MySqlPosition MySqlTables.
Local Open Scope Z_scope.

Inductive MySqlTransactionIdentity :=
| GtidIdentity (sid : list Z) (tag : option string) (gno : Z)
| Anonymous (begin_position : MySqlBinlogPosition)
| FilePositionIdentity (begin_position : MySqlBinlogPosition).

Inductive IdentityEncodingError := FieldTooLong.

Definition IDENTITY_DOMAIN : list Z := string_bytes "transferia.mysql.source-transaction-id".
Definition IDENTITY_VERSION : Z := 1.
Definition GTID_TRANSACTION_TAG : Z := 1.
Definition ANONYMOUS_TRANSACTION_TAG : Z := 2.
Definition FILE_POSITION_TRANSACTION_TAG : Z := 3.
Definition SNAPSHOT_BOUNDARY_TAG : Z := 4.

Definition identity_prefix (kind : Z) : list Z := IDENTITY_DOMAIN ++ [IDENTITY_VERSION; kind].

(** [u64::try_from] of a length. *)
Definition length_bytes (value : list Z) : result IdentityEncodingError (list Z) :=
  ensure (bool_decide (Z.of_nat (length value) ≤ u64_max)) FieldTooLong ≫= λ _, Ok (be_bytes 8 (Z.of_nat (length value))).
Definition push_field (encoded : list Z) (tag : Z) (value : list Z) : result IdentityEncodingError (list Z) :=
  length_bytes value ≫= λ length, Ok (encoded ++ [tag] ++ length ++ value).
Definition push_optional_field (encoded : list Z) (tag : Z) (value : option string) : result IdentityEncodingError (list Z) :=
  match value with
  | None => push_field encoded tag [0]
  | Some value =>
      length_bytes (string_bytes value) ≫= λ length,
      push_field encoded tag ([1] ++ length ++ string_bytes value)
  end.

Definition encode_transaction_identity (i : MySqlTransactionIdentity) : result IdentityEncodingError (list Z) :=
  let encoded := identity_prefix (match i with
    | GtidIdentity _ _ _ => GTID_TRANSACTION_TAG
    | Anonymous _ => ANONYMOUS_TRANSACTION_TAG
    | FilePositionIdentity _ => FILE_POSITION_TRANSACTION_TAG end) in
  match i with
  | GtidIdentity sid tag gno =>
      push_field encoded 1 sid ≫= λ encoded,
      push_optional_field encoded 2 tag ≫= λ encoded,
      push_field encoded 3 (be_bytes 8 gno)
  | Anonymous p | FilePositionIdentity p =>
      push_field encoded 1 (filename p) ≫= λ encoded,
      push_field encoded 2 (be_bytes 4 (bp_position p))
  end.

Definition encode_snapshot_boundary_identity (b : MySqlBinlogBoundary) : result IdentityEncodingError (list Z) :=
  push_field (identity_prefix SNAPSHOT_BOUNDARY_TAG) 1 (string_bytes (boundary_filename b)) ≫= λ encoded,
  push_field encoded 2 (be_bytes 8 (boundary_offset b)) ≫= λ encoded,
  push_field encoded 3 (string_bytes (gtid_executed b)) ≫= λ encoded,
  push_field encoded 4 (be_bytes 8 (source_timestamp_micros b)).

(** ** Injectivity *)

(** Values of the source types. *)
Definition typed_identity (i : MySqlTransactionIdentity) : Prop :=
  match i with
  | GtidIdentity _ _ gno => unsigned 8 gno
  | Anonymous p | FilePositionIdentity p => unsigned 4 (bp_position p)
  end.
Definition typed_boundary (b : MySqlBinlogBoundary) : Prop := unsigned 8 (boundary_offset b) ∧ signed 8 (source_timestamp_micros b).

(** The identity of a row's origin, of either kind. *)
Definition encode_origin (o : MySqlTransactionIdentity + MySqlBinlogBoundary) : result IdentityEncodingError (list Z) :=
  match o with inl i => encode_transaction_identity i | inr b => encode_snapshot_boundary_identity b end.
Definition typed_origin (o : MySqlTransactionIdentity + MySqlBinlogBoundary) : Prop :=
  match o with inl i => typed_identity i | inr b => typed_boundary b end.

Lemma push_field_Ok encoded tag value out :
  push_field encoded tag value = Ok out → short value ∧ out = encoded ++ tag :: frame value.
Proof.
  unfold push_field, length_bytes, short, frame. intros E. res_inv. bool_inv. unfold u64_max in *. split; [lia|done].
Qed.
Lemma push_optional_Ok encoded tag value out :
  push_optional_field encoded tag value = Ok out →
  let field := match value with None => [0] | Some v => 1 :: frame (string_bytes v) end in
  short field ∧ (∀ v, value = Some v → short (string_bytes v)) ∧ out = encoded ++ tag :: frame field.
Proof.
  unfold push_optional_field. destruct value as [v|].
  - intros E. apply bind_Ok in E as (l & L & E). apply push_field_Ok in E as [Hs ->].
    unfold length_bytes in L. res_inv. bool_inv. split_and!; [done|intros ? [= <-]; unfold short, u64_max in *; lia|done].
  - intros E%push_field_Ok. destruct E. by split_and!.
Qed.

Lemma cons_split {A} (a b : A) x y : a :: x = b :: y → a = b ∧ x = y.
Proof. by intros [= -> ->]. Qed.

Lemma cons_frame_inj t1 t2 v1 v2 r1 r2 :
  short v1 → short v2 → t1 :: frame v1 ++ r1 = t2 :: frame v2 ++ r2 → t1 = t2 ∧ v1 = v2 ∧ r1 = r2.
Proof.
  intros S1 S2 [-> E]%cons_split. by destruct (frame_inj v1 v2 r1 r2 S1 S2 E).
Qed.

(** The four layouts, as a prefix tag and framed fields. *)
Definition kind_of (o : MySqlTransactionIdentity + MySqlBinlogBoundary) : Z :=
  match o with
  | inl (GtidIdentity _ _ _) => 1 | inl (Anonymous _) => 2 | inl (FilePositionIdentity _) => 3 | inr _ => 4
  end.
Definition fields_of (o : MySqlTransactionIdentity + MySqlBinlogBoundary) : list (list Z) :=
  match o with
  | inl (GtidIdentity sid tag gno) =>
      [sid; match tag with None => [0] | Some v => 1 :: frame (string_bytes v) end; be_bytes 8 gno]
  | inl (Anonymous p) | inl (FilePositionIdentity p) => [filename p; be_bytes 4 (bp_position p)]
  | inr b => [string_bytes (boundary_filename b); be_bytes 8 (boundary_offset b); string_bytes (gtid_executed b);
              be_bytes 8 (source_timestamp_micros b)]
  end.
Definition tagged (fields : list (list Z)) : list Z := concat (imap (λ i f, Z.of_nat (S i) :: frame f) fields).

Lemma encode_origin_layout o b :
  encode_origin o = Ok b →
  Forall short (fields_of o) ∧ b = identity_prefix (kind_of o) ++ tagged (fields_of o) ∧
  (∀ s t v g, o = inl (GtidIdentity s t g) → t = Some v → short (string_bytes v)).
Proof.
  destruct o as [[s t g|p|p]|bd]; cbn [encode_origin encode_transaction_identity]; intros E.
  - apply bind_Ok in E as (e1 & [S1 ->]%push_field_Ok & E). apply bind_Ok in E as (e2 & (S2 & S3 & ->)%push_optional_Ok & E).
    apply push_field_Ok in E as [S4 ->]. split_and!; [by repeat constructor| |naive_solver].
    unfold tagged. cbn. by rewrite <-!app_assoc, app_nil_r.
  - apply bind_Ok in E as (e1 & [S1 ->]%push_field_Ok & [S2 ->]%push_field_Ok). split_and!; [by repeat constructor| |naive_solver].
    unfold tagged. cbn. by rewrite <-!app_assoc, app_nil_r.
  - apply bind_Ok in E as (e1 & [S1 ->]%push_field_Ok & [S2 ->]%push_field_Ok). split_and!; [by repeat constructor| |naive_solver].
    unfold tagged. cbn. by rewrite <-!app_assoc, app_nil_r.
  - unfold encode_snapshot_boundary_identity in E. apply bind_Ok in E as (e1 & [S1 ->]%push_field_Ok & E).
    apply bind_Ok in E as (e2 & [S2 ->]%push_field_Ok & E). apply bind_Ok in E as (e3 & [S3 ->]%push_field_Ok & [S4 ->]%push_field_Ok).
    split_and!; [by repeat constructor| |naive_solver]. unfold tagged. cbn. by rewrite <-!app_assoc, app_nil_r.
Qed.

Lemma tagged_inj_from (g : nat → Z) f1 f2 :
  length f1 = length f2 → Forall short f1 → Forall short f2 →
  concat (imap (λ i f, g i :: frame f) f1) = concat (imap (λ i f, g i :: frame f) f2) → f1 = f2.
Proof.
  revert g f2. induction f1 as [|a f1 IH]; intros g [|b f2] Hl S1 S2 E; try done.
  apply Forall_cons in S1 as [Sa S1]. apply Forall_cons in S2 as [Sb S2]. rewrite !imap_cons in E. cbn [concat app] in E.
  apply cons_frame_inj in E as (_ & -> & E); [|done..]. f_equal. injection Hl as Hl. by apply (IH (g ∘ S) f2).
Qed.
Lemma tagged_inj f1 f2 : length f1 = length f2 → Forall short f1 → Forall short f2 → tagged f1 = tagged f2 → f1 = f2.
Proof. apply (tagged_inj_from (λ i, Z.of_nat (S i))). Qed.

Lemma optional_inj t1 t2 :
  (∀ v, t1 = Some v → short (string_bytes v)) → (∀ v, t2 = Some v → short (string_bytes v)) →
  match t1 with None => [0] | Some v => 1 :: frame (string_bytes v) end =
  match t2 with None => [0] | Some v => 1 :: frame (string_bytes v) end → t1 = t2.
Proof.
  destruct t1 as [v1|], t2 as [v2|]; intros S1 S2 E; [|discriminate E|discriminate E|done].
  rewrite <-(app_nil_r (frame (string_bytes v1))), <-(app_nil_r (frame (string_bytes v2))) in E.
  apply cons_frame_inj in E as (_ & ->%string_bytes_inj & _); auto.
Qed.

(** Downstream identities never collide: the encodings of two transactions, of two snapshot
    boundaries, or of a transaction and a boundary are equal only when the transactions or
    boundaries are. *)
Theorem mysql_identity_injective o1 o2 b :
  typed_origin o1 → typed_origin o2 → encode_origin o1 = Ok b → encode_origin o2 = Ok b → o1 = o2.
Proof.
  intros T1 T2 E1 E2. apply encode_origin_layout in E1 as (S1 & -> & G1), E2 as (S2 & E & G2).
  unfold identity_prefix in E. rewrite <-!app_assoc in E. apply app_inv_head in E.
  assert (kind_of o1 = kind_of o2 ∧ tagged (fields_of o1) = tagged (fields_of o2)) as [Hk Ht].
  { apply (f_equal (drop 1)) in E. change (kind_of o1 :: tagged (fields_of o1) = kind_of o2 :: tagged (fields_of o2)) in E.
    by apply cons_split in E. }
  assert (length (fields_of o1) = length (fields_of o2)) as Hl by (destruct o1 as [[]|], o2 as [[]|]; done).
  apply tagged_inj in Ht; [|done..]. clear E S1 S2 Hl.
  destruct o1 as [[s1 t1 g1|[f1 p1]|[f1 p1]]|b1], o2 as [[s2 t2 g2|[f2 p2]|[f2 p2]]|b2]; try discriminate Hk; cbn [fields_of typed_origin typed_identity] in *.
  - apply cons_split in Ht as [Hs [Hg [Hn _]%cons_split]%cons_split]. apply be_bytes_unsigned in Hn; [|done..]. apply optional_inj in Hg; [|naive_solver..]. by subst.
  - apply cons_split in Ht as [Hf [Hp _]%cons_split]. apply be_bytes_unsigned in Hp; [|done..]. cbn in *. by subst.
  - apply cons_split in Ht as [Hf [Hp _]%cons_split]. apply be_bytes_unsigned in Hp; [|done..]. cbn in *. by subst.
  - destruct b1, b2, T1, T2. cbn in *. apply cons_split in Ht as [Hf [Hp [Hg [Hm _]%cons_split]%cons_split]%cons_split]. apply string_bytes_inj in Hf, Hg.
    apply be_bytes_unsigned in Hp; [|done..]. apply be_bytes_signed in Hm; [|lia|done..]. by subst.
Qed.

Lemma mysql_identity_injective_witness :
  inl (GtidIdentity (sid example_sid) (Some "a") 5) = inl (GtidIdentity (sid example_sid) (Some "a") 5) :> MySqlTransactionIdentity + MySqlBinlogBoundary.
Proof.
  eapply (mysql_identity_injective (inl (GtidIdentity (sid example_sid) (Some "a") 5)) (inl (GtidIdentity (sid example_sid) (Some "a") 5)));
    [by cbn|by cbn|vm_compute; reflexivity|vm_compute; reflexivity].
Defined.
