(* ===== verification/MySqlTableMap.v ===== *)
(** * MySQL table maps

    [table_identity] and its helpers of [src_stream/decoder.rs] (transferia-connector-mysql):
    the columns of a binlog table-map event.  What mysql_async parses out of the event is the
    data of [TableMapEvent]; its types and its metadata extractor are an interface. *)

From stdpp Require Import base tactics numbers option strings list.
From S2P Require Import Prelude Bytes.
Local Open Scope Z_scope.

Inductive MetadataField :=
| NumericSignedness | CharacterCollations | EnumSetCollations | ColumnNames | ColumnTypes | PrimaryKeyField
| EnumValues | SetValues | GeometryTypes | VectorDimensionalities | ColumnVisibilities.

(** A reader of mysql_async fails with an I/O error. *)
Abbreviation io A := (result unit A) (only parsing).

Class BinlogTypes := {
  ColumnType : Type;
  ColumnType_eq_dec :: EqDecision ColumnType;
  MYSQL_TYPE_ENUM : ColumnType;
  MYSQL_TYPE_SET : ColumnType;
  MYSQL_TYPE_GEOMETRY : ColumnType;
  MYSQL_TYPE_VECTOR : ColumnType;
  is_numeric_type : ColumnType → bool;
  is_character_type : ColumnType → bool;
  is_enum_or_set_type : ColumnType → bool;
  GeometryType : Type;
  BinlogValue : Type
}.

Inductive TableMapError :=
| MalformedTableMetadata | IncompleteFullTableMetadata (f : MetadataField) (expected received : nat)
| DuplicateFullTableMetadata (f : MetadataField) | CharsetOverride (f : MetadataField)
| PrimaryKeyColumnOutOfBounds (column : Z) | IndexOutOfBounds.

Section table_map.
Context `{BinlogTypes}.

(** [OptionalMetadataField], with the values its iterators yield. *)
Inductive OptionalMetadataField :=
| Signedness
| DefaultCharset (non_default_indexes : list (io Z))
| ColumnCharset (charsets : list (io Z))
| EnumAndSetDefaultCharset (non_default_indexes : list (io Z))
| EnumAndSetColumnCharset (charsets : list (io Z))
| ColumnName
| SimplePrimaryKey (indexes : list (io Z))
| PrimaryKeyWithPrefix (keys : list (io (Z * Z)))
| EnumStrValue (values : list (io (list (list Z))))
| SetStrValue (values : list (io (list (list Z))))
| GeometryTypeField (types : list (io GeometryType))
| Dimensionality (values : list (io Z))
| ColumnVisibility (bits : list bool).

(** What [OptionalMetaExtractor] yields. *)
Record OptionalMeta := {
  iter_column_name : list (io (list Z)); iter_signedness : list bool;
  iter_charset : list (io Z); iter_enum_and_set_charset : list (io Z)
}.

Record TableMapEvent := {
  tm_table_id : Z; columns_count : Z; database_name_raw : list Z; table_name_raw : list Z;
  iter_optional_meta : list (io OptionalMetadataField);
  extracted : io OptionalMeta;
  get_column_type : nat → io (option ColumnType);
  get_column_metadata : nat → option (list Z);
  null_bitmask : list bool
}.

Record MySqlBinlogColumnIdentity := {
  ci_name : list Z; ci_column_type : ColumnType; metadata : list Z; ci_nullable : bool; ci_unsigned : option bool;
  ci_collation_id : option Z; enum_values : option (list (list Z)); set_values : option (list (list Z));
  geometry_type : option GeometryType; vector_dimensionality : option Z; visible : bool;
  ci_primary_key_ordinal : option Z; ci_primary_key_prefix_length : option Z
}.
Record MySqlTableIdentity := {
  table_id : Z; ti_database : list Z; ti_table : list Z; ti_columns : Z; column_identities : list MySqlBinlogColumnIdentity
}.
Record FullColumnMetadata := {
  fm_enum_values : list (list (list Z)); fm_set_values : list (list (list Z)); geometry_types : list GeometryType;
  vector_dimensionalities : list Z; fm_visibility : list bool
}.

(** [collect::<Result<Vec<_>, _>>] of an iterator of mysql_async. *)
Definition collect {A} (l : list (io A)) : result TableMapError (list A) :=
  match mapM id l with Ok v => Ok v | Err _ => Err MalformedTableMetadata end.
Definition io_ok {A} (r : io A) : result TableMapError A :=
  match r with Ok a => Ok a | Err _ => Err MalformedTableMetadata end.

Definition count (p : ColumnType → bool) (types : list ColumnType) : nat := length (filter (λ t, p t = true) types).
Definition count_type (types : list ColumnType) (expected : ColumnType) : nat := count (λ t, bool_decide (t = expected)) types.

(** ** [full_column_metadata] *)
Definition charset_override (f : MetadataField) (expected : nat) (previous : option Z) (r : io Z) : result TableMapError (option Z) :=
  io_ok r ≫= λ index,
  ensure (bool_decide (index < Z.of_nat expected) &&
          match previous with Some p => bool_decide (p < index) | None => true end) (CharsetOverride f) ≫= λ _,
  Ok (Some index).
Definition validate_default_charset (f : MetadataField) (values : list (io Z)) (expected : nat) : result TableMapError unit :=
  for_each (charset_override f expected) values None ≫= λ _, Ok tt.
Definition validate_per_column_charset (f : MetadataField) (values : list (io Z)) (expected : nat) : result TableMapError unit :=
  collect values ≫= λ received,
  ensure (bool_decide (length received = expected)) (IncompleteFullTableMetadata f expected (length received)).
Definition require_metadata_count {A} (f : MetadataField) (value : option (list A)) (expected : nat) : result TableMapError (list A) :=
  let value := default [] value in
  ensure (bool_decide (length value = expected)) (IncompleteFullTableMetadata f expected (length value)) ≫= λ _, Ok value.

(** The local variables of the loop. *)
Record Seen := {
  s_enum : option (list (list (list Z))); s_set : option (list (list (list Z))); s_geometry : option (list GeometryType);
  s_vector : option (list Z); s_visibility : option (list bool); flags : list MetadataField
}.
Definition nothing_seen : Seen :=
  {| s_enum := None; s_set := None; s_geometry := None; s_vector := None; s_visibility := None; flags := [] |}.
#[local] Instance MetadataField_eq_dec : EqDecision MetadataField.
Proof. solve_decision. Defined.

Definition require_metadata_flag_absent (s : Seen) (f : MetadataField) : result TableMapError Seen :=
  ensure (bool_decide (f ∉ flags s)) (DuplicateFullTableMetadata f) ≫= λ _,
  Ok {| s_enum := s_enum s; s_set := s_set s; s_geometry := s_geometry s; s_vector := s_vector s;
        s_visibility := s_visibility s; flags := f :: flags s |}.
Definition require_metadata_absent {A} (o : option A) (f : MetadataField) : result TableMapError unit :=
  match o with Some _ => Err (DuplicateFullTableMetadata f) | None => Ok tt end.

Definition see_field (character_count enum_set_count : nat) (s : Seen) (r : io OptionalMetadataField) : result TableMapError Seen :=
  io_ok r ≫= λ field,
  match field with
  | Signedness => require_metadata_flag_absent s NumericSignedness
  | DefaultCharset values =>
      require_metadata_flag_absent s CharacterCollations ≫= λ s,
      validate_default_charset CharacterCollations values character_count ≫= λ _, Ok s
  | ColumnCharset values =>
      require_metadata_flag_absent s CharacterCollations ≫= λ s,
      validate_per_column_charset CharacterCollations values character_count ≫= λ _, Ok s
  | EnumAndSetDefaultCharset values =>
      require_metadata_flag_absent s EnumSetCollations ≫= λ s,
      validate_default_charset EnumSetCollations values enum_set_count ≫= λ _, Ok s
  | EnumAndSetColumnCharset values =>
      require_metadata_flag_absent s EnumSetCollations ≫= λ s,
      validate_per_column_charset EnumSetCollations values enum_set_count ≫= λ _, Ok s
  | ColumnName => require_metadata_flag_absent s ColumnNames
  | SimplePrimaryKey _ | PrimaryKeyWithPrefix _ => require_metadata_flag_absent s PrimaryKeyField
  | EnumStrValue values =>
      require_metadata_absent (s_enum s) EnumValues ≫= λ _, collect values ≫= λ v,
      Ok {| s_enum := Some v; s_set := s_set s; s_geometry := s_geometry s; s_vector := s_vector s;
            s_visibility := s_visibility s; flags := flags s |}
  | SetStrValue values =>
      require_metadata_absent (s_set s) SetValues ≫= λ _, collect values ≫= λ v,
      Ok {| s_enum := s_enum s; s_set := Some v; s_geometry := s_geometry s; s_vector := s_vector s;
            s_visibility := s_visibility s; flags := flags s |}
  | GeometryTypeField types =>
      require_metadata_absent (s_geometry s) GeometryTypes ≫= λ _, collect types ≫= λ v,
      Ok {| s_enum := s_enum s; s_set := s_set s; s_geometry := Some v; s_vector := s_vector s;
            s_visibility := s_visibility s; flags := flags s |}
  | Dimensionality values =>
      require_metadata_absent (s_vector s) VectorDimensionalities ≫= λ _, collect values ≫= λ v,
      Ok {| s_enum := s_enum s; s_set := s_set s; s_geometry := s_geometry s; s_vector := Some v;
            s_visibility := s_visibility s; flags := flags s |}
  | ColumnVisibility bits =>
      require_metadata_absent (s_visibility s) ColumnVisibilities ≫= λ _,
      Ok {| s_enum := s_enum s; s_set := s_set s; s_geometry := s_geometry s; s_vector := s_vector s;
            s_visibility := Some bits; flags := flags s |}
  end.

Definition full_column_metadata (tm : TableMapEvent) (types : list ColumnType) : result TableMapError FullColumnMetadata :=
  for_each (see_field (count is_character_type types) (count is_enum_or_set_type types)) (iter_optional_meta tm) nothing_seen ≫= λ s,
  require_metadata_count EnumValues (s_enum s) (count_type types MYSQL_TYPE_ENUM) ≫= λ enums,
  require_metadata_count SetValues (s_set s) (count_type types MYSQL_TYPE_SET) ≫= λ sets,
  require_metadata_count GeometryTypes (s_geometry s) (count_type types MYSQL_TYPE_GEOMETRY) ≫= λ geometries,
  require_metadata_count VectorDimensionalities (s_vector s) (count_type types MYSQL_TYPE_VECTOR) ≫= λ vectors,
  require_metadata_count ColumnVisibilities (s_visibility s) (length types) ≫= λ visibility,
  Ok {| fm_enum_values := enums; fm_set_values := sets; geometry_types := geometries; vector_dimensionalities := vectors;
        fm_visibility := visibility |}.

(** ** [primary_key_metadata] *)

(** The keys of one field; a prefix of zero is none. *)
Definition field_keys (keys : list (Z * option Z)) (r : io OptionalMetadataField) : result TableMapError (list (Z * option Z)) :=
  io_ok r ≫= λ field,
  match field with
  | SimplePrimaryKey indexes => collect indexes ≫= λ v, Ok (keys ++ ((λ i, (i, None)) <$> v))
  | PrimaryKeyWithPrefix ks => collect ks ≫= λ v, Ok (keys ++ ((λ k, (k.1, if bool_decide (k.2 = 0) then None else Some k.2)) <$> v))
  | _ => Ok keys
  end.
(** One key, with its position in the list of keys. *)
Definition place_key (placed : list (option (Z * option Z))) (entry : nat * (Z * option Z))
    : result TableMapError (list (option (Z * option Z))) :=
  let '(offset, (index, prefix)) := entry in
  let i := Z.to_nat index in
  match placed !! i with
  | Some None => Ok (<[i := Some (Z.of_nat offset + 1, prefix)]> placed)
  | _ => Err (PrimaryKeyColumnOutOfBounds index)
  end.
Definition primary_key_metadata (tm : TableMapEvent) (column_count : nat) : result TableMapError (list (option (Z * option Z))) :=
  for_each field_keys (iter_optional_meta tm) [] ≫= λ keys,
  for_each place_key (imap pair keys) (replicate column_count None).

(** ** [table_identity] *)

(** The counters [next_numeric] … [next_vector]. *)
Record Next := { n_numeric : nat; n_character : nat; n_enum_set : nat; n_enum : nat; n_set : nat; n_geometry : nat; n_vector : nat }.
Definition first : Next :=
  {| n_numeric := 0; n_character := 0; n_enum_set := 0; n_enum := 0; n_set := 0; n_geometry := 0; n_vector := 0 |}.

(** An indexing expression, which panics out of bounds. *)
Definition index {A} (l : list A) (i : nat) : result TableMapError A := ok_or (l !! i) IndexOutOfBounds.
(** [then(|| …)] with the counter's increment. *)
Definition take_if {A} (b : bool) (l : list A) (n : nat) : result TableMapError (option A * nat) :=
  if b then index l n ≫= λ a, Ok (Some a, S n) else Ok (None, n).

Record Lists := {
  names : list (list Z); signedness : list bool; character_collations : list Z; enum_set_collations : list Z;
  full_metadata : FullColumnMetadata; primary_key : list (option (Z * option Z))
}.

Definition take_collation (l : Lists) (n : Next) (t : ColumnType) : result TableMapError (option Z * nat * nat) :=
  if is_character_type t then take_if true (character_collations l) (n_character n) ≫= λ '(c, m), Ok (c, m, n_enum_set n)
  else if is_enum_or_set_type t then take_if true (enum_set_collations l) (n_enum_set n) ≫= λ '(c, m), Ok (c, n_character n, m)
  else Ok (None, n_character n, n_enum_set n).

Definition identify_column (tm : TableMapEvent) (l : Lists) (acc : Next * list MySqlBinlogColumnIdentity) (entry : nat * ColumnType)
    : result TableMapError (Next * list MySqlBinlogColumnIdentity) :=
  let '(n, out) := acc in
  let '(i, t) := entry in
  take_if (is_numeric_type t) (signedness l) (n_numeric n) ≫= λ '(unsigned, n_numeric),
  take_collation l n t ≫= λ '(collation, n_character, n_enum_set),
  index (primary_key l) i ≫= λ key,
  take_if (bool_decide (t = MYSQL_TYPE_ENUM)) (fm_enum_values (full_metadata l)) (n_enum n) ≫= λ '(enums, n_enum),
  take_if (bool_decide (t = MYSQL_TYPE_SET)) (fm_set_values (full_metadata l)) (n_set n) ≫= λ '(sets, n_set),
  take_if (bool_decide (t = MYSQL_TYPE_GEOMETRY)) (geometry_types (full_metadata l)) (n_geometry n) ≫= λ '(geometry, n_geometry),
  take_if (bool_decide (t = MYSQL_TYPE_VECTOR)) (vector_dimensionalities (full_metadata l)) (n_vector n) ≫= λ '(vector, n_vector),
  index (names l) i ≫= λ name,
  index (fm_visibility (full_metadata l)) i ≫= λ visible,
  Ok ({| n_numeric := n_numeric; n_character := n_character; n_enum_set := n_enum_set; n_enum := n_enum; n_set := n_set;
         n_geometry := n_geometry; n_vector := n_vector |},
      out ++ [{| ci_name := name; ci_column_type := t; metadata := default [] (get_column_metadata tm i);
                 ci_nullable := default false (null_bitmask tm !! i); ci_unsigned := unsigned; ci_collation_id := collation;
                 enum_values := enums; set_values := sets; geometry_type := geometry; vector_dimensionality := vector;
                 visible := visible; ci_primary_key_ordinal := fst <$> key;
                 ci_primary_key_prefix_length := key ≫= snd |}]).

(** [get_column_type] of every column. *)
Definition column_type_at (tm : TableMapEvent) (column_count : nat) (i : nat) : result TableMapError ColumnType :=
  io_ok (get_column_type tm i) ≫= λ t, ok_or t (IncompleteFullTableMetadata ColumnTypes column_count i).
(** [iter.take(count).collect()] and the check of its length. *)
Definition collect_count (f : MetadataField) (l : list (io Z)) (n : nat) : result TableMapError (list Z) :=
  collect (firstn n l) ≫= λ v,
  ensure (bool_decide (length v = n)) (IncompleteFullTableMetadata f n (length v)) ≫= λ _, Ok v.

Definition table_lists (tm : TableMapEvent) : result TableMapError (Lists * list ColumnType) :=
  let column_count := Z.to_nat (columns_count tm) in
  io_ok (extracted tm) ≫= λ meta,
  collect (iter_column_name meta) ≫= λ names,
  ensure (bool_decide (length names = column_count)) (IncompleteFullTableMetadata ColumnNames column_count (length names)) ≫= λ _,
  mapM (column_type_at tm column_count) (seq 0 column_count) ≫= λ types,
  let numeric_count := count is_numeric_type types in
  let signedness := firstn numeric_count (iter_signedness meta) in
  ensure (bool_decide (length signedness = numeric_count))
    (IncompleteFullTableMetadata NumericSignedness numeric_count (length signedness)) ≫= λ _,
  collect_count CharacterCollations (iter_charset meta) (count is_character_type types) ≫= λ characters,
  collect_count EnumSetCollations (iter_enum_and_set_charset meta) (count is_enum_or_set_type types) ≫= λ enum_sets,
  full_column_metadata tm types ≫= λ full,
  primary_key_metadata tm column_count ≫= λ keys,
  Ok ({| names := names; signedness := signedness; character_collations := characters; enum_set_collations := enum_sets;
         full_metadata := full; primary_key := keys |}, types).

Definition table_identity (tm : TableMapEvent) : result TableMapError MySqlTableIdentity :=
  table_lists tm ≫= λ '(l, types),
  for_each (identify_column tm l) (imap pair types) (first, []) ≫= λ '(_, columns),
  Ok {| table_id := tm_table_id tm; ti_database := database_name_raw tm; ti_table := table_name_raw tm;
        ti_columns := columns_count tm; column_identities := columns |}.

(** ** The counters stay within the lists *)
Lemma count_snoc p types t : count p (types ++ [t]) = (count p types + if p t then 1 else 0)%nat.
Proof. unfold count. rewrite filter_app, length_app. f_equal. by destruct (p t) eqn:E; [rewrite filter_cons_True|rewrite filter_cons_False; [|by rewrite E]]. Qed.
Lemma count_types_app p l k : count p (l ++ k) = (count p l + count p k)%nat.
Proof. unfold count. by rewrite filter_app, length_app. Qed.

Definition step_next (n : Next) (t : ColumnType) : Next := {|
  n_numeric := n_numeric n + (if is_numeric_type t then 1 else 0);
  n_character := n_character n + (if is_character_type t then 1 else 0);
  n_enum_set := n_enum_set n + (if is_character_type t then 0 else if is_enum_or_set_type t then 1 else 0);
  n_enum := n_enum n + (if bool_decide (t = MYSQL_TYPE_ENUM) then 1 else 0);
  n_set := n_set n + (if bool_decide (t = MYSQL_TYPE_SET) then 1 else 0);
  n_geometry := n_geometry n + (if bool_decide (t = MYSQL_TYPE_GEOMETRY) then 1 else 0);
  n_vector := n_vector n + (if bool_decide (t = MYSQL_TYPE_VECTOR) then 1 else 0) |}%nat.

Lemma take_if_ok {A} (b : bool) (l : list A) n :
  (n + (if b then 1 else 0) ≤ length l)%nat → ∃ a, take_if b l n = Ok (a, (n + if b then 1 else 0)%nat).
Proof.
  intros Hn. unfold take_if, index. destruct b; [|exists None; by rewrite Nat.add_0_r].
  destruct (lookup_lt_is_Some_2 l n) as [a ->]; [lia|]. exists (Some a). by rewrite Nat.add_1_r.
Qed.

Lemma index_ok {A} (l : list A) i : (i < length l)%nat → ∃ a, index l i = Ok a ∧ l !! i = Some a.
Proof. intros Hi. unfold index. destruct (lookup_lt_is_Some_2 l i Hi) as [a ->]. by exists a. Qed.

(** The counters after a prefix of the columns, and the lists they index. *)
Record Within (l : Lists) (n : Next) (t : ColumnType) (i : nat) : Prop := {
  w_numeric : (n_numeric (step_next n t) ≤ length (signedness l))%nat;
  w_character : (n_character (step_next n t) ≤ length (character_collations l))%nat;
  w_enum_set : (n_enum_set (step_next n t) ≤ length (enum_set_collations l))%nat;
  w_enum : (n_enum (step_next n t) ≤ length (fm_enum_values (full_metadata l)))%nat;
  w_set : (n_set (step_next n t) ≤ length (fm_set_values (full_metadata l)))%nat;
  w_geometry : (n_geometry (step_next n t) ≤ length (geometry_types (full_metadata l)))%nat;
  w_vector : (n_vector (step_next n t) ≤ length (vector_dimensionalities (full_metadata l)))%nat;
  w_names : (i < length (names l))%nat;
  w_visibility : (i < length (fm_visibility (full_metadata l)))%nat;
  w_key : (i < length (primary_key l))%nat
}.

(** What a column identity takes from the position of its column. *)
Definition matches_column (l : Lists) (i : nat) (t : ColumnType) (c : MySqlBinlogColumnIdentity) : Prop :=
  ci_column_type c = t ∧ names l !! i = Some (ci_name c) ∧ fm_visibility (full_metadata l) !! i = Some (visible c) ∧
  ∃ key, primary_key l !! i = Some key ∧ ci_primary_key_ordinal c = fst <$> key ∧ ci_primary_key_prefix_length c = key ≫= snd.

Lemma take_collation_ok l n t :
  (n_character (step_next n t) ≤ length (character_collations l))%nat → (n_enum_set (step_next n t) ≤ length (enum_set_collations l))%nat →
  ∃ c, take_collation l n t = Ok (c, n_character (step_next n t), n_enum_set (step_next n t)).
Proof.
  unfold take_collation, step_next. cbn [n_character n_enum_set]. intros W2 W3. destruct (is_character_type t); [|destruct (is_enum_or_set_type t)].
  - destruct (take_if_ok true (character_collations l) (n_character n)) as [c Hc]; [done|]. rewrite Hc. exists c. by rewrite Nat.add_0_r.
  - destruct (take_if_ok true (enum_set_collations l) (n_enum_set n)) as [c Hc]; [done|]. rewrite Hc. exists c. by rewrite Nat.add_0_r.
  - exists None. by rewrite !Nat.add_0_r.
Qed.

Lemma identify_column_ok tm l n out i t :
  Within l n t i → ∃ c, identify_column tm l (n, out) (i, t) = Ok (step_next n t, out ++ [c]) ∧ matches_column l i t c.
Proof.
  intros W. destruct (take_collation_ok l n t) as [c Hc]; [apply W|apply W|]. destruct W as [W1 _ _ W4 W5 W6 W7 W8 W9 W10].
  unfold identify_column. destruct (take_if_ok (is_numeric_type t) (signedness l) (n_numeric n)) as [a1 ->]; [done|].
  cbn [mbind result_bind]. rewrite Hc.
  cbn [mbind result_bind]. destruct (index_ok (primary_key l) i W10) as (key & -> & Ek). cbn [mbind result_bind].
  destruct (take_if_ok (bool_decide (t = MYSQL_TYPE_ENUM)) (fm_enum_values (full_metadata l)) (n_enum n)) as [a2 ->]; [done|].
  destruct (take_if_ok (bool_decide (t = MYSQL_TYPE_SET)) (fm_set_values (full_metadata l)) (n_set n)) as [a3 ->]; [done|].
  destruct (take_if_ok (bool_decide (t = MYSQL_TYPE_GEOMETRY)) (geometry_types (full_metadata l)) (n_geometry n)) as [a4 ->]; [done|].
  destruct (take_if_ok (bool_decide (t = MYSQL_TYPE_VECTOR)) (vector_dimensionalities (full_metadata l)) (n_vector n)) as [a5 ->]; [done|].
  cbn [mbind result_bind]. destruct (index_ok (names l) i W8) as (name & -> & En). destruct (index_ok _ i W9) as (v & -> & Ev).
  cbn [mbind result_bind]. eexists. split; [reflexivity|]. split_and!; [done..|]. by exists key.
Qed.

(** The lists are as long as the counts of the columns' types. *)
Record Sized (l : Lists) (types : list ColumnType) : Prop := {
  z_numeric : length (signedness l) = count is_numeric_type types;
  z_character : length (character_collations l) = count is_character_type types;
  z_enum_set : length (enum_set_collations l) = count is_enum_or_set_type types;
  z_enum : length (fm_enum_values (full_metadata l)) = count_type types MYSQL_TYPE_ENUM;
  z_set : length (fm_set_values (full_metadata l)) = count_type types MYSQL_TYPE_SET;
  z_geometry : length (geometry_types (full_metadata l)) = count_type types MYSQL_TYPE_GEOMETRY;
  z_vector : length (vector_dimensionalities (full_metadata l)) = count_type types MYSQL_TYPE_VECTOR;
  z_names : length (names l) = length types;
  z_visibility : length (fm_visibility (full_metadata l)) = length types;
  z_key : length (primary_key l) = length types
}.

(** The counters never pass the counts of the columns seen. *)
Record Counted (n : Next) (pre : list ColumnType) : Prop := {
  c_numeric : n_numeric n = count is_numeric_type pre;
  c_character : n_character n = count is_character_type pre;
  c_enum_set : (n_enum_set n ≤ count is_enum_or_set_type pre)%nat;
  c_enum : n_enum n = count_type pre MYSQL_TYPE_ENUM;
  c_set : n_set n = count_type pre MYSQL_TYPE_SET;
  c_geometry : n_geometry n = count_type pre MYSQL_TYPE_GEOMETRY;
  c_vector : n_vector n = count_type pre MYSQL_TYPE_VECTOR
}.

Lemma counted_step n pre t : Counted n pre → Counted (step_next n t) (pre ++ [t]).
Proof.
  intros []. split; cbn; unfold count_type in *; rewrite count_snoc; [lia..| |lia|lia|lia|lia].
  destruct (is_character_type t); destruct (is_enum_or_set_type t); lia.
Qed.

Lemma counted_within l n pre t suf :
  Sized l (pre ++ t :: suf) → Counted n pre → Within l n t (length pre).
Proof.
  intros [] Cn. pose proof (counted_step n pre t Cn) as [].
  assert (∀ p, (count p (pre ++ [t]) ≤ count p (pre ++ t :: suf))%nat) as Le.
  { intros p. rewrite count_snoc, (count_types_app p pre). change (t :: suf) with ([t] ++ suf). rewrite (count_types_app p [t]).
    change [t] with ([] ++ [t]) at 1. rewrite count_snoc. cbn. lia. }
  rewrite length_app in *. cbn [length] in *. unfold count_type in *.
  split; [rewrite z_numeric0, c_numeric0|rewrite z_character0, c_character0|rewrite z_enum_set0; etrans; [exact c_enum_set0|]
    |rewrite z_enum0, c_enum0|rewrite z_set0, c_set0|rewrite z_geometry0, c_geometry0|rewrite z_vector0, c_vector0|lia|lia|lia];
    first [apply Le|lia].
Qed.

Lemma identify_columns_ok tm l pre suf n out :
  Sized l (pre ++ suf) → Counted n pre →
  ∃ n' cols, for_each (identify_column tm l) (imap (λ i t, (length pre + i, t)%nat) suf) (n, out) = Ok (n', out ++ cols) ∧
    length cols = length suf ∧
    ∀ i t, suf !! i = Some t → ∃ c, cols !! i = Some c ∧ matches_column l (length pre + i) t c.
Proof.
  revert pre n out. induction suf as [|t suf IH]; intros pre n out Hz Hc.
  - exists n, []. by rewrite app_nil_r.
  - rewrite imap_cons. cbn [for_each]. rewrite Nat.add_0_r.
    destruct (identify_column_ok tm l n out (length pre) t) as (c & Hic & Hm); [by eapply counted_within|]. rewrite Hic. cbn [mbind result_bind].
    destruct (IH (pre ++ [t]) (step_next n t) (out ++ [c])) as (n' & cols & Hl & Hlen & Hcols); [by rewrite <-app_assoc|by apply counted_step|].
    rewrite length_app in Hl, Hcols. cbn [length] in Hl, Hcols.
    exists n', (c :: cols). split_and!; [| |].
    + rewrite (imap_ext _ (λ i t, (length pre + 1 + i, t)%nat)); [by rewrite Hl, <-app_assoc|]. intros i x _. cbn. f_equal. lia.
    + cbn. by f_equal.
    + intros [|i] u Hu; cbn in Hu.
      * injection Hu as ->. exists c. by rewrite Nat.add_0_r.
      * destruct (Hcols i u Hu) as (c' & Hc' & Hm'). exists c'. split; [done|]. by replace (length pre + S i)%nat with (length pre + 1 + i)%nat by lia.
Qed.

(** ** The keys *)
Lemma place_keys_spec keys placed placed' start :
  for_each place_key (imap (λ o k, (start + o, k)%nat) keys) placed = Ok placed' →
  length placed' = length placed ∧
  (∀ o k, keys !! o = Some k → placed' !! Z.to_nat k.1 = Some (Some (Z.of_nat (start + o) + 1, k.2)) ∧ placed !! Z.to_nat k.1 = Some None) ∧
  (∀ i, i ∉ (Z.to_nat ∘ fst) <$> keys → placed' !! i = placed !! i) ∧ NoDup ((Z.to_nat ∘ fst) <$> keys).
Proof.
  revert placed start. induction keys as [|[ix pf] keys IH]; intros placed start E.
  { injection E as ->. split_and!; [done|by intros o k|done|constructor]. }
  rewrite imap_cons in E. cbn [for_each] in E. rewrite Nat.add_0_r in E. apply bind_Ok in E as (p1 & Ep & E). unfold place_key in Ep.
  destruct (placed !! Z.to_nat ix) as [[|]|] eqn:El; [done| |done]. injection Ep as <-.
  rewrite (imap_ext _ (λ o k, (S start + o, k)%nat)) in E by (intros o x _; cbn; f_equal; lia).
  apply IH in E as (Hlen & Hk & Ho & Hnd). rewrite length_insert in Hlen.
  assert (Z.to_nat ix ∉ (Z.to_nat ∘ fst) <$> keys) as Hnin.
  { intros (k & Ek & Hin)%list_elem_of_fmap. apply list_elem_of_lookup in Hin as [o Hin]. destruct (Hk o k Hin) as [_ Hn].
    cbn in Ek. rewrite <-Ek, list_lookup_insert_eq in Hn; [done|]. by eapply lookup_lt_Some. }
  split_and!; [done| | |by constructor].
  - intros [|o] k Hko; cbn in Hko.
    + injection Hko as <-. cbn. split; [|done]. rewrite (Ho _ Hnin), list_lookup_insert_eq, Nat.add_0_r by (by eapply lookup_lt_Some). done.
    + destruct (Hk o k Hko) as [H1 H2]. split; [rewrite H1; do 3 f_equal; lia|].
      rewrite list_lookup_insert_ne in H2; [done|]. intros Eq. apply Hnin. apply list_elem_of_fmap. exists k. split; [done|].
      by eapply list_elem_of_lookup_2.
  - intros i Hi. apply not_elem_of_cons in Hi as [Hi1 Hi2]. rewrite (Ho i Hi2). by rewrite list_lookup_insert_ne.
Qed.

(** The key columns of the metadata, in key order. *)
Definition key_list (tm : TableMapEvent) : result TableMapError (list (Z * option Z)) := for_each field_keys (iter_optional_meta tm) [].

Lemma primary_key_metadata_ok tm n placed :
  primary_key_metadata tm n = Ok placed →
  ∃ keys, key_list tm = Ok keys ∧ length placed = n ∧ NoDup ((Z.to_nat ∘ fst) <$> keys) ∧
  (∀ o k, keys !! o = Some k → placed !! Z.to_nat k.1 = Some (Some (Z.of_nat o + 1, k.2))) ∧
  (∀ i x, placed !! i = Some (Some x) → ∃ o k, keys !! o = Some k ∧ Z.to_nat k.1 = i ∧ x = (Z.of_nat o + 1, k.2)).
Proof.
  unfold primary_key_metadata. intros E. apply bind_Ok in E as (keys & Hk & E). exists keys. split; [done|].
  apply (place_keys_spec keys _ _ 0) in E as (Hl & Hp & Ho & Hnd). rewrite length_replicate in Hl.
  split_and!; [done..| |].
  - intros o k Hko. by destruct (Hp o k Hko).
  - intros i x Hi. destruct (decide (i ∈ (Z.to_nat ∘ fst) <$> keys)) as [Hin|Hin].
    + apply list_elem_of_fmap in Hin as (k & -> & [o Hko]%list_elem_of_lookup). destruct (Hp o k Hko) as [Hi' _]. cbn in Hi.
      rewrite Hi' in Hi. injection Hi as <-. by exists o, k.
    + rewrite (Ho i Hin) in Hi. apply lookup_replicate in Hi as [? _]. done.
Qed.

(** ** Reading the lists never indexes out of bounds *)
Definition safe {A} (r : result TableMapError A) : Prop := r ≠ Err IndexOutOfBounds.
Lemma safe_bind {A B} (m : result TableMapError A) (f : A → result TableMapError B) :
  safe m → (∀ a, safe (f a)) → safe (m ≫= f).
Proof. unfold safe. intros Hm Hf. destruct m; cbn; [apply Hf|congruence]. Qed.
Lemma safe_Ok {A} (a : A) : safe (Ok a).
Proof. done. Qed.
Lemma safe_ensure b e : e ≠ IndexOutOfBounds → safe (ensure b e).
Proof. unfold safe, ensure. destruct b; congruence. Qed.
Lemma safe_ok_or {A} (o : option A) e : e ≠ IndexOutOfBounds → safe (ok_or o e).
Proof. unfold safe. destruct o; cbn; congruence. Qed.
Lemma safe_for_each {A B} (f : B → A → result TableMapError B) l s : (∀ s x, safe (f s x)) → safe (for_each f l s).
Proof. intros Hf. revert s. induction l as [|x l IH]; intros s; cbn; [done|]. apply safe_bind; auto. Qed.
Lemma safe_mapM {A B} (f : A → result TableMapError B) l : (∀ x, safe (f x)) → safe (mapM f l).
Proof. intros Hf. induction l as [|x l IH]; cbn; [done|]. apply safe_bind; [done|]. intros b. by apply safe_bind. Qed.
Lemma safe_io {A} (r : io A) : safe (io_ok r).
Proof. by destruct r. Qed.
Lemma safe_collect {A} (l : list (io A)) : safe (collect l).
Proof. unfold collect. by destruct (mapM id l). Qed.
Lemma safe_absent {A} (o : option A) f : safe (require_metadata_absent o f).
Proof. by destruct o. Qed.
Create HintDb safe.
Hint Resolve safe_bind safe_Ok safe_ensure safe_ok_or safe_for_each safe_mapM safe_io safe_collect safe_absent : safe.
Ltac safe := repeat first [apply safe_bind; [|intros ?] | progress eauto with safe | apply safe_ensure; discriminate
  | apply safe_ok_or; discriminate | apply safe_for_each; intros ? ? | apply safe_mapM; intros ? | case_match].

Lemma safe_full tm types : safe (full_column_metadata tm types).
Proof.
  unfold full_column_metadata. apply safe_bind.
  - apply safe_for_each. intros s r. unfold see_field, require_metadata_flag_absent, validate_default_charset, validate_per_column_charset, charset_override.
    apply safe_bind; [apply safe_io|]. intros []; safe.
  - intros s. unfold require_metadata_count. safe.
Qed.
Lemma safe_keys tm n : safe (primary_key_metadata tm n).
Proof.
  unfold primary_key_metadata, field_keys. apply safe_bind; [safe|]. intros keys. apply safe_for_each. intros placed [o [i p]].
  unfold place_key, safe. destruct (placed !! _) as [[|]|]; congruence.
Qed.
Lemma safe_lists tm : safe (table_lists tm).
Proof.
  unfold table_lists, column_type_at, collect_count. repeat first [apply safe_full|apply safe_keys|apply safe_bind; [|intros ?]|progress safe].
Qed.

Lemma collect_length {A} (l : list (io A)) v : collect l = Ok v → length v = length l.
Proof.
  unfold collect. destruct (mapM id l) as [w|] eqn:E; [|done]. intros [= <-]. apply mapM_Ok in E. by apply Forall2_length in E.
Qed.

Lemma table_lists_sized tm l types :
  table_lists tm = Ok (l, types) →
  length types = Z.to_nat (columns_count tm) ∧ Sized l types ∧ primary_key_metadata tm (Z.to_nat (columns_count tm)) = Ok (primary_key l).
Proof.
  unfold table_lists. intros E. apply bind_Ok in E as (meta & _ & E). apply bind_Ok in E as (nms & _ & E).
  apply bind_Ok in E as ([] & Hn%ensure_Ok%bool_decide_eq_true & E). apply bind_Ok in E as (ts & Ht & E).
  apply bind_Ok in E as ([] & Hs%ensure_Ok%bool_decide_eq_true & E).
  apply bind_Ok in E as (chars & Hc & E). apply bind_Ok in E as (es & He & E). apply bind_Ok in E as (full & Hf & E).
  apply bind_Ok in E as (keys & Hk & [= <- <-]).
  apply mapM_Ok, Forall2_length in Ht. rewrite length_seq in Ht.
  unfold collect_count in Hc, He. apply bind_Ok in Hc as (c' & _ & Hc). apply bind_Ok in Hc as ([] & Hcl%ensure_Ok%bool_decide_eq_true & [= <-]).
  apply bind_Ok in He as (e' & _ & He). apply bind_Ok in He as ([] & Hel%ensure_Ok%bool_decide_eq_true & [= <-]).
  destruct (primary_key_metadata_ok _ _ _ Hk) as (_ & _ & Hkl & _).
  unfold full_column_metadata in Hf. apply bind_Ok in Hf as (seen & _ & Hf).
  do 5 (apply bind_Ok in Hf as (? & ([] & ?%ensure_Ok%bool_decide_eq_true & [= <-])%bind_Ok & Hf)). injection Hf as <-.
  split_and!; [done| |done]. split; cbn; congruence.
Qed.
End table_map.

(** Every table map is read without an index out of bounds, however its metadata is
    malformed; an accepted one has one identity per column, and a column's primary-key
    ordinal is its position in the key of the metadata, or none when it is not in the key. *)
Theorem table_identity_exact `{BinlogTypes} tm :
  match table_identity tm with
  | Err e => e ≠ IndexOutOfBounds
  | Ok ti =>
      length (column_identities ti) = Z.to_nat (columns_count tm) ∧
      ∃ keys, key_list tm = Ok keys ∧ NoDup ((Z.to_nat ∘ fst) <$> keys) ∧
        ∀ i c, column_identities ti !! i = Some c → ∀ ordinal,
          ci_primary_key_ordinal c = Some ordinal ↔
          ∃ o key, keys !! o = Some key ∧ Z.to_nat key.1 = i ∧ ordinal = Z.of_nat o + 1
  end.
Proof.
  unfold table_identity. pose proof (safe_lists tm) as Safe.
  destruct (table_lists tm) as [[l types]|e] eqn:L; cbn [mbind result_bind]; [|intros ->; by apply Safe].
  destruct (table_lists_sized tm l types L) as (Hlen & Hz & Hk).
  destruct (identify_columns_ok tm l [] types first []) as (n' & cols & Hfe & Hcl & Hcols); [done|by split|].
  cbn [length app Nat.add] in Hfe. change (λ i t, (i, t)) with (@pair nat ColumnType) in Hfe. rewrite Hfe. cbn [mbind result_bind column_identities].
  split; [congruence|]. destruct (primary_key_metadata_ok _ _ _ Hk) as (keys & Hkl & _ & Hnd & Hk1 & Hk2). exists keys. split_and!; [done..|].
  intros i c Hc. assert (∃ t, types !! i = Some t) as [t Ht] by (apply lookup_lt_is_Some_2; apply lookup_lt_Some in Hc; lia).
  destruct (Hcols i t Ht) as (c' & Hc' & _ & _ & _ & key & Hkey & Ho & _). rewrite Hc in Hc'. injection Hc' as <-. cbn in Hkey.
  intros ordinal. rewrite Ho. split.
  - destruct key as [[k pf]|]; [|done]. intros [= ->]. destruct (Hk2 i _ Hkey) as (o & k' & Hko & Hi & [= -> _]). eauto 10.
  - intros (o & k' & Hko & <- & ->). rewrite (Hk1 o k' Hko) in Hkey. by injection Hkey as <-.
Qed.
