(* ===== verification/TableSelection.v ===== *)
(** * Table selection

    [transferia-registry/src/table_selection/mod.rs] and [TableIdentity] of traits.rs: the
    rules that select the tables of a delivery.  The regex crate is an interface. *)

From Stdlib Require Import Ascii.
From stdpp Require Import base tactics numbers option strings sorting list.
From S2P Require Import Prelude Bytes Text.
Local Open Scope Z_scope.

(** ** Table identities: traits.rs *)
Record TableIdentity := { namespace : string; name : string }.
#[export] Instance TableIdentity_eq_dec : EqDecision TableIdentity.
Proof. solve_decision. Defined.

Inductive SelectionError :=
| BadEscape | SecondDot | EmptyNamespace | EmptyName | ContainsNul
| EmptyPattern | TrailingEscape | BadRegex | EmptyCatalogName | RepeatedTable | NothingSelected | HasIssues.

(** [replace('\\', "\\\\").replace('.', "\\.")] *)
Definition escape_byte (b : Z) : list Z := if bool_decide (b ∈ [92; 46]) then [92; b] else [b].
Definition escape_part (part : list Z) : list Z := part ≫= escape_byte.
Definition qualified_table_name (ns : option string) (n : string) : list Z :=
  match ns with
  | None => escape_part (string_bytes n)
  | Some ns => escape_part (string_bytes ns) ++ [46] ++ escape_part (string_bytes n)
  end.
Definition qualified_name (t : TableIdentity) : list Z :=
  qualified_table_name (if bool_decide (namespace t = "") then None else Some (namespace t)) (name t).

(** [str::trim().is_empty()]: only Unicode white space. *)
Fixpoint blank (l : list Z) : bool :=
  match l with
  | [] => true
  | b :: l =>
      (bool_decide (9 ≤ b ≤ 13 ∨ b = 32) && blank l) ||
      (match l with
       | c :: l =>
           (bool_decide (b = 194) && bool_decide (c ∈ [133; 160]) && blank l) ||
           (match l with
            | d :: l =>
                ((bool_decide (b = 225) && bool_decide (c = 154) && bool_decide (d = 128)) ||
                 (bool_decide (b = 226) && bool_decide (c = 128) && (bool_decide (128 ≤ d ≤ 138) || bool_decide (d ∈ [168; 169; 175]))) ||
                 (bool_decide (b = 226) && bool_decide (c = 129) && bool_decide (d = 159)) ||
                 (bool_decide (b = 227) && bool_decide (c = 128) && bool_decide (d = 128))) && blank l
            | [] => false
            end)
       | [] => false
       end)
  end.

(** The loop of [from_qualified_name] on the bytes: backslash and dot are never part of a
    longer character. *)
Fixpoint parse_qualified (l : list Z) (ns : option (list Z)) (part : list Z) : result SelectionError (option (list Z) * list Z) :=
  match l with
  | [] => Ok (ns, part)
  | b :: l =>
      if bool_decide (b = 92) then
        match l with
        | e :: l => if bool_decide (e ∈ [46; 92]) then parse_qualified l ns (part ++ [e]) else Err BadEscape
        | [] => Err BadEscape
        end
      else if bool_decide (b = 46) then
        ensure (bool_decide (ns = None)) SecondDot ≫= λ _,
        ensure (negb (blank part)) EmptyNamespace ≫= λ _,
        parse_qualified l (Some part) []
      else parse_qualified l ns (part ++ [b])
  end.
Definition from_qualified_name (value : list Z) : result SelectionError TableIdentity :=
  parse_qualified value None [] ≫= λ '(ns, part),
  ensure (negb (blank part)) EmptyName ≫= λ _,
  ensure (bool_decide (0 ∉ value)) ContainsNul ≫= λ _,
  Ok {| namespace := string_of_bytes (default [] ns); name := string_of_bytes part |}.

(** ** Patterns *)
Inductive PatternMode := Glob | RegexMode.
#[export] Instance PatternMode_eq_dec : EqDecision PatternMode.
Proof. solve_decision. Defined.

(** [str::chars], each as its bytes. *)
Fixpoint chars (l : list Z) : list (list Z) :=
  match l with
  | [] => []
  | b :: l =>
      match chars l with
      | (c :: cs) :: rest => if continuation c then (b :: c :: cs) :: rest else [b] :: (c :: cs) :: rest
      | rest => [b] :: rest
      end
  end.

Class RegexLib := {
  Regex : Type;
  regex_new : list Z → option Regex;
  is_match : Regex → list Z → bool;
  regex_escape : list Z → list Z
}.

Section selection.
Context `{RegexLib}.

Definition glob_escape (c : list Z) : list Z := if bool_decide (c ∈ [[92]; [42]; [63]]) then 92 :: c else c.
Definition exact_pattern (mode : PatternMode) (t : TableIdentity) : list Z :=
  match mode with
  | RegexMode => regex_escape (qualified_name t)
  | Glob => chars (qualified_name t) ≫= glob_escape
  end.

(** The loop over the characters of a glob. *)
Fixpoint glob_expression (cs : list (list Z)) : result SelectionError (list Z) :=
  match cs with
  | [] => Ok []
  | c :: cs =>
      if bool_decide (c = [42]) then glob_expression cs ≫= λ e, Ok (string_bytes "(?s:.*)" ++ e)
      else if bool_decide (c = [63]) then glob_expression cs ≫= λ e, Ok (string_bytes "(?s:.)" ++ e)
      else if bool_decide (c = [92]) then
        match cs with
        | [] => Err TrailingEscape
        | escaped :: cs => glob_expression cs ≫= λ e, Ok (regex_escape escaped ++ e)
        end
      else glob_expression cs ≫= λ e, Ok (regex_escape c ++ e)
  end.
Definition compile_pattern (text : list Z) (mode : PatternMode) : result SelectionError Regex :=
  ensure (negb (bool_decide (text = []))) EmptyPattern ≫= λ _,
  match mode with RegexMode => Ok text | Glob => glob_expression (chars text) end ≫= λ expression,
  ok_or (regex_new (string_bytes "\A(?:" ++ expression ++ string_bytes ")\z")) BadRegex.

(** ** Rules *)
Record TableRule := { include : list Z; exclude : option (list Z); include_mode : PatternMode; exclude_mode : PatternMode }.
Inductive TableSelection := Selected (rules : list TableRule) | All.
Record CompiledTableRule := { c_include : Regex; c_exclude : option Regex }.
Abbreviation CompiledSelection := (list CompiledTableRule) (only parsing).

Inductive PatternField := IncludeField | ExcludeField.
Record PatternError := { pe_card : nat; pe_field : PatternField; reason : SelectionError }.

Definition compile_field (card : nat) (field : PatternField) (text : list Z) (mode : PatternMode) : result PatternError Regex :=
  match compile_pattern text mode with
  | Ok r => Ok r
  | Err e => Err {| pe_card := card; pe_field := field; reason := e |}
  end.
Definition compile_at (card : nat) (rule : TableRule) : result PatternError CompiledTableRule :=
  compile_field card IncludeField (include rule) (include_mode rule) ≫= λ i,
  match exclude rule with
  | Some text => if bool_decide (text = []) then Ok {| c_include := i; c_exclude := None |}
                 else compile_field card ExcludeField text (exclude_mode rule) ≫= λ e, Ok {| c_include := i; c_exclude := Some e |}
  | None => Ok {| c_include := i; c_exclude := None |}
  end.
Definition excludes (rule : CompiledTableRule) (text : list Z) : bool :=
  match c_exclude rule with Some e => is_match e text | None => false end.
Definition rule_matches (rule : CompiledTableRule) (ns : option string) (n : string) : bool :=
  let text := qualified_table_name ns n in is_match (c_include rule) text && negb (excludes rule text).
Definition selection_is_empty (s : TableSelection) : bool := match s with Selected [] => true | _ => false end.
Definition compile (s : TableSelection) : result PatternError CompiledSelection :=
  let rules := match s with
    | Selected rules => rules
    | All => [{| include := string_bytes "*"; exclude := None; include_mode := Glob; exclude_mode := Glob |}]
    end in
  mapM (λ '(card, rule), compile_at card rule) (imap pair rules).

(** ** Classification *)
Inductive ConflictKind := MultipleIncludes | IncludeExclude.
Inductive SelectionIssue :=
| NoRules | EmptyMatch (card : nat) | Conflict (table : TableIdentity) (first_card second_card : nat) (kind : ConflictKind).
Record TableClassification := { selected_by : list nat; excluded_by : list nat; issues : list SelectionIssue }.

Definition conflict (t : TableIdentity) (first second : nat) (kind : ConflictKind) : SelectionIssue :=
  Conflict t (Nat.min first second) (Nat.max first second) kind.
(** One rule of the loop of [classify]. *)
Definition classify_rule (text : list Z) (acc : list nat * list nat) (entry : nat * CompiledTableRule) : list nat * list nat :=
  let '(selected, excluded) := acc in
  let '(i, rule) := entry in
  if negb (is_match (c_include rule) text) then acc
  else if excludes rule text then (selected, excluded ++ [i]) else (selected ++ [i], excluded).
Fixpoint conflicts (t : TableIdentity) (selected excluded : list nat) : list SelectionIssue :=
  match selected with
  | [] => []
  | first :: rest =>
      ((λ second, conflict t first second MultipleIncludes) <$> rest) ++
      ((λ second, conflict t first second IncludeExclude) <$> excluded) ++ conflicts t rest excluded
  end.
Definition classify (rules : CompiledSelection) (t : TableIdentity) : TableClassification :=
  let '(selected, excluded) := foldl (classify_rule (qualified_name t)) ([], []) (imap pair rules) in
  {| selected_by := selected; excluded_by := excluded; issues := conflicts t selected excluded |}.

(** ** Resolution of a catalog *)
Record CardMatches := { m_selected : list TableIdentity; m_excluded : list TableIdentity }.
Record SelectionPreview := { cards : list CardMatches; p_issues : list SelectionIssue }.

(** The derived order of [TableIdentity]. *)
Fixpoint bytes_le (a b : list Z) : bool :=
  match a, b with
  | [], _ => true
  | _, [] => false
  | x :: a, y :: b => bool_decide (x < y) || (bool_decide (x = y) && bytes_le a b)
  end.
Definition table_le (a b : TableIdentity) : Prop :=
  if decide (namespace a = namespace b) then bytes_le (string_bytes (name a)) (string_bytes (name b)) = true
  else bytes_le (string_bytes (namespace a)) (string_bytes (namespace b)) = true.
#[export] Instance table_le_dec : RelDecision table_le.
Proof. intros a b. unfold table_le. destruct (decide _); apply _. Defined.

Definition add_selected (t : TableIdentity) (m : CardMatches) : CardMatches := {| m_selected := m_selected m ++ [t]; m_excluded := m_excluded m |}.
Definition add_excluded (t : TableIdentity) (m : CardMatches) : CardMatches := {| m_selected := m_selected m; m_excluded := m_excluded m ++ [t] |}.

(** The cards, the issues and the tables seen by the loop of [resolve]. *)
Definition resolve_table (rules : CompiledSelection) (acc : SelectionPreview * list TableIdentity) (t : TableIdentity)
    : result SelectionError (SelectionPreview * list TableIdentity) :=
  let '(preview, seen) := acc in
  ensure (negb (bool_decide (name t = ""))) EmptyCatalogName ≫= λ _,
  ensure (bool_decide (t ∉ seen)) RepeatedTable ≫= λ _,
  let c := classify rules t in
  let cs := foldl (λ cs i, alter (add_selected t) i cs) (cards preview) (selected_by c) in
  let cs := foldl (λ cs i, alter (add_excluded t) i cs) cs (excluded_by c) in
  Ok ({| cards := cs; p_issues := p_issues preview ++ issues c |}, t :: seen).
Definition finish_card (m : CardMatches) : CardMatches :=
  {| m_selected := merge_sort table_le (m_selected m); m_excluded := merge_sort table_le (m_excluded m) |}.
Definition resolve (rules : CompiledSelection) (catalog : list TableIdentity) : result SelectionError SelectionPreview :=
  let start := {| cards := replicate (length rules) {| m_selected := []; m_excluded := [] |};
                  p_issues := if bool_decide (rules = []) then [NoRules] else [] |} in
  for_each (resolve_table rules) catalog (start, []) ≫= λ '(preview, _),
  Ok {| cards := finish_card <$> cards preview;
        p_issues := p_issues preview ++ omap (λ '(card, m), if bool_decide (m_selected m = []) then Some (EmptyMatch card) else None)
                                         (imap pair (cards preview)) |}.

Definition selected_tables (p : SelectionPreview) : result SelectionError (list TableIdentity) :=
  ensure (existsb (λ m, negb (bool_decide (m_selected m = []))) (cards p)) NothingSelected ≫= λ _,
  ensure (match p_issues p with [] => true | _ => false end) HasIssues ≫= λ _,
  Ok (cards p ≫= m_selected).
End selection.

(** ** Classification lists the matching rules *)
Lemma NoDup_bind_index {A B} (f : A → list B) l :
  (∀ i j x y z, l !! i = Some x → l !! j = Some y → z ∈ f x → z ∈ f y → i = j) →
  (∀ x, x ∈ l → NoDup (f x)) → NoDup (l ≫= f).
Proof.
  induction l as [|x l IH]; intros Hd Hn; cbn; [constructor|]. apply NoDup_app. split_and!.
  - apply Hn. by left.
  - intros z Hz (y & Hzy & [j Hj]%list_elem_of_lookup)%list_elem_of_bind. by specialize (Hd 0%nat (S j) x y z eq_refl Hj Hz Hzy).
  - apply IH; [|intros y Hy; apply Hn; by right]. intros i j a b z Hi Hj Ha Hb. by specialize (Hd (S i) (S j) a b z Hi Hj Ha Hb) as [= ->].
Qed.

Lemma foldl_alter {A} (f : A → A) (ks : list nat) (l : list A) j :
  NoDup ks → foldl (λ l i, alter f i l) l ks !! j = (if decide (j ∈ ks) then f <$> l !! j else l !! j).
Proof.
  intros Hn. revert l. induction Hn as [|i ks Hi Hn IH]; intros l; cbn [foldl].
  - by rewrite decide_False by apply not_elem_of_nil.
  - rewrite IH. destruct (decide (j = i)) as [->|Hne].
    + rewrite decide_False by done. rewrite list_lookup_alter_eq. by rewrite decide_True by left.
    + rewrite list_lookup_alter_ne by done. destruct (decide (j ∈ ks)) as [Hj|Hj].
      * by rewrite decide_True by (by right).
      * by rewrite decide_False by (intros [?|?]%elem_of_cons; done).
Qed.
Lemma length_foldl_alter {A} (f : A → A) (ks : list nat) (l : list A) : length (foldl (λ l i, alter f i l) l ks) = length l.
Proof. revert l. induction ks as [|i ks IH]; intros l; cbn [foldl]; [done|]. by rewrite IH, length_alter. Qed.

Section proofs.
Context `{RegexLib}.

Definition includes (text : list Z) (e : nat * CompiledTableRule) : Prop := is_match (c_include e.2) text = true ∧ excludes e.2 text = false.
Definition rejects (text : list Z) (e : nat * CompiledTableRule) : Prop := is_match (c_include e.2) text = true ∧ excludes e.2 text = true.

Lemma classify_fold text entries s e :
  foldl (classify_rule text) (s, e) entries =
  (s ++ (filter (includes text) entries).*1, e ++ (filter (rejects text) entries).*1).
Proof.
  revert s e. induction entries as [|[i r] entries IH]; intros s e; [by rewrite !app_nil_r|].
  cbn [foldl classify_rule]. unfold includes, rejects in *.
  destruct (is_match (c_include r) text) eqn:Ei; cbn [negb].
  - destruct (excludes r text) eqn:Ex; rewrite IH.
    + rewrite filter_cons_False, (filter_cons_True (λ e, _)) by (cbn; rewrite ?Ei, ?Ex; naive_solver). cbn. by rewrite <-app_assoc.
    + rewrite filter_cons_True, (filter_cons_False (λ e, _)) by (cbn; rewrite ?Ei, ?Ex; naive_solver). cbn. by rewrite <-app_assoc.
  - rewrite IH. by rewrite !filter_cons_False by (cbn; rewrite ?Ei; naive_solver).
Qed.

Lemma imap_pair_NoDup {A} (l : list A) : NoDup (imap pair l).*1.
Proof.
  assert ((imap pair l).*1 = seq 0 (length l)) as ->; [|apply NoDup_ListNoDup, seq_NoDup].
  apply list_eq. intros i. rewrite list_lookup_fmap, list_lookup_imap. destruct (decide (i < length l)%nat) as [Hi|Hi].
  - rewrite lookup_seq_lt by done. by destruct (lookup_lt_is_Some_2 l i Hi) as [x ->].
  - rewrite lookup_seq_ge by lia. by rewrite lookup_ge_None_2 by lia.
Qed.

Lemma NoDup_filter_fst {A} (P : nat * A → Prop) `{!∀ x, Decision (P x)} (l : list (nat * A)) : NoDup l.*1 → NoDup (filter P l).*1.
Proof.
  induction l as [|[i x] l IH]; [constructor|]. rewrite fmap_cons. intros [Hi Hn]%NoDup_cons. rewrite filter_cons. case_decide; [|by apply IH].
  rewrite fmap_cons. constructor; [|by apply IH]. intros (y & Ey & Hy)%list_elem_of_fmap. apply list_elem_of_filter in Hy as [_ Hy].
  apply Hi. rewrite Ey. by apply list_elem_of_fmap_2.
Qed.

Lemma classify_NoDup rules t : NoDup (selected_by (classify rules t)) ∧ NoDup (excluded_by (classify rules t)).
Proof.
  unfold classify. rewrite classify_fold. cbn. split; apply NoDup_filter_fst, imap_pair_NoDup.
Qed.
Lemma classify_range rules t i : i ∈ selected_by (classify rules t) → (i < length rules)%nat.
Proof.
  unfold classify. rewrite classify_fold. cbn. intros ([j r] & -> & Hin)%list_elem_of_fmap. apply list_elem_of_filter in Hin as [_ Hin].
  apply list_elem_of_lookup in Hin as [k Hk]. rewrite list_lookup_imap in Hk. destruct (rules !! k) eqn:Er; [|done]. injection Hk as <- _.
  by eapply lookup_lt_Some.
Qed.

Lemma conflicts_nil t s e : conflicts t s e = [] ↔ (length s ≤ 1)%nat ∧ (s = [] ∨ e = []).
Proof.
  destruct s as [|a [|b s]]; cbn.
  - split; [intros _; split; [lia|by left]|done].
  - rewrite app_nil_r. split; [intros E%fmap_nil_inv; split; [lia|by right]|by intros [_ [?| ->]]].
  - split; [done|intros [? _]; lia].
Qed.

(** ** The loop of [resolve] *)
Record Resolved (rules : list CompiledTableRule) (past : list TableIdentity) (p : SelectionPreview) (seen : list TableIdentity) : Prop := {
  r_length : length (cards p) = length rules;
  r_selected i m : cards p !! i = Some m → m_selected m = filter (λ t, i ∈ selected_by (classify rules t)) past;
  r_issues : p_issues p = (if bool_decide (rules = []) then [NoRules] else []) ++ (past ≫= λ t, issues (classify rules t));
  r_seen : seen ≡ₚ past;
  r_NoDup : NoDup past
}.

Lemma resolve_table_ok rules past p seen t p' seen' :
  Resolved rules past p seen → resolve_table rules (p, seen) t = Ok (p', seen') → Resolved rules (past ++ [t]) p' seen'.
Proof.
  intros [Hl Hs Hi Hse Hn] E. unfold resolve_table in E. apply bind_Ok in E as ([] & _ & E).
  apply bind_Ok in E as ([] & Hin%ensure_Ok%bool_decide_eq_true & [= <- <-]). destruct (classify_NoDup rules t) as [Ns Ne].
  split; cbn [cards p_issues].
  - by rewrite !length_foldl_alter.
  - intros i m Hm. rewrite !foldl_alter in Hm by done. rewrite filter_app.
    assert (∃ m0, cards p !! i = Some m0 ∧ m_selected m = m_selected m0 ++ (if decide (i ∈ selected_by (classify rules t)) then [t] else [])) as (m0 & H0 & ->).
    { destruct (decide (i ∈ excluded_by _)), (decide (i ∈ selected_by _)), (cards p !! i) as [m0|]; try done; cbn in Hm; injection Hm as <-;
        exists m0; cbn; by rewrite ?app_nil_r. }
    rewrite (Hs i m0 H0). done.
  - rewrite Hi, bind_app. cbn. by rewrite app_nil_r, app_assoc.
  - rewrite Hse. by rewrite Permutation_app_comm.
  - apply NoDup_app. split_and!; [done| |apply NoDup_singleton]. intros x Hx ->%list_elem_of_singleton. by rewrite Hse in Hin.
Qed.

Lemma resolve_loop rules catalog past p seen p' seen' :
  Resolved rules past p seen → for_each (resolve_table rules) catalog (p, seen) = Ok (p', seen') → Resolved rules (past ++ catalog) p' seen'.
Proof.
  revert past p seen. induction catalog as [|t catalog IH]; intros past p seen HR E; cbn [for_each] in E.
  - injection E as <- <-. by rewrite app_nil_r.
  - apply bind_Ok in E as ([p1 seen1] & Et & E). change (t :: catalog) with ([t] ++ catalog). rewrite app_assoc.
    eapply IH; [by eapply resolve_table_ok|done].
Qed.

(** An accepted preview: the cards, all with a selected table, and no conflicts. *)
Lemma preview_clean rules catalog preview tables :
  resolve rules catalog = Ok preview → selected_tables preview = Ok tables →
  ∃ cs, length cs = length rules ∧ tables = (finish_card <$> cs) ≫= m_selected ∧ NoDup catalog ∧
  (∀ i m, cs !! i = Some m → m_selected m = filter (λ t, i ∈ selected_by (classify rules t)) catalog ∧ m_selected m ≠ []) ∧
  ∀ t, t ∈ catalog → (length (selected_by (classify rules t)) ≤ 1)%nat ∧
    (selected_by (classify rules t) = [] ∨ excluded_by (classify rules t) = []).
Proof.
  intros R S. unfold resolve in R. apply bind_Ok in R as ([p seen] & L & [= <-]).
  eapply (resolve_loop rules catalog []) in L; [|split; cbn; [by rewrite length_replicate| |by rewrite app_nil_r|done|constructor]].
  2: { intros i m [-> _]%lookup_replicate. done. }
  destruct L as [Hl Hs Hi _ Hn]. cbn [app] in *. unfold selected_tables in S. cbn [cards p_issues] in S.
  apply bind_Ok in S as ([] & _ & S). apply bind_Ok in S as ([] & Hiss%ensure_Ok & [= <-]).
  assert (p_issues p = [] ∧ ∀ i m, cards p !! i = Some m → m_selected m ≠ []) as [Hnone Hne].
  { destruct (p_issues p ++ _) as [|] eqn:E; [|done]. apply app_eq_nil in E as [-> E]. split; [done|]. intros i m Hm Hempty.
    assert (EmptyMatch i ∈ @nil SelectionIssue) as Hin; [|by apply not_elem_of_nil in Hin]. rewrite <-E. apply list_elem_of_omap.
    exists (i, m). split; [apply list_elem_of_lookup; exists i; by rewrite list_lookup_imap, Hm|]. by rewrite bool_decide_eq_true_2. }
  rewrite Hnone in Hi. symmetry in Hi. apply app_eq_nil in Hi as [_ Hi].
  exists (cards p). split_and!; [done..|by intros i m Hm; split; [apply Hs|eapply Hne]|]. intros t Ht. apply (conflicts_nil t). apply list_elem_of_split in Ht as (l1 & l2 & ->).
    rewrite bind_app in Hi. apply app_eq_nil in Hi as [_ Hi]. cbn in Hi. apply app_eq_nil in Hi as [Hi _].
    unfold classify in Hi |- *. by destruct (foldl _ _ _).
Qed.

(** A selected table is selected by one rule and excluded by none. *)
Lemma single_card rules t i :
  (length (selected_by (classify rules t)) ≤ 1)%nat → (selected_by (classify rules t) = [] ∨ excluded_by (classify rules t) = []) →
  i ∈ selected_by (classify rules t) → selected_by (classify rules t) = [i] ∧ excluded_by (classify rules t) = [].
Proof.
  intros H1 H2 Hin. destruct (selected_by (classify rules t)) as [|a [|b s]]; [by apply not_elem_of_nil in Hin| |cbn in H1; lia].
  apply list_elem_of_singleton in Hin as ->. by destruct H2.
Qed.
End proofs.


(** ** Qualified names are read back *)
Lemma parse_escaped part rest ns acc : parse_qualified (escape_part part ++ rest) ns acc = parse_qualified rest ns (acc ++ part).
Proof.
  revert acc. induction part as [|b part IH]; intros acc; [by rewrite app_nil_r|].
  unfold escape_part. rewrite bind_cons, <-app_assoc. fold (escape_part part). unfold escape_byte. case_bool_decide as Hb.
  - cbn [app parse_qualified]. rewrite bool_decide_eq_true_2 by done.
    rewrite bool_decide_eq_true_2 by (apply elem_of_cons in Hb as [->| ->%list_elem_of_singleton]; [right; by left|by left]).
    by rewrite IH, <-app_assoc.
  - apply not_elem_of_cons in Hb as [H1 H2]. apply not_elem_of_cons in H2 as [H2 _]. cbn [app parse_qualified].
    rewrite !bool_decide_eq_false_2 by done. by rewrite IH, <-app_assoc.
Qed.

Lemma escape_no_nul part : 0 ∉ part → 0 ∉ escape_part part.
Proof.
  intros Hn (b & Hb & Hin)%list_elem_of_bind. unfold escape_byte in Hb. assert (b ≠ 0) as Hb0 by (intros ->; done).
  case_bool_decide; apply elem_of_cons in Hb as [E|Hb]; try done.
  - apply list_elem_of_singleton in Hb. by subst.
  - by apply not_elem_of_nil in Hb.
Qed.

(** The qualified name of a table, as it is shown and matched, is read back as the same
    table, whatever dots, backslashes and other characters its identifiers contain. *)
Theorem qualified_name_roundtrip t :
  (namespace t = "" ∨ blank (string_bytes (namespace t)) = false) → blank (string_bytes (name t)) = false →
  0 ∉ string_bytes (namespace t) → 0 ∉ string_bytes (name t) →
  from_qualified_name (qualified_name t) = Ok t.
Proof.
  intros Hns Hnm Z1 Z2. destruct t as [ns n]. cbn [namespace name] in *. unfold from_qualified_name, qualified_name, qualified_table_name.
  cbn [namespace name]. destruct (decide (ns = "")) as [Hempty|Hempty];
    [rewrite (bool_decide_eq_true_2 (ns = "")) by done|rewrite (bool_decide_eq_false_2 (ns = "")) by done].
  - rewrite <-(app_nil_r (escape_part _)), parse_escaped. cbn [parse_qualified app mbind result_bind]. rewrite Hnm. cbn [negb ensure mbind result_bind].
    rewrite app_nil_r, bool_decide_eq_true_2 by (by apply escape_no_nul). cbn. by rewrite string_of_string_bytes, Hempty.
  - destruct Hns as [?|Hns]; [done|]. rewrite parse_escaped. cbn [app parse_qualified].
    rewrite (bool_decide_eq_false_2 (46 = 92)), !(bool_decide_eq_true_2 (_ = _)) by done. rewrite Hns. cbn [negb ensure mbind result_bind].
    rewrite <-(app_nil_r (escape_part (string_bytes n))) at 1. rewrite parse_escaped. cbn [parse_qualified app mbind result_bind].
    rewrite Hnm. cbn [negb ensure mbind result_bind]. rewrite bool_decide_eq_true_2.
    + change (default [] (Some (string_bytes ns))) with (string_bytes ns). cbn [ensure mbind result_bind]. by rewrite !string_of_string_bytes.
    + intros [Hin|[?|Hin]%elem_of_cons]%elem_of_app; [by apply escape_no_nul in Hin|done|by apply escape_no_nul in Hin].
Qed.

Lemma qualified_name_roundtrip_witness :
  from_qualified_name (string_bytes "sales\.eu.orders\\2024") = Ok {| namespace := "sales.eu"; name := "orders\2024" |}.
Proof.
  apply (qualified_name_roundtrip {| namespace := "sales.eu"; name := "orders\2024" |}); [right; reflexivity|reflexivity|..];
    apply (bool_decide_unpack (0 ∉ _)); vm_compute; exact I.
Defined.

(** A matcher of texts without special characters. *)
Definition plain_regex : RegexLib := {|
  Regex := list Z; regex_new := Some;
  is_match e text := bool_decide (e = string_bytes "\A(?:" ++ text ++ string_bytes ")\z");
  regex_escape := id
|}.
