(* ===== verification/MySqlDecoder.v ===== *)
(** * The MySQL binlog decoder

    [src_stream/decoder.rs], checksum.rs and ddl.rs of transferia-connector-mysql: the state
    machine that turns binlog events into transactions.  An [Event] holds what mysql_async
    reads from the wire; the SQL parser is an interface. *)

From stdpp Require Import base tactics numbers option strings gmap relations list.
From S2P Require Import Prelude Bytes Text MySqlPosition MySqlTables MySqlIdentity MySqlTableMap TableSelection.
Local Open Scope Z_scope.

(** ** Events *)
Inductive EventType :=
| ROTATE_EVENT | FORMAT_DESCRIPTION_EVENT | PREVIOUS_GTIDS_EVENT | TRANSACTION_PAYLOAD_EVENT | OtherEvent (n : Z).
#[export] Instance EventType_eq_dec : EqDecision EventType.
Proof. solve_decision. Defined.
Inductive BinlogChecksumAlg := CHECKSUM_OFF | CHECKSUM_CRC32.

Inductive RowsKind :=
| WriteRowsEventV1 | WriteRowsEvent | UpdateRowsEventV1 | UpdateRowsEvent | DeleteRowsEventV1 | DeleteRowsEvent
| PartialUpdateRowsEvent.
Inductive MySqlRowOperation := WriteRow | UpdateRow | DeleteRow.

Record MySqlTransactionMarker := { marker_identity : MySqlTransactionIdentity; begin_position : MySqlBinlogPosition }.

Section decoder.
Context `{BinlogTypes}.

(** A decoded row; [take] of an absent value fails. *)
Abbreviation BinlogRow := (list (option BinlogValue)) (only parsing).

Record RowsEventData := {
  rows_kind : RowsKind; rows_table_id : Z; num_columns : Z (* u64 *);
  columns_before_image : option (list bool); columns_after_image : option (list bool);
  rows : TableMapEvent → list (result unit (option BinlogRow * option BinlogRow))
}.

Inductive EventData :=
| GtidEvent (sid : list Z) (tag : option string) (gno : Z)
| AnonymousGtidEvent
| QueryEvent (schema_raw query_raw : list Z)
| TableMapData (tm : TableMapEvent)
| RowsEvent (r : RowsEventData)
| XidEvent (xid : Z)
| RotateEvent (name_raw : list Z) (position : Z)
| FormatDescriptionEvent | PreviousGtidsEvent | HeartbeatEvent | RowsQueryEvent | IgnorableEvent | StopEvent | OtherData.

Record Event := {
  event_type : option EventType; event_type_raw : Z;
  log_pos : Z (* u32 *); event_size : Z (* u32 *); timestamp : Z; header_server_id : Z;
  checksum_alg : result Z (option BinlogChecksumAlg);
  checksum : option (list Z); calc_checksum : Z;
  read_data : result unit (option EventData)
}.

(** ** Checksums: checksum.rs *)
Inductive BinlogChecksumError :=
| UnknownAlgorithm (a : Z) | ChecksumUnknownEventType (t : Z) | Crc32Required (algorithm : option BinlogChecksumAlg)
| MissingCrc32 | DuplicateBootstrapRotate | Mismatch (expected actual : list Z).

Record BinlogChecksumVerifier := { bootstrap_rotate_seen : bool; crc32_format_description_seen : bool }.
Definition default_verifier : BinlogChecksumVerifier := {| bootstrap_rotate_seen := false; crc32_format_description_seen := false |}.

Definition is_artificial_rotate (t : EventType) (e : Event) : bool := bool_decide (t = ROTATE_EVENT) && bool_decide (log_pos e = 0).
Definition verify_crc32 (e : Event) : result BinlogChecksumError unit :=
  ok_or (checksum e) MissingCrc32 ≫= λ actual,
  let expected := le_bytes 4 (calc_checksum e) in
  ensure (bool_decide (actual = expected)) (Mismatch expected actual).
Definition verify_event_checksum (e : Event) : result BinlogChecksumError unit :=
  match checksum_alg e with
  | Err a => Err (UnknownAlgorithm a)
  | Ok (Some CHECKSUM_CRC32) => verify_crc32 e
  | Ok algorithm => Err (Crc32Required algorithm)
  end.

Definition verify (v : BinlogChecksumVerifier) (e : Event) : BinlogChecksumVerifier * result BinlogChecksumError unit :=
  match event_type e with
  | None => (v, Err (ChecksumUnknownEventType (event_type_raw e)))
  | Some t =>
      if negb (crc32_format_description_seen v) && is_artificial_rotate t e then
        if bootstrap_rotate_seen v then (v, Err DuplicateBootstrapRotate)
        else
          ({| bootstrap_rotate_seen := true; crc32_format_description_seen := crc32_format_description_seen v |},
           match checksum_alg e with
           | Ok (Some CHECKSUM_CRC32) => verify_crc32 e
           | Ok (None | Some CHECKSUM_OFF) => Ok tt
           | Err a => Err (UnknownAlgorithm a)
           end)
      else
        match checksum_alg e with
        | Ok (Some CHECKSUM_CRC32) =>
            match verify_crc32 e with
            | Err err => (v, Err err)
            | Ok _ =>
                (if bool_decide (t = FORMAT_DESCRIPTION_EVENT)
                 then {| bootstrap_rotate_seen := bootstrap_rotate_seen v; crc32_format_description_seen := true |} else v, Ok tt)
            end
        | Ok algorithm => (v, Err (Crc32Required algorithm))
        | Err a => (v, Err (UnknownAlgorithm a))
        end
  end.
End decoder.

(** ** Statements: ddl.rs *)
Inductive ObjectNamePart := Identifier (value : string) | FunctionPart.
Abbreviation ObjectName := (list ObjectNamePart) (only parsing).
Record CreateTable := {
  ct_name : list ObjectNamePart; temporary : bool; if_not_exists : bool; or_replace : bool; has_query : bool;
  has_clone : bool; external : bool; dynamic : bool
}.
Inductive Statement :=
| CreateTableStatement (c : CreateTable)
| RenameTableStatement (tables : list (ObjectName * ObjectName))
| AlterTableStatement (name : ObjectName) (operations : list (option ObjectName))   (* the new name of a rename *)
| OtherStatement.
Class SqlParser := { parse_sql : string → option (list Statement) }.

(** [str::contains]. *)
Fixpoint contains (needle l : list Z) : bool :=
  bool_decide (firstn (length needle) l = needle) || match l with [] => false | _ :: l => contains needle l end.

Definition identifier_value (p : ObjectNamePart) : option string := match p with Identifier v => Some v | FunctionPart => None end.
Definition object_identity (name : ObjectName) (database : string) : option TableIdentity :=
  parts ← mapM identifier_value name;
  match parts with
  | [n] => if bool_decide (database = "") then None else Some {| namespace := database; name := n |}
  | [ns; n] => Some {| namespace := ns; name := n |}
  | _ => None
  end.

Section ddl.
Context `{SqlParser}.
(** The common guards of the two functions. *)
Definition readable (query database : list Z) : option (string * string) :=
  q ← from_utf8 query; d ← from_utf8 database;
  if contains (string_bytes "/*!") query || contains (string_bytes "/*M!") query then None else Some (q, d).

Definition created_table (query database : list Z) : option TableIdentity :=
  '(q, d) ← readable query database;
  statements ← parse_sql q;
  match statements with
  | [CreateTableStatement c] =>
      if temporary c || if_not_exists c || or_replace c || has_query c || has_clone c || external c || dynamic c then None
      else object_identity (ct_name c) d
  | _ => None
  end.

(** The renames of a statement. *)
Definition renames_of (d : string) (s : Statement) : option (list (TableIdentity * TableIdentity)) :=
  match s with
  | RenameTableStatement tables => mapM (λ '(a, b), old ← object_identity a d; new ← object_identity b d; Some (old, new)) tables
  | AlterTableStatement n operations =>
      old ← object_identity n d;
      mapM (λ b, new ← object_identity b (namespace old); Some (old, new)) (omap id operations)
  | _ => Some []
  end.
(** [Some] of the renamed pair and the rule when a rename targets a selected table. *)
Definition rename_error `{RegexLib} (query database : list Z) (selection : list CompiledTableRule)
    : option (TableIdentity * TableIdentity * nat) :=
  '(q, d) ← readable query database;
  statements ← parse_sql q;
  renames ← mapM (renames_of d) statements;
  head (omap (λ '(old, new), card ← head (selected_by (classify selection new)); Some (old, new, (card + 1)%nat)) (concat renames)).
End ddl.

(** ** The decoder *)
Inductive BinlogDecodeError :=
| InvalidConfig (e : TableError) | InvalidPosition (e : PositionError) | ChecksumError (e : BinlogChecksumError)
| UnknownEventType (t : Z) | MalformedEvent (t : EventType) | UnsupportedEvent (t : EventType) | UnsafeRename
| UnsupportedStatement (schema : list Z) | EventTooLarge (bytes : Z) | TransactionCompressionObserved
| TransactionAlreadyActive (t : EventType) | TransactionNotActive (t : EventType)
| BootstrapEventInsideTransaction (t : EventType) | DuplicateBegin | TooManyTransactionEvents (n : Z)
| TransactionTooLarge (n : Z) | TransactionSizeOverflow | TransactionRowCountOverflow | TooManyTransactionRows (n : Z)
| RowIndexDoesNotFitI32 (n : nat) | PartialJsonUpdateObserved | MissingTableMap (id : Z)
| ColumnCountMismatch (id a b : Z) | PartialRowImage (id : Z) | UnexpectedRowShape (op : MySqlRowOperation)
| DecodedColumnCountMismatch (expected : Z) (decoded : nat) | MalformedRows (id : Z) | RowValueConversion (id : Z)
| TableMapFailure (e : TableMapError) | RotateInsideTransaction | UnexpectedFakeRotate (received : list Z)
| PositionMovedBackwards (previous received : Z).

Section decoding.
Context `{BinlogTypes, SqlParser, RegexLib}.

Record ActiveTransaction := {
  marker : MySqlTransactionMarker; event_count : Z; decoded_rows : Z; encoded_bytes : Z (* u64 *); saw_begin_query : bool
}.
Record MySqlBinlogDecoder := {
  d_config : MySqlReplicationConfig; current_position : MySqlBinlogPosition; active_transaction : option ActiveTransaction;
  table_maps : gmap Z TableMapEvent; d_checksum : BinlogChecksumVerifier; allow_gtid_auto_position_rotate : bool;
  selected_tables : option (list (list Z * list Z)); table_selection : option (list CompiledTableRule)
}.

Record MySqlRowChange := { before : option (list BinlogValue); after : option (list BinlogValue); row_in_event : Z }.
Record DecodedRowsEvent := {
  r_transaction : MySqlTransactionMarker; operation : MySqlRowOperation; r_table : MySqlTableIdentity;
  before_columns : list bool; after_columns : list bool; changes : list MySqlRowChange;
  source_timestamp_seconds : Z; source_server_id : Z; event_position : MySqlBinlogPosition;
  observed_next_position : MySqlBinlogPosition
}.
Record CommittedTransaction := {
  transaction : MySqlTransactionMarker; xid : option Z; next_position_of : MySqlBinlogPosition;
  total_events : Z; total_bytes : Z
}.
Inductive DecodedBinlogEvent :=
| TransactionStarted (m : MySqlTransactionMarker)
| TableMapped (t : MySqlTableIdentity)
| Rows (r : DecodedRowsEvent)
| TransactionCommitted (c : CommittedTransaction)
| TableCreated (t : TableIdentity) (committed : CommittedTransaction)
| TransactionRolledBack (m : MySqlTransactionMarker) (next : MySqlBinlogPosition)
| BinlogRotated (previous next : MySqlBinlogPosition)
| Ignored (t : EventType) (next : MySqlBinlogPosition) (inside_transaction : bool).

(** A method of the decoder: the state it leaves, also when it fails. *)
Definition dec (A : Type) : Type := MySqlBinlogDecoder → MySqlBinlogDecoder * result BinlogDecodeError A.
#[export] Instance dec_ret : MRet dec := λ A a d, (d, Ok a).
#[export] Instance dec_bind : MBind dec := λ A B f m d,
  match m d with (d, Ok a) => f a d | (d, Err e) => (d, Err e) end.
Definition this : dec MySqlBinlogDecoder := λ d, (d, Ok d).
Definition lift {A} (r : result BinlogDecodeError A) : dec A := λ d, (d, r).
Definition fail {A} (e : BinlogDecodeError) : dec A := lift (Err e).
Definition modify (f : MySqlBinlogDecoder → MySqlBinlogDecoder) : dec unit := λ d, (f d, Ok tt).

Definition with_position (p : MySqlBinlogPosition) (d : MySqlBinlogDecoder) : MySqlBinlogDecoder :=
  {| d_config := d_config d; current_position := p; active_transaction := active_transaction d; table_maps := table_maps d;
     d_checksum := d_checksum d; allow_gtid_auto_position_rotate := allow_gtid_auto_position_rotate d;
     selected_tables := selected_tables d; table_selection := table_selection d |}.
Definition with_active (a : option ActiveTransaction) (d : MySqlBinlogDecoder) : MySqlBinlogDecoder :=
  {| d_config := d_config d; current_position := current_position d; active_transaction := a; table_maps := table_maps d;
     d_checksum := d_checksum d; allow_gtid_auto_position_rotate := allow_gtid_auto_position_rotate d;
     selected_tables := selected_tables d; table_selection := table_selection d |}.
Definition with_maps (m : gmap Z TableMapEvent) (d : MySqlBinlogDecoder) : MySqlBinlogDecoder :=
  {| d_config := d_config d; current_position := current_position d; active_transaction := active_transaction d; table_maps := m;
     d_checksum := d_checksum d; allow_gtid_auto_position_rotate := allow_gtid_auto_position_rotate d;
     selected_tables := selected_tables d; table_selection := table_selection d |}.
Definition with_checksum (v : BinlogChecksumVerifier) (d : MySqlBinlogDecoder) : MySqlBinlogDecoder :=
  {| d_config := d_config d; current_position := current_position d; active_transaction := active_transaction d;
     table_maps := table_maps d; d_checksum := v; allow_gtid_auto_position_rotate := allow_gtid_auto_position_rotate d;
     selected_tables := selected_tables d; table_selection := table_selection d |}.
Definition with_rotate (b : bool) (d : MySqlBinlogDecoder) : MySqlBinlogDecoder :=
  {| d_config := d_config d; current_position := current_position d; active_transaction := active_transaction d;
     table_maps := table_maps d; d_checksum := d_checksum d; allow_gtid_auto_position_rotate := b;
     selected_tables := selected_tables d; table_selection := table_selection d |}.

Definition decoder_new (config : MySqlReplicationConfig) (p : MySqlBinlogPosition) : result BinlogDecodeError MySqlBinlogDecoder :=
  match config_validate config, position_validate p with
  | Err e, _ => Err (InvalidConfig e)
  | Ok _, Err e => Err (InvalidPosition e)
  | Ok _, Ok _ =>
      Ok {| d_config := config; current_position := p; active_transaction := None; table_maps := ∅;
            d_checksum := default_verifier; allow_gtid_auto_position_rotate := false; selected_tables := None; table_selection := None |}
  end.
Definition enable_gtid_auto_position (d : MySqlBinlogDecoder) : MySqlBinlogDecoder := with_rotate true d.
Definition set_table_selection (s : list CompiledTableRule) (d : MySqlBinlogDecoder) : MySqlBinlogDecoder :=
  {| d_config := d_config d; current_position := current_position d; active_transaction := active_transaction d;
     table_maps := table_maps d; d_checksum := d_checksum d; allow_gtid_auto_position_rotate := allow_gtid_auto_position_rotate d;
     selected_tables := selected_tables d; table_selection := Some s |}.
Definition retain_rows_for_tables (tables : list (list Z * list Z)) (d : MySqlBinlogDecoder) : MySqlBinlogDecoder :=
  {| d_config := d_config d; current_position := current_position d; active_transaction := active_transaction d;
     table_maps := table_maps d; d_checksum := d_checksum d; allow_gtid_auto_position_rotate := allow_gtid_auto_position_rotate d;
     selected_tables := Some tables; table_selection := table_selection d |}.

(** ** Guards and counters *)
Definition require_transaction (t : EventType) : dec unit := λ d,
  match active_transaction d with Some _ => (d, Ok tt) | None => (d, Err (TransactionNotActive t)) end.
Definition require_outside_transaction (t : EventType) : dec unit := λ d,
  match active_transaction d with Some _ => (d, Err (BootstrapEventInsideTransaction t)) | None => (d, Ok tt) end.
Definition table_is_selected (d : MySqlBinlogDecoder) (tm : TableMapEvent) : bool :=
  match selected_tables d with
  | None => true
  | Some selected => existsb (λ '(database, table), bool_decide (database = database_name_raw tm) && bool_decide (table = table_name_raw tm)) selected
  end.

Definition check_limits (c : MySqlReplicationConfig) (a : ActiveTransaction) (bytes : Z) : result BinlogDecodeError unit :=
  let n := saturating_add u64_max (event_count a) 1 in
  ensure (bool_decide (n ≤ max_events c)) (TooManyTransactionEvents n) ≫= λ _,
  ok_or (checked_add u64_max (encoded_bytes a) bytes) TransactionSizeOverflow ≫= λ total,
  ensure (bool_decide (total ≤ max_transaction_bytes c)) (TransactionTooLarge total).
Definition check_transaction_limits (t : EventType) (bytes : Z) : dec unit := λ d,
  match active_transaction d with
  | None => (d, Err (TransactionNotActive t))
  | Some a => (d, check_limits (d_config d) a bytes)
  end.

Definition with_usage (a : ActiveTransaction) (n bytes : Z) : ActiveTransaction :=
  {| marker := marker a; event_count := n; decoded_rows := decoded_rows a; encoded_bytes := bytes; saw_begin_query := saw_begin_query a |}.
Definition apply_transaction_usage (t : EventType) (bytes : Z) : dec unit := λ d,
  match active_transaction d with
  | None => (d, Err (TransactionNotActive t))
  | Some a =>
      match checked_add u64_max (event_count a) 1 with
      | None => (d, Err TransactionSizeOverflow)
      | Some n =>
          match checked_add u64_max (encoded_bytes a) bytes with
          | None => (with_active (Some (with_usage a n (encoded_bytes a))) d, Err TransactionSizeOverflow)
          | Some b => (with_active (Some (with_usage a n b)) d, Ok tt)
          end
      end
  end.

Definition next_position (d : MySqlBinlogDecoder) (t : EventType) (pos : Z) : result BinlogDecodeError MySqlBinlogPosition :=
  if bool_decide (pos = 0) then Ok (current_position d)
  else if bool_decide (pos < bp_position (current_position d)) then
    if bool_decide (t ∈ [FORMAT_DESCRIPTION_EVENT; PREVIOUS_GTIDS_EVENT]) then Ok (current_position d)
    else Err (PositionMovedBackwards (bp_position (current_position d)) pos)
  else match position_new (filename (current_position d)) pos with Ok p => Ok p | Err e => Err (InvalidPosition e) end.
Definition next_pos (t : EventType) (e : Event) : dec MySqlBinlogPosition := λ d, (d, next_position d t (log_pos e)).

(** ** Rows *)
Definition row_event_shape (r : RowsEventData) : result BinlogDecodeError (MySqlRowOperation * list bool * list bool) :=
  let b := default [] (columns_before_image r) in
  let a := default [] (columns_after_image r) in
  match rows_kind r with
  | WriteRowsEventV1 | WriteRowsEvent => Ok (WriteRow, b, a)
  | UpdateRowsEventV1 | UpdateRowsEvent => Ok (UpdateRow, b, a)
  | DeleteRowsEventV1 | DeleteRowsEvent => Ok (DeleteRow, b, a)
  | PartialUpdateRowsEvent => Err PartialJsonUpdateObserved
  end.
Definition require_full_image (table columns : Z) (bitmap : list bool) : result BinlogDecodeError unit :=
  if bool_decide (bitmap = []) then Ok tt
  else ensure (bool_decide (Z.of_nat (length bitmap) = columns) && forallb id bitmap) (PartialRowImage table).
Definition validate_row_shape (op : MySqlRowOperation) (b a : option (list (option BinlogValue))) (columns : Z) : result BinlogDecodeError unit :=
  ensure (match op with
          | WriteRow => negb (some b) && some a
          | UpdateRow => some b && some a
          | DeleteRow => some b && negb (some a) end) (UnexpectedRowShape op) ≫= λ _,
  for_each (λ _ row, ensure (bool_decide (Z.of_nat (length row) = columns)) (DecodedColumnCountMismatch columns (length row)))
    (option_list b ++ option_list a) tt.
Definition binlog_row_values (row : option (list (option BinlogValue))) (id : Z) : result BinlogDecodeError (option (list BinlogValue)) :=
  match row with
  | None => Ok None
  | Some row => mapM (λ v, ok_or v (RowValueConversion id)) row ≫= λ values, Ok (Some values)
  end.

Definition i32_max : Z := 2147483647.
(** One turn of the loop over the rows of an event. *)
Definition decode_row (c : MySqlReplicationConfig) (op : MySqlRowOperation) (r : RowsEventData) (previously : Z)
    (out : list MySqlRowChange) (entry : nat * result unit (option (list (option BinlogValue)) * option (list (option BinlogValue))))
    : result BinlogDecodeError (list MySqlRowChange) :=
  let '(i, row) := entry in
  match row with
  | Err _ => Err (MalformedRows (rows_table_id r))
  | Ok (b, a) =>
      validate_row_shape op b a (num_columns r) ≫= λ _,
      ok_or (checked_add u64_max previously (Z.of_nat (length out)) ≫= λ n, checked_add u64_max n 1) TransactionRowCountOverflow ≫= λ n,
      ensure (bool_decide (n ≤ max_events c)) (TooManyTransactionRows n) ≫= λ _,
      binlog_row_values b (rows_table_id r) ≫= λ b,
      binlog_row_values a (rows_table_id r) ≫= λ a,
      ensure (bool_decide (Z.of_nat i ≤ i32_max)) (RowIndexDoesNotFitI32 i) ≫= λ _,
      Ok (out ++ [{| before := b; after := a; row_in_event := Z.of_nat i |}])
  end.

Definition active_of (t : EventType) : dec ActiveTransaction := λ d, (d, ok_or (active_transaction d) (TransactionNotActive t)).
Definition with_rows (a : ActiveTransaction) (n : Z) : ActiveTransaction :=
  {| marker := marker a; event_count := event_count a; decoded_rows := n; encoded_bytes := encoded_bytes a; saw_begin_query := saw_begin_query a |}.
Definition map_failure {A} (r : result TableMapError A) : result BinlogDecodeError A :=
  match r with Ok a => Ok a | Err e => Err (TableMapFailure e) end.

Definition decode_rows (t : EventType) (bytes : Z) (e : Event) (r : RowsEventData) : dec DecodedBinlogEvent :=
  _ ← require_transaction t;
  _ ← check_transaction_limits t bytes;
  _ ← (match rows_kind r with PartialUpdateRowsEvent => fail PartialJsonUpdateObserved | _ => mret tt end);
  d ← this;
  tm ← lift (ok_or (table_maps d !! rows_table_id r) (MissingTableMap (rows_table_id r)));
  _ ← lift (ensure (bool_decide (num_columns r = columns_count tm)) (ColumnCountMismatch (rows_table_id r) (columns_count tm) (num_columns r)));
  if negb (table_is_selected d tm) then
    next ← next_pos t e;
    _ ← apply_transaction_usage t bytes;
    _ ← modify (with_position next);
    mret (Ignored t next true)
  else
    '(op, before_columns, after_columns) ← lift (row_event_shape r);
    _ ← lift (require_full_image (rows_table_id r) (num_columns r) before_columns);
    _ ← lift (require_full_image (rows_table_id r) (num_columns r) after_columns);
    a ← active_of t;
    out ← lift (for_each (decode_row (d_config d) op r (decoded_rows a)) (imap pair (rows r tm)) []);
    total ← lift (ok_or (checked_add u64_max (decoded_rows a) (Z.of_nat (length out))) TransactionRowCountOverflow);
    next ← next_pos t e;
    table ← lift (map_failure (table_identity tm));
    _ ← apply_transaction_usage t bytes;
    a' ← active_of t;
    _ ← modify (with_active (Some (with_rows a' total)));
    _ ← modify (with_position next);
    mret (Rows {| r_transaction := marker a; operation := op; r_table := table; before_columns := before_columns;
                  after_columns := after_columns; changes := out; source_timestamp_seconds := timestamp e;
                  source_server_id := header_server_id e; event_position := current_position d; observed_next_position := next |}).

(** ** The other events *)
Definition decode_ignored (t : EventType) (bytes : Z) (e : Event) : dec DecodedBinlogEvent :=
  d ← this;
  let inside := some (active_transaction d) in
  _ ← (if inside then check_transaction_limits t bytes else mret tt);
  next ← next_pos t e;
  _ ← (if inside then apply_transaction_usage t bytes else mret tt);
  _ ← modify (with_position next);
  mret (Ignored t next inside).

Definition decode_commit (t : EventType) (bytes : Z) (e : Event) (x : option Z) : dec CommittedTransaction :=
  _ ← require_transaction t;
  _ ← check_transaction_limits t bytes;
  next ← next_pos t e;
  _ ← apply_transaction_usage t bytes;
  a ← active_of t;
  _ ← modify (with_active None);
  _ ← modify (with_maps ∅);
  _ ← modify (with_position next);
  mret {| transaction := marker a; xid := x; next_position_of := next; total_events := event_count a; total_bytes := encoded_bytes a |}.

Definition decode_rollback (t : EventType) (bytes : Z) (e : Event) : dec DecodedBinlogEvent :=
  _ ← require_transaction t;
  _ ← check_transaction_limits t bytes;
  next ← next_pos t e;
  a ← active_of t;
  _ ← modify (with_active None);
  _ ← modify (with_maps ∅);
  _ ← modify (with_position next);
  mret (TransactionRolledBack (marker a) next).

(** Start a transaction identified by [identity]. *)
Definition start_transaction (t : EventType) (bytes : Z) (e : Event) (identity : MySqlBinlogPosition → MySqlTransactionIdentity) (begun : bool)
    : dec DecodedBinlogEvent :=
  next ← next_pos t e;
  d ← this;
  let m := {| marker_identity := identity (current_position d); begin_position := current_position d |} in
  _ ← modify (with_active (Some {| marker := m; event_count := 1; decoded_rows := 0; encoded_bytes := bytes; saw_begin_query := begun |}));
  _ ← modify (with_position next);
  mret (TransactionStarted m).

Definition with_begin (a : ActiveTransaction) : ActiveTransaction :=
  {| marker := marker a; event_count := event_count a; decoded_rows := decoded_rows a; encoded_bytes := encoded_bytes a; saw_begin_query := true |}.
Definition decode_begin (t : EventType) (bytes : Z) (e : Event) : dec DecodedBinlogEvent :=
  d ← this;
  match active_transaction d with
  | None => start_transaction t bytes e FilePositionIdentity true
  | Some a =>
      _ ← check_transaction_limits t bytes;
      _ ← lift (ensure (negb (saw_begin_query a)) DuplicateBegin);
      _ ← modify (with_active (Some (with_begin a)));
      next ← next_pos t e;
      _ ← apply_transaction_usage t bytes;
      _ ← modify (with_position next);
      mret (Ignored t next true)
  end.

Fixpoint drop_spaces (l : list Z) : list Z :=
  match l with b :: l' => if is_ascii_whitespace b then drop_spaces l' else l | [] => [] end.
Definition trim_ascii (l : list Z) : list Z := reverse (drop_spaces (reverse (drop_spaces l))).

Definition decode_query (t : EventType) (bytes : Z) (e : Event) (schema query : list Z) : dec DecodedBinlogEvent :=
  let statement := trim_ascii query in
  let matches word := eq_ignore_ascii_case statement (string_bytes word) in
  if matches "BEGIN" then decode_begin t bytes e
  else if matches "COMMIT" then c ← decode_commit t bytes e None; mret (TransactionCommitted c)
  else if matches "ROLLBACK" then decode_rollback t bytes e
  else
    d ← this;
    match (table_selection d ≫= rename_error statement schema) with
    | Some _ => fail UnsafeRename
    | None =>
        match created_table statement schema with
        | Some table => c ← decode_commit t bytes e None; mret (TableCreated table c)
        | None => fail (UnsupportedStatement schema)
        end
    end.

Definition decode_table_map (t : EventType) (bytes : Z) (e : Event) (tm : TableMapEvent) : dec DecodedBinlogEvent :=
  _ ← require_transaction t;
  _ ← check_transaction_limits t bytes;
  next ← next_pos t e;
  d ← this;
  identity ← lift (if table_is_selected d tm then i ← map_failure (table_identity tm); Ok (Some i) else Ok None);
  _ ← modify (λ d, with_maps (<[tm_table_id tm := tm]> (table_maps d)) d);
  _ ← apply_transaction_usage t bytes;
  _ ← modify (with_position next);
  mret match identity with Some i => TableMapped i | None => Ignored t next true end.

Definition position_or {A} (r : result PositionError A) : result BinlogDecodeError A :=
  match r with Ok a => Ok a | Err e => Err (InvalidPosition e) end.
Definition decode_rotate (t : EventType) (e : Event) (name_raw : list Z) (position : Z) : dec DecodedBinlogEvent :=
  d ← this;
  match active_transaction d with
  | Some _ => fail RotateInsideTransaction
  | None =>
      if is_artificial_rotate t e && negb (allow_gtid_auto_position_rotate d) then
        _ ← lift (ensure (bool_decide (name_raw = filename (current_position d))) (UnexpectedFakeRotate name_raw));
        mret (Ignored t (current_position d) false)
      else
        next ← lift (position_or (position_new name_raw position));
        _ ← modify (with_position next);
        _ ← modify (with_maps ∅);
        _ ← modify (if is_artificial_rotate t e then with_rotate false else id);
        mret (BinlogRotated (current_position d) next)
  end.

Definition decode_data (t : EventType) (bytes : Z) (e : Event) (data : EventData) : dec DecodedBinlogEvent :=
  d ← this;
  match data with
  | GtidEvent sid tag gno =>
      if some (active_transaction d) then fail (TransactionAlreadyActive t)
      else start_transaction t bytes e (λ _, GtidIdentity sid tag gno) false
  | AnonymousGtidEvent =>
      if some (active_transaction d) then fail (TransactionAlreadyActive t)
      else start_transaction t bytes e Anonymous false
  | QueryEvent schema query => decode_query t bytes e schema query
  | TableMapData tm => decode_table_map t bytes e tm
  | RowsEvent r => decode_rows t bytes e r
  | XidEvent x => c ← decode_commit t bytes e (Some x); mret (TransactionCommitted c)
  | RotateEvent name_raw position => decode_rotate t e name_raw position
  | FormatDescriptionEvent =>
      _ ← require_outside_transaction t;
      _ ← modify (with_maps ∅);
      decode_ignored t bytes e
  | PreviousGtidsEvent => _ ← require_outside_transaction t; decode_ignored t bytes e
  | HeartbeatEvent | RowsQueryEvent | IgnorableEvent => decode_ignored t bytes e
  | StopEvent => if some (active_transaction d) then fail (UnsupportedEvent t) else decode_ignored t bytes e
  | OtherData => fail (UnsupportedEvent t)
  end.

Definition decode (e : Event) : dec DecodedBinlogEvent := λ d,
  let '(v, r) := verify (d_checksum d) e in
  let d := with_checksum v d in
  match r with
  | Err err => (d, Err (ChecksumError err))
  | Ok _ =>
      match event_type e with
      | None => (d, Err (UnknownEventType (event_type_raw e)))
      | Some t =>
          if bool_decide (t = TRANSACTION_PAYLOAD_EVENT) then (d, Err TransactionCompressionObserved)
          else if bool_decide (max_transaction_bytes (d_config d) < event_size e) then (d, Err (EventTooLarge (event_size e)))
          else match read_data e with
          | Err _ => (d, Err (MalformedEvent t))
          | Ok None => (d, Err (UnknownEventType (event_type_raw e)))
          | Ok (Some data) => decode_data t (event_size e) e data d
          end
      end
  end.

(** ** What a successful call does *)
Lemma dec_bind_Ok {A B} (m : dec A) (f : A → dec B) d d' b :
  (m ≫= f) d = (d', Ok b) → ∃ d1 a, m d = (d1, Ok a) ∧ f a d1 = (d', Ok b).
Proof. unfold mbind, dec_bind. destruct (m d) as [d1 [a|e]]; [eauto|intros [= _ [=]]]. Qed.
Lemma require_transaction_Ok t d d' u : require_transaction t d = (d', Ok u) → d' = d ∧ is_Some (active_transaction d).
Proof. unfold require_transaction. destruct (active_transaction d); intros [= <-]; eauto. Qed.
Lemma require_outside_Ok t d d' u : require_outside_transaction t d = (d', Ok u) → d' = d ∧ active_transaction d = None.
Proof. unfold require_outside_transaction. destruct (active_transaction d); intros [= <-]; eauto. Qed.
Definition within_limits (c : MySqlReplicationConfig) (a : ActiveTransaction) (bytes : Z) : Prop :=
  Z.min (event_count a + 1) u64_max ≤ max_events c ∧ encoded_bytes a + bytes ≤ max_transaction_bytes c.
Lemma check_limits_Ok t bytes d d' u :
  check_transaction_limits t bytes d = (d', Ok u) →
  d' = d ∧ ∃ a, active_transaction d = Some a ∧ within_limits (d_config d) a bytes.
Proof.
  unfold check_transaction_limits. destruct (active_transaction d) as [a|]; [|intros [= _ [=]]]. intros E. injection E as <- E.
  split; [done|]. exists a. split; [done|]. unfold check_limits, saturating_add in E. res_inv. bool_inv.
  match goal with C : checked_add _ _ _ = _ |- _ => apply checked_add_Some in C as [-> _] end. done.
Qed.
Lemma apply_usage_Ok t bytes d d' u :
  apply_transaction_usage t bytes d = (d', Ok u) →
  ∃ a, active_transaction d = Some a ∧ d' = with_active (Some (with_usage a (event_count a + 1) (encoded_bytes a + bytes))) d ∧
    event_count a + 1 ≤ u64_max.
Proof.
  unfold apply_transaction_usage. destruct (active_transaction d) as [a|]; [|intros [= _ [=]]].
  destruct (checked_add u64_max (event_count a) 1) as [n|] eqn:En; [|intros [= _ [=]]].
  destruct (checked_add u64_max (encoded_bytes a) bytes) as [b|] eqn:Eb; [|intros [= _ [=]]]. intros [= <-].
  apply checked_add_Some in En as [-> ?], Eb as [-> ?]. eauto.
Qed.
Lemma next_pos_Ok t e d d' p : next_pos t e d = (d', Ok p) → d' = d ∧ next_position d t (log_pos e) = Ok p.
Proof. unfold next_pos. by intros [= <- ->]. Qed.
Lemma active_of_Ok t d d' a : active_of t d = (d', Ok a) → d' = d ∧ active_transaction d = Some a.
Proof. unfold active_of. destruct (active_transaction d); cbn; by intros [= <- <-]. Qed.
Lemma this_Ok d d' a : this d = (d', Ok a) → d' = d ∧ a = d.
Proof. by intros [= <- <-]. Qed.
Lemma lift_Ok {A} (r : result BinlogDecodeError A) d d' a : lift r d = (d', Ok a) → d' = d ∧ r = Ok a.
Proof. by intros [= <- ->]. Qed.
Lemma modify_Ok f d d' u : modify f d = (d', Ok u) → d' = f d.
Proof. by intros [= <-]. Qed.
Lemma mret_Ok {A} (a : A) d d' b : (mret a : dec A) d = (d', Ok b) → d' = d ∧ b = a.
Proof. by intros [= <- <-]. Qed.
Lemma fail_Ok {A} e d d' (a : A) : fail e d = (d', Ok a) → False.
Proof. intros [= _ [=]]. Qed.

(** Split a successful method into its calls. *)
Ltac dec_step := match goal with
  | E : (_ ≫= _) _ = (_, Ok _) |- _ => apply dec_bind_Ok in E as (? & ? & ? & E)
  | E : require_transaction _ _ = (_, Ok _) |- _ => apply require_transaction_Ok in E as [? ?]; subst
  | E : require_outside_transaction _ _ = (_, Ok _) |- _ => apply require_outside_Ok in E as [? ?]; subst
  | E : check_transaction_limits _ _ _ = (_, Ok _) |- _ => apply check_limits_Ok in E as (? & ? & ? & ?); subst
  | E : apply_transaction_usage _ _ _ = (_, Ok _) |- _ => apply apply_usage_Ok in E as (? & ? & ? & ?); subst
  | E : next_pos _ _ _ = (_, Ok _) |- _ => apply next_pos_Ok in E as [? ?]; subst
  | E : active_of _ _ = (_, Ok _) |- _ => apply active_of_Ok in E as [? ?]; subst
  | E : this _ = (_, Ok _) |- _ => apply this_Ok in E as [? ?]; subst
  | E : lift _ _ = (_, Ok _) |- _ => apply lift_Ok in E as [? ?]; subst
  | E : modify _ _ = (_, Ok _) |- _ => apply modify_Ok in E; subst
  | E : mret _ _ = (_, Ok _) |- _ => apply mret_Ok in E as [? ?]; subst
  | E : fail _ _ = (_, Ok _) |- _ => by apply fail_Ok in E
  | E : (let '(_, _) := ?x in _) = _ |- _ => destruct x
  end.
Ltac dec_inv := repeat dec_step; cbn [active_transaction with_active with_maps with_position with_checksum with_rotate d_config current_position] in *; simplify_eq.

(** ** One event *)
Definition output_rows (o : DecodedBinlogEvent) : Z := match o with Rows r => Z.of_nat (length (changes r)) | _ => 0 end.
(** Outputs within a transaction. *)
Definition inside_output (m : MySqlTransactionMarker) (o : DecodedBinlogEvent) : Prop :=
  match o with
  | TableMapped _ => True
  | Rows r => r_transaction r = m
  | Ignored _ _ inside => inside = true
  | _ => False
  end.
Definition outside_output (o : DecodedBinlogEvent) : Prop :=
  match o with Ignored _ _ inside => inside = false | BinlogRotated _ _ => True | _ => False end.
Definition commit_of (o : DecodedBinlogEvent) : option CommittedTransaction :=
  match o with TransactionCommitted c | TableCreated _ c => Some c | _ => None end.

Inductive Step (d : MySqlBinlogDecoder) (e : Event) (d' : MySqlBinlogDecoder) : DecodedBinlogEvent → Prop :=
| step_start m begun :
    active_transaction d = None →
    active_transaction d' = Some {| marker := m; event_count := 1; decoded_rows := 0; encoded_bytes := event_size e; saw_begin_query := begun |} →
    begin_position m = current_position d →
    Step d e d' (TransactionStarted m)
| step_inside a a' o :
    active_transaction d = Some a → active_transaction d' = Some a' → inside_output (marker a) o →
    marker a' = marker a → event_count a' = event_count a + 1 → encoded_bytes a' = encoded_bytes a + event_size e →
    decoded_rows a' = decoded_rows a + output_rows o →
    event_count a' ≤ max_events (d_config d) → encoded_bytes a' ≤ max_transaction_bytes (d_config d) →
    (0 < output_rows o → decoded_rows a' ≤ max_events (d_config d)) →
    Step d e d' o
| step_outside o : active_transaction d = None → active_transaction d' = None → outside_output o → Step d e d' o
| step_commit a c o :
    active_transaction d = Some a → active_transaction d' = None → commit_of o = Some c → transaction c = marker a →
    total_events c = event_count a + 1 → total_bytes c = encoded_bytes a + event_size e →
    total_events c ≤ max_events (d_config d) → total_bytes c ≤ max_transaction_bytes (d_config d) →
    next_position_of c = current_position d' →
    Step d e d' o
| step_rollback a next :
    active_transaction d = Some a → active_transaction d' = None → next = current_position d' →
    Step d e d' (TransactionRolledBack (marker a) next).

Lemma commit_Ok t e x d d' c :
  decode_commit t (event_size e) e x d = (d', Ok c) →
  (∀ o, commit_of o = Some c → Step d e d' o) ∧ d_config d' = d_config d ∧ next_position d t (log_pos e) = Ok (current_position d').
Proof.
  unfold decode_commit. intros E. dec_inv. split_and!; [|done|done]. intros o Ho.
  match goal with W : within_limits _ _ _ |- _ => destruct W end.
  eapply step_commit; cbn; try done; cbn; lia.
Qed.

(** The position moves forwards within a file; only a rotation changes the file. *)
Definition moves (d d' : MySqlBinlogDecoder) (o : DecodedBinlogEvent) : Prop :=
  match o with
  | BinlogRotated previous next => previous = current_position d ∧ next = current_position d'
  | _ => filename (current_position d') = filename (current_position d) ∧
         bp_position (current_position d) ≤ bp_position (current_position d')
  end.
Lemma next_position_Ok d t pos p :
  next_position d t pos = Ok p → filename p = filename (current_position d) ∧ bp_position (current_position d) ≤ bp_position p.
Proof.
  unfold next_position. case_bool_decide; [by intros [= <-]|]. case_bool_decide; [case_bool_decide; [by intros [= <-]|done]|].
  destruct (position_new _ _) as [q|] eqn:E; [|done]. intros [= <-]. unfold position_new in E.
  do 4 (apply bind_Ok in E as ([] & _ & E)). injection E as <-. split; [done|cbn; lia].
Qed.

Definition Effect (d : MySqlBinlogDecoder) (e : Event) (d' : MySqlBinlogDecoder) (o : DecodedBinlogEvent) : Prop :=
  Step d e d' o ∧ d_config d' = d_config d ∧ moves d d' o.

Ltac use_position := match goal with
  | N : next_position _ _ _ = Ok _ |- _ => apply next_position_Ok in N; cbn in N
  end.
(** The counters after an event inside a transaction. *)
Ltac inside := match goal with W : within_limits _ _ _ |- _ => destruct W end;
  split; [eapply step_inside; cbn; try done; cbn; cbn [with_begin event_count encoded_bytes decoded_rows] in *; lia|split; [done|use_position; done]].

Lemma start_Ok t e identity begun d d' o :
  active_transaction d = None → start_transaction t (event_size e) e identity begun d = (d', Ok o) → Effect d e d' o.
Proof.
  intros Ha. unfold start_transaction. intros E. dec_inv. split; [by eapply step_start|]. split; [done|]. by use_position.
Qed.

Lemma ignored_Ok t e d d' o : decode_ignored t (event_size e) e d = (d', Ok o) → Effect d e d' o.
Proof.
  unfold decode_ignored. intros E. apply dec_bind_Ok in E as (d1 & d2 & [-> ->]%this_Ok & E).
  destruct (active_transaction d) as [a|] eqn:Ha; cbn [some] in E.
  - dec_inv. inside.
  - dec_inv. split; [by apply step_outside|]. split; [done|]. by use_position.
Qed.

Lemma begin_Ok t e d d' o : decode_begin t (event_size e) e d = (d', Ok o) → Effect d e d' o.
Proof.
  unfold decode_begin. intros E. apply dec_bind_Ok in E as (d1 & d2 & [-> ->]%this_Ok & E).
  destruct (active_transaction d) as [a|] eqn:Ha; [|by eapply start_Ok]. dec_inv. inside.
Qed.

Lemma rollback_Ok t e d d' o : decode_rollback t (event_size e) e d = (d', Ok o) → Effect d e d' o.
Proof.
  unfold decode_rollback. intros E. dec_inv. split; [by eapply step_rollback|]. split; [done|]. by use_position.
Qed.

Lemma commit_effect t e x d d' c o :
  decode_commit t (event_size e) e x d = (d', Ok c) → commit_of o = Some c → Effect d e d' o.
Proof.
  intros C Ho. destruct (commit_Ok _ _ _ _ _ _ C) as (St & Hc & N). split; [by apply St|]. split; [done|]. use_position.
  by destruct o.
Qed.

Lemma query_Ok t e schema query d d' o : decode_query t (event_size e) e schema query d = (d', Ok o) → Effect d e d' o.
Proof.
  unfold decode_query. cbn zeta. destruct (eq_ignore_ascii_case _ _); [apply begin_Ok|].
  destruct (eq_ignore_ascii_case _ _).
  { intros E. apply dec_bind_Ok in E as (d1 & c & C & [-> ->]%mret_Ok). by eapply commit_effect. }
  destruct (eq_ignore_ascii_case _ _); [apply rollback_Ok|].
  intros E. apply dec_bind_Ok in E as (d1 & d2 & [-> ->]%this_Ok & E). destruct (table_selection d ≫= _); [by apply fail_Ok in E|].
  destruct (created_table _ _); [|by apply fail_Ok in E].
  apply dec_bind_Ok in E as (d1 & c & C & [-> ->]%mret_Ok). by eapply commit_effect.
Qed.

Lemma table_map_Ok t e tm d d' o : decode_table_map t (event_size e) e tm d = (d', Ok o) → Effect d e d' o.
Proof.
  unfold decode_table_map. intros E. dec_inv. match goal with |- Effect _ _ _ (match ?i with _ => _ end) => destruct i end; inside.
Qed.

Lemma rotate_Ok t e n p d d' o : decode_rotate t e n p d = (d', Ok o) → Effect d e d' o.
Proof.
  unfold decode_rotate. intros E. apply dec_bind_Ok in E as (d1 & d2 & [-> ->]%this_Ok & E).
  destruct (active_transaction d) as [a|] eqn:Ha; [by apply fail_Ok in E|]. destruct (is_artificial_rotate t e && _).
  - dec_inv. split; [by apply step_outside|]. by split.
  - dec_inv. destruct (is_artificial_rotate t e); (split; [by apply step_outside|]; by split).
Qed.

Lemma decode_rows_count c op r previously entries out out' :
  for_each (decode_row c op r previously) entries out = Ok out' →
  out' = out ∨ previously + Z.of_nat (length out') ≤ max_events c.
Proof.
  revert out. induction entries as [|[i row] entries IH]; intros out E; cbn [for_each] in E; [injection E as ->; by left|].
  apply bind_Ok in E as (out1 & Er & E). right. unfold decode_row in Er. destruct row as [[b a]|]; [|done].
  apply bind_Ok in Er as ([] & _ & Er). apply bind_Ok in Er as (n & Hn & Er). apply bind_Ok in Er as ([] & Hm%ensure_Ok%bool_decide_eq_true & Er).
  do 2 (apply bind_Ok in Er as (? & _ & Er)). apply bind_Ok in Er as ([] & _ & [= <-]).
  destruct (checked_add u64_max previously _) as [k|] eqn:Ek; [|done]. cbn in Hn. destruct (checked_add u64_max k 1) as [k'|] eqn:Ek'; [|done].
  injection Hn as ->. apply checked_add_Some in Ek as [-> _], Ek' as [-> _].
  destruct (IH _ E) as [->|?]; [|done]. rewrite length_app. cbn. lia.
Qed.

(** The transaction's counters and the table of a rows event. *)
Lemma rows_Ok t e r d d' o : decode_rows t (event_size e) e r d = (d', Ok o) → Effect d e d' o.
Proof.
  unfold decode_rows. intros E. apply dec_bind_Ok in E as (d1 & u1 & R & E). apply require_transaction_Ok in R as [-> _].
  apply dec_bind_Ok in E as (d1 & u2 & C & E). apply check_limits_Ok in C as (-> & a & Ha & W).
  apply dec_bind_Ok in E as (d1 & u3 & K & E).
  assert (d1 = d) as -> by (destruct (rows_kind r); try (by apply mret_Ok in K as [-> _]); by apply fail_Ok in K). clear K.
  apply dec_bind_Ok in E as (d1 & d2 & [-> ->]%this_Ok & E). apply dec_bind_Ok in E as (d1 & tm & [-> Htm]%lift_Ok & E).
  apply dec_bind_Ok in E as (d1 & u4 & [-> _]%lift_Ok & E). destruct (table_is_selected d tm); cbn [negb] in E.
  - dec_inv. repeat match goal with x : (_ * _)%type |- _ => destruct x end. dec_inv.
    match goal with L : for_each _ _ [] = Ok ?out |- _ => apply decode_rows_count in L end.
    match goal with C : ok_or (checked_add _ _ _) _ = Ok _ |- _ =>
      destruct (checked_add _ _ _) eqn:Et; [injection C as ->; apply checked_add_Some in Et as [-> _]|discriminate C] end.
    destruct W. split; [|split; [done|use_position; done]].
    eapply step_inside; cbn; try done; cbn [with_usage with_rows event_count encoded_bytes decoded_rows] in *; try lia.
    intros Hpos. match goal with L : _ = [] ∨ _ |- _ => destruct L as [->|]; [cbn in Hpos; lia|done] end.
  - dec_inv. inside.
Qed.

Lemma decode_Effect e d d' o : decode e d = (d', Ok o) → Effect d e d' o ∧ event_size e ≤ max_transaction_bytes (d_config d).
Proof.
  unfold decode. destruct (verify (d_checksum d) e) as [v r]. destruct r; [|intros [= _ [=]]].
  destruct (event_type e) as [t|]; [|intros [= _ [=]]]. case_bool_decide; [intros [= _ [=]]|]. case_bool_decide as Hsize; [intros [= _ [=]]|].
  destruct (read_data e) as [[data|]|]; [|intros [= _ [=]]..]. intros E.
  split; [|cbn in Hsize; lia]. clear Hsize.
  assert (Effect (with_checksum v d) e d' o) as Ef; [|destruct Ef as (St & ? & ?); split; [|done]; by destruct St; econstructor].
  unfold decode_data in E. apply dec_bind_Ok in E as (d1 & d2 & [-> ->]%this_Ok & E).
  destruct data; eauto using query_Ok, table_map_Ok, rows_Ok, rotate_Ok, ignored_Ok.
  - destruct (active_transaction _) eqn:Ha; cbn [some] in E; [by apply fail_Ok in E|]. by eapply start_Ok.
  - destruct (active_transaction _) eqn:Ha; cbn [some] in E; [by apply fail_Ok in E|]. by eapply start_Ok.
  - apply dec_bind_Ok in E as (d1 & c & C & [-> ->]%mret_Ok). by eapply commit_effect.
  - apply dec_bind_Ok in E as (d1 & ? & [-> Ha]%require_outside_Ok & E). apply dec_bind_Ok in E as (d1 & ? & ->%modify_Ok & E).
    apply ignored_Ok in E as (St & ? & ?). split; [|done]. by destruct St; econstructor.
  - apply dec_bind_Ok in E as (d1 & ? & [-> Ha]%require_outside_Ok & E). by apply ignored_Ok in E.
  - destruct (active_transaction _) eqn:Ha; cbn [some] in E; [by apply fail_Ok in E|]. by apply ignored_Ok in E.
  - by apply fail_Ok in E.
Qed.

(** ** Histories *)
Inductive accepted (d0 : MySqlBinlogDecoder) : list (Event * DecodedBinlogEvent) → MySqlBinlogDecoder → Prop :=
| accepted_nil : accepted d0 [] d0
| accepted_snoc h d e o d' : accepted d0 h d → decode e d = (d', Ok o) → accepted d0 (h ++ [(e, o)]) d'.

Definition size_of (x : Event * DecodedBinlogEvent) : Z := event_size x.1.
Definition rows_of (x : Event * DecodedBinlogEvent) : Z := output_rows x.2.
(** The history ends with the start of transaction [m] and what followed inside it. *)
Definition opened (h : list (Event * DecodedBinlogEvent)) (m : MySqlTransactionMarker) (events bytes rows : Z) : Prop :=
  ∃ pre e0 body, h = pre ++ (e0, TransactionStarted m) :: body ∧ Forall (λ x, inside_output m x.2) body ∧
    events = 1 + Z.of_nat (length body) ∧ bytes = event_size e0 + lsum size_of body ∧ rows = lsum rows_of body.

Record DecoderInv (d0 : MySqlBinlogDecoder) (h : list (Event * DecodedBinlogEvent)) (d : MySqlBinlogDecoder) : Prop := {
  inv_config : d_config d = d_config d0;
  inv_active a : active_transaction d = Some a → opened h (marker a) (event_count a) (encoded_bytes a) (decoded_rows a);
  inv_limits a : active_transaction d = Some a →
    event_count a ≤ max_events (d_config d) ∧ encoded_bytes a ≤ max_transaction_bytes (d_config d) ∧ decoded_rows a ≤ max_events (d_config d)
}.

Lemma opened_snoc h m n b r x :
  opened h m n b r → inside_output m x.2 → opened (h ++ [x]) m (n + 1) (b + size_of x) (r + rows_of x).
Proof.
  intros (pre & e0 & body & -> & Hin & -> & -> & ->) Hx. exists pre, e0, (body ++ [x]).
  rewrite <-app_assoc, !lsum_app, length_app. cbn. split_and!; [done|by apply Forall_app_2; [|apply Forall_singleton]|lia..].
Qed.

Lemma decoder_inv d0 h d :
  active_transaction d0 = None → 0 < max_events (d_config d0) → accepted d0 h d → DecoderInv d0 h d.
Proof.
  intros Ha Hmax Hacc. induction Hacc as [|h d e o d' _ IH Hd]; [split; [done|congruence|congruence]|].
  destruct IH as [Hc Hact Hlim]. destruct (decode_Effect _ _ _ _ Hd) as [(St & Hcfg & _) Hsz].
  destruct St as [m begun Hn Hs _|a a' o Hs Hs' Hin Hm Hev Hby Hrw L1 L2 L3|o Hn Hn' _|a c o _ Hn _ _ _ _ _ _ _|a next _ Hn _];
    (split; [congruence|intros b Hb|intros b Hb]; try congruence).
  - rewrite Hs in Hb. injection Hb as <-. cbn. exists h, e, []. split_and!; [done|constructor|done|cbn; lia|done].
  - rewrite Hs in Hb. injection Hb as <-. cbn. rewrite Hcfg, Hc in *. lia.
  - rewrite Hs' in Hb. injection Hb as <-. rewrite Hm, Hev, Hby, Hrw. apply (opened_snoc h _ _ _ _ (e, o)); [by apply Hact|done].
  - rewrite Hs' in Hb. injection Hb as <-. rewrite Hcfg in *. destruct (Hlim a Hs) as (_ & _ & ?). split_and!; [done..|].
    assert (0 ≤ output_rows o) by (destruct o; cbn; lia). destruct (decide (output_rows o = 0)) as [E0|]; [|by apply L3; lia]. lia.
Qed.

(** ** Checksums *)
Record ChecksumInv (h : list (Event * DecodedBinlogEvent)) (v : BinlogChecksumVerifier) : Prop := {
  fde_seen : crc32_format_description_seen v = false → Forall (λ x, event_type x.1 ≠ Some FORMAT_DESCRIPTION_EVENT) h;
  all_verified : bootstrap_rotate_seen v = false → Forall (λ x, verify_event_checksum x.1 = Ok tt) h;
  one_exception : Forall (λ x, verify_event_checksum x.1 = Ok tt) h ∨
    ∃ pre x post, h = pre ++ x :: post ∧ event_type x.1 = Some ROTATE_EVENT ∧ log_pos x.1 = 0 ∧
      Forall (λ x, verify_event_checksum x.1 = Ok tt) (pre ++ post) ∧ Forall (λ x, event_type x.1 ≠ Some FORMAT_DESCRIPTION_EVENT) pre
}.

Lemma checksum_snoc h v e o v' :
  ChecksumInv h v → verify v e = (v', Ok tt) → ChecksumInv (h ++ [(e, o)]) v'.
Proof.
  intros [Hf Ha Hx] V. unfold verify in V. destruct (event_type e) as [t|] eqn:Et; [|done].
  destruct (negb (crc32_format_description_seen v) && is_artificial_rotate t e) eqn:Ar.
  - apply andb_true_iff in Ar as [Hc%negb_true_iff Hr]. apply andb_true_iff in Hr as [Ht%bool_decide_eq_true Hp%bool_decide_eq_true]. subst t.
    destruct (bootstrap_rotate_seen v) eqn:Hb; [done|]. injection V as <- _. specialize (Ha eq_refl). specialize (Hf Hc).
    split; cbn; [|done|].
    + intros _. apply Forall_app_2; [done|]. apply Forall_singleton. cbn. by rewrite Et.
    + right. exists h, (e, o), []. rewrite app_nil_r. by split_and!.
  - assert (verify_event_checksum e = Ok tt ∧ v' = if bool_decide (t = FORMAT_DESCRIPTION_EVENT)
      then {| bootstrap_rotate_seen := bootstrap_rotate_seen v; crc32_format_description_seen := true |} else v) as [Hv ->].
    { unfold verify_event_checksum. destruct (checksum_alg e) as [[[]|]|]; try done. destruct (verify_crc32 e) as [[]|]; [|done]. by injection V as <-. }
    assert (∀ x, Forall (λ x, verify_event_checksum x.1 = Ok tt) h → x = (e, o) → Forall (λ x, verify_event_checksum x.1 = Ok tt) (h ++ [x])) as Snoc
      by (intros x Hh ->; apply Forall_app_2; [done|by apply Forall_singleton]).
    split.
    + case_bool_decide as Hfde; cbn; [done|]. intros Hc. apply Forall_app_2; [by apply Hf|]. apply Forall_singleton. cbn. rewrite Et. congruence.
    + intros Hb. apply Snoc; [|done]. apply Ha. by case_bool_decide.
    + destruct Hx as [Hx|(pre & x & post & -> & X1 & X2 & X3 & X4)]; [left; by apply Snoc|]. right.
      exists pre, x, (post ++ [(e, o)]). rewrite <-app_assoc. split_and!; [done..| |done]. rewrite app_assoc.
      apply Forall_app_2; [done|by apply Forall_singleton].
Qed.

(** Only [decode] itself touches the checksum state. *)
Definition keeps_checksum {A} (m : dec A) : Prop := ∀ d, d_checksum (m d).1 = d_checksum d.
Lemma keeps_bind {A B} (m : dec A) (f : A → dec B) : keeps_checksum m → (∀ a, keeps_checksum (f a)) → keeps_checksum (m ≫= f).
Proof. intros Hm Hf d. unfold mbind, dec_bind. specialize (Hm d). destruct (m d) as [d1 [a|e]]; [|done]. cbn in Hm. by rewrite Hf. Qed.
Lemma keeps_modify f : (∀ d, d_checksum (f d) = d_checksum d) → keeps_checksum (modify f).
Proof. intros Hf d. apply Hf. Qed.
Lemma keeps_usage t bytes : keeps_checksum (apply_transaction_usage t bytes).
Proof. intros d. unfold apply_transaction_usage. repeat case_match; done. Qed.
Ltac keeps := repeat first
  [ apply keeps_bind; [|intros ?] | apply keeps_usage | apply keeps_modify; intros ?; done | intros ?; done
  | match goal with |- context [match ?x with _ => _ end] => destruct x end
  | (intros ?; unfold require_transaction, require_outside_transaction, check_transaction_limits; repeat case_match; done) ].
Lemma keeps_ignored t bytes e : keeps_checksum (decode_ignored t bytes e).
Proof. unfold decode_ignored. keeps. Qed.
Lemma keeps_commit t bytes e x : keeps_checksum (decode_commit t bytes e x).
Proof. unfold decode_commit. keeps. Qed.
Lemma keeps_rows t bytes e r : keeps_checksum (decode_rows t bytes e r).
Proof. unfold decode_rows. keeps. Qed.
Lemma keeps_data t bytes e data : keeps_checksum (decode_data t bytes e data).
Proof.
  unfold decode_data, decode_query, decode_begin, decode_rollback, decode_table_map, decode_rotate, start_transaction.
  apply keeps_bind; [keeps|]. intros d. destruct data; repeat first [apply keeps_ignored|apply keeps_commit|apply keeps_rows|progress keeps].
Qed.

Lemma decode_verifies e d d' o : decode e d = (d', Ok o) → verify (d_checksum d) e = (d_checksum d', Ok tt).
Proof.
  unfold decode. destruct (verify (d_checksum d) e) as [v [[]|]]; [|intros [= _ [=]]].
  destruct (event_type e) as [t|]; [|intros [= _ [=]]]. case_bool_decide; [intros [= _ [=]]|]. case_bool_decide; [intros [= _ [=]]|].
  destruct (read_data e) as [[data|]|]; [|intros [= _ [=]]..]. intros E.
  pose proof (keeps_data t (event_size e) e data (with_checksum v d)) as K. rewrite E in K. cbn in K. by rewrite K.
Qed.
End decoding.

Lemma config_max_positive c : config_validate c = Ok tt → 0 < max_events c.
Proof. unfold config_validate. intros V. by apply bind_Ok in V as ([] & Hm%ensure_Ok%bool_decide_eq_true & _). Qed.

(** ** Properties *)

(** C19. A commit closes exactly one transaction: the history ends with its start and the events
    inside it, every row event of it carries its identity, the reported counts of events and
    bytes are exact, and they and the rows keep to the configured limits. *)
Theorem decoder_commit_exact `{BinlogTypes, SqlParser, RegexLib} d0 h d e o d' c :
  active_transaction d0 = None → config_validate (d_config d0) = Ok tt →
  accepted d0 h d → decode e d = (d', Ok o) → commit_of o = Some c →
  ∃ pre e0 body, h = pre ++ (e0, TransactionStarted (transaction c)) :: body ∧
    Forall (λ x, inside_output (transaction c) x.2) body ∧
    total_events c = Z.of_nat (length body) + 2 ∧ total_bytes c = event_size e0 + lsum size_of body + event_size e ∧
    total_events c ≤ max_events (d_config d0) ∧ total_bytes c ≤ max_transaction_bytes (d_config d0) ∧
    lsum rows_of body ≤ max_events (d_config d0) ∧
    active_transaction d' = None ∧ next_position_of c = current_position d'.
Proof.
  intros Ha Hv Hacc Hd Ho. destruct (decoder_inv d0 h d Ha (config_max_positive _ Hv) Hacc) as [Hc Hact Hlim]. destruct (decode_Effect _ _ _ _ Hd) as [(St & _ & _) _].
  destruct St as [m begun|a a' o Hs Hs' Hin|o Hn Hn' Hout|a c' o Hs Hn Hco Htr Hev Hby L1 L2 Hnext|a next]; try done; try by destruct o.
  rewrite Hco in Ho. injection Ho as ->. destruct (Hact a Hs) as (pre & e0 & body & -> & Hin & E1 & E2 & E3).
  destruct (Hlim a Hs) as (_ & _ & L3). rewrite Hc in L1, L2, L3. exists pre, e0, body. rewrite Htr. split_and!; try done; lia.
Qed.

(** C20. Inside a transaction the decoder never holds more events, bytes or rows than configured,
    and its counters are exactly those of the events since the transaction began. *)
Theorem decoder_bounds `{BinlogTypes, SqlParser, RegexLib} d0 h d a :
  active_transaction d0 = None → config_validate (d_config d0) = Ok tt → accepted d0 h d → active_transaction d = Some a →
  event_count a ≤ max_events (d_config d0) ∧ encoded_bytes a ≤ max_transaction_bytes (d_config d0) ∧
  decoded_rows a ≤ max_events (d_config d0) ∧ opened h (marker a) (event_count a) (encoded_bytes a) (decoded_rows a).
Proof.
  intros Ha Hv Hacc Hs. destruct (decoder_inv d0 h d Ha (config_max_positive _ Hv) Hacc) as [Hc Hact Hlim]. destruct (Hlim a Hs) as (L1 & L2 & L3). rewrite Hc in L1, L2, L3.
  split_and!; [done..|by apply Hact].
Qed.

(** Every event a fresh decoder accepts has a valid CRC32, except at most one: an artificial
    rotation that comes before any format description. *)
Theorem decoder_checksums `{BinlogTypes, SqlParser, RegexLib} d0 h d pre e o post :
  d_checksum d0 = default_verifier → accepted d0 h d → h = pre ++ (e, o) :: post →
  verify_event_checksum e ≠ Ok tt →
  event_type e = Some ROTATE_EVENT ∧ log_pos e = 0 ∧
  Forall (λ x, verify_event_checksum x.1 = Ok tt) (pre ++ post) ∧
  Forall (λ x, event_type x.1 ≠ Some FORMAT_DESCRIPTION_EVENT) pre.
Proof.
  intros Hv Hacc Hh Hbad. assert (ChecksumInv h (d_checksum d)) as [_ _ Hx].
  { clear Hh. induction Hacc as [|h d e' o' d' _ IH Hd]; [rewrite Hv; split; [constructor..|left; constructor]|].
    eapply checksum_snoc; [exact IH|by eapply decode_verifies]. }
  destruct Hx as [Hx|(pre' & x & post' & E & Ht & Hp & Hall & Hpre)].
  - subst h. apply Forall_app in Hx as [_ Hx]. by apply Forall_cons in Hx as [Hx _].
  - assert (pre' = pre ∧ x = (e, o) ∧ post' = post) as (-> & -> & ->); [|done]. rewrite Hh in E. clear Hh Hpre Hacc.
    revert pre E Hall. induction pre' as [|y pre' IH]; intros [|z pre] E Hall; cbn in E; simplify_eq; try done.
    + exfalso. cbn in Hall. apply Forall_app in Hall as [_ Hall]. by apply Forall_cons in Hall as [Hall _].
    + exfalso. cbn in Hall. by apply Forall_cons in Hall as [Hall _].
    + cbn in Hall. apply Forall_cons in Hall as [_ Hall]. destruct (IH pre) as (-> & -> & ->); done.
Qed.

(** ** Examples: a transaction of two events after a rotation *)
Module DecoderExample.
#[local] Instance types : BinlogTypes := {|
  ColumnType := unit; MYSQL_TYPE_ENUM := tt; MYSQL_TYPE_SET := tt; MYSQL_TYPE_GEOMETRY := tt; MYSQL_TYPE_VECTOR := tt;
  is_numeric_type _ := false; is_character_type _ := false; is_enum_or_set_type _ := false; GeometryType := unit; BinlogValue := unit |}.
#[local] Instance sql : SqlParser := {| parse_sql _ := None |}.
#[local] Existing Instance plain_regex.

Definition event (t : EventType) (pos : Z) (alg : option BinlogChecksumAlg) (data : EventData) : Event :=
  {| event_type := Some t; event_type_raw := 0; log_pos := pos; event_size := 40; timestamp := 0; header_server_id := 1;
     checksum_alg := Ok alg; checksum := Some [0; 0; 0; 0]; calc_checksum := 0; read_data := Ok (Some data) |}.
Definition crc := Some CHECKSUM_CRC32.
Definition start : MySqlBinlogPosition := {| filename := string_bytes "bin.1"; bp_position := 4 |}.
Definition d0 : MySqlBinlogDecoder := {| d_config := default_config; current_position := start; active_transaction := None; table_maps := ∅;
  d_checksum := default_verifier; allow_gtid_auto_position_rotate := false; selected_tables := None; table_selection := None |}.
Definition e_rotate := event ROTATE_EVENT 0 None (RotateEvent (string_bytes "bin.1") 4).
Definition e_gtid := event (OtherEvent 33) 44 crc (GtidEvent (sid example_sid) None 8).
Definition e_begin := event (OtherEvent 2) 84 crc (QueryEvent [] (string_bytes " begin ")).
Definition e_xid := event (OtherEvent 16) 124 crc (XidEvent 7).
Definition d1 := (decode e_rotate d0).1.
Definition d2 := (decode e_gtid d1).1.
Definition d3 := (decode e_begin d2).1.
Definition m : MySqlTransactionMarker := {| marker_identity := GtidIdentity (sid example_sid) None 8; begin_position := start |}.
Definition h := [(e_rotate, Ignored ROTATE_EVENT start false); (e_gtid, TransactionStarted m);
  (e_begin, Ignored (OtherEvent 2) {| filename := string_bytes "bin.1"; bp_position := 84 |} true)].
Definition committed : CommittedTransaction :=
  {| transaction := m; xid := Some 7; next_position_of := {| filename := string_bytes "bin.1"; bp_position := 124 |}; total_events := 3; total_bytes := 120 |}.

Lemma h_accepted : accepted d0 h d3.
Proof.
  apply (accepted_snoc d0 [_; _] d2); [apply (accepted_snoc d0 [_] d1); [apply (accepted_snoc d0 [] d0); [constructor|]|]|];
    vm_compute; reflexivity.
Qed.

Lemma decoder_commit_exact_witness :
  (decode e_xid d3).2 = Ok (TransactionCommitted committed) ∧
  ∃ pre e0 body, h = pre ++ (e0, TransactionStarted m) :: body ∧ Forall (λ x, inside_output m x.2) body.
Proof.
  split; [vm_compute; reflexivity|].
  destruct (decoder_commit_exact d0 h d3 e_xid (TransactionCommitted committed) (decode e_xid d3).1 committed) as (pre & e0 & body & Hh & Hin & _);
    [reflexivity|vm_compute; reflexivity|exact h_accepted|vm_compute; reflexivity|reflexivity|].
  exists pre, e0, body. split; [exact Hh|exact Hin].
Defined.

Lemma decoder_bounds_witness : ∃ a, active_transaction d3 = Some a ∧ event_count a = 2 ∧ event_count a ≤ 4096.
Proof.
  eexists. split; [vm_compute; reflexivity|]. split; [reflexivity|].
  apply (decoder_bounds d0 h d3); [reflexivity|vm_compute; reflexivity|exact h_accepted|vm_compute; reflexivity].
Defined.

Lemma decoder_checksums_witness : verify_event_checksum e_rotate = Err (Crc32Required None) ∧ event_type e_rotate = Some ROTATE_EVENT.
Proof.
  split; [reflexivity|].
  apply (decoder_checksums d0 h d3 [] e_rotate (Ignored ROTATE_EVENT start false) (drop 1 h)); [reflexivity|exact h_accepted|reflexivity|].
  vm_compute. discriminate.
Defined.
End DecoderExample.
