(* ===== verification/Semantics.v ===== *)
(** * Delivery semantics

    [transferia-delivery-contracts/src/semantics.rs]: which source and sink may form a
    pipeline, and which guarantee the delivery has.  A diagnostic keeps its code, its
    severity and the configuration paths it points to; its explanation and its remediation
    are texts for the reader.  The Arrow types a partition field may have are an
    interface. *)

From stdpp Require Import base tactics numbers option strings list.
From S2P Require Import Prelude Schema Arrow Delivery.

Inductive DeliveryType := Batch | Stream | BatchAndStream.

Record SourceDeliveryModes := { batch : bool; stream : bool; batch_and_stream : bool }.
Definition BATCH : SourceDeliveryModes := {| batch := true; stream := false; batch_and_stream := false |}.
Definition STREAM : SourceDeliveryModes := {| batch := false; stream := true; batch_and_stream := false |}.
Definition BATCH_AND_STREAM : SourceDeliveryModes := {| batch := true; stream := true; batch_and_stream := true |}.
Definition STREAM_AND_BATCH_AND_STREAM : SourceDeliveryModes := {| batch := false; stream := true; batch_and_stream := true |}.
Definition supports (m : SourceDeliveryModes) (t : DeliveryType) : bool :=
  match t with Batch => batch m | Stream => stream m | BatchAndStream => batch_and_stream m end.

Inductive SourceBehavior := AppendOnlyRows | FiniteAppendOnlyRows | ChangelogRows | SourceDiscard (* BenchmarkDiscard *).
#[export] Instance SourceBehavior_eq_dec : EqDecision SourceBehavior.
Proof. solve_decision. Defined.
Inductive RecordSemantics := AppendOnly | Changelog.
Inductive YTsaurusSinkMode := Static | Dynamic.
Record SourceDescriptor := { behavior : SourceBehavior; delivery_modes : SourceDeliveryModes }.
Record QueueSinkDescriptor := { changelog : bool }.
Inductive S3Partitioning := BySource | Fields (fields : list string) | RecordTime.
Record S3Descriptor := {
  partitioning : S3Partitioning; record_time_rotation : bool; wall_clock_rotation : bool; object_layout_version : Z
}.

Inductive EndpointDescriptor :=
| Logbroker (s : SourceDescriptor) | Kafka (s : SourceDescriptor) | MySql (s : SourceDescriptor) | Postgres (s : SourceDescriptor)
| YdbSource (s : SourceDescriptor) | YTsaurus (s : SourceDescriptor) | ClickHouseSource (s : SourceDescriptor)
| OpenSearchSource (s : SourceDescriptor) | S3Source (s : SourceDescriptor) | IcebergSource (s : SourceDescriptor)
| DataGenerator (s : SourceDescriptor)
| MySqlSink | PostgresSink | YdbSink | YTsaurusSink (m : YTsaurusSinkMode) | LogbrokerSink (q : QueueSinkDescriptor)
| KafkaSink (q : QueueSinkDescriptor) | ClickHouse | OpenSearchSink | S3 (s : S3Descriptor) | IcebergSink | Discard.

(** The descriptor of a source; the sinks have none. *)
Definition source_of (e : EndpointDescriptor) : option SourceDescriptor :=
  match e with
  | Logbroker s | Kafka s | MySql s | Postgres s | YdbSource s | YTsaurus s | ClickHouseSource s | OpenSearchSource s
  | S3Source s | IcebergSource s | DataGenerator s => Some s
  | MySqlSink | PostgresSink | YdbSink | YTsaurusSink _ | LogbrokerSink _ | KafkaSink _ | ClickHouse | OpenSearchSink
  | S3 _ | IcebergSink | Discard => None
  end.
Definition source_behavior (e : EndpointDescriptor) : option SourceBehavior := behavior <$> source_of e.
Definition supports_delivery_type (e : EndpointDescriptor) (t : DeliveryType) : bool :=
  match source_of e with Some s => supports (delivery_modes s) t | None => false end.
Definition record_semantics (e : EndpointDescriptor) : option RecordSemantics :=
  match source_behavior e with
  | Some (AppendOnlyRows | FiniteAppendOnlyRows) => Some AppendOnly
  | Some ChangelogRows => Some Changelog
  | Some SourceDiscard | None => None
  end.
Definition accepts_record_semantics (e : EndpointDescriptor) (semantics : RecordSemantics) : bool :=
  match semantics with
  | AppendOnly =>
      match e with
      | MySqlSink | PostgresSink | YdbSink | YTsaurusSink _ | LogbrokerSink _ | KafkaSink _ | ClickHouse | OpenSearchSink
      | S3 _ | IcebergSink | Discard => true
      | _ => false
      end
  | Changelog =>
      match e with
      | MySqlSink | PostgresSink | YdbSink | YTsaurusSink Dynamic | ClickHouse | IcebergSink | Discard => true
      | LogbrokerSink q | KafkaSink q => changelog q
      | _ => false
      end
  end.

(** ** Reports *)
Inductive DeliveryGuarantee := ExactlyOnce | AtLeastOnce | NoDurability.
Inductive DiagnosticSeverity := Error | Info.
#[export] Instance DiagnosticSeverity_eq_dec : EqDecision DiagnosticSeverity.
Proof. solve_decision. Defined.
Inductive DiagnosticCode :=
| UnsupportedPipeline | UnsupportedRecordSemantics | InvalidDeliveryDiscovery | MissingSystemColumn | SystemColumnsNotProduced
| UnknownPartitionField | NullablePartitionField | UnsupportedPartitionFieldType | WallClockRotationDisablesExactlyOnce
| DeterministicS3Commit | DeterministicIcebergReplica | ClickHouseAtLeastOnce | OpenSearchAtLeastOnce | MySqlAtLeastOnce
| PostgresAtLeastOnce | YdbAtLeastOnce | YTsaurusAtLeastOnce | IcebergAtLeastOnce | PqV1AtLeastOnce | KafkaAtLeastOnce
| BenchmarkDiscard | BenchmarkSourceDiscard.
Record SemanticsDiagnostic := { code : DiagnosticCode; severity : DiagnosticSeverity; config_paths : list string }.
Record DeliverySemanticsReport := { guarantee : DeliveryGuarantee; diagnostics : list SemanticsDiagnostic }.

Definition error (c : DiagnosticCode) (paths : list string) : SemanticsDiagnostic :=
  {| code := c; severity := Error; config_paths := paths |}.
Definition info (c : DiagnosticCode) (paths : list string) : SemanticsDiagnostic :=
  {| code := c; severity := Info; config_paths := paths |}.
Definition report (g : DeliveryGuarantee) (d : SemanticsDiagnostic) : DeliverySemanticsReport :=
  {| guarantee := g; diagnostics := [d] |}.

(** The codes of the errors, when there are any. *)
Definition ensure_valid (r : DeliverySemanticsReport) : result (list DiagnosticCode) unit :=
  let errors := code <$> filter (λ d, severity d = Error) (diagnostics r) in
  ensure (match errors with [] => true | _ => false end) errors.

Definition validate_record_semantics (source sink : EndpointDescriptor) : result RecordSemantics unit :=
  match record_semantics source with
  | Some semantics => ensure (accepts_record_semantics sink semantics) semantics
  | None => Ok tt
  end.

(** ** The checks of a pipeline *)
Class PartitionTypes `{ArrowTypes} := {
  LargeUtf8 : DataType; Boolean : DataType; Int8 : DataType; Int16 : DataType; Int32 : DataType; UInt8 : DataType;
  UInt16 : DataType; UInt32 : DataType; Date32 : DataType; Date64 : DataType;
  is_timestamp : DataType → bool
}.

Section semantics.
Context `{!ArrowTypes, !PartitionTypes}.

Definition supported_partition_type (t : DataType) : bool :=
  bool_decide (t ∈ [Utf8; LargeUtf8; Boolean; Int8; Int16; Int32; Int64; UInt8; UInt16; UInt32; UInt64; Date32; Date64]) ||
  is_timestamp t.

Definition has_system_column (kind : SystemColumnKind) (d : DiscoveredDataset) : bool :=
  existsb (λ c, bool_decide (dsc_kind c = kind)) (system_columns d).
Definition require_system_column (kind : SystemColumnKind) (d : DiscoveredDataset) : list SemanticsDiagnostic :=
  if has_system_column kind d then []
  else [error MissingSystemColumn ["source.logbroker.parser.common.system_columns"; "sink.s3"]].

Definition partition_paths : list string := ["sink.s3.partitioning.columns"; "source.logbroker.parser.json_parser.columns"].
Definition check_partition_field (field : string) (main : DiscoveredDataset) : list SemanticsDiagnostic :=
  match find (λ c, bool_decide (name c = field)) (incoming_schema main) with
  | None => [error UnknownPartitionField partition_paths]
  | Some c =>
      if nullable c then [error NullablePartitionField partition_paths]
      else if negb (supported_partition_type (data_type c)) then [error UnsupportedPartitionFieldType partition_paths]
      else []
  end.

Definition s3_mains (discovery : DeliveryDiscovery) : list DiscoveredDataset := filter (λ d, role d = Main) (datasets discovery).
Definition check_s3 (s : S3Descriptor) (discovery : DeliveryDiscovery) (keep : bool) : list SemanticsDiagnostic :=
  let mains := s3_mains discovery in
  (if match mains with [] => true | _ => false end then [error InvalidDeliveryDiscovery ["source.logbroker.parser"]] else []) ++
  ([Topic; Partition; Offset; MessageIndex] ≫= λ kind, mains ≫= require_system_column kind) ++
  (if keep && existsb (λ d, match system_columns d with [] => true | _ => false end) mains
   then [error SystemColumnsNotProduced ["source.logbroker.parser.common.system_columns"]] else []) ++
  (match partitioning s with
   | Fields fields => fields ≫= λ field, mains ≫= check_partition_field field
   | RecordTime => mains ≫= require_system_column WriteTimestampMs
   | BySource => []
   end) ++
  (if record_time_rotation s then mains ≫= require_system_column WriteTimestampMs else []).

Definition stream_source_path (field : string) : string := "source.logbroker." +:+ field.
Definition s3_guarantee (source : EndpointDescriptor) (s : S3Descriptor) : DeliveryGuarantee * SemanticsDiagnostic :=
  match source with
  | Logbroker _ =>
      if wall_clock_rotation s then (AtLeastOnce, info WallClockRotationDisablesExactlyOnce ["sink.s3.rotation.wall_clock_interval"])
      else (ExactlyOnce, info DeterministicS3Commit
        [stream_source_path "parser"; stream_source_path "topics"; stream_source_path "consumer_name"; "middlewares";
         "sink.s3.bucket"; "sink.s3.host"; "sink.s3.port"; "sink.s3.region"; "sink.s3.prefix"; "sink.s3.object_layout_version";
         "sink.s3.partitioning"; "sink.s3.rotation"; "sink.s3.buffering.max_epoch_buffers"; "sink.s3.buffering.max_epoch_bytes"])
  | _ => (AtLeastOnce, info DeterministicS3Commit ["source"; "sink.s3"])
  end.

Definition replicates (source : EndpointDescriptor) : bool :=
  match source with MySql s | Postgres s => bool_decide (behavior s = ChangelogRows) | _ => false end.

(** The report of a sink for a source whose records it accepts. *)
Definition sink_report (source sink : EndpointDescriptor) (discovery : DeliveryDiscovery) (keep : bool) : DeliverySemanticsReport :=
  match sink with
  | ClickHouse => report AtLeastOnce (info ClickHouseAtLeastOnce ["sink.clickhouse"])
  | OpenSearchSink => report AtLeastOnce (info OpenSearchAtLeastOnce ["sink.opensearch"])
  | PostgresSink => report AtLeastOnce (info PostgresAtLeastOnce ["sink.postgres"])
  | MySqlSink => report AtLeastOnce (info MySqlAtLeastOnce ["sink.mysql"])
  | YdbSink => report AtLeastOnce (info YdbAtLeastOnce ["sink.ydb"])
  | YTsaurusSink _ => report AtLeastOnce (info YTsaurusAtLeastOnce ["sink.ytsaurus"])
  | IcebergSink =>
      if replicates source then report ExactlyOnce (info DeterministicIcebergReplica ["source"; "sink.iceberg"])
      else report AtLeastOnce (info IcebergAtLeastOnce ["sink.iceberg"])
  | LogbrokerSink _ => report AtLeastOnce (info PqV1AtLeastOnce ["sink.logbroker"])
  | KafkaSink _ => report AtLeastOnce (info KafkaAtLeastOnce ["sink.kafka"])
  | S3 s =>
      let '(g, d) := s3_guarantee source s in
      {| guarantee := g; diagnostics := check_s3 s discovery keep ++ [d] |}
  | _ => report AtLeastOnce (error UnsupportedPipeline ["source"; "sink"])
  end.
Definition is_discard (sink : EndpointDescriptor) : bool := match sink with Discard => true | _ => false end.
Definition validate_pipeline (source sink : EndpointDescriptor) (discovery : DeliveryDiscovery) (keep : bool)
    : DeliverySemanticsReport :=
  let discards := bool_decide (source_behavior source = Some SourceDiscard) in
  if is_discard sink then
    report NoDurability (info BenchmarkDiscard
      (if discards then ["source.parser.benchmark_discard"; "sink.discard"] else ["sink.discard"]))
  else if discards then report NoDurability (error BenchmarkSourceDiscard ["source"; "sink"])
  else match validate_record_semantics source sink with
  | Err _ => report NoDurability (error UnsupportedRecordSemantics ["source"; "sink"])
  | Ok _ => sink_report source sink discovery keep
  end.
End semantics.

(** ** What a valid report means *)
Section properties.
Context `{!ArrowTypes, !PartitionTypes}.

(** What the S3 sink needs of the datasets. *)
Record s3_ready (s : S3Descriptor) (discovery : DeliveryDiscovery) : Prop := {
  ready_mains : s3_mains discovery ≠ [];
  ready_position kind m : kind ∈ [Topic; Partition; Offset; MessageIndex] → m ∈ s3_mains discovery → has_system_column kind m = true;
  ready_time m : partitioning s = RecordTime ∨ record_time_rotation s = true → m ∈ s3_mains discovery →
    has_system_column WriteTimestampMs m = true;
  ready_fields fields field m : partitioning s = Fields fields → field ∈ fields → m ∈ s3_mains discovery →
    ∃ c, find (λ c, bool_decide (name c = field)) (incoming_schema m) = Some c ∧ nullable c = false ∧
      supported_partition_type (data_type c) = true
}.

(** A list of diagnostics without errors. *)
Definition clean (l : list SemanticsDiagnostic) : Prop := Forall (λ d, severity d ≠ Error) l.

Lemma ensure_valid_clean r : ensure_valid r = Ok tt ↔ clean (diagnostics r).
Proof.
  unfold ensure_valid, clean. induction (diagnostics r) as [|d l IH]; [done|]. destruct (decide (severity d = Error)) as [E|E].
  - rewrite filter_cons_True by done. cbn. rewrite Forall_cons. naive_solver.
  - rewrite filter_cons_False, Forall_cons by done. naive_solver.
Qed.
Lemma clean_app l k : clean (l ++ k) ↔ clean l ∧ clean k.
Proof. apply Forall_app. Qed.
Lemma clean_bind {A} (f : A → list SemanticsDiagnostic) l : clean (l ≫= f) ↔ ∀ x, x ∈ l → clean (f x).
Proof. unfold clean. rewrite Forall_forall. setoid_rewrite list_elem_of_bind. setoid_rewrite Forall_forall. naive_solver. Qed.
Lemma clean_error (b : bool) c paths : clean (if b then [error c paths] else []) ↔ b = false.
Proof. unfold clean. destruct b; cbn; rewrite ?Forall_singleton, ?Forall_nil; cbn; naive_solver. Qed.
Lemma clean_require kind m : clean (require_system_column kind m) ↔ has_system_column kind m = true.
Proof. unfold require_system_column, clean. destruct (has_system_column kind m); [done|]. rewrite Forall_singleton. by split. Qed.
Lemma clean_field field m :
  clean (check_partition_field field m) ↔
  ∃ c, find (λ c, bool_decide (name c = field)) (incoming_schema m) = Some c ∧ nullable c = false ∧
    supported_partition_type (data_type c) = true.
Proof.
  unfold check_partition_field, clean. destruct (find _ _) as [c|]; [|rewrite Forall_singleton; cbn; naive_solver].
  destruct (nullable c) eqn:En.
  { rewrite Forall_singleton. split; [by intros []|intros (c' & [= <-] & ? & _); congruence]. }
  destruct (supported_partition_type (data_type c)) eqn:Es; cbn [negb].
  - split; [intros _; by exists c|intros _; constructor].
  - rewrite Forall_singleton. split; [by intros []|intros (c' & [= <-] & _ & ?); congruence].
Qed.

Lemma check_s3_clean s discovery keep : clean (check_s3 s discovery keep) ↔ s3_ready s discovery.
Proof.
  unfold check_s3. rewrite !clean_app. split.
  - intros (Hm & Hp & _ & Hf & Ht). apply clean_error in Hm. rewrite clean_bind in Hp. split.
    + by destruct (s3_mains discovery).
    + intros kind m Hk Hin. specialize (Hp kind Hk). rewrite clean_bind in Hp. by apply clean_require, Hp.
    + intros m Hor Hin. apply clean_require. destruct Hor as [E|E]; rewrite E in *; [rewrite clean_bind in Hf|rewrite clean_bind in Ht]; auto.
    + intros fields field m E Hfi Hin. rewrite E in Hf. rewrite clean_bind in Hf. specialize (Hf field Hfi). rewrite clean_bind in Hf.
      by apply clean_field, Hf.
  - intros [Hm Hp Ht Hf]. split_and!.
    + apply clean_error. by destruct (s3_mains discovery).
    + apply clean_bind. intros kind Hk. apply clean_bind. intros m Hin. by apply clean_require, Hp.
    + apply clean_error. destruct keep; [|done]. cbn [andb]. apply not_true_iff_false. intros (m & Hin & E)%existsb_exists.
      assert (has_system_column Topic m = true) as Hs by (apply Hp; [by left|by apply list_elem_of_In]).
      unfold has_system_column in Hs. by destruct (system_columns m).
    + destruct (partitioning s) as [|fields|] eqn:E; [constructor|..]; apply clean_bind.
      * intros field Hfi. apply clean_bind. intros m Hin. apply clean_field. by eapply Hf.
      * intros m Hin. apply clean_require, Ht; [by left|done].
    + destruct (record_time_rotation s) eqn:E; [|constructor]. apply clean_bind. intros m Hin. apply clean_require, Ht; [by right|done].
Qed.

(** A sink, as opposed to a source. *)
Definition is_sink (e : EndpointDescriptor) : bool := negb (bool_decide (is_Some (source_of e))).

Lemma validate_record_semantics_Ok source sink :
  validate_record_semantics source sink = Ok tt ↔ ∀ s, record_semantics source = Some s → accepts_record_semantics sink s = true.
Proof.
  unfold validate_record_semantics. destruct (record_semantics source) as [s|]; [|naive_solver].
  destruct (accepts_record_semantics sink s) eqn:E; cbn; split; [by intros _ ? [= <-]|done|done|intros Hs; specialize (Hs s eq_refl); congruence].
Qed.
Lemma s3_guarantee_info source s : severity (s3_guarantee source s).2 = Info.
Proof. destruct source; cbn; try done. by destruct (wall_clock_rotation s). Qed.
Lemma clean_one_error c paths : clean [error c paths] ↔ False.
Proof. unfold clean. rewrite Forall_singleton. cbn. naive_solver. Qed.
Lemma sink_report_clean source sink discovery keep :
  sink ≠ Discard →
  clean (diagnostics (sink_report source sink discovery keep)) ↔ is_sink sink = true ∧ ∀ s, sink = S3 s → s3_ready s discovery.
Proof.
  intros Hd. assert (∀ c paths, clean [info c paths]) as Hi by (intros; by constructor).
  destruct sink; cbn [sink_report report diagnostics]; try done; try (rewrite clean_one_error; naive_solver).
  - pose proof (s3_guarantee_info source s) as Hg. destruct (s3_guarantee source s) as [g d]. cbn in Hg |- *.
    rewrite clean_app, check_s3_clean. unfold clean at 1. rewrite Forall_singleton, Hg. naive_solver.
  - split; [done|intros _; destruct (replicates source); apply Hi].
Qed.
Lemma sink_report_durable source sink discovery keep : guarantee (sink_report source sink discovery keep) ≠ NoDurability.
Proof. destruct sink; cbn; try done; [|by destruct (replicates source)]. destruct source; cbn; try done. by destruct (wall_clock_rotation s). Qed.
Lemma sink_report_exact source sink discovery keep :
  guarantee (sink_report source sink discovery keep) = ExactlyOnce ↔
  sink = IcebergSink ∧ replicates source = true ∨ ∃ s d, sink = S3 s ∧ source = Logbroker d ∧ wall_clock_rotation s = false.
Proof.
  destruct sink; cbn; try (split; [done|intros [[? _]|(? & ? & ? & _)]; done]).
  - split.
    + destruct source; cbn; try done. destruct (wall_clock_rotation s) eqn:E; [done|]. intros _. right. by exists s, s0.
    + intros [[? _]|(s' & d & [= <-] & -> & E)]; [done|]. cbn. by rewrite E.
  - split; [destruct (replicates source); [by left|done]|]. intros [[_ ->]|(? & ? & ? & _)]; done.
Qed.
End properties.

(** C25. A pipeline is accepted exactly when its sink is the benchmark's, or its source
    produces rows whose updates the sink can apply, the sink is one, and the datasets have
    the columns that an S3 sink needs; keeping the system columns never matters.  An accepted
    pipeline is exactly-once in exactly two cases, a replica of MySQL or PostgreSQL changes
    in Iceberg and S3 objects from Logbroker without wall-clock rotation, and without
    durability only with the benchmark's sink. *)
Theorem pipeline_semantics_exact `{!ArrowTypes, !PartitionTypes} source sink discovery keep :
  let r := validate_pipeline source sink discovery keep in
  (ensure_valid r = Ok tt ↔
    sink = Discard ∨
    source_behavior source ≠ Some SourceDiscard ∧ is_sink sink = true ∧
    (∀ s, record_semantics source = Some s → accepts_record_semantics sink s = true) ∧
    (∀ s, sink = S3 s → s3_ready s discovery)) ∧
  (ensure_valid r = Ok tt →
    (guarantee r = NoDurability ↔ sink = Discard) ∧
    (guarantee r = ExactlyOnce ↔
      sink = IcebergSink ∧ replicates source = true ∨
      ∃ s d, sink = S3 s ∧ source = Logbroker d ∧ wall_clock_rotation s = false)).
Proof.
  cbn zeta. rewrite ensure_valid_clean. unfold validate_pipeline.
  destruct (is_discard sink) eqn:Hd.
  { destruct sink; try done. cbn. split; [split; [by left|intros _; by constructor]|]. intros _. split; [done|].
    split; [done|intros [[? _]|(? & ? & ? & _)]; done]. }
  assert (sink ≠ Discard) as Hne by (by intros ->).
  case_bool_decide as Hs.
  { cbn. rewrite clean_one_error. split; [|done]. split; [done|]. by intros [?|[? _]]. }
  pose proof (validate_record_semantics_Ok source sink) as Hv. destruct (validate_record_semantics source sink) as [[]|e].
  2: { cbn. rewrite clean_one_error. split; [|done]. split; [done|]. intros [?|(_ & _ & Hr & _)]; [done|]. by apply Hv in Hr. }
  rewrite sink_report_clean by done. split.
  - split; [intros [? ?]; right; split_and!; [done..|by apply Hv|done]|intros [?|(_ & ? & _ & ?)]; done].
  - intros _. split; [|by apply sink_report_exact]. split; [|done]. intros E. by destruct (sink_report_durable source sink discovery keep).
Qed.

(** ** Examples *)
Module SemanticsExample.
#[local] Existing Instance example_arrow.
#[local] Instance types : PartitionTypes :=
  {| LargeUtf8 := ExUtf8; Boolean := ExBoolean; Int8 := ExInt64; Int16 := ExInt64; Int32 := ExInt64; UInt8 := ExUInt64;
     UInt16 := ExUInt64; UInt32 := ExUInt64; Date32 := ExInt64; Date64 := ExInt64; is_timestamp _ := false |}.
Definition rows (b : SourceBehavior) : SourceDescriptor := {| behavior := b; delivery_modes := STREAM |}.
Definition objects (p : S3Partitioning) (wall_clock : bool) : S3Descriptor :=
  {| partitioning := p; record_time_rotation := false; wall_clock_rotation := wall_clock; object_layout_version := 1 |}.
Definition discovered : DeliveryDiscovery :=
  {| source_name := "lb"; source_topology := DynamicWorkerLanes; schema_origin := SourceNative; keep_system_columns := true;
     datasets := [{| namespace := None; update_policy := Strict; role := Main; ds_name := "events";
                     incoming_schema := [SchemaColumn_new "region" Utf8 false; SchemaColumn_new "payload" Binary true];
                     stored_schema := []; system_columns := discovered_system_column <$> [Topic; Partition; Offset; MessageIndex] |}];
     performance_advice := [] |}.

Example logbroker_to_s3 :
  guarantee (validate_pipeline (Logbroker (rows AppendOnlyRows)) (S3 (objects (Fields ["region"]) false)) discovered true) = ExactlyOnce ∧
  ensure_valid (validate_pipeline (Logbroker (rows AppendOnlyRows)) (S3 (objects (Fields ["region"]) false)) discovered true) = Ok tt ∧
  ensure_valid (validate_pipeline (Logbroker (rows AppendOnlyRows)) (S3 (objects (Fields ["payload"; "day"]) false)) discovered true)
    = Err [NullablePartitionField; UnknownPartitionField] ∧
  ensure_valid (validate_pipeline (MySql (rows ChangelogRows)) (S3 (objects BySource false)) discovered false) = Err [UnsupportedRecordSemantics].
Proof. vm_compute. by split_and!. Qed.
End SemanticsExample.
