(* ===== verification/PgTables.v ===== *)
(** * PostgreSQL tables and their identity

    [src_stream/identity.rs], [src_stream/relation_identity.rs] and the parts of
    [src_stream/config.rs], [source/config.rs], [source/connector.rs] and [numeric.rs] of
    transferia-connector-postgres they use: the identity of a table that a delivery keeps,
    and the check that the table is still the one that was discovered.  The rows of the
    catalog query are an input. *)

From stdpp Require Import base tactics numbers option strings gmap list.
From S2P Require Import Prelude Bytes Text Schema.
Local Open Scope Z_scope.

(** ** Arrow types the connector names *)
Inductive TimeUnit := Second | Millisecond | Microsecond | Nanosecond.
Inductive PgDataType :=
| Boolean | Int8 | Int16 | Int32 | PgInt64 | UInt32 | PgUInt64 | Float32 | Float64 | PgBinary | PgUtf8 | Date32
| Decimal128 (precision scale : Z) | Timestamp (unit : TimeUnit) (timezone : option string) | OtherType (n : nat).
#[export] Instance TimeUnit_eq_dec : EqDecision TimeUnit.
Proof. solve_decision. Defined.
#[export] Instance PgDataType_eq_dec : EqDecision PgDataType.
Proof. solve_decision. Defined.
#[export] Instance pg_arrow : ArrowTypes.
Proof.
  refine {| DataType := PgDataType; DataType_eq_dec := PgDataType_eq_dec; Utf8 := PgUtf8; Int64 := PgInt64; UInt64 := PgUInt64;
            Binary := PgBinary |}.
  apply (bool_decide_unpack _). vm_compute. exact I.
Defined.

(** ** Configuration *)
Definition MAX_IDENTIFIER_BYTES : nat := 63.
Inductive PgError :=
| BadSlot | TypeOids (columns oids : nat) | UnsupportedArrowType (t : PgDataType) | UnboundedNumeric | NumericRange
| RowCount (rows expected : nat) | RepeatedTable (schema name : string) | OmittedTable (schema name : string)
| TableReplaced (schema name : string) | ReplicaIdentityChanged (schema name : string) | SchemaChanged (schema name : string)
| NameChanged (column : nat) | TypeChanged (column : nat) | NumericChanged (column : nat) | NullabilityChanged (column : nat)
| PrimaryKeyChanged (column : nat) | IndexOutOfBounds
| ExceedsPrecision | BadExponent | BadDigit | ScaleOverflow | EmptyCoefficient | Inexact | Overflow.

Definition slot_byte (b : Z) : bool := bool_decide (97 ≤ b ≤ 122) || bool_decide (48 ≤ b ≤ 57) || bool_decide (b = 95).
Definition replication_slot (delivery_id : string) : result PgError string :=
  ensure (negb (bool_decide (delivery_id = "")) && bool_decide (length (string_bytes delivery_id) ≤ MAX_IDENTIFIER_BYTES)%nat &&
          forallb slot_byte (string_bytes delivery_id)) BadSlot ≫= λ _,
  Ok delivery_id.

Inductive LogicalDecoder := Pgoutput (publication : string) | Wal2Json.
Definition plugin (d : LogicalDecoder) : string := match d with Pgoutput _ => "pgoutput" | Wal2Json => "wal2json" end.
Definition publication_of (d : LogicalDecoder) : option string := match d with Pgoutput p => Some p | Wal2Json => None end.

Record TableConfig := { config_schema : string; config_name : string }.
#[export] Instance TableConfig_eq_dec : EqDecision TableConfig.
Proof. solve_decision. Defined.
Record DiscoveredTable := {
  config : TableConfig; dt_schema : DatasetSchema; type_oids : list Z; replica_identity_full : bool; replica_identity : string;
  relation_oid : Z
}.

(** ** identity.rs *)
Record PostgresSystemIdentity := { sys_identifier : Z; sys_database : string }.
Record PostgresSourceIdentity := { system_identifier : Z; database : string; database_oid : Z }.
#[export] Instance PostgresSourceIdentity_eq_dec : EqDecision PostgresSourceIdentity.
Proof. solve_decision. Defined.
Definition system (s : PostgresSourceIdentity) : PostgresSystemIdentity :=
  {| sys_identifier := system_identifier s; sys_database := database s |}.

Inductive CanonicalArrowType :=
| CBoolean | CInt8 | CInt16 | CInt32 | CInt64 | CUInt32 | CFloat32 | CFloat64 | CBinary | CUtf8 | CDate32
| CDecimal128 (precision scale : Z) | TimestampMicrosecond (timezone : option string).
#[export] Instance CanonicalArrowType_eq_dec : EqDecision CanonicalArrowType.
Proof. solve_decision. Defined.
Definition from_data_type (t : PgDataType) : result PgError CanonicalArrowType :=
  match t with
  | Boolean => Ok CBoolean | Int8 => Ok CInt8 | Int16 => Ok CInt16 | Int32 => Ok CInt32 | PgInt64 => Ok CInt64
  | UInt32 => Ok CUInt32 | Float32 => Ok CFloat32 | Float64 => Ok CFloat64 | PgBinary => Ok CBinary | PgUtf8 => Ok CUtf8
  | Date32 => Ok CDate32 | Decimal128 p s => Ok (CDecimal128 p s) | Timestamp Microsecond tz => Ok (TimestampMicrosecond tz)
  | other => Err (UnsupportedArrowType other)
  end.

Record AuthoritativeColumnIdentity := {
  ac_name : string; postgres_type_oid : Z; arrow_type : CanonicalArrowType; ac_nullable : bool; ac_primary_key : bool;
  ac_low_cardinality : bool; ac_max_length : option Z; ac_extension_name : option string; ac_system_role : option string;
  ac_old_value_of : option string; ac_old_key_of : option string
}.
Record AuthoritativeTableIdentity := {
  at_schema : string; at_name : string; at_relation_oid : Z; at_columns : list AuthoritativeColumnIdentity; at_replica_identity : string
}.
#[export] Instance AuthoritativeColumnIdentity_eq_dec : EqDecision AuthoritativeColumnIdentity.
Proof. solve_decision. Defined.
#[export] Instance AuthoritativeTableIdentity_eq_dec : EqDecision AuthoritativeTableIdentity.
Proof. solve_decision. Defined.

Definition authoritative_column (entry : SchemaColumn * Z) : result PgError AuthoritativeColumnIdentity :=
  let '(c, oid) := entry in
  from_data_type (data_type c) ≫= λ t,
  Ok {| ac_name := name c; postgres_type_oid := oid; arrow_type := t; ac_nullable := nullable c; ac_primary_key := primary_key c;
        ac_low_cardinality := low_cardinality c; ac_max_length := max_length c; ac_extension_name := arrow_extension_name c;
        ac_system_role := system_role c; ac_old_value_of := old_value_of c; ac_old_key_of := old_key_of c |}.
Definition from_discovered (t : DiscoveredTable) : result PgError AuthoritativeTableIdentity :=
  ensure (bool_decide (length (dt_schema t) = length (type_oids t))) (TypeOids (length (dt_schema t)) (length (type_oids t))) ≫= λ _,
  mapM authoritative_column (zip (dt_schema t) (type_oids t)) ≫= λ columns,
  Ok {| at_schema := config_schema (config t); at_name := config_name (config t); at_relation_oid := relation_oid t;
        at_columns := columns; at_replica_identity := replica_identity t |}.
Definition authoritative_table_identities (tables : list DiscoveredTable) : result PgError (list AuthoritativeTableIdentity) :=
  mapM from_discovered tables.

(** ** numeric.rs *)
Definition validate_type (precision scale : Z) : result PgError unit :=
  ensure (bool_decide (1 ≤ precision ≤ 38) && bool_decide (scale ≤ precision)) NumericRange.
Definition numeric_data_type (typmod : Z) : result PgError PgDataType :=
  ensure (bool_decide (4 ≤ typmod)) UnboundedNumeric ≫= λ _,
  let modifier := typmod - 4 in
  let precision := Z.land (Z.shiftr modifier 16) 65535 in
  ensure (bool_decide (precision ≤ 255)) NumericRange ≫= λ _,
  let scale := Z.lxor (Z.land modifier 2047) 1024 - 1024 in
  ensure (bool_decide (-128 ≤ scale ≤ 127)) NumericRange ≫= λ _,
  validate_type precision scale ≫= λ _,
  Ok (Decimal128 precision scale).

(** ** relation_identity.rs *)
Record CurrentRelationIdentity := {
  c_schema : string; c_name : string; c_relation_oid : option Z; c_replica_identity : option string; column_names : list string;
  c_type_oids : list Z; c_nullable : list bool; c_primary_key : list bool; type_modifiers : list Z
}.
(** An indexing expression, which panics out of bounds. *)
Definition index {A} (l : list A) (i : nat) : result PgError A := ok_or (l !! i) IndexOutOfBounds.

Definition add_relation (by_name : gmap (string * string) CurrentRelationIdentity) (r : CurrentRelationIdentity)
    : result PgError (gmap (string * string) CurrentRelationIdentity) :=
  ensure (match by_name !! (c_schema r, c_name r) with None => true | Some _ => false end) (RepeatedTable (c_schema r) (c_name r)) ≫= λ _,
  Ok (<[(c_schema r, c_name r) := r]> by_name).
Definition check_column (current : CurrentRelationIdentity) (_ : unit) (entry : nat * (SchemaColumn * Z)) : result PgError unit :=
  let '(i, (column, expected_oid)) := entry in
  index (column_names current) i ≫= λ n, ensure (bool_decide (n = name column)) (NameChanged i) ≫= λ _,
  index (c_type_oids current) i ≫= λ o, ensure (bool_decide (o = expected_oid)) (TypeChanged i) ≫= λ _,
  (match data_type column with
   | Decimal128 _ _ =>
       index (type_modifiers current) i ≫= λ m, numeric_data_type m ≫= λ t, ensure (bool_decide (t = data_type column)) (NumericChanged i)
   | _ => Ok tt
   end) ≫= λ _,
  index (c_nullable current) i ≫= λ nl, ensure (Bool.eqb nl (nullable column)) (NullabilityChanged i) ≫= λ _,
  index (c_primary_key current) i ≫= λ pk, ensure (Bool.eqb pk (primary_key column)) (PrimaryKeyChanged i).
Definition check_table (by_name : gmap (string * string) CurrentRelationIdentity) (_ : unit) (t : DiscoveredTable) : result PgError unit :=
  let s := config_schema (config t) in
  let n := config_name (config t) in
  ok_or (by_name !! (s, n)) (OmittedTable s n) ≫= λ current,
  ensure (bool_decide (c_relation_oid current = Some (relation_oid t))) (TableReplaced s n) ≫= λ _,
  ensure (bool_decide (c_replica_identity current = Some (replica_identity t))) (ReplicaIdentityChanged s n) ≫= λ _,
  ensure (bool_decide (length (dt_schema t) = length (type_oids t))) (TypeOids (length (dt_schema t)) (length (type_oids t))) ≫= λ _,
  let expected_columns := length (dt_schema t) in
  ensure (bool_decide (length (column_names current) = expected_columns) && bool_decide (length (c_type_oids current) = expected_columns) &&
          bool_decide (length (c_nullable current) = expected_columns) && bool_decide (length (c_primary_key current) = expected_columns) &&
          bool_decide (length (type_modifiers current) = expected_columns)) (SchemaChanged s n) ≫= λ _,
  for_each (check_column current) (imap pair (zip (dt_schema t) (type_oids t))) tt.
Definition validate_relation_identity_contract (expected : list DiscoveredTable) (current : list CurrentRelationIdentity) : result PgError unit :=
  ensure (bool_decide (length current = length expected)) (RowCount (length current) (length expected)) ≫= λ _,
  for_each add_relation current ∅ ≫= λ by_name,
  for_each (check_table by_name) expected tt.

(** ** What the checks establish *)
Definition key_of (r : CurrentRelationIdentity) : string * string := (c_schema r, c_name r).
Definition is_decimal (t : PgDataType) : bool := match t with Decimal128 _ _ => true | _ => false end.

(** The catalog still describes the discovered table. *)
Record unchanged (t : DiscoveredTable) (r : CurrentRelationIdentity) : Prop := {
  unchanged_name : key_of r = (config_schema (config t), config_name (config t));
  unchanged_relation : c_relation_oid r = Some (relation_oid t);
  unchanged_replica : c_replica_identity r = Some (replica_identity t);
  unchanged_columns : column_names r = name <$> dt_schema t;
  unchanged_oids : c_type_oids r = type_oids t;
  unchanged_nullable : c_nullable r = nullable <$> dt_schema t;
  unchanged_key : c_primary_key r = primary_key <$> dt_schema t;
  unchanged_typed : length (dt_schema t) = length (type_oids t);
  unchanged_numeric : Forall2 (λ c m, is_decimal (data_type c) = true → numeric_data_type m = Ok (data_type c)) (dt_schema t) (type_modifiers r)
}.

Lemma index_Ok {A} (l : list A) i x : index l i = Ok x ↔ l !! i = Some x.
Proof. unfold index. destruct (l !! i); cbn; split; congruence. Qed.
Lemma index_in {A} (l : list A) i : (i < length l)%nat → ∃ x, l !! i = Some x ∧ index l i = Ok x.
Proof. intros [x E]%lookup_lt_is_Some. exists x. by rewrite index_Ok. Qed.

(** The relations are keyed by their names. *)
Lemma add_relations_Ok current by_name :
  for_each add_relation current ∅ = Ok by_name ↔
  NoDup (key_of <$> current) ∧ by_name = list_to_map (reverse ((λ r, (key_of r, r)) <$> current)).
Proof.
  induction current as [|r current IH] in by_name |- * using rev_ind; [cbn; split; [intros [= <-]; split; [constructor|done]|by intros [_ ->]]|].
  rewrite for_each_app, fmap_app, fmap_app, reverse_app, NoDup_app. cbn [fmap list_fmap]. rewrite bind_Ok.
  assert (∀ m, for_each add_relation [r] m = Ok by_name ↔ m !! key_of r = None ∧ by_name = <[key_of r := r]> m) as Step.
  { intros m. cbn [for_each]. unfold add_relation. fold (key_of r). destruct (m !! key_of r); cbn; split; intuition congruence. }
  assert (∀ k, list_to_map (M := gmap _ _) (reverse ((λ r, (key_of r, r)) <$> current)) !! k = None ↔ k ∉ key_of <$> current) as Fresh.
  { intros k. rewrite <-not_elem_of_list_to_map, fmap_reverse, elem_of_reverse, <-list_fmap_compose. done. }
  split.
  - intros (m & [Hnd ->]%IH & [Hm ->]%Step). rewrite Fresh in Hm. split; [split_and!; [done| |by apply NoDup_singleton]|done].
    intros k Hk ->%list_elem_of_singleton. done.
  - intros [(Hnd & Hd & _) ->]. eexists. split; [by apply IH|]. apply Step. rewrite Fresh. split; [|done]. intros Hin. by apply (Hd _ Hin), list_elem_of_singleton.
Qed.
Lemma by_name_lookup current k r :
  NoDup (key_of <$> current) →
  list_to_map (M := gmap _ _) (reverse ((λ r, (key_of r, r)) <$> current)) !! k = Some r ↔ r ∈ current ∧ key_of r = k.
Proof.
  intros Hnd. rewrite <-elem_of_list_to_map by (rewrite fmap_reverse, <-list_fmap_compose, reverse_Permutation; done).
  rewrite elem_of_reverse, list_elem_of_fmap. split; [by intros (? & [= -> ->] & ?)|intros [? <-]; eauto].
Qed.

(** One column of the loop, within the bounds the length checks establish. *)
Definition column_unchanged (r : CurrentRelationIdentity) (i : nat) (c : SchemaColumn) (oid : Z) : Prop :=
  column_names r !! i = Some (name c) ∧ c_type_oids r !! i = Some oid ∧ c_nullable r !! i = Some (nullable c) ∧
  c_primary_key r !! i = Some (primary_key c) ∧
  (is_decimal (data_type c) = true → ∃ m, type_modifiers r !! i = Some m ∧ numeric_data_type m = Ok (data_type c)).

Lemma index_ensure {A} (l : list A) i (p : A → bool) y e (k : result PgError unit) :
  (∀ x, p x = true ↔ x = y) → ((index l i ≫= λ x, ensure (p x) e ≫= λ _, k) = Ok tt ↔ l !! i = Some y ∧ k = Ok tt).
Proof.
  intros Hp. unfold index. destruct (l !! i) as [x|]; cbn [ok_or mbind result_bind]; [|by split; [|intros []]].
  destruct (p x) eqn:E; cbn; [apply Hp in E as ->; naive_solver|]. split; [done|]. intros [[= ->] _]. pose proof (proj2 (Hp y) eq_refl). congruence.
Qed.
Lemma check_column_Ok r i c oid : check_column r tt (i, (c, oid)) = Ok tt ↔ column_unchanged r i c oid.
Proof.
  unfold check_column, column_unchanged.
  rewrite (index_ensure _ _ _ (name c)), (index_ensure _ _ _ oid) by (intros; by rewrite bool_decide_eq_true).
  assert (∀ k : result PgError unit, (match data_type c with Decimal128 _ _ => index (type_modifiers r) i ≫= λ m, numeric_data_type m ≫= λ t,
      ensure (bool_decide (t = data_type c)) (NumericChanged i) | _ => Ok tt end ≫= λ _, k) = Ok tt ↔
    (is_decimal (data_type c) = true → ∃ m, type_modifiers r !! i = Some m ∧ numeric_data_type m = Ok (data_type c)) ∧ k = Ok tt) as ->.
  { intros k. rewrite bind_Ok. destruct (data_type c) eqn:D; cbn [is_decimal]; try by naive_solver. split.
    - intros ([] & (m & Em%index_Ok & (t & Et & Hb%ensure_Ok)%bind_Ok)%bind_Ok & Ek). apply bool_decide_eq_true in Hb as ->. eauto.
    - intros [Hd Ek]. destruct (Hd eq_refl) as (m & Em%index_Ok & Et). exists tt. split; [|done]. rewrite Em. cbn [mbind result_bind].
      rewrite Et. cbn [mbind result_bind]. by rewrite bool_decide_true. }
  rewrite (index_ensure _ _ _ (nullable c)) by (intros; apply eqb_true_iff).
  pose proof (index_ensure (c_primary_key r) i (λ b, Bool.eqb b (primary_key c)) (primary_key c) (PrimaryKeyChanged i) (Ok tt)) as Pk.
  specialize (Pk (λ x, eqb_true_iff _ _)).
  assert ((index (c_primary_key r) i ≫= λ pk, ensure (Bool.eqb pk (primary_key c)) (PrimaryKeyChanged i)) = Ok tt ↔
    c_primary_key r !! i = Some (primary_key c)) as ->.
  { transitivity (c_primary_key r !! i = Some (primary_key c) ∧ Ok (E := PgError) tt = Ok tt); [|naive_solver]. rewrite <-Pk.
    destruct (index _ _) as [b|]; cbn; [|done]. by destruct (Bool.eqb b _). }
  tauto.
Qed.

(** The bounds of the loop exclude a panic. *)
Lemma bind_avoids {A B} x (m : result PgError A) (f : A → result PgError B) :
  m ≠ Err x → (∀ a, m = Ok a → f a ≠ Err x) → (m ≫= f) ≠ Err x.
Proof. destruct m; cbn; [intros _ H; by apply H|congruence]. Qed.
Lemma ensure_avoids (x : PgError) b e : e ≠ x → ensure b e ≠ Err x.
Proof. destruct b; cbn; congruence. Qed.
Lemma index_no_panic {A} (l : list A) i : (i < length l)%nat → index l i ≠ Err IndexOutOfBounds.
Proof. intros (x & _ & E)%index_in. congruence. Qed.
Ltac no_panic :=
  repeat first [ done | assumption | apply ensure_avoids | apply index_no_panic; lia | apply bind_avoids | intros ? ? | case_match ].

Lemma numeric_no_panic m : numeric_data_type m ≠ Err IndexOutOfBounds.
Proof. unfold numeric_data_type, validate_type. no_panic. Qed.
#[local] Hint Resolve numeric_no_panic : core.
Lemma check_column_no_panic r i c oid :
  (i < length (column_names r))%nat → length (c_type_oids r) = length (column_names r) → length (c_nullable r) = length (column_names r) →
  length (c_primary_key r) = length (column_names r) → length (type_modifiers r) = length (column_names r) →
  check_column r tt (i, (c, oid)) ≠ Err IndexOutOfBounds.
Proof. intros. unfold check_column. no_panic. Qed.

Lemma for_each_avoids {A} e (f : unit → A → result PgError unit) l :
  Forall (λ x, f tt x ≠ Err e) l → for_each f l tt ≠ Err e.
Proof. induction 1; cbn [for_each]; [done|]. apply bind_avoids; [done|]. by intros [] _. Qed.
Lemma enumerated {A B} (l : list A) (k : list B) i x :
  imap pair (zip l k) !! i = Some x → x.1 = i ∧ l !! i = Some x.2.1 ∧ k !! i = Some x.2.2.
Proof. rewrite list_lookup_imap, lookup_zip_with. destruct (l !! i), (k !! i); cbn; by intros [= <-]. Qed.
Lemma enumerated_iff {A B} (l : list A) (k : list B) (P : nat → A → B → Prop) (f : unit → nat * (A * B) → result PgError unit) :
  (∀ i x y, f tt (i, (x, y)) = Ok tt ↔ P i x y) →
  for_each f (imap pair (zip l k)) tt = Ok tt ↔ ∀ i x y, l !! i = Some x → k !! i = Some y → P i x y.
Proof.
  intros Hf. rewrite for_each_unit, Forall_lookup. split.
  - intros H i x y Hx Hy. apply Hf, (H i). by rewrite list_lookup_imap, lookup_zip_with, Hx; cbn; rewrite Hy.
  - intros H i [j [x y]] (E & Hx & Hy)%enumerated. cbn in *. subst. apply Hf. by eapply H.
Qed.
Lemma pointwise_fmap {A B} (g : A → B) (l : list A) (k : list B) :
  length k = length l → (∀ i x, l !! i = Some x → k !! i = Some (g x)) → k = g <$> l.
Proof.
  intros Hl H. apply list_eq_same_length with (length l); [by rewrite length_fmap|done|].
  intros i x y Hi Ex (z & -> & Ez)%list_lookup_fmap_Some. apply H in Ez. congruence.
Qed.

Definition same_columns (t : DiscoveredTable) (r : CurrentRelationIdentity) : bool :=
  bool_decide (length (column_names r) = length (dt_schema t)) && bool_decide (length (c_type_oids r) = length (dt_schema t)) &&
  bool_decide (length (c_nullable r) = length (dt_schema t)) && bool_decide (length (c_primary_key r) = length (dt_schema t)) &&
  bool_decide (length (type_modifiers r) = length (dt_schema t)).

Lemma columns_Ok t r :
  length (dt_schema t) = length (type_oids t) →
  (same_columns t r = true ∧ for_each (check_column r) (imap pair (zip (dt_schema t) (type_oids t))) tt = Ok tt) ↔
  column_names r = name <$> dt_schema t ∧ c_type_oids r = type_oids t ∧ c_nullable r = nullable <$> dt_schema t ∧
  c_primary_key r = primary_key <$> dt_schema t ∧
  Forall2 (λ c m, is_decimal (data_type c) = true → numeric_data_type m = Ok (data_type c)) (dt_schema t) (type_modifiers r).
Proof.
  intros Hlen. rewrite (enumerated_iff _ _ (column_unchanged r) _ (check_column_Ok r)). unfold same_columns. split.
  - intros [Hs H]. bool_inv.
    assert (∀ i c, dt_schema t !! i = Some c → ∃ oid, type_oids t !! i = Some oid ∧ column_unchanged r i c oid) as Hc.
    { intros i c Ec. destruct (lookup_lt_is_Some_2 (type_oids t) i) as [oid Eo]; [rewrite <-Hlen; by eapply lookup_lt_Some|]. eauto. }
    split_and!.
    1, 3, 4: apply pointwise_fmap; [done|]; intros i c Ec; destruct (Hc i c Ec) as (? & _ & ? & ? & ? & ? & _); done.
    + apply list_eq_same_length with (length (dt_schema t)); [done..|]. intros i x y Hi Ex Ey.
      destruct (lookup_lt_is_Some_2 (dt_schema t) i Hi) as [c Ec]. destruct (Hc i c Ec) as (oid & Eo & _ & Ex' & _). congruence.
    + apply Forall2_same_length_lookup_2; [done|]. intros i c m Ec Em Hd. destruct (Hc i c Ec) as (_ & _ & _ & _ & _ & _ & Hn).
      destruct (Hn Hd) as (m' & Em' & En). congruence.
  - intros (E1 & E2 & E3 & E4 & F). split.
    + rewrite E1, E2, E3, E4, !length_fmap, <-Hlen, (Forall2_length _ _ _ F). by rewrite !bool_decide_true.
    + intros i c oid Ec Eo. unfold column_unchanged. rewrite E1, E2, E3, E4, !list_lookup_fmap, Ec. cbn. split_and!; try done.
      intros Hd. destruct (Forall2_lookup_l _ _ _ _ _ F Ec) as (m & Em & Hn). eauto.
Qed.

Lemma check_table_Ok by_name t :
  (∀ k r, by_name !! k = Some r → key_of r = k) →
  check_table by_name tt t = Ok tt ↔ ∃ r, by_name !! (config_schema (config t), config_name (config t)) = Some r ∧ unchanged t r.
Proof.
  intros Hk. unfold check_table. destruct (by_name !! _) as [r|] eqn:Er; cbn [ok_or mbind result_bind]; [|by split; [|intros (? & ? & ?)]].
  apply Hk in Er. transitivity (unchanged t r); [|split; [by eauto|by intros (? & [= <-] & ?)]]. rewrite !bind_Ok. split.
  - intros ([] & H1%ensure_Ok & ([] & H2%ensure_Ok & ([] & H3%ensure_Ok & ([] & H4%ensure_Ok & H5)%bind_Ok)%bind_Ok)%bind_Ok).
    apply bool_decide_eq_true in H1, H2, H3. destruct (proj1 (columns_Ok t r H3) (conj H4 H5)) as (? & ? & ? & ? & ?). by split.
  - intros [? H1 H2 ? ? ? ? H3 ?]. destruct (proj2 (columns_Ok t r H3)) as [H4 H5]; [done|]. exists tt.
    split; [by rewrite H1, bool_decide_true|]. apply bind_Ok. exists tt. split; [by rewrite H2, bool_decide_true|].
    apply bind_Ok. exists tt. split; [by rewrite bool_decide_true|]. apply bind_Ok. exists tt. split; [|done]. by apply ensure_Ok.
Qed.
Lemma check_table_no_panic by_name t : check_table by_name tt t ≠ Err IndexOutOfBounds.
Proof.
  unfold check_table. destruct (by_name !! _) as [r|]; cbn [ok_or mbind result_bind]; [|done].
  do 2 (apply bind_avoids; [by apply ensure_avoids|intros [] _]).
  apply bind_avoids; [by apply ensure_avoids|]. intros [] H3%ensure_Ok. apply bool_decide_eq_true in H3.
  apply bind_avoids; [by apply ensure_avoids|]. intros [] H4%ensure_Ok. bool_inv.
  apply for_each_avoids, Forall_lookup. intros i [j [c oid]] (Ej & Ec & _)%enumerated. cbn in *. subst j.
  apply lookup_lt_Some in Ec. apply check_column_no_panic; congruence || lia.
Qed.

(** The check of the replicated tables against the catalog accepts exactly the catalog
    contents in which every configured table is the one that was discovered: the query
    returned as many rows as there are tables and no name twice, and every discovered table
    has the row of its name with the same relation, replica identity, column names in order,
    type OIDs, nullability and primary key, and, for a NUMERIC column, a type modifier of the
    same precision and scale.  The loop over the columns never indexes out of bounds,
    whatever lengths the arrays of the row have. *)
Theorem relation_identity_exact expected current :
  (validate_relation_identity_contract expected current = Ok tt ↔
   length current = length expected ∧ NoDup (key_of <$> current) ∧ Forall (λ t, ∃ r, r ∈ current ∧ unchanged t r) expected) ∧
  validate_relation_identity_contract expected current ≠ Err IndexOutOfBounds.
Proof.
  unfold validate_relation_identity_contract. split; cycle 1.
  { apply bind_avoids; [by apply ensure_avoids|]. intros [] _. apply bind_avoids.
    - generalize (∅ : gmap (string * string) CurrentRelationIdentity). induction current as [|r current IH]; intros m; cbn [for_each]; [done|].
      apply bind_avoids; [|by intros]. unfold add_relation. no_panic.
    - intros m _. apply for_each_avoids, Forall_forall. intros t _. apply check_table_no_panic. }
  rewrite Forall_forall. split.
  - intros ([] & Hl%ensure_Ok & (m & [Hnd ->]%add_relations_Ok & H)%bind_Ok)%bind_Ok. apply bool_decide_eq_true in Hl. split_and!; [done..|].
    rewrite for_each_unit, Forall_forall in H. intros t Ht. apply H, check_table_Ok in Ht as (r & [Hin _]%by_name_lookup & Hu); eauto.
    intros k r' E. by apply by_name_lookup in E as [_ E].
  - intros (Hl & Hnd & H). rewrite bool_decide_true by done. cbn [ensure mbind result_bind].
    rewrite (proj2 (add_relations_Ok _ _)) by done. cbn [mbind result_bind]. apply for_each_unit, Forall_forall. intros t Ht.
    destruct (H t Ht) as (r & Hin & Hu). apply check_table_Ok; [intros k r' E; by apply by_name_lookup in E as [_ E]|].
    exists r. split; [|done]. apply by_name_lookup; [done|]. by split; [|apply Hu].
Qed.

(** ** Example *)
Module RelationExample.
Definition amount : SchemaColumn :=
  {| name := "amount"; source_type := None; data_type := (Decimal128 10 2 : DataType); nullable := false; always_present_on_update := false;
     update_value_presence := Guaranteed; delete_value_presence := Guaranteed; arrow_extension_metadata := None; primary_key := true; low_cardinality := false;
     max_length := None; arrow_extension_name := None; system_role := None; old_value_of := None; old_key_of := None |}.
Definition orders : DiscoveredTable :=
  {| config := {| config_schema := "public"; config_name := "orders" |}; dt_schema := [amount]; type_oids := [1700];
     replica_identity_full := false; replica_identity := "d"; relation_oid := 9 |}.
Definition row (modifier : Z) : CurrentRelationIdentity :=
  {| c_schema := "public"; c_name := "orders"; c_relation_oid := Some 9; c_replica_identity := Some "d"; column_names := ["amount"];
     c_type_oids := [1700]; c_nullable := [false]; c_primary_key := [true]; type_modifiers := [modifier] |}.
Example relation_examples :
  validate_relation_identity_contract [orders] [row 655366] = Ok tt ∧
  validate_relation_identity_contract [orders] [row 655367] = Err (NumericChanged 0) ∧
  validate_relation_identity_contract [orders; orders] [row 655366; row 655366] = Err (RepeatedTable "public" "orders").
Proof. by vm_compute. Qed.
End RelationExample.
