(* ===== verification/PgNumeric.v ===== *)
(** * PostgreSQL NUMERIC values

    [numeric.rs] of transferia-connector-postgres: NUMERIC text parsed to the coefficient of a
    fixed-scale decimal without rounding, printed back, and encoded as a binary COPY field.
    Text is its bytes; 128-bit arithmetic reports [Overflow] where the code would overflow. *)

From stdpp Require Import base tactics numbers option strings list.
From S2P Require Import Prelude Bytes PgTables.
Local Open Scope Z_scope.

(** ** The code *)
Definition i128_min : Z := - 2 ^ 127.
Definition i128_max : Z := 2 ^ 127 - 1.
Definition in_i32 (z : Z) : bool := bool_decide (- 2 ^ 31 ≤ z ≤ 2 ^ 31 - 1).
Definition is_ascii_digit (b : Z) : bool := bool_decide (48 ≤ b ≤ 57).
Definition number (ds : list Z) : Z := foldl (λ a d, a * 10 + (d - 48)) 0 ds.

(** [str::parse::<i32>]. *)
Definition parse_i32 (l : list Z) : option Z :=
  let '(negative, ds) := match l with 45 :: l => (true, l) | 43 :: l => (false, l) | _ => (false, l) end in
  if negb (bool_decide (ds = [])) && forallb is_ascii_digit ds then
    let v := if negative : bool then - number ds else number ds in
    if in_i32 v then Some v else None
  else None.

Definition validate_value (value precision scale : Z) : result PgError unit :=
  validate_type precision scale ≫= λ _, ensure (bool_decide (Z.abs value < 10 ^ precision)) ExceedsPrecision.

Definition is_exponent (b : Z) : Prop := b = 101 ∨ b = 69.
Definition split_exponent (value : list Z) : result PgError (list Z * Z) :=
  match list_find is_exponent value with
  | Some (index, _) => ok_or (parse_i32 (drop (S index) value)) BadExponent ≫= λ exponent, Ok (firstn index value, exponent)
  | None => Ok (value, 0)
  end.
Definition split_sign (mantissa : list Z) : bool * list Z :=
  match mantissa with 45 :: rest => (true, rest) | 43 :: rest => (false, rest) | _ => (false, mantissa) end.

(** One byte of the mantissa: the digits so far and the number of fractional ones. *)
Definition scan (st : list Z * option Z) (b : Z) : result PgError (list Z * option Z) :=
  let '(digits, fractional) := st in
  if bool_decide (b = 46) && bool_decide (fractional = None) then Ok (digits, Some 0)
  else
    ensure (is_ascii_digit b) BadDigit ≫= λ _,
    match fractional with
    | Some count => ensure (in_i32 (count + 1)) ScaleOverflow ≫= λ _, Ok (digits ++ [b], Some (count + 1))
    | None => Ok (digits ++ [b], None)
    end.
(** [&digits[first..]] at the first digit that is not zero. *)
Fixpoint strip_zeros (ds : list Z) : list Z :=
  match ds with
  | d :: rest => if bool_decide (d = 48) then strip_zeros rest else ds
  | [] => []
  end.
Definition push_digit (coefficient d : Z) : result PgError Z :=
  let c := coefficient * 10 + (d - 48) in ensure (bool_decide (c ≤ i128_max)) Overflow ≫= λ _, Ok c.
Definition push_zero (coefficient : Z) (_ : nat) : result PgError Z :=
  let c := coefficient * 10 in ensure (bool_decide (c ≤ i128_max)) Overflow ≫= λ _, Ok c.

(** The significant digits and the zeros that follow them. *)
Definition aligned (digits : list Z) (shift : Z) : result PgError (list Z * nat) :=
  if bool_decide (shift < 0) then
    let remove := Z.to_nat (- shift) in
    ensure (bool_decide (remove ≤ length digits)%nat && forallb (λ d, bool_decide (d = 48)) (drop (length digits - remove) digits)) Inexact ≫= λ _,
    Ok (firstn (length digits - remove) digits, 0%nat)
  else Ok (digits, Z.to_nat shift).
Definition coefficient_of (significant : list Z) (zeros : nat) (precision : Z) : result PgError Z :=
  ensure (bool_decide (Z.of_nat (length significant + zeros) ≤ precision)) ExceedsPrecision ≫= λ _,
  for_each push_digit significant 0 ≫= λ coefficient,
  for_each push_zero (seq 0 zeros) coefficient.

Definition parse (value : list Z) (precision scale : Z) : result PgError Z :=
  validate_type precision scale ≫= λ _,
  split_exponent value ≫= λ '(mantissa, exponent),
  let '(negative, mantissa) := split_sign mantissa in
  for_each scan mantissa ([], None) ≫= λ '(digits, fractional),
  ensure (negb (bool_decide (digits = []))) EmptyCoefficient ≫= λ _,
  let digits := strip_zeros digits in
  if bool_decide (digits = []) then Ok 0
  else
    ensure (in_i32 (scale + exponent)) ScaleOverflow ≫= λ _,
    let shift := scale + exponent - default 0 fractional in
    ensure (in_i32 shift) ScaleOverflow ≫= λ _,
    aligned digits shift ≫= λ '(significant, zeros),
    coefficient_of significant zeros precision ≫= λ coefficient,
    Ok (if negative then - coefficient else coefficient).

(** [u128::to_string]: at most 39 digits. *)
Fixpoint decimal (fuel : nat) (z : Z) : list Z :=
  match fuel with
  | O => []
  | S fuel => if bool_decide (z < 10) then [48 + z] else decimal fuel (z `div` 10) ++ [48 + z `mod` 10]
  end.
Definition format (value precision scale : Z) : result PgError (list Z) :=
  validate_value value precision scale ≫= λ _,
  let magnitude := decimal 39 (Z.abs value) in
  let sign := if bool_decide (value < 0) then [45] else [] in
  if bool_decide (scale ≤ 0) then
    Ok (sign ++ magnitude ++ (if bool_decide (value = 0) then [] else replicate (Z.to_nat (Z.abs scale)) 48))
  else
    let scale := Z.to_nat scale in
    if bool_decide (length magnitude ≤ scale)%nat then Ok (sign ++ [48; 46] ++ replicate (scale - length magnitude) 48 ++ magnitude)
    else
      let split := (length magnitude - scale)%nat in
      Ok (sign ++ firstn split magnitude ++ [46] ++ drop split magnitude).

(** The loop of [encode_binary]; [room] is what is left of the eleven digits of [reversed]. *)
Fixpoint base_digits (room : nat) (factor magnitude carry : Z) : result PgError (list Z) :=
  if bool_decide (magnitude = 0) && bool_decide (carry = 0) then Ok []
  else match room with
  | O => Err IndexOutOfBounds
  | S room =>
      let digit := (magnitude `mod` 10000) * factor + carry in
      base_digits room factor (magnitude `div` 10000) (digit `div` 10000) ≫= λ rest, Ok (digit `mod` 10000 :: rest)
  end.
(** [&reversed[first..count]] at the first digit that is not zero. *)
Fixpoint strip_low (ds : list Z) : list Z :=
  match ds with
  | d :: rest => if bool_decide (d = 0) then strip_low rest else ds
  | [] => []
  end.
Definition encode_binary (output : list Z) (value precision scale : Z) : result PgError (list Z) :=
  validate_value value precision scale ≫= λ _,
  let exponent := - scale in
  let factor := 10 ^ (exponent `mod` 4) in
  base_digits 11 factor (Z.abs value) 0 ≫= λ reversed,
  let weight := if bool_decide (length reversed = 0%nat) then 0 else Z.of_nat (length reversed) - 1 + exponent `div` 4 in
  let kept := strip_low reversed in
  Ok (output ++ be_bytes 4 (8 + 2 * Z.of_nat (length kept)) ++ be_bytes 2 (Z.of_nat (length kept)) ++ be_bytes 2 weight ++
      be_bytes 2 (if bool_decide (value < 0) then 16384 else 0) ++ be_bytes 2 (Z.max scale 0) ++ (reverse kept ≫= be_bytes 2)).

(** ** Digit strings *)
Abbreviation digits := (Forall (λ b, 48 ≤ b ≤ 57)).

Lemma number_foldl a ds : foldl (λ a d, a * 10 + (d - 48)) a ds = a * 10 ^ Z.of_nat (length ds) + number ds.
Proof.
  unfold number. induction ds as [|d ds IH] in a |- *; cbn [foldl length]; [lia|].
  rewrite IH, (IH (0 * 10 + _)). rewrite Nat2Z.inj_succ, Z.pow_succ_r by lia. lia.
Qed.
Lemma number_app a b : number (a ++ b) = number a * 10 ^ Z.of_nat (length b) + number b.
Proof. unfold number at 1. rewrite foldl_app. apply number_foldl. Qed.
Lemma number_cons d ds : number (d :: ds) = (d - 48) * 10 ^ Z.of_nat (length ds) + number ds.
Proof. unfold number at 1. cbn [foldl]. rewrite number_foldl. lia. Qed.
Lemma number_range ds : digits ds → 0 ≤ number ds < 10 ^ Z.of_nat (length ds).
Proof.
  induction 1 as [|d ds Hd _ IH]; [done|]. rewrite number_cons. cbn [length]. rewrite Nat2Z.inj_succ, Z.pow_succ_r by lia. nia.
Qed.
Lemma number_zeros n : number (replicate n 48) = 0.
Proof. induction n as [|n IH]; [done|]. cbn [replicate]. rewrite number_cons, IH. lia. Qed.
Lemma number_zero ds : digits ds → number ds = 0 → Forall (λ d, d = 48) ds.
Proof.
  induction 1 as [|d ds Hd Hds IH]; [done|]. rewrite number_cons. pose proof (number_range ds Hds). intros E.
  assert (0 < 10 ^ Z.of_nat (length ds)) by (apply Z.pow_pos_nonneg; lia). constructor; [nia|]. apply IH. nia.
Qed.
Lemma digits_forallb ds : forallb is_ascii_digit ds = true ↔ digits ds.
Proof.
  rewrite <-Is_true_true, forallb_True. unfold is_ascii_digit. apply Forall_iff. intros x. by rewrite bool_decide_spec.
Qed.
Lemma digits_zeros n : digits (replicate n 48).
Proof. apply Forall_replicate. lia. Qed.

Lemma strip_zeros_number ds : number (strip_zeros ds) = number ds.
Proof. induction ds as [|d ds IH]; cbn [strip_zeros]; [done|]. case_bool_decide; [|done]. rewrite number_cons, IH. subst. lia. Qed.
Lemma strip_zeros_digits ds : digits ds → digits (strip_zeros ds).
Proof. induction 1 as [|d ds Hd Hds IH]; cbn [strip_zeros]; [done|]. case_bool_decide; [done|]. by constructor. Qed.
(** A number without leading zeros has as many digits as it needs. *)
Lemma strip_zeros_lead ds : digits ds → strip_zeros ds ≠ [] → 10 ^ (Z.of_nat (length (strip_zeros ds)) - 1) ≤ number ds.
Proof.
  intros Hds. rewrite <-strip_zeros_number. induction Hds as [|d ds Hd Hds IH]; cbn [strip_zeros]; [done|].
  case_bool_decide; [exact IH|]. intros _. rewrite number_cons. cbn [length]. rewrite Nat2Z.inj_succ. replace (Z.succ _ - 1) with (Z.of_nat (length ds)) by lia.
  pose proof (number_range ds Hds). nia.
Qed.

(** ** The mantissa *)
Definition point_text (int : list Z) (frac : option (list Z)) : list Z := int ++ match frac with None => [] | Some f => 46 :: f end.
Definition frac_length (frac : option (list Z)) : Z := match frac with None => 0 | Some f => Z.of_nat (length f) end.

Lemma scan_fraction l ds c st :
  0 ≤ c → for_each scan l (ds, Some c) = Ok st ↔
  digits l ∧ st = (ds ++ l, Some (c + Z.of_nat (length l))) ∧ (l ≠ [] → c + Z.of_nat (length l) ≤ 2 ^ 31 - 1).
Proof.
  intros Hc. induction l as [|b l IH] in ds, c, Hc |- *; cbn [for_each].
  { rewrite app_nil_r, Z.add_0_r. split; [intros [= <-]; done|by intros (_ & -> & _)]. }
  cbn [scan]. rewrite (bool_decide_false (Some c = None)) by done. rewrite andb_false_r, !bind_Ok. unfold is_ascii_digit, in_i32.
  rewrite Forall_cons. cbn [length]. rewrite Nat2Z.inj_succ. split.
  - intros (st1 & ([] & Hb%ensure_Ok & ([] & Hi%ensure_Ok & [= <-])%bind_Ok)%bind_Ok & H). apply bool_decide_eq_true in Hb, Hi.
    apply IH in H as (Hl & -> & Hlen); [|lia]. rewrite <-app_assoc. split_and!; [lia..|done| |].
    + f_equal. f_equal. lia.
    + intros _. destruct l as [|x l]; [cbn; lia|]. specialize (Hlen ltac:(done)). cbn [length] in *. lia.
  - intros ([Hb Hl] & -> & Hlen). specialize (Hlen ltac:(done)). eexists. split.
    + apply bind_Ok. exists tt. split; [by rewrite bool_decide_true|]. apply bind_Ok. exists tt. split; [by rewrite bool_decide_true by lia|done].
    + apply IH; [lia|]. rewrite <-app_assoc. split_and!; [done| |lia]. f_equal. f_equal. lia.
Qed.

Lemma scan_text l ds st :
  for_each scan l (ds, None) = Ok st ↔ ∃ int frac, l = point_text int frac ∧ digits int ∧ digits (default [] frac) ∧
    st = (ds ++ int ++ default [] frac, (λ f, Z.of_nat (length f)) <$> frac) ∧ frac_length frac ≤ 2 ^ 31 - 1.
Proof.
  induction l as [|b l IH] in ds |- *; cbn [for_each].
  { split.
    - intros [= <-]. exists [], None. by rewrite app_nil_r.
    - intros (int & frac & E & _ & _ & -> & _). unfold point_text in E. destruct int, frac; try done. cbn. by rewrite app_nil_r. }
  rewrite bind_Ok. cbn [scan]. rewrite (bool_decide_true (None = None)) by done. rewrite andb_true_r. case_bool_decide as Hb.
  - subst b. split.
    + intros (st1 & [= <-] & (Hl & -> & Hlen)%scan_fraction); [|done]. exists [], (Some l). split_and!; try done. cbn.
      destruct l; [done|]. by apply Hlen.
    + intros (int & frac & E & Hint & Hfrac & -> & Hlen). destruct int as [|x int]; [|inversion Hint; unfold point_text in E; simplify_eq/=; lia].
      destruct frac as [f|]; [|done]. cbn in E. injection E as ->. eexists. split; [done|]. apply scan_fraction; [done|]. by split_and!.
  - split.
    + intros (st1 & ([] & Hd%ensure_Ok & [= <-])%bind_Ok & (int & frac & -> & Hint & Hfrac & -> & Hlen)%IH).
      apply bool_decide_eq_true in Hd. exists (b :: int), frac. rewrite <-app_assoc. by split_and!; try constructor.
    + intros (int & frac & E & Hint & Hfrac & -> & Hlen). destruct int as [|x int]; [destruct frac; unfold point_text in E; simplify_eq/=|].
      unfold point_text in E. cbn in E. injection E as <- ->. apply Forall_cons in Hint as [Hx Hint]. eexists. split.
      * apply bind_Ok. exists tt. split; [|done]. unfold is_ascii_digit. by rewrite bool_decide_true.
      * apply IH. exists int, frac. rewrite <-app_assoc. by split_and!.
Qed.

(** ** The coefficient *)
(** [a · 10^x = b · 10^y] *)
Definition same_decimal (a x b y : Z) : Prop := a * 10 ^ (x - Z.min x y) = b * 10 ^ (y - Z.min x y).

Lemma pow10_pos n : 0 ≤ n → 0 < 10 ^ n.
Proof. intros. by apply Z.pow_pos_nonneg. Qed.
Lemma push_digits ds c :
  digits ds → 0 ≤ c → c * 10 ^ Z.of_nat (length ds) + number ds ≤ i128_max →
  for_each push_digit ds c = Ok (c * 10 ^ Z.of_nat (length ds) + number ds).
Proof.
  intros Hds. induction Hds as [|d ds Hd Hds IH] in c |- *; intros Hc; cbn [for_each length]; [intros _; f_equal; cbn; lia|].
  rewrite number_cons, Nat2Z.inj_succ, Z.pow_succ_r by lia. intros Hm. pose proof (pow10_pos (Z.of_nat (length ds)) ltac:(lia)).
  pose proof (number_range ds Hds). assert (push_digit c d = Ok (c * 10 + (d - 48))) as -> by (unfold push_digit; by rewrite bool_decide_true by nia).
  cbn [mbind result_bind].
  rewrite IH; [f_equal; lia|lia|lia].
Qed.
Lemma push_zeros (l : list nat) c :
  0 ≤ c → c * 10 ^ Z.of_nat (length l) ≤ i128_max → for_each push_zero l c = Ok (c * 10 ^ Z.of_nat (length l)).
Proof.
  induction l as [|x l IH] in c |- *; intros Hc; cbn [for_each length]; [intros _; f_equal; lia|].
  rewrite Nat2Z.inj_succ, Z.pow_succ_r by lia. intros Hm. pose proof (pow10_pos (Z.of_nat (length l)) ltac:(lia)).
  assert (push_zero c x = Ok (c * 10)) as -> by (unfold push_zero; by rewrite bool_decide_true by nia). cbn [mbind result_bind]. rewrite IH; [f_equal; lia|lia|lia].
Qed.
Lemma pow10_fits p : p ≤ 38 → 10 ^ p ≤ i128_max.
Proof. intros. etransitivity; [apply (Z.pow_le_mono_r 10 p 38); lia|]. by vm_compute. Qed.

(** Within the precision no step overflows. *)
Lemma coefficient_of_value ds zeros p :
  digits ds → p ≤ 38 →
  coefficient_of ds zeros p = if bool_decide (Z.of_nat (length ds + zeros) ≤ p) then Ok (number ds * 10 ^ Z.of_nat zeros) else Err ExceedsPrecision.
Proof.
  intros Hds Hp. unfold coefficient_of. case_bool_decide as Hle; [|done]. cbn [ensure mbind result_bind].
  pose proof (number_range ds Hds) as Hr. pose proof (pow10_pos (Z.of_nat zeros) ltac:(lia)).
  assert (number ds * 10 ^ Z.of_nat zeros < 10 ^ p) as Hm.
  { apply Z.lt_le_trans with (10 ^ (Z.of_nat (length ds) + Z.of_nat zeros)); [rewrite Z.pow_add_r by lia; nia|apply Z.pow_le_mono_r; lia]. }
  pose proof (pow10_fits p Hp). rewrite push_digits; [|done|done|nia]. cbn [mbind result_bind]. rewrite push_zeros; rewrite ?length_seq; [done|lia|lia].
Qed.

Lemma same_decimal_left m d shift : shift ≤ 0 → same_decimal m 0 d shift ↔ m * 10 ^ (- shift) = d.
Proof. intros. unfold same_decimal. rewrite Z.min_r by lia. replace (0 - shift) with (- shift) by lia. rewrite Z.sub_diag, Z.pow_0_r. lia. Qed.
Lemma same_decimal_right m d shift : 0 ≤ shift → same_decimal m 0 d shift ↔ m = d * 10 ^ shift.
Proof. intros. unfold same_decimal. rewrite Z.min_l by lia. rewrite !Z.sub_0_r, Z.pow_0_r. lia. Qed.

(** Digits [ds] of a number without leading zeros, at scale [shift], have the coefficient
    [m] of at most [p] digits. *)
Section aligned.
Context (ds : list Z) (p : Z) (Hds : digits ds) (Hne : ds ≠ []) (Hlead : 10 ^ (Z.of_nat (length ds) - 1) ≤ number ds) (Hp : 1 ≤ p ≤ 38).

Lemma aligned_right shift m :
  0 ≤ shift → (aligned ds shift ≫= λ '(significant, zeros), coefficient_of significant zeros p) = Ok m ↔ same_decimal m 0 (number ds) shift ∧ m < 10 ^ p.
Proof using All.
  intros Hs. rewrite same_decimal_right by done. unfold aligned. rewrite bool_decide_false by lia. cbn [mbind result_bind].
  rewrite coefficient_of_value by (done || lia). rewrite Nat2Z.inj_add, Z2Nat.id by done.
  pose proof (pow10_pos shift Hs). pose proof (number_range ds Hds).
  assert (1 ≤ Z.of_nat (length ds)) by (destruct ds; [done|cbn [length]; lia]).
  case_bool_decide as Hle.
  - assert (number ds * 10 ^ shift < 10 ^ p).
    { apply Z.lt_le_trans with (10 ^ (Z.of_nat (length ds) + shift)); [rewrite Z.pow_add_r by lia; nia|apply Z.pow_le_mono_r; lia]. }
    split; [intros [= <-]; done|by intros [-> _]].
  - split; [done|]. intros [-> Hlt]. destruct Hle. assert (10 ^ (Z.of_nat (length ds) - 1 + shift) < 10 ^ p).
    { rewrite Z.pow_add_r by lia. nia. }
    apply Z.pow_lt_mono_r_iff in H2; lia.
Qed.

Lemma aligned_left shift m :
  shift < 0 → (aligned ds shift ≫= λ '(significant, zeros), coefficient_of significant zeros p) = Ok m ↔ same_decimal m 0 (number ds) shift ∧ m < 10 ^ p.
Proof using All.
  intros Hs. rewrite same_decimal_left by lia. unfold aligned. rewrite bool_decide_true by lia.
  set (r := Z.to_nat (- shift)). assert (- shift = Z.of_nat r) as -> by lia.
  pose proof (number_range ds Hds) as Hr. assert (1 ≤ Z.of_nat (length ds)) by (destruct ds; [done|cbn [length]; lia]).
  pose proof (pow10_pos (Z.of_nat r) ltac:(lia)) as Hpos. pose proof (pow10_pos (Z.of_nat (length ds) - 1) ltac:(lia)) as Hpos'.
  set (a := firstn (length ds - r) ds). set (z := drop (length ds - r) ds).
  assert (digits a ∧ digits z) as [Ha Hz] by (split; [by apply Forall_take|by apply Forall_drop]).
  assert (number ds = number a * 10 ^ Z.of_nat (length z) + number z) as Esplit by (rewrite <-number_app; unfold a, z; by rewrite take_drop).
  split.
  - rewrite bind_Ok. intros ([sig zeros] & ([] & Hc%ensure_Ok & [= <- <-])%bind_Ok & Hb). apply andb_true_iff in Hc as [Hc%bool_decide_eq_true Hz0].
    fold a in Hb. fold z in Hz0. assert (length z = r) as Ez by (unfold z; rewrite length_drop; lia). rewrite Ez in Esplit.
    assert (number z = 0) as Nz.
    { rewrite <-(number_zeros (length z)). f_equal. symmetry. apply replicate_as_Forall_2; [done|]. rewrite <-Is_true_true, forallb_True in Hz0.
      eapply Forall_impl; [exact Hz0|]. intros x Hx%bool_decide_spec. done. }
    rewrite coefficient_of_value in Hb by (done || lia). case_bool_decide as Hle; [|done]. injection Hb as <-. rewrite Z.mul_1_r. split; [lia|].
    pose proof (number_range a Ha) as [_ Hm]. eapply Z.lt_le_trans; [exact Hm|]. apply Z.pow_le_mono_r; lia.
  - intros [Em Hlt]. assert (r ≤ length ds)%nat as Hrl.
    { assert (0 < m) by nia. assert (10 ^ Z.of_nat r < 10 ^ Z.of_nat (length ds)) as Hpow%Z.pow_lt_mono_r_iff by nia; lia. }
    assert (length z = r) as Ez by (unfold z; rewrite length_drop; lia). rewrite Ez in Esplit. pose proof (number_range z Hz) as Hrz. rewrite Ez in Hrz.
    assert (m = number a ∧ number z = 0) as [-> Nz] by (assert (m = number a) by nia; lia).
    rewrite bool_decide_true by done. cbn [andb]. assert (forallb (λ d, bool_decide (d = 48)) z = true) as ->.
    { rewrite <-Is_true_true, forallb_True. eapply Forall_impl; [by apply number_zero|]. intros x ->. by apply bool_decide_spec. }
    cbn [ensure mbind result_bind]. rewrite coefficient_of_value by (done || lia). rewrite bool_decide_true, Z.mul_1_r; [done|].
    assert (length a = length ds - r)%nat as -> by (unfold a; rewrite length_take; lia).
    assert (10 ^ (Z.of_nat (length ds) - 1) < 10 ^ (p + Z.of_nat r)) as Hpow%Z.pow_lt_mono_r_iff by (rewrite Z.pow_add_r by lia; nia); lia.
Qed.
End aligned.

(** ** Numerals *)
(** A sign, digits around an optional point, and an exponent written with [e] or [E]. *)
Record Numeral := { sign : option bool (* minus *); int : list Z; frac : option (list Z); exp : option (bool * list Z) }.

Definition sign_text (s : option bool) : list Z := match s with None => [] | Some true => [45] | Some false => [43] end.
Definition exp_text (e : option (bool * list Z)) : list Z :=
  match e with None => [] | Some (upper, t) => (if upper : bool then 69 else 101) :: t end.
Definition numeral_text (n : Numeral) : list Z := (sign_text (sign n) ++ point_text (int n) (frac n)) ++ exp_text (exp n).
Definition written_exponent (e : option (bool * list Z)) : option Z := match e with None => Some 0 | Some (_, t) => parse_i32 t end.

(** The numeral denotes [coefficient n · 10^(x - fraction n)]. *)
Definition signed_by (negative : bool) (z : Z) : Z := if negative then - z else z.
Definition coefficient (n : Numeral) : Z := signed_by (bool_decide (sign n = Some true)) (number (int n ++ default [] (frac n))).
Definition fraction (n : Numeral) : Z := frac_length (frac n).
Record numeral (n : Numeral) (x : Z) : Prop := {
  numeral_int : digits (int n);
  numeral_frac : digits (default [] (frac n));
  numeral_nonempty : int n ++ default [] (frac n) ≠ [];
  numeral_exponent : written_exponent (exp n) = Some x
}.
(** The scale arithmetic stays within 32 bits. *)
Definition scale_fits (n : Numeral) (x s : Z) : Prop :=
  fraction n ≤ 2 ^ 31 - 1 ∧ (coefficient n = 0 ∨ in_i32 (s + x) = true ∧ in_i32 (s + x - fraction n) = true).

Lemma split_exponent_Ok value m x :
  split_exponent value = Ok (m, x) ↔ ∃ e, value = m ++ exp_text e ∧ Forall (λ b, ¬ is_exponent b) m ∧ written_exponent e = Some x.
Proof.
  unfold split_exponent. split.
  - destruct (list_find is_exponent value) as [[i b]|] eqn:F.
    + intros (x' & Hx & [= <- <-])%bind_Ok. destruct (parse_i32 _) eqn:P; cbn [ok_or] in Hx; [|done]. injection Hx as ->.
      apply list_find_Some in F as (Hb & He & Hf). exists (Some (bool_decide (b = 69), drop (S i) value)). cbn [exp_text written_exponent].
      split_and!; [| |done].
      * rewrite <-(take_drop_middle value i b Hb) at 1. do 2 f_equal. destruct He as [-> | ->]; by case_bool_decide.
      * apply Forall_lookup. intros j y [Hy Hj]%lookup_take_Some. by apply (Hf j).
    + intros [= <- <-]. exists None. cbn. rewrite app_nil_r. split_and!; [done| |done]. exact (proj1 (list_find_None _ _) F).
  - intros (e & -> & Hm & Hx). destruct e as [[u t]|]; cbn [exp_text written_exponent] in *; cycle 1.
    + injection Hx as <-. rewrite app_nil_r. by rewrite (proj2 (list_find_None is_exponent m) Hm).
    + rewrite (proj2 (list_find_Some is_exponent _ (length m) (if u then 69 else 101))).
      * rewrite take_app_length. replace (S (length m)) with (length m + 1)%nat by lia. rewrite <-drop_drop, drop_app_length. cbn [drop]. rewrite drop_0. by rewrite Hx.
      * split_and!; [by rewrite list_lookup_middle|destruct u; unfold is_exponent; auto|].
        intros j y Hy Hj. rewrite lookup_app_l in Hy by done. by eapply Forall_lookup_1 in Hm.
Qed.

Lemma split_sign_text m : ∃ sg, m = sign_text sg ++ (split_sign m).2 ∧ (split_sign m).1 = bool_decide (sg = Some true).
Proof.
  destruct m as [|b m]; [by exists None|]. destruct (decide (b = 45)) as [-> |]; [by exists (Some true)|].
  destruct (decide (b = 43)) as [-> |]; [by exists (Some false)|]. exists None. assert (split_sign (b :: m) = (false, b :: m)) as ->; [|done].
  unfold split_sign. repeat case_match; congruence.
Qed.
Lemma split_sign_point sg i f :
  digits i → split_sign (sign_text sg ++ point_text i f) = (bool_decide (sg = Some true), point_text i f).
Proof.
  intros Hi. destruct sg as [[]|]; [done..|]. cbn [sign_text app]. unfold point_text. destruct i as [|b i]; [by destruct f|].
  inversion Hi; subst. cbn [app]. unfold split_sign. repeat case_match; simplify_eq; lia || done.
Qed.
Lemma point_text_plain i f : digits i → digits (default [] f) → Forall (λ b, ¬ is_exponent b) (point_text i f).
Proof.
  unfold point_text, is_exponent. intros Hi Hf. apply Forall_app. split; [eapply Forall_impl; [exact Hi|]; cbn; lia|].
  destruct f as [f|]; [|done]. constructor; [lia|]. eapply Forall_impl; [exact Hf|]; cbn; lia.
Qed.

Lemma same_decimal_shift a x b y k : same_decimal a x b y ↔ same_decimal a (x + k) b (y + k).
Proof.
  unfold same_decimal. replace (x + k - Z.min (x + k) (y + k)) with (x - Z.min x y) by lia.
  by replace (y + k - Z.min (x + k) (y + k)) with (y - Z.min x y) by lia.
Qed.
Lemma same_decimal_sign neg a x b y : same_decimal (signed_by neg a) x (signed_by neg b) y ↔ same_decimal a x b y.
Proof. unfold same_decimal. destruct neg; cbn; rewrite ?Z.mul_opp_l; lia. Qed.
Lemma same_decimal_zero a x y : same_decimal a x 0 y ↔ a = 0.
Proof. unfold same_decimal. pose proof (pow10_pos (x - Z.min x y) ltac:(lia)). nia. Qed.
Lemma signed_by_abs neg z : Z.abs (signed_by neg z) = Z.abs z.
Proof. destruct neg; cbn; lia. Qed.
Lemma validate_type_Ok p s : validate_type p s = Ok tt ↔ 1 ≤ p ≤ 38 ∧ s ≤ p.
Proof. unfold validate_type. by rewrite ensure_Ok, andb_true_iff, !bool_decide_eq_true. Qed.

(** What [parse] does with the digits, [f] of which are fractional. *)
Definition parse_digits (digits : list Z) (negative : bool) (exponent f precision scale : Z) : result PgError Z :=
  let digits := strip_zeros digits in
  if bool_decide (digits = []) then Ok 0
  else
    ensure (in_i32 (scale + exponent)) ScaleOverflow ≫= λ _,
    ensure (in_i32 (scale + exponent - f)) ScaleOverflow ≫= λ _,
    (aligned digits (scale + exponent - f) ≫= λ '(significant, zeros), coefficient_of significant zeros precision) ≫= λ coefficient,
    Ok (if negative then - coefficient else coefficient).

Lemma parse_digits_Ok ds neg x f p s v :
  digits ds → 1 ≤ p ≤ 38 →
  parse_digits ds neg x f p s = Ok v ↔
  (number ds = 0 ∨ in_i32 (s + x) = true ∧ in_i32 (s + x - f) = true) ∧ Z.abs v < 10 ^ p ∧ same_decimal v (- s) (signed_by neg (number ds)) (x - f).
Proof.
  intros Hds Hp. unfold parse_digits. cbv zeta. pose proof (strip_zeros_number ds) as En. pose proof (strip_zeros_digits ds Hds) as Hd.
  pose proof (strip_zeros_lead ds Hds) as Hlead. rewrite <-En in Hlead. rewrite <-En. clear En Hds. set (k := strip_zeros ds) in *. clearbody k.
  rewrite (same_decimal_shift _ _ _ _ s). replace (- s + s) with 0 by lia. replace (x - f + s) with (s + x - f) by lia.
  case_bool_decide as Hk.
  { subst k. cbn. replace (signed_by neg 0) with 0 by (by destruct neg). rewrite same_decimal_zero. pose proof (pow10_pos p ltac:(lia)).
    split; [intros [= <-]; cbn; auto|by intros (_ & _ & ->)]. }
  specialize (Hlead Hk). pose proof (number_range k Hd) as Hr. pose proof (pow10_pos (Z.of_nat (length k) - 1)) as Hpos.
  assert (0 < number k) as Hn by (destruct k; [done|cbn [length] in *; lia]). set (shift := s + x - f).
  assert (∀ m, (aligned k shift ≫= λ '(significant, zeros), coefficient_of significant zeros p) = Ok m ↔ same_decimal m 0 (number k) shift ∧ m < 10 ^ p) as Ha.
  { intros m. destruct (decide (shift < 0)); [by apply aligned_left|apply aligned_right; (done || lia)]. }
  rewrite !bind_Ok. split.
  - intros ([] & H1%ensure_Ok & ([] & H2%ensure_Ok & (m & [Hs Hm]%Ha & [= <-])%bind_Ok)%bind_Ok). fold (signed_by neg m).
    rewrite same_decimal_sign, signed_by_abs. split_and!; [by right| |done]. enough (0 ≤ m) by lia. unfold same_decimal in Hs.
    pose proof (pow10_pos (0 - Z.min 0 shift) ltac:(lia)). pose proof (pow10_pos (shift - Z.min 0 shift) ltac:(lia)). nia.
  - intros ([Hz|[H1 H2]] & Hv & Hs); [lia|]. exists tt. split; [by apply ensure_Ok|]. apply bind_Ok. exists tt. split; [by apply ensure_Ok|]. apply bind_Ok.
    exists (signed_by neg v). assert (signed_by neg (signed_by neg v) = v) as Evv by (destruct neg; cbn; lia).
    rewrite Ha. rewrite <-(same_decimal_sign neg), Evv. split; [split; [done|destruct neg; cbn; lia]|]. f_equal. exact Evv.
Qed.
Lemma parse_unfold value p s :
  parse value p s =
  validate_type p s ≫= λ _, split_exponent value ≫= λ '(m, x),
  for_each scan (split_sign m).2 ([], None) ≫= λ '(ds, f), ensure (negb (bool_decide (ds = []))) EmptyCoefficient ≫= λ _,
  parse_digits ds (split_sign m).1 x (default 0 f) p s.
Proof.
  unfold parse, parse_digits. destruct (validate_type p s) as [[]|]; cbn [mbind result_bind]; [|done].
  destruct (split_exponent value) as [[m x]|]; cbn [mbind result_bind]; [|done]. destruct (split_sign m) as [neg rest]. cbn [fst snd].
  destruct (for_each scan rest _) as [[ds f]|]; cbn [mbind result_bind]; [|done]. destruct (ensure _ EmptyCoefficient); cbn [mbind result_bind]; [|done].
  case_bool_decide; [done|]. do 2 (destruct (ensure _ ScaleOverflow); cbn [mbind result_bind]; [|done]).
  by destruct (aligned _ _) as [[]|].
Qed.

Lemma parse_numeral n x p s v :
  numeral n x → 1 ≤ p ≤ 38 → s ≤ p →
  parse (numeral_text n) p s = Ok v ↔ scale_fits n x s ∧ Z.abs v < 10 ^ p ∧ same_decimal v (- s) (coefficient n) (x - fraction n).
Proof.
  intros [Hi Hf Hne He] Hp Hs. rewrite parse_unfold, (proj2 (validate_type_Ok p s)) by done. cbn [mbind result_bind].
  assert (split_exponent (numeral_text n) = Ok (sign_text (sign n) ++ point_text (int n) (frac n), x)) as ->.
  { apply split_exponent_Ok. exists (exp n). split_and!; [done| |done]. apply Forall_app. split; [|by apply point_text_plain].
    destruct (sign n) as [[]|]; repeat constructor; unfold is_exponent; lia. }
  cbn [mbind result_bind]. rewrite split_sign_point by done. cbn [fst snd]. unfold scale_fits, fraction.
  assert (coefficient n = 0 ↔ number (int n ++ default [] (frac n)) = 0) as -> by (unfold coefficient; case_bool_decide; cbn; lia).
  assert (default 0 ((λ f, Z.of_nat (length f)) <$> frac n) = frac_length (frac n)) as Efl by (by destruct (frac n)).
  split.
  - intros ([ds f] & (i & g & E & Hi' & Hg & [= -> ->] & Hlen)%scan_text & H)%bind_Ok.
    assert (i = int n ∧ g = frac n) as [-> ->].
    { clear -E Hi Hi'. unfold point_text in E. revert E Hi Hi'. generalize (int n), (frac n). intros j h. 
      induction i as [|b i IH] in j |- *; destruct j as [|c j]; cbn.
      - destruct g, h; naive_solver.
      - destruct g; [|done]. intros [= E1 _] Hj _. apply Forall_cons in Hj as [? _]; lia.
      - destruct h; [|done]. intros [= E1 _] _ Hi. apply Forall_cons in Hi as [? _]; lia.
      - intros [= -> E] Hj Hi. inversion Hj; inversion Hi; subst. destruct (IH j) as [-> ->]; done. }
    apply bind_Ok in H as ([] & _ & H). cbn [app] in H; rewrite Efl in H. apply parse_digits_Ok in H as (? & ? & ?); [|by apply Forall_app|done]. done.
  - intros ([Hlen Hfit] & Hv & Hsame). apply bind_Ok. eexists (_, _). split; [apply scan_text; exists (int n), (frac n); split_and!; try done; reflexivity|].
    rewrite !app_nil_l, (bool_decide_false (_ ++ _ = [])) by done. cbn [negb ensure mbind result_bind]. rewrite Efl. apply parse_digits_Ok; [by apply Forall_app|done|done].
Qed.

Lemma parse_text value p s v :
  parse value p s = Ok v → (1 ≤ p ≤ 38 ∧ s ≤ p) ∧ ∃ n x, value = numeral_text n ∧ numeral n x.
Proof.
  rewrite parse_unfold. intros ([] & Ht%validate_type_Ok & ([m x] & (e & -> & _ & He)%split_exponent_Ok & H)%bind_Ok)%bind_Ok. split; [done|].
  destruct (split_sign_text m) as (sg & Em & _). apply bind_Ok in H as ([ds f] & (i & g & E & Hi & Hg & [= -> ->] & _)%scan_text & H).
  apply bind_Ok in H as ([] & Hne%ensure_Ok & _). rewrite negb_true_iff, bool_decide_eq_false in Hne.
  exists {| sign := sg; int := i; frac := g; exp := e |}, x. split; [unfold numeral_text; cbn [sign int frac exp]; by rewrite <-E, <-Em|]. by split.
Qed.

Lemma scan_no_overflow l st : for_each scan l st ≠ Err Overflow.
Proof.
  induction l as [|b l IH] in st |- *; cbn [for_each]; [done|]. apply bind_avoids; [|by intros]. destruct st as [ds f]. cbn [scan].
  destruct (_ && _); [done|]. apply bind_avoids; [by apply ensure_avoids|]. intros _ _. destruct f; [|done].
  apply bind_avoids; [by apply ensure_avoids|done].
Qed.
Lemma aligned_digits ds shift sig zeros : digits ds → aligned ds shift = Ok (sig, zeros) → digits sig.
Proof.
  unfold aligned. intros Hds. case_bool_decide; [|by intros [= <- <-]]. intros ([] & _ & [= <- <-])%bind_Ok. by apply Forall_take.
Qed.
Lemma parse_no_overflow value p s : parse value p s ≠ Err Overflow.
Proof.
  rewrite parse_unfold. apply bind_avoids; [by apply ensure_avoids|]. intros [] [Hp _]%validate_type_Ok. apply bind_avoids.
  { unfold split_exponent. destruct (list_find _ _) as [[i b]|]; [|done]. by destruct (parse_i32 _). }
  intros [m x] _. apply bind_avoids; [apply scan_no_overflow|]. intros [ds f] (i & g & _ & Hi & Hg & [= -> ->] & _)%scan_text.
  apply bind_avoids; [by apply ensure_avoids|]. intros [] _. unfold parse_digits. cbv zeta. case_bool_decide; [done|].
  do 2 (apply bind_avoids; [by apply ensure_avoids|intros [] _]). apply bind_avoids; [|done]. apply bind_avoids.
  { unfold aligned. case_bool_decide; [|done]. apply bind_avoids; [by apply ensure_avoids|done]. }
  intros [sig zeros] Hsig%aligned_digits; [|by apply strip_zeros_digits, Forall_app]. rewrite coefficient_of_value by (done || lia).
  by case_bool_decide.
Qed.

(** C21. Parsing NUMERIC text never rounds: [parse] returns [v] exactly when the type is one
    of 1 to 38 digits with a scale of at most the precision, the text is a numeral (an
    optional sign, at least one digit, at most one point, an optional exponent that fits 32
    bits) and [v · 10^-scale] equals the number it denotes, with at most [precision] digits;
    a numeral whose scale arithmetic leaves 32 bits is refused unless it denotes zero.  The
    128-bit coefficient never overflows, whatever the text. *)
Theorem numeric_parse_exact value p s :
  (∀ v, parse value p s = Ok v ↔
    1 ≤ p ≤ 38 ∧ s ≤ p ∧ Z.abs v < 10 ^ p ∧
    ∃ n x, value = numeral_text n ∧ numeral n x ∧ scale_fits n x s ∧ same_decimal v (- s) (coefficient n) (x - fraction n)) ∧
  parse value p s ≠ Err Overflow.
Proof.
  split; [|apply parse_no_overflow]. intros v. split.
  - intros H. destruct (parse_text _ _ _ _ H) as ([Hp Hs] & n & x & -> & Hn). apply (parse_numeral n x) in H as (? & ? & ?); [|done..].
    do 3 (split; [done|]). by exists n, x.
  - intros (Hp & Hs & Hv & n & x & -> & Hn & Hfit & Hsame). by apply (parse_numeral n x).
Qed.

(** ** Printing *)
Lemma decimal_digits fuel z : 0 ≤ z → digits (decimal fuel z).
Proof.
  induction fuel as [|fuel IH] in z |- *; intros Hz; cbn [decimal]; [done|]. case_bool_decide.
  - constructor; [lia|done].
  - apply Forall_app. split; [apply IH; by apply Z.div_pos|]. constructor; [|done]. pose proof (Z.mod_pos_bound z 10). lia.
Qed.
Lemma decimal_number fuel z : 0 ≤ z < 10 ^ Z.of_nat fuel → number (decimal fuel z) = z.
Proof.
  induction fuel as [|fuel IH] in z |- *; intros Hz; [cbn in *; lia|]. cbn [decimal]. rewrite Nat2Z.inj_succ, Z.pow_succ_r in Hz by lia.
  case_bool_decide; [rewrite number_cons; cbn; lia|]. pose proof (Z.div_mod z 10 ltac:(lia)). pose proof (Z.mod_pos_bound z 10 ltac:(lia)).
  rewrite number_app, IH, number_cons by (split; [apply Z.div_pos|apply Z.div_lt_upper_bound]; lia). cbn. lia.
Qed.
Lemma decimal_nonempty fuel z : decimal (S fuel) z ≠ [].
Proof. cbn [decimal]. case_bool_decide; [done|]. by intros []%app_eq_nil. Qed.

(** The numeral a value is printed as. *)
Definition printed (value scale : Z) : Numeral :=
  let m := decimal 39 (Z.abs value) in
  let k := Z.to_nat scale in
  let sg := if bool_decide (value < 0) then Some true else None in
  if bool_decide (scale ≤ 0) then
    {| sign := sg; int := m ++ (if bool_decide (value = 0) then [] else replicate (Z.to_nat (Z.abs scale)) 48); frac := None; exp := None |}
  else if bool_decide (length m ≤ k)%nat then
    {| sign := sg; int := [48]; frac := Some (replicate (k - length m) 48 ++ m); exp := None |}
  else {| sign := sg; int := firstn (length m - k) m; frac := Some (drop (length m - k) m); exp := None |}.

Lemma format_printed v p s t : format v p s = Ok t → t = numeral_text (printed v s) ∧ 1 ≤ p ≤ 38 ∧ s ≤ p ∧ Z.abs v < 10 ^ p.
Proof.
  unfold format, validate_value, printed. intros ([] & ([] & Ht%validate_type_Ok & Hv%ensure_Ok%bool_decide_eq_true)%bind_Ok & H)%bind_Ok.
  split; [|tauto]. unfold numeral_text, point_text.
  assert ((if bool_decide (v < 0) then [45] else []) = sign_text (if bool_decide (v < 0) then Some true else None)) as Es by (by destruct (bool_decide (v < 0))).
  rewrite Es in H. clear Es. set (sg := if bool_decide (v < 0) then Some true else None) in *. set (m := decimal 39 (Z.abs v)) in *. clearbody m sg.
  destruct (bool_decide (s ≤ 0)); [injection H as <-; cbn [sign int frac exp exp_text]; by rewrite !app_nil_r|].
  destruct (bool_decide (length m ≤ _)%nat); injection H as <-; cbn [sign int frac exp exp_text]; by rewrite app_nil_r.
Qed.

Lemma printed_numeral v s : numeral (printed v s) 0.
Proof.
  unfold printed. pose proof (decimal_digits 39 (Z.abs v) ltac:(lia)) as Hm. pose proof (decimal_nonempty 38 (Z.abs v)) as Hne.
  set (m := decimal 39 (Z.abs v)) in *. clearbody m.
  destruct (bool_decide (s ≤ 0)); [|destruct (bool_decide _)]; split; cbn [int frac exp default]; try done.
  - apply Forall_app. split; [done|]. case_bool_decide; [done|apply digits_zeros].
  - by intros [[? _]%app_eq_nil _]%app_eq_nil.
  - repeat constructor; lia.
  - apply Forall_app. split; [apply digits_zeros|done].
  - by apply Forall_take.
  - by apply Forall_drop.
  - unfold default; cbn [from_option id]; by rewrite take_drop.
Qed.

Lemma printed_value v s :
  Z.abs v < 10 ^ 39 → signed 1 s → scale_fits (printed v s) 0 s ∧ same_decimal v (- s) (coefficient (printed v s)) (0 - fraction (printed v s)).
Proof.
  intros Hv Hs. change (-128 ≤ s < 128) in Hs.
  assert (number (decimal 39 (Z.abs v)) = Z.abs v) as Hm by (apply decimal_number; lia).
  assert (∀ n, number (int n ++ default [] (frac n)) = Z.abs v * 10 ^ (fraction n - s) → s ≤ fraction n → 0 ≤ fraction n ≤ 127 →
    sign n = (if bool_decide (v < 0) then Some true else None) →
    scale_fits n 0 s ∧ same_decimal v (- s) (coefficient n) (0 - fraction n)) as Main.
  { intros n En Hle Hf Esg. unfold scale_fits, coefficient. rewrite En, Esg. split.
    - split; [lia|]. right. unfold in_i32. by rewrite !bool_decide_true by lia.
    - unfold same_decimal. rewrite Z.min_r by lia. rewrite Z.sub_diag, Z.pow_0_r. replace (- s - (0 - fraction n)) with (fraction n - s) by lia.
      destruct (decide (v < 0)) as [Hlt|Hlt]; [rewrite (bool_decide_true (v < 0) Hlt), Z.abs_neq by lia|rewrite (bool_decide_false (v < 0) Hlt), Z.abs_eq by lia];
        [rewrite bool_decide_true by done|rewrite bool_decide_false by done]; cbn [signed_by]; lia. }
  unfold printed in *. set (m := decimal 39 (Z.abs v)) in *.
  destruct (decide (s ≤ 0)) as [Hs0|Hs0]; [rewrite (bool_decide_true (s ≤ 0) Hs0)|rewrite (bool_decide_false (s ≤ 0) Hs0)].
  - destruct (decide (v = 0)) as [-> |Hv0].
    + cbn. unfold scale_fits, coefficient, same_decimal; cbn. split; [split; [lia|by left]|]. by rewrite Z.mul_0_l.
    + rewrite (bool_decide_false (v = 0)) by done. apply Main; cbn [int frac sign fraction frac_length]; try (unfold fraction; cbn; lia); [|done].
      unfold fraction, default; cbn [int frac frac_length from_option]. rewrite app_nil_r, number_app, number_zeros, length_replicate, Hm, Z2Nat.id by lia.
      rewrite Z.add_0_r. do 2 f_equal. lia.
  - destruct (decide (length m ≤ Z.to_nat s)%nat) as [Hk|Hk]; [rewrite (bool_decide_true _ Hk)|rewrite (bool_decide_false _ Hk)];
      apply Main; cbn [int frac sign]; unfold fraction, default; cbn [int frac frac_length from_option id]; try done;
      rewrite ?length_app, ?length_replicate, ?length_drop; try lia.
    + change [48] with (replicate 1 48). rewrite app_assoc, <-replicate_add, number_app, number_zeros, Hm, Z.mul_0_l. replace (Z.of_nat _ - s) with 0 by lia. lia.
    + rewrite take_drop, Hm. replace (Z.of_nat _ - s) with 0 by lia. lia.
Qed.

(** Printing a NUMERIC value and parsing the text gives the value back: every coefficient
    [format] accepts, at every precision and scale, is parsed to itself. *)
Theorem numeric_roundtrip v p s t : signed 1 s → format v p s = Ok t → parse t p s = Ok v.
Proof.
  intros Hs (-> & Hp & Hle & Hv)%format_printed. apply (parse_numeral _ 0); [apply printed_numeral|done..|].
  destruct (printed_value v s) as [? ?]; [|done|done]. eapply Z.lt_trans; [exact Hv|]. apply Z.pow_lt_mono_r; lia.
Qed.

(** ** The binary form *)
Definition base_digit (d : Z) : Prop := 0 ≤ d < 10000.
Definition low_value (ds : list Z) : Z := foldr (λ d a, d + 10000 * a) 0 ds.
Definition high_value (ds : list Z) : Z := foldl (λ a d, a * 10000 + d) 0 ds.
(** A NUMERIC field of the binary COPY format: its length, the number of base-10000 digits,
    the weight of the first, the sign, the display scale and the digits. *)
Definition numeric_field (negative : bool) (weight dscale : Z) (ds : list Z) : list Z :=
  be_bytes 4 (8 + 2 * Z.of_nat (length ds)) ++ be_bytes 2 (Z.of_nat (length ds)) ++ be_bytes 2 weight ++
  be_bytes 2 (if negative then 16384 else 0) ++ be_bytes 2 dscale ++ (ds ≫= be_bytes 2).

Lemma high_value_reverse ds : high_value (reverse ds) = low_value ds.
Proof.
  unfold high_value, low_value.
  induction ds as [|d ds IH]; [done|]. rewrite reverse_cons, foldl_app, IH. cbn. lia.
Qed.
Lemma base_digits_value room factor m c :
  0 ≤ m → 0 ≤ c → 1 ≤ factor → m * factor + c < 10000 ^ Z.of_nat room →
  ∃ ds, base_digits room factor m c = Ok ds ∧ low_value ds = m * factor + c ∧ Forall base_digit ds ∧ (length ds ≤ room)%nat ∧
        last ds ≠ Some 0.
Proof.
  induction room as [|room IH] in m, c |- *; intros Hm Hc Hf Hlt; cbn [base_digits].
  { assert (m = 0 ∧ c = 0) as [-> ->] by (cbn in Hlt; nia). exists []. by repeat split. }
  destruct (decide (m = 0 ∧ c = 0)) as [[-> ->]|Hne]; [exists []; repeat split; try done; cbn; lia|].
  assert (bool_decide (m = 0) && bool_decide (c = 0) = false) as -> by (apply andb_false_iff; rewrite !bool_decide_eq_false; lia).
  set (digit := m `mod` 10000 * factor + c).
  pose proof (Z.div_mod m 10000 ltac:(lia)) as Em. pose proof (Z.mod_pos_bound m 10000 ltac:(lia)) as Bm.
  pose proof (Z.div_mod digit 10000 ltac:(lia)) as Ed. pose proof (Z.mod_pos_bound digit 10000 ltac:(lia)) as Bd.
  assert (0 ≤ m `div` 10000) by (apply Z.div_pos; lia). assert (0 ≤ digit) by (unfold digit; nia).
  assert (0 ≤ digit `div` 10000) by (apply Z.div_pos; lia).
  assert (m * factor + c = 10000 * (m `div` 10000 * factor + digit `div` 10000) + digit `mod` 10000) as Es.
  { rewrite Em at 1. unfold digit in *. nia. }
  rewrite Nat2Z.inj_succ, Z.pow_succ_r in Hlt by lia.
  destruct (IH (m `div` 10000) (digit `div` 10000)) as (ds & -> & Ev & Hds & Hlen & Hlast); [lia..|]. cbn [mbind result_bind].
  exists (digit `mod` 10000 :: ds). split_and!; [done| | |cbn; lia|].
  - cbn [low_value foldr]. unfold low_value in Ev. rewrite Ev. lia.
  - by constructor.
  - destruct ds as [|d ds]; [|done]. cbn. intros [= E]. cbn in Ev. unfold digit in *. nia.
Qed.
Lemma strip_low_split ds : ∃ z, ds = replicate z 0 ++ strip_low ds ∧ head (strip_low ds) ≠ Some 0.
Proof.
  induction ds as [|d ds (z & E & Hh)]; [by exists 0%nat|]. cbn [strip_low]. case_bool_decide; [|exists 0%nat; split; [done|cbn; congruence]].
  subst. exists (S z). split; [cbn; by f_equal|done].
Qed.
Lemma low_value_zeros z ds : low_value (replicate z 0 ++ ds) = 10000 ^ Z.of_nat z * low_value ds.
Proof.
  induction z as [|z IH]; [change (10000 ^ Z.of_nat 0) with 1; cbn [replicate app]; lia|]. cbn [replicate app]. cbn [low_value foldr]. unfold low_value in IH. rewrite IH.
  rewrite Nat2Z.inj_succ, Z.pow_succ_r by lia. unfold low_value. lia.
Qed.
Lemma same_decimal_nonneg a x b y : 0 ≤ x → 0 ≤ y → same_decimal a x b y ↔ a * 10 ^ x = b * 10 ^ y.
Proof.
  intros Hx Hy. unfold same_decimal. set (k := Z.min x y). assert (0 < 10 ^ k) by (apply pow10_pos; lia).
  replace (10 ^ x) with (10 ^ (x - k) * 10 ^ k) by (rewrite <-Z.pow_add_r by lia; f_equal; lia).
  replace (10 ^ y) with (10 ^ (y - k) * 10 ^ k) by (rewrite <-Z.pow_add_r by lia; f_equal; lia). nia.
Qed.

(** The digits of a value: of [|v| · 10^-s] in base 10000, from the digit of weight [w] down. *)
Record numeric_digits (v s w : Z) (ds : list Z) : Prop := {
  digits_range : Forall base_digit ds;
  digits_first : head ds ≠ Some 0;
  digits_last : last ds ≠ Some 0;
  digits_count : (length ds ≤ 11)%nat;
  digits_weight : signed 2 w;
  digits_value : same_decimal (Z.abs v) (- s) (high_value ds) (4 * (w - (Z.of_nat (length ds) - 1)))
}.

Lemma kept_digits v s reversed :
  signed 1 s → let factor := 10 ^ ((- s) `mod` 4) in
  low_value reversed = Z.abs v * factor → Forall base_digit reversed → (length reversed ≤ 11)%nat → last reversed ≠ Some 0 →
  numeric_digits v s (if bool_decide (length reversed = 0%nat) then 0 else Z.of_nat (length reversed) - 1 + (- s) `div` 4) (reverse (strip_low reversed)).
Proof.
  intros Hs factor Ev Hd Hlen Hlast. change (-128 ≤ s < 128) in Hs. destruct (strip_low_split reversed) as (z & Er & Hh).
  pose proof (Z.div_mod (- s) 4 ltac:(lia)) as Edm. pose proof (Z.mod_pos_bound (- s) 4 ltac:(lia)) as Bm.
  assert (length reversed = z + length (strip_low reversed))%nat as El by (rewrite Er at 1; by rewrite length_app, length_replicate).
  assert (Forall base_digit (strip_low reversed)) by (rewrite Er in Hd; by apply Forall_app in Hd as [_ ?]).
  split.
  - by apply Forall_reverse.
  - rewrite head_reverse. destruct (strip_low reversed) as [|d k] eqn:Ek; [done|]. rewrite Er, last_app_cons in Hlast. done.
  - by rewrite last_reverse.
  - rewrite length_reverse. lia.
  - change (-32768 ≤ (if bool_decide (length reversed = 0%nat) then 0 else Z.of_nat (length reversed) - 1 + (- s) `div` 4) < 32768).
    case_bool_decide; lia.
  - rewrite length_reverse, high_value_reverse. rewrite Er, low_value_zeros in Ev. case_bool_decide as H0.
    + apply nil_length_inv in H0. subst reversed. destruct z; [|done]. cbn in Ev |- *. assert (Z.abs v = 0) as -> by (unfold factor in *; pose proof (pow10_pos ((- s) `mod` 4)); nia).
      by apply same_decimal_zero.
    + set (q := (- s) `div` 4) in *. replace (4 * _) with (4 * Z.of_nat z + 4 * q) by lia. replace (- s) with ((- s) `mod` 4 + 4 * q) by lia.
      rewrite <-same_decimal_shift, same_decimal_nonneg by lia. fold factor. rewrite <-Ev, (Z.pow_mul_r 10 4) by lia. change (10 ^ 4) with 10000. lia.
Qed.

(** The binary COPY field of a NUMERIC value is exact: [encode_binary] appends one field
    for every value within its precision, and nothing for another, whose base-10000 digits
    (at most eleven, the first and the last not zero) at its weight make up [|value| ·
    10^-scale] with the value's sign and display scale; the digit buffer is never overrun. *)
Theorem numeric_binary_exact output v p s :
  signed 1 s →
  match encode_binary output v p s with
  | Ok bytes => Z.abs v < 10 ^ p ∧ ∃ w ds, numeric_digits v s w ds ∧ bytes = output ++ numeric_field (bool_decide (v < 0)) w (Z.max s 0) ds
  | Err e => validate_value v p s = Err e ∧ e ≠ IndexOutOfBounds
  end.
Proof.
  intros Hs. unfold encode_binary. destruct (validate_value v p s) as [[]|e] eqn:V; cbn [mbind result_bind]; cycle 1.
  { split; [done|]. assert (validate_value v p s ≠ Err IndexOutOfBounds); [|congruence].
    apply bind_avoids; [by apply ensure_avoids|]. intros [] _. by apply ensure_avoids. }
  unfold validate_value in V. apply bind_Ok in V as ([] & [Hp _]%validate_type_Ok & Hv%ensure_Ok%bool_decide_eq_true).
  set (factor := 10 ^ ((- s) `mod` 4)). pose proof (Z.mod_pos_bound (- s) 4 ltac:(lia)) as Bm.
  assert (1 ≤ factor ≤ 1000) as [F1 F2].
  { unfold factor. split; [apply (Z.pow_le_mono_r 10 0); lia|apply (Z.pow_le_mono_r 10 _ 3); lia]. }
  assert (10 ^ p ≤ 10 ^ 38) by (apply Z.pow_le_mono_r; lia).
  destruct (base_digits_value 11 factor (Z.abs v) 0) as (ds & -> & Ev & Hd & Hlen & Hlast); [lia..| |].
  { assert (10 ^ 38 * 1000 < 10000 ^ Z.of_nat 11) by done. nia. }
  cbn [mbind result_bind]. split; [done|]. eexists _, (reverse (strip_low ds)). split; [apply kept_digits; [done|by rewrite Ev, Z.add_0_r|done..]|].
  unfold numeric_field. by rewrite length_reverse.
Qed.

(** ** The type modifier *)
(** PostgreSQL packs precision and scale into the modifier of a NUMERIC column. *)
Definition typmod (precision scale : Z) : Z := Z.lor (Z.shiftl precision 16) (Z.land scale 2047) + 4.
Lemma numeric_type_exact p s : 1 ≤ p ≤ 38 → -128 ≤ s ≤ p → numeric_data_type (typmod p s) = Ok (Decimal128 p s).
Proof.
  intros Hp Hs. set (check := λ p s, bool_decide (p < s) || match numeric_data_type (typmod p s) with Ok t => bool_decide (t = Decimal128 p s) | Err _ => false end).
  assert (Forall (λ p, Forall (λ s, check p s = true) (seqZ (-128) 167)) (seqZ 1 38)) as F by (apply (bool_decide_unpack _); vm_compute; exact I).
  rewrite Forall_forall in F. specialize (F p). rewrite Forall_forall in F. specialize (F ltac:(apply elem_of_seqZ; lia) s ltac:(apply elem_of_seqZ; lia)).
  unfold check in F. rewrite bool_decide_false in F by lia. destruct (numeric_data_type _); [|done]. cbn in F. by apply bool_decide_eq_true in F as ->.
Qed.
Lemma numeric_type_bounds m t : numeric_data_type m = Ok t → ∃ p s, t = Decimal128 p s ∧ 1 ≤ p ≤ 38 ∧ -128 ≤ s ≤ p.
Proof.
  unfold numeric_data_type. intros ([] & _ & ([] & _ & ([] & Hs%ensure_Ok & ([] & Ht%validate_type_Ok & [= <-])%bind_Ok)%bind_Ok)%bind_Ok)%bind_Ok.
  apply bool_decide_eq_true in Hs. do 2 eexists. split; [done|]. lia.
Qed.

(** ** Examples *)
Module NumericExample.
Definition text (s : string) : list Z := string_bytes s.

Lemma numeric_roundtrip_witness : parse (text "-12.3450") 8 4 = Ok (-123450).
Proof. apply (numeric_roundtrip (-123450) 8 4); by vm_compute. Defined.
Lemma numeric_binary_exact_witness :
  ∃ w ds, numeric_digits (-1) 2 w ds ∧ [0; 0; 0; 10; 0; 1; 255; 255; 64; 0; 0; 2; 0; 100] = [] ++ numeric_field true w 2 ds.
Proof. apply (numeric_binary_exact [] (-1) 2 2). by vm_compute. Defined.

Example parse_examples :
  parse (text "1.2345e2") 8 4 = Ok 1234500 ∧ parse (text "12000") 4 (-3) = Ok 12 ∧ parse (text "0000001.00") 3 2 = Ok 100 ∧
  parse (text "1.001") 4 2 = Err Inexact ∧ parse (text "12345") 4 2 = Err ExceedsPrecision ∧ parse (text "NaN") 4 2 = Err BadDigit ∧
  parse (text "1..0") 4 2 = Err BadDigit ∧ parse [] 4 2 = Err EmptyCoefficient ∧ parse (text "1e2147483647") 4 2 = Err ScaleOverflow.
Proof. by vm_compute. Qed.
Example encode_examples :
  encode_binary [] 123456789 12 4 = Ok [0; 0; 0; 14; 0; 3; 0; 1; 0; 0; 0; 4; 0; 1; 9; 41; 26; 133] ∧
  encode_binary [] 12 4 (-3) = Ok [0; 0; 0; 12; 0; 2; 0; 1; 0; 0; 0; 0; 0; 1; 7; 208].
Proof. by vm_compute. Qed.
End NumericExample.
