(* ===== verification/PgOutput.v ===== *)
(** * The pgoutput decoder of PostgreSQL replication

    [src_stream/event.rs] and [src_stream/pgoutput.rs] of transferia-connector-postgres: the
    messages of the logical replication protocol, decoded into the changes of a transaction,
    which are emitted when it commits.  [Bytes] is the list of the bytes that are left; a
    reader returns what it took and the rest.  [Message] is the protocol's grammar, with the
    bytes [encode] gives a message and the effect [apply] it should have on the decoder. *)

From stdpp Require Import base tactics numbers option strings gmap list.
From S2P Require Import Prelude Bytes Text Schema.
Local Open Scope Z_scope.

(** ** event.rs *)
Inductive LogicalValue := Null | UnchangedToast | TextValue (bytes : list Z) | BinaryValue (bytes : list Z).
Inductive OldValuesKind := Key | Full.
Record RelationColumn := { column_name : string; type_oid : Z; type_modifier : Z; key : bool }.
Record Relation := {
  oid : Z; schema : string; table : string; replica_identity : Z; columns : list RelationColumn
}.
Record ChangeEvent := {
  e_schema : string; e_table : string; operation : ChangeOperation; values : list LogicalValue;
  old_values : option (list LogicalValue); old_values_kind : option OldValuesKind; lsn : Z; transaction_id : Z;
  commit_timestamp_micros : Z
}.

(** ** pgoutput.rs *)
Definition POSTGRES_EPOCH_UNIX_MICROS : Z := 946684800000000.

Record PendingChange := {
  p_relation : Relation; p_operation : ChangeOperation; p_values : list LogicalValue;
  p_old_values : option (list LogicalValue); p_old_values_kind : option OldValuesKind
}.
Record Transaction := { xid : Z; begin_timestamp_micros : Z; changes : list PendingChange }.
Record PgOutputDecoder := { relations : gmap Z Relation; transaction : option Transaction }.
Record PgOutputEvent := { event : ChangeEvent; relation_of : Relation }.
Definition new_decoder : PgOutputDecoder := {| relations := ∅; transaction := None |}.

Inductive PgOutputError :=
| EmptyMessage | Truncate | UnsupportedTag (tag : Z) | TrailingBytes | NestedTransaction | TimestampOverflow | CommitWithoutBegin
| TimestampMismatch | UnknownRelation (id : Z) | OutsideTransaction | InvalidTupleTag (tag : Z) | ColumnCount (count expected : nat)
| InvalidValueTag (tag : Z) | TruncatedValue | TruncatedMessage | UnterminatedString | NotUtf8 | UnexpectedTag (tag : Z).

(** *** Readers *)
Definition reader (A : Type) : Type := list Z → result PgOutputError (A * list Z).
#[export] Instance reader_ret : MRet reader := λ A a input, Ok (a, input).
#[export] Instance reader_bind : MBind reader := λ A B f m input,
  match m input with Ok (a, rest) => f a rest | Err e => Err e end.
Definition refuse {A} (e : PgOutputError) : reader A := λ _, Err e.
Definition check {A} (r : result PgOutputError A) : reader A := λ input, match r with Ok a => Ok (a, input) | Err e => Err e end.

Definition peek_u8 : reader Z := λ input, match input with b :: _ => Ok (b, input) | [] => Err TruncatedMessage end.
Definition take_u8 : reader Z := λ input, match input with b :: rest => Ok (b, rest) | [] => Err TruncatedMessage end.
(** [split_to] after a check of [remaining]. *)
Definition split_to (n : nat) (e : PgOutputError) : reader (list Z) := λ input,
  if bool_decide (n ≤ length input)%nat then Ok (firstn n input, drop n input) else Err e.
Definition from_be_bytes (l : list Z) : Z := from_le_bytes (reverse l).
(** A big-endian integer, unsigned or in two's complement. *)
Definition take_unsigned (n : nat) : reader Z := b ← split_to n TruncatedMessage; mret (from_be_bytes b).
Definition take_signed (n : nat) : reader Z :=
  z ← take_unsigned n;
  mret (if bool_decide (z < 2 ^ (8 * Z.of_nat n - 1)) then z else z - 2 ^ (8 * Z.of_nat n)).
Definition take_u16 : reader Z := take_unsigned 2.
Definition take_u32 : reader Z := take_unsigned 4.
Definition take_i32 : reader Z := take_signed 4.
Definition take_u64 : reader Z := take_unsigned 8.
Definition take_i64 : reader Z := take_signed 8.

Definition expect_tag (expected : Z) : reader unit :=
  actual ← take_u8; check (ensure (bool_decide (actual = expected)) (UnexpectedTag actual)).
Definition take_sized : reader (list Z) := len ← take_u32; split_to (Z.to_nat len) TruncatedValue.
Fixpoint position_of_zero (l : list Z) : option nat :=
  match l with [] => None | b :: l => if bool_decide (b = 0) then Some 0%nat else S <$> position_of_zero l end.
Definition take_cstring : reader string := λ input,
  match position_of_zero input with
  | None => Err UnterminatedString
  | Some end_ => check (ok_or (from_utf8 (firstn end_ input)) NotUtf8) (drop (S end_) input)
  end.
Definition take_value : reader LogicalValue :=
  tag ← take_u8;
  if bool_decide (tag = 110) then mret Null
  else if bool_decide (tag = 117) then mret UnchangedToast
  else if bool_decide (tag = 116) then b ← take_sized; mret (TextValue b)
  else if bool_decide (tag = 98) then b ← take_sized; mret (BinaryValue b)
  else refuse (InvalidValueTag tag).
(** [(0..n).map(…).collect()] *)
Fixpoint take_many {A} (n : nat) (p : reader A) : reader (list A) :=
  match n with O => mret [] | S n => x ← p; l ← take_many n p; mret (x :: l) end.
Definition take_tuple (expected_columns : nat) : reader (list LogicalValue) :=
  count ← take_u16;
  _ ← check (ensure (bool_decide (Z.to_nat count = expected_columns)) (ColumnCount (Z.to_nat count) expected_columns));
  take_many (Z.to_nat count) take_value.
Definition take_column : reader RelationColumn :=
  flags ← take_u8; n ← take_cstring; t ← take_u32; m ← take_i32;
  mret {| column_name := n; type_oid := t; type_modifier := m; key := bool_decide (Z.land flags 1 = 1) |}.

(** *** Messages *)
Definition with_transaction (d : PgOutputDecoder) (t : option Transaction) : PgOutputDecoder :=
  {| relations := relations d; transaction := t |}.
Definition unix_micros (commit_time : Z) : result PgOutputError Z :=
  ok_or (checked_add i64_max commit_time POSTGRES_EPOCH_UNIX_MICROS) TimestampOverflow.

Definition begin (d : PgOutputDecoder) : reader PgOutputDecoder :=
  _ ← check (ensure (match transaction d with None => true | Some _ => false end) NestedTransaction);
  _ ← take_u64; commit_time ← take_i64; x ← take_u32;
  micros ← check (unix_micros commit_time);
  mret (with_transaction d (Some {| xid := x; begin_timestamp_micros := micros; changes := [] |})).

Definition event_of (end_lsn micros x : Z) (c : PendingChange) : PgOutputEvent :=
  {| event := {| e_schema := schema (p_relation c); e_table := table (p_relation c); operation := p_operation c;
                 values := p_values c; old_values := p_old_values c; old_values_kind := p_old_values_kind c; lsn := end_lsn;
                 transaction_id := x; commit_timestamp_micros := micros |};
     relation_of := p_relation c |}.
(** The fields of COMMIT that are used: the end of the transaction and its time. *)
Definition take_commit : reader (Z * Z) := _ ← take_u8; _ ← take_u64; end_lsn ← take_u64; commit_time ← take_i64; mret (end_lsn, commit_time).
(** [commit]: the transaction is taken before its timestamp is checked. *)
Definition commit (d : PgOutputDecoder) (input : list Z) : PgOutputDecoder * result PgOutputError (list PgOutputEvent) :=
  match take_commit input with
  | Err e => (d, Err e)
  | Ok ((end_lsn, commit_time), _) =>
      match transaction d with
      | None => (d, Err CommitWithoutBegin)
      | Some t =>
          (with_transaction d None,
           unix_micros commit_time ≫= λ micros,
           ensure (bool_decide (begin_timestamp_micros t = micros)) TimestampMismatch ≫= λ _,
           Ok (event_of end_lsn micros (xid t) <$> changes t))
      end
  end.

Definition relation (d : PgOutputDecoder) : reader PgOutputDecoder :=
  id ← take_u32; s ← take_cstring; t ← take_cstring; identity ← take_u8; count ← take_u16;
  cs ← take_many (Z.to_nat count) take_column;
  mret {| relations := <[id := {| oid := id; schema := s; table := t; replica_identity := identity; columns := cs |}]> (relations d);
          transaction := transaction d |}.
Definition origin (d : PgOutputDecoder) : reader PgOutputDecoder := _ ← take_u64; _ ← take_cstring; mret d.
Definition type_message (d : PgOutputDecoder) : reader PgOutputDecoder := _ ← take_u32; _ ← take_cstring; _ ← take_cstring; mret d.

Definition take_relation (d : PgOutputDecoder) : reader Relation :=
  id ← take_u32; check (ok_or (relations d !! id) (UnknownRelation id)).
Definition push_change (d : PgOutputDecoder) (c : PendingChange) : result PgOutputError PgOutputDecoder :=
  ok_or (transaction d) OutsideTransaction ≫= λ t,
  Ok (with_transaction d (Some {| xid := xid t; begin_timestamp_micros := begin_timestamp_micros t; changes := changes t ++ [c] |})).

Definition insert_row (d : PgOutputDecoder) : reader PgOutputDecoder :=
  r ← take_relation d; _ ← expect_tag 78; vs ← take_tuple (length (columns r));
  check (push_change d {| p_relation := r; p_operation := Create; p_values := vs; p_old_values := None; p_old_values_kind := None |}).
Definition update_row (d : PgOutputDecoder) : reader PgOutputDecoder :=
  r ← take_relation d;
  tag ← peek_u8;
  old ← (if bool_decide (tag = 75) || bool_decide (tag = 79) then
           _ ← take_u8; l ← take_tuple (length (columns r)); mret (Some (if bool_decide (tag = 75) then Key else Full, l))
         else if bool_decide (tag = 78) then mret None
         else refuse (InvalidTupleTag tag));
  _ ← expect_tag 78; vs ← take_tuple (length (columns r));
  check (push_change d {| p_relation := r; p_operation := Update; p_values := vs; p_old_values := snd <$> old; p_old_values_kind := fst <$> old |}).
Definition delete_row (d : PgOutputDecoder) : reader PgOutputDecoder :=
  r ← take_relation d;
  tag ← take_u8;
  kind ← (if bool_decide (tag = 75) then mret Key else if bool_decide (tag = 79) then mret Full else refuse (InvalidTupleTag tag));
  olds ← take_tuple (length (columns r));
  check (push_change d {| p_relation := r; p_operation := Delete; p_values := replicate (length olds) Null;
                          p_old_values := Some olds; p_old_values_kind := Some kind |}).

(** The message with a tag; a reader that fails leaves the decoder as it was. *)
Definition message_reader (d : PgOutputDecoder) (tag : Z) : reader PgOutputDecoder :=
  if bool_decide (tag = 66) then begin d
  else if bool_decide (tag = 82) then relation d
  else if bool_decide (tag = 73) then insert_row d
  else if bool_decide (tag = 85) then update_row d
  else if bool_decide (tag = 68) then delete_row d
  else if bool_decide (tag = 79) then origin d
  else if bool_decide (tag = 89) then type_message d
  else refuse (if bool_decide (tag = 84) then Truncate else UnsupportedTag tag).

Definition decode (d : PgOutputDecoder) (data : list Z) : PgOutputDecoder * result PgOutputError (list PgOutputEvent) :=
  match data with
  | [] => (d, Err EmptyMessage)
  | tag :: input =>
      if bool_decide (tag = 67) then commit d input
      else match message_reader d tag input with
      | Err e => (d, Err e)
      | Ok (d, []) => (d, Ok [])
      | Ok (d, _) => (d, Err TrailingBytes)
      end
  end.

(** ** The protocol *)
Record ColumnMessage := { flags : Z; cm_name : string; cm_type : Z; cm_modifier : Z }.
Inductive Message :=
| BeginMessage (final_lsn commit_time x : Z)
| CommitMessage (commit_flags commit_lsn end_lsn commit_time : Z)
| RelationMessage (id : Z) (s t : string) (identity : Z) (cols : list ColumnMessage)
| InsertMessage (id : Z) (new : list LogicalValue)
| UpdateMessage (id : Z) (old : option (OldValuesKind * list LogicalValue)) (new : list LogicalValue)
| DeleteMessage (id : Z) (kind : OldValuesKind) (old : list LogicalValue)
| OriginMessage (origin_lsn : Z) (origin_name : string)
| TypeMessage (id : Z) (ns n : string).

Definition encode_cstring (s : string) : list Z := string_bytes s ++ [0].
Definition encode_sized (b : list Z) : list Z := be_bytes 4 (Z.of_nat (length b)) ++ b.
Definition encode_value (v : LogicalValue) : list Z :=
  match v with Null => [110] | UnchangedToast => [117] | TextValue b => 116 :: encode_sized b | BinaryValue b => 98 :: encode_sized b end.
Definition encode_tuple (l : list LogicalValue) : list Z := be_bytes 2 (Z.of_nat (length l)) ++ (l ≫= encode_value).
Definition encode_column (c : ColumnMessage) : list Z :=
  flags c :: encode_cstring (cm_name c) ++ be_bytes 4 (cm_type c) ++ be_bytes 4 (cm_modifier c).
Definition encode_kind (k : OldValuesKind) : Z := match k with Key => 75 | Full => 79 end.
Definition encode (m : Message) : list Z :=
  match m with
  | BeginMessage l t x => 66 :: be_bytes 8 l ++ be_bytes 8 t ++ be_bytes 4 x
  | CommitMessage f c l t => 67 :: f :: be_bytes 8 c ++ be_bytes 8 l ++ be_bytes 8 t
  | RelationMessage id s t i cols =>
      82 :: be_bytes 4 id ++ encode_cstring s ++ encode_cstring t ++ i :: be_bytes 2 (Z.of_nat (length cols)) ++ (cols ≫= encode_column)
  | InsertMessage id new => 73 :: be_bytes 4 id ++ 78 :: encode_tuple new
  | UpdateMessage id old new =>
      85 :: be_bytes 4 id ++
        (match old with Some (k, l) => encode_kind k :: encode_tuple l | None => [] end) ++ 78 :: encode_tuple new
  | DeleteMessage id kind old => 68 :: be_bytes 4 id ++ encode_kind kind :: encode_tuple old
  | OriginMessage l n => 79 :: be_bytes 8 l ++ encode_cstring n
  | TypeMessage id ns n => 89 :: be_bytes 4 id ++ encode_cstring ns ++ encode_cstring n
  end.

Definition typed_string (s : string) : Prop := well_formed s ∧ 0 ∉ string_bytes s.
Definition typed_value (v : LogicalValue) : Prop :=
  match v with TextValue b | BinaryValue b => Forall byte b ∧ unsigned 4 (Z.of_nat (length b)) | _ => True end.
Definition typed_tuple (l : list LogicalValue) : Prop := unsigned 2 (Z.of_nat (length l)) ∧ Forall typed_value l.
Definition typed_column (c : ColumnMessage) : Prop :=
  byte (flags c) ∧ typed_string (cm_name c) ∧ unsigned 4 (cm_type c) ∧ signed 4 (cm_modifier c).
Definition typed (m : Message) : Prop :=
  match m with
  | BeginMessage l t x => unsigned 8 l ∧ signed 8 t ∧ unsigned 4 x
  | CommitMessage f c l t => byte f ∧ unsigned 8 c ∧ unsigned 8 l ∧ signed 8 t
  | RelationMessage id s t i cols =>
      unsigned 4 id ∧ typed_string s ∧ typed_string t ∧ byte i ∧ unsigned 2 (Z.of_nat (length cols)) ∧ Forall typed_column cols
  | InsertMessage id new => unsigned 4 id ∧ typed_tuple new
  | UpdateMessage id old new => unsigned 4 id ∧ (∀ k l, old = Some (k, l) → typed_tuple l) ∧ typed_tuple new
  | DeleteMessage id _ old => unsigned 4 id ∧ typed_tuple old
  | OriginMessage l n => unsigned 8 l ∧ typed_string n
  | TypeMessage id ns n => unsigned 4 id ∧ typed_string ns ∧ typed_string n
  end.

(** The effect of a message: [None] when the decoder must refuse it. *)
Definition column_of (c : ColumnMessage) : RelationColumn :=
  {| column_name := cm_name c; type_oid := cm_type c; type_modifier := cm_modifier c; key := Z.odd (flags c) |}.
Definition fits (r : Relation) (l : list LogicalValue) : bool := bool_decide (length l = length (columns r)).
Definition push (d : PgOutputDecoder) (c : PendingChange) : option (PgOutputDecoder * list PgOutputEvent) :=
  t ← transaction d;
  Some (with_transaction d (Some {| xid := xid t; begin_timestamp_micros := begin_timestamp_micros t; changes := changes t ++ [c] |}), []).
Definition time_fits (t : Z) : bool := bool_decide (t + POSTGRES_EPOCH_UNIX_MICROS ≤ i64_max).
Definition apply (d : PgOutputDecoder) (m : Message) : option (PgOutputDecoder * list PgOutputEvent) :=
  match m with
  | BeginMessage _ t x =>
      match transaction d with
      | None =>
          if time_fits t
          then Some (with_transaction d (Some {| xid := x; begin_timestamp_micros := t + POSTGRES_EPOCH_UNIX_MICROS; changes := [] |}), [])
          else None
      | Some _ => None
      end
  | CommitMessage _ _ l t =>
      match transaction d with
      | Some tx =>
          if time_fits t && bool_decide (begin_timestamp_micros tx = t + POSTGRES_EPOCH_UNIX_MICROS)
          then Some (with_transaction d None, event_of l (t + POSTGRES_EPOCH_UNIX_MICROS) (xid tx) <$> changes tx)
          else None
      | None => None
      end
  | RelationMessage id s t i cols =>
      Some ({| relations := <[id := {| oid := id; schema := s; table := t; replica_identity := i; columns := column_of <$> cols |}]> (relations d);
               transaction := transaction d |}, [])
  | InsertMessage id new =>
      match relations d !! id with
      | Some r =>
          if fits r new
          then push d {| p_relation := r; p_operation := Create; p_values := new; p_old_values := None; p_old_values_kind := None |}
          else None
      | None => None
      end
  | UpdateMessage id old new =>
      match relations d !! id with
      | Some r =>
          if from_option (fits r ∘ snd) true old && fits r new
          then push d {| p_relation := r; p_operation := Update; p_values := new; p_old_values := snd <$> old; p_old_values_kind := fst <$> old |}
          else None
      | None => None
      end
  | DeleteMessage id kind old =>
      match relations d !! id with
      | Some r =>
          if fits r old
          then push d {| p_relation := r; p_operation := Delete; p_values := replicate (length old) Null; p_old_values := Some old;
                         p_old_values_kind := Some kind |}
          else None
      | None => None
      end
  | OriginMessage _ _ | TypeMessage _ _ _ => Some (d, [])
  end.

(** ** Readers read exactly what is encoded *)
Definition reads {A} (p : reader A) (e : A → list Z) (ok : A → Prop) : Prop :=
  (∀ x rest, ok x → p (e x ++ rest) = Ok (x, rest)) ∧
  (∀ b x rest, Forall byte b → p b = Ok (x, rest) → ok x ∧ b = e x ++ rest ∧ Forall byte rest).

Lemma reader_bind_Ok {A B} (m : reader A) (f : A → reader B) b y rest :
  (m ≫= f) b = Ok (y, rest) → ∃ x r, m b = Ok (x, r) ∧ f x r = Ok (y, rest).
Proof. unfold mbind, reader_bind. destruct (m b) as [[x r]|e]; [eauto|done]. Qed.
Lemma reader_bind_reads {A B} (m : reader A) (f : A → reader B) e ok x rest :
  reads m e ok → ok x → (m ≫= f) (e x ++ rest) = f x rest.
Proof. intros [Hc _] Hx. unfold mbind, reader_bind. by rewrite Hc. Qed.
Lemma check_bind {A B} (r : result PgOutputError A) (f : A → reader B) b :
  (check r ≫= f) b = match r with Ok a => f a b | Err e => Err e end.
Proof. unfold mbind, reader_bind, check. by destruct r. Qed.
Lemma check_bind_Ok {A B} (r : result PgOutputError A) (f : A → reader B) b y rest :
  (check r ≫= f) b = Ok (y, rest) → ∃ a, r = Ok a ∧ f a b = Ok (y, rest).
Proof. rewrite check_bind. destruct r; [eauto|done]. Qed.

Lemma split_to_Ok n e b x rest : split_to n e b = Ok (x, rest) → b = x ++ rest ∧ length x = n.
Proof. unfold split_to. case_bool_decide; [|done]. intros [= <- <-]. split; [by rewrite take_drop|rewrite length_take; lia]. Qed.
Lemma split_to_app n e x rest : length x = n → split_to n e (x ++ rest) = Ok (x, rest).
Proof. intros <-. unfold split_to. rewrite bool_decide_eq_true_2 by (rewrite length_app; lia). by rewrite take_app_length, drop_app_length. Qed.
Lemma Forall_byte_app b x rest : Forall byte b → b = x ++ rest → Forall byte x ∧ Forall byte rest.
Proof. intros Hb ->. by apply Forall_app in Hb. Qed.

Lemma take_unsigned_reads n : reads (take_unsigned n) (be_bytes n) (unsigned n).
Proof.
  assert (256 ^ Z.of_nat n = 2 ^ (8 * Z.of_nat n)) as E by (change 256 with (2 ^ 8); by rewrite <-Z.pow_mul_r by lia).
  split.
  - intros x rest Hx. unfold take_unsigned, mbind, reader_bind. rewrite split_to_app by apply length_be_bytes.
    unfold mret, reader_ret, from_be_bytes, be_bytes. rewrite reverse_involutive, from_le_le, E. by rewrite Z.mod_small.
  - intros b x rest Hb H. apply reader_bind_Ok in H as (l & r & [-> Hl]%split_to_Ok & [= <- <-]).
    apply Forall_app in Hb as [Hb Hr]. assert (Forall byte (reverse l)) as Hb' by (by apply Forall_reverse).
    unfold from_be_bytes, be_bytes. pose proof (from_le_range _ Hb') as R. pose proof (le_from_le _ Hb') as L.
    rewrite length_reverse, Hl in R, L. rewrite E in R. split_and!; [exact R| |done]. by rewrite L, reverse_involutive.
Qed.

(** A reader followed by a conversion that the encoding undoes. *)
Lemma reads_map {A B} (p : reader A) e ok (f : A → B) (g : B → A) ok' :
  reads p e ok → (∀ x, ok x → ok' (f x) ∧ g (f x) = x) → (∀ y, ok' y → ok (g y) ∧ f (g y) = y) →
  reads (x ← p; mret (f x)) (λ y, e (g y)) ok'.
Proof.
  intros Hp Hf Hg. split.
  - intros y rest Hy. destruct (Hg y Hy) as [Ho E]. rewrite (reader_bind_reads p _ e ok) by done. unfold mret, reader_ret. by rewrite E.
  - intros b y rest Hb H. apply reader_bind_Ok in H as (x & r & H & [= <- <-]). destruct (proj2 Hp _ _ _ Hb H) as (Ho & -> & Hr).
    destruct (Hf x Ho) as [Ho' E]. by rewrite E.
Qed.

Lemma take_signed_reads n : (0 < n)%nat → reads (take_signed n) (be_bytes n) (signed n).
Proof.
  intros Hn. set (h := 2 ^ (8 * Z.of_nat n - 1)).
  assert (2 ^ (8 * Z.of_nat n) = 2 * h) as E by (unfold h; rewrite <-Z.pow_succ_r by lia; f_equal; lia).
  assert (∀ z, be_bytes n (z `mod` 2 ^ (8 * Z.of_nat n)) = be_bytes n z) as M.
  { intros z. unfold be_bytes. f_equal. replace (2 ^ (8 * Z.of_nat n)) with (256 ^ Z.of_nat n)
      by (change 256 with (2 ^ 8); by rewrite <-Z.pow_mul_r by lia). clear. revert z. induction n as [|n IH]; intros z; [done|].
    cbn [le_bytes]. rewrite Nat2Z.inj_succ, Z.pow_succ_r by lia. f_equal.
    - rewrite Z.rem_mul_r by lia. by rewrite (Z.mul_comm 256), Z.mod_add, Z.mod_mod by lia.
    - rewrite Z.rem_mul_r by lia. rewrite (Z.mul_comm 256), Z.div_add, (Z.div_small (z `mod` 256)) by (apply Z.mod_pos_bound || lia; lia).
      by rewrite Z.add_0_l, IH. }
  split.
  - intros x rest Hx. rewrite <-M. unfold take_signed. rewrite (reader_bind_reads _ _ _ _ _ _ (take_unsigned_reads n)).
    2: { unfold unsigned. apply Z.mod_pos_bound. lia. }
    unfold mret, reader_ret. do 2 f_equal. unfold signed in Hx. fold h in Hx. rewrite E.
    destruct (decide (0 ≤ x)).
    + rewrite Z.mod_small by lia. by rewrite bool_decide_eq_true_2 by lia.
    + rewrite <-(Z.mod_unique x (2 * h) (-1) (x + 2 * h)) by lia. rewrite bool_decide_eq_false_2 by lia. lia.
  - intros b x rest Hb H. apply reader_bind_Ok in H as (z & r & H & [= <- <-]).
    destruct (proj2 (take_unsigned_reads n) _ _ _ Hb H) as (Hz & -> & Hr). unfold unsigned in Hz. rewrite E in Hz |- *. fold h.
    split_and!; [unfold signed; fold h; case_bool_decide; lia| |done]. f_equal. case_bool_decide; [done|].
    rewrite <-(M (z - 2 * h)), E. by rewrite <-(Z.mod_unique (z - 2 * h) (2 * h) (-1) z) by lia.
Qed.

Lemma position_of_zero_app l rest : 0 ∉ l → position_of_zero (l ++ 0 :: rest) = Some (length l).
Proof.
  induction l as [|b l IH]; intros Hn; [done|]. cbn. apply not_elem_of_cons in Hn as [? ?].
  rewrite bool_decide_eq_false_2 by done. by rewrite IH.
Qed.
Lemma position_of_zero_Some l n : position_of_zero l = Some n → ∃ a rest, l = a ++ 0 :: rest ∧ length a = n ∧ 0 ∉ a.
Proof.
  revert n. induction l as [|b l IH]; intros n; cbn; [done|]. case_bool_decide as Hb.
  - intros [= <-]. exists [], l. subst. split_and!; [done..|apply not_elem_of_nil].
  - destruct (position_of_zero l) as [k|]; [|done]. intros [= <-]. destruct (IH k eq_refl) as (a & rest & -> & <- & Hn).
    exists (b :: a), rest. split_and!; [done..|]. by apply not_elem_of_cons.
Qed.

Lemma take_cstring_reads : reads take_cstring encode_cstring typed_string.
Proof.
  split.
  - intros s rest [Hw Hn]. unfold take_cstring, encode_cstring. rewrite <-app_assoc. cbn [app]. rewrite position_of_zero_app by done.
    rewrite take_app_length, from_utf8_string by done. unfold check, ok_or. do 2 f_equal.
    change (S (length ?l)) with (1 + length l)%nat. rewrite Nat.add_comm, <-drop_drop, drop_app_length. done.
  - intros b s rest Hb. unfold take_cstring. destruct (position_of_zero b) as [n|] eqn:P; [|done].
    apply position_of_zero_Some in P as (a & r & -> & <- & Hn). rewrite take_app_length. unfold check, ok_or, from_utf8.
    destruct (utf8 a) eqn:U; [|done]. intros [= <- <-]. apply Forall_app in Hb as [Ha Hr]. apply Forall_cons in Hr as [_ Hr].
    assert (drop (S (length a)) (a ++ 0 :: r) = r) as -> by (change (S (length a)) with (1 + length a)%nat; by rewrite Nat.add_comm, <-drop_drop, drop_app_length).
    unfold typed_string, well_formed, encode_cstring. rewrite string_bytes_of_bytes by done. by rewrite <-app_assoc.
Qed.

Lemma take_sized_reads : reads take_sized encode_sized (λ b, Forall byte b ∧ unsigned 4 (Z.of_nat (length b))).
Proof.
  split.
  - intros b rest [Hb Hl]. unfold take_sized, encode_sized. rewrite <-app_assoc.
    rewrite (reader_bind_reads _ _ _ _ _ _ (take_unsigned_reads 4)) by done. rewrite Nat2Z.id. by apply split_to_app.
  - intros b x rest Hb H. apply reader_bind_Ok in H as (len & r & H & [-> Hl]%split_to_Ok).
    destruct (proj2 (take_unsigned_reads 4) _ _ _ Hb H) as (Hlen & -> & Hr). apply Forall_app in Hr as [Hx Hr].
    unfold encode_sized. rewrite Hl, Z2Nat.id by (unfold unsigned in Hlen; lia). by rewrite <-app_assoc.
Qed.

Lemma take_value_reads : reads take_value encode_value typed_value.
Proof.
  split.
  - intros v rest Hv. destruct v as [| |b|b]; try done; cbn [encode_value app].
    + change (take_value (116 :: ?l)) with ((b ← take_sized; mret (TextValue b)) l).
      by rewrite (reader_bind_reads _ _ _ _ _ _ take_sized_reads).
    + change (take_value (98 :: ?l)) with ((b ← take_sized; mret (BinaryValue b)) l).
      by rewrite (reader_bind_reads _ _ _ _ _ _ take_sized_reads).
  - intros b v rest Hb H. apply reader_bind_Ok in H as (tag & r & H1 & H). destruct b as [|t b]; [done|]. injection H1 as -> ->.
    apply Forall_cons in Hb as [_ Hb]. repeat case_bool_decide; subst; try (injection H as <- <-; done); [| |done];
      apply reader_bind_Ok in H as (x & r' & H & [= <- <-]); destruct (proj2 take_sized_reads _ _ _ Hb H) as (Hx & -> & Hr); done.
Qed.

Lemma take_many_reads {A} (p : reader A) e ok n : reads p e ok → reads (take_many n p) (mbind e) (λ l, length l = n ∧ Forall ok l).
Proof.
  intros Hp. induction n as [|n IH].
  - split; [intros [|] rest [? _]; done|]. intros b l rest Hb [= <- <-]. done.
  - split.
    + intros [|x l] rest [Hl Hf]; [done|]. apply Forall_cons in Hf as [Hx Hf]. injection Hl as Hl. cbn [take_many].
      change ((x :: l) ≫= e) with (e x ++ (l ≫= e)). rewrite <-app_assoc. rewrite (reader_bind_reads _ _ _ _ _ _ Hp) by done.
      by rewrite (reader_bind_reads _ _ _ _ _ _ IH).
    + intros b l rest Hb H. cbn [take_many] in H. apply reader_bind_Ok in H as (x & r & H1 & H).
      apply reader_bind_Ok in H as (k & r' & H2 & [= <- <-]). destruct (proj2 Hp _ _ _ Hb H1) as (Hx & -> & Hr).
      destruct (proj2 IH _ _ _ Hr H2) as ([Hk Hf] & -> & Hr'). split_and!; [cbn; by rewrite Hk|by constructor| |done].
      change ((x :: k) ≫= e) with (e x ++ (k ≫= e)). by rewrite app_assoc.
Qed.

Lemma take_tuple_reads n : reads (take_tuple n) encode_tuple (λ l, length l = n ∧ typed_tuple l).
Proof.
  split.
  - intros l rest (<- & Hl & Hf). unfold take_tuple, encode_tuple. rewrite <-app_assoc.
    rewrite (reader_bind_reads _ _ _ _ _ _ (take_unsigned_reads 2)) by done. rewrite check_bind, Nat2Z.id.
    rewrite bool_decide_eq_true_2 by done. by apply (take_many_reads _ _ _ _ take_value_reads).
  - intros b l rest Hb H. apply reader_bind_Ok in H as (c & r & H1 & H). apply check_bind_Ok in H as ([] & Hc%ensure_Ok & H).
    bool_inv. destruct (proj2 (take_unsigned_reads 2) _ _ _ Hb H1) as (Hu & -> & Hr).
    destruct (proj2 (take_many_reads _ _ _ (Z.to_nat c) take_value_reads) _ _ _ Hr H) as ([Hl Hf] & -> & Hr').
    unfold encode_tuple, typed_tuple. rewrite Hl, Z2Nat.id by (unfold unsigned in Hu; lia). by rewrite app_assoc.
Qed.

Lemma land_one_odd z : bool_decide (Z.land z 1 = 1) = Z.odd z.
Proof.
  change 1 with (Z.ones 1). rewrite Z.land_ones by lia. change (2 ^ 1) with 2. change (Z.ones 1) with 1. rewrite Zmod_odd.
  destruct (Z.odd z); [by apply bool_decide_eq_true|by apply bool_decide_eq_false].
Qed.
(** [take_column] reads a column of the protocol and keeps its key flag. *)
Lemma take_columns_complete cols rest :
  Forall typed_column cols → take_many (length cols) take_column ((cols ≫= encode_column) ++ rest) = Ok (column_of <$> cols, rest).
Proof.
  induction 1 as [|c cols (Hf & Hn & Ht & Hm) _ IH]; [done|]. cbn [length take_many].
  change ((c :: cols) ≫= encode_column) with (encode_column c ++ (cols ≫= encode_column)). rewrite <-app_assoc.
  assert (∀ rest, take_column (encode_column c ++ rest) = Ok (column_of c, rest)) as Hc.
  { intros r. unfold take_column, encode_column. cbn [app]. rewrite <-!app_assoc.
    change ((take_u8 ≫= ?f) (flags c :: ?l)) with (f (flags c) l). cbn beta.
    rewrite (reader_bind_reads _ _ _ _ _ _ take_cstring_reads) by done.
    rewrite (reader_bind_reads _ _ _ _ _ _ (take_unsigned_reads 4)) by done.
    rewrite (reader_bind_reads _ _ _ _ _ _ (take_signed_reads 4 ltac:(lia))) by done. unfold column_of. by rewrite land_one_odd. }
  unfold mbind at 1, reader_bind at 1. rewrite Hc. unfold mbind at 1, reader_bind at 1. by rewrite IH.
Qed.
Lemma take_columns_sound n b cs rest :
  Forall byte b → take_many n take_column b = Ok (cs, rest) →
  ∃ cols, cs = column_of <$> cols ∧ length cols = n ∧ Forall typed_column cols ∧ b = (cols ≫= encode_column) ++ rest ∧ Forall byte rest.
Proof.
  revert b cs. induction n as [|n IH]; intros b cs Hb H; cbn [take_many] in H; [injection H as <- <-; by exists []|].
  apply reader_bind_Ok in H as (c & r & H1 & H). apply reader_bind_Ok in H as (k & r' & H2 & [= <- <-]).
  apply reader_bind_Ok in H1 as (f & r1 & Hf & H1). destruct b as [|f' b]; [done|]. injection Hf as -> ->. apply Forall_cons in Hb as [Hf Hb].
  apply reader_bind_Ok in H1 as (s & r2 & Hs & H1). destruct (proj2 take_cstring_reads _ _ _ Hb Hs) as (Ts & -> & Hr2).
  apply reader_bind_Ok in H1 as (t & r3 & Ht & H1). destruct (proj2 (take_unsigned_reads 4) _ _ _ Hr2 Ht) as (Tt & -> & Hr3).
  apply reader_bind_Ok in H1 as (m & r4 & Hm & [= <- <-]).
  destruct (proj2 (take_signed_reads 4 ltac:(lia)) _ _ _ Hr3 Hm) as (Tm & -> & Hr4).
  destruct (IH _ _ Hr4 H2) as (cols & -> & <- & Tc & -> & Hr).
  exists ({| flags := f; cm_name := s; cm_type := t; cm_modifier := m |} :: cols). split_and!; [|done|by constructor| |done].
  - cbn. unfold column_of at 1. cbn. by rewrite land_one_odd.
  - change ((?c :: ?l) ≫= encode_column) with (encode_column c ++ (l ≫= encode_column)). unfold encode_column at 1. cbn. by rewrite <-!app_assoc.
Qed.

(** ** Every message is decoded as the protocol means it *)
Lemma take_relation_complete {A} d id r (f : Relation → reader A) rest :
  unsigned 4 id → relations d !! id = Some r → (take_relation d ≫= f) (be_bytes 4 id ++ rest) = f r rest.
Proof.
  intros Hu Hr. unfold mbind, reader_bind at 1. unfold take_relation. rewrite (reader_bind_reads _ _ _ _ _ _ (take_unsigned_reads 4)) by done.
  by rewrite Hr.
Qed.
Lemma take_relation_sound d b r rest :
  Forall byte b → take_relation d b = Ok (r, rest) →
  ∃ id, unsigned 4 id ∧ relations d !! id = Some r ∧ b = be_bytes 4 id ++ rest ∧ Forall byte rest.
Proof.
  intros Hb H. apply reader_bind_Ok in H as (id & k & H1 & H). destruct (proj2 (take_unsigned_reads 4) _ _ _ Hb H1) as (Hu & -> & Hr).
  unfold check, ok_or in H. destruct (relations d !! id) as [r'|] eqn:E; [|done]. injection H as <- <-. by exists id.
Qed.
Lemma expect_tag_sound t b u rest : expect_tag t b = Ok (u, rest) → b = t :: rest.
Proof. destruct b as [|t' b]; [done|]. unfold expect_tag, mbind, reader_bind. cbn. case_bool_decide; [|done]. by intros [= _ <-]; subst. Qed.
Lemma expect_tag_complete {A} t (f : unit → reader A) rest : (expect_tag t ≫= f) (t :: rest) = f tt rest.
Proof. unfold expect_tag, mbind, reader_bind. cbn. by rewrite bool_decide_eq_true_2. Qed.
Lemma push_change_push d c d' : push_change d c = Ok d' ↔ push d c = Some (d', []).
Proof. unfold push_change, push. destruct (transaction d) as [t|]; cbn; naive_solver. Qed.
Lemma push_nil d c d' ev : push d c = Some (d', ev) → ev = [].
Proof. unfold push. destruct (transaction d); [by intros [= _ <-]|done]. Qed.
Lemma unix_micros_Ok t z : unix_micros t = Ok z ↔ time_fits t = true ∧ z = t + POSTGRES_EPOCH_UNIX_MICROS.
Proof. unfold unix_micros, checked_add, time_fits. case_bool_decide; cbn; naive_solver. Qed.

Definition is_commit (m : Message) : bool := match m with CommitMessage _ _ _ _ => true | _ => false end.

Lemma insert_complete d id new d' ev rest :
  typed (InsertMessage id new) → apply d (InsertMessage id new) = Some (d', ev) →
  ev = [] ∧ message_reader d 73 (tl (encode (InsertMessage id new)) ++ rest) = Ok (d', rest).
Proof.
  intros T A. cbn [typed apply encode hd tl] in *.
  destruct T as (Ti & Tn). destruct (relations d !! id) as [r|] eqn:Er; [|done]. unfold fits in A. case_bool_decide as Hl; [|done].
  assert (ev = []) as -> by (by eapply push_nil). apply push_change_push in A. split; [done|]. change (message_reader d 73) with (insert_row d). unfold insert_row. rewrite <-app_assoc. cbn [app].
  rewrite (take_relation_complete d id r) by done. rewrite expect_tag_complete, (reader_bind_reads _ _ _ _ _ _ (take_tuple_reads _)) by done.
  unfold check. by rewrite A.
Qed.
Lemma update_complete d id old new d' ev rest :
  typed (UpdateMessage id old new) → apply d (UpdateMessage id old new) = Some (d', ev) →
  ev = [] ∧ message_reader d 85 (tl (encode (UpdateMessage id old new)) ++ rest) = Ok (d', rest).
Proof.
  intros T A. cbn [typed apply encode hd tl] in *.
  destruct T as (Ti & To & Tn). destruct (relations d !! id) as [r|] eqn:Er; [|done].
  destruct (from_option (fits r ∘ snd) true old) eqn:Ho; [|done]. cbn [andb] in A. unfold fits in A. case_bool_decide as Hl; [|done].
  assert (ev = []) as -> by (by eapply push_nil). apply push_change_push in A. split; [done|].
  change (message_reader d 85) with (update_row d). unfold update_row. rewrite <-!app_assoc. rewrite (take_relation_complete d id r) by done.
  destruct old as [[k ol]|]; cbn [app].
  + cbn in Ho. apply bool_decide_eq_true in Ho. specialize (To k ol eq_refl).
    change ((peek_u8 ≫= ?f) (encode_kind k :: ?l)) with (f (encode_kind k) (encode_kind k :: l)). cbn beta.
    assert (bool_decide (encode_kind k = 75) || bool_decide (encode_kind k = 79) = true) as -> by (by destruct k).
    assert ((if bool_decide (encode_kind k = 75) then Key else Full) = k) as -> by (by destruct k).
    unfold mbind at 1, reader_bind at 1. change ((take_u8 ≫= ?f) (encode_kind k :: ?l)) with (f (encode_kind k) l). cbn beta.
    rewrite (reader_bind_reads _ _ _ _ _ _ (take_tuple_reads _)) by done. unfold mret at 1, reader_ret at 1.
    rewrite expect_tag_complete, (reader_bind_reads _ _ _ _ _ _ (take_tuple_reads _)) by done. unfold check. by rewrite A.
  + change ((peek_u8 ≫= ?f) (78 :: ?l)) with (f 78 (78 :: l)). cbn beta. rewrite (bool_decide_eq_true_2 (78 = 78)) by done. cbn [orb].
    change (bool_decide (78 = 75) || bool_decide (78 = 79)) with false. cbn match.
    unfold mbind at 1, reader_bind at 1. unfold mret at 1, reader_ret at 1.
    rewrite expect_tag_complete, (reader_bind_reads _ _ _ _ _ _ (take_tuple_reads _)) by done. unfold check. by rewrite A.
Qed.
Lemma delete_complete d id kind old d' ev rest :
  typed (DeleteMessage id kind old) → apply d (DeleteMessage id kind old) = Some (d', ev) →
  ev = [] ∧ message_reader d 68 (tl (encode (DeleteMessage id kind old)) ++ rest) = Ok (d', rest).
Proof.
  intros T A. cbn [typed apply encode hd tl] in *.
  destruct T as (Ti & To). destruct (relations d !! id) as [r|] eqn:Er; [|done]. unfold fits in A. case_bool_decide as Hl; [|done].
  assert (ev = []) as -> by (by eapply push_nil). apply push_change_push in A. split; [done|].
  change (message_reader d 68) with (delete_row d). unfold delete_row. rewrite <-app_assoc. cbn [app]. rewrite (take_relation_complete d id r) by done.
  change ((take_u8 ≫= ?f) (encode_kind kind :: ?l)) with (f (encode_kind kind) l). cbn beta.
  assert ((if bool_decide (encode_kind kind = 75) then mret Key else if bool_decide (encode_kind kind = 79) then mret Full
           else refuse (InvalidTupleTag (encode_kind kind))) = (mret kind : reader OldValuesKind)) as -> by (by destruct kind).
  unfold mbind at 1, reader_bind at 1. unfold mret at 1, reader_ret at 1.
  rewrite (reader_bind_reads _ _ _ _ _ _ (take_tuple_reads _)) by done. unfold check. by rewrite A.
Qed.
Lemma message_complete d m d' ev rest :
  typed m → is_commit m = false → apply d m = Some (d', ev) →
  ev = [] ∧ message_reader d (hd 0 (encode m)) (tl (encode m) ++ rest) = Ok (d', rest).
Proof.
  intros T Hc A. destruct m as [l t x| |id s t i cols|id new|id old new|id kind old|l n|id ns n]; try done;
    [| |by apply insert_complete|by apply update_complete|by apply delete_complete| |]; cbn [typed apply encode hd tl] in *.
  - destruct T as (Tl & Tt & Tx). change (message_reader d 66) with (begin d). unfold begin. rewrite check_bind.
    destruct (transaction d); [done|]. destruct (time_fits t) eqn:Hf; [|done]. injection A as <- <-. split; [done|]. cbn [ensure].
    rewrite <-!app_assoc, (reader_bind_reads _ _ _ _ _ _ (take_unsigned_reads 8)), (reader_bind_reads _ _ _ _ _ _ (take_signed_reads 8 ltac:(lia))),
      (reader_bind_reads _ _ _ _ _ _ (take_unsigned_reads 4)), check_bind by done.
    by rewrite (proj2 (unix_micros_Ok t _) (conj Hf eq_refl)).
  - injection A as <- <-. split; [done|]. destruct T as (Ti & Ts & Tt & Tb & Tn & Tc). change (message_reader d 82) with (relation d). unfold relation.
    rewrite <-!app_assoc. cbn [app]. rewrite <-app_assoc.
    rewrite (reader_bind_reads _ _ _ _ _ _ (take_unsigned_reads 4)), !(reader_bind_reads _ _ _ _ _ _ take_cstring_reads) by done.
    change ((take_u8 ≫= ?f) (i :: ?l)) with (f i l). cbn beta. rewrite (reader_bind_reads _ _ _ _ _ _ (take_unsigned_reads 2)) by done.
    rewrite Nat2Z.id. unfold mbind, reader_bind. by rewrite take_columns_complete.
  - injection A as <- <-. destruct T as (Tl & Tn). split; [done|]. change (message_reader d 79) with (origin d). unfold origin.
    rewrite <-app_assoc, (reader_bind_reads _ _ _ _ _ _ (take_unsigned_reads 8)), (reader_bind_reads _ _ _ _ _ _ take_cstring_reads) by done. done.
  - injection A as <- <-. destruct T as (Tl & Tns & Tn). split; [done|]. change (message_reader d 89) with (type_message d). unfold type_message.
    rewrite <-!app_assoc, (reader_bind_reads _ _ _ _ _ _ (take_unsigned_reads 4)), !(reader_bind_reads _ _ _ _ _ _ take_cstring_reads) by done. done.
Qed.

(** ** Only messages of the protocol are decoded *)
Definition reads_message (d : PgOutputDecoder) (tag : Z) (b : list Z) (d' : PgOutputDecoder) (rest : list Z) : Prop :=
  ∃ m, typed m ∧ is_commit m = false ∧ tag :: b = encode m ++ rest ∧ apply d m = Some (d', []).

Lemma take_tuple_sound n b l rest :
  Forall byte b → take_tuple n b = Ok (l, rest) → length l = n ∧ typed_tuple l ∧ b = encode_tuple l ++ rest ∧ Forall byte rest.
Proof. intros Hb H. destruct (proj2 (take_tuple_reads n) _ _ _ Hb H) as ([? ?] & ? & ?). auto. Qed.
Lemma check_push d c b d' rest : check (push_change d c) b = Ok (d', rest) → push d c = Some (d', []) ∧ rest = b.
Proof. unfold check. destruct (push_change d c) as [d1|] eqn:E; [|done]. intros [= <- <-]. by apply push_change_push in E. Qed.

Lemma insert_sound d b d' rest : Forall byte b → insert_row d b = Ok (d', rest) → reads_message d 73 b d' rest.
Proof.
  intros Hb H. apply reader_bind_Ok in H as (r & b1 & H1 & H). apply take_relation_sound in H1 as (id & Ti & Er & -> & Hb1); [|done].
  apply reader_bind_Ok in H as ([] & b2 & ->%expect_tag_sound & H). apply Forall_cons in Hb1 as [_ Hb1].
  apply reader_bind_Ok in H as (vs & b3 & (Hl & Tv & -> & _)%take_tuple_sound & [A ->]%check_push); [|done].
  exists (InsertMessage id vs). cbn [typed encode apply]. rewrite Er. unfold fits. rewrite bool_decide_eq_true_2 by done.
  split_and!; try done; cbn [app]; by rewrite <-app_assoc.
Qed.
Lemma update_sound d b d' rest : Forall byte b → update_row d b = Ok (d', rest) → reads_message d 85 b d' rest.
Proof.
  intros Hb H. apply reader_bind_Ok in H as (r & b1 & H1 & H). apply take_relation_sound in H1 as (id & Ti & Er & -> & Hb1); [|done].
  apply reader_bind_Ok in H as (tag & b2 & H1 & H). destruct b1 as [|tag' b1]; [done|]. injection H1 as -> <-.
  apply reader_bind_Ok in H as (old & b2 & Hold & H). apply reader_bind_Ok in H as ([] & b3 & ->%expect_tag_sound & H).
  assert ((∀ k l, old = Some (k, l) → typed_tuple l) ∧ from_option (fits r ∘ snd) true old = true ∧ Forall byte b3 ∧
    tag :: b1 = (match old with Some (k, l) => encode_kind k :: encode_tuple l | None => [] end) ++ 78 :: b3) as (To & Fo & Hb3 & E).
  { destruct (bool_decide (tag = 75) || bool_decide (tag = 79)) eqn:Ht.
    - apply reader_bind_Ok in Hold as (? & b4 & [= <- <-] & H4). apply Forall_cons in Hb1 as [_ Hb1].
      apply reader_bind_Ok in H4 as (l & b5 & (Hl & Tl & -> & Hr)%take_tuple_sound & [= <- ->]); [|done]. apply Forall_cons in Hr as [_ Hr].
      split_and!; [by intros ? ? [= _ <-]|cbn; unfold fits; by apply bool_decide_eq_true|done|].
      apply orb_true_iff in Ht as [Ht|Ht]; apply bool_decide_eq_true in Ht as ->; cbn; done.
    - case_bool_decide; [|done]. injection Hold as ? ? ?; subst. apply Forall_cons in Hb1 as [_ Hb1]. done. }
  apply reader_bind_Ok in H as (vs & b4 & (Hl & Tv & -> & _)%take_tuple_sound & [A ->]%check_push); [|done].
  exists (UpdateMessage id old vs). cbn [typed encode apply]. rewrite Er, Fo. unfold fits. rewrite bool_decide_eq_true_2 by done. cbn [andb].
  split_and!; try done; cbn [app]; by rewrite E, <-!app_assoc.
Qed.
Lemma delete_sound d b d' rest : Forall byte b → delete_row d b = Ok (d', rest) → reads_message d 68 b d' rest.
Proof.
  intros Hb H. apply reader_bind_Ok in H as (r & b1 & H1 & H). apply take_relation_sound in H1 as (id & Ti & Er & -> & Hb1); [|done].
  apply reader_bind_Ok in H as (tag & b2 & H1 & H). destruct b1 as [|tag' b1]; [done|]. injection H1 as -> <-. apply Forall_cons in Hb1 as [_ Hb1].
  apply reader_bind_Ok in H as (kind & b2 & Hk & H).
  assert (tag = encode_kind kind ∧ b2 = b1) as [-> ->] by (repeat case_bool_decide; try done; by injection Hk as <- <-).
  apply reader_bind_Ok in H as (old & b3 & (Hl & Tv & -> & _)%take_tuple_sound & [A ->]%check_push); [|done].
  exists (DeleteMessage id kind old). cbn [typed encode apply]. rewrite Er. unfold fits. rewrite bool_decide_eq_true_2 by done.
  split_and!; try done; cbn [app]; by rewrite <-app_assoc.
Qed.
Lemma begin_sound d b d' rest : Forall byte b → begin d b = Ok (d', rest) → reads_message d 66 b d' rest.
Proof.
  intros Hb H. apply check_bind_Ok in H as ([] & Ht%ensure_Ok & H).
  apply reader_bind_Ok in H as (l & b1 & (Tl & -> & Hb1)%(proj2 (take_unsigned_reads 8)) & H); [|done].
  apply reader_bind_Ok in H as (t & b2 & (Tt & -> & Hb2)%(proj2 (take_signed_reads 8 ltac:(lia))) & H); [|done].
  apply reader_bind_Ok in H as (x & b3 & (Tx & -> & Hb3)%(proj2 (take_unsigned_reads 4)) & H); [|done].
  apply check_bind_Ok in H as (z & [Hf ->]%unix_micros_Ok & [= <- <-]).
  exists (BeginMessage l t x). cbn [typed encode apply]. destruct (transaction d); [done|]. rewrite Hf.
  split_and!; try done; cbn [app]; by rewrite <-!app_assoc.
Qed.
Lemma relation_sound d b d' rest : Forall byte b → relation d b = Ok (d', rest) → reads_message d 82 b d' rest.
Proof.
  intros Hb H. apply reader_bind_Ok in H as (id & b1 & (Ti & -> & Hb1)%(proj2 (take_unsigned_reads 4)) & H); [|done].
  apply reader_bind_Ok in H as (s & b2 & (Ts & -> & Hb2)%(proj2 take_cstring_reads) & H); [|done].
  apply reader_bind_Ok in H as (t & b3 & (Tt & -> & Hb3)%(proj2 take_cstring_reads) & H); [|done].
  apply reader_bind_Ok in H as (i & b4 & H1 & H). destruct b3 as [|i' b3]; [done|]. injection H1 as -> ->. apply Forall_cons in Hb3 as [Hi Hb4].
  apply reader_bind_Ok in H as (c & b5 & (Tc & -> & Hb5)%(proj2 (take_unsigned_reads 2)) & H); [|done].
  apply reader_bind_Ok in H as (cs & b6 & (cols & -> & Hl & Tcs & -> & _)%take_columns_sound & [= <- <-]); [|done].
  assert (Z.of_nat (length cols) = c) as Hc by (rewrite Hl, Z2Nat.id; [done|unfold unsigned in Tc; lia]).
  exists (RelationMessage id s t i cols). cbn [typed encode apply]. rewrite Hc. split_and!; try done; cbn [app]; rewrite <-!app_assoc; cbn [app]; by rewrite <-!app_assoc.
Qed.
Lemma message_sound d tag b d' rest : Forall byte b → message_reader d tag b = Ok (d', rest) → reads_message d tag b d' rest.
Proof.
  intros Hb. unfold message_reader. repeat case_bool_decide; subst; try done;
    eauto using begin_sound, relation_sound, insert_sound, update_sound, delete_sound; intros R.
  - apply reader_bind_Ok in R as (l & b1 & (Tl & -> & Hb1)%(proj2 (take_unsigned_reads 8)) & R); [|done].
    apply reader_bind_Ok in R as (n & b2 & (Tn & -> & Hb2)%(proj2 take_cstring_reads) & [= <- <-]); [|done].
    exists (OriginMessage l n). cbn. rewrite <-!app_assoc. by split_and!.
  - apply reader_bind_Ok in R as (id & b1 & (Ti & -> & Hb1)%(proj2 (take_unsigned_reads 4)) & R); [|done].
    apply reader_bind_Ok in R as (ns & b2 & (Ts & -> & Hb2)%(proj2 take_cstring_reads) & R); [|done].
    apply reader_bind_Ok in R as (n & b3 & (Tn & -> & Hb3)%(proj2 take_cstring_reads) & [= <- <-]); [|done].
    exists (TypeMessage id ns n). cbn. rewrite <-!app_assoc. by split_and!.
Qed.

(** ** COMMIT *)
Lemma commit_complete d f c l t d' ev rest :
  typed (CommitMessage f c l t) → apply d (CommitMessage f c l t) = Some (d', ev) →
  commit d (tl (encode (CommitMessage f c l t)) ++ rest) = (d', Ok ev).
Proof.
  intros (Tf & Tc & Tl & Tt) A. unfold commit. cbn [encode tl app]. rewrite <-!app_assoc.
  assert (take_commit (f :: be_bytes 8 c ++ be_bytes 8 l ++ be_bytes 8 t ++ rest) = Ok ((l, t), rest)) as ->.
  { unfold take_commit. change ((take_u8 ≫= ?g) (f :: ?b)) with (g f b). cbn beta.
    by rewrite !(reader_bind_reads _ _ _ _ _ _ (take_unsigned_reads 8)), (reader_bind_reads _ _ _ _ _ _ (take_signed_reads 8 ltac:(lia))) by done. }
  cbn [apply] in A. destruct (transaction d) as [tx|]; [|done]. destruct (time_fits t) eqn:Hf; [|done]. cbn [andb] in A.
  case_bool_decide as Ht; [|done]. injection A as <- <-. rewrite (proj2 (unix_micros_Ok t _) (conj Hf eq_refl)). cbn [mbind result_bind].
  by rewrite bool_decide_eq_true_2.
Qed.
Lemma commit_sound d b d' ev :
  Forall byte b → commit d b = (d', Ok ev) →
  ∃ f c l t rest, typed (CommitMessage f c l t) ∧ 67 :: b = encode (CommitMessage f c l t) ++ rest ∧
    apply d (CommitMessage f c l t) = Some (d', ev).
Proof.
  intros Hb. unfold commit. destruct (take_commit b) as [[[l t] rest]|e] eqn:R; [|done]. destruct (transaction d) as [tx|] eqn:Ht; [|done].
  intros [= <- C]. apply bind_Ok in C as (z & [Hf ->]%unix_micros_Ok & C). apply bind_Ok in C as ([] & Hm%ensure_Ok & [= <-]).
  apply reader_bind_Ok in R as (f & b1 & H1 & R). destruct b as [|f' b]; [done|]. injection H1 as -> ->. apply Forall_cons in Hb as [Tf Hb].
  apply reader_bind_Ok in R as (c & b2 & (Tc & -> & Hb2)%(proj2 (take_unsigned_reads 8)) & R); [|done].
  apply reader_bind_Ok in R as (l' & b3 & (Tl & -> & Hb3)%(proj2 (take_unsigned_reads 8)) & R); [|done].
  apply reader_bind_Ok in R as (t' & b4 & (Tt & -> & Hb4)%(proj2 (take_signed_reads 8 ltac:(lia))) & [= -> -> ->]); [|done].
  exists f, c, l, t, rest. cbn [apply]. rewrite Ht, Hf, Hm. split_and!; try done; cbn [encode app]; by rewrite <-!app_assoc.
Qed.

Lemma pg_message_decode d b d' ev :
  Forall byte b →
  decode d b = (d', Ok ev) ↔
  ∃ m rest, typed m ∧ b = encode m ++ rest ∧ (rest = [] ∨ is_commit m = true) ∧ apply d m = Some (d', ev).
Proof.
  intros Hb. split.
  - intros H. destruct b as [|tag b]; [done|]. cbn [decode] in H. apply Forall_cons in Hb as [Htag Hb].
    case_bool_decide as Hc.
    + subst. destruct (commit_sound _ _ _ _ Hb H) as (f & c & l & t & rest & T & E & A). exists (CommitMessage f c l t), rest. auto.
    + destruct (message_reader d tag b) as [[d1 [|? ?]]|e] eqn:R; [|done|done]. injection H as <- <-.
      destruct (message_sound _ _ _ _ _ Hb R) as (m & T & _ & E & A). exists m, []. rewrite E, app_nil_r in *. auto.
  - intros (m & rest & T & -> & Hrest & A). destruct (is_commit m) eqn:Hc.
    + destruct m; try done. apply (commit_complete d _ _ _ _ _ _ rest T) in A. exact A.
    + assert (rest = []) as -> by (by destruct Hrest). destruct (message_complete d m d' ev [] T Hc A) as [-> R]. rewrite app_nil_r in R |- *.
      destruct m; try done; cbn [encode hd tl] in R |- *; unfold decode; (rewrite bool_decide_eq_false_2 by done); by rewrite R.
Qed.

(** ** Streams *)

(** The messages of a stream; an error ends it. *)
Fixpoint feed (d : PgOutputDecoder) (messages : list (list Z)) : option (PgOutputDecoder * list PgOutputEvent) :=
  match messages with
  | [] => Some (d, [])
  | b :: messages =>
      match decode d b with
      | (d, Ok events) => match feed d messages with Some (d, more) => Some (d, events ++ more) | None => None end
      | (_, Err _) => None
      end
  end.

(** The end and the time of the next commit. *)
Fixpoint next_commit (ms : list Message) : option (Z * Z) :=
  match ms with
  | [] => None
  | CommitMessage _ _ l t :: _ => Some (l, t + POSTGRES_EPOCH_UNIX_MICROS)
  | _ :: ms => next_commit ms
  end.
(** The row change of a message. *)
Definition change_of (rels : gmap Z Relation) (m : Message) : option PendingChange :=
  match m with
  | InsertMessage id new =>
      r ← rels !! id; Some {| p_relation := r; p_operation := Create; p_values := new; p_old_values := None; p_old_values_kind := None |}
  | UpdateMessage id old new =>
      r ← rels !! id; Some {| p_relation := r; p_operation := Update; p_values := new; p_old_values := snd <$> old; p_old_values_kind := fst <$> old |}
  | DeleteMessage id kind old =>
      r ← rels !! id; Some {| p_relation := r; p_operation := Delete; p_values := replicate (length old) Null; p_old_values := Some old;
                               p_old_values_kind := Some kind |}
  | _ => None
  end.
Definition relations_after (rels : gmap Z Relation) (m : Message) : gmap Z Relation :=
  match m with
  | RelationMessage id s t i cols => <[id := {| oid := id; schema := s; table := t; replica_identity := i; columns := column_of <$> cols |}]> rels
  | _ => rels
  end.
Definition xid_after (x : Z) (m : Message) : Z := match m with BeginMessage _ _ x => x | _ => x end.
Definition emitted (x : Z) (commit : option (Z * Z)) (cs : list PendingChange) : list PgOutputEvent :=
  match commit with Some (l, micros) => event_of l micros x <$> cs | None => [] end.
(** What a stream should deliver: every row change that a commit follows, in the order of
    the stream, with the relation that was declared last. *)
Fixpoint delivered (rels : gmap Z Relation) (x : Z) (ms : list Message) : list PgOutputEvent :=
  match ms with
  | [] => []
  | m :: ms => emitted x (next_commit ms) (option_list (change_of rels m)) ++ delivered (relations_after rels m) (xid_after x m) ms
  end.

Fixpoint run (d : PgOutputDecoder) (ms : list Message) : option (PgOutputDecoder * list PgOutputEvent) :=
  match ms with
  | [] => Some (d, [])
  | m :: ms =>
      match apply d m with
      | Some (d, events) => match run d ms with Some (d, more) => Some (d, events ++ more) | None => None end
      | None => None
      end
  end.

Lemma feed_run d bs d' ev :
  Forall (Forall byte) bs → feed d bs = Some (d', ev) →
  ∃ ms, Forall typed ms ∧ Forall2 (λ b m, ∃ rest, b = encode m ++ rest ∧ (rest = [] ∨ is_commit m = true)) bs ms ∧ run d ms = Some (d', ev).
Proof.
  revert d ev. induction bs as [|b bs IH]; intros d ev Hb H; cbn [feed] in H; [exists []; by split_and!|].
  apply Forall_cons in Hb as [Hb Hbs]. destruct (decode d b) as [d1 [ev1|e]] eqn:D; [|done].
  destruct (feed d1 bs) as [[d2 ev2]|] eqn:F; [|done]. injection H as <- <-. destruct (IH d1 ev2 Hbs F) as (ms & T & F2 & R).
  apply pg_message_decode in D as (m & rest & Tm & E & Hr & A); [|done]. exists (m :: ms). split_and!; [by constructor|constructor; eauto|].
  cbn [run]. by rewrite A, R.
Qed.

Lemma emitted_app x c l k : emitted x c (l ++ k) = emitted x c l ++ emitted x c k.
Proof. destruct c as [[? ?]|]; [apply fmap_app|done]. Qed.
Lemma emitted_nil x c : emitted x c [] = [].
Proof. by destruct c as [[? ?]|]. Qed.
Lemma apply_row d m c d' ev :
  change_of (relations d) m = Some c → apply d m = Some (d', ev) →
  ∃ t, transaction d = Some t ∧ ev = [] ∧
    d' = with_transaction d (Some {| xid := xid t; begin_timestamp_micros := begin_timestamp_micros t; changes := changes t ++ [c] |}).
Proof.
  destruct m as [| | |id new|id old new|id kind old| |]; try done; cbn [change_of apply]; destruct (relations d !! id) as [r|]; try done;
    intros [= <-]; case_match; try done; unfold push; destruct (transaction d) as [t|]; try done; cbn [mbind option_bind];
    intros E; injection E as <- <-; eauto.
Qed.

(** Between messages the decoder holds the changes of the open transaction. *)
Lemma run_delivered d ms d' ev x :
  (∀ t, transaction d = Some t → xid t = x) → run d ms = Some (d', ev) →
  ev = from_option (λ t, emitted x (next_commit ms) (changes t)) [] (transaction d) ++ delivered (relations d) x ms.
Proof.
  revert d ev x. induction ms as [|m ms IH]; intros d ev x Hx R; cbn [run] in R; [injection R as <- <-; by destruct (transaction d)|].
  destruct (apply d m) as [[d1 ev1]|] eqn:A; [|done]. destruct (run d1 ms) as [[d2 ev2]|] eqn:R2; [|done]. injection R as <- <-. cbn [delivered].
  destruct (change_of (relations d) m) as [c|] eqn:C.
  { destruct (apply_row _ _ _ _ _ C A) as (t & Et & -> & ->). specialize (Hx t Et). rewrite Et. cbn [from_option option_list app].
    rewrite (λ H, IH _ _ x H R2) by (cbn; intros ? E; by injection E as <-). cbn [with_transaction relations transaction from_option changes]. rewrite emitted_app.
    assert (next_commit (m :: ms) = next_commit ms ∧ relations_after (relations d) m = relations d ∧ xid_after x m = x) as (-> & -> & ->)
      by (by destruct m). by rewrite app_assoc. }
  cbn [option_list]. rewrite emitted_nil. cbn [app].
  destruct m as [l t x'|f c l t|id s t i cols|id new|id old new|id kind old| |]; cbn [apply change_of] in A, C; cbn [next_commit relations_after xid_after].
  - destruct (transaction d); [done|]. destruct (time_fits t); [|done]. injection A as <- <-. cbn [app from_option].
    rewrite (λ H, IH _ _ x' H R2) by (cbn; intros ? E; by injection E as <-). cbn [with_transaction relations transaction from_option changes]. by rewrite emitted_nil.
  - destruct (transaction d) as [tx|]; [|done]. destruct (_ && _); [|done]. injection A as <- <-. cbn [from_option emitted]. rewrite (Hx tx) by done.
    by rewrite (λ H, IH _ _ x H R2).
  - injection A as <- <-. by rewrite (λ H, IH _ _ x H R2).
  - by destruct (relations d !! id).
  - by destruct (relations d !! id).
  - by destruct (relations d !! id).
  - injection A as <- <-. by rewrite (λ H, IH _ _ x H R2).
  - injection A as <- <-. by rewrite (λ H, IH _ _ x H R2).
Qed.
(** C18. A message is decoded exactly when it is one of the protocol that fits the decoder's
    state, and its effect is the protocol's: whatever bytes arrive, they are accepted with
    these events if and only if they are the encoding of a message with them.  The one
    exception is that bytes after a COMMIT are ignored. *)
Theorem pgoutput_message_exact d b d' ev :
  Forall byte b →
  decode d b = (d', Ok ev) ↔
  ∃ m rest, typed m ∧ b = encode m ++ rest ∧ (rest = [] ∨ is_commit m = true) ∧ apply d m = Some (d', ev).
Proof. apply pg_message_decode. Qed.

(** C17. Whatever bytes a stream consists of, if the decoder accepts them they are messages of
    the protocol, and the events it emits are exactly the row changes that a commit follows,
    once each and in the order of the stream, with the relation declared last, the
    transaction's id and the LSN and time of its commit. *)
Theorem pgoutput_stream_exact d messages d' events x :
  Forall (Forall byte) messages → transaction d = None → feed d messages = Some (d', events) →
  ∃ ms, Forall typed ms ∧
    Forall2 (λ b m, ∃ rest, b = encode m ++ rest ∧ (rest = [] ∨ is_commit m = true)) messages ms ∧
    events = delivered (relations d) x ms.
Proof.
  intros Hb Ht F. destruct (feed_run _ _ _ _ Hb F) as (ms & T & F2 & R). exists ms. split_and!; [done..|].
  rewrite (run_delivered d ms d' events x) by (done || by rewrite Ht). by rewrite Ht.
Qed.

(** ** Examples *)
Module PgOutputExample.
Definition messages : list Message :=
  [BeginMessage 16 5 7;
   RelationMessage 9 "public" "orders" 100 [{| flags := 1; cm_name := "id"; cm_type := 23; cm_modifier := -1 |}];
   InsertMessage 9 [TextValue [49]];
   UpdateMessage 9 (Some (Key, [TextValue [49]])) [TextValue [50]];
   CommitMessage 0 16 32 5].
Definition orders : Relation :=
  {| oid := 9; schema := "public"; table := "orders"; replica_identity := 100;
     columns := [{| column_name := "id"; type_oid := 23; type_modifier := -1; key := true |}] |}.
Definition after : PgOutputDecoder := {| relations := {[ 9 := orders ]}; transaction := None |}.
Definition emitted_events : list PgOutputEvent :=
  event_of 32 (5 + POSTGRES_EPOCH_UNIX_MICROS) 7 <$>
    [{| p_relation := orders; p_operation := Create; p_values := [TextValue [49]]; p_old_values := None; p_old_values_kind := None |};
     {| p_relation := orders; p_operation := Update; p_values := [TextValue [50]]; p_old_values := Some [TextValue [49]];
        p_old_values_kind := Some Key |}].

Lemma messages_bytes : Forall (Forall byte) (encode <$> messages).
Proof. apply (bool_decide_unpack _). vm_compute. exact I. Qed.

Lemma pgoutput_stream_exact_witness :
  ∃ ms, Forall typed ms ∧
    Forall2 (λ b m, ∃ rest, b = encode m ++ rest ∧ (rest = [] ∨ is_commit m = true)) (encode <$> messages) ms ∧
    emitted_events = delivered ∅ 0 ms.
Proof.
  apply (pgoutput_stream_exact new_decoder (encode <$> messages) after emitted_events 0); [apply messages_bytes|reflexivity|].
  vm_compute. reflexivity.
Defined.

Lemma pgoutput_message_exact_witness :
  ∃ m rest, typed m ∧ encode (OriginMessage 3 "n") = encode m ++ rest ∧ (rest = [] ∨ is_commit m = true) ∧ apply new_decoder m = Some (new_decoder, []).
Proof.
  apply (pgoutput_message_exact new_decoder (encode (OriginMessage 3 "n")) new_decoder []); [|vm_compute; reflexivity].
  apply (bool_decide_unpack _). vm_compute. exact I.
Defined.
End PgOutputExample.
