(* ===== verification/PgLsn.v ===== *)
(** * PostgreSQL log sequence numbers as text

    [parse_lsn] and [format_lsn] of [src_stream/reader.rs] of transferia-connector-postgres.
    Text is its bytes. *)

From stdpp Require Import base tactics numbers option list.
From S2P Require Import Prelude Bytes.
Local Open Scope Z_scope.

Inductive LsnError := NoSlash | BadHex.

Definition hex_value (b : Z) : option Z :=
  if bool_decide (48 ≤ b ≤ 57) then Some (b - 48)
  else if bool_decide (65 ≤ b ≤ 70) then Some (b - 55)
  else if bool_decide (97 ≤ b ≤ 102) then Some (b - 87)
  else None.
Definition hex_step (acc : option Z) (b : Z) : option Z :=
  a ← acc; d ← hex_value b; if bool_decide (a * 16 + d ≤ u64_max) then Some (a * 16 + d) else None.
(** [u64::from_str_radix(text, 16)]. *)
Definition from_str_radix_16 (l : list Z) : option Z :=
  let ds := match l with 43 :: ds => ds | _ => l end in
  if bool_decide (ds = []) then None else foldl hex_step (Some 0) ds.
(** [str::split_once('/')]. *)
Definition split_once (l : list Z) : option (list Z * list Z) :=
  match list_find (λ b, b = 47) l with Some (i, _) => Some (firstn i l, drop (S i) l) | None => None end.

Definition parse_lsn (text : list Z) : result LsnError Z :=
  ok_or (split_once text) NoSlash ≫= λ '(high, low),
  ok_or (from_str_radix_16 high) BadHex ≫= λ high,
  ok_or (from_str_radix_16 low) BadHex ≫= λ low,
  Ok (Z.lor (Z.shiftl high 32 `mod` 2 ^ 64) low).

(** [{:X}] of a [u64]: at most sixteen digits. *)
Definition hex_digit (d : Z) : Z := if bool_decide (d < 10) then 48 + d else 55 + d.
Fixpoint upper_hex (fuel : nat) (z : Z) : list Z :=
  match fuel with
  | O => []
  | S fuel => if bool_decide (z < 16) then [hex_digit z] else upper_hex fuel (z `div` 16) ++ [hex_digit (z `mod` 16)]
  end.
Definition format_lsn (value : Z) : list Z := upper_hex 16 (Z.shiftr value 32) ++ [47] ++ upper_hex 16 (Z.land value u32_max).

Lemma hex_value_digit d : 0 ≤ d < 16 → hex_value (hex_digit d) = Some d.
Proof. intros Hd. unfold hex_value, hex_digit. repeat case_bool_decide; (f_equal; lia) || lia. Qed.
Lemma hex_step_digit a d : 0 ≤ d < 16 → a * 16 + d ≤ u64_max → hex_step (Some a) (hex_digit d) = Some (a * 16 + d).
Proof. intros Hd Hm. unfold hex_step. cbn [mbind option_bind]. rewrite hex_value_digit by done. cbn. by rewrite bool_decide_true. Qed.
Lemma hex_digit_range d : 0 ≤ d < 16 → 48 ≤ hex_digit d ∧ hex_digit d ≤ 70.
Proof. intros Hd. unfold hex_digit. case_bool_decide; lia. Qed.
Lemma upper_hex_range fuel z : 0 ≤ z → Forall (λ b, 48 ≤ b ∧ b ≤ 70) (upper_hex fuel z).
Proof.
  induction fuel as [|fuel IH] in z |- *; intros Hz; cbn [upper_hex]; [done|]. pose proof (Z.mod_pos_bound z 16 ltac:(lia)). case_bool_decide.
  - constructor; [apply hex_digit_range; lia|done].
  - apply Forall_app. split; [apply IH; apply Z.div_pos; lia|]. constructor; [by apply hex_digit_range|done].
Qed.
Lemma upper_hex_parse fuel z : 0 ≤ z < 16 ^ Z.of_nat fuel → z ≤ u64_max → foldl hex_step (Some 0) (upper_hex fuel z) = Some z.
Proof.
  induction fuel as [|fuel IH] in z |- *; intros Hz Hm; [cbn in *; f_equal; lia|]. cbn [upper_hex]. rewrite Nat2Z.inj_succ, Z.pow_succ_r in Hz by lia.
  case_bool_decide.
  - cbn [foldl]. rewrite hex_step_digit by lia. done.
  - pose proof (Z.div_mod z 16 ltac:(lia)). pose proof (Z.mod_pos_bound z 16 ltac:(lia)).
    rewrite foldl_app, IH by first [lia | split; [apply Z.div_pos|apply Z.div_lt_upper_bound]; lia]. cbn [foldl].
    rewrite hex_step_digit by lia. f_equal. lia.
Qed.
Lemma upper_hex_nonempty fuel z : upper_hex (S fuel) z ≠ [].
Proof. cbn [upper_hex]. case_bool_decide; [done|]. by intros []%app_eq_nil. Qed.
Lemma upper_hex_radix z : 0 ≤ z ≤ u64_max → from_str_radix_16 (upper_hex 16 z) = Some z.
Proof.
  intros Hz. pose proof (upper_hex_range 16 z ltac:(lia)) as Hr. pose proof (upper_hex_nonempty 15 z) as Hne.
  pose proof (upper_hex_parse 16 z ltac:(cbn; unfold u64_max in *; lia) ltac:(lia)) as Hp.
  unfold from_str_radix_16. set (l := upper_hex 16 z) in *. clearbody l.
  assert ((match l with 43 :: ds => ds | _ => l end) = l) as ->; [|by rewrite bool_decide_false by done].
  destruct l as [|b l]; [done|]. apply Forall_cons in Hr as [? _]. repeat case_match; simplify_eq; lia || done.
Qed.

Lemma lsn_roundtrip value : 0 ≤ value ≤ u64_max → parse_lsn (format_lsn value) = Ok value.
Proof.
  intros Hv. unfold parse_lsn, format_lsn, split_once. set (high := upper_hex 16 (Z.shiftr value 32)). set (low := upper_hex 16 (Z.land value u32_max)).
  assert (0 ≤ Z.shiftr value 32 < 2 ^ 32) as Hh.
  { rewrite Z.shiftr_div_pow2 by lia. split; [apply Z.div_pos; lia|apply Z.div_lt_upper_bound; unfold u64_max in *; lia]. }
  assert (Z.land value u32_max = value `mod` 2 ^ 32) as El by (change u32_max with (Z.ones 32); by apply Z.land_ones).
  pose proof (Z.mod_pos_bound value (2 ^ 32) ltac:(lia)) as Hl.
  rewrite (proj2 (list_find_Some (λ b, b = 47) _ (length high) 47)).
  - rewrite take_app_length. replace (S (length high)) with (length high + 1)%nat by lia. rewrite <-drop_drop, drop_app_length. cbn [app drop ok_or mbind result_bind].
    rewrite drop_0. unfold high, low. rewrite !upper_hex_radix by (rewrite ?El; unfold u64_max in *; lia). cbn [ok_or mbind result_bind]. f_equal.
    rewrite Z.mod_small by (rewrite Z.shiftl_mul_pow2 by lia; lia). change u32_max with (Z.ones 32).
    rewrite <-Z.ldiff_ones_r by lia. apply Z.lor_ldiff_and.
  - split_and!; [by apply list_lookup_middle|done|]. intros j y Hy Hj. rewrite lookup_app_l in Hy by done.
    pose proof (upper_hex_range 16 (Z.shiftr value 32) ltac:(lia)) as Hr. fold high in Hr. eapply Forall_lookup_1 in Hr; [|exact Hy]. cbn in Hr. lia.
Qed.
