(* ===== verification/PgSlot.v ===== *)
(** * The PostgreSQL replication slot of a delivery

    [src_stream/slot_recovery.rs], the lease of [src_stream/lease.rs] and [commit_offsets] of
    [src_stream/reader.rs] of transferia-connector-postgres: the durable record of the log
    sequence number a delivery has committed, and the replication slot that keeps the log
    from there.  The storage is [DurableStorage], JSON is [Json], the database is
    [PgServer]. *)

From stdpp Require Import base tactics numbers option strings relations list.
From S2P Require Import Prelude Bytes Durable DurableStorage DurableCrash DurableRecord PgLsn PgTables.
Local Open Scope Z_scope.

(** ** The database *)
Record Slot := { slot_plugin : option string; confirmed : option Z; slot_database : option string; slot_datoid : option Z }.
(** A row of [EXISTING_SLOT_QUERY]. *)
Record SlotRow := { row_plugin : option string; row_lsn : option (list Z); row_database : option string; row_datoid : option Z }.
Definition flushed (sl : Slot) : Z := default 0 (confirmed sl).
Definition with_confirmed (sl : Slot) (c : option Z) : Slot :=
  {| slot_plugin := slot_plugin sl; confirmed := c; slot_database := slot_database sl; slot_datoid := slot_datoid sl |}.

(** What is relied on: the catalog view shows the slots; [pg_replication_slot_advance] moves
    a slot forward, at most to the requested position, also when it fails, and returns the
    slot and the position it reached.  [pg_tm_aux] is not relied on. *)
Class PgServer := {
  Server : Type;
  Fault : Type;
  slots : Server → string → option Slot;
  lsn_text : Z → list Z;
  query_slot : Server → string → Fault → option (option SlotRow);
  pg_replication_slot_advance : Server → string → list Z → Fault → Server * option (string * list Z);
  pg_tm_aux_schema : Server → Fault → option (option string);
  pg_create_logical_replication_slot_lsn : Server → string → string → string → list Z → Fault → Server * option (string * list Z);

  lsn_text_parse l : 0 ≤ l ≤ u64_max → parse_lsn (lsn_text l) = Ok l;
  slots_lsn srv n sl l : slots srv n = Some sl → confirmed sl = Some l → 0 ≤ l ≤ u64_max;
  query_slot_row srv n f r : query_slot srv n f = Some r →
    r = (λ sl, {| row_plugin := slot_plugin sl; row_lsn := lsn_text <$> confirmed sl;
                  row_database := slot_database sl; row_datoid := slot_datoid sl |}) <$> slots srv n;
  slot_advance srv n l f : 0 ≤ l ≤ u64_max →
    let r := pg_replication_slot_advance srv n (format_lsn l) f in
    match slots srv n with
    | None => slots r.1 n = None ∧ r.2 = None
    | Some sl => ∃ c, slots r.1 n = Some (with_confirmed sl c) ∧ flushed sl ≤ default 0 c ≤ Z.max (flushed sl) l ∧
        (∀ m t, r.2 = Some (m, t) → ∃ l', c = Some l' ∧ t = lsn_text l')
    end
}.

(** ** The code *)
Definition STATE_VERSION : Z := 3.
Record ReplicationOffsetState := {
  version : Z (* u8 *); replay_identity : string; slot : string; state_plugin : string; publication : option string;
  source : PostgresSourceIdentity; authoritative_tables : list AuthoritativeTableIdentity; committed_lsn : Z (* u64 *)
}.
#[export] Instance ReplicationOffsetState_eq_dec : EqDecision ReplicationOffsetState.
Proof. solve_decision. Defined.
Record ExistingSlot := { existing_plugin : string; existing_lsn : Z }.
Inductive RecreatedSlotRecoveryPlan := VerifyExact | CatchUpThenVerifyExact.
Record ReplicationSlotTracker := {
  t_key : string; t_revision : option Z; t_replay_identity : string; t_slot : string; t_plugin : string; t_publication : option string;
  t_source : PostgresSourceIdentity; t_tables : list AuthoritativeTableIdentity
}.

Inductive SlotCause :=
| EmptyReplayIdentity | OfTables (e : PgError) | OfLsn (e : LsnError) | BadJson | UnsupportedVersion | DifferentSettings | OtherDatabase
| NullPlugin | PrecedesBoundary | OtherPlugin | UnownedSlot | AheadOfDurable | NoCommittedLsn | NotInstalled | UnexpectedSlot
| RecreatedAhead | Disappeared | VerificationFailed | AdvanceMismatch | ModifiedByAnother | LeaseLost | NotAcknowledged.
(** [replication_safety_violation] marks an error; others are retried. *)
Inductive SlotError := Safety (c : SlotCause) | ServerFailed | StorageError (e : DurableError) | JsonError | ConfigError (e : PgError).

Definition state_of (t : ReplicationSlotTracker) (lsn : Z) : ReplicationOffsetState :=
  {| version := STATE_VERSION; replay_identity := t_replay_identity t; slot := t_slot t; state_plugin := t_plugin t;
     publication := t_publication t; source := t_source t; authoritative_tables := t_tables t; committed_lsn := lsn |}.
Definition validate_slot_database (database : option string) (oid : option Z) (expected : PostgresSourceIdentity) : result SlotError unit :=
  ensure (bool_decide (database = Some (PgTables.database expected)) && bool_decide (oid = Some (database_oid expected))) (Safety OtherDatabase).
Definition recreated_slot_recovery_plan (created requested : Z) : result SlotError RecreatedSlotRecoveryPlan :=
  ensure (negb (bool_decide (requested < created))) (Safety RecreatedAhead) ≫= λ _,
  Ok (if bool_decide (created < requested) then CatchUpThenVerifyExact else VerifyExact).

Section server.
Context `{PgServer}.

Definition existing_slot (srv : Server) (n : string) (expected : PostgresSourceIdentity) (f : Fault) : result SlotError (option ExistingSlot) :=
  ok_or (query_slot srv n f) ServerFailed ≫= λ row,
  match row with
  | None => Ok None
  | Some row =>
      validate_slot_database (row_database row) (row_datoid row) expected ≫= λ _,
      ok_or (row_plugin row) (Safety NullPlugin) ≫= λ p,
      match row_lsn row with None => Ok 0 | Some t => map_err (Safety ∘ OfLsn) (parse_lsn t) end ≫= λ lsn,
      Ok (Some {| existing_plugin := p; existing_lsn := lsn |})
  end.
Definition advance_slot (srv : Server) (n : string) (lsn : Z) (f : Fault) : Server * result SlotError unit :=
  let '(srv, row) := pg_replication_slot_advance srv n (format_lsn lsn) f in
  (srv, ok_or row ServerFailed ≫= λ '(advanced_slot, text),
        map_err (Safety ∘ OfLsn) (parse_lsn text) ≫= λ advanced_lsn,
        ensure (bool_decide (advanced_slot = n) && bool_decide (advanced_lsn = lsn)) (Safety AdvanceMismatch)).
Definition recreate_slot (srv : Server) (schema n plugin : string) (lsn : Z) (f : Fault) : Server * result SlotError Z :=
  let '(srv, row) := pg_create_logical_replication_slot_lsn srv schema n plugin (format_lsn lsn) f in
  (srv, ok_or row ServerFailed ≫= λ '(created_slot, text),
        map_err (Safety ∘ OfLsn) (parse_lsn text) ≫= λ created_lsn,
        ensure (bool_decide (created_slot = n)) (Safety UnexpectedSlot) ≫= λ _, Ok created_lsn).
Definition verify_slot_exact (srv : Server) (n plugin : string) (expected : PostgresSourceIdentity) (lsn : Z) (f : Fault) : result SlotError unit :=
  existing_slot srv n expected f ≫= λ actual,
  ok_or actual (Safety Disappeared) ≫= λ actual,
  ensure (bool_decide (existing_plugin actual = plugin) && bool_decide (existing_lsn actual = lsn)) (Safety VerificationFailed).

(** The slot is brought to the committed position; [f] gives the outcome of each request. *)
Definition adopt_slot (srv : Server) (n plugin : string) (existing : ExistingSlot) (requested : option Z) (f : Fault)
    : Server * result SlotError Z :=
  match ensure (bool_decide (existing_plugin existing = plugin)) (Safety OtherPlugin) ≫= λ _,
        ok_or requested (Safety UnownedSlot) ≫= λ committed,
        ensure (bool_decide (existing_lsn existing ≤ committed)) (Safety AheadOfDurable) ≫= λ _, Ok committed with
  | Err e => (srv, Err e)
  | Ok committed =>
      if bool_decide (existing_lsn existing < committed) then
        let '(srv, r) := advance_slot srv n committed f in (srv, r ≫= λ _, Ok committed)
      else (srv, Ok committed)
  end.
Definition recover_slot (srv : Server) (n plugin : string) (expected : PostgresSourceIdentity) (requested : option Z) (f : nat → Fault)
    : Server * result SlotError Z :=
  match ok_or requested (Safety NoCommittedLsn) ≫= λ committed,
        ok_or (pg_tm_aux_schema srv (f 1%nat)) ServerFailed ≫= λ schema, ok_or schema (Safety NotInstalled) ≫= λ schema, Ok (committed, schema) with
  | Err e => (srv, Err e)
  | Ok (committed, schema) =>
      let '(srv, created) := recreate_slot srv schema n plugin committed (f 2%nat) in
      match created ≫= λ created, recreated_slot_recovery_plan created committed with
      | Err e => (srv, Err e)
      | Ok plan =>
          let '(srv, r) := match plan with VerifyExact => (srv, Ok tt) | CatchUpThenVerifyExact => advance_slot srv n committed (f 3%nat) end in
          (srv, r ≫= λ _, verify_slot_exact srv n plugin expected committed (f 4%nat) ≫= λ _, Ok committed)
      end
  end.
Definition position_slot (srv : Server) (n plugin : string) (expected : PostgresSourceIdentity) (requested : option Z) (f : nat → Fault)
    : Server * result SlotError Z :=
  match existing_slot srv n expected (f 0%nat) with
  | Err e => (srv, Err e)
  | Ok (Some existing) => adopt_slot srv n plugin existing requested (f 1%nat)
  | Ok None => recover_slot srv n plugin expected requested f
  end.

Context `{DurableStorage, !Json ReplicationOffsetState}.

Definition decode_state (bytes : list Z) (t : ReplicationSlotTracker) : result SlotCause Z :=
  ok_or (from_slice bytes) BadJson ≫= λ state : ReplicationOffsetState,
  ensure (bool_decide (version state = STATE_VERSION)) UnsupportedVersion ≫= λ _,
  ensure (bool_decide (replay_identity state = t_replay_identity t) && bool_decide (slot state = t_slot t) &&
          bool_decide (state_plugin state = t_plugin t) && bool_decide (publication state = t_publication t) &&
          bool_decide (source state = t_source t) && bool_decide (authoritative_tables state = t_tables t)) DifferentSettings ≫= λ _,
  Ok (committed_lsn state).

Definition with_revision (t : ReplicationSlotTracker) (r : option Z) : ReplicationSlotTracker :=
  {| t_key := t_key t; t_revision := r; t_replay_identity := t_replay_identity t; t_slot := t_slot t; t_plugin := t_plugin t;
     t_publication := t_publication t; t_source := t_source t; t_tables := t_tables t |}.
Definition store (s : Store) (t : ReplicationSlotTracker) (lsn : Z) (e : Env) : Store * ReplicationSlotTracker * result SlotError unit :=
  match replace_record (t_key t) StorageError JsonError (Safety ModifiedByAnother) s (t_revision t) (state_of t lsn) e with
  | (s, Ok h) => (s, with_revision t (Some (handle_revision h)), Ok tt)
  | (s, Err err) => (s, t, Err err)
  end.

(** The tracker before its record is read. *)
Definition new_tracker (decoder : LogicalDecoder) (src : PostgresSourceIdentity) (tables : list DiscoveredTable) (delivery_id replay : string)
    : result SlotError ReplicationSlotTracker :=
  ensure (negb (bool_decide (replay = ""))) (Safety EmptyReplayIdentity) ≫= λ _,
  map_err ConfigError (replication_slot delivery_id) ≫= λ n,
  map_err (Safety ∘ OfTables) (authoritative_table_identities tables) ≫= λ ts,
  Ok {| t_key := ("postgres-replication-" +:+ n)%string; t_revision := None; t_replay_identity := replay; t_slot := n; t_plugin := plugin decoder;
        t_publication := publication_of decoder; t_source := src; t_tables := ts |}.
Definition read_record (s : Store) (t : ReplicationSlotTracker) (exact_start_lsn : option Z) (e : Env)
    : result SlotError (ReplicationSlotTracker * option Z) :=
  map_err StorageError (read s (t_key t) e) ≫= λ persisted,
  match persisted with
  | None => Ok (t, None)
  | Some v =>
      map_err Safety (decode_state (payload v) t) ≫= λ lsn,
      ensure (match exact_start_lsn with Some start => bool_decide (start ≤ lsn) | None => true end) (Safety PrecedesBoundary) ≫= λ _,
      Ok (with_revision t (Some (revision v)), Some lsn)
  end.
Definition prepare (srv : Server) (s : Store) (decoder : LogicalDecoder) (src : PostgresSourceIdentity) (tables : list DiscoveredTable)
    (delivery_id : string) (exact_start_lsn : option Z) (replay : string) (f : nat → Fault) (e1 e2 : Env)
    : Server * Store * result SlotError (ReplicationSlotTracker * Z) :=
  match new_tracker decoder src tables delivery_id replay ≫= λ t, read_record s t exact_start_lsn e1 with
  | Err err => (srv, s, Err err)
  | Ok (t, persisted_lsn) =>
      let requested_lsn := match persisted_lsn with Some l => Some l | None => exact_start_lsn end in
      match position_slot srv (t_slot t) (t_plugin t) src requested_lsn f with
      | (srv, Err err) => (srv, s, Err err)
      | (srv, Ok committed) =>
          if bool_decide (persisted_lsn = Some committed) then (srv, s, Ok (t, committed))
          else match store s t committed e2 with
          | (s, t, Ok _) => (srv, s, Ok (t, committed))
          | (s, _, Err err) => (srv, s, Err err)
          end
      end
  end.

(** ** The source *)
Record PostgresReplicationSource := { slot_tracker : ReplicationSlotTracker; source_lsn : Z }.
Inductive CommitFailure := ForeignMarker | NoMarkers | MovedBackwards | Fatal (e : SlotError).

(** [commit_offsets]; a marker of another source is [None], [held] says whether the lease is
    still held. *)
Definition commit_offsets (srv : Server) (s : Store) (self : PostgresReplicationSource) (markers : list (option Z)) (held : bool) (f : Fault) (e : Env)
    : Server * Store * PostgresReplicationSource * result CommitFailure unit :=
  match ok_or (mapM id markers) ForeignMarker ≫= λ lsns,
        ok_or (match lsns with [] => None | l :: ls => Some (foldl Z.max l ls) end) NoMarkers ≫= λ lsn,
        ensure (bool_decide (source_lsn self ≤ lsn)) MovedBackwards ≫= λ _,
        ensure held (Fatal (Safety LeaseLost)) ≫= λ _, Ok lsn with
  | Err err => (srv, s, self, Err err)
  | Ok lsn =>
      let '(s, t, stored) := store s (slot_tracker self) lsn e in
      match stored with
      | Err err => (srv, s, {| slot_tracker := t; source_lsn := source_lsn self |}, Err (Fatal err))
      | Ok _ =>
          let '(srv, advanced) := advance_slot srv (t_slot t) lsn f in
          match advanced with
          | Err _ => (srv, s, {| slot_tracker := t; source_lsn := source_lsn self |}, Err (Fatal (Safety NotAcknowledged)))
          | Ok _ => (srv, s, {| slot_tracker := t; source_lsn := lsn |}, Ok tt)
          end
      end
  end.

(** ** Histories of a delivery *)
Context (delivery_id : string).
Definition record_key : string := "postgres-replication-" +:+ delivery_id.
Definition prepared (r : result SlotError (ReplicationSlotTracker * Z)) : list PostgresReplicationSource :=
  match r with Ok (t, lsn) => [{| slot_tracker := t; source_lsn := lsn |}] | Err _ => [] end.
Definition surviving (self : PostgresReplicationSource) (r : result CommitFailure unit) : list PostgresReplicationSource :=
  match r with Ok _ => [self] | Err _ => [] end.

(** Any number of executions prepare sources and commit; a failed commit is fatal and ends
    its source; the database may change by itself between calls. *)
Inductive slot_step : Server * Store * list PostgresReplicationSource → Server * Store * list PostgresReplicationSource → Prop :=
| slot_prepare srv s l decoder src tables start replay f e1 e2 :
    let r := prepare srv s decoder src tables delivery_id start replay f e1 e2 in
    slot_step (srv, s, l) (r.1.1, r.1.2, prepared r.2 ++ l)
| slot_commit srv s l1 self l2 markers held f e :
    let r := commit_offsets srv s self markers held f e in
    slot_step (srv, s, l1 ++ self :: l2) (r.1.1.1, r.1.1.2, l1 ++ surviving r.1.2 r.2 ++ l2)
| slot_elsewhere srv s l k x b e :
    k ≠ record_key → key_ok k → payload_ok b → slot_step (srv, s, l) (srv, (compare_exchange s k x b e).1, l)
| slot_server srv s l srv' : slot_step (srv, s, l) (srv', s, l)
| slot_crash srv s l s' : crashed s s' → slot_step (srv, s, l) (srv, s', []).

(** The delivery is the same and its position moves forward. *)
Record advance (a b : ReplicationOffsetState) : Prop := {
  advance_replay : replay_identity b = replay_identity a;
  advance_slot_name : slot b = slot a;
  advance_plugin : state_plugin b = state_plugin a;
  advance_publication : publication b = publication a;
  advance_source : source b = source a;
  advance_tables : authoritative_tables b = authoritative_tables a;
  advance_lsn : committed_lsn a ≤ committed_lsn b
}.
#[export] Instance advance_preorder : PreOrder advance.
Proof. split; [by intros a; split|]. intros a b c [] []. split; congruence || lia. Qed.

Definition handle_of_source (x : PostgresReplicationSource) : Handle ReplicationOffsetState :=
  {| handle_revision := default 0 (t_revision (slot_tracker x)); handle_identity := state_of (slot_tracker x) (source_lsn x) |}.
Definition live (x : PostgresReplicationSource) : Prop :=
  t_key (slot_tracker x) = record_key ∧ t_slot (slot_tracker x) = delivery_id ∧ is_Some (t_revision (slot_tracker x)).
Abbreviation protocol := (record_step record_key advance).

(** *** The slot *)
Lemma position_requested srv n p expected requested f srv' c :
  position_slot srv n p expected requested f = (srv', Ok c) → requested = Some c.
Proof.
  unfold position_slot. destruct (existing_slot _ _ _ _) as [[x|]|]; [| |done].
  - unfold adopt_slot. destruct (ensure _ (Safety OtherPlugin)) as [[]|]; cbn [mbind result_bind]; [|done].
    destruct requested as [c'|]; cbn [ok_or mbind result_bind]; [|done]. destruct (ensure _ (Safety AheadOfDurable)); cbn [mbind result_bind]; [|done].
    case_bool_decide; [|by intros [= _ ->]]. destruct (advance_slot _ _ _ _) as [? [[]|]]; cbn; [by intros [= _ ->]|done].
  - unfold recover_slot. destruct requested as [c'|]; cbn [ok_or mbind result_bind]; [|done].
    destruct (ok_or (pg_tm_aux_schema _ _) _) as [sch|]; cbn [mbind result_bind]; [|done]. destruct (ok_or sch _) as [sch'|]; cbn [mbind result_bind]; [|done].
    destruct (recreate_slot _ _ _ _ _ _) as [srv1 created]. destruct (created ≫= _) as [plan|]; [|done].
    destruct (match plan with VerifyExact => _ | CatchUpThenVerifyExact => _ end) as [srv2 r].
    destruct r as [[]|]; cbn [mbind result_bind]; [|done]. destruct (verify_slot_exact _ _ _ _ _ _); cbn; [by intros [= _ ->]|done].
Qed.

(** What a query says of the slot. *)
Lemma existing_slot_Some srv n expected f x :
  existing_slot srv n expected f = Ok (Some x) →
  ∃ sl, slots srv n = Some sl ∧ slot_plugin sl = Some (existing_plugin x) ∧ flushed sl = existing_lsn x ∧
        slot_database sl = Some (PgTables.database expected) ∧ slot_datoid sl = Some (database_oid expected).
Proof.
  unfold existing_slot. destruct (query_slot srv n f) as [row|] eqn:Q; cbn [ok_or mbind result_bind]; [|done]. apply query_slot_row in Q.
  destruct (slots srv n) as [sl|] eqn:Es; cbn in Q; subst row; [|done]. cbn [row_database row_datoid row_plugin row_lsn].
  intros ([] & Hd%ensure_Ok & (p & Hp & (lsn & Hl & [= <-])%bind_Ok)%bind_Ok)%bind_Ok. bool_inv. exists sl. split; [done|].
  destruct (slot_plugin sl) as [p'|]; cbn in Hp; simplify_eq. split_and!; [done| |done|done]. cbn.
  unfold flushed. destruct (confirmed sl) as [l|] eqn:Ec; cbn in Hl |- *; [|by simplify_eq].
  rewrite lsn_text_parse in Hl by (by eapply slots_lsn). cbn in Hl. by simplify_eq.
Qed.
Lemma advance_slot_Ok srv n l f srv' sl :
  0 ≤ l ≤ u64_max → slots srv n = Some sl → advance_slot srv n l f = (srv', Ok tt) →
  ∃ c, slots srv' n = Some (with_confirmed sl c) ∧ default 0 c = l.
Proof.
  intros Hl Hs. unfold advance_slot. pose proof (slot_advance srv n l f Hl) as A. rewrite Hs in A. cbn zeta in A.
  destruct (pg_replication_slot_advance _ _ _ _) as [srv1 row]. cbn [fst snd] in A. destruct A as (c & Es & Hb & Hrow).
  intros [= <- Hr]. destruct row as [[m t]|]; cbn in Hr; [|done]. destruct (Hrow m t eq_refl) as (l' & -> & ->).
  apply bind_Ok in Hr as (l2 & Hp & Hc%ensure_Ok). bool_inv. subst. eexists. split; [done|]. cbn.
  apply map_err_Ok in Hp. rewrite lsn_text_parse in Hp by (eapply slots_lsn; [exact Es|done]). by simplify_eq.
Qed.
Definition slot_at (srv : Server) (n p : string) (expected : PostgresSourceIdentity) (l : Z) : Prop :=
  ∃ sl, slots srv n = Some sl ∧ slot_plugin sl = Some p ∧ flushed sl = l ∧
        slot_database sl = Some (PgTables.database expected) ∧ slot_datoid sl = Some (database_oid expected).

Lemma position_exact srv n p expected requested f srv' c :
  0 ≤ c ≤ u64_max → position_slot srv n p expected requested f = (srv', Ok c) → slot_at srv' n p expected c.
Proof.
  intros Hc Hr. pose proof (position_requested _ _ _ _ _ _ _ _ Hr) as ->. revert Hr. unfold position_slot.
  destruct (existing_slot _ _ _ _) as [[x|]|] eqn:X; [| |done].
  - apply existing_slot_Some in X as (sl & Es & Hp & Hl & Hd & Ho). unfold adopt_slot.
    destruct (decide (existing_plugin x = p)) as [<- |]; [rewrite bool_decide_true by done|by rewrite bool_decide_false by done]. cbn [ensure ok_or mbind result_bind].
    case_bool_decide; cbn [ensure mbind result_bind]; [|done]. case_bool_decide.
    + destruct (advance_slot _ _ _ _) as [srv1 [[]|]] eqn:A; cbn; [|done]. intros [= <-]. eapply advance_slot_Ok in A as (c' & Es' & Hc'); [|done..].
      eexists. split; [exact Es'|]. by split_and!.
    + intros [= <-]. exists sl. split_and!; try done. lia.
  - unfold recover_slot. cbn [ok_or mbind result_bind].
    destruct (ok_or (pg_tm_aux_schema _ _) _) as [sch|]; cbn [mbind result_bind]; [|done]. destruct (ok_or sch _) as [sch'|]; cbn [mbind result_bind]; [|done].
    destruct (recreate_slot _ _ _ _ _ _) as [srv1 created]. destruct (created ≫= _) as [plan|]; [|done].
    destruct (match plan with VerifyExact => _ | CatchUpThenVerifyExact => _ end) as [srv2 r].
    destruct r as [[]|]; cbn [mbind result_bind]; [|done]. destruct (verify_slot_exact _ _ _ _ _ _) as [[]|] eqn:V; cbn; [|done]. intros [= <-].
    unfold verify_slot_exact in V. apply bind_Ok in V as ([x|] & V & V'); [|done]. apply existing_slot_Some in V. cbn in V'. destruct (_ && _) eqn:B in V'; [|done]. bool_inv.
    destruct V as (sl & Es & Hp & Hl & Hd & Ho). exists sl. subst. by split_and!.
Qed.

(** *** The record *)
Lemma decode_state_Ok bytes t lsn : decode_state bytes t = Ok lsn → from_slice bytes = Some (state_of t lsn).
Proof.
  unfold decode_state. intros (st & Hj & ([] & Hv%ensure_Ok & ([] & Hi%ensure_Ok & [= <-])%bind_Ok)%bind_Ok)%bind_Ok.
  destruct (from_slice bytes) as [st'|]; cbn in Hj; [injection Hj as ->|done]. bool_inv. f_equal. destruct st; cbn in *. unfold state_of. congruence.
Qed.
Lemma new_tracker_Ok decoder src tables id replay t :
  new_tracker decoder src tables id replay = Ok t →
  t_key t = "postgres-replication-" +:+ id ∧ t_slot t = id ∧ t_revision t = None ∧ t_plugin t = plugin decoder ∧ t_source t = src.
Proof.
  unfold new_tracker. intros ([] & _ & (n & Hn%map_err_Ok & (ts & _ & [= <-])%bind_Ok)%bind_Ok)%bind_Ok. cbn.
  unfold replication_slot in Hn. apply bind_Ok in Hn as (_ & _ & [= <-]). by split_and!.
Qed.

(** What a successful [prepare] did: it opened the record or created it. *)
Lemma prepare_cases srv s decoder src tables start replay f e1 e2 srv' s' t lsn :
  prepare srv s decoder src tables delivery_id start replay f e1 e2 = (srv', s', Ok (t, lsn)) →
  live {| slot_tracker := t; source_lsn := lsn |} ∧ t_plugin t = plugin decoder ∧
  (∃ requested, position_slot srv delivery_id (plugin decoder) src requested f = (srv', Ok lsn)) ∧
  ((s' = s ∧ ∃ v, read s record_key e1 = Ok (Some v) ∧ t_revision t = Some (revision v) ∧ from_slice (payload v) = Some (state_of t lsn)) ∨
   (read s record_key e1 = Ok None ∧ start = Some lsn ∧
    ∃ h, replace_record record_key StorageError JsonError (Safety ModifiedByAnother) s None (state_of t lsn) e2 = (s', Ok h) ∧ t_revision t = Some (handle_revision h))).
Proof.
  unfold prepare. destruct (new_tracker _ _ _ _ _) as [t0|] eqn:T; cbn [mbind result_bind]; [|done].
  apply new_tracker_Ok in T as (Hk & Hn & Hrev & Hpl & Hsrc). unfold read_record. rewrite Hk.
  change ("postgres-replication-" +:+ delivery_id) with record_key in *. destruct (read s record_key e1) as [[v|]|] eqn:R; cbn [map_err mbind result_bind]; [| |done].
  - destruct (decode_state _ _) as [l|] eqn:D; cbn [map_err mbind result_bind]; [|done]. destruct (ensure _ (Safety PrecedesBoundary)); cbn [mbind result_bind]; [|done].
    cbn [t_slot t_plugin with_revision]. rewrite Hn, Hpl. destruct (position_slot _ _ _ _ _ _) as [srv1 [c|]] eqn:P; [|done].
    pose proof (position_requested _ _ _ _ _ _ _ _ P) as [= ->]. rewrite bool_decide_true by done. intros [= <- <- <- <-].
    split_and!; [split_and!; cbn; done || by eexists|done|eauto|]. left. split; [done|]. exists v. split_and!; [done..|]. by apply decode_state_Ok in D.
  - rewrite Hn, Hpl. destruct (position_slot _ _ _ _ _ _) as [srv1 [c|]] eqn:P; [|done]. pose proof (position_requested _ _ _ _ _ _ _ _ P) as ->.
    rewrite bool_decide_false by done. unfold store. rewrite Hk, Hrev. fold record_key.
    destruct (replace_record _ _ _ _ _ _ _ _) as [s1 [h|]] eqn:X; [|done]. intros [= <- <- <- <-].
    split_and!; [split_and!; cbn; done || by eexists|done|eauto|]. right. split_and!; [done..|]. exists h. by split.
Qed.

Abbreviation replacing := (replace_record record_key StorageError JsonError (Safety ModifiedByAnother)).

Lemma prepare_failed srv s decoder src tables start replay f e1 e2 srv' s' err :
  prepare srv s decoder src tables delivery_id start replay f e1 e2 = (srv', s', Err err) →
  s' = s ∨ ∃ next, s' = (replacing s None next e2).1 ∧ ∃ err', (replacing s None next e2).2 = Err err'.
Proof.
  unfold prepare. destruct (new_tracker _ _ _ _ _) as [t0|] eqn:T; cbn [mbind result_bind]; [|intros [= <- <- <-]; by left].
  apply new_tracker_Ok in T as (Hk & Hn & Hrev & Hpl & Hsrc). unfold read_record. rewrite Hk. fold record_key.
  destruct (read s _ e1) as [[v|]|] eqn:R; cbn [map_err mbind result_bind]; [| |intros [= <- <- <-]; by left].
  - destruct (decode_state _ _) as [l|] eqn:D; cbn [map_err mbind result_bind]; [|intros [= <- <- <-]; by left].
    destruct (ensure _ (Safety PrecedesBoundary)); cbn [mbind result_bind]; [|intros [= <- <- <-]; by left].
    destruct (position_slot _ _ _ _ _ _) as [srv1 [c|]] eqn:P; [|intros [= <- <- <-]; by left].
    pose proof (position_requested _ _ _ _ _ _ _ _ P) as [= ->]. by rewrite bool_decide_true.
  - destruct (position_slot _ _ _ _ _ _) as [srv1 [c|]] eqn:P; [|intros [= <- <- <-]; by left].
    rewrite bool_decide_false by done. unfold store. rewrite Hk, Hrev. fold record_key.
    destruct (replace_record _ _ _ _ _ _ _ _) as [s1 [h|]] eqn:X; [done|]. intros [= <- <- <-]. right. eexists. rewrite X. eauto.
Qed.

Lemma pg_prepare_record srv s hs decoder src tables start replay f e1 e2 :
  let r := prepare srv s decoder src tables delivery_id start replay f e1 e2 in
  ∃ hs', rtc protocol (s, hs) (r.1.2, hs') ∧ (handle_of_source <$> prepared r.2) ++ hs ⊆ hs' ∧ Forall live (prepared r.2).
Proof.
  cbn zeta. destruct (prepare _ _ _ _ _ _ _ _ _ _ _) as [[srv' s'] [[t lsn]|err]] eqn:P; cbn [fst snd prepared].
  - apply prepare_cases in P as (Hlive & _ & _ & [(-> & v & R & Hrev & D)|(_ & _ & h & X & Hrev)]).
    + exists (handle_of_source {| slot_tracker := t; source_lsn := lsn |} :: hs). split_and!; [|done|by constructor]. apply rtc_once.
      pose proof (record_open record_key advance s hs e1 v _ R D) as Step. unfold handle_of_source. cbn. by rewrite Hrev.
    + pose proof (replace_created record_key advance StorageError JsonError (Safety ModifiedByAnother) s hs (state_of t lsn) e2) as Steps.
      pose proof (replace_record_identity _ _ _ _ _ _ _ _ _ _ X) as Eh.
      cbn zeta in Steps. rewrite X in Steps. cbn [fst snd replaced] in Steps. eexists. split_and!; [exact Steps| |by constructor].
      assert (handle_of_source {| slot_tracker := t; source_lsn := lsn |} = h) as <-; [|done].
      unfold handle_of_source. cbn. rewrite Hrev, <-Eh. by destruct h.
  - apply prepare_failed in P as [-> |(next & -> & err' & X)]; [exists hs; split_and!; [done|done|constructor]|].
    pose proof (replace_created record_key advance StorageError JsonError (Safety ModifiedByAnother) s hs next e2) as Steps. cbn zeta in Steps.
    rewrite X in Steps. eexists. split_and!; [exact Steps|done|constructor].
Qed.

(** What [commit_offsets] does to the record and the slot. *)
Lemma commit_cases srv s x markers held f e :
  live x → let r := commit_offsets srv s x markers held f e in
  (r.1.1.1 = srv ∧ r.1.1.2 = s ∧ ∃ err, r.2 = Err err) ∨
  ∃ lsn, source_lsn x ≤ lsn ∧ (∀ l, Some l ∈ markers → l ≤ lsn) ∧ Some lsn ∈ markers ∧
  let y := replacing s (t_revision (slot_tracker x)) (state_of (slot_tracker x) lsn) e in
  r.1.1.2 = y.1 ∧
  match y.2 with
  | Err _ => r.1.1.1 = srv ∧ ∃ err, r.2 = Err err
  | Ok h =>
      let a := advance_slot srv delivery_id lsn f in
      r.1.1.1 = a.1 ∧ handle_identity h = state_of (slot_tracker x) lsn ∧
      match r.2 with Ok _ => a.2 = Ok tt ∧ r.1.2 = {| slot_tracker := with_revision (slot_tracker x) (Some (handle_revision h)); source_lsn := lsn |}
                   | Err _ => True end
  end.
Proof.
  intros (Hk & Hn & Hrev). cbn zeta. unfold commit_offsets.
  destruct (mapM id markers) as [lsns|] eqn:M; cbn [ok_or mbind result_bind]; [|left; eauto].
  apply mapM_Some in M. destruct lsns as [|l0 ls]; cbn [ok_or mbind result_bind]; [left; eauto|].
  set (lsn := foldl Z.max l0 ls). case_bool_decide as Hle; cbn [ensure mbind result_bind]; [|left; eauto].
  destruct held; cbn [ensure mbind result_bind]; [|left; eauto]. right. exists lsn. split; [done|].
  assert ((∀ l, l ∈ l0 :: ls → l ≤ lsn) ∧ lsn ∈ l0 :: ls) as [Hmax Hin].
  { subst lsn. clear. induction ls as [|l ls IH] in l0 |- *; cbn [foldl]; [set_solver|]. specialize (IH (Z.max l0 l)).
    destruct IH as [Hm Hi]. split.
    - intros k Hk%elem_of_cons. destruct Hk as [-> |Hk%elem_of_cons]; [etrans; [|apply (Hm (Z.max l0 l)); by left]; lia|].
      destruct Hk as [-> |Hk]; [etrans; [|apply (Hm (Z.max l0 l)); by left]; lia|]. apply Hm. by right.
    - apply elem_of_cons in Hi as [-> |Hi]; [|set_solver]. destruct (Z.max_spec l0 l) as [[_ ->]|[_ ->]]; set_solver. }
  assert (∀ l, Some l ∈ markers ↔ l ∈ l0 :: ls) as Hm.
  { intros l. clear -M. induction M as [|o k os ks E _ IH]; [set_solver|]. cbn in E. subst o. rewrite !elem_of_cons, IH. naive_solver. }
  split; [intros l Hl%Hm; auto|]. split; [by apply Hm|]. unfold store. rewrite Hk.
  destruct (replace_record _ _ _ _ _ _ _ _) as [s1 [h|err]] eqn:X; cbn [fst snd]; [|split; [done|]; split; [done|]; by eexists].
  pose proof (replace_record_identity _ _ _ _ _ _ _ _ _ _ X) as Eh.
  cbn [t_slot with_revision]. rewrite Hn. destruct (advance_slot srv delivery_id lsn f) as [srv1 [[]|]]; cbn [fst snd]; by split_and!.
Qed.

Lemma commit_record srv s hs x markers held f e :
  live x → handle_of_source x ∈ hs → let r := commit_offsets srv s x markers held f e in
  ∃ hs', rtc protocol (s, hs) (r.1.1.2, hs') ∧ (handle_of_source <$> surviving r.1.2 r.2) ++ hs ⊆ hs' ∧ Forall live (surviving r.1.2 r.2).
Proof.
  intros Hlive Hin. pose proof (commit_cases srv s x markers held f e Hlive) as C. cbn zeta in *.
  destruct (commit_offsets srv s x markers held f e) as [[[srv' s'] x'] r]. cbn [fst snd] in *.
  destruct C as [(-> & -> & err & ->)|(lsn & Hle & _ & _ & -> & C)]; [exists hs; split_and!; [done|done|constructor]|].
  destruct Hlive as (Hk & Hn & rev & Hrev). assert (advance (handle_identity (handle_of_source x)) (state_of (slot_tracker x) lsn)) as Ha by (by split).
  pose proof (replace_updated record_key advance StorageError JsonError (Safety ModifiedByAnother) s hs _ _ e Hin Ha) as Steps. cbn zeta in Steps.
  assert (Some (handle_revision (handle_of_source x)) = t_revision (slot_tracker x)) as E by (unfold handle_of_source; cbn; by rewrite Hrev).
  rewrite E in Steps. eexists. split; [exact Steps|]. destruct (replace_record _ _ _ _ _ _ _ _).2 as [h|].
  - destruct C as (_ & Eh & C). destruct r as [[]|]; [|split; [set_solver|constructor]]. destruct C as [_ ->]. cbn [surviving fmap list_fmap replaced].
    split; [|constructor; [|done]; by split_and!]. assert (handle_of_source {| slot_tracker := with_revision (slot_tracker x) (Some (handle_revision h)); source_lsn := lsn |} = h) as ->; [|done].
    destruct h. cbn in Eh. subst. done.
  - destruct C as (_ & err & ->). split; [set_solver|constructor].
Qed.

Record SlotInv (c : Server * Store * list PostgresReplicationSource) : Prop := {
  slot_record : RecordInv record_key advance (c.1.2, handle_of_source <$> c.2);
  slot_live : Forall live c.2
}.

Context (Hkey : key_ok record_key).

Lemma slot_steps_inv c c' :
  SlotInv c → rtc slot_step c c' → SlotInv c' ∧ older advance (settled c.1.2 record_key) (settled c'.1.2 record_key).
Proof.
  intros I Steps. revert I. induction Steps as [c|c c1 c2 Step _ IH]; intros I.
  { split; [done|]. exact (proj2 (record_steps_inv record_key advance Hkey _ _ (slot_record c I) (rtc_refl _ _))). }
  assert (∃ hs, rtc protocol (c.1.2, handle_of_source <$> c.2) (c1.1.2, hs) ∧ handle_of_source <$> c1.2 ⊆ hs ∧ Forall live c1.2) as (hs & Rs & Hsub & Hl).
  { destruct I as [I Hl]. destruct Step as [srv s l decoder src tables start replay f e1 e2 r|srv s l1 x l2 markers held f e r|srv s l k y b e Hne Hok Hb|srv s l srv'|srv s l s' Hc];
      cbn [fst snd] in *.
    - destruct (pg_prepare_record srv s (handle_of_source <$> l) decoder src tables start replay f e1 e2) as (hs & Rs & Hsub & Hp). exists hs.
      split_and!; [done|by rewrite fmap_app|by apply Forall_app].
    - apply Forall_app in Hl as [Hl1 [Hx Hl2]%Forall_cons].
      destruct (commit_record srv s (handle_of_source <$> l1 ++ x :: l2) x markers held f e Hx) as (hs & Rs & Hsub & Hp); [rewrite fmap_app; set_solver|].
      fold r in Rs, Hsub, Hp. exists hs. split_and!; [done| |by rewrite !Forall_app]. etrans; [|exact Hsub]. rewrite !fmap_app, fmap_cons. set_solver.
    - exists (handle_of_source <$> l). split_and!; [apply rtc_once; by constructor|done|done].
    - by exists (handle_of_source <$> l).
    - exists []. split_and!; [apply rtc_once; by constructor|done|constructor]. }
  destruct (record_steps_inv record_key advance Hkey _ _ (slot_record c I) Rs) as [I1 O1]. cbn [fst] in O1.
  destruct IH as [I2 O2]; [split; [by eapply record_weaken|done]|]. split; [done|eapply older_trans; [apply _|exact O1|exact O2]].
Qed.

Lemma slot_initial srv s : store_ok s → value s record_key = None → SlotInv (srv, s, []).
Proof. intros Hs Hv. split; [by apply record_initial|constructor]. Qed.

(** A commit settles its record before the slot moves. *)
Lemma commit_settles srv s l1 x l2 markers held f e :
  SlotInv (srv, s, l1 ++ x :: l2) → let r := commit_offsets srv s x markers held f e in
  (r.1.1.1 = srv ∧ ∃ err, r.2 = Err err) ∨
  ∃ lsn, Some lsn ∈ markers ∧ (∀ l, Some l ∈ markers → l ≤ lsn) ∧ r.1.1.1 = (advance_slot srv delivery_id lsn f).1 ∧
         holds (settled r.1.1.2 record_key) (state_of (slot_tracker x) lsn) ∧ (r.2 = Ok tt → source_lsn r.1.2 = lsn).
Proof.
  intros [I Hl]. cbn [fst snd] in *. apply Forall_app in Hl as [_ [Hx _]%Forall_cons].
  pose proof (commit_cases srv s x markers held f e Hx) as C. cbn zeta in *.
  destruct (commit_offsets srv s x markers held f e) as [[[srv' s'] x'] r]. cbn [fst snd] in *.
  destruct C as [(-> & _ & ?)|(lsn & Hle & Hmax & Hin & -> & C)]; [by left|].
  destruct (replace_record _ _ _ _ _ _ _ _) as [s1 [h|err]] eqn:X; cbn [fst snd] in *; [|left; by destruct C].
  right. exists lsn. destruct C as (-> & Eh & C). split_and!; [done..| |by intros ->; destruct C as [_ ->]].
  destruct Hx as (Hk & Hn & rev & Hrev).
  assert (advance (handle_identity (handle_of_source x)) (state_of (slot_tracker x) lsn)) as Ha by (by split).
  assert (Some (handle_revision (handle_of_source x)) = t_revision (slot_tracker x)) as E by (unfold handle_of_source; cbn; by rewrite Hrev).
  rewrite <-E in X. eapply (replace_record_settles record_key advance Hkey) in X as (_ & _ & ?); [done|exact I|].
  eapply handle_admissible; [exact I| |done]. rewrite fmap_app. set_solver.
Qed.
End server.

(** ** Properties *)
Section properties.
Context `{PgServer, DurableStorage, !Json ReplicationOffsetState}.

(** C15. On a storage that meets the laws of [DurableStorage], a stream resumes exactly
    where it was committed: once [commit_offsets] acknowledged a batch, whatever
    executions, failures, crashes and changes of the database follow, a source is only
    ever prepared at a position at or after every committed one, and only with the slot of
    that name in that database, of the configured plugin, confirmed at exactly that
    position, so that no committed change is read again and no later one is skipped. *)
Theorem pg_resume_exact id srv0 s0 srv s l1 x l2 markers held f e srv1 s1 x1 srv2 s2 l' decoder src tables start replay f' e1 e2 srv3 s3 t lsn :
  store_ok s0 → key_ok (record_key id) → value s0 (record_key id) = None →
  (∀ b st, from_slice b = Some st → 0 ≤ committed_lsn st ≤ u64_max) →
  rtc (slot_step id) (srv0, s0, []) (srv, s, l1 ++ x :: l2) →
  commit_offsets srv s x markers held f e = (srv1, s1, x1, Ok tt) →
  rtc (slot_step id) (srv1, s1, l1 ++ x1 :: l2) (srv2, s2, l') →
  prepare srv2 s2 decoder src tables id start replay f' e1 e2 = (srv3, s3, Ok (t, lsn)) →
  (∀ l, Some l ∈ markers → l ≤ lsn) ∧ slot_at srv3 id (plugin decoder) src lsn.
Proof.
  intros Hs Hk Hv Hjson Pre C Post P. destruct (slot_steps_inv id Hk _ _ (slot_initial id Hk srv0 s0 Hs Hv) Pre) as [I _].
  destruct (slot_steps_inv id Hk _ (srv1, s1, l1 ++ x1 :: l2) I) as [I1 _].
  { apply rtc_once. pose proof (slot_commit id srv s l1 x l2 markers held f e) as St. cbn zeta in St. by rewrite C in St. }
  pose proof (commit_settles id Hk srv s l1 x l2 markers held f e I) as Hset. cbn zeta in Hset. rewrite C in Hset. cbn [fst snd] in Hset.
  destruct Hset as [(_ & ? & ?)|(m & Hin & Hmax & _ & Hset & _)]; [done|].
  destruct (slot_steps_inv id Hk _ _ I1 Post) as [I2 O2]. cbn [fst snd] in O2. destruct (older_holds _ _ _ _ O2 Hset) as (st & Hst & A1).
  apply prepare_cases in P as (_ & _ & (req & Hpos) & Hrec). 
  assert (∃ st', from_slice (match read s2 (record_key id) e1 with Ok (Some v) => payload v | _ => [] end) = Some st' ∧ st' = state_of t lsn ∧ advance st st') as (st' & D & -> & A2).
  { destruct Hrec as [(-> & v & R & _ & D)|(R & _)].
    - destruct (settled_read _ _ Hk _ _ _ _ (slot_record id _ I2) Hst R) as (st' & (v' & [= <-] & D') & A). rewrite R. rewrite D in D'. simplify_eq. eauto.
    - destruct (settled_read _ _ Hk _ _ _ _ (slot_record id _ I2) Hst R) as (st' & (v' & [=] & _) & _). }
  apply Hjson in D. cbn in D. split; [|by eapply position_exact].
  intros l Hl. specialize (Hmax l Hl). pose proof (advance_lsn _ _ A1) as L1. pose proof (advance_lsn _ _ A2) as L2. cbn in L1, L2. lia.
Qed.

(** C16. The log is released only up to what is durably committed: in every history, a call of
    [commit_offsets], whichever way it ends, moves the slot no further than a position the
    durable record is certain to hold, or not at all. *)
Theorem pg_wal_released_after_commit id srv0 s0 srv s l1 x l2 markers held f e sl' :
  store_ok s0 → key_ok (record_key id) → value s0 (record_key id) = None →
  (∀ l, Some l ∈ markers → 0 ≤ l ≤ u64_max) →
  rtc (slot_step id) (srv0, s0, []) (srv, s, l1 ++ x :: l2) →
  let r := commit_offsets srv s x markers held f e in
  slots r.1.1.1 id = Some sl' →
  ∃ sl, slots srv id = Some sl ∧
    (flushed sl' = flushed sl ∨ ∃ st, holds (settled r.1.1.2 (record_key id)) st ∧ flushed sl ≤ flushed sl' ≤ Z.max (flushed sl) (committed_lsn st)).
Proof.
  intros Hs Hk Hv Hu Pre r Hsl. destruct (slot_steps_inv id Hk _ _ (slot_initial id Hk srv0 s0 Hs Hv) Pre) as [I _].
  destruct (commit_settles id Hk srv s l1 x l2 markers held f e I) as [[E _]|(lsn & Hin & _ & E & Hset & _)]; fold r in E.
  - rewrite E in Hsl. exists sl'. eauto.
  - fold r in Hset. rewrite E in Hsl. revert Hsl. unfold advance_slot. pose proof (slot_advance srv id lsn f (Hu _ Hin)) as A. cbn zeta in A.
    destruct (pg_replication_slot_advance _ _ _ _) as [srv1 row]. cbn [fst snd] in *. destruct (slots srv id) as [sl|]; [|destruct A; congruence].
    destruct A as (c & -> & Hb & _). intros [= <-]. exists sl. split; [done|]. right. eexists. split; [exact Hset|]. done.
Qed.
End properties.

(** ** Example: a database with one slot, a delivery in local files *)
Module SlotExample.
(** The slots, and a request that is answered or not. *)
Definition kept (srv : string → option Slot) (n : string) : option Slot :=
  (λ sl, with_confirmed sl ((λ l, l `mod` 2 ^ 64) <$> confirmed sl)) <$> srv n.
Definition moved (srv : string → option Slot) (n : string) (text : list Z) (answered : bool) : (string → option Slot) * option (string * list Z) :=
  match kept srv n, parse_lsn text with
  | Some sl, Ok l =>
      let c := Z.max (flushed sl) l in
      (λ m, if bool_decide (m = n) then Some (with_confirmed sl (Some c)) else srv m, if answered then Some (n, format_lsn c) else None)
  | _, _ => (srv, None)
  end.
Definition row_of (sl : Slot) : SlotRow :=
  {| row_plugin := slot_plugin sl; row_lsn := format_lsn <$> confirmed sl; row_database := slot_database sl; row_datoid := slot_datoid sl |}.
#[local] Program Instance server : PgServer := {|
  Server := string → option Slot; Fault := bool; slots := kept; lsn_text := format_lsn;
  query_slot srv n answered := if answered : bool then Some (row_of <$> kept srv n) else None;
  pg_replication_slot_advance := moved;
  pg_tm_aux_schema srv answered := Some None;
  pg_create_logical_replication_slot_lsn srv schema n plugin text answered := (srv, None)
|}.
Next Obligation. intros l Hl. by apply lsn_roundtrip. Qed.
Next Obligation.
  intros srv n sl l. unfold kept. cbn. destruct (srv n) as [sl0|]; cbn; [|done]. intros [= <-]. cbn.
  destruct (confirmed sl0) as [l0|]; cbn; [|done]. intros [= <-]. pose proof (Z.mod_pos_bound l0 (2 ^ 64)). unfold u64_max. lia.
Qed.
Next Obligation. intros srv n [] r; cbn; [|done]. by intros [= <-]. Qed.
Next Obligation.
  intros srv n l f Hl. cbn zeta. unfold moved. rewrite lsn_roundtrip by done. destruct (kept srv n) as [sl|] eqn:K; [|by split]. cbn [fst snd].
  exists (Some (Z.max (flushed sl) l)). assert (0 ≤ flushed sl ≤ u64_max) as Hf.
  { unfold flushed. revert K. unfold kept. destruct (srv n) as [sl0|]; cbn; [|done]. intros [= <-]. cbn. destruct (confirmed sl0) as [l0|]; cbn; [|unfold u64_max; lia].
    pose proof (Z.mod_pos_bound l0 (2 ^ 64)). unfold u64_max. lia. }
  split_and!; [|cbn; lia|cbn; lia|].
  - unfold kept at 1. rewrite bool_decide_true by done. cbn. f_equal. unfold with_confirmed. cbn. f_equal. f_equal. apply Z.mod_small. unfold u64_max in *. lia.
  - intros m t. destruct f; [|done]. intros [= <- <-]. eauto.
Qed.

#[local] Instance storage : DurableStorage := @local_files zero_murmur3 ["state"].
Definition src : PostgresSourceIdentity := {| system_identifier := 1; database := "shop"; database_oid := 5 |}.
Definition recorded (lsn : Z) : ReplicationOffsetState :=
  {| version := STATE_VERSION; replay_identity := "replay"; slot := "d"; state_plugin := "wal2json"; publication := None; source := src;
     authoritative_tables := []; committed_lsn := lsn |}.
(** A codec that knows the two records. *)
#[local] Program Instance json : Json ReplicationOffsetState := {|
  to_vec st := if bool_decide (st = recorded 100) then Some [1] else if bool_decide (st = recorded 200) then Some [2] else None;
  from_slice b := if bool_decide (b = [1]) then Some (recorded 100) else if bool_decide (b = [2]) then Some (recorded 200) else None
|}.
Next Obligation. intros st b. cbn. repeat case_bool_decide; intros [= <-]; naive_solver. Qed.
Next Obligation. intros st b. cbn. repeat case_bool_decide; intros [= <-]; by apply one_byte. Qed.

Definition env (sequence : Z) : Env := (7, sequence, NoFault).
Definition created : string → option Slot :=
  λ n, if bool_decide (n = "d") then Some {| slot_plugin := Some "wal2json"; confirmed := Some 90; slot_database := Some "shop"; slot_datoid := Some 5 |} else None.
Definition first := prepare (created : Server) (blank : Store) Wal2Json src [] "d" (Some 100) "replay" (λ _, true) (env 0) (env 0).
Definition opened : PostgresReplicationSource :=
  {| slot_tracker := {| t_key := record_key "d"; t_revision := Some 0; t_replay_identity := "replay"; t_slot := "d"; t_plugin := "wal2json";
                        t_publication := None; t_source := src; t_tables := [] |}; source_lsn := 100 |}.
Definition committed := commit_offsets first.1.1 first.1.2 opened [Some 150; Some 200] true true (env 1).
Definition after_crash : Store := reverted committed.1.1.2.
Definition again := prepare committed.1.1.1 after_crash Wal2Json src [] "d" (Some 100) "replay" (λ _, true) (env 2) (env 2).

Lemma first_step : slot_step "d" (created : Server, blank : Store, []) (first.1.1, first.1.2, [opened]).
Proof.
  pose proof (slot_prepare "d" created blank [] Wal2Json src [] (Some 100) "replay" (λ _, true) (env 0) (env 0)) as St. cbn zeta in St. fold first in St.
  assert (prepared first.2 = [opened]) as E by (vm_compute; reflexivity). rewrite E in St. exact St.
Qed.
Lemma slot_file_key : key_ok (record_key "d").
Proof.
  change (file_key ["state"] (record_key "d")).
  split; [apply (bool_decide_unpack (dotless (record_key "d"))); vm_compute; exact I|vm_compute; exact I].
Qed.
Lemma pg_resume_exact_witness :
  again.2 = Ok (with_revision (slot_tracker opened) (Some 1), 200) ∧
  (∀ l, Some l ∈ [Some 150; Some 200] → l ≤ 200) ∧ slot_at again.1.1 "d" "wal2json" src 200.
Proof.
  assert (again.2 = Ok (with_revision (slot_tracker opened) (Some 1), 200)) as Ha by (vm_compute; reflexivity). split; [exact Ha|].
  eapply (@pg_resume_exact server storage json "d" created blank first.1.1 first.1.2 [] opened [] [Some 150; Some 200] true true (env 1)
    committed.1.1.1 committed.1.1.2 committed.1.2 committed.1.1.1 after_crash [] Wal2Json src [] (Some 100) "replay" (λ _, true) (env 2) (env 2)
    again.1.1 again.1.2).
  - apply (@empty_disk_consistent zero_murmur3 [["state"]]).
  - apply slot_file_key.
  - vm_compute; reflexivity.
  - intros b st. cbn. repeat case_bool_decide; intros [= <-]; vm_compute; split; discriminate.
  - apply rtc_once, first_step.
  - assert (committed.2 = Ok tt) as <- by (vm_compute; reflexivity). 
    change (committed = (committed.1.1.1, committed.1.1.2, committed.1.2, committed.2)). by destruct committed as [[[? ?] ?] ?].
  - apply rtc_once, slot_crash. split; [apply (bool_decide_unpack (housed committed.1.1.2)); vm_compute; exact I|apply reverted_crash].
  - rewrite <-Ha. change (again = (again.1.1, again.1.2, again.2)). by destruct again as [[? ?] ?].
Defined.
Lemma pg_wal_released_after_commit_witness :
  ∃ sl, slots first.1.1 "d" = Some sl ∧
    (flushed (with_confirmed sl (Some 200)) = flushed sl ∨
     ∃ st, holds (settled committed.1.1.2 (record_key "d")) st ∧ flushed sl ≤ 200 ≤ Z.max (flushed sl) (committed_lsn st)).
Proof.
  apply (@pg_wal_released_after_commit server storage json "d" created blank first.1.1 first.1.2 [] opened [] [Some 150; Some 200] true true (env 1)
    {| slot_plugin := Some "wal2json"; confirmed := Some 200; slot_database := Some "shop"; slot_datoid := Some 5 |}).
  - apply (@empty_disk_consistent zero_murmur3 [["state"]]).
  - apply slot_file_key.
  - vm_compute; reflexivity.
  - intros l Hl. unfold u64_max. set_solver by lia.
  - apply rtc_once, first_step.
  - vm_compute; reflexivity.
Defined.
End SlotExample.
