(* ===== verification/PgPhase.v ===== *)
(** * The PostgreSQL snapshot and stream phases

    [src_batch_and_stream/phase.rs] of transferia-connector-postgres: the durable record of a
    delivery that snapshots its tables and then streams from the snapshot's position, which a
    replication slot keeps.  The storage is [DurableStorage], JSON is [Json]. *)

From stdpp Require Import base tactics numbers option strings relations sets list.
From S2P Require Import Prelude Bytes Durable DurableStorage DurableCrash DurableRecord PgTables.
Local Open Scope Z_scope.

Definition STATE_VERSION : Z := 3.
Inductive PersistedPhase := Claimed | Snapshot (consistent_lsn : Z) | Streaming (start_lsn : Z).
#[export] Instance PersistedPhase_eq_dec : EqDecision PersistedPhase.
Proof. solve_decision. Defined.

Record PersistedState := {
  version : Z (* u8 *); replay_identity : string; slot : string; state_plugin : string; publication : option string;
  tables : list (string * string); source : PostgresSourceIdentity; authoritative_tables : option (list AuthoritativeTableIdentity);
  state : PersistedPhase
}.
#[export] Instance PersistedState_eq_dec : EqDecision PersistedState.
Proof. solve_decision. Defined.

Record SnapshotStreamTracker := { key : string; tracker_handle : Handle PersistedState }.
Inductive SnapshotStreamPreparation := Create (t : SnapshotStreamTracker) | PrepareStreaming (t : SnapshotStreamTracker) (start_lsn : Z).

Inductive PhaseCause :=
| EmptyReplayIdentity | BadJson | UnsupportedVersion | InconsistentPhase | DifferentSettings | BootstrapInterrupted | RecycledByAnother
| SnapshotInterruptedSlot | SnapshotInterrupted | UnownedSlot | ClaimedByAnother | NotClaimed | OfTables (e : PgError) | SnapshotNotReady
| SchemaMissing | SchemaChanged | ModifiedByAnother.
Inductive PhaseError := Safety (c : PhaseCause) | StorageError (e : DurableError) | JsonError | ConfigError (e : PgError).

Definition persisted_state (decoder : LogicalDecoder) (configured : list TableConfig) (src : PostgresSourceIdentity) (replay : string)
    (phase : PersistedPhase) (n : string) : PersistedState :=
  {| version := STATE_VERSION; replay_identity := replay; slot := n; state_plugin := plugin decoder; publication := publication_of decoder;
     tables := (λ t, (config_schema t, config_name t)) <$> configured; source := src; authoritative_tables := None; state := phase |}.

Section phase.
Context `{DurableStorage, !Json PersistedState}.

Definition decode_and_validate (bytes : list Z) (expected : PersistedState) : result PhaseCause PersistedState :=
  ok_or (from_slice bytes) BadJson ≫= λ actual : PersistedState,
  ensure (bool_decide (version actual = STATE_VERSION)) UnsupportedVersion ≫= λ _,
  ensure (eqb (bool_decide (state actual = Claimed)) (bool_decide (authoritative_tables actual = None))) InconsistentPhase ≫= λ _,
  ensure (bool_decide (slot actual = slot expected) && bool_decide (replay_identity actual = replay_identity expected) &&
          bool_decide (state_plugin actual = state_plugin expected) && bool_decide (publication actual = publication expected) &&
          bool_decide (tables actual = tables expected) && bool_decide (source actual = source expected)) DifferentSettings ≫= λ _,
  Ok actual.

(** The exchange [claim_or_resume] and [store] end with. *)
Definition replace (k : string) (s : Store) (x : option Z) (next : PersistedState) (conflict : PhaseCause) (e : Env)
    : Store * result PhaseError SnapshotStreamTracker :=
  let '(s, r) := replace_record k StorageError JsonError (Safety conflict) s x next e in
  (s, r ≫= λ h, Ok {| key := k; tracker_handle := h |}).

Definition claim_or_resume (s : Store) (decoder : LogicalDecoder) (configured : list TableConfig) (src : PostgresSourceIdentity)
    (delivery_id : string) (slot_exists : bool) (replay : string) (e1 e2 : Env) : Store * result PhaseError SnapshotStreamPreparation :=
  match ensure (negb (bool_decide (replay = ""))) (Safety EmptyReplayIdentity) ≫= λ _, map_err ConfigError (replication_slot delivery_id) with
  | Err err => (s, Err err)
  | Ok n =>
      let expected := persisted_state decoder configured src replay Claimed n in
      let k := "postgres-snapshot-stream-" +:+ n in
      match map_err StorageError (read s k e1) with
      | Err err => (s, Err err)
      | Ok (Some current) =>
          match map_err Safety (decode_and_validate (payload current) expected) with
          | Err err => (s, Err err)
          | Ok persisted =>
              match state persisted with
              | Streaming start_lsn =>
                  (s, Ok (PrepareStreaming {| key := k; tracker_handle := {| handle_revision := revision current; handle_identity := persisted |} |} start_lsn))
              | Claimed =>
                  if slot_exists then (s, Err (Safety BootstrapInterrupted))
                  else let '(s, r) := replace k s (Some (revision current)) expected RecycledByAnother e2 in (s, r ≫= λ t, Ok (Create t))
              | Snapshot _ => (s, Err (Safety (if slot_exists then SnapshotInterruptedSlot else SnapshotInterrupted)))
              end
          end
      | Ok None =>
          if slot_exists then (s, Err (Safety UnownedSlot))
          else let '(s, r) := replace k s None expected ClaimedByAnother e2 in (s, r ≫= λ t, Ok (Create t))
      end
  end.

(** [SnapshotStreamTracker::store]. *)
Definition store_phase (s : Store) (t : SnapshotStreamTracker) (phase : PersistedPhase) (known : option (list AuthoritativeTableIdentity)) (e : Env)
    : Store * SnapshotStreamTracker * result PhaseError unit :=
  let me := handle_identity (tracker_handle t) in
  let next := {| version := version me; replay_identity := replay_identity me; slot := slot me; state_plugin := state_plugin me;
                 publication := publication me; tables := tables me; source := source me; authoritative_tables := known; state := phase |} in
  match replace (key t) s (Some (handle_revision (tracker_handle t))) next ModifiedByAnother e with
  | (s, Ok t) => (s, t, Ok tt)
  | (s, Err err) => (s, t, Err err)
  end.
Definition mark_snapshot_ready (s : Store) (t : SnapshotStreamTracker) (consistent_lsn : Z) (discovered : list DiscoveredTable) (e : Env)
    : Store * SnapshotStreamTracker * result PhaseError unit :=
  if negb (bool_decide (state (handle_identity (tracker_handle t)) = Claimed)) then (s, t, Err (Safety NotClaimed))
  else match map_err (Safety ∘ OfTables) (authoritative_table_identities discovered) with
  | Err err => (s, t, Err err)
  | Ok known => store_phase s t (Snapshot consistent_lsn) (Some known) e
  end.
Definition mark_streaming (s : Store) (t : SnapshotStreamTracker) (e : Env) : Store * SnapshotStreamTracker * result PhaseError Z :=
  match state (handle_identity (tracker_handle t)) with
  | Snapshot consistent_lsn =>
      match authoritative_tables (handle_identity (tracker_handle t)) with
      | None => (s, t, Err (Safety SchemaMissing))
      | Some known =>
          match store_phase s t (Streaming consistent_lsn) (Some known) e with
          | (s, t, Ok _) => (s, t, Ok consistent_lsn)
          | (s, t, Err err) => (s, t, Err err)
          end
      end
  | Claimed | Streaming _ => (s, t, Err (Safety SnapshotNotReady))
  end.
Definition validate_authoritative_tables (t : SnapshotStreamTracker) (discovered : list DiscoveredTable) : result PhaseError unit :=
  ok_or (authoritative_tables (handle_identity (tracker_handle t))) (Safety SchemaMissing) ≫= λ expected,
  map_err (Safety ∘ OfTables) (authoritative_table_identities discovered) ≫= λ actual,
  ensure (bool_decide (actual = expected)) (Safety SchemaChanged).
Definition streaming_lsn (t : SnapshotStreamTracker) : option Z :=
  match state (handle_identity (tracker_handle t)) with Streaming start_lsn => Some start_lsn | Claimed | Snapshot _ => None end.

(** ** Histories of a delivery *)
Context (delivery_id : string).
Definition phase_key : string := "postgres-snapshot-stream-" +:+ delivery_id.
Definition prepared (r : result PhaseError SnapshotStreamPreparation) : list SnapshotStreamTracker :=
  match r with Ok (Create t) | Ok (PrepareStreaming t _) => [t] | Err _ => [] end.

Inductive phase_step : Store * list SnapshotStreamTracker → Store * list SnapshotStreamTracker → Prop :=
| phase_claim s ts decoder configured src slot_exists replay e1 e2 :
    let r := claim_or_resume s decoder configured src delivery_id slot_exists replay e1 e2 in phase_step (s, ts) (r.1, prepared r.2 ++ ts)
| phase_ready s ts t lsn discovered e :
    t ∈ ts → let r := mark_snapshot_ready s t lsn discovered e in phase_step (s, ts) (r.1.1, r.1.2 :: ts)
| phase_streaming s ts t e :
    t ∈ ts → let r := mark_streaming s t e in phase_step (s, ts) (r.1.1, r.1.2 :: ts)
| phase_elsewhere s ts k x b e :
    k ≠ phase_key → key_ok k → payload_ok b → phase_step (s, ts) ((compare_exchange s k x b e).1, ts)
| phase_crash s ts s' : crashed s s' → phase_step (s, ts) (s', []).

(** The delivery is the same; a snapshot keeps its position and tables. *)
Definition phase_le (a b : PersistedPhase) : Prop :=
  match a, b with
  | Claimed, _ => True
  | Snapshot x, (Snapshot y | Streaming y) => x = y
  | Streaming x, Streaming y => x = y
  | _, _ => False
  end.
Record advance (a b : PersistedState) : Prop := {
  advance_replay : replay_identity b = replay_identity a;
  advance_slot : slot b = slot a;
  advance_plugin : state_plugin b = state_plugin a;
  advance_publication : publication b = publication a;
  advance_configured : tables b = tables a;
  advance_source : source b = source a;
  advance_phase : phase_le (state a) (state b);
  advance_tables : state a ≠ Claimed → authoritative_tables b = authoritative_tables a
}.
#[export] Instance phase_le_preorder : PreOrder phase_le.
Proof. split; [by intros []|intros [] [] []; cbn; congruence || done]. Qed.
#[export] Instance advance_preorder : PreOrder advance.
Proof.
  split.
  - intros a. split; done.
  - intros a b c [] []. split; [congruence..|by etrans|].
    intros Hne. rewrite <-advance_tables0 by done. apply advance_tables1. intros E. rewrite E in advance_phase0.
    by destruct (state a).
Qed.
Abbreviation protocol := (record_step phase_key advance).
Definition ours (t : SnapshotStreamTracker) : Prop := key t = phase_key.

Lemma replace_protocol s hs h next conflict e :
  h ∈ hs → advance (handle_identity h) next → let r := replace phase_key s (Some (handle_revision h)) next conflict e in
  ∃ hs', rtc protocol (s, hs) (r.1, hs') ∧ hs ⊆ hs' ∧ match r.2 with Ok t => tracker_handle t ∈ hs' ∧ ours t | Err _ => True end.
Proof.
  intros Hh Ha. cbn zeta. unfold replace.
  pose proof (replace_updated phase_key advance StorageError JsonError (Safety conflict) s hs h next e Hh Ha) as Steps. cbn zeta in Steps.
  destruct (replace_record _ _ _ _ _ _ _ _) as [s' [t|err]]; cbn [fst snd mbind result_bind replaced] in *; eexists; (split; [exact Steps|]); set_solver.
Qed.
Lemma replace_new s hs next conflict e :
  let r := replace phase_key s None next conflict e in
  ∃ hs', rtc protocol (s, hs) (r.1, hs') ∧ hs ⊆ hs' ∧ match r.2 with Ok t => tracker_handle t ∈ hs' ∧ ours t | Err _ => True end.
Proof.
  cbn zeta. unfold replace. pose proof (replace_created phase_key advance StorageError JsonError (Safety conflict) s hs next e) as Steps. cbn zeta in Steps.
  destruct (replace_record _ _ _ _ _ _ _ _) as [s' [t|err]]; cbn [fst snd mbind result_bind replaced] in *; eexists; (split; [exact Steps|]); set_solver.
Qed.
Lemma pg_decode_Ok bytes expected actual :
  decode_and_validate bytes expected = Ok actual →
  from_slice bytes = Some actual ∧ slot actual = slot expected ∧ replay_identity actual = replay_identity expected ∧
  state_plugin actual = state_plugin expected ∧ publication actual = publication expected ∧ tables actual = tables expected ∧
  source actual = source expected.
Proof.
  unfold decode_and_validate. intros (st & Hj & E)%bind_Ok. destruct (from_slice bytes) as [st'|]; [injection Hj as ->|done].
  do 2 (apply bind_Ok in E as ([] & _ & E)). apply bind_Ok in E as ([] & Hid%ensure_Ok & [= <-]). by bool_inv.
Qed.
Lemma slot_named n : replication_slot delivery_id = Ok n → n = delivery_id.
Proof. unfold replication_slot. by intros (_ & _ & [= <-])%bind_Ok. Qed.

(** Every operation is a history of the record protocol. *)
Abbreviation simulates s hs s' ts' :=
  (∃ hs', rtc protocol (s, hs) (s', hs') ∧ hs ⊆ hs' ∧ Forall (λ t, tracker_handle t ∈ hs' ∧ ours t) ts') (only parsing).

Lemma claim_protocol s hs decoder configured src slot_exists replay e1 e2 :
  let r := claim_or_resume s decoder configured src delivery_id slot_exists replay e1 e2 in simulates s hs r.1 (prepared r.2).
Proof.
  cbn zeta. unfold claim_or_resume. destruct (ensure _ _) as [[]|]; cbn [mbind result_bind]; [|by exists hs].
  destruct (replication_slot delivery_id) as [n|] eqn:N; cbn [map_err]; [|by exists hs]. apply slot_named in N as ->. fold phase_key.
  set (expected := persisted_state _ _ _ _ _ _). destruct (read s _ e1) as [[v|]|] eqn:R; cbn [map_err]; [| |by exists hs].
  - destruct (decode_and_validate _ _) as [persisted|] eqn:D; cbn [map_err]; [|by exists hs]. apply pg_decode_Ok in D as (Hj & I1 & I2 & I3 & I4 & I5 & I6).
    set (h := {| handle_revision := revision v; handle_identity := persisted |}).
    assert (protocol (s, hs) (s, h :: hs)) as Open by (eapply record_open; done).
    destruct (state persisted) as [|b|b] eqn:Ep.
    + destruct slot_exists; [by exists hs|].
      assert (advance (handle_identity h) expected) as Ha by (split; cbn [handle_identity h]; [congruence..|by rewrite Ep|by rewrite Ep]).
      destruct (replace_protocol s (h :: hs) h expected RecycledByAnother e2 ltac:(by left) Ha) as (hs' & Steps & Hsub & Ht).
      cbn [handle_revision h] in Steps, Ht. destruct (replace _ _ _ _ _ _) as [s' [t|]]; cbn [fst snd mbind result_bind prepared] in *;
        (exists hs'; split_and!; [eapply rtc_l; [exact Open|exact Steps]|set_solver|]); [by constructor|constructor].
    + by exists hs.
    + exists (h :: hs). split_and!; [by apply rtc_once|set_solver|]. constructor; [|done]. split; [by left|done].
  - destruct slot_exists; [by exists hs|]. destruct (replace_new s hs expected ClaimedByAnother e2) as (hs' & Steps & Hsub & Ht).
    destruct (replace _ _ _ _ _ _) as [s' [t|]]; cbn [fst snd mbind result_bind prepared] in *; exists hs'; split_and!; try done; by constructor.
Qed.
Lemma store_protocol s hs t phase known e :
  ours t → tracker_handle t ∈ hs → phase_le (state (handle_identity (tracker_handle t))) phase →
  (state (handle_identity (tracker_handle t)) ≠ Claimed → authoritative_tables (handle_identity (tracker_handle t)) = known) →
  let r := store_phase s t phase known e in simulates s hs r.1.1 [r.1.2].
Proof.
  intros Ho Ht Hp Htab. cbn zeta. unfold store_phase. rewrite Ho. set (next := {| version := _ |}).
  assert (advance (handle_identity (tracker_handle t)) next) as Ha by (split; cbn; [done..|intros; symmetry; auto]).
  destruct (replace_protocol s hs (tracker_handle t) next ModifiedByAnother e Ht Ha) as (hs' & Steps & Hsub & Hr).
  destruct (replace _ _ _ _ _ _) as [s' [t'|err]]; cbn [fst snd] in *; exists hs'; split_and!; try done; (constructor; [|done]); [done|]. split; [set_solver|done].
Qed.
Lemma unchanged_protocol s hs t : ours t → tracker_handle t ∈ hs → simulates s hs s [t].
Proof. intros Ho Ht. exists hs. split_and!; [done..|]. by constructor. Qed.
Lemma ready_protocol s hs t lsn discovered e :
  ours t → tracker_handle t ∈ hs → let r := mark_snapshot_ready s t lsn discovered e in simulates s hs r.1.1 [r.1.2].
Proof.
  intros Ho Ht. cbn zeta. unfold mark_snapshot_ready. case_bool_decide as Hc; cbn [negb]; [|by apply unchanged_protocol].
  destruct (map_err _ _); [|by apply unchanged_protocol]. apply store_protocol; [done|done|by rewrite Hc|done].
Qed.
Lemma streaming_protocol s hs t e :
  ours t → tracker_handle t ∈ hs → let r := mark_streaming s t e in simulates s hs r.1.1 [r.1.2].
Proof.
  intros Ho Ht. cbn zeta. unfold mark_streaming.
  destruct (state _) as [|b|b] eqn:Es; [by apply unchanged_protocol| |by apply unchanged_protocol].
  destruct (authoritative_tables _) as [known|] eqn:Et; [|by apply unchanged_protocol].
  pose proof (store_protocol s hs t (Streaming b) (Some known) e Ho Ht) as P. rewrite Es in P. specialize (P eq_refl (λ _, Et)). cbn zeta in P.
  by destruct (store_phase _ _ _ _ _) as [[s' t'] [[]|err]].
Qed.

Record PhaseInv (c : Store * list SnapshotStreamTracker) : Prop := {
  phase_record : RecordInv phase_key advance (c.1, tracker_handle <$> c.2);
  phase_ours : Forall ours c.2
}.
Context (Hkey : key_ok phase_key).

Lemma pg_phase_steps_inv c c' :
  PhaseInv c → rtc phase_step c c' → PhaseInv c' ∧ older advance (settled c.1 phase_key) (settled c'.1 phase_key).
Proof.
  intros I Steps. revert I. induction Steps as [c|c c1 c2 Step _ IH]; intros I.
  { split; [done|]. exact (proj2 (record_steps_inv phase_key advance Hkey _ _ (phase_record c I) (rtc_refl _ _))). }
  assert (∃ hs, rtc protocol (c.1, tracker_handle <$> c.2) (c1.1, hs) ∧ Forall (λ t, tracker_handle t ∈ hs ∧ ours t) c1.2) as (hs & Rs & Hl).
  { assert (∀ s s' ts new, Forall ours ts → simulates s (tracker_handle <$> ts) s' new →
      ∃ hs, rtc protocol (s, tracker_handle <$> ts) (s', hs) ∧ Forall (λ t, tracker_handle t ∈ hs ∧ ours t) (new ++ ts)) as Keep.
    { intros s s' ts new Ho (hs & Rs & Hsub & Hn). exists hs. split; [done|]. apply Forall_app. split; [done|].
      rewrite Forall_forall in Ho |- *. intros t Ht. split; [apply Hsub; by apply list_elem_of_fmap_2|by apply Ho]. }
    destruct I as [_ Ho]. destruct Step as [s ts decoder configured src slot_exists replay e1 e2 r|s ts t lsn discovered e Ht r|s ts t e Ht r|s ts k x b e Hk Hok Hb|s ts s' Hc];
      cbn [fst snd] in *.
    - apply Keep; [done|]. apply claim_protocol.
    - rewrite Forall_forall in Ho. apply (Keep _ _ ts [_]); [by apply Forall_forall|]. apply ready_protocol; [by apply Ho|by apply list_elem_of_fmap_2].
    - rewrite Forall_forall in Ho. apply (Keep _ _ ts [_]); [by apply Forall_forall|]. apply streaming_protocol; [by apply Ho|by apply list_elem_of_fmap_2].
    - apply (Keep _ _ ts []); [done|]. exists (tracker_handle <$> ts). split_and!; [apply rtc_once; by constructor|done|constructor].
    - exists []. split; [apply rtc_once; by constructor|constructor]. }
  destruct (record_steps_inv phase_key advance Hkey _ _ (phase_record c I) Rs) as [I1 O1]. cbn [fst] in O1.
  destruct IH as [I2 O2].
  { split; [eapply record_weaken; [|exact I1]|]; rewrite Forall_forall in Hl.
    - intros h (t & -> & Ht)%list_elem_of_fmap. by apply Hl.
    - apply Forall_forall. intros t Ht. by apply Hl. }
  split; [done|eapply older_trans; [apply _|exact O1|exact O2]].
Qed.
Lemma phase_initial s : store_ok s → value s phase_key = None → PhaseInv (s, []).
Proof. intros Hs Hv. split; [by apply record_initial|constructor]. Qed.

Lemma pg_ready_settles s ts t lsn discovered e s1 t1 :
  PhaseInv (s, ts) → t ∈ ts → mark_snapshot_ready s t lsn discovered e = (s1, t1, Ok tt) →
  ∃ known, authoritative_table_identities discovered = Ok known ∧ holds (settled s1 phase_key) (handle_identity (tracker_handle t1)) ∧
    state (handle_identity (tracker_handle t1)) = Snapshot lsn ∧ authoritative_tables (handle_identity (tracker_handle t1)) = Some known.
Proof.
  intros [I Ho] Ht. cbn [fst snd] in *. rewrite Forall_forall in Ho. specialize (Ho t Ht). unfold mark_snapshot_ready.
  case_bool_decide as Hc; cbn [negb]; [|done]. destruct (authoritative_table_identities discovered) as [known|]; cbn [map_err]; [|done].
  unfold store_phase, replace. rewrite Ho. set (next := {| version := _ |}).
  assert (advance (handle_identity (tracker_handle t)) next) as Ha by (split; cbn; [done..|by rewrite Hc|by rewrite Hc]).
  destruct (replace_record _ _ _ _ _ _ _ _) as [s' [h|err]] eqn:R; cbn [mbind result_bind]; [|done]. intros [= <- <-]. exists known. split; [done|].
  eapply (replace_record_settles phase_key advance Hkey) in R as (E & _ & Hs); [|exact I|eapply handle_admissible; [exact I|by apply list_elem_of_fmap_2|done]].
  cbn [tracker_handle]. by rewrite E.
Qed.

(** What [claim_or_resume] returns from a record. *)
Lemma pg_claim_reads s decoder configured src slot_exists replay e1 e2 s' p v :
  claim_or_resume s decoder configured src delivery_id slot_exists replay e1 e2 = (s', Ok p) →
  (∀ o, read s phase_key e1 = Ok o → o = Some v) →
  ∃ st, from_slice (payload v) = Some st ∧
  match state st with
  | Claimed => slot_exists = false
  | Snapshot _ => False
  | Streaming b => ∃ t, p = PrepareStreaming t b ∧ handle_identity (tracker_handle t) = st
  end.
Proof.
  unfold claim_or_resume. destruct (ensure _ _) as [[]|]; cbn [mbind result_bind]; [|done].
  destruct (replication_slot delivery_id) as [n|] eqn:N; cbn [map_err]; [|done]. apply slot_named in N as ->. fold phase_key.
  destruct (read s _ e1) as [o|] eqn:R; cbn [map_err]; [|done]. intros E Ho. rewrite (Ho o eq_refl) in E.
  destruct (decode_and_validate _ _) as [persisted|] eqn:D; cbn [map_err] in E; [|done]. apply pg_decode_Ok in D as (Hj & _). exists persisted. split; [done|].
  destruct (state persisted) as [|b|b]; [by destruct slot_exists|done|]. injection E as _ <-. by eexists.
Qed.
(** A claim that is to create a slot finds none. *)
Lemma create_without_slot s decoder configured src slot_exists replay e1 e2 s' t :
  claim_or_resume s decoder configured src delivery_id slot_exists replay e1 e2 = (s', Ok (Create t)) → slot_exists = false.
Proof.
  unfold claim_or_resume. destruct (ensure _ _) as [[]|]; cbn [mbind result_bind]; [|done]. destruct (map_err _ _) as [n|]; [|done].
  destruct (map_err _ _) as [[v|]|]; [| |done]; [destruct (map_err _ _) as [persisted|]; [|done]; destruct (state persisted); [|done..]|]; by destruct slot_exists.
Qed.
End phase.

(** ** Properties *)
Section properties.
Context `{DurableStorage, !Json PersistedState}.

(** The stream starts exactly where the snapshot was taken: once a snapshot at a position
    is acknowledged, whatever executions, failures and crashes follow, a delivery is only
    ever resumed streaming from that position, never snapshots again, and its tables pass the
    check of their schemas only if they are the tables the snapshot was taken of. *)
Theorem pg_stream_starts_at_snapshot id s0 s ts t lsn discovered e s1 t1 s2 ts2 decoder configured src slot_exists replay e1 e2 s3 p :
  store_ok s0 → key_ok (phase_key id) → value s0 (phase_key id) = None →
  rtc (phase_step id) (s0, []) (s, ts) → t ∈ ts →
  mark_snapshot_ready s t lsn discovered e = (s1, t1, Ok tt) →
  rtc (phase_step id) (s1, t1 :: ts) (s2, ts2) →
  claim_or_resume s2 decoder configured src id slot_exists replay e1 e2 = (s3, Ok p) →
  ∃ t2, p = PrepareStreaming t2 lsn ∧ streaming_lsn t2 = Some lsn ∧
    ∀ later, validate_authoritative_tables t2 later = Ok tt ↔ authoritative_table_identities later = authoritative_table_identities discovered.
Proof.
  intros Hs Hk Hv Pre Ht St Post C. destruct (pg_phase_steps_inv id Hk _ _ (phase_initial id Hk s0 Hs Hv) Pre) as [I _].
  destruct (pg_phase_steps_inv id Hk _ (s1, t1 :: ts) I) as [I1 _].
  { apply rtc_once. pose proof (phase_ready id s ts t lsn discovered e Ht) as Step. cbn zeta in Step. by rewrite St in Step. }
  destruct (pg_ready_settles id Hk _ _ _ _ _ _ _ _ I Ht St) as (known & Hd & Hset & Es & Et).
  destruct (pg_phase_steps_inv id Hk _ _ I1 Post) as [I2 O2]. cbn [fst] in O2. destruct (older_holds _ _ _ _ O2 Hset) as (st1 & Hh1 & A1).
  destruct (older_holds _ _ _ _ (record_settled _ _ _ (phase_record id _ I2)) Hh1) as (st & (v & Ev & D) & A2). cbn [fst] in Ev.
  assert (advance (handle_identity (tracker_handle t1)) st) as A by (by etrans). pose proof (advance_phase _ _ A) as Hp.
  pose proof (advance_tables _ _ A) as Htab. rewrite Es in Hp, Htab. rewrite Et in Htab. specialize (Htab ltac:(done)).
  edestruct (pg_claim_reads id _ _ _ _ _ _ _ _ _ _ v C) as (st' & D' & Hc).
  { intros o R. apply read_value in R; [congruence|apply (phase_record id _ I2)|done]. }
  rewrite D in D'. injection D' as <-. destruct (state st) as [|b|b] eqn:Est; [done|done|]. cbn in Hp. subst b.
  destruct Hc as (t2 & -> & E). exists t2. split; [done|]. unfold streaming_lsn, validate_authoritative_tables. rewrite E, Est, Htab, Hd. split; [done|].
  intros later. cbn [ok_or mbind result_bind]. destruct (authoritative_table_identities later) as [actual|]; cbn; [|done]. case_bool_decide; cbn; split; congruence.
Qed.
End properties.

(** ** Example: a delivery in local files *)
Module PhaseExample.
#[local] Instance storage : DurableStorage := @local_files zero_murmur3 ["state"].
Definition src : PostgresSourceIdentity := {| system_identifier := 1; database := "shop"; database_oid := 5 |}.
Definition claimed : PersistedState := persisted_state Wal2Json [] src "replay" Claimed "d".
Definition in_phase (p : PersistedPhase) : PersistedState :=
  {| version := STATE_VERSION; replay_identity := "replay"; slot := "d"; state_plugin := "wal2json"; publication := None; tables := [];
     source := src; authoritative_tables := Some []; state := p |}.
(** A codec that knows the three records. *)
#[local] Program Instance json : Json PersistedState := {|
  to_vec st := if bool_decide (st = claimed) then Some [1] else if bool_decide (st = in_phase (Snapshot 100)) then Some [2]
               else if bool_decide (st = in_phase (Streaming 100)) then Some [3] else None;
  from_slice b := if bool_decide (b = [1]) then Some claimed else if bool_decide (b = [2]) then Some (in_phase (Snapshot 100))
                  else if bool_decide (b = [3]) then Some (in_phase (Streaming 100)) else None
|}.
Next Obligation. intros st b. cbn. repeat case_bool_decide; intros [= <-]; naive_solver. Qed.
Next Obligation. intros st b. cbn. repeat case_bool_decide; intros [= <-]; by apply one_byte. Qed.

Definition env (sequence : Z) : Env := (7, sequence, NoFault).
Definition opened := claim_or_resume (blank : Store) Wal2Json [] src "d" false "replay" (env 0) (env 0).
Definition tracker : SnapshotStreamTracker := {| key := phase_key "d"; tracker_handle := {| handle_revision := 0; handle_identity := claimed |} |}.
Definition ready := mark_snapshot_ready opened.1 tracker 100 [] (env 1).
Definition streaming := mark_streaming ready.1.1 ready.1.2 (env 2).
Definition after_crash : Store := reverted streaming.1.1.
Definition reopened := claim_or_resume after_crash Wal2Json [] src "d" true "replay" (env 3) (env 3).
Definition resumed : SnapshotStreamPreparation :=
  PrepareStreaming {| key := phase_key "d"; tracker_handle := {| handle_revision := 2; handle_identity := in_phase (Streaming 100) |} |} 100.

Lemma pg_claimed_step : phase_step "d" (blank : Store, []) (opened.1, [tracker]).
Proof.
  pose proof (phase_claim "d" blank [] Wal2Json [] src false "replay" (env 0) (env 0)) as St. cbn zeta in St. fold opened in St.
  assert (prepared opened.2 = [tracker]) as E by (vm_compute; reflexivity). rewrite E in St. exact St.
Qed.
Lemma pg_stream_starts_at_snapshot_witness :
  streaming.2 = Ok 100 ∧ reopened.2 = Ok resumed ∧
  ∃ t2, resumed = PrepareStreaming t2 100 ∧ streaming_lsn t2 = Some 100 ∧
    ∀ later, validate_authoritative_tables t2 later = Ok tt ↔ authoritative_table_identities later = authoritative_table_identities [].
Proof.
  assert (reopened.2 = Ok resumed) as Hr by (vm_compute; reflexivity). split; [vm_compute; reflexivity|]. split; [exact Hr|].
  eapply (@pg_stream_starts_at_snapshot storage json "d" blank opened.1 [tracker] tracker 100 [] (env 1)
    ready.1.1 ready.1.2 after_crash [] Wal2Json [] src true "replay" (env 3) (env 3) reopened.1).
  - apply (@empty_disk_consistent zero_murmur3 [["state"]]).
  - change (file_key ["state"] (phase_key "d")).
    split; [apply (bool_decide_unpack (dotless (phase_key "d"))); vm_compute; exact I|vm_compute; exact I].
  - vm_compute; reflexivity.
  - apply rtc_once, pg_claimed_step.
  - by left.
  - assert (ready.2 = Ok tt) as <- by (vm_compute; reflexivity). change (ready = (ready.1.1, ready.1.2, ready.2)). by destruct ready as [[? ?] ?].
  - eapply rtc_l; [|apply rtc_once, phase_crash; split; [apply (bool_decide_unpack (housed streaming.1.1)); vm_compute; exact I|apply reverted_crash]].
    apply (phase_streaming "d" ready.1.1 _ ready.1.2 (env 2)). by left.
  - rewrite <-Hr. apply surjective_pairing.
Defined.
End PhaseExample.
