(* ===== verification/S3Objects.v ===== *)
(** * Object keys of the S3 sink

    [sink/object_key.rs] of [transferia-connector-s3], and the object keys and slices of
    its Parquet variant ([sink/parquet.rs]).  A JSON object is named by its table, its
    partition path, and the topic, partition and first offset of its rows.  The keys of
    different objects differ.

    The paths of the [object_store] crate are an interface: [path_part] is the success of
    [PathPart::parse], [path_parse] the result of [Path::parse]. *)

From Stdlib Require Import Ascii.
From stdpp Require Import base tactics numbers option strings pretty gmap sorting list.
From S2P Require Import Prelude.
Local Open Scope Z_scope.

(** A path segment does not contain the delimiter. *)
Class ObjectStorePath := {
  path_part : string → bool;
  path_parse : string → option string;
  path_part_segment s : path_part s = true → "/"%char ∉ String.list_ascii_of_string s
}.

Inductive KeyError := EmptyComponent | InvalidComponent | KeyTooLong | InvalidPath | NotNormalized.
#[export] Instance KeyError_eq_dec : EqDecision KeyError.
Proof. solve_decision. Defined.

Definition MAX_OBJECT_KEY_BYTES : Z := 1024.

Section keys.
Context `{ObjectStorePath}.

Definition validate_path_component (value : string) : result KeyError unit :=
  ensure (negb (bool_decide (value = ""))) EmptyComponent ≫= λ _,
  ensure (path_part value) InvalidComponent.

(** [ObjectKey::parse] *)
Definition key_parse (key : string) : result KeyError string :=
  ensure (bool_decide (string_len key ≤ MAX_OBJECT_KEY_BYTES)) KeyTooLong ≫= λ _,
  ok_or (path_parse key) InvalidPath ≫= λ parsed,
  ensure (bool_decide (parsed = key)) NotNormalized ≫= λ _,
  Ok key.

Definition json_filename (topic : string) (source_partition start_offset : Z) : string :=
  topic +:+ "+" +:+ pretty source_partition +:+ "+" +:+ pretty start_offset +:+ ".json".

Definition for_json_object (prefix table partition_path topic : string) (source_partition start_offset : Z)
    : result KeyError string :=
  validate_path_component topic ≫= λ _,
  let filename := json_filename topic source_partition start_offset in
  let key :=
    if bool_decide (prefix = "") then table +:+ "/" +:+ partition_path +:+ "/" +:+ filename
    else prefix +:+ "/" +:+ table +:+ "/" +:+ partition_path +:+ "/" +:+ filename in
  key_parse key.
End keys.

(** ** The Parquet variant *)
Section parquet.
Context `{ObjectStorePath}.

(** [object_key] of [parquet.rs]. *)
Definition parquet_object_key (prefix table : string) (partition_id delivery_id : Z) (output_index : nat)
    : result KeyError string :=
  let relative := table +:+ "/partition=" +:+ pretty partition_id +:+ "/delivery=" +:+ pretty delivery_id +:+ "+"
                  +:+ pretty output_index +:+ ".parquet" in
  let key := if bool_decide (prefix = "") then relative else prefix +:+ "/" +:+ relative in
  ok_or (path_parse key) InvalidPath ≫= λ _, Ok key.
End parquet.

(** The rows [offset, offset + length) of each slice of [split_for_object_limits], for a
    batch of [num_rows] rows that occupies [memory_size] bytes. *)
Definition rows_per_object (max_rows max_bytes num_rows memory_size : Z) : Z :=
  let rows_by_bytes := (saturating_mul usize_max max_bytes num_rows / (memory_size `max` 1)) `max` 1 in
  (max_rows `min` rows_by_bytes) `max` 1.

(** [(0..num_rows).step_by(step)], with the slice that starts at each element. *)
Fixpoint slices (fuel : nat) (offset step num_rows : Z) : list (Z * Z) :=
  match fuel with
  | O => []
  | S fuel =>
      if bool_decide (offset < num_rows) then
        (offset, step `min` (num_rows - offset)) :: slices fuel (offset + step) step num_rows
      else []
  end.

Definition split_for_object_limits (max_rows max_bytes num_rows memory_size : Z) : list (Z * Z) :=
  if bool_decide (num_rows = 0) then [(0, 0)]
  else slices (Z.to_nat num_rows) 0 (rows_per_object max_rows max_bytes num_rows memory_size) num_rows.

(** ** Splitting text at a separator *)
Abbreviation chars := String.list_ascii_of_string (only parsing).

Lemma chars_app a b : chars (a +:+ b) = chars a ++ chars b.
Proof. induction a as [|x a IH]; [done|]. change (x :: chars (a +:+ b) = x :: chars a ++ chars b). by rewrite IH. Qed.
Lemma chars_inj a b : chars a = chars b → a = b.
Proof.
  intros E. by rewrite <-(String.string_of_list_ascii_of_string a), <-(String.string_of_list_ascii_of_string b), E.
Qed.

Lemma split_first {A} (c : A) (x1 x2 y1 y2 : list A) : c ∉ x1 → c ∉ x2 → x1 ++ c :: y1 = x2 ++ c :: y2 → x1 = x2 ∧ y1 = y2.
Proof.
  revert x2. induction x1 as [|a x1 IH]; intros [|b x2] H1 H2 E; cbn in E; simplify_eq.
  - done.
  - by destruct H2; left.
  - by destruct H1; left.
  - destruct (IH x2) as [-> ->]; [set_solver..|done|done].
Qed.
Lemma split_last {A} (c : A) (x1 x2 y1 y2 : list A) : c ∉ y1 → c ∉ y2 → x1 ++ c :: y1 = x2 ++ c :: y2 → x1 = x2 ∧ y1 = y2.
Proof.
  intros H1 H2 E. apply (f_equal reverse) in E. rewrite !reverse_app, !reverse_cons, <-!app_assoc in E. cbn in E.
  apply split_first in E as [Ey Ex]; [|by rewrite elem_of_reverse..]. split; by apply (inj reverse).
Qed.

Lemma cut_first (c : ascii) (a1 a2 b1 b2 : string) :
  c ∉ chars a1 → c ∉ chars a2 → a1 +:+ String c "" +:+ b1 = a2 +:+ String c "" +:+ b2 → a1 = a2 ∧ b1 = b2.
Proof.
  intros H1 H2 E. apply (f_equal chars) in E. rewrite !chars_app in E. cbn in E.
  apply split_first in E as [Ea Eb]; [|done..]. split; by apply chars_inj.
Qed.
Lemma cut_last (c : ascii) (a1 a2 b1 b2 : string) :
  c ∉ chars b1 → c ∉ chars b2 → a1 +:+ String c "" +:+ b1 = a2 +:+ String c "" +:+ b2 → a1 = a2 ∧ b1 = b2.
Proof.
  intros H1 H2 E. apply (f_equal chars) in E. rewrite !chars_app in E. cbn in E.
  apply split_last in E as [Ea Eb]; [|done..]. split; by apply chars_inj.
Qed.

Lemma append_inv_l (a b1 b2 : string) : a +:+ b1 = a +:+ b2 → b1 = b2.
Proof. intros E. apply (f_equal chars) in E. rewrite !chars_app in E. apply chars_inj. by apply (inj (chars a ++.)). Qed.
Lemma append_inv_r (a1 a2 b : string) : a1 +:+ b = a2 +:+ b → a1 = a2.
Proof.
  intros E. apply (f_equal chars) in E. rewrite !chars_app in E. apply chars_inj. by apply (inj (.++ chars b)).
Qed.
Lemma append_assoc (a b c : string) : (a +:+ b) +:+ c = a +:+ b +:+ c.
Proof. apply chars_inj. by rewrite !chars_app, app_assoc. Qed.

(** *** Decimal integers *)
Definition decimal (c : ascii) : Prop := c = "-"%char ∨ ∃ d, c = pretty_N_char d.

Lemma decimal_N_go x s c : c ∈ chars (pretty_N_go x s) → decimal c ∨ c ∈ chars s.
Proof.
  revert s. induction (N.lt_wf_0 x) as [x _ IH]; intros s. destruct (decide (x = 0%N)) as [->|Hne].
  { rewrite pretty_N_go_0. auto. }
  rewrite pretty_N_go_step by lia. intros [Hd|Hc]%IH; [by left| |apply N.div_lt; lia].
  cbn in Hc. apply elem_of_cons in Hc as [->|Hc]; [left; right; eauto|by right].
Qed.
Lemma decimal_N (n : N) c : c ∈ chars (pretty n) → decimal c.
Proof.
  unfold pretty, pretty_N. case_decide; cbn.
  - intros [->|[]%not_elem_of_nil]%elem_of_cons. right. by exists 0%N.
  - intros [?|[]%not_elem_of_nil]%decimal_N_go. done.
Qed.
Lemma decimal_Z (z : Z) c : c ∈ chars (pretty z) → decimal c.
Proof.
  destruct z as [|p|p]; cbn -[pretty]; unfold pretty at 1, pretty_Z.
  - intros [->|[]%not_elem_of_nil]%elem_of_cons. right. by exists 0%N.
  - apply decimal_N.
  - rewrite chars_app. cbn. intros [->|Hc]%elem_of_cons; [by left|by eapply decimal_N].
Qed.
Lemma decimal_not c : decimal c → c ≠ "+"%char ∧ c ≠ "/"%char ∧ c ≠ "."%char.
Proof. intros [->|[d ->]]; [done|]. destruct d as [|[[[[]|[]|]|[[]|[]|]|]|[[[]|[]|]|[[]|[]|]|]|]]; done. Qed.
Lemma decimal_free (z : Z) c : c ∈ ["+"%char; "/"%char; "."%char] → c ∉ chars (pretty z).
Proof. intros Hin Hc%decimal_Z%decimal_not. set_solver. Qed.
#[export] Hint Resolve decimal_free : transferia.

(** ** Keys of different objects differ *)
Lemma append_last (c : ascii) (x y z : string) : x +:+ String c "" +:+ y +:+ z = (x +:+ String c "" +:+ y) +:+ z.
Proof. by rewrite !append_assoc. Qed.

Lemma json_filename_inj t1 p1 o1 t2 p2 o2 :
  json_filename t1 p1 o1 = json_filename t2 p2 o2 → t1 = t2 ∧ p1 = p2 ∧ o1 = o2.
Proof.
  unfold json_filename.
  set (e1 := pretty o1 +:+ ".json"). set (e2 := pretty o2 +:+ ".json"). intros E.
  assert (∀ o : Z, "+"%char ∉ chars (pretty o +:+ ".json")) as Hplus.
  { intros o. rewrite chars_app. cbn. intros [Hc|Hc]%elem_of_app; [by apply (decimal_free o "+") in Hc; [|set_solver]|set_solver]. }
  rewrite (append_last "+" t1 (pretty p1)), (append_last "+" t2 (pretty p2)) in E.
  apply (cut_last "+" (t1 +:+ "+" +:+ pretty p1) (t2 +:+ "+" +:+ pretty p2)) in E as [Et Eo]; [|apply Hplus..].
  apply (cut_last "+") in Et as [-> Ep]; [|apply decimal_free; set_solver..].
  apply append_inv_r in Eo. by apply (inj pretty) in Ep, Eo as ->.
Qed.

Section distinct.
Context `{ObjectStorePath}.

Lemma component_segment s : validate_path_component s = Ok tt → "/"%char ∉ chars s.
Proof. unfold validate_path_component. destruct (negb _); [|done]. cbn. intros Hp%ensure_Ok. by apply path_part_segment. Qed.
Lemma key_parse_Ok key k : key_parse key = Ok k → k = key ∧ string_len k ≤ MAX_OBJECT_KEY_BYTES ∧ path_parse k = Some k.
Proof.
  unfold key_parse. intros ([] & Hl%ensure_Ok%bool_decide_eq_true & (p & Hp & ([] & Hk%ensure_Ok%bool_decide_eq_true & [= <-])%bind_Ok)%bind_Ok)%bind_Ok.
  subst p. destruct (path_parse key); cbn in Hp; by simplify_eq.
Qed.

Lemma json_filename_segment topic p o : "/"%char ∉ chars topic → "/"%char ∉ chars (json_filename topic p o).
Proof.
  intros Ht. unfold json_filename. rewrite !chars_app. cbn.
  pose proof (decimal_free p "/" ltac:(set_solver)). pose proof (decimal_free o "/" ltac:(set_solver)).
  repeat first [apply not_elem_of_app; split|apply not_elem_of_cons; split]; first [done|apply not_elem_of_nil].
Qed.

Lemma json_key_inj prefix t1 pp1 tp1 sp1 o1 t2 pp2 tp2 sp2 o2 k :
  path_part t1 = true → path_part t2 = true →
  for_json_object prefix t1 pp1 tp1 sp1 o1 = Ok k → for_json_object prefix t2 pp2 tp2 sp2 o2 = Ok k →
  t1 = t2 ∧ pp1 = pp2 ∧ tp1 = tp2 ∧ sp1 = sp2 ∧ o1 = o2.
Proof.
  intros Ht1%path_part_segment Ht2%path_part_segment. unfold for_json_object.
  intros ([] & Hc1%component_segment & K1)%bind_Ok ([] & Hc2%component_segment & K2)%bind_Ok. cbn zeta in *.
  apply key_parse_Ok in K1 as [K1 _], K2 as [K2 _].
  assert (t1 +:+ "/" +:+ pp1 +:+ "/" +:+ json_filename tp1 sp1 o1 = t2 +:+ "/" +:+ pp2 +:+ "/" +:+ json_filename tp2 sp2 o2) as E.
  { case_bool_decide; [congruence|]. rewrite K1 in K2. by do 2 apply append_inv_l in K2. }
  apply (cut_first "/") in E as [-> E]; [|done..].
  apply (cut_last "/") in E as [-> E]; [|by apply json_filename_segment..].
  by apply json_filename_inj in E as (-> & -> & ->).
Qed.
End distinct.

(** ** The slices of a Parquet batch *)
Lemma slices_cover fuel offset step n :
  0 < step → 0 ≤ offset → n - offset ≤ Z.of_nat fuel →
  (slices fuel offset step n ≫= λ s, seqZ s.1 s.2) = seqZ offset (n - offset) ∧
  Forall (λ s, 0 < s.2 ≤ step) (slices fuel offset step n).
Proof.
  intros Hstep. revert offset. induction fuel as [|fuel IH]; intros offset Ho Hf; cbn.
  { rewrite seqZ_nil by lia. done. }
  case_bool_decide as Hlt; cbn; [|by rewrite seqZ_nil by lia].
  destruct (IH (offset + step)) as [E Hall]; [lia..|]. rewrite E. split; [|by constructor; [cbn; lia|]].
  destruct (decide (offset + step ≤ n)).
  - rewrite Z.min_l by lia. replace (n - offset) with (step + (n - (offset + step))) by lia. by rewrite seqZ_app by lia.
  - rewrite Z.min_r by lia. rewrite (seqZ_nil (offset + step)) by lia. by rewrite app_nil_r.
Qed.
