(* ===== verification/S3Partition.v ===== *)
(** * Routing of rows in the S3 sink

    [sink/partitioning.rs] of [transferia-connector-s3]: the partition path, the source
    position and the record time of every row of a batch.  The partitioner keeps the last
    source path and the last record-time path it rendered; the caches do not change the
    routes.

    The calendar ([chrono], [chrono_tz]) and the text of the partition values of the Arrow
    types that [Arrow.v] does not distinguish are interfaces.  [RecordBatch::column] panics
    out of range, which is the error [ColumnIndex] here. *)

From Stdlib Require Import Ascii.
From stdpp Require Import base tactics numbers option strings pretty list.
From S2P Require Import Prelude Schema Arrow Delivery S3Objects.
Local Open Scope Z_scope.

(** [timestamp_millis_opt], [StrftimeItems::parse] and [format_with_items]. *)
Class Chrono := {
  Tz : Type;
  DateTime : Type;
  Items : Type;
  parse_timezone : string → option Tz;
  timestamp_millis_opt : Z → option DateTime;
  strftime_items : string → option Items;
  format_with_items : DateTime → Tz → Items → option string
}.

Inductive PartitioningConfig :=
| PSource
| PFields (columns : list string)
| PRecordTime (window_ms : Z) (path timezone : string).

Inductive PartitionError :=
| WindowTooLarge | InvalidTimezone | KeyComponent (e : KeyError)
| MissingSystemColumn (k : SystemColumnKind) | SystemColumnType (k : SystemColumnKind) | NullSystemColumn (k : SystemColumnKind)
| MissingPartitionColumn (name : string) | NullPartitionColumn | UnsupportedPartitionColumn | ColumnIndex
| TimestampOutOfRange | InvalidTimeFormat | TimeFormatting
| EmptyPartitionPath | EdgeSegment | InvalidPartitionPath.

Record RowRoute := {
  partition_path : string; topic : string; partition : Z; offset : Z; message_index : Z; record_time_ms : option Z
}.
#[export] Instance RowRoute_eq_dec : EqDecision RowRoute.
Proof. solve_decision. Defined.

Record SourceRoute := { sr_topic : string; sr_partition : Z; sr_path : string }.

(** Two's complement wrap-around of an [i64]. *)
Definition wrap_i64 (z : Z) : Z := (z + 2 ^ 63) `mod` 2 ^ 64 - 2 ^ 63.

(** [anyhow] on an error of the key module. *)
Definition component {A} (r : result KeyError A) : result PartitionError A :=
  match r with Ok a => Ok a | Err e => Err (KeyComponent e) end.

Definition starts_with_slash (s : string) : bool := bool_decide (head (String.list_ascii_of_string s) = Some "/"%char).
Definition ends_with_slash (s : string) : bool := bool_decide (last (String.list_ascii_of_string s) = Some "/"%char).

Section partitioner.
Context `{ObjectStorePath, Chrono}.
Context {AT : ArrowTypes} {AV : ArrowValues} {AC : ArrowCompute}.
(** [to_string] of a value of another type, when partitioning supports the type. *)
Context (partition_text : DataType → option (OtherValue → string)).

Inductive PartitionerKind :=
| KSource
| KFields (columns : list string)
| KRecordTime (window_ms : Z) (path : string) (timezone : Tz).

Record Partitioner := { kind : PartitionerKind; source_route : option SourceRoute; record_time_route : option (Z * string) }.

Definition Partitioner_new (config : PartitioningConfig) : result PartitionError Partitioner :=
  match config with
  | PSource => Ok KSource
  | PFields columns => Ok (KFields columns)
  | PRecordTime window path timezone =>
      ensure (bool_decide (window ≤ i64_max)) WindowTooLarge ≫= λ _,
      ok_or (parse_timezone timezone) InvalidTimezone ≫= λ tz,
      Ok (KRecordTime window path tz)
  end ≫= λ k,
  Ok {| kind := k; source_route := None; record_time_route := None |}.

Definition validate_partition_path (path : string) : result PartitionError unit :=
  ensure (negb (bool_decide (path = ""))) EmptyPartitionPath ≫= λ _,
  ensure (negb (starts_with_slash path) && negb (ends_with_slash path)) EdgeSegment ≫= λ _,
  ok_or (path_parse path) InvalidPartitionPath ≫= λ _, Ok tt.

Definition record_time_path (slot : Z) (path : string) (timezone : Tz) : result PartitionError string :=
  ok_or (timestamp_millis_opt slot) TimestampOutOfRange ≫= λ instant,
  ok_or (strftime_items path) InvalidTimeFormat ≫= λ items,
  ok_or (format_with_items instant timezone items) TimeFormatting ≫= λ rendered,
  validate_partition_path rendered ≫= λ _,
  Ok rendered.

(** ** The columns of a batch *)
Definition system_index (columns : SystemColumns) (k : SystemColumnKind) : result PartitionError nat :=
  ok_or (sys_index <$> SystemColumns.get columns k) (MissingSystemColumn k).

(** [downcast_ref] to the array types of the system columns. *)
Definition as_string_array (a : Array) : option (list (option string)) := match a with StringArray l => Some l | _ => None end.
Definition as_int64_array (a : Array) : option (list (option Z)) := match a with Int64Array l => Some l | _ => None end.
Definition as_uint64_array (a : Array) : option (list (option Z)) := match a with UInt64Array l => Some l | _ => None end.

Definition system_array {T} (downcast : Array → option T) (output : SinkBatch) (k : SystemColumnKind) : result PartitionError T :=
  system_index (sb_system_columns output) k ≫= λ index,
  ok_or (rb_columns (sb_batch output) !! index) ColumnIndex ≫= λ a,
  ok_or (downcast a) (SystemColumnType k).

Definition optional_system_array {T} (downcast : Array → option T) (output : SinkBatch) (k : SystemColumnKind)
    : result PartitionError (option T) :=
  match SystemColumns.get (sb_system_columns output) k with
  | None => Ok None
  | Some column =>
      ok_or (rb_columns (sb_batch output) !! sys_index column) ColumnIndex ≫= λ a,
      ok_or (downcast a) (SystemColumnType k) ≫= λ l, Ok (Some l)
  end.

Record RouteColumns := {
  rc_topic : list (option string); rc_partition : list (option Z); rc_offset : list (option Z);
  rc_message_index : list (option Z); rc_record_time : option (list (option Z)); rc_partition_fields : list (string * nat)
}.

Definition partition_field (output : SinkBatch) (name : string) : result PartitionError (string * nat) :=
  ok_or (index_of (rb_schema (sb_batch output)) name) (MissingPartitionColumn name) ≫= λ index, Ok (name, index).

Definition RouteColumns_new (output : SinkBatch) (k : PartitionerKind) : result PartitionError RouteColumns :=
  match k with
  | KRecordTime _ _ _ =>
      if sb_is_dlq output then optional_system_array as_int64_array output WriteTimestampMs
      else system_array as_int64_array output WriteTimestampMs ≫= λ l, Ok (Some l)
  | _ => optional_system_array as_int64_array output WriteTimestampMs
  end ≫= λ record_time,
  match k with
  | KFields columns => if sb_is_dlq output then Ok [] else mapM (partition_field output) columns
  | _ => Ok []
  end ≫= λ fields,
  system_array as_string_array output Topic ≫= λ t,
  system_array as_int64_array output Partition ≫= λ p,
  system_array as_int64_array output Offset ≫= λ o,
  system_array as_uint64_array output MessageIndex ≫= λ m,
  Ok {| rc_topic := t; rc_partition := p; rc_offset := o; rc_message_index := m; rc_record_time := record_time;
        rc_partition_fields := fields |}.

(** [ensure_not_null] and [value]. *)
Definition not_null {T} (l : list (option T)) (k : SystemColumnKind) (row : nat) : result PartitionError T :=
  ok_or (default None (l !! row)) (NullSystemColumn k).

Definition scalar_partition_value (b : RecordBatch) (index row : nat) : result PartitionError string :=
  ok_or (rb_columns b !! index) ColumnIndex ≫= λ a,
  match a with
  | StringArray l => ok_or (default None (l !! row)) NullPartitionColumn
  | Int64Array l | UInt64Array l => ok_or (default None (l !! row)) NullPartitionColumn ≫= λ z, Ok (pretty z)
  | BinaryArray l => ok_or (default None (l !! row)) NullPartitionColumn ≫= λ _, Err UnsupportedPartitionColumn
  | OtherArray t l =>
      ok_or (default None (l !! row)) NullPartitionColumn ≫= λ v,
      ok_or (partition_text t) UnsupportedPartitionColumn ≫= λ f, Ok (f v)
  end.

(** ** Routing *)
Definition source_path (t : string) (p : Z) : string := "topic=" +:+ t +:+ "/partition=" +:+ pretty p.

Definition cached_source_route (self : Partitioner) (t : string) (p : Z) : result PartitionError (Partitioner * (string * string)) :=
  component (validate_path_component t) ≫= λ _,
  let miss := ({| kind := kind self; source_route := Some {| sr_topic := t; sr_partition := p; sr_path := source_path t p |};
                  record_time_route := record_time_route self |}, (t, source_path t p)) in
  match source_route self with
  | Some cached =>
      if bool_decide (sr_partition cached = p) && bool_decide (sr_topic cached = t)
      then Ok (self, (sr_topic cached, sr_path cached)) else Ok miss
  | None => Ok miss
  end.

(** One step of the loop over the partition columns. *)
Definition push_field (b : RecordBatch) (row : nat) (path : string) (position_field : nat * (string * nat)) : result PartitionError string :=
  let '(position, (name, index)) := position_field in
  scalar_partition_value b index row ≫= λ value,
  component (validate_path_component name) ≫= λ _,
  component (validate_path_component value) ≫= λ _,
  Ok ((if bool_decide (position = 0%nat) then path else path +:+ "/") +:+ name +:+ "=" +:+ value).

Definition fields_path (b : RecordBatch) (fields : list (string * nat)) (row : nat) : result PartitionError string :=
  for_each (push_field b row) (imap pair fields) "".

(** The start of the window of a record time; [div_euclid] by a positive window is the
    floor division. *)
Definition window_slot (timestamp_ms window_ms : Z) : Z := wrap_i64 (timestamp_ms / window_ms * window_ms).

Definition route_row (output : SinkBatch) (columns : RouteColumns) (self : Partitioner) (row : nat)
    : result PartitionError (Partitioner * RowRoute) :=
  not_null (rc_topic columns) Topic row ≫= λ t,
  not_null (rc_partition columns) Partition row ≫= λ p,
  not_null (rc_offset columns) Offset row ≫= λ o,
  not_null (rc_message_index columns) MessageIndex row ≫= λ m,
  match rc_record_time columns with
  | Some l => not_null l WriteTimestampMs row ≫= λ z, Ok (Some z)
  | None => Ok None
  end ≫= λ source_record_time,
  cached_source_route self t p ≫= λ '(self, (t, spath)),
  let route self path time :=
    (self, {| partition_path := path; topic := t; partition := p; offset := o; message_index := m; record_time_ms := time |}) in
  if sb_is_dlq output then Ok (route self spath source_record_time)
  else match kind self with
    | KSource => Ok (route self spath source_record_time)
    | KFields _ =>
        fields_path (sb_batch output) (rc_partition_fields columns) row ≫= λ path,
        Ok (route self path source_record_time)
    | KRecordTime window_ms path timezone =>
        ok_or source_record_time (MissingSystemColumn WriteTimestampMs) ≫= λ timestamp_ms,
        let slot := window_slot timestamp_ms window_ms in
        match record_time_route self with
        | Some (cached_slot, cached_path) =>
            if bool_decide (cached_slot = slot) then Ok cached_path else record_time_path slot path timezone
        | None => record_time_path slot path timezone
        end ≫= λ rendered,
        Ok (route {| kind := kind self; source_route := source_route self; record_time_route := Some (slot, rendered) |}
                  rendered (Some timestamp_ms))
    end.

Definition route_batch (self : Partitioner) (output : SinkBatch) : result PartitionError (Partitioner * list RowRoute) :=
  RouteColumns_new output (kind self) ≫= λ columns,
  for_each (λ '(self, routes) row, route_row output columns self row ≫= λ '(self, r), Ok (self, routes ++ [r]))
    (seq 0 (rb_rows (sb_batch output))) (self, []).

(** ** The memory bound *)
Definition main_path_bound (k : PartitionerKind) : option Z :=
  match k with
  | KSource => None
  | KFields _ => Some MAX_OBJECT_KEY_BYTES
  | KRecordTime _ path _ =>
      Some (saturating_add usize_max (saturating_mul usize_max (string_len path) 64) 128 `max` MAX_OBJECT_KEY_BYTES)
  end.

Definition route_strings_memory_bound (self : Partitioner) (output : SinkBatch) : result PartitionError Z :=
  system_array as_string_array output Topic ≫= λ l,
  Ok (foldl (λ bytes row,
        let topic_bytes := match default None (l !! row) with None => 0 | Some t => string_len t end in
        let source_path_bound := saturating_add usize_max 37 topic_bytes in
        let partition_path_bound :=
          if sb_is_dlq output then source_path_bound else default source_path_bound (main_path_bound (kind self)) in
        saturating_add usize_max (saturating_add usize_max bytes topic_bytes) partition_path_bound)
      0 (seq 0 (rb_rows (sb_batch output)))).
End partitioner.

(** ** The caches do not change the routes *)
Section transparent.
Context `{ObjectStorePath, Chrono}.
Context {AT : ArrowTypes} {AV : ArrowValues} {AC : ArrowCompute}.
Context (partition_text : DataType → option (OtherValue → string)).

(** The route of a row, without caches. *)
Definition plain_route (k : PartitionerKind) (output : SinkBatch) (columns : RouteColumns) (row : nat)
    : result PartitionError RowRoute :=
  not_null (rc_topic columns) Topic row ≫= λ t,
  not_null (rc_partition columns) Partition row ≫= λ p,
  not_null (rc_offset columns) Offset row ≫= λ o,
  not_null (rc_message_index columns) MessageIndex row ≫= λ m,
  match rc_record_time columns with
  | Some l => not_null l WriteTimestampMs row ≫= λ z, Ok (Some z)
  | None => Ok None
  end ≫= λ time,
  component (validate_path_component t) ≫= λ _,
  (if sb_is_dlq output then Ok (source_path t p, time)
   else match k with
     | KSource => Ok (source_path t p, time)
     | KFields _ => fields_path partition_text (sb_batch output) (rc_partition_fields columns) row ≫= λ path, Ok (path, time)
     | KRecordTime window path tz =>
         ok_or time (MissingSystemColumn WriteTimestampMs) ≫= λ ms,
         record_time_path (window_slot ms window) path tz ≫= λ rendered, Ok (rendered, Some ms)
     end) ≫= λ '(path, time),
  Ok {| partition_path := path; topic := t; partition := p; offset := o; message_index := m; record_time_ms := time |}.

Definition plain_routes (k : PartitionerKind) (output : SinkBatch) : result PartitionError (list RowRoute) :=
  RouteColumns_new output k ≫= λ columns, mapM (plain_route k output columns) (seq 0 (rb_rows (sb_batch output))).

Record cache_ok (self : Partitioner) : Prop := {
  cache_source c : source_route self = Some c → sr_path c = source_path (sr_topic c) (sr_partition c);
  cache_time slot path w fmt tz : record_time_route self = Some (slot, path) → kind self = KRecordTime w fmt tz →
    record_time_path slot fmt tz = Ok path
}.

Lemma cached_source_plain self t p :
  cache_ok self →
  match cached_source_route self t p with
  | Err e => component (validate_path_component t) = Err e
  | Ok (self', r) =>
      component (validate_path_component t) = Ok tt ∧ r = (t, source_path t p) ∧ cache_ok self' ∧
      kind self' = kind self ∧ record_time_route self' = record_time_route self
  end.
Proof.
  intros Hc. unfold cached_source_route. destruct (component _) as [[]|e]; cbn; [|done].
  assert (cache_ok {| kind := kind self; source_route := Some {| sr_topic := t; sr_partition := p; sr_path := source_path t p |};
                      record_time_route := record_time_route self |}) as Hm.
  { split; cbn; [by intros c [= <-]|apply (cache_time self Hc)]. }
  destruct (source_route self) as [c|] eqn:Ec; [|done]. destruct (_ && _) eqn:E; [|done].
  apply andb_true_iff in E as [<-%bool_decide_eq_true <-%bool_decide_eq_true]. by rewrite (cache_source self Hc c Ec).
Qed.

Lemma route_row_plain output columns self row :
  cache_ok self →
  match route_row partition_text output columns self row with
  | Err e => plain_route (kind self) output columns row = Err e
  | Ok (self', r) => plain_route (kind self) output columns row = Ok r ∧ cache_ok self' ∧ kind self' = kind self
  end.
Proof.
  intros Hc. unfold route_row, plain_route.
  destruct (not_null (rc_topic columns) Topic row) as [t|]; cbn; [|done].
  destruct (not_null (rc_partition columns) Partition row) as [p|]; cbn; [|done].
  destruct (not_null (rc_offset columns) Offset row) as [o|]; cbn; [|done].
  destruct (not_null (rc_message_index columns) MessageIndex row) as [m|]; cbn; [|done].
  destruct (match rc_record_time columns with Some _ => _ | None => _ end) as [time|]; cbn; [|done].
  pose proof (cached_source_plain self t p Hc) as Hs. destruct (cached_source_route self t p) as [[self' r]|e]; cbn; [|by rewrite Hs].
  destruct Hs as (-> & -> & Hc' & Hk & Ht). cbn. destruct (sb_is_dlq output); cbn; [done|]. rewrite Hk.
  destruct (kind self) as [|columns'|w fmt tz] eqn:Ek; cbn; [done| |].
  - by destruct (fields_path _ _ _ _) as [path|]; cbn.
  - destruct time as [ms|]; cbn; [|done].
    assert (match record_time_route self' with
            | Some (cached_slot, cached_path) =>
                if bool_decide (cached_slot = window_slot ms w) then Ok cached_path else record_time_path (window_slot ms w) fmt tz
            | None => record_time_path (window_slot ms w) fmt tz
            end = record_time_path (window_slot ms w) fmt tz) as ->.
    { destruct (record_time_route self') as [[slot path]|] eqn:Er; [|done]. case_bool_decide as Es; [|done]. subst slot.
      symmetry. by eapply (cache_time self' Hc'). }
    destruct (record_time_path _ _ _) as [rendered|] eqn:Ep; cbn; [|done]. split_and!; [done| |done].
    split; cbn; [apply (cache_source self' Hc')|]. intros slot path w' fmt' tz' [= <- <-]. by intros [= <- <- <-].
Qed.

Lemma route_batch_plain self output :
  cache_ok self →
  match route_batch partition_text self output with
  | Err e => plain_routes (kind self) output = Err e
  | Ok (self', l) => plain_routes (kind self) output = Ok l ∧ cache_ok self' ∧ kind self' = kind self
  end.
Proof.
  intros Hc. unfold route_batch, plain_routes. destruct (RouteColumns_new output (kind self)) as [columns|]; cbn; [|done].
  assert (∀ rows acc self, cache_ok self →
    match for_each (λ '(self, routes) row, route_row partition_text output columns self row ≫= λ '(self, r), Ok (self, routes ++ [r]))
            rows (self, acc) with
    | Err e => mapM (plain_route (kind self) output columns) rows = Err e
    | Ok (self', l) => ∃ l', l = acc ++ l' ∧ mapM (plain_route (kind self) output columns) rows = Ok l' ∧ cache_ok self' ∧
                       kind self' = kind self
    end) as Hall.
  { clear self Hc. induction rows as [|row rows IH]; intros acc self Hc; cbn; [exists []; by rewrite app_nil_r|].
    pose proof (route_row_plain output columns self row Hc) as Hr.
    destruct (route_row _ output columns self row) as [[self' r]|e]; cbn; [|by rewrite Hr]. destruct Hr as (-> & Hc' & Hk). cbn.
    specialize (IH (acc ++ [r]) self' Hc'). rewrite Hk in IH.
    destruct (for_each _ rows _) as [[self2 l]|e]; [|by rewrite IH]. destruct IH as (l' & -> & -> & Hc2 & Hk2). cbn.
    exists (r :: l'). split_and!; [by rewrite <-app_assoc|done|done|congruence]. }
  specialize (Hall (seq 0 (rb_rows (sb_batch output))) [] self Hc).
  destruct (for_each _ _ _) as [[self' l]|e]; [|done]. by destruct Hall as (l' & -> & -> & ? & ?).
Qed.

(** The routes of the batches routed before leave no trace in those of a batch. *)
Lemma new_cache_ok config self : Partitioner_new config = Ok self → cache_ok self.
Proof.
  unfold Partitioner_new. intros (k & _ & [= <-])%bind_Ok. by split.
Qed.

Definition route_all (self : Partitioner) (l : list SinkBatch) : result PartitionError Partitioner :=
  for_each (λ self output, fst <$> route_batch partition_text self output) l self.

Lemma route_all_ok self l self' : cache_ok self → route_all self l = Ok self' → cache_ok self' ∧ kind self' = kind self.
Proof.
  intros Hc. unfold route_all. revert self Hc. induction l as [|output l IH]; intros self Hc; cbn; [by intros [= <-]|].
  pose proof (route_batch_plain self output Hc) as Hr. destruct (route_batch _ self output) as [[self1 routes]|]; cbn; [|done].
  destruct Hr as (_ & Hc1 & Hk). intros Hl. destruct (IH self1 Hc1 Hl). split; [done|congruence].
Qed.
End transparent.

(** ** The memory bound covers the routes *)
Lemma string_len_nonneg s : 0 ≤ string_len s.
Proof. unfold string_len. lia. Qed.
Lemma string_len_app a b : string_len (a +:+ b) = string_len a + string_len b.
Proof. unfold string_len, string_bytes. rewrite chars_app, fmap_app, length_app. lia. Qed.

Lemma pretty_N_go_len n x s : (x < 10 ^ N.of_nat n)%N → string_len (pretty_N_go x s) ≤ Z.of_nat n + string_len s.
Proof.
  revert x s. induction n as [|n IH]; intros x s Hx.
  - assert (x = 0%N) as -> by (cbn in Hx; lia). rewrite pretty_N_go_0. lia.
  - destruct (decide (x = 0%N)) as [->|Hne]; [rewrite pretty_N_go_0; lia|]. rewrite pretty_N_go_step by lia.
    etrans; [apply IH|].
    + apply N.Div0.div_lt_upper_bound. rewrite Nat2N.inj_succ, N.pow_succ_r' in Hx. lia.
    + unfold string_len, string_bytes. cbn. lia.
Qed.
Lemma pretty_N_len (x : N) : (x < 10 ^ 19)%N → string_len (pretty x) ≤ 19.
Proof.
  intros Hx. unfold pretty, pretty_N. case_decide; [done|]. pose proof (pretty_N_go_len 19 x "" Hx) as Hl. change (string_len "") with 0 in Hl. lia.
Qed.
Lemma pretty_i64_len z : - 2 ^ 63 ≤ z < 2 ^ 63 → string_len (pretty z) ≤ 20.
Proof.
  intros Hz. destruct z as [|p|p]; [done|..].
  - change (string_len (pretty (N.pos p)) ≤ 20). pose proof (pretty_N_len (N.pos p) ltac:(lia)). lia.
  - change (string_len ("-" +:+ pretty (N.pos p)) ≤ 20). rewrite string_len_app.
    pose proof (pretty_N_len (N.pos p) ltac:(lia)). change (string_len "-") with 1. lia.
Qed.
Lemma source_path_len t p : - 2 ^ 63 ≤ p < 2 ^ 63 → string_len (source_path t p) ≤ 37 + string_len t.
Proof.
  intros Hp%pretty_i64_len. unfold source_path. rewrite !string_len_app.
  change (string_len "topic=") with 6. change (string_len "/partition=") with 11. lia.
Qed.

Lemma saturating_fold {A} (x y : A → Z) l b :
  (∀ a, 0 ≤ x a) → (∀ a, 0 ≤ y a) →
  b ≤ usize_max → foldl (λ b a, saturating_add usize_max (saturating_add usize_max b (x a)) (y a)) b l < usize_max →
  b + lsum (λ a, x a + y a) l ≤ foldl (λ b a, saturating_add usize_max (saturating_add usize_max b (x a)) (y a)) b l.
Proof.
  intros Hx Hy. assert (∀ l, 0 ≤ lsum (λ a, x a + y a) l) as Hn by (intros k; apply lsum_nonneg; intros a _; specialize (Hx a); specialize (Hy a); lia).
  revert b. induction l as [|a l IH]; intros b Hb Hlt; cbn [foldl] in *; [cbn; lia|].
  rewrite lsum_cons. specialize (Hx a). specialize (Hy a).
  specialize (IH (saturating_add usize_max (saturating_add usize_max b (x a)) (y a))).
  assert (saturating_add usize_max (saturating_add usize_max b (x a)) (y a) ≤ usize_max) as Hs by (unfold saturating_add; lia).
  specialize (IH Hs Hlt). specialize (Hn l).
  unfold saturating_add in *. lia.
Qed.

Lemma lsum_elem {A} (f : A → Z) l a : (∀ x, 0 ≤ f x) → a ∈ l → f a ≤ lsum f l.
Proof.
  intros Hf Ha. apply elem_of_Permutation in Ha as [k Hk]. rewrite (lsum_perm f _ _ Hk), lsum_cons.
  pose proof (lsum_nonneg f k ltac:(auto)). lia.
Qed.
Lemma lsum_Forall2 {A B} (f : A → Z) (g : B → Z) l k : Forall2 (λ x y, g y ≤ f x) l k → lsum g k ≤ lsum f l.
Proof. induction 1; [done|]. rewrite !lsum_cons. lia. Qed.

Section bound.
Context `{ObjectStorePath, Chrono}.
Context {AT : ArrowTypes} {AV : ArrowValues} {AC : ArrowCompute}.
Context (partition_text : DataType → option (OtherValue → string)).

Lemma columns_topic output k columns : RouteColumns_new output k = Ok columns → system_array as_string_array output Topic = Ok (rc_topic columns).
Proof.
  unfold RouteColumns_new. intros (time & _ & (fields & _ & (t & Ht & (p & _ & (o & _ & (m & _ & [= <-])%bind_Ok)%bind_Ok)%bind_Ok)%bind_Ok)%bind_Ok)%bind_Ok.
  done.
Qed.

Lemma plain_route_source k output columns row r :
  sb_is_dlq output = true ∨ k = KSource → plain_route partition_text k output columns row = Ok r →
  default None (rc_topic columns !! row) = Some (topic r) ∧ partition_path r = source_path (topic r) (partition r).
Proof.
  intros Hk. unfold plain_route.
  intros (t & Ht & (p & _ & (o & _ & (m & _ & (time & _ & ([] & _ & ([path time'] & Hp & [= <-])%bind_Ok)%bind_Ok)%bind_Ok)%bind_Ok)%bind_Ok)%bind_Ok)%bind_Ok.
  cbn. split.
  - unfold not_null in Ht. destruct (default None (rc_topic columns !! row)); cbn in Ht; congruence.
  - destruct (sb_is_dlq output); [congruence|]. destruct Hk as [?| ->]; [done|]. congruence.
Qed.

Definition route_bytes (r : RowRoute) : Z := string_len (topic r) + string_len (partition_path r).

Lemma bound_covers self output self' routes n :
  cache_ok self → sb_is_dlq output = true ∨ kind self = KSource →
  route_batch partition_text self output = Ok (self', routes) → (∀ r, r ∈ routes → - 2 ^ 63 ≤ partition r < 2 ^ 63) →
  route_strings_memory_bound self output = Ok n → n < usize_max → lsum route_bytes routes ≤ n.
Proof.
  intros Hc Hk Hr Hi64 Hb Hlt. pose proof (route_batch_plain partition_text self output Hc) as Hp. rewrite Hr in Hp. destruct Hp as [Hp _].
  unfold plain_routes in Hp. apply bind_Ok in Hp as (columns & Hcol & Hm). apply mapM_Ok in Hm.
  unfold route_strings_memory_bound in Hb. rewrite (columns_topic _ _ _ Hcol) in Hb. cbn in Hb. injection Hb as Hn.
  set (tb := λ row, match default None (rc_topic columns !! row) with None => 0 | Some t => string_len t end).
  set (pb := λ row, if sb_is_dlq output then saturating_add usize_max 37 (tb row)
                    else default (saturating_add usize_max 37 (tb row)) (main_path_bound (kind self))).
  assert (∀ row, 0 ≤ tb row) as Htb by (intros row; unfold tb; destruct (default _ _); [apply string_len_nonneg|lia]).
  assert (pb = λ row, saturating_add usize_max 37 (tb row)) as Hpb.
  { unfold pb. destruct Hk as [-> | ->]; [done|]. by destruct (sb_is_dlq output). }
  assert (∀ row, 0 ≤ pb row) as Hpb0 by (intros row; rewrite Hpb; specialize (Htb row); unfold saturating_add, usize_max, u64_max; lia).
  change (foldl (λ bytes row, saturating_add usize_max (saturating_add usize_max bytes (tb row)) (pb row)) 0
            (seq 0 (rb_rows (sb_batch output))) = n) in Hn.
  pose proof (saturating_fold tb pb (seq 0 (rb_rows (sb_batch output))) 0 Htb Hpb0 ltac:(done)) as Hs. rewrite Hn in Hs.
  specialize (Hs Hlt). etrans; [|exact Hs]. cbn [Z.add]. apply lsum_Forall2. apply Forall2_same_length_lookup_2.
  { by apply Forall2_length in Hm. }
  intros i row r Hrow Hir. destruct (plain_route_source (kind self) output columns row r Hk) as [Et Ep].
  { by eapply (Forall2_lookup_lr _ _ _ i) in Hm. }
  specialize (Hi64 r (list_elem_of_lookup_2 _ _ _ Hir)). pose proof (source_path_len (topic r) (partition r) Hi64) as Hlen.
  rewrite <-Ep in Hlen. unfold route_bytes.
  pose proof (lsum_elem (λ a, tb a + pb a) _ row ltac:(intros a; specialize (Htb a); specialize (Hpb0 a); lia) (list_elem_of_lookup_2 _ _ _ Hrow)) as He.
  cbn beta in He. assert (tb row = string_len (topic r)) as Etb by (unfold tb; by rewrite Et).
  rewrite Hpb in *. cbn beta in *. rewrite Etb in *. unfold saturating_add in *. pose proof (string_len_nonneg (topic r)). lia.
Qed.
End bound.

(** ** The properties *)
Section properties.
Context `{ObjectStorePath, Chrono}.
Context {AT : ArrowTypes} {AV : ArrowValues} {AC : ArrowCompute}.
Context (partition_text : DataType → option (OtherValue → string)).

(** The routes of a batch, and the error when it cannot be routed, are those of the
    routing without caches, whatever batches were routed before. *)
Theorem partition_cache_transparent config self0 earlier self output :
  Partitioner_new config = Ok self0 → route_all partition_text self0 earlier = Ok self →
  fmap (M:=result PartitionError) snd (route_batch partition_text self output) = plain_routes partition_text (kind self0) output.
Proof.
  intros Hn Ha. destruct (route_all_ok _ _ _ _ (new_cache_ok _ _ Hn) Ha) as [Hc <-].
  pose proof (route_batch_plain partition_text self output Hc) as Hr.
  destruct (route_batch _ self output) as [[self' l]|e]; cbn; [by destruct Hr as (-> & _)|by rewrite Hr].
Qed.

(** The memory reserved before a batch is routed covers the strings of its routes, for
    rows routed by their source position. *)
Theorem route_bound_covers config self0 earlier self output self' routes n :
  Partitioner_new config = Ok self0 → route_all partition_text self0 earlier = Ok self →
  sb_is_dlq output = true ∨ kind self = KSource →
  route_batch partition_text self output = Ok (self', routes) → (∀ r, r ∈ routes → - 2 ^ 63 ≤ partition r < 2 ^ 63) →
  route_strings_memory_bound self output = Ok n → n < usize_max → lsum route_bytes routes ≤ n.
Proof. intros Hn Ha. destruct (route_all_ok _ _ _ _ (new_cache_ok _ _ Hn) Ha) as [Hc _]. by apply bound_covers. Qed.
End properties.

(** ** An example *)
#[local] Existing Instance example_arrow.
#[local] Existing Instance example_values.
#[local] Existing Instance example_compute.

Definition example_path_part (s : string) : bool := bool_decide ("/"%char ∉ String.list_ascii_of_string s).
#[export] Program Instance example_paths : ObjectStorePath := {| path_part := example_path_part; path_parse := Some |}.
Next Obligation. intros s. by intros ?%bool_decide_eq_true. Qed.

Definition example_chrono : Chrono := {|
  Tz := unit; DateTime := Z; Items := string;
  parse_timezone := λ s, if bool_decide (s = "UTC") then Some tt else None;
  timestamp_millis_opt := Some; strftime_items := Some;
  format_with_items := λ t _ items, Some (items +:+ pretty t)
|}.
#[local] Existing Instance example_chrono.

(** Three rows of one partition. *)
Definition example_routed (times : list Z) (dlq : bool) : SinkBatch := {|
  sb_schema := []; sb_namespace := None; sb_table := "t"; sb_is_dlq := dlq;
  sb_batch := {| rb_schema := []; rb_rows := 3;
    rb_columns := [StringArray (replicate 3 (Some "events")); Int64Array (replicate 3 (Some 7));
                   Int64Array [Some 10; Some 11; Some 12]; UInt64Array (replicate 3 (Some 0)); Int64Array (Some <$> times)] |};
  sb_byte_size := 0;
  sb_system_columns := [ {| sys_kind := Topic; sys_index := 0; sys_name := "t" |}; {| sys_kind := Partition; sys_index := 1; sys_name := "p" |};
    {| sys_kind := Offset; sys_index := 2; sys_name := "o" |}; {| sys_kind := MessageIndex; sys_index := 3; sys_name := "m" |};
    {| sys_kind := WriteTimestampMs; sys_index := 4; sys_name := "w" |} ]
|}.
Definition no_text (t : DataType) : option (OtherValue → string) := None.

Lemma partition_cache_transparent_witness :
  ∃ self0 self, Partitioner_new (PRecordTime 1000 "h=" "UTC") = Ok self0 ∧
    route_all no_text self0 [example_routed [0; 999; 1000] false] = Ok self ∧
    fmap (M:=result PartitionError) (λ r, fmap (M:=list) partition_path r.2) (route_batch no_text self (example_routed [1500; 2000; -1] false)) = Ok ["h=1000"; "h=2000"; "h=-1000"] ∧
    fmap (M:=result PartitionError) snd (route_batch no_text self (example_routed [1500; 2000; -1] false)) = plain_routes no_text (kind self0) (example_routed [1500; 2000; -1] false).
Proof.
  eexists _, _. split; [vm_compute; reflexivity|]. split; [vm_compute; reflexivity|]. split; [vm_compute; reflexivity|].
  apply (partition_cache_transparent no_text (PRecordTime 1000 "h=" "UTC") _ [example_routed [0; 999; 1000] false]); vm_compute; reflexivity.
Defined.

Lemma route_bound_covers_witness :
  ∃ self0 routes n, Partitioner_new PSource = Ok self0 ∧
    fmap (M:=result PartitionError) snd (route_batch no_text self0 (example_routed [0; 1; 2] false)) = Ok routes ∧
    route_strings_memory_bound self0 (example_routed [0; 1; 2] false) = Ok n ∧
    lsum route_bytes routes = 90 ∧ n = 147 ∧ lsum route_bytes routes ≤ n.
Proof.
  eexists _, _, _. split; [vm_compute; reflexivity|]. split; [vm_compute; reflexivity|]. split; [vm_compute; reflexivity|].
  split; [vm_compute; reflexivity|]. split; [reflexivity|].
  eapply (route_bound_covers no_text PSource _ [] _ (example_routed [0; 1; 2] false));
    [vm_compute; reflexivity|reflexivity|by right|vm_compute; reflexivity| |vm_compute; reflexivity|done].
  intros r Hr. repeat (apply elem_of_cons in Hr as [->|Hr]; [cbn; lia|]). by apply not_elem_of_nil in Hr.
Defined.
