(* ===== verification/S3Journal.v ===== *)
(** * The epoch journal of the S3 sink

    [sink/journal.rs] of [transferia-connector-s3]: before the objects of an epoch are
    uploaded their keys and digests are recorded as [Open] in durable storage, and as
    [Closed] when all of them are durable.  A later process that closes the same epoch
    finds the record and does not upload again.

    The storage is the interface of [DurableStorage.v]; SHA-256 and [serde_json] are
    parameters.  A [Call] is one operation on the storage: what the other processes did to
    it since the previous operation, and the failures of the operation. *)

From Stdlib Require Import Ascii.
From stdpp Require Import base tactics numbers option strings pretty list.
From S2P Require Import Prelude Bytes Durable DurableStorage DurableRecord.
Local Open Scope Z_scope.

Definition JOURNAL_VERSION : Z := 1.

(** [ClosedObject] of [sink/actor.rs]. *)
Record ClosedObject := { co_epoch_id : Z; co_key : string; co_payload : list Z; co_rows : Z }.

Record ManifestObject := { mo_key : string; payload_sha256 : string; payload_bytes : Z }.
#[export] Instance ManifestObject_eq_dec : EqDecision ManifestObject.
Proof. solve_decision. Defined.

Inductive EpochState := Open | Closed.
#[export] Instance EpochState_eq_dec : EqDecision EpochState.
Proof. solve_decision. Defined.

Record EpochRecord := { version : Z; state : EpochState; objects : list ManifestObject }.
#[export] Instance EpochRecord_eq_dec : EqDecision EpochRecord.
Proof. solve_decision. Defined.

Inductive OpenDisposition := Upload | AlreadyClosed.
#[export] Instance OpenDisposition_eq_dec : EqDecision OpenDisposition.
Proof. solve_decision. Defined.

Inductive JournalError := JSerialize | JStorage (e : DurableError) | JInvalid | JMismatch | JDisappeared | JChanged.

(** ** Digests *)
Definition HEX : list ascii :=
  ["0"; "1"; "2"; "3"; "4"; "5"; "6"; "7"; "8"; "9"; "a"; "b"; "c"; "d"; "e"; "f"]%char.
Definition hex_byte (b : Z) : list ascii :=
  [nth (Z.to_nat (Z.shiftr b 4)) HEX "0"%char; nth (Z.to_nat (Z.land b 15)) HEX "0"%char].

Section journal.
Context `{DurableStorage} `{!Json EpochRecord} (sha256 : list Z → list Z).

Definition hex_digest (bytes : list Z) : string := String.string_of_list_ascii (sha256 bytes ≫= hex_byte).

Definition manifest (o : ClosedObject) : ManifestObject :=
  {| mo_key := co_key o; payload_sha256 := hex_digest (co_payload o); payload_bytes := Z.of_nat (length (co_payload o)) |}.

Record EpochJournal := { j_key : string; j_open : EpochRecord; open_bytes : list Z; closed_bytes : list Z }.

Definition closed_record (r : EpochRecord) : EpochRecord := {| version := version r; state := Closed; objects := objects r |}.

Definition EpochJournal_new (partition_id : Z) (l : list ClosedObject) : result JournalError EpochJournal :=
  let open := {| version := JOURNAL_VERSION; state := Open; objects := manifest <$> l |} in
  ok_or (to_vec open) JSerialize ≫= λ open_bytes,
  ok_or (to_vec (closed_record open)) JSerialize ≫= λ closed_bytes,
  let identity := objects open ≫= λ o, string_bytes (mo_key o) ++ [0] in
  Ok {| j_key := "s3/partition-" +:+ pretty partition_id +:+ "/epoch-" +:+ hex_digest identity;
        j_open := open; open_bytes := open_bytes; closed_bytes := closed_bytes |}.

Definition decode_and_validate (self : EpochJournal) (bytes : list Z) : result JournalError EpochRecord :=
  ok_or (from_slice bytes) JInvalid ≫= λ record,
  ensure (bool_decide (version record = JOURNAL_VERSION) && bool_decide (objects record = objects (j_open self))) JMismatch ≫= λ _,
  Ok record.

Record Call := { c_others : Store → Store; c_env : Env }.

(** The [for _ in 0..3] of [ensure_open]; [calls] are its storage operations in order. *)
Fixpoint open_loop (n : nat) (self : EpochJournal) (calls : nat → Call) (i : nat) (s : Store)
    : Store * result JournalError OpenDisposition :=
  match n with
  | O => (s, Err JChanged)
  | S n =>
      let s := c_others (calls i) s in
      match read s (j_key self) (c_env (calls i)) with
      | Err e => (s, Err (JStorage e))
      | Ok None =>
          let s := c_others (calls (S i)) s in
          match compare_exchange s (j_key self) None (open_bytes self) (c_env (calls (S i))) with
          | (s, Err e) => (s, Err (JStorage e))
          | (s, Ok (Applied _)) => (s, Ok Upload)
          | (s, Ok (Conflict _)) => open_loop n self calls (S (S i)) s
          end
      | Ok (Some current) =>
          (s, decode_and_validate self (payload current) ≫= λ record,
              Ok (match state record with Open => Upload | Closed => AlreadyClosed end))
      end
  end.
Definition ensure_open (self : EpochJournal) (calls : nat → Call) (s : Store) := open_loop 3 self calls 0 s.

Fixpoint close_loop (n : nat) (self : EpochJournal) (calls : nat → Call) (i : nat) (s : Store)
    : Store * result JournalError unit :=
  match n with
  | O => (s, Err JChanged)
  | S n =>
      let s := c_others (calls i) s in
      match read s (j_key self) (c_env (calls i)) with
      | Err e => (s, Err (JStorage e))
      | Ok None => (s, Err JDisappeared)
      | Ok (Some current) =>
          match decode_and_validate self (payload current) with
          | Err e => (s, Err e)
          | Ok record =>
              if bool_decide (state record = Closed) then (s, Ok tt)
              else
                let s := c_others (calls (S i)) s in
                match compare_exchange s (j_key self) (Some (revision current)) (closed_bytes self) (c_env (calls (S i))) with
                | (s, Err e) => (s, Err (JStorage e))
                | (s, Ok (Applied _)) => (s, Ok tt)
                | (s, Ok (Conflict _)) => close_loop n self calls (S (S i)) s
                end
          end
      end
  end.
Definition mark_closed (self : EpochJournal) (calls : nat → Call) (s : Store) := close_loop 3 self calls 0 s.
End journal.

(** ** What the records promise *)
Section sound.
Context `{DurableStorage} `{!Json EpochRecord} (sha256 : list Z → list Z).

Definition epoch_key (k : string) : Prop :=
  ∃ partition_id identity, - 2 ^ 63 ≤ partition_id < 2 ^ 63 ∧
    k = "s3/partition-" +:+ pretty partition_id +:+ "/epoch-" +:+ hex_digest sha256 identity.
(** The keys of the journals can be stored. *)
Hypothesis Hkeys : ∀ k, epoch_key k → key_ok k.

(** The objects of an epoch that is recorded as closed are in [U]. *)
Definition closed_sound (U : ManifestObject → Prop) (s : Store) : Prop :=
  ∀ k v r, epoch_key k → value s k = Some v ∨ settled s k = Some v →
    from_slice (payload v) = Some r → state r = Closed → ∀ o, o ∈ objects r → U o.
Definition sound (U : ManifestObject → Prop) (s : Store) : Prop := store_ok s ∧ closed_sound U s.
(** What others do to the storage keeps its promise. *)
Definition polite (U : ManifestObject → Prop) (c : Call) : Prop := ∀ s, sound U s → sound U (c_others c s).

Lemma sound_mono (U V : ManifestObject → Prop) s : (∀ o, U o → V o) → sound U s → sound V s.
Proof. intros HUV [Hs Hc]. split; [done|]. intros k v r Hk Hv Hr Hst o Ho. apply HUV. by eapply Hc. Qed.

Lemma sound_crash U s s' : sound U s → crashed s s' → sound U s'.
Proof.
  intros [Hs Hc] Hcr. split; [by eapply crashed_ok|]. intros k v r Hk Hv.
  destruct (crashed_value s s' k Hs Hcr (Hkeys k Hk)) as [Ev Es]. rewrite Es in Hv.
  apply (Hc k v r Hk). destruct Ev as [Ev|Ev]; rewrite Ev in Hv; tauto.
Qed.

(** An exchange of a key that is no journal's, or of contents that keep the promise. *)
Lemma sound_exchange U s k x b e :
  sound U s → key_ok k → payload_ok b →
  (∀ r, epoch_key k → from_slice b = Some r → state r = Closed → ∀ o, o ∈ objects r → U o) →
  sound U (compare_exchange s k x b e).1.
Proof.
  intros [Hs Hc] Hk Hb Hnew. split; [by apply exchange_ok|]. intros k' v r Hk' Hv. destruct (decide (k' = k)) as [->|Hne].
  - pose proof (exchange_result s k x b e Hs Hk Hb) as R. cbn zeta in R.
    assert (value s k = Some v ∨ settled s k = Some v ∨ payload v = b) as [Ho|[Ho|Hp]].
    { destruct (compare_exchange s k x b e) as [s' [[w|c]|err]]; cbn [fst snd] in *.
      - destruct R as ((_ & _ & Hp) & Ev & Es). rewrite Ev, Es in Hv. destruct Hv; simplify_eq; auto.
      - destruct R as (_ & _ & Ev & Es). rewrite Ev, Es in Hv. tauto.
      - destruct R as [[Es [Ev|(w & (_ & _ & Hp) & Ev)]]|(w & (_ & _ & Hp) & Ev & Es)]; rewrite Ev, Es in Hv; destruct Hv; simplify_eq; auto. }
    + apply (Hc k v r Hk'); auto.
    + apply (Hc k v r Hk'); auto.
    + rewrite Hp. intros Hr Hst. by eapply Hnew.
  - destruct (exchange_other s k k' x b e Hs Hk (Hkeys k' Hk') Hb Hne) as [Ev Es]. cbn zeta in Ev, Es. rewrite Ev in Hv.
    apply (Hc k' v r Hk'). destruct Es as [Es|Es]; rewrite Es in Hv; tauto.
Qed.

(** ** The journal of an epoch *)
Record journal_ok (l : list ClosedObject) (j : EpochJournal) : Prop := {
  journal_key : epoch_key (j_key j);
  journal_objects : objects (j_open j) = manifest sha256 <$> l;
  journal_open : to_vec (j_open j) = Some (open_bytes j) ∧ state (j_open j) = Open;
  journal_closed : to_vec (closed_record (j_open j)) = Some (closed_bytes j)
}.

Lemma journal_new_ok p l j : - 2 ^ 63 ≤ p < 2 ^ 63 → EpochJournal_new sha256 p l = Ok j → journal_ok l j.
Proof.
  intros Hi. unfold EpochJournal_new. intros (ob & Ho & (cb & Hc & [= <-])%bind_Ok)%bind_Ok. split; cbn.
  - by eexists _, _.
  - done.
  - destruct (to_vec _); cbn in Ho; by simplify_eq.
  - destruct (to_vec (closed_record _)); cbn in Hc; by simplify_eq.
Qed.

Lemma journal_decode_Ok j b r : decode_and_validate j b = Ok r → from_slice b = Some r ∧ objects r = objects (j_open j).
Proof.
  unfold decode_and_validate. intros (r' & Hr & ([] & He%ensure_Ok & [= <-])%bind_Ok)%bind_Ok.
  apply andb_true_iff in He as [_ He%bool_decide_eq_true]. destruct (from_slice b); cbn in Hr; by simplify_eq.
Qed.

Context (U : ManifestObject → Prop) (l : list ClosedObject) (j : EpochJournal) (Hj : journal_ok l j).

Lemma exchange_open s x e : sound U s → sound U (compare_exchange s (j_key j) x (open_bytes j) e).1.
Proof.
  intros Hs. destruct (journal_open l j Hj) as [Hb Hst]. apply sound_exchange; [done|apply Hkeys, Hj|by eapply to_vec_fits|].
  intros r _ Hr. rewrite (from_to _ _ Hb) in Hr. simplify_eq. by rewrite Hst.
Qed.
Lemma exchange_closed s x e :
  (∀ o, o ∈ l → U (manifest sha256 o)) → sound U s → sound U (compare_exchange s (j_key j) x (closed_bytes j) e).1.
Proof.
  intros Hl Hs. pose proof (journal_closed l j Hj) as Hb. apply sound_exchange; [done|apply Hkeys, Hj|by eapply to_vec_fits|].
  intros r _ Hr _ o Ho. rewrite (from_to _ _ Hb) in Hr. simplify_eq. cbn in Ho. rewrite (journal_objects l j Hj) in Ho.
  apply list_elem_of_fmap in Ho as (x0 & -> & Hx). auto.
Qed.

Lemma open_loop_sound n calls i s :
  (∀ i, polite U (calls i)) → sound U s →
  sound U (open_loop n j calls i s).1 ∧
  ((open_loop n j calls i s).2 = Ok AlreadyClosed → ∀ o, o ∈ l → U (manifest sha256 o)).
Proof.
  intros Hp. revert i s. induction n as [|n IH]; intros i s Hs; cbn; [done|].
  pose proof (Hp i s Hs) as Hs1. destruct (read _ _ _) as [[current|]|e] eqn:R; [| |done].
  - split; [done|]. cbn. intros (r & [Hr Ho]%journal_decode_Ok & Hd)%bind_Ok. destruct (state r) eqn:Hst; [done|].
    intros o Hin. destruct Hs1 as [Hok Hc]. apply read_value in R; [|done|apply Hkeys, Hj].
    apply (Hc (j_key j) current r); [apply Hj|by left|done|done|]. rewrite Ho, (journal_objects l j Hj).
    by apply list_elem_of_fmap_2.
  - pose proof (Hp (S i) _ Hs1) as Hs2. pose proof (exchange_open _ None (c_env (calls (S i))) Hs2) as Hs3.
    destruct (compare_exchange _ _ _ _ _) as [s3 [[v|c]|e]]; cbn in *; [done|by apply IH|done].
Qed.

Lemma close_loop_sound n calls i s :
  (∀ i, polite U (calls i)) → (∀ o, o ∈ l → U (manifest sha256 o)) → sound U s → sound U (close_loop n j calls i s).1.
Proof.
  intros Hp Hl. revert i s. induction n as [|n IH]; intros i s Hs; cbn; [done|].
  pose proof (Hp i s Hs) as Hs1. destruct (read _ _ _) as [[current|]|e] eqn:R; [|done|done].
  destruct (decode_and_validate _ _) as [r|e]; [|done]. case_bool_decide; [done|].
  pose proof (Hp (S i) _ Hs1) as Hs2. pose proof (exchange_closed _ (Some (revision current)) (c_env (calls (S i))) Hl Hs2) as Hs3.
  destruct (compare_exchange _ _ _ _ _) as [s3 [[v|c]|e]]; cbn in *; [done|by apply IH|done].
Qed.
End sound.
