(* ===== verification/S3Epochs.v ===== *)
(** * Commit epochs of the S3 sink

    The buffering half of [sink/actor.rs] of [transferia-connector-s3]: the rows of a
    delivery in source order, the messages they form, the buffers of the open epoch, and
    when an epoch is closed.

    [ep_rows] is a trace of the rows of an epoch and influences nothing.  Epochs are
    equivalent ([≡]) when they hold the same rows, whatever deliveries carried them and
    whenever they arrived; everything that decides where an epoch ends respects it. *)

From stdpp Require Import base tactics numbers option strings gmap fin_maps sorting list.
From S2P Require Import Prelude DeliveryId S3Objects S3Partition S3Journal.
Local Open Scope Z_scope.

Inductive PartitionPathChange := Rotate | KeepEpoch.
#[export] Instance PartitionPathChange_eq_dec : EqDecision PartitionPathChange.
Proof. solve_decision. Defined.

(** [S3ActorConfig] with the fields of its groups, and the epoch limit of [S3Sink]. *)
Record S3ActorConfig := {
  prefix : string;
  max_rows : Z; max_bytes : Z; record_time_interval : option Z; wall_clock_interval : option Z;
  on_partition_path_change : PartitionPathChange;
  max_epoch_buffers : Z; max_pending_upload_objects : Z; max_buffered_bytes : Z;
  max_in_flight_objects : Z; epoch_byte_limit : Z
}.

Record RoutedRow := { output_index : nat; row_index : nat; rr_table : string; rr_is_dlq : bool; route : RowRoute }.
#[export] Instance RoutedRow_eq_dec : EqDecision RoutedRow.
Proof. solve_decision. Defined.

(** A row and its serialization. *)
Definition Row : Type := RoutedRow * list Z.

Record ObjectBuffer := { ob_topic : string; ob_partition : Z; start_offset : Z; ob_rows : Z; ob_payload : list Z }.

(** [BufferKey]: a table and a partition path, ordered as a pair. *)
Definition BufferKey : Type := string * string.
Definition key_le (a b : BufferKey) : Prop := (a.1 ≠ b.1 ∧ String.le a.1 b.1) ∨ (a.1 = b.1 ∧ String.le a.2 b.2).
#[export] Instance key_le_dec : RelDecision key_le.
Proof. intros a b. unfold key_le. apply _. Defined.

Record Epoch := {
  buffers : gmap BufferKey ObjectBuffer;
  delivery_rows : list (DeliveryId * Z);
  reservations : list Z;
  retained_bytes : Z;
  record_time_base_ms : option Z;
  last_main_partition : option string;
  first_seen : option Z;
  ep_rows : list (DeliveryId * Row)    (* trace *)
}.
Definition Epoch_default : Epoch :=
  {| buffers := ∅; delivery_rows := []; reservations := []; retained_bytes := 0; record_time_base_ms := None;
     last_main_partition := None; first_seen := None; ep_rows := [] |}.

(** ** The order of rows and the messages *)
Definition lex (c d : comparison) : comparison := match c with Eq => d | _ => c end.
Definition bool_compare (a b : bool) : comparison := match a, b with false, true => Lt | true, false => Gt | _, _ => Eq end.
Definition routed_row_order (l r : RoutedRow) : comparison :=
  lex (String.compare (topic (route l)) (topic (route r)))
  (lex (partition (route l) ?= partition (route r))
  (lex (offset (route l) ?= offset (route r))
  (lex (message_index (route l) ?= message_index (route r))
       (bool_compare (rr_is_dlq l) (rr_is_dlq r))))).

(** [is_sorted_by] *)
Fixpoint is_sorted (l : list RoutedRow) : bool :=
  match l with
  | a :: (b :: _) as l' => negb (bool_decide (routed_row_order a b = Gt)) && is_sorted l'
  | _ => true
  end.

(** The identity of a source message. *)
Definition message (r : RoutedRow) : string * Z * Z := (topic (route r), partition (route r), offset (route r)).

(** The rows after the first that belong to its message. *)
Fixpoint run_length (m : string * Z * Z) (l : list RoutedRow) : nat :=
  match l with
  | r :: l => if bool_decide (message r = m) then S (run_length m l) else O
  | [] => O
  end.
(** [end] of [accept_next_message_group], for the message at [start]. *)
Definition message_end (rows : list RoutedRow) (start : nat) (first : RoutedRow) : nat :=
  (S start + run_length (message first) (drop (S start) rows))%nat.

(** ** Buffering *)
Definition ROUTE_RETAINED_OVERHEAD_BYTES : Z := 128.
Definition routed_row_retained_bytes (r : RoutedRow) (serialized_bytes : Z) : Z :=
  saturating_add usize_max (saturating_add usize_max (saturating_add usize_max
    (saturating_add usize_max serialized_bytes ROUTE_RETAINED_OVERHEAD_BYTES)
    (string_len (rr_table r))) (string_len (topic (route r)))) (string_len (partition_path (route r))).

Section epochs.
Context (config : S3ActorConfig).

Definition row_key (r : RoutedRow) : BufferKey := (rr_table r, partition_path (route r)).

(** One turn of the loop over the rows of a message: the buffers, the retained bytes, the
    serialized bytes, and whether an object reached its limits. *)
Definition buffer_row (acc : gmap BufferKey ObjectBuffer * Z * Z * bool) (x : Row) : gmap BufferKey ObjectBuffer * Z * Z * bool :=
  let '(m, retained, serialized, limit) := acc in
  let '(row, bytes) := x in
  let b := default {| ob_topic := topic (route row); ob_partition := partition (route row); start_offset := offset (route row);
                      ob_rows := 0; ob_payload := [] |} (m !! row_key row) in
  let b := {| ob_topic := ob_topic b; ob_partition := ob_partition b; start_offset := start_offset b `min` offset (route row);
              ob_rows := saturating_add usize_max (ob_rows b) 1; ob_payload := ob_payload b ++ bytes |} in
  let row_bytes := Z.of_nat (length bytes) in
  (<[row_key row := b]> m,
   saturating_add usize_max retained (routed_row_retained_bytes row row_bytes),
   saturating_add usize_max serialized row_bytes,
   limit || bool_decide (max_rows config ≤ ob_rows b) || bool_decide (max_bytes config ≤ Z.of_nat (length (ob_payload b)))).

Definition first_main (rows : list RoutedRow) : option RoutedRow := head (filter (λ r, rr_is_dlq r = false) rows).
Definition last_main (rows : list RoutedRow) : option RoutedRow := last (filter (λ r, rr_is_dlq r = false) rows).
Definition record_time (rows : list RoutedRow) : option Z := head (omap (λ r, record_time_ms (route r)) rows).

Definition i64_saturating_sub (a b : Z) : Z := Z.max (- 2 ^ 63) (Z.min i64_max (a - b)).

(** Whether the open epoch ends before this message. *)
Definition rotates (e : Epoch) (rows : list RoutedRow) : bool :=
  let partition_changed :=
    bool_decide (on_partition_path_change config = Rotate) &&
    match first_main rows, last_main_partition e with
    | Some row, Some previous => negb (bool_decide (previous = partition_path (route row)))
    | _, _ => false
    end in
  let record_time_rotated :=
    match record_time_interval config, record_time rows, record_time_base_ms e with
    | Some interval, Some current, Some base => bool_decide (Z.min interval i64_max ≤ i64_saturating_sub current base)
    | _, _, _ => false
    end in
  partition_changed || record_time_rotated.

Definition add_delivery_rows (l : list (DeliveryId * Z)) (id : DeliveryId) (n : Z) : list (DeliveryId * Z) :=
  match last l with
  | Some (previous, rows) => if bool_decide (previous = id) then removelast l ++ [(previous, rows + n)] else l ++ [(id, n)]
  | None => l ++ [(id, n)]
  end.

(** A message enters the epoch: the epoch, its serialized bytes, and whether the epoch ends
    after it. *)
Definition add_message (now : Z) (id : DeliveryId) (e : Epoch) (rows : list Row) : Epoch * Z * bool :=
  let time := record_time rows.*1 in
  let '(m, retained, serialized, limit) := foldl buffer_row (buffers e, 0, 0, false) rows in
  let e := {| buffers := m;
              delivery_rows := add_delivery_rows (delivery_rows e) id (Z.of_nat (length rows));
              reservations := reservations e ++ (if bool_decide (0 < retained) then [retained] else []);
              retained_bytes := saturating_add usize_max (retained_bytes e) retained;
              record_time_base_ms := match first_seen e with None => time | Some _ => record_time_base_ms e end;
              last_main_partition := match last_main rows.*1 with Some r => Some (partition_path (route r)) | None => last_main_partition e end;
              first_seen := match first_seen e with None => Some now | Some t => Some t end;
              ep_rows := ep_rows e ++ ((id,.) <$> rows) |} in
  let budget_reached := bool_decide (max_epoch_buffers config < Z.of_nat (size (buffers e)))
                        || bool_decide (epoch_byte_limit config ≤ retained_bytes e) in
  (e, serialized, limit || budget_reached).

(** ** Closing *)
Section closing.
Context `{ObjectStorePath}.

Definition close_buffer (epoch_id : Z) (kb : BufferKey * ObjectBuffer) : result KeyError ClosedObject :=
  for_json_object (prefix config) kb.1.1 kb.1.2 (ob_topic kb.2) (ob_partition kb.2) (start_offset kb.2) ≫= λ key,
  Ok {| co_epoch_id := epoch_id; co_key := key; co_payload := ob_payload kb.2; co_rows := ob_rows kb.2 |}.

Definition close_buffers (epoch_id : Z) (e : Epoch) : result KeyError (list ClosedObject) :=
  mapM (close_buffer epoch_id) (bt_iter key_le (buffers e)).
End closing.

(** ** The epochs of a sequence of messages *)

(** [Epoch::take] when there is something to close. *)
Definition close_open (st : list Epoch * Epoch) : list Epoch * Epoch :=
  if bool_decide (buffers st.2 = ∅) then st else (st.1 ++ [st.2], Epoch_default).
Definition cut_message (st : list Epoch * Epoch) (rows : list Row) : list Epoch * Epoch :=
  let st := if rotates st.2 rows.*1 then close_open st else st in
  let '(e, _, ends) := add_message 0 0 st.2 rows in
  if ends then close_open (st.1, e) else (st.1, e).
(** A message, or the end of the open epoch for a reason outside the messages: its time on
    the wall clock, or the end of the input. *)
Inductive Arrival := Arrived (rows : list Row) | Forced.
Definition cut_arrival (st : list Epoch * Epoch) (a : Arrival) : list Epoch * Epoch :=
  match a with Arrived rows => cut_message st rows | Forced => close_open st end.
(** The epochs that end among [l], and the one left open. *)
Definition cut (l : list Arrival) : list Epoch * Epoch := foldl cut_arrival ([], Epoch_default) l.
End epochs.

Definition arrived (a : Arrival) : option (list Row) := match a with Arrived rows => Some rows | Forced => None end.

(** ** Epochs with the same rows *)
Record same_rows (e e' : Epoch) : Prop := {
  same_buffers : buffers e = buffers e';
  same_retained : retained_bytes e = retained_bytes e';
  same_time : record_time_base_ms e = record_time_base_ms e';
  same_main : last_main_partition e = last_main_partition e';
  same_seen : is_Some (first_seen e) ↔ is_Some (first_seen e');
  same_trace : (ep_rows e).*2 = (ep_rows e').*2
}.
#[export] Instance Epoch_equiv : Equiv Epoch := same_rows.
#[export] Instance Epoch_equivalence : Equivalence (≡@{Epoch}).
Proof.
  split.
  - intros e. by split.
  - intros e e' []. by split.
  - intros e1 e2 e3 [] []. split; try congruence. tauto.
Qed.

Section same.
Context (config : S3ActorConfig).

#[export] Instance rotates_proper : Proper ((≡) ==> (=) ==> (=)) (rotates config).
Proof. intros e e' [_ _ Ht Hm _ _] rows _ <-. unfold rotates. by rewrite Ht, Hm. Qed.

(** The rows decide; the delivery and the time do not. *)
Lemma add_message_same now id now' id' e e' rows :
  e ≡ e' →
  (add_message config now id e rows).1.1 ≡ (add_message config now' id' e' rows).1.1 ∧
  (add_message config now id e rows).1.2 = (add_message config now' id' e' rows).1.2 ∧
  (add_message config now id e rows).2 = (add_message config now' id' e' rows).2.
Proof.
  intros [Hb Hr Ht Hm Hs Hx]. unfold add_message. rewrite Hb.
  destruct (foldl (buffer_row config) (buffers e', 0, 0, false) rows) as [[[m retained] serialized] limit]. cbn.
  split_and!; [|done|by rewrite Hr]. apply Build_same_rows; cbn; [done|by rewrite Hr| |by rewrite Hm| |].
  - destruct (first_seen e), (first_seen e'); unfold is_Some in Hs; naive_solver.
  - destruct (first_seen e), (first_seen e'); split; eauto.
  - by rewrite !fmap_app, <-!list_fmap_compose, Hx.
Qed.

#[export] Instance close_buffers_proper `{ObjectStorePath} epoch_id : Proper ((≡) ==> (=)) (close_buffers config epoch_id).
Proof. intros e e' [Hb _ _ _ _ _]. unfold close_buffers. by rewrite Hb. Qed.
End same.

(** ** What the buffers hold *)
Definition rows_of (k : BufferKey) (l : list Row) : list Row := filter (λ x, row_key x.1 = k) l.

(** The object of the rows [x :: l], in their order. *)
Definition object_of (x : Row) (l : list Row) : ObjectBuffer :=
  {| ob_topic := topic (route x.1); ob_partition := partition (route x.1);
     start_offset := foldl (λ z y, z `min` offset (route y.1)) (offset (route x.1)) l;
     ob_rows := Z.of_nat (S (length l)) `min` usize_max;
     ob_payload := (x :: l) ≫= snd |}.
Definition objects_of (l : list Row) (k : BufferKey) : option ObjectBuffer :=
  match rows_of k l with [] => None | x :: l => Some (object_of x l) end.

Section contents.
Context (config : S3ActorConfig).

Lemma rows_of_app k l l' : rows_of k (l ++ l') = rows_of k l ++ rows_of k l'.
Proof. apply filter_app. Qed.
Lemma rows_of_one k x : rows_of k [x] = if bool_decide (row_key x.1 = k) then [x] else [].
Proof. unfold rows_of. case_bool_decide; [by rewrite filter_cons_True|by rewrite filter_cons_False]. Qed.

Lemma buffer_row_lookup m a b c x m' a' b' c' l :
  (∀ k, m !! k = objects_of l k) → buffer_row config (m, a, b, c) x = (m', a', b', c') → ∀ k, m' !! k = objects_of (l ++ [x]) k.
Proof.
  intros Hm Hx k. destruct x as [row bytes]. cbn in Hx. injection Hx as <- _ _ _. unfold objects_of in *.
  rewrite rows_of_app, rows_of_one. cbn [fst]. destruct (decide (row_key row = k)) as [<-|Hne].
  - rewrite lookup_insert_eq, Hm, bool_decide_eq_true_2 by done. destruct (rows_of (row_key row) l) as [|y r]; cbn.
    + unfold object_of. cbn. f_equal. f_equal; first [by rewrite app_nil_r|unfold saturating_add, usize_max, u64_max; lia].
    + unfold object_of. cbn. f_equal. rewrite foldl_app, bind_app, length_app. cbn.
      f_equal; first [by rewrite app_nil_r, app_assoc|unfold saturating_add, usize_max, u64_max; lia].
  - rewrite lookup_insert_ne, Hm, bool_decide_eq_false_2 by done. by rewrite app_nil_r.
Qed.

Lemma buffer_rows_lookup l m a b c m' a' b' c' prior :
  (∀ k, m !! k = objects_of prior k) → foldl (buffer_row config) (m, a, b, c) l = (m', a', b', c') →
  ∀ k, m' !! k = objects_of (prior ++ l) k.
Proof.
  revert m a b c prior. induction l as [|x l IH]; intros m a b c prior Hm Hl.
  { cbn in Hl. simplify_eq. by rewrite app_nil_r. }
  cbn [foldl] in Hl. destruct (buffer_row config (m, a, b, c) x) as [[[m1 a1] b1] c1] eqn:E.
  rewrite (cons_middle x prior l), app_assoc. by eapply IH; [eapply buffer_row_lookup|].
Qed.

(** The buffers of an epoch hold exactly its rows, in the order they came. *)
Definition epoch_ok (e : Epoch) : Prop := ∀ k, buffers e !! k = objects_of (ep_rows e).*2 k.
#[export] Instance epoch_ok_proper : Proper ((≡) ==> iff) epoch_ok.
Proof. intros e e' [Hb _ _ _ _ Hx]. unfold epoch_ok. by rewrite Hb, Hx. Qed.

Lemma epoch_default_ok : epoch_ok Epoch_default.
Proof. done. Qed.

Lemma add_message_ok now id e rows : epoch_ok e → epoch_ok (add_message config now id e rows).1.1.
Proof.
  intros Hb. unfold add_message.
  destruct (foldl (buffer_row config) (buffers e, 0, 0, false) rows) as [[[m retained] serialized] limit] eqn:E. intros k. cbn.
  rewrite fmap_app, <-list_fmap_compose. change (snd ∘ pair id) with (λ x : Row, x). rewrite list_fmap_id.
  by eapply buffer_rows_lookup.
Qed.

Lemma objects_of_None l k : objects_of l k = None ↔ rows_of k l = [].
Proof. unfold objects_of. by destruct (rows_of k l). Qed.

Lemma epoch_empty e : epoch_ok e → buffers e = ∅ ↔ ep_rows e = [].
Proof.
  intros Hb. split; intros He.
  - destruct (ep_rows e) as [|[id x] l] eqn:El; [done|]. exfalso. specialize (Hb (row_key x.1)). rewrite He, El, lookup_empty in Hb.
    symmetry in Hb. apply objects_of_None in Hb. unfold rows_of in Hb. cbn in Hb. by rewrite decide_True in Hb.
  - apply map_empty. intros k. rewrite Hb, He. done.
Qed.

Lemma add_message_rows now id e rows : ep_rows (add_message config now id e rows).1.1 = ep_rows e ++ ((id,.) <$> rows).
Proof. unfold add_message. by destruct (foldl _ _ _) as [[[? ?] ?] ?]. Qed.

Lemma add_message_nonempty now id e rows : rows ≠ [] → epoch_ok e → buffers (add_message config now id e rows).1.1 ≠ ∅.
Proof.
  intros Hne Hok. intros Hb%epoch_empty; [|by apply add_message_ok]. rewrite add_message_rows in Hb.
  apply app_nil in Hb as [_ Hb]. by destruct rows.
Qed.
End contents.

(** ** The epochs of a sequence of messages *)
Definition epoch_rows (e : Epoch) : list Row := (ep_rows e).*2.
Definition all_epochs (st : list Epoch * Epoch) : list Epoch := st.1 ++ [st.2].

(** *** Rows without their place in the delivery *)
Definition unplaced (r : RoutedRow) : RoutedRow :=
  {| output_index := 0; row_index := 0; rr_table := rr_table r; rr_is_dlq := rr_is_dlq r; route := route r |}.
Definition strip (x : Row) : Row := (unplaced x.1, x.2).
Definition stripped (l : list (list Row)) : list (list Row) := (λ rows : list Row, strip <$> rows) <$> l.
(** Epochs with the same buffers that rotate alike. *)
Definition same_buffering (e e' : Epoch) : Prop :=
  buffers e = buffers e' ∧ retained_bytes e = retained_bytes e' ∧ record_time_base_ms e = record_time_base_ms e' ∧
  last_main_partition e = last_main_partition e' ∧ (is_Some (first_seen e) ↔ is_Some (first_seen e')).

Lemma unplaced_rows (rows : list Row) : (strip <$> rows).*1 = unplaced <$> rows.*1.
Proof. by rewrite <-!list_fmap_compose. Qed.
Lemma main_unplaced (rows : list RoutedRow) : filter (λ r, rr_is_dlq r = false) (unplaced <$> rows) = unplaced <$> filter (λ r, rr_is_dlq r = false) rows.
Proof. induction rows as [|r rows IH]; [done|]. rewrite fmap_cons, !filter_cons, IH. change (rr_is_dlq (unplaced r)) with (rr_is_dlq r). by case_decide. Qed.
Lemma omap_unplaced (rows : list RoutedRow) : omap (λ r, record_time_ms (route r)) (unplaced <$> rows) = omap (λ r, record_time_ms (route r)) rows.
Proof. induction rows as [|r rows IH]; [done|]. cbn [fmap list_fmap omap list_omap]. by rewrite IH. Qed.

Section cutting.
Context (config : S3ActorConfig).

(** Closed epochs are well formed and not empty, and the open one is well formed. *)
Definition cut_ok (st : list Epoch * Epoch) : Prop := Forall (λ e, epoch_ok e ∧ ep_rows e ≠ []) st.1 ∧ epoch_ok st.2.

Lemma close_open_ok st : cut_ok st → cut_ok (close_open st).
Proof.
  intros [Hl He]. unfold close_open. case_bool_decide as Hb; [done|]. split; cbn; [|apply epoch_default_ok].
  apply Forall_app. split; [done|]. apply Forall_singleton. split; [done|]. by rewrite <-epoch_empty.
Qed.
Lemma close_open_rows st : cut_ok st → (all_epochs (close_open st) ≫= epoch_rows) = (all_epochs st ≫= epoch_rows).
Proof.
  intros [_ He]. unfold close_open, all_epochs. case_bool_decide as Hb; [done|]. cbn. by rewrite !bind_app, app_nil_r.
Qed.

Lemma cut_message_cases st rows :
  ∃ st', (st' = st ∨ st' = close_open st) ∧
    let st2 := (st'.1, (add_message config 0 0 st'.2 rows).1.1) in
    cut_message config st rows = st2 ∨ cut_message config st rows = close_open st2.
Proof.
  unfold cut_message. set (st' := if rotates config st.2 rows.*1 then close_open st else st). exists st'.
  split; [unfold st'; destruct (rotates _ _ _); auto|]. cbn zeta.
  destruct (add_message config 0 0 st'.2 rows) as [[e s] ends]. cbn. destruct ends; auto.
Qed.

Lemma add_epoch_rows now id e rows : epoch_rows (add_message config now id e rows).1.1 = epoch_rows e ++ rows.
Proof.
  unfold epoch_rows. rewrite add_message_rows, fmap_app, <-list_fmap_compose.
  change (snd ∘ pair id) with (λ x : Row, x). by rewrite list_fmap_id.
Qed.

Lemma cut_message_ok st rows : cut_ok st → cut_ok (cut_message config st rows).
Proof.
  intros Hst. destruct (cut_message_cases st rows) as (st' & Hst' & Hcut). cbn zeta in Hcut.
  assert (cut_ok st') as Hok' by (destruct Hst' as [-> | ->]; auto using close_open_ok).
  assert (cut_ok (st'.1, (add_message config 0 0 st'.2 rows).1.1)) as Hok2.
  { split; [apply Hok'|]. by apply add_message_ok, Hok'. }
  destruct Hcut as [-> | ->]; auto using close_open_ok.
Qed.
Lemma cut_message_rows st rows :
  cut_ok st → (all_epochs (cut_message config st rows) ≫= epoch_rows) = (all_epochs st ≫= epoch_rows) ++ rows.
Proof.
  intros Hst. destruct (cut_message_cases st rows) as (st' & Hst' & Hcut). cbn zeta in Hcut.
  assert (cut_ok st' ∧ (all_epochs st' ≫= epoch_rows) = (all_epochs st ≫= epoch_rows)) as [Hok' Hrows].
  { destruct Hst' as [-> | ->]; [done|]. split; [by apply close_open_ok|by apply close_open_rows]. }
  rewrite <-Hrows. assert (all_epochs (st'.1, (add_message config 0 0 st'.2 rows).1.1) ≫= epoch_rows = (all_epochs st' ≫= epoch_rows) ++ rows) as E.
  { unfold all_epochs. cbn [fst snd]. rewrite !bind_app. cbn. by rewrite add_epoch_rows, !app_nil_r, app_assoc. }
  destruct Hcut as [-> | ->]; [done|]. rewrite close_open_rows; [done|]. split; [apply Hok'|]. by apply add_message_ok, Hok'.
Qed.

Lemma cut_inv l : cut_ok (cut config l) ∧ (all_epochs (cut config l) ≫= epoch_rows) = mjoin (omap arrived l).
Proof.
  unfold cut. induction l as [|a l IH] using rev_ind; [split; [split; [constructor|apply epoch_default_ok]|done]|].
  rewrite foldl_app, omap_app, join_app. cbn [foldl]. destruct IH as [Hok Hrows]. destruct a as [rows|]; cbn; rewrite app_nil_r.
  - split; [by apply cut_message_ok|]. by rewrite cut_message_rows, Hrows by done.
  - split; [by apply close_open_ok|]. by rewrite close_open_rows, Hrows by done.
Qed.

(** *** Earlier epochs do not matter *)
Lemma close_open_log log st : close_open (log ++ st.1, st.2) = (log ++ (close_open st).1, (close_open st).2).
Proof. unfold close_open. cbn. case_bool_decide; cbn; [done|]. by rewrite app_assoc. Qed.
Lemma cut_message_log log st rows :
  cut_message config (log ++ st.1, st.2) rows = (log ++ (cut_message config st rows).1, (cut_message config st rows).2).
Proof.
  unfold cut_message. cbn [snd]. destruct (rotates config st.2 rows.*1).
  - rewrite close_open_log. cbn [fst snd]. destruct (add_message config 0 0 (close_open st).2 rows) as [[e s] []]; [|done].
    apply (close_open_log log ((close_open st).1, e)).
  - cbn [fst snd]. destruct (add_message config 0 0 st.2 rows) as [[e s] []]; [|done]. apply (close_open_log log (st.1, e)).
Qed.
Lemma cut_arrival_log log st a :
  cut_arrival config (log ++ st.1, st.2) a = (log ++ (cut_arrival config st a).1, (cut_arrival config st a).2).
Proof. destruct a; [apply cut_message_log|apply close_open_log]. Qed.
Lemma cut_from_log log st l :
  foldl (cut_arrival config) (log ++ st.1, st.2) l = (log ++ (foldl (cut_arrival config) st l).1, (foldl (cut_arrival config) st l).2).
Proof. revert st. induction l as [|a l IH]; intros st; cbn [foldl]; [done|]. by rewrite cut_arrival_log, IH. Qed.

(** More messages close more epochs, after those already closed. *)
Lemma cut_prefix l1 l2 : ∃ more, (cut config (l1 ++ l2)).1 = (cut config l1).1 ++ more.
Proof.
  unfold cut. rewrite foldl_app. destruct (foldl (cut_arrival config) ([], Epoch_default) l1) as [log e].
  pose proof (cut_from_log log ([], e) l2) as E. cbn [fst snd] in E. rewrite app_nil_r in E. rewrite E. cbn. eauto.
Qed.

(** *** The place of a row in its delivery does not matter *)
Lemma rotates_unplaced e rows : rotates config e (unplaced <$> rows) = rotates config e rows.
Proof. unfold rotates, first_main, record_time. rewrite main_unplaced, omap_unplaced. by destruct (filter _ rows). Qed.

Lemma buffer_rows_unplaced acc rows : foldl (buffer_row config) acc (strip <$> rows) = foldl (buffer_row config) acc rows.
Proof. revert acc. induction rows as [|[r b] rows IH]; intros acc; [done|]. cbn [fmap list_fmap foldl]. by rewrite IH. Qed.

Lemma add_message_unplaced e e' rows :
  same_buffering e e' →
  same_buffering (add_message config 0 0 e rows).1.1 (add_message config 0 0 e' (strip <$> rows)).1.1 ∧
  (add_message config 0 0 e rows).2 = (add_message config 0 0 e' (strip <$> rows)).2.
Proof.
  intros (Hb & Hr & Ht & Hm & Hs). unfold add_message, same_buffering. rewrite Hb, buffer_rows_unplaced, unplaced_rows.
  destruct (foldl (buffer_row config) (buffers e', 0, 0, false) rows) as [[[m retained] serialized] limit]. cbn.
  unfold last_main, record_time. rewrite main_unplaced, omap_unplaced, fmap_last, Hr, Ht, Hm.
  split; [|done]. split_and!; [done..| |by destruct (last _)|].
  - destruct (first_seen e), (first_seen e'); unfold is_Some in Hs; naive_solver.
  - destruct (first_seen e), (first_seen e'); split; eauto.
Qed.

Definition same_cut (st st' : list Epoch * Epoch) : Prop := Forall2 same_buffering st.1 st'.1 ∧ same_buffering st.2 st'.2.
Lemma close_open_same st st' : same_cut st st' → same_cut (close_open st) (close_open st').
Proof.
  intros [Hl He]. unfold close_open, same_cut. rewrite (proj1 He). case_bool_decide; [done|]. cbn. split; [|by repeat split].
  apply Forall2_app; [done|]. by constructor.
Qed.

Lemma cut_message_same st st' rows : same_cut st st' → same_cut (cut_message config st rows) (cut_message config st' (strip <$> rows)).
Proof.
  intros Hst. unfold cut_message. rewrite unplaced_rows, rotates_unplaced.
  assert (rotates config st'.2 rows.*1 = rotates config st.2 rows.*1) as ->.
  { unfold rotates. destruct Hst as [_ (_ & _ & Ht & Hm & _)]. by rewrite Ht, Hm. }
  assert (same_cut (if rotates config st.2 rows.*1 then close_open st else st) (if rotates config st.2 rows.*1 then close_open st' else st')) as Hst1.
  { destruct (rotates _ _ _); auto using close_open_same. }
  generalize dependent (if rotates config st.2 rows.*1 then close_open st else st).
  generalize dependent (if rotates config st.2 rows.*1 then close_open st' else st'). intros st1' st1 Hst1.
  destruct (add_message_unplaced _ _ rows (proj2 Hst1)) as [Ha He].
  destruct (add_message config 0 0 st1.2 rows) as [[e1 x1] ends1], (add_message config 0 0 st1'.2 _) as [[e2 x2] ends2]. cbn in Ha, He. subst ends2.
  assert (same_cut (st1.1, e1) (st1'.1, e2)) by (split; [apply Hst1|done]).
  destruct ends1; auto using close_open_same.
Qed.

Lemma cut_unplaced l : same_cut (cut config (Arrived <$> l)) (cut config (Arrived <$> stripped l)).
Proof.
  unfold cut. induction l as [|rows l IH] using rev_ind; [by repeat split|].
  unfold stripped. rewrite !fmap_app, !foldl_app. by apply cut_message_same.
Qed.

(** *** Epochs follow the order of the source *)
Definition before (l k : list Row) : Prop := ∀ x y, x ∈ l → y ∈ k → offset (route x.1) < offset (route y.1).
Definition in_order (l : list (list Row)) : Prop := StronglySorted before l.

Lemma in_order_snoc l x : in_order (l ++ [x]) ↔ in_order l ∧ Forall (λ y, before y x) l.
Proof.
  unfold in_order. induction l as [|y l IH]; cbn; [split; [split; constructor|by repeat constructor]|]. split.
  - intros Hs. apply StronglySorted_inv in Hs as [Hs Hf]. apply Forall_app in Hf as [Hf Hx]. rewrite Forall_singleton in Hx.
    apply IH in Hs as [? ?]. split; constructor; auto.
  - intros [[Hs Hf]%StronglySorted_inv Hx]. apply Forall_cons in Hx as [Hyx Hx]. constructor; [by apply IH|].
    apply Forall_app. split; [done|]. by apply Forall_singleton.
Qed.

Lemma in_order_before l k : in_order (l ++ [k]) → before (mjoin l) k.
Proof.
  intros [_ Hf]%in_order_snoc x y Hx Hy. apply list_elem_of_join in Hx as (r & Hx & Hr). rewrite Forall_forall in Hf. by eapply Hf.
Qed.

Definition ordered_epochs (l : list Epoch) : Prop := in_order (epoch_rows <$> l).

Lemma close_open_ordered st : ordered_epochs (all_epochs st) → ordered_epochs (all_epochs (close_open st)).
Proof.
  unfold ordered_epochs, all_epochs, close_open. case_bool_decide; [done|]. cbn. rewrite !fmap_app. cbn. intros Hs.
  apply in_order_snoc. split; [done|]. apply Forall_forall. intros r _ x y _ Hy. by apply not_elem_of_nil in Hy.
Qed.

Lemma add_ordered st rows :
  before (all_epochs st ≫= epoch_rows) rows → ordered_epochs (all_epochs st) →
  ordered_epochs (all_epochs (st.1, (add_message config 0 0 st.2 rows).1.1)).
Proof.
  intros Hb. unfold ordered_epochs, all_epochs in *. cbn [fst snd]. rewrite !fmap_app. cbn. rewrite add_epoch_rows.
  intros [Hs Hf]%in_order_snoc. apply in_order_snoc. split; [done|]. rewrite Forall_forall in *.
  intros r Hr x y Hx [Hy|Hy]%elem_of_app; [by eapply Hf|]. apply Hb; [|done]. rewrite bind_app. apply elem_of_app. left.
  apply list_elem_of_fmap in Hr as (e & -> & He). apply list_elem_of_bind. eauto.
Qed.

Lemma cut_ordered l : in_order (omap arrived l) → ordered_epochs (all_epochs (cut config l)).
Proof.
  unfold cut. induction l as [|a l IH] using rev_ind; intros Hs; [by repeat constructor|].
  rewrite foldl_app. cbn [foldl]. rewrite omap_app in Hs. destruct a as [rows|]; cbn in Hs.
  2:{ rewrite app_nil_r in Hs. cbn. by apply close_open_ordered, IH. }
  pose proof (in_order_before _ _ Hs) as Hb. apply in_order_snoc in Hs as [Hs _].
  specialize (IH Hs). destruct (cut_inv l) as [Hok Hrows]. unfold cut in Hok, Hrows. rewrite <-Hrows in Hb. cbn [cut_arrival].
  set (st := foldl (cut_arrival config) ([], Epoch_default) l) in *.
  destruct (cut_message_cases st rows) as (st' & Hst' & Hcut). cbn zeta in Hcut.
  assert (ordered_epochs (all_epochs (st'.1, (add_message config 0 0 st'.2 rows).1.1))) as H2.
  { apply add_ordered; destruct Hst' as [-> | ->]; auto using close_open_ordered. by rewrite close_open_rows. }
  destruct Hcut as [-> | ->]; auto using close_open_ordered.
Qed.
End cutting.

(** ** No object replaces another *)
Section unique.
Context `{ObjectStorePath} (config : S3ActorConfig).

(** The tables of the rows are path segments. *)
Definition tables_ok (l : list Row) : Prop := ∀ x, x ∈ l → path_part (rr_table x.1) = true.

Lemma start_offset_row x l : ∃ y, y ∈ x :: l ∧ start_offset (object_of x l) = offset (route y.1).
Proof.
  unfold object_of. cbn. induction l as [|z l IH] using rev_ind; cbn; [exists x; split; [by left|done]|].
  rewrite foldl_app. cbn. destruct IH as (y & Hy & ->). rewrite app_comm_cons.
  destruct (Z.min_dec (offset (route y.1)) (offset (route z.1))) as [-> | ->]; [exists y|exists z];
    (split; [apply elem_of_app; rewrite ?list_elem_of_singleton; auto|done]).
Qed.

Lemma close_buffer_Ok id kb o :
  close_buffer config id kb = Ok o →
  for_json_object (prefix config) kb.1.1 kb.1.2 (ob_topic kb.2) (ob_partition kb.2) (start_offset kb.2) = Ok (co_key o) ∧
  co_payload o = ob_payload kb.2 ∧ co_rows o = ob_rows kb.2 ∧ co_epoch_id o = id.
Proof. unfold close_buffer. destruct (for_json_object _ _ _ _ _ _) as [key|]; [|done]. by intros [= <-]. Qed.

Lemma closed_object e id kb o :
  epoch_ok e → tables_ok (epoch_rows e) → kb ∈ bt_iter key_le (buffers e) → close_buffer config id kb = Ok o →
  ∃ x t p, x ∈ epoch_rows e ∧ row_key x.1 = kb.1 ∧ path_part kb.1.1 = true ∧
    for_json_object (prefix config) kb.1.1 kb.1.2 t p (offset (route x.1)) = Ok (co_key o).
Proof.
  intros Hb Ht Hin [Hc _]%close_buffer_Ok. destruct kb as [k b]. cbn [fst snd] in Hc |- *. rewrite bt_iter_perm, elem_of_map_to_list in Hin. rewrite Hb in Hin.
  unfold objects_of in Hin. fold (epoch_rows e) in Hin.
  assert (∀ y, y ∈ rows_of k (epoch_rows e) → y ∈ epoch_rows e ∧ row_key y.1 = k) as Hrows.
  { intros y Hy. unfold rows_of in Hy. apply list_elem_of_filter in Hy. tauto. }
  destruct (rows_of k (epoch_rows e)) as [|x l]; [done|]. injection Hin as <-.
  destruct (start_offset_row x l) as (y & Hy & Eo). destruct (Hrows y Hy) as [Hye <-].
  exists y, (ob_topic (object_of x l)), (ob_partition (object_of x l)). split_and!; [done|done|by apply Ht|]. by rewrite <-Eo.
Qed.

Lemma epoch_keys_unique e id os :
  epoch_ok e → tables_ok (epoch_rows e) → close_buffers config id e = Ok os → NoDup (co_key <$> os).
Proof.
  intros Hok Ht Hos%mapM_Ok. apply NoDup_alt. intros i j key Hi Hj. rewrite list_lookup_fmap in Hi, Hj.
  apply fmap_Some in Hi as (o1 & Hi & ->), Hj as (o2 & Hj & Ek).
  destruct (Forall2_lookup_r _ _ _ i o1 Hos Hi) as (kb1 & Hk1 & C1). destruct (Forall2_lookup_r _ _ _ j o2 Hos Hj) as (kb2 & Hk2 & C2).
  destruct (closed_object e id kb1 o1) as (x1 & t1 & p1 & _ & _ & P1 & F1); [by eauto using list_elem_of_lookup_2..|].
  destruct (closed_object e id kb2 o2) as (x2 & t2 & p2 & _ & _ & P2 & F2); [by eauto using list_elem_of_lookup_2..|].
  rewrite <-Ek in F2. destruct (json_key_inj _ _ _ _ _ _ _ _ _ _ _ _ P1 P2 F1 F2) as (Et & Ep & _).
  assert (kb1.1 = kb2.1) as Ekb by (destruct (kb1.1), (kb2.1); cbn in *; congruence).
  eapply (NoDup_lookup (bt_iter key_le (buffers e)).*1 i j kb1.1); [apply NoDup_bt_iter|by rewrite list_lookup_fmap, Hk1|].
  by rewrite list_lookup_fmap, Hk2, Ekb.
Qed.

(** The objects of the epochs [es]. *)
Definition closed_as (es : list Epoch) (oss : list (list ClosedObject)) : Prop :=
  Forall2 (λ e os, ∃ id, close_buffers config id e = Ok os) es oss.

Lemma keys_unique es oss :
  Forall epoch_ok es → ordered_epochs es → tables_ok (es ≫= epoch_rows) → closed_as es oss → NoDup (co_key <$> mjoin oss).
Proof.
  intros Hok Hord Ht Hcl. induction Hcl as [|e os es oss [id He] Hcl IH]; [constructor|].
  apply Forall_cons in Hok as [Hoke Hok]. unfold ordered_epochs in Hord. cbn in Hord. apply StronglySorted_inv in Hord as [Hord Hbef].
  assert (tables_ok (epoch_rows e) ∧ tables_ok (es ≫= epoch_rows)) as [Hte Htes].
  { unfold tables_ok in *. cbn in Ht. split; intros x Hx; apply Ht, elem_of_app; auto. }
  cbn. rewrite fmap_app. apply NoDup_app. split_and!; [by eapply epoch_keys_unique| |by apply IH].
  intros key (o1 & -> & H1)%list_elem_of_fmap (o2 & Ek & H2)%list_elem_of_fmap.
  apply list_elem_of_join in H2 as (os2 & H2 & Hos2). apply list_elem_of_lookup in Hos2 as [j Hj].
  destruct (Forall2_lookup_r _ _ _ j os2 Hcl Hj) as (e2 & Hj2 & id2 & He2). apply mapM_Ok in He, He2.
  apply list_elem_of_lookup in H1 as [i1 H1], H2 as [i2 H2].
  destruct (Forall2_lookup_r _ _ _ i1 o1 He H1) as (kb1 & Hk1 & C1). destruct (Forall2_lookup_r _ _ _ i2 o2 He2 H2) as (kb2 & Hk2 & C2).
  assert (epoch_ok e2) as Hok2 by (rewrite Forall_forall in Hok; apply Hok; by eapply list_elem_of_lookup_2).
  assert (tables_ok (epoch_rows e2)) as Ht2.
  { intros x Hx. apply Htes, list_elem_of_bind. exists e2. split; [done|by eapply list_elem_of_lookup_2]. }
  destruct (closed_object e id kb1 o1) as (x1 & t1 & p1 & Hx1 & _ & P1 & F1); [by eauto using list_elem_of_lookup_2..|].
  destruct (closed_object e2 id2 kb2 o2) as (x2 & t2 & p2 & Hx2 & _ & P2 & F2); [by eauto using list_elem_of_lookup_2..|].
  rewrite <-Ek in F2. destruct (json_key_inj _ _ _ _ _ _ _ _ _ _ _ _ P1 P2 F1 F2) as (_ & _ & _ & _ & Eo).
  rewrite Forall_fmap, Forall_forall in Hbef. pose proof (Hbef e2 (list_elem_of_lookup_2 _ _ _ Hj2) x1 x2 Hx1 Hx2). cbn in *. lia.
Qed.
End unique.
