(* ===== verification/S3Cut.v ===== *)
(** * Where the epochs of the S3 sink end

    A reference for the epochs and objects of [S3Epochs.v] that keeps no state but the
    messages of the open epoch: whether a message ends it, and the objects of its rows, are
    computed from those messages.  The counters, limits and buffers that the sink maintains
    agree with it ([cut_reference]). *)

From stdpp Require Import base tactics numbers option strings gmap fin_maps sorting list.
From S2P Require Import Prelude DeliveryId S3Objects S3Partition S3Journal S3Epochs.
Local Open Scope Z_scope.

(** The fields of the configuration are machine integers. *)
Record machine_config (config : S3ActorConfig) : Prop := {
  mc_rows : max_rows config ≤ usize_max;
  mc_limit : epoch_byte_limit config ≤ usize_max;
  mc_interval i : record_time_interval config = Some i → 0 ≤ i
}.

(** ** The reference *)

(** The paths of the rows that are not dead letters, and the times of the rows that have one. *)
Definition main_paths (l : list Row) : list string :=
  omap (λ x, if rr_is_dlq x.1 then None else Some (partition_path (route x.1))) l.
Definition row_times (l : list Row) : list Z := omap (λ x, record_time_ms (route x.1)) l.
(** The memory held for a row. *)
Definition row_memory (x : Row) : Z :=
  Z.of_nat (length x.2) + 128 + string_len (rr_table x.1) + string_len (topic (route x.1)) + string_len (partition_path (route x.1)).
(** The objects rows belong to. *)
Definition object_keys (l : list Row) : list BufferKey := remove_dups ((λ x, row_key x.1) <$> l).

Section reference.
Context (config : S3ActorConfig).

(** The first main path of the message differs from the last one of the epoch. *)
Definition path_changes (open : list (list Row)) (m : list Row) : bool :=
  match last (main_paths (mjoin open)), head (main_paths m) with
  | Some previous, Some path => negb (bool_decide (previous = path))
  | _, _ => false
  end.
(** The message is an interval later than the first message of the epoch. *)
Definition time_passes (interval : Z) (open : list (list Row)) (m : list Row) : bool :=
  match head open ≫= λ first, head (row_times first), head (row_times m) with
  | Some base, Some time => bool_decide (interval `min` i64_max ≤ time - base)
  | _, _ => false
  end.
(** The epoch ends before the message. *)
Definition ends_before (open : list (list Row)) (m : list Row) : bool :=
  (bool_decide (on_partition_path_change config = Rotate) && path_changes open m)
  || match record_time_interval config with Some interval => time_passes interval open m | None => false end.

(** The object [k] of the rows [l] is large enough. *)
Definition object_full (l : list Row) (k : BufferKey) : bool :=
  bool_decide (max_rows config ≤ Z.of_nat (length (rows_of k l))) ||
  bool_decide (max_bytes config ≤ Z.of_nat (length (rows_of k l ≫= snd))).
(** The epoch of the rows [l] ends after its last message [m]. *)
Definition ends_after (l m : list Row) : bool :=
  existsb (λ x, object_full l (row_key x.1)) m
  || bool_decide (max_epoch_buffers config < Z.of_nat (length (object_keys l)))
  || bool_decide (epoch_byte_limit config ≤ lsum row_memory l).

(** The messages of the epochs that have ended, and those of the open one. *)
Definition Split : Type := list (list (list Row)) * list (list Row).
Definition end_epoch (st : Split) : Split := if bool_decide (mjoin st.2 = []) then st else (st.1 ++ [st.2], []).
Definition arrive (st : Split) (a : Arrival) : Split :=
  match a with
  | Forced => end_epoch st
  | Arrived m =>
      let st := if ends_before st.2 m then end_epoch st else st in
      let st := (st.1, st.2 ++ [m]) in
      if ends_after (mjoin st.2) m then end_epoch st else st
  end.
Definition split_epochs (l : list Arrival) : Split := foldl arrive ([], []) l.

(** The objects of rows: by table and path, the rows of each in their order. *)
Definition row_objects (l : list Row) : gmap BufferKey ObjectBuffer :=
  list_to_map (omap (λ k, (k,.) <$> objects_of l k) (object_keys l)).
End reference.

Lemma row_objects_lookup l k : row_objects l !! k = objects_of l k.
Proof.
  unfold row_objects. destruct (objects_of l k) as [b|] eqn:E.
  - apply elem_of_list_to_map_1.
    + apply NoDup_fmap_fst.
      * intros k' b1 b2 (k1 & _ & H1)%list_elem_of_omap (k2 & _ & H2)%list_elem_of_omap.
        apply fmap_Some in H1 as (? & H1 & [= <- <-]), H2 as (? & H2 & [= <- <-]). congruence.
      * assert (NoDup (object_keys l)) as Hnd by apply NoDup_remove_dups. induction Hnd as [|k' ks Hk _ IH]; [constructor|].
        cbn. destruct (objects_of l k'); cbn; [|done]. constructor; [|done]. intros (k2 & Hk2 & H2)%list_elem_of_omap.
        apply fmap_Some in H2 as (? & _ & [= <- _]). done.
    + apply list_elem_of_omap. exists k. split; [|by rewrite E]. unfold object_keys. apply elem_of_remove_dups.
      unfold objects_of in E. destruct (rows_of k l) as [|x r] eqn:Er; [done|].
      assert (x ∈ rows_of k l) as Hx by (rewrite Er; by left). unfold rows_of in Hx. apply list_elem_of_filter in Hx as [<- Hx].
      apply list_elem_of_fmap. eauto.
  - apply not_elem_of_list_to_map_1. intros ([k' b] & -> & H1)%list_elem_of_fmap. apply list_elem_of_omap in H1 as (k2 & _ & H2).
    apply fmap_Some in H2 as (? & H2 & [= <- <-]). cbn in E. congruence.
Qed.

(** ** The epoch of the sink *)
Record holds_messages (e : Epoch) (open : list (list Row)) : Prop := {
  hm_ok : epoch_ok e;
  hm_rows : epoch_rows e = mjoin open;
  hm_memory : retained_bytes e = lsum row_memory (mjoin open) `min` usize_max;
  hm_time : record_time_base_ms e = head open ≫= λ first, head (row_times first);
  hm_path : last_main_partition e = last (main_paths (mjoin open));
  hm_seen : is_Some (first_seen e) ↔ open ≠ []
}.

Lemma holds_nothing : holds_messages Epoch_default [].
Proof. split; try done. cbn. split; [by intros []|done]. Qed.

Lemma holds_buffers e open : holds_messages e open → buffers e = row_objects (mjoin open).
Proof. intros [Hok Hr _ _ _ _]. apply map_eq. intros k. rewrite row_objects_lookup, <-Hr. apply Hok. Qed.

Lemma main_first (m : list Row) : (λ r, partition_path (route r)) <$> first_main m.*1 = head (main_paths m).
Proof.
  unfold first_main. induction m as [|[r b] m IH]; [done|]. cbn [fmap list_fmap fst main_paths omap list_omap]. rewrite filter_cons.
  destruct (rr_is_dlq r) eqn:E; [rewrite decide_False by done; exact IH|]. by rewrite decide_True by done.
Qed.
Lemma main_last (m : list Row) : (λ r, partition_path (route r)) <$> last_main m.*1 = last (main_paths m).
Proof.
  unfold last_main. rewrite <-fmap_last. f_equal. induction m as [|[r b] m IH]; [done|]. cbn [fmap list_fmap fst main_paths omap list_omap].
  rewrite filter_cons. destruct (rr_is_dlq r) eqn:E; [rewrite decide_False by done; exact IH|]. rewrite decide_True by done. cbn. by rewrite IH.
Qed.
Lemma first_time (m : list Row) : record_time m.*1 = head (row_times m).
Proof.
  unfold record_time, row_times. f_equal. induction m as [|[r b] m IH]; [done|]. cbn. rewrite IH. by destruct (record_time_ms (route r)).
Qed.

Lemma last_app_main (l m : list Row) :
  last (main_paths (l ++ m)) = match last (main_paths m) with Some p => Some p | None => last (main_paths l) end.
Proof.
  unfold main_paths. rewrite omap_app. fold (main_paths l). fold (main_paths m). generalize (main_paths m). intros k.
  destruct k as [|p k _] using rev_ind; [by rewrite app_nil_r|]. by rewrite app_assoc, !last_snoc.
Qed.

Lemma row_memory_nonneg x : 0 ≤ row_memory x.
Proof. unfold row_memory. pose proof (string_len_nonneg (rr_table x.1)). pose proof (string_len_nonneg (topic (route x.1))). pose proof (string_len_nonneg (partition_path (route x.1))). lia. Qed.
Lemma retained_memory x : routed_row_retained_bytes x.1 (Z.of_nat (length x.2)) = row_memory x `min` usize_max.
Proof.
  unfold routed_row_retained_bytes, row_memory, ROUTE_RETAINED_OVERHEAD_BYTES, saturating_add.
  pose proof (string_len_nonneg (rr_table x.1)). pose proof (string_len_nonneg (topic (route x.1))). pose proof (string_len_nonneg (partition_path (route x.1))). lia.
Qed.

Lemma saturating_min a b : 0 ≤ a → saturating_add usize_max a (b `min` usize_max) = (a + b) `min` usize_max.
Proof. unfold saturating_add. lia. Qed.

Lemma saturating_mins a b : 0 ≤ a → 0 ≤ b → saturating_add usize_max (a `min` usize_max) (b `min` usize_max) = (a + b) `min` usize_max.
Proof. unfold saturating_add, usize_max, u64_max. lia. Qed.

Section agree.
Context (config : S3ActorConfig) (Hconfig : machine_config config).

Lemma rotates_reference e open m : holds_messages e open → rotates config e m.*1 = ends_before config open m.
Proof.
  intros [_ _ _ Ht Hp _]. unfold rotates, ends_before. f_equal.
  - f_equal. unfold path_changes. rewrite <-Hp, <-main_first. destruct (first_main m.*1), (last_main_partition e); done.
  - rewrite first_time, Ht. destruct (record_time_interval config) as [i|] eqn:Ei; [|done]. pose proof (mc_interval _ Hconfig i Ei) as Hi.
    unfold time_passes. destruct (head (row_times m)) as [t|], (head open ≫= _) as [base|]; try done.
    apply bool_decide_ext. unfold i64_saturating_sub, i64_max. lia.
Qed.

Lemma object_full_mono l l' k : object_full config l k = true → object_full config (l ++ l') k = true.
Proof.
  unfold object_full. rewrite rows_of_app, bind_app, !length_app, !orb_true_iff, !bool_decide_eq_true. lia.
Qed.
Lemma object_full_same l l' k : (∀ x, x ∈ l' → row_key x.1 ≠ k) → object_full config (l ++ l') k = object_full config l k.
Proof.
  intros Hk. unfold object_full. rewrite rows_of_app. assert (rows_of k l' = []) as ->; [|by rewrite app_nil_r].
  induction l' as [|x l' IH]; [done|]. unfold rows_of. rewrite filter_cons_False by (apply Hk; by left). apply IH. intros y Hy. apply Hk. by right.
Qed.

(** An object is checked when a row enters it; the last row of the message decides. *)
Lemma full_at_last (l : list Row) (x : Row) (rows : list Row) :
  object_full config (l ++ [x]) (row_key x.1) || existsb (λ y : Row, object_full config (l ++ x :: rows) (row_key y.1)) rows =
  object_full config (l ++ x :: rows) (row_key x.1) || existsb (λ y : Row, object_full config (l ++ x :: rows) (row_key y.1)) rows.
Proof.
  destruct (existsb (λ y : Row, object_full config (l ++ x :: rows) (row_key y.1)) rows) eqn:Ee; [by rewrite !orb_true_r|].
  rewrite !orb_false_r. symmetry. rewrite (cons_middle x l rows), app_assoc in *.
  destruct (object_full config (l ++ [x]) (row_key x.1)) eqn:Ef; [by apply object_full_mono|].
  destruct (decide (Exists (λ y : Row, row_key y.1 = row_key x.1) rows)) as [(y & Hy & Ek)%Exists_exists|Hno].
  - apply not_true_iff_false in Ee. apply not_true_iff_false. intros Hfull. apply Ee, existsb_exists. exists y.
    split; [by apply list_elem_of_In|]. by rewrite Ek.
  - rewrite <-Ef. apply object_full_same. intros y Hy Ek. apply Hno, Exists_exists. eauto.
Qed.

(** One row: the memory it takes, and whether its object is full. *)
Lemma buffer_row_step m a b c x :
  ∃ o b', buffer_row config (m, a, b, c) x =
    (<[row_key x.1 := o]> m, saturating_add usize_max a (routed_row_retained_bytes x.1 (Z.of_nat (length x.2))), b',
     c || (bool_decide (max_rows config ≤ ob_rows o) || bool_decide (max_bytes config ≤ Z.of_nat (length (ob_payload o))))).
Proof. destruct x as [row bytes]. eexists _, _. unfold buffer_row. by rewrite <-orb_assoc. Qed.

Lemma object_of_full l o k :
  objects_of l k = Some o →
  bool_decide (max_rows config ≤ ob_rows o) || bool_decide (max_bytes config ≤ Z.of_nat (length (ob_payload o))) = object_full config l k.
Proof.
  unfold objects_of, object_full. destruct (rows_of k l) as [|x r]; [done|]. intros Ho%(inj Some). subst o.
  change (ob_rows (object_of x r)) with (Z.of_nat (S (length r)) `min` usize_max). change (ob_payload (object_of x r)) with ((x :: r) ≫= snd).
  f_equal. apply bool_decide_ext. pose proof (mc_rows _ Hconfig). change (length (x :: r)) with (S (length r)). lia.
Qed.

Lemma buffer_row_reference prior m a b c x m1 a1 b1 c1 :
  (∀ k, m !! k = objects_of prior k) → 0 ≤ a → buffer_row config (m, a, b, c) x = (m1, a1, b1, c1) →
  a1 = (a + row_memory x) `min` usize_max ∧ c1 = c || object_full config (prior ++ [x]) (row_key x.1).
Proof.
  intros Hm Ha E. pose proof (buffer_row_lookup _ _ _ _ _ _ _ _ _ _ _ Hm E (row_key x.1)) as Hx.
  destruct (buffer_row_step m a b c x) as (o & b' & E'). rewrite E' in E. apply pair_eq in E as [E Ec].
  apply pair_eq in E as [E _]. apply pair_eq in E as [<- <-].
  rewrite lookup_insert_eq in Hx. rewrite retained_memory, saturating_min by done. split; [done|].
  rewrite <-Ec. f_equal. by apply object_of_full.
Qed.

(** The loop over the rows of a message. *)
Lemma buffer_rows_reference rows prior m a b c m' a' b' c' :
  (∀ k, m !! k = objects_of prior k) → 0 ≤ a ≤ usize_max → foldl (buffer_row config) (m, a, b, c) rows = (m', a', b', c') →
  a' = (a + lsum row_memory rows) `min` usize_max ∧
  c' = c || existsb (λ x : Row, object_full config (prior ++ rows) (row_key x.1)) rows.
Proof.
  revert prior m a b c. induction rows as [|x rows IH]; intros prior m a b c Hm Ha Hf.
  { cbn in Hf. simplify_eq. split; [unfold lsum; cbn; lia|]. cbn. by rewrite orb_false_r. }
  cbn [foldl] in Hf. destruct (buffer_row config (m, a, b, c) x) as [[[m1 a1] b1] c1] eqn:E.
  pose proof (buffer_row_lookup _ _ _ _ _ _ _ _ _ _ _ Hm E) as Hm1. pose proof (row_memory_nonneg x) as Hx.
  destruct (buffer_row_reference _ _ _ _ _ _ _ _ _ _ Hm (proj1 Ha) E) as [Ea Ec].
  assert (0 ≤ a1 ≤ usize_max) as Ha1 by lia. destruct (IH (prior ++ [x]) _ _ _ _ Hm1 Ha1 Hf) as [Ea' Ec']. clear IH Hf E Hm Hm1.
  assert (0 ≤ lsum row_memory rows) by (apply lsum_nonneg; intros; apply row_memory_nonneg).
  rewrite <-app_assoc in Ec'. rewrite lsum_cons. split; [lia|]. rewrite Ec', Ec, <-orb_assoc. f_equal. apply full_at_last.
Qed.
Lemma buffers_size e open : holds_messages e open → size (buffers e) = length (object_keys (mjoin open)).
Proof.
  intros Hm. rewrite <-size_dom. assert (dom (buffers e) = list_to_set (object_keys (mjoin open))) as ->.
  - apply set_eq. intros k. rewrite elem_of_dom, (holds_buffers _ _ Hm), row_objects_lookup, elem_of_list_to_set. unfold object_keys.
    rewrite elem_of_remove_dups, list_elem_of_fmap. unfold objects_of, is_Some. split.
    + intros [b Hb]. destruct (rows_of k (mjoin open)) as [|x r] eqn:Er; [done|]. assert (x ∈ rows_of k (mjoin open)) as Hx by (rewrite Er; by left).
      unfold rows_of in Hx. apply list_elem_of_filter in Hx as [<- Hx]. eauto.
    + intros (x & -> & Hx). assert (x ∈ rows_of (row_key x.1) (mjoin open)) as Hin by (by apply list_elem_of_filter).
      destruct (rows_of (row_key x.1) (mjoin open)); [by apply not_elem_of_nil in Hin|eauto].
  - apply size_list_to_set, NoDup_remove_dups.
Qed.

Lemma add_reference now id e open m :
  holds_messages e open →
  holds_messages (add_message config now id e m).1.1 (open ++ [m]) ∧
  (add_message config now id e m).2 = ends_after config (mjoin (open ++ [m])) m.
Proof.
  intros Hm. destruct (foldl (buffer_row config) (buffers e, 0, 0, false) m) as [[[bs retained] serialized] limit] eqn:Ef.
  destruct (buffer_rows_reference m (mjoin open) (buffers e) 0 0 false bs retained serialized limit) as [Er El];
    [intros k; by rewrite (holds_buffers _ _ Hm), row_objects_lookup|unfold usize_max, u64_max; lia|done|].
  assert (mjoin (open ++ [m]) = mjoin open ++ m) as Hj by (rewrite join_app; cbn; by rewrite app_nil_r).
  assert (0 ≤ lsum row_memory (mjoin open)) by (apply lsum_nonneg; intros; apply row_memory_nonneg).
  assert (0 ≤ lsum row_memory m) by (apply lsum_nonneg; intros; apply row_memory_nonneg).
  assert (holds_messages (add_message config now id e m).1.1 (open ++ [m])) as Hnew.
  { pose proof (add_message_ok config now id e m (hm_ok _ _ Hm)) as Hok. pose proof (add_epoch_rows config now id e m) as Hrows.
    unfold add_message in *. rewrite Ef in *. cbn [fst snd] in *. destruct Hm as [_ Hr Hmem Ht Hp Hs]. split; cbn [fst snd] in *; [done|..].
    - by rewrite Hrows, Hr, Hj.
    - cbn [retained_bytes]. rewrite Hmem, Er, Z.add_0_l, Hj, lsum_app. by apply saturating_mins.
    - cbn [record_time_base_ms]. rewrite first_time. destruct open as [|first open]; cbn.
      + destruct (first_seen e); [|done]. by destruct (proj1 Hs ltac:(done)).
      + destruct (first_seen e); [done|]. destruct (proj2 Hs ltac:(done)). done.
    - cbn [last_main_partition]. rewrite Hj, last_app_main, <-main_last, Hp. by destruct (last_main m.*1).
    - cbn [first_seen]. destruct (first_seen e), open; cbn; split; naive_solver. }
  split; [done|]. pose proof (buffers_size _ _ Hnew) as Hsize. pose proof (hm_memory _ _ Hnew) as Hmem. revert Hsize Hmem.
  unfold add_message. rewrite Ef. cbn [fst snd]. intros -> Hmem. cbn [retained_bytes] in *. rewrite Hmem. unfold ends_after. rewrite El, Hj, orb_assoc.
  cbn [orb]. f_equal. apply bool_decide_ext. pose proof (mc_limit _ Hconfig). lia.
Qed.

(** ** The epochs agree *)
Definition agrees (st : list Epoch * Epoch) (st' : Split) : Prop := Forall2 holds_messages st.1 st'.1 ∧ holds_messages st.2 st'.2.

Lemma close_agrees st st' : agrees st st' → agrees (close_open st) (end_epoch st').
Proof.
  intros [Hl He]. unfold close_open, end_epoch. assert (buffers st.2 = ∅ ↔ mjoin st'.2 = []) as Hempty.
  { rewrite epoch_empty by apply He. rewrite <-(hm_rows _ _ He). unfold epoch_rows. by destruct (ep_rows st.2). }
  case_bool_decide as H1; case_bool_decide as H2; [done|tauto|tauto|]. split; cbn; [|apply holds_nothing].
  apply Forall2_app; [done|]. by constructor.
Qed.

Lemma cut_reference l : agrees (cut config l) (split_epochs config l).
Proof.
  unfold cut, split_epochs. induction l as [|a l IH] using rev_ind; [split; [constructor|apply holds_nothing]|].
  rewrite !foldl_app. cbn [foldl]. generalize dependent (foldl (cut_arrival config) ([], Epoch_default) l).
  generalize (foldl (arrive config) ([], []) l). intros st' st Hst. destruct a as [m|]; cbn [cut_arrival arrive]; [|by apply close_agrees].
  unfold cut_message. rewrite (rotates_reference _ st'.2) by apply Hst.
  assert (agrees (if ends_before config st'.2 m then close_open st else st) (if ends_before config st'.2 m then end_epoch st' else st')) as Hst1
    by (destruct (ends_before _ _ _); auto using close_agrees).
  generalize dependent (if ends_before config st'.2 m then close_open st else st).
  generalize dependent (if ends_before config st'.2 m then end_epoch st' else st'). intros st1' st1 [Hl1 He1]. cbn zeta.
  destruct (add_reference 0 0 _ _ m He1) as [Hnew Hends]. destruct (add_message config 0 0 st1.2 m) as [[e x] ends]. cbn [fst snd] in *.
  rewrite Hends. assert (agrees (st1.1, e) (st1'.1, st1'.2 ++ [m])) by by split. destruct (ends_after _ _ _); [by apply close_agrees|done].
Qed.
End agree.
