(* ===== verification/S3Sink.v ===== *)
(** * The S3 sink

    [S3Sink] of [sink/actor.rs] of [transferia-connector-s3]: deliveries are split into
    source messages, messages are buffered into epochs ([S3Epochs.v]), a closed epoch is
    journaled ([S3Journal.v]) and its objects are uploaded, and a delivery is committed when
    every epoch with rows of it is recorded as closed.

    One turn of the loop of [run_actor] is [turn]; a [Turn] has what the environment
    answers during it: whether the receiver of events is alive, the memory pressure, the
    clock, the storage operations, and what the final [select!] received.  The JSON encoder
    ([json_serializer.rs]) and [sort_unstable_by] are parameters.  A failed write of a row
    leaves its object half written; the sink then fails and its buffers are not read again,
    so the model encodes the rows of a message before it buffers them.  Metrics, log
    messages and the yield after 64 messages are left out.

    [closings], [accepted], [consumed] and [uploaded] are traces: the closed epochs, the
    rows of the accepted deliveries, the messages taken into epochs, and the objects whose
    upload succeeded; they influence no step. *)

From stdpp Require Import base tactics numbers option strings gmap fin_maps sorting relations list.
From S2P Require Import Prelude Bytes DeliveryId DeliveryTracker RowCount Schema Arrow Delivery Changelog Failure Reader Admission Durable DurableStorage DurableRecord S3Objects S3Partition S3Journal S3Epochs.
Local Open Scope Z_scope.

Inductive SinkError :=
| ProjectionMismatch | ProjectFailed | ChangelogDataset | EncodeFailed (e : AnyhowError) | RouteFailed (e : PartitionError)
| PartitionMismatch | TrackerFailed (e : TrackerError) | KeyFailed (e : KeyError) | JournalFailed (e : JournalError)
| UploadFailed (f : DataPlaneFailure) | UploadTask | BufferedUnderflow | InFlightUnderflow | MissingEpoch | EpochUnderflow
| SinkEventsClosed | SinkIncomplete.

Definition E_S3 : nat := 70.
(** The failure [run_session] returns: an error that carries no disposition is retryable. *)
Definition sink_failure (e : SinkError) : DataPlaneFailure :=
  match e with
  | UploadFailed f => f
  | UploadTask | SinkEventsClosed => Failure.retryable_or_passthrough (OtherError E_S3)
  | _ => Failure.fatal E_S3
  end.

Section sink.
Context `{DurableStorage} `{!Json EpochRecord} `{ObjectStorePath, Chrono} (sha256 : list Z → list Z).
Context {AT : ArrowTypes} {AV : ArrowValues} {AC : ArrowCompute}.
Context (partition_text : DataType → option (OtherValue → string)).
Context {Encoder : Type} (JsonBatchEncoder_new : RecordBatch → result AnyhowError Encoder).
Context (write_row : Encoder → nat → result AnyhowError (list Z)).
Context (sort_unstable : list RoutedRow → list RoutedRow).
Context (config : S3ActorConfig) (sink_keep_system_columns : bool) (expected_partition_id : Z).

Record ClosedEpoch := {
  remaining_objects : Z;
  ce_delivery_rows : list (DeliveryId * Z);
  ce_reservations : list Z;
  ce_journal : EpochJournal;
  ce_journal_closed : bool
}.
Record PendingDelivery := {
  pd_id : DeliveryId; pd_rows : list RoutedRow; encoders : list Encoder; next_row : nat; route_reservations : list Z
}.
Record Closing := { cl_epoch : Epoch; cl_objects : list ClosedObject; cl_disposition : OpenDisposition }.

Record S3Sink := {
  discovery : DeliveryDiscovery;
  partitioner : Partitioner;
  epoch : Epoch;
  ready : list ClosedObject;
  closed_epochs : gmap Z ClosedEpoch;
  next_epoch_id : Z;
  progress : DeliveryTracker;
  buffered_bytes : Z;
  in_flight_objects : Z;
  memory_barrier_epoch : option Z;
  durable_storage : Store;
  closings : list Closing      (* trace *)
}.

Definition sink_new (d : DeliveryDiscovery) (p : Partitioner) (s : Store) : S3Sink :=
  {| discovery := d; partitioner := p; epoch := Epoch_default; ready := []; closed_epochs := ∅; next_epoch_id := 0;
     progress := DeliveryTracker.new; buffered_bytes := 0; in_flight_objects := 0; memory_barrier_epoch := None;
     durable_storage := s; closings := [] |}.

(** ** [prepare_delivery] *)
Definition route_error {A} (r : result PartitionError A) : result SinkError A := map_err RouteFailed r.

(** The rows of one output. *)
Definition route_output (acc : Partitioner * list RoutedRow) (x : nat * SinkBatch) : result SinkError (Partitioner * list RoutedRow) :=
  let '(index, output) := x in
  route_error (route_batch partition_text acc.1 output) ≫= λ '(p, routes),
  for_each (λ _ r, ensure (bool_decide (partition r = expected_partition_id)) PartitionMismatch) routes tt ≫= λ _,
  Ok (p, acc.2 ++ imap (λ i r, {| output_index := index; row_index := i; rr_table := sb_table output;
                                  rr_is_dlq := sb_is_dlq output; route := r |}) routes).

Definition route_delivery (p : Partitioner) (d : Delivery) : result SinkError (Partitioner * list RoutedRow) :=
  for_each route_output (imap pair (del_outputs d)) (p, []) ≫= λ '(p, rows),
  Ok (p, if is_sorted rows then rows else sort_unstable rows).

Definition encoder_of (d : DeliveryDiscovery) (output : SinkBatch) : result SinkError Encoder :=
  match project_sink_batch d output with
  | Err _ => Err ProjectFailed
  | Ok (Changelog _) => Err ChangelogDataset
  | Ok (AppendOnly batch) => map_err EncodeFailed (JsonBatchEncoder_new batch)
  end.

Definition route_bound (p : Partitioner) (outputs : list SinkBatch) : result SinkError Z :=
  for_each (λ bytes output,
    let fixed := saturating_mul usize_max (Z.of_nat (rb_rows (sb_batch output)))
                   (saturating_add usize_max ROUTE_RETAINED_OVERHEAD_BYTES (string_len (sb_table output))) in
    route_error (route_strings_memory_bound p output) ≫= λ strings,
    Ok (saturating_add usize_max (saturating_add usize_max bytes fixed) strings)) outputs 0.

(** The reservation made before routing, shrunk or completed after it. *)
Definition route_reserved (bound bytes : Z) : list Z :=
  if bool_decide (0 < bound) then
    if bool_decide (bytes ≤ bound) then [bytes] else [bound; bytes - bound]
  else [].

Definition prepare_delivery (self : S3Sink) (d : Delivery) : result SinkError (S3Sink * PendingDelivery) :=
  ensure (bool_decide (sink_keep_system_columns = keep_system_columns (discovery self))) ProjectionMismatch ≫= λ _,
  mapM (encoder_of (discovery self)) (del_outputs d) ≫= λ encoders,
  route_bound (partitioner self) (del_outputs d) ≫= λ bound,
  route_delivery (partitioner self) d ≫= λ '(p, rows),
  let bytes := foldl (λ bytes row, saturating_add usize_max bytes (routed_row_retained_bytes row 0)) 0 rows in
  match DeliveryTracker.accept (progress self) (del_id d) (Z.of_nat (length rows)) (meta_source_messages (del_meta d)) with
  | (_, Err e) => Err (TrackerFailed e)
  | (t, Ok _) =>
      Ok ({| discovery := discovery self; partitioner := p; epoch := epoch self; ready := ready self;
             closed_epochs := closed_epochs self; next_epoch_id := next_epoch_id self; progress := t;
             buffered_bytes := buffered_bytes self; in_flight_objects := in_flight_objects self;
             memory_barrier_epoch := memory_barrier_epoch self; durable_storage := durable_storage self;
             closings := closings self |},
          {| pd_id := del_id d; pd_rows := rows; encoders := encoders; next_row := 0;
             route_reservations := route_reserved bound bytes |})
  end.

(** ** Completing objects and epochs *)
Definition with_progress (self : S3Sink) (m : gmap Z ClosedEpoch) (t : DeliveryTracker) : S3Sink :=
  {| discovery := discovery self; partitioner := partitioner self; epoch := epoch self; ready := ready self;
     closed_epochs := m; next_epoch_id := next_epoch_id self; progress := t; buffered_bytes := buffered_bytes self;
     in_flight_objects := in_flight_objects self; memory_barrier_epoch := memory_barrier_epoch self;
     durable_storage := durable_storage self; closings := closings self |}.

Definition complete_rows (t : DeliveryTracker) (x : DeliveryId * Z) : result SinkError DeliveryTracker :=
  match complete t x.1 x.2 with (t, Ok _) => Ok t | (_, Err e) => Err (TrackerFailed e) end.

Definition finalize_epoch (epoch_id : Z) (self : S3Sink) : result SinkError S3Sink :=
  ok_or (closed_epochs self !! epoch_id) MissingEpoch ≫= λ e,
  for_each complete_rows (ce_delivery_rows e) (progress self) ≫= λ t,
  Ok (with_progress self (delete epoch_id (closed_epochs self)) t).

Definition set_remaining (e : ClosedEpoch) (n : Z) : ClosedEpoch :=
  {| remaining_objects := n; ce_delivery_rows := ce_delivery_rows e; ce_reservations := ce_reservations e;
     ce_journal := ce_journal e; ce_journal_closed := ce_journal_closed e |}.

Definition complete_durable_object (self : S3Sink) (o : ClosedObject) : result SinkError S3Sink :=
  ok_or (closed_epochs self !! co_epoch_id o) MissingEpoch ≫= λ e,
  ok_or (checked_sub (remaining_objects e) 1) EpochUnderflow ≫= λ n,
  let self := with_progress self (<[co_epoch_id o := set_remaining e n]> (closed_epochs self)) (progress self) in
  if bool_decide (n = 0) && ce_journal_closed e then finalize_epoch (co_epoch_id o) self else Ok self.

Definition with_buffered (self : S3Sink) (bytes in_flight : Z) : S3Sink :=
  {| discovery := discovery self; partitioner := partitioner self; epoch := epoch self; ready := ready self;
     closed_epochs := closed_epochs self; next_epoch_id := next_epoch_id self; progress := progress self;
     buffered_bytes := bytes; in_flight_objects := in_flight; memory_barrier_epoch := memory_barrier_epoch self;
     durable_storage := durable_storage self; closings := closings self |}.

(** One object of an epoch that was already recorded as closed. *)
Definition replay_object (self : S3Sink) (o : ClosedObject) : result SinkError S3Sink :=
  ok_or (checked_sub (buffered_bytes self) (Z.of_nat (length (co_payload o)))) BufferedUnderflow ≫= λ bytes,
  complete_durable_object (with_buffered self bytes (in_flight_objects self)) o.

Definition complete_upload (self : S3Sink) (o : ClosedObject) (r : result DataPlaneFailure unit) : result SinkError S3Sink :=
  ok_or (checked_sub (in_flight_objects self) 1) InFlightUnderflow ≫= λ in_flight,
  map_err UploadFailed r ≫= λ _,
  ok_or (checked_sub (buffered_bytes self) (Z.of_nat (length (co_payload o)))) BufferedUnderflow ≫= λ bytes,
  complete_durable_object (with_buffered self bytes in_flight) o.

(** ** [close_epoch] *)
Definition with_storage (self : S3Sink) (s : Store) : S3Sink :=
  {| discovery := discovery self; partitioner := partitioner self; epoch := epoch self; ready := ready self;
     closed_epochs := closed_epochs self; next_epoch_id := next_epoch_id self; progress := progress self;
     buffered_bytes := buffered_bytes self; in_flight_objects := in_flight_objects self;
     memory_barrier_epoch := memory_barrier_epoch self; durable_storage := s; closings := closings self |}.

(** [std::mem::take] of the open epoch. *)
Definition take_epoch (self : S3Sink) : S3Sink :=
  {| discovery := discovery self; partitioner := partitioner self; epoch := Epoch_default; ready := ready self;
     closed_epochs := closed_epochs self; next_epoch_id := saturating_add u64_max (next_epoch_id self) 1;
     progress := progress self; buffered_bytes := buffered_bytes self; in_flight_objects := in_flight_objects self;
     memory_barrier_epoch := memory_barrier_epoch self; durable_storage := durable_storage self; closings := closings self |}.

Definition register_epoch (self : S3Sink) (epoch_id : Z) (e : Epoch) (j : EpochJournal) (l : list ClosedObject) (d : OpenDisposition)
    : S3Sink :=
  {| discovery := discovery self; partitioner := partitioner self; epoch := epoch self;
     ready := ready self ++ (if bool_decide (d = Upload) then l else []);
     closed_epochs := <[epoch_id := {| remaining_objects := Z.of_nat (size (buffers e)); ce_delivery_rows := delivery_rows e;
                                       ce_reservations := reservations e; ce_journal := j;
                                       ce_journal_closed := bool_decide (d = AlreadyClosed) |}]> (closed_epochs self);
     next_epoch_id := next_epoch_id self; progress := progress self; buffered_bytes := buffered_bytes self;
     in_flight_objects := in_flight_objects self; memory_barrier_epoch := memory_barrier_epoch self;
     durable_storage := durable_storage self;
     closings := closings self ++ [{| cl_epoch := e; cl_objects := l; cl_disposition := d |}] |}.

Definition close_epoch (calls : nat → Call) (self : S3Sink) : S3Sink * result SinkError unit :=
  if bool_decide (buffers (epoch self) = ∅) then (self, Ok tt)
  else
    let e := epoch self in
    let epoch_id := next_epoch_id self in
    let self := take_epoch self in
    match close_buffers config epoch_id e with
    | Err k => (self, Err (KeyFailed k))
    | Ok l =>
        match EpochJournal_new sha256 expected_partition_id l with
        | Err j => (self, Err (JournalFailed j))
        | Ok j =>
            let '(s, d) := ensure_open j calls (durable_storage self) in
            let self := with_storage self s in
            match d with
            | Err x => (self, Err (JournalFailed x))
            | Ok d =>
                let self := register_epoch self epoch_id e j l d in
                match d with
                | Upload => (self, Ok tt)
                | AlreadyClosed =>
                    match for_each replay_object l self with Ok self => (self, Ok tt) | Err x => (self, Err x) end
                end
            end
        end
    end.

(** The first complete epoch whose journal is open. *)
Definition complete_epoch (self : S3Sink) : option (Z * ClosedEpoch) :=
  head (filter (λ x, remaining_objects x.2 = 0 ∧ ce_journal_closed x.2 = false) (bt_iter Z.le (closed_epochs self))).

Definition close_completed_epoch_journal (calls : nat → Call) (self : S3Sink) : S3Sink * result SinkError bool :=
  match complete_epoch self with
  | None => (self, Ok false)
  | Some (epoch_id, e) =>
      let '(s, r) := mark_closed (ce_journal e) calls (durable_storage self) in
      let self := with_storage self s in
      match r with
      | Err x => (self, Err (JournalFailed x))
      | Ok _ =>
          let closed := {| remaining_objects := remaining_objects e; ce_delivery_rows := ce_delivery_rows e;
                           ce_reservations := ce_reservations e; ce_journal := ce_journal e; ce_journal_closed := true |} in
          let self := with_progress self (<[epoch_id := closed]> (closed_epochs self)) (progress self) in
          match finalize_epoch epoch_id self with Ok self => (self, Ok true) | Err x => (self, Err x) end
      end
  end.
(** ** Accepting messages *)
Definition with_epoch (self : S3Sink) (e : Epoch) (bytes : Z) : S3Sink :=
  {| discovery := discovery self; partitioner := partitioner self; epoch := e; ready := ready self;
     closed_epochs := closed_epochs self; next_epoch_id := next_epoch_id self; progress := progress self;
     buffered_bytes := bytes; in_flight_objects := in_flight_objects self;
     memory_barrier_epoch := memory_barrier_epoch self; durable_storage := durable_storage self; closings := closings self |}.

Definition encode_row (encoders : list Encoder) (r : RoutedRow) : result SinkError Row :=
  ok_or (encoders !! output_index r) (EncodeFailed (OtherError E_S3)) ≫= λ encoder,
  map_err EncodeFailed (write_row encoder (row_index r)) ≫= λ bytes,
  Ok (r, bytes).

(** The calls of the two epochs that can be closed are [calls 0] and [calls 1]. *)
Definition accept_message_group (now : Z) (calls : nat → nat → Call) (id : DeliveryId) (encoders : list Encoder)
    (rows : list RoutedRow) (self : S3Sink) : S3Sink * result SinkError (list Row) :=
  match (if rotates config (epoch self) rows then close_epoch (calls 0%nat) self else (self, Ok tt)) with
  | (self, Err e) => (self, Err e)
  | (self, Ok _) =>
      match mapM (encode_row encoders) rows with
      | Err e => (self, Err e)
      | Ok encoded =>
          let '(e, serialized, ends) := add_message config now id (epoch self) encoded in
          let self := with_epoch self e (saturating_add usize_max (buffered_bytes self) serialized) in
          match (if ends : bool then close_epoch (calls 1%nat) self else (self, Ok tt)) with
          | (self, Err e) => (self, Err e)
          | (self, Ok _) => (self, Ok encoded)
          end
      end
  end.

Definition with_barrier (self : S3Sink) (b : option Z) : S3Sink :=
  {| discovery := discovery self; partitioner := partitioner self; epoch := epoch self; ready := ready self;
     closed_epochs := closed_epochs self; next_epoch_id := next_epoch_id self; progress := progress self;
     buffered_bytes := buffered_bytes self; in_flight_objects := in_flight_objects self;
     memory_barrier_epoch := b; durable_storage := durable_storage self; closings := closings self |}.
Definition set_next_row (p : PendingDelivery) (n : nat) : PendingDelivery :=
  {| pd_id := pd_id p; pd_rows := pd_rows p; encoders := encoders p; next_row := n; route_reservations := route_reservations p |}.

(** The message accepted, if any, and the delivery with the rows after it. *)
Definition accept_next_message_group (now : Z) (calls : nat → nat → Call) (pressured : bool) (self : S3Sink) (p : PendingDelivery)
    : S3Sink * result SinkError (PendingDelivery * list (list Row)) :=
  let start := next_row p in
  match pd_rows p !! start with
  | None => (self, Ok (p, []))
  | Some first =>
      let stop := message_end (pd_rows p) start first in
      let epoch_before := next_epoch_id self in
      match accept_message_group now calls (pd_id p) (encoders p) (firstn (stop - start) (drop start (pd_rows p))) self with
      | (self, Err e) => (self, Err e)
      | (self, Ok encoded) =>
          (with_barrier self
             (if negb (bool_decide (next_epoch_id self = epoch_before)) && pressured
              then Some (saturating_sub (next_epoch_id self) 1) else None),
           Ok (set_next_row p stop, [encoded]))
      end
  end.

(** ** The actor *)
Record Actor := {
  sink : S3Sink;
  uploads : list ClosedObject;                     (* the uploads in flight *)
  input_closed : bool;
  pending_delivery : option PendingDelivery;
  events : list DeliveryId;                        (* [CommittedThrough], in order *)
  outcome : option (result SinkError unit);
  accepted : list PendingDelivery;                 (* trace *)
  consumed : list (DeliveryId * list Row);         (* trace *)
  uploaded : list ClosedObject                     (* trace *)
}.

Definition actor_init (s : S3Sink) : Actor :=
  {| sink := s; uploads := []; input_closed := false; pending_delivery := None; events := []; outcome := None;
     accepted := []; consumed := []; uploaded := [] |}.

Definition set_sink (a : Actor) (s : S3Sink) : Actor :=
  {| sink := s; uploads := uploads a; input_closed := input_closed a; pending_delivery := pending_delivery a;
     events := events a; outcome := outcome a; accepted := accepted a; consumed := consumed a; uploaded := uploaded a |}.
(** The end of the session: uploads in flight are cancelled. *)
Definition finish (a : Actor) (r : result SinkError unit) : Actor :=
  {| sink := with_buffered (sink a) (buffered_bytes (sink a)) 0; uploads := []; input_closed := input_closed a;
     pending_delivery := pending_delivery a; events := events a; outcome := Some r; accepted := accepted a;
     consumed := consumed a; uploaded := uploaded a |}.
(** The state of the sink after a fallible step. *)
Definition settle (a : Actor) (x : S3Sink * result SinkError unit) : Actor :=
  match x with (s, Ok _) => set_sink a s | (s, Err e) => finish (set_sink a s) (Err e) end.

(** [emit_committed]; [opened]: the event receiver is alive. *)
Definition emit_committed (opened : bool) (a : Actor) : Actor * bool :=
  let '(t, committed) := take_committed (progress (sink a)) in
  let s := with_progress (sink a) (closed_epochs (sink a)) t in
  match committed with
  | None => (set_sink a s, true)
  | Some c =>
      if opened then
        ({| sink := s; uploads := uploads a; input_closed := input_closed a; pending_delivery := pending_delivery a;
            events := events a ++ [through c]; outcome := outcome a; accepted := accepted a; consumed := consumed a;
            uploaded := uploaded a |}, true)
      else (set_sink a s, false)
  end.

(** [start_upload] while there is room: the objects started. *)
Definition start_uploads (a : Actor) : Actor :=
  let s := sink a in
  let room := Z.to_nat (saturating_sub (max_in_flight_objects config) (in_flight_objects s)) in
  let started := firstn room (ready s) in
  {| sink := {| discovery := discovery s; partitioner := partitioner s; epoch := epoch s; ready := drop room (ready s);
                closed_epochs := closed_epochs s; next_epoch_id := next_epoch_id s; progress := progress s;
                buffered_bytes := buffered_bytes s; in_flight_objects := in_flight_objects s + Z.of_nat (length started);
                memory_barrier_epoch := memory_barrier_epoch s; durable_storage := durable_storage s; closings := closings s |};
     uploads := uploads a ++ started; input_closed := input_closed a; pending_delivery := pending_delivery a;
     events := events a; outcome := outcome a; accepted := accepted a; consumed := consumed a; uploaded := uploaded a |}.

Definition pending_upload_objects (s : S3Sink) : Z := saturating_add usize_max (Z.of_nat (length (ready s))) (in_flight_objects s).
Definition below_live_limits (s : S3Sink) : bool :=
  bool_decide (buffered_bytes s < max_buffered_bytes config) && bool_decide (pending_upload_objects s < max_pending_upload_objects config).

(** [Joined i r]: the [i]th upload in flight ended with [r]; [JoinFailed i]: its task did. *)
Inductive Select := Cancelled | Joined (i : nat) (r : result DataPlaneFailure unit) | JoinFailed | Received (d : option Delivery) | WallClock.
Record Turn := {
  t_open : bool; t_pressure : bool; t_pressure_after : bool; t_now : Z;
  t_calls : nat → nat → Call;
  t_select : Select
}.

Definition set_pending (a : Actor) (s : S3Sink) (p : option PendingDelivery) : Actor :=
  {| sink := s; uploads := uploads a; input_closed := input_closed a; pending_delivery := p;
     events := events a; outcome := outcome a; accepted := accepted a; consumed := consumed a; uploaded := uploaded a |}.

Definition resume_turn (t : Turn) (a : Actor) (p : PendingDelivery) : Actor :=
  match accept_next_message_group (t_now t) (t_calls t) (t_pressure_after t) (sink a) p with
  | (s, Err e) => finish (set_sink a s) (Err e)
  | (s, Ok (p, groups)) =>
      {| sink := s; uploads := uploads a; input_closed := input_closed a;
         pending_delivery := if bool_decide (next_row p = length (pd_rows p)) then None else Some p;
         events := events a; outcome := outcome a; accepted := accepted a;
         consumed := consumed a ++ ((pd_id p,.) <$> groups); uploaded := uploaded a |}
  end.

Definition receive (a : Actor) (d : Delivery) : Actor :=
  match prepare_delivery (sink a) d with
  | Err e => finish a (Err e)
  | Ok (s, p) =>
      {| sink := s; uploads := uploads a; input_closed := input_closed a;
         pending_delivery := if bool_decide (pd_rows p = []) then None else Some p;
         events := events a; outcome := outcome a; accepted := accepted a ++ [p];
         consumed := consumed a; uploaded := uploaded a |}
  end.
Definition close_input (a : Actor) : Actor :=
  {| sink := sink a; uploads := uploads a; input_closed := true; pending_delivery := pending_delivery a;
     events := events a; outcome := outcome a; accepted := accepted a; consumed := consumed a; uploaded := uploaded a |}.

Definition join_upload (a : Actor) (i : nat) (o : ClosedObject) (r : result DataPlaneFailure unit) : Actor :=
  let a := {| sink := sink a; uploads := delete i (uploads a); input_closed := input_closed a; pending_delivery := pending_delivery a;
              events := events a; outcome := outcome a; accepted := accepted a; consumed := consumed a;
              uploaded := if is_ok r then uploaded a ++ [o] else uploaded a |} in
  match complete_upload (sink a) o r with Ok s => set_sink a s | Err e => finish a (Err e) end.

(** [wall_clock_deadline] *)
Definition wall_clock_deadline (s : S3Sink) : option Z :=
  match wall_clock_interval config, first_seen (epoch s) with Some interval, Some started => Some (started + interval) | _, _ => None end.

(** The [select!]: [None] when the branch taken is disabled. *)
Definition select_turn (t : Turn) (a : Actor) : option Actor :=
  let can_accept := is_none (pending_delivery a) && negb (input_closed a) && is_none (memory_barrier_epoch (sink a)) && below_live_limits (sink a) in
  match t_select t with
  | Cancelled => Some (finish a (Ok tt))
  | Joined i r => uploads a !! i ≫= λ o, Some (join_upload a i o r)
  | JoinFailed => if bool_decide (uploads a = []) then None else Some (finish a (Err UploadTask))
  | Received None => if can_accept then Some (close_input a) else None
  | Received (Some d) => if can_accept then Some (receive a d) else None
  | WallClock =>
      match pending_delivery a, wall_clock_deadline (sink a) with
      | None, Some deadline =>
          if bool_decide (deadline ≤ t_now t) then Some (settle a (close_epoch (t_calls t 0%nat) (sink a))) else None
      | _, _ => None
      end
  end.

(** The end of the input: everything is uploaded. *)
Definition end_turn (t : Turn) (a : Actor) : Actor :=
  let '(a, sent) := emit_committed (t_open t) a in
  if negb sent then finish a (Err SinkEventsClosed)
  else if negb (is_empty (progress (sink a))) || negb (bool_decide (closed_epochs (sink a) = ∅)) then finish a (Err SinkIncomplete)
  else finish a (Ok tt).

(** The barrier is lifted when memory is available or its epoch is durable. *)
Definition lift_barrier (pressured : bool) (s : S3Sink) : S3Sink :=
  match memory_barrier_epoch s with
  | Some epoch_id =>
      if negb pressured || is_none (closed_epochs s !! epoch_id) then with_barrier s None else s
  | None => s
  end.

(** One turn of the loop of [run_actor]. *)
Definition turn (t : Turn) (a : Actor) : option Actor :=
  let '(a, sent) := emit_committed (t_open t) a in
  if negb sent then Some (finish a (Err SinkEventsClosed)) else
  match close_completed_epoch_journal (t_calls t 0%nat) (sink a) with
  | (s, Err e) => Some (finish (set_sink a s) (Err e))
  | (s, Ok true) => Some (set_sink a s)
  | (s, Ok false) =>
      let a := set_sink a s in
      if input_closed a && is_none (pending_delivery a) && negb (bool_decide (buffers (epoch (sink a)) = ∅)) then
        Some (settle a (close_epoch (t_calls t 0%nat) (sink a)))
      else
        let a := start_uploads a in
        if input_closed a && is_none (pending_delivery a) && bool_decide (uploads a = []) && bool_decide (ready (sink a) = []) then
          Some (end_turn t a)
        else
          let a := set_sink a (lift_barrier (t_pressure t) (sink a)) in
          match pending_delivery a with
          | Some p =>
              if below_live_limits (sink a) && is_none (memory_barrier_epoch (sink a)) then Some (resume_turn t a p)
              else select_turn t a
          | None => select_turn t a
          end
  end.

(** A session: turns until an outcome. *)
Fixpoint run_turns (a : Actor) (l : list Turn) : option Actor :=
  match l with
  | [] => Some a
  | t :: l => if bool_decide (is_Some (outcome a)) then None else turn t a ≫= λ a, run_turns a l
  end.
End sink.
