(* ===== verification/S3Replay.v ===== *)
(** * The objects of the S3 sink depend on the messages only

    The epochs an actor of [S3Sink.v] closes are those of the reference of [S3Cut.v] applied
    to the messages it consumed: neither the deliveries that carried them, nor the progress
    of uploads, nor memory pressure, nor the state of the journal has a part in it.  Only the
    wall clock, when it is configured, and the end of the input end further epochs.  Hence,
    without wall-clock rotation, a session that consumes the messages of an earlier one
    closes the same objects, with the same keys and payloads. *)

From stdpp Require Import base tactics numbers option strings gmap fin_maps sorting relations list.
From S2P Require Import Prelude Bytes DeliveryId DeliveryTracker RowCount Schema Arrow Delivery Changelog Failure Reader Admission Durable DurableStorage DurableRecord S3Objects S3Partition S3Journal S3Epochs S3Cut S3Sink.
Local Open Scope Z_scope.

(** The messages of rows in order: the maximal runs of one source position. *)
Fixpoint messages (l : list RoutedRow) : list (list RoutedRow) :=
  match l with
  | [] => []
  | r :: l =>
      match messages l with
      | (r' :: g) :: gs => if bool_decide (message r = message r') then (r :: r' :: g) :: gs else [r] :: (r' :: g) :: gs
      | gs => [r] :: gs
      end
  end.

Lemma messages_join l : mjoin (messages l) = l.
Proof.
  induction l as [|r l IH]; [done|]. cbn. rewrite <-IH at 2. destruct (messages l) as [|[|r' g] gs]; [done|done|].
  by case_bool_decide.
Qed.

Lemma messages_nonempty l : Forall (λ g, g ≠ []) (messages l).
Proof.
  induction l as [|r l IH]; [constructor|]. cbn. destruct (messages l) as [|[|r' g] gs]; [by repeat constructor|by constructor|].
  apply Forall_cons in IH as [? ?]. case_bool_decide; by repeat constructor.
Qed.

Lemma messages_cons r l :
  messages (r :: l) =
  match messages l with
  | (r' :: g) :: gs => if bool_decide (message r = message r') then (r :: r' :: g) :: gs else [r] :: (r' :: g) :: gs
  | gs => [r] :: gs
  end.
Proof. done. Qed.
Lemma messages_run r l :
  messages (r :: l) = (r :: firstn (run_length (message r) l) l) :: messages (drop (run_length (message r) l) l).
Proof.
  revert r. induction l as [|r' l IH]; intros r; [done|]. rewrite messages_cons, (IH r'). cbn [run_length].
  case_bool_decide as E1; case_bool_decide as E2; try congruence; cbn [firstn drop].
  - by rewrite E1.
  - by rewrite IH.
Qed.

(** Messages without the text of their rows. *)
Definition bare (l : list (list Row)) : list (list RoutedRow) := (λ g, g.*1) <$> l.

Section replay.
Context `{DurableStorage} `{!Json EpochRecord} `{ObjectStorePath, Chrono} (sha256 : list Z → list Z).
Context {AT : ArrowTypes} {AV : ArrowValues} {AC : ArrowCompute}.
Context (partition_text : DataType → option (OtherValue → string)).
Context {Encoder : Type} (JsonBatchEncoder_new : RecordBatch → result AnyhowError Encoder).
Context (write_row : Encoder → nat → result AnyhowError (list Z)).
Context (sort_unstable : list RoutedRow → list RoutedRow).
Context (config : S3ActorConfig) (sink_keep_system_columns : bool) (expected_partition_id : Z).

Abbreviation close_epoch := (close_epoch sha256 config expected_partition_id).
Abbreviation accept_message_group := (accept_message_group sha256 write_row config expected_partition_id).
Abbreviation accept_next_message_group := (accept_next_message_group sha256 write_row config expected_partition_id).
Abbreviation turn := (turn sha256 partition_text JsonBatchEncoder_new write_row sort_unstable config sink_keep_system_columns expected_partition_id).
Abbreviation run_turns := (run_turns sha256 partition_text JsonBatchEncoder_new write_row sort_unstable config sink_keep_system_columns expected_partition_id).

(** ** The epochs of a sink *)
Definition epochs_of (s : S3Sink) : list Epoch * Epoch := (cl_epoch <$> closings s, epoch s).
Definition objects_closed (s : S3Sink) : Prop := closed_as config (cl_epoch <$> closings s) (cl_objects <$> closings s).

(** A step that leaves the epochs alone. *)
Definition untouched (s s' : S3Sink) : Prop := epoch s' = epoch s ∧ closings s' = closings s.

Lemma finalize_untouched id s s' : finalize_epoch id s = Ok s' → untouched s s'.
Proof. unfold finalize_epoch. intros (e & _ & (t & _ & [= <-])%bind_Ok)%bind_Ok. done. Qed.
Lemma complete_untouched s o s' : complete_durable_object s o = Ok s' → untouched s s'.
Proof.
  unfold complete_durable_object. intros (e & _ & (n & _ & Hc)%bind_Ok)%bind_Ok. cbn zeta in Hc.
  destruct (_ && _); [by apply finalize_untouched in Hc|by simplify_eq].
Qed.
Lemma replay_untouched s o s' : replay_object s o = Ok s' → untouched s s'.
Proof. unfold replay_object. intros (b & _ & Hc%complete_untouched)%bind_Ok. done. Qed.
Lemma upload_untouched s o r s' : complete_upload s o r = Ok s' → untouched s s'.
Proof. unfold complete_upload. intros (n & _ & (u & _ & (b & _ & Hc%complete_untouched)%bind_Ok)%bind_Ok)%bind_Ok. done. Qed.
Lemma replays_untouched l s s' : for_each replay_object l s = Ok s' → untouched s s'.
Proof.
  revert s. induction l as [|o l IH]; intros s; cbn; [by intros [= <-]|].
  intros (s1 & [Ea Eb]%replay_untouched & [Ec Ed]%IH)%bind_Ok. split; congruence.
Qed.
Lemma journal_untouched calls s s' r : close_completed_epoch_journal calls s = (s', r) → untouched s s'.
Proof.
  unfold close_completed_epoch_journal. destruct (complete_epoch s) as [[id e]|]; [|by intros [= <- _]].
  destruct (mark_closed _ _ _) as [store [[]|x]]; [|by intros [= <- _]].
  match goal with |- context [finalize_epoch ?id ?s0] => destruct (finalize_epoch id s0) as [s1|] eqn:Ef end; intros [= <- _]; [|done].
  by apply finalize_untouched in Ef.
Qed.

(** Closing the open epoch, as the reference does. *)
Lemma close_epoch_cut calls s s' :
  close_epoch calls s = (s', Ok tt) → objects_closed s → epochs_of s' = close_open (epochs_of s) ∧ objects_closed s'.
Proof.
  unfold S3Sink.close_epoch, close_open, epochs_of. cbn [snd]. case_bool_decide as Hb; [by intros [= <-]|].
  destruct (close_buffers config _ _) as [l|] eqn:El; [|done]. destruct (EpochJournal_new _ _ _) as [j|]; [|done].
  destruct (ensure_open _ _ _) as [store [d|]]; [|done]. intros Hd Hc.
  set (s1 := register_epoch _ _ _ _ _ _) in Hd.
  assert (untouched s1 s') as [He Hl].
  { destruct d; [by injection Hd as <-|]. destruct (for_each _ _ _) as [s2|] eqn:Ef; [|done]. injection Hd as <-. by apply replays_untouched in Ef. }
  rewrite He, Hl. unfold s1, objects_closed in *. cbn. rewrite Hl. cbn. rewrite !fmap_app. cbn. split; [done|].
  apply Forall2_app; [done|]. constructor; [|constructor]. eauto.
Qed.

(** ** Messages *)
Definition alike (st st' : list Epoch * Epoch) : Prop := Forall2 (≡) st.1 st'.1 ∧ st.2 ≡ st'.2.

Lemma close_open_alike st st' : alike st st' → alike (close_open st) (close_open st').
Proof.
  intros [Hl He]. unfold close_open, alike. rewrite (same_buffers _ _ He). case_bool_decide; [done|]. cbn.
  split; [|done]. apply Forall2_app; [done|]. by constructor.
Qed.

Lemma encoded_rows encs rows encoded : mapM (encode_row write_row encs) rows = Ok encoded → encoded.*1 = rows.
Proof.
  intros Hm%mapM_Ok. induction Hm as [|r x rows encoded Hx _ IH]; [done|]. cbn. rewrite IH. f_equal.
  unfold encode_row in Hx. by apply bind_Ok in Hx as (e & _ & (b & _ & [= <-])%bind_Ok).
Qed.

Lemma accept_group_cut now calls id encs rows s s' encoded st :
  accept_message_group now calls id encs rows s = (s', Ok encoded) → objects_closed s → alike (epochs_of s) st →
  encoded.*1 = rows ∧ objects_closed s' ∧ alike (epochs_of s') (cut_message config st encoded).
Proof.
  unfold S3Sink.accept_message_group. intros Ha Hc Hst.
  destruct (if rotates config (epoch s) rows then close_epoch (calls 0%nat) s else (s, Ok tt)) as [s1 [[]|]] eqn:E1; [|done].
  destruct (mapM _ rows) as [enc|] eqn:Em; [|done]. pose proof (encoded_rows _ _ _ Em) as Hrows.
  destruct (add_message config now id (epoch s1) enc) as [[e serialized] ends] eqn:Eadd. set (s2 := with_epoch s1 e _) in Ha.
  destruct (if ends then close_epoch (calls 1%nat) s2 else (s2, Ok tt)) as [s3 [[]|]] eqn:E3; [|done]. injection Ha as <- <-.
  split; [done|]. unfold cut_message. rewrite Hrows.
  assert (rotates config st.2 rows = rotates config (epoch s) rows) as -> by (destruct Hst as [_ Hst]; by rewrite <-Hst).
  assert (objects_closed s1 ∧ alike (epochs_of s1) (if rotates config (epoch s) rows then close_open st else st)) as [Hc1 Hst1].
  { destruct (rotates _ _ _); [|by simplify_eq]. destruct (close_epoch_cut _ _ _ E1 Hc) as [-> ?]. auto using close_open_alike. }
  set (st1 := if rotates config (epoch s) rows then close_open st else st) in *.
  destruct (add_message_same config now id 0 0 _ _ enc (proj2 Hst1)) as (He & _ & Hends). cbn [epochs_of snd] in He, Hends.
  rewrite Eadd in He, Hends. cbn in He, Hends. destruct (add_message config 0 0 st1.2 enc) as [[e' serialized'] ends']. cbn in *. subst ends'.
  assert (objects_closed s2 ∧ alike (epochs_of s2) (st1.1, e')) as [Hc2 Hst2].
  { split; [exact Hc1|]. split; [apply Hst1|done]. }
  destruct ends; [|by simplify_eq]. destruct (close_epoch_cut _ _ _ E3 Hc2) as [-> ?]. split; [done|]. by apply close_open_alike.
Qed.

(** ** The invariant of a session *)
Abbreviation Actor := (Actor (Encoder := Encoder)).

Definition rest (a : Actor) : list RoutedRow :=
  match pending_delivery a with Some p => drop (next_row p) (pd_rows p) | None => [] end.

(** What decided the epochs so far: the messages, and the ends forced between them.  Without
    wall-clock rotation only the end of the input forces one. *)
Definition arrivals_of (a : Actor) (l : list Arrival) : Prop :=
  omap arrived l = (consumed a).*2 ∧
  (wall_clock_interval config = None →
     l = Arrived <$> (consumed a).*2 ∨
     input_closed a = true ∧ pending_delivery a = None ∧ l = (Arrived <$> (consumed a).*2) ++ [Forced]).

Record Replay (a : Actor) : Prop := {
  replay_closed : objects_closed (sink a);
  replay_epochs : ∃ l, arrivals_of a l ∧ alike (epochs_of (sink a)) (cut config l);
  replay_rows : bare (consumed a).*2 ++ messages (rest a) = accepted a ≫= λ p, messages (pd_rows p)
}.

(** A step that takes no message and closes no epoch. *)
Record quiet (a a' : Actor) : Prop := {
  quiet_sink : untouched (sink a) (sink a');
  quiet_input : input_closed a = true → input_closed a' = true;
  quiet_pending : pending_delivery a' = pending_delivery a;
  quiet_consumed : consumed a' = consumed a;
  quiet_accepted : accepted a' = accepted a
}.
Lemma quiet_replay a a' : quiet a a' → Replay a → Replay a'.
Proof.
  intros [[He Hl] Hi Hp Hc Ha] [Rc Re Rr]. split.
  - unfold objects_closed in *. by rewrite Hl.
  - unfold epochs_of, arrivals_of in *. rewrite He, Hl, Hc, Hp. destruct Re as (l & [Ha1 Ha2] & Hal). exists l.
    split_and!; [done| |done]. intros Hw. destruct (Ha2 Hw) as [?|(? & ? & ?)]; auto.
  - unfold rest in *. by rewrite Hc, Hp, Ha.
Qed.

Lemma emit_quiet opened a : quiet a (emit_committed opened a).1.
Proof. unfold emit_committed. destruct (take_committed _) as [t [c|]]; [destruct opened|]; by repeat split. Qed.

Lemma close_open_idem st : close_open (close_open st) = close_open st.
Proof. unfold close_open. destruct (bool_decide (buffers st.2 = ∅)) eqn:E; [by rewrite E|done]. Qed.
Lemma cut_snoc l x : cut config (l ++ [x]) = cut_arrival config (cut config l) x.
Proof. unfold cut. by rewrite foldl_app. Qed.
Lemma arrived_all (l : list (list Row)) : omap arrived (Arrived <$> l) = l.
Proof. induction l as [|g l IH]; [done|]. cbn. by rewrite IH. Qed.

(** The open epoch is closed because the input ended, or because of the wall clock. *)
Lemma forced_replay a s :
  Replay a → (input_closed a = true ∧ pending_delivery a = None ∨ wall_clock_interval config ≠ None) →
  close_open (epochs_of (sink a)) = epochs_of s → objects_closed s → Replay (set_sink a s).
Proof.
  intros [Rc Re Rr] Hwhy Hs Hc. split; [done| |done]. destruct Re as (l & [Ha1 Ha2] & Hal).
  change (∃ l, arrivals_of a l ∧ alike (epochs_of s) (cut config l)). rewrite <-Hs.
  assert (alike (close_open (epochs_of (sink a))) (cut config (l ++ [Forced]))) as Hclosed by (rewrite cut_snoc; by apply close_open_alike).
  assert (omap arrived (l ++ [Forced]) = (consumed a).*2) as Hl by (rewrite omap_app; cbn; by rewrite app_nil_r).
  destruct (wall_clock_interval config) as [i|] eqn:Ew.
  { exists (l ++ [Forced]). split; [|done]. split; [done|congruence]. }
  destruct Hwhy as [[Hi Hp]|Hw]; [|done]. destruct (Ha2 eq_refl) as [El|(_ & _ & El)].
  - exists (l ++ [Forced]). split; [|done]. split; [done|]. intros _. right. split_and!; [done..|]. by rewrite El.
  - exists l. split; [split; [done|intros _; by apply Ha2]|]. rewrite cut_snoc in Hclosed. subst l. rewrite cut_snoc in *. cbn [cut_arrival] in *.
    by rewrite close_open_idem in Hclosed.
Qed.

Lemma resume_replay t a p :
  Replay a → pending_delivery a = Some p → (∀ e, outcome (resume_turn sha256 write_row config expected_partition_id t a p) ≠ Some (Err e)) →
  Replay (resume_turn sha256 write_row config expected_partition_id t a p).
Proof.
  intros [Rc Re Rr] Hp. unfold resume_turn. destruct Re as (arrivals & [Ha1 Ha2] & Re).
  assert (wall_clock_interval config = None → arrivals = Arrived <$> (consumed a).*2) as Hwall.
  { intros Hw. destruct (Ha2 Hw) as [?|(_ & Hn & _)]; [done|congruence]. }
  destruct (accept_next_message_group _ _ _ (sink a) p) as [s [[p' groups]|e]] eqn:E; [|by intros Hf; destruct (Hf e)]. intros _.
  unfold S3Sink.accept_next_message_group in E. unfold rest in Rr. rewrite Hp in Rr.
  destruct (pd_rows p !! next_row p) as [first|] eqn:Ef.
  - destruct (accept_message_group _ _ _ _ _ _) as [s1 [encoded|]] eqn:Ea; [|done]. injection E as <- <- <-.
    destruct (accept_group_cut _ _ _ _ _ _ _ _ _ Ea Rc Re) as (Hrows & Hc & Hst).
    rewrite (drop_S _ _ _ Ef), messages_run in Rr.
    set (n := run_length (message first) (drop (S (next_row p)) (pd_rows p))) in *.
    assert (message_end (pd_rows p) (next_row p) first = (next_row p + S n)%nat) as Hend by (unfold message_end; fold n; lia).
    rewrite Hend in *. replace (next_row p + S n - next_row p)%nat with (S n) in Hrows by lia.
    rewrite (drop_S _ _ _ Ef) in Hrows. cbn [firstn] in Hrows.
    split; [exact Hc| |].
    { exists (arrivals ++ [Arrived encoded]). rewrite cut_snoc. split; [|done]. split; cbn [consumed].
      - rewrite omap_app, fmap_app. cbn. by rewrite Ha1.
      - intros Hw. left. rewrite !fmap_app. cbn. by rewrite <-(Hwall Hw). }
    cbn [consumed accepted].
    unfold bare in *. rewrite !fmap_app. cbn. rewrite Hrows, <-Rr, <-app_assoc. f_equal. cbn. f_equal. unfold rest. cbn. rewrite drop_drop.
    replace (S (next_row p) + n)%nat with (next_row p + S n)%nat by lia.
    case_bool_decide as Hlen; cbn; [|done]. by rewrite drop_ge by lia.
  - injection E as <- <- <-. split; [done| |].
    { exists arrivals. split; [|done]. unfold arrivals_of. cbn [consumed fmap list_fmap]. rewrite app_nil_r. split; [done|]. intros Hw. left. by apply Hwall. }
    cbn [consumed accepted fmap list_fmap]. rewrite app_nil_r. rewrite <-Rr. f_equal. f_equal. unfold rest. cbn.
    case_bool_decide; cbn; [|done]. symmetry. apply drop_ge. lia.
Qed.

Lemma prepare_untouched s d s' p :
  prepare_delivery partition_text JsonBatchEncoder_new sort_unstable sink_keep_system_columns expected_partition_id s d = Ok (s', p) →
  untouched s s' ∧ next_row p = 0%nat.
Proof.
  unfold prepare_delivery. intros ([] & _ & (encs & _ & (bound & _ & ([pt rows] & _ & Hp)%bind_Ok)%bind_Ok)%bind_Ok)%bind_Ok.
  cbn zeta in Hp. destruct (DeliveryTracker.accept _ _ _ _) as [t [[]|]]; [|done]. by injection Hp as <- <-.
Qed.

Lemma receive_replay a d :
  Replay a → pending_delivery a = None → input_closed a = false →
  let a' := receive partition_text JsonBatchEncoder_new sort_unstable sink_keep_system_columns expected_partition_id a d in
  (∀ e, outcome a' ≠ Some (Err e)) → Replay a'.
Proof.
  intros [Rc Re Rr] Hp Hi. cbn zeta. unfold receive. destruct Re as (arrivals & [Ha1 Ha2] & Re).
  destruct (prepare_delivery _ _ _ _ _ _ _) as [[s p]|e] eqn:E; [|by intros Hf; destruct (Hf e)]. intros _.
  apply prepare_untouched in E as [[He Hl] Hn]. split.
  - unfold objects_closed in *. cbn. by rewrite Hl.
  - exists arrivals. unfold epochs_of in *. cbn [sink]. rewrite He, Hl. split; [|done]. split; [done|]. intros Hw. left.
    destruct (Ha2 Hw) as [?|(? & _)]; [done|congruence].
  - cbn [consumed accepted]. rewrite bind_app. cbn. rewrite app_nil_r, <-Rr, <-app_assoc. f_equal.
    unfold rest. rewrite Hp. cbn. case_bool_decide as Hrows; [by rewrite Hrows|]. by rewrite Hn.
Qed.

Lemma select_replay t a a' :
  Replay a →
  select_turn sha256 partition_text JsonBatchEncoder_new sort_unstable config sink_keep_system_columns expected_partition_id t a = Some a' →
  (∀ e, outcome a' ≠ Some (Err e)) → Replay a'.
Proof.
  intros R. unfold select_turn. destruct (t_select t) as [|i r| |[d|]|].
  - intros [= <-] _. eapply quiet_replay; [|exact R]. by repeat split.
  - destruct (uploads a !! i) as [o|]; [|done]. intros [= <-]. unfold join_upload.
    destruct (complete_upload _ o r) as [s|e] eqn:E; [|by intros Hf; destruct (Hf e)]. intros _. cbn in E.
    apply upload_untouched in E. eapply quiet_replay; [|exact R]. by split.
  - case_bool_decide; [done|]. intros [= <-] Hf. by destruct (Hf UploadTask).
  - destruct (_ && _) eqn:E; [|done]. intros [= <-]. apply andb_true_iff in E as [E _]. apply andb_true_iff in E as [E _].
    apply andb_true_iff in E as [E1%is_none_true E2%negb_true_iff]. by apply receive_replay.
  - destruct (_ && _); [|done]. intros [= <-] _. eapply quiet_replay; [|exact R]. by repeat split.
  - destruct (pending_delivery a) as [p|]; [done|]. unfold wall_clock_deadline. destruct (wall_clock_interval config) as [i|] eqn:Ew; [|done].
    destruct (first_seen _) as [f|]; [|done]. case_bool_decide; [|done]. intros [= <-] Hf. unfold settle in *.
    destruct (close_epoch _ _) as [s1 [[]|e]] eqn:Ec; [|by destruct (Hf e)].
    destruct (close_epoch_cut _ _ _ Ec (replay_closed _ R)) as [Hs Hc]. eapply forced_replay; [done|right; congruence|done..].
Qed.

Lemma turn_replay t a a' : Replay a → turn t a = Some a' → (∀ e, outcome a' ≠ Some (Err e)) → Replay a'.
Proof.
  intros R. unfold S3Sink.turn. pose proof (quiet_replay _ _ (emit_quiet (t_open t) a) R) as R1. clear R.
  destruct (emit_committed (t_open t) a) as [a1 [|]]; cbn [negb fst] in *; [|intros [= <-] Hf; by destruct (Hf SinkEventsClosed)].
  destruct (close_completed_epoch_journal _ (sink a1)) as [s [b|e]] eqn:Ej; [|intros [= <-] Hf; by destruct (Hf e)].
  pose proof (journal_untouched _ _ _ _ Ej) as Hu. assert (Replay (set_sink a1 s)) as R2 by (eapply quiet_replay; [|exact R1]; by split).
  clear Ej R1 Hu. destruct b; [by intros [= <-]|]. generalize dependent (set_sink a1 s). intros a2 R2.
  destruct (input_closed a2 && is_none (pending_delivery a2) && negb (bool_decide (buffers (epoch (sink a2)) = ∅))) eqn:E.
  { apply andb_true_iff in E as [E _]. apply andb_true_iff in E as [Hi Hp%is_none_true]. intros [= <-] Hf. unfold settle in *.
    destruct (close_epoch _ _) as [s1 [[]|e]] eqn:Ec; [|by destruct (Hf e)].
    destruct (close_epoch_cut _ _ _ Ec (replay_closed _ R2)) as [Hs Hc]. eapply forced_replay; [done|by left|done..]. }
  clear E. cbn zeta. assert (Replay (start_uploads config a2)) as R3 by (eapply quiet_replay; [|exact R2]; by repeat split). clear R2.
  generalize dependent (start_uploads config a2). intros a3 R3. destruct (_ && bool_decide (ready (sink a3) = [])).
  { intros [= <-]. unfold end_turn. pose proof (quiet_replay _ _ (emit_quiet (t_open t) a3) R3) as R4.
    destruct (emit_committed (t_open t) a3) as [a4 [|]]; cbn [negb fst] in *; [|intros Hf; by destruct (Hf SinkEventsClosed)].
    destruct (_ || _); [intros Hf; by destruct (Hf SinkIncomplete)|]. intros _. eapply quiet_replay; [|exact R4]. by repeat split. }
  assert (Replay (set_sink a3 (lift_barrier (t_pressure t) (sink a3)))) as R4.
  { eapply quiet_replay; [|exact R3]. unfold lift_barrier. destruct (memory_barrier_epoch (sink a3)) as [id|]; [destruct (_ || _)|]; by repeat split. }
  clear R3. generalize dependent (set_sink a3 (lift_barrier (t_pressure t) (sink a3))). intros a5 R5.
  destruct (pending_delivery a5) as [p|] eqn:Ep; [|by apply select_replay].
  destruct (_ && _); [|by apply select_replay]. intros [= <-]. by apply resume_replay.
Qed.

Lemma init_replay d p s : Replay (actor_init (sink_new d p s)).
Proof. split; [constructor| |done]. exists []. split; [split; [done|by left]|]. split; [constructor|done]. Qed.

Lemma run_replay l a a' : Replay a → run_turns a l = Some a' → (∀ e, outcome a' ≠ Some (Err e)) → Replay a'.
Proof.
  revert a. induction l as [|t l IH]; intros a R; cbn; [by intros [= <-]|]. case_bool_decide as Ho; [done|].
  destruct (turn t a) as [a1|] eqn:Et; [|done]. cbn. intros Hl Hf. eapply IH; [|exact Hl|exact Hf]. eapply turn_replay; [exact R|exact Et|].
  intros e He. destruct l as [|t' l]; cbn in Hl; [injection Hl as <-; by destruct (Hf e)|]. rewrite He in Hl.
  by rewrite bool_decide_eq_true_2 in Hl by eauto.
Qed.
End replay.

(** ** The properties *)

(** What an object is in the bucket. *)
Definition object_view (o : ClosedObject) : string * list Z * Z := (co_key o, co_payload o, co_rows o).

(** The objects of the rows of an epoch: for every table and path, in order, the key named
    after the first offset, the rows' texts one after the other, and their number. *)
Definition buffer_view `{ObjectStorePath} (config : S3ActorConfig) (kb : BufferKey * ObjectBuffer) : option (string * list Z * Z) :=
  match for_json_object (prefix config) kb.1.1 kb.1.2 (ob_topic kb.2) (ob_partition kb.2) (start_offset kb.2) with
  | Ok key => Some (key, ob_payload kb.2, ob_rows kb.2)
  | Err _ => None
  end.
Definition message_objects `{ObjectStorePath} (config : S3ActorConfig) (l : list Row) : list (string * list Z * Z) :=
  omap (buffer_view config) (bt_iter key_le (row_objects l)).

Definition epoch_objects `{ObjectStorePath} (config : S3ActorConfig) (e : Epoch) : list (string * list Z * Z) :=
  omap (buffer_view config) (bt_iter key_le (buffers e)).

Lemma close_buffers_view `{ObjectStorePath} config id e l : close_buffers config id e = Ok l → epoch_objects config e = object_view <$> l.
Proof.
  unfold epoch_objects, close_buffers. intros Hl%mapM_Ok. induction Hl as [|kb o kbs l Ho _ IH]; [done|].
  cbn. rewrite IH. unfold buffer_view. apply close_buffer_Ok in Ho as (-> & Hp & Hr & _). unfold object_view. by rewrite Hp, Hr.
Qed.
Lemma epoch_message_objects `{ObjectStorePath} config e open : holds_messages e open → epoch_objects config e = message_objects config (mjoin open).
Proof. intros Hm. unfold epoch_objects, message_objects. by rewrite (holds_buffers _ _ Hm). Qed.

Lemma bind_join {A B} (f : A → list B) l : l ≫= f = mjoin (f <$> l).
Proof. induction l as [|x l IH]; [done|]. cbn. by rewrite IH. Qed.

Section properties.
Context `{DurableStorage} `{!Json EpochRecord} `{ObjectStorePath, Chrono} (sha256 : list Z → list Z).
Context {AT : ArrowTypes} {AV : ArrowValues} {AC : ArrowCompute}.
Context (partition_text : DataType → option (OtherValue → string)).
Context {Encoder : Type} (JsonBatchEncoder_new : RecordBatch → result AnyhowError Encoder).
Context (write_row : Encoder → nat → result AnyhowError (list Z)).
Context (sort_unstable : list RoutedRow → list RoutedRow).
Context (config : S3ActorConfig) (sink_keep_system_columns : bool) (expected_partition_id : Z).
Abbreviation run_turns := (run_turns sha256 partition_text JsonBatchEncoder_new write_row sort_unstable config sink_keep_system_columns expected_partition_id).
Abbreviation Actor := (Actor (Encoder := Encoder)).

(** The objects of the epochs a session closed, in order. *)
Definition session_objects (a : Actor) : list (list (string * list Z * Z)) := (λ c, object_view <$> cl_objects c) <$> closings (sink a).
Definition running (a : Actor) : Prop := ∀ e, outcome a ≠ Some (Err e).

Lemma closed_views es oss es' :
  closed_as config es oss → Forall2 (≡) es es' → (λ os, object_view <$> os) <$> oss = epoch_objects config <$> es'.
Proof.
  intros Hc. revert es'. induction Hc as [|e os es oss [id Hos] _ IH]; intros es' Ha; inversion Ha as [|? e' ? es2 He Ha']; subst; [done|].
  cbn. rewrite (IH _ Ha'). f_equal. rewrite He in Hos. symmetry. by eapply close_buffers_view.
Qed.

(** The epochs closed are those of the arrivals. *)
Lemma session_epochs (a : Actor) :
  Replay config a → ∃ l, arrivals_of config a l ∧ Forall2 (≡) (cl_epoch <$> closings (sink a)) (cut config l).1.
Proof. intros [_ (l & Hl & Hal & _) _]. eauto. Qed.

Lemma session_views (a : Actor) :
  Replay config a → ∃ l, arrivals_of config a l ∧ session_objects a = epoch_objects config <$> (cut config l).1.
Proof.
  intros R. destruct (session_epochs a R) as (l & Ha & Hl). exists l. split; [done|].
  unfold session_objects. rewrite <-(closed_views _ _ _ (replay_closed _ _ R) Hl). by rewrite <-list_fmap_compose.
Qed.


Lemma epoch_objects_stripped l :
  epoch_objects config <$> (cut config (Arrived <$> l)).1 = epoch_objects config <$> (cut config (Arrived <$> stripped l)).1.
Proof.
  destruct (cut_unplaced config l) as [Hl _]. revert Hl. generalize (cut config (Arrived <$> l)).1, (cut config (Arrived <$> stripped l)).1.
  induction 1 as [|e e' es es' He _ IH]; [done|]. cbn. rewrite IH. f_equal. unfold epoch_objects. by rewrite (proj1 He).
Qed.

(** C6. Without wall-clock rotation, two sessions, over any upload and storage behaviour,
    timing and memory pressure: when the input of the first has not ended and the second
    consumed the messages of the first and more (the same rows, wherever they were in its
    deliveries), it closed the objects of the first, with the same keys and payloads in the
    same order, and more. *)
Theorem s3_replay_same_objects d1 p1 s1 l1 (a1 : Actor) d2 p2 s2 l2 (a2 : Actor) more :
  wall_clock_interval config = None →
  run_turns (actor_init (sink_new d1 p1 s1)) l1 = Some a1 → running a1 → input_closed a1 = false →
  run_turns (actor_init (sink_new d2 p2 s2)) l2 = Some a2 → running a2 →
  stripped (consumed a2).*2 = stripped (consumed a1).*2 ++ more →
  session_objects a1 `prefix_of` session_objects a2.
Proof.
  intros Hw Hrun1 Hr1 Hi1 Hrun2 Hr2 Hmore.
  destruct (session_views a1) as (arr1 & [_ Ha1] & ->); [by eapply run_replay; [apply init_replay|..]|].
  destruct (session_views a2) as (arr2 & [_ Ha2] & ->); [by eapply run_replay; [apply init_replay|..]|].
  destruct (Ha1 Hw) as [-> |(? & _)]; [|congruence].
  assert (∃ tail, arr2 = (Arrived <$> (consumed a2).*2) ++ tail) as [tail ->].
  { destruct (Ha2 Hw) as [-> |(_ & _ & ->)]; eauto. exists []. by rewrite app_nil_r. }
  destruct (cut_prefix config (Arrived <$> (consumed a2).*2) tail) as [es2 ->].
  rewrite fmap_app, (epoch_objects_stripped (consumed a1).*2), (epoch_objects_stripped (consumed a2).*2), Hmore, fmap_app.
  destruct (cut_prefix config (Arrived <$> stripped (consumed a1).*2) (Arrived <$> more)) as [es ->]. rewrite fmap_app, <-app_assoc. by eexists.
Qed.

(** C31. Whatever ends epochs, the wall clock included: when the messages of a session come
    in the order of their offsets and the names of its tables are path segments, no object
    it closes has the key of another. *)
Theorem s3_object_keys_unique d p s l (a : Actor) :
  run_turns (actor_init (sink_new d p s)) l = Some a → running a →
  in_order (consumed a).*2 → tables_ok (mjoin (consumed a).*2) →
  NoDup (co_key <$> (closings (sink a) ≫= cl_objects)).
Proof.
  intros Hrun Hr Hord Ht. pose proof (run_replay _ _ _ _ _ _ _ _ l _ a (init_replay config d p s) Hrun Hr) as R.
  destruct (session_epochs a R) as (arrivals & [Ha _] & Hl). destruct (cut_inv config arrivals) as [[Hok Hok2] Hrows].
  rewrite <-Ha in Hord, Ht. pose proof (cut_ordered config _ Hord) as Hco. rewrite <-Hrows in Ht.
  set (st := cut config arrivals) in *. set (es := cl_epoch <$> closings (sink a)) in *.
  assert (epoch_rows <$> es = epoch_rows <$> st.1) as Hes.
  { clear -Hl. induction Hl as [|e e' es es' He _ IH]; [done|]. cbn. f_equal; [apply He|exact IH]. }
  rewrite bind_join. apply (keys_unique config es).
  - clear -Hl Hok. induction Hl as [|e e' es es' He _ IH]; [constructor|]. apply Forall_cons in Hok as [[Hoe _] Hok].
    constructor; [by rewrite He|by apply IH].
  - unfold ordered_epochs, all_epochs in *. rewrite Hes. rewrite fmap_app in Hco. by eapply StronglySorted_app_1_l.
  - intros x Hx. apply Ht. unfold all_epochs. rewrite bind_app. apply elem_of_app. left. revert Hx.
    clear -Hes. intros Hx. apply list_elem_of_bind in Hx as (e & Hx & He).
    assert (epoch_rows e ∈ epoch_rows <$> st.1) as Hin by (rewrite <-Hes; by apply list_elem_of_fmap_2).
    apply list_elem_of_fmap in Hin as (e' & Ee & He'). apply list_elem_of_bind. exists e'. by rewrite <-Ee.
  - apply (replay_closed _ _ R).
Qed.
End properties.
