(* ===== verification/S3Durable.v ===== *)
(** * What the S3 sink guarantees

    The invariant of the actor of [S3Sink.v]: the tracker's outstanding units of a delivery
    are its rows that are pending, in the open epoch, or in a closed epoch that is not
    finalized; the objects of a finalized epoch were uploaded, in this session or by the
    process that recorded the epoch as closed.  From it: a delivery is reported as committed
    only when every row of it lies in objects that were uploaded, and what the journal
    records as closed stays true for the next session. *)

From stdpp Require Import base tactics numbers option strings gmap fin_maps sorting relations list.
From S2P Require Import Prelude Bytes DeliveryId DeliveryTracker RowCount Schema Arrow Delivery Changelog Failure Reader Admission Durable DurableStorage DurableRecord S3Objects S3Partition S3Journal S3Epochs S3Sink S3Replay.
Local Open Scope Z_scope.

(** ** Counting the rows of a delivery *)
Definition units (id : DeliveryId) (l : list (DeliveryId * Z)) : Z := lsum (λ x, if bool_decide (x.1 = id) then x.2 else 0) l.
Definition count_rows (id : DeliveryId) (l : list (DeliveryId * Row)) : Z := lsum (λ x, if bool_decide (x.1 = id) then 1 else 0) l.

Lemma count_rows_nonneg id l : 0 ≤ count_rows id l.
Proof. apply lsum_nonneg. intros x _. case_bool_decide; lia. Qed.
Lemma count_rows_pos id x l : (id, x) ∈ l → 0 < count_rows id l.
Proof.
  intros Hx. pose proof (lsum_elem (λ y : DeliveryId * Row, if bool_decide (y.1 = id) then 1 else 0) l (id, x)) as He.
  cbn in He. rewrite bool_decide_eq_true_2 in He by done. unfold count_rows.
  assert (1 ≤ lsum (λ y : DeliveryId * Row, if bool_decide (y.1 = id) then 1 else 0) l); [|lia].
  apply He; [|done]. intros y. case_bool_decide; lia.
Qed.
Lemma count_rows_tag id i (rows : list Row) : count_rows id ((i,.) <$> rows) = if bool_decide (i = id) then Z.of_nat (length rows) else 0.
Proof.
  unfold count_rows. rewrite lsum_fmap. cbn. induction rows as [|x rows IH]; [by case_bool_decide|]. rewrite lsum_cons, IH. cbn [length].
  case_bool_decide; lia.
Qed.

Lemma units_add l id n i : units i (add_delivery_rows l id n) = units i l + if bool_decide (id = i) then n else 0.
Proof.
  unfold add_delivery_rows, units. destruct (last l) as [[previous rows]|] eqn:El.
  - apply last_Some in El as [l' ->]. case_bool_decide as Hp.
    + rewrite removelast_last, !lsum_app, !lsum_cons. cbn. subst. case_bool_decide; lia.
    + rewrite !lsum_app, !lsum_cons. cbn. case_bool_decide; case_bool_decide; lia.
  - rewrite lsum_app, lsum_cons. cbn. case_bool_decide; lia.
Qed.

Lemma units_message config now id e rows i :
  units i (delivery_rows (add_message config now id e rows).1.1) = units i (delivery_rows e) + if bool_decide (id = i) then Z.of_nat (length rows) else 0.
Proof. unfold add_message. destruct (foldl _ _ _) as [[[? ?] ?] ?]. cbn [fst snd delivery_rows]. by rewrite units_add. Qed.

(** The bookkeeping of an epoch agrees with its rows. *)
Definition counted (e : Epoch) : Prop := ∀ id, units id (delivery_rows e) = count_rows id (ep_rows e).

Lemma counted_default : counted Epoch_default.
Proof. done. Qed.
Lemma counted_add config now id e rows : counted e → counted (add_message config now id e rows).1.1.
Proof.
  intros Hc i. rewrite add_message_rows. unfold count_rows. rewrite lsum_app. fold (count_rows i (ep_rows e)).
  fold (count_rows i ((id,.) <$> rows)). by rewrite count_rows_tag, <-Hc, units_message.
Qed.

(** The objects of epoch [i]. *)
Definition of_epoch (i : Z) (l : list ClosedObject) : Z := lsum (λ o, if bool_decide (co_epoch_id o = i) then 1 else 0) l.
Lemma of_epoch_app i l l' : of_epoch i (l ++ l') = of_epoch i l + of_epoch i l'.
Proof. apply lsum_app. Qed.
Lemma of_epoch_nonneg i l : 0 ≤ of_epoch i l.
Proof. apply lsum_nonneg. intros x _. case_bool_decide; lia. Qed.
Lemma of_epoch_pos o l : o ∈ l → 0 < of_epoch (co_epoch_id o) l.
Proof.
  intros Ho. pose proof (lsum_elem (λ y : ClosedObject, if bool_decide (co_epoch_id y = co_epoch_id o) then 1 else 0) l o) as He.
  cbn in He. rewrite bool_decide_eq_true_2 in He by done. unfold of_epoch.
  assert (1 ≤ lsum (λ y : ClosedObject, if bool_decide (co_epoch_id y = co_epoch_id o) then 1 else 0) l); [|lia].
  apply He; [|done]. intros y. case_bool_decide; lia.
Qed.
Lemma of_epoch_all i l : (∀ o, o ∈ l → co_epoch_id o = i) → of_epoch i l = Z.of_nat (length l).
Proof.
  intros Hl. unfold of_epoch. induction l as [|o l IH]; [done|]. rewrite lsum_cons, IH by (intros; apply Hl; by right).
  rewrite bool_decide_eq_true_2 by (apply Hl; by left). cbn [length]. lia.
Qed.
Lemma of_epoch_none i l : (∀ o, o ∈ l → co_epoch_id o ≠ i) → of_epoch i l = 0.
Proof.
  intros Hl. unfold of_epoch. induction l as [|o l IH]; [done|]. rewrite lsum_cons, IH by (intros; apply Hl; by right).
  rewrite bool_decide_eq_false_2 by (apply Hl; by left). lia.
Qed.

(** ** Completing the rows of an epoch *)
Lemma complete_rows_spec l t q t' :
  represents t q → next_received t < u64_max → for_each complete_rows l t = Ok t' →
  (∃ q', represents t' q') ∧ next_received t' = next_received t ∧ next_commit t' = next_commit t ∧
  ∀ i, outstanding t' i = outstanding t i - units i l.
Proof.
  revert t q. induction l as [|[id n] l IH]; intros t q Hq Hlt; cbn [for_each].
  { intros [= <-]. split_and!; [by eexists|done..|]. intros i. unfold units. cbn. lia. }
  intros (t1 & Hc & Hl)%bind_Ok. unfold complete_rows in Hc. cbn [fst snd] in Hc.
  destruct (call_step_represents t q (CComplete id n) Hq Hlt) as (q1 & Hq1 & _). cbn [call_step fst] in Hq1.
  pose proof (outstanding_complete t id n) as Ho. cbn [call_units] in Ho.
  assert (next_received (complete t id n).1 = next_received t ∧ next_commit (complete t id n).1 = next_commit t) as [Hr Hcm].
  { unfold complete. destruct (entries t !! id) as [d|]; [|done]. by destruct (checked_sub _ _). }
  destruct (complete t id n) as [t2 [[]|]]; [|done]. injection Hc as <-. cbn [fst snd is_ok] in *.
  destruct (IH t2 q1 Hq1 ltac:(lia) Hl) as (Hq' & Hr' & Hcm' & Ho'). split_and!; [done|congruence..|].
  intros i. rewrite Ho', Ho. unfold units. rewrite lsum_cons. cbn [fst snd]. rewrite andb_true_r. case_bool_decide; lia.
Qed.

Section durable.
Context `{DurableStorage} `{!Json EpochRecord} `{ObjectStorePath, Chrono} (sha256 : list Z → list Z).
Context {AT : ArrowTypes} {AV : ArrowValues} {AC : ArrowCompute}.
Context (partition_text : DataType → option (OtherValue → string)).
Context {Encoder : Type} (JsonBatchEncoder_new : RecordBatch → result AnyhowError Encoder).
Context (write_row : Encoder → nat → result AnyhowError (list Z)).
Context (sort_unstable : list RoutedRow → list RoutedRow).
Context (config : S3ActorConfig) (sink_keep_system_columns : bool) (expected_partition_id : Z).
Hypothesis Hkeys : ∀ k, epoch_key sha256 k → key_ok k.
Hypothesis Hpartition : - 2 ^ 63 ≤ expected_partition_id < 2 ^ 63.
(** The objects uploaded by other sessions. *)
Context (W : ManifestObject → Prop).

Abbreviation Actor := (Actor (Encoder := Encoder)).
Abbreviation close_epoch := (close_epoch sha256 config expected_partition_id).
Abbreviation accept_message_group := (accept_message_group sha256 write_row config expected_partition_id).

(** The object was uploaded, by this session or another. *)
Definition durable (up : list ClosedObject) (m : ManifestObject) : Prop := W m ∨ ∃ o, o ∈ up ∧ m = manifest sha256 o.
Abbreviation stored up o := (durable up (manifest sha256 o)).

Lemma durable_more up up' m : durable up m → durable (up ++ up') m.
Proof. intros [?|(o & Ho & ->)]; [by left|right]. exists o. split; [|done]. apply elem_of_app. by left. Qed.

Definition journaled (up fl : list ClosedObject) (s : S3Sink) (i : Z) (ce : ClosedEpoch) (c : Closing) : Prop :=
  ce_delivery_rows ce = delivery_rows (cl_epoch c) ∧ journal_ok sha256 (cl_objects c) (ce_journal ce) ∧
  if ce_journal_closed ce then ∀ o, o ∈ cl_objects c → stored up o
  else remaining_objects ce = of_epoch i (fl ++ ready s) ∧ ∀ o, o ∈ cl_objects c → o ∈ fl ++ ready s ∨ stored up o.

(** [up] was uploaded, [fl] is in flight, [pc] rows of a delivery are pending. *)
Record SInv (up fl : list ClosedObject) (pc : DeliveryId → Z) (s : S3Sink) : Prop := {
  si_rep : ∃ q, represents (progress s) q;
  si_next : next_epoch_id s = Z.of_nat (length (closings s));
  si_out id : outstanding (progress s) id = pc id + units id (delivery_rows (epoch s)) + msum (λ ce, units id (ce_delivery_rows ce)) (closed_epochs s);
  si_epoch : counted (epoch s);
  si_open i ce : closed_epochs s !! i = Some ce → ∃ k c, i = Z.of_nat k ∧ closings s !! k = Some c ∧ journaled up fl s i ce c;
  si_gone k c : closings s !! k = Some c → closed_epochs s !! Z.of_nat k = None → ∀ o, o ∈ cl_objects c → stored up o;
  si_log k c : closings s !! k = Some c → counted (cl_epoch c) ∧ ∀ o, o ∈ cl_objects c → co_epoch_id o = Z.of_nat k;
  si_flight o : o ∈ fl ++ ready s → co_epoch_id o < Z.of_nat (length (closings s));
  si_store : sound sha256 (durable up) (durable_storage s)
}.

(** Fields the invariant does not read, and the state of the storage. *)
Lemma si_same up fl pc s s' :
  SInv up fl pc s → progress s' = progress s → next_epoch_id s' = next_epoch_id s → epoch s' = epoch s → closed_epochs s' = closed_epochs s →
  closings s' = closings s → ready s' = ready s → sound sha256 (durable up) (durable_storage s') → SInv up fl pc s'.
Proof.
  intros [Hrep Hn Ho He Hop Hg Hl Hf Hs] Ep En Ee Ec El Er Hs'. split; unfold journaled in *; rewrite ?Ep, ?En, ?Ee, ?Ec, ?El, ?Er; done.
Qed.

(** *** Finalizing an epoch that is recorded as closed *)
Lemma finalize_inv up fl pc s i ce s' :
  SInv up fl pc s → next_received (progress s) < u64_max →
  closed_epochs s !! i = Some ce → ce_journal_closed ce = true → finalize_epoch i s = Ok s' →
  SInv up fl pc s' ∧ next_received (progress s') = next_received (progress s) ∧ next_commit (progress s') = next_commit (progress s).
Proof.
  intros I Hlt Hce Hcl. unfold finalize_epoch. rewrite Hce. cbn. intros (t & Ht & [= <-])%bind_Ok.
  destruct (si_rep _ _ _ _ I) as [q Hq]. destruct (complete_rows_spec _ _ q t Hq Hlt Ht) as (Hq' & Hr & Hcm & Ho).
  split; [|done]. destruct I as [_ Hn Hout He Hop Hg Hl Hf Hs]. split; cbn; try done.
  - intros id. rewrite Ho, Hout, (msum_delete _ (closed_epochs s) i ce) by done. cbn. lia.
  - intros j ce' [_ Hj]%lookup_delete_Some. by apply Hop.
  - intros k c Hk Hd o Hoc. apply lookup_delete_None in Hd as [->|Hd]; [|by eapply Hg].
    destruct (Hop _ _ Hce) as (k' & c' & Ek & Hk' & _ & _ & Hj). assert (k = k') as -> by lia. simplify_eq.
    rewrite Hcl in Hj. by apply Hj.
Qed.

(** *** Changing the count of an epoch *)
Lemma remaining_inv up up' fl fl' pc s i ce n :
  SInv up fl pc s → closed_epochs s !! i = Some ce →
  (∀ m, durable up m → durable up' m) →
  (∀ j, j ≠ i → of_epoch j (fl' ++ ready s) = of_epoch j (fl ++ ready s)) →
  (ce_journal_closed ce = false → n = of_epoch i (fl' ++ ready s)) →
  (∀ o, o ∈ fl ++ ready s → o ∈ fl' ++ ready s ∨ stored up' o) → (∀ o, o ∈ fl' ++ ready s → o ∈ fl ++ ready s) →
  SInv up' fl' pc (with_progress s (<[i := set_remaining ce n]> (closed_epochs s)) (progress s)).
Proof.
  intros [Hrep Hn Ho He Hop Hg Hl Hf Hs] Hce Hup Hoth Hcnt Hfl Hfl'. split; cbn; try done.
  - intros id. rewrite Ho. f_equal. rewrite (msum_update _ (closed_epochs s) i ce (set_remaining ce n)) by done. cbn [set_remaining ce_delivery_rows]. lia.
  - intros j ce' Hj. destruct (decide (j = i)) as [->|Hne].
    + rewrite lookup_insert_eq in Hj. injection Hj as <-. destruct (Hop i ce Hce) as (k & c & Ek & Hk & Hd & Hjo & Hcase).
      exists k, c. do 4 (split; [done|]). cbn. destruct (ce_journal_closed ce); [intros o Hoc; by apply Hup, Hcase|].
      split; [by apply Hcnt|]. intros o Hoc. destruct (proj2 Hcase o Hoc) as [Hin|Hst]; [by apply Hfl|right; by apply Hup].
    + rewrite lookup_insert_ne in Hj by done. destruct (Hop j ce' Hj) as (k & c & Ek & Hk & Hd & Hjo & Hcase).
      exists k, c. do 4 (split; [done|]). cbn. destruct (ce_journal_closed ce'); [intros o Hoc; by apply Hup, Hcase|].
      split; [by rewrite Hoth; [apply Hcase|]|]. intros o Hoc. destruct (proj2 Hcase o Hoc) as [Hin|Hst]; [by apply Hfl|right; by apply Hup].
  - intros k c Hk Hd o Hoc. apply Hup. eapply Hg; [done| |done]. destruct (decide (Z.of_nat k = i)) as [<-|Hne].
    + by rewrite lookup_insert_eq in Hd.
    + by rewrite lookup_insert_ne in Hd.
  - intros o Hin. by apply Hf, Hfl'.
  - by eapply sound_mono.
Qed.

(** The cursors of the tracker do not move when rows are completed. *)
Definition cursors (s s' : S3Sink) : Prop :=
  next_received (progress s') = next_received (progress s) ∧ next_commit (progress s') = next_commit (progress s).

Lemma of_epoch_perm i l l' : l ≡ₚ l' → of_epoch i l = of_epoch i l'.
Proof. apply lsum_perm. Qed.

Lemma complete_inv up up' fl fl' pc s o s' :
  SInv up fl pc s → next_received (progress s) < u64_max →
  (∀ m, durable up m → durable up' m) →
  (∀ j, j ≠ co_epoch_id o → of_epoch j (fl' ++ ready s) = of_epoch j (fl ++ ready s)) →
  (∀ ce, closed_epochs s !! co_epoch_id o = Some ce → ce_journal_closed ce = false → remaining_objects ce - 1 = of_epoch (co_epoch_id o) (fl' ++ ready s)) →
  (∀ o, o ∈ fl ++ ready s → o ∈ fl' ++ ready s ∨ stored up' o) → (∀ o, o ∈ fl' ++ ready s → o ∈ fl ++ ready s) →
  complete_durable_object s o = Ok s' → SInv up' fl' pc s' ∧ cursors s s'.
Proof.
  intros I Hlt Hup Hoth Hcnt Hfl Hfl'. unfold complete_durable_object. intros (ce & Hce & (n & Hn & Hc)%bind_Ok)%bind_Ok.
  destruct (closed_epochs s !! co_epoch_id o) as [ce'|] eqn:Eo; cbn in Hce; [|done]. injection Hce as ->.
  destruct (checked_sub _ _) as [n'|] eqn:En; cbn in Hn; [|done]. injection Hn as ->. apply checked_sub_Some in En as [-> _].
  assert (SInv up' fl' pc (with_progress s (<[co_epoch_id o := set_remaining ce (remaining_objects ce - 1)]> (closed_epochs s)) (progress s))) as I1.
  { eapply remaining_inv; [exact I|exact Eo|done|done| |done|done]. by apply Hcnt. }
  cbn zeta in Hc. destruct (_ && _) eqn:E; [|by injection Hc as <-]. apply andb_true_iff in E as [_ Hcl].
  eapply finalize_inv in Hc; [exact Hc|exact I1|done|cbn; apply lookup_insert_eq|done].
Qed.

Lemma upload_inv up fl pc s i o s' :
  SInv up fl pc s → next_received (progress s) < u64_max → fl !! i = Some o → complete_upload s o (Ok tt) = Ok s' →
  SInv (up ++ [o]) (delete i fl) pc s' ∧ cursors s s'.
Proof.
  intros I Hlt Hi. unfold complete_upload. intros (f & _ & (u & _ & (b & _ & Hc)%bind_Ok)%bind_Ok)%bind_Ok.
  pose proof (delete_Permutation fl i o Hi) as Hp.
  assert (∀ j, of_epoch j (fl ++ ready s) = (if bool_decide (co_epoch_id o = j) then 1 else 0) + of_epoch j (delete i fl ++ ready s)) as Hof.
  { intros j. rewrite (of_epoch_perm j _ _ (Permutation_app_tail (ready s) Hp)). done. }
  eapply (complete_inv up (up ++ [o]) fl (delete i fl)) in Hc; [exact Hc| |done|by intros; apply durable_more|..]; cbn.
  - eapply si_same; [exact I|done..|apply (si_store _ _ _ _ I)].
  - intros j Hj. rewrite Hof, bool_decide_eq_false_2 by done. lia.
  - intros ce Hce Hcl. destruct (si_open _ _ _ _ I _ _ Hce) as (k & c & Ek & Hk & _ & _ & Hj). rewrite Hcl in Hj. destruct Hj as [-> _].
    rewrite Hof, bool_decide_eq_true_2 by done. lia.
  - intros o'. rewrite (Permutation_app_tail (ready s) Hp). cbn. intros [->|Hin]%elem_of_cons; [right; right|by left].
    exists o. split; [|done]. apply elem_of_app. right. by apply list_elem_of_singleton.
  - intros o' Hin. rewrite (Permutation_app_tail (ready s) Hp). cbn. by right.
Qed.

Lemma replays_inv up fl pc i l s s' :
  (∀ o, o ∈ l → co_epoch_id o = i) → SInv up fl pc s → next_received (progress s) < u64_max →
  (∀ ce, closed_epochs s !! i = Some ce → ce_journal_closed ce = true) →
  for_each replay_object l s = Ok s' → SInv up fl pc s' ∧ cursors s s'.
Proof.
  revert s. induction l as [|o l IH]; intros s Hid I Hlt Hcl; cbn [for_each]; [by intros [= <-]|].
  intros (s1 & Hr & Hl)%bind_Ok. unfold replay_object in Hr. apply bind_Ok in Hr as (b & _ & Hr).
  assert (co_epoch_id o = i) as Ho by (apply Hid; by left).
  assert (∀ ce, closed_epochs s1 !! i = Some ce → ce_journal_closed ce = true) as Hcl1.
  { intros ce. unfold complete_durable_object in Hr. apply bind_Ok in Hr as (ce0 & Hz & (n & _ & Hc)%bind_Ok). cbn in Hz. rewrite Ho in *.
    destruct (closed_epochs s !! i) as [ce1|] eqn:E; [|done]. cbn in Hz. injection Hz as ->. specialize (Hcl ce0 eq_refl). cbn zeta in Hc.
    destruct (_ && _).
    - unfold finalize_epoch in Hc. apply bind_Ok in Hc as (x & _ & (t & _ & [= <-])%bind_Ok). cbn. by rewrite lookup_delete_eq.
    - injection Hc as <-. cbn. rewrite lookup_insert_eq. by intros [= <-]. }
  eapply (complete_inv up up fl fl) in Hr; [destruct Hr as [I1 [Er Ec]]| |done|done|done| |by left|done].
  - destruct (IH s1) as [I2 [Er2 Ec2]]; [intros; apply Hid; by right|done|cbn in Er; lia|done|done|]. split; [done|]. cbn in *. split; congruence.
  - eapply si_same; [exact I|done..|apply (si_store _ _ _ _ I)].
  - cbn. rewrite Ho. intros ce Hce ?. specialize (Hcl ce Hce). congruence.
Qed.

(** *** Closing an epoch *)
Lemma objects_ids id e l : close_buffers config id e = Ok l → length l = size (buffers e) ∧ ∀ o, o ∈ l → co_epoch_id o = id.
Proof.
  unfold close_buffers. intros Hl%mapM_Ok. split.
  - apply Forall2_length in Hl. by rewrite <-Hl, length_bt_iter.
  - intros o [j Hj]%list_elem_of_lookup. destruct (Forall2_lookup_r _ _ _ j o Hl Hj) as (kb & _ & Hkb). by apply close_buffer_Ok in Hkb as (_ & _ & _ & ?).
Qed.

Lemma register_inv up fl pc s l j d :
  SInv up fl pc s → Z.of_nat (length (closings s)) < u64_max →
  close_buffers config (next_epoch_id s) (epoch s) = Ok l → journal_ok sha256 l j →
  (d = AlreadyClosed → ∀ o, o ∈ l → stored up o) →
  SInv up fl pc (register_epoch (take_epoch s) (next_epoch_id s) (epoch s) j l d).
Proof.
  intros [Hrep Hn Ho He Hop Hg Hl Hf Hs] Hlt Hcl Hj Hd. destruct (objects_ids _ _ _ Hcl) as [Hlen Hids].
  assert (closed_epochs s !! next_epoch_id s = None) as Hnew.
  { destruct (closed_epochs s !! next_epoch_id s) as [ce|] eqn:E; [|done]. destruct (Hop _ _ E) as (k & c & Ek & Hk & _).
    apply lookup_lt_Some in Hk. lia. }
  assert (∀ o, o ∈ fl ++ ready s → co_epoch_id o ≠ next_epoch_id s) as Hold by (intros o Hin; apply Hf in Hin; lia).
  assert (∀ i, i ≠ next_epoch_id s → ∀ b : bool, of_epoch i (fl ++ ready s ++ (if b then l else [])) = of_epoch i (fl ++ ready s)) as Hcnt.
  { intros i Hi b. rewrite app_assoc, of_epoch_app.
    assert (of_epoch i (if b then l else []) = 0) as Hz; [|lia]. apply of_epoch_none. intros o Hin.
    destruct b; [rewrite (Hids o Hin); congruence|by apply not_elem_of_nil in Hin]. }
  split; cbn [register_epoch take_epoch progress next_epoch_id epoch closed_epochs closings ready durable_storage].
  - done.
  - rewrite length_app. cbn. unfold saturating_add. lia.
  - intros id. rewrite Ho, msum_insert by done. cbn [ce_delivery_rows]. change (units id (delivery_rows Epoch_default)) with 0. lia.
  - apply counted_default.
  - intros i ce Hi. destruct (decide (i = next_epoch_id s)) as [->|Hne].
    + rewrite lookup_insert_eq in Hi. injection Hi as <-. exists (length (closings s)). eexists. split; [done|].
      split; [by rewrite lookup_app_r, Nat.sub_diag by lia|]. split; [done|]. split; [done|]. cbn. destruct d; cbn.
      * rewrite (bool_decide_eq_false_2 (Upload = AlreadyClosed)), (bool_decide_eq_true_2 (Upload = Upload)) by done. split.
        { rewrite app_assoc, of_epoch_app, of_epoch_none, of_epoch_all, Hlen by done. lia. }
        intros o Hin. left. rewrite !elem_of_app. auto.
      * rewrite (bool_decide_eq_true_2 (AlreadyClosed = AlreadyClosed)) by done. by apply Hd.
    + rewrite lookup_insert_ne in Hi by done. destruct (Hop i ce Hi) as (k & c & Ek & Hk & Hdr & Hjo & Hcase). exists k, c.
      split; [done|]. split; [by apply lookup_app_l_Some|]. split; [done|]. split; [done|]. cbn.
      destruct (ce_journal_closed ce); [done|]. rewrite Hcnt by done. destruct Hcase as [Hr Hcase]. split; [done|].
      intros o Hin. destruct (Hcase o Hin) as [Hf'|]; [left|by right]. rewrite app_assoc. apply elem_of_app. by left.
  - intros k c Hk Hd' o Hin. apply lookup_app_Some in Hk as [Hk|[Hge Hk]].
    + eapply Hg; [exact Hk| |done]. apply lookup_lt_Some in Hk. rewrite lookup_insert_ne in Hd' by lia. done.
    + apply list_lookup_singleton_Some in Hk as [Hk <-]. rewrite Hn in Hd'. replace (Z.of_nat k) with (Z.of_nat (length (closings s))) in Hd' by lia.
      by rewrite lookup_insert_eq in Hd'.
  - intros k c Hk. apply lookup_app_Some in Hk as [Hk|[Hge Hk]]; [by apply Hl|].
    apply list_lookup_singleton_Some in Hk as [Hk <-]. cbn. split; [done|]. intros o Hin. rewrite (Hids o Hin). lia.
  - intros o. rewrite app_assoc, length_app. cbn. intros [Hin|Hin]%elem_of_app; [apply Hf in Hin; lia|].
    case_bool_decide; [|by apply not_elem_of_nil in Hin]. rewrite (Hids o Hin). lia.
  - done.
Qed.

Definition bounded (s : S3Sink) : Prop := next_received (progress s) < u64_max ∧ Z.of_nat (length (closings s)) + 2 < u64_max.

Lemma close_epoch_inv up fl pc calls s s' r :
  SInv up fl pc s → bounded s → (∀ i, polite sha256 (durable up) (calls i)) → close_epoch calls s = (s', r) →
  sound sha256 (durable up) (durable_storage s') ∧
  (r = Ok tt → SInv up fl pc s' ∧ cursors s s' ∧ (length (closings s') ≤ S (length (closings s)))%nat).
Proof.
  intros I [Hb1 Hb2] Hp. unfold S3Sink.close_epoch. case_bool_decide.
  { intros [= <- <-]. split; [apply (si_store _ _ _ _ I)|]. intros _. split_and!; [done|done|lia]. }
  destruct (close_buffers _ _ _) as [l|] eqn:El; [|intros [= <- <-]; split; [apply (si_store _ _ _ _ I)|done]].
  destruct (EpochJournal_new _ _ _) as [j|] eqn:Ej; [|intros [= <- <-]; split; [apply (si_store _ _ _ _ I)|done]].
  apply journal_new_ok in Ej; [|done].
  pose proof (open_loop_sound sha256 Hkeys (durable up) l j Ej 3 calls 0 _ Hp (si_store _ _ _ _ I)) as [Hs Hd].
  fold (ensure_open j calls (durable_storage s)) in Hs, Hd. cbn [take_epoch durable_storage].
  destruct (ensure_open j calls (durable_storage s)) as [store [d|x]]; cbn in Hs, Hd; [|intros [= <- <-]; split; [exact Hs|done]].
  assert (SInv up fl pc (register_epoch (with_storage (take_epoch s) store) (next_epoch_id s) (epoch s) j l d)) as I1.
  { eapply si_same; [apply (register_inv up fl pc s l j d); try done; [lia|]|done..|exact Hs]. intros ->. by apply Hd. }
  destruct d; [intros [= <- <-]; split; [exact Hs|]; intros _; split_and!; [exact I1|done|cbn; rewrite length_app; cbn; lia]|].
  destruct (objects_ids _ _ _ El) as [_ Hids].
  destruct (for_each replay_object l _) as [s2|x] eqn:Er; [|intros [= <- <-]; split; [exact Hs|done]]. intros [= <- <-].
  pose proof (replays_untouched _ _ _ Er) as [_ Hcl].
  eapply (replays_inv up fl pc (next_epoch_id s)) in Er as [I2 Hc2]; [|done|exact I1|done|cbn; rewrite lookup_insert_eq; by intros ce [= <-]].
  split; [apply (si_store _ _ _ _ I2)|]. intros _. split_and!; [done|done|]. rewrite Hcl. cbn. rewrite length_app. cbn. lia.
Qed.

(** *** Recording a complete epoch as closed *)
Lemma complete_epoch_Some s i ce :
  complete_epoch s = Some (i, ce) → closed_epochs s !! i = Some ce ∧ remaining_objects ce = 0 ∧ ce_journal_closed ce = false.
Proof.
  unfold complete_epoch. intros Hh. assert ((i, ce) ∈ filter (λ x : Z * ClosedEpoch, remaining_objects x.2 = 0 ∧ ce_journal_closed x.2 = false) (bt_iter Z.le (closed_epochs s))) as Hin.
  { destruct (filter _ _); [done|]. injection Hh as ->. by left. }
  apply list_elem_of_filter in Hin as [[? ?] Hin]. rewrite bt_iter_perm, elem_of_map_to_list in Hin. done.
Qed.

Lemma journal_inv up fl pc calls s s' r :
  SInv up fl pc s → bounded s → (∀ i, polite sha256 (durable up) (calls i)) → close_completed_epoch_journal calls s = (s', r) →
  sound sha256 (durable up) (durable_storage s') ∧ (is_ok r = true → SInv up fl pc s' ∧ cursors s s').
Proof.
  intros I [Hb _] Hp. unfold close_completed_epoch_journal. destruct (complete_epoch s) as [[i ce]|] eqn:Ec.
  2: { intros [= <- <-]. split; [apply (si_store _ _ _ _ I)|]. by intros _. }
  apply complete_epoch_Some in Ec as (Hce & Hr & Hcl). destruct (si_open _ _ _ _ I _ _ Hce) as (k & c & Ek & Hk & Hd & Hj & Hcase).
  rewrite Hcl in Hcase. destruct Hcase as [Hcnt Hcase].
  assert (∀ o, o ∈ cl_objects c → stored up o) as Hall.
  { intros o Ho. destruct (Hcase o Ho) as [Hin|?]; [|done]. exfalso. pose proof (of_epoch_pos o _ Hin) as Hpos.
    rewrite (proj2 (si_log _ _ _ _ I k c Hk) o Ho), <-Ek in Hpos. lia. }
  pose proof (close_loop_sound sha256 Hkeys (durable up) _ _ Hj 3 calls 0 _ Hp Hall (si_store _ _ _ _ I)) as Hs.
  fold (mark_closed (ce_journal ce) calls (durable_storage s)) in Hs.
  destruct (mark_closed _ _ _) as [store [[]|x]]; cbn in Hs; [|intros [= <- <-]; split; [exact Hs|done]].
  set (closed := {| remaining_objects := remaining_objects ce; ce_journal_closed := true |}).
  set (s1 := with_progress _ _ _).
  assert (SInv up fl pc s1) as I1.
  { destruct I as [Hrep Hn Ho He Hop Hg Hl Hf _]. split; cbn; try done.
    - intros id. rewrite Ho. f_equal. rewrite (msum_update _ (closed_epochs s) i ce closed) by done. cbn [closed ce_delivery_rows]. lia.
    - intros j ce' Hj'. destruct (decide (j = i)) as [->|Hne].
      + rewrite lookup_insert_eq in Hj'. injection Hj' as <-. exists k, c. do 4 (split; [done|]). done.
      + rewrite lookup_insert_ne in Hj' by done. by apply Hop.
    - intros k' c' Hk' Hd'. apply (Hg k' c' Hk'). destruct (decide (Z.of_nat k' = i)) as [<-|Hne].
      + by rewrite lookup_insert_eq in Hd'.
      + by rewrite lookup_insert_ne in Hd'. }
  destruct (finalize_epoch i s1) as [s2|x] eqn:Ef; [|intros [= <- <-]; split; [exact Hs|done]]. intros [= <- <-].
  eapply finalize_inv in Ef as [I2 Hc2]; [|exact I1|done|cbn; apply lookup_insert_eq|done].
  split; [apply (si_store _ _ _ _ I2)|]. by intros _.
Qed.

(** *** Taking a message *)
Lemma accept_group_inv up fl pc now calls id encs rows s s' r :
  SInv up fl pc s → bounded s → Z.of_nat (length (closings s)) + 4 < u64_max → (∀ i j, polite sha256 (durable up) (calls i j)) →
  accept_message_group now calls id encs rows s = (s', r) →
  sound sha256 (durable up) (durable_storage s') ∧
  (is_ok r = true → SInv up fl (λ i, pc i - if bool_decide (id = i) then Z.of_nat (length rows) else 0) s' ∧ cursors s s' ∧
     (length (closings s') ≤ S (S (length (closings s))))%nat).
Proof.
  intros I Hb Hb4 Hp. unfold S3Sink.accept_message_group.
  assert (∀ s1 r1, (if rotates config (epoch s) rows then close_epoch (calls 0%nat) s else (s, Ok tt)) = (s1, r1) →
    sound sha256 (durable up) (durable_storage s1) ∧
    (r1 = Ok tt → SInv up fl pc s1 ∧ cursors s s1 ∧ (length (closings s1) ≤ S (length (closings s)))%nat)) as H1'.
  { intros s1 r1. destruct (rotates _ _ _); [by apply close_epoch_inv|]. intros [= <- <-]. split; [apply (si_store _ _ _ _ I)|].
    intros _. split_and!; [done|done|lia]. }
  destruct (if rotates config (epoch s) rows then close_epoch (calls 0%nat) s else (s, Ok tt)) as [s1 [[]|e]];
    destruct (H1' _ _ eq_refl) as [Hs1 H1'']; [|intros [= <- <-]; done]. destruct (H1'' eq_refl) as (I1 & Hc1 & Hl1). clear H1' H1''.
  destruct (mapM _ rows) as [encoded|e] eqn:Em; [|intros [= <- <-]; split; [exact Hs1|done]].
  assert (length encoded = length rows) as Hlen by (apply mapM_Ok, Forall2_length in Em; done).
  destruct (add_message config now id (epoch s1) encoded) as [[e serialized] ends] eqn:Ea.
  set (s2 := with_epoch s1 e _).
  assert (SInv up fl (λ i, pc i - if bool_decide (id = i) then Z.of_nat (length rows) else 0) s2) as I2.
  { pose proof (counted_add config now id (epoch s1) encoded) as Hcount. pose proof (units_message config now id (epoch s1) encoded) as Hunits.
    rewrite Ea in Hcount, Hunits. cbn in Hcount, Hunits. destruct I1 as [Hrep Hn Ho He Hop Hg Hl Hf Hs]. split; cbn; try done.
    - intros i. rewrite Ho, Hunits, Hlen. case_bool_decide; lia.
    - by apply Hcount. }
  assert (bounded s2) as Hb2 by (destruct Hb, Hc1; split; cbn; lia).
  destruct ends.
  - destruct (close_epoch (calls 1%nat) s2) as [s3 r3] eqn:E3. destruct (close_epoch_inv _ _ _ _ _ _ _ I2 Hb2 (Hp 1%nat) E3) as [Hs3 H3'].
    destruct r3 as [[]|x]; intros [= <- <-]; [|done]. split; [done|]. intros _. destruct (H3' eq_refl) as (I3 & Hc3 & Hl3). cbn in Hl3.
    split_and!; [done| |lia]. destruct Hc1, Hc3. split; cbn in *; congruence.
  - intros [= <- <-]. split; [exact Hs1|]. intros _. split_and!; [done|done|cbn; lia].
Qed.

(** *** Where the rows are *)
Definition in_epochs (st : list Epoch * Epoch) (x : DeliveryId * Row) : Prop := ∃ e, e ∈ all_epochs st ∧ x ∈ ep_rows e.
Definition epochs_ok (s : S3Sink) : Prop := objects_closed config s ∧ Forall epoch_ok (all_epochs (epochs_of s)).

Lemma close_open_in st x : in_epochs st x → in_epochs (close_open st) x.
Proof.
  unfold in_epochs, close_open, all_epochs. case_bool_decide; [done|]. intros (e & He & Hx). exists e. split; [|done]. cbn.
  apply elem_of_app. by left.
Qed.
Lemma close_open_epochs_ok st : Forall epoch_ok (all_epochs st) → Forall epoch_ok (all_epochs (close_open st)).
Proof.
  unfold close_open, all_epochs. case_bool_decide; [done|]. intros Hf. cbn. apply Forall_app. split; [done|]. by constructor.
Qed.
Lemma close_epoch_rows calls s s' :
  close_epoch calls s = (s', Ok tt) → epochs_ok s → epochs_ok s' ∧ ∀ x, in_epochs (epochs_of s) x → in_epochs (epochs_of s') x.
Proof.
  intros Hc [Ho Hf]. destruct (close_epoch_cut _ _ _ _ _ _ Hc Ho) as [He Ho']. unfold epochs_ok. rewrite He.
  split; [split; [done|by apply close_open_epochs_ok]|]. intros x. apply close_open_in.
Qed.
Lemma add_rows s e bytes :
  epoch_ok e → (∀ x, x ∈ ep_rows (epoch s) → x ∈ ep_rows e) → epochs_ok s →
  epochs_ok (with_epoch s e bytes) ∧ ∀ x, in_epochs (epochs_of s) x → in_epochs (epochs_of (with_epoch s e bytes)) x.
Proof.
  intros He Hx [Ho Hf]. unfold epochs_ok, in_epochs, all_epochs, epochs_of in *. cbn in *. apply Forall_app in Hf as [Hf _]. split.
  - split; [done|]. apply Forall_app. split; [done|]. by constructor.
  - intros x (e' & [He'|He']%elem_of_app & Hin); [exists e'; split; [apply elem_of_app; by left|done]|].
    apply list_elem_of_singleton in He' as ->. exists e. split; [apply elem_of_app; right; by left|auto].
Qed.

Lemma accept_group_rows now calls id encs rows s s' encoded :
  accept_message_group now calls id encs rows s = (s', Ok encoded) → epochs_ok s →
  epochs_ok s' ∧ (∀ x, in_epochs (epochs_of s) x → in_epochs (epochs_of s') x) ∧
  Forall2 (λ r x, encode_row write_row encs r = Ok x) rows encoded ∧ ∀ x, x ∈ encoded → in_epochs (epochs_of s') (id, x).
Proof.
  unfold S3Sink.accept_message_group. intros Ha Hok.
  destruct (if rotates config (epoch s) rows then close_epoch (calls 0%nat) s else (s, Ok tt)) as [s1 [[]|]] eqn:E1; [|done].
  assert (epochs_ok s1 ∧ ∀ x, in_epochs (epochs_of s) x → in_epochs (epochs_of s1) x) as [Hok1 Hin1].
  { destruct (rotates _ _ _); [by eapply close_epoch_rows|by simplify_eq]. }
  destruct (mapM _ rows) as [enc|] eqn:Em; [|done]. apply mapM_Ok in Em.
  destruct (add_message config now id (epoch s1) enc) as [[e serialized] ends] eqn:Eadd.
  pose proof (add_message_rows config now id (epoch s1) enc) as Hrows. pose proof (add_message_ok config now id (epoch s1) enc) as Hadd.
  rewrite Eadd in Hrows, Hadd. cbn [fst snd] in Hrows, Hadd.
  set (bytes := saturating_add _ _ _) in Ha.
  destruct (add_rows s1 e bytes) as [Hok2 Hin2]; [|intros x Hx; rewrite Hrows; apply elem_of_app; by left|done|].
  { apply Hadd. destruct Hok1 as [_ Hf]. unfold all_epochs, epochs_of in Hf. cbn in Hf. apply Forall_app in Hf as [_ Hf]. by rewrite Forall_singleton in Hf. }
  assert (∀ x, x ∈ enc → in_epochs (epochs_of (with_epoch s1 e bytes)) (id, x)) as Hnew.
  { intros x Hx. exists e. split; [apply elem_of_app; right; by left|]. rewrite Hrows. apply elem_of_app. right. by apply list_elem_of_fmap_2. }
  destruct ends.
  - destruct (close_epoch (calls 1%nat) _) as [s3 [[]|]] eqn:E3; [|done]. injection Ha as <- <-. destruct (close_epoch_rows _ _ _ E3 Hok2) as [Hok3 Hin3].
    split_and!; auto.
  - injection Ha as <- <-. split_and!; auto.
Qed.

(** ** The invariant of the actor *)
Definition pending_rows (a : Actor) (id : DeliveryId) : Z :=
  match pending_delivery a with
  | Some p => if bool_decide (pd_id p = id) then Z.of_nat (length (drop (next_row p) (pd_rows p))) else 0
  | None => 0
  end.
Definition located (a : Actor) (p : PendingDelivery) (r : RoutedRow) : Prop :=
  (∃ p', pending_delivery a = Some p' ∧ pd_id p' = pd_id p ∧ encoders p' = encoders p ∧ r ∈ drop (next_row p') (pd_rows p')) ∨
  ∃ x, in_epochs (epochs_of (sink a)) (pd_id p, x) ∧ encode_row write_row (encoders p) r = Ok x.

Record Inv (n : nat) (a : Actor) : Prop := {
  inv_sink : SInv (uploaded a) (uploads a) (pending_rows a) (sink a);
  inv_epochs : epochs_ok (sink a);
  inv_received : next_received (progress (sink a)) = 1 + Z.of_nat (length (accepted a));
  inv_ids i p : accepted a !! i = Some p → pd_id p = 1 + Z.of_nat i;
  inv_located p r : p ∈ accepted a → r ∈ pd_rows p → located a p r;
  inv_events e : e ∈ events a → e < next_commit (progress (sink a));
  inv_size : (length (accepted a) ≤ n ∧ length (closings (sink a)) ≤ 2 * n)%nat
}.

(** The rows of the deliveries reported as committed are in uploaded objects. *)
Definition committed_row (a : Actor) (p : PendingDelivery) (r : RoutedRow) : Prop :=
  ∃ c x, c ∈ closings (sink a) ∧ (pd_id p, x) ∈ ep_rows (cl_epoch c) ∧ encode_row write_row (encoders p) r = Ok x ∧
    epoch_ok (cl_epoch c) ∧ (∃ id, close_buffers config id (cl_epoch c) = Ok (cl_objects c)) ∧
    ∀ o, o ∈ cl_objects c → stored (uploaded a) o.
Record Safe (a : Actor) : Prop := {
  safe_rows e p r : e ∈ events a → p ∈ accepted a → pd_id p ≤ e → r ∈ pd_rows p → committed_row a p r;
  safe_store : sound sha256 (durable (uploaded a)) (durable_storage (sink a))
}.

Lemma inv_safe n a : Inv n a → Safe a.
Proof.
  intros I. pose proof (inv_sink n a I) as S. split; [|apply (si_store _ _ _ _ S)].
  intros e p r He Hp Hle Hr. apply (inv_events n a I) in He. destruct (si_rep _ _ _ _ S) as [q Hq].
  assert (outstanding (progress (sink a)) (pd_id p) = 0) as Hz.
  { destruct Hq as (Hc & _ & _ & _ & Hent). unfold outstanding. by rewrite Hent, bool_decide_eq_false_2 by lia. }
  rewrite (si_out _ _ _ _ S) in Hz.
  assert (∀ e, counted e → 0 ≤ units (pd_id p) (delivery_rows e)) as Hpos by (intros x Hx; rewrite Hx; apply count_rows_nonneg).
  assert (∀ i ce, closed_epochs (sink a) !! i = Some ce → 0 ≤ units (pd_id p) (ce_delivery_rows ce)) as Hpos'.
  { intros i ce Hi. destruct (si_open _ _ _ _ S i ce Hi) as (k & c & _ & Hk & -> & _). apply Hpos. by apply (si_log _ _ _ _ S k c). }
  pose proof (msum_nonneg (λ ce, units (pd_id p) (ce_delivery_rows ce)) _ Hpos') as Hm.
  pose proof (Hpos _ (si_epoch _ _ _ _ S)) as He0.
  assert (0 ≤ pending_rows a (pd_id p)) as Hp0 by (unfold pending_rows; destruct (pending_delivery a); [case_bool_decide; lia|done]).
  destruct (inv_located n a I p r Hp Hr) as [(p' & Hpd & Hid & _ & Hin)|(x & (ep & Hep & Hx) & Henc)].
  { exfalso. unfold pending_rows in Hz, Hp0. rewrite Hpd, bool_decide_eq_true_2 in Hz by done. apply list_elem_of_lookup in Hin as [j Hj%lookup_lt_Some]. lia. }
  destruct (inv_epochs n a I) as [Hobj Hokall]. unfold all_epochs, epochs_of in Hep, Hokall. cbn in Hep, Hokall.
  apply elem_of_app in Hep as [Hep| ->%list_elem_of_singleton].
  2: { exfalso. pose proof (count_rows_pos _ _ _ Hx). rewrite <-(si_epoch _ _ _ _ S) in *. lia. }
  apply list_elem_of_fmap in Hep as (c & -> & Hc). apply list_elem_of_lookup in Hc as [k Hk].
  exists c, x. split_and!; [by eapply list_elem_of_lookup_2|done|done| | |].
  - rewrite Forall_forall in Hokall. apply Hokall, elem_of_app. left. apply list_elem_of_fmap_2. by eapply list_elem_of_lookup_2.
  - unfold objects_closed, closed_as in Hobj. rewrite Forall2_fmap_l, Forall2_fmap_r in Hobj. by eapply Forall2_lookup_lr in Hobj.
  - apply (si_gone _ _ _ _ S k c Hk). destruct (closed_epochs (sink a) !! Z.of_nat k) as [ce|] eqn:Ek; [|done]. exfalso.
    destruct (si_open _ _ _ _ S _ ce Ek) as (k' & c' & Ekk & Hk' & Hd & _). assert (k = k') as <- by lia. simplify_eq.
    pose proof (msum_ge (λ ce, units (pd_id p) (ce_delivery_rows ce)) (closed_epochs (sink a)) _ ce Hpos' Ek) as Hge. cbn beta in Hge.
    rewrite Hd, (proj1 (si_log _ _ _ _ S k c Hk)) in Hge. pose proof (count_rows_pos _ _ _ Hx). lia.
Qed.

(** ** The steps *)
Abbreviation turn := (turn sha256 partition_text JsonBatchEncoder_new write_row sort_unstable config sink_keep_system_columns expected_partition_id).
Abbreviation run_turns := (run_turns sha256 partition_text JsonBatchEncoder_new write_row sort_unstable config sink_keep_system_columns expected_partition_id).

Definition Good (n : nat) (a : Actor) : Prop := Safe a ∧ (outcome a = None → Inv n a).

(** What [Safe] reads. *)
Lemma safe_same a a' :
  Safe a → events a' = events a → accepted a' = accepted a → closings (sink a') = closings (sink a) →
  (∀ m, durable (uploaded a) m → durable (uploaded a') m) → sound sha256 (durable (uploaded a')) (durable_storage (sink a')) → Safe a'.
Proof.
  intros [Hr _] He Ha Hc Hu Hs. split; [|done]. rewrite He, Ha. intros e p r Hin Hp Hle Hrow.
  destruct (Hr e p r Hin Hp Hle Hrow) as (c & x & Hcl & Hx & Henc & Hok & Hobj & Hst). exists c, x. rewrite Hc. split_and!; try done.
  intros o Ho. by apply Hu, Hst.
Qed.
Lemma safe_finish a r : Safe a → Safe (finish a r).
Proof. intros S. eapply safe_same; [exact S|done..|]. apply (safe_store _ S). Qed.
(** A failure after the storage changed. *)
Lemma safe_failed a s e :
  Safe a → closings s = closings (sink a) → sound sha256 (durable (uploaded a)) (durable_storage s) → Safe (finish (set_sink a s) (Err e)).
Proof. intros S Hc Hs. apply safe_finish. by eapply safe_same. Qed.

Lemma failed_good n a e : Safe a → outcome a = Some (Err e) → Good n a.
Proof. intros S Ho. split; [done|]. by rewrite Ho. Qed.

(** The closed epochs only grow. *)
Lemma safe_grow a a' :
  Safe a → events a' = events a → accepted a' = accepted a → uploaded a' = uploaded a →
  (∀ c, c ∈ closings (sink a) → c ∈ closings (sink a')) → sound sha256 (durable (uploaded a')) (durable_storage (sink a')) → Safe a'.
Proof.
  intros [Hr _] He Ha Hu Hc Hs. split; [|done]. rewrite He, Ha. intros e p r Hin Hp Hle Hrow.
  destruct (Hr e p r Hin Hp Hle Hrow) as (c & x & Hcl & Hx & Henc & Hok & Hobj & Hst). exists c, x. rewrite Hu. split_and!; auto.
Qed.

Lemma inv_set_sink n a s :
  Inv n a → SInv (uploaded a) (uploads a) (pending_rows a) s → cursors (sink a) s → untouched (sink a) s → Inv n (set_sink a s).
Proof.
  intros [Hs [Ho Hf] Hr Hi Hl He Hn] S [Er Ec] [Ee El]. unfold epochs_of, objects_closed in *.
  split; cbn; unfold epochs_ok, located, epochs_of, objects_closed in *; cbn; rewrite ?Er, ?Ec, ?Ee, ?El; done.
Qed.

Lemma inv_bounded n a : Inv n a → Z.of_nat (2 * n) + 4 < u64_max → bounded (sink a) ∧ Z.of_nat (length (closings (sink a))) + 4 < u64_max.
Proof. intros I Hn. pose proof (inv_size _ _ I). pose proof (inv_received _ _ I). unfold bounded. lia. Qed.
Lemma inv_more n n' a : (n ≤ n')%nat → Inv n a → Inv n' a.
Proof. intros Hle [Hs Hep Hr Hi Hl He Hn]. split; try done. lia. Qed.

Lemma s3_emit_inv n a o a' sent :
  Inv n a → Z.of_nat (2 * n) + 4 < u64_max → outcome a = None → emit_committed o a = (a', sent) →
  Safe a' ∧ outcome a' = None ∧ (sent = true → Inv n a').
Proof.
  intros I Hn Hout Hem. destruct (inv_bounded _ _ I Hn) as [[Hlt _] _]. pose proof (inv_sink _ _ I) as S. destruct (si_rep _ _ _ _ S) as [q Hq].
  destruct (call_step_represents _ q CTake Hq Hlt) as (q' & Hrep' & Hmono & _ & Hthrough).
  pose proof (call_step_received (progress (sink a)) CTake) as Hr. pose proof (λ i, outstanding_step (progress (sink a)) q CTake i Hq) as Ho.
  assert (next_commit (progress (sink a)) = Spec.base q) as Hc by apply Hq. assert (next_commit (call_step (progress (sink a)) CTake).1 = Spec.base q') as Hc' by apply Hrep'.
  unfold emit_committed in Hem. cbn [call_step call_units] in *. destruct (take_committed (progress (sink a))) as [t committed]. cbn [fst snd] in *.
  set (s := with_progress (sink a) (closed_epochs (sink a)) t) in Hem.
  assert (SInv (uploaded a) (uploads a) (pending_rows a) s) as S'.
  { destruct S as [_ Sn So Se Sop Sg Sl Sf Ss]. split; cbn; try done; [by eexists|]. intros id. rewrite Ho, So. lia. }
  assert (∀ a2, sink a2 = s → uploaded a2 = uploaded a → uploads a2 = uploads a → pending_delivery a2 = pending_delivery a → accepted a2 = accepted a →
    (∀ e, e ∈ events a2 → e < next_commit t) → Inv n a2) as Hinv.
  { intros a2 E1 E2 E3 E4 E5 E6. destruct I as [_ Iep Ir Ii Il _ In]. split; unfold located, pending_rows in *; rewrite ?E1, ?E2, ?E3, ?E4, ?E5; try done.
    cbn. by rewrite Hr. }
  destruct committed as [c|]; [destruct o|]; injection Hem as <- <-.
  - assert (Inv n {| sink := s; uploads := uploads a; input_closed := input_closed a; pending_delivery := pending_delivery a;
      events := events a ++ [through c]; outcome := outcome a; accepted := accepted a; consumed := consumed a; uploaded := uploaded a |}) as I'.
    { apply Hinv; try done. intros e [Hin| ->%list_elem_of_singleton]%elem_of_app; [apply (inv_events _ _ I) in Hin|]; lia. }
    split_and!; [by eapply inv_safe|done|done].
  - split_and!; [|done|done]. eapply safe_same; [by eapply inv_safe|done..|apply (si_store _ _ _ _ S)].
  - assert (Inv n (set_sink a s)) as I'.
    { apply Hinv; try done. cbn. intros e Hin%(inv_events _ _ I). lia. }
    split_and!; [by eapply inv_safe|done|done].
Qed.

Lemma close_epoch_grows calls s s' r : close_epoch calls s = (s', r) → ∃ more, closings s' = closings s ++ more.
Proof.
  unfold S3Sink.close_epoch. case_bool_decide; [intros [= <- _]; exists []; by rewrite app_nil_r|].
  destruct (close_buffers _ _ _); [|intros [= <- _]; exists []; by rewrite app_nil_r].
  destruct (EpochJournal_new _ _ _); [|intros [= <- _]; exists []; by rewrite app_nil_r].
  destruct (ensure_open _ _ _) as [store [[]|]]; [intros [= <- _]; by eexists| |intros [= <- _]; exists []; by rewrite app_nil_r].
  destruct (for_each _ _ _) eqn:Ef; intros [= <- _]; [|by eexists]. apply replays_untouched in Ef as [_ ->]. by eexists.
Qed.
Lemma accept_group_grows now calls id encs rows s s' r :
  accept_message_group now calls id encs rows s = (s', r) → ∃ more, closings s' = closings s ++ more.
Proof.
  unfold S3Sink.accept_message_group.
  destruct (if rotates config (epoch s) rows then close_epoch (calls 0%nat) s else (s, Ok tt)) as [s1 r1] eqn:E1.
  assert (∃ more, closings s1 = closings s ++ more) as [m1 Em1].
  { destruct (rotates _ _ _); [by eapply close_epoch_grows|]. injection E1 as <- _. exists []. by rewrite app_nil_r. }
  destruct r1 as [[]|]; [|intros [= <- _]; by exists m1]. destruct (mapM _ rows) as [enc|]; [|intros [= <- _]; by exists m1].
  destruct (add_message _ _ _ _ _) as [[e ser] ends]. set (s2 := with_epoch s1 e _).
  destruct (if ends then close_epoch (calls 1%nat) s2 else (s2, Ok tt)) as [s3 r3] eqn:E3.
  assert (∃ more, closings s3 = closings s2 ++ more) as [m3 Em3].
  { destruct ends; [by eapply close_epoch_grows|]. injection E3 as <- _. exists []. by rewrite app_nil_r. }
  assert (closings s3 = closings s ++ m1 ++ m3) as E by (rewrite Em3; cbn; by rewrite Em1, app_assoc).
  destruct r3 as [[]|]; intros [= <- _]; eauto.
Qed.

(** A call to [close_epoch] between messages. *)
Lemma settle_good n a calls :
  Inv n a → Z.of_nat (2 * n) + 4 < u64_max → outcome a = None → (∀ i, polite sha256 (durable (uploaded a)) (calls i)) →
  Good (S n) (settle a (close_epoch calls (sink a))).
Proof.
  intros I Hn Hout Hp. destruct (inv_bounded _ _ I Hn) as [Hb _]. unfold settle. destruct (close_epoch calls (sink a)) as [s r] eqn:E.
  destruct (close_epoch_inv _ _ _ _ _ _ _ (inv_sink _ _ I) Hb Hp E) as [Hs Hok]. destruct r as [[]|x].
  - destruct (Hok eq_refl) as (S & [Er Ec] & Hl). destruct (close_epoch_rows _ _ _ E (inv_epochs _ _ I)) as [Hep Hin].
    assert (Inv (Datatypes.S n) (set_sink a s)) as I'; [|by split; [eapply inv_safe|]].
    destruct I as [_ _ Ir Ii Il Ie In]. split; cbn; try done; [by rewrite Er| |by rewrite Ec|lia].
    intros p r Hp' Hr'. destruct (Il p r Hp' Hr') as [?|(x & Hx & Henc)]; [by left|right]. exists x. auto.
  - apply failed_good with x; [|done]. apply safe_finish. eapply safe_grow; [by eapply inv_safe|done|done|done| |exact Hs].
    cbn. intros c Hc. destruct (close_epoch_grows _ _ _ _ E) as [more ->]. apply elem_of_app. by left.
Qed.

Lemma si_ext up fl pc pc' s : (∀ id, pc id = pc' id) → SInv up fl pc s → SInv up fl pc' s.
Proof. intros He [Hrep Hn Ho Hep Hop Hg Hl Hf Hs]. split; try done. intros id. by rewrite <-He. Qed.

(** The rows of a pending delivery after [stop]. *)
Definition advance (p : PendingDelivery (Encoder := Encoder)) (stop : nat) : option PendingDelivery :=
  if bool_decide (stop = length (pd_rows p)) then None else Some (set_next_row p stop).
Lemma advance_rows p stop :
  match advance p stop with
  | Some p' => p' = set_next_row p stop
  | None => drop stop (pd_rows p) = []
  end.
Proof. unfold advance. case_bool_decide; [|done]. apply drop_ge. lia. Qed.

Lemma advance_inv n a p stop s cons uploaded' outcome' slice :
  Inv n a → (length (closings s) ≤ 2 * S n)%nat → pending_delivery a = Some p → drop (next_row p) (pd_rows p) = slice ++ drop stop (pd_rows p) →
  SInv (uploaded a) (uploads a) (λ i, pending_rows a i - if bool_decide (pd_id p = i) then Z.of_nat (length slice) else 0) s →
  cursors (sink a) s → epochs_ok s → (∀ x, in_epochs (epochs_of (sink a)) x → in_epochs (epochs_of s) x) →
  (∀ r, r ∈ slice → ∃ x, in_epochs (epochs_of s) (pd_id p, x) ∧ encode_row write_row (encoders p) r = Ok x) →
  uploaded' = uploaded a →
  Inv (S n) {| sink := s; uploads := uploads a; input_closed := input_closed a; pending_delivery := advance p stop; events := events a;
               outcome := outcome'; accepted := accepted a; consumed := cons; uploaded := uploaded' |}.
Proof.
  intros [Is Iep Ir Ii Il Ie In] Hcl Hpd Hdrop S [Er Ec] Hep Hin Hslice ->. pose proof (advance_rows p stop) as Hadv.
  split; cbn; [|done|by rewrite Er|done| |by rewrite Ec|lia].
  - eapply si_ext; [|exact S]. intros id. unfold pending_rows. cbn. rewrite Hpd, Hdrop, length_app.
    destruct (advance p stop) as [p'|]; [subst p'; cbn; case_bool_decide; lia|]. rewrite Hadv. cbn. case_bool_decide; lia.
  - intros p0 r Hp0 Hr. destruct (Il p0 r Hp0 Hr) as [(p' & Hp' & Hid & Henc & Hrow)|(x & Hx & Henc)]; [|right; exists x; auto].
    rewrite Hpd in Hp'. injection Hp' as <-. rewrite Hdrop in Hrow. apply elem_of_app in Hrow as [Hrow|Hrow].
    + right. destruct (Hslice r Hrow) as (x & Hx & Hxe). exists x. rewrite <-Hid, <-Henc. done.
    + left. cbn. destruct (advance p stop) as [p'|]; [subst p'; by exists (set_next_row p stop)|]. rewrite Hadv in Hrow. by apply not_elem_of_nil in Hrow.
Qed.

Lemma resume_good n a t p :
  Inv n a → Z.of_nat (2 * n) + 4 < u64_max → outcome a = None → pending_delivery a = Some p →
  (∀ i j, polite sha256 (durable (uploaded a)) (t_calls t i j)) →
  Good (S n) (resume_turn sha256 write_row config expected_partition_id t a p).
Proof.
  intros I Hn Hout Hpd Hp. destruct (inv_bounded _ _ I Hn) as [Hb Hb4]. unfold resume_turn, accept_next_message_group.
  pose proof (inv_sink _ _ I) as Sk. pose proof (inv_size _ _ I) as [_ Hcl].
  destruct (pd_rows p !! next_row p) as [first|] eqn:Ef; cbn [next_row pd_rows pd_id].
  - set (stop := message_end _ _ _). set (slice := firstn _ _).
    assert (drop (next_row p) (pd_rows p) = slice ++ drop stop (pd_rows p)) as Hdrop.
    { unfold slice. rewrite <-(firstn_skipn (stop - next_row p) (drop (next_row p) (pd_rows p))) at 1. f_equal. rewrite skipn_skipn. f_equal.
      unfold stop, message_end. lia. }
    destruct (accept_message_group _ _ _ _ slice (sink a)) as [s r] eqn:E.
    destruct (accept_group_inv _ _ _ _ _ _ _ _ _ _ _ Sk Hb Hb4 Hp E) as [Hs Hok]. destruct r as [encoded|x].
    + destruct (Hok eq_refl) as (S1 & Hc1 & Hl1). destruct (accept_group_rows _ _ _ _ _ _ _ _ E (inv_epochs _ _ I)) as (Hep & Hin & Hf & Hnew).
      match goal with |- Good _ ?a' => assert (Inv (S n) a') as I'; [|by split; [eapply inv_safe|]] end.
      eapply (advance_inv n a p stop _ _ _ _ slice); try done; cbn.
      * lia.
      * eapply si_same; [exact S1|done..|exact Hs].
      * intros r Hr. apply list_elem_of_lookup in Hr as [i Hi]. destruct (Forall2_lookup_l _ _ _ i r Hf Hi) as (x & Hx & He).
        exists x. split; [|done]. apply Hnew. by eapply list_elem_of_lookup_2.
    + apply failed_good with x; [|done]. apply safe_finish. eapply safe_grow; [by eapply inv_safe|done|done|done| |exact Hs].
      cbn. intros c Hc. destruct (accept_group_grows _ _ _ _ _ _ _ _ E) as [more ->]. apply elem_of_app. by left.
  - assert ((if bool_decide (next_row p = length (pd_rows p)) then None else Some p) = advance p (next_row p)) as ->.
    { unfold advance. by destruct p. }
    match goal with |- Good _ ?a' => assert (Inv (S n) a') as I'; [|by split; [eapply inv_safe|]] end.
    eapply (advance_inv n a p (next_row p) _ _ _ _ []); try done; try (by apply I).
    + lia.
    + eapply si_ext; [|exact Sk]. intros id. cbn. case_bool_decide; lia.
    + by intros r Hr%not_elem_of_nil.
Qed.

Abbreviation prepare_delivery := (prepare_delivery partition_text JsonBatchEncoder_new sort_unstable sink_keep_system_columns expected_partition_id).
Abbreviation receive := (receive partition_text JsonBatchEncoder_new sort_unstable sink_keep_system_columns expected_partition_id).

Lemma prepare_Ok s d s' p :
  prepare_delivery s d = Ok (s', p) →
  next_row p = 0%nat ∧ pd_id p = next_received (progress s) ∧ untouched s s' ∧ closed_epochs s' = closed_epochs s ∧ ready s' = ready s ∧
  next_epoch_id s' = next_epoch_id s ∧ durable_storage s' = durable_storage s ∧
  ∃ msgs, progress s' = (DeliveryTracker.accept (progress s) (pd_id p) (Z.of_nat (length (pd_rows p))) msgs).1.
Proof.
  unfold S3Sink.prepare_delivery. intros ([] & _ & (encs & _ & (bound & _ & ([pt rows] & _ & Hp)%bind_Ok)%bind_Ok)%bind_Ok)%bind_Ok.
  cbn zeta in Hp. unfold DeliveryTracker.accept in *. case_bool_decide as Hid; [|done]. injection Hp as <- <-. cbn.
  split_and!; try done. exists (meta_source_messages (del_meta d)). by rewrite bool_decide_eq_true_2.
Qed.

Lemma receive_good n a d :
  Inv n a → Z.of_nat (2 * n) + 4 < u64_max → outcome a = None → pending_delivery a = None → Good (S n) (receive a d).
Proof.
  intros I Hn Hout Hpd. destruct (inv_bounded _ _ I Hn) as [[Hlt _] _]. unfold S3Sink.receive.
  destruct (prepare_delivery (sink a) d) as [[s p]|e] eqn:E; [|apply failed_good with e; [apply safe_finish; by eapply inv_safe|done]].
  apply prepare_Ok in E as (Hr0 & Hid & [Ee El] & Ece & Erd & Ene & Est & msgs & Epr).
  match goal with |- Good _ ?a' => assert (Inv (S n) a') as I'; [|by split; [eapply inv_safe|]] end.
  destruct I as [Is Iep Ir Ii Il Ie In]. destruct (si_rep _ _ _ _ Is) as [q Hq].
  set (len := Z.of_nat (length (pd_rows p))) in *.
  destruct (call_step_represents _ q (CAccept (pd_id p) len msgs) Hq Hlt) as (q' & Hrep' & _). cbn [call_step fst] in Hrep'.
  pose proof (λ i, outstanding_step _ q (CAccept (pd_id p) len msgs) i Hq) as Ho. cbn [call_step call_units fst] in Ho.
  assert (is_ok (DeliveryTracker.accept (progress (sink a)) (pd_id p) len 0).2 = true) as Hok by (unfold DeliveryTracker.accept; by rewrite bool_decide_eq_true_2).
  assert (next_received (progress s) = next_received (progress (sink a)) + 1 ∧ next_commit (progress s) = next_commit (progress (sink a))) as [Enr Enc].
  { rewrite Epr. unfold DeliveryTracker.accept. rewrite bool_decide_eq_true_2 by done. cbn. split; [|done].
    apply next_small. lia. }
  split; cbn.
  - destruct Is as [_ Sn So Se Sop Sg Sl Sf Ss]. split; unfold journaled in *; rewrite ?Ene, ?El, ?Ece, ?Erd, ?Ee, ?Est; try done.
    + exists q'. by rewrite Epr.
    + intros id. rewrite Epr, Ho, So, Hok, andb_true_r. unfold pending_rows. cbn. rewrite Hpd.
      destruct (decide (pd_rows p = [])) as [Hrows|Hrows].
      { rewrite (bool_decide_eq_true_2 (pd_rows p = [])) by done. assert (len = 0) as Hz by (unfold len; by rewrite Hrows). case_bool_decide; lia. }
      rewrite (bool_decide_eq_false_2 (pd_rows p = [])), Hr0, drop_0 by done. fold len. destruct (bool_decide (pd_id p = id)); lia.
  - unfold epochs_ok, objects_closed, epochs_of in *. by rewrite Ee, El.
  - rewrite Enr, Ir, length_app. cbn. lia.
  - intros i x. intros [Hx|[Hge Hx]]%lookup_app_Some; [by apply Ii|]. apply list_lookup_singleton_Some in Hx as [Hi <-]. rewrite Hid, Ir. lia.
  - intros p0 r [Hp0| ->%list_elem_of_singleton]%elem_of_app Hr.
    + destruct (Il p0 r Hp0 Hr) as [(p' & Hp' & _)|(x & Hx & Henc)]; [congruence|]. right. exists x. split; [|done]. unfold epochs_of in *. cbn.
      by rewrite Ee, El.
    + left. cbn. exists p. rewrite Hr0. rewrite bool_decide_eq_false_2; [done|]. intros Hrows. rewrite Hrows in Hr. by apply not_elem_of_nil in Hr.
  - intros e He. rewrite Enc. by apply Ie.
  - rewrite El, length_app. cbn. lia.
Qed.

Lemma join_good n a i o r :
  Inv n a → Z.of_nat (2 * n) + 4 < u64_max → outcome a = None → uploads a !! i = Some o → Good n (join_upload a i o r).
Proof.
  intros I Hn Hout Hi. destruct (inv_bounded _ _ I Hn) as [[Hlt _] _]. unfold join_upload. cbn [sink].
  destruct (complete_upload (sink a) o r) as [s|e] eqn:E.
  - destruct r as [[]|f]; [|unfold complete_upload in E; apply bind_Ok in E as (x & _ & (y & Hy & _)%bind_Ok); done].
    pose proof (upload_untouched _ _ _ _ E) as [Ee El]. destruct (upload_inv _ _ _ _ _ _ _ (inv_sink _ _ I) Hlt Hi E) as [S1 [Er Ec]].
    match goal with |- Good _ ?a' => assert (Inv n a') as I'; [|by split; [eapply inv_safe|]] end.
    destruct I as [Is Iep Ir Ii Il Ie In]. split; cbn; unfold epochs_ok, objects_closed, located, epochs_of in *; cbn; rewrite ?Ee, ?El, ?Er, ?Ec; done.
  - apply failed_good with e; [|done]. apply safe_finish. eapply safe_same; [by eapply inv_safe|done|done|done|..].
    + cbn. intros m Hm. destruct (is_ok r); [by apply durable_more|done].
    + cbn. eapply sound_mono; [|apply (si_store _ _ _ _ (inv_sink _ _ I))]. intros m Hm. destruct (is_ok r); [by apply durable_more|done].
Qed.

Definition polite_turn (t : Turn) : Prop := ∀ up i j, polite sha256 (durable up) (t_calls t i j).

Lemma good_more n n' a : (n ≤ n')%nat → Good n a → Good n' a.
Proof. intros Hle [Hs Hi]. split; [done|]. intros Ho. by eapply inv_more, Hi. Qed.
Lemma inv_good n a : Inv n a → Good n a.
Proof. intros I. split; [by eapply inv_safe|done]. Qed.

Lemma select_good n t a a' :
  Inv n a → Z.of_nat (2 * n) + 4 < u64_max → outcome a = None → polite_turn t →
  select_turn sha256 partition_text JsonBatchEncoder_new sort_unstable config sink_keep_system_columns expected_partition_id t a = Some a' →
  Good (S n) a'.
Proof.
  intros I Hn Hout Hp. unfold select_turn. destruct (t_select t) as [|i r| |[d|]|].
  - intros [= <-]. split; [apply safe_finish; by eapply inv_safe|done].
  - destruct (uploads a !! i) as [o|] eqn:Hi; [|done]. intros [= <-]. apply (good_more n); [lia|]. by apply join_good.
  - case_bool_decide; [done|]. intros [= <-]. split; [apply safe_finish; by eapply inv_safe|done].
  - destruct (_ && _) eqn:E; [|done]. intros [= <-]. apply andb_true_iff in E as [E _]. apply andb_true_iff in E as [E _].
    apply andb_true_iff in E as [E%is_none_true _]. by apply receive_good.
  - destruct (_ && _); [|done]. intros [= <-]. apply inv_good, (inv_more n); [lia|]. by destruct I.
  - destruct (pending_delivery a) eqn:Ep; [done|]. destruct (wall_clock_deadline config (sink a)); [|done]. case_bool_decide; [|done].
    intros [= <-]. apply settle_good; auto.
Qed.

Lemma start_uploads_inv n a : Inv n a → Inv n (start_uploads config a).
Proof.
  intros [Is Iep Ir Ii Il Ie In]. unfold start_uploads. set (room := Z.to_nat _). split; cbn; try done.
  destruct Is as [Sr Sn So Se Sop Sg Sl Sf Ss].
  assert ((uploads a ++ firstn room (ready (sink a))) ++ drop room (ready (sink a)) = uploads a ++ ready (sink a)) as Hq.
  { by rewrite <-app_assoc, firstn_skipn. }
  split; unfold journaled in *; cbn; rewrite ?Hq; done.
Qed.

Lemma lift_barrier_inv n a pressured : Inv n a → Inv n (set_sink a (lift_barrier pressured (sink a))).
Proof.
  intros I. unfold lift_barrier. destruct (memory_barrier_epoch (sink a)) as [id|]; [destruct (_ || _)|]; apply inv_set_sink; try done;
    try (apply (inv_sink _ _ I)). eapply si_same; [apply (inv_sink _ _ I)|done..|apply (si_store _ _ _ _ (inv_sink _ _ I))].
Qed.

Lemma s3_turn_good n t a a' :
  Inv n a → Z.of_nat (2 * n) + 4 < u64_max → outcome a = None → polite_turn t → turn t a = Some a' → Good (S n) a'.
Proof.
  intros I Hn Hout Hp. unfold S3Sink.turn. destruct (emit_committed (t_open t) a) as [a1 sent] eqn:Eem.
  destruct (s3_emit_inv _ _ _ _ _ I Hn Hout Eem) as (S1 & Ho1 & I1). clear I Hout Eem.
  destruct sent; cbn [negb]; [specialize (I1 eq_refl)|intros [= <-]; apply failed_good with SinkEventsClosed; [by apply safe_finish|done]].
  destruct (inv_bounded _ _ I1 Hn) as [Hb _].
  destruct (close_completed_epoch_journal _ (sink a1)) as [s r] eqn:Ej. pose proof (journal_untouched _ _ _ _ Ej) as Hu.
  destruct (journal_inv _ _ _ _ _ _ _ (inv_sink _ _ I1) Hb (Hp _ 0%nat) Ej) as [Hs Hok].
  destruct r as [b|e]; [|intros [= <-]; apply failed_good with e; [by apply safe_failed; [|apply Hu|]|done]].
  destruct (Hok eq_refl) as [Sk Hc]. pose proof (inv_set_sink _ _ _ I1 Sk Hc Hu) as I2. clear I1 S1 Hs Hok Sk Hc Hu Hb Ej.
  destruct b; [intros [= <-]; by apply inv_good, (inv_more n); [lia|]|].
  assert (outcome (set_sink a1 s) = None) as Ho2 by done. generalize dependent (set_sink a1 s). intros a2 I2 Ho2. clear Ho1 s a1.
  destruct (_ && negb _); [intros [= <-]; apply settle_good; auto|]. cbn zeta.
  apply start_uploads_inv in I2. assert (outcome (start_uploads config a2) = None) as Ho3 by done.
  generalize dependent (start_uploads config a2). intros a3 I3 Ho3. clear Ho2 a2. destruct (_ && bool_decide (ready (sink a3) = [])).
  { intros [= <-]. unfold end_turn. destruct (emit_committed (t_open t) a3) as [a4 sent] eqn:Eem.
    destruct (s3_emit_inv _ _ _ _ _ I3 Hn Ho3 Eem) as (S4 & _ & _). apply safe_finish with (r := Err SinkEventsClosed) in S4 as S5.
    destruct sent; cbn [negb]; [destruct (_ || _)|]; (split; [by apply safe_finish|done]). }
  apply (lift_barrier_inv _ _ (t_pressure t)) in I3. assert (outcome (set_sink a3 (lift_barrier (t_pressure t) (sink a3))) = None) as Ho4 by done.
  generalize dependent (set_sink a3 (lift_barrier (t_pressure t) (sink a3))). intros a5 I5 Ho5.
  destruct (pending_delivery a5) as [p|] eqn:Ep; [|by apply select_good].
  destruct (_ && _); [|by apply select_good]. intros [= <-]. apply resume_good; auto.
Qed.

Lemma s3_run_good l n a a' :
  Good n a → Z.of_nat (2 * (n + length l)) + 4 < u64_max → Forall polite_turn l → run_turns a l = Some a' → Good (n + length l) a'.
Proof.
  revert n a. induction l as [|t l IH]; intros n a [Hs Hi] Hn Hp; cbn; [intros [= <-]; by rewrite Nat.add_0_r|].
  case_bool_decide as Ho; [done|]. destruct (turn t a) as [a1|] eqn:Et; [|done]. cbn. intros Hl.
  assert (outcome a = None) as Hout by (destruct (outcome a); [by destruct Ho|done]). apply Forall_cons in Hp as [Hpt Hp]. cbn in Hn.
  replace (n + S (length l))%nat with (S n + length l)%nat by lia. eapply IH; [eapply s3_turn_good; [by apply Hi| |done|done|exact Et]|..]; try done; lia.
Qed.

Lemma init_inv d p s : sound sha256 W s → Inv 0 (actor_init (sink_new d p s)).
Proof.
  intros Hs. split; cbn; try done.
  - split; cbn; try done.
    + eexists. apply new_represents.
    + intros o Ho. by apply not_elem_of_nil in Ho.
    + eapply sound_mono; [|exact Hs]. by left.
  - split; [constructor|]. unfold all_epochs. cbn. by constructor.
  - intros p0 r Hp. by apply not_elem_of_nil in Hp.
  - intros e He. by apply not_elem_of_nil in He.
Qed.
End durable.

(** ** The object of a row *)

(** The object [o] holds the serialized row [x] under the key of its table and path. *)
Definition holds_row `{ObjectStorePath} (config : S3ActorConfig) (o : ClosedObject) (x : Row) : Prop :=
  (∃ before after, co_payload o = before ++ x.2 ++ after) ∧
  ∃ t p start, for_json_object (prefix config) (rr_table x.1) (partition_path (route x.1)) t p start = Ok (co_key o).

Lemma object_holds `{ObjectStorePath} config e id l x :
  epoch_ok e → close_buffers config id e = Ok l → x ∈ epoch_rows e → ∃ o, o ∈ l ∧ holds_row config o x.
Proof.
  intros Hok Hl%mapM_Ok Hx. set (k := row_key x.1). specialize (Hok k). unfold objects_of in Hok. fold (epoch_rows e) in Hok.
  assert (x ∈ rows_of k (epoch_rows e)) as Hin by (unfold rows_of; by apply list_elem_of_filter).
  destruct (rows_of k (epoch_rows e)) as [|y ys] eqn:Ey; [by apply not_elem_of_nil in Hin|].
  assert ((k, object_of y ys) ∈ bt_iter key_le (buffers e)) as Hb by (rewrite bt_iter_perm; by apply elem_of_map_to_list).
  apply list_elem_of_lookup in Hb as [i Hi]. destruct (Forall2_lookup_l _ _ _ i _ Hl Hi) as (o & Ho & Hc). exists o.
  split; [by eapply list_elem_of_lookup_2|]. apply close_buffer_Ok in Hc as (Hkey & Hpay & _). cbn [fst snd] in Hkey, Hpay. split; [|eauto].
  apply list_elem_of_split in Hin as (l1 & l2 & E). exists (l1 ≫= snd), (l2 ≫= snd). rewrite Hpay. unfold object_of. cbn [ob_payload].
  by rewrite E, bind_app, bind_cons.
Qed.

(** ** The sessions of a partition *)
Section lifetimes.
Context `{DurableStorage} `{!Json EpochRecord} `{ObjectStorePath, Chrono} (sha256 : list Z → list Z).
Context {AT : ArrowTypes} {AV : ArrowValues} {AC : ArrowCompute}.
Context (partition_text : DataType → option (OtherValue → string)).
Context {Encoder : Type} (JsonBatchEncoder_new : RecordBatch → result AnyhowError Encoder).
Context (write_row : Encoder → nat → result AnyhowError (list Z)).
Context (sort_unstable : list RoutedRow → list RoutedRow).
Context (config : S3ActorConfig) (sink_keep_system_columns : bool) (expected_partition_id : Z).
Abbreviation Actor := (Actor (Encoder := Encoder)).
Abbreviation run_turns := (run_turns sha256 partition_text JsonBatchEncoder_new write_row sort_unstable config sink_keep_system_columns expected_partition_id).

(** What was uploaded, by its manifest. *)
Definition was_uploaded (up : list ClosedObject) (m : ManifestObject) : Prop := ∃ o, o ∈ up ∧ m = manifest sha256 o.

(** Sessions one after the other on the same storage, each ended at any turn, with crashes
    of the machine between them: everything uploaded so far, the storage, and the actors. *)
Inductive lifetimes : list ClosedObject → Store → list Actor → Prop :=
| life_start s : sound sha256 (λ _, False) s → lifetimes [] s []
| life_crash up s l s' : lifetimes up s l → crashed s s' → lifetimes up s' l
| life_session up s l d p ts a :
    lifetimes up s l → Z.of_nat (2 * length ts) + 4 < u64_max →
    Forall (polite_turn sha256 (was_uploaded up)) ts →
    run_turns (actor_init (sink_new d p s)) ts = Some a →
    lifetimes (up ++ uploaded a) (durable_storage (sink a)) (l ++ [a]).

Context (Hkeys : ∀ k, epoch_key sha256 k → key_ok k) (Hpartition : - 2 ^ 63 ≤ expected_partition_id < 2 ^ 63).

Lemma uploaded_durable up up' m : durable sha256 (was_uploaded up) up' m ↔ was_uploaded (up ++ up') m.
Proof.
  unfold durable, was_uploaded. split.
  - intros [(o & Ho & ->)|(o & Ho & ->)]; exists o; (split; [apply elem_of_app; auto|done]).
  - intros (o & [Ho|Ho]%elem_of_app & ->); [left|right]; eauto.
Qed.

Lemma lifetimes_sound up s l :
  lifetimes up s l → sound sha256 (was_uploaded up) s ∧
  ∀ a, a ∈ l → ∀ e p r, e ∈ events a → p ∈ accepted a → pd_id p ≤ e → r ∈ pd_rows p →
    ∃ o x, was_uploaded up (manifest sha256 o) ∧ encode_row write_row (encoders p) r = Ok x ∧ holds_row config o x.
Proof.
  induction 1 as [s Hs|up s l s' _ [IH IHl] Hc|up s l d p ts a _ [IH IHl] Hn Hp Hrun].
  - split; [eapply sound_mono; [|exact Hs]; done|]. by intros a Ha%not_elem_of_nil.
  - split; [by eapply sound_crash|done].
  - pose proof (init_inv sha256 (Encoder := Encoder) write_row config (was_uploaded up) d p s IH) as I0.
    assert (Good sha256 write_row config (was_uploaded up) (0 + length ts) a) as [G _].
    { eapply s3_run_good; [exact Hkeys|exact Hpartition|eapply inv_good; exact I0|cbn; lia|exact Hp|exact Hrun]. }
    split; [eapply sound_mono; [|apply (safe_store _ _ _ _ _ G)]; intros m; apply uploaded_durable|].
    intros b [Hb| ->%list_elem_of_singleton]%elem_of_app e q r He Hq Hle Hr.
    + destruct (IHl b Hb e q r He Hq Hle Hr) as (o & x & (o' & Ho' & Em) & Hx & Hh). exists o, x. split; [|done]. exists o'.
      split; [apply elem_of_app; by left|done].
    + destruct (safe_rows _ _ _ _ _ G e q r He Hq Hle Hr) as (c & x & Hc & Hx & Henc & Hok & [id Hobj] & Hst).
      destruct (object_holds config (cl_epoch c) id (cl_objects c) x Hok Hobj) as (o & Ho & Hh).
      { unfold epoch_rows. apply list_elem_of_fmap. by exists (pd_id q, x). }
      exists o, x. split; [by apply uploaded_durable, Hst|done].
Qed.

End lifetimes.
