(* ===== verification/S3Example.v ===== *)
 (** * The S3 sink on local files

    The journal of the sink ([S3Journal.v]) on the files of [DurableCrash.v]: every journal
    key can be stored.  Then sessions of one partition, run by the model, as instances of
    the theorems of [S3Replay.v] and [S3Durable.v]. *)

From Stdlib Require Import Ascii.
From stdpp Require Import base tactics numbers option strings pretty countable gmap fin_maps sorting relations list.
From S2P Require Import Prelude Bytes DeliveryId DeliveryTracker RowCount Schema Arrow Delivery Changelog Failure Reader Admission Durable DurableStorage DurableCrash DurableRecord S3Objects S3Partition S3Journal S3Epochs S3Cut S3Sink S3Replay S3Durable.
Local Open Scope Z_scope.

(** ** The keys of the journal *)
Lemma split_on_first c a b : c ∉ chars a → split_on c (a +:+ String c "" +:+ b) = a :: split_on c b.
Proof.
  induction a as [|x a IH]; intros Hn.
  - change (split_on c (String c b) = "" :: split_on c b). cbn [split_on]. by rewrite bool_decide_eq_true_2.
  - change (split_on c (String x (a +:+ String c "" +:+ b)) = String x a :: split_on c b). cbn [split_on].
    cbn in Hn. apply not_elem_of_cons in Hn as [Hx Hn]. rewrite bool_decide_eq_false_2 by congruence. by rewrite IH.
Qed.

Definition component_char (c : ascii) : bool := component_byte (Z.of_N (N_of_ascii c)).
Lemma component_chars s : forallb component_byte (string_bytes s) = forallb component_char (chars s).
Proof. unfold string_bytes. fold (chars s). induction (chars s) as [|c l IH]; [done|]. cbn. by rewrite IH. Qed.

Lemma decimal_component c : decimal c → component_char c = true.
Proof. intros [->|[d ->]]; [done|]. destruct d as [|[[[[]|[]|]|[[]|[]|]|]|[[[]|[]|]|[[]|[]|]|]|]]; done. Qed.

Lemma hex_chars c bytes : c ∈ bytes ≫= hex_byte → c ∈ HEX.
Proof.
  intros (b & Hc & _)%list_elem_of_bind.
  assert (∀ i, nth i HEX "0"%char ∈ HEX) as Hn by (intros i; destruct (nth_in_or_default i HEX "0"%char) as [Hi| ->]; [by apply list_elem_of_In|by left]).
  unfold hex_byte in Hc. apply elem_of_cons in Hc as [->|Hc]; [apply Hn|]. apply list_elem_of_singleton in Hc as ->. apply Hn.
Qed.
Lemma hex_digits c : c ∈ HEX → component_char c = true ∧ c ≠ "/"%char ∧ c ≠ "."%char.
Proof. unfold HEX. intros Hc. repeat (apply elem_of_cons in Hc as [->|Hc]; [done|]). by apply not_elem_of_nil in Hc. Qed.

Lemma component_valid s : s ≠ "" → string_len s ≤ 128 → (∀ c, c ∈ chars s → component_char c = true) → validate_component s = Ok tt.
Proof.
  intros Hs Hl Hc. unfold validate_component, string_len in *. rewrite bool_decide_eq_false_2, bool_decide_eq_true_2 by (done || lia). cbn.
  rewrite component_chars. assert (forallb component_char (chars s) = true) as ->; [|done].
  apply forallb_forall. intros c Hin%list_elem_of_In. by apply Hc.
Qed.

(** A component that is a fixed word and a number or digest. *)
Lemma component_word (word s : string) :
  forallb component_char (chars word) = true → word ≠ "" → string_len word + string_len s ≤ 128 →
  (∀ c, c ∈ chars s → component_char c = true) → validate_component (word +:+ s) = Ok tt.
Proof.
  intros Hw Hne Hl Hs. apply component_valid.
  - intros E. apply (f_equal chars) in E. rewrite chars_app in E. apply app_nil in E as [E _]. destruct Hne. by apply chars_inj.
  - by rewrite string_len_app.
  - intros c. rewrite chars_app, elem_of_app. intros [Hc|Hc]; [|by apply Hs]. rewrite forallb_forall in Hw. by apply Hw, list_elem_of_In.
Qed.
Lemma word_free (c : ascii) (word s : string) : bool_decide (c ∉ chars word) = true → c ∉ chars s → c ∉ chars (word +:+ s).
Proof. intros Hw%bool_decide_eq_true Hs. rewrite chars_app, not_elem_of_app. done. Qed.

(** SHA-256 has 32 bytes. *)
Lemma epoch_key_file sha256 root k : (∀ b, (length (sha256 b) ≤ 32)%nat) → epoch_key sha256 k → file_key root k.
Proof.
  intros Hd (p & identity & Hp & ->). set (hex := hex_digest sha256 identity).
  assert (∀ c, c ∈ chars hex → c ∈ HEX) as Hhex.
  { intros c. unfold hex, hex_digest, chars. rewrite String.list_ascii_of_string_of_list_ascii. apply hex_chars. }
  assert (string_len hex ≤ 64) as Hlen.
  { unfold string_len, string_bytes, hex, hex_digest. rewrite length_fmap, String.list_ascii_of_string_of_list_ascii. specialize (Hd identity).
    assert (∀ l : list Z, length (l ≫= hex_byte) = (2 * length l)%nat) as ->; [|lia]. induction l as [|x l IH]; [done|]. cbn in *. lia. }
  pose proof (pretty_i64_len p Hp) as Hpl.
  assert (∀ c, c ∈ ["/"%char; "."%char] → c ∉ chars (pretty p)) as Hdec by (intros c Hc; apply decimal_free; set_solver).
  assert (∀ c, c ∈ ["/"%char; "."%char] → c ∉ chars hex) as Hhx by (intros c Hc Hin%Hhex%hex_digits; set_solver).
  assert (split_on "/" ("s3/partition-" +:+ pretty p +:+ "/epoch-" +:+ hex) = ["s3"; "partition-" +:+ pretty p; "epoch-" +:+ hex]) as Hsplit.
  { change ("s3/partition-" +:+ pretty p +:+ "/epoch-" +:+ hex) with ("s3" +:+ "/" +:+ "partition-" +:+ pretty p +:+ "/" +:+ "epoch-" +:+ hex).
    rewrite split_on_first by (apply (bool_decide_unpack _); vm_compute; exact I).
    rewrite <-(append_assoc "partition-" (pretty p)), split_on_first, split_on_absent; [done|..]; apply word_free; first [reflexivity|set_solver]. }
  split.
  - change ("."%char ∉ chars ("s3/partition-" +:+ pretty p +:+ "/epoch-" +:+ hex)). apply word_free; [done|]. rewrite chars_app, not_elem_of_app.
    split; [set_solver|]. apply word_free; [done|set_solver].
  - unfold key_path. rewrite Hsplit. cbn [for_each]. change (validate_component "s3") with (Ok (E:=DurableError) tt). cbn [mbind result_bind].
    rewrite (component_word "partition-"); [|done..|change (string_len "partition-") with 10; lia|intros c ?%decimal_Z; by apply decimal_component].
    cbn [mbind result_bind]; rewrite (component_word "epoch-"); [|done..|change (string_len "epoch-") with 6; lia|intros c ?%Hhex; by apply hex_digits]. done.
Qed.

(** ** A codec for the records of the journal *)
Module SinkExample.
Fixpoint bits (p : positive) : list Z := match p with xH => [] | xO p => 0 :: bits p | xI p => 1 :: bits p end.
Fixpoint unbits (l : list Z) : positive := match l with [] => xH | b :: l => if bool_decide (b = 0) then xO (unbits l) else xI (unbits l) end.
Lemma unbits_bits p : unbits (bits p) = p.
Proof. induction p as [p IH|p IH|]; cbn; [rewrite IH..|]; done. Qed.
Lemma bits_bytes p : Forall byte (bits p).
Proof. induction p; cbn; repeat constructor; done. Qed.

#[local] Instance ManifestObject_countable : Countable ManifestObject.
Proof.
  refine (inj_countable' (λ o, (mo_key o, payload_sha256 o, payload_bytes o))
    (λ '(k, d, n), {| mo_key := k; payload_sha256 := d; payload_bytes := n |}) _). by intros [].
Defined.
#[local] Instance EpochRecord_countable : Countable EpochRecord.
Proof.
  refine (inj_countable' (λ r, (version r, bool_decide (state r = Closed), objects r))
    (λ '(v, closed, l), {| version := v; state := if closed : bool then Closed else Open; objects := l |}) _). by intros [? [] ?].
Defined.

#[local] Program Instance json : Json EpochRecord := {|
  to_vec r := let b := bits (encode r) in if bool_decide (Z.of_nat (length b) + 40 ≤ usize_max) then Some b else None;
  from_slice b := decode (unbits b)
|}.
Next Obligation. intros r b. cbn. case_bool_decide; [|done]. intros [= <-]. by rewrite unbits_bits, countable.decode_encode. Qed.
Next Obligation. intros r b. cbn. case_bool_decide; [|done]. intros [= <-]. split; [apply bits_bytes|done]. Qed.

(** ** The partition of the example *)
#[local] Existing Instance example_arrow.
#[local] Existing Instance example_values.
#[local] Existing Instance example_compute.
#[local] Existing Instance example_chrono.
#[local] Instance storage : DurableStorage := @local_files zero_murmur3 ["state"].

Definition schema : DatasetSchema :=
  [SchemaColumn_new "value" Utf8 true; SchemaColumn_new "_topic" Utf8 false; SchemaColumn_new "_partition" Int64 false;
   SchemaColumn_new "_offset" Int64 false; SchemaColumn_new "_index" UInt64 false].
Definition columns : list (SystemColumnKind * nat * string) :=
  [(Topic, 1%nat, "_topic"); (Partition, 2%nat, "_partition"); (Offset, 3%nat, "_offset"); (MessageIndex, 4%nat, "_index")].

(** One message with one row per offset. *)
Definition batch (offsets : list Z) : SinkBatch := {|
  sb_schema := schema; sb_namespace := None; sb_table := "t"; sb_is_dlq := false;
  sb_batch := {| rb_schema := arrow_field <$> schema; rb_rows := length offsets;
    rb_columns := [StringArray ((λ o, Some ("r" +:+ pretty o)) <$> offsets); StringArray ((λ _, Some "events") <$> offsets);
      Int64Array ((λ _, Some 7) <$> offsets); Int64Array (Some <$> offsets); UInt64Array ((λ _, Some 0) <$> offsets)] |};
  sb_byte_size := 0;
  sb_system_columns := (λ '(k, i, n), {| sys_kind := k; sys_index := i; sys_name := n |}) <$> columns
|}.
Definition example_sinks : DeliveryDiscovery := {|
  source_name := "pq"; source_topology := DynamicWorkerLanes; schema_origin := SourceNative; keep_system_columns := false;
  datasets := [{| namespace := None; update_policy := Strict; role := Main; ds_name := "t"; incoming_schema := schema;
    stored_schema := [SchemaColumn_new "value" Utf8 true];
    system_columns := (λ '(k, _, n), {| dsc_kind := k; dsc_name := n |}) <$> columns |}];
  performance_advice := []
|}.
Definition delivery (id : Z) (offsets : list Z) : Delivery :=
  {| del_id := id; del_outputs := [batch offsets]; del_meta := {| meta_source_messages := Z.of_nat (length offsets) |} |}.

(** An encoder of the first column, and a digest of one byte. *)
Definition encoder (b : RecordBatch) : result AnyhowError (list (option string)) :=
  match rb_columns b with StringArray l :: _ => Ok l | _ => Err (OtherError 0) end.
Definition line (l : list (option string)) (i : nat) : result AnyhowError (list Z) :=
  match l !! i with Some (Some s) => Ok (string_bytes s ++ [10]) | _ => Err (OtherError 0) end.
Definition digest (b : list Z) : list Z := [foldr (λ x sum, (x + sum) `mod` 256) 0 b].

Definition config : S3ActorConfig := {|
  prefix := "dump"; max_rows := 2; max_bytes := 1000; record_time_interval := None; wall_clock_interval := None;
  on_partition_path_change := KeepEpoch; max_epoch_buffers := 8; max_pending_upload_objects := 8; max_buffered_bytes := 1000;
  max_in_flight_objects := 4; epoch_byte_limit := 10000
|}.
Definition partitioner : Partitioner := {| kind := KSource; source_route := None; record_time_route := None |}.
Definition start (s : Store) : Actor (Encoder := list (option string)) := actor_init (sink_new example_sinks partitioner s).
Definition session := run_turns digest no_text encoder line id config false 7.

Definition step (sel : Select) : Turn := {|
  t_open := true; t_pressure := false; t_pressure_after := false; t_now := 0;
  t_calls := λ i j, {| c_others := id; c_env := (7, Z.of_nat (i + j), NoFault) : Env |}; t_select := sel
|}.
Definition recv (id : Z) (offsets : list Z) : Turn := step (Received (Some (delivery id offsets))).
Definition more : Turn := step Cancelled.
Definition put : Turn := step (Joined 0 (Ok tt)).

(** The first session: the epoch of offsets 10 and 11 is uploaded and recorded, offset 12 is
    buffered when the session is cancelled. *)
Definition first : list Turn := [recv 1 [10; 11]; more; more; recv 2 [12]; more; put; more; more].
(** The second one, after a crash, gets the messages again, in other deliveries, and the end of the input. *)
Definition second : list Turn := [recv 1 [10; 11; 12]; more; more; more; recv 2 [13]; more; put; more; step (Received None); more].

(** No files, in synced directories. *)
Definition roots : list (list string) := [["state"]; ["state"; "s3"]; ["state"; "s3"; "partition-7"]].
Definition nothing : Store := empty_disk roots.
Abbreviation ExampleActor := (Actor (Encoder := list (option string))).
Definition ended (s : Store) (ts : list Turn) : ExampleActor := default (start s) (session (start s) ts).
Definition first_end : ExampleActor := ended nothing first.
Definition rebooted : Store := reverted (durable_storage (sink first_end)).
Definition second_end : ExampleActor := ended rebooted second.

Lemma session_ended s ts : bool_decide (is_Some (session (start s) ts)) = true → session (start s) ts = Some (ended s ts).
Proof. intros [a E]%bool_decide_eq_true. unfold ended. by rewrite E. Qed.
Lemma first_ended : session (start nothing) first = Some first_end.
Proof. apply session_ended. vm_compute. reflexivity. Qed.
Lemma second_ended : session (start rebooted) second = Some second_end.
Proof. apply session_ended. vm_compute. reflexivity. Qed.
Lemma ended_running (a : ExampleActor) : bool_decide (is_Some (outcome a ≫= λ r, match r with Err _ => Some tt | Ok _ => None end)) = false → running a.
Proof. intros Ho e E. rewrite E in Ho. done. Qed.

(** The objects of the example: two rows each. *)
Definition object (start : Z) : string * list Z * Z :=
  ("dump/t/topic=events/partition=7/events+7+" +:+ pretty start +:+ ".json",
   string_bytes ("r" +:+ pretty start) ++ [10] ++ string_bytes ("r" +:+ pretty (start + 1)) ++ [10], 2).

Lemma config_machine : machine_config config.
Proof. split; [vm_compute; discriminate..|]. intros i [=]. Qed.


Lemma s3_replay_same_objects_witness :
  session_objects first_end = [[object 10]] ∧ session_objects first_end `prefix_of` session_objects second_end.
Proof.
  split; [vm_compute; reflexivity|].
  apply (s3_replay_same_objects digest no_text encoder line id config false 7 example_sinks partitioner nothing first first_end
    example_sinks partitioner rebooted second second_end (drop 3 (stripped (consumed second_end).*2)));
    [reflexivity|exact first_ended|apply ended_running; vm_compute; reflexivity|vm_compute; reflexivity
    |exact second_ended|apply ended_running; vm_compute; reflexivity|vm_compute; reflexivity].
Defined.

Fixpoint ascending (l : list (list Row)) : bool :=
  match l with
  | [] => true
  | r :: l => forallb (λ k, forallb (λ x : Row, forallb (λ y : Row, bool_decide (offset (route x.1) < offset (route y.1))) k) r) l && ascending l
  end.
Lemma ascending_in_order l : ascending l = true → in_order l.
Proof.
  induction l as [|r l IH]; cbn; [constructor|]. intros [Hr Hl]%andb_true_iff. constructor; [by apply IH|].
  apply Forall_forall. intros k Hk x y Hx Hy. rewrite forallb_forall in Hr. specialize (Hr k ltac:(by apply list_elem_of_In)).
  rewrite forallb_forall in Hr. specialize (Hr x ltac:(by apply list_elem_of_In)).
  rewrite forallb_forall in Hr. specialize (Hr y ltac:(by apply list_elem_of_In)). by apply bool_decide_eq_true in Hr.
Qed.

Lemma s3_object_keys_unique_witness :
  co_key <$> (closings (sink second_end) ≫= cl_objects) = [(object 10).1.1; (object 12).1.1] ∧
  NoDup (co_key <$> (closings (sink second_end) ≫= cl_objects)).
Proof.
  split; [vm_compute; reflexivity|].
  apply (s3_object_keys_unique digest no_text encoder line id config false 7 example_sinks partitioner rebooted second);
    [exact second_ended|apply ended_running; vm_compute; reflexivity| |].
  - apply ascending_in_order. vm_compute. reflexivity.
  - intros x. apply (proj1 (Forall_forall (λ x : Row, path_part (rr_table x.1) = true) _)). apply (bool_decide_unpack _). vm_compute. exact I.
Defined.

Lemma example_keys k : epoch_key digest k → key_ok k.
Proof. apply (epoch_key_file digest ["state"]). intros b. cbn. lia. Qed.
Lemma nothing_sound U : sound digest U nothing.
Proof.
  split; [apply (@empty_disk_consistent zero_murmur3 roots)|]. intros k v r _ Hv.
  assert (value nothing k = None ∧ settled nothing k = None) as [E1 E2].
  { cbn [value settled storage local_files]. unfold key_value. by destruct (key_path _ _). }
  rewrite E1, E2 in Hv. by destruct Hv.
Qed.
Lemma step_polite U sel : polite_turn digest U (step sel).
Proof. by intros up i j s Hs. Qed.

(** A reboot after the first session, then the second session. *)
Lemma example_lifetimes :
  lifetimes digest no_text encoder line id config false 7 (uploaded first_end ++ uploaded second_end) (durable_storage (sink second_end)) [first_end; second_end].
Proof.
  change [first_end; second_end] with (([] ++ [first_end]) ++ [second_end]). change (uploaded first_end) with ([] ++ uploaded first_end).
  apply (life_session _ _ _ _ _ _ _ _ _ rebooted _ example_sinks partitioner second).
  - apply (life_crash _ _ _ _ _ _ _ _ _ (durable_storage (sink first_end))); [|split; [apply (bool_decide_unpack (housed _)); vm_compute; exact I|apply reverted_crash]].
    apply (life_session _ _ _ _ _ _ _ _ _ nothing _ example_sinks partitioner first).
    + apply life_start, nothing_sound.
    + vm_compute. done.
    + repeat (constructor; [apply step_polite|]). constructor.
    + exact first_ended.
  - vm_compute. done.
  - repeat (constructor; [apply step_polite|]). constructor.
  - exact second_ended.
Qed.

(** The delivery of offsets 10 to 12 that the second session committed. *)
Definition recommitted : PendingDelivery := default {| pd_id := 0; pd_rows := []; encoders := []; next_row := 0; route_reservations := [] |} (head (accepted second_end)).


(** ** A delivery across the end of an epoch *)

(** Delivery 2 has the last message of an epoch and the first of the next one.  Delivery 1
    is committed when the first epoch is durable; the session then ends. *)
Definition straddled : ExampleActor := ended nothing [recv 1 [10]; more; recv 2 [11; 12]; more; more; put; more; more].
(** The source resumes after delivery 1. *)
Definition resumed : ExampleActor := ended (durable_storage (sink straddled)) [recv 1 [11; 12]; more; more; put; more; more].

(** C40. Exactly-once output needs more than the same settings.  A run: a delivery holds rows of
    two epochs, the delivery before it is committed with the first of them, the next session
    resumes inside that epoch and cuts other epochs, and a row ends up in two uploaded
    objects with different keys. *)
Theorem s3_straddling_delivery_repeats :
  events straddled = [1] ∧ events resumed = [1] ∧ wall_clock_interval config = None ∧
  ∃ o1 o2 x, uploaded straddled = [o1] ∧ uploaded resumed = [o2] ∧ co_key o1 ≠ co_key o2 ∧
    x.2 = string_bytes "r11" ++ [10] ∧ holds_row config o1 x ∧ holds_row config o2 x.
Proof.
  split; [vm_compute; reflexivity|]. split; [vm_compute; reflexivity|]. split; [done|].
  set (r := {| output_index := 0; row_index := 0; rr_table := "t"; rr_is_dlq := false;
    route := {| partition_path := "topic=events/partition=7"; topic := "events"; partition := 7; offset := 11; message_index := 0; record_time_ms := None |} |}).
  eexists _, _, (r, string_bytes "r11" ++ [10]). split; [vm_compute; reflexivity|]. split; [vm_compute; reflexivity|].
  split; [by intros [=]|]. split; [done|]. split.
  - split; [eexists (string_bytes "r10" ++ [10]), []; reflexivity|]. exists "events", 7, 10. vm_compute. reflexivity.
  - split; [eexists [], (string_bytes "r12" ++ [10]); reflexivity|]. exists "events", 7, 11. vm_compute. reflexivity.
Qed.
End SinkExample.
