(* ===== verification/S3Upload.v ===== *)
(** * Uploads of the S3 sink

    [sink/upload.rs] of [transferia-connector-s3]: a small object is one PUT, a larger one a
    multipart upload with a bounded number of parts in flight, and an object is retried as a
    whole.

    The object store is the environment: a [Reply] is what an operation of it returned
    within its timeout; [None] is a cancellation that came first.  Requests that were made
    are recorded in the order of the calls ([ops]).  An object store makes an object of the
    parts of a completed upload in the order of the [put_part] calls; a request that failed,
    timed out or was cancelled may have been carried out all the same, at once or later
    ([Bucket], [history]).  The outcome of an abort is ignored, as in the source.  Metrics
    and messages are left out. *)

From stdpp Require Import base tactics numbers option strings sets list.
From S2P Require Import Prelude Failure Retry S3Objects.
Local Open Scope Z_scope.

Definition MAX_MULTIPART_PARTS : Z := 10000.
Definition E_S3_UPLOAD : nat := 71.

(** [object_store::Error] *)
Inductive ObjectStoreError :=
| OsGeneric | OsNotFound | OsInvalidPath | OsJoinError | OsNotSupported | OsAlreadyExists | OsPrecondition
| OsNotModified | OsNotImplemented | OsPermissionDenied | OsUnauthenticated | OsUnknownConfigurationKey.

Inductive OperationPhase := PutPhase | MultipartPhase.
Inductive UploadCause := StoreFailed (e : ObjectStoreError) | TimedOut | ZeroPartSize | TooManyParts (n : Z).
Inductive UploadError := UploadRetryable (c : UploadCause) | UploadPermanent (c : UploadCause) | UploadCancelled.

Record UploadConfig := { multipart_threshold : Z; part_size : Z; parallel_parts : nat }.
Record RetryConfig := { initial_backoff : Z; max_backoff : Z; max_attempts : Z }.

(** ** Errors *)
Definition classify_object_store_error (e : ObjectStoreError) (phase : OperationPhase) : UploadError :=
  let permanent :=
    match e, phase with
    | (OsPermissionDenied | OsUnauthenticated | OsInvalidPath | OsNotSupported | OsNotImplemented
       | OsUnknownConfigurationKey | OsAlreadyExists | OsPrecondition | OsNotModified), _ => true
    | OsNotFound, PutPhase => true
    | _, _ => false
    end in
  if permanent : bool then UploadPermanent (StoreFailed e) else UploadRetryable (StoreFailed e).

(** The result of an operation, or its timeout. *)
Inductive Reply := Replied (r : result ObjectStoreError unit) | TimeoutElapsed.
Definition object_store_operation (phase : OperationPhase) (r : Reply) : result UploadError unit :=
  match r with
  | TimeoutElapsed => Err (UploadRetryable TimedOut)
  | Replied (Ok _) => Ok tt
  | Replied (Err e) => Err (classify_object_store_error e phase)
  end.

(** ** Multipart uploads *)
Definition div_ceil (a b : Z) : Z := (a + b - 1) / b.
Definition validate_multipart_layout (payload_len part_size : Z) : result UploadError unit :=
  ensure (negb (bool_decide (part_size = 0))) (UploadPermanent ZeroPartSize) ≫= λ _,
  let part_count := div_ceil payload_len part_size in
  ensure (bool_decide (part_count ≤ MAX_MULTIPART_PARTS)) (UploadPermanent (TooManyParts part_count)).

(** The [put_part] calls so far, the numbers of those in flight, and of those that succeeded. *)
Record Parts := { sent : list (list Z); flight : list nat; stored : list nat }.

(** What [parts.next()] gave, or the cancellation that came first. *)
Inductive Next := NextCancelled | NextPart (i : nat) (r : Reply) | NextNone.

(** Wait until fewer than [limit] parts are in flight; [None] when the answers are not ones
    the parts in flight can give, or end. *)
Fixpoint await_parts (limit : nat) (p : Parts) (l : list Next) : option (Parts * result UploadError unit * list Next) :=
  if bool_decide (length (flight p) < limit)%nat then Some (p, Ok tt, l)
  else
    match l with
    | [] => None
    | NextCancelled :: l => Some (p, Err UploadCancelled, l)
    | NextNone :: l => if bool_decide (flight p = []) then Some (p, Ok tt, l) else None
    | NextPart i r :: l =>
        flight p !! i ≫= λ n,
        match object_store_operation MultipartPhase r with
        | Ok _ => await_parts limit {| sent := sent p; flight := delete i (flight p); stored := stored p ++ [n] |} l
        | Err e => Some (p, Err e, l)
        end
    end.

(** [Bytes::slice] *)
Definition slice (payload : list Z) (start stop : Z) : list Z := firstn (Z.to_nat (stop - start)) (drop (Z.to_nat start) payload).
Definition put_part (p : Parts) (bytes : list Z) : Parts :=
  {| sent := sent p ++ [bytes]; flight := flight p ++ [length (sent p)]; stored := stored p |}.

(** The loop over the starts of the parts. *)
Fixpoint send_parts (config : UploadConfig) (payload : list Z) (starts : list Z) (p : Parts) (l : list Next)
    : option (Parts * result UploadError unit * list Next) :=
  match starts with
  | [] => Some (p, Ok tt, l)
  | start :: starts =>
      match await_parts (parallel_parts config) p l with
      | None => None
      | Some (p, Err e, l) => Some (p, Err e, l)
      | Some (p, Ok _, l) =>
          let stop := saturating_add usize_max start (part_size config) `min` Z.of_nat (length payload) in
          send_parts config payload starts (put_part p (slice payload start stop)) l
      end
  end.

(** The requests of one upload; [option Reply] as above. *)
Inductive StoreOp :=
| OpPut (payload : list Z) (r : option Reply) | OpInitiate (r : option Reply) | OpPart (payload : list Z)
| OpComplete (r : option Reply) | OpAbort.

Record Attempt := { at_result : result UploadError unit; ops : list StoreOp; at_parts : Parts }.
Definition no_parts : Parts := {| sent := []; flight := []; stored := [] |}.
Definition part_starts (payload : list Z) (step : Z) : list Z := (slices (length payload) 0 step (Z.of_nat (length payload))).*1.

Definition aborted (p : Parts) (e : UploadError) (last : list StoreOp) : Attempt :=
  {| at_result := Err e; ops := (OpPart <$> sent p) ++ last ++ [OpAbort]; at_parts := p |}.

Definition upload_multipart (config : UploadConfig) (payload : list Z) (l : list Next) (completion : option Reply) : option Attempt :=
  match send_parts config payload (part_starts payload (part_size config)) no_parts l with
  | None => None
  | Some (p, Err e, _) => Some (aborted p e [])
  | Some (p, Ok _, l) =>
      match await_parts 0 p l with
      | None => None
      | Some (p, Err e, _) => Some (aborted p e [])
      | Some (p, Ok _, _) =>
          match completion with
          | None => Some (aborted p UploadCancelled [OpComplete None])
          | Some r =>
              match object_store_operation MultipartPhase r with
              | Err e => Some (aborted p e [OpComplete (Some r)])
              | Ok _ => Some {| at_result := Ok tt; ops := (OpPart <$> sent p) ++ [OpComplete (Some r)]; at_parts := p |}
              end
          end
      end
  end.

Section upload.
Context `{ObjectStorePath} (config : UploadConfig) (retry : RetryConfig) (key : string) (payload : list Z).

(** The answers to the requests of one upload. *)
Record AttemptReplies := { on_put : option Reply; on_initiate : option Reply; on_parts : list Next; on_complete : option Reply }.

Definition failed_attempt (e : UploadError) (l : list StoreOp) : Attempt := {| at_result := Err e; ops := l; at_parts := no_parts |}.

Definition upload_once (env : AttemptReplies) : option Attempt :=
  match path_parse key with
  | None => Some (failed_attempt (classify_object_store_error OsInvalidPath PutPhase) [])
  | Some _ =>
      if bool_decide (Z.of_nat (length payload) < multipart_threshold config) then
        Some {| at_result := match on_put env with None => Err UploadCancelled | Some r => object_store_operation PutPhase r end;
                ops := [OpPut payload (on_put env)]; at_parts := no_parts |}
      else
        match validate_multipart_layout (Z.of_nat (length payload)) (part_size config) with
        | Err e => Some (failed_attempt e [])
        | Ok _ =>
            match on_initiate env with
            | None => Some (failed_attempt UploadCancelled [OpInitiate None])
            | Some r =>
                match object_store_operation PutPhase r with
                | Err e => Some (failed_attempt e [OpInitiate (Some r)])
                | Ok _ =>
                    upload_multipart config payload (on_parts env) (on_complete env) ≫= λ a,
                    Some {| at_result := at_result a; ops := OpInitiate (Some r) :: ops a; at_parts := at_parts a |}
                end
            end
        end
  end.

(** ** Retries *)
Definition retry_delay (attempt : Z) : Z :=
  let shift := attempt `min` 20 in
  let base := duration_mul (initial_backoff retry) (Z.shiftl 1 shift) `min` max_backoff retry in
  jittered_retry_delay base attempt (stable_retry_seed (string_bytes key)).

(** One turn of the loop: whether it was cancelled, the answers, and whether the delay was. *)
Record Round := { cancelled_before : bool; replies : AttemptReplies; cancelled_asleep : bool }.

(** The uploads made and the delays slept between them. *)
Fixpoint upload_with_retry (attempt : Z) (l : list Round) : option (result DataPlaneFailure unit * list Attempt * list Z) :=
  match l with
  | [] => None
  | r :: l =>
      if cancelled_before r then Some (Err (Failure.retryable E_S3_UPLOAD), [], [])
      else
        match upload_once (replies r) with
        | None => None
        | Some a =>
            match at_result a with
            | Ok _ => Some (Ok tt, [a], [])
            | Err UploadCancelled => Some (Err (Failure.retryable E_S3_UPLOAD), [a], [])
            | Err (UploadPermanent _) => Some (Err (Failure.fatal E_S3_UPLOAD), [a], [])
            | Err (UploadRetryable _) =>
                if bool_decide (max_attempts retry ≤ attempt) then Some (Err (Failure.retryable E_S3_UPLOAD), [a], [])
                else
                  let delay := retry_delay ((attempt - 1) `min` u32_max) in
                  if cancelled_asleep r then Some (Err (Failure.retryable E_S3_UPLOAD), [a], [delay])
                  else
                    match upload_with_retry (saturating_add usize_max attempt 1) l with
                    | None => None
                    | Some (result, attempts, delays) => Some (result, a :: attempts, delay :: delays)
                    end
            end
        end
  end.
End upload.

(** ** The parts of a payload *)
Section parts.
Context (payload : list Z) (step : Z) (Hstep : 0 < step) (Hlen : Z.of_nat (length payload) ≤ usize_max).
Let n := Z.of_nat (length payload).

Definition part_bytes (start : Z) : list Z := slice payload start (saturating_add usize_max start step `min` n).

Lemma part_bytes_slice start : 0 ≤ start → part_bytes start = firstn (Z.to_nat step) (drop (Z.to_nat start) payload).
Proof.
  intros Hs. unfold part_bytes, slice, saturating_add. replace (Z.min (Z.min (start + step) usize_max) n) with (Z.min (start + step) n) by (unfold n; lia).
  destruct (Z.le_gt_cases n start) as [Hn|Hn]; [by rewrite drop_ge, !firstn_nil by (unfold n in *; lia)|].
  destruct (Z.le_gt_cases (start + step) n) as [Hm|Hm]; [f_equal; lia|].
  rewrite !take_ge by (rewrite length_drop; unfold n in *; lia). done.
Qed.

Lemma slices_bytes fuel offset :
  0 ≤ offset → n - offset ≤ Z.of_nat fuel → mjoin (part_bytes <$> (slices fuel offset step n).*1) = drop (Z.to_nat offset) payload.
Proof.
  revert offset. induction fuel as [|fuel IH]; intros offset Ho Hf; cbn; [by rewrite drop_ge by (unfold n in *; lia)|].
  case_bool_decide as Hlt; cbn; [|by rewrite drop_ge by (unfold n in *; lia)].
  rewrite IH by lia. rewrite part_bytes_slice by done. replace (Z.to_nat (offset + step)) with (Z.to_nat offset + Z.to_nat step)%nat by lia.
  rewrite <-drop_drop. apply take_drop.
Qed.
Lemma slices_count fuel offset :
  0 ≤ offset → offset ≤ n → n - offset ≤ Z.of_nat fuel → Z.of_nat (length (slices fuel offset step n)) = div_ceil (n - offset) step.
Proof.
  unfold div_ceil. revert offset. induction fuel as [|fuel IH]; intros offset Ho Hn Hf; cbn.
  { rewrite Z.div_small by lia. done. }
  case_bool_decide as Hlt; cbn [length]; [|rewrite Z.div_small by lia; done].
  destruct (Z.le_gt_cases (offset + step) n) as [Hm|Hm].
  - rewrite Nat2Z.inj_succ, IH by lia. replace (n - offset + step - 1) with ((n - (offset + step) + step - 1) + 1 * step) by lia. rewrite Z.div_add by lia. lia.
  - assert (slices fuel (offset + step) step n = []) as -> by (destruct fuel; cbn; [done|]; by rewrite bool_decide_eq_false_2 by lia).
    cbn. apply Z.div_unique with (n - offset - 1); lia.
Qed.
Lemma slices_starts fuel offset : 0 ≤ offset → Forall (λ s, 0 ≤ s < n) (slices fuel offset step n).*1.
Proof.
  revert offset. induction fuel as [|fuel IH]; intros offset Ho; cbn; [constructor|]. case_bool_decide; cbn; [|constructor].
  constructor; [lia|]. apply IH. lia.
Qed.
Lemma part_bytes_len start : 0 ≤ start < n → (0 < length (part_bytes start))%nat ∧ Z.of_nat (length (part_bytes start)) ≤ step.
Proof. intros Hs. rewrite part_bytes_slice by lia. rewrite length_firstn, length_drop. unfold n in *. lia. Qed.
End parts.

(** ** The parts in flight *)
Definition parts_ok (p : Parts) : Prop := flight p ++ stored p ≡ₚ seq 0 (length (sent p)).

Lemma await_parts_ok limit l p p' r l' :
  await_parts limit p l = Some (p', r, l') → parts_ok p →
  parts_ok p' ∧ sent p' = sent p ∧ (length (flight p') ≤ length (flight p))%nat ∧
  (r = Ok tt → (length (flight p') < limit)%nat ∨ flight p' = []).
Proof.
  revert p. induction l as [|x l IH]; intros p; cbn.
  { case_bool_decide; [|done]. intros [= <- <- _]. auto. }
  case_bool_decide; [intros [= <- <- _]; auto|]. destruct x as [|i reply|].
  - intros [= <- <- _] Hp. split_and!; [done..|by intros [=]].
  - destruct (flight p !! i) as [k|] eqn:Ei; [|done]. cbn [mbind option_bind]. destruct (object_store_operation _ _).
    + intros Hl Hp. destruct (IH _ Hl) as (Hok & Hs & Hle & Hr).
      { unfold parts_ok in *. cbn. rewrite <-Hp. rewrite (delete_Permutation _ _ _ Ei) at 2. cbn. rewrite app_assoc, Permutation_app_comm. done. }
      split_and!; [done|done| |done]. cbn [flight] in Hle. rewrite length_delete in Hle by eauto. lia.
    + intros [= <- <- _] Hp. split_and!; [done..|by intros [=]].
  - case_bool_decide; [|done]. intros [= <- <- _]. auto.
Qed.

Lemma put_part_ok p b : parts_ok p → parts_ok (put_part p b).
Proof.
  unfold parts_ok, put_part. cbn. intros Hp. rewrite length_app, seq_app. cbn. rewrite <-Hp, <-!app_assoc.
  apply Permutation_app_head. apply Permutation_app_comm.
Qed.

Lemma send_parts_ok config payload starts p l p' r l' :
  send_parts config payload starts p l = Some (p', r, l') → parts_ok p → (length (flight p) ≤ parallel_parts config `max` 1)%nat →
  parts_ok p' ∧ (length (flight p') ≤ parallel_parts config `max` 1)%nat ∧
  (r = Ok tt → sent p' = sent p ++ (part_bytes payload (part_size config) <$> starts)).
Proof.
  revert p l. induction starts as [|start starts IH]; intros p l; cbn.
  { intros [= <- <- _] Hp Hf. split_and!; [done..|]. by rewrite app_nil_r. }
  destruct (await_parts _ p l) as [[[p1 [[]|e]] l1]|] eqn:Ea; [| |done].
  - intros Hs Hp Hf. destruct (await_parts_ok _ _ _ _ _ _ Ea Hp) as (Hok & Hsent & Hle & Hr).
    destruct (IH _ _ Hs) as (Hok' & Hf' & Hs'); [by apply put_part_ok| |].
    + cbn. rewrite length_app. cbn. destruct (Hr eq_refl) as [?| ->]; [lia|cbn; lia].
    + split_and!; [done..|]. intros E. rewrite (Hs' E). cbn. by rewrite Hsent, <-app_assoc.
  - intros [= <- <- _] Hp Hf. destruct (await_parts_ok _ _ _ _ _ _ Ea Hp) as (Hok & Hsent & Hle & _). split_and!; [done|lia|by intros [=]].
Qed.

Lemma operation_Ok phase r : object_store_operation phase r = Ok tt ↔ r = Replied (Ok tt).
Proof. destruct r as [[[]|e]|]; cbn; [done|split; [|done]|done]. by destruct (classify_object_store_error e phase). Qed.

Lemma layout_Ok n size : validate_multipart_layout n size = Ok tt → size ≠ 0 ∧ div_ceil n size ≤ MAX_MULTIPART_PARTS.
Proof.
  unfold validate_multipart_layout. intros ([] & Hz%ensure_Ok & Hc%ensure_Ok)%bind_Ok.
  apply negb_true_iff, bool_decide_eq_false in Hz. by apply bool_decide_eq_true in Hc.
Qed.

(** ** The object under the key *)

(** What the bucket holds under the key, and the writes that were requested without an
    answer of success and may still be carried out. *)
Record Bucket := { object : option (list Z); late : list (list Z) }.

Definition answered (r : option Reply) : bool := match r with Some (Replied (Ok _)) => true | _ => false end.
(** The writes that requests ask for, with whether they were answered with success;
    [parts] are the parts of the multipart upload so far. *)
Fixpoint writes_of (parts : list (list Z)) (l : list StoreOp) : list (list Z * bool) :=
  match l with
  | [] => []
  | OpPut c r :: l => (c, answered r) :: writes_of parts l
  | OpInitiate _ :: l => writes_of [] l
  | OpPart b :: l => writes_of (parts ++ [b]) l
  | OpComplete r :: l => (mjoin parts, answered r) :: writes_of parts l
  | OpAbort :: l => writes_of [] l
  end.

(** What the store makes of a write: one answered with success is carried out; any other
    one is carried out at some later time or never. *)
Inductive history : list (list Z * bool) → Bucket → Bucket → Prop :=
| history_end b : history [] b b
| history_done c ws b b' : history ws {| object := Some c; late := late b |} b' → history ((c, true) :: ws) b b'
| history_lost c ws b b' : history ws b b' → history ((c, false) :: ws) b b'
| history_delayed c ws b b' : history ws {| object := object b; late := c :: late b |} b' → history ((c, false) :: ws) b b'
| history_lands c l1 l2 ws o b' :
    history ws {| object := Some c; late := l1 ++ l2 |} b' → history ws {| object := o; late := l1 ++ c :: l2 |} b'.

Lemma writes_of_parts parts sent l : writes_of parts ((OpPart <$> sent) ++ l) = writes_of (parts ++ sent) l.
Proof. revert parts. induction sent as [|b sent IH]; intros parts; cbn; [by rewrite app_nil_r|]. by rewrite IH, <-app_assoc. Qed.

(** When every write is of [c], the object is [c] or what it was; after a write that was
    answered with success it is [c]. *)
Lemma history_object c ws b b' :
  history ws b b' → Forall (λ w, w.1 = c) ws → Forall (λ x, x = c) (late b) →
  Forall (λ x, x = c) (late b') ∧ (object b' = object b ∨ object b' = Some c) ∧
  ((object b = Some c ∨ (c, true) ∈ ws) → object b' = Some c).
Proof.
  induction 1 as [b|d ws b b' _ IH|d ws b b' _ IH|d ws b b' _ IH|d l1 l2 ws o b' _ IH]; intros Hw Hl.
  - split_and!; [done|by left|]. by intros [?|?%not_elem_of_nil].
  - apply Forall_cons in Hw as [Hd Hw]. cbn in Hd. subst d. destruct (IH Hw Hl) as (H1 & _ & H3).
    assert (object b' = Some c) as Ho by (apply H3; by left). auto.
  - apply Forall_cons in Hw as [_ Hw]. destruct (IH Hw Hl) as (H1 & H2 & H3). split_and!; [done..|].
    intros [?|[[=]|?]%elem_of_cons]; apply H3; auto.
  - apply Forall_cons in Hw as [Hd Hw]. cbn in Hd. destruct (IH Hw) as (H1 & H2 & H3); [by constructor|]. split_and!; [done..|].
    intros [?|[[=]|?]%elem_of_cons]; apply H3; auto.
  - cbn [late] in Hl. apply Forall_app in Hl as [Hl1 [Hd Hl2]%Forall_cons]. subst d. destruct (IH Hw) as (H1 & _ & H3); [by apply Forall_app|].
    assert (object b' = Some c) as Ho by (apply H3; by left). auto.
Qed.

(** ** Uploads *)
Section exact.
Context `{ObjectStorePath} (config : UploadConfig) (retry : RetryConfig) (key : string) (payload : list Z).
Abbreviation upload_once := (upload_once config key payload).
Abbreviation upload_with_retry := (upload_with_retry config retry key payload).
Abbreviation succeeded := (Some (Replied (Ok tt))).

(** The requests make the object of the payload: one PUT of it, or a completed multipart
    upload whose parts, all of them stored, make it up. *)
Definition writes (a : Attempt) : Prop :=
  ops a = [OpPut payload succeeded] ∨
  ∃ parts, ops a = OpInitiate succeeded :: (OpPart <$> parts) ++ [OpComplete succeeded] ∧ mjoin parts = payload ∧
    stored (at_parts a) ≡ₚ seq 0 (length parts) ∧ Z.of_nat (length parts) ≤ MAX_MULTIPART_PARTS ∧
    Forall (λ b, 0 < Z.of_nat (length b) ≤ part_size config) parts.
(** No PUT and no completion was answered with success, and when the start of a multipart
    upload was, its abort is the last request. *)
Definition unanswered (a : Attempt) : Prop :=
  (OpPut payload succeeded ∉ ops a) ∧ (OpComplete succeeded ∉ ops a) ∧ (OpInitiate succeeded ∈ ops a → last (ops a) = Some OpAbort).

Context (Hlen : Z.of_nat (length payload) ≤ usize_max) (Hsize : 0 ≤ part_size config).

Lemma aborted_unanswered r p e l :
  Forall (λ o, o = OpComplete None ∨ ∃ r e, o = OpComplete (Some r) ∧ object_store_operation MultipartPhase r = Err e) l →
  unanswered {| at_result := at_result (aborted p e l); ops := OpInitiate r :: ops (aborted p e l); at_parts := p |}.
Proof.
  intros Hl. unfold aborted. cbn. rewrite Forall_forall in Hl. split_and!.
  - intros [[=]|Hin]%elem_of_cons. rewrite !elem_of_app, list_elem_of_singleton, list_elem_of_fmap in Hin.
    destruct Hin as [(b & [=] & _)|[Hin|[=]]]. by destruct (Hl _ Hin) as [[=]|(? & ? & [=] & _)].
  - intros [[=]|Hin]%elem_of_cons. rewrite !elem_of_app, list_elem_of_singleton, list_elem_of_fmap in Hin.
    destruct Hin as [(b & [=] & _)|[Hin|[=]]]. destruct (Hl _ Hin) as [[=]|(r' & e' & Hr & He)]. injection Hr as <-. done.
  - intros _. rewrite app_assoc, app_comm_cons. apply last_snoc.
Qed.

Lemma multipart_exact l c a :
  0 < part_size config → div_ceil (Z.of_nat (length payload)) (part_size config) ≤ MAX_MULTIPART_PARTS →
  upload_multipart config payload l c = Some a →
  let b := {| at_result := at_result a; ops := OpInitiate succeeded :: ops a; at_parts := at_parts a |} in
  (at_result b = Ok tt → writes b) ∧ (∀ e, at_result b = Err e → unanswered b).
Proof.
  intros Hpos Hcount. unfold upload_multipart.
  destruct (send_parts _ _ _ _ _) as [[[p [[]|e]] l1]|] eqn:Es; [| |done].
  2:{ intros [= <-]. split; [by intros [=]|]. intros e' _. by apply aborted_unanswered. }
  destruct (send_parts_ok _ _ _ _ _ _ _ _ Es) as (Hok & _ & Hsent); [constructor|cbn; lia|]. specialize (Hsent eq_refl). cbn in Hsent.
  destruct (await_parts 0 p l1) as [[[p1 [[]|e]] l2]|] eqn:Ea; [| |done].
  2:{ intros [= <-]. split; [by intros [=]|]. intros e' _. by apply aborted_unanswered. }
  destruct (await_parts_ok _ _ _ _ _ _ Ea Hok) as (Hok1 & Hs1 & _ & Hf). destruct (Hf eq_refl) as [?|Hnone]; [lia|].
  destruct c as [r|].
  2:{ intros [= <-]. split; [by intros [=]|]. intros e' _. apply aborted_unanswered. repeat constructor. }
  destruct (object_store_operation MultipartPhase r) as [[]|e] eqn:Er.
  2:{ intros [= <-]. split; [by intros [=]|]. intros e' _. apply aborted_unanswered. constructor; [|constructor]. right. eauto. }
  apply operation_Ok in Er as ->. intros [= <-]. cbn zeta. cbn [at_result]. split; [|by intros e [=]]. intros _. right. exists (sent p1).
  cbn [ops at_parts]. split; [done|]. rewrite Hs1, Hsent. unfold part_starts. split_and!.
  - rewrite slices_bytes; [done|lia..].
  - unfold parts_ok in Hok1. rewrite Hnone, Hs1, Hsent in Hok1. exact Hok1.
  - rewrite !length_fmap, slices_count; lia || by rewrite Z.sub_0_r.
  - apply Forall_fmap. eapply Forall_impl; [apply slices_starts; lia|]. intros s Hs. cbn. destruct (part_bytes_len payload (part_size config) Hpos Hlen s Hs). lia.
Qed.

Lemma upload_once_exact env a :
  upload_once env = Some a → (at_result a = Ok tt → writes a) ∧ (∀ e, at_result a = Err e → unanswered a).
Proof.
  assert (∀ e l, Forall (λ o, o = OpInitiate None ∨ ∃ r e, o = OpInitiate (Some r) ∧ object_store_operation PutPhase r = Err e) l → unanswered (failed_attempt e l)) as Hfail.
  { intros e l Hl. rewrite Forall_forall in Hl. split_and!; cbn.
    - intros Hin. by destruct (Hl _ Hin) as [[=]|(? & ? & [=] & _)].
    - intros Hin. by destruct (Hl _ Hin) as [[=]|(? & ? & [=] & _)].
    - intros Hin. destruct (Hl _ Hin) as [[=]|(r' & e' & Hr & He)]. injection Hr as <-. done. }
  unfold S3Upload.upload_once. destruct (path_parse key) as [path|].
  2:{ intros [= <-]. split; [by intros [=]|]. intros e _. by apply Hfail. }
  case_bool_decide as Hsmall.
  { intros [= <-]. cbn. destruct (on_put env) as [r|]; (split; [|intros e He]).
    - intros ->%operation_Ok. by left.
    - split_and!; [|set_solver..]. intros Hin%list_elem_of_singleton. injection Hin as <-. done.
    - by intros [=].
    - split_and!; set_solver. }
  destruct (validate_multipart_layout _ _) as [[]|e] eqn:Ev.
  2:{ intros [= <-]. split; [by intros [=]|]. intros e' _. by apply Hfail. }
  apply layout_Ok in Ev as [Hz Hcount].
  destruct (on_initiate env) as [r|].
  2:{ intros [= <-]. split; [by intros [=]|]. intros e _. apply Hfail. repeat constructor. }
  destruct (object_store_operation PutPhase r) as [[]|e] eqn:Er.
  2:{ intros [= <-]. split; [by intros [=]|]. intros e' _. apply Hfail. constructor; [|constructor]. right. eauto. }
  apply operation_Ok in Er as ->. destruct (upload_multipart _ _ _ _) as [b|] eqn:Em; [|done]. intros [= <-].
  apply (multipart_exact _ _ _ ltac:(lia) Hcount Em).
Qed.

(** Every write that an upload requests is of the payload. *)
Lemma multipart_writes r l c a :
  0 < part_size config → upload_multipart config payload l c = Some a →
  Forall (λ w, w.1 = payload) (writes_of [] (OpInitiate r :: ops a)).
Proof.
  intros Hpos. unfold upload_multipart. cbn [writes_of].
  destruct (send_parts _ _ _ _ _) as [[[p [[]|e]] l1]|] eqn:Es; [| |done].
  2:{ intros [= <-]. cbn. rewrite writes_of_parts. constructor. }
  destruct (send_parts_ok _ _ _ _ _ _ _ _ Es) as (Hok & _ & Hsent); [constructor|cbn; lia|]. specialize (Hsent eq_refl). cbn in Hsent.
  destruct (await_parts 0 p l1) as [[[p1 [[]|e]] l2]|] eqn:Ea; [| |done].
  2:{ intros [= <-]. cbn. rewrite writes_of_parts. constructor. }
  destruct (await_parts_ok _ _ _ _ _ _ Ea Hok) as (_ & Hs1 & _).
  assert (mjoin (sent p1) = payload) as Hjoin by (rewrite Hs1, Hsent; unfold part_starts; rewrite slices_bytes; [done|lia..]).
  destruct c as [reply|]; [destruct (object_store_operation MultipartPhase reply)|]; intros [= <-]; cbn; rewrite writes_of_parts; cbn;
    by repeat constructor.
Qed.

Lemma upload_once_writes env a : upload_once env = Some a → Forall (λ w, w.1 = payload) (writes_of [] (ops a)).
Proof.
  unfold S3Upload.upload_once. destruct (path_parse key) as [path|]; [|intros [= <-]; constructor].
  case_bool_decide; [intros [= <-]; by repeat constructor|].
  destruct (validate_multipart_layout _ _) as [[]|e] eqn:Ev; [|intros [= <-]; constructor]. apply layout_Ok in Ev as [Hz _].
  destruct (on_initiate env) as [r|]; [|intros [= <-]; constructor].
  destruct (object_store_operation PutPhase r); [|intros [= <-]; constructor].
  destruct (upload_multipart _ _ _ _) as [b|] eqn:Em; [|done]. intros [= <-]. eapply multipart_writes; [lia|exact Em].
Qed.

Lemma writes_answered a : writes a → (payload, true) ∈ writes_of [] (ops a).
Proof.
  intros [-> |(parts & -> & Hj & _)]; [by left|]. cbn [writes_of]. rewrite writes_of_parts. cbn. rewrite Hj. by left.
Qed.

(** ** Retries *)
Lemma retry_delay_bounds n :
  0 ≤ initial_backoff retry ≤ duration_max → 0 ≤ max_backoff retry ≤ duration_max → 0 ≤ n → 0 ≤ retry_delay retry key n ≤ max_backoff retry.
Proof.
  intros Hi Hm Hn. unfold retry_delay. set (base := _ `min` max_backoff retry).
  assert (0 ≤ base ≤ max_backoff retry) as Hb.
  { unfold base, duration_mul, saturating_mul. rewrite Z.shiftl_1_l. assert (0 ≤ 2 ^ (n `min` 20)) by (apply Z.pow_nonneg; lia).
    assert (0 ≤ duration_max) by lia. assert (0 ≤ initial_backoff retry * 2 ^ (n `min` 20)) by nia. lia. }
  pose proof (jittered_bounds base n (stable_retry_seed (string_bytes key)) ltac:(lia)) as Hj.
  assert (0 ≤ base * 80 / 100) by (apply Z.div_pos; lia). lia.
Qed.

Context (Hattempts : 0 < max_attempts retry ≤ usize_max).
Context (Hinitial : 0 ≤ initial_backoff retry ≤ duration_max) (Hmax : 0 ≤ max_backoff retry ≤ duration_max).

(** How an object ends: [r] after [attempts], with [delays] between them. *)
Record retried (n : Z) (r : result DataPlaneFailure unit) (attempts : list Attempt) (delays : list Z) : Prop := {
  retried_count : Z.of_nat (length attempts) ≤ max_attempts retry - n + 1;
  retried_ok : r = Ok tt → ∃ before a, attempts = before ++ [a] ∧ writes a ∧ Forall (λ b, ∃ c, at_result b = Err (UploadRetryable c)) before;
  retried_unanswered : Forall (λ a, at_result a = Ok tt ∨ unanswered a) attempts;
  retried_fatal : ∀ f, r = Err f → disposition f = Fatal ↔ ∃ a c, last attempts = Some a ∧ at_result a = Err (UploadPermanent c);
  retried_delays : Forall (λ d, 0 ≤ d ≤ max_backoff retry) delays
}.

Lemma retried_exact l n r attempts delays :
  1 ≤ n ≤ max_attempts retry → upload_with_retry n l = Some (r, attempts, delays) → retried n r attempts delays.
Proof.
  revert n r attempts delays. induction l as [|x l IH]; intros n r attempts delays Hn; cbn; [done|].
  destruct (cancelled_before x).
  { intros [= <- <- <-]. split; [cbn; lia|done|constructor| |constructor]. intros f [= <-]. split; [done|]. by intros (? & ? & [=] & _). }
  destruct (upload_once (replies x)) as [a|] eqn:Ea; [|done]. destruct (upload_once_exact _ _ Ea) as [Hw Hc].
  assert (0 ≤ (n - 1) `min` u32_max) as Hsmall by (unfold u32_max; lia). pose proof (retry_delay_bounds _ Hinitial Hmax Hsmall) as Hd.
  assert (at_result a = Ok tt ∨ unanswered a) as Hone by (destruct (at_result a) as [[]|e] eqn:E; [by left|right; by eapply Hc]).
  assert (∀ f ds, (∀ c, at_result a ≠ Err (UploadPermanent c)) → (∃ e, at_result a = Err e) → disposition f = Retryable →
    Forall (λ d, 0 ≤ d ≤ max_backoff retry) ds → retried n (Err f) [a] ds) as Hstop.
  { intros f ds Hp He Hf Hds. split; [cbn; lia|done|by constructor| |done]. intros f' [= <-]. rewrite Hf. split; [done|].
    intros (a' & c & [= <-] & Hr). by destruct (Hp c). }
  case_eq (at_result a); [intros [] E|intros e E].
  { intros [= <- <- <-]. split; [cbn; lia| |by constructor|done|constructor]. intros _. exists [], a. auto. }
  destruct e as [c|c|].
  - case_bool_decide as Hlast.
    { intros [= <- <- <-]. apply Hstop; [intros c' Hp; congruence|eauto|done|constructor]. }
    destruct (cancelled_asleep x).
    { intros [= <- <- <-]. apply Hstop; [intros c' Hp; congruence|eauto|done|by constructor]. }
    destruct (upload_with_retry _ l) as [[[r1 as1] ds1]|] eqn:Er; [|done]. intros [= <- <- <-].
    assert (saturating_add usize_max n 1 = n + 1) as En by (unfold saturating_add; lia). rewrite En in Er.
    destruct (IH (n + 1) _ _ _ ltac:(lia) Er) as [R1 R2 R3 R4 R5]. split; [cbn; lia| |by constructor| |by constructor].
    + intros Hr. destruct (R2 Hr) as (before & b & -> & Hb & Hf). exists (a :: before), b. split_and!; [done..|]. constructor; [eauto|done].
    + intros f Hf. rewrite (R4 f Hf). destruct as1 as [|b as1]; [|by rewrite last_cons_cons]. cbn.
      split; [by intros (? & ? & [=] & _)|]. intros (a' & c' & [= <-] & Hr). congruence.
  - intros [= <- <- <-]. split; [cbn; lia|done|by constructor| |constructor]. intros f [= <-]. split; [intros _; eauto|done].
  - intros [= <- <- <-]. apply Hstop; [intros c' Hp; congruence|eauto|done|constructor].
Qed.

Lemma retry_ends l n :
  1 ≤ n ≤ max_attempts retry → max_attempts retry - n < Z.of_nat (length l) → Forall (λ r, is_Some (upload_once (replies r))) l →
  is_Some (upload_with_retry n l).
Proof.
  revert n. induction l as [|x l IH]; intros n Hn Hl Hf; cbn in *; [lia|]. apply Forall_cons in Hf as [[a Ha] Hf].
  destruct (cancelled_before x); [done|]. rewrite Ha. destruct (at_result a) as [[]|[c|c|]]; [done| |done|done].
  case_bool_decide; [done|]. destruct (cancelled_asleep x); [done|].
  assert (saturating_add usize_max n 1 = n + 1) as -> by (unfold saturating_add; lia).
  destruct (IH (n + 1) ltac:(lia) ltac:(lia) Hf) as [[[r as1] ds] ->]. done.
Qed.

(** The writes that all the uploads of an object request. *)
Definition all_writes (attempts : list Attempt) : list (list Z * bool) := attempts ≫= λ a, writes_of [] (ops a).

Lemma retry_writes l n r attempts delays :
  upload_with_retry n l = Some (r, attempts, delays) → Forall (λ w, w.1 = payload) (all_writes attempts).
Proof.
  revert n r attempts delays. induction l as [|x l IH]; intros n r attempts delays; cbn; [done|].
  destruct (cancelled_before x); [intros [= _ <- _]; constructor|].
  destruct (upload_once (replies x)) as [a|] eqn:Ea; [|done]. apply upload_once_writes in Ea.
  assert (Forall (λ w, w.1 = payload) (all_writes [a])) as Hone by (unfold all_writes; cbn; by rewrite app_nil_r).
  destruct (at_result a) as [[]|[c|c|]]; [by intros [= _ <- _]| |by intros [= _ <- _]..].
  case_bool_decide; [by intros [= _ <- _]|]. destruct (cancelled_asleep x); [by intros [= _ <- _]|].
  destruct (upload_with_retry _ l) as [[[r1 as1] ds1]|] eqn:Er; [|done]. intros [= _ <- _].
  unfold all_writes. cbn. apply Forall_app. split; [done|]. by eapply IH.
Qed.

(** C38. An object is uploaded at most [max_attempts] times and, when every request is
    answered, the upload ends.  Whatever becomes of the requests that were not answered
    with success, and whenever, the object under the key is the one that was there or has
    exactly the payload, never a part of it; after success it has the payload.  Success
    means that the last of the uploads made the object of exactly the payload, after uploads
    that failed retryably; in an upload that failed no write was answered with success, and
    one whose start was ends with a request to abort it; the failure is fatal exactly when
    the last upload failed permanently; the delays stay within [max_backoff]. *)
Theorem s3_upload_exact rounds :
  (∀ r attempts delays, upload_with_retry 1 rounds = Some (r, attempts, delays) →
    Z.of_nat (length attempts) ≤ max_attempts retry ∧
    (∀ b b', late b = [] → history (all_writes attempts) b b' →
       (object b' = object b ∨ object b' = Some payload) ∧ (r = Ok tt → object b' = Some payload)) ∧
    (r = Ok tt → ∃ before a, attempts = before ++ [a] ∧ writes a ∧ Forall (λ b, ∃ c, at_result b = Err (UploadRetryable c)) before) ∧
    Forall (λ a, at_result a = Ok tt ∨ unanswered a) attempts ∧
    (∀ f, r = Err f → disposition f = Fatal ↔ ∃ a c, last attempts = Some a ∧ at_result a = Err (UploadPermanent c)) ∧
    Forall (λ d, 0 ≤ d ≤ max_backoff retry) delays) ∧
  (max_attempts retry ≤ Z.of_nat (length rounds) → Forall (λ r, is_Some (upload_once (replies r))) rounds → is_Some (upload_with_retry 1 rounds)).
Proof.
  split.
  - intros r attempts delays Hr. destruct (retried_exact _ 1 _ _ _ ltac:(lia) Hr) as [R1 R2 R3 R4 R5]. split_and!; [lia| |done..].
    intros b b' Hl Hh. apply retry_writes in Hr. destruct (history_object payload _ _ _ Hh Hr) as (_ & H2 & H3); [by rewrite Hl|].
    split; [done|]. intros Hok. apply H3. right. destruct (R2 Hok) as (before & a & -> & Hw & _).
    unfold all_writes. rewrite bind_app. apply elem_of_app. right. cbn. rewrite app_nil_r. by apply writes_answered.
  - intros Hn Hf. apply retry_ends; [lia|lia|done].
Qed.
End exact.

(** ** An example *)
Module UploadExample.
#[local] Program Instance paths : ObjectStorePath := {| path_part s := false; path_parse := Some |}.
Next Obligation. done. Qed.

Definition config : UploadConfig := {| multipart_threshold := 4; part_size := 2; parallel_parts := 2 |}.
Definition retry : RetryConfig := {| initial_backoff := 1000; max_backoff := 5000; max_attempts := 3 |}.
Definition fine : Reply := Replied (Ok tt).
Definition round (l : list Next) : Round :=
  {| cancelled_before := false; cancelled_asleep := false;
     replies := {| on_put := None; on_initiate := Some fine; on_parts := l; on_complete := Some fine |} |}.
(** The second part fails once; then the parts end out of order. *)
Definition rounds : list Round :=
  [round [NextPart 1 (Replied (Err OsGeneric))]; round [NextPart 1 fine; NextPart 1 fine; NextPart 0 fine; NextNone]; round []].
Definition ended := default (Ok tt, [], []) (upload_with_retry config retry "k" [1; 2; 3; 4; 5] 1 rounds).

Lemma s3_upload_exact_witness :
  ended.1.1 = Ok tt ∧ ops <$> ended.1.2 =
    [[OpInitiate (Some fine); OpPart [1; 2]; OpPart [3; 4]; OpAbort];
     [OpInitiate (Some fine); OpPart [1; 2]; OpPart [3; 4]; OpPart [5]; OpComplete (Some fine)]] ∧
  Z.of_nat (length ended.1.2) ≤ 3 ∧ (∃ before a, ended.1.2 = before ++ [a] ∧ writes config [1; 2; 3; 4; 5] a) ∧
  ∀ b', history (all_writes ended.1.2) {| object := Some [9]; late := [] |} b' → object b' = Some [1; 2; 3; 4; 5].
Proof.
  split; [vm_compute; reflexivity|]. split; [vm_compute; reflexivity|].
  destruct (s3_upload_exact config retry "k" [1; 2; 3; 4; 5] ltac:(vm_compute; done) ltac:(vm_compute; done) ltac:(vm_compute; done)
    ltac:(vm_compute; done) ltac:(vm_compute; done) rounds) as [He _].
  destruct (He ended.1.1 ended.1.2 ended.2) as (Hn & Hb & Ho & _); [vm_compute; reflexivity|]. split; [exact Hn|]. split.
  - destruct Ho as (before & a & E & Hw & _); [vm_compute; reflexivity|]. exists before, a. done.
  - intros b' Hh. destruct (Hb {| object := Some [9]; late := [] |} b' eq_refl Hh) as [_ Hs]. apply Hs. vm_compute. reflexivity.
Defined.
End UploadExample.
