(* ===== verification/JsonWriter.v ===== *)
(** * The JSON serializer

    [serializer/json_serializer.rs] of [transferia-connector-support], from the column
    writers on: the value of a cell as JSON, with the encodings of the Debezium sinks for
    MySQL and YDB columns, and the object of a row.

    A string is its UTF-8 bytes, a float its bits, a column its cells; [RecordBatch] rows
    are in range where the encoder is used, and a row that is not is the error [RowIndex]
    (a panic in the source).  The bytes left in the buffer by a failed write are dropped.  The classification of Arrow arrays is left out.  The crates
    that print numbers, encode base64 and parse decimals and dates are interfaces. *)

From stdpp Require Import base tactics numbers option strings pretty list.
From S2P Require Import Prelude Bytes.
Local Open Scope Z_scope.

(** The text of [true], [null], ... *)
Definition text (s : string) : list Z := string_bytes s.

(** A byte of a number or a literal. *)
Definition word_byte (b : Z) : bool :=
  bool_decide (48 ≤ b ≤ 57) || bool_decide (65 ≤ b ≤ 90) || bool_decide (97 ≤ b ≤ 122) || bool_decide (b ∈ [43; 45; 46]).
(** A byte that a JSON string holds as it is. *)
Definition plain_byte (b : Z) : Prop := 32 ≤ b < 256 ∧ b ≠ 34 ∧ b ≠ 92.

Definition ascii_digit (b : Z) : bool := bool_decide (48 ≤ b ≤ 57).
Definition all_digits (l : list Z) : bool := forallb ascii_digit l.
(** [str::parse] of decimal digits that fit. *)
Definition digits_value (l : list Z) : Z := foldl (λ n d, n * 10 + (d - 48)) 0 l.

(** [itoa], [ryu], [base64::STANDARD], [bigdecimal] and [chrono]. *)
Class JsonCrates := {
  itoa : Z → list Z;
  ryu32 : Z → list Z;
  ryu64 : Z → list Z;
  base64_encode : list Z → list Z;
  to_signed_bytes_be : Z → list Z;
  big_decimal : list Z → option (Z * Z);                 (* unscaled integer and scale *)
  big_digits : Z → Z;                                    (* digits of the unscaled integer *)
  naive_date : list Z → option (Z * Z);                  (* year and days since 1970-01-01 *)
  naive_datetime : bool → list Z → option (Z * Z * Z);   (* year, milliseconds and microseconds *)

  itoa_decimal z : itoa z = string_bytes (pretty z);
  ryu32_text b : ryu32 b ≠ [] ∧ Forall (λ c, word_byte c = true) (ryu32 b);
  ryu64_text b : ryu64 b ≠ [] ∧ Forall (λ c, word_byte c = true) (ryu64 b);
  base64_plain l : Forall byte l → Forall plain_byte (base64_encode l);
  signed_bytes z : Forall byte (to_signed_bytes_be z);
  (** The digits of a plain decimal text, and the number of them after the point. *)
  big_decimal_text (negative : bool) i f :
    i ≠ [] → all_digits i = true → all_digits f = true →
    big_decimal ((if negative then [45] else []) ++ i ++ match f with [] => [] | _ => 46 :: f end) =
    Some (if negative then - digits_value (i ++ f) else digits_value (i ++ f), Z.of_nat (length f))
}.

Inductive JsonError :=
| RowIndex | NonFinite | Base64Length | UndefinedCp1252 (b : Z) | BadBit | EnumOrdinal | SetBits | MillisOverflow
| BadDecimal | BadDyNumber | BadUuid | BadDate | BadDateTime | BadTime | BadYear | BadShape.

Inductive NonFiniteFloatEncoding := Reject | ProtobufJsonString.

(** ** Strings *)
Definition HEX_DIGITS : list Z := text "0123456789abcdef".
Definition hex_digit (n : Z) : Z := nth (Z.to_nat n) HEX_DIGITS 0.

Definition json_string_byte (b : Z) : list Z :=
  if bool_decide (b = 34) then [92; 34]
  else if bool_decide (b = 92) then [92; 92]
  else if bool_decide (b = 10) then [92; 110]
  else if bool_decide (b = 13) then [92; 114]
  else if bool_decide (b = 9) then [92; 116]
  else if bool_decide (0 ≤ b ≤ 31) then [92; 117; 48; 48; hex_digit (Z.shiftr b 4); hex_digit (Z.land b 15)]
  else [b].
Definition write_json_string_byte (buf : list Z) (b : Z) : list Z := buf ++ json_string_byte b.
Definition write_json_string_contents (buf s : list Z) : list Z := foldl write_json_string_byte buf s.
Definition write_json_string (buf s : list Z) : list Z := write_json_string_contents (buf ++ [34]) s ++ [34].

(** The characters of code page 1252 from 0x80 to 0x9f. *)
Definition cp1252_high : list (option Z) :=
  [Some 0x20ac; None; Some 0x201a; Some 0x192; Some 0x201e; Some 0x2026; Some 0x2020; Some 0x2021;
   Some 0x2c6; Some 0x2030; Some 0x160; Some 0x2039; Some 0x152; None; Some 0x17d; None;
   None; Some 0x2018; Some 0x2019; Some 0x201c; Some 0x201d; Some 0x2022; Some 0x2013; Some 0x2014;
   Some 0x2dc; Some 0x2122; Some 0x161; Some 0x203a; Some 0x153; None; Some 0x17e; Some 0x178].
Definition cp1252_char (b : Z) : option Z :=
  if bool_decide (0x80 ≤ b ≤ 0x9f) then default None (cp1252_high !! Z.to_nat (b - 0x80)) else Some b.
(** [char::encode_utf8] below 0x10000. *)
Definition encode_utf8 (c : Z) : list Z :=
  if bool_decide (c < 0x80) then [c]
  else if bool_decide (c < 0x800) then [0xc0 + Z.shiftr c 6; 0x80 + Z.land c 0x3f]
  else [0xe0 + Z.shiftr c 12; 0x80 + Z.land (Z.shiftr c 6) 0x3f; 0x80 + Z.land c 0x3f].

Definition write_cp1252_byte (buf : list Z) (b : Z) : result JsonError (list Z) :=
  if bool_decide (b < 128) then Ok (write_json_string_byte buf b)
  else ok_or (cp1252_char b) (UndefinedCp1252 b) ≫= λ c, Ok (buf ++ encode_utf8 c).
Definition write_cp1252_json_string (buf value : list Z) : result JsonError (list Z) :=
  for_each write_cp1252_byte value (buf ++ [34]) ≫= λ buf, Ok (buf ++ [34]).

Section writers.
Context `{JsonCrates}.

(** ** Numbers and binary data *)
Definition write_int (buf : list Z) (v : Z) : list Z := buf ++ itoa v.

Definition write_base64 (buf value : list Z) : result JsonError (list Z) :=
  let buf := buf ++ [34] in
  let encoded_len := (Z.of_nat (length value) + 2) / 3 * 4 in
  ensure (bool_decide (encoded_len ≤ usize_max)) Base64Length ≫= λ _,
  ensure (bool_decide (Z.of_nat (length buf) + encoded_len ≤ usize_max)) Base64Length ≫= λ _,
  Ok (buf ++ base64_encode value ++ [34]).

Definition write_float (buf formatted : list Z) (e : NonFiniteFloatEncoding) : result JsonError (list Z) :=
  let special (name : string) :=
    match e with Reject => Err NonFinite | ProtobufJsonString => Ok (buf ++ [34] ++ text name ++ [34]) end in
  if bool_decide (formatted = text "NaN") then special "NaN"
  else if bool_decide (formatted = text "inf") then special "Infinity"
  else if bool_decide (formatted = text "-inf") then special "-Infinity"
  else Ok (buf ++ formatted).

(** ** MySQL and YDB values *)
(** [str::split_once] *)
Definition split_at (c : Z) (l : list Z) : option (list Z * list Z) :=
  match list_find (λ b, b = c) l with Some (i, _) => Some (firstn i l, drop (S i) l) | None => None end.
Definition strip_minus (l : list Z) : bool * list Z := match l with 45 :: r => (true, r) | _ => (false, l) end.
(** [to_signed_bytes_be], with a zero byte for no bytes. *)
Definition decimal_bytes (unscaled : Z) : list Z := match to_signed_bytes_be unscaled with [] => [0] | l => l end.

Definition mysql_decimal (value : list Z) (precision scale : Z) (unsigned : bool) : result JsonError (list Z) :=
  let unsigned_value := (strip_minus value).2 in
  (if bool_decide (scale = 0) then
     ensure (negb (bool_decide (46 ∈ unsigned_value))) BadDecimal ≫= λ _, Ok (unsigned_value, None)
   else
     ok_or (split_at 46 unsigned_value) BadDecimal ≫= λ '(integer, fractional),
     ensure (bool_decide (Z.of_nat (length fractional) = scale) && all_digits fractional) BadDecimal ≫= λ _,
     Ok (integer, Some fractional)) ≫= λ '(integer, fractional),
  ensure (negb (bool_decide (integer = [])) && all_digits integer && default true (all_digits <$> fractional)) BadDecimal ≫= λ _,
  ok_or (big_decimal value) BadDecimal ≫= λ '(unscaled, actual_scale),
  ensure (bool_decide (actual_scale = scale)) BadDecimal ≫= λ _,
  ensure (bool_decide (big_digits unscaled ≤ precision)) BadDecimal ≫= λ _,
  ensure (negb unsigned || negb (bool_decide (unscaled < 0))) BadDecimal ≫= λ _,
  Ok (decimal_bytes unscaled).
Definition write_mysql_decimal (buf value : list Z) (precision scale : Z) (unsigned : bool) : result JsonError (list Z) :=
  mysql_decimal value precision scale unsigned ≫= λ bytes, write_base64 buf bytes.

(** The encodings of the white space that [str::trim] removes. *)
Definition white_space : list (list Z) :=
  ((λ b, [b]) <$> [9; 10; 11; 12; 13; 32]) ++ [[0xc2; 0x85]; [0xc2; 0xa0]; [0xe1; 0x9a; 0x80]] ++
  ((λ i, [0xe2; 0x80; 0x80 + i]) <$> seqZ 0 11) ++
  [[0xe2; 0x80; 0xa8]; [0xe2; 0x80; 0xa9]; [0xe2; 0x80; 0xaf]; [0xe2; 0x81; 0x9f]; [0xe3; 0x80; 0x80]].
Definition trimmed (l : list Z) : bool :=
  negb (existsb (λ w, bool_decide (w `prefix_of` l) || bool_decide (w `suffix_of` l)) white_space).

Definition ydb_dynamic_number (value : list Z) : result JsonError (Z * list Z) :=
  ensure (negb (bool_decide (value = [])) && trimmed value) BadDyNumber ≫= λ _,
  ok_or (big_decimal value) BadDyNumber ≫= λ '(unscaled, scale),
  ensure (bool_decide (- 2 ^ 31 ≤ scale < 2 ^ 31)) BadDyNumber ≫= λ _,
  Ok (scale, decimal_bytes unscaled).
Definition write_ydb_dynamic_number (buf value : list Z) : result JsonError (list Z) :=
  ydb_dynamic_number value ≫= λ '(scale, bytes),
  let buf := write_int (buf ++ [123] ++ [34] ++ text "scale" ++ [34; 58]) scale in
  write_base64 (buf ++ [44; 34] ++ text "value" ++ [34; 58]) bytes ≫= λ buf,
  Ok (buf ++ [125]).

Definition uuid_byte (buf : list Z) (index : nat) (b : Z) : list Z :=
  buf ++ (if bool_decide (index ∈ [4; 6; 8; 10]%nat) then [45] else []) ++ [hex_digit (Z.shiftr b 4); hex_digit (Z.land b 15)].
Definition write_ydb_uuid (buf value : list Z) : result JsonError (list Z) :=
  ensure (bool_decide (length value = 16%nat)) BadUuid ≫= λ _,
  Ok (foldl (λ buf x, uuid_byte buf x.1 x.2) (buf ++ [34]) (imap pair value) ++ [34]).

Definition mysql_date_days (value : list Z) : result JsonError Z :=
  ensure (bool_decide (length value = 10%nat)) BadDate ≫= λ _,
  ok_or (naive_date value) BadDate ≫= λ '(year, days),
  ensure (bool_decide (0 < year)) BadDate ≫= λ _,
  Ok days.

Definition validate_temporal_shape (value : list Z) (base_len : nat) (precision : Z) : result JsonError unit :=
  let expected_len := Z.of_nat base_len + (if bool_decide (precision = 0) then 0 else precision + 1) in
  ensure (bool_decide (Z.of_nat (length value) = expected_len) &&
          (bool_decide (precision = 0) || (bool_decide (value !! base_len = Some 46) && all_digits (drop (S base_len) value)))) BadShape.

Definition mysql_datetime_timestamp (value : list Z) (precision : Z) : result JsonError Z :=
  validate_temporal_shape value 19 precision ≫= λ _,
  ok_or (naive_datetime (negb (bool_decide (precision = 0))) value) BadDateTime ≫= λ '(year, millis, micros),
  ensure (bool_decide (0 < year)) BadDateTime ≫= λ _,
  Ok (if bool_decide (precision ≤ 3) then millis else micros).

Definition write_mysql_zoned_timestamp (buf value : list Z) (precision : Z) : result JsonError (list Z) :=
  validate_temporal_shape value 19 precision ≫= λ _,
  ok_or (naive_datetime (negb (bool_decide (precision = 0))) value) BadDateTime ≫= λ '(year, _, _),
  ensure (bool_decide (0 < year)) BadDateTime ≫= λ _,
  Ok (write_json_string_contents (write_json_string_contents (buf ++ [34]) (firstn 10 value) ++ [84]) (drop 11 value) ++ [90; 34]).

Definition mysql_year (value : list Z) : result JsonError Z :=
  ensure (bool_decide (length value = 4%nat) && all_digits value) BadYear ≫= λ _,
  let year := digits_value value in
  ensure (negb (bool_decide (year = 0))) BadYear ≫= λ _,
  Ok year.
End writers.

(** [str::split] of the bytes at a byte. *)
Fixpoint split_bytes (c : Z) (l : list Z) : list (list Z) :=
  match l with
  | [] => [[]]
  | b :: l =>
      if bool_decide (b = c) then [] :: split_bytes c l
      else match split_bytes c l with [] => [[b]] | part :: parts => (b :: part) :: parts end
  end.

(** The precision is at most 6, which the metadata of the column was checked for. *)
Definition mysql_time_timestamp (value : list Z) (precision : Z) : result JsonError Z :=
  let '(negative, unsigned) := strip_minus value in
  (if bool_decide (precision = 0) then
     ensure (negb (bool_decide (46 ∈ unsigned))) BadTime ≫= λ _, Ok (unsigned, None)
   else
     ok_or (split_at 46 unsigned) BadTime ≫= λ '(clock, fractional),
     ensure (bool_decide (Z.of_nat (length fractional) = precision) && all_digits fractional) BadTime ≫= λ _,
     Ok (clock, Some fractional)) ≫= λ '(clock, fractional),
  match split_bytes 58 clock with
  | [h; m; s] =>
      ensure (bool_decide (2 ≤ length h ≤ 3)%nat && bool_decide (length m = 2%nat) && bool_decide (length s = 2%nat) &&
              (all_digits h && all_digits m && all_digits s)) BadTime ≫= λ _,
      let hours := digits_value h in
      let minutes := digits_value m in
      let seconds := digits_value s in
      ensure (bool_decide (hours ≤ 838) && bool_decide (minutes ≤ 59) && bool_decide (seconds ≤ 59)) BadTime ≫= λ _,
      let fractional_micros := match fractional with Some f => digits_value f * 10 ^ (6 - precision) | None => 0 end in
      let micros := hours * 3600000000 + minutes * 60000000 + seconds * 1000000 + fractional_micros in
      ensure (negb negative || negb (bool_decide (micros = 0))) BadTime ≫= λ _,
      Ok (if negative then - micros else micros)
  | _ => Err BadTime
  end.

(** ** Columns *)
Abbreviation Cells A := (list (option A)) (only parsing).

Inductive ColumnWriter :=
| WNull
| WUtf8 (l : Cells (list Z)) | WLargeUtf8 (l : Cells (list Z))
| WBinary (l : Cells (list Z)) | WLargeBinary (l : Cells (list Z)) | WFixedSizeBinary (l : Cells (list Z))
| WInt8 (l : Cells Z) | WInt16 (l : Cells Z) | WInt32 (l : Cells Z) | WInt64 (l : Cells Z)
| WUInt8 (l : Cells Z) | WUInt16 (l : Cells Z) | WUInt32 (l : Cells Z) | WUInt64 (l : Cells Z)
| WFloat32 (l : Cells Z) | WFloat64 (l : Cells Z)
| WBoolean (l : Cells bool)
| WDate32 (l : Cells Z) | WDate64 (l : Cells Z)
| WTimestampSecond (l : Cells Z) | WTimestampMillisecond (l : Cells Z) | WTimestampMicrosecond (l : Cells Z) | WTimestampNanosecond (l : Cells Z)
| WYdbDatetimeMilliseconds (l : Cells Z) | WYdbDurationMicroseconds (l : Cells Z)
| WYdbUuid (l : Cells (list Z)) | WYdbDynamicNumber (l : Cells (list Z))
| WMySqlBit1 (l : Cells (list Z)) | WMySqlCp1252Text (l : Cells (list Z)) | WMySqlPreciseUnsigned64 (l : Cells Z)
| WMySqlDecimal (l : Cells (list Z)) (precision scale : Z) (unsigned : bool)
| WMySqlDate (l : Cells (list Z))
| WMySqlDateTime (l : Cells (list Z)) (precision : Z)
| WMySqlTimestamp (l : Cells (list Z)) (precision : Z)
| WMySqlTime (l : Cells (list Z)) (precision : Z)
| WMySqlYear (l : Cells (list Z))
| WMySqlEnum (l : Cells Z) (members : list (list Z))
| WMySqlSet (l : Cells Z) (members : list (list Z)).

(** [Array::is_null] *)
Definition null_at {A} (l : Cells A) (row : nat) : result JsonError bool :=
  ok_or (l !! row) RowIndex ≫= λ c, Ok (match c with None => true | Some _ => false end).
(** [value(row)] of a cell that is not null. *)
Definition value_at {A} (l : Cells A) (row : nat) : result JsonError A := ok_or (mjoin (l !! row)) RowIndex.

Definition is_null_at (w : ColumnWriter) (row : nat) : result JsonError bool :=
  match w with
  | WNull => Ok true
  | WUtf8 l | WLargeUtf8 l | WBinary l | WLargeBinary l | WFixedSizeBinary l | WYdbUuid l | WYdbDynamicNumber l
  | WMySqlBit1 l | WMySqlCp1252Text l | WMySqlDecimal l _ _ _ | WMySqlDate l | WMySqlDateTime l _ | WMySqlTimestamp l _
  | WMySqlTime l _ | WMySqlYear l => null_at l row
  | WInt8 l | WInt16 l | WInt32 l | WInt64 l | WUInt8 l | WUInt16 l | WUInt32 l | WUInt64 l | WFloat32 l | WFloat64 l
  | WDate32 l | WDate64 l | WTimestampSecond l | WTimestampMillisecond l | WTimestampMicrosecond l | WTimestampNanosecond l
  | WYdbDatetimeMilliseconds l | WYdbDurationMicroseconds l | WMySqlPreciseUnsigned64 l | WMySqlEnum l _ | WMySqlSet l _ => null_at l row
  | WBoolean l => null_at l row
  end.

(** The members of a SET value, separated by commas. *)
Definition known_bits (members : nat) : Z := if bool_decide (members = 64%nat) then u64_max else Z.shiftl 1 (Z.of_nat members `mod` 64) - 1.
Definition write_set_member (bits : Z) (acc : list Z * bool) (x : nat * list Z) : list Z * bool :=
  if Z.testbit bits (Z.of_nat x.1 `mod` 64) then
    (write_json_string_contents (acc.1 ++ (if acc.2 then [] else [44])) x.2, false)
  else acc.

Section encoder.
Context `{JsonCrates}.

Definition write_value (w : ColumnWriter) (buf : list Z) (row : nat) (e : NonFiniteFloatEncoding) : result JsonError (list Z) :=
  match w with
  | WNull => Ok (buf ++ text "null")
  | WUtf8 l | WLargeUtf8 l => value_at l row ≫= λ v, Ok (write_json_string buf v)
  | WBinary l | WLargeBinary l | WFixedSizeBinary l => value_at l row ≫= λ v, write_base64 buf v
  | WInt8 l | WInt16 l | WInt32 l | WInt64 l | WUInt8 l | WUInt16 l | WUInt32 l | WUInt64 l | WDate32 l | WDate64 l
  | WTimestampSecond l | WTimestampMillisecond l | WTimestampMicrosecond l | WTimestampNanosecond l | WYdbDurationMicroseconds l =>
      value_at l row ≫= λ v, Ok (write_int buf v)
  | WFloat32 l => value_at l row ≫= λ v, write_float buf (ryu32 v) e
  | WFloat64 l => value_at l row ≫= λ v, write_float buf (ryu64 v) e
  | WBoolean l => value_at l row ≫= λ v, Ok (buf ++ text (if v : bool then "true" else "false"))
  | WYdbDatetimeMilliseconds l =>
      value_at l row ≫= λ v,
      ensure (bool_decide (- 2 ^ 63 ≤ v * 1000 < 2 ^ 63)) MillisOverflow ≫= λ _,
      Ok (write_int buf (v * 1000))
  | WYdbUuid l => value_at l row ≫= λ v, write_ydb_uuid buf v
  | WYdbDynamicNumber l => value_at l row ≫= λ v, write_ydb_dynamic_number buf v
  | WMySqlBit1 l =>
      value_at l row ≫= λ v,
      match v with
      | [b] => ensure (bool_decide (b ≤ 1)) BadBit ≫= λ _, Ok (buf ++ text (if bool_decide (b = 1) then "true" else "false"))
      | _ => Err BadBit
      end
  | WMySqlCp1252Text l => value_at l row ≫= λ v, write_cp1252_json_string buf v
  | WMySqlPreciseUnsigned64 l => value_at l row ≫= λ v, write_base64 buf (to_signed_bytes_be v)
  | WMySqlDecimal l precision scale unsigned => value_at l row ≫= λ v, write_mysql_decimal buf v precision scale unsigned
  | WMySqlDate l => value_at l row ≫= λ v, mysql_date_days v ≫= λ n, Ok (write_int buf n)
  | WMySqlDateTime l precision => value_at l row ≫= λ v, mysql_datetime_timestamp v precision ≫= λ n, Ok (write_int buf n)
  | WMySqlTimestamp l precision => value_at l row ≫= λ v, write_mysql_zoned_timestamp buf v precision
  | WMySqlTime l precision => value_at l row ≫= λ v, mysql_time_timestamp v precision ≫= λ n, Ok (write_int buf n)
  | WMySqlYear l => value_at l row ≫= λ v, mysql_year v ≫= λ n, Ok (write_int buf n)
  | WMySqlEnum l members =>
      value_at l row ≫= λ ordinal,
      (if bool_decide (ordinal = 0) then Ok [] else ok_or (members !! Z.to_nat (ordinal - 1)) EnumOrdinal) ≫= λ v,
      Ok (write_json_string buf v)
  | WMySqlSet l members =>
      value_at l row ≫= λ bits,
      ensure (bool_decide (Z.land bits (Z.lxor u64_max (known_bits (length members))) = 0)) SetBits ≫= λ _,
      Ok ((foldl (write_set_member bits) (buf ++ [34], true) (imap pair members)).1 ++ [34])
  end.

Record JsonColumnWriter := { source_index : option nat; output_name : list Z; writer : ColumnWriter }.
Record JsonBatchEncoder := { columns : list JsonColumnWriter; non_finite_floats : NonFiniteFloatEncoding }.

(** One column of [write_object_with].  The override may write to the buffer, and tells
    whether it wrote the value. *)
Definition write_column (self : JsonBatchEncoder) (row : nat) (override_value : option nat → list Z → list Z → bool * list Z)
    (buf : list Z) (x : nat * JsonColumnWriter) : result JsonError (list Z) :=
  let buf := if bool_decide (x.1 = 0%nat) then buf else buf ++ [44] in
  let buf := write_json_string buf (output_name x.2) ++ [58] in
  let '(written, buf) := override_value (source_index x.2) (output_name x.2) buf in
  if written : bool then Ok buf
  else
    is_null_at (writer x.2) row ≫= λ null,
    if null : bool then Ok (buf ++ text "null") else write_value (writer x.2) buf row (non_finite_floats self).
Definition write_object_with (self : JsonBatchEncoder) (row : nat) (buf : list Z)
    (override_value : option nat → list Z → list Z → bool * list Z) : result JsonError (list Z) :=
  for_each (write_column self row override_value) (imap pair (columns self)) (buf ++ [123]) ≫= λ buf,
  Ok (buf ++ [125]).
Definition write_object (self : JsonBatchEncoder) (row : nat) (buf : list Z) : result JsonError (list Z) :=
  write_object_with self row buf (λ _ _ buf, (false, buf)).
Definition write_row (self : JsonBatchEncoder) (row : nat) (buf : list Z) : result JsonError (list Z) :=
  write_object self row buf ≫= λ buf, Ok (buf ++ [10]).
End encoder.

(** ** Equality of cells and rows *)
Definition same_value {A} `{EqDecision A} (l r : Cells A) (row : nat) : result JsonError bool :=
  value_at l row ≫= λ x, value_at r row ≫= λ y, Ok (bool_decide (x = y)).
(** [&&] *)
Definition and_then (b : bool) (m : result JsonError bool) : result JsonError bool := if b then m else Ok false.

Definition value_equals (self other : ColumnWriter) (row : nat) : result JsonError bool :=
  is_null_at self row ≫= λ self_null,
  is_null_at other row ≫= λ other_null,
  if self_null || other_null then Ok (Bool.eqb self_null other_null)
  else match self, other with
  | WNull, WNull => Ok true
  | WUtf8 l, WUtf8 r | WLargeUtf8 l, WLargeUtf8 r | WBinary l, WBinary r | WLargeBinary l, WLargeBinary r
  | WFixedSizeBinary l, WFixedSizeBinary r => same_value l r row
  | WInt8 l, WInt8 r | WInt16 l, WInt16 r | WInt32 l, WInt32 r | WInt64 l, WInt64 r
  | WUInt8 l, WUInt8 r | WUInt16 l, WUInt16 r | WUInt32 l, WUInt32 r | WUInt64 l, WUInt64 r
  | WFloat32 l, WFloat32 r | WFloat64 l, WFloat64 r => same_value l r row
  | WBoolean l, WBoolean r => same_value l r row
  | WDate32 l, WDate32 r | WDate64 l, WDate64 r
  | WTimestampSecond l, WTimestampSecond r | WTimestampMillisecond l, WTimestampMillisecond r
  | WTimestampMicrosecond l, WTimestampMicrosecond r | WTimestampNanosecond l, WTimestampNanosecond r
  | WYdbDatetimeMilliseconds l, WYdbDatetimeMilliseconds r | WYdbDurationMicroseconds l, WYdbDurationMicroseconds r => same_value l r row
  | WYdbUuid l, WYdbUuid r | WYdbDynamicNumber l, WYdbDynamicNumber r
  | WMySqlBit1 l, WMySqlBit1 r | WMySqlCp1252Text l, WMySqlCp1252Text r => same_value l r row
  | WMySqlPreciseUnsigned64 l, WMySqlPreciseUnsigned64 r => same_value l r row
  | WMySqlDecimal l p s u, WMySqlDecimal r p' s' u' =>
      and_then (bool_decide (p = p') && bool_decide (s = s') && bool_decide (u = u')) (same_value l r row)
  | WMySqlDate l, WMySqlDate r | WMySqlYear l, WMySqlYear r => same_value l r row
  | WMySqlDateTime l p, WMySqlDateTime r p' | WMySqlTimestamp l p, WMySqlTimestamp r p' | WMySqlTime l p, WMySqlTime r p' =>
      and_then (bool_decide (p = p')) (same_value l r row)
  | WMySqlEnum l m, WMySqlEnum r m' | WMySqlSet l m, WMySqlSet r m' => and_then (bool_decide (m = m')) (same_value l r row)
  | _, _ => Ok false
  end.

(** [zip(..).all(..)] *)
Fixpoint columns_equal (l r : list JsonColumnWriter) (row : nat) : result JsonError bool :=
  match l, r with
  | x :: l, y :: r =>
      and_then (bool_decide (output_name x = output_name y)) (value_equals (writer x) (writer y) row) ≫= λ b,
      and_then b (columns_equal l r row)
  | _, _ => Ok true
  end.
Definition row_equals (self other : JsonBatchEncoder) (row : nat) : result JsonError bool :=
  and_then (bool_decide (length (columns self) = length (columns other))) (columns_equal (columns self) (columns other) row).
