(* ===== verification/JsonText.v ===== *)
(** * What the JSON serializer writes

    A lexer for JSON text as a reference, and the tokens of the value of every cell.  The
    object of a row of [JsonWriter.v] is read back as those tokens, and the row ends at its
    only newline, so that the lines of a file are its rows. *)

From stdpp Require Import base tactics numbers option strings pretty sets list.
From S2P Require Import Prelude Bytes Schema S3Objects JsonWriter.
Local Open Scope Z_scope.

(** ** A lexer *)
Inductive Token := TOpen | TClose | TColon | TComma | TString (s : list Z) | TWord (w : list Z).

Definition hex_value (b : Z) : option Z :=
  if bool_decide (48 ≤ b ≤ 57) then Some (b - 48)
  else if bool_decide (97 ≤ b ≤ 102) then Some (b - 87)
  else if bool_decide (65 ≤ b ≤ 70) then Some (b - 55)
  else None.
Definition escape (b : Z) : option Z :=
  if bool_decide (b ∈ [34; 92; 47]) then Some b
  else if bool_decide (b = 98) then Some 8
  else if bool_decide (b = 102) then Some 12
  else if bool_decide (b = 110) then Some 10
  else if bool_decide (b = 114) then Some 13
  else if bool_decide (b = 116) then Some 9
  else None.

(** Between tokens, in a word, in a string, after a backslash, and after [\u] with the
    number of digits to come and the code so far. *)
Inductive Mode := MStart | MWord (w : list Z) | MString (s : list Z) | MEscape (s : list Z) | MUnicode (s : list Z) (n : nat) (code : Z).
Definition Lexer : Type := Mode * list Token.

Definition start_byte (out : list Token) (b : Z) : option Lexer :=
  if bool_decide (b = 123) then Some (MStart, out ++ [TOpen])
  else if bool_decide (b = 125) then Some (MStart, out ++ [TClose])
  else if bool_decide (b = 58) then Some (MStart, out ++ [TColon])
  else if bool_decide (b = 44) then Some (MStart, out ++ [TComma])
  else if bool_decide (b = 34) then Some (MString [], out)
  else if bool_decide (b ∈ [9; 10; 13; 32]) then Some (MStart, out)
  else if word_byte b then Some (MWord [b], out)
  else None.
Definition lex_byte (st : Lexer) (b : Z) : option Lexer :=
  let '(m, out) := st in
  match m with
  | MStart => start_byte out b
  | MWord w => if word_byte b then Some (MWord (w ++ [b]), out) else start_byte (out ++ [TWord w]) b
  | MString s =>
      if bool_decide (b = 34) then Some (MStart, out ++ [TString s])
      else if bool_decide (b = 92) then Some (MEscape s, out)
      else if bool_decide (b < 32) then None
      else Some (MString (s ++ [b]), out)
  | MEscape s =>
      if bool_decide (b = 117) then Some (MUnicode s 4 0, out)
      else escape b ≫= λ x, Some (MString (s ++ [x]), out)
  | MUnicode s n code =>
      hex_value b ≫= λ d,
      let code := 16 * code + d in
      if bool_decide (n = 1%nat) then
        if bool_decide (0xd800 ≤ code ≤ 0xdfff) then None else Some (MString (s ++ encode_utf8 code), out)
      else Some (MUnicode s (n - 1) code, out)
  end.
Fixpoint lex (st : Lexer) (l : list Z) : option Lexer :=
  match l with [] => Some st | b :: l => lex_byte st b ≫= λ st, lex st l end.

(** Between tokens, a word may be open. *)
Definition ready (st : Lexer) : Prop := match st.1 with MStart | MWord _ => True | _ => False end.
Definition flush (st : Lexer) : list Token := match st.1 with MWord w => st.2 ++ [TWord w] | _ => st.2 end.
#[export] Instance ready_dec st : Decision (ready st).
Proof. unfold ready. destruct st.1; apply _. Defined.
(** The tokens of a text. *)
Definition tokens (l : list Z) : option (list Token) :=
  lex (MStart, []) l ≫= λ st, if bool_decide (ready st) then Some (flush st) else None.

Lemma lex_app st l k : lex st (l ++ k) = lex st l ≫= λ st, lex st k.
Proof. revert st. induction l as [|b l IH]; intros st; [done|]. cbn. destruct (lex_byte st b); [apply IH|done]. Qed.

(** A byte other than one of a word ends the open word. *)
Lemma ready_byte st b : ready st → word_byte b = false → lex_byte st b = start_byte (flush st) b.
Proof. destruct st as [[] out]; cbn; try done. by intros _ ->. Qed.

(** *** Parts of a text *)

(** No control characters, and so no newline. *)
Definition visible (t : list Z) : Prop := Forall (λ b, 32 ≤ b) t.
(** [t] stands for [s] inside a string. *)
Record body (t s : list Z) : Prop := {
  body_lex : ∀ acc out, lex (MString acc, out) t = Some (MString (acc ++ s), out);
  body_visible : visible t
}.
(** [t] is the text of the tokens [toks]; a word at the end of a [printed] text is open. *)
Record closed (t : list Z) (toks : list Token) : Prop := {
  closed_lex : ∀ out, lex (MStart, out) t = Some (MStart, out ++ toks);
  closed_visible : visible t
}.
Record printed (t : list Z) (toks : list Token) : Prop := {
  printed_lex : ∀ out, ∃ st, lex (MStart, out) t = Some st ∧ ready st ∧ flush st = out ++ toks;
  printed_visible : visible t
}.

Lemma body_nil : body [] [].
Proof. split; [|constructor]. intros acc out. cbn. by rewrite app_nil_r. Qed.
Lemma body_app t1 s1 t2 s2 : body t1 s1 → body t2 s2 → body (t1 ++ t2) (s1 ++ s2).
Proof.
  intros [L1 V1] [L2 V2]. split; [|by apply Forall_app]. intros acc out. rewrite lex_app, L1. cbn. rewrite L2. by rewrite app_assoc.
Qed.
Lemma body_bind {A} (f g : A → list Z) l : Forall (λ x, body (f x) (g x)) l → body (l ≫= f) (l ≫= g).
Proof. induction 1; [apply body_nil|]. rewrite !bind_cons. by apply body_app. Qed.
Lemma body_plain t : Forall plain_byte t → body t t.
Proof.
  intros Hp. rewrite <-(list_fmap_id t) at 1 2. split.
  - intros acc. rewrite list_fmap_id. induction Hp as [|b t (Hb & H34 & H92) _ IH] in acc |- *; intros out; cbn; [by rewrite app_nil_r|].
    rewrite !bool_decide_eq_false_2 by lia. cbn. rewrite IH. by rewrite <-app_assoc.
  - rewrite list_fmap_id. eapply Forall_impl; [exact Hp|]. intros b [? _]. lia.
Qed.

Lemma hex_digit_value n : 0 ≤ n < 16 → hex_value (hex_digit n) = Some n.
Proof.
  intros Hn. assert (n ∈ seqZ 0 16) as Hin by (apply elem_of_seqZ; lia). vm_compute in Hin.
  repeat (apply elem_of_cons in Hin as [->|Hin]; [done|]). by apply not_elem_of_nil in Hin.
Qed.

Lemma string_byte_body b : byte b → body (json_string_byte b) [b].
Proof.
  intros Hb. unfold byte in Hb. unfold json_string_byte. repeat (case_bool_decide; [subst; split; [by intros|by repeat constructor]|]).
  case_bool_decide as Hc; [|apply body_plain; repeat constructor; lia].
  assert (b ∈ seqZ 0 32) as Hin by (apply elem_of_seqZ; lia). vm_compute in Hin.
  repeat (apply elem_of_cons in Hin as [->|Hin]; [split; [by intros|repeat constructor; vm_compute; done]|]). by apply not_elem_of_nil in Hin.
Qed.
Lemma contents_eq buf s : write_json_string_contents buf s = buf ++ (s ≫= json_string_byte).
Proof.
  unfold write_json_string_contents. induction s as [|b s IH] using rev_ind; cbn; [by rewrite app_nil_r|].
  rewrite foldl_app, bind_app. cbn. rewrite IH. unfold write_json_string_byte. by rewrite app_nil_r, app_assoc.
Qed.
Lemma contents_body s : Forall byte s → body (s ≫= json_string_byte) s.
Proof.
  intros Hs. rewrite <-(list_fmap_id s) at 2. replace (id <$> s) with (s ≫= λ b, [b]) by (clear; induction s as [|b s IH]; [done|]; cbn in *; by rewrite IH).
  apply body_bind. eapply Forall_impl; [exact Hs|]. apply string_byte_body.
Qed.

Lemma closed_string t s : body t s → closed (34 :: t ++ [34]) [TString s].
Proof.
  intros [L V]. split.
  - intros out. cbn [lex lex_byte]. change (start_byte out 34) with (Some (MString [], out)). cbn [mbind option_bind]. by rewrite lex_app, L.
  - constructor; [lia|]. apply Forall_app. split; [done|]. by repeat constructor.
Qed.
Lemma closed_nil : closed [] [].
Proof. split; [intros out; cbn; by rewrite app_nil_r|constructor]. Qed.
Lemma closed_app t1 k1 t2 k2 : closed t1 k1 → closed t2 k2 → closed (t1 ++ t2) (k1 ++ k2).
Proof. intros [L1 V1] [L2 V2]. split; [|by apply Forall_app]. intros out. rewrite lex_app, L1. cbn. by rewrite L2, app_assoc. Qed.
Lemma closed_printed t toks : closed t toks → printed t toks.
Proof. intros [L V]. split; [|done]. intros out. eexists. by rewrite L. Qed.
Lemma closed_then t1 k1 t2 k2 : closed t1 k1 → printed t2 k2 → printed (t1 ++ t2) (k1 ++ k2).
Proof.
  intros [L1 V1] [L2 V2]. split; [|by apply Forall_app]. intros out. destruct (L2 (out ++ k1)) as (st & Hst & Hr & Hf).
  exists st. rewrite lex_app, L1. cbn. by rewrite Hst, Hf, app_assoc.
Qed.
(** Anything but a word may follow. *)
Lemma printed_then t1 k1 b t2 k2 : printed t1 k1 → word_byte b = false → printed (b :: t2) k2 → printed (t1 ++ b :: t2) (k1 ++ k2).
Proof.
  intros [L1 V1] Hb [L2 V2]. split; [|by apply Forall_app]. intros out. destruct (L1 out) as (st & Hst & Hr & Hf).
  rewrite lex_app, Hst. cbn [mbind option_bind lex]. rewrite ready_byte by done. rewrite Hf.
  destruct (L2 (out ++ k1)) as (st' & Hst' & Hr' & Hf'). exists st'. rewrite <-app_assoc in Hf'. done.
Qed.
Lemma closed_byte b k : (∀ out, start_byte out b = Some (MStart, out ++ [k])) → 32 ≤ b → closed [b] [k].
Proof. intros Hb Hv. split; [|by repeat constructor]. intros out. cbn [lex lex_byte]. by rewrite Hb. Qed.
Lemma printed_word w : w ≠ [] → Forall (λ b, word_byte b = true) w → printed w [TWord w].
Proof.
  intros Hne Hw. split.
  - intros out. destruct w as [|b w]; [done|]. apply Forall_cons in Hw as [Hb Hw].
    assert (∀ w acc, Forall (λ b, word_byte b = true) w → lex (MWord acc, out) w = Some (MWord (acc ++ w), out)) as Hl.
    { clear. induction w as [|b w IH]; intros acc Hw; cbn; [by rewrite app_nil_r|]. apply Forall_cons in Hw as [-> Hw]. cbn. rewrite IH by done. by rewrite <-app_assoc. }
    exists (MWord (b :: w), out). split; [|done]. cbn [lex lex_byte]. assert (start_byte out b = Some (MWord [b], out)) as ->; [|cbn [mbind option_bind]; by rewrite Hl].
    unfold start_byte. rewrite Hb. repeat (case_bool_decide; [subst; by vm_compute in Hb|]). case_bool_decide as Hi; [|done].
    by repeat (apply elem_of_cons in Hi as [->|Hi]; [by vm_compute in Hb|]); apply not_elem_of_nil in Hi.
  - eapply Forall_impl; [exact Hw|]. intros b. unfold word_byte. rewrite !orb_true_iff, !bool_decide_eq_true. set_solver by lia.
Qed.

Lemma decimal_word c : decimal c → word_byte (Z.of_N (Ascii.N_of_ascii c)) = true.
Proof. intros [->|[d ->]]; [done|]. destruct d as [|[[[[]|[]|]|[[]|[]|]|]|[[[]|[]|]|[[]|[]|]|]|]]; done. Qed.
Lemma pretty_N_nonempty (n : N) : pretty n ≠ "".
Proof. unfold pretty, pretty_N. case_decide; [done|]. rewrite pretty_N_go_step by lia. by apply pretty_N_go_nonempty. Qed.
Lemma pretty_Z_nonempty (z : Z) : pretty z ≠ "".
Proof. destruct z; [done|apply pretty_N_nonempty|]. unfold pretty, pretty_Z. done. Qed.
Lemma printed_number (z : Z) : printed (string_bytes (pretty z)) [TWord (string_bytes (pretty z))].
Proof.
  apply printed_word.
  - pose proof (pretty_Z_nonempty z) as Hne. unfold string_bytes. by destruct (pretty z).
  - unfold string_bytes. apply Forall_fmap, Forall_forall. intros c Hc. apply decimal_word. by apply (decimal_Z z).
Qed.

(** ** The tokens of a cell *)
Definition hex_text (l : list Z) : list Z := l ≫= λ b, [hex_digit (Z.shiftr b 4); hex_digit (Z.land b 15)].
(** Groups of 8, 4, 4, 4 and 12 digits. *)
Definition uuid_text (v : list Z) : list Z :=
  hex_text (firstn 4 v) ++ [45] ++ hex_text (firstn 2 (drop 4 v)) ++ [45] ++ hex_text (firstn 2 (drop 6 v)) ++ [45] ++
  hex_text (firstn 2 (drop 8 v)) ++ [45] ++ hex_text (drop 10 v).
(** The characters of code page 1252 that are not those of Latin-1. *)
Definition CP1252 : list (Z * Z) :=
  [(0x80, 0x20ac); (0x82, 0x201a); (0x83, 0x192); (0x84, 0x201e); (0x85, 0x2026); (0x86, 0x2020); (0x87, 0x2021); (0x88, 0x2c6);
   (0x89, 0x2030); (0x8a, 0x160); (0x8b, 0x2039); (0x8c, 0x152); (0x8e, 0x17d); (0x91, 0x2018); (0x92, 0x2019); (0x93, 0x201c);
   (0x94, 0x201d); (0x95, 0x2022); (0x96, 0x2013); (0x97, 0x2014); (0x98, 0x2dc); (0x99, 0x2122); (0x9a, 0x161); (0x9b, 0x203a);
   (0x9c, 0x153); (0x9e, 0x17e); (0x9f, 0x178)].
Definition cp1252_code (b : Z) : Z := default b ((λ x, x.2.2) <$> list_find (λ x, x.1 = b) CP1252).
Definition cp1252_text (v : list Z) : list Z := v ≫= λ b, encode_utf8 (cp1252_code b).

(** The number that a decimal text writes, without its point. *)
Definition decimal_value (v : list Z) : Z :=
  let '(negative, u) := strip_minus v in
  let n := digits_value (filter (λ b, b ≠ 46) u) in
  if negative : bool then - n else n.
(** The microseconds of a time [HH:MM:SS] or [HHH:MM:SS], with [precision] digits after a
    point: its fields by their places from the right. *)
Definition time_micros (v : list Z) (precision : Z) : Z :=
  let '(negative, u) := strip_minus v in
  let clock := if bool_decide (precision = 0) then u else firstn (length u - S (Z.to_nat precision)) u in
  let field n := digits_value (firstn 2 (drop (length clock - n) clock)) in
  let hours := digits_value (firstn (length clock - 6) clock) in
  let fraction := if bool_decide (precision = 0) then 0 else digits_value (drop (length u - Z.to_nat precision) u) * 10 ^ (6 - precision) in
  let n := ((hours * 60 + field 5%nat) * 60 + field 2%nat) * 1000000 + fraction in
  if negative : bool then - n else n.
(** The members whose bit is set. *)
Definition set_members (bits : Z) (members : list (list Z)) : list (list Z) :=
  imap pair members ≫= λ x, if Z.testbit bits (Z.of_nat x.1 `mod` 64) then [x.2] else [].
Fixpoint comma_list (l : list (list Z)) : list Z :=
  match l with [] => [] | [m] => m | m :: l => m ++ [44] ++ comma_list l end.

Section cells.
Context `{JsonCrates}.

Definition number (z : Z) : list Token := [TWord (string_bytes (pretty z))].
Definition float_tokens (formatted : list Z) : list Token :=
  if bool_decide (formatted = text "NaN") then [TString (text "NaN")]
  else if bool_decide (formatted = text "inf") then [TString (text "Infinity")]
  else if bool_decide (formatted = text "-inf") then [TString (text "-Infinity")]
  else [TWord formatted].
Definition dynumber_tokens (x : Z * list Z) : list Token :=
  [TOpen; TString (text "scale"); TColon] ++ number x.1 ++ [TComma; TString (text "value"); TColon; TString (base64_encode x.2); TClose].
Definition member (members : list (list Z)) (ordinal : Z) : option (list Z) :=
  if bool_decide (ordinal = 0) then Some [] else members !! Z.to_nat (ordinal - 1).

(** The tokens of a value of the column. *)
Definition value_tokens (w : ColumnWriter) (row : nat) : result JsonError (list Token) :=
  match w with
  | WNull => Ok [TWord (text "null")]
  | WUtf8 l | WLargeUtf8 l => value_at l row ≫= λ v, Ok [TString v]
  | WBinary l | WLargeBinary l | WFixedSizeBinary l => value_at l row ≫= λ v, Ok [TString (base64_encode v)]
  | WInt8 l | WInt16 l | WInt32 l | WInt64 l | WUInt8 l | WUInt16 l | WUInt32 l | WUInt64 l | WDate32 l | WDate64 l
  | WTimestampSecond l | WTimestampMillisecond l | WTimestampMicrosecond l | WTimestampNanosecond l | WYdbDurationMicroseconds l =>
      value_at l row ≫= λ v, Ok (number v)
  | WFloat32 l => value_at l row ≫= λ v, Ok (float_tokens (ryu32 v))
  | WFloat64 l => value_at l row ≫= λ v, Ok (float_tokens (ryu64 v))
  | WBoolean l => value_at l row ≫= λ v, Ok [TWord (text (if v : bool then "true" else "false"))]
  | WYdbDatetimeMilliseconds l => value_at l row ≫= λ v, Ok (number (v * 1000))
  | WYdbUuid l => value_at l row ≫= λ v, Ok [TString (uuid_text v)]
  | WYdbDynamicNumber l => value_at l row ≫= λ v, ok_or (big_decimal v) BadDyNumber ≫= λ x, Ok (dynumber_tokens (x.2, decimal_bytes x.1))
  | WMySqlBit1 l => value_at l row ≫= λ v, Ok [TWord (text (if bool_decide (v = [1]) then "true" else "false"))]
  | WMySqlCp1252Text l => value_at l row ≫= λ v, Ok [TString (cp1252_text v)]
  | WMySqlPreciseUnsigned64 l => value_at l row ≫= λ v, Ok [TString (base64_encode (to_signed_bytes_be v))]
  | WMySqlDecimal l _ _ _ => value_at l row ≫= λ v, Ok [TString (base64_encode (decimal_bytes (decimal_value v)))]
  | WMySqlDate l => value_at l row ≫= λ v, ok_or (naive_date v) BadDate ≫= λ x, Ok (number x.2)
  | WMySqlDateTime l precision =>
      value_at l row ≫= λ v, ok_or (naive_datetime (negb (bool_decide (precision = 0))) v) BadDateTime ≫= λ x,
      Ok (number (if bool_decide (precision ≤ 3) then x.1.2 else x.2))
  | WMySqlTimestamp l precision => value_at l row ≫= λ v, Ok [TString (firstn 10 v ++ text "T" ++ drop 11 v ++ text "Z")]
  | WMySqlTime l precision => value_at l row ≫= λ v, Ok (number (time_micros v precision))
  | WMySqlYear l => value_at l row ≫= λ v, Ok (number (digits_value v))
  | WMySqlEnum l members => value_at l row ≫= λ ordinal, ok_or (member members ordinal) EnumOrdinal ≫= λ v, Ok [TString v]
  | WMySqlSet l members => value_at l row ≫= λ bits, Ok [TString (comma_list (set_members bits members))]
  end.

(** Text and binary cells are bytes. *)
Definition bytes_ok (l : list (option (list Z))) : Prop := ∀ v, Some v ∈ l → Forall byte v.
Definition writer_ok (w : ColumnWriter) : Prop :=
  match w with
  | WUtf8 l | WLargeUtf8 l | WBinary l | WLargeBinary l | WFixedSizeBinary l | WYdbUuid l | WYdbDynamicNumber l
  | WMySqlBit1 l | WMySqlCp1252Text l | WMySqlDecimal l _ _ _ | WMySqlDate l | WMySqlDateTime l _ | WMySqlTimestamp l _
  | WMySqlTime l _ | WMySqlYear l => bytes_ok l
  | WMySqlEnum _ members | WMySqlSet _ members => Forall (Forall byte) members
  | _ => True
  end.

(** A write appended the text of [toks]. *)
Definition appends (buf out : list Z) (toks : list Token) : Prop := ∃ t, out = buf ++ t ∧ printed t toks.

Lemma value_at_elem {A} (l : list (option A)) row v : value_at l row = Ok v → Some v ∈ l.
Proof. unfold value_at. destruct (l !! row) as [[x|]|] eqn:E; cbn; try done. intros [= ->]. by eapply list_elem_of_lookup_2. Qed.

Lemma appends_int buf z : appends buf (write_int buf z) (number z).
Proof. exists (itoa z). split; [done|]. rewrite itoa_decimal. apply printed_number. Qed.
Lemma appends_word buf w : text w ≠ [] → Forall (λ b, word_byte b = true) (text w) → appends buf (buf ++ text w) [TWord (text w)].
Proof. intros Hne Hw. eexists. split; [done|]. by apply printed_word. Qed.
Lemma appends_string buf s : Forall byte s → appends buf (write_json_string buf s) [TString s].
Proof.
  intros Hs. exists (34 :: (s ≫= json_string_byte) ++ [34]). split; [|by apply closed_printed, closed_string, contents_body].
  unfold write_json_string. rewrite contents_eq. by rewrite <-!app_assoc.
Qed.
Lemma base64_text buf v out : Forall byte v → write_base64 buf v = Ok out → out = buf ++ 34 :: base64_encode v ++ [34] ∧ closed (34 :: base64_encode v ++ [34]) [TString (base64_encode v)].
Proof.
  intros Hv. unfold write_base64. intros ([] & _ & ([] & _ & [= <-])%bind_Ok)%bind_Ok. split; [by rewrite <-!app_assoc|].
  by apply closed_string, body_plain, base64_plain.
Qed.
Lemma appends_base64 buf v out : Forall byte v → write_base64 buf v = Ok out → appends buf out [TString (base64_encode v)].
Proof. intros Hv (-> & Hc)%base64_text; [|done]. eexists. split; [done|]. by apply closed_printed. Qed.
Lemma decimal_bytes_ok z : Forall byte (decimal_bytes z).
Proof. unfold decimal_bytes. pose proof (signed_bytes z) as Hs. destruct (to_signed_bytes_be z); [by repeat constructor|done]. Qed.

Lemma appends_float buf f e out : f ≠ [] → Forall (λ c, word_byte c = true) f → write_float buf f e = Ok out → appends buf out (float_tokens f).
Proof.
  intros Hne Hf. unfold write_float, float_tokens.
  assert (∀ s, Forall plain_byte (text s) → match e with Reject => Err NonFinite | ProtobufJsonString => Ok (buf ++ [34] ++ text s ++ [34]) end = Ok out →
    appends buf out [TString (text s)]) as Hspecial.
  { intros s Hs. destruct e; [done|]. intros [= <-]. eexists. split; [done|]. by apply closed_printed, closed_string, body_plain. }
  repeat (case_bool_decide; [apply Hspecial; repeat constructor; done|]). intros [= <-]. eexists. split; [done|]. by apply printed_word.
Qed.

(** *** Text *)
#[local] Instance plain_byte_dec b : Decision (plain_byte b).
Proof. unfold plain_byte. apply _. Defined.

Lemma cp1252_plain b c : 128 ≤ b < 256 → cp1252_char b = Some c → Forall plain_byte (encode_utf8 c).
Proof.
  intros Hb Hc. assert (b ∈ seqZ 128 128) as Hin by (apply elem_of_seqZ; lia).
  assert (forallb (λ b, match cp1252_char b with Some c => bool_decide (Forall plain_byte (encode_utf8 c)) | None => true end) (seqZ 128 128) = true) as Hall
    by (vm_compute; reflexivity).
  rewrite forallb_forall in Hall. specialize (Hall b ltac:(by apply list_elem_of_In)). rewrite Hc in Hall. by apply bool_decide_eq_true in Hall.
Qed.
Lemma cp1252_cons b v : cp1252_text (b :: v) = encode_utf8 (cp1252_code b) ++ cp1252_text v.
Proof. done. Qed.
Lemma cp1252_table b c : byte b → cp1252_char b = Some c → cp1252_code b = c.
Proof.
  intros Hb Hc. unfold byte in Hb. assert (b ∈ seqZ 0 256) as Hin by (apply elem_of_seqZ; lia).
  assert (forallb (λ b, match cp1252_char b with Some c => bool_decide (cp1252_code b = c) | None => true end) (seqZ 0 256) = true) as Hall
    by (vm_compute; reflexivity).
  rewrite forallb_forall in Hall. specialize (Hall b ltac:(by apply list_elem_of_In)). rewrite Hc in Hall. by apply bool_decide_eq_true in Hall.
Qed.
Lemma cp1252_body v buf out : Forall byte v → for_each write_cp1252_byte v buf = Ok out → ∃ t, out = buf ++ t ∧ body t (cp1252_text v).
Proof.
  revert buf. induction v as [|b v IH]; intros buf Hv; cbn [for_each].
  { intros [= <-]. exists []. rewrite app_nil_r. split; [done|apply body_nil]. }
  apply Forall_cons in Hv as [Hb Hv]. unfold byte in Hb. intros (buf1 & Hw & Hf)%bind_Ok. destruct (IH _ Hv Hf) as (t & -> & Ht).
  unfold write_cp1252_byte in Hw. case_bool_decide as Hlow.
  - injection Hw as <-. unfold write_json_string_byte. exists (json_string_byte b ++ t). split; [by rewrite app_assoc|].
    rewrite cp1252_cons. apply body_app; [|done].
    rewrite (cp1252_table b b); [|done|unfold cp1252_char; by rewrite bool_decide_eq_false_2 by lia]. unfold encode_utf8. rewrite bool_decide_eq_true_2 by lia. by apply string_byte_body.
  - apply bind_Ok in Hw as (c & Hc & [= <-]). exists (encode_utf8 c ++ t). split; [by rewrite app_assoc|].
    rewrite cp1252_cons. apply body_app; [|done]. destruct (cp1252_char b) as [c'|] eqn:E; cbn in Hc; [|done].
    injection Hc as ->. rewrite (cp1252_table b c) by done. apply body_plain. eapply cp1252_plain; [|exact E]. lia.
Qed.

Lemma comma_snoc l m : comma_list (l ++ [m]) = (if bool_decide (l = []) then [] else comma_list l ++ [44]) ++ m.
Proof.
  induction l as [|x l IH]; [done|]. rewrite bool_decide_eq_false_2 by done. destruct l as [|y l]; [cbn; by rewrite <-app_assoc|].
  change ((x :: y :: l) ++ [m]) with (x :: (y :: l) ++ [m]). change (comma_list (x :: (y :: l) ++ [m])) with (x ++ [44] ++ comma_list ((y :: l) ++ [m])).
  rewrite IH, bool_decide_eq_false_2 by done. change (comma_list (x :: y :: l)) with (x ++ [44] ++ comma_list (y :: l)). by rewrite <-!app_assoc.
Qed.
Lemma comma_body (l : list (list Z)) : Forall (Forall byte) l → body (comma_list ((λ m, m ≫= json_string_byte) <$> l)) (comma_list l).
Proof.
  intros Hl. induction l as [|m l IH] using rev_ind; [apply body_nil|]. apply Forall_app in Hl as [Hl Hm]. rewrite Forall_singleton in Hm.
  rewrite fmap_app. cbn [fmap list_fmap]. rewrite !comma_snoc. apply body_app; [|by apply contents_body].
  destruct l as [|x l]; [apply body_nil|]. rewrite !bool_decide_eq_false_2 by done. apply body_app; [by apply IH|].
  apply body_plain. repeat constructor; lia.
Qed.
Lemma set_fold bits xs buf :
  foldl (write_set_member bits) (buf, true) xs =
  let sel := xs ≫= λ x, if Z.testbit bits (Z.of_nat x.1 `mod` 64) then [x.2] else [] in
  (buf ++ comma_list ((λ m, m ≫= json_string_byte) <$> sel), bool_decide (sel = [])).
Proof.
  cbn zeta. induction xs as [|x xs IH] using rev_ind; [cbn; by rewrite app_nil_r|]. rewrite foldl_app, IH, bind_app. cbn [foldl].
  unfold write_set_member at 1. cbn [mbind list_bind]. destruct (Z.testbit _ _); cbn [fst snd]; [|by rewrite app_nil_r].
  change ([x.2] ++ []) with [x.2]. match goal with |- context [xs ≫= ?f] => set (sel := xs ≫= f) end. rewrite fmap_app. change ((λ m : list Z, m ≫= json_string_byte) <$> [x.2]) with [x.2 ≫= json_string_byte]. rewrite comma_snoc, contents_eq.
  rewrite (bool_decide_eq_false_2 (sel ++ [x.2] = [])) by (by destruct sel). clearbody sel. destruct sel as [|y sel].
  - rewrite !bool_decide_eq_true_2 by done. cbn. by rewrite !app_nil_r.
  - rewrite !bool_decide_eq_false_2 by done. f_equal. by rewrite <-!app_assoc.
Qed.

Lemma hex_plain n : 0 ≤ n < 16 → plain_byte (hex_digit n).
Proof.
  intros Hn. assert (n ∈ seqZ 0 16) as Hin by (apply elem_of_seqZ; lia). vm_compute in Hin.
  repeat (apply elem_of_cons in Hin as [->|Hin]; [done|]). by apply not_elem_of_nil in Hin.
Qed.
Lemma hex_text_plain l : Forall byte l → Forall plain_byte (hex_text l).
Proof.
  intros Hl. unfold hex_text. apply Forall_bind. eapply Forall_impl; [exact Hl|]. intros b Hb. unfold byte in Hb.
  constructor; [apply hex_plain|constructor; [apply hex_plain|constructor]].
  - rewrite Z.shiftr_div_pow2 by lia. change (2 ^ 4) with 16. split; [apply Z.div_pos; lia|apply Z.div_lt_upper_bound; lia].
  - pose proof (Z.land_ones b 4 ltac:(lia)) as E. change (Z.ones 4) with 15 in E. rewrite E. apply Z.mod_pos_bound. lia.
Qed.
Lemma uuid_plain v : Forall byte v → Forall plain_byte (uuid_text v).
Proof.
  intros Hv. assert (plain_byte 45) as Hd by done. unfold uuid_text.
  rewrite !Forall_app. split_and!; try (by repeat constructor); apply hex_text_plain; repeat first [apply Forall_take|apply Forall_drop]; done.
Qed.
Lemma uuid_fold buf v : length v = 16%nat → foldl (λ buf x, uuid_byte buf x.1 x.2) buf (imap pair v) = buf ++ uuid_text v.
Proof.
  intros Hl. do 16 (destruct v as [|? v]; [done|]). destruct v; [|done]. unfold uuid_text, hex_text, uuid_byte.
  cbn -[bool_decide hex_digit]. rewrite <-!app_assoc. reflexivity.
Qed.

Lemma closed_key t s : body t s → closed ((34 :: t ++ [34]) ++ [58]) [TString s; TColon].
Proof. intros Hb. apply (closed_app _ [TString s] _ [TColon]); [by apply closed_string|apply closed_byte; [intros out; reflexivity|lia]]. Qed.
Lemma appends_dynumber buf v out x : ydb_dynamic_number v = Ok x → write_ydb_dynamic_number buf v = Ok out → appends buf out (dynumber_tokens x).
Proof.
  intros Hx. unfold write_ydb_dynamic_number. rewrite Hx. cbn [mbind result_bind]. destruct x as [scale bytes].
  assert (Forall byte bytes) as Hb.
  { unfold ydb_dynamic_number in Hx. apply bind_Ok in Hx as ([] & _ & ([u sc] & _ & ([] & _ & [= <- <-])%bind_Ok)%bind_Ok). apply decimal_bytes_ok. }
  intros (buf1 & Hw & [= <-])%bind_Ok. apply base64_text in Hw as [-> Hc]; [|done]. unfold write_int. rewrite itoa_decimal.
  exists (([123] ++ (34 :: text "scale" ++ [34]) ++ [58]) ++ string_bytes (pretty scale) ++ 44 :: (34 :: text "value" ++ [34]) ++ [58] ++ (34 :: base64_encode bytes ++ [34]) ++ [125]).
  split; [by rewrite <-!app_assoc|]. unfold dynumber_tokens. cbn [fst snd].
  apply closed_then; [apply (closed_app [123] [TOpen] _ [TString (text "scale"); TColon]); [apply closed_byte; [intros out; reflexivity|lia]|apply closed_key, body_plain; vm_compute; repeat constructor; done]|].
  apply printed_then; [apply printed_number|done|]. apply closed_printed.
  apply (closed_app [44] [TComma]); [apply closed_byte; [intros out; reflexivity|lia]|].
  apply (closed_app ((34 :: text "value" ++ [34]) ++ [58]) [TString (text "value"); TColon]); [apply closed_key, body_plain; vm_compute; repeat constructor; done|].
  apply (closed_app _ [TString (base64_encode bytes)]); [done|apply closed_byte; [intros out; reflexivity|lia]].
Qed.

(** *** Numbers in text *)
Lemma strip_minus_app v negative u : strip_minus v = (negative, u) → v = (if negative then [45] else []) ++ u.
Proof. unfold strip_minus. intros Hs. repeat case_match; simplify_eq; done. Qed.
Lemma split_at_inv c l a b : split_at c l = Some (a, b) → l = a ++ c :: b.
Proof.
  unfold split_at. destruct (list_find (λ b, b = c) l) as [[i x]|] eqn:E; [|done]. intros [= <- <-].
  apply list_find_Some in E as (Hx & -> & _). by rewrite take_drop_middle.
Qed.
Lemma split_bytes_inv c l part parts : split_bytes c l = part :: parts → l = part ++ (parts ≫= (c ::.)).
Proof.
  revert part parts. induction l as [|b l IH]; intros part parts; cbn; [by intros [= <- <-]|]. case_bool_decide as Hb.
  - intros [= <- <-]. destruct (split_bytes c l) as [|p ps] eqn:E; [by destruct l as [|x l]; cbn in E; [|case_bool_decide; [|case_match]]|].
    cbn. by rewrite (IH p ps eq_refl), Hb.
  - destruct (split_bytes c l) as [|p ps] eqn:E; [by destruct l as [|x l]; cbn in E; [|case_bool_decide; [|case_match]]|].
    intros [= <- <-]. cbn. by rewrite (IH p ps eq_refl).
Qed.
Lemma digits_filter l : all_digits l = true → filter (λ b, b ≠ 46) l = l.
Proof.
  unfold all_digits. induction l as [|b l IH]; [done|]. cbn [forallb]. intros [Hb Hl]%andb_true_iff. unfold ascii_digit in Hb. bool_inv.
  rewrite filter_cons_True by lia. by rewrite IH.
Qed.

Lemma decimal_exact v p sc u bytes : mysql_decimal v p sc u = Ok bytes → bytes = decimal_bytes (decimal_value v).
Proof.
  unfold mysql_decimal, decimal_value. destruct (strip_minus v) as [negative w] eqn:Es. apply strip_minus_app in Es. cbn [snd].
  intros ([i f] & Hparts & ([] & Hd%ensure_Ok & ([n a] & Hn & ([] & _ & ([] & _ & ([] & _ & [= <-])%bind_Ok)%bind_Ok)%bind_Ok)%bind_Ok)%bind_Ok)%bind_Ok.
  apply andb_true_iff in Hd as [[Hne Hi]%andb_true_iff Hf]. apply negb_true_iff, bool_decide_eq_false in Hne. f_equal.
  assert (big_decimal v = Some (if negative then - digits_value (filter (λ b, b ≠ 46) w) else digits_value (filter (λ b, b ≠ 46) w), sc)) as Hv;
    [|rewrite Hv in Hn; by injection Hn as <- _].
  rewrite Es. case_bool_decide as Hsc.
  - apply bind_Ok in Hparts as ([] & _ & [= <- <-]). rewrite digits_filter by done.
    pose proof (big_decimal_text negative w [] Hne Hi eq_refl) as Hb. rewrite !app_nil_r in Hb. by rewrite Hb, Hsc.
  - apply bind_Ok in Hparts as ([i' f'] & Hsplit & ([] & Hl%ensure_Ok & [= <- <-])%bind_Ok).
    destruct (split_at 46 w) as [[i2 f2]|] eqn:Ew; [|done]. injection Hsplit as <- <-. apply split_at_inv in Ew as ->.
    apply andb_true_iff in Hl as [Hl _]. apply bool_decide_eq_true in Hl. cbn in Hf.
    rewrite filter_app, filter_cons_False by tauto. rewrite !digits_filter by done.
    pose proof (big_decimal_text negative i2 f2 Hne Hi Hf) as Hb. destruct f2 as [|x f2]; [cbn in Hl; lia|]. by rewrite Hb, Hl.
Qed.

Lemma time_exact v p n : mysql_time_timestamp v p = Ok n → n = time_micros v p.
Proof.
  unfold mysql_time_timestamp, time_micros. destruct (strip_minus v) as [negative u] eqn:Es.
  intros ([clock f] & Hparts & Hc)%bind_Ok.
  assert (clock = (if bool_decide (p = 0) then u else firstn (length u - S (Z.to_nat p)) u) ∧
    match f with Some f => digits_value f * 10 ^ (6 - p) | None => 0 end =
    if bool_decide (p = 0) then 0 else digits_value (drop (length u - Z.to_nat p) u) * 10 ^ (6 - p)) as [Hclock Hfrac].
  { case_bool_decide as Hp; [by apply bind_Ok in Hparts as ([] & _ & [= <- <-])|].
    apply bind_Ok in Hparts as ([i' f'] & Hsplit & ([] & Hl%ensure_Ok & [= <- <-])%bind_Ok).
    destruct (split_at 46 u) as [[i2 f2]|] eqn:Eu; [|done]. injection Hsplit as <- <-. apply split_at_inv in Eu as ->.
    apply andb_true_iff in Hl as [Hl _]. apply bool_decide_eq_true in Hl. rewrite <-Hl, Nat2Z.id, length_app. cbn [length].
    replace (length i2 + S (length f2) - S (length f2))%nat with (length i2) by lia. rewrite take_app_length. split; [done|].
    replace (length i2 + S (length f2) - length f2)%nat with (length (i2 ++ [46])) by (rewrite length_app; cbn; lia).
    rewrite (cons_middle 46 i2 f2), app_assoc, drop_app_length. done. }
  cbn zeta. rewrite <-Hclock, <-Hfrac. clear Hclock Hfrac Hparts.
  destruct (split_bytes 58 clock) as [|h [|m [|s [|]]]] eqn:E; try done. apply split_bytes_inv in E. cbn in E. rewrite app_nil_r in E.
  apply bind_Ok in Hc as ([] & Hl%ensure_Ok & ([] & _ & ([] & _ & [= <-])%bind_Ok)%bind_Ok).
  apply andb_true_iff in Hl as [[[_ Hm]%andb_true_iff Hs]%andb_true_iff _]. apply bool_decide_eq_true in Hm, Hs.
  assert (length clock = (length h + 6)%nat) as Hlen by (rewrite E, !length_app; cbn; rewrite length_app; cbn; lia).
  assert (firstn (length clock - 6) clock = h) as -> by (rewrite Hlen, Nat.add_sub, E; apply take_app_length).
  assert (firstn 2 (drop (length clock - 5) clock) = m) as ->.
  { rewrite Hlen. replace (length h + 6 - 5)%nat with (length (h ++ [58])) by (rewrite length_app; cbn; lia).
    rewrite E, (cons_middle 58 h (m ++ 58 :: s)), app_assoc, drop_app_length, <-Hm. apply take_app_length. }
  assert (firstn 2 (drop (length clock - 2) clock) = s) as ->.
  { rewrite Hlen. replace (length h + 6 - 2)%nat with (length (h ++ 58 :: m ++ [58])) by (rewrite length_app; cbn; rewrite length_app; cbn; lia).
    rewrite E. replace (h ++ 58 :: m ++ 58 :: s) with ((h ++ 58 :: m ++ [58]) ++ s) by (by rewrite <-!app_assoc, <-app_comm_cons, <-app_assoc).
    rewrite drop_app_length, <-Hs. by rewrite firstn_all. }
  destruct negative; lia.
Qed.
Lemma appends_zoned buf v p out : Forall byte v → write_mysql_zoned_timestamp buf v p = Ok out → appends buf out [TString (firstn 10 v ++ text "T" ++ drop 11 v ++ text "Z")].
Proof.
  intros Hv. unfold write_mysql_zoned_timestamp. intros ([] & _ & ([[y ms] us] & _ & ([] & _ & [= <-])%bind_Ok)%bind_Ok)%bind_Ok.
  exists (34 :: ((firstn 10 v ≫= json_string_byte) ++ [84] ++ (drop 11 v ≫= json_string_byte) ++ [90]) ++ [34]). rewrite !contents_eq.
  split; [by rewrite <-!app_assoc|]. apply closed_printed, closed_string. assert (∀ b, plain_byte b → body [b] [b]) as Hone by (intros b Hb; apply body_plain; by constructor).
  apply body_app; [by apply contents_body, Forall_take|]. apply (body_app [84] [84]); [by apply Hone|].
  apply body_app; [by apply contents_body, Forall_drop|]. by apply Hone.
Qed.

Lemma set_selected bits members : Forall (Forall byte) members → Forall (Forall byte) (set_members bits members).
Proof.
  intros Hm. unfold set_members. apply Forall_bind, Forall_forall. intros [i m] Hin. cbn. destruct (Z.testbit _ _); [|constructor]. constructor; [|constructor].
  apply elem_of_lookup_imap in Hin as (j & x & [= -> ->] & Hj). rewrite Forall_lookup in Hm. by eapply Hm.
Qed.

Lemma appends_uuid buf v out : Forall byte v → write_ydb_uuid buf v = Ok out → appends buf out [TString (uuid_text v)].
Proof.
  intros Hv. unfold write_ydb_uuid. intros ([] & Hl%ensure_Ok & [= <-])%bind_Ok. apply bool_decide_eq_true in Hl.
  rewrite uuid_fold by done. exists (34 :: uuid_text v ++ [34]). split; [by rewrite <-!app_assoc|].
  by apply closed_printed, closed_string, body_plain, uuid_plain.
Qed.
Lemma appends_cp1252 buf v out : Forall byte v → write_cp1252_json_string buf v = Ok out → appends buf out [TString (cp1252_text v)].
Proof.
  intros Hv. unfold write_cp1252_json_string. intros (buf1 & Hw & [= <-])%bind_Ok. apply cp1252_body in Hw as (t & -> & Ht); [|done].
  exists (34 :: t ++ [34]). split; [by rewrite <-!app_assoc|]. by apply closed_printed, closed_string.
Qed.
Lemma appends_set buf bits members : Forall (Forall byte) members →
  appends buf ((foldl (write_set_member bits) (buf ++ [34], true) (imap pair members)).1 ++ [34]) [TString (comma_list (set_members bits members))].
Proof.
  intros Hm. rewrite set_fold. cbn [fst]. eexists (34 :: comma_list _ ++ [34]). split; [by rewrite <-!app_assoc|].
  apply closed_printed, closed_string. by apply comma_body, set_selected.
Qed.
Lemma member_bytes members ordinal v : Forall (Forall byte) members → member members ordinal = Some v → Forall byte v.
Proof. unfold member. intros Hm. case_bool_decide; [intros [= <-]; constructor|]. rewrite Forall_lookup in Hm. apply Hm. Qed.

(** Every value that is written is the text of its tokens. *)
Lemma write_value_appends w buf row e out :
  writer_ok w → write_value w buf row e = Ok out → ∃ toks, value_tokens w row = Ok toks ∧ appends buf out toks.
Proof.
  assert (∀ l v, bytes_ok l → value_at l row = Ok v → Forall byte v) as Hcell by (intros l v Hl Hv%value_at_elem; by apply Hl).
  assert (∀ s, Forall (λ b, word_byte b = true) (text s) → text s ≠ [] → appends buf (buf ++ text s) [TWord (text s)]) as Hword by (intros; by apply appends_word).
  assert (∀ b : bool, appends buf (buf ++ text (if b then "true" else "false")) [TWord (text (if b then "true" else "false"))]) as Hbool
    by (intros []; apply Hword; [by repeat constructor|done|by repeat constructor|done]).
  destruct w; cbn [write_value value_tokens writer_ok]; intros Hok;
    first [intros (v & Hv & Hw)%bind_Ok; rewrite Hv; cbn [mbind result_bind]|intros Hw];
    first [injection Hw as <-; eexists; split; [done|]; first [by apply appends_int|by apply appends_string, (Hcell l)|apply Hbool]
          |eexists; split; [done|]; first [by apply appends_base64, Hw; apply (Hcell l)|by apply appends_uuid, Hw; apply (Hcell l)
            |by apply appends_cp1252, Hw; apply (Hcell l)|by eapply appends_zoned, Hw; apply (Hcell l)
            |apply appends_float in Hw; [done|apply ryu32_text..]|apply appends_float in Hw; [done|apply ryu64_text..]]
          |idtac].
  - injection Hw as <-. eexists. split; [done|]. apply Hword; [by repeat constructor|done].
  - apply bind_Ok in Hw as (_ & _ & [= <-]). eexists. split; [done|]. apply appends_int.
  - destruct (ydb_dynamic_number v) as [x|] eqn:Hx; [|by unfold write_ydb_dynamic_number in Hw; rewrite Hx in Hw].
    eapply appends_dynumber in Hw; [|done]. apply bind_Ok in Hx as ([] & _ & ([unscaled scale] & Hb & ([] & _ & [= <-])%bind_Ok)%bind_Ok).
    rewrite Hb. eexists. split; [done|]. done.
  - destruct v as [|b [|]]; try done. apply bind_Ok in Hw as (_ & _ & [= <-]). eexists. split; [done|].
    rewrite (bool_decide_ext ([b] = [1]) (b = 1)) by naive_solver. apply Hbool.
  - eexists. split; [done|]. apply appends_base64; [apply signed_bytes|done].
  - apply bind_Ok in Hw as (bytes & ->%decimal_exact & Hw). eexists. split; [done|]. apply appends_base64; [apply decimal_bytes_ok|done].
  - apply bind_Ok in Hw as (n & Hn & [= <-]). apply bind_Ok in Hn as ([] & _ & ([year days] & Hd & ([] & _ & [= <-])%bind_Ok)%bind_Ok).
    rewrite Hd. eexists. split; [done|]. apply appends_int.
  - apply bind_Ok in Hw as (n & Hn & [= <-]). apply bind_Ok in Hn as ([] & _ & ([[year ms] us] & Hd & ([] & _ & [= <-])%bind_Ok)%bind_Ok).
    rewrite Hd. eexists. split; [done|]. apply appends_int.
  - apply bind_Ok in Hw as (n & ->%time_exact & [= <-]). eexists. split; [done|]. apply appends_int.
  - apply bind_Ok in Hw as (n & Hn & [= <-]). apply bind_Ok in Hn as ([] & _ & ([] & _ & [= <-])%bind_Ok). eexists. split; [done|]. apply appends_int.
  - apply bind_Ok in Hw as (m & Hm & [= <-]). assert (member members v = Some m) as Hmem.
    { unfold member. case_bool_decide; [by simplify_eq|]. destruct (_ !! _); by simplify_eq/=. }
    rewrite Hmem. eexists. split; [done|]. by eapply appends_string, member_bytes.
  - apply bind_Ok in Hw as (_ & _ & [= <-]). eexists. split; [done|]. by apply appends_set.
Qed.
(** ** Rows *)
Definition cell_tokens (w : ColumnWriter) (row : nat) : result JsonError (list Token) :=
  is_null_at w row ≫= λ null, if null : bool then Ok [TWord (text "null")] else value_tokens w row.
(** The members of an object, separated by commas; [ov] are the values an override writes. *)
Fixpoint columns_tokens (ov : option nat → list Z → option (list Token)) (first : bool) (cols : list JsonColumnWriter) (row : nat) :
    result JsonError (list Token) :=
  match cols with
  | [] => Ok []
  | c :: cols =>
      match ov (source_index c) (output_name c) with Some v => Ok v | None => cell_tokens (writer c) row end ≫= λ v,
      columns_tokens ov false cols row ≫= λ rest,
      Ok ((if first then [] else [TComma]) ++ [TString (output_name c); TColon] ++ v ++ rest)
  end.
Definition object_tokens_with (enc : JsonBatchEncoder) (row : nat) (ov : option nat → list Z → option (list Token)) : result JsonError (list Token) :=
  columns_tokens ov true (columns enc) row ≫= λ members, Ok (TOpen :: members ++ [TClose]).
Definition object_tokens (enc : JsonBatchEncoder) (row : nat) : result JsonError (list Token) := object_tokens_with enc row (λ _ _, None).

(** Names and cells are bytes. *)
Definition encoder_ok (enc : JsonBatchEncoder) : Prop :=
  Forall (λ c, Forall byte (output_name c) ∧ writer_ok (writer c)) (columns enc).

Lemma write_cell_appends enc w buf row out : writer_ok w →
  (is_null_at w row ≫= λ null, if null : bool then Ok (buf ++ text "null") else write_value w buf row (non_finite_floats enc)) = Ok out →
  ∃ toks, cell_tokens w row = Ok toks ∧ appends buf out toks.
Proof.
  intros Hok. unfold cell_tokens. intros (null & -> & Hw)%bind_Ok. cbn [mbind result_bind]. destruct null.
  - injection Hw as <-. eexists. split; [done|]. apply appends_word; [done|by repeat constructor].
  - by eapply write_value_appends.
Qed.

(** An override that writes the text of [ov]. *)
Definition override_ok (over : option nat → list Z → list Z → bool * list Z) (ov : option nat → list Z → option (list Token)) : Prop :=
  ∀ i name buf, match ov i name with None => over i name buf = (false, buf) | Some toks => ∃ t, over i name buf = (true, buf ++ t) ∧ printed t toks end.

Lemma write_column_appends enc row over ov buf i c out : override_ok over ov → Forall byte (output_name c) → writer_ok (writer c) →
  write_column enc row over buf (i, c) = Ok out →
  ∃ tv v, match ov (source_index c) (output_name c) with Some v => Ok v | None => cell_tokens (writer c) row end = Ok v ∧ printed tv v ∧
    out = buf ++ (if bool_decide (i = 0%nat) then [] else [44]) ++ ((34 :: (output_name c ≫= json_string_byte) ++ [34]) ++ [58]) ++ tv.
Proof.
  intros Hov Hname Hw. unfold write_column. cbn [fst snd].
  set (buf1 := write_json_string _ _ ++ [58]). intros Hc.
  assert (∃ tv v, match ov (source_index c) (output_name c) with Some v => Ok v | None => cell_tokens (writer c) row end = Ok v ∧ printed tv v ∧ out = buf1 ++ tv) as (tv & v & Hv & Hp & ->).
  { specialize (Hov (source_index c) (output_name c) buf1). destruct (ov _ _) as [v|].
    - destruct Hov as (t & E & Ht). rewrite E in Hc. injection Hc as <-. eauto.
    - rewrite Hov in Hc. apply write_cell_appends in Hc as (v & -> & tv & -> & Hv); [|done]. eauto. }
  exists tv, v. split_and!; [done|done|]. subst buf1. unfold write_json_string. rewrite contents_eq.
  case_bool_decide; rewrite <-!app_assoc; cbn [app]; by rewrite <-!app_assoc.
Qed.

Lemma columns_printed enc row over ov cols n buf out :
  override_ok over ov → Forall (λ c, Forall byte (output_name c) ∧ writer_ok (writer c)) cols →
  for_each (write_column enc row over) (imap (λ i c, ((n + i)%nat, c)) cols) buf = Ok out →
  ∃ t toks, columns_tokens ov (bool_decide (n = 0%nat)) cols row = Ok toks ∧ out = buf ++ t ∧ printed (t ++ [125]) (toks ++ [TClose]) ∧
    (n ≠ 0%nat → ∃ b k, t ++ [125] = b :: k ∧ word_byte b = false).
Proof.
  intros Hov. revert n buf. induction cols as [|c cols IH]; intros n buf Hok; cbn [imap for_each columns_tokens].
  { intros [= <-]. exists [], []. rewrite app_nil_r. split_and!; [done|done|apply closed_printed, (closed_byte 125); done|by intros _; exists 125, []]. }
  apply Forall_cons in Hok as [[Hname Hw] Hok]. intros (buf1 & Hc & Hr)%bind_Ok. rewrite Nat.add_0_r in Hc.
  eapply write_column_appends in Hc as (tv & v & -> & Hv & ->); [|done..]. cbn [mbind result_bind].
  rewrite (imap_ext _ (λ i c, ((S n + i)%nat, c))) in Hr by (intros; cbn; f_equal; lia).
  apply IH in Hr as (tr & rest & Htoks & -> & Hr & Hnext); [|done]. rewrite bool_decide_eq_false_2 in Htoks by done. rewrite Htoks. cbn [mbind result_bind].
  destruct (Hnext ltac:(done)) as (b & k & Ek & Hb). rewrite Ek in Hr.
  set (comma := if bool_decide (n = 0%nat) then [] else [44]).
  exists (comma ++ ((34 :: (output_name c ≫= json_string_byte) ++ [34]) ++ [58]) ++ tv ++ tr). eexists. split; [done|]. split_and!.
  - by rewrite <-!app_assoc.
  - rewrite <-!app_assoc. apply closed_then; [unfold comma; case_bool_decide; [apply closed_nil|by apply closed_byte]|].
    rewrite (app_assoc _ [58]). apply (closed_then _ [_; _]); [by apply closed_key, contents_body|]. rewrite Ek. by apply printed_then.
  - intros Hn. unfold comma. rewrite bool_decide_eq_false_2 by done. eexists _, _. split; [done|done].
Qed.

(** An object that is written is the text of its tokens. *)
Lemma write_object_appends enc row over ov buf out :
  override_ok over ov → encoder_ok enc → write_object_with enc row buf over = Ok out →
  ∃ toks, object_tokens_with enc row ov = Ok toks ∧ appends buf out toks.
Proof.
  intros Hov Hok (buf1 & Hw & [= <-])%bind_Ok.
  apply (columns_printed enc row over ov _ 0) in Hw as (t & toks & Htoks & -> & Hp & _); [|done..].
  unfold object_tokens_with. change (bool_decide (0%nat = 0%nat)) with true in Htoks. rewrite Htoks. eexists. split; [done|].
  exists ([123] ++ t ++ [125]). split; [by rewrite <-!app_assoc|]. by apply (closed_then [123] [TOpen]); [apply closed_byte|].
Qed.
Lemma no_override : override_ok (λ _ _ buf, (false, buf)) (λ _ _, None).
Proof. done. Qed.

Lemma printed_tokens t toks : printed t toks → tokens t = Some toks ∧ (10 ∉ t).
Proof.
  intros [L V]. split.
  - destruct (L []) as (st & Hst & Hr & Hf). unfold tokens. rewrite Hst. cbn. by rewrite bool_decide_eq_true_2, Hf.
  - intros Hin. unfold visible in V. rewrite Forall_forall in V. specialize (V _ Hin). lia.
Qed.

(** *** Floats *)

(** [ryu]'s texts of the values that JSON numbers lack. *)
Definition finite_text (f : list Z) : Prop := f ≠ text "NaN" ∧ f ≠ text "inf" ∧ f ≠ text "-inf".
Definition finite_cell (w : ColumnWriter) (row : nat) : Prop :=
  match w with
  | WFloat32 l => ∀ v, value_at l row = Ok v → finite_text (ryu32 v)
  | WFloat64 l => ∀ v, value_at l row = Ok v → finite_text (ryu64 v)
  | _ => True
  end.

Lemma write_float_finite buf f out : write_float buf f Reject = Ok out → finite_text f.
Proof. unfold write_float. repeat (case_bool_decide; [done|]). done. Qed.
Lemma value_not_null {A} (l : list (option A)) row v : value_at l row = Ok v → null_at l row = Ok false.
Proof. unfold value_at, null_at. by destruct (l !! row) as [[x|]|]. Qed.

Lemma write_column_finite enc row buf x out :
  non_finite_floats enc = Reject → write_column enc row (λ _ _ buf, (false, buf)) buf x = Ok out → finite_cell (writer x.2) row.
Proof.
  intros He. unfold write_column. cbn zeta. generalize (write_json_string (if bool_decide (x.1 = 0%nat) then buf else buf ++ [44]) (output_name x.2) ++ [58]).
  intros buf1 (null & Hnull & Hw)%bind_Ok. rewrite He in Hw. destruct (writer x.2); cbn [finite_cell]; try done; intros v Hv;
    cbn [is_null_at] in Hnull; rewrite (value_not_null _ _ _ Hv) in Hnull; injection Hnull as <-; cbn [write_value] in Hw; rewrite Hv in Hw;
    by eapply write_float_finite.
Qed.
Lemma write_columns_finite enc row l buf out :
  non_finite_floats enc = Reject → for_each (write_column enc row (λ _ _ buf, (false, buf))) l buf = Ok out →
  Forall (λ x, finite_cell (writer x.2) row) l.
Proof.
  intros He. revert buf. induction l as [|x l IH]; intros buf; cbn [for_each]; [constructor|].
  intros (buf1 & Hx & Hl)%bind_Ok. constructor; [by eapply write_column_finite|by eapply IH].
Qed.

(** C30. A row that is written is one line: the text that precedes its only newline reads as
    the object of the row, with every name and every cell in order, a text cell as the
    same text, a binary cell as its base64, a null cell as [null], a MySQL date, time, year,
    decimal, ENUM or SET as the number or text it stands for.  NaN and the infinities are
    never written as [null]: an encoder of plain JSON writes no row that has one, the
    encoders of Protobuf JSON write their names as strings. *)
Theorem json_rows_exact (enc : JsonBatchEncoder) (row : nat) (buf out : list Z) :
  encoder_ok enc →
  write_row enc row buf = Ok out →
  (∃ t toks, out = buf ++ t ++ [10] ∧ (10 ∉ t) ∧ object_tokens enc row = Ok toks ∧ tokens t = Some toks) ∧
  (non_finite_floats enc = Reject → Forall (λ c, finite_cell (writer c) row) (columns enc)).
Proof.
  intros Hok (buf1 & Hw & [= <-])%bind_Ok. split.
  - apply (write_object_appends _ _ _ _ _ _ no_override) in Hw as (toks & Htoks & t & -> & Hp); [|done].
    apply printed_tokens in Hp as [Hl Hn]. exists t, toks. split_and!; [by rewrite <-app_assoc|done..].
  - intros He. apply bind_Ok in Hw as (buf2 & Hw & _). apply write_columns_finite in Hw; [|done].
    apply Forall_lookup. intros i c Hc. apply (proj1 (Forall_lookup _ _) Hw i (i, c)). by rewrite list_lookup_imap, Hc.
Qed.

(** ** Equal rows *)
Lemma same_value_Ok {A} `{EqDecision A} (l r : list (option A)) row :
  same_value l r row = Ok true → ∃ v, value_at l row = Ok v ∧ value_at r row = Ok v.
Proof. unfold same_value. intros (x & Hx & (y & Hy & [= Hb%bool_decide_eq_true])%bind_Ok)%bind_Ok. subst. eauto. Qed.
Lemma and_then_Ok b m : and_then b m = Ok true → b = true ∧ m = Ok true.
Proof. by destruct b. Qed.

(** Cells that are equal are both null, or are written alike. *)
Lemma value_equals_same self other row buf e :
  value_equals self other row = Ok true →
  ∃ null, is_null_at self row = Ok null ∧ is_null_at other row = Ok null ∧
    (null = false → write_value self buf row e = write_value other buf row e).
Proof.
  unfold value_equals. intros (n & Hn & (n' & Hn' & Hw)%bind_Ok)%bind_Ok. exists n. destruct (n || n') eqn:E.
  { injection Hw as Hb%Bool.eqb_prop. subst n'. split_and!; try done. intros ->. done. }
  apply orb_false_iff in E as [-> ->]. split_and!; [done..|intros _]. clear Hn Hn'.
  destruct self, other; try done; try apply and_then_Ok in Hw as [Hp Hw]; try (apply same_value_Ok in Hw as (v & Hl & Hr));
    try rewrite ?andb_true_iff, ?bool_decide_eq_true in Hp; destruct_and?; subst; cbn [write_value]; by rewrite ?Hl, ?Hr.
Qed.

Lemma columns_equal_same enc enc' row l r f buf :
  non_finite_floats enc = non_finite_floats enc' → length l = length r → columns_equal l r row = Ok true →
  for_each (write_column enc row (λ _ _ buf, (false, buf))) (imap (λ i c, (f i, c)) l) buf =
  for_each (write_column enc' row (λ _ _ buf, (false, buf))) (imap (λ i c, (f i, c)) r) buf.
Proof.
  intros He. revert r f buf. induction l as [|x l IH]; intros [|y r] f buf Hl Hq; cbn [imap for_each]; try done.
  cbn [columns_equal] in Hq. apply bind_Ok in Hq as (b & Hb & [-> Hq]%and_then_Ok). apply and_then_Ok in Hb as [Hname%bool_decide_eq_true Hv].
  assert (write_column enc row (λ _ _ buf, (false, buf)) buf (f 0%nat, x) = write_column enc' row (λ _ _ buf, (false, buf)) buf (f 0%nat, y)) as ->.
  { unfold write_column. cbn [fst snd]. rewrite Hname, <-He. match goal with |- context [write_value (writer y) ?b _ _] => apply (value_equals_same _ _ _ b (non_finite_floats enc)) in Hv as (null & -> & -> & Hsame) end.
    cbn [mbind result_bind]. destruct null; [done|by apply Hsame]. }
  destruct (write_column enc' _ _ _ _); [|done]. cbn [mbind result_bind]. apply (IH r (f ∘ S)); [by injection Hl|done].
Qed.

(** Keys that compare equal are the same bytes. *)
Lemma equal_objects enc enc' row buf :
  non_finite_floats enc = non_finite_floats enc' → row_equals enc enc' row = Ok true → write_object enc row buf = write_object enc' row buf.
Proof.
  intros He [Hl%bool_decide_eq_true Hq]%and_then_Ok. unfold write_object, write_object_with.
  by rewrite (columns_equal_same enc enc' row _ (columns enc') id).
Qed.

(** Rows that [row_equals] calls equal are written as the same bytes, or fail with the
    same error, after the same text. *)
Theorem equal_rows_same_json (enc enc' : JsonBatchEncoder) (row : nat) (buf : list Z) :
  non_finite_floats enc = non_finite_floats enc' →
  row_equals enc enc' row = Ok true →
  write_row enc row buf = write_row enc' row buf.
Proof.
  intros He Hq. unfold write_row. by rewrite (equal_objects enc enc').
Qed.
End cells.

(** ** An encoder at work *)
Module JsonExample.
Definition alphabet : list Z := text "ABCDEFGHIJKLMNOPQRSTUVWXYZabcdefghijklmnopqrstuvwxyz0123456789+/".
Definition sextet (n : Z) : Z := nth (Z.to_nat (n `mod` 64)) alphabet 65.
Fixpoint base64 (l : list Z) : list Z :=
  match l with
  | a :: b :: c :: l => let n := 65536 * a + 256 * b + c in [sextet (n / 262144); sextet (n / 4096); sextet (n / 64); sextet n] ++ base64 l
  | [a; b] => let n := 65536 * a + 256 * b in [sextet (n / 262144); sextet (n / 4096); sextet (n / 64); 61]
  | [a] => let n := 65536 * a in [sextet (n / 262144); sextet (n / 4096); 61; 61]
  | [] => []
  end.
(** Two's complement, in the fewest bytes. *)
Definition signed_be (z : Z) : list Z :=
  let size := (Z.log2 (if bool_decide (z < 0) then - z - 1 else z) + 1) / 8 + 1 in
  (λ i, (z / 256 ^ (size - 1 - i)) `mod` 256) <$> seqZ 0 size.
Definition parse_decimal (v : list Z) : option (Z * Z) :=
  let '(negative, v) := strip_minus v in
  let '(i, f) := default (v, []) (split_at 46 v) in
  let n := digits_value (i ++ f) in
  Some (if negative : bool then - n else n, Z.of_nat (length f)).

Lemma parse_decimal_text (negative : bool) i f :
  i ≠ [] → all_digits i = true → all_digits f = true →
  parse_decimal ((if negative then [45] else []) ++ i ++ match f with [] => [] | _ => 46 :: f end) =
  Some (if negative then - digits_value (i ++ f) else digits_value (i ++ f), Z.of_nat (length f)).
Proof.
  intros Hne Hi Hf. unfold parse_decimal. set (u := i ++ match f with [] => [] | _ => 46 :: f end).
  assert (strip_minus ((if negative then [45] else []) ++ u) = (negative, u)) as ->.
  { destruct negative; [done|]. unfold u. destruct i as [|b i]; [done|]. unfold all_digits in Hi. cbn [forallb] in Hi.
    apply andb_true_iff in Hi as [Hb _]. unfold ascii_digit in Hb. bool_inv. unfold strip_minus. cbn.
    repeat case_match; simplify_eq; try done; lia. }
  assert (default (u, []) (split_at 46 u) = (i, f)) as ->; [|done]. unfold u.
  assert (Forall (λ b, b ≠ 46) i) as Hpoint.
  { unfold all_digits in Hi. rewrite forallb_forall in Hi. apply Forall_forall. intros b Hin ->. by specialize (Hi 46 ltac:(by apply list_elem_of_In)). }
  unfold split_at. destruct f as [|x f].
  - rewrite app_nil_r. assert (list_find (λ b, b = 46) i = None) as -> by (by apply list_find_None). done.
  - assert (list_find (λ b, b = 46) (i ++ 46 :: x :: f) = Some (length i, 46)) as ->.
    { apply list_find_Some. split_and!; [apply list_lookup_middle; done|done|]. intros j y Hj Hlt. rewrite lookup_app_l in Hj by done.
      rewrite Forall_lookup in Hpoint. by eapply Hpoint. }
    cbn. rewrite take_app_length. replace (S (length i)) with (length (i ++ [46])) by (rewrite length_app; cbn; lia).
    by rewrite (cons_middle 46 i (x :: f)), app_assoc, drop_app_length.
Qed.

Lemma sextet_plain n : plain_byte (sextet n).
Proof.
  unfold sextet. assert (Forall plain_byte alphabet) as Ha by (vm_compute; repeat constructor; done).
  destruct (nth_in_or_default (Z.to_nat (n `mod` 64)) alphabet 65) as [Hin| ->]; [|done].
  rewrite Forall_forall in Ha. by apply Ha, list_elem_of_In.
Qed.
Lemma base64_chars l : Forall plain_byte (base64 l).
Proof.
  assert (∀ n l, (length l ≤ n)%nat → Forall plain_byte (base64 l)) as Hall; [|by eapply Hall].
  assert (plain_byte 61) as Hpad by done. clear l. induction n as [|n IH]; intros [|a [|b [|c l]]] Hl; cbn [length] in Hl; try lia; cbn [base64];
    repeat (constructor; [first [apply sextet_plain|done]|]); try constructor. apply IH. lia.
Qed.

#[export, refine] Instance example_crates : JsonCrates := {
  itoa z := string_bytes (pretty z);
  ryu32 _ := text "0.5";
  ryu64 _ := text "1e300";
  base64_encode := base64;
  to_signed_bytes_be := signed_be;
  big_decimal := parse_decimal;
  big_digits z := Z.of_nat (length (string_bytes (pretty (Z.abs z))));
  naive_date v := Some (digits_value (firstn 4 v), 0);
  naive_datetime _ v := Some (digits_value (firstn 4 v), 0, 0)
}.
Proof.
  - done.
  - intros b. split; [done|by repeat constructor].
  - intros b. split; [done|by repeat constructor].
  - intros l _. apply base64_chars.
  - intros z. apply Forall_fmap, Forall_forall. intros i _. cbn. unfold byte. pose proof (Z.mod_pos_bound (z / 256 ^ ((Z.log2 (if bool_decide (z < 0) then - z - 1 else z) + 1) / 8 + 1 - 1 - i)) 256). lia.
  - apply parse_decimal_text.
Defined.

(** A text with a quote and a newline, a decimal, a SET, a UUID and a null. *)
Definition example_encoder : JsonBatchEncoder := {|
  columns := [
    {| source_index := Some 0%nat; output_name := text "say"; writer := WUtf8 [Some [104; 34; 10; 1; 195; 169]] |};
    {| source_index := Some 1%nat; output_name := text "sum"; writer := WMySqlDecimal [Some (text "-1.28")] 5 2 false |};
    {| source_index := Some 2%nat; output_name := text "set"; writer := WMySqlSet [Some 5] [text "a"; text "b"; text "c"] |};
    {| source_index := None; output_name := text "id"; writer := WYdbUuid [Some (seqZ 0 16)] |};
    {| source_index := None; output_name := text "none"; writer := WInt64 [None] |};
    {| source_index := None; output_name := text "time"; writer := WMySqlTime [Some (text "-838:59:58.05")] 2 |};
    {| source_index := None; output_name := text "half"; writer := WFloat64 [Some 0] |}];
  non_finite_floats := Reject |}.
Definition example_row : result JsonError (list Z) := write_row example_encoder 0 [].

Lemma example_encoder_ok : encoder_ok example_encoder.
Proof.
  assert (∀ v, forallb (λ b, bool_decide (0 ≤ b ≤ 255)) v = true → Forall byte v) as Hb.
  { intros v Hv. rewrite forallb_forall in Hv. apply Forall_forall. intros b Hin%list_elem_of_In. specialize (Hv b Hin). apply bool_decide_eq_true in Hv. unfold byte. lia. }
  assert (∀ v, forallb (λ b, bool_decide (0 ≤ b ≤ 255)) v = true → bytes_ok [Some v]) as Hc.
  { intros v Hv w [= ->]%list_elem_of_singleton. by apply Hb. }
  unfold encoder_ok. cbn [columns example_encoder].
  repeat (apply Forall_cons; split; [split; [by apply Hb|cbn [writer writer_ok]; first [by apply Hc|exact I|repeat (apply Forall_cons; split; [by apply Hb|]); apply Forall_nil_2]]|]).
  apply Forall_nil_2.
Qed.

Lemma example_row_Ok : ∃ out, example_row = Ok out.
Proof. eexists. vm_compute. reflexivity. Qed.

Lemma json_rows_exact_witness : ∃ out t toks, example_row = Ok out ∧ out = t ++ [10] ∧ (10 ∉ t) ∧ tokens t = Some toks ∧
  firstn 7 toks = [TOpen; TString (text "say"); TColon; TString [104; 34; 10; 1; 195; 169]; TComma; TString (text "sum"); TColon] ∧
  Forall (λ c, finite_cell (writer c) 0) (columns example_encoder).
Proof.
  destruct (example_row) as [out|] eqn:E; [|by vm_compute in E].
  destruct (json_rows_exact example_encoder 0 [] out example_encoder_ok E) as [(t & toks & Ho & Hn & Ht & Hl) Hf].
  exists out, t, toks. split_and!; [done|done|done|done| |exact (Hf eq_refl)]. vm_compute in Ht. injection Ht as <-. reflexivity.
Defined.

(** The same row in columns that read it elsewhere. *)
Definition other_encoder : JsonBatchEncoder := {|
  columns := (λ c, {| source_index := None; output_name := output_name c; writer := writer c |}) <$> columns example_encoder;
  non_finite_floats := Reject |}.
Lemma equal_rows_same_json_witness : example_encoder ≠ other_encoder ∧ row_equals example_encoder other_encoder 0 = Ok true ∧
  write_row example_encoder 0 [] = write_row other_encoder 0 [].
Proof.
  assert (row_equals example_encoder other_encoder 0 = Ok true) as E by (vm_compute; reflexivity).
  split; [done|split; [exact E|]]. exact (equal_rows_same_json example_encoder other_encoder 0 [] eq_refl E).
Defined.
End JsonExample.
