(* ===== verification/Debezium.v ===== *)
(** * The Debezium serializer

    [serializer/debezium.rs] of [transferia-connector-support]: the messages of a batch of
    changes for a queue, as Debezium envelopes in JSON.

    A [DebeziumBatchEncoder] is what its constructor makes of a batch; the constructor itself
    chooses column writers and is left out.  It refuses nulls in the columns that are read
    here without a test for null, and every source index is one of a column of the batch.
    The writer of JSON strings is the one of the JSON serializer, written out twice in the
    source. *)

From stdpp Require Import base tactics numbers option strings pretty gmap list.
From S2P Require Import Prelude Bytes JsonWriter.
Local Open Scope Z_scope.

(** A JSON literal, with single quotes for double ones. *)
Definition json (s : string) : list Z := (λ b, if bool_decide (b = 39) then 34 else b) <$> text s.

Inductive DebeziumError :=
| DJson (e : JsonError) | PayloadOverflow | UnknownSource | NullOperation | UnknownOperation | MissingMask | EmptyIdentity
| ServerIdRange | EmptyBinlogFile | BinlogPositionRange | NegativeBinlogRow | SnapshotMetadata | MissingGtid
| GtidFraming | GtidSid | GtidTag | GtidGno | EmptySource | MissingMetadata | IdentityLength | StepMismatch | NegativeTimestamp | MessageTooLarge.
(** [?] on an error of the JSON serializer. *)
Definition lift {A} (m : result JsonError A) : result DebeziumError A := match m with Ok a => Ok a | Err e => Err (DJson e) end.

Record SerializedMessage := { key : option (list Z); value : option (list Z) }.
Record SerializedBatch := { table : list Z; messages : list SerializedMessage }.
Record SerializedDelivery := { batches : list SerializedBatch; source_rows : Z }.

Definition message_bytes (key value : option (list Z)) : Z := Z.of_nat (length (default [] key)) + Z.of_nat (length (default [] value)).
Definition payload_bytes (self : SerializedDelivery) : result DebeziumError Z :=
  for_each (λ total m, ok_or (checked_add u64_max total (message_bytes (key m) (value m))) PayloadOverflow)
    (batches self ≫= messages) 0.

Inductive QueueMessageMode := KeyedWithTombstones | ValuesOnly.
Inductive DebeziumSourceDialect := Postgres | MySql | Ydb.
#[export] Instance QueueMessageMode_eq_dec : EqDecision QueueMessageMode.
Proof. solve_decision. Defined.
#[export] Instance DebeziumSourceDialect_eq_dec : EqDecision DebeziumSourceDialect.
Proof. solve_decision. Defined.

Definition from_source_name (source_name : string) : result DebeziumError DebeziumSourceDialect :=
  if bool_decide (source_name = "postgres") then Ok Postgres
  else if bool_decide (source_name = "mysql") then Ok MySql
  else if bool_decide (source_name = "ydb") then Ok Ydb
  else Err UnknownSource.

Record DebeziumJsonEncoder := { logical_name : list Z; mode : QueueMessageMode }.

Record EventTimestamps := { event_ms : Cells Z; event_us : Cells Z; event_ns : Cells Z }.
Record PostgresMetadata := {
  pg_transaction_id : Cells Z; pg_lsn : Cells Z; pg_source_schema : Cells (list Z);
  pg_source_us : Cells Z; pg_source_ns : Cells Z; pg_event : EventTimestamps
}.
Record MySqlMetadata := {
  my_transaction_identity : Cells (list Z); my_server_id : Cells Z; my_gtid : Cells (list Z); my_binlog_file : Cells (list Z);
  my_binlog_position : Cells Z; my_binlog_row : Cells Z; my_source_us : Cells Z; my_source_ns : Cells Z; my_event : EventTimestamps
}.
Record YdbMetadata := { ydb_transaction_identity : Cells (list Z); ydb_event_ms : Cells Z }.
Inductive DebeziumSourceMetadata := PostgresSource (m : PostgresMetadata) | MySqlSource (m : MySqlMetadata) | YdbSource (m : YdbMetadata).

Record DebeziumBatchEncoder := {
  dialect : DebeziumSourceDialect;
  current : JsonBatchEncoder;
  before : JsonBatchEncoder;
  current_key : JsonBatchEncoder;
  old_key : JsonBatchEncoder;
  changed_columns : option (Cells (list Z));
  operation_column : option (Cells (list Z));
  database : Cells (list Z);
  source_table : Cells (list Z);
  source_metadata : DebeziumSourceMetadata;
  source_timestamp_ms : Cells Z;
  user_ordinal_by_source_index : list (option nat)
}.

(** ** Source metadata *)
Definition ydb_transaction (value : list Z) : result DebeziumError (Z * Z) :=
  ensure (bool_decide (length value = 16%nat)) IdentityLength ≫= λ _,
  Ok (from_le_bytes (reverse (firstn 8 value)), from_le_bytes (reverse (drop 8 value))).

Definition sid_byte (x : nat * Z) : bool :=
  if bool_decide (x.1 ∈ [8; 13; 18; 23]%nat) then bool_decide (x.2 = 45)
  else ascii_digit x.2 || bool_decide (97 ≤ x.2 ≤ 102).
Definition tag_byte (b : Z) : bool :=
  ascii_digit b || bool_decide (65 ≤ b ≤ 90) || bool_decide (97 ≤ b ≤ 122) || bool_decide (b = 95).
(** [str::parse::<u64>] *)
Definition parse_u64 (v : list Z) : option Z :=
  let digits := match v with 43 :: d => d | _ => v end in
  if negb (bool_decide (digits = [])) && all_digits digits && bool_decide (digits_value digits ≤ u64_max) then Some (digits_value digits) else None.
Definition validate_mysql_gtid (gtid : list Z) : result DebeziumError unit :=
  let components := split_bytes 58 gtid in
  ensure (bool_decide (length components ∈ [2; 3]%nat)) GtidFraming ≫= λ _,
  let sid := nth 0 components [] in
  ensure (bool_decide (length sid = 36%nat) && forallb sid_byte (imap pair sid)) GtidSid ≫= λ _,
  (if bool_decide (length components = 3%nat) then
     let tag := nth 1 components [] in
     ensure (bool_decide (1 ≤ length tag ≤ 32)%nat && forallb tag_byte tag) GtidTag
   else Ok tt) ≫= λ _,
  let gno := nth (length components - 1) components [] in
  ok_or (parse_u64 gno) GtidGno ≫= λ parsed,
  ensure (bool_decide (0 < parsed) && bool_decide (string_bytes (pretty parsed) = gno)) GtidGno.

Definition validate_mysql_metadata (m : MySqlMetadata) (row : nat) (operation : list Z) : result DebeziumError unit :=
  lift (value_at (my_transaction_identity m) row) ≫= λ identity,
  ensure (negb (bool_decide (identity = []))) EmptyIdentity ≫= λ _,
  lift (value_at (my_server_id m) row) ≫= λ server_id,
  ensure (bool_decide (0 ≤ server_id ≤ u32_max)) ServerIdRange ≫= λ _,
  lift (value_at (my_binlog_file m) row) ≫= λ file,
  ensure (negb (bool_decide (file = []))) EmptyBinlogFile ≫= λ _,
  lift (value_at (my_binlog_position m) row) ≫= λ position,
  ensure (bool_decide (4 ≤ position) && bool_decide (0 ≤ position ≤ u32_max)) BinlogPositionRange ≫= λ _,
  lift (value_at (my_binlog_row m) row) ≫= λ binlog_row,
  ensure (bool_decide (0 ≤ binlog_row)) NegativeBinlogRow ≫= λ _,
  lift (null_at (my_gtid m) row) ≫= λ no_gtid,
  if bool_decide (operation = text "r") then
    ensure (bool_decide (server_id = 0) && no_gtid && bool_decide (binlog_row = 0)) SnapshotMetadata
  else
    ensure (negb no_gtid) MissingGtid ≫= λ _,
    lift (value_at (my_gtid m) row) ≫= validate_mysql_gtid.

Definition validate_ydb_metadata (self : DebeziumBatchEncoder) (m : YdbMetadata) (row : nat) (operation : list Z) : result DebeziumError unit :=
  lift (value_at (database self) row) ≫= λ db,
  lift (value_at (source_table self) row) ≫= λ t,
  ensure (negb (bool_decide (db = [])) && negb (bool_decide (t = []))) EmptySource ≫= λ _,
  lift (null_at (ydb_transaction_identity m) row) ≫= λ no_identity,
  lift (null_at (source_timestamp_ms self) row) ≫= λ no_source,
  lift (null_at (ydb_event_ms m) row) ≫= λ no_event,
  if bool_decide (operation = text "r") then
    ensure (no_identity && no_source && no_event) SnapshotMetadata
  else
    ensure (negb no_identity && negb no_source && negb no_event) MissingMetadata ≫= λ _,
    (lift (value_at (ydb_transaction_identity m) row) ≫= ydb_transaction) ≫= λ '(step, _),
    lift (value_at (source_timestamp_ms self) row) ≫= λ source_timestamp,
    ensure (bool_decide (0 ≤ source_timestamp) && bool_decide (source_timestamp = step)) StepMismatch ≫= λ _,
    lift (value_at (ydb_event_ms m) row) ≫= λ event_timestamp,
    ensure (bool_decide (0 ≤ event_timestamp)) NegativeTimestamp.

Definition validate_source_metadata (self : DebeziumBatchEncoder) (row : nat) (operation : list Z) : result DebeziumError unit :=
  match source_metadata self with
  | PostgresSource _ => Ok tt
  | MySqlSource m => validate_mysql_metadata m row operation
  | YdbSource m => validate_ydb_metadata self m row operation
  end.

Definition validate_message_size (key value : option (list Z)) (message_size_limit : Z) : result DebeziumError unit :=
  ensure (bool_decide (message_bytes key value ≤ message_size_limit)) MessageTooLarge.

Definition operation (self : DebeziumBatchEncoder) (row : nat) : result DebeziumError (list Z) :=
  match operation_column self with
  | None => Ok (text "r")
  | Some column =>
      lift (null_at column row) ≫= λ null,
      ensure (negb null) NullOperation ≫= λ _,
      lift (value_at column row) ≫= λ op,
      ensure (bool_decide (op ∈ [text "c"; text "r"; text "u"; text "d"])) UnknownOperation ≫= λ _,
      Ok op
  end.

(** ** Envelopes *)
Section envelopes.
Context `{JsonCrates}.

Definition write_i64 (output : list Z) (value : Z) : list Z := output ++ itoa value.
Definition write_nullable_i64 (output : list Z) (values : Cells Z) (row : nat) : result DebeziumError (list Z) :=
  lift (null_at values row) ≫= λ null,
  if null : bool then Ok (output ++ text "null") else lift (value_at values row) ≫= λ v, Ok (write_i64 output v).
Definition snapshot_text (operation : list Z) : list Z := text (if bool_decide (operation = text "r") then "true" else "false").

(** [UNAVAILABLE_VALUE] for a column whose bit is not set in the mask. *)
Definition UNAVAILABLE_VALUE : list Z := json "'__debezium_unavailable_value'".
Definition unavailable (self : DebeziumBatchEncoder) (mask : option (list Z)) (source_index : option nat) : bool :=
  match source_index ≫= λ index, mjoin (user_ordinal_by_source_index self !! index), mask with
  | Some ordinal, Some mask =>
      match mask !! (ordinal / 8)%nat with
      | Some byte => bool_decide (Z.land byte (Z.shiftl 1 (Z.of_nat (ordinal mod 8))) = 0)
      | None => false
      end
  | _, _ => false
  end.
Definition write_unavailable (self : DebeziumBatchEncoder) (mask : option (list Z)) (source_index : option nat) (_ output : list Z) : bool * list Z :=
  if unavailable self mask source_index then (true, output ++ UNAVAILABLE_VALUE) else (false, output).

Definition write_postgres_source (self : DebeziumBatchEncoder) (m : PostgresMetadata) (output : list Z) (row : nat) (logical_name operation : list Z) :
    result DebeziumError (list Z) :=
  let output := write_json_string (output ++ json "'postgresql','name':") logical_name in
  lift (value_at (source_timestamp_ms self) row) ≫= λ ts_ms,
  let output := write_i64 (output ++ json ",'ts_ms':") ts_ms in
  let output := write_json_string (output ++ json ",'snapshot':") (snapshot_text operation) in
  lift (value_at (database self) row) ≫= λ db,
  let output := write_json_string (output ++ json ",'db':") db in
  lift (value_at (pg_source_us m) row) ≫= λ ts_us,
  let output := write_i64 (output ++ json ",'sequence':null,'ts_us':") ts_us in
  lift (value_at (pg_source_ns m) row) ≫= λ ts_ns,
  let output := write_i64 (output ++ json ",'ts_ns':") ts_ns in
  lift (value_at (pg_source_schema m) row) ≫= λ schema,
  let output := write_json_string (output ++ json ",'schema':") schema in
  lift (value_at (source_table self) row) ≫= λ table,
  let output := write_json_string (output ++ json ",'table':") table in
  lift (value_at (pg_transaction_id m) row) ≫= λ tx,
  let output := write_i64 (output ++ json ",'txId':") tx in
  lift (value_at (pg_lsn m) row) ≫= λ lsn,
  let output := write_i64 (output ++ json ",'lsn':") lsn in
  Ok (output ++ json ",'xmin':null}").

Definition write_mysql_source (self : DebeziumBatchEncoder) (m : MySqlMetadata) (output : list Z) (row : nat) (logical_name operation : list Z) :
    result DebeziumError (list Z) :=
  let output := write_json_string (output ++ json "'mysql','name':") logical_name in
  lift (value_at (source_timestamp_ms self) row) ≫= λ ts_ms,
  let output := write_i64 (output ++ json ",'ts_ms':") ts_ms in
  let output := write_json_string (output ++ json ",'snapshot':") (snapshot_text operation) in
  lift (value_at (database self) row) ≫= λ db,
  let output := write_json_string (output ++ json ",'db':") db in
  lift (value_at (my_source_us m) row) ≫= λ ts_us,
  let output := write_i64 (output ++ json ",'sequence':null,'ts_us':") ts_us in
  lift (value_at (my_source_ns m) row) ≫= λ ts_ns,
  let output := write_i64 (output ++ json ",'ts_ns':") ts_ns in
  lift (value_at (source_table self) row) ≫= λ table,
  let output := write_json_string (output ++ json ",'table':") table in
  lift (value_at (my_server_id m) row) ≫= λ server_id,
  let output := write_i64 (output ++ json ",'server_id':") server_id in
  let output := output ++ json ",'gtid':" in
  lift (null_at (my_gtid m) row) ≫= λ no_gtid,
  (if no_gtid : bool then Ok (output ++ text "null")
   else lift (value_at (my_gtid m) row) ≫= λ gtid, Ok (write_json_string output gtid)) ≫= λ output,
  lift (value_at (my_binlog_file m) row) ≫= λ file,
  let output := write_json_string (output ++ json ",'file':") file in
  lift (value_at (my_binlog_position m) row) ≫= λ position,
  let output := write_i64 (output ++ json ",'pos':") position in
  lift (value_at (my_binlog_row m) row) ≫= λ binlog_row,
  let output := write_i64 (output ++ json ",'row':") binlog_row in
  Ok (output ++ json ",'thread':null,'query':null}").

Definition write_ydb_source (self : DebeziumBatchEncoder) (m : YdbMetadata) (output : list Z) (row : nat) (logical_name operation : list Z) :
    result DebeziumError (list Z) :=
  let output := write_json_string (output ++ json "'ydb','name':") logical_name in
  write_nullable_i64 (output ++ json ",'ts_ms':") (source_timestamp_ms self) row ≫= λ output,
  let output := write_json_string (output ++ json ",'snapshot':") (snapshot_text operation) in
  lift (value_at (database self) row) ≫= λ db,
  let output := write_json_string (output ++ json ",'db':") db in
  lift (value_at (source_table self) row) ≫= λ table,
  let output := write_json_string (output ++ json ",'table':") table in
  (if bool_decide (operation = text "r") then Ok (output ++ json ",'step':null,'txId':null")
   else
     (lift (value_at (ydb_transaction_identity m) row) ≫= ydb_transaction) ≫= λ '(step, tx_id),
     let output := write_i64 (output ++ json ",'step':") step in
     Ok (write_i64 (output ++ json ",'txId':") tx_id)) ≫= λ output,
  Ok (output ++ text "}").

Definition write_source (self : DebeziumBatchEncoder) (output : list Z) (row : nat) (logical_name operation : list Z) : result DebeziumError (list Z) :=
  let output := write_json_string (output ++ json ",'source':{'version':") (text (if bool_decide (dialect self = Ydb) then "1.0.0" else "transferia")) in
  let output := output ++ json ",'connector':" in
  match source_metadata self with
  | PostgresSource m => write_postgres_source self m output row logical_name operation
  | MySqlSource m => write_mysql_source self m output row logical_name operation
  | YdbSource m => write_ydb_source self m output row logical_name operation
  end.

Definition write_event_timestamps (t : EventTimestamps) (output : list Z) (row : nat) : result DebeziumError (list Z) :=
  lift (value_at (event_ms t) row) ≫= λ ms,
  let output := write_i64 output ms in
  lift (value_at (event_us t) row) ≫= λ us,
  let output := write_i64 (output ++ json ",'ts_us':") us in
  lift (value_at (event_ns t) row) ≫= λ ns,
  Ok (write_i64 (output ++ json ",'ts_ns':") ns).

Definition envelope (self : DebeziumBatchEncoder) (row : nat) (logical_name operation : list Z) (include_after include_before source_is_update : bool) :
    result DebeziumError (list Z) :=
  validate_source_metadata self row operation ≫= λ _,
  (if source_is_update && bool_decide (dialect self = Postgres) then
     ok_or (changed_columns self) MissingMask ≫= λ columns, Ok (Some columns)
   else Ok None) ≫= λ changed_columns,
  let output := json "{'before':" in
  (if include_before then lift (write_object (before self) row output) else Ok (output ++ text "null")) ≫= λ output,
  let output := output ++ json ",'after':" in
  (if include_after then
     match changed_columns with None => Ok None | Some c => lift (value_at c row) ≫= λ m, Ok (Some m) end ≫= λ mask,
     lift (write_object_with (current self) row output (write_unavailable self mask))
   else Ok (output ++ text "null")) ≫= λ output,
  write_source self output row logical_name operation ≫= λ output,
  let output := write_json_string (output ++ json ",'op':") operation in
  let output := output ++ json ",'ts_ms':" in
  match source_metadata self with
  | PostgresSource m => write_event_timestamps (pg_event m) output row
  | MySqlSource m => write_event_timestamps (my_event m) output row
  | YdbSource m => write_nullable_i64 output (ydb_event_ms m) row
  end ≫= λ output,
  Ok (output ++ json ",'transaction':null}").

(** ** Messages *)
Definition key_of (self : DebeziumJsonEncoder) (encoder : JsonBatchEncoder) (row : nat) : result DebeziumError (option (list Z)) :=
  match mode self with
  | ValuesOnly => Ok None
  | KeyedWithTombstones => lift (write_object encoder row []) ≫= λ key, Ok (Some key)
  end.

(** The messages of one row. *)
Definition encode_row (self : DebeziumJsonEncoder) (encoder : DebeziumBatchEncoder) (message_size_limit : Z) (row : nat) :
    result DebeziumError (list SerializedMessage) :=
  operation encoder row ≫= λ op,
  (if bool_decide (op = text "u") then lift (row_equals (old_key encoder) (current_key encoder) row) ≫= λ same, Ok (negb same)
   else Ok false) ≫= λ moved,
  if moved : bool then
    key_of self (old_key encoder) row ≫= λ old,
    envelope encoder row (logical_name self) (text "d") false true true ≫= λ delete,
    validate_message_size old (Some delete) message_size_limit ≫= λ _,
    (if bool_decide (mode self = KeyedWithTombstones) then
       validate_message_size old None message_size_limit ≫= λ _, Ok [{| key := old; value := None |}]
     else Ok []) ≫= λ tombstone,
    key_of self (current_key encoder) row ≫= λ k,
    envelope encoder row (logical_name self) (text "c") true false true ≫= λ create,
    validate_message_size k (Some create) message_size_limit ≫= λ _,
    Ok ({| key := old; value := Some delete |} :: tombstone ++ [{| key := k; value := Some create |}])
  else
    key_of self (if bool_decide (op = text "d") then old_key encoder else current_key encoder) row ≫= λ k,
    envelope encoder row (logical_name self) op (negb (bool_decide (op = text "d")))
      (negb (bool_decide (op = text "c")) && negb (bool_decide (op = text "r"))) (bool_decide (op = text "u")) ≫= λ v,
    validate_message_size k (Some v) message_size_limit ≫= λ _,
    (if bool_decide (op = text "d") && bool_decide (mode self = KeyedWithTombstones) then
       validate_message_size k None message_size_limit ≫= λ _, Ok [{| key := k; value := None |}]
     else Ok []) ≫= λ tombstone,
    Ok ({| key := k; value := Some v |} :: tombstone).

Definition encode_batch (self : DebeziumJsonEncoder) (encoder : DebeziumBatchEncoder) (table : list Z) (rows : nat) (message_size_limit : Z) :
    result DebeziumError SerializedBatch :=
  for_each (λ messages row, encode_row self encoder message_size_limit row ≫= λ l, Ok (messages ++ l)) (seq 0 rows) [] ≫= λ messages,
  Ok {| table := table; messages := messages |}.
End envelopes.
