(* ===== verification/DebeziumText.v ===== *)
(** * What the Debezium serializer writes

    The keys and envelopes of [Debezium.v] read as the objects Debezium defines, and the
    messages of a batch, folded by key as a log-compacted topic does, leave the rows of the
    changes. *)

From stdpp Require Import base tactics numbers option strings pretty gmap sets list.
From S2P Require Import Prelude Bytes Schema S3Objects JsonWriter JsonText Debezium.
Local Open Scope Z_scope.

(** ** Writing values between literals *)

(** A literal that does not begin inside a word and leaves none open. *)
Record chunk (c : list Z) (toks : list Token) : Prop := {
  chunk_lex : lex (MStart, []) c = Some (MStart, toks);
  chunk_visible : visible c;
  chunk_head : match c with b :: _ => word_byte b = false | [] => False end
}.

Lemma start_byte_frame out0 out b : start_byte (out0 ++ out) b = (λ st, (st.1, out0 ++ st.2)) <$> start_byte out b.
Proof. unfold start_byte. repeat (case_bool_decide; [cbn; by rewrite ?app_assoc|]). by destruct (word_byte b). Qed.
Lemma lex_byte_frame out0 m out b : lex_byte (m, out0 ++ out) b = (λ st, (st.1, out0 ++ st.2)) <$> lex_byte (m, out) b.
Proof.
  destruct m; cbn [lex_byte]; [apply start_byte_frame|destruct (word_byte b); [done|rewrite <-app_assoc; apply start_byte_frame]|..].
  - repeat (case_bool_decide; [cbn; by rewrite ?app_assoc|]). done.
  - case_bool_decide; [done|]. by destruct (escape b).
  - destruct (hex_value b); [cbn|done]. by repeat case_bool_decide.
Qed.
(** Earlier tokens do not matter. *)
Lemma lex_frame out0 m out l : lex (m, out0 ++ out) l = (λ st, (st.1, out0 ++ st.2)) <$> lex (m, out) l.
Proof.
  revert m out. induction l as [|b l IH]; intros m out; [done|]. cbn [lex]. rewrite lex_byte_frame.
  destruct (lex_byte (m, out) b) as [[m' out']|]; [|done]. cbn. apply IH.
Qed.
Lemma chunk_closed c toks : chunk c toks → closed c toks.
Proof. intros [L V _]. split; [|done]. intros out. rewrite <-(app_nil_r out) at 1. by rewrite lex_frame, L. Qed.
Lemma closed_chunk t1 k1 c kc : printed t1 k1 → chunk c kc → closed (t1 ++ c) (k1 ++ kc).
Proof.
  intros [L1 V1] Hc. pose proof (chunk_closed _ _ Hc) as [L2 V2]. destruct Hc as [_ _ Hb]. split; [|by apply Forall_app].
  intros out. destruct (L1 out) as (st & Hst & Hr & Hf). rewrite lex_app, Hst. cbn [mbind option_bind]. destruct c as [|b c]; [done|].
  cbn [lex]. rewrite ready_byte by done. rewrite Hf. specialize (L2 (out ++ k1)). by rewrite <-app_assoc in L2.
Qed.

(** The literal [c], then a value. *)
Lemma appends_step b o T c kc out kv : appends b o T → chunk c kc → appends (o ++ c) out kv → appends b out (T ++ kc ++ kv).
Proof.
  intros (t & -> & Ht) Hc (u & -> & Hu). exists ((t ++ c) ++ u). split; [by rewrite <-!app_assoc|].
  rewrite app_assoc. apply closed_then; [by apply closed_chunk|done].
Qed.
Lemma appends_first c kc out kv : chunk c kc → appends c out kv → appends [] out (kc ++ kv).
Proof. intros Hc (u & -> & Hu). exists (c ++ u). split; [done|]. by apply closed_then; [apply chunk_closed|]. Qed.
Lemma appends_last b o T c kc : appends b o T → chunk c kc → appends b (o ++ c) (T ++ kc).
Proof. intros (t & -> & Ht) Hc. exists (t ++ c). split; [by rewrite app_assoc|]. by apply closed_printed, closed_chunk. Qed.
Lemma appends_eq b o T T' : appends b o T → T = T' → appends b o T'.
Proof. by intros ? <-. Qed.

Ltac solve_chunk := split; [vm_compute; reflexivity|vm_compute; repeat constructor; done|reflexivity].

(** ** Envelopes as objects *)
Definition null : list Token := [TWord (text "null")].
Definition str (s : list Z) : list Token := [TString s].
(** The object with these members. *)
Fixpoint members (fields : list (string * list Token)) : list Token :=
  match fields with [] => [] | (name, v) :: fields => [TComma; TString (text name); TColon] ++ v ++ members fields end.
Definition obj (fields : list (string * list Token)) : list Token := TOpen :: tail (members fields) ++ [TClose].

Definition nullable {A} (f : A → list Token) (l : list (option A)) (row : nat) : list Token :=
  match mjoin (l !! row) with Some v => f v | None => null end.

Definition source_fields (self : DebeziumBatchEncoder) (row : nat) (name op : list Z) : list (string * list Token) :=
  let ts_ms := nullable number (source_timestamp_ms self) row in
  let snapshot := str (text (if bool_decide (op = text "r") then "true" else "false")) in
  let db := nullable str (database self) row in
  let tab := nullable str (source_table self) row in
  match source_metadata self with
  | PostgresSource m =>
      [("connector", str (text "postgresql")); ("name", str name); ("ts_ms", ts_ms); ("snapshot", snapshot); ("db", db); ("sequence", null);
       ("ts_us", nullable number (pg_source_us m) row); ("ts_ns", nullable number (pg_source_ns m) row);
       ("schema", nullable str (pg_source_schema m) row); ("table", tab);
       ("txId", nullable number (pg_transaction_id m) row); ("lsn", nullable number (pg_lsn m) row); ("xmin", null)]
  | MySqlSource m =>
      [("connector", str (text "mysql")); ("name", str name); ("ts_ms", ts_ms); ("snapshot", snapshot); ("db", db); ("sequence", null);
       ("ts_us", nullable number (my_source_us m) row); ("ts_ns", nullable number (my_source_ns m) row); ("table", tab);
       ("server_id", nullable number (my_server_id m) row); ("gtid", nullable str (my_gtid m) row); ("file", nullable str (my_binlog_file m) row);
       ("pos", nullable number (my_binlog_position m) row); ("row", nullable number (my_binlog_row m) row); ("thread", null); ("query", null)]
  | YdbSource m =>
      let part f := if bool_decide (op = text "r") then null else nullable (λ v, number (from_le_bytes (reverse (f v)))) (ydb_transaction_identity m) row in
      [("connector", str (text "ydb")); ("name", str name); ("ts_ms", ts_ms); ("snapshot", snapshot); ("db", db); ("table", tab);
       ("step", part (firstn 8)); ("txId", part (drop 8))]
  end.
Definition version (self : DebeziumBatchEncoder) : list Z := text (if bool_decide (dialect self = Ydb) then "1.0.0" else "transferia").
Definition time_fields (self : DebeziumBatchEncoder) (row : nat) : list (string * list Token) :=
  let times t := [("ts_ms", nullable number (event_ms t) row); ("ts_us", nullable number (event_us t) row); ("ts_ns", nullable number (event_ns t) row)] in
  match source_metadata self with
  | PostgresSource m => times (pg_event m)
  | MySqlSource m => times (my_event m)
  | YdbSource m => [("ts_ms", nullable number (ydb_event_ms m) row)]
  end.

(** A column whose bit is not set in the mask of an update has no value. *)
Definition hidden (self : DebeziumBatchEncoder) (mask : option (list Z)) (source_index : option nat) (_ : list Z) : option (list Token) :=
  source_index ≫= λ index,
  mjoin (user_ordinal_by_source_index self !! index) ≫= λ ordinal,
  mask ≫= λ bits,
  bits !! (ordinal / 8)%nat ≫= λ byte,
  if Z.testbit byte (Z.of_nat (ordinal mod 8)) then None else Some (str (text "__debezium_unavailable_value")).
(** The mask of the changed columns is that of an update of PostgreSQL. *)
Definition update_mask (self : DebeziumBatchEncoder) (row : nat) (update : bool) : option (list Z) :=
  if update && bool_decide (dialect self = Postgres) then changed_columns self ≫= λ c, mjoin (c !! row) else None.

Section envelopes.
Context `{JsonCrates}.

Definition envelope_tokens (self : DebeziumBatchEncoder) (row : nat) (name op : list Z) (include_after include_before update : bool) : result JsonError (list Token) :=
  (if include_before then object_tokens (before self) row else Ok null) ≫= λ b,
  (if include_after then object_tokens_with (current self) row (hidden self (update_mask self row update)) else Ok null) ≫= λ a,
  Ok (obj ([("before", b); ("after", a); ("source", obj (("version", str (version self)) :: source_fields self row name op)); ("op", str op)] ++
           time_fields self row ++ [("transaction", null)])).

Lemma lift_json_Ok {A} (m : result JsonError A) a : lift m = Ok a → m = Ok a.
Proof. destruct m; [by intros [= <-]|done]. Qed.
Lemma value_at_nullable {A} (l : list (option A)) row v f : value_at l row = Ok v → nullable f l row = f v.
Proof. unfold value_at, nullable. destruct (mjoin (l !! row)); by intros [= <-]. Qed.

(** Columns of text are bytes. *)
Definition metadata_ok (m : DebeziumSourceMetadata) : Prop :=
  match m with
  | PostgresSource m => bytes_ok (pg_source_schema m)
  | MySqlSource m => bytes_ok (my_gtid m) ∧ bytes_ok (my_binlog_file m)
  | YdbSource _ => True
  end.
Record debezium_ok (self : DebeziumBatchEncoder) : Prop := {
  ok_current : encoder_ok (current self);
  ok_before : encoder_ok (before self);
  ok_current_key : encoder_ok (current_key self);
  ok_old_key : encoder_ok (old_key self);
  ok_database : bytes_ok (database self);
  ok_table : bytes_ok (source_table self);
  ok_metadata : metadata_ok (source_metadata self)
}.

(** *** Steps *)
Lemma step_int b o T c kc v : appends b o T → chunk c kc → appends b (write_i64 (o ++ c) v) (T ++ kc ++ number v).
Proof. intros Ho Hc. eapply appends_step; [done..|]. apply appends_int. Qed.
Lemma step_str b o T c kc s : Forall byte s → appends b o T → chunk c kc → appends b (write_json_string (o ++ c) s) (T ++ kc ++ str s).
Proof. intros Hs Ho Hc. eapply appends_step; [done..|]. by apply appends_string. Qed.
Lemma step_nullable b o T c kc l row out : appends b o T → chunk c kc → write_nullable_i64 (o ++ c) l row = Ok out →
  appends b out (T ++ kc ++ nullable number l row).
Proof.
  intros Ho Hc Hw. eapply appends_step; [done..|]. unfold write_nullable_i64 in Hw. apply bind_Ok in Hw as (n & Hn%lift_json_Ok & Hw). destruct n.
  - injection Hw as <-. unfold null_at in Hn. unfold nullable. destruct (l !! row) as [[v|]|]; try done. apply appends_word; [done|by repeat constructor].
  - apply bind_Ok in Hw as (v & Hv%lift_json_Ok & [= <-]). rewrite (value_at_nullable _ _ _ _ Hv). apply appends_int.
Qed.
Lemma step_optional b o T c kc l row n out : bytes_ok l → null_at l row = Ok n →
  (if n : bool then Ok ((o ++ c) ++ text "null") else lift (value_at l row) ≫= λ s, Ok (write_json_string (o ++ c) s)) = Ok out →
  appends b o T → chunk c kc → appends b out (T ++ kc ++ nullable str l row).
Proof.
  intros Hl Hn Hw Ho Hc. eapply appends_step; [done..|]. destruct n.
  - injection Hw as <-. unfold null_at in Hn. unfold nullable. destruct (l !! row) as [[v|]|]; try done. apply appends_word; [done|by repeat constructor].
  - apply bind_Ok in Hw as (v & Hv%lift_json_Ok & [= <-]). rewrite (value_at_nullable _ _ _ _ Hv). apply appends_string. apply Hl. by eapply value_at_elem.
Qed.
Lemma cell_bytes l row v : bytes_ok l → value_at l row = Ok v → Forall byte v.
Proof. intros Hl Hv%value_at_elem. by apply Hl. Qed.
Lemma text_bytes s : Forall byte (text s).
Proof.
  unfold text, string_bytes. apply Forall_fmap, Forall_forall. intros c _. cbn. unfold byte. pose proof (Ascii.N_ascii_bounded c). lia.
Qed.

Ltac cell Hw := let v := fresh "v" in let Hv := fresh "Hv" in apply bind_Ok in Hw as (v & Hv%lift_json_Ok & Hw).
(** Prove [appends] of a chain of writes, one literal and value at a time. *)
Ltac write_chain :=
  lazymatch goal with
  | |- appends _ (write_i64 _ _) _ => eapply step_int; [write_chain|solve_chunk]
  | |- appends _ (write_json_string ((_ ++ ?c) ++ ?d) _) _ => rewrite <-(app_assoc _ c d); eapply step_str; [|write_chain|solve_chunk]
  | |- appends _ (write_json_string _ _) _ => eapply step_str; [|write_chain|solve_chunk]
  | |- appends _ (_ ++ json _) _ => eapply appends_last; [write_chain|solve_chunk]
  | |- _ => eassumption
  end.
Ltac write_bytes := solve [assumption|apply text_bytes|eapply cell_bytes; [|eassumption]; assumption].
(** The cells that were read are those of the object. *)
Ltac same_tokens :=
  repeat match goal with Hv : value_at ?l ?row = Ok ?v |- context [nullable ?f ?l ?row] => rewrite (value_at_nullable l row v f Hv) end;
  repeat first [progress cbn [app members str null tail]|rewrite <-app_assoc]; reflexivity.

Lemma postgres_source_appends self m b o T out row name op :
  source_metadata self = PostgresSource m → debezium_ok self → Forall byte name → appends b o T →
  write_postgres_source self m (o ++ json ",'connector':") row name op = Ok out →
  appends b out (T ++ members (source_fields self row name op) ++ [TClose]).
Proof.
  intros Hm [_ _ _ _ Hdb Htab Hmeta] Hname Ho Hw. rewrite Hm in Hmeta. cbn in Hmeta. unfold write_postgres_source in Hw. cbn zeta in Hw.
  repeat cell Hw. injection Hw as <-. eapply appends_eq; [write_chain; write_bytes|]. unfold source_fields. rewrite Hm. cbn zeta. same_tokens.
Qed.
Lemma mysql_source_appends self m b o T out row name op :
  source_metadata self = MySqlSource m → debezium_ok self → Forall byte name → appends b o T →
  write_mysql_source self m (o ++ json ",'connector':") row name op = Ok out →
  appends b out (T ++ members (source_fields self row name op) ++ [TClose]).
Proof.
  intros Hm [_ _ _ _ Hdb Htab Hmeta] Hname Ho Hw. rewrite Hm in Hmeta. destruct Hmeta as [Hgtid Hfile]. unfold write_mysql_source in Hw. cbn zeta in Hw.
  repeat cell Hw. apply bind_Ok in Hw as (o1 & Hg & Hw).
  eassert (appends b o1 _) as Ho1 by (eapply step_optional; [exact Hgtid|eassumption|exact Hg|write_chain; write_bytes|solve_chunk]).
  clear Hg. repeat cell Hw. injection Hw as <-.
  eapply appends_eq; [write_chain; write_bytes|]. unfold source_fields. rewrite Hm. cbn zeta. same_tokens.
Qed.

Lemma ydb_source_appends self m b o T out row name op :
  source_metadata self = YdbSource m → debezium_ok self → Forall byte name → appends b o T →
  write_ydb_source self m (o ++ json ",'connector':") row name op = Ok out →
  appends b out (T ++ members (source_fields self row name op) ++ [TClose]).
Proof.
  intros Hm [_ _ _ _ Hdb Htab _] Hname Ho Hw. unfold write_ydb_source, snapshot_text in Hw. cbn zeta in Hw.
  apply bind_Ok in Hw as (o1 & Ht & Hw).
  eassert (appends b o1 _) as Ho1 by (eapply step_nullable; [| |exact Ht]; [write_chain; write_bytes|solve_chunk]).
  clear Ht. repeat cell Hw. apply bind_Ok in Hw as (o2 & Hx & [= <-]). unfold source_fields. rewrite Hm. cbn zeta.
  change (text "}") with (json "}"). case_bool_decide as Hr.
  - injection Hx as <-. eapply appends_eq; [rewrite <-app_assoc; eapply appends_last; [write_chain; write_bytes|solve_chunk]|]. same_tokens.
  - apply bind_Ok in Hx as ([step tx] & (id & Hid%lift_json_Ok & Htx)%bind_Ok & [= <-]).
    apply bind_Ok in Htx as (_ & _ & [= <- <-]). eapply appends_eq; [write_chain; write_bytes|]. same_tokens.
Qed.

Lemma source_appends self b o T out row name op :
  debezium_ok self → Forall byte name → appends b o T → write_source self o row name op = Ok out →
  appends b out (T ++ [TComma; TString (text "source"); TColon] ++ obj (("version", str (version self)) :: source_fields self row name op)).
Proof.
  intros Hok Hname Ho Hw. unfold write_source in Hw. cbn zeta in Hw.
  set (o1 := write_json_string _ _) in Hw.
  eassert (appends b o1 _) as Ho1 by (subst o1; write_chain; write_bytes). clearbody o1.
  assert (appends b out ((T ++ [TComma; TString (text "source"); TColon; TOpen; TString (text "version"); TColon] ++ str (version self)) ++ members (source_fields self row name op) ++ [TClose])) as Hout.
  { destruct (source_metadata self) as [m|m|m] eqn:Hm;
      [eapply postgres_source_appends|eapply mysql_source_appends|eapply ydb_source_appends]; eassumption. }
  eapply appends_eq; [exact Hout|]. unfold obj. cbn [members app str tail]. rewrite <-!app_assoc. reflexivity.
Qed.

Lemma timestamps_appends t b o T out row c kc :
  appends b o T → chunk c kc → write_event_timestamps t (o ++ c) row = Ok out →
  appends b out (T ++ kc ++ nullable number (event_ms t) row ++ members [("ts_us", nullable number (event_us t) row); ("ts_ns", nullable number (event_ns t) row)]).
Proof.
  intros Ho Hc Hw. unfold write_event_timestamps in Hw. cbn zeta in Hw. repeat cell Hw. injection Hw as <-.
  eapply appends_eq; [eapply step_int; [eapply step_int; [eapply step_int; [done|exact Hc]|solve_chunk]|solve_chunk]|]. same_tokens.
Qed.
(** *** The envelope *)
Lemma hidden_unavailable self mask i name :
  hidden self mask i name = if unavailable self mask i then Some (str (text "__debezium_unavailable_value")) else None.
Proof.
  unfold hidden, unavailable. destruct i as [i|]; [|done]. cbn. destruct (mjoin _) as [n|]; [|done]. destruct mask as [bits|]; [|done].
  cbn -[Nat.div Nat.modulo]. destruct (bits !! _) as [b|]; [|done]. rewrite bit_unset by lia. cbn -[Nat.modulo]. by destruct (Z.testbit _ _).
Qed.
Lemma hides_unavailable self mask : override_ok (write_unavailable self mask) (hidden self mask).
Proof.
  intros i name buf. rewrite hidden_unavailable. unfold write_unavailable. destruct (unavailable self mask i); [|done]. eexists. split; [done|].
  apply closed_printed, chunk_closed. solve_chunk.
Qed.
Lemma object_or_null (include : bool) enc row o over ov out : override_ok over ov → encoder_ok enc →
  (if include then lift (write_object_with enc row o over) else Ok (o ++ text "null")) = Ok out →
  ∃ toks, (if include then object_tokens_with enc row ov else Ok null) = Ok toks ∧ appends o out toks.
Proof.
  intros Hov Henc Hw. destruct include.
  - apply lift_json_Ok in Hw. by eapply write_object_appends.
  - injection Hw as <-. eexists. split; [done|]. apply appends_word; [done|by repeat constructor].
Qed.
Lemma mask_of self row u columns mask :
  (if u && bool_decide (dialect self = Postgres) then ok_or (changed_columns self) MissingMask ≫= λ columns, Ok (Some columns) else Ok None) = Ok columns →
  match columns with None => Ok None | Some c => lift (value_at c row) ≫= λ m, Ok (Some m) end = Ok mask → mask = update_mask self row u.
Proof.
  unfold update_mask. destruct (u && _); [|by intros [= <-] [= <-]]. destruct (changed_columns self) as [c|]; cbn; [|done]. intros [= <-].
  unfold value_at. destruct (mjoin (c !! row)); cbn; by intros [= <-].
Qed.

Lemma envelope_printed self row name op a b u out : debezium_ok self → Forall byte name → Forall byte op →
  envelope self row name op a b u = Ok out → ∃ toks, envelope_tokens self row name op a b u = Ok toks ∧ printed out toks.
Proof.
  intros Hok Hname Hop Hw. unfold envelope in Hw. cbn zeta in Hw.
  apply bind_Ok in Hw as (_ & _ & (columns & Hcol & (o1 & H1 & (o2 & H2 & (o3 & H3 & (o4 & H4 & [= <-])%bind_Ok)%bind_Ok)%bind_Ok)%bind_Ok)%bind_Ok).
  apply (object_or_null _ _ _ _ _ _ _ no_override) in H1 as (bt & Hbt & Ho1); [|apply Hok].
  assert (∃ at_, (if a then object_tokens_with (current self) row (hidden self (update_mask self row u)) else Ok null) = Ok at_ ∧ appends (o1 ++ json ",'after':") o2 at_) as (at_ & Hat & Ho2).
  { apply (object_or_null a _ _ _ _ _ _ (hides_unavailable self (update_mask self row u))); [apply Hok|]. destruct a; [|done].
    apply bind_Ok in H2 as (mask & Hmask & H2). by rewrite <-(mask_of _ _ _ _ _ Hcol Hmask). }
  clear Hcol H2. eapply (appends_first (json "{'before':")) in Ho1; [|solve_chunk].
  eapply (appends_step _ _ _ (json ",'after':")) in Ho2; [|exact Ho1|solve_chunk].
  eapply source_appends in H3; [|done|done|exact Ho2]. eapply (step_str _ _ _ (json ",'op':")) in H3; [|exact Hop|solve_chunk].
  unfold envelope_tokens, object_tokens. rewrite Hbt, Hat. cbn [mbind result_bind]. eexists. split; [done|].
  assert (∃ T, appends [] o4 T ∧ T ++ [TComma; TString (text "transaction"); TColon; TWord (text "null"); TClose] =
    obj ([("before", bt); ("after", at_); ("source", obj (("version", str (version self)) :: source_fields self row name op)); ("op", str op)] ++
         time_fields self row ++ [("transaction", null)])) as (T & Ho4 & <-).
  { unfold time_fields. destruct (source_metadata self) as [m|m|m];
      [eapply timestamps_appends in H4|eapply timestamps_appends in H4|eapply step_nullable in H4];
      try exact H3; try solve_chunk; (eexists; split; [exact H4|]); cbn zeta; unfold obj at 2; same_tokens. }
  eapply (appends_last _ _ _ (json ",'transaction':null}")) in Ho4; [|solve_chunk]. destruct Ho4 as (t & -> & Ht). exact Ht.
Qed.
Lemma operation_text enc row op : operation enc row = Ok op → op ∈ [text "c"; text "r"; text "u"; text "d"].
Proof.
  unfold operation. destruct (operation_column enc); [|intros [= <-]; set_solver].
  intros (n & _ & (_ & _ & (o & _ & ([] & Ho%ensure_Ok & [= <-])%bind_Ok)%bind_Ok)%bind_Ok)%bind_Ok. by apply bool_decide_eq_true in Ho.
Qed.

(** ** The messages of a row *)
Definition Event : Type := option (list Token) * option (list Token).
Section rows.
Context (self : DebeziumJsonEncoder) (enc : DebeziumBatchEncoder).
Hypothesis Henc : debezium_ok enc.
Hypothesis Hname : Forall byte (logical_name self).

Definition key_tokens (e : JsonBatchEncoder) (row : nat) : result JsonError (option (list Token)) :=
  match mode self with ValuesOnly => Ok None | KeyedWithTombstones => object_tokens e row ≫= λ k, Ok (Some k) end.
(** The row that was there goes: its envelope, and a tombstone for a compacted topic. *)
Definition deletion (row : nat) (update : bool) : result JsonError (list Event) :=
  key_tokens (old_key enc) row ≫= λ k,
  envelope_tokens enc row (logical_name self) (text "d") false true update ≫= λ v,
  Ok ((k, Some v) :: match mode self with KeyedWithTombstones => [(k, None)] | ValuesOnly => [] end).
(** The row that is there now. *)
Definition upsert (row : nat) (op : list Z) (include_before update : bool) : result JsonError (list Event) :=
  key_tokens (current_key enc) row ≫= λ k,
  envelope_tokens enc row (logical_name self) op true include_before update ≫= λ v,
  Ok [(k, Some v)].
(** An update that changes the key deletes the old row and creates the new one. *)
Definition row_events (row : nat) (op : list Z) : result JsonError (list Event) :=
  if bool_decide (op = text "d") then deletion row false
  else if bool_decide (op = text "u") then
    row_equals (old_key enc) (current_key enc) row ≫= λ same,
    if same : bool then upsert row op true true
    else deletion row true ≫= λ l, upsert row (text "c") false true ≫= λ k, Ok (l ++ k)
  else upsert row op false false.

(** The text of a part of a message. *)
Definition reads (toks : option (list Token)) (t : option (list Z)) : Prop :=
  match toks, t with
  | Some toks, Some t => tokens t = Some toks ∧ (10 ∉ t)
  | None, None => True
  | _, _ => False
  end.
Definition message_reads (limit : Z) (e : Event) (m : SerializedMessage) : Prop :=
  reads e.1 (key m) ∧ reads e.2 (value m) ∧ message_bytes (key m) (value m) ≤ limit.

Lemma key_reads e row k : encoder_ok e → key_of self e row = Ok k → ∃ toks, key_tokens e row = Ok toks ∧ reads toks k.
Proof.
  intros He. unfold key_of, key_tokens. destruct (mode self); [|intros [= <-]; by exists None].
  intros (t & Ht%lift_json_Ok & [= <-])%bind_Ok. apply (write_object_appends _ _ _ _ _ _ no_override) in Ht as (toks & Htoks & u & -> & Hu); [|done].
  unfold object_tokens. rewrite Htoks. eexists. split; [done|]. by apply printed_tokens.
Qed.
Lemma envelope_reads row op a b u v : Forall byte op → envelope enc row (logical_name self) op a b u = Ok v →
  ∃ toks, envelope_tokens enc row (logical_name self) op a b u = Ok toks ∧ reads (Some toks) (Some v).
Proof. intros Hop (toks & Htoks & Hp)%envelope_printed; [|done..]. exists toks. split; [done|]. by apply printed_tokens. Qed.

Lemma size_Ok k v limit : validate_message_size k v limit = Ok tt → message_bytes k v ≤ limit.
Proof. intros Hs%ensure_Ok. by apply bool_decide_eq_true in Hs. Qed.

Lemma upsert_reads row op b u limit k v : Forall byte op → key_of self (current_key enc) row = Ok k →
  envelope enc row (logical_name self) op true b u = Ok v → validate_message_size k (Some v) limit = Ok tt →
  ∃ l, upsert row op b u = Ok l ∧ Forall2 (message_reads limit) l [{| key := k; value := Some v |}].
Proof.
  intros Hop (kt & Hkt & Hk)%key_reads (vt & Hvt & Hv)%envelope_reads Hs%size_Ok; [|done|apply Henc].
  unfold upsert. rewrite Hkt. cbn [mbind result_bind]. rewrite Hvt. eexists. split; [done|]. constructor; [exact (conj Hk (conj Hv Hs))|constructor].
Qed.
Lemma deletion_reads row u limit k v t : key_of self (old_key enc) row = Ok k →
  envelope enc row (logical_name self) (text "d") false true u = Ok v → validate_message_size k (Some v) limit = Ok tt →
  (if bool_decide (mode self = KeyedWithTombstones) then validate_message_size k None limit ≫= λ _, Ok [{| key := k; value := None |}] else Ok []) = Ok t →
  ∃ l, deletion row u = Ok l ∧ Forall2 (message_reads limit) l ({| key := k; value := Some v |} :: t).
Proof.
  intros (kt & Hkt & Hk)%key_reads (vt & Hvt & Hv)%envelope_reads Hs%size_Ok Ht; [|apply text_bytes|apply Henc].
  unfold deletion. rewrite Hkt. cbn [mbind result_bind]. rewrite Hvt. eexists. split; [done|]. constructor; [exact (conj Hk (conj Hv Hs))|].
  destruct (mode self); [|by injection Ht as <-]. apply bind_Ok in Ht as ([] & Hn%size_Ok & [= <-]). constructor; [exact (conj Hk (conj I Hn))|constructor].
Qed.

Lemma row_reads limit row msgs : encode_row self enc limit row = Ok msgs →
  ∃ op l, operation enc row = Ok op ∧ row_events row op = Ok l ∧ Forall2 (message_reads limit) l msgs.
Proof.
  unfold encode_row. intros (op & Hop & (moved & Hmoved & Hw)%bind_Ok)%bind_Ok. exists op.
  pose proof (operation_text _ _ _ Hop) as Hin. unfold row_events. destruct moved.
  - destruct (decide (op = text "u")) as [->|Hu]; [|by rewrite bool_decide_eq_false_2 in Hmoved].
    change (bool_decide (text "u" = text "u")) with true in Hmoved. cbn iota in Hmoved. apply bind_Ok in Hmoved as ([] & Hsame%lift_json_Ok & Hn); [done|]. clear Hn.
    apply bind_Ok in Hw as (k & Hk & (v & Hv & ([] & Hs & (t & Ht & (k' & Hk' & (v' & Hv' & ([] & Hs' & [= <-])%bind_Ok)%bind_Ok)%bind_Ok)%bind_Ok)%bind_Ok)%bind_Ok).
    destruct (deletion_reads _ _ _ _ _ _ Hk Hv Hs Ht) as (l & Hl & Hreads). destruct (upsert_reads _ _ _ _ _ _ _ (text_bytes "c") Hk' Hv' Hs') as (l' & Hl' & Hreads').
    exists (l ++ l'). rewrite (bool_decide_eq_false_2 (text "u" = text "d")) by done. rewrite Hsame. cbn [mbind result_bind]. rewrite Hl. cbn [mbind result_bind]. rewrite Hl'.
    split_and!; [done|done|]. rewrite app_comm_cons. by apply Forall2_app.
  - apply bind_Ok in Hw as (k & Hk & (v & Hv & ([] & Hs & (t & Ht & [= <-])%bind_Ok)%bind_Ok)%bind_Ok).
    case_bool_decide as Hd.
    + subst op. destruct (deletion_reads _ _ _ _ _ _ Hk Hv Hs Ht) as (l & Hl & Hreads). eauto.
    + cbn [andb] in Ht. injection Ht as <-. cbn [negb] in Hv.
      assert (Forall byte op) as Hb by (repeat (apply elem_of_cons in Hin as [->|Hin]; [apply text_bytes|]); by apply not_elem_of_nil in Hin).
      destruct (upsert_reads _ _ _ _ _ _ _ Hb Hk Hv Hs) as (l & Hl & Hreads). exists l. split; [done|]. destruct (decide (op = text "u")) as [->|Hu].
      * change (bool_decide (text "u" = text "u")) with true in *. cbn iota in *. apply bind_Ok in Hmoved as ([] & Hsame%lift_json_Ok & Hn); [|done]. rewrite Hsame. cbn [mbind result_bind]. done.
      * split; [|done]. rewrite (bool_decide_eq_false_2 (op = text "u")) by done. rewrite <-Hl.
        repeat (apply elem_of_cons in Hin as [->|Hin]; [done|]). by apply not_elem_of_nil in Hin.
Qed.
End rows.

(** The messages of a batch are those of its rows, in order. *)
Lemma batch_rows self enc t rows limit batch : encode_batch self enc t rows limit = Ok batch →
  ∃ groups, messages batch = mjoin groups ∧ Forall2 (λ row l, encode_row self enc limit row = Ok l) (seq 0 rows) groups.
Proof.
  unfold encode_batch. intros (ms & Hw & [= <-])%bind_Ok. cbn [messages].
  revert Hw. apply (for_each_ind (λ done ms, ∃ groups, ms = mjoin groups ∧ Forall2 (λ row l, encode_row self enc limit row = Ok l) done groups)).
  - exists []. split; [done|constructor].
  - intros l1 row l2 s1 s2 _ (groups & -> & Hg) (l & Hl & [= <-])%bind_Ok. exists (groups ++ [l]). rewrite join_app. cbn. rewrite app_nil_r.
    split; [done|]. apply Forall2_app; [done|by constructor].
Qed.

(** C29. The messages of a batch that is encoded are, in order, the events of its rows: each
    key reads as the object of the key columns, each value as the envelope with the rows
    before and after, the source and the times, a deletion for a compacted topic is followed
    by its tombstone, an update of the key is a deletion and a creation, and every message
    is within the limit. *)
Theorem debezium_batch_exact (self : DebeziumJsonEncoder) (enc : DebeziumBatchEncoder) (t : list Z) (rows : nat) (limit : Z) (batch : SerializedBatch) :
  debezium_ok enc → Forall byte (logical_name self) →
  encode_batch self enc t rows limit = Ok batch →
  ∃ events : list (list Event),
    Forall2 (λ row l, ∃ op, operation enc row = Ok op ∧ row_events self enc row op = Ok l) (seq 0 rows) events ∧
    Forall2 (message_reads limit) (mjoin events) (messages batch).
Proof.
  intros Henc Hname (groups & -> & Hg)%batch_rows. induction Hg as [|row l rs groups Hl _ (events & He & Hm)].
  { exists []. split; constructor. }
  destruct (row_reads self enc Henc Hname _ _ _ Hl) as (op & evs & Hop & Hevs & Hreads). exists (evs :: events). split.
  - constructor; [eauto|done].
  - cbn. by apply Forall2_app.
Qed.

(** ** Log compaction *)
Abbreviation Store := (gmap (list Z) (list Z)).
(** A topic keeps the last value of a key, and none after a tombstone. *)
Definition apply_message (s : Store) (m : SerializedMessage) : Store :=
  match key m, value m with
  | Some k, Some v => <[k := v]> s
  | Some k, None => delete k s
  | None, _ => s
  end.
Definition compacted (s : Store) (ms : list SerializedMessage) : Store := foldl apply_message s ms.

(** What the change of a row does to the store. *)
Inductive row_effect (self : DebeziumJsonEncoder) (enc : DebeziumBatchEncoder) (row : nat) (s : Store) : Store → Prop :=
| effect_delete old :
    operation enc row = Ok (text "d") → write_object (old_key enc) row [] = Ok old →
    row_effect self enc row s (delete old s)
| effect_create op k v :
    operation enc row = Ok op → op ∈ [text "c"; text "r"] → write_object (current_key enc) row [] = Ok k →
    envelope enc row (logical_name self) op true false false = Ok v →
    row_effect self enc row s (<[k := v]> s)
| effect_update old k v op before :
    operation enc row = Ok (text "u") → write_object (old_key enc) row [] = Ok old → write_object (current_key enc) row [] = Ok k →
    envelope enc row (logical_name self) op true before true = Ok v →
    row_effect self enc row s (<[k := v]> (delete old s)).
Inductive effects (self : DebeziumJsonEncoder) (enc : DebeziumBatchEncoder) : list nat → Store → Store → Prop :=
| effects_nil s : effects self enc [] s s
| effects_cons row rows s s1 s2 : row_effect self enc row s s1 → effects self enc rows s1 s2 → effects self enc (row :: rows) s s2.

Lemma key_of_keyed self e row k : mode self = KeyedWithTombstones → key_of self e row = Ok k → ∃ t, k = Some t ∧ write_object e row [] = Ok t.
Proof. unfold key_of. intros ->. intros (t & Ht%lift_json_Ok & [= <-])%bind_Ok. eauto. Qed.

Lemma row_compacted self enc limit row msgs s :
  mode self = KeyedWithTombstones → non_finite_floats (old_key enc) = non_finite_floats (current_key enc) →
  encode_row self enc limit row = Ok msgs → row_effect self enc row s (compacted s msgs).
Proof.
  intros Hmode Hf. unfold encode_row. intros (op & Hop & (moved & Hmoved & Hw)%bind_Ok)%bind_Ok.
  rewrite Hmode in Hw. change (bool_decide (KeyedWithTombstones = KeyedWithTombstones)) with true in Hw. rewrite andb_true_r in Hw. cbn iota in Hw. destruct moved.
  - destruct (decide (op = text "u")) as [->|Hu]; [|by rewrite bool_decide_eq_false_2 in Hmoved].
    apply bind_Ok in Hw as (k & Hk & (v & Hv & ([] & _ & (t & (_ & _ & [= <-])%bind_Ok & (k' & Hk' & (v' & Hv' & (_ & _ & [= <-])%bind_Ok)%bind_Ok)%bind_Ok)%bind_Ok)%bind_Ok)%bind_Ok).
    destruct (key_of_keyed _ _ _ _ Hmode Hk) as (old & -> & Hold). destruct (key_of_keyed _ _ _ _ Hmode Hk') as (new & -> & Hnew).
    cbn. rewrite delete_insert_eq. by eapply effect_update.
  - apply bind_Ok in Hw as (k & Hk & (v & Hv & (_ & _ & (t & Ht & [= <-])%bind_Ok)%bind_Ok)%bind_Ok).
    destruct (key_of_keyed _ _ _ _ Hmode Hk) as (kb & -> & Hkb). pose proof (operation_text _ _ _ Hop) as Hin.
    destruct (decide (op = text "d")) as [->|Hd].
    + apply bind_Ok in Ht as (_ & _ & [= <-]). cbn. rewrite delete_insert_eq. by apply effect_delete.
    + rewrite bool_decide_eq_false_2 in Ht, Hkb, Hv by done. injection Ht as <-. cbn [negb] in Hv. cbn.
      destruct (decide (op = text "u")) as [->|Hu].
      * change (bool_decide (text "u" = text "u")) with true in Hmoved. cbn iota in Hmoved. apply bind_Ok in Hmoved as ([] & Hsame%lift_json_Ok & Hn); [|done].
        rewrite <-(insert_delete_eq s). eapply effect_update; [done| |done|exact Hv]. by rewrite (equal_objects (old_key enc) (current_key enc)).
      * eapply effect_create; [done|set_solver|done|]. rewrite <-Hv.
        repeat (apply elem_of_cons in Hin as [->|Hin]; [done|]). by apply not_elem_of_nil in Hin.
Qed.

(** C28. In a log-compacted topic the messages of a batch do what its changes do: a creation
    or an update leaves the row's key with its envelope, a deletion removes the key, and an
    update that changes the key removes the old one; in the order of the rows. *)
Theorem debezium_compaction_exact (self : DebeziumJsonEncoder) (enc : DebeziumBatchEncoder) (t : list Z) (rows : nat) (limit : Z) (batch : SerializedBatch) (s : Store) :
  mode self = KeyedWithTombstones → non_finite_floats (old_key enc) = non_finite_floats (current_key enc) →
  encode_batch self enc t rows limit = Ok batch →
  effects self enc (seq 0 rows) s (compacted s (messages batch)).
Proof.
  intros Hmode Hf (groups & -> & Hg)%batch_rows. revert s. induction Hg as [|row l rs groups Hl _ IH]; intros s; [constructor|].
  cbn. unfold compacted. rewrite foldl_app. econstructor; [by eapply row_compacted|apply IH].
Qed.
End envelopes.

(** ** A batch of changes *)
Module DebeziumExample.
Import JsonExample.
Definition int_column (name : string) (l : list (option Z)) (i : nat) : JsonColumnWriter :=
  {| source_index := Some i; output_name := text name; writer := WInt64 l |}.
Definition text_column (name : string) (l : list (option (list Z))) (i : nat) : JsonColumnWriter :=
  {| source_index := Some i; output_name := text name; writer := WUtf8 l |}.
Definition all {A} (x : A) : list (option A) := replicate 3 (Some x).

(** Row 0 is created, row 1 updated with a new key and an unchanged name, row 2 deleted. *)
Definition example_batch : DebeziumBatchEncoder := {|
  dialect := Postgres;
  current := {| columns := [int_column "id" [Some 1; Some 2; None] 0; text_column "name" [Some (text "a"); None; None] 1]; non_finite_floats := ProtobufJsonString |};
  before := {| columns := [int_column "id" [None; Some 1; Some 2] 2; text_column "name" [None; None; None] 3]; non_finite_floats := ProtobufJsonString |};
  current_key := {| columns := [int_column "id" [Some 1; Some 2; None] 0]; non_finite_floats := ProtobufJsonString |};
  old_key := {| columns := [int_column "id" [None; Some 1; Some 2] 2]; non_finite_floats := ProtobufJsonString |};
  changed_columns := Some (all [1]);
  operation_column := Some [Some (text "c"); Some (text "u"); Some (text "d")];
  database := all (text "db");
  source_table := all (text "t");
  source_metadata := PostgresSource {|
    pg_transaction_id := all 7; pg_lsn := all 100; pg_source_schema := all (text "public"); pg_source_us := all 5000; pg_source_ns := all 5000000;
    pg_event := {| event_ms := all 6; event_us := all 6000; event_ns := all 6000000 |} |};
  source_timestamp_ms := all 5;
  user_ordinal_by_source_index := [Some 0%nat; Some 1%nat; None; None]
|}.
Definition example_sink : DebeziumJsonEncoder := {| logical_name := text "server"; mode := KeyedWithTombstones |}.
Definition example_messages : result DebeziumError SerializedBatch := encode_batch example_sink example_batch (text "t") 3 1000.

Lemma all_bytes s : bytes_ok (all (text s)).
Proof. intros v [= ->]%elem_of_replicate_inv. apply text_bytes. Qed.
Lemma example_batch_ok : debezium_ok example_batch.
Proof.
  assert (∀ l, (∀ v, Some v ∈ l → v = text "a") → bytes_ok l) as Hb by (intros l Hl v Hv; rewrite (Hl v Hv); apply text_bytes).
  split; try (repeat (apply Forall_cons; split; [split; [apply text_bytes|cbn; first [exact I|apply Hb; set_solver]]|]); apply Forall_nil_2); apply all_bytes.
Qed.

Lemma debezium_batch_exact_witness : ∃ batch (events : list (list Event)),
  example_messages = Ok batch ∧ length (messages batch) = 6%nat ∧ length events = 3%nat ∧
  Forall2 (message_reads 1000) (mjoin events) (messages batch).
Proof.
  destruct example_messages as [batch|] eqn:E; [|by vm_compute in E].
  destruct (debezium_batch_exact example_sink example_batch (text "t") 3 1000 batch example_batch_ok (text_bytes "server") E) as (events & Hops & Hread).
  exists batch, events. split_and!; [done| |by apply Forall2_length in Hops|done]. vm_compute in E. by injection E as <-.
Defined.

(** Nothing is left of the row, and the other row is untouched. *)
Lemma debezium_compaction_exact_witness : ∃ batch, example_messages = Ok batch ∧
  effects example_sink example_batch (seq 0 3) {[ text "other" := [] ]} (compacted {[ text "other" := [] ]} (messages batch)) ∧
  compacted {[ text "other" := [] ]} (messages batch) = {[ text "other" := [] ]}.
Proof.
  destruct example_messages as [batch|] eqn:E; [|by vm_compute in E]. exists batch. split; [done|]. split.
  - exact (debezium_compaction_exact example_sink example_batch (text "t") 3 1000 batch {[ text "other" := [] ]} eq_refl eq_refl E).
  - vm_compute in E. injection E as <-. vm_compute. reflexivity.
Defined.
End DebeziumExample.
