(* ===== verification/Wire.v ===== *)
(** * Protobuf wire messages

    [parsers/protoscope.rs] of [transferia-connector-support]: the fields of a Protobuf
    message without its schema, groups included, and of a protoseq of messages; and the
    frames of a protoseq in [parsers/protobuf.rs], with the bytes of corrupted frames.

    Slices of [input] at an offset are the rest of the input, so that a decoder returns what
    is left.  The decoder of groups is recursive; the fuel is the length of the input, and
    every field takes a byte of it. *)

From stdpp Require Import base tactics numbers option list.
From S2P Require Import Prelude Bytes.
Local Open Scope Z_scope.

Definition MAX_NESTING_DEPTH : nat := 64.
Definition MAX_FIELD_NUMBER : Z := Z.shiftl 1 29 - 1.
Definition PROTOSEQ_MAGIC : list Z :=
  [31; 247; 247; 126; 190; 166; 94; 158; 55; 166; 246; 46; 254; 174; 71; 167; 183; 110; 191; 175;
   22; 158; 159; 55; 246; 87; 247; 102; 167; 6; 175; 247].
Definition PROTOSEQ_MAX_RECORD_BYTES : Z := 64 * 1024 * 1024.

Inductive Framing := SingleMessage | Protoseq.
Inductive WireField := Field (number : Z) (value : WireValue)
with WireValue := Varint (v : Z) | Fixed64 (v : Z) | LengthDelimited (b : list Z) | Group (fields : list WireField) | Fixed32 (v : Z).

(** ** Decoding *)

(** [decode_varint] from the byte with this index on, with the value so far. *)
Fixpoint varint_from (n index : nat) (value : Z) (input : list Z) : option (Z * list Z) :=
  match n, input with
  | S n, byte :: input =>
      if bool_decide (index = 9%nat) && bool_decide (1 < byte) then None
      else
        let value := Z.lor value (Z.shiftl (Z.land byte 0x7f) (Z.of_nat index * 7)) in
        if bool_decide (Z.land byte 0x80 = 0) then Some (value, input) else varint_from n (S index) value input
  | _, _ => None
  end.
Definition decode_varint (input : list Z) : option (Z * list Z) := varint_from 10 0 0 input.
Arguments decode_varint : simpl never.

(** [input.get(..n)] and the rest. *)
Definition take_bytes (n : Z) (input : list Z) : option (list Z * list Z) :=
  if bool_decide (n ≤ Z.of_nat (length input)) then Some (firstn (Z.to_nat n) input, drop (Z.to_nat n) input) else None.
Arguments take_bytes : simpl never.

(** The value of a field of a kind, but for the end of a group; [nested] decodes a group. *)
Definition decode_value (nested : list Z → option (list WireField * list Z)) (kind : Z) (input : list Z) : option (WireValue * list Z) :=
  if bool_decide (kind = 0) then decode_varint input ≫= λ '(v, input), Some (Varint v, input)
  else if bool_decide (kind = 1) then take_bytes 8 input ≫= λ '(b, input), Some (Fixed64 (from_le_bytes b), input)
  else if bool_decide (kind = 2) then
    decode_varint input ≫= λ '(length, input), take_bytes length input ≫= λ '(b, input), Some (LengthDelimited b, input)
  else if bool_decide (kind = 3) then nested input ≫= λ '(fields, input), Some (Group fields, input)
  else if bool_decide (kind = 5) then take_bytes 4 input ≫= λ '(b, input), Some (Fixed32 (from_le_bytes b), input)
  else None.

(** The fields up to the end of the input or to the end of the expected group, and the rest. *)
Fixpoint decode_fields (fuel : nat) (input : list Z) (depth : nat) (expected_end_group : option Z) (fields : list WireField) :
    option (list WireField * list Z) :=
  if bool_decide (MAX_NESTING_DEPTH < depth)%nat then None
  else match fuel, input with
  | _, [] => match expected_end_group with None => Some (fields, []) | Some _ => None end
  | O, _ => None
  | S fuel, _ =>
      decode_varint input ≫= λ '(tag, input),
      let number := Z.shiftr tag 3 in
      if bool_decide (u32_max < number) || bool_decide (number = 0) || bool_decide (MAX_FIELD_NUMBER < number) then None
      else
        let kind := Z.land tag 7 in
        if bool_decide (kind = 4) && bool_decide (expected_end_group = Some number) then Some (fields, input)
        else
          decode_value (λ input, decode_fields fuel input (S depth) (Some number) []) kind input ≫= λ '(v, input),
          decode_fields fuel input depth expected_end_group (fields ++ [Field number v])
  end.

Definition decode_message (input : list Z) (depth : nat) : option (list WireField) :=
  if bool_decide (input = []) || bool_decide (MAX_NESTING_DEPTH < depth)%nat then None
  else
    decode_fields (length input) input depth None [] ≫= λ '(fields, rest),
    if bool_decide (rest = []) && match fields with [] => false | _ => true end then Some fields else None.

(** A size, a message and the marker. *)
Definition take_frame (input : list Z) : option (list Z * list Z) :=
  take_bytes 4 input ≫= λ '(size, input),
  take_bytes (from_le_bytes size) input ≫= λ '(frame, input),
  take_bytes (Z.of_nat (length PROTOSEQ_MAGIC)) input ≫= λ '(magic, input),
  if bool_decide (magic = PROTOSEQ_MAGIC) then Some (frame, input) else None.
Fixpoint protoseq_loop (fuel : nat) (input : list Z) (messages : list (list WireField)) : option (list (list WireField)) :=
  match fuel, input with
  | _, [] => match messages with [] => None | _ => Some messages end
  | O, _ => None
  | S fuel, _ =>
      take_frame input ≫= λ '(frame, input),
      decode_message frame 0 ≫= λ fields,
      protoseq_loop fuel input (messages ++ [fields])
  end.
Definition decode_protoseq (input : list Z) : option (list (list WireField)) := protoseq_loop (length input) input [].

Definition decode_payload (payload : list Z) : option (Framing * list (list WireField)) :=
  match decode_protoseq payload with
  | Some messages => Some (Protoseq, messages)
  | None => decode_message payload 0 ≫= λ fields, Some (SingleMessage, [fields])
  end.

(** ** Frames with corruption *)

(** The bytes of a record, or of a part that is no record, with the reason. *)
Inductive Frame := Record_ (raw : list Z) | IncompleteSize (raw : list Z) | Corrupted (raw : list Z) | NoMarker (raw : list Z).

(** [windows(needle.len()).position(..)] *)
Fixpoint find_subslice (haystack needle : list Z) : option nat :=
  if bool_decide (needle `prefix_of` haystack) then Some 0%nat
  else match haystack with [] => None | _ :: haystack => S <$> find_subslice haystack needle end.

(** One turn of the loop: the row that is pushed, and what remains; nothing after a break. *)
Definition next_frame (remaining : list Z) : Frame * list Z :=
  if bool_decide (length remaining < 4)%nat then (IncompleteSize remaining, [])
  else
    let size := from_le_bytes (firstn 4 remaining) in
    let framed := drop 4 remaining in
    let frame_end := size + Z.of_nat (length PROTOSEQ_MAGIC) in
    if bool_decide (size ≤ PROTOSEQ_MAX_RECORD_BYTES) && bool_decide (frame_end ≤ Z.of_nat (length framed)) &&
       bool_decide (firstn (length PROTOSEQ_MAGIC) (drop (Z.to_nat size) framed) = PROTOSEQ_MAGIC)
    then (Record_ (firstn (Z.to_nat size) framed), drop (Z.to_nat frame_end) framed)
    else
      match find_subslice framed PROTOSEQ_MAGIC with
      | Some sync => (Corrupted (firstn (4 + sync) remaining), drop (sync + length PROTOSEQ_MAGIC) framed)
      | None => (NoMarker remaining, [])
      end.
Fixpoint frames_loop (fuel : nat) (remaining : list Z) (rows : list Frame) : list Frame :=
  match fuel, remaining with
  | _, [] | O, _ => rows
  | S fuel, _ => let '(row, remaining) := next_frame remaining in frames_loop fuel remaining (rows ++ [row])
  end.
Definition protoseq_frames (input : list Z) : list Frame := frames_loop (length input) input [].

(** ** Encoding, as a reference *)
Fixpoint varint_bytes (n : nat) (v : Z) : list Z :=
  match n with
  | O => []
  | S n => if bool_decide (v < 128) then [v] else (128 + v `mod` 128) :: varint_bytes n (v / 128)
  end.
Definition encode_varint (v : Z) : list Z := varint_bytes 10 v.
Arguments encode_varint : simpl never.
Definition tag (number kind : Z) : list Z := encode_varint (number * 8 + kind).
Fixpoint encode_field (f : WireField) : list Z :=
  let 'Field number v := f in
  match v with
  | Varint v => tag number 0 ++ encode_varint v
  | Fixed64 v => tag number 1 ++ le_bytes 8 v
  | LengthDelimited b => tag number 2 ++ encode_varint (Z.of_nat (length b)) ++ b
  | Group l => tag number 3 ++ concat (map encode_field l) ++ tag number 4
  | Fixed32 v => tag number 5 ++ le_bytes 4 v
  end.
Definition encode_fields (l : list WireField) : list Z := concat (map encode_field l).

(** Fields in range, with groups nested at most [d] deep. *)
Fixpoint field_ok (d : nat) (f : WireField) : Prop :=
  let 'Field number v := f in
  1 ≤ number ≤ MAX_FIELD_NUMBER ∧
  match v with
  | Varint v | Fixed64 v => 0 ≤ v ≤ u64_max
  | LengthDelimited b => Z.of_nat (length b) ≤ u64_max
  | Group l => match d with O => False | S d => Forall (field_ok d) l end
  | Fixed32 v => 0 ≤ v ≤ u32_max
  end.

Lemma field_ok_eq d number v : field_ok d (Field number v) = (1 ≤ number ≤ MAX_FIELD_NUMBER ∧
  match v with
  | Varint v | Fixed64 v => 0 ≤ v ≤ u64_max
  | LengthDelimited b => Z.of_nat (length b) ≤ u64_max
  | Group l => match d with O => False | S d => Forall (field_ok d) l end
  | Fixed32 v => 0 ≤ v ≤ u32_max
  end).
Proof. by destruct d. Qed.

(** *** Varints *)
Lemma land_shifted value b k : 0 ≤ k → 0 ≤ value < 2 ^ k → Z.land value (Z.shiftl b k) = 0.
Proof.
  intros Hk Hv. apply Z.bits_inj'. intros i Hi. rewrite Z.land_spec, Z.testbit_0_l. destruct (decide (i < k)) as [Hlt|Hge].
  - rewrite Z.shiftl_spec_low by done. apply andb_false_r.
  - rewrite <-(Z.mod_small value (2 ^ k)) by done. by rewrite Z.mod_pow2_bits_high by lia.
Qed.
Lemma varint_step value b k : 0 ≤ k → 0 ≤ value < 2 ^ k → Z.lor value (Z.shiftl (Z.land b 0x7f) k) = value + 2 ^ k * (b `mod` 128).
Proof.
  intros Hk Hv. rewrite <-Z.add_nocarry_lor by (by apply land_shifted). f_equal. rewrite Z.shiftl_mul_pow2 by lia.
  pose proof (Z.land_ones b 7 ltac:(lia)) as E. change (Z.ones 7) with 0x7f in E. rewrite E. change (2 ^ 7) with 128. lia.
Qed.
Lemma last_byte b : bool_decide (Z.land b 0x80 = 0) = negb (Z.testbit b 7).
Proof. apply (bit_unset b 7). lia. Qed.
Lemma testbit_7 b : 0 ≤ b < 256 → Z.testbit b 7 = bool_decide (128 ≤ b).
Proof.
  intros Hb. rewrite Z.testbit_eqb by lia. change (2 ^ 7) with 128. case_bool_decide.
  - by replace (b / 128) with 1 by (apply (Z.div_unique b 128 1 (b - 128)); lia).
  - by rewrite Z.div_small by lia.
Qed.
Lemma pow_next (i : nat) : 2 ^ (Z.of_nat (S i) * 7) = 128 * 2 ^ (Z.of_nat i * 7).
Proof. replace (Z.of_nat (S i) * 7) with (7 + Z.of_nat i * 7) by lia. by rewrite Z.pow_add_r by lia. Qed.

Lemma varint_decode n index value v rest :
  (index + n = 10)%nat → 0 ≤ value < 2 ^ (Z.of_nat index * 7) → 0 ≤ v < 2 ^ (64 - Z.of_nat index * 7) →
  varint_from n index value (varint_bytes n v ++ rest) = Some (value + 2 ^ (Z.of_nat index * 7) * v, rest).
Proof.
  revert index value v. induction n as [|n IH]; intros index value v Hn Hvalue Hv.
  { replace index with 10%nat in Hv by lia. change (2 ^ (64 - Z.of_nat 10 * 7)) with 0 in Hv. lia. }
  assert (index = 9%nat → v ≤ 1) as H9 by (intros ->; change (2 ^ (64 - Z.of_nat 9 * 7)) with 2 in Hv; lia).
  cbn [varint_bytes]. case_bool_decide as Hlast; cbn [app varint_from]; rewrite varint_step, last_byte by lia.
  - rewrite testbit_7, (bool_decide_eq_false_2 (128 ≤ v)) by lia. cbn [negb]. rewrite Z.mod_small by lia.
    case_bool_decide; [|done]. by rewrite bool_decide_eq_false_2 by lia.
  - pose proof (Z.mod_pos_bound v 128). rewrite testbit_7, (bool_decide_eq_true_2 (128 ≤ _)) by lia. cbn [negb].
    rewrite (bool_decide_eq_false_2 (index = 9%nat)) by lia. cbn [andb].
    assert ((128 + v `mod` 128) `mod` 128 = v `mod` 128) as -> by (rewrite Z.add_mod, Z.mod_same, Z.add_0_l, !Z.mod_mod by lia; done).
    rewrite IH; [|lia| |].
    + f_equal. f_equal. rewrite pow_next. pose proof (Z.div_mod v 128 ltac:(lia)). nia.
    + rewrite pow_next. nia.
    + assert (index ≤ 8)%nat as Hi by lia. split; [apply Z.div_pos; lia|]. apply Z.div_lt_upper_bound; [lia|].
      replace (128 * 2 ^ (64 - Z.of_nat (S index) * 7)) with (2 ^ (64 - Z.of_nat index * 7)); [lia|].
      replace (64 - Z.of_nat index * 7) with (7 + (64 - Z.of_nat (S index) * 7)) by lia. by rewrite Z.pow_add_r by lia.
Qed.
Lemma decode_encode_varint v rest : 0 ≤ v ≤ u64_max → decode_varint (encode_varint v ++ rest) = Some (v, rest).
Proof.
  intros Hv. unfold decode_varint, encode_varint, u64_max in *. rewrite (varint_decode 10 0) by (cbn; lia). by rewrite Z.mul_1_l.
Qed.

(** A number takes a byte. *)
Lemma varint_used n index value input v rest : varint_from n index value input = Some (v, rest) → ∃ used, input = used ++ rest ∧ used ≠ [].
Proof.
  revert index value input. induction n as [|n IH]; intros index value [|b input]; cbn [varint_from]; try done.
  destruct (_ && _); [done|]. destruct (bool_decide (Z.land b 128 = 0)); [intros [= <- <-]; by exists [b]|].
  intros (used & -> & _)%IH. by exists (b :: used).
Qed.
Lemma decode_varint_used input v rest : decode_varint input = Some (v, rest) → ∃ used, input = used ++ rest ∧ used ≠ [].
Proof. apply varint_used. Qed.
(** A number that is read is of 64 bits. *)
Lemma varint_range n index value input v rest :
  (index + n = 10)%nat → Forall byte input → 0 ≤ value < 2 ^ (Z.of_nat index * 7) → varint_from n index value input = Some (v, rest) →
  0 ≤ v ≤ u64_max.
Proof.
  revert index value input. induction n as [|n IH]; intros index value input Hn Hin Hvalue; [done|]. destruct input as [|b input]; cbn [varint_from]; [done|].
  apply Forall_cons in Hin as [Hb Hin]. unfold byte in Hb. destruct (_ && _) eqn:H9; [done|]. rewrite varint_step by lia.
  pose proof (Z.mod_pos_bound b 128). destruct (bool_decide (Z.land b 128 = 0)).
  - intros [= <- <-]. unfold u64_max. destruct (decide (index = 9%nat)) as [->|Hne].
    + rewrite bool_decide_eq_true_2 in H9 by done. cbn in H9. apply bool_decide_eq_false in H9. rewrite Z.mod_small by lia.
      change (2 ^ (Z.of_nat 9 * 7)) with 9223372036854775808 in *. nia.
    + assert (2 ^ (Z.of_nat index * 7) ≤ 2 ^ 56) by (apply Z.pow_le_mono_r; lia). change (2 ^ 56) with 72057594037927936 in *. nia.
  - apply IH; [lia|done|rewrite pow_next; nia].
Qed.
Lemma decode_varint_range input v rest : Forall byte input → decode_varint input = Some (v, rest) → 0 ≤ v ≤ u64_max.
Proof. intros Hin. apply (varint_range 10 0); [done|done|cbn; lia]. Qed.

(** *** Fields *)
Lemma take_bytes_Some n input b rest : take_bytes n input = Some (b, rest) → input = b ++ rest ∧ Z.of_nat (length b) = Z.max 0 n.
Proof.
  unfold take_bytes. case_bool_decide as Hn; [|done]. intros [= <- <-]. rewrite take_drop. split; [done|]. rewrite length_take. lia.
Qed.
Lemma take_bytes_app n b rest : Z.of_nat (length b) = n → take_bytes n (b ++ rest) = Some (b, rest).
Proof.
  intros <-. unfold take_bytes. rewrite bool_decide_eq_true_2 by (rewrite length_app; lia). by rewrite Nat2Z.id, take_app_length, drop_app_length.
Qed.

Definition suffix_decoder (f : list Z → option (list WireField * list Z)) : Prop :=
  ∀ input fields rest, f input = Some (fields, rest) → ∃ used, input = used ++ rest.
Lemma decode_value_used nested kind input v rest : suffix_decoder nested →
  decode_value nested kind input = Some (v, rest) → ∃ used, input = used ++ rest.
Proof.
  intros Hn. unfold decode_value.
  destruct (bool_decide (kind = 0)), (bool_decide (kind = 1)), (bool_decide (kind = 2)), (bool_decide (kind = 3)), (bool_decide (kind = 5)); try done;
    intros ([a rest1] & H1 & Hw)%bind_Some;
    first [injection Hw as _ <-; first [apply decode_varint_used in H1 as (u & -> & _); by exists u|apply take_bytes_Some in H1 as [-> _]; by exists a|by eapply Hn]
          |apply decode_varint_used in H1 as (u & -> & _); apply bind_Some in Hw as ([b rest2] & [-> _]%take_bytes_Some & [= _ <-]); exists (u ++ b); by rewrite app_assoc].
Qed.

(** What a call does with an input that is not empty. *)
Definition fields_step (fuel : nat) (input : list Z) (depth : nat) (e : option Z) (fields : list WireField) : option (list WireField * list Z) :=
  decode_varint input ≫= λ '(tag, input),
  let number := Z.shiftr tag 3 in
  if bool_decide (u32_max < number) || bool_decide (number = 0) || bool_decide (MAX_FIELD_NUMBER < number) then None
  else if bool_decide (Z.land tag 7 = 4) && bool_decide (e = Some number) then Some (fields, input)
  else
    decode_value (λ input, decode_fields fuel input (S depth) (Some number) []) (Z.land tag 7) input ≫= λ '(v, input),
    decode_fields fuel input depth e (fields ++ [Field number v]).
Lemma decode_fields_eq fuel input depth e fields :
  decode_fields fuel input depth e fields =
  if bool_decide (MAX_NESTING_DEPTH < depth)%nat then None
  else match input with
  | [] => match e with None => Some (fields, []) | Some _ => None end
  | _ => match fuel with O => None | S fuel => fields_step fuel input depth e fields end
  end.
Proof. destruct fuel, input; done. Qed.

Lemma decode_fields_used fuel input depth e fields l rest :
  decode_fields fuel input depth e fields = Some (l, rest) → ∃ used, input = used ++ rest.
Proof.
  revert input depth e fields l rest. induction fuel as [|fuel IH]; intros input depth e fields l rest; rewrite decode_fields_eq;
    (case_bool_decide; [done|]); destruct input as [|b input]; try (destruct e; [done|]; intros [= <- <-]; by exists []).
  unfold fields_step. intros ([t in1] & (u & -> & _)%decode_varint_used & Hw)%bind_Some. destruct (_ || _ || _); [done|].
  destruct (_ && _); [injection Hw as _ <-; eauto|]. apply bind_Some in Hw as ([v in2] & Hv & Hw).
  apply decode_value_used in Hv as (u1 & ->); [|intros i f r; apply IH]. apply IH in Hw as (u2 & ->). eexists. by rewrite !app_assoc.
Qed.

(** More fuel than the input is long changes nothing. *)
Lemma decode_fields_fuel f1 f2 input depth e fields : (length input ≤ f1)%nat → (length input ≤ f2)%nat →
  decode_fields f1 input depth e fields = decode_fields f2 input depth e fields.
Proof.
  revert f2 input depth e fields. induction f1 as [|f1 IH]; intros f2 input depth e fields H1 H2; rewrite !(decode_fields_eq _ input);
    (case_bool_decide; [done|]); destruct input as [|b input]; try done; [cbn in H1; lia|]. destruct f2 as [|f2]; [cbn in H2; lia|].
  unfold fields_step. destruct (decode_varint (b :: input)) as [[t in1]|] eqn:Et; [|done]. cbn [mbind option_bind].
  destruct (_ || _ || _); [done|]. destruct (_ && _); [done|].
  apply decode_varint_used in Et as (u & Eu & Hu). assert (length in1 < length (b :: input))%nat as Hin by (rewrite Eu, length_app; destruct u; cbn; [done|lia]).
  assert (decode_value (λ input, decode_fields f1 input (S depth) (Some (Z.shiftr t 3)) []) (Z.land t 7) in1 =
          decode_value (λ input, decode_fields f2 input (S depth) (Some (Z.shiftr t 3)) []) (Z.land t 7) in1) as ->.
  { unfold decode_value. by rewrite (IH f2) by lia. }
  destruct (decode_value _ _ in1) as [[v in2]|] eqn:Ev; [|done]. cbn [mbind option_bind].
  apply decode_value_used in Ev as (u2 & ->); [|intros i f r; apply decode_fields_used]. rewrite length_app in Hin. apply IH; lia.
Qed.

(** *** Round trips *)
Lemma decode_tag number kind rest : 1 ≤ number ≤ MAX_FIELD_NUMBER → 0 ≤ kind < 8 →
  decode_varint (tag number kind ++ rest) = Some (number * 8 + kind, rest) ∧ Z.shiftr (number * 8 + kind) 3 = number ∧ Z.land (number * 8 + kind) 7 = kind.
Proof.
  intros Hn Hk. unfold MAX_FIELD_NUMBER in Hn. change (Z.shiftl 1 29 - 1) with 536870911 in Hn. split_and!.
  - apply decode_encode_varint. unfold u64_max. lia.
  - rewrite Z.shiftr_div_pow2 by lia. change (2 ^ 3) with 8. rewrite Z.div_add_l by lia. rewrite Z.div_small by lia. lia.
  - pose proof (Z.land_ones (number * 8 + kind) 3 ltac:(lia)) as E. change (Z.ones 3) with 7 in E. rewrite E. change (2 ^ 3) with 8.
    rewrite Z.add_comm, Z.mod_add by lia. apply Z.mod_small. lia.
Qed.
Lemma varint_nonempty v : encode_varint v ≠ [].
Proof. unfold encode_varint. cbn [varint_bytes]. by case_bool_decide. Qed.
Lemma nonempty_step fuel input depth e fields : input ≠ [] → (depth ≤ MAX_NESTING_DEPTH)%nat →
  decode_fields (S fuel) input depth e fields = fields_step fuel input depth e fields.
Proof. intros Hi Hd. rewrite decode_fields_eq, bool_decide_eq_false_2 by lia. by destruct input. Qed.

(** A tag of a field that is in range. *)
Lemma step_tag fuel number kind rest depth e fields : 1 ≤ number ≤ MAX_FIELD_NUMBER → 0 ≤ kind < 8 →
  fields_step fuel (tag number kind ++ rest) depth e fields =
  if bool_decide (kind = 4) && bool_decide (e = Some number) then Some (fields, rest)
  else
    decode_value (λ input, decode_fields fuel input (S depth) (Some number) []) kind rest ≫= λ '(v, input),
    decode_fields fuel input depth e (fields ++ [Field number v]).
Proof.
  intros Hn Hk. unfold fields_step. destruct (decode_tag number kind rest Hn Hk) as (-> & Es & El). cbn [mbind option_bind]. rewrite Es, El.
  unfold MAX_FIELD_NUMBER, u32_max in *. change (Z.shiftl 1 29 - 1) with 536870911 in *. rewrite !(bool_decide_eq_false_2 (_ < number)) by lia.
  by rewrite (bool_decide_eq_false_2 (number = 0)) by lia.
Qed.

(** The values of a field that is in range, but for groups. *)
Lemma decode_scalar nested d number v rest : field_ok d (Field number v) → (∀ l, v ≠ Group l) →
  ∃ kind body, 0 ≤ kind < 8 ∧ kind ≠ 4 ∧ encode_field (Field number v) = tag number kind ++ body ∧ decode_value nested kind (body ++ rest) = Some (v, rest).
Proof.
  rewrite field_ok_eq. unfold u64_max, u32_max. intros [Hn Hv] Hg. destruct v as [v|v|b|l|v]; try (by destruct (Hg l)); cbn [encode_field].
  - exists 0, (encode_varint v). split_and!; [lia|lia|done|done|].
    change (decode_varint (encode_varint v ++ rest) ≫= (λ '(v, input), Some (Varint v, input)) = Some (Varint v, rest)). by rewrite decode_encode_varint.
  - exists 1, (le_bytes 8 v). split_and!; [lia|lia|done|done|].
    change (take_bytes 8 (le_bytes 8 v ++ rest) ≫= (λ '(b, input), Some (Fixed64 (from_le_bytes b), input)) = Some (Fixed64 v, rest)).
    rewrite take_bytes_app by (by rewrite length_le_bytes). cbn [mbind option_bind]. rewrite from_le_le. rewrite Z.mod_small by (cbn; lia). done.
  - exists 2, (encode_varint (Z.of_nat (length b)) ++ b). split_and!; [lia|lia|done|done|]. rewrite <-app_assoc.
    change (decode_varint (encode_varint (Z.of_nat (length b)) ++ b ++ rest) ≫= (λ '(n, input), take_bytes n input ≫= λ '(b, input), Some (LengthDelimited b, input)) = Some (LengthDelimited b, rest)).
    rewrite decode_encode_varint by (unfold u64_max; lia). cbn [mbind option_bind]. by rewrite take_bytes_app.
  - exists 5, (le_bytes 4 v). split_and!; [lia|lia|done|done|].
    change (take_bytes 4 (le_bytes 4 v ++ rest) ≫= (λ '(b, input), Some (Fixed32 (from_le_bytes b), input)) = Some (Fixed32 v, rest)).
    rewrite take_bytes_app by (by rewrite length_le_bytes). cbn [mbind option_bind]. rewrite from_le_le. rewrite Z.mod_small by (cbn; lia). done.
Qed.
Lemma decode_group nested rest : decode_value nested 3 rest = (nested rest ≫= λ '(fields, input), Some (Group fields, input)).
Proof. done. Qed.

(** Decoding what was encoded appends the fields, whatever follows. *)
Lemma decode_encode_fields d l fuel fuel' depth e acc rest :
  Forall (field_ok d) l → (depth + d ≤ MAX_NESTING_DEPTH)%nat → (length (encode_fields l ++ rest) ≤ fuel)%nat → (length rest ≤ fuel')%nat →
  decode_fields fuel (encode_fields l ++ rest) depth e acc = decode_fields fuel' rest depth e (acc ++ l).
Proof.
  revert l fuel fuel' depth e acc rest. induction d as [d IHd] using lt_wf_ind. intros l fuel fuel' depth e acc rest Hl Hd. revert acc fuel.
  induction Hl as [|[number v] l Hf _ IHl]; intros acc fuel Hfuel Hfuel'.
  { rewrite app_nil_r. by apply decode_fields_fuel. }
  change (encode_fields (Field number v :: l)) with (encode_field (Field number v) ++ encode_fields l) in *. rewrite <-app_assoc in *.
  set (after := encode_fields l ++ rest) in *. rewrite cons_middle, app_assoc.
  assert (1 ≤ number ≤ MAX_FIELD_NUMBER) as Hn by (rewrite field_ok_eq in Hf; tauto).
  assert (∀ kind body, tag number kind ++ body ≠ []) as Hne by (intros kind body [Ht _]%app_nil; by apply varint_nonempty in Ht).
  assert (∀ kind body, (length (tag number kind ++ body ++ after) ≤ fuel)%nat → ∃ f, fuel = S f ∧ (length (body ++ after) ≤ f)%nat) as Hlen.
  { intros kind body Hle. rewrite length_app in Hle. destruct (tag number kind) eqn:Et; [by apply varint_nonempty in Et|]. cbn [length] in Hle.
    destruct fuel as [|f]; [lia|]. exists f. split; [done|]. lia. }
  assert ((∃ nested, v = Group nested) ∨ ∀ nested, v ≠ Group nested) as [[nested ->]|Hs] by (destruct v; eauto).
  - cbn [encode_field] in *. change (concat (map encode_field nested)) with (encode_fields nested) in *. rewrite <-app_assoc in Hfuel.
    destruct (Hlen 3 (encode_fields nested ++ tag number 4)) as (f & -> & Hf'); [done|]. rewrite <-!app_assoc in *.
    rewrite nonempty_step, step_tag by (first [done|lia]). rewrite (bool_decide_eq_false_2 (3 = 4)) by done. cbn [andb]. rewrite field_ok_eq in Hf. destruct Hf as [_ Hf]. destruct d as [|d]; [done|].
    rewrite decode_group, (IHd d ltac:(lia) nested f (S (length (tag number 4 ++ after))) (S depth)) by (first [done|lia]).
    rewrite nonempty_step, step_tag by (first [done|lia]). rewrite (bool_decide_eq_true_2 (4 = 4)), (bool_decide_eq_true_2 (Some number = _)) by done.
    cbn [andb mbind option_bind]. rewrite app_assoc. apply IHl; [|done]. rewrite !length_app in *. lia.
  - destruct (decode_scalar (λ input, decode_fields (pred fuel) input (S depth) (Some number) []) d number v after Hf Hs) as (kind & body & Hk & H4 & Eb & Ev).
    rewrite Eb in *. rewrite <-app_assoc in *. destruct (Hlen kind body Hfuel) as (f & -> & Hf'). rewrite nonempty_step, step_tag by (first [done|lia]).
    rewrite bool_decide_eq_false_2 by done. cbn [andb]. cbn [pred] in Ev. rewrite Ev. cbn [mbind option_bind]. rewrite ?app_assoc. apply IHl; [|done]. rewrite length_app in Hf'. lia.
Qed.

(** C32. Fields in range, with groups nested at most 64 deep, are decoded as they were encoded. *)
Theorem wire_roundtrip (l : list WireField) :
  l ≠ [] → Forall (field_ok MAX_NESTING_DEPTH) l → decode_message (encode_fields l) 0 = Some l.
Proof.
  intros Hne Hl. unfold decode_message. assert (encode_fields l ≠ []) as Hin.
  { destruct l as [|[n v] l]; [done|]. change (encode_fields (Field n v :: l)) with (encode_field (Field n v) ++ encode_fields l).
    intros [E _]%app_nil. by destruct v; cbn in E; apply app_nil in E as [E%varint_nonempty _]. }
  rewrite bool_decide_eq_false_2 by done. cbn [orb]. rewrite bool_decide_eq_false_2 by lia.
  pose proof (decode_encode_fields MAX_NESTING_DEPTH l (length (encode_fields l)) 0 0 None [] [] Hl ltac:(lia)) as E. rewrite app_nil_r in E.
  rewrite E by (cbn; lia). rewrite decode_fields_eq, bool_decide_eq_false_2 by lia. cbn. by destruct l.
Qed.

(** *** Fields that are decoded *)
Lemma decode_value_ok nested kind input v rest d number : Forall byte input → 1 ≤ number ≤ MAX_FIELD_NUMBER →
  (∀ input l rest, Forall byte input → nested input = Some (l, rest) → ∃ d', d = S d' ∧ Forall (field_ok d') l) →
  decode_value nested kind input = Some (v, rest) → field_ok d (Field number v).
Proof.
  intros Hin Hn Hnested. rewrite field_ok_eq. unfold decode_value.
  assert (∀ n b r, take_bytes n input = Some (b, r) → 0 ≤ n → 0 ≤ from_le_bytes b < 256 ^ n) as Hfixed.
  { intros n b r [E Hl]%take_bytes_Some H0. rewrite E in Hin. apply Forall_app in Hin as [Hb _].
    pose proof (from_le_range _ Hb) as Hr. by rewrite Hl, Z.max_r in Hr by lia. }
  destruct (bool_decide (kind = 0)), (bool_decide (kind = 1)), (bool_decide (kind = 2)), (bool_decide (kind = 3)), (bool_decide (kind = 5)); try done;
    intros ([a r] & H1 & Hw)%bind_Some; (split; [done|]); unfold u64_max, u32_max;
    first [injection Hw as <- _; first [exact (decode_varint_range _ _ _ Hin H1)|destruct (Hnested _ _ _ Hin H1) as (d' & -> & Hd); exact Hd
            |pose proof (Hfixed 8 _ _ H1 ltac:(lia)); change (256 ^ 8) with 18446744073709551616 in *; lia
            |pose proof (Hfixed 4 _ _ H1 ltac:(lia)); change (256 ^ 4) with 4294967296 in *; lia]
          |apply bind_Some in Hw as ([b r2] & [_ Hl]%take_bytes_Some & [= <- _]); pose proof (decode_varint_range _ _ _ Hin H1) as Hr; unfold u64_max in Hr; lia].
Qed.
Lemma decode_fields_ok fuel input depth e acc l rest :
  Forall byte input → Forall (field_ok (MAX_NESTING_DEPTH - depth)) acc → decode_fields fuel input depth e acc = Some (l, rest) →
  (depth ≤ MAX_NESTING_DEPTH)%nat ∧ Forall (field_ok (MAX_NESTING_DEPTH - depth)) l.
Proof.
  revert input depth e acc l rest. induction fuel as [|fuel IH]; intros input depth e acc l rest Hin Hacc; rewrite decode_fields_eq;
    (case_bool_decide; [done|]); (destruct input as [|b input]; [destruct e; [done|]; intros [= <- _]; split; [lia|done]|]); [done|].
  unfold fields_step. intros ([t in1] & Ht & Hw)%bind_Some. pose proof (decode_varint_range _ _ _ Hin Ht) as [Ht0 _].
  apply decode_varint_used in Ht as (u & Eu & _). rewrite Eu in Hin. apply Forall_app in Hin as [_ Hin1]. destruct (_ || _ || _) eqn:En; [done|]. bool_inv.
  destruct (_ && _); [injection Hw as <- _; split; [lia|done]|]. apply bind_Some in Hw as ([v in2] & Hv & Hw).
  assert (0 ≤ Z.shiftr t 3) by (by apply Z.shiftr_nonneg).
  assert (Forall byte in2) as Hin2 by (apply decode_value_used in Hv as (u2 & ->); [by apply Forall_app in Hin1 as [_ ?]|intros ? ? ?; apply decode_fields_used]).
  eapply decode_value_ok with (d := (MAX_NESTING_DEPTH - depth)%nat) (number := Z.shiftr t 3) in Hv; [|done|lia|].
  - apply IH in Hw; [done|done|]. apply Forall_app. split; [done|by constructor].
  - intros i l' r Hi [Hd Hl']%IH; [|done|constructor]. exists (MAX_NESTING_DEPTH - S depth)%nat. split; [lia|done].
Qed.

(** C37. Whatever bytes are accepted, the fields read from them are in range: numbers from 1
    to the greatest field number, values of their widths, groups at most 64 deep. *)
Theorem wire_decoded_ok (input : list Z) (l : list WireField) :
  Forall byte input → decode_message input 0 = Some l → l ≠ [] ∧ Forall (field_ok MAX_NESTING_DEPTH) l.
Proof.
  intros Hin. unfold decode_message. destruct (_ || _); [done|]. intros ([l' rest] & Hl & Hw)%bind_Some.
  apply decode_fields_ok in Hl as [_ Hl]; [|done|constructor]. destruct (_ && _) eqn:E; [|done]. injection Hw as ->. split; [|done].
  intros ->. by rewrite andb_false_r in E.
Qed.

(** *** Frames *)

(** The input a frame was read from. *)
Definition frame_bytes (f : Frame) : list Z :=
  match f with
  | Record_ raw => le_bytes 4 (Z.of_nat (length raw)) ++ raw ++ PROTOSEQ_MAGIC
  | Corrupted raw => raw ++ PROTOSEQ_MAGIC
  | IncompleteSize raw | NoMarker raw => raw
  end.

Lemma find_subslice_Some haystack needle i : find_subslice haystack needle = Some i →
  haystack = firstn i haystack ++ needle ++ drop (i + length needle) haystack.
Proof.
  revert i. induction haystack as [|b haystack IH]; intros i; cbn [find_subslice]; case_bool_decide as Hp.
  1, 3: intros [= <-]; destruct Hp as [k ->]; cbn [firstn app]; by rewrite Nat.add_0_l, drop_app_length.
  - done.
  - intros (j & Hj & ->)%fmap_Some. apply IH in Hj. cbn [firstn Nat.add drop app]. by rewrite <-Hj.
Qed.

Lemma next_frame_bytes remaining f rest : remaining ≠ [] → Forall byte remaining → next_frame remaining = (f, rest) →
  remaining = frame_bytes f ++ rest ∧ (length rest < length remaining)%nat.
Proof.
  intros Hne Hb. unfold next_frame. assert (0 < length remaining)%nat as Hpos by (destruct remaining; cbn; [done|lia]).
  case_bool_decide as H4; [intros [= <- <-]; cbn; rewrite app_nil_r; split; [done|lia]|].
  assert (remaining = firstn 4 remaining ++ drop 4 remaining) as E by (by rewrite take_drop).
  change (length PROTOSEQ_MAGIC) with 32%nat. destruct (_ && _ && _) eqn:G; [|destruct (find_subslice _ _) as [sync|] eqn:F].
  - intros [= <- <-]. bool_inv. set (size := from_le_bytes (firstn 4 remaining)) in *. set (framed := drop 4 remaining) in *.
    assert (Forall byte (firstn 4 remaining)) as Hsize by (by apply Forall_take). pose proof (from_le_range _ Hsize) as Hr.
    pose proof (le_from_le _ Hsize) as Hle. rewrite length_take, Nat.min_l in Hle by lia. fold size in Hr, Hle.
    assert (framed = firstn (Z.to_nat size) framed ++ PROTOSEQ_MAGIC ++ drop (Z.to_nat (size + Z.of_nat 32)) framed) as Ef.
    { rewrite <-(take_drop (Z.to_nat size) framed) at 1. f_equal. rewrite <-(take_drop 32 (drop (Z.to_nat size) framed)). rewrite drop_drop.
      f_equal; [done|]. f_equal. lia. }
    split.
    + cbn [frame_bytes]. rewrite length_take, Nat.min_l by lia. rewrite Z2Nat.id by lia. rewrite Hle, <-!app_assoc, <-Ef. done.
    + unfold framed. rewrite !length_drop. lia.
  - intros [= <- <-]. apply find_subslice_Some in F. change (length PROTOSEQ_MAGIC) with 32%nat in F. set (framed := drop 4 remaining) in *. split.
    + cbn [frame_bytes]. rewrite E at 1 2. fold framed. rewrite (take_app_ge (firstn 4 remaining)) by (rewrite length_take; lia).
      rewrite length_take, Nat.min_l by lia. replace (S (S (S (S sync))) - 4)%nat with sync by lia. rewrite <-!app_assoc, <-F. done.
    + unfold framed. rewrite !length_drop. lia.
  - intros [= <- <-]. cbn. rewrite app_nil_r. split; [done|lia].
Qed.

Lemma frames_cover fuel remaining rows : (length remaining ≤ fuel)%nat → Forall byte remaining →
  concat (map frame_bytes (frames_loop fuel remaining rows)) = concat (map frame_bytes rows) ++ remaining.
Proof.
  revert remaining rows. induction fuel as [|fuel IH]; intros remaining rows Hf Hb; [destruct remaining; [by rewrite app_nil_r|cbn in Hf; lia]|].
  destruct (decide (remaining = [])) as [->|Hne]; [cbn; by rewrite app_nil_r|].
  destruct (next_frame remaining) as [f rest] eqn:En. assert (frames_loop (S fuel) remaining rows = frames_loop fuel rest (rows ++ [f])) as ->.
  { destruct remaining; [done|]. cbn [frames_loop]. by rewrite En. }
  apply next_frame_bytes in En as [E Hl]; [|done|done]. rewrite IH; [|lia|rewrite E in Hb; by apply Forall_app in Hb as [_ ?]].
  rewrite map_app, concat_app. cbn. rewrite app_nil_r, <-app_assoc. by rewrite <-E.
Qed.

(** No byte of a protoseq is lost, corrupted or not: the input is, in order, the bytes of
    the records with their sizes and markers and of the parts reported as corrupted. *)
Theorem protoseq_lossless (input : list Z) :
  Forall byte input → concat (map frame_bytes (protoseq_frames input)) = input.
Proof. intros Hb. by apply (frames_cover _ _ []). Qed.

Lemma next_frame_record r rest : Z.of_nat (length r) ≤ PROTOSEQ_MAX_RECORD_BYTES → next_frame (frame_bytes (Record_ r) ++ rest) = (Record_ r, rest).
Proof.
  intros Hr. unfold next_frame. cbn [frame_bytes]. rewrite <-!app_assoc.
  assert (length (le_bytes 4 (Z.of_nat (length r))) = 4%nat) as Hl by apply length_le_bytes.
  rewrite (bool_decide_eq_false_2 (_ < 4)%nat) by (rewrite length_app, Hl; lia).
  rewrite (take_app_length' _ _ 4), (drop_app_length' _ _ 4) by done. rewrite from_le_le. unfold PROTOSEQ_MAX_RECORD_BYTES in *.
  rewrite Z.mod_small by (change (256 ^ Z.of_nat 4) with 4294967296; lia). rewrite Nat2Z.id, drop_app_length. rewrite (bool_decide_eq_true_2 (_ ≤ 64 * 1024 * 1024)) by lia.
  rewrite (bool_decide_eq_true_2 (_ ≤ Z.of_nat _)) by (rewrite !length_app; lia). rewrite take_app_length, bool_decide_eq_true_2 by done. cbn [andb].
  rewrite take_app_length. f_equal. rewrite <-Nat2Z.inj_add, Nat2Z.id. rewrite app_assoc. apply drop_app_length'. by rewrite length_app.
Qed.
(** The records of a protoseq that is well formed are exactly those it was made of. *)
Theorem protoseq_records_exact (records : list (list Z)) :
  Forall (λ r, Z.of_nat (length r) ≤ PROTOSEQ_MAX_RECORD_BYTES) records →
  protoseq_frames (concat (map frame_bytes (map Record_ records))) = map Record_ records.
Proof.
  intros Hr. unfold protoseq_frames.
  assert (∀ fuel rows, (length (concat (map frame_bytes (map Record_ records))) ≤ fuel)%nat →
    frames_loop fuel (concat (map frame_bytes (map Record_ records))) rows = rows ++ map Record_ records) as Hloop; [|by rewrite Hloop].
  induction Hr as [|r records Hr _ IH]; intros fuel rows Hf; [cbn; rewrite app_nil_r; by destruct fuel|].
  cbn [map concat] in *. set (input := frame_bytes (Record_ r) ++ _) in *.
  assert (4 + length (concat (map frame_bytes (map Record_ records))) ≤ length input)%nat as Hlen by (unfold input; cbn [frame_bytes]; rewrite !length_app, length_le_bytes; lia).
  destruct fuel as [|fuel]; [lia|]. assert (frames_loop (S fuel) input rows = let '(row, rest) := next_frame input in frames_loop fuel rest (rows ++ [row])) as ->.
  { destruct input; [cbn in Hlen; lia|done]. }
  unfold input at 1. rewrite next_frame_record by done. rewrite IH by lia. by rewrite <-app_assoc.
Qed.

(** ** A message *)
Module WireExample.
Definition example_fields : list WireField :=
  [Field 1 (Varint 18446744073709551615); Field 2 (LengthDelimited [104; 105]); Field 3 (Group [Field 4 (Fixed32 7); Field 536870911 (Fixed64 1)])].
Lemma wire_roundtrip_witness : decode_message (encode_fields example_fields) 0 = Some example_fields.
Proof.
  assert (∀ number, bool_decide (1 ≤ number ≤ 536870911) = true → 1 ≤ number ≤ MAX_FIELD_NUMBER) as Hn by (intros n Hn%bool_decide_eq_true; exact Hn).
  apply (wire_roundtrip example_fields); [done|]. unfold example_fields. pose proof field_ok_eq as E. unfold u64_max, u32_max in E.
  apply Forall_cons. split; [rewrite E; split; [by apply Hn|lia]|].
  apply Forall_cons. split; [rewrite E; split; [by apply Hn|cbn [length]; lia]|].
  apply Forall_cons. split; [|apply Forall_nil_2]. rewrite E. split; [by apply Hn|]. change (Forall (field_ok 63) [Field 4 (Fixed32 7); Field 536870911 (Fixed64 1)]).
  apply Forall_cons. split; [rewrite E; split; [by apply Hn|lia]|].
  apply Forall_cons. split; [rewrite E; split; [by apply Hn|lia]|apply Forall_nil_2].
Defined.
Lemma wire_decoded_ok_witness : Forall byte [10; 2; 104; 105] ∧ decode_message [10; 2; 104; 105] 0 = Some [Field 1 (LengthDelimited [104; 105])] ∧
  Forall (field_ok MAX_NESTING_DEPTH) [Field 1 (LengthDelimited [104; 105])].
Proof.
  assert (Forall byte [10; 2; 104; 105]) as Hb by (repeat constructor; done). split; [exact Hb|]. split; [reflexivity|].
  exact (proj2 (wire_decoded_ok [10; 2; 104; 105] _ Hb eq_refl)).
Defined.
Lemma protoseq_lossless_witness : Forall byte [1; 2; 3; 4; 5] ∧ protoseq_frames [1; 2; 3; 4; 5] = [NoMarker [1; 2; 3; 4; 5]] ∧
  concat (map frame_bytes (protoseq_frames [1; 2; 3; 4; 5])) = [1; 2; 3; 4; 5].
Proof.
  assert (Forall byte [1; 2; 3; 4; 5]) as Hb by (repeat constructor; done). split; [exact Hb|]. split; [reflexivity|]. exact (protoseq_lossless _ Hb).
Defined.
Lemma protoseq_records_exact_witness : protoseq_frames (concat (map frame_bytes (map Record_ [[1; 2]; []; [3]]))) = map Record_ [[1; 2]; []; [3]].
Proof. apply protoseq_records_exact. repeat constructor; done. Defined.
End WireExample.
