(* ===== verification/QueueParsers.v ===== *)
(** * TSKV records and raw messages

    [parsers/tskv.rs] and [parsers/raw_to_table.rs] of [transferia-connector-support]: the
    fields of a TSKV record and the JSON object they become, and the table of the messages of
    a queue with its dead letters.

    Text is its UTF-8 bytes; TSKV's delimiters and escapes are ASCII, so that its characters
    are split at the same bytes.  serde_json's numbers, strings and validation are
    interfaces. *)

From stdpp Require Import base tactics numbers option strings gmap sets list.
From S2P Require Import Prelude Bytes Text Schema Arrow Delivery Failure Reader JsonWriter JsonText.
Local Open Scope Z_scope.

(** ** TSKV *)
Inductive TskvError := NotUtf8 | NotTskv | MissingEquals | EmptyName | RepeatedField (k : list Z) | EndsWithEscape | BadEscape (c : Z)
| TskvTombstone | NotBoolean (k : list Z) | NotNumber (k : list Z) | JsonKind.

Definition unescape_char (c : Z) : result TskvError Z :=
  if bool_decide (c = 92) then Ok 92
  else if bool_decide (c = 116) then Ok 9
  else if bool_decide (c = 110) then Ok 10
  else if bool_decide (c = 114) then Ok 13
  else if bool_decide (c = 48) then Ok 0
  else Err (BadEscape c).
Fixpoint unescape_from (output value : list Z) : result TskvError (list Z) :=
  match value with
  | [] => Ok output
  | c :: value =>
      if negb (bool_decide (c = 92)) then unescape_from (output ++ [c]) value
      else match value with
      | [] => Err EndsWithEscape
      | escaped :: value => unescape_char escaped ≫= λ x, unescape_from (output ++ [x]) value
      end
  end.
Definition unescape (value : list Z) : result TskvError (list Z) := unescape_from [] value.

Abbreviation Fields := (gmap (list Z) (list Z)).
Definition parse_field (fields : Fields) (field : list Z) : result TskvError Fields :=
  ok_or (split_at 61 field) MissingEquals ≫= λ '(k, v),
  unescape k ≫= λ k,
  ensure (negb (bool_decide (k = []))) EmptyName ≫= λ _,
  unescape v ≫= λ v,
  ensure (bool_decide (fields !! k = None)) (RepeatedField k) ≫= λ _,
  Ok (<[k := v]> fields).
Definition parse_record (payload : list Z) : result TskvError Fields :=
  ensure (utf8 payload) NotUtf8 ≫= λ _,
  let parts := split_bytes 9 payload in
  ensure (bool_decide (head parts = Some (text "tskv"))) NotTskv ≫= λ _,
  for_each parse_field (tail parts) ∅.

(** ** Columns *)
Inductive JsonDataType := KString | KNumber | KBoolean | KDecimal | KJson.
Definition value_kind (arrow_type : string) : JsonDataType :=
  if bool_decide (arrow_type = "Boolean") then KBoolean
  else if bool_decide (arrow_type = "Decimal128") then KDecimal
  else if String.prefix "Int" arrow_type || String.prefix "UInt" arrow_type || String.prefix "Float" arrow_type then KNumber
  else KString.

Section transform.
(** [serde_json::Number], its parser, and [serde_json::to_vec] of an object. *)
Context {Number : Type} (from_str : list Z → option Number).
Inductive JsonValue := JString (s : list Z) | JBool (b : bool) | JNumber (n : Number).
Context (to_vec : gmap (list Z) JsonValue → list Z).

Definition json_value (kinds : gmap (list Z) JsonDataType) (k raw : list Z) : result TskvError JsonValue :=
  match default KString (kinds !! k) with
  | KString | KDecimal => Ok (JString raw)
  | KBoolean =>
      if bool_decide (raw = text "true") then Ok (JBool true)
      else if bool_decide (raw = text "false") then Ok (JBool false)
      else Err (NotBoolean k)
  | KNumber => ok_or (JNumber <$> from_str raw) (NotNumber k)
  | KJson => Err JsonKind
  end.
(** The fields in the order of their names. *)
Definition transform_message (kinds : gmap (list Z) JsonDataType) (order : Fields → list (list Z * list Z)) (message : Message) : result TskvError Message :=
  ensure (negb (tombstone message)) TskvTombstone ≫= λ _,
  parse_record (msg_value message) ≫= λ fields,
  for_each (λ object kv, json_value kinds kv.1 kv.2 ≫= λ v, Ok (<[kv.1 := v]> object)) (order fields) ∅ ≫= λ object,
  Ok {| msg_value := to_vec object; tombstone := tombstone message; msg_key := msg_key message; headers := headers message; meta := meta message |}.
End transform.

(** ** Round trip *)
Definition escape_byte (b : Z) : list Z :=
  if bool_decide (b = 92) then [92; 92] else if bool_decide (b = 9) then [92; 116] else if bool_decide (b = 10) then [92; 110]
  else if bool_decide (b = 13) then [92; 114] else if bool_decide (b = 0) then [92; 48] else [b].
Definition escape_text (s : list Z) : list Z := s ≫= escape_byte.
Definition render_field (kv : list Z * list Z) : list Z := escape_text kv.1 ++ [61] ++ escape_text kv.2.
Definition render_record (fields : list (list Z * list Z)) : list Z := text "tskv" ++ (fields ≫= λ kv, 9 :: render_field kv).

Lemma unescape_byte b output rest : unescape_from output (escape_byte b ++ rest) = unescape_from (output ++ [b]) rest.
Proof. unfold escape_byte. repeat (case_bool_decide; [by subst|]). cbn. by rewrite bool_decide_eq_false_2. Qed.
Lemma unescape_escape s : unescape (escape_text s) = Ok s.
Proof.
  assert (∀ output, unescape_from output (escape_text s) = Ok (output ++ s)) as Hs; [|apply Hs].
  induction s as [|b s IH]; intros output; [cbn; by rewrite app_nil_r|]. change (escape_text (b :: s)) with (escape_byte b ++ escape_text s).
  rewrite unescape_byte, IH. by rewrite <-app_assoc.
Qed.
Lemma escaped_clean c s : c ∉ s → c ∉ [9; 10; 13; 0; 92; 116; 110; 114; 48] ∨ c = 9 → c ∉ escape_text s.
Proof.
  intros Hs Hc Hin. unfold escape_text in Hin. apply list_elem_of_bind in Hin as (b & Hb & Hbs). unfold escape_byte in Hb.
  repeat (case_bool_decide; [set_solver|]). apply list_elem_of_singleton in Hb as ->. done.
Qed.
Lemma tab_escaped s : 9 ∉ escape_text s.
Proof.
  intros Hin. unfold escape_text in Hin. apply list_elem_of_bind in Hin as (b & Hb & _). unfold escape_byte in Hb.
  repeat (case_bool_decide; [set_solver|]). apply list_elem_of_singleton in Hb. done.
Qed.

Lemma split_at_app c l k : c ∉ l → split_at c (l ++ c :: k) = Some (l, k).
Proof.
  intros Hl. unfold split_at. assert (list_find (λ b, b = c) (l ++ c :: k) = Some (length l, c)) as ->.
  { apply list_find_Some. split_and!; [by apply list_lookup_middle|done|]. intros j y Hj Hlt ->. rewrite lookup_app_l in Hj by done.
    by apply list_elem_of_lookup_2 in Hj. }
  rewrite take_app_length. f_equal. f_equal. rewrite cons_middle, app_assoc. apply drop_app_length'. rewrite length_app. cbn. lia.
Qed.
Lemma split_bytes_app c l k : c ∉ l → split_bytes c (l ++ c :: k) = l :: split_bytes c k.
Proof.
  induction l as [|b l IH]; intros Hl; cbn; [by rewrite bool_decide_eq_true_2|]. apply not_elem_of_cons in Hl as [Hb Hl].
  rewrite bool_decide_eq_false_2 by done. by rewrite IH.
Qed.
Lemma split_bytes_one c l : c ∉ l → split_bytes c l = [l].
Proof.
  induction l as [|b l IH]; intros Hl; [done|]. apply not_elem_of_cons in Hl as [Hb Hl]. cbn. rewrite bool_decide_eq_false_2 by done. by rewrite IH.
Qed.
Lemma split_record first fields : 9 ∉ first → split_bytes 9 (first ++ (fields ≫= λ kv, 9 :: render_field kv)) = first :: map render_field fields.
Proof.
  revert first. induction fields as [|kv fields IH]; intros first Hf; cbn; [rewrite app_nil_r; by apply split_bytes_one|].
  rewrite split_bytes_app by done. f_equal. apply IH. unfold render_field. rewrite !not_elem_of_app. pose proof (tab_escaped kv.1). pose proof (tab_escaped kv.2). set_solver.
Qed.

(** A record of named fields is read back: every name and value, whatever bytes are in
    them, as long as the names are distinct, not empty and free of [=]. *)
Theorem tskv_roundtrip (fields : list (list Z * list Z)) :
  NoDup fields.*1 → Forall (λ kv, kv.1 ≠ [] ∧ 61 ∉ kv.1) fields → utf8 (render_record fields) = true →
  parse_record (render_record fields) = Ok (list_to_map fields).
Proof.
  intros Hnd Hok Hutf. unfold parse_record. rewrite Hutf. cbn [ensure mbind result_bind]. unfold render_record. rewrite split_record by (vm_compute; set_solver).
  cbn [head tail]. rewrite bool_decide_eq_true_2 by done. cbn [ensure mbind result_bind].
  assert (∀ acc : Fields, (∀ kv, kv ∈ fields → acc !! kv.1 = None) → for_each parse_field (map render_field fields) acc = Ok (list_to_map fields ∪ acc)) as Hloop.
  { clear Hutf. induction fields as [|[k v] fields IH]; intros acc Hacc; [cbn; by rewrite (left_id_L ∅ (∪))|]. cbn [map for_each].
    apply Forall_cons in Hok as [[Hne Heq] Hok]. cbn in Hnd. apply NoDup_cons in Hnd as [Hk Hnd]. cbn [fst] in *.
    assert (parse_field acc (render_field (k, v)) = Ok (<[k := v]> acc)) as ->.
    { unfold parse_field, render_field. cbn [fst snd]. change ([61] ++ escape_text v) with (61 :: escape_text v).
      rewrite split_at_app by (apply escaped_clean; [done|left; set_solver]). cbn [ok_or mbind result_bind]. rewrite !unescape_escape. cbn [mbind result_bind].
      rewrite (bool_decide_eq_false_2 (k = [])) by done. cbn [negb ensure mbind result_bind].
      rewrite bool_decide_eq_true_2; [done|]. apply (Hacc (k, v)). by left. }
    cbn [mbind result_bind]. rewrite IH; [|done|done|].
    - f_equal. cbn [list_to_map foldr]. rewrite <-insert_union_l, <-insert_union_r; [done|]. apply not_elem_of_list_to_map_1. done.
    - intros kv Hkv. rewrite lookup_insert_ne; [apply Hacc; by right|]. intros ->. apply Hk. by apply list_elem_of_fmap_2. }
  rewrite Hloop; [by rewrite (right_id_L ∅ (∪))|]. intros kv _. apply lookup_empty.
Qed.

(** ** Raw messages as a table *)
Inductive RawValueType := RawBytes | RawString | RawJson.
Record RawToTableParserConfig := {
  key_type : RawValueType; value_type : RawValueType; preserve_key : bool; preserve_headers : bool; preserve_write_timestamp : bool
}.
Inductive RawError := MissingTopic | MissingPartition | MissingOffset | RawNotUtf8 | HeaderSize | MemoryBound.
Inductive RejectReason := TombstoneWithValue | ValueNotUtf8 | ValueNotJson | KeyNotUtf8 | KeyNotJson.

(** A row of the table; a column that is not preserved is [None]. *)
Record RawRow := {
  row_topic : string; row_partition : Z; row_offset : Z; row_timestamp : option (option Z); row_headers : option (list Z);
  row_key : option (option (list Z)); row_tombstone : bool; row_value : option (list Z)
}.
(** A row of the dead-letter table. *)
Record DlqRow := {
  dlq_topic : string; dlq_partition : Z; dlq_offset : Z; dlq_timestamp : option Z; dlq_headers : list Z; dlq_key : option (list Z);
  dlq_tombstone : bool; dlq_value : list Z; dlq_reason : RejectReason
}.

(** serde_json: whether [IgnoredAny] accepts the bytes, and a string as JSON; base64. *)
Class RawCrates := {
  ignored_any : list Z → bool;
  serde_string : string → list Z;
  raw_base64 : list Z → list Z
}.

Section raw.
Context `{RawCrates}.

Definition validate_value (t : RawValueType) (v : list Z) (not_utf8 not_json : RejectReason) : result RejectReason unit :=
  match t with
  | RawBytes => Ok tt
  | RawString => ensure (utf8 v) not_utf8
  | RawJson => ensure (ignored_any v) not_json
  end.
Definition required_metadata (m : MessageMeta) : result RawError (string * Z * Z) :=
  ok_or (topic m) MissingTopic ≫= λ t, ok_or (partition m) MissingPartition ≫= λ p, ok_or (offset m) MissingOffset ≫= λ o, Ok (t, p, o).

Definition validate_message (c : RawToTableParserConfig) (m : Message) : result RejectReason unit :=
  ensure (negb (tombstone m) || bool_decide (msg_value m = [])) TombstoneWithValue ≫= λ _,
  (if tombstone m then Ok tt else validate_value (value_type c) (msg_value m) ValueNotUtf8 ValueNotJson) ≫= λ _,
  if preserve_key c then match msg_key m with Some k => validate_value (key_type c) k KeyNotUtf8 KeyNotJson | None => Ok tt end else Ok tt.

(** [RawBuilder::append] and [append_option]: a string column takes UTF-8. *)
Definition append (t : RawValueType) (v : list Z) : result RawError (list Z) :=
  match t with RawBytes => Ok v | RawString | RawJson => ensure (utf8 v) RawNotUtf8 ≫= λ _, Ok v end.
Definition append_option (t : RawValueType) (v : option (list Z)) : result RawError (option (list Z)) :=
  match v with None => Ok None | Some v => append t v ≫= λ v, Ok (Some v) end.

Definition write_header (output : list Z) (x : nat * (string * option (list Z))) : result RawError (list Z) :=
  let output := if bool_decide (0 < x.1)%nat then output ++ [44] else output in
  let output := output ++ [123; 34] ++ text "key" ++ [34; 58] ++ serde_string x.2.1 ++ [44; 34] ++ text "value_base64" ++ [34; 58] in
  match x.2.2 with
  | Some v =>
      let encoded_len := (Z.of_nat (length v) + 2) / 3 * 4 in
      let output := output ++ [34] in
      ensure (bool_decide (Z.of_nat (length v) + 2 ≤ usize_max) && bool_decide (encoded_len ≤ usize_max)) HeaderSize ≫= λ _,
      ensure (bool_decide (Z.of_nat (length output) + encoded_len ≤ usize_max)) HeaderSize ≫= λ _,
      Ok (output ++ raw_base64 v ++ [34])
  | None => Ok (output ++ text "null")
  end ≫= λ output, Ok (output ++ [125]).
Definition write_headers_json (headers : list (string * option (list Z))) : result RawError (list Z) :=
  for_each write_header (imap pair headers) [91] ≫= λ output, Ok (output ++ [93]).

Definition raw_row (c : RawToTableParserConfig) (m : Message) (t : string) (p o : Z) : result RawError RawRow :=
  (if preserve_headers c then write_headers_json (headers m) ≫= λ h, append RawString h ≫= λ h, Ok (Some h) else Ok None) ≫= λ h,
  (if preserve_key c then append_option (key_type c) (msg_key m) ≫= λ k, Ok (Some k) else Ok None) ≫= λ k,
  (if tombstone m then Ok None else append (value_type c) (msg_value m) ≫= λ v, Ok (Some v)) ≫= λ v,
  Ok {| row_topic := t; row_partition := p; row_offset := o; row_timestamp := if preserve_write_timestamp c then Some (write_timestamp_ms (meta m)) else None;
        row_headers := h; row_key := k; row_tombstone := tombstone m; row_value := v |}.
(** The loop over the messages: the rows, and the rejected messages with their reasons. *)
Definition parse_message (c : RawToTableParserConfig) (acc : list RawRow * list (Message * RejectReason)) (m : Message) :
    result RawError (list RawRow * list (Message * RejectReason)) :=
  required_metadata (meta m) ≫= λ '(t, p, o),
  match validate_message c m with
  | Err reason => Ok (acc.1, acc.2 ++ [(m, reason)])
  | Ok _ => raw_row c m t p o ≫= λ row, Ok (acc.1 ++ [row], acc.2)
  end.

Definition dlq_row (x : Message * RejectReason) : result RawError DlqRow :=
  required_metadata (meta x.1) ≫= λ '(t, p, o),
  write_headers_json (headers x.1) ≫= λ h,
  append RawString h ≫= λ h,
  Ok {| dlq_topic := t; dlq_partition := p; dlq_offset := o; dlq_timestamp := write_timestamp_ms (meta x.1); dlq_headers := h; dlq_key := msg_key x.1;
        dlq_tombstone := tombstone x.1; dlq_value := msg_value x.1; dlq_reason := x.2 |}.
Definition build_dlq (rejected : list (Message * RejectReason)) : result RawError (list DlqRow) :=
  for_each (λ rows x, dlq_row x ≫= λ row, Ok (rows ++ [row])) rejected [].

Definition parse_messages (c : RawToTableParserConfig) (messages : list Message) : result RawError (list RawRow * option (list DlqRow)) :=
  for_each (parse_message c) messages ([], []) ≫= λ '(rows, rejected),
  match rejected with
  | [] => Ok (rows, None)
  | _ => build_dlq rejected ≫= λ dlq, Ok (rows, Some dlq)
  end.

(** Saturating sums over the messages and headers. *)
Definition sat_add (a b : Z) : Z := Z.min usize_max (a + b).
Definition sat_mul (a b : Z) : Z := Z.min usize_max (a * b).
Definition output_memory_bound (messages : list Message) : Z :=
  foldl (λ total m,
    let headers_ := foldl (λ size h,
      sat_add (sat_add (sat_add size (sat_mul (Z.of_nat (String.length h.1)) 6)) (match h.2 with Some v => sat_mul (Z.of_nat (length v)) 2 | None => 4 end)) 32) 0 (headers m) in
    sat_add (sat_add (sat_add (sat_add (sat_add total (Z.of_nat (length (msg_value m)))) (match msg_key m with Some k => Z.of_nat (length k) | None => 0 end))
      (match topic (meta m) with Some t => Z.of_nat (String.length t) | None => 0 end)) headers_) 512) 0 messages.
Definition parse_into (c : RawToTableParserConfig) (memory_limit_bytes : Z) (messages : list Message) : result RawError (list RawRow * option (list DlqRow)) :=
  ensure (bool_decide (output_memory_bound messages ≤ memory_limit_bytes)) MemoryBound ≫= λ _,
  parse_messages c messages.

(** ** Every message is a row *)

(** The row a message becomes. *)
Definition becomes (c : RawToTableParserConfig) (m : Message) (r : RawRow) : Prop :=
  validate_message c m = Ok tt ∧ topic (meta m) = Some (row_topic r) ∧ partition (meta m) = Some (row_partition r) ∧ offset (meta m) = Some (row_offset r) ∧
  row_tombstone r = tombstone m ∧ row_value r = (if tombstone m then None else Some (msg_value m)) ∧
  row_key r = (if preserve_key c then Some (msg_key m) else None) ∧
  row_timestamp r = (if preserve_write_timestamp c then Some (write_timestamp_ms (meta m)) else None) ∧
  (if preserve_headers c then ∃ h, write_headers_json (headers m) = Ok h ∧ row_headers r = Some h else row_headers r = None).
Definition refused (c : RawToTableParserConfig) (m : Message) (r : DlqRow) : Prop :=
  validate_message c m = Err (dlq_reason r) ∧ topic (meta m) = Some (dlq_topic r) ∧ partition (meta m) = Some (dlq_partition r) ∧ offset (meta m) = Some (dlq_offset r) ∧
  dlq_tombstone r = tombstone m ∧ dlq_value r = msg_value m ∧ dlq_key r = msg_key m ∧ dlq_timestamp r = write_timestamp_ms (meta m) ∧
  write_headers_json (headers m) = Ok (dlq_headers r).
(** Every message is a row of the table or of the dead letters, in order. *)
Inductive routed (c : RawToTableParserConfig) : list Message → list RawRow → list DlqRow → Prop :=
| routed_nil : routed c [] [] []
| routed_row m ms r rows dlq : becomes c m r → routed c ms rows dlq → routed c (m :: ms) (r :: rows) dlq
| routed_dlq m ms r rows dlq : refused c m r → routed c ms rows dlq → routed c (m :: ms) rows (r :: dlq).

Lemma metadata_Ok m t p o : required_metadata m = Ok (t, p, o) → topic m = Some t ∧ partition m = Some p ∧ offset m = Some o.
Proof. unfold required_metadata. destruct (topic m), (partition m), (offset m); cbn; try done. by intros [= -> -> ->]. Qed.
Lemma raw_append_Ok t v w : append t v = Ok w → w = v.
Proof. destruct t; cbn; [by intros [= <-]|intros (_ & _ & [= <-])%bind_Ok; done|intros (_ & _ & [= <-])%bind_Ok; done]. Qed.
Lemma raw_row_becomes c m t p o r : required_metadata (meta m) = Ok (t, p, o) → validate_message c m = Ok tt → raw_row c m t p o = Ok r → becomes c m r.
Proof.
  intros (Ht & Hp & Ho)%metadata_Ok Hv (h & Hh & (k & Hk & (v & Hval & [= <-])%bind_Ok)%bind_Ok)%bind_Ok. unfold becomes. cbn. split_and!; try done.
  - destruct (tombstone m); [by injection Hval as <-|]. apply bind_Ok in Hval as (w & ->%raw_append_Ok & [= <-]). done.
  - destruct (preserve_key c); [|by injection Hk as <-]. apply bind_Ok in Hk as (w & Hw & [= <-]). f_equal.
    unfold append_option in Hw. destruct (msg_key m); [|by injection Hw as <-]. by apply bind_Ok in Hw as (x & ->%raw_append_Ok & [= <-]).
  - destruct (preserve_headers c); [|by injection Hh as <-]. apply bind_Ok in Hh as (w & Hw & (x & ->%raw_append_Ok & [= <-])%bind_Ok). eauto.
Qed.
Lemma dlq_row_refused c m reason r : validate_message c m = Err reason → dlq_row (m, reason) = Ok r → refused c m r.
Proof.
  intros Hv ([[t p] o] & (Ht & Hp & Ho)%metadata_Ok & (h & Hh & (h' & ->%raw_append_Ok & [= <-])%bind_Ok)%bind_Ok)%bind_Ok. done.
Qed.
Lemma build_dlq_Ok rejected dlq : build_dlq rejected = Ok dlq → Forall2 (λ x r, dlq_row x = Ok r) rejected dlq.
Proof.
  unfold build_dlq. apply (for_each_ind (λ seen rows, Forall2 (λ x r, dlq_row x = Ok r) seen rows)); [constructor|].
  intros l1 x l2 s1 s2 _ Hs (r & Hr & [= <-])%bind_Ok. apply Forall2_app; [done|by constructor].
Qed.

(** One list of messages gives the rows and the rejected messages of it alone. *)
Lemma parse_loop c messages acc rows rejected dlq : for_each (parse_message c) messages acc = Ok (rows, rejected) →
  Forall2 (λ x r, dlq_row x = Ok r) rejected dlq →
  ∃ rows' dlq', rows = acc.1 ++ rows' ∧ routed c messages rows' dlq' ∧ ∃ before, dlq = before ++ dlq' ∧ Forall2 (λ x r, dlq_row x = Ok r) acc.2 before.
Proof.
  revert acc rows rejected dlq. induction messages as [|m messages IH]; intros acc rows rejected dlq; cbn [for_each].
  { intros [= ->] Hd. exists [], []. cbn. rewrite app_nil_r. split_and!; [done|constructor|]. exists dlq. by rewrite app_nil_r. }
  intros (acc' & ([[t p] o] & Hmeta & Hm)%bind_Ok & Hr)%bind_Ok Hd. destruct (validate_message c m) as [[]|reason] eqn:Hv.
  - apply bind_Ok in Hm as (r & Hrow & [= <-]). apply IH with (dlq := dlq) in Hr as (rows' & dlq' & -> & Hrt & before & -> & Hb); [|done].
    exists (r :: rows'), dlq'. cbn in *. split_and!; [by rewrite <-app_assoc|by apply routed_row; [eapply raw_row_becomes|]|by exists before].
  - injection Hm as <-. apply IH with (dlq := dlq) in Hr as (rows' & dlq' & -> & Hrt & before & -> & Hb); [|done]. cbn in *.
    apply Forall2_app_inv_l in Hb as (b1 & b2 & Hb1 & Hb2 & ->). apply Forall2_cons_inv_l in Hb2 as (r & b3 & Hb2 & ->%Forall2_nil_inv_l & ->).
    exists rows', (r :: dlq'). split_and!; [done|by apply routed_dlq; [eapply dlq_row_refused|]|]. exists b1. by rewrite <-app_assoc.
Qed.

(** When a batch of messages is parsed, every message is one row, in order: of the table
    with its position, key, value and timestamp if it is valid, of the dead letters with all
    of its parts and the reason otherwise; there is a dead-letter table only when needed. *)
Theorem raw_messages_routed (c : RawToTableParserConfig) (messages : list Message) (rows : list RawRow) (dlq : option (list DlqRow)) :
  parse_messages c messages = Ok (rows, dlq) → routed c messages rows (default [] dlq) ∧ dlq ≠ Some [].
Proof.
  intros ([rows' rejected] & Hloop & Hw)%bind_Ok.
  assert (∃ d, Forall2 (λ x r, dlq_row x = Ok r) rejected d ∧ dlq = (match rejected with [] => None | _ => Some d end) ∧ rows = rows') as (d & Hd & -> & ->).
  { destruct rejected; [injection Hw as <- <-; by exists []|]. apply bind_Ok in Hw as (d & Hd%build_dlq_Ok & [= <- <-]). eauto. }
  destruct (parse_loop _ _ _ _ _ _ Hloop Hd) as (rows1 & dlq1 & -> & Hr & before & -> & ->%Forall2_nil_inv_l). cbn in *.
  destruct rejected; [apply Forall2_nil_inv_l in Hd as ->; by split|]. split; [done|]. apply Forall2_length in Hd. intros [= ->]. done.
Qed.

(** A message whose value [IgnoredAny] accepts as JSON although it is not UTF-8 is not a
    dead letter: it fails the batch it is in. *)
Theorem raw_json_fails_batch (c : RawToTableParserConfig) (before after : list Message) (m : Message) (rows : list RawRow) (rejected : list (Message * RejectReason)) :
  value_type c = RawJson → preserve_key c = false → preserve_headers c = false → tombstone m = false →
  ignored_any (msg_value m) = true → utf8 (msg_value m) = false → is_Some (topic (meta m)) → is_Some (partition (meta m)) → is_Some (offset (meta m)) →
  for_each (parse_message c) before ([], []) = Ok (rows, rejected) →
  parse_messages c (before ++ m :: after) = Err RawNotUtf8.
Proof.
  intros Hvt Hk Hh Ht Hj Hu [t Et] [p Ep] [o Eo] Hb. unfold parse_messages. rewrite for_each_app, Hb. cbn [mbind result_bind for_each].
  assert (parse_message c (rows, rejected) m = Err RawNotUtf8) as ->; [|done].
  unfold parse_message, required_metadata. rewrite Et, Ep, Eo. cbn [ok_or mbind result_bind]. unfold validate_message. rewrite Ht, Hk, Hvt. cbn. rewrite Hj. cbn.
  unfold raw_row. rewrite Hh, Hk, Ht, Hvt. cbn. by rewrite Hu.
Qed.
End raw.

(** ** Examples *)
Module ParserExample.
#[export] Instance example_raw : RawCrates := {|
  ignored_any v := match tokens v with Some [TString _] | Some [TWord _] => true | _ => false end;
  serde_string s := write_json_string [] (text s);
  raw_base64 := JsonExample.base64
|}.
Definition at_offset (o : Z) (v : list Z) : Message :=
  {| msg_value := v; tombstone := false; msg_key := Some [1]; headers := [("h"%string, Some [255]); ("n"%string, None)];
     meta := {| topic := Some "topic"%string; partition := Some 0; offset := Some o; write_timestamp_ms := None |} |}.
Definition strings : RawToTableParserConfig :=
  {| key_type := RawBytes; value_type := RawString; preserve_key := true; preserve_headers := true; preserve_write_timestamp := true |}.
Definition jsons : RawToTableParserConfig :=
  {| key_type := RawBytes; value_type := RawJson; preserve_key := false; preserve_headers := false; preserve_write_timestamp := false |}.

Lemma tskv_roundtrip_witness :
  parse_record (render_record [(text "name", [9; 92; 10]); (text "x", text "a=b")]) = Ok (list_to_map [(text "name", [9; 92; 10]); (text "x", text "a=b")]).
Proof.
  apply tskv_roundtrip; [|repeat constructor; vm_compute; set_solver|reflexivity]. apply NoDup_cons. split; [vm_compute; set_solver|]. apply NoDup_singleton.
Defined.

(** The second value is not UTF-8. *)
Lemma raw_messages_routed_witness : ∃ rows dlq, parse_messages strings [at_offset 1 (text "a"); at_offset 2 [255]] = Ok (rows, Some dlq) ∧
  length rows = 1%nat ∧ length dlq = 1%nat ∧ routed strings [at_offset 1 (text "a"); at_offset 2 [255]] rows dlq.
Proof.
  destruct (parse_messages strings [at_offset 1 (text "a"); at_offset 2 [255]]) as [[rows dlq]|] eqn:E; [|by vm_compute in E].
  pose proof (proj1 (raw_messages_routed _ _ _ _ E)) as Hr. vm_compute in E. injection E as <- <-. eexists _, _. split; [reflexivity|].
  split; [reflexivity|]. split; [reflexivity|]. exact Hr.
Defined.

(** A JSON string with a byte that is not UTF-8, between good messages. *)
Lemma raw_json_fails_batch_witness :
  parse_messages jsons [at_offset 1 (text "1"); at_offset 2 [34; 255; 34]; at_offset 3 (text "2")] = Err RawNotUtf8.
Proof.
  eapply (raw_json_fails_batch jsons [at_offset 1 (text "1")] [at_offset 3 (text "2")] (at_offset 2 [34; 255; 34])); try reflexivity; by eexists.
Defined.
End ParserExample.
